(* ===== verification/_CoqProject ===== *)
-Q . S2P
Prelude.v
Prog.v
Control.v
Throws.v
Model.v
Source.v
QtrbWire.v
QtrbPayload.v
QtrbCodec.v
QtrbEvents.v
Qtrb.v
QtrbRefine.v
QtrbFormat.v
QtrbSteps.v
QtrbSound.v
QtrbLoop.v
QtrbInv.v
QtrbComplete.v
QtrbRoundtrip.v
QtrbShared.v
QtrbClient.v
QtrbSample.v
QtrbTheorems.v
Budget.v
BudgetQtrb.v
FlightWire.v
FlightContext.v
FlightErrors.v
FlightScan.v
FlightLoss.v
FlightSort.v
FlightMerge.v
FlightReport.v
FlightEmergency.v
FlightPayload.v
FlightRegisters.v
FlightFragments.v
FlightEvents.v
FlightDecode.v
FlightAccount.v
FlightResult.v
FlightRecover.v
FlightRecovered.v
FlightPhysical.v
FlightOutcome.v
FlightProvider.v
FlightOpened.v
Cursor.v
Streams.v
Jobs.v
Answers.v
Index.v
Orders.v
IndexSort.v
Intervals.v
Postings.v
SourceKeys.v
KeyedMaps.v
PartitionCheck.v
Arena.v
Catalog.v
Queries.v
CatalogCheck.v
DecodeWork.v
Analysis.v
Discontinuity.v
Registers.v
RegisterReplay.v
RegisterState.v
