(* ===== verification/Prelude.v ===== *)
(** * Verification of the qtrace-ui trace analyzer

    qtrace-ui reads execution traces written by an instrumented Android process.
    A trace is one of two binary formats: [QTRB], a stream of framed records, and
    [Flight], a crash-tolerant memory image of per-thread chunks.  The provider
    crate ([src/qtrace-ui/crates/qtrace-provider]) turns either into the same
    stream of typed events, under a work guard that may abort it at any charge
    and a heap that may refuse any reservation; the store crate opens sessions
    over providers, the analysis crate answers queries over the events and the
    service crate runs this for a user interface with budgets and jobs.

    ** Method

    A Rust function is a Rocq function of the same name.  [&mut self], [Result]
    with [?] and the guard are the monad [Prog W E S A] of [Prog]: a world [W], an
    error [E], a mutable receiver [S].  The world is a parameter: [WorkGuard W]
    and [Allocator W] ([Control]) are classes whose instances answer every charge
    and reservation, and a theorem quantifies over all of them.  The world [unit]
    never refuses; it is the one examples are evaluated in.  Integers are [Z] with
    the checked, wrapping and saturating operations of the source written out;
    strings are their UTF-8 bytes; a [Vec] is its items and its capacity; hash
    maps are [gmap]s, and where the code iterates over one, the order is the
    parameter [HashOrder] or [HashIteration].  The standard library's unstable sort
    is the class [UnstableSort], whose laws are that it returns a sorted
    permutation; the digest of the arena is a function about which nothing is
    assumed.

    Proofs about a program use the weakest precondition [wp] and its rules
    ([Prog]), the database [refine] and, in the Flight files, loop rules over
    [fold_each].  Abstract specifications are relations that mention no guard,
    heap or error: the QTRB step relation ([QtrbSteps]), the chain of records of
    a chunk ([FlightScan]), the account of a decode ([FlightResult]) and what an
    artifact holds ([FlightOutcome.holds]).

    ** Files and sources

    Shared: [Prelude] (integers, lists, automation), [Prog] (the monad), [Control]
    ([control.rs], [error.rs], [allocation.rs]), [Throws] (errors a program can
    raise), [Model] ([model.rs]), [Source] ([source.rs]).

    QTRB ([qtrb/]): [QtrbWire] ([wire.rs]), [QtrbPayload] ([cursor.rs]),
    [QtrbEvents] ([events.rs]), [Qtrb] ([mod.rs]).  [QtrbCodec], [QtrbFormat] and
    [QtrbRoundtrip] relate decoders to encodings; [QtrbSteps] is the specification
    and [QtrbSound], [QtrbComplete], [QtrbRefine], [QtrbLoop] and [QtrbInv] relate
    the code to it; [QtrbShared] compares the two copies of the decoders;
    [QtrbClient] and [QtrbSample] are a client and a sample stream; the results
    are in [QtrbTheorems].

    Flight ([flight/]): [FlightWire] ([wire.rs]), [FlightSort] ([sort.rs]),
    [FlightContext], [FlightScan], [FlightLoss], [FlightMerge], [FlightReport] and
    [FlightRecover] ([recovery.rs] from the helpers to [recover]),
    [FlightEmergency] ([recovery/emergency.rs]), [FlightPayload], [FlightRegisters]
    and [FlightEvents] ([events.rs]), [FlightFragments] ([fragments.rs]),
    [FlightProvider] ([mod.rs]).  [FlightErrors], [FlightDecode], [FlightAccount],
    [FlightResult], [FlightRecovered], [FlightPhysical], [FlightOutcome] and
    [FlightOpened] hold their laws.

    Above the providers: [Cursor] ([EventCursor] of [source.rs] as a class,
    its two implementations, and the cursors and the probe of
    [qtrace-store/src/session.rs]), [Streams] (their theorems), [Budget]
    ([qtrace-service/src/budget.rs]) and [BudgetQtrb] (a provider run under it),
    [Jobs] ([qtrace-service/src/jobs.rs]).

    The index of the store ([qtrace-store/src/index/]): [Answers] (programs that
    answer under any guard and heap, chunked loops), [Index] (errors, guarded
    reservations, partition points and the radix sort of [mod.rs] and
    [allocation.rs]), [Orders] (the comparisons of the source and their laws),
    [IndexSort] ([sorting.rs], and the law of the radix sort), [Intervals]
    ([intervals.rs]), [Postings] ([postings.rs]), [SourceKeys] ([source_keys.rs]),
    [KeyedMaps] (the sorted maps and the partitions of [builder.rs]),
    [PartitionCheck] (the laws of [validate_posting_partition]), [Arena]
    ([ByteArena] of [mod.rs]), [Catalog] ([build_indexes] of [builder.rs]),
    [Queries] (the bounded queries and the lookups of [TraceStoreView]),
    [CatalogCheck] ([validate] of a stored catalog, with [payload.rs]) and
    [DecodeWork] ([CandidateGuard] of [qtrace-analysis/src/timeline.rs] and the
    work of a query).

    Analysis ([qtrace-analysis/src/]): [Analysis] (its errors and what it reads of
    the store), [Discontinuity] ([timeline/discontinuity.rs]), [Registers]
    ([registers.rs]); [RegisterReplay] and [RegisterState] hold its laws.

    ** What the theorems show

    - QTRB: one turn of the cursor does exactly what the step relation allows, in
      both directions; decoders accept exactly the encodings of the format; the
      loop terminates on every source; guards and heaps change whether a call
      succeeds and never what it returns; events are ordered, references
      resolved, dictionaries stable, the lifecycle enforced, and a drained stream
      was read to its last byte.
    - Flight: the parsers accept exactly the encodings; a chunk is recovered
      exactly when its bytes are a chain of committed records; the emergency
      cells follow the two-cell protocol; the radix sort is the stable sort;
      every sequence number between two known ones is recovered, damaged or
      reported; decoding accounts for every record once; and [recover] as a whole
      publishes the chunks whose data check, and no others, each with exactly its
      records, and reports the rest, or fails with one of its own error codes.
    - Streams: a QTRB session, read to its end, gives the provider's events and
      summary under the session's timeline, or fails for good; the cursors a
      session puts around another change the timeline and check the file, and
      nothing else; an opened Flight artifact streams its events.
    - Service: a budget admits within its limits (sequentially, and when atomic
      additions interleave while the total fits the counter), and any budget
      whose counter wraps after a refusal admits again; the job registry keeps its limits and never rewrites a
      finished job.
    - Index: the catalog answers every query with exactly the rows that a scan of
      the normalized rows finds, and the estimate of a query bounds the work that
      the query charges to its guard; intervals, postings, source keys and the
      arena each are exact against a plain reference and survive being written and
      read; a stored catalog that passes its checks answers every query as a scan
      of its tables would, whatever the file held; a query by value goes through
      the first entry of the dictionary with that value.
    - Analysis: the register state at an event is the plain replay of all rows
      before it, whatever checkpoint it resumes from; discontinuity payloads
      round-trip.

    ** Fuel and bounds

    A loop of the source over a list is [fold_each] and needs no fuel.  The
    remaining loops have fuel, and each is proved not to run out: the QTRB loop
    with the unread bytes of the source plus one (each turn that continues
    consumes a record header), a chunk scan with the length of its extent plus
    one (each turn consumes at least a record header), a cycle of the permutation
    with the number of rows, [drain] of a Flight cursor with one call more than
    there are events.  [drain] over an arbitrary cursor returns [None] when it
    runs out, because an arbitrary cursor need not end.  In the index, a binary
    search ([partition_loop], [get_loop], [find_loop], [upper_bound_loop]) has the
    length of its list plus one, [prefix_loop] its upper bound plus one,
    [merge_loop] the rows of both runs, [merge_rounds] the length of the list
    (the width doubles), [intersect_loop] the length of both lists, [chunks] the
    length of the list, [group_loop] the number of pairs, [consume_span] the
    length of the span plus one, and [members] the unread text plus one.

    [usize] has 64 bits, as on the desktop hosts the analyzer is built for.  Sizes
    of types and the capacities the heap grants are parameters of [Allocator].

    ** Not modelled

    LZ4 decompression and file opening ([qtrb/input.rs]), hashing and the identity
    of files, directory watching, locks and caches: effects of the operating
    system or of third-party crates, which enter as a lawful source.  Serde and
    Display implementations, but for the texts the modelled code compares.  Of the
    index: reading provider events into normalized rows and the file sections; of
    the analysis: planning, filters, paging,
    memory, call tree and provenance; annotations, symbols and the request
    handlers of the service; the desktop shell and the user interface. *)

From stdpp Require Import prelude list strings pretty.
From Stdlib Require Import ZArith Lia Strings.Byte Sorted.

#[global] Set Default Goal Selector "!".

Declare Scope prog_scope.
Delimit Scope prog_scope with prog.

Create HintDb qtrace discriminated.
Create HintDb refine discriminated.

Local Open Scope Z_scope.

(** ** Machine integers

    Every Rust integer is a [Z] kept in the range of its type.  [usize] is the
    64-bit [usize] of the desktop hosts the analyzer supports. *)

Definition u8_max : Z := 255.
Definition u16_max : Z := 65535.
Definition u32_max : Z := 4294967295.
Definition u64_max : Z := 18446744073709551615.
Definition usize_max : Z := u64_max.

Definition in_u8 (z : Z) : Prop := 0 <= z <= u8_max.
Definition in_u16 (z : Z) : Prop := 0 <= z <= u16_max.
Definition in_u32 (z : Z) : Prop := 0 <= z <= u32_max.
Definition in_u64 (z : Z) : Prop := 0 <= z <= u64_max.
Definition in_i64 (z : Z) : Prop := -(2 ^ 63) <= z < 2 ^ 63.

Definition checked_add (max a b : Z) : option Z :=
  if a + b <=? max then Some (a + b) else None.
Definition checked_sub (a b : Z) : option Z :=
  if b <=? a then Some (a - b) else None.
Definition checked_mul (max a b : Z) : option Z :=
  if a * b <=? max then Some (a * b) else None.
Definition saturating_add (max a b : Z) : Z := Z.min max (a + b).
Definition saturating_sub (a b : Z) : Z := Z.max 0 (a - b).
Definition saturating_mul (max a b : Z) : Z := Z.min max (a * b).
Definition wrapping_add (max a b : Z) : Z := (a + b) mod (max + 1).
Definition wrapping_mul (max a b : Z) : Z := (a * b) mod (max + 1).
Definition try_from (max z : Z) : option Z := if z <=? max then Some z else None.

Ltac machine :=
  unfold in_u8, in_u16, in_u32, in_u64, in_i64, checked_add, checked_sub, checked_mul,
    saturating_add, saturating_sub, saturating_mul, wrapping_add, wrapping_mul, try_from,
    usize_max, u8_max, u16_max, u32_max, u64_max in *.

Lemma checked_add_Some max a b c :
  checked_add max a b = Some c <-> c = a + b /\ a + b <= max.
Proof. unfold checked_add. case_match eqn:E; split; naive_solver lia. Qed.

Lemma checked_add_ok max a b : a + b <= max -> checked_add max a b = Some (a + b).
Proof. intros. by apply checked_add_Some. Qed.

Lemma checked_add_None max a b : checked_add max a b = None <-> max < a + b.
Proof. unfold checked_add. case_match eqn:E; split; naive_solver lia. Qed.

Lemma saturating_add_exact max a b : a + b <= max -> saturating_add max a b = a + b.
Proof. unfold saturating_add. lia. Qed.

Lemma checked_mul_Some max a b c :
  checked_mul max a b = Some c <-> c = a * b /\ a * b <= max.
Proof. unfold checked_mul. case_match eqn:E; split; naive_solver lia. Qed.

(** ** Bytes and little-endian fields *)

#[global] Instance byte_eq_dec : EqDecision byte.
Proof. intros a b. destruct (Byte.byte_eq_dec a b); [left|right]; assumption. Defined.

Abbreviation bytes := (list byte).

Definition Z_of_byte (b : byte) : Z := Z.of_N (Byte.to_N b).
Definition byte_of_Z (z : Z) : byte :=
  match Byte.of_N (Z.to_N (z mod 256)) with Some b => b | None => x00 end.

Definition zlen {A} (l : list A) : Z := Z.of_nat (length l).

(** [u16::from_le_bytes] and its siblings. *)
Fixpoint le_Z (bs : bytes) : Z :=
  match bs with
  | [] => 0
  | b :: bs => Z_of_byte b + 256 * le_Z bs
  end.

(** [to_le_bytes] at [n] bytes. *)
Fixpoint le_bytes (n : nat) (z : Z) : bytes :=
  match n with
  | O => []
  | S n => byte_of_Z z :: le_bytes n (z / 256)
  end.

(** [i64::from_le_bytes]: the two's-complement reading of eight bytes. *)
Definition signed64 (z : Z) : Z := if z <? 2 ^ 63 then z else z - 2 ^ 64.

Lemma Z_of_byte_range b : 0 <= Z_of_byte b <= 255.
Proof. unfold Z_of_byte. pose proof (Byte.to_N_bounded b). lia. Qed.

Lemma Z_of_byte_of_Z z : Z_of_byte (byte_of_Z z) = z mod 256.
Proof.
  unfold byte_of_Z, Z_of_byte. pose proof (Z.mod_pos_bound z 256 ltac:(lia)).
  destruct (Byte.of_N _) as [b|] eqn:E.
  - apply Byte.to_of_N in E. rewrite E. lia.
  - apply Byte.of_N_None_iff in E. lia.
Qed.

Lemma byte_of_Z_of_byte b : byte_of_Z (Z_of_byte b) = b.
Proof.
  unfold byte_of_Z. rewrite Z.mod_small by (pose proof (Z_of_byte_range b); lia).
  unfold Z_of_byte. rewrite N2Z.id, Byte.of_to_N. done.
Qed.

Lemma Z_of_byte_inj a b : Z_of_byte a = Z_of_byte b -> a = b.
Proof. intros H. rewrite <- (byte_of_Z_of_byte a), <- (byte_of_Z_of_byte b). by f_equal. Qed.

Lemma le_Z_range bs : 0 <= le_Z bs < 256 ^ zlen bs.
Proof.
  unfold zlen. induction bs as [|b bs IH]; [done|].
  cbn [le_Z length]. rewrite Nat2Z.inj_succ, Z.pow_succ_r by lia.
  pose proof (Z_of_byte_range b). nia.
Qed.

Lemma length_le_bytes n z : length (le_bytes n z) = n.
Proof. revert z. induction n; intros; cbn; auto. Qed.

(** Lengths as the code's 64-bit values. *)
Lemma zlen_app {A} (a b : list A) : zlen (a ++ b) = zlen a + zlen b.
Proof. unfold zlen. rewrite length_app. lia. Qed.
Lemma zlen_nil {A} : zlen (@nil A) = 0.
Proof. done. Qed.
Lemma zlen_nonneg {A} (l : list A) : 0 <= zlen l.
Proof. unfold zlen. lia. Qed.
Lemma zlen_le_bytes n z : zlen (le_bytes n z) = Z.of_nat n.
Proof. unfold zlen. by rewrite length_le_bytes. Qed.
Lemma zlen_replicate {A} n (x : A) : zlen (replicate n x) = Z.of_nat n.
Proof. unfold zlen. by rewrite length_replicate. Qed.

Lemma le_Z_le_bytes n z : 0 <= z < 256 ^ Z.of_nat n -> le_Z (le_bytes n z) = z.
Proof.
  revert z. induction n as [|n IH]; intros z; cbn [le_bytes le_Z].
  - change (256 ^ Z.of_nat 0) with 1. lia.
  - rewrite Nat2Z.inj_succ, Z.pow_succ_r by lia. intros Hz.
    rewrite IH, Z_of_byte_of_Z by (split; [apply Z.div_pos|apply Z.div_lt_upper_bound]; lia).
    pose proof (Z.div_mod z 256 ltac:(lia)). lia.
Qed.

Lemma le_bytes_le_Z n bs : length bs = n -> le_bytes n (le_Z bs) = bs.
Proof.
  revert n. induction bs as [|b bs IH]; intros [|n] Hn; try done.
  cbn [le_bytes le_Z]. pose proof (Z_of_byte_range b). f_equal.
  - rewrite <- (byte_of_Z_of_byte b) at 2. unfold byte_of_Z. do 3 f_equal.
    rewrite Z.mul_comm, Z.mod_add by lia. done.
  - rewrite Z.mul_comm, Z.div_add, Z.div_small by lia. apply IH. cbn in Hn. lia.
Qed.

Lemma signed64_range z : in_u64 z -> in_i64 (signed64 z).
Proof. unfold signed64. machine. case_match; lia. Qed.

(** ** UTF-8

    [std::str::from_utf8]: the well-formedness table of the Unicode standard. *)

Definition in_range (b : byte) (lo hi : Z) : bool := (lo <=? Z_of_byte b) && (Z_of_byte b <=? hi).
Definition utf8_cont (b : byte) : bool := in_range b 128 191.

(** The second byte a three- or four-byte lead admits. *)
Definition utf8_lead3 (b1 b2 : byte) : bool :=
  (in_range b1 224 224 && in_range b2 160 191)
  || (in_range b1 225 236 && utf8_cont b2)
  || (in_range b1 237 237 && in_range b2 128 159)
  || (in_range b1 238 239 && utf8_cont b2).
Definition utf8_lead4 (b1 b2 : byte) : bool :=
  (in_range b1 240 240 && in_range b2 144 191)
  || (in_range b1 241 243 && utf8_cont b2)
  || (in_range b1 244 244 && in_range b2 128 143).

Fixpoint utf8_valid (bs : bytes) : bool :=
  match bs with
  | [] => true
  | b1 :: r1 =>
      if in_range b1 0 127 then utf8_valid r1
      else match r1 with
      | [] => false
      | b2 :: r2 =>
          if in_range b1 194 223 && utf8_cont b2 then utf8_valid r2
          else match r2 with
          | [] => false
          | b3 :: r3 =>
              if utf8_lead3 b1 b2 && utf8_cont b3 then utf8_valid r3
              else match r3 with
              | [] => false
              | b4 :: r4 => utf8_lead4 b1 b2 && utf8_cont b3 && utf8_cont b4 && utf8_valid r4
              end
          end
      end
  end.

Lemma utf8_valid_ascii bs :
  Forall (fun b => Z_of_byte b <= 127) bs -> utf8_valid bs = true.
Proof.
  induction 1 as [|b bs Hb _ IH]; [done|]. cbn [utf8_valid]. unfold in_range.
  pose proof (Z_of_byte_range b).
  replace (0 <=? Z_of_byte b) with true by lia.
  replace (Z_of_byte b <=? 127) with true by lia. done.
Qed.

(** ** Results *)

Inductive result (E A : Type) : Type :=
| Ok (a : A)
| Err (e : E).
Arguments Ok {E A} a.
Arguments Err {E A} e.

#[global] Instance result_eq_dec `{EqDecision E} `{EqDecision A} : EqDecision (result E A).
Proof. solve_decision. Defined.

Definition is_ok {E A} (r : result E A) : bool := match r with Ok _ => true | Err _ => false end.

Definition map_err {E F A} (f : E -> F) (r : result E A) : result F A :=
  match r with Ok a => Ok a | Err e => Err (f e) end.

Definition ok_or {E A} (o : option A) (e : E) : result E A :=
  match o with Some a => Ok a | None => Err e end.

Lemma filter_sorted {A} (R : A -> A -> Prop) (f : A -> bool) l :
  StronglySorted R l -> StronglySorted R (List.filter f l).
Proof.
  induction 1 as [|x l Hl IH Hx]; cbn; [constructor|]. case_match; [|done].
  constructor; [done|]. apply Forall_forall. intros y [Hy _]%list_elem_of_In%List.filter_In.
  apply list_elem_of_In in Hy. revert y Hy. by apply Forall_forall.
Qed.

Lemma filter_perm {A} (f : A -> bool) l l' : l ≡ₚ l' -> List.filter f l ≡ₚ List.filter f l'.
Proof.
  induction 1 as [|x l l' _ IH|x y l|l1 l2 l3 _ IH1 _ IH2]; cbn; [done|by destruct (f x); [constructor|]| |by transitivity (List.filter f l2)].
  destruct (f x), (f y); try done. apply Permutation_swap.
Qed.

Lemma Forall_snoc {A} (P : A -> Prop) l x : Forall P l -> P x -> Forall P (l ++ [x]).
Proof. intros Hl Hx. apply Forall_app. by split; [|apply Forall_singleton]. Qed.
