(* ===== verification/Prog.v ===== *)
(** * Effectful programs

    The provider crate threads three things through almost every call: a
    mutable receiver ([&mut self] or a local [PayloadCursor]), an error
    ([Result<_, ProviderError>] with [?]) and the outside world it is charged
    against ([&dyn WorkGuard], the heap).  [Prog W E S A] is that shape: a
    program in world [W] with errors [E], a mutable receiver of type [S] and a
    result of type [A].  The receiver survives an error, as it does in Rust.

    Two logics are provided: [wp], a unary postcondition logic that holds in
    every world, and [refines], a binary relation that compares one program run
    in two different worlds. *)

From stdpp Require Import prelude list.
From Stdlib Require Import ZArith Lia.
From S2P Require Import Prelude.

Definition Prog (W E S A : Type) : Type := S -> W -> result E A * S * W.

Section prog.
Context {W E S : Type}.

Definition ret {A} (a : A) : Prog W E S A := fun s w => (Ok a, s, w).
Definition throw {A} (e : E) : Prog W E S A := fun s w => (Err e, s, w).
Definition bind {A B} (p : Prog W E S A) (k : A -> Prog W E S B) : Prog W E S B :=
  fun s w =>
    match p s w with
    | (Ok a, s', w') => k a s' w'
    | (Err e, s', w') => (Err e, s', w')
    end.
Definition get : Prog W E S S := fun s w => (Ok s, s, w).
Definition put (s' : S) : Prog W E S unit := fun _ w => (Ok tt, s', w).
Definition modify (f : S -> S) : Prog W E S unit := fun s w => (Ok tt, f s, w).
Definition lift_result {A} (r : result E A) : Prog W E S A := fun s w => (r, s, w).
Definition lift_option {A} (o : option A) (e : E) : Prog W E S A := lift_result (ok_or o e).

(** [if cond { return Err(e) }] *)
Definition fail_if (b : bool) (e : E) : Prog W E S unit := if b then throw e else ret tt.

(** Run a program on a local receiver, as a function body does with a
    [let mut cursor = ..] of its own. *)
Definition with_local {T A} (t : T) (p : Prog W E T A) : Prog W E S A :=
  fun s w => let '(r, _, w') := p t w in (r, s, w').

(** [match p(&mut part) { Ok(..) => .., Err(..) => .. }]: run a program on a part
    of the receiver and look at how it ended. *)
Definition attempt_on {E' T A} (part : S -> T) (assign : T -> S -> S) (p : Prog W E' T A) :
    Prog W E S (result E' A) :=
  fun s w => let '(r, t, w') := p (part s) w in (Ok r, assign t s, w').
Definition attempt {E' A} (p : Prog W E' S A) : Prog W E S (result E' A) :=
  attempt_on (fun s => s) (fun t _ => t) p.

(** [p.map_err(f)?] *)
Definition relabel {E' A} (f : E' -> E) (p : Prog W E' S A) : Prog W E S A :=
  bind (attempt p) (fun r => lift_result (map_err f r)).

(** [p(&mut part)?] *)
Definition zoom {T A} (part : S -> T) (assign : T -> S -> S) (p : Prog W E T A) : Prog W E S A :=
  fun s w => let '(r, t, w') := p (part s) w in (r, assign t s, w').

(** [for x in xs { out.push(f(x)?) }] *)
Fixpoint for_each {X A} (xs : list X) (f : X -> Prog W E S A) : Prog W E S (list A) :=
  match xs with
  | [] => ret []
  | x :: xs => bind (f x) (fun a => bind (for_each xs f) (fun l => ret (a :: l)))
  end.

(** [for x in xs { .. }] over mutable locals [a]. *)
Fixpoint fold_each {X A} (xs : list X) (a : A) (f : A -> X -> Prog W E S A) : Prog W E S A :=
  match xs with
  | [] => ret a
  | x :: xs => bind (f a x) (fun a => fold_each xs a f)
  end.

End prog.

Notation "'let!' x ':=' p 'in' k" := (bind p (fun x => k))
  (at level 10, x binder, p at level 100, k at level 200) : prog_scope.
Notation "p ';!' k" := (bind p (fun _ => k))
  (at level 199, right associativity) : prog_scope.
Open Scope prog_scope.

(** ** Postconditions that hold in every world *)

Definition wp {W E S A} (p : Prog W E S A) (Q : A -> S -> Prop) (R : E -> S -> Prop) (s : S) :
    Prop :=
  forall w, match p s w with
            | (Ok a, s', _) => Q a s'
            | (Err e, s', _) => R e s'
            end.

Section wp.
Context {W E S : Type}.
Implicit Types s : S.

Lemma wp_ret {A} (a : A) (Q : A -> S -> Prop) R s : Q a s -> wp (W := W) (E := E) (ret a) Q R s.
Proof. intros H w. exact H. Qed.

Lemma wp_throw {A} (e : E) (Q : A -> S -> Prop) (R : E -> S -> Prop) s :
  R e s -> wp (W := W) (E := E) (throw e) Q R s.
Proof. intros H w. exact H. Qed.

Lemma wp_bind {A B} (p : Prog W E S A) (k : A -> Prog W E S B) Q R s :
  wp p (fun a s' => wp (k a) Q R s') R s -> wp (bind p k) Q R s.
Proof.
  intros H w. specialize (H w). unfold bind.
  destruct (p s w) as [[[a|e] s'] w']; [apply H|exact H].
Qed.

Lemma wp_get (Q : S -> S -> Prop) R s : Q s s -> wp (W := W) (E := E) get Q R s.
Proof. intros H w. exact H. Qed.

Lemma wp_put s' (Q : unit -> S -> Prop) R s : Q tt s' -> wp (W := W) (E := E) (put s') Q R s.
Proof. intros H w. exact H. Qed.

Lemma wp_modify f (Q : unit -> S -> Prop) R s : Q tt (f s) -> wp (W := W) (E := E) (modify f) Q R s.
Proof. intros H w. exact H. Qed.

Lemma wp_result {A} (r : result E A) (Q : A -> S -> Prop) (R : E -> S -> Prop) s :
  match r with Ok a => Q a s | Err e => R e s end -> wp (W := W) (E := E) (lift_result r) Q R s.
Proof. intros H w. exact H. Qed.

Lemma wp_option {A} (o : option A) (e : E) (Q : A -> S -> Prop) (R : E -> S -> Prop) s :
  match o with Some a => Q a s | None => R e s end -> wp (W := W) (E := E) (lift_option o e) Q R s.
Proof. intros H w. unfold lift_option, lift_result, ok_or. destruct o; exact H. Qed.

Lemma wp_fail_if (b : bool) e (Q : unit -> S -> Prop) (R : E -> S -> Prop) s :
  (b = false -> Q tt s) -> (b = true -> R e s) -> wp (W := W) (E := E) (fail_if b e) Q R s.
Proof.
  unfold fail_if. destruct b; intros H1 H2 w; [exact (H2 eq_refl)|exact (H1 eq_refl)].
Qed.

Lemma wp_mono {A} (p : Prog W E S A) (Q Q' : A -> S -> Prop) (R R' : E -> S -> Prop) s :
  wp p Q R s -> (forall a s', Q a s' -> Q' a s') -> (forall e s', R e s' -> R' e s') ->
  wp p Q' R' s.
Proof.
  intros H HQ HR w. specialize (H w). destruct (p s w) as [[[a|e] s'] w']; auto.
Qed.

Lemma wp_local {T A} (t : T) (p : Prog W E T A) (Q : A -> S -> Prop) (R : E -> S -> Prop) s :
  wp p (fun a _ => Q a s) (fun e _ => R e s) t -> wp (W := W) (E := E) (with_local t p) Q R s.
Proof.
  intros H w. specialize (H w). unfold with_local.
  destruct (p t w) as [[[a|e] t'] w']; auto.
Qed.

(** Reading a run back: the two directions a client uses. *)
Lemma wp_run_ok {A} (p : Prog W E S A) Q R s w a s' w' :
  wp p Q R s -> p s w = (Ok a, s', w') -> Q a s'.
Proof. intros H Hp. specialize (H w). by rewrite Hp in H. Qed.

Lemma wp_run_err {A} (p : Prog W E S A) Q R s w e s' w' :
  wp p Q R s -> p s w = (Err e, s', w') -> R e s'.
Proof. intros H Hp. specialize (H w). by rewrite Hp in H. Qed.

(** The loop rule: an invariant over the elements already pushed. *)
Lemma wp_for_each {X A} (xs : list X) (f : X -> Prog W E S A)
    (I : list X -> list A -> S -> Prop) (R : E -> S -> Prop) s :
  I [] [] s ->
  (forall done x out s, I done out s -> x ∈ xs ->
     wp (f x) (fun a s' => I (done ++ [x]) (out ++ [a]) s') R s) ->
  wp (for_each xs f) (fun out s' => I xs out s') R s.
Proof.
  intros H0 Hstep.
  enough (forall done out s, I done out s ->
    wp (for_each xs f) (fun l s' => I (done ++ xs) (out ++ l) s') R s) as Hgen.
  { exact (Hgen [] [] s H0). }
  clear H0 s. induction xs as [|x xs IH]; intros done out s Hs; cbn [for_each].
  - apply wp_ret. by rewrite !app_nil_r.
  - apply wp_bind. eapply wp_mono; [apply Hstep; [done|left]| |done].
    intros a s' Ha. apply wp_bind.
    eapply wp_mono; [apply (IH ltac:(intros; apply Hstep; [done|by right])); exact Ha| |done].
    intros l s'' Hl. apply wp_ret. by rewrite <- !app_assoc in Hl.
Qed.

End wp.

Lemma wp_attempt_on {W E S E' T A} (part : S -> T) (assign : T -> S -> S) (p : Prog W E' T A)
    (Q : result E' A -> S -> Prop) (R : E -> S -> Prop) s :
  wp p (fun a t => Q (Ok a) (assign t s)) (fun e t => Q (Err e) (assign t s)) (part s) ->
  wp (attempt_on part assign p) Q R s.
Proof.
  intros H w. specialize (H w). unfold attempt_on. by destruct (p (part s) w) as [[[a|e] t] w'].
Qed.

Lemma wp_attempt {W E S E' A} (p : Prog W E' S A) (Q : result E' A -> S -> Prop) (R : E -> S -> Prop) s :
  wp p (fun a t => Q (Ok a) t) (fun e t => Q (Err e) t) s -> wp (attempt p) Q R s.
Proof. exact (wp_attempt_on (fun s => s) (fun t _ => t) p Q R s). Qed.

Lemma wp_zoom {W E S T A} (part : S -> T) (assign : T -> S -> S) (p : Prog W E T A)
    (Q : A -> S -> Prop) (R : E -> S -> Prop) s :
  wp p (fun a t => Q a (assign t s)) (fun e t => R e (assign t s)) (part s) ->
  wp (zoom part assign p) Q R s.
Proof.
  intros H w. specialize (H w). unfold zoom. by destruct (p (part s) w) as [[[a|e] t] w'].
Qed.

Lemma wp_relabel {W E S E' A} (f : E' -> E) (p : Prog W E' S A) (Q : A -> S -> Prop)
    (R : E -> S -> Prop) s :
  wp p Q (fun e => R (f e)) s -> wp (relabel f p) Q R s.
Proof.
  intros H. apply wp_bind, wp_attempt. eapply wp_mono; [exact H| |]; intros; by apply wp_result.
Qed.

(** ** One program in two worlds

    [refines bad p q]: whatever the two worlds do, the run of [p] either ends
    exactly as the run of [q] or it fails with an error in [bad]. *)

Section refines.
Context {E : Type} (bad : E -> Prop).

Definition refines {W1 W2 S A} (p : Prog W1 E S A) (q : Prog W2 E S A) : Prop :=
  forall s w1 w2,
    let '(r1, s1, _) := p s w1 in
    let '(r2, s2, _) := q s w2 in
    (r1 = r2 /\ s1 = s2) \/ (exists e, r1 = Err e /\ bad e).

Context {W1 W2 S : Type}.
Implicit Types A B : Type.

Lemma refines_ret {A} (a : A) : refines (ret (W := W1) (S := S) a) (ret (W := W2) a).
Proof. intros s w1 w2. by left. Qed.

Lemma refines_throw {A} (e : E) :
  refines (throw (W := W1) (S := S) (A := A) e) (throw (W := W2) e).
Proof. intros s w1 w2. by left. Qed.

Lemma refines_get : refines (get (W := W1) (S := S)) (get (W := W2)).
Proof. intros s w1 w2. by left. Qed.

Lemma refines_put s' : refines (put (W := W1) (S := S) s') (put (W := W2) s').
Proof. intros s w1 w2. by left. Qed.

Lemma refines_modify f : refines (modify (W := W1) (S := S) f) (modify (W := W2) f).
Proof. intros s w1 w2. by left. Qed.

Lemma refines_result {A} (r : result E A) :
  refines (lift_result (W := W1) (S := S) r) (lift_result (W := W2) r).
Proof. intros s w1 w2. by left. Qed.

Lemma refines_option {A} (o : option A) e :
  refines (lift_option (W := W1) (S := S) o e) (lift_option (W := W2) o e).
Proof. intros s w1 w2. by left. Qed.

Lemma refines_fail_if (b : bool) e :
  refines (fail_if (W := W1) (S := S) b e) (fail_if (W := W2) b e).
Proof. destruct b; [apply refines_throw|apply refines_ret]. Qed.

Lemma refines_bind {A B} (p : Prog W1 E S A) (q : Prog W2 E S A)
    (k : A -> Prog W1 E S B) (l : A -> Prog W2 E S B) :
  refines p q -> (forall a, refines (k a) (l a)) -> refines (bind p k) (bind q l).
Proof.
  intros Hp Hk s w1 w2. specialize (Hp s w1 w2). unfold bind.
  destruct (p s w1) as [[r1 s1] w1'], (q s w2) as [[r2 s2] w2'].
  destruct Hp as [[-> ->]|(e & -> & He)].
  - destruct r2 as [a|e]; [apply Hk|by left].
  - destruct r2 as [a|e']; [|by right; exists e].
    destruct (l a s2 w2') as [[? ?] ?]. right; by exists e.
Qed.

(** After a check that passed, the rest may use that it passed. *)
Lemma refines_checked {A} (b : bool) e (p : Prog W1 E S A) (q : Prog W2 E S A) :
  (b = false -> refines p q) ->
  refines (bind (fail_if b e) (fun _ => p)) (bind (fail_if b e) (fun _ => q)).
Proof. intros Hp s w1 w2. destruct b; [by left|]. by apply (Hp eq_refl). Qed.

Lemma refines_local {T A} (t : T) (p : Prog W1 E T A) (q : Prog W2 E T A) :
  refines p q -> refines (with_local (S := S) t p) (with_local t q).
Proof.
  intros Hp s w1 w2. specialize (Hp t w1 w2). unfold with_local.
  destruct (p t w1) as [[r1 s1] w1'], (q t w2) as [[r2 s2] w2'].
  destruct Hp as [[-> ->]|(e & -> & He)]; [by left|right; by exists e].
Qed.

Lemma refines_for_each {X A} (xs : list X) (f : X -> Prog W1 E S A) (g : X -> Prog W2 E S A) :
  (forall x, refines (f x) (g x)) -> refines (for_each xs f) (for_each xs g).
Proof.
  intros Hf. induction xs as [|x xs IH]; cbn [for_each]; [apply refines_ret|].
  apply refines_bind; [apply Hf|intros a].
  apply refines_bind; [exact IH|intros l; apply refines_ret].
Qed.

Lemma refines_fold_each {X A} (xs : list X) (a : A) (f : A -> X -> Prog W1 E S A)
    (g : A -> X -> Prog W2 E S A) :
  (forall a x, refines (f a x) (g a x)) -> refines (fold_each xs a f) (fold_each xs a g).
Proof.
  intros Hf. revert a. induction xs as [|x xs IH]; intros a; cbn [fold_each]; [apply refines_ret|].
  apply refines_bind; [apply Hf|exact IH].
Qed.

End refines.

#[export] Hint Resolve refines_ret refines_throw refines_get refines_put refines_modify
  refines_result refines_option refines_fail_if : refine.

(** [refine_auto] walks a program: one rule per constructor, one case split per
    [if] or [match] both sides share. *)
Ltac refine_step :=
  match goal with
  | |- forall _, _ => intro
  | |- refines _ (bind _ _) (bind _ _) => apply refines_bind
  | |- refines _ (for_each _ _) (for_each _ _) => apply refines_for_each
  | |- refines _ (fold_each _ _ _) (fold_each _ _ _) => apply refines_fold_each
  | |- refines _ (with_local _ _) (with_local _ _) => apply refines_local
  | |- refines _ (if ?b then _ else _) (if ?b then _ else _) => destruct b
  | |- refines _ (match ?x with _ => _ end) (match ?x with _ => _ end) => destruct x
  | |- refines _ (let '(_, _) := ?x in _) _ => destruct x
  | |- refines _ _ _ => solve [eauto 3 with refine nocore]
  end.
Ltac refine_auto := repeat refine_step.

(** ** Parts of the receiver a program never assigns

    [keeps f p]: every run of [p], failed runs included, leaves [f] of the
    receiver as it was. *)

Section keeps.
Context {W E S B : Type} (f : S -> B).
Implicit Types A : Type.

Definition keeps {A} (p : Prog W E S A) : Prop :=
  forall s w, let '(_, s', _) := p s w in f s' = f s.

Lemma keeps_ret {A} (a : A) : keeps (ret a).
Proof. done. Qed.
Lemma keeps_throw {A} (e : E) : keeps (throw (A := A) e).
Proof. done. Qed.
Lemma keeps_get : keeps get.
Proof. done. Qed.
Lemma keeps_modify g : (forall s, f (g s) = f s) -> keeps (modify g).
Proof. intros Hg s w. apply Hg. Qed.
Lemma keeps_result {A} (r : result E A) : keeps (lift_result r).
Proof. done. Qed.
Lemma keeps_option {A} (o : option A) e : keeps (lift_option o e).
Proof. done. Qed.
Lemma keeps_fail_if b e : keeps (fail_if b e).
Proof. by destruct b. Qed.
Lemma keeps_local {T A} (t : T) (p : Prog W E T A) : keeps (with_local t p).
Proof. intros s w. unfold with_local. by destruct (p t w) as [[? ?] ?]. Qed.

Lemma keeps_bind {A A'} (p : Prog W E S A) (k : A -> Prog W E S A') :
  keeps p -> (forall a, keeps (k a)) -> keeps (bind p k).
Proof.
  intros Hp Hk s w. specialize (Hp s w). unfold bind.
  destruct (p s w) as [[[a|e] s1] w1]; [|done]. specialize (Hk a s1 w1).
  destruct (k a s1 w1) as [[? ?] ?]. congruence.
Qed.

Lemma keeps_for_each {X A} (xs : list X) (g : X -> Prog W E S A) :
  (forall x, keeps (g x)) -> keeps (for_each xs g).
Proof.
  intros Hg. induction xs as [|x xs IH]; cbn [for_each]; [apply keeps_ret|].
  apply keeps_bind; [apply Hg|intros a]. apply keeps_bind; [done|intros l; apply keeps_ret].
Qed.

Lemma keeps_fold_each {X A} (xs : list X) (a : A) (g : A -> X -> Prog W E S A) :
  (forall a x, keeps (g a x)) -> keeps (fold_each xs a g).
Proof.
  intros Hg. revert a. induction xs as [|x xs IH]; intros a; cbn [fold_each]; [apply keeps_ret|].
  apply keeps_bind; [apply Hg|exact IH].
Qed.

End keeps.

(** A program that never touches the receiver. *)
Lemma wp_keeps {W E S A} (p : Prog W E S A) (Q : A -> S -> Prop) (R : E -> S -> Prop) s :
  keeps (fun s => s) p -> (forall a, Q a s) -> (forall e, R e s) -> wp p Q R s.
Proof.
  intros Hk HQ HR w. specialize (Hk s w). destruct (p s w) as [[[a|e] s'] w']; subst; auto.
Qed.

Create HintDb keep discriminated.

#[export] Hint Resolve keeps_ret keeps_throw keeps_get keeps_result keeps_option keeps_fail_if
  keeps_local : keep.
#[export] Hint Extern 1 (keeps _ (modify _)) => apply keeps_modify; intros; reflexivity : keep.

(** [keep_auto] walks a program the way [refine_auto] does. *)
Ltac keep_step :=
  match goal with
  | |- forall _, _ => intro
  | |- keeps _ (bind _ _) => apply keeps_bind
  | |- keeps _ (for_each _ _) => apply keeps_for_each
  | |- keeps _ (fold_each _ _ _) => apply keeps_fold_each
  | |- keeps _ (if ?b then _ else _) => destruct b
  | |- keeps _ (match ?x with _ => _ end) => destruct x
  | |- keeps _ (let '(_, _) := ?x in _) => destruct x
  | |- keeps _ _ => solve [eauto 3 with keep nocore]
  end.
Ltac keep_auto := repeat keep_step.

(** ** Where a successful run leaves the world

    [advances R p]: a run of [p] that succeeds moves the world along [R]. *)

Section advances.
Context {W E S : Type} (R : W -> W -> Prop) `{!PreOrder R}.
Implicit Types A B : Type.

Definition advances {A} (p : Prog W E S A) : Prop :=
  forall s w a s' w', p s w = (Ok a, s', w') -> R w w'.

Lemma advances_ret {A} (a : A) : advances (ret a).
Proof. intros s w b s' w' [= _ _ <-]. reflexivity. Qed.
Lemma advances_throw {A} (e : E) : advances (throw (A := A) e).
Proof. intros s w b s' w'. done. Qed.
Lemma advances_get : advances get.
Proof. intros s w b s' w' [= _ _ <-]. reflexivity. Qed.
Lemma advances_modify g : advances (modify g).
Proof. intros s w b s' w' [= _ _ <-]. reflexivity. Qed.
Lemma advances_result {A} (r : result E A) : advances (lift_result r).
Proof. intros s w b s' w' [= _ _ <-]. reflexivity. Qed.
Lemma advances_option {A} (o : option A) e : advances (lift_option o e).
Proof. intros s w b s' w' [= _ _ <-]. reflexivity. Qed.
Lemma advances_fail_if b e : advances (fail_if b e).
Proof. destruct b; [apply advances_throw|apply advances_ret]. Qed.

Lemma advances_bind {A B} (p : Prog W E S A) (k : A -> Prog W E S B) :
  advances p -> (forall a, advances (k a)) -> advances (bind p k).
Proof.
  intros Hp Hk s w b s' w'. unfold bind. destruct (p s w) as [[[a|e] s1] w1] eqn:Hrun; [|done].
  intros Hrest. transitivity w1; [by eapply Hp|by eapply Hk].
Qed.

Lemma advances_for_each {X A} (xs : list X) (g : X -> Prog W E S A) :
  (forall x, advances (g x)) -> advances (for_each xs g).
Proof.
  intros Hg. induction xs as [|x xs IH]; cbn [for_each]; [apply advances_ret|].
  apply advances_bind; [apply Hg|intros a]. apply advances_bind; [done|intros l; apply advances_ret].
Qed.

End advances.

Lemma advances_local {W E S T A} (R : W -> W -> Prop) (t : T) (p : Prog W E T A) :
  advances R p -> advances R (with_local (S := S) t p).
Proof.
  intros Hp s w a s' w'. unfold with_local. destruct (p t w) as [[r t'] w1] eqn:Hrun.
  intros [= -> _ <-]. by eapply Hp.
Qed.

Create HintDb advance discriminated.

#[export] Hint Resolve advances_throw : advance.
#[export] Hint Extern 1 (advances _ (ret _)) => apply advances_ret; exact _ : advance.
#[export] Hint Extern 1 (advances _ get) => apply advances_get; exact _ : advance.
#[export] Hint Extern 1 (advances _ (modify _)) => apply advances_modify; exact _ : advance.
#[export] Hint Extern 1 (advances _ (lift_result _)) => apply advances_result; exact _ : advance.
#[export] Hint Extern 1 (advances _ (lift_option _ _)) => apply advances_option; exact _ : advance.
#[export] Hint Extern 1 (advances _ (fail_if _ _)) => apply advances_fail_if; exact _ : advance.

Ltac advance_step :=
  match goal with
  | |- forall _, _ => intro
  | |- advances _ (bind _ _) => apply advances_bind; [exact _| |]
  | |- advances _ (for_each _ _) => apply advances_for_each; [exact _|]
  | |- advances _ (with_local _ _) => apply advances_local
  | |- advances _ (if ?b then _ else _) => destruct b
  | |- advances _ (match ?x with _ => _ end) => destruct x
  | |- advances _ (let '(_, _) := ?x in _) => destruct x
  | |- advances _ _ => solve [eauto 3 with advance nocore]
  end.
Ltac advance_auto := repeat advance_step.

(** [wp_step] applies the rule of the head constructor. *)
Ltac wp_step :=
  match goal with
  | |- wp (bind _ _) _ _ _ => apply wp_bind
  | |- wp (ret _) _ _ _ => apply wp_ret
  | |- wp (throw _) _ _ _ => apply wp_throw
  | |- wp get _ _ _ => apply wp_get
  | |- wp (put _) _ _ _ => apply wp_put
  | |- wp (modify _) _ _ _ => apply wp_modify
  | |- wp (lift_result _) _ _ _ => apply wp_result
  | |- wp (lift_option _ _) _ _ _ => apply wp_option
  | |- wp (fail_if _ _) _ _ _ => apply wp_fail_if; [intro|intro]
  | |- wp (with_local _ _) _ _ _ => apply wp_local
  end.

(** ** Runs in a world that never refuses *)

Section runs.
Context {E S : Type}.

(** The pure reading of a program: its run in the one-state world. *)
Definition run {A} (p : Prog unit E S A) (s : S) : result E A * S := fst (p s tt).

Lemma run_bind_ok {A B} (p : Prog unit E S A) (k : A -> Prog unit E S B) s a s' :
  run p s = (Ok a, s') -> run (bind p k) s = run (k a) s'.
Proof.
  unfold run, bind. destruct (p s tt) as [[r s1] []]. cbn. intros [= -> ->]. done.
Qed.

Lemma run_bind_err {A B} (p : Prog unit E S A) (k : A -> Prog unit E S B) s e s' :
  run p s = (Err e, s') -> run (bind p k) s = (Err e, s').
Proof.
  unfold run, bind. destruct (p s tt) as [[r s1] []]. cbn. intros [= -> ->]. done.
Qed.

Lemma run_option_ok {A B} (o : option A) e (k : A -> Prog unit E S B) s a :
  o = Some a -> run (bind (lift_option o e) k) s = run (k a) s.
Proof. by intros ->. Qed.

Lemma run_result_ok {A B} (r : result E A) (k : A -> Prog unit E S B) s a :
  r = Ok a -> run (bind (lift_result r) k) s = run (k a) s.
Proof. by intros ->. Qed.

Lemma run_passed {B} (b : bool) e (k : unit -> Prog unit E S B) s :
  b = false -> run (bind (fail_if b e) k) s = run (k tt) s.
Proof. by intros ->. Qed.

(** The loop rule: an invariant over the elements already visited. *)
Lemma run_fold_each {X A} (I : list X -> A -> Prop) (xs : list X) (a : A)
    (f : A -> X -> Prog unit E S A) s :
  I [] a ->
  (forall before x after a, xs = before ++ x :: after -> I before a ->
     exists a', run (f a x) s = (Ok a', s) /\ I (before ++ [x]) a') ->
  exists a', run (fold_each xs a f) s = (Ok a', s) /\ I xs a'.
Proof.
  intros H0 Hstep.
  enough (forall rest before a, I before a -> xs = before ++ rest ->
    exists a', run (fold_each rest a f) s = (Ok a', s) /\ I xs a') as Hgen by exact (Hgen xs [] a H0 eq_refl).
  clear H0 a. intros rest. induction rest as [|x rest IH]; intros before a Ha Hxs.
  - rewrite app_nil_r in Hxs. subst. by exists a.
  - destruct (Hstep before x rest a Hxs Ha) as (a1 & Hrun & H1). cbn [fold_each].
    rewrite (run_bind_ok _ _ _ _ _ Hrun).
    apply (IH (before ++ [x]) a1 H1). by rewrite <- app_assoc.
Qed.

Lemma run_refines {W A} bad (p : Prog W E S A) (q : Prog unit E S A) s w r s' w' :
  refines bad p q -> p s w = (r, s', w') ->
  run q s = (r, s') \/ (exists e, r = Err e /\ bad e).
Proof.
  intros H Hp. specialize (H s w tt). rewrite Hp in H. unfold run.
  destruct (q s tt) as [[r2 s2] []]. destruct H as [[-> ->]|H]; [by left|by right].
Qed.

End runs.
