(* ===== verification/Control.v ===== *)
(** * Control boundary: errors, work guards, fallible allocation

    Models [qtrace-provider/src/control.rs], [error.rs] and [allocation.rs].

    - [ProviderError] with its bounded, single-line detail text.
    - [WorkGuard]: the trait every long operation charges its work to.
    - [Allocator]: what the code uses of the heap and of the compiler's type
      layout.  It is an interface, not a model: capacities granted, sizes and
      refusals are the host's.
    - the [allocation::try_*] helpers, which charge the guard before they
      touch the heap. *)

From stdpp Require Import prelude list strings pretty.
From Stdlib Require Import ZArith Lia Strings.Byte.
From S2P Require Import Prelude Prog.
Local Open Scope string_scope.
Local Open Scope list_scope.
Local Open Scope Z_scope.

(** ** control.rs *)

Definition MAX_UNGUARDED_RECORDS : Z := 4096.
Definition MAX_UNGUARDED_BYTES : Z := 4 * 1024 * 1024.

Record WorkDelta := mkWorkDelta {
  wd_input_bytes : Z;
  wd_decompressed_bytes : Z;
  wd_events : Z;
  wd_nodes : Z;
  wd_rows : Z;
  wd_resident_bytes : Z
}.

Definition WorkDelta_default : WorkDelta := mkWorkDelta 0 0 0 0 0 0.
Definition delta_input (n : Z) : WorkDelta := mkWorkDelta n n 0 0 0 0.
Definition delta_events (n : Z) : WorkDelta := mkWorkDelta 0 0 n 0 0 0.
Definition delta_nodes (n : Z) : WorkDelta := mkWorkDelta 0 0 0 n 0 0.
Definition delta_resident (n : Z) : WorkDelta := mkWorkDelta 0 0 0 0 0 n.

Inductive WorkPhase :=
| VerifySource | OpenCache | BuildIndex | PublishCache | ReopenCache | PrepareAnalysis
| PublishWorkspace.

Inductive BudgetDimension :=
| InputBytes | DecompressedBytes | Events | Nodes | Rows | ResidentBytes.
#[global] Instance BudgetDimension_eq_dec : EqDecision BudgetDimension.
Proof. solve_decision. Defined.

Inductive OperationAbort :=
| Cancelled
| BudgetExceeded (dimension : BudgetDimension) (limit consumed : Z).
#[global] Instance OperationAbort_eq_dec : EqDecision OperationAbort.
Proof. solve_decision. Defined.

Definition budget_exceeded (d : BudgetDimension) (limit consumed : Z) : OperationAbort :=
  BudgetExceeded d limit consumed.

(** The trait.  [&self] methods with interior mutability become functions of
    the world the guard lives in. *)
Class WorkGuard (W : Type) := {
  guard_consume : WorkDelta -> W -> result OperationAbort unit * W;
  guard_begin_phase : WorkPhase -> W -> W;
  guard_parallelism : W -> Z;
  guard_begin_scope : WorkDelta -> Z -> W -> result OperationAbort unit * W;
  guard_end_scope : W -> W
}.

(** The trait's provided methods, for an implementor that only writes [consume]. *)
Definition default_guard {W} (consume : WorkDelta -> W -> result OperationAbort unit * W) :
    WorkGuard W := {|
  guard_consume := consume;
  guard_begin_phase _ w := w;
  guard_parallelism _ := 1;
  guard_begin_scope d _ w := consume d w;
  guard_end_scope w := w
|}.

(** ** error.rs *)

Definition MAX_DETAIL_BYTES : Z := 512.

Record SourceCoordinate := mkCoordinate {
  sc_offset : Z;
  sc_record_ordinal : option Z
}.
#[global] Instance SourceCoordinate_eq_dec : EqDecision SourceCoordinate.
Proof. solve_decision. Defined.

Inductive ProviderErrorDetail :=
| Message (m : string)
| AbortDetail (a : OperationAbort).
#[global] Instance ProviderErrorDetail_eq_dec : EqDecision ProviderErrorDetail.
Proof. solve_decision. Defined.

Record ProviderError := mkProviderError {
  pe_code : string;
  pe_stage : string;
  pe_source : option SourceCoordinate;
  pe_retryable : bool;
  pe_detail : ProviderErrorDetail
}.
#[global] Instance ProviderError_eq_dec : EqDecision ProviderError.
Proof. solve_decision. Defined.

(** The UTF-8 width of the character a byte leads ([char::len_utf8]). *)
Definition char_width (b : byte) : nat :=
  if Z_of_byte b <? 128 then 1
  else if Z_of_byte b <? 224 then 2
  else if Z_of_byte b <? 240 then 3
  else 4.

(** One turn of the [for character in detail.chars()] loop per fuel unit; a
    string of [n] bytes has at most [n] characters. *)
Fixpoint bounded_go (fuel : nat) (used : Z) (detail : bytes) : bytes :=
  match fuel, detail with
  | S fuel, b :: _ =>
      let n := char_width b in
      if used + Z.of_nat n >? MAX_DETAIL_BYTES then []
      else (if bool_decide (b = x0a \/ b = x0d) then [x20] else take n detail)
             ++ bounded_go fuel (used + Z.of_nat n) (drop n detail)
  | _, _ => []
  end.

Definition bounded_bytes (detail : bytes) : bytes := bounded_go (length detail) 0 detail.

Definition bounded_single_line (detail : string) : string :=
  String.string_of_list_byte (bounded_bytes (String.list_byte_of_string detail)).

(** [ProviderError::new] *)
Definition ProviderError_new (code stage : string) (source : option SourceCoordinate)
    (retryable : bool) (detail : string) : ProviderError :=
  mkProviderError code stage source retryable (Message (bounded_single_line detail)).

Definition stream_not_drained : ProviderError :=
  ProviderError_new "source.stream_not_drained" "finish" None false
    "event stream must return end-of-stream before finish".

(** [ProviderError::detail] *)
Definition error_detail (e : ProviderError) : string :=
  match pe_detail e with
  | Message m => m
  | AbortDetail _ => "operation aborted by work guard"
  end.

(** [ProviderError::operation_abort] *)
Definition operation_abort (e : ProviderError) : option OperationAbort :=
  match pe_detail e with
  | AbortDetail a => Some a
  | Message _ => None
  end.

(** [impl From<OperationAbort> for ProviderError] *)
Definition from_abort (a : OperationAbort) : ProviderError :=
  mkProviderError
    (match a with Cancelled => "control.cancelled" | BudgetExceeded _ _ _ => "control.budget_exceeded" end)
    "control" None false (AbortDetail a).

(** ** allocation.rs *)

Record AllocationErrorContext := mkContext { ctx_code : string; ctx_stage : string }.

Definition PROVIDER_ALLOCATION := mkContext "control.resource_exhausted" "provider.allocation".
Definition FLIGHT_OPEN_ALLOCATION := mkContext "source.flight.resource" "flight.open".
Definition FLIGHT_RECOVERY_ALLOCATION := mkContext "source.flight.resource" "flight.recovery".

Definition context_error (c : AllocationErrorContext) (detail : string) : ProviderError :=
  ProviderError_new (ctx_code c) (ctx_stage c) None false detail.

(** The element types whose layout the code asks for. *)
Inductive RustType :=
| T_u8 | T_u64 | T_usize
| T_TimelineDescriptor | T_CompletenessRange
| T_RegisterWire | T_MemoryOperandWire | T_RegisterObservation | T_RegisterDefinition
| T_MemoryOperand
| T_module_entry | T_definition_entry
| T_u32 | T_PhysicalRecord | T_DirectoryEntry | T_ChunkSlot | T_SequenceFact | T_SequenceRange
| T_SequenceProof | T_MissingRange | T_EventRecord | T_Fragment | T_SharedBytes | T_FragmentSlot
| T_directory_index_entry | T_tid_entry | T_lifecycle_entry | T_sequence_entry | T_range_entry
| T_ChunkState | T_RegisterValue | T_String | T_FragmentEvidence
| T_chunk_definition_entry | T_chunk_string_entry | T_shared_string_entry | T_final_state_entry
| T_final_register_entry | T_pc_policy_entry | T_group_count_entry | T_group_entry
| T_FlightProjection | T_projection_entry | T_EventKey
| T_ReplayEvent | T_ReplayCheckpoint | T_scope_entry | T_ByteState | T_MemoryEvidence
| T_ConflictSlot | T_SelectedEvent | T_OpenFrame | T_CallNode | T_ExecutionInterval
| T_SemanticEnrichment | T_NextPc
| T_DeltaRun | T_IntervalEntry | T_PostingRef
| T_posting_group | T_posting_entry | T_pair | T_keyed_pair | T_values_entry
| T_ByteSpan | T_hash_entry.

(** The hash tables whose capacity the host keeps. *)
Inductive MapId :=
| Modules | Definitions
| DirectoryByTid | KnownTids | Lifecycle | RegularSequences | ProofCoverage
| ChunkDefinitions (chunk : nat) | ChunkStrings (chunk : nat) | ChunkFragmentStrings (chunk : nat)
| FinalState | FinalRegisters | PcPolicies | GroupCounts | Groups | ProjectionByTid
| RegisterScopes | TimelineGroups | TidGroups | KindGroups | ArenaHashes.

(** The heap and the compiler, as far as the code observes them: layout of a
    type, the answer to [try_reserve_exact] (the capacity granted, or
    refusal), the free capacity of a hash table and the answer to its
    [try_reserve]. *)
Class Allocator (W : Type) := {
  size_of : RustType -> Z;
  align_of : RustType -> Z;
  vec_grow : RustType -> Z -> W -> option Z * W;
  map_capacity : MapId -> W -> Z;
  map_grow : MapId -> Z -> W -> bool * W
}.

(** What the standard library documents: a granted capacity is at least the
    one asked for. *)
Class AllocatorLaws (W : Type) `{Allocator W} : Prop := {
  vec_grow_enough t n w c w' : vec_grow t n w = (Some c, w') -> n <= c
}.

(** [usize::checked_next_power_of_two] *)
Definition checked_next_power_of_two (n : Z) : option Z :=
  let p := if n <=? 1 then 1 else 2 ^ Z.log2_up n in
  if p <=? usize_max then Some p else None.

Section allocation.
Context {W : Type} `{WorkGuard W} `{Allocator W} {S : Type}.

Abbreviation M := (Prog W ProviderError S).

(** [guard.consume(delta)?] *)
Definition consume (d : WorkDelta) : M unit := fun s w =>
  match guard_consume d w with
  | (Ok _, w') => (Ok tt, s, w')
  | (Err a, w') => (Err (from_abort a), s, w')
  end.

(** [let _scope = AllocationScope::begin(guard, bytes, slack)?; body]: the
    scope closes when the body ends, whichever way it ends. *)
Definition allocation_scope {A} (resident slack : Z) (body : M A) : M A := fun s w =>
  match guard_begin_scope (delta_resident resident) slack w with
  | (Err a, w') => (Err (from_abort a), s, w')
  | (Ok _, w') => let '(r, s', w'') := body s w' in (r, s', guard_end_scope w'')
  end.

(** The host's answer to [try_reserve_exact]. *)
Definition heap_grow (t : RustType) (n : Z) (e : ProviderError) : M Z := fun s w =>
  match vec_grow t n w with
  | (Some c, w') => (Ok c, s, w')
  | (None, w') => (Err e, s, w')
  end.

(** [count.checked_mul(size_of::<T>()).and_then(|bytes| u64::try_from(bytes).ok())] *)
Definition array_bytes (t : RustType) (count : Z) : option Z :=
  b ← checked_mul usize_max count (size_of t); try_from u64_max b.

Definition checked_array_bytes_in (t : RustType) (count : Z) (c : AllocationErrorContext) : M Z :=
  lift_option (array_bytes t count) (context_error c "allocation byte count overflow").

Definition checked_vec_capacity_in (t : RustType) (count : Z) (c : AllocationErrorContext) : M Z :=
  checked_array_bytes_in t count c ;! ret count.

Definition checked_geometric_capacity_in (current required minimum : Z)
    (c : AllocationErrorContext) : result ProviderError Z :=
  ok_or (match checked_mul usize_max current 2 with
         | Some doubled => Some (Z.max required (Z.max minimum doubled))
         | None => None
         end)
    (context_error c "vector capacity overflow").

Definition checked_geometric_capacity (current required minimum : Z) : result ProviderError Z :=
  checked_geometric_capacity_in current required minimum PROVIDER_ALLOCATION.

(** [try_reserve_vec_exact_in]: the vector is given by its current capacity and
    length; the result is its capacity afterwards. *)
Definition try_reserve_vec_exact_in (t : RustType) (cap len capacity : Z) (detail : string)
    (c : AllocationErrorContext) : M Z :=
  if capacity <=? cap then ret cap
  else
    let! capacity := checked_vec_capacity_in t capacity c in
    let! bytes := checked_array_bytes_in t capacity c in
    allocation_scope bytes 0
      (heap_grow t (len + saturating_sub capacity len) (context_error c detail)).

(** [try_reserve_vec_exact]: the callers start from an empty [Vec::new()] and
    look at the elements only. *)
Definition try_reserve_vec_exact (t : RustType) (cap len capacity : Z) (detail : string) : M unit :=
  try_reserve_vec_exact_in t cap len capacity detail PROVIDER_ALLOCATION ;! ret tt.

Definition try_vec_with_capacity_in (t : RustType) (capacity : Z) (detail : string)
    (c : AllocationErrorContext) : M Z :=
  try_reserve_vec_exact_in t 0 0 capacity detail c.

(** [try_push_vec_in] on a vector with elements [output] and capacity [cap]. *)
Definition try_push_vec_in {A} (t : RustType) (output : list A) (cap : Z) (value : A)
    (detail : string) (c : AllocationErrorContext) : M (list A * Z) :=
  let! cap :=
    if zlen output =? cap then
      let! required := lift_option (checked_add usize_max (zlen output) 1)
                         (context_error c "vector length overflow") in
      let! capacity := lift_result (checked_geometric_capacity_in cap required 4 c) in
      try_reserve_vec_exact_in t cap (zlen output) capacity detail c
    else ret cap in
  ret (output ++ [value], cap).

Definition try_copy_bytes_in (bs : bytes) (detail : string) (c : AllocationErrorContext) :
    M bytes :=
  try_reserve_vec_exact_in T_u8 0 0 (zlen bs) detail c ;! ret bs.

Definition try_copy_bytes (bs : bytes) (detail : string) : M bytes :=
  try_copy_bytes_in bs detail PROVIDER_ALLOCATION.

Definition try_copy_string_in (value : bytes) (detail : string) (c : AllocationErrorContext) :
    M bytes :=
  let! bytes := lift_option (try_from u64_max (zlen value)) (context_error c detail) in
  allocation_scope bytes 0
    (heap_grow T_u8 (zlen value) (context_error c detail) ;! ret value).

Definition try_copy_string (value : bytes) (detail : string) : M bytes :=
  try_copy_string_in value detail PROVIDER_ALLOCATION.

(** The bucket count of [hash_table_layout_in]. *)
Definition hash_buckets (required : Z) : option Z :=
  if required <? 4 then Some 4
  else if required <? 8 then Some 8
  else match checked_mul usize_max required 8 with
       | Some scaled =>
           match checked_add usize_max scaled 6 with
           | Some scaled => checked_next_power_of_two (scaled / 7)
           | None => None
           end
       | None => None
       end.

Definition hash_table_layout_in (t : RustType) (required : Z) (c : AllocationErrorContext) :
    M (Z * Z) :=
  if required =? 0 then ret (0, 0)
  else
    let! buckets := lift_option (hash_buckets required)
                      (context_error c "hash bucket count overflow") in
    let slack := saturating_sub (align_of t) 1 in
    let! bytes := lift_option
      (b0 ← checked_mul usize_max buckets (size_of t);
       b1 ← checked_add usize_max b0 slack;
       b2 ← checked_add usize_max b1 buckets;
       b3 ← checked_add usize_max b2 16;
       try_from u64_max b3)
      (context_error c "hash allocation size overflow") in
    ret (bytes, slack).

(** [try_reserve_hash_map_in] on the table [id] that holds [len] entries. *)
Definition try_reserve_hash_map_in (id : MapId) (t : RustType) (len additional : Z)
    (detail : string) (c : AllocationErrorContext) : M unit := fun s w =>
  if (additional =? 0) || (additional <=? saturating_sub (map_capacity id w) len)
  then (Ok tt, s, w)
  else
    (let! required := lift_option (checked_add usize_max len additional)
                        (context_error c "hash entry count overflow") in
     let! layout := hash_table_layout_in t required c in
     allocation_scope (fst layout) (snd layout) (fun s w =>
       match map_grow id (len + additional) w with
       | (true, w') => (Ok tt, s, w')
       | (false, w') => (Err (context_error c detail), s, w')
       end)) s w.

Definition try_reserve_hash_map (id : MapId) (t : RustType) (len additional : Z)
    (detail : string) : M unit :=
  try_reserve_hash_map_in id t len additional detail PROVIDER_ALLOCATION.

End allocation.

(** ** The world that never refuses

    [AllowAll] of the crate's own tests, with a heap that always grants.  Runs
    in it are the reference semantics the guarded code is compared with. *)

#[export] Instance allow_all_guard : WorkGuard unit := default_guard (fun _ w => (Ok tt, w)).

#[export] Instance allow_all_heap : Allocator unit := {|
  size_of _ := 0;
  align_of _ := 1;
  vec_grow _ n w := (Some n, w);
  map_capacity _ _ := usize_max;
  map_grow _ _ w := (true, w)
|}.

#[export] Instance allow_all_laws : AllocatorLaws unit.
Proof. constructor. cbn. intros t n w c w' [= -> _]. lia. Qed.

(** The errors a guard or a heap can cause, and nothing else can. *)
Definition resource_error (e : ProviderError) : Prop :=
  pe_code e ∈ ["control.cancelled"; "control.budget_exceeded";
               "control.resource_exhausted"; "source.flight.resource"].

#[export] Instance resource_error_dec e : Decision (resource_error e).
Proof. unfold resource_error. apply _. Defined.

(** An allocation context whose errors are resource errors. *)
Class ResourceContext (c : AllocationErrorContext) : Prop :=
  resource_context detail : resource_error (context_error c detail).
#[export] Instance provider_allocation_context : ResourceContext PROVIDER_ALLOCATION.
Proof. intros d. unfold resource_error. cbn. set_solver. Qed.
#[export] Instance flight_open_context : ResourceContext FLIGHT_OPEN_ALLOCATION.
Proof. intros d. unfold resource_error. cbn. set_solver. Qed.
#[export] Instance flight_recovery_context : ResourceContext FLIGHT_RECOVERY_ALLOCATION.
Proof. intros d. unfold resource_error. cbn. set_solver. Qed.

Lemma from_abort_resource a : resource_error (from_abort a).
Proof. unfold resource_error. destruct a; cbn; set_solver. Qed.

(** ** Rules for the guarded helpers *)

Section allocation_wp.
Context {W : Type} `{WorkGuard W} `{Allocator W} {S : Type}.
Implicit Types (s : S) (R : ProviderError -> S -> Prop).

Lemma wp_consume d (Q : unit -> S -> Prop) R s :
  Q tt s -> (forall e, resource_error e -> R e s) -> wp (W := W) (consume d) Q R s.
Proof.
  intros HQ HR w. unfold consume. destruct (guard_consume d w) as [[[]|a] w']; [done|].
  apply HR, from_abort_resource.
Qed.

Lemma wp_scope {A} n k (body : Prog W ProviderError S A) Q R s :
  wp body Q R s -> (forall e, resource_error e -> R e s) ->
  wp (allocation_scope n k body) Q R s.
Proof.
  intros Hb HR w. unfold allocation_scope.
  destruct (guard_begin_scope _ _ w) as [[[]|a] w']; [|apply HR, from_abort_resource].
  specialize (Hb w'). by destruct (body s w') as [[[?|?] ?] ?].
Qed.

Lemma wp_heap_grow t n e (Q : Z -> S -> Prop) R s :
  (forall c, Q c s) -> R e s -> wp (W := W) (heap_grow t n e) Q R s.
Proof. intros HQ HR w. unfold heap_grow. destruct (vec_grow t n w) as [[c|] w']; auto. Qed.

Context (c : AllocationErrorContext) `{!ResourceContext c}.

Lemma wp_reserve_vec t cap len capacity detail (Q : Z -> S -> Prop) R s :
  (forall n, Q n s) -> (forall e, resource_error e -> R e s) ->
  wp (W := W) (try_reserve_vec_exact_in t cap len capacity detail c) Q R s.
Proof.
  intros HQ HR. unfold try_reserve_vec_exact_in, checked_vec_capacity_in, checked_array_bytes_in.
  case_match; [by apply wp_ret|].
  apply wp_bind, wp_bind, wp_option.
  destruct (array_bytes t capacity) eqn:E; [|apply HR, resource_context].
  apply wp_ret, wp_bind, wp_option. rewrite E.
  apply wp_scope; [|done]. apply wp_heap_grow; [done|apply HR, resource_context].
Qed.

Lemma wp_copy_bytes bs detail (Q : bytes -> S -> Prop) R s :
  Q bs s -> (forall e, resource_error e -> R e s) ->
  wp (W := W) (try_copy_bytes_in bs detail c) Q R s.
Proof.
  intros HQ HR. unfold try_copy_bytes_in. apply wp_bind, wp_reserve_vec; [|done].
  intros _. by apply wp_ret.
Qed.

Lemma wp_copy_string bs detail (Q : bytes -> S -> Prop) R s :
  (zlen bs <= u64_max -> Q bs s) -> (forall e, resource_error e -> R e s) ->
  wp (W := W) (try_copy_string_in bs detail c) Q R s.
Proof.
  intros HQ HR. unfold try_copy_string_in. apply wp_bind, wp_option. unfold try_from.
  destruct (Z.leb_spec (zlen bs) u64_max) as [Hb|]; [|apply HR, resource_context].
  apply wp_scope; [|done].
  apply wp_bind, wp_heap_grow; [intros; by apply wp_ret, HQ|apply HR, resource_context].
Qed.

Lemma wp_reserve_map id t len additional detail (Q : unit -> S -> Prop) R s :
  Q tt s -> (forall e, resource_error e -> R e s) ->
  wp (W := W) (try_reserve_hash_map_in id t len additional detail c) Q R s.
Proof.
  intros HQ HR w. unfold try_reserve_hash_map_in. destruct (_ || _); [done|].
  match goal with |- context [bind ?p ?k s w] => enough (wp (bind p k) Q R s) as Hwp by apply Hwp end.
  apply wp_bind, wp_option. destruct (checked_add _ _ _); [|apply HR, resource_context].
  apply wp_bind. unfold hash_table_layout_in.
  assert (forall l, wp (W := W) (allocation_scope l.1 l.2 (fun s w =>
    match map_grow id (len + additional) w with
    | (true, w') => (Ok tt, s, w')
    | (false, w') => (Err (context_error c detail), s, w')
    end)) Q R s) as Hgrow.
  { intros l. apply wp_scope; [|done]. intros w'. destruct (map_grow _ _ w') as [[] ?]; [done|].
    apply HR, resource_context. }
  case_match; [by apply wp_ret|]. apply wp_bind, wp_option.
  destruct (hash_buckets _); [|apply HR, resource_context]. apply wp_bind, wp_option.
  match goal with |- match ?o with _ => _ end => destruct o end; [|apply HR, resource_context].
  by apply wp_ret.
Qed.

(** With a lawful heap the capacity afterwards is at least the one asked for. *)
Lemma wp_reserve_vec_lawful `{!AllocatorLaws W} t cap len capacity detail
    (Q : Z -> S -> Prop) R s :
  (forall n, capacity <= n -> Q n s) -> (forall e, resource_error e -> R e s) ->
  wp (W := W) (try_reserve_vec_exact_in t cap len capacity detail c) Q R s.
Proof.
  intros HQ HR. unfold try_reserve_vec_exact_in, checked_vec_capacity_in, checked_array_bytes_in.
  case_match; [apply wp_ret, HQ; lia|].
  apply wp_bind, wp_bind, wp_option.
  destruct (array_bytes t capacity) eqn:E; [|apply HR, resource_context].
  apply wp_ret, wp_bind, wp_option. rewrite E.
  apply wp_scope; [|done]. intros w. unfold heap_grow.
  destruct (vec_grow _ _ w) as [[n|] w'] eqn:Hg; [|apply HR, resource_context].
  apply vec_grow_enough in Hg. apply HQ. revert Hg. unfold saturating_sub. lia.
Qed.

Lemma wp_push `{!AllocatorLaws W} {A} t (output : list A) cap v detail R s :
  zlen output <= cap ->
  (forall e, resource_error e -> R e s) ->
  wp (W := W) (try_push_vec_in t output cap v detail c)
    (fun r s' => s' = s /\ fst r = output ++ [v] /\ zlen (fst r) <= snd r) R s.
Proof.
  intros Hcap HR. unfold try_push_vec_in. apply wp_bind.
  assert (zlen (output ++ [v]) = zlen output + 1) as Hlen.
  { unfold zlen. rewrite length_app. cbn. lia. }
  destruct (Z.eqb_spec (zlen output) cap) as [Heq|Hne].
  2: { apply wp_ret, wp_ret. cbn. rewrite Hlen. split_and!; [done..|lia]. }
  apply wp_bind, wp_option.
  destruct (checked_add _ _ _) eqn:Hr; [|apply HR, resource_context].
  apply wp_bind, wp_result. unfold checked_geometric_capacity_in, ok_or.
  destruct (checked_mul _ _ _); [|apply HR, resource_context].
  apply wp_reserve_vec_lawful; [|done]. intros n Hn. apply wp_ret. cbn. rewrite Hlen.
  apply checked_add_Some in Hr. split_and!; [done..|lia].
Qed.

End allocation_wp.

(** The helpers never touch the receiver. *)

Section allocation_keeps.
Context {W : Type} `{WorkGuard W} `{Allocator W} {S B : Type} (f : S -> B).
Abbreviation keep p := (keeps (W := W) (E := ProviderError) f p).

Lemma keeps_consume d : keep (consume d).
Proof. intros s w. unfold consume. by destruct (guard_consume d w) as [[[]|] ?]. Qed.

Lemma keeps_heap_grow t n e : keep (heap_grow t n e).
Proof. intros s w. unfold heap_grow. by destruct (vec_grow t n w) as [[c|] ?]. Qed.

Lemma keeps_scope {A} n k (body : Prog W ProviderError S A) :
  keep body -> keep (allocation_scope n k body).
Proof.
  intros Hb s w. unfold allocation_scope. destruct (guard_begin_scope _ _ w) as [[[]|] w']; [|done].
  specialize (Hb s w'). by destruct (body s w') as [[? ?] ?].
Qed.

Lemma keeps_reserve_in t cap len n d c : keep (try_reserve_vec_exact_in t cap len n d c).
Proof.
  unfold try_reserve_vec_exact_in, checked_vec_capacity_in, checked_array_bytes_in. keep_auto.
  apply keeps_scope, keeps_heap_grow.
Qed.

Lemma keeps_reserve t cap len n d : keep (try_reserve_vec_exact t cap len n d).
Proof. apply keeps_bind; [apply keeps_reserve_in|intros; apply keeps_ret]. Qed.

Lemma keeps_copy_bytes bs d : keep (try_copy_bytes bs d).
Proof. apply keeps_bind; [apply keeps_reserve_in|intros; apply keeps_ret]. Qed.

Lemma keeps_copy_string bs d : keep (try_copy_string bs d).
Proof.
  apply keeps_bind; [apply keeps_option|intros n]. apply keeps_scope.
  apply keeps_bind; [apply keeps_heap_grow|intros; apply keeps_ret].
Qed.

Lemma keeps_reserve_map id t len n d : keep (try_reserve_hash_map id t len n d).
Proof.
  intros s w. unfold try_reserve_hash_map, try_reserve_hash_map_in. destruct (_ || _); [done|].
  match goal with |- context [bind ?p ?k s w] => enough (keep (bind p k)) as Hk by apply Hk end.
  unfold hash_table_layout_in. keep_auto. apply keeps_scope. intros s' w'.
  by destruct (map_grow _ _ w') as [[] ?].
Qed.

End allocation_keeps.

#[export] Hint Resolve keeps_consume keeps_reserve keeps_copy_bytes keeps_copy_string
  keeps_reserve_map : keep.

(** What the world does when it grants. *)
Class WorldOrder (W : Type) `{WorkGuard W} `{Allocator W} (R : W -> W -> Prop) : Prop := {
  order_preorder : PreOrder R;
  order_begin n k w w' : guard_begin_scope (delta_resident n) k w = (Ok tt, w') -> R w w';
  order_end w : R w (guard_end_scope w);
  order_grow t n w r w' : vec_grow t n w = (r, w') -> R w w';
  order_map_grow id n w r w' : map_grow id n w = (r, w') -> R w w'
}.
#[export] Existing Instance order_preorder.

Section allocation_advances.
Context {W : Type} `{WorkGuard W} `{Allocator W} {S : Type} (R : W -> W -> Prop) `{!WorldOrder W R}.
Abbreviation advance p := (advances (E := ProviderError) (S := S) R p).

Lemma advances_heap_grow t n e : advance (heap_grow t n e).
Proof.
  intros s w a s' w'. unfold heap_grow. destruct (vec_grow t n w) as [[c|] w1] eqn:Hg; [|done].
  intros [= _ _ <-]. by eapply order_grow.
Qed.

Lemma advances_scope {A} n k (body : Prog W ProviderError S A) :
  advance body -> advance (allocation_scope n k body).
Proof.
  intros Hb s w a s' w'. unfold allocation_scope.
  destruct (guard_begin_scope _ _ w) as [[[]|] w1] eqn:Hg; [|done].
  destruct (body s w1) as [[r s1] w2] eqn:Hrun. intros [= -> _ <-].
  transitivity w1; [by eapply order_begin|]. transitivity w2; [by eapply Hb|apply order_end].
Qed.

Lemma advances_reserve_in t cap len n d c : advance (try_reserve_vec_exact_in t cap len n d c).
Proof.
  unfold try_reserve_vec_exact_in, checked_vec_capacity_in, checked_array_bytes_in. advance_auto.
  apply advances_scope, advances_heap_grow.
Qed.

Lemma advances_reserve t cap len n d : advance (try_reserve_vec_exact t cap len n d).
Proof. unfold try_reserve_vec_exact. advance_auto. apply advances_reserve_in. Qed.

Lemma advances_copy_bytes bs d : advance (try_copy_bytes bs d).
Proof. unfold try_copy_bytes, try_copy_bytes_in. advance_auto. apply advances_reserve_in. Qed.

Lemma advances_copy_string bs d : advance (try_copy_string bs d).
Proof.
  unfold try_copy_string, try_copy_string_in. advance_auto. apply advances_scope. advance_auto.
  apply advances_heap_grow.
Qed.

Lemma advances_reserve_map id t len n d : advance (try_reserve_hash_map id t len n d).
Proof.
  intros s w a s' w'. unfold try_reserve_hash_map, try_reserve_hash_map_in.
  destruct (_ || _); [intros [= _ _ <-]; reflexivity|].
  match goal with |- bind ?p ?k s w = _ -> _ => enough (advance (bind p k)) as Hk by apply Hk end.
  unfold hash_table_layout_in. advance_auto. apply advances_scope. intros s0 w0 x0 s3 w3.
  destruct (map_grow _ _ w0) as [[] w4] eqn:Hg; [|done]. intros [= _ _ <-]. by eapply order_map_grow.
Qed.

End allocation_advances.

#[export] Hint Extern 1 (advances _ (try_reserve_vec_exact _ _ _ _ _)) =>
  apply advances_reserve; exact _ : advance.
#[export] Hint Extern 1 (advances _ (try_copy_bytes _ _)) =>
  apply advances_copy_bytes; exact _ : advance.
#[export] Hint Extern 1 (advances _ (try_copy_string _ _)) =>
  apply advances_copy_string; exact _ : advance.
#[export] Hint Extern 1 (advances _ (try_reserve_hash_map _ _ _ _ _)) =>
  apply advances_reserve_map; exact _ : advance.

(** ** Guarded helpers against the world that never refuses *)

Section allocation_refines.
Context {W : Type} `{WorkGuard W} `{Allocator W} {S : Type}.

Notation "p ⊑ q" := (refines (S := S) (W1 := W) (W2 := unit) resource_error p q)
  (at level 70).

Lemma consume_refines d : consume (W := W) d ⊑ consume (W := unit) d.
Proof.
  intros s w1 w2. unfold consume. cbn. destruct (guard_consume d w1) as [[[]|a] w']; [by left|].
  right. eexists. split; [done|apply from_abort_resource].
Qed.

(** A helper that leaves the receiver alone, returns a fixed value and fails
    only with resource errors refines itself in the permissive world. *)
Lemma refines_of_wp {A} (a : A) (p : Prog W ProviderError S A) (q : Prog unit ProviderError S A) :
  (forall s, wp p (fun a' s' => a' = a /\ s' = s) (fun e _ => resource_error e) s) ->
  (forall s, run q s = (Ok a, s)) ->
  p ⊑ q.
Proof.
  intros Hp Hq s w1 w2. specialize (Hp s w1). specialize (Hq s). unfold run in Hq.
  destruct w2. destruct (q s tt) as [[r2 s2] []]. cbn in Hq. injection Hq as -> ->.
  destruct (p s w1) as [[[a'|e] s1] w1']; [left|right].
  - by destruct Hp as [-> ->].
  - by exists e.
Qed.

Lemma scope_refines {A} n k n' k' (p : Prog W ProviderError S A) (q : Prog unit ProviderError S A) :
  p ⊑ q -> allocation_scope n k p ⊑ allocation_scope n' k' q.
Proof.
  intros Hp s w1 w2. unfold allocation_scope. cbn.
  destruct (guard_begin_scope _ _ w1) as [[[]|a] w1'].
  - specialize (Hp s w1' w2). by destruct (p s w1') as [[? ?] ?], (q s w2) as [[? ?] ?].
  - destruct (q s w2) as [[? ?] ?]. right. eexists. split; [done|apply from_abort_resource].
Qed.

Lemma run_reserve_vec_in t cap len capacity detail c s :
  exists n, run (try_reserve_vec_exact_in (W := unit) (S := S) t cap len capacity detail c) s
            = (Ok n, s).
Proof.
  unfold try_reserve_vec_exact_in. case_match; [by eexists|].
  assert (array_bytes (W := unit) t capacity = Some 0) as Hb.
  { unfold array_bytes, checked_mul. cbn -[Z.mul usize_max]. by rewrite Z.mul_0_r. }
  unfold run, checked_vec_capacity_in, checked_array_bytes_in, lift_option, lift_result, bind.
  rewrite Hb. cbn. rewrite Hb. by eexists.
Qed.

Lemma run_reserve_vec t cap len capacity detail s :
  run (try_reserve_vec_exact (W := unit) (S := S) t cap len capacity detail) s = (Ok tt, s).
Proof.
  destruct (run_reserve_vec_in t cap len capacity detail PROVIDER_ALLOCATION s) as [n Hn].
  unfold try_reserve_vec_exact. by rewrite (run_bind_ok _ _ _ _ _ Hn).
Qed.

Lemma run_copy_bytes bs detail c s :
  run (try_copy_bytes_in (W := unit) (S := S) bs detail c) s = (Ok bs, s).
Proof.
  destruct (run_reserve_vec_in T_u8 0 0 (zlen bs) detail c s) as [n Hn].
  unfold try_copy_bytes_in. by rewrite (run_bind_ok _ _ _ _ _ Hn).
Qed.

Lemma run_copy_string bs detail c s :
  zlen bs <= u64_max ->
  run (try_copy_string_in (W := unit) (S := S) bs detail c) s = (Ok bs, s).
Proof.
  intros Hbs. unfold run, try_copy_string_in, bind, lift_option, lift_result, try_from.
  replace (zlen bs <=? u64_max) with true by lia. done.
Qed.

Lemma run_reserve_map id t len additional detail c s :
  0 <= len -> len + additional <= usize_max ->
  run (try_reserve_hash_map_in (W := unit) (S := S) id t len additional detail c) s = (Ok tt, s).
Proof.
  intros Hlen Hsum. unfold run, try_reserve_hash_map_in, saturating_sub. cbn -[usize_max].
  replace (additional <=? Z.max 0 (usize_max - len)) with true by lia. by rewrite orb_true_r.
Qed.

Lemma reserve_vec_refines t cap len capacity detail :
  try_reserve_vec_exact (W := W) t cap len capacity detail
  ⊑ try_reserve_vec_exact (W := unit) t cap len capacity detail.
Proof.
  apply (refines_of_wp tt); [|apply run_reserve_vec].
  intros s. apply wp_bind, wp_reserve_vec; [apply _|intros; by apply wp_ret|done].
Qed.

Context (c : AllocationErrorContext) `{!ResourceContext c}.

Lemma copy_bytes_refines bs detail :
  try_copy_bytes_in (W := W) bs detail c ⊑ try_copy_bytes_in (W := unit) bs detail c.
Proof.
  apply (refines_of_wp bs); [|intros; apply run_copy_bytes].
  intros s. by apply wp_copy_bytes.
Qed.

Lemma copy_string_refines bs detail :
  try_copy_string_in (W := W) bs detail c ⊑ try_copy_string_in (W := unit) bs detail c.
Proof.
  unfold try_copy_string_in. apply refines_bind; [apply refines_option|intros n].
  apply scope_refines, (refines_of_wp bs); intros s; [|done].
  apply wp_bind, wp_heap_grow; [intros; by apply wp_ret|apply resource_context].
Qed.

Lemma reserve_map_refines id t len additional detail :
  0 <= len -> len + additional <= usize_max ->
  try_reserve_hash_map_in (W := W) id t len additional detail c
  ⊑ try_reserve_hash_map_in (W := unit) id t len additional detail c.
Proof.
  intros. apply (refines_of_wp tt); [|intros; by apply run_reserve_map].
  intros s. by apply wp_reserve_map.
Qed.

End allocation_refines.

#[export] Hint Resolve consume_refines reserve_vec_refines : refine.
#[export] Hint Extern 1 (refines _ (try_copy_bytes _ _) _) =>
  apply copy_bytes_refines; exact _ : refine.
#[export] Hint Extern 1 (refines _ (try_copy_string _ _) _) =>
  apply copy_string_refines; exact _ : refine.

(** ** Bounded error text *)

Lemma char_width_bounds b : (1 <= char_width b <= 4)%nat.
Proof. unfold char_width. repeat case_match; lia. Qed.

Lemma bounded_go_length fuel used detail :
  0 <= used -> zlen (bounded_go fuel used detail) <= Z.max 0 (MAX_DETAIL_BYTES - used).
Proof.
  revert used detail. induction fuel as [|fuel IH]; intros used detail Hu; [unfold zlen; cbn; lia|].
  destruct detail as [|b detail]; [unfold zlen; cbn; lia|]. cbn [bounded_go].
  pose proof (char_width_bounds b). destruct (Z.gtb_spec (used + Z.of_nat (char_width b)) MAX_DETAIL_BYTES);
    [unfold zlen; cbn; lia|].
  specialize (IH (used + Z.of_nat (char_width b)) (drop (char_width b) (b :: detail)) ltac:(lia)).
  unfold zlen in *. rewrite length_app. case_bool_decide; [cbn [length]|rewrite length_take]; lia.
Qed.

(** In well-formed UTF-8 no line break hides inside a character. *)
Definition no_break (b : byte) : Prop := b <> x0a /\ b <> x0d.

Lemma in_range_spec b lo hi : in_range b lo hi = true <-> lo <= Z_of_byte b <= hi.
Proof. unfold in_range. rewrite andb_true_iff, !Z.leb_le. done. Qed.

Lemma high_no_break b : 128 <= Z_of_byte b -> no_break b.
Proof. intros H. split; intros ->; vm_compute in H; congruence. Qed.

(** The first character of well-formed text is its declared width, and the rest
    is well formed. *)
Lemma utf8_first b detail :
  utf8_valid (b :: detail) = true ->
  utf8_valid (drop (char_width b) (b :: detail)) = true
  /\ Forall no_break (drop 1 (take (char_width b) (b :: detail))).
Proof.
  intros Hv. cbn [utf8_valid] in Hv. unfold char_width.
  destruct (in_range b 0 127) eqn:H1.
  { apply in_range_spec in H1. replace (Z_of_byte b <? 128) with true by lia. by split. }
  pose proof (Z_of_byte_range b).
  assert (128 <= Z_of_byte b) as Hb.
  { unfold in_range in H1. apply andb_false_iff in H1. lia. }
  replace (Z_of_byte b <? 128) with false by lia. destruct detail as [|b2 r2]; [done|].
  assert (forall c, utf8_cont c = true -> no_break c) as Hcont.
  { intros c Hc. apply in_range_spec in Hc. apply high_no_break. lia. }
  destruct (in_range b 194 223 && utf8_cont b2) eqn:H2.
  { apply andb_true_iff in H2 as [H2 H2']. apply in_range_spec in H2.
    replace (Z_of_byte b <? 224) with true by lia. split; [done|]. by repeat constructor; apply Hcont. }
  destruct r2 as [|b3 r3]; [done|].
  destruct (utf8_lead3 b b2 && utf8_cont b3) eqn:H3.
  { apply andb_true_iff in H3 as [H3 H3']. unfold utf8_lead3, utf8_cont in H3.
    rewrite !orb_true_iff, !andb_true_iff, !in_range_spec in H3.
    replace (Z_of_byte b <? 224) with false by lia. replace (Z_of_byte b <? 240) with true by lia.
    split; [done|]. cbn. constructor; [apply high_no_break; lia|]. constructor; [by apply Hcont|done]. }
  destruct r3 as [|b4 r4]; [done|]. rewrite !andb_true_iff in Hv. destruct Hv as [[[H4 H4'] H4''] Hv].
  unfold utf8_lead4, utf8_cont in H4. rewrite !orb_true_iff, !andb_true_iff, !in_range_spec in H4.
  replace (Z_of_byte b <? 224) with false by lia. replace (Z_of_byte b <? 240) with false by lia.
  split; [done|]. cbn. constructor; [apply high_no_break; lia|].
  constructor; [by apply Hcont|]. constructor; [by apply Hcont|done].
Qed.

Lemma bounded_go_breaks fuel used detail :
  utf8_valid detail = true -> Forall no_break (bounded_go fuel used detail).
Proof.
  revert used detail. induction fuel as [|fuel IH]; intros used detail Hv; [constructor|].
  destruct detail as [|b detail]; [constructor|]. cbn [bounded_go].
  destruct (_ >? _); [constructor|]. destruct (utf8_first b detail Hv) as [Hrest Hchar].
  apply Forall_app. split; [|by apply IH].
  case_bool_decide as Hb; [by repeat constructor|].
  destruct (char_width b) as [|n]; [constructor|]. cbn in Hchar |- *. rewrite drop_0 in Hchar.
  constructor; [|done]. split; intros ->; apply Hb; auto.
Qed.

(** Short text without line breaks is kept as it is. *)
Lemma bounded_go_id fuel used detail :
  (length detail <= fuel)%nat -> used + zlen detail <= MAX_DETAIL_BYTES ->
  utf8_valid detail = true -> Forall no_break detail ->
  bounded_go fuel used detail = detail.
Proof.
  revert used detail. induction fuel as [|fuel IH]; intros used detail Hf Hl Hv Hb.
  { destruct detail; cbn in *; [done|lia]. }
  destruct detail as [|b detail]; [done|]. cbn [bounded_go].
  pose proof (char_width_bounds b) as Hw.
  assert (char_width b <= length (b :: detail))%nat as Hle.
  { apply utf8_first in Hv as Hv'. destruct Hv' as [Hrest _].
    cbn [utf8_valid] in Hv. unfold char_width in *.
    pose proof (Z_of_byte_range b).
    destruct (in_range b 0 127) eqn:H1.
    { apply in_range_spec in H1. replace (Z_of_byte b <? 128) with true by lia. cbn. lia. }
    destruct detail as [|b2 r2]; [done|].
    destruct (in_range b 194 223 && utf8_cont b2) eqn:H2.
    { apply andb_true_iff in H2 as [H2 _]. apply in_range_spec in H2.
      replace (Z_of_byte b <? 224) with true by lia. case_match; cbn; lia. }
    destruct r2 as [|b3 r3]; [done|].
    destruct (utf8_lead3 b b2 && utf8_cont b3) eqn:H3.
    { apply andb_true_iff in H3 as [H3 _]. unfold utf8_lead3, utf8_cont in H3.
      rewrite !orb_true_iff, !andb_true_iff, !in_range_spec in H3.
      replace (Z_of_byte b <? 240) with true by lia. repeat case_match; cbn; lia. }
    destruct r3 as [|b4 r4]; [done|]. repeat case_match; cbn; lia. }
  unfold zlen in *. cbn [length] in *.
  replace (used + Z.of_nat (char_width b) >? MAX_DETAIL_BYTES) with false by lia.
  rewrite bool_decide_eq_false_2.
  2: { apply Forall_cons in Hb as [[Hb1 Hb2] _]. by intros [->| ->]. }
  destruct (utf8_first b detail Hv) as [Hrest _].
  rewrite IH; [apply take_drop|rewrite length_drop; cbn; lia|rewrite length_drop; cbn; lia|done|].
  by apply Forall_drop.
Qed.

Lemma list_byte_of_string_of_list_byte l :
  String.list_byte_of_string (String.string_of_list_byte l) = l.
Proof. apply String.list_byte_of_string_of_list_byte. Qed.

(** The detail of an error is at most 512 bytes and a single line, whatever text
    it is built from: line feeds and carriage returns become spaces, and text
    that already fits on one line is kept. *)
Theorem error_detail_bounded (code stage : string) (source : option SourceCoordinate)
    (retryable : bool) (detail : string)
    (Hutf8 : utf8_valid (String.list_byte_of_string detail) = true) :
  let shown := String.list_byte_of_string
                 (error_detail (ProviderError_new code stage source retryable detail)) in
  zlen shown <= MAX_DETAIL_BYTES
  /\ Forall no_break shown
  /\ (zlen (String.list_byte_of_string detail) <= MAX_DETAIL_BYTES ->
      Forall no_break (String.list_byte_of_string detail) ->
      shown = String.list_byte_of_string detail).
Proof.
  intros shown. subst shown. unfold error_detail, ProviderError_new. cbn [pe_detail].
  unfold bounded_single_line, bounded_bytes. rewrite list_byte_of_string_of_list_byte.
  split_and!.
  - pose proof (bounded_go_length (length (String.list_byte_of_string detail)) 0
      (String.list_byte_of_string detail) (Z.le_refl 0)) as Hl. unfold MAX_DETAIL_BYTES in *. lia.
  - by apply bounded_go_breaks.
  - intros Hl Hb. by apply bounded_go_id.
Qed.

Lemma error_detail_bounded_witness :
  let e := ProviderError_new "source.sample" "test" None false "two
lines" in
  error_detail e = "two lines" /\ zlen (String.list_byte_of_string (error_detail e)) <= MAX_DETAIL_BYTES.
Proof.
  split; [vm_compute; reflexivity|].
  apply (error_detail_bounded "source.sample" "test" None false "two
lines"). vm_compute. reflexivity.
Defined.

(** ** Hash table sizes *)

(** How many entries a table of [buckets] holds at the load factor of the
    standard library's table (7/8, all but one below eight buckets). *)
Definition table_load (buckets : Z) : Z :=
  if buckets <=? 8 then buckets - 1 else buckets / 8 * 7.

Lemma next_power_of_two_spec n p :
  1 <= n -> checked_next_power_of_two n = Some p ->
  (exists k, 0 <= k /\ p = 2 ^ k) /\ n <= p /\ p < 2 * n.
Proof.
  intros Hn. unfold checked_next_power_of_two. destruct (Z.leb_spec n 1) as [H1|H1].
  - destruct (1 <=? usize_max); [|done]. intros [= <-]. split; [by exists 0|]. lia.
  - destruct (_ <=? usize_max); [|done]. intros [= <-].
    pose proof (Z.log2_up_spec n H1) as [Hlo Hhi]. pose proof (Z.log2_up_pos n H1) as Hpos.
    split; [exists (Z.log2_up n); lia|]. split; [done|].
    replace (2 ^ Z.log2_up n) with (2 * 2 ^ Z.pred (Z.log2_up n)); [lia|].
    rewrite <- Z.pow_succ_r by lia. f_equal. lia.
Qed.

(** The bucket count charged for a hash table is the smallest power of two,
    from four up, whose load limit holds the required entries; the code either
    finds it or reports an overflow. *)
Theorem hash_buckets_smallest (required b : Z) (Hreq : 1 <= required)
    (Hb : hash_buckets required = Some b) :
  (exists k, 2 <= k /\ b = 2 ^ k) /\ required <= table_load b
  /\ (4 < b -> table_load (b / 2) < required).
Proof.
  unfold hash_buckets in Hb. destruct (Z.ltb_spec required 4) as [H4|H4].
  { injection Hb as <-. split; [by exists 2|]. change (table_load 4) with 3. lia. }
  destruct (Z.ltb_spec required 8) as [H8|H8].
  { injection Hb as <-. split; [by exists 3|]. change (table_load 8) with 7.
    change (table_load (8 / 2)) with 3. lia. }
  destruct (checked_mul usize_max required 8) as [s|] eqn:Hs; [|done].
  apply checked_mul_Some in Hs as [-> _].
  destruct (checked_add usize_max (required * 8) 6) as [s|] eqn:Hs; [|done].
  apply checked_add_Some in Hs as [-> _].
  set (c := (required * 8 + 6) / 7) in *.
  assert (7 * c <= required * 8 + 6 < 7 * c + 7) as Hc.
  { pose proof (Z.div_mod (required * 8 + 6) 7 ltac:(lia)).
    pose proof (Z.mod_pos_bound (required * 8 + 6) 7 ltac:(lia)). lia. }
  apply next_power_of_two_spec in Hb as ((k & Hk & Hbk) & Hlo & Hhi); [|lia].
  assert (4 <= k) as Hk4.
  { destruct (Z.le_gt_cases 4 k) as [|Hlt]; [done|].
    assert (2 ^ k <= 2 ^ 3) by (apply Z.pow_le_mono_r; lia). lia. }
  assert (b = 16 * 2 ^ (k - 4)) as Hb16.
  { rewrite Hbk. change 16 with (2 ^ 4). rewrite <- Z.pow_add_r by lia. f_equal. lia. }
  assert (0 < 2 ^ (k - 4)) as Hpos by (apply Z.pow_pos_nonneg; lia).
  assert (b / 8 = 2 * 2 ^ (k - 4)) as H8b.
  { rewrite Hb16. replace (16 * 2 ^ (k - 4)) with (2 * 2 ^ (k - 4) * 8) by lia. by rewrite Z.div_mul. }
  assert (b / 2 = 8 * 2 ^ (k - 4)) as H2b.
  { rewrite Hb16. replace (16 * 2 ^ (k - 4)) with (8 * 2 ^ (k - 4) * 2) by lia. by rewrite Z.div_mul. }
  split; [exists k; lia|]. unfold table_load. rewrite H2b.
  replace (b <=? 8) with false by lia. rewrite H8b. split; [lia|]. intros _.
  destruct (Z.leb_spec (8 * 2 ^ (k - 4)) 8); [lia|].
  replace (8 * 2 ^ (k - 4) / 8) with (2 ^ (k - 4)) by (rewrite Z.mul_comm, Z.div_mul; lia). lia.
Qed.

Lemma hash_buckets_smallest_witness :
  hash_buckets 100 = Some 128 /\ 100 <= table_load 128 /\ table_load 64 < 100.
Proof.
  split; [reflexivity|].
  destruct (hash_buckets_smallest 100 128) as (_ & H1 & H2); [lia|reflexivity|].
  split; [exact H1|apply H2; lia].
Defined.

(** ** Growing a vector *)

(** [try_push_vec] under any guard and any lawful heap either appends the
    element, leaving a capacity that holds the vector, or fails with a resource
    error; the receiver of the call is untouched either way. *)
Theorem push_safe {W} {G : WorkGuard W} {A : Allocator W} {S T : Type} (t : RustType)
    (output : list T) (cap : Z) (v : T) (detail : string) (s : S) (w : W)
    (Hlaws : AllocatorLaws W) (Hcap : zlen output <= cap) :
  match try_push_vec_in t output cap v detail PROVIDER_ALLOCATION s w with
  | (Ok (output', cap'), s', _) => s' = s /\ output' = output ++ [v] /\ zlen output' <= cap'
  | (Err e, s', _) => s' = s /\ resource_error e
  end.
Proof.
  pose proof (wp_push PROVIDER_ALLOCATION t output cap v detail
    (fun e s' => s' = s /\ resource_error e) s Hcap ltac:(done) w) as Hp.
  destruct (try_push_vec_in _ _ _ _ _ _ s w) as [[[[o c]|e] s'] w']; naive_solver.
Qed.

Lemma push_safe_witness :
  match try_push_vec_in (W := unit) T_u64 [1; 2; 3; 4] 4 5 "full" PROVIDER_ALLOCATION tt tt with
  | (Ok (output', cap'), _, _) => output' = [1; 2; 3; 4; 5] /\ cap' = 8
  | _ => False
  end /\ zlen [1; 2; 3; 4; 5] <= 8.
Proof.
  split; [vm_compute; split; reflexivity|].
  pose proof (push_safe (W := unit) T_u64 [1; 2; 3; 4] 4 5 "full" tt tt allow_all_laws
    ltac:(vm_compute; discriminate)) as Hp.
  vm_compute in Hp |- *. apply Hp.
Defined.
