(* ===== verification/Throws.v ===== *)
(** * Errors a program can raise

    [throws P p]: every error [p] ends with satisfies [P].  The predicate is
    closed under the constructors of [Prog], so that the errors of a long
    decoder are found by walking it. *)

From stdpp Require Import prelude list strings.
From Stdlib Require Import ZArith Lia.
From S2P Require Import Prelude Prog Control.

Definition throws {W E S A} (P : E -> Prop) (p : Prog W E S A) : Prop :=
  forall s w, match p s w with (Err e, _, _) => P e | _ => True end.

Section throws.
Context {W E S : Type} (P : E -> Prop).
Implicit Types A B : Type.
Abbreviation T p := (throws (W := W) (S := S) P p).

Lemma throws_ret {A} (a : A) : T (ret a).
Proof. done. Qed.
Lemma throws_throw {A} (e : E) : P e -> T (throw (A := A) e).
Proof. by intros He s w. Qed.
Lemma throws_get : T get.
Proof. done. Qed.
Lemma throws_put s : T (put s).
Proof. done. Qed.
Lemma throws_modify f : T (modify f).
Proof. done. Qed.
Lemma throws_result {A} (r : result E A) : (forall e, r = Err e -> P e) -> T (lift_result r).
Proof. intros Hr s w. cbn. destruct r; auto. Qed.
Lemma throws_option {A} (o : option A) (e : E) : P e -> T (lift_option o e).
Proof. intros He s w. unfold lift_option, lift_result, ok_or. by destruct o. Qed.
Lemma throws_fail_if b e : P e -> T (fail_if b e).
Proof. intros He s w. by destruct b. Qed.

Lemma throws_bind {A B} (p : Prog W E S A) (k : A -> Prog W E S B) :
  T p -> (forall a, T (k a)) -> T (bind p k).
Proof.
  intros Hp Hk s w. specialize (Hp s w). unfold bind.
  destruct (p s w) as [[[a|e] s'] w']; [apply Hk|exact Hp].
Qed.

Lemma throws_for_each {X A} (xs : list X) (f : X -> Prog W E S A) :
  (forall x, T (f x)) -> T (for_each xs f).
Proof.
  intros Hf. induction xs as [|x xs IH]; cbn [for_each]; [apply throws_ret|].
  apply throws_bind; [apply Hf|intros a]. apply throws_bind; [exact IH|intros l; apply throws_ret].
Qed.

Lemma throws_fold_each {X A} (xs : list X) (a : A) (f : A -> X -> Prog W E S A) :
  (forall a x, T (f a x)) -> T (fold_each xs a f).
Proof.
  intros Hf. revert a. induction xs as [|x xs IH]; intros a; cbn [fold_each]; [apply throws_ret|].
  apply throws_bind; [apply Hf|exact IH].
Qed.

End throws.

Section throws_receivers.
Context {W E S : Type} (P : E -> Prop).

Lemma throws_local {T A} (t : T) (p : Prog W E T A) : throws P p -> throws P (with_local (S := S) t p).
Proof. intros Hp s w. specialize (Hp t w). unfold with_local. by destruct (p t w) as [[[?|?] ?] ?]. Qed.

Lemma throws_zoom {T A} (part : S -> T) assign (p : Prog W E T A) : throws P p -> throws P (zoom part assign p).
Proof. intros Hp s w. specialize (Hp (part s) w). unfold zoom. by destruct (p (part s) w) as [[[?|?] ?] ?]. Qed.

Lemma throws_mono {A} (Q : E -> Prop) (p : Prog W E S A) :
  throws Q p -> (forall e, Q e -> P e) -> throws P p.
Proof. intros Hp HQ s w. specialize (Hp s w). destruct (p s w) as [[[?|?] ?] ?]; auto. Qed.

(** What was caught is known to satisfy the predicate. *)
Lemma throws_attempt_on {E' T A B} (Q : E' -> Prop) (part : S -> T) assign (p : Prog W E' T A)
    (k : result E' A -> Prog W E S B) :
  throws Q p -> (forall r, (forall e, r = Err e -> Q e) -> throws P (k r)) ->
  throws P (bind (attempt_on part assign p) k).
Proof.
  intros Hp Hk s w. unfold bind, attempt_on. specialize (Hp (part s) w).
  destruct (p (part s) w) as [[r t] w']. apply Hk. intros e ->. exact Hp.
Qed.

Lemma throws_relabel {E' A} (Q : E' -> Prop) (f : E' -> E) (p : Prog W E' S A) :
  throws Q p -> (forall e, Q e -> P (f e)) -> throws P (relabel f p).
Proof.
  intros Hp Hf s w. specialize (Hp s w). unfold relabel, attempt, attempt_on, bind, lift_result.
  destruct (p s w) as [[[?|?] ?] ?]; cbn; auto.
Qed.

End throws_receivers.

(** Both rules give the weakest postcondition for the errors. *)
Lemma wp_throws {W E S A} (P : E -> Prop) (p : Prog W E S A) (Q : A -> S -> Prop) (R : E -> S -> Prop) s :
  wp p Q (fun _ _ => True) s -> throws P p -> (forall e s', P e -> R e s') -> wp p Q R s.
Proof.
  intros Hw Ht HR w. specialize (Hw w). specialize (Ht s w). destruct (p s w) as [[[?|?] ?] ?]; auto.
Qed.

(** ** The guarded helpers raise resource errors *)

Section guarded.
Context {W : Type} `{WorkGuard W} `{Allocator W} {S : Type} (P : ProviderError -> Prop).
Hypothesis Hresource : forall e, resource_error e -> P e.
Abbreviation T p := (throws (W := W) (S := S) P p).

Lemma throws_wp {A} (p : Prog W ProviderError S A) :
  (forall s, wp p (fun _ _ => True) (fun e _ => resource_error e) s) -> T p.
Proof. intros Hp s w. specialize (Hp s w). destruct (p s w) as [[[?|?] ?] ?]; auto. Qed.

Lemma throws_consume d : T (consume d).
Proof. apply throws_wp. intros s. by apply wp_consume. Qed.

Lemma throws_scope {A} n k (body : Prog W ProviderError S A) : T body -> T (allocation_scope n k body).
Proof.
  intros Hb s w. unfold allocation_scope.
  destruct (guard_begin_scope _ _ w) as [[[]|a] w']; [|apply Hresource, from_abort_resource].
  specialize (Hb s w'). by destruct (body s w') as [[[?|?] ?] ?].
Qed.

Context (c : AllocationErrorContext) `{!ResourceContext c}.

Lemma throws_reserve_in t cap len n d : T (try_reserve_vec_exact_in t cap len n d c).
Proof. apply throws_wp. intros s. by apply wp_reserve_vec. Qed.

Lemma throws_copy_bytes_in bs d : T (try_copy_bytes_in bs d c).
Proof. apply throws_wp. intros s. by apply wp_copy_bytes. Qed.

Lemma throws_copy_string_in bs d : T (try_copy_string_in bs d c).
Proof. apply throws_wp. intros s. by apply wp_copy_string. Qed.

Lemma throws_reserve_map_in id t len n d : T (try_reserve_hash_map_in id t len n d c).
Proof. apply throws_wp. intros s. by apply wp_reserve_map. Qed.

End guarded.

Create HintDb throw discriminated.
#[export] Hint Resolve throws_ret throws_get throws_put throws_modify : throw.

(** [throws_with tac] walks a program; [tac] proves that an error qualifies. *)
Ltac throws_step tac :=
  match goal with
  | |- forall _, _ => intro
  | |- throws _ (bind _ _) => apply throws_bind
  | |- throws _ (for_each _ _) => apply throws_for_each
  | |- throws _ (fold_each _ _ _) => apply throws_fold_each
  | |- throws _ (with_local _ _) => apply throws_local
  | |- throws _ (throw _) => apply throws_throw; solve [tac]
  | |- throws _ (lift_option _ _) => apply throws_option; solve [tac]
  | |- throws _ (fail_if _ _) => apply throws_fail_if; solve [tac]
  | |- throws _ (consume _) => apply throws_consume; solve [tac]
  | |- throws _ (allocation_scope _ _ _) => apply throws_scope; [solve [tac]|]
  | |- throws _ (try_reserve_vec_exact_in _ _ _ _ _ _) => apply throws_reserve_in; [solve [tac]|apply _]
  | |- throws _ (try_copy_bytes_in _ _ _) => apply throws_copy_bytes_in; [solve [tac]|apply _]
  | |- throws _ (try_copy_string_in _ _ _) => apply throws_copy_string_in; [solve [tac]|apply _]
  | |- throws _ (try_reserve_hash_map_in _ _ _ _ _ _) => apply throws_reserve_map_in; [solve [tac]|apply _]
  | |- throws _ (if ?b then _ else _) => destruct b
  | |- throws _ (match ?x with _ => _ end) => destruct x
  | |- throws _ (let '(_, _) := ?x in _) => destruct x
  | |- throws _ _ => solve [eauto 3 with throw nocore]
  end.
