(* ===== verification/Model.v ===== *)
(** * The typed event model

    Models [qtrace-provider/src/model.rs] and the payload types of
    [qtrb/events.rs]: event kinds and payloads, event identity, register
    snapshots, fragment provenance and completeness ranges.  Rust [String]s are
    their UTF-8 bytes. *)

From stdpp Require Import prelude list strings sorting.
From Stdlib Require Import ZArith Lia Strings.Byte Sorted.
From S2P Require Import Prelude.
Local Open Scope string_scope.
Local Open Scope list_scope.
Local Open Scope Z_scope.

(** ** Closed token sets

    Every closed enum of the model has the same wire vocabulary: a constant
    list [ALL], a name per value, and a parser that searches the list. *)

Class WireToken (T : Type) := {
  token_all : list T;
  wire_name : T -> string
}.

Definition from_wire_name `{WireToken T} (name : string) : option T :=
  List.find (fun v => bool_decide (wire_name v = name)) token_all.

(** The law a token set needs: every value is listed, no two share a name. *)
Class WireTokenLaws (T : Type) `{WireToken T} : Prop := {
  token_complete (v : T) : v ∈ token_all;
  token_injective (v v' : T) : wire_name v = wire_name v' -> v = v'
}.

Ltac solve_tokens :=
  constructor;
  [intros []; cbn; repeat first [left; reflexivity | right] | intros [] []; cbn; congruence].

Inductive Provenance := Captured | Derived | Heuristic | ProvUnknown | Damaged.
#[global] Instance Provenance_eq_dec : EqDecision Provenance.
Proof. solve_decision. Defined.

#[global] Instance Provenance_token : WireToken Provenance := {|
  token_all := [Captured; Derived; Heuristic; ProvUnknown; Damaged];
  wire_name v := match v with
    | Captured => "captured" | Derived => "derived" | Heuristic => "heuristic"
    | ProvUnknown => "unknown" | Damaged => "damaged"
    end
|}.

Record ProviderCapabilities := mkCapabilities {
  global_ordering : bool;
  per_thread_ordering : bool;
  full_register_checkpoint : bool;
  register_read_write_observation : bool;
  memory_metadata : bool;
  memory_before_after : bool;
  lifecycle : bool;
  signal_and_termination : bool;
  loss_and_damage_ranges : bool
}.

Definition qtrb_register_observations : ProviderCapabilities :=
  mkCapabilities false true false true true true true true true.

Inductive EventKind :=
| KBegin | KModuleDefinition | KInstructionDefinition | KInstruction | KMemory
| KSemanticCall | KSemanticRule | KSemanticError | KThreadLifecycle | KSyscall | KSignal
| KSignalHandlerBoundary | KTermination | KRegisterCheckpoint | KRegisterDelta
| KStringDefinition | KCoverageGap | KDiscontinuity | KOpaqueOptional.
#[global] Instance EventKind_eq_dec : EqDecision EventKind.
Proof. solve_decision. Defined.

#[global] Instance EventKind_token : WireToken EventKind := {|
  token_all :=
    [KBegin; KModuleDefinition; KInstructionDefinition; KInstruction; KMemory;
     KSemanticCall; KSemanticRule; KSemanticError; KThreadLifecycle; KSyscall; KSignal;
     KSignalHandlerBoundary; KTermination; KRegisterCheckpoint; KRegisterDelta;
     KStringDefinition; KCoverageGap; KDiscontinuity; KOpaqueOptional];
  wire_name k := match k with
    | KBegin => "begin"
    | KModuleDefinition => "module_definition"
    | KInstructionDefinition => "instruction_definition"
    | KInstruction => "instruction"
    | KMemory => "memory"
    | KSemanticCall => "semantic_call"
    | KSemanticRule => "semantic_rule"
    | KSemanticError => "semantic_error"
    | KThreadLifecycle => "thread_lifecycle"
    | KSyscall => "syscall"
    | KSignal => "signal"
    | KSignalHandlerBoundary => "signal_handler_boundary"
    | KTermination => "termination"
    | KRegisterCheckpoint => "register_checkpoint"
    | KRegisterDelta => "register_delta"
    | KStringDefinition => "string_definition"
    | KCoverageGap => "coverage_gap"
    | KDiscontinuity => "discontinuity"
    | KOpaqueOptional => "opaque_optional"
    end
|}.

(** ** Payload types of qtrb/events.rs *)

Inductive TraceProfile := Fast | Balanced | Full.

Record BeginMetadata := mkBegin {
  bm_module_base : Z;
  bm_target_offset : Z;
  bm_target_address : Z;
  bm_pid : Z;
  bm_tid : option Z;
  bm_profile : TraceProfile;
  bm_compression_enabled : bool;
  bm_effective_buffer_bytes : Z;
  bm_run_id : Z;
  bm_scene : bytes;
  bm_target : bytes;
  bm_pointer_width : Z;
  bm_chunk_index : option Z;
  bm_chunk_generation : option Z
}.

Inductive PcRelativeKind := PcNone | PcInstruction | PcPage.

Record RegisterDefinition := mkRegisterDefinition {
  rd_slot : Z;
  rd_captured_width : Z;
  rd_name : bytes
}.

Record RegisterObservation := mkRegisterObservation {
  ro_slot : Z;
  ro_captured_width : Z;
  ro_name : bytes;
  ro_value : Z
}.

Inductive RegisterExtend := ExtNone | Uxtw | Sxtw | Lsl | Sxtx.
Inductive MemoryAddressMode := Offset | PreIndex | PostIndex.
Inductive MemoryDirection := Read | Write | ReadWrite | DirUnknown.

Record MemoryOperand := mkMemoryOperand {
  mo_base : option Z;
  mo_index : option Z;
  mo_extend : RegisterExtend;
  mo_mode : MemoryAddressMode;
  mo_shift : Z;
  mo_direction : MemoryDirection;
  mo_writeback : bool;
  mo_size : Z;
  mo_displacement : Z
}.

Record InstructionDefinition := mkInstructionDefinition {
  id_definition_id : Z;
  id_opcode : Z;
  id_read_mask : Z;
  id_write_mask : Z;
  id_pc_displacement : Z;
  id_flags : Z;
  id_pc_kind : PcRelativeKind;
  id_condition : Z;
  id_slow_memory_path : bool;
  id_mnemonic : bytes;
  id_operands : bytes;
  id_disassembly : bytes;
  id_reads : list RegisterDefinition;
  id_writes : list RegisterDefinition;
  id_memory_operands : list MemoryOperand
}.

Record Instruction := mkInstruction {
  in_definition_id : Z;
  in_module_id : Z;
  in_relative_pc : Z;
  in_read_before : list RegisterObservation;
  in_write_after : list RegisterObservation
}.

Inductive CaptureBytes :=
| NotCaptured
| Unavailable
| CapturedBytes (bs : bytes).

Record Memory := mkMemory {
  me_module_id : Z;
  me_relative_pc : Z;
  me_address : Z;
  me_size : Z;
  me_direction : MemoryDirection;
  me_metadata_available : bool;
  me_flags : Z;
  me_value : Z;
  me_before : CaptureBytes;
  me_after : CaptureBytes
}.

Record TerminalMetrics := mkTerminalMetrics {
  tm_instructions : Z;
  tm_encoded_bytes : Z;
  tm_compressed_bytes : Z;
  tm_cache_hits : Z;
  tm_cache_misses : Z;
  tm_cache_collisions : Z;
  tm_buffer_swaps : Z;
  tm_producer_waits : Z;
  tm_producer_wait_ns : Z;
  tm_effective_buffer_bytes : Z
}.

Inductive TerminationKind := Completed | Stopped | Intent | TermUnknown.

Record TerminationIntent := mkTerminationIntent {
  ti_pc : Z;
  ti_syscall_number : Z;
  ti_arguments : list Z
}.

Record Termination := mkTermination {
  te_kind : TerminationKind;
  te_reason : option bytes;
  te_return_value : option Z;
  te_elapsed_ms : Z;
  te_metrics : TerminalMetrics;
  te_intent : option TerminationIntent
}.

(** ** Payload types of model.rs *)

Record ModuleDefinition := mkModuleDefinition {
  md_module_id : Z;
  md_base : Z;
  md_name : bytes
}.

Record SemanticEvent := mkSemanticEvent {
  se_category : option bytes;
  se_name : bytes;
  se_detail : bytes;
  se_fragment_sequences : list Z
}.

Inductive ThreadLifecyclePhase := ThreadBegin | ThreadEnd.

Record ThreadLifecycle := mkThreadLifecycle {
  tl_tid : Z;
  tl_phase : ThreadLifecyclePhase;
  tl_creator_tid : option Z;
  tl_start_routine : option Z;
  tl_module_generation : option Z
}.

Record Syscall := mkSyscall {
  sy_tid : Z;
  sy_number : Z;
  sy_pc : Z;
  sy_arguments : list Z;
  sy_result : option Z
}.

Inductive SignalPcSource := PcUnknown | QbdiLogical | KernelUcontext | GuestHandlerContext.

Record Signal := mkSignal {
  sg_tid : Z;
  sg_number : Z;
  sg_code : Z;
  sg_pc : Z;
  sg_sp : Z;
  sg_fault_address : Z;
  sg_flags : Z;
  sg_pc_source : SignalPcSource
}.

Inductive SignalHandlerPhase := HandlerBegin | HandlerReturn.

Record SignalHandlerBoundary := mkSignalHandlerBoundary {
  sh_tid : Z;
  sh_phase : SignalHandlerPhase;
  sh_number : Z;
  sh_code : Z;
  sh_pc : Z;
  sh_sp : Z;
  sh_fault_address : Z;
  sh_flags : Z;
  sh_pc_source : SignalPcSource;
  sh_depth : Z;
  sh_nested_delivery_count : Z;
  sh_begin_sequence : option Z
}.

Inductive RegisterSlot : Set :=
| X0 : RegisterSlot | X1 | X2 | X3 | X4 | X5 | X6 | X7
| X8 : RegisterSlot | X9 | X10 | X11 | X12 | X13 | X14 | X15
| X16 : RegisterSlot | X17 | X18 | X19 | X20 | X21 | X22 | X23
| X24 : RegisterSlot | X25 | X26 | X27 | X28 | X29 | X30
| Sp | Pc | Nzcv.
#[global] Instance RegisterSlot_eq_dec : EqDecision RegisterSlot.
Proof. solve_decision. Defined.

Definition REGISTER_SLOT_COUNT : Z := 34.

Definition slot_index (r : RegisterSlot) : Z :=
  match r with
  | X0 => 0 | X1 => 1 | X2 => 2 | X3 => 3 | X4 => 4 | X5 => 5 | X6 => 6 | X7 => 7 | X8 => 8
  | X9 => 9 | X10 => 10 | X11 => 11 | X12 => 12 | X13 => 13 | X14 => 14 | X15 => 15 | X16 => 16
  | X17 => 17 | X18 => 18 | X19 => 19 | X20 => 20 | X21 => 21 | X22 => 22 | X23 => 23 | X24 => 24
  | X25 => 25 | X26 => 26 | X27 => 27 | X28 => 28 | X29 => 29 | X30 => 30 | Sp => 31 | Pc => 32
  | Nzcv => 33
  end.

Definition slot_from_index (i : Z) : option RegisterSlot :=
  match i with
  | 0 => Some X0 | 1 => Some X1 | 2 => Some X2 | 3 => Some X3 | 4 => Some X4 | 5 => Some X5
  | 6 => Some X6 | 7 => Some X7 | 8 => Some X8 | 9 => Some X9 | 10 => Some X10 | 11 => Some X11
  | 12 => Some X12 | 13 => Some X13 | 14 => Some X14 | 15 => Some X15 | 16 => Some X16
  | 17 => Some X17 | 18 => Some X18 | 19 => Some X19 | 20 => Some X20 | 21 => Some X21
  | 22 => Some X22 | 23 => Some X23 | 24 => Some X24 | 25 => Some X25 | 26 => Some X26
  | 27 => Some X27 | 28 => Some X28 | 29 => Some X29 | 30 => Some X30 | 31 => Some Sp
  | 32 => Some Pc | 33 => Some Nzcv
  | _ => None
  end.

Record RegisterValue := mkRegisterValue { rv_slot : RegisterSlot; rv_value : Z }.

(** [RegisterSnapshot]: a private vector that [new] admits at 34 values only. *)
Record RegisterSnapshot := mkSnapshot { rs_values : list Z }.

Definition snapshot_new (values : list Z) : option RegisterSnapshot :=
  if zlen values =? REGISTER_SLOT_COUNT then Some (mkSnapshot values) else None.

Definition snapshot_value (s : RegisterSnapshot) (r : RegisterSlot) : option Z :=
  rs_values s !! Z.to_nat (slot_index r).

(** [get_mut(index)] then [*value = item.value]: out of range does nothing. *)
Definition snapshot_apply (s : RegisterSnapshot) (changed : list RegisterValue) :
    RegisterSnapshot :=
  mkSnapshot (foldl (fun vs item => <[Z.to_nat (slot_index (rv_slot item)) := rv_value item]> vs)
                (rs_values s) changed).

Record RegisterCheckpoint := mkCheckpoint { rc_values : list RegisterValue }.

Definition checkpoint_value (c : RegisterCheckpoint) (r : RegisterSlot) : option Z :=
  rv_value <$> List.find (fun item => bool_decide (rv_slot item = r)) (rc_values c).

Record RegisterDelta := mkRegisterDelta {
  de_mask : Z;
  de_changed : list RegisterValue;
  de_ancestry_reliable : bool
}.

Record StringDefinition := mkStringDefinition { sd_id : Z; sd_bytes : bytes }.

Record CoverageGap := mkCoverageGap {
  cg_tid : Z;
  cg_pc : Z;
  cg_sp : Z;
  cg_fault_address : Z;
  cg_reason_flags : Z;
  cg_dropped_count : Z
}.

Inductive DiscontinuityCause := Loss | Damage | Overwrite | DiscTruncation | DiscUnknown.
#[global] Instance DiscontinuityCause_token : WireToken DiscontinuityCause := {|
  token_all := [Loss; Damage; Overwrite; DiscTruncation; DiscUnknown];
  wire_name v := match v with
    | Loss => "loss" | Damage => "damage" | Overwrite => "overwrite"
    | DiscTruncation => "truncation" | DiscUnknown => "unknown"
    end
|}.

Record OpaqueOptionalRecord := mkOpaque {
  oo_record_type : Z;
  oo_flags : Z;
  oo_bytes : bytes
}.

(** ** Completeness ranges *)

Inductive RangeDomain := CapturedSequence | SourceBytes | MemoryAddresses.
#[global] Instance RangeDomain_eq_dec : EqDecision RangeDomain.
Proof. solve_decision. Defined.
#[global] Instance RangeDomain_token : WireToken RangeDomain := {|
  token_all := [CapturedSequence; SourceBytes; MemoryAddresses];
  wire_name v := match v with
    | CapturedSequence => "captured_sequence" | SourceBytes => "source_bytes"
    | MemoryAddresses => "memory_addresses"
    end
|}.

Inductive RangeBounds :=
| InclusiveSequence (first last : Z)
| HalfOpen (start end_exclusive : Z).
#[global] Instance RangeBounds_eq_dec : EqDecision RangeBounds.
Proof. solve_decision. Defined.

Definition bounds_from_wire_parts (name : string) (endpoints : Z * Z) : option RangeBounds :=
  if bool_decide (name = "inclusive_sequence") then Some (InclusiveSequence endpoints.1 endpoints.2)
  else if bool_decide (name = "half_open") then Some (HalfOpen endpoints.1 endpoints.2)
  else None.

Inductive CompletenessCause :=
| Retained | MissingTerminal | Active | Stale | Rotating | Unreliable | Incomplete | Lost
| Overwritten | CauseCoverageGap | Checksum | UnterminatedThread | Truncation | CauseUnknown.
#[global] Instance CompletenessCause_eq_dec : EqDecision CompletenessCause.
Proof. solve_decision. Defined.
#[global] Instance CompletenessCause_token : WireToken CompletenessCause := {|
  token_all :=
    [Retained; MissingTerminal; Active; Stale; Rotating; Unreliable; Incomplete; Lost;
     Overwritten; CauseCoverageGap; Checksum; UnterminatedThread; Truncation; CauseUnknown];
  wire_name v := match v with
    | Retained => "retained" | MissingTerminal => "missing_terminal" | Active => "active"
    | Stale => "stale" | Rotating => "rotating" | Unreliable => "unreliable"
    | Incomplete => "incomplete" | Lost => "lost" | Overwritten => "overwritten"
    | CauseCoverageGap => "coverage_gap" | Checksum => "checksum"
    | UnterminatedThread => "unterminated_thread" | Truncation => "truncation"
    | CauseUnknown => "unknown"
    end
|}.

Record CompletenessRange := mkRange {
  cr_domain : RangeDomain;
  cr_bounds : RangeBounds;
  cr_provenance : Provenance;
  cr_cause : CompletenessCause
}.
#[global] Instance CompletenessRange_eq_dec : EqDecision CompletenessRange.
Proof. solve_decision. Defined.

Definition captured_sequence_with_cause (first last : Z) (p : Provenance) (c : CompletenessCause) :
    option CompletenessRange :=
  if first >? last then None
  else Some (mkRange CapturedSequence (InclusiveSequence first last) p c).

Definition half_open (d : RangeDomain) (start end_exclusive : Z) (p : Provenance)
    (c : CompletenessCause) : option CompletenessRange :=
  if start >? end_exclusive then None
  else Some (mkRange d (HalfOpen start end_exclusive) p c).

Definition source_bytes_with_cause (start end_exclusive : Z) (p : Provenance)
    (c : CompletenessCause) : option CompletenessRange :=
  half_open SourceBytes start end_exclusive p c.

Definition memory_addresses_with_cause (start end_exclusive : Z) (p : Provenance)
    (c : CompletenessCause) : option CompletenessRange :=
  half_open MemoryAddresses start end_exclusive p c.

Definition range_contains (r : CompletenessRange) (coordinate : Z) : bool :=
  match cr_bounds r with
  | InclusiveSequence first last => (first <=? coordinate) && (coordinate <=? last)
  | HalfOpen start end_exclusive => (start <=? coordinate) && (coordinate <? end_exclusive)
  end.

Definition completeness_cause_order (c : CompletenessCause) : Z :=
  match c with
  | Retained => 0 | Active => 1 | Rotating => 2 | Stale => 3 | Unreliable => 4 | Incomplete => 5
  | Lost => 6 | Overwritten => 7 | CauseCoverageGap => 8 | Checksum => 9
  | UnterminatedThread => 10 | MissingTerminal => 11 | Truncation => 12 | CauseUnknown => 13
  end.

Definition provenance_canonical_order (p : Provenance) : Z :=
  match p with
  | Captured => 0 | Derived => 1 | Heuristic => 2 | ProvUnknown => 3 | Damaged => 4
  end.

(** The five components of the Rust tuple, compared lexicographically. *)
Definition completeness_canonical_key (r : CompletenessRange) : list Z :=
  [ match cr_domain r with CapturedSequence => 0 | SourceBytes => 1 | MemoryAddresses => 2 end;
    completeness_cause_order (cr_cause r);
    match cr_bounds r with InclusiveSequence a _ => a | HalfOpen a _ => a end;
    match cr_bounds r with InclusiveSequence _ b => b | HalfOpen _ b => b end;
    provenance_canonical_order (cr_provenance r) ].

(** [Ord] on tuples and slices of integers. *)
Fixpoint lex_leb (a b : list Z) : bool :=
  match a, b with
  | [], _ => true
  | _ :: _, [] => false
  | x :: a, y :: b => (x <? y) || ((x =? y) && lex_leb a b)
  end.

Definition merge_canonical_completeness (left right : CompletenessRange) :
    option CompletenessRange :=
  if negb (bool_decide (cr_domain left = cr_domain right))
     || negb (bool_decide (cr_cause left = cr_cause right))
     || negb (bool_decide (cr_provenance left = cr_provenance right))
  then None
  else
    match cr_bounds left, cr_bounds right with
    | InclusiveSequence left_first left_last, InclusiveSequence right_first right_last =>
        if right_first <=? saturating_add u64_max left_last 1
        then captured_sequence_with_cause left_first (Z.max left_last right_last)
               (cr_provenance left) (cr_cause left)
        else None
    | HalfOpen left_start left_end, HalfOpen right_start right_end =>
        if right_start <=? left_end
        then match cr_domain left with
             | SourceBytes => source_bytes_with_cause left_start (Z.max left_end right_end)
                                (cr_provenance left) (cr_cause left)
             | MemoryAddresses => memory_addresses_with_cause left_start (Z.max left_end right_end)
                                    (cr_provenance left) (cr_cause left)
             | CapturedSequence => None
             end
        else None
    | _, _ => None
    end.

(** [Deserialize for CompletenessRange], after the fields are decoded. *)
Definition range_deserialize (domain : RangeDomain) (bounds : RangeBounds) (p : Provenance)
    (c : CompletenessCause) : option CompletenessRange :=
  match domain, bounds with
  | CapturedSequence, InclusiveSequence first last => captured_sequence_with_cause first last p c
  | SourceBytes, HalfOpen start end_exclusive => source_bytes_with_cause start end_exclusive p c
  | MemoryAddresses, HalfOpen start end_exclusive =>
      memory_addresses_with_cause start end_exclusive p c
  | _, _ => None
  end.

Record Discontinuity := mkDiscontinuity {
  di_cause : DiscontinuityCause;
  di_evidence : CompletenessRange
}.

(** ** Events *)

Inductive EventPayload :=
| Begin (b : BeginMetadata)
| PModuleDefinition (m : ModuleDefinition)
| PInstructionDefinition (d : InstructionDefinition)
| PInstruction (i : Instruction)
| PMemory (m : Memory)
| SemanticCall (s : SemanticEvent)
| SemanticRule (s : SemanticEvent)
| SemanticError (s : SemanticEvent)
| PThreadLifecycle (t : ThreadLifecycle)
| PSyscall (s : Syscall)
| PSignal (s : Signal)
| PSignalHandlerBoundary (b : SignalHandlerBoundary)
| PTermination (t : Termination)
| PRegisterCheckpoint (c : RegisterCheckpoint)
| PRegisterDelta (d : RegisterDelta)
| PStringDefinition (s : StringDefinition)
| PCoverageGap (g : CoverageGap)
| PDiscontinuity (d : Discontinuity)
| OpaqueOptional (o : OpaqueOptionalRecord).

Definition payload_kind (p : EventPayload) : EventKind :=
  match p with
  | Begin _ => KBegin
  | PModuleDefinition _ => KModuleDefinition
  | PInstructionDefinition _ => KInstructionDefinition
  | PInstruction _ => KInstruction
  | PMemory _ => KMemory
  | SemanticCall _ => KSemanticCall
  | SemanticRule _ => KSemanticRule
  | SemanticError _ => KSemanticError
  | PThreadLifecycle _ => KThreadLifecycle
  | PSyscall _ => KSyscall
  | PSignal _ => KSignal
  | PSignalHandlerBoundary _ => KSignalHandlerBoundary
  | PTermination _ => KTermination
  | PRegisterCheckpoint _ => KRegisterCheckpoint
  | PRegisterDelta _ => KRegisterDelta
  | PStringDefinition _ => KStringDefinition
  | PCoverageGap _ => KCoverageGap
  | PDiscontinuity _ => KDiscontinuity
  | OpaqueOptional _ => KOpaqueOptional
  end.

Definition MAX_FRAGMENT_SOURCE_OFFSETS : Z := u16_max.

(** [offsets.windows(2).any(|pair| pair[0] >= pair[1])] *)
Fixpoint windows_not_increasing (l : list Z) : bool :=
  match l with
  | a :: ((b :: _) as l') => (b <=? a) || windows_not_increasing l'
  | _ => false
  end.

Definition fragment_offsets_new (offsets : list Z) : option (list Z) :=
  if (zlen offsets >? MAX_FRAGMENT_SOURCE_OFFSETS) || windows_not_increasing offsets
  then None else Some offsets.

(** The bounded [visit_seq] of [Deserialize for FragmentSourceOffsets]. *)
Fixpoint fragment_offsets_visit (sequence offsets : list Z) : option (list Z) :=
  match sequence with
  | [] => Some offsets
  | offset :: sequence =>
      if zlen offsets =? MAX_FRAGMENT_SOURCE_OFFSETS then None
      else if from_option (fun previous => offset <=? previous) false (last offsets) then None
      else fragment_offsets_visit sequence (offsets ++ [offset])
  end.

Definition fragment_offsets_deserialize (sequence : list Z) : option (list Z) :=
  fragment_offsets_visit sequence [].

Definition TimelineId := Z.
Definition ArtifactDigest := bytes.

Record EventKey := mkEventKey {
  ek_artifact : ArtifactDigest;
  ek_timeline : TimelineId;
  ek_record_ordinal : Z;
  ek_source_offset : Z;
  ek_sequence : option Z;
  ek_tid : option Z
}.

Inductive EventScope :=
| ArtifactScope
| FlightChunkScope (chunk_index generation tid : Z).

Record EventRecord := mkEventRecord {
  ev_key : EventKey;
  ev_provenance : Provenance;
  ev_payload : EventPayload;
  ev_scope : EventScope;
  ev_fragment_source_offsets : list Z
}.

Definition event_record_new (key : EventKey) (p : Provenance) (payload : EventPayload) :
    EventRecord :=
  mkEventRecord key p payload ArtifactScope [].

(** [.first().is_some_and(|first| *first != key.source_offset)] *)
Definition first_offset_mismatch (offsets : list Z) (key : EventKey) : bool :=
  match offsets with
  | first :: _ => negb (first =? ek_source_offset key)
  | [] => false
  end.

Definition with_fragment_source_offsets (key : EventKey) (p : Provenance) (payload : EventPayload)
    (offsets : list Z) : option EventRecord :=
  match fragment_offsets_new offsets with
  | None => None
  | Some offsets =>
      if first_offset_mismatch offsets key then None
      else Some (mkEventRecord key p payload ArtifactScope offsets)
  end.

Record SourceIdentity := mkSourceIdentity {
  si_artifact : ArtifactDigest;
  si_format : bytes;
  si_format_major : Z;
  si_format_minor : Z;
  si_source_bytes : Z
}.

Record TimelineDescriptor := mkTimelineDescriptor {
  td_id : TimelineId;
  td_tid : option Z;
  td_label : option bytes
}.

Record ProviderCounters := mkCounters {
  pc_records_seen : Z;
  pc_events_emitted : Z;
  pc_opaque_records : Z;
  pc_damaged_records : Z;
  pc_input_bytes : Z;
  pc_decompressed_bytes : Z
}.

Record ProviderSummary := mkSummary {
  ps_timelines : list TimelineDescriptor;
  ps_termination : option Termination;
  ps_counters : ProviderCounters;
  ps_completeness : list CompletenessRange
}.

(** ** Tokens *)

#[export] Instance Provenance_laws : WireTokenLaws Provenance.
Proof. solve_tokens. Qed.
#[export] Instance EventKind_laws : WireTokenLaws EventKind.
Proof. solve_tokens. Qed.
#[export] Instance DiscontinuityCause_laws : WireTokenLaws DiscontinuityCause.
Proof. solve_tokens. Qed.
#[export] Instance RangeDomain_laws : WireTokenLaws RangeDomain.
Proof. solve_tokens. Qed.
#[export] Instance CompletenessCause_laws : WireTokenLaws CompletenessCause.
Proof. solve_tokens. Qed.

Lemma from_wire_name_iff `{WireTokenLaws T} (name : string) (v : T) :
  from_wire_name name = Some v <-> wire_name v = name.
Proof.
  unfold from_wire_name. split.
  - intros Hf. apply List.find_some in Hf as [_ Hf]. by apply bool_decide_eq_true in Hf.
  - intros <-. destruct (List.find _ _) as [v'|] eqn:Hf.
    + apply List.find_some in Hf as [_ Hf]. apply bool_decide_eq_true in Hf.
      by apply token_injective in Hf as ->.
    + eapply List.find_none in Hf; [|apply list_elem_of_In, (token_complete v)].
      by apply bool_decide_eq_false in Hf.
Qed.

(** ** Register snapshots *)

Lemma slot_index_range r : 0 <= slot_index r < REGISTER_SLOT_COUNT.
Proof. unfold REGISTER_SLOT_COUNT. destruct r; cbn; lia. Qed.

Lemma slot_from_index_iff i r : slot_from_index i = Some r <-> i = slot_index r.
Proof.
  split; [|intros ->; by destruct r].
  intros Hi. destruct i as [|p|p]; cbn in Hi; try naive_solver.
  do 6 (try (destruct p as [p|p|]; cbn in Hi; try naive_solver)).
Qed.

Lemma slot_index_inj r r' : slot_index r = slot_index r' -> r = r'.
Proof.
  intros H. assert (slot_from_index (slot_index r) = Some r') as H'
    by (by apply slot_from_index_iff).
  assert (slot_from_index (slot_index r) = Some r) as H'' by (by apply slot_from_index_iff).
  congruence.
Qed.

(** The value a change list leaves in a slot: the last entry for it. *)
Definition last_write (changed : list RegisterValue) (r : RegisterSlot) : option Z :=
  rv_value <$> last (filter (fun item => rv_slot item = r) changed).

Lemma length_snapshot_apply s changed :
  length (rs_values (snapshot_apply s changed)) = length (rs_values s).
Proof.
  destruct s as [vs]. cbn. revert vs. induction changed as [|x l IH]; intros; cbn; [done|].
  by rewrite IH, length_insert.
Qed.

Lemma last_write_snoc changed x r :
  last_write (changed ++ [x]) r
  = if bool_decide (rv_slot x = r) then Some (rv_value x) else last_write changed r.
Proof.
  unfold last_write. rewrite filter_app, filter_cons, filter_nil.
  case_bool_decide; case_decide; try done.
  - by rewrite last_snoc.
  - by rewrite app_nil_r.
Qed.

Lemma snapshot_value_apply s changed r :
  zlen (rs_values s) = REGISTER_SLOT_COUNT ->
  snapshot_value (snapshot_apply s changed) r
  = match last_write changed r with Some v => Some v | None => snapshot_value s r end.
Proof.
  intros Hlen. induction changed as [|x changed IH] using rev_ind; [done|].
  rewrite last_write_snoc. unfold snapshot_value in *. cbn in *. rewrite foldl_snoc.
  case_bool_decide as Hx.
  - subst r. apply list_lookup_insert_eq.
    pose proof (length_snapshot_apply s changed) as Hl. cbn in Hl. rewrite Hl.
    pose proof (slot_index_range (rv_slot x)). unfold zlen in Hlen. lia.
  - rewrite list_lookup_insert_ne; [done|]. intros Heq. apply Hx, slot_index_inj.
    pose proof (slot_index_range r). pose proof (slot_index_range (rv_slot x)). lia.
Qed.

(** ** Fragment offsets *)

Lemma windows_increasing l : windows_not_increasing l = false <-> Sorted Z.lt l.
Proof.
  induction l as [|a l IH]; [by split|]. destruct l as [|b l]; cbn [windows_not_increasing].
  - split; [|done]. intros _. by repeat constructor.
  - rewrite orb_false_iff, Z.leb_gt. split.
    + intros [Hab Hl]. constructor; [by apply IH|by constructor].
    + intros Hs. apply Sorted_inv in Hs as [Hs Hab]. inversion Hab; subst.
      split; [done|by apply IH].
Qed.

Lemma fragment_offsets_new_iff l l' :
  fragment_offsets_new l = Some l'
  <-> l' = l /\ zlen l <= MAX_FRAGMENT_SOURCE_OFFSETS /\ Sorted Z.lt l.
Proof.
  unfold fragment_offsets_new. rewrite <- windows_increasing.
  destruct (Z.gtb_spec (zlen l) MAX_FRAGMENT_SOURCE_OFFSETS);
    destruct (windows_not_increasing l); cbn; split; naive_solver lia.
Qed.

Lemma Sorted_snoc_inv (l : list Z) x :
  Sorted Z.lt (l ++ [x])
  <-> Sorted Z.lt l /\ from_option (fun p => p < x) True (last l).
Proof.
  induction l as [|a l IH]; cbn.
  - split; [done|]. intros _. by repeat constructor.
  - destruct l as [|b l].
    + cbn. split.
      * intros Hs. apply Sorted_inv in Hs as [_ Hh]. inversion Hh; subst.
        split; [by repeat constructor|done].
      * intros [_ Hx]. by repeat constructor.
    + change (last (a :: b :: l)) with (last (b :: l)). split.
      * intros Hs. apply Sorted_inv in Hs as [Hs Hh]. apply IH in Hs as [Hs Hx].
        split; [|done]. constructor; [done|]. inversion Hh; subst. by constructor.
      * intros [Hs Hx]. apply Sorted_inv in Hs as [Hs Hh]. constructor; [by apply IH|].
        inversion Hh; subst. by constructor.
Qed.

Lemma windows_prefix (a b : list Z) :
  windows_not_increasing a = true -> windows_not_increasing (a ++ b) = true.
Proof.
  induction a as [|x a IH]; [done|]. destruct a as [|y a]; [done|].
  cbn [windows_not_increasing app]. intros H. apply orb_true_iff in H as [->|H]; [done|].
  apply orb_true_iff. right. by apply IH.
Qed.

Lemma fragment_offsets_visit_spec sequence offsets :
  zlen offsets <= MAX_FRAGMENT_SOURCE_OFFSETS -> Sorted Z.lt offsets ->
  fragment_offsets_visit sequence offsets = fragment_offsets_new (offsets ++ sequence).
Proof.
  revert offsets. induction sequence as [|x sequence IH]; intros offsets Hlen Hs.
  - rewrite app_nil_r. symmetry. by apply fragment_offsets_new_iff.
  - cbn [fragment_offsets_visit].
    replace (offsets ++ x :: sequence) with ((offsets ++ [x]) ++ sequence)
      by (by rewrite <- app_assoc).
    destruct (Z.eqb_spec (zlen offsets) MAX_FRAGMENT_SOURCE_OFFSETS) as [Hfull|Hroom].
    { unfold fragment_offsets_new. destruct (Z.gtb_spec (zlen ((offsets ++ [x]) ++ sequence))
        MAX_FRAGMENT_SOURCE_OFFSETS) as [|Hle]; [done|].
      revert Hle. unfold zlen in *. rewrite !length_app. cbn. lia. }
    destruct (windows_not_increasing (offsets ++ [x])) eqn:Hw.
    + assert (from_option (fun previous => x <=? previous) false (last offsets) = true) as ->.
      { destruct (last offsets) as [p|] eqn:Hl; cbn.
        - destruct (Z.leb_spec x p); [done|]. exfalso.
          assert (Sorted Z.lt (offsets ++ [x])) as Hs'
            by (apply Sorted_snoc_inv; rewrite Hl; by split).
          apply windows_increasing in Hs'. congruence.
        - apply last_None in Hl as ->. done. }
      unfold fragment_offsets_new. rewrite (windows_prefix _ _ Hw), orb_true_r. done.
    + apply windows_increasing in Hw. pose proof Hw as Hw'. apply Sorted_snoc_inv in Hw' as [_ Hx].
      assert (from_option (fun previous => x <=? previous) false (last offsets) = false) as ->.
      { destruct (last offsets); cbn in *; [|done]. lia. }
      apply IH; [|done]. unfold zlen in *. rewrite length_app. cbn. lia.
Qed.

(** ** Completeness ranges *)

(** What a constructor guarantees: the domain fixes the shape of the bounds
    and the bounds are ordered. *)
Definition range_wf (r : CompletenessRange) : Prop :=
  match cr_domain r, cr_bounds r with
  | CapturedSequence, InclusiveSequence a b => in_u64 a /\ in_u64 b /\ a <= b
  | (SourceBytes | MemoryAddresses), HalfOpen a b => in_u64 a /\ in_u64 b /\ a <= b
  | _, _ => False
  end.

Definition bounds_u64 (b : RangeBounds) : Prop :=
  match b with InclusiveSequence x y | HalfOpen x y => in_u64 x /\ in_u64 y end.

Lemma range_deserialize_wf d b p c r :
  bounds_u64 b -> range_deserialize d b p c = Some r ->
  range_wf r /\ cr_domain r = d /\ cr_bounds r = b /\ cr_provenance r = p /\ cr_cause r = c.
Proof.
  intros Hu Hr. unfold range_deserialize, captured_sequence_with_cause,
    source_bytes_with_cause, memory_addresses_with_cause, half_open in Hr.
  destruct d, b as [x y|x y]; try done; destruct (Z.gtb_spec x y); try done;
    injection Hr as <-; unfold range_wf; cbn; destruct Hu; split_and!; auto; lia.
Qed.

Lemma merge_wf l r m :
  range_wf l -> range_wf r -> merge_canonical_completeness l r = Some m -> range_wf m.
Proof.
  unfold merge_canonical_completeness, captured_sequence_with_cause,
    source_bytes_with_cause, memory_addresses_with_cause, half_open.
  intros Hl Hr Hm. destruct (_ || _); [done|].
  destruct l as [dl [a b|a b] pl cl], r as [dr [x y|x y] pr cr]; cbn in *; try done;
    destruct (_ <=? _); try done; destruct dl; try done; destruct dr; try done;
    destruct (Z.gtb_spec a (Z.max b y)); try done; injection Hm as <-; cbn in *;
    unfold range_wf; cbn; machine; lia.
Qed.

Lemma merge_contains l r m x :
  range_wf l -> range_wf r ->
  lex_leb (completeness_canonical_key l) (completeness_canonical_key r) = true ->
  merge_canonical_completeness l r = Some m ->
  range_contains m x = range_contains l x || range_contains r x.
Proof.
  unfold merge_canonical_completeness, captured_sequence_with_cause,
    source_bytes_with_cause, memory_addresses_with_cause, half_open, range_contains.
  intros Hl Hr Hk Hm. destruct (_ || _) eqn:Hsame; [done|].
  rewrite !orb_false_iff, !negb_false_iff, !bool_decide_eq_true in Hsame.
  destruct Hsame as [[Hd Hc] Hp].
  unfold completeness_canonical_key in Hk. rewrite Hd, Hc, Hp in Hk. cbn [lex_leb] in Hk.
  rewrite !Z.ltb_irrefl, !Z.eqb_refl in Hk. cbn [orb andb] in Hk.
  destruct l as [dl [a b|a b] pl cl], r as [dr [u v|u v] pr cr]; cbn in *; subst; try done;
    destruct (Z.leb_spec u (saturating_add u64_max b 1));
    destruct (Z.leb_spec u b); try done;
    destruct dr; try done;
    destruct (Z.gtb_spec a (Z.max b v)); try done; injection Hm as <-; cbn;
    machine; lia.
Qed.

(** A merge happens exactly when nothing lies strictly between the two ranges. *)
Lemma merge_None_gap l r x :
  range_wf l -> range_wf r ->
  cr_domain l = cr_domain r -> cr_cause l = cr_cause r -> cr_provenance l = cr_provenance r ->
  merge_canonical_completeness l r = None ->
  range_contains l x = true -> range_contains r (x + 1) = false /\ range_contains r x = false.
Proof.
  unfold merge_canonical_completeness, captured_sequence_with_cause,
    source_bytes_with_cause, memory_addresses_with_cause, half_open, range_contains.
  intros Hl Hr Hd Hc Hp Hm. rewrite Hd, Hc, Hp in Hm.
  rewrite !bool_decide_eq_true_2 in Hm by done. cbn in Hm.
  destruct l as [dl [a b|a b] pl cl], r as [dr [u v|u v] pr cr]; cbn in *; subst; try done;
    destruct dr; try done; unfold range_wf in *; cbn in *;
    [destruct (Z.leb_spec u (saturating_add u64_max b 1))|destruct (Z.leb_spec u b)..];
    try (destruct (Z.gtb_spec a (Z.max b v))); try done; machine; lia.
Qed.

(** ** Properties *)

(** Each wire token names exactly one value and each value has one token: the
    parser of every token enumeration of the model accepts a name exactly when
    it is the name of the value it returns. *)
Theorem tokens_roundtrip (name : string) :
  (forall v : Provenance, from_wire_name name = Some v <-> wire_name v = name)
  /\ (forall v : EventKind, from_wire_name name = Some v <-> wire_name v = name)
  /\ (forall v : DiscontinuityCause, from_wire_name name = Some v <-> wire_name v = name)
  /\ (forall v : RangeDomain, from_wire_name name = Some v <-> wire_name v = name)
  /\ (forall v : CompletenessCause, from_wire_name name = Some v <-> wire_name v = name).
Proof. split_and!; intros v; apply from_wire_name_iff. Qed.

(** Applying a list of register changes to a snapshot leaves in every slot the
    last value written to it, and its old value when the list does not mention
    it. *)
Theorem snapshot_apply_last_write (values : list Z) (s : RegisterSnapshot)
    (changed : list RegisterValue) (r : RegisterSlot) (Hnew : snapshot_new values = Some s) :
  snapshot_value (snapshot_apply s changed) r
  = match last_write changed r with Some v => Some v | None => values !! Z.to_nat (slot_index r) end.
Proof.
  unfold snapshot_new in Hnew. destruct (Z.eqb_spec (zlen values) REGISTER_SLOT_COUNT); [|done].
  injection Hnew as <-. by apply snapshot_value_apply.
Qed.

Lemma snapshot_apply_last_write_witness :
  exists s, snapshot_new (replicate 34 7) = Some s
    /\ snapshot_value (snapshot_apply s [mkRegisterValue X3 1; mkRegisterValue X3 2]) X3 = Some 2.
Proof.
  eexists. split; [reflexivity|].
  rewrite (snapshot_apply_last_write (replicate 34 7)); reflexivity.
Defined.

(** Deserializing a sequence of fragment offsets, which checks each element as
    it arrives and stops at the bound, accepts exactly what the constructor
    accepts: at most 65535 strictly increasing offsets. *)
Theorem fragment_offsets_deserialize_exact (sequence : list Z) :
  fragment_offsets_deserialize sequence = fragment_offsets_new sequence
  /\ forall l, fragment_offsets_deserialize sequence = Some l
       <-> l = sequence /\ zlen sequence <= MAX_FRAGMENT_SOURCE_OFFSETS /\ Sorted Z.lt sequence.
Proof.
  assert (fragment_offsets_deserialize sequence = fragment_offsets_new sequence) as Heq.
  { apply (fragment_offsets_visit_spec sequence []); [vm_compute; discriminate|constructor]. }
  split; [done|]. intros l. rewrite Heq. apply fragment_offsets_new_iff.
Qed.

(** Merging two neighbouring completeness ranges in canonical order loses and
    invents nothing: the merge covers exactly the coordinates of the two, is
    itself well formed, and is refused only when they differ in kind or leave a
    gap. *)
Theorem merge_exact (l r : CompletenessRange) (x : Z) (Hl : range_wf l) (Hr : range_wf r)
    (Hkey : lex_leb (completeness_canonical_key l) (completeness_canonical_key r) = true) :
  match merge_canonical_completeness l r with
  | Some m => range_wf m /\ range_contains m x = range_contains l x || range_contains r x
  | None =>
      cr_domain l = cr_domain r -> cr_cause l = cr_cause r -> cr_provenance l = cr_provenance r ->
      range_contains l x = true -> range_contains r (x + 1) = false /\ range_contains r x = false
  end.
Proof.
  destruct (merge_canonical_completeness l r) as [m|] eqn:Hm.
  - split; [exact (merge_wf _ _ _ Hl Hr Hm)|exact (merge_contains _ _ _ x Hl Hr Hkey Hm)].
  - intros Hd Hc Hp Hx. exact (merge_None_gap _ _ x Hl Hr Hd Hc Hp Hm Hx).
Qed.

Lemma merge_exact_witness :
  let l := mkRange CapturedSequence (InclusiveSequence 1 4) Captured Retained in
  let r := mkRange CapturedSequence (InclusiveSequence 5 9) Captured Retained in
  match merge_canonical_completeness l r with
  | Some m => range_wf m /\ range_contains m 7 = range_contains l 7 || range_contains r 7
  | None => False
  end.
Proof.
  apply (merge_exact (mkRange CapturedSequence (InclusiveSequence 1 4) Captured Retained)
           (mkRange CapturedSequence (InclusiveSequence 5 9) Captured Retained) 7).
  - vm_compute. repeat split; discriminate.
  - vm_compute. repeat split; discriminate.
  - vm_compute. reflexivity.
Defined.
