(* ===== verification/Source.v ===== *)
(** * Random-access sources

    Models [qtrace-provider/src/source.rs]: the [ReadAtSource] trait object as
    the record of its methods, the in-memory [ByteSource], and the contract the
    QTRB cursor relies on ([LawfulSource]). *)

From stdpp Require Import prelude list strings pretty.
From Stdlib Require Import ZArith Lia Strings.Byte.
From S2P Require Import Prelude Prog Control.
Local Open Scope string_scope.
Local Open Scope list_scope.
Local Open Scope Z_scope.

(** [dyn ReadAtSource]: [len] and [read_exact_at offset requested]. *)
Record ReadAtSource := mkSource {
  src_len : Z;
  src_read : Z -> Z -> result ProviderError bytes
}.

Definition short_read (offset requested source_len : Z) : ProviderError :=
  ProviderError_new "source.short_read" "read" (Some (mkCoordinate offset None)) false
    ("requested " +:+ pretty requested +:+ " bytes at offset " +:+ pretty offset
     +:+ ", but only " +:+ pretty (saturating_sub source_len offset) +:+ " remain").

(** [&bytes[start..end]] for bounds that are in range. *)
Definition slice (bs : bytes) (start n : Z) : bytes :=
  take (Z.to_nat n) (drop (Z.to_nat start) bs).

(** [bytes.get(start..stop)] *)
Definition slice_get (bs : bytes) (start stop : Z) : option bytes :=
  if (start <=? stop) && (stop <=? zlen bs) then Some (slice bs start (stop - start)) else None.

(** [ByteSource::read_exact_at] *)
Definition byte_source_read (content : bytes) (offset requested : Z) : result ProviderError bytes :=
  match checked_add u64_max offset requested with
  | None => Err (short_read offset requested (zlen content))
  | Some stop =>
      if stop >? zlen content then Err (short_read offset requested (zlen content))
      else match try_from usize_max offset, try_from usize_max stop with
           | Some start, Some stop => Ok (slice content start (stop - start))
           | _, _ => Err (short_read offset requested (zlen content))
           end
  end.

Definition ByteSource (content : bytes) : ReadAtSource :=
  mkSource (zlen content) (byte_source_read content).

(** The contract of the trait: reads inside the source return the bytes there,
    reads that pass its end fail as short reads. *)
Class LawfulSource (src : ReadAtSource) (content : bytes) : Prop := {
  lawful_len : src_len src = zlen content;
  lawful_bound : zlen content <= u64_max;
  lawful_read offset n : 0 <= offset -> 0 <= n -> offset + n <= zlen content ->
    src_read src offset n = Ok (slice content offset n);
  lawful_short offset n : 0 <= offset -> 0 <= n -> zlen content < offset + n ->
    exists e, src_read src offset n = Err e /\ pe_code e = "source.short_read"
}.

Lemma length_slice bs start n :
  0 <= start -> 0 <= n -> start + n <= zlen bs -> zlen (slice bs start n) = n.
Proof. unfold slice, zlen. rewrite length_take, length_drop. lia. Qed.

Lemma slice_app_l a b : slice (a ++ b) 0 (zlen a) = a.
Proof. unfold slice, zlen. rewrite Nat2Z.id. cbn. apply take_app_length. Qed.

Lemma slice_app_r a b start n :
  start = zlen a -> slice (a ++ b) start n = slice b 0 n.
Proof. intros ->. unfold slice, zlen. by rewrite Nat2Z.id, drop_app_length. Qed.

Lemma ByteSource_lawful content :
  zlen content <= u64_max -> LawfulSource (ByteSource content) content.
Proof.
  intros Hc. split; [done|done|..]; intros offset n Ho Hn Hb; cbn; unfold byte_source_read.
  - unfold checked_add, try_from, usize_max.
    replace (offset + n <=? u64_max) with true by lia.
    replace (offset + n >? zlen content) with false by lia.
    replace (offset <=? u64_max) with true by lia.
    replace (offset + n <=? u64_max) with true by lia.
    do 2 f_equal. lia.
  - destruct (checked_add _ _ _) eqn:E; [|by eexists].
    apply checked_add_Some in E as [-> _].
    replace (offset + n >? zlen content) with true by lia. by eexists.
Qed.

(** Whatever a lawful source returns has the length that was asked for. *)
Lemma lawful_read_inv src content offset n bs `{!LawfulSource src content} :
  0 <= offset -> 0 <= n -> src_read src offset n = Ok bs ->
  offset + n <= zlen content /\ bs = slice content offset n /\ zlen bs = n.
Proof.
  intros Ho Hn Hr. destruct (Z.le_gt_cases (offset + n) (zlen content)) as [Hle|Hgt].
  - rewrite lawful_read in Hr by done. injection Hr as <-. by rewrite length_slice.
  - destruct (lawful_short offset n Ho Hn Hgt) as (e & He & _). congruence.
Qed.
