(* ===== verification/QtrbWire.v ===== *)
(** * QTRB wire constants and record types

    Models [qtrace-provider/src/qtrb/wire.rs]. *)

From stdpp Require Import prelude list.
From Stdlib Require Import ZArith Lia Strings.Byte.
From S2P Require Import Prelude.
Local Open Scope Z_scope.

Definition MAGIC : bytes := [x51; x54; x52; x42].
Definition MAJOR_VERSION : Z := 1.
Definition LITTLE_ENDIAN_MARKER : Z := 1.
Definition STREAM_HEADER_BYTES : Z := 16.
Definition RECORD_HEADER_BYTES : Z := 8.
Definition STOPPED_TERMINAL_FEATURE : Z := 1.

Definition MAX_CONTEXT_STRING_BYTES : Z := 255.
Definition MAX_MODULE_NAME_BYTES : Z := 255.
Definition MAX_CALL_CATEGORY_BYTES : Z := 255.
Definition MAX_CALL_NAME_BYTES : Z := 255.
Definition MAX_EVENT_NAME_BYTES : Z := 255.
Definition MAX_EVENT_DETAIL_BYTES : Z := 4096.
Definition MAX_CALL_CHUNK_DETAIL_BYTES : Z := 3072.
Definition MAX_EVENT_CHUNK_DETAIL_BYTES : Z := 3072.
Definition MAX_LOGICAL_CALL_DETAIL_BYTES : Z := Z.shiftl 1 20.
Definition MAX_MNEMONIC_BYTES : Z := 16.
Definition MAX_OPERANDS_BYTES : Z := 96.
Definition MAX_DISASSEMBLY_BYTES : Z := 112.
Definition MAX_REGISTER_NAME_BYTES : Z := 16.
Definition MAX_GPR_COUNT : Z := 34.
Definition MAX_MEMORY_OPERAND_COUNT : Z := 4.
Definition MAX_CAPTURED_MEMORY_BYTES : Z := 64.
Definition MAX_DICTIONARY_ENTRIES : Z := Z.shiftl 1 16.

Definition TRACE_BEGIN_FIXED_PAYLOAD_BYTES : Z := 54.
Definition MODULE_DEFINITION_FIXED_PAYLOAD_BYTES : Z := 14.
Definition INSTRUCTION_DEFINITION_FIXED_PAYLOAD_BYTES : Z := 40.
Definition ENCODED_MEMORY_OPERAND_BYTES : Z := 19.
Definition INSTRUCTION_FIXED_PAYLOAD_BYTES : Z := 26.
Definition MEMORY_FIXED_PAYLOAD_BYTES : Z := 40.
Definition CALL_FIXED_PAYLOAD_BYTES : Z := 6.
Definition CALL_CHUNK_METADATA_BYTES : Z := 16.
Definition CALL_CHUNK_FIXED_PAYLOAD_BYTES : Z :=
  CALL_CHUNK_METADATA_BYTES + CALL_FIXED_PAYLOAD_BYTES.
Definition RULE_ERROR_FIXED_PAYLOAD_BYTES : Z := 4.
Definition EVENT_CHUNK_METADATA_BYTES : Z := 16.
Definition EVENT_CHUNK_FIXED_PAYLOAD_BYTES : Z :=
  EVENT_CHUNK_METADATA_BYTES + RULE_ERROR_FIXED_PAYLOAD_BYTES.
Definition TRACE_BEGIN_PAYLOAD_MAX : Z :=
  TRACE_BEGIN_FIXED_PAYLOAD_BYTES + 2 * MAX_CONTEXT_STRING_BYTES.
Definition MODULE_DEFINITION_PAYLOAD_MAX : Z :=
  MODULE_DEFINITION_FIXED_PAYLOAD_BYTES + MAX_MODULE_NAME_BYTES.
Definition INSTRUCTION_DEFINITION_PAYLOAD_MAX : Z :=
  INSTRUCTION_DEFINITION_FIXED_PAYLOAD_BYTES
  + (2 + MAX_MNEMONIC_BYTES) + (2 + MAX_OPERANDS_BYTES) + (2 + MAX_DISASSEMBLY_BYTES)
  + 2 * MAX_GPR_COUNT * (1 + 2 + MAX_REGISTER_NAME_BYTES)
  + MAX_MEMORY_OPERAND_COUNT * ENCODED_MEMORY_OPERAND_BYTES.
Definition INSTRUCTION_PAYLOAD_MAX : Z := INSTRUCTION_FIXED_PAYLOAD_BYTES + 2 * MAX_GPR_COUNT * 8.
Definition MEMORY_PAYLOAD_MAX : Z := MEMORY_FIXED_PAYLOAD_BYTES + 2 * MAX_CAPTURED_MEMORY_BYTES.
Definition CALL_PAYLOAD_MAX : Z :=
  CALL_FIXED_PAYLOAD_BYTES + MAX_CALL_CATEGORY_BYTES + MAX_CALL_NAME_BYTES
  + MAX_EVENT_DETAIL_BYTES.
Definition CALL_CHUNK_PAYLOAD_MAX : Z :=
  CALL_CHUNK_FIXED_PAYLOAD_BYTES + MAX_CALL_CATEGORY_BYTES + MAX_CALL_NAME_BYTES
  + MAX_CALL_CHUNK_DETAIL_BYTES.
Definition RULE_ERROR_PAYLOAD_MAX : Z :=
  RULE_ERROR_FIXED_PAYLOAD_BYTES + MAX_EVENT_NAME_BYTES + MAX_EVENT_DETAIL_BYTES.
Definition EVENT_CHUNK_PAYLOAD_MAX : Z :=
  EVENT_CHUNK_FIXED_PAYLOAD_BYTES + MAX_EVENT_NAME_BYTES + MAX_EVENT_CHUNK_DETAIL_BYTES.
Definition TRACE_END_PAYLOAD_BYTES : Z := 97.
Definition TRACE_STOP_PAYLOAD_BYTES : Z := 96.
Definition MAX_RECORD_BYTES : Z := RECORD_HEADER_BYTES + CALL_PAYLOAD_MAX.
Definition MAX_OPAQUE_PAYLOAD_BYTES : Z := MAX_RECORD_BYTES - RECORD_HEADER_BYTES.

Definition OPTIONAL_RECORD_TYPE_MIN : Z := 0x8000.
Definition CHUNK_FLAG : Z := 1.
Definition VALID_INSTRUCTION_FLAGS : Z := 0x0f.

Inductive RecordType :=
| TraceBegin | TModuleDefinition | TInstructionDefinition | TInstruction | TMemory | TCall
| TRule | TError | TraceEnd | TraceStop.
#[global] Instance RecordType_eq_dec : EqDecision RecordType.
Proof. solve_decision. Defined.

Definition from_raw (value : Z) : option RecordType :=
  match value with
  | 1 => Some TraceBegin
  | 2 => Some TModuleDefinition
  | 3 => Some TInstructionDefinition
  | 4 => Some TInstruction
  | 5 => Some TMemory
  | 6 => Some TCall
  | 7 => Some TRule
  | 8 => Some TError
  | 9 => Some TraceEnd
  | 10 => Some TraceStop
  | _ => None
  end.

(** The [repr(u16)] discriminant. *)
Definition to_raw (t : RecordType) : Z :=
  match t with
  | TraceBegin => 1 | TModuleDefinition => 2 | TInstructionDefinition => 3 | TInstruction => 4
  | TMemory => 5 | TCall => 6 | TRule => 7 | TError => 8 | TraceEnd => 9 | TraceStop => 10
  end.

Definition payload_limit (t : RecordType) (flags : Z) : option Z :=
  match t, flags with
  | TraceBegin, 0 => Some TRACE_BEGIN_PAYLOAD_MAX
  | TModuleDefinition, 0 => Some MODULE_DEFINITION_PAYLOAD_MAX
  | TInstructionDefinition, 0 => Some INSTRUCTION_DEFINITION_PAYLOAD_MAX
  | TInstruction, 0 => Some INSTRUCTION_PAYLOAD_MAX
  | TMemory, 0 => Some MEMORY_PAYLOAD_MAX
  | TCall, 0 => Some CALL_PAYLOAD_MAX
  | TCall, 1 => Some CALL_CHUNK_PAYLOAD_MAX
  | (TRule | TError), 0 => Some RULE_ERROR_PAYLOAD_MAX
  | (TRule | TError), 1 => Some EVENT_CHUNK_PAYLOAD_MAX
  | TraceEnd, 0 => Some TRACE_END_PAYLOAD_BYTES
  | TraceStop, 0 => Some TRACE_STOP_PAYLOAD_BYTES
  | _, _ => None
  end.

Lemma from_raw_iff v t : from_raw v = Some t <-> v = to_raw t.
Proof.
  split; [|intros ->; by destruct t].
  intros Hv. destruct v as [|p|p]; cbn in Hv; try naive_solver.
  do 4 (try (destruct p as [p|p|]; cbn in Hv; try naive_solver)).
Qed.

(** No record type admits more than the largest record's payload. *)
Lemma payload_limit_bound t flags n :
  payload_limit t flags = Some n -> 0 <= n <= MAX_OPAQUE_PAYLOAD_BYTES.
Proof.
  unfold payload_limit. intros H.
  repeat (case_match; try done); injection H as <-; vm_compute; split; congruence.
Qed.

(** Only [CALL], [RULE] and [ERROR] have a second, flagged layout. *)
Lemma payload_limit_flags t flags n :
  payload_limit t flags = Some n ->
  flags = 0 \/ (flags = CHUNK_FLAG /\ (t = TCall \/ t = TRule \/ t = TError)).
Proof.
  unfold payload_limit, CHUNK_FLAG. intros H. repeat (case_match; try done); subst; auto.
Qed.
