(* ===== verification/QtrbPayload.v ===== *)
(** * The bounded payload cursor

    Models [qtrace-provider/src/qtrb/cursor.rs]: every QTRB payload is read
    through a [PayloadCursor] that checks each access against the payload and
    must be exhausted at the end. *)

From stdpp Require Import prelude list strings pretty.
From Stdlib Require Import ZArith Lia Strings.Byte.
From S2P Require Import Prelude Prog Control Source.
Local Open Scope string_scope.
Local Open Scope list_scope.
Local Open Scope Z_scope.

Record PayloadCursor := mkPayloadCursor {
  cu_bytes : bytes;
  cu_position : Z;
  cu_label : string;
  cu_coordinate : SourceCoordinate
}.

Definition cursor_new (bs : bytes) (label : string) (c : SourceCoordinate) : PayloadCursor :=
  mkPayloadCursor bs 0 label c.

Definition invalid_length (c : PayloadCursor) : ProviderError :=
  ProviderError_new "source.invalid_payload" "qtrb.payload" (Some (cu_coordinate c)) false
    ("invalid " +:+ cu_label c +:+ " payload length").

Definition advance (c : PayloadCursor) (n : Z) : PayloadCursor :=
  mkPayloadCursor (cu_bytes c) (cu_position c + n) (cu_label c) (cu_coordinate c).

Section cursor.
Context {W : Type} `{WorkGuard W} `{Allocator W}.

Abbreviation D := (Prog W ProviderError PayloadCursor).

Definition cursor_take (size : Z) : D bytes := fun c w =>
  match checked_add usize_max (cu_position c) size with
  | None => (Err (invalid_length c), c, w)
  | Some stop =>
      match slice_get (cu_bytes c) (cu_position c) stop with
      | None => (Err (invalid_length c), c, w)
      | Some result =>
          (Ok result, mkPayloadCursor (cu_bytes c) stop (cu_label c) (cu_coordinate c), w)
      end
  end.

Definition u8 : D Z := let! b := cursor_take 1 in ret (le_Z b).
Definition u16_le : D Z := let! b := cursor_take 2 in ret (le_Z b).
Definition u32_le : D Z := let! b := cursor_take 4 in ret (le_Z b).
Definition u64_le : D Z := let! b := cursor_take 8 in ret (le_Z b).
Definition i64_le : D Z := let! b := cursor_take 8 in ret (signed64 (le_Z b)).

Definition bounded_utf8_guarded (maximum : Z) (field : string) : D bytes :=
  let! size := u16_le in
  let! c := get in
  fail_if (size >? maximum)
    (ProviderError_new "source.invalid_payload" "qtrb.payload" (Some (cu_coordinate c)) false
       (field +:+ " exceeds " +:+ pretty maximum +:+ " bytes")) ;!
  let! raw := cursor_take size in
  fail_if (negb (utf8_valid raw))
    (ProviderError_new "source.invalid_utf8" "qtrb.payload" (Some (cu_coordinate c)) false
       (field +:+ " is not valid UTF-8")) ;!
  try_copy_string raw "QTRB string allocation failed".

Definition cursor_finish : D unit :=
  let! c := get in
  fail_if (negb (cu_position c =? zlen (cu_bytes c))) (invalid_length c).

End cursor.

(** ** Cursor invariant and rules *)

(** The cursor never leaves its payload. *)
Definition cursor_wf (c : PayloadCursor) : Prop := 0 <= cu_position c <= zlen (cu_bytes c).

(** What is left to read. *)
Definition cursor_rest (c : PayloadCursor) : bytes := drop (Z.to_nat (cu_position c)) (cu_bytes c).

Lemma cursor_new_wf bs l c : cursor_wf (cursor_new bs l c).
Proof. unfold cursor_wf, zlen. cbn. lia. Qed.

Lemma cursor_rest_new bs l c : cursor_rest (cursor_new bs l c) = bs.
Proof. done. Qed.

Lemma zlen_rest c : cursor_wf c -> zlen (cursor_rest c) = zlen (cu_bytes c) - cu_position c.
Proof. unfold cursor_wf, cursor_rest, zlen. rewrite length_drop. lia. Qed.

Lemma advance_wf c n :
  cursor_wf c -> 0 <= n <= zlen (cursor_rest c) -> cursor_wf (advance c n).
Proof. intros Hc. rewrite zlen_rest by done. unfold cursor_wf in *. cbn. lia. Qed.

Lemma cursor_rest_advance c n :
  cursor_wf c -> 0 <= n -> cursor_rest (advance c n) = drop (Z.to_nat n) (cursor_rest c).
Proof.
  unfold cursor_wf, cursor_rest. cbn. intros Hc Hn. rewrite drop_drop. f_equal. lia.
Qed.

Lemma slice_rest c n :
  cursor_wf c -> slice (cu_bytes c) (cu_position c) n = take (Z.to_nat n) (cursor_rest c).
Proof. done. Qed.

(** [take] in one equation. *)
Lemma cursor_take_spec {W} (c : PayloadCursor) size (w : W) :
  cursor_wf c -> 0 <= size ->
  zlen (cu_bytes c) <= u64_max ->
  cursor_take size c w
  = if size <=? zlen (cursor_rest c)
    then (Ok (take (Z.to_nat size) (cursor_rest c)), advance c size, w)
    else (Err (invalid_length c), c, w).
Proof.
  intros Hc Hs Hb. rewrite zlen_rest by done. unfold cursor_take, checked_add, slice_get, cursor_wf in *.
  destruct (Z.leb_spec size (zlen (cu_bytes c) - cu_position c)).
  - replace (cu_position c + size <=? usize_max) with true by (unfold usize_max; lia).
    replace (cu_position c <=? cu_position c + size) with true by lia.
    replace (cu_position c + size <=? zlen (cu_bytes c)) with true by lia.
    cbn [andb]. do 4 f_equal. rewrite slice_rest by done. f_equal. lia.
  - destruct (_ <=? usize_max); [|done].
    replace (cu_position c + size <=? zlen (cu_bytes c)) with false by lia.
    by rewrite andb_false_r.
Qed.

Section cursor_wp.
Context {W : Type} `{WorkGuard W} `{Allocator W}.
Implicit Types (c : PayloadCursor) (R : ProviderError -> PayloadCursor -> Prop).

(** Without any assumption on the payload: a read either fails or returns
    exactly the bytes asked for. *)
Lemma wp_take size (Q : bytes -> PayloadCursor -> Prop) R c :
  cursor_wf c -> 0 <= size ->
  (forall bs, zlen bs = size -> cursor_rest c = bs ++ cursor_rest (advance c size) ->
     cursor_wf (advance c size) -> Q bs (advance c size)) ->
  R (invalid_length c) c ->
  wp (W := W) (cursor_take size) Q R c.
Proof.
  intros Hc Hs HQ HR w. unfold cursor_take.
  destruct (checked_add _ _ _) as [stop|] eqn:E; [|done].
  apply checked_add_Some in E as [-> _]. unfold slice_get.
  destruct ((cu_position c <=? cu_position c + size) && (cu_position c + size <=? zlen (cu_bytes c)))
    eqn:Eb; [|done].
  apply andb_true_iff in Eb as [_ Hle%Z.leb_le].
  assert (cursor_wf (advance c size)) as Hadv by (unfold cursor_wf in *; cbn; lia).
  replace (cu_position c + size - cu_position c) with size by lia.
  apply HQ; [by apply length_slice; unfold cursor_wf in *; lia| |done].
  rewrite slice_rest, cursor_rest_advance by done. symmetry. apply take_drop.
Qed.

Lemma le_Z_bound8 bs : zlen bs = 1 -> in_u8 (le_Z bs).
Proof. intros Hl. pose proof (le_Z_range bs) as Hr. rewrite Hl in Hr. machine. lia. Qed.
Lemma le_Z_bound16 bs : zlen bs = 2 -> in_u16 (le_Z bs).
Proof. intros Hl. pose proof (le_Z_range bs) as Hr. rewrite Hl in Hr. machine. lia. Qed.
Lemma le_Z_bound32 bs : zlen bs = 4 -> in_u32 (le_Z bs).
Proof. intros Hl. pose proof (le_Z_range bs) as Hr. rewrite Hl in Hr. machine. lia. Qed.
Lemma le_Z_bound64 bs : zlen bs = 8 -> in_u64 (le_Z bs).
Proof. intros Hl. pose proof (le_Z_range bs) as Hr. rewrite Hl in Hr. machine. lia. Qed.

(** Fixed-width reads: the value is in range and the wire bytes are its
    little-endian encoding. *)
Lemma wp_int n (f : Z -> Z) (Q : Z -> PayloadCursor -> Prop) R c :
  cursor_wf c ->
  (forall v, 0 <= v < 256 ^ Z.of_nat n ->
     cursor_rest c = le_bytes n v ++ cursor_rest (advance c (Z.of_nat n)) ->
     cursor_wf (advance c (Z.of_nat n)) -> Q (f v) (advance c (Z.of_nat n))) ->
  R (invalid_length c) c ->
  wp (W := W) (let! b := cursor_take (Z.of_nat n) in ret (f (le_Z b))) Q R c.
Proof.
  intros Hc HQ HR. apply wp_bind, wp_take; [done|lia| |done].
  intros bs Hlen Hrest Hwf. apply wp_ret, HQ; [|by rewrite le_bytes_le_Z by (unfold zlen in Hlen; lia)|done].
  pose proof (le_Z_range bs) as Hr. by rewrite Hlen in Hr.
Qed.

Lemma wp_finish (Q : unit -> PayloadCursor -> Prop) R c :
  cursor_wf c -> (cursor_rest c = [] -> Q tt c) -> R (invalid_length c) c ->
  wp (W := W) cursor_finish Q R c.
Proof.
  intros Hc HQ HR. apply wp_bind, wp_get, wp_fail_if; [|done].
  intros Hp. apply HQ, nil_length_inv. pose proof (zlen_rest c Hc) as Hz.
  unfold zlen in Hz at 1. rewrite negb_false_iff, Z.eqb_eq in Hp. lia.
Qed.

Lemma wp_utf8 maximum field (Q : bytes -> PayloadCursor -> Prop) R c :
  cursor_wf c ->
  (forall bs c', zlen bs <= maximum -> in_u16 (zlen bs) -> utf8_valid bs = true ->
     cursor_rest c = le_bytes 2 (zlen bs) ++ bs ++ cursor_rest c' ->
     cursor_wf c' -> Q bs c') ->
  (forall e c', R e c') ->
  wp (W := W) (bounded_utf8_guarded maximum field) Q R c.
Proof.
  intros Hc HQ HR. unfold bounded_utf8_guarded. apply wp_bind.
  apply (wp_int 2 (fun v => v)); [done| |done]. intros size Hsize Hr1 Hwf1.
  apply wp_bind, wp_get, wp_bind, wp_fail_if; [intros Hmax|done].
  apply wp_bind, wp_take; [done|lia| |done]. intros raw Hraw Hr2 Hwf2.
  apply wp_bind, wp_fail_if; [intros Hutf|done].
  apply wp_copy_string; [apply _|intros _|done].
  rewrite negb_false_iff in Hutf. rewrite <- Hraw in *.
  apply HQ; [lia|machine; change (256 ^ Z.of_nat 2) with 65536 in Hsize; lia|done| |done].
  by rewrite Hr1, Hr2.
Qed.

End cursor_wp.

(** ** Reading back an encoding

    The forward direction: on the bytes an encoder wrote, each read returns the
    value and leaves the rest. *)

Definition encode_string (s : bytes) : bytes := le_bytes 2 (zlen s) ++ s.

(** [cursor_at bs rest c c']: [c'] is [c] after reading a prefix, and [rest]
    remains. *)
Definition reads_to (c : PayloadCursor) (prefix : bytes) : PayloadCursor :=
  advance c (zlen prefix).

Section cursor_run.
Implicit Types c : PayloadCursor.

Definition cursor_ok (c : PayloadCursor) : Prop := cursor_wf c /\ zlen (cu_bytes c) <= u64_max.

Lemma reads_to_ok c a b :
  cursor_ok c -> cursor_rest c = a ++ b ->
  cursor_ok (reads_to c a) /\ cursor_rest (reads_to c a) = b.
Proof.
  intros [Hc Hb] Hr. unfold reads_to. assert (zlen a <= zlen (cursor_rest c)) as Hle.
  { rewrite Hr. unfold zlen. rewrite length_app. lia. }
  split; [split; [|done]|].
  - apply advance_wf; [done|]. unfold zlen in *. lia.
  - rewrite cursor_rest_advance by (done || (unfold zlen; lia)).
    rewrite Hr. unfold zlen. by rewrite Nat2Z.id, drop_app_length.
Qed.

Lemma run_take c a b n :
  cursor_ok c -> cursor_rest c = a ++ b -> zlen a = n ->
  run (cursor_take n) c = (Ok a, reads_to c a).
Proof.
  intros [Hc Hb] Hr <-. unfold run.
  rewrite cursor_take_spec by (done || (unfold zlen; lia)).
  replace (zlen a <=? zlen (cursor_rest c)) with true.
  - rewrite Hr. unfold zlen at 1. rewrite Nat2Z.id, take_app_length. done.
  - symmetry. apply Z.leb_le. rewrite Hr. unfold zlen. rewrite length_app. lia.
Qed.

Lemma run_int n (f : Z -> Z) v c b :
  cursor_ok c -> cursor_rest c = le_bytes n v ++ b -> 0 <= v < 256 ^ Z.of_nat n ->
  run (let! b := cursor_take (Z.of_nat n) in ret (f (le_Z b))) c
  = (Ok (f v), reads_to c (le_bytes n v)).
Proof.
  intros Hc Hr Hv. erewrite run_bind_ok.
  - rewrite le_Z_le_bytes by done. reflexivity.
  - apply (run_take c (le_bytes n v) b); [done..|]. unfold zlen. by rewrite length_le_bytes.
Qed.

Lemma run_u8 v c b :
  cursor_ok c -> cursor_rest c = le_bytes 1 v ++ b -> in_u8 v ->
  run u8 c = (Ok v, reads_to c (le_bytes 1 v)).
Proof. intros. apply (run_int 1 (fun v => v) v c b); [done..|machine; lia]. Qed.

Lemma run_u16 v c b :
  cursor_ok c -> cursor_rest c = le_bytes 2 v ++ b -> in_u16 v ->
  run u16_le c = (Ok v, reads_to c (le_bytes 2 v)).
Proof. intros. apply (run_int 2 (fun v => v) v c b); [done..|machine; lia]. Qed.

Lemma run_u32 v c b :
  cursor_ok c -> cursor_rest c = le_bytes 4 v ++ b -> in_u32 v ->
  run u32_le c = (Ok v, reads_to c (le_bytes 4 v)).
Proof. intros. apply (run_int 4 (fun v => v) v c b); [done..|machine; lia]. Qed.

Lemma run_u64 v c b :
  cursor_ok c -> cursor_rest c = le_bytes 8 v ++ b -> in_u64 v ->
  run u64_le c = (Ok v, reads_to c (le_bytes 8 v)).
Proof. intros. apply (run_int 8 (fun v => v) v c b); [done..|machine; lia]. Qed.

(** Two's complement: the unsigned word of a signed value reads back. *)
Lemma signed64_mod v : in_i64 v -> signed64 (v mod 2 ^ 64) = v.
Proof.
  unfold in_i64, signed64. intros Hv.
  destruct (Z.le_gt_cases 0 v).
  - rewrite Z.mod_small by lia. case_match; lia.
  - rewrite <- (Z.mod_add v 1), Z.mod_small by lia. case_match; lia.
Qed.

Lemma run_i64 v c b :
  cursor_ok c -> cursor_rest c = le_bytes 8 (v mod 2 ^ 64) ++ b -> in_i64 v ->
  run i64_le c = (Ok v, reads_to c (le_bytes 8 (v mod 2 ^ 64))).
Proof.
  intros Hc Hr Hv. rewrite <- (signed64_mod v Hv) at 1.
  apply (run_int 8 signed64 (v mod 2 ^ 64) c b); [done..|].
  apply Z.mod_pos_bound. lia.
Qed.

Lemma run_utf8 s maximum field c b :
  cursor_ok c -> cursor_rest c = encode_string s ++ b ->
  zlen s <= maximum -> in_u16 (zlen s) -> utf8_valid s = true ->
  run (bounded_utf8_guarded maximum field) c = (Ok s, reads_to c (encode_string s)).
Proof.
  intros Hc Hr Hmax Hu16 Hutf. unfold encode_string in *. rewrite <- app_assoc in Hr.
  destruct (reads_to_ok _ _ _ Hc Hr) as [Hc1 Hr1]. destruct (reads_to_ok _ _ _ Hc1 Hr1) as [Hc2 Hr2].
  unfold bounded_utf8_guarded. erewrite run_bind_ok; [|eapply run_u16; eassumption].
  erewrite run_bind_ok; [|reflexivity].
  replace (zlen s >? maximum) with false by lia. erewrite run_bind_ok; [|reflexivity].
  erewrite run_bind_ok; [|eapply run_take; [eassumption..|reflexivity]]. rewrite Hutf.
  erewrite run_bind_ok; [|reflexivity].
  unfold try_copy_string. rewrite run_copy_string by (machine; lia).
  f_equal. unfold reads_to, advance, zlen. cbn. f_equal. lia.
Qed.

Lemma run_finish c : cursor_ok c -> cursor_rest c = [] -> run cursor_finish c = (Ok tt, c).
Proof.
  intros [Hc _] Hr. unfold cursor_finish. erewrite run_bind_ok; [|reflexivity].
  pose proof (zlen_rest c Hc) as Hz. rewrite Hr in Hz. unfold zlen in Hz at 1. cbn in Hz.
  replace (cu_position c =? zlen (cu_bytes c)) with true by lia. done.
Qed.

End cursor_run.

(** ** The cursor in two worlds *)

Section cursor_refines.
Context {W : Type} `{WorkGuard W} `{Allocator W}.

Notation "p ⊑ q" := (refines (W1 := W) (W2 := unit) resource_error p q) (at level 70).

Lemma take_refines n : cursor_take n ⊑ cursor_take n.
Proof.
  intros c w1 w2. unfold cursor_take. destruct (checked_add _ _ _); [|by left].
  destruct (slice_get _ _ _); by left.
Qed.

Lemma u8_refines : u8 ⊑ u8.
Proof. apply refines_bind; [apply take_refines|intros; apply refines_ret]. Qed.
Lemma u16_refines : u16_le ⊑ u16_le.
Proof. apply refines_bind; [apply take_refines|intros; apply refines_ret]. Qed.
Lemma u32_refines : u32_le ⊑ u32_le.
Proof. apply refines_bind; [apply take_refines|intros; apply refines_ret]. Qed.
Lemma u64_refines : u64_le ⊑ u64_le.
Proof. apply refines_bind; [apply take_refines|intros; apply refines_ret]. Qed.
Lemma i64_refines : i64_le ⊑ i64_le.
Proof. apply refines_bind; [apply take_refines|intros; apply refines_ret]. Qed.

Lemma utf8_refines maximum field :
  bounded_utf8_guarded maximum field ⊑ bounded_utf8_guarded maximum field.
Proof.
  unfold bounded_utf8_guarded. apply refines_bind; [apply u16_refines|intros size].
  apply refines_bind; [apply refines_get|intros c].
  apply refines_bind; [apply refines_fail_if|intros _].
  apply refines_bind; [apply take_refines|intros raw].
  apply refines_bind; [apply refines_fail_if|intros _].
  apply copy_string_refines, _.
Qed.

Lemma finish_refines : cursor_finish ⊑ cursor_finish.
Proof. apply refines_bind; [apply refines_get|intros; apply refines_fail_if]. Qed.

End cursor_refines.

#[export] Hint Resolve take_refines u8_refines u16_refines u32_refines u64_refines i64_refines
  utf8_refines finish_refines : refine.
