(* ===== verification/QtrbCodec.v ===== *)
(** * Two readings of a payload decoder

    A decoder is a program on a [PayloadCursor].  This file gives the two rule
    systems the record decoders are verified with:

    - [parses p rest Q]: from [rest], a run of [p] that succeeds (in any world)
      ends with a value and a remaining input in [Q]; chained through a decoder
      it shows that an accepted payload is the encoding of the decoded value.
    - [prints p rest a rest']: in the permissive world [p] does succeed on
      [rest], returns [a] and leaves [rest']; chained through a decoder it shows
      that every encoding is accepted.

    The wire encodings themselves are the layouts of [docs/trace-format.md]. *)

From stdpp Require Import prelude list strings pretty.
From Stdlib Require Import ZArith Lia Strings.Byte.
From S2P Require Import Prelude Prog Control Source QtrbPayload.
Local Open Scope string_scope.
Local Open Scope list_scope.
Local Open Scope Z_scope.

#[global] Arguments le_bytes : simpl never.
#[global] Arguments encode_string : simpl never.

(** ** Accepted inputs *)

Section parses.
Context {W : Type} `{WorkGuard W} `{Allocator W}.
Abbreviation D := (Prog W ProviderError PayloadCursor).

Definition parses {A} (p : D A) (rest : bytes) (Q : A -> bytes -> Prop) : Prop :=
  forall c, cursor_wf c -> cursor_rest c = rest ->
    wp p (fun a c' => cursor_wf c' /\ Q a (cursor_rest c')) (fun _ _ => True) c.

Lemma parses_mono {A} (p : D A) rest (Q Q' : A -> bytes -> Prop) :
  parses p rest Q -> (forall a r, Q a r -> Q' a r) -> parses p rest Q'.
Proof.
  intros Hp HQ c Hc Hr. eapply wp_mono; [by apply Hp| |done]. intros a c' [Hc' Ha]. auto.
Qed.

Lemma parses_ret {A} (a : A) rest (Q : A -> bytes -> Prop) : Q a rest -> parses (ret a) rest Q.
Proof. intros HQ c Hc <-. by apply wp_ret. Qed.

Lemma parses_throw {A} e rest (Q : A -> bytes -> Prop) : parses (throw e) rest Q.
Proof. intros c Hc Hr. by apply wp_throw. Qed.

Lemma parses_bind {A B} (p : D A) (k : A -> D B) rest Q :
  parses p rest (fun a rest' => parses (k a) rest' Q) -> parses (bind p k) rest Q.
Proof.
  intros Hp c Hc Hr. apply wp_bind. eapply wp_mono; [by apply Hp| |done].
  intros a c' [Hc' Hk]. by apply Hk.
Qed.

Lemma parses_fail_if b e rest (Q : unit -> bytes -> Prop) :
  (b = false -> Q tt rest) -> parses (fail_if b e) rest Q.
Proof. intros HQ c Hc <-. apply wp_fail_if; [|done]. intros Hb. split; auto. Qed.

Lemma parses_result {A} (r : result ProviderError A) rest (Q : A -> bytes -> Prop) :
  (forall a, r = Ok a -> Q a rest) -> parses (lift_result r) rest Q.
Proof. intros HQ c Hc <-. apply wp_result. destruct r; [|done]. split; auto. Qed.

Lemma parses_option {A} (o : option A) e rest (Q : A -> bytes -> Prop) :
  (forall a, o = Some a -> Q a rest) -> parses (lift_option o e) rest Q.
Proof. intros HQ c Hc <-. apply wp_option. destruct o; [|done]. split; auto. Qed.

Lemma parses_take n rest (Q : bytes -> bytes -> Prop) :
  0 <= n ->
  (forall bs rest', zlen bs = n -> rest = bs ++ rest' -> Q bs rest') ->
  parses (cursor_take n) rest Q.
Proof. intros Hn HQ c Hc <-. apply wp_take; [done..| |done]. auto. Qed.

Lemma parses_int n (f : Z -> Z) rest (Q : Z -> bytes -> Prop) :
  (forall v rest', 0 <= v < 256 ^ Z.of_nat n -> rest = le_bytes n v ++ rest' -> Q (f v) rest') ->
  parses (let! b := cursor_take (Z.of_nat n) in ret (f (le_Z b))) rest Q.
Proof. intros HQ c Hc <-. apply wp_int; [done| |done]. auto. Qed.

Lemma parses_u8 rest (Q : Z -> bytes -> Prop) :
  (forall v rest', in_u8 v -> rest = le_bytes 1 v ++ rest' -> Q v rest') -> parses u8 rest Q.
Proof. intros HQ. apply (parses_int 1 (fun v => v)). intros v r Hv. apply HQ. machine. lia. Qed.
Lemma parses_u16 rest (Q : Z -> bytes -> Prop) :
  (forall v rest', in_u16 v -> rest = le_bytes 2 v ++ rest' -> Q v rest') -> parses u16_le rest Q.
Proof. intros HQ. apply (parses_int 2 (fun v => v)). intros v r Hv. apply HQ. machine. lia. Qed.
Lemma parses_u32 rest (Q : Z -> bytes -> Prop) :
  (forall v rest', in_u32 v -> rest = le_bytes 4 v ++ rest' -> Q v rest') -> parses u32_le rest Q.
Proof. intros HQ. apply (parses_int 4 (fun v => v)). intros v r Hv. apply HQ. machine. lia. Qed.
Lemma parses_u64 rest (Q : Z -> bytes -> Prop) :
  (forall v rest', in_u64 v -> rest = le_bytes 8 v ++ rest' -> Q v rest') -> parses u64_le rest Q.
Proof. intros HQ. apply (parses_int 8 (fun v => v)). intros v r Hv. apply HQ. machine. lia. Qed.

Lemma signed64_unsigned v : in_u64 v -> signed64 v mod 2 ^ 64 = v.
Proof.
  unfold signed64. machine. intros Hv. case_match; [apply Z.mod_small; lia|].
  rewrite <- (Z.mod_add _ 1), Z.mod_small by lia. lia.
Qed.

(** The two's-complement field of a signed value. *)
Definition le_i64 (v : Z) : bytes := le_bytes 8 (v mod 2 ^ 64).

Lemma parses_i64 rest (Q : Z -> bytes -> Prop) :
  (forall v rest', in_i64 v -> rest = le_i64 v ++ rest' -> Q v rest') -> parses i64_le rest Q.
Proof.
  intros HQ. apply (parses_int 8 signed64). intros v r Hv Hr.
  assert (in_u64 v) by (machine; lia).
  apply HQ; [by apply signed64_range|]. unfold le_i64. by rewrite signed64_unsigned.
Qed.

Lemma parses_utf8 maximum field rest (Q : bytes -> bytes -> Prop) :
  (forall s rest', zlen s <= maximum -> in_u16 (zlen s) -> utf8_valid s = true ->
     rest = encode_string s ++ rest' -> Q s rest') ->
  parses (bounded_utf8_guarded maximum field) rest Q.
Proof.
  intros HQ c Hc <-. apply wp_utf8; [done| |done].
  intros bs c' Hm Hu Hv Hr Hc'. split; [done|]. apply HQ; [done..|].
  unfold encode_string. by rewrite <- app_assoc.
Qed.

Lemma parses_finish rest (Q : unit -> bytes -> Prop) :
  (rest = [] -> Q tt []) -> parses cursor_finish rest Q.
Proof.
  intros HQ c Hc <-. apply wp_finish; [done| |done]. intros Hr. rewrite Hr. auto.
Qed.

Lemma parses_reserve t cap len n d rest (Q : unit -> bytes -> Prop) :
  Q tt rest -> parses (try_reserve_vec_exact t cap len n d) rest Q.
Proof.
  intros HQ c Hc <-. apply wp_bind, wp_reserve_vec; [apply _| |done]. intros. by apply wp_ret.
Qed.

Lemma parses_copy_bytes bs d rest (Q : bytes -> bytes -> Prop) :
  Q bs rest -> parses (try_copy_bytes bs d) rest Q.
Proof. intros HQ c Hc <-. by apply wp_copy_bytes; [apply _| |]. Qed.

Lemma parses_copy_string bs d rest (Q : bytes -> bytes -> Prop) :
  (zlen bs <= u64_max -> Q bs rest) -> parses (try_copy_string bs d) rest Q.
Proof. intros HQ c Hc <-. apply wp_copy_string; [apply _| |done]. auto. Qed.

(** A counted sequence: each turn consumes the encoding of its element. *)
Lemma parses_for_each {X A} (xs : list X) (f : X -> D A) (enc : X -> A -> bytes)
    (ok : X -> A -> Prop) rest (Q : list A -> bytes -> Prop) :
  (forall x r, x ∈ xs -> parses (f x) r (fun a r' => ok x a /\ r = enc x a ++ r')) ->
  (forall out rest', Forall2 ok xs out -> rest = concat (zip_with enc xs out) ++ rest' ->
     Q out rest') ->
  parses (for_each xs f) rest Q.
Proof.
  revert rest Q. induction xs as [|x xs IH]; intros rest Q Hf HQ; cbn [for_each].
  - apply parses_ret. apply HQ; [constructor|done].
  - apply parses_bind. eapply parses_mono; [apply Hf; left|]. intros a r [Ha ->].
    apply parses_bind, IH; [intros; apply Hf; by right|]. intros out r' Hout ->.
    apply parses_ret, HQ; [by constructor|]. cbn. by rewrite app_assoc.
Qed.

End parses.

(** ** Produced inputs *)

Section prints.
Abbreviation D := (Prog unit ProviderError PayloadCursor).

Definition prints {A} (p : D A) (rest : bytes) (a : A) (rest' : bytes) : Prop :=
  forall c, cursor_ok c -> cursor_rest c = rest ->
    exists c', run p c = (Ok a, c') /\ cursor_ok c' /\ cursor_rest c' = rest'.

Lemma prints_ret {A} (a : A) rest : prints (ret a) rest a rest.
Proof. intros c Hc Hr. by exists c. Qed.

Lemma prints_bind {A B} (p : D A) (k : A -> D B) rest a rest' b rest'' :
  prints p rest a rest' -> prints (k a) rest' b rest'' -> prints (bind p k) rest b rest''.
Proof.
  intros Hp Hk c Hc Hr. destruct (Hp c Hc Hr) as (c1 & Hrun & Hc1 & Hr1).
  destruct (Hk c1 Hc1 Hr1) as (c2 & Hrun2 & Hc2 & Hr2).
  exists c2. by rewrite (run_bind_ok _ _ _ _ _ Hrun).
Qed.

Lemma prints_fail_if b e rest : b = false -> prints (fail_if b e) rest tt rest.
Proof. intros -> c Hc Hr. by exists c. Qed.

Lemma prints_result {A} (r : result ProviderError A) a rest :
  r = Ok a -> prints (lift_result r) rest a rest.
Proof. intros -> c Hc Hr. by exists c. Qed.

Lemma prints_option {A} (o : option A) e a rest :
  o = Some a -> prints (lift_option o e) rest a rest.
Proof. intros -> c Hc Hr. by exists c. Qed.

Lemma prints_take n bs rest : zlen bs = n -> prints (cursor_take n) (bs ++ rest) bs rest.
Proof.
  intros Hn c Hc Hr. exists (reads_to c bs). split; [by eapply run_take|]. by apply reads_to_ok.
Qed.

Lemma prints_u8 v rest : in_u8 v -> prints u8 (le_bytes 1 v ++ rest) v rest.
Proof. intros Hv c Hc Hr. eexists. split; [by eapply run_u8|]. by apply reads_to_ok. Qed.
Lemma prints_u16 v rest : in_u16 v -> prints u16_le (le_bytes 2 v ++ rest) v rest.
Proof. intros Hv c Hc Hr. eexists. split; [by eapply run_u16|]. by apply reads_to_ok. Qed.
Lemma prints_u32 v rest : in_u32 v -> prints u32_le (le_bytes 4 v ++ rest) v rest.
Proof. intros Hv c Hc Hr. eexists. split; [by eapply run_u32|]. by apply reads_to_ok. Qed.
Lemma prints_u64 v rest : in_u64 v -> prints u64_le (le_bytes 8 v ++ rest) v rest.
Proof. intros Hv c Hc Hr. eexists. split; [by eapply run_u64|]. by apply reads_to_ok. Qed.
Lemma prints_i64 v rest : in_i64 v -> prints i64_le (le_i64 v ++ rest) v rest.
Proof. intros Hv c Hc Hr. eexists. split; [by eapply run_i64|]. by apply reads_to_ok. Qed.

Lemma prints_utf8 maximum field s rest :
  zlen s <= maximum -> in_u16 (zlen s) -> utf8_valid s = true ->
  prints (bounded_utf8_guarded maximum field) (encode_string s ++ rest) s rest.
Proof.
  intros Hm Hu Hv c Hc Hr. eexists. split; [by eapply run_utf8|]. by apply reads_to_ok.
Qed.

Lemma prints_finish : prints cursor_finish [] tt [].
Proof. intros c Hc Hr. exists c. by rewrite run_finish. Qed.

Lemma prints_reserve t cap len n d rest :
  prints (try_reserve_vec_exact t cap len n d) rest tt rest.
Proof. intros c Hc Hr. exists c. by rewrite run_reserve_vec. Qed.

Lemma prints_copy_bytes bs d rest : prints (try_copy_bytes bs d) rest bs rest.
Proof. intros c Hc Hr. exists c. unfold try_copy_bytes. by rewrite run_copy_bytes. Qed.

Lemma prints_copy_string bs d rest :
  zlen bs <= u64_max -> prints (try_copy_string bs d) rest bs rest.
Proof. intros Hb c Hc Hr. exists c. unfold try_copy_string. by rewrite run_copy_string. Qed.

Lemma prints_for_each {X A} (xs : list X) (f : X -> D A) (enc : X -> A -> bytes) out rest :
  Forall2 (fun x a => forall r, prints (f x) (enc x a ++ r) a r) xs out ->
  prints (for_each xs f) (concat (zip_with enc xs out) ++ rest) out rest.
Proof.
  revert out. induction xs as [|x xs IH]; intros out Hf; inversion Hf; subst; cbn.
  - apply prints_ret.
  - rewrite <- app_assoc. eapply prints_bind; [done|].
    eapply prints_bind; [by apply IH|]. apply prints_ret.
Qed.

(** A decoder run on a payload of its own. *)
Lemma run_local_prints {S A} (p : D A) payload label coordinate a (s : S) :
  prints p payload a [] -> zlen payload <= u64_max ->
  run (with_local (cursor_new payload label coordinate) p) s = (Ok a, s).
Proof.
  intros Hp Hb. destruct (Hp (cursor_new payload label coordinate)) as (c' & Hrun & _).
  - split; [apply cursor_new_wf|done].
  - done.
  - unfold run, with_local in *. destruct (p _ tt) as [[r c] []]. cbn in *. congruence.
Qed.

End prints.

(** [parse_step] applies the rule of the head read; the hypotheses it
    introduces are the shape of the input so far. *)
Ltac parse_step :=
  match goal with
  | |- parses (bind _ _) _ _ => apply parses_bind
  | |- parses (ret _) _ _ => apply parses_ret
  | |- parses (throw _) _ _ => apply parses_throw
  | |- parses (fail_if _ _) _ _ => apply parses_fail_if; intro
  | |- parses (lift_result _) _ _ => apply parses_result; intros ? ?
  | |- parses (lift_option _ _) _ _ => apply parses_option; intros ? ?
  | |- parses u8 _ _ => apply parses_u8; intros ? ? ? ->
  | |- parses u16_le _ _ => apply parses_u16; intros ? ? ? ->
  | |- parses u32_le _ _ => apply parses_u32; intros ? ? ? ->
  | |- parses u64_le _ _ => apply parses_u64; intros ? ? ? ->
  | |- parses i64_le _ _ => apply parses_i64; intros ? ? ? ->
  | |- parses (bounded_utf8_guarded _ _) _ _ => apply parses_utf8; intros ? ? ? ? ? ->
  | |- parses cursor_finish _ _ => apply parses_finish; intros ->
  | |- parses (try_reserve_vec_exact _ _ _ _ _) _ _ => apply parses_reserve
  | |- parses (try_copy_bytes _ _) _ _ => apply parses_copy_bytes
  | |- parses (try_copy_string _ _) _ _ => apply parses_copy_string; intro
  end.

(** [print_step] reads the next field of an encoding that is associated to the
    right. *)
Ltac print_step :=
  match goal with
  | |- prints (bind (ret _) _) _ _ _ => eapply prints_bind; [apply prints_ret|]
  | |- prints (ret _) _ _ _ => apply prints_ret
  | |- prints (bind (fail_if _ _) _) _ _ _ => eapply prints_bind; [apply prints_fail_if|]
  | |- prints (bind (lift_result _) _) _ _ _ => eapply prints_bind; [apply prints_result|]
  | |- prints (bind (lift_option _ _) _) _ _ _ => eapply prints_bind; [apply prints_option|]
  | |- prints (bind u8 _) _ _ _ => eapply prints_bind; [apply prints_u8|]
  | |- prints (bind u16_le _) _ _ _ => eapply prints_bind; [apply prints_u16|]
  | |- prints (bind u32_le _) _ _ _ => eapply prints_bind; [apply prints_u32|]
  | |- prints (bind u64_le _) _ _ _ => eapply prints_bind; [apply prints_u64|]
  | |- prints (bind i64_le _) _ _ _ => eapply prints_bind; [apply prints_i64|]
  | |- prints (bind (bounded_utf8_guarded _ _) _) _ _ _ =>
      eapply prints_bind; [apply prints_utf8|]
  | |- prints (bind cursor_finish _) _ _ _ => eapply prints_bind; [apply prints_finish|]
  | |- prints (bind (try_reserve_vec_exact _ _ _ _ _) _) _ _ _ =>
      eapply prints_bind; [apply prints_reserve|]
  | |- prints (bind (try_copy_bytes _ _) _) _ _ _ => eapply prints_bind; [apply prints_copy_bytes|]
  | |- prints (bind (try_copy_string _ _) _) _ _ _ =>
      eapply prints_bind; [apply prints_copy_string|]
  end.

(** ** Codecs

    What a payload decoder promises the cursor that calls it: it accepts
    exactly the encodings of well-formed values, in every world, and never for
    another value. *)
Class Codec {A} (p : forall W, WorkGuard W -> Allocator W -> Prog W ProviderError PayloadCursor A)
    (enc : A -> bytes) (ok : A -> Prop) : Prop := {
  codec_parses W (G : WorkGuard W) (H : Allocator W) rest :
    parses (p W G H) rest (fun a rest' => rest' = [] /\ ok a /\ rest = enc a);
  codec_prints a : ok a -> prints (p unit allow_all_guard allow_all_heap) (enc a) a []
}.

Section codec.
Context {A : Type} {p : forall W, WorkGuard W -> Allocator W -> Prog W ProviderError PayloadCursor A}
  {enc : A -> bytes} {ok : A -> Prop} (C : Codec p enc ok).

(** What a caller learns when the decoder accepts, whatever the world. *)
Lemma wp_codec {W} (G : WorkGuard W) (H : Allocator W) {S} payload label coordinate
    (Q : A -> S -> Prop) (R : ProviderError -> S -> Prop) s :
  (forall a, ok a -> payload = enc a -> Q a s) -> (forall e, R e s) ->
  wp (with_local (cursor_new payload label coordinate) (p W G H)) Q R s.
Proof.
  intros HQ HR. apply wp_local.
  eapply wp_mono; [apply (codec_parses (Codec := C) W G H payload); [apply cursor_new_wf|done]| |auto].
  intros a c' (_ & _ & Hok & Hp). auto.
Qed.

(** The decoder as a partial inverse of the encoder. *)
Lemma run_codec {S} payload label coordinate a (s : S) :
  zlen payload <= u64_max ->
  run (with_local (cursor_new payload label coordinate)
         (p unit allow_all_guard allow_all_heap)) s = (Ok a, s)
  <-> ok a /\ payload = enc a.
Proof.
  intros Hb. split.
  - intros Hr. unfold run in Hr.
    destruct (with_local _ _ s tt) as [[r s'] []] eqn:Hrun. cbn in Hr. injection Hr as -> ->.
    eapply (wp_run_ok _ (fun a _ => ok a /\ payload = enc a) (fun _ _ => True)); [|exact Hrun].
    by apply wp_codec.
  - intros [Ha ->]. apply run_local_prints; [by apply (codec_prints (Codec := C))|done].
Qed.

End codec.
