(* ===== verification/QtrbEvents.v ===== *)
(** * Payload decoders shared with Flight records

    Models the functions of [qtrace-provider/src/qtrb/events.rs]: the decoders
    of QTRB records that travel inside Flight records.  [Flight] wraps a whole
    QTRB record (header included), so each decoder first opens the envelope with
    [nested]. *)

From stdpp Require Import prelude list strings pretty.
From Stdlib Require Import ZArith Lia Strings.Byte.
From S2P Require Import Prelude Prog Control Model Source QtrbWire QtrbPayload.
Local Open Scope string_scope.
Local Open Scope list_scope.
Local Open Scope Z_scope.

Definition invalid_payload (c : SourceCoordinate) (detail : string) : ProviderError :=
  ProviderError_new "source.invalid_payload" "qtrb.shared_payload" (Some c) false detail.

Record DecodedInstruction := mkDecodedInstruction {
  dec_local_sequence : Z;
  dec_instruction : Instruction
}.

(** [value.count_ones()] of a [u64]. *)
Definition count_ones (mask : Z) : Z := zlen (List.filter (fun i => Z.testbit mask i) (seqZ 0 64)).

(** The slots a [for slot in 0..MAX_GPR_COUNT] loop does not [continue] past. *)
Definition mask_slots (mask : Z) : list Z :=
  List.filter (fun slot => negb (Z.land mask (Z.shiftl 1 slot) =? 0)) (seqZ 0 MAX_GPR_COUNT).

Definition decode_direction (value : Z) (c : SourceCoordinate) : result ProviderError MemoryDirection :=
  match value with
  | 1 => Ok Read
  | 2 => Ok Write
  | 3 => Ok ReadWrite
  | _ => Err (invalid_payload c "invalid memory access direction")
  end.

(** [match extend { .. }] and its siblings, shared by both decoders. *)
Definition typed_extend (v : Z) : RegisterExtend :=
  match v with 0 => ExtNone | 1 => Uxtw | 2 => Sxtw | 3 => Lsl | _ => Sxtx end.
Definition typed_mode (v : Z) : MemoryAddressMode :=
  match v with 0 => Offset | 1 => PreIndex | _ => PostIndex end.
Definition typed_pc_kind (v : Z) : PcRelativeKind :=
  match v with 0 => PcNone | 1 => PcInstruction | _ => PcPage end.

(** [(base != u8::MAX).then_some(base)] *)
Definition optional_register (v : Z) : option Z := if v =? u8_max then None else Some v.

(** The operand checks both decoders make before they accept one. *)
Definition operand_rejected (base index extend mode kind writeback : Z) : bool :=
  ((MAX_GPR_COUNT <=? base) && negb (base =? u8_max))
  || ((MAX_GPR_COUNT <=? index) && negb (index =? u8_max))
  || (extend >? 4) || (mode >? 2)
  || negb ((1 <=? kind) && (kind <=? 3))
  || (writeback >? 1).

(** [flags & !VALID != 0 || pc_kind > 2 || ..] *)
Definition definition_rejected (flags pc_kind slow_memory_path memory_count read_mask write_mask : Z) :
    bool :=
  negb (Z.ldiff flags VALID_INSTRUCTION_FLAGS =? 0)
  || (pc_kind >? 2) || (slow_memory_path >? 1)
  || (memory_count >? MAX_MEMORY_OPERAND_COUNT)
  || negb (Z.shiftr read_mask MAX_GPR_COUNT =? 0)
  || negb (Z.shiftr write_mask MAX_GPR_COUNT =? 0).

Section events.
Context {W : Type} `{WorkGuard W} `{Allocator W}.

Abbreviation D := (Prog W ProviderError PayloadCursor).

Definition shared_registers (mask : Z) (field : string) (c : SourceCoordinate) :
    D (list RegisterDefinition) :=
  try_reserve_vec_exact T_RegisterDefinition 0 0 (count_ones mask)
    "Flight register definition allocation failed" ;!
  for_each (mask_slots mask) (fun slot =>
    let! captured_width := u8 in
    let! name := bounded_utf8_guarded MAX_REGISTER_NAME_BYTES field in
    fail_if ((captured_width =? 0) || (captured_width >? 16) || (zlen name =? 0))
      (invalid_payload c "invalid register definition") ;!
    ret (mkRegisterDefinition slot captured_width name)).

Definition shared_memory_state (field : string) (c : SourceCoordinate) : D CaptureBytes :=
  let! state := u8 in
  let! count := u8 in
  fail_if (count >? MAX_CAPTURED_MEMORY_BYTES)
    (invalid_payload c "memory capture exceeds maximum") ;!
  let! bs := cursor_take count in
  match state, count with
  | 0, 0 => ret NotCaptured
  | 1, _ =>
      let! bs := try_copy_bytes bs "Flight memory capture allocation failed" in
      ret (CapturedBytes bs)
  | 2, 0 => ret Unavailable
  | _, _ => throw (invalid_payload c ("invalid " +:+ field +:+ " state"))
  end.

(** One turn of the memory-operand loop of
    [decode_instruction_definition_payload]. *)
Definition shared_memory_operand (c : SourceCoordinate) : D MemoryOperand :=
  let! base := u8 in
  let! index := u8 in
  let! extend := u8 in
  let! mode := u8 in
  let! shift := u8 in
  let! direction := u8 in
  let! writeback := u8 in
  let! size := u32_le in
  let! displacement := i64_le in
  fail_if (operand_rejected base index extend mode direction writeback)
    (invalid_payload c "invalid instruction memory operand") ;!
  let! dir := lift_result (decode_direction direction c) in
  ret (mkMemoryOperand (optional_register base) (optional_register index)
         (typed_extend extend) (typed_mode mode) shift dir (writeback =? 1) size displacement).

(** The payload after the definition's fixed fields. *)
Definition decode_instruction_definition_payload_body (c : SourceCoordinate) :
    D InstructionDefinition :=
  let! definition_id := u32_le in
  let! opcode := u32_le in
  let! read_mask := u64_le in
  let! write_mask := u64_le in
  let! pc_displacement := i64_le in
  let! flags := u32_le in
  let! pc_kind := u8 in
  let! condition := u8 in
  let! memory_count := u8 in
  let! slow_memory_path := u8 in
  fail_if ((definition_id =? 0)
           || definition_rejected flags pc_kind slow_memory_path memory_count read_mask write_mask)
    (invalid_payload c "invalid instruction definition metadata") ;!
  let! mnemonic := bounded_utf8_guarded MAX_MNEMONIC_BYTES "mnemonic" in
  let! operands := bounded_utf8_guarded MAX_OPERANDS_BYTES "operands" in
  let! disassembly := bounded_utf8_guarded MAX_DISASSEMBLY_BYTES "disassembly" in
  let! reads := shared_registers read_mask "read register" c in
  let! writes := shared_registers write_mask "write register" c in
  try_reserve_vec_exact T_MemoryOperand 0 0 memory_count
    "Flight memory operand allocation failed" ;!
  let! memory_operands :=
    for_each (seqZ 0 memory_count) (fun _ => shared_memory_operand c) in
  cursor_finish ;!
  ret (mkInstructionDefinition definition_id opcode read_mask write_mask pc_displacement flags
         (typed_pc_kind pc_kind) condition (slow_memory_path =? 1) mnemonic operands disassembly
         reads writes memory_operands).

(** [for register in &definition.reads { .. value: cursor.u64_le()? }] *)
Definition shared_observation (detail : string) (r : RegisterDefinition) : D RegisterObservation :=
  let! name := try_copy_string (rd_name r) detail in
  let! value := u64_le in
  ret (mkRegisterObservation (rd_slot r) (rd_captured_width r) name value).

Definition decode_instruction_payload_body (definition : InstructionDefinition)
    (expected_module_id : option Z) (c : SourceCoordinate) : D DecodedInstruction :=
  let! local_sequence := u64_le in
  let! module_id := u32_le in
  let! relative_pc := u64_le in
  let! definition_id := u32_le in
  let! read_count := u8 in
  let! write_count := u8 in
  fail_if (from_option (fun expected => negb (module_id =? expected)) false expected_module_id
           || negb (definition_id =? id_definition_id definition)
           || negb (read_count =? zlen (id_reads definition))
           || negb (write_count =? zlen (id_writes definition)))
    (invalid_payload c "instruction register counts or dictionary references are invalid") ;!
  try_reserve_vec_exact T_RegisterObservation 0 0 read_count
    "Flight instruction read allocation failed" ;!
  let! read_before := for_each (id_reads definition)
    (shared_observation "Flight instruction read name allocation failed") in
  try_reserve_vec_exact T_RegisterObservation 0 0 write_count
    "Flight instruction write allocation failed" ;!
  let! write_after := for_each (id_writes definition)
    (shared_observation "Flight instruction write name allocation failed") in
  cursor_finish ;!
  ret (mkDecodedInstruction local_sequence
         (mkInstruction definition_id module_id relative_pc read_before write_after)).

Definition decode_memory_payload_body (expected_module_id : option Z) (c : SourceCoordinate) :
    D Memory :=
  let! module_id := u32_le in
  let! relative_pc := u64_le in
  let! direction := u8 in
  let! direction := lift_result (decode_direction direction c) in
  let! metadata_available := u8 in
  let! flags := u16_le in
  let! address := u64_le in
  let! size := u32_le in
  let! value := u64_le in
  fail_if (from_option (fun expected => negb (module_id =? expected)) false expected_module_id
           || (metadata_available >? 1))
    (invalid_payload c "invalid memory metadata") ;!
  let! before := shared_memory_state "before memory" c in
  let! after := shared_memory_state "after memory" c in
  cursor_finish ;!
  ret (mkMemory module_id relative_pc address size direction (metadata_available =? 1) flags value
         before after).

Section receiver.
Context {S : Type}.
Abbreviation M := (Prog W ProviderError S).

(** [nested]: open the QTRB envelope of a Flight payload. *)
Definition nested (payload : bytes) (expected_kind : Z) (c : SourceCoordinate) : M bytes :=
  with_local (cursor_new payload "nested QTRB record" c)
    (let! kind := u16_le in
     let! flags := u16_le in
     let! size := u32_le in
     let! size := lift_option (try_from usize_max size)
                    (invalid_payload c "nested QTRB payload size does not fit host") in
     fail_if (negb (kind =? expected_kind) || negb (flags =? 0)
              || negb (size =? saturating_sub (zlen payload) 8))
       (invalid_payload c "invalid nested QTRB record") ;!
     cursor_take size).

Definition decode_instruction_definition_payload (payload : bytes) (c : SourceCoordinate) :
    M InstructionDefinition :=
  with_local (cursor_new payload "INSTRUCTION_DEF" c)
    (decode_instruction_definition_payload_body c).

Definition decode_instruction_definition_record (payload : bytes) (c : SourceCoordinate) :
    M InstructionDefinition :=
  let! inner := nested payload 3 c in
  decode_instruction_definition_payload inner c.

Definition decode_instruction_payload (payload : bytes) (definition : InstructionDefinition)
    (expected_module_id : option Z) (c : SourceCoordinate) : M DecodedInstruction :=
  with_local (cursor_new payload "INSTRUCTION" c)
    (decode_instruction_payload_body definition expected_module_id c).

Definition decode_instruction_record (payload : bytes) (definition : InstructionDefinition)
    (c : SourceCoordinate) : M DecodedInstruction :=
  let! inner := nested payload 4 c in
  decode_instruction_payload inner definition (Some 1) c.

Definition decode_memory_payload_for_module (payload : bytes) (expected_module_id : option Z)
    (c : SourceCoordinate) : M Memory :=
  with_local (cursor_new payload "MEMORY" c) (decode_memory_payload_body expected_module_id c).

Definition decode_memory_record (payload : bytes) (c : SourceCoordinate) : M Memory :=
  let! inner := nested payload 5 c in
  decode_memory_payload_for_module inner (Some 1) c.

End receiver.
End events.
