(* ===== verification/Qtrb.v ===== *)
(** * The QTRB stream provider

    Models [qtrace-provider/src/qtrb/mod.rs]: opening a stream, the record
    framing, the per-record decoders, fragment reassembly, the lifecycle checks
    and the event cursor that drives them.  [QtrbEventCursor] is the mutable
    receiver of every program; the work guard and the heap are its world. *)

From stdpp Require Import prelude list strings pretty gmap.
From Stdlib Require Import ZArith Lia Strings.Byte.
From S2P Require Import Prelude Prog Control Model Source QtrbWire QtrbPayload QtrbEvents.
Local Open Scope string_scope.
Local Open Scope list_scope.
Local Open Scope Z_scope.

Definition TIMELINE_ID : TimelineId := 0.

Inductive OpenMode := Sealed | RecoverablePartial.
#[global] Instance OpenMode_eq_dec : EqDecision OpenMode.
Proof. solve_decision. Defined.

Record StreamHeader := mkStreamHeader {
  sh_minor : Z;
  sh_profile : Z;
  sh_required_features : Z
}.

Record ModuleWire := mkModuleWire { mw_base : Z; mw_name : bytes }.
#[global] Instance ModuleWire_eq_dec : EqDecision ModuleWire.
Proof. solve_decision. Defined.

Record RegisterWire := mkRegisterWire { rw_slot : Z; rw_width : Z; rw_name : bytes }.
#[global] Instance RegisterWire_eq_dec : EqDecision RegisterWire.
Proof. solve_decision. Defined.

Record MemoryOperandWire := mkMemoryOperandWire {
  mow_base : Z;
  mow_index : Z;
  mow_extend : Z;
  mow_mode : Z;
  mow_shift : Z;
  mow_kind : Z;
  mow_writeback : Z;
  mow_size : Z;
  mow_displacement : Z
}.
#[global] Instance MemoryOperandWire_eq_dec : EqDecision MemoryOperandWire.
Proof. solve_decision. Defined.

Record InstructionDefinitionWire := mkDefinitionWire {
  dw_opcode : Z;
  dw_read_mask : Z;
  dw_write_mask : Z;
  dw_displacement : Z;
  dw_flags : Z;
  dw_pc_kind : Z;
  dw_condition : Z;
  dw_slow_memory_path : Z;
  dw_mnemonic : bytes;
  dw_operands : bytes;
  dw_disassembly : bytes;
  dw_reads : list RegisterWire;
  dw_writes : list RegisterWire;
  dw_memory_operands : list MemoryOperandWire
}.
#[global] Instance InstructionDefinitionWire_eq_dec : EqDecision InstructionDefinitionWire.
Proof. solve_decision. Defined.

Inductive FragmentKind := FCall | FRule | FError.
#[global] Instance FragmentKind_eq_dec : EqDecision FragmentKind.
Proof. solve_decision. Defined.

Record PendingFragment := mkPending {
  pf_kind : FragmentKind;
  pf_event_id : Z;
  pf_total_detail_bytes : Z;
  pf_chunk_count : Z;
  pf_next_index : Z;
  pf_category : option bytes;
  pf_name : bytes;
  pf_detail : bytes;
  pf_first_offset : Z;
  pf_first_ordinal : Z;
  pf_fragment_offsets : list Z
}.

Record PhysicalRecord := mkPhysicalRecord {
  pr_record_type : option RecordType;
  pr_raw_type : Z;
  pr_flags : Z;
  pr_payload : bytes;
  pr_offset : Z;
  pr_ordinal : Z
}.

Record TerminalDraft := mkDraft {
  dr_kind : TerminationKind;
  dr_reason : option bytes;
  dr_return_value : option Z;
  dr_elapsed_ms : Z
}.

Record QtrbProvider := mkProvider {
  qp_source : ReadAtSource;
  qp_identity : SourceIdentity;
  qp_capabilities : ProviderCapabilities;
  qp_timelines : list TimelineDescriptor;
  qp_mode : OpenMode;
  qp_header : StreamHeader
}.

Record QtrbEventCursor := mkCursor {
  q_source : ReadAtSource;
  q_identity : SourceIdentity;
  q_mode : OpenMode;
  q_header : StreamHeader;
  q_offset : Z;
  q_next_ordinal : Z;
  q_modules : gmap Z ModuleWire;
  q_definitions : gmap Z InstructionDefinitionWire;
  q_pending : option PendingFragment;
  q_began : bool;
  q_terminal_seen : bool;
  q_drained : bool;
  q_poisoned : bool;
  q_tid : option Z;
  q_next_sequence : Z;
  q_instruction_count : Z;
  q_effective_buffer_bytes : Z;
  q_termination : option Termination;
  q_completeness : list CompletenessRange;
  q_timelines : list TimelineDescriptor;
  q_counters : ProviderCounters
}.

(** ** Field assignments

    [self.field = v], one per field the code assigns. *)

Definition set_offset (v : Z) (q : QtrbEventCursor) : QtrbEventCursor :=
  mkCursor (q_source q) (q_identity q) (q_mode q) (q_header q) v (q_next_ordinal q) (q_modules q)
    (q_definitions q) (q_pending q) (q_began q) (q_terminal_seen q) (q_drained q) (q_poisoned q)
    (q_tid q) (q_next_sequence q) (q_instruction_count q) (q_effective_buffer_bytes q)
    (q_termination q) (q_completeness q) (q_timelines q) (q_counters q).

Definition set_next_ordinal (v : Z) (q : QtrbEventCursor) : QtrbEventCursor :=
  mkCursor (q_source q) (q_identity q) (q_mode q) (q_header q) (q_offset q) v (q_modules q)
    (q_definitions q) (q_pending q) (q_began q) (q_terminal_seen q) (q_drained q) (q_poisoned q)
    (q_tid q) (q_next_sequence q) (q_instruction_count q) (q_effective_buffer_bytes q)
    (q_termination q) (q_completeness q) (q_timelines q) (q_counters q).

Definition set_modules (v : gmap Z ModuleWire) (q : QtrbEventCursor) : QtrbEventCursor :=
  mkCursor (q_source q) (q_identity q) (q_mode q) (q_header q) (q_offset q) (q_next_ordinal q) v
    (q_definitions q) (q_pending q) (q_began q) (q_terminal_seen q) (q_drained q) (q_poisoned q)
    (q_tid q) (q_next_sequence q) (q_instruction_count q) (q_effective_buffer_bytes q)
    (q_termination q) (q_completeness q) (q_timelines q) (q_counters q).

Definition set_definitions (v : gmap Z InstructionDefinitionWire) (q : QtrbEventCursor) :
    QtrbEventCursor :=
  mkCursor (q_source q) (q_identity q) (q_mode q) (q_header q) (q_offset q) (q_next_ordinal q)
    (q_modules q) v (q_pending q) (q_began q) (q_terminal_seen q) (q_drained q) (q_poisoned q)
    (q_tid q) (q_next_sequence q) (q_instruction_count q) (q_effective_buffer_bytes q)
    (q_termination q) (q_completeness q) (q_timelines q) (q_counters q).

Definition set_pending (v : option PendingFragment) (q : QtrbEventCursor) : QtrbEventCursor :=
  mkCursor (q_source q) (q_identity q) (q_mode q) (q_header q) (q_offset q) (q_next_ordinal q)
    (q_modules q) (q_definitions q) v (q_began q) (q_terminal_seen q) (q_drained q) (q_poisoned q)
    (q_tid q) (q_next_sequence q) (q_instruction_count q) (q_effective_buffer_bytes q)
    (q_termination q) (q_completeness q) (q_timelines q) (q_counters q).

(** [self.began = true; self.tid = Some(tid); self.effective_buffer_bytes = n] *)
Definition set_began (tid n : Z) (q : QtrbEventCursor) : QtrbEventCursor :=
  mkCursor (q_source q) (q_identity q) (q_mode q) (q_header q) (q_offset q) (q_next_ordinal q)
    (q_modules q) (q_definitions q) (q_pending q) true (q_terminal_seen q) (q_drained q)
    (q_poisoned q) (Some tid) (q_next_sequence q) (q_instruction_count q) n
    (q_termination q) (q_completeness q) (q_timelines q) (q_counters q).

(** [self.termination = Some(t); self.terminal_seen = true] *)
Definition set_terminal (t : Termination) (q : QtrbEventCursor) : QtrbEventCursor :=
  mkCursor (q_source q) (q_identity q) (q_mode q) (q_header q) (q_offset q) (q_next_ordinal q)
    (q_modules q) (q_definitions q) (q_pending q) (q_began q) true (q_drained q) (q_poisoned q)
    (q_tid q) (q_next_sequence q) (q_instruction_count q) (q_effective_buffer_bytes q)
    (Some t) (q_completeness q) (q_timelines q) (q_counters q).

Definition set_drained (q : QtrbEventCursor) : QtrbEventCursor :=
  mkCursor (q_source q) (q_identity q) (q_mode q) (q_header q) (q_offset q) (q_next_ordinal q)
    (q_modules q) (q_definitions q) (q_pending q) (q_began q) (q_terminal_seen q) true
    (q_poisoned q) (q_tid q) (q_next_sequence q) (q_instruction_count q)
    (q_effective_buffer_bytes q) (q_termination q) (q_completeness q) (q_timelines q)
    (q_counters q).

Definition set_poisoned (q : QtrbEventCursor) : QtrbEventCursor :=
  mkCursor (q_source q) (q_identity q) (q_mode q) (q_header q) (q_offset q) (q_next_ordinal q)
    (q_modules q) (q_definitions q) (q_pending q) (q_began q) (q_terminal_seen q) (q_drained q)
    true (q_tid q) (q_next_sequence q) (q_instruction_count q)
    (q_effective_buffer_bytes q) (q_termination q) (q_completeness q) (q_timelines q)
    (q_counters q).

Definition set_next_sequence (v : Z) (q : QtrbEventCursor) : QtrbEventCursor :=
  mkCursor (q_source q) (q_identity q) (q_mode q) (q_header q) (q_offset q) (q_next_ordinal q)
    (q_modules q) (q_definitions q) (q_pending q) (q_began q) (q_terminal_seen q) (q_drained q)
    (q_poisoned q) (q_tid q) v (q_instruction_count q) (q_effective_buffer_bytes q)
    (q_termination q) (q_completeness q) (q_timelines q) (q_counters q).

Definition set_instruction_count (v : Z) (q : QtrbEventCursor) : QtrbEventCursor :=
  mkCursor (q_source q) (q_identity q) (q_mode q) (q_header q) (q_offset q) (q_next_ordinal q)
    (q_modules q) (q_definitions q) (q_pending q) (q_began q) (q_terminal_seen q) (q_drained q)
    (q_poisoned q) (q_tid q) (q_next_sequence q) v (q_effective_buffer_bytes q)
    (q_termination q) (q_completeness q) (q_timelines q) (q_counters q).

Definition set_completeness (v : list CompletenessRange) (q : QtrbEventCursor) : QtrbEventCursor :=
  mkCursor (q_source q) (q_identity q) (q_mode q) (q_header q) (q_offset q) (q_next_ordinal q)
    (q_modules q) (q_definitions q) (q_pending q) (q_began q) (q_terminal_seen q) (q_drained q)
    (q_poisoned q) (q_tid q) (q_next_sequence q) (q_instruction_count q)
    (q_effective_buffer_bytes q) (q_termination q) v (q_timelines q) (q_counters q).

Definition set_counters (v : ProviderCounters) (q : QtrbEventCursor) : QtrbEventCursor :=
  mkCursor (q_source q) (q_identity q) (q_mode q) (q_header q) (q_offset q) (q_next_ordinal q)
    (q_modules q) (q_definitions q) (q_pending q) (q_began q) (q_terminal_seen q) (q_drained q)
    (q_poisoned q) (q_tid q) (q_next_sequence q) (q_instruction_count q)
    (q_effective_buffer_bytes q) (q_termination q) (q_completeness q) (q_timelines q) v.

(** ** Errors *)

Definition coordinate (r : PhysicalRecord) : SourceCoordinate :=
  mkCoordinate (pr_offset r) (Some (pr_ordinal r)).

Definition provider_allocation_error (detail : string) : ProviderError :=
  ProviderError_new "control.resource_exhausted" "qtrb.allocation" None false detail.

Definition with_coordinate (e : ProviderError) (offset : Z) (ordinal : option Z) (stage : string) :
    ProviderError :=
  ProviderError_new (pe_code e) stage (Some (mkCoordinate offset ordinal)) (pe_retryable e)
    (error_detail e).

Definition header_error (detail : string) : ProviderError :=
  ProviderError_new "source.invalid_header" "qtrb.header" (Some (mkCoordinate 0 None)) false detail.

Definition version_error (detail : string) : ProviderError :=
  ProviderError_new "source.version_unsupported" "qtrb.header" (Some (mkCoordinate 0 None)) false
    detail.

Definition record_error (r : PhysicalRecord) (code stage detail : string) : ProviderError :=
  ProviderError_new code stage (Some (coordinate r)) false detail.

Definition invalid_terminal (r : PhysicalRecord) (detail : string) : ProviderError :=
  record_error r "source.invalid_terminal" "qtrb.lifecycle" detail.

Definition error_at_current (q : QtrbEventCursor) (code stage detail : string) : ProviderError :=
  ProviderError_new code stage (Some (mkCoordinate (q_offset q) (Some (q_next_ordinal q)))) false
    detail.

Definition record_overflow_error (offset ordinal : Z) : ProviderError :=
  ProviderError_new "source.coordinate_overflow" "qtrb.framing"
    (Some (mkCoordinate offset (Some ordinal))) false "QTRB source coordinate overflow".

(** [{:#x}] of a [u16]. *)
Definition hex_digit (d : Z) : string :=
  match d with
  | 0 => "0" | 1 => "1" | 2 => "2" | 3 => "3" | 4 => "4" | 5 => "5" | 6 => "6" | 7 => "7"
  | 8 => "8" | 9 => "9" | 10 => "a" | 11 => "b" | 12 => "c" | 13 => "d" | 14 => "e" | _ => "f"
  end.
Fixpoint hex_digits (fuel : nat) (v : Z) : string :=
  match fuel with
  | O => ""
  | S fuel => if v <? 16 then hex_digit v else hex_digits fuel (v / 16) +:+ hex_digit (v mod 16)
  end.
Definition hex (v : Z) : string := "0x" +:+ hex_digits 4 v.

(** ** Pure pieces *)

Definition record_node_upper_bound (t : option RecordType) (flags : Z) (may_start : bool) : Z :=
  match t, flags, may_start with
  | Some (TModuleDefinition | TInstructionDefinition), 0, _ => 1
  | Some (TCall | TRule | TError), 1, true => 1
  | _, _, _ => 0
  end.

Definition typed_memory_operand (o : MemoryOperandWire) : MemoryOperand :=
  mkMemoryOperand (optional_register (mow_base o)) (optional_register (mow_index o))
    (typed_extend (mow_extend o)) (typed_mode (mow_mode o)) (mow_shift o)
    (match mow_kind o with 1 => Read | 2 => Write | _ => ReadWrite end)
    (mow_writeback o =? 1) (mow_size o) (mow_displacement o).

(** [self.event(record, sequence, payload)] *)
Definition event (q : QtrbEventCursor) (r : PhysicalRecord) (sequence : option Z)
    (payload : EventPayload) : EventRecord :=
  event_record_new
    (mkEventKey (si_artifact (q_identity q)) TIMELINE_ID (pr_ordinal r) (pr_offset r) sequence
       (q_tid q))
    Captured payload.

Definition semantic_event (q : QtrbEventCursor) (r : PhysicalRecord) (kind : FragmentKind)
    (category : option bytes) (name detail : bytes) : EventRecord :=
  let semantic := mkSemanticEvent category name detail [] in
  event q r None
    (match kind with
     | FCall => SemanticCall semantic
     | FRule => SemanticRule semantic
     | FError => SemanticError semantic
     end).

Definition typed_profile (v : Z) : TraceProfile :=
  match v with 0 => Fast | 1 => Balanced | _ => Full end.

Definition fragment_record_type (k : FragmentKind) : RecordType :=
  match k with FCall => TCall | FRule => TRule | FError => TError end.

Definition is_call (k : FragmentKind) : bool := bool_decide (k = FCall).

(** The fragment checks that depend on the record alone. *)
Definition fragment_rejected (kind : FragmentKind) (event_id total_detail_bytes chunk_index
    chunk_count : Z) (detail : bytes) : bool :=
  let logical_maximum :=
    if is_call kind then MAX_LOGICAL_CALL_DETAIL_BYTES else MAX_EVENT_DETAIL_BYTES in
  (event_id =? 0) || (chunk_count <? 2) || (chunk_count <=? chunk_index)
  || (total_detail_bytes >? logical_maximum) || (zlen detail =? 0)
  || (total_detail_bytes <=? zlen detail) || (total_detail_bytes <? chunk_count).

Definition stop_reason (v : Z) : bytes :=
  String.list_byte_of_string
    (match v with
     | 1 => "duration_elapsed" | 2 => "thread_exit" | 3 => "process_exit" | _ => "exec_boundary"
     end).

Section qtrb.
Context {W : Type} `{WorkGuard W} `{Allocator W}.

Abbreviation D := (Prog W ProviderError PayloadCursor).
Abbreviation QM := (Prog W ProviderError QtrbEventCursor).

(** ** Helpers on a payload cursor *)

Definition decode_registers (mask : Z) (field : string) (c : SourceCoordinate) :
    D (list RegisterWire) :=
  try_reserve_vec_exact T_RegisterWire 0 0 (count_ones mask)
    "QTRB register definition allocation failed" ;!
  for_each (mask_slots mask) (fun slot =>
    let! width := u8 in
    let! name := bounded_utf8_guarded MAX_REGISTER_NAME_BYTES field in
    fail_if ((width =? 0) || (width >? 16) || (zlen name =? 0))
      (ProviderError_new "source.invalid_payload" "qtrb.instruction_definition" (Some c) false
         ("invalid " +:+ field +:+ " definition")) ;!
    ret (mkRegisterWire slot width name)).

Definition decode_bounded_raw (maximum : Z) (field : string) (c : SourceCoordinate) : D bytes :=
  let! size := u16_le in
  fail_if (size >? maximum)
    (ProviderError_new "source.invalid_payload" "qtrb.payload" (Some c) false
       (field +:+ " exceeds " +:+ pretty maximum +:+ " bytes")) ;!
  let! raw := cursor_take size in
  try_copy_bytes raw "QTRB raw field allocation failed".

Definition decode_memory_state (field : string) (c : SourceCoordinate) : D CaptureBytes :=
  let! state := u8 in
  let! count := u8 in
  fail_if (count >? MAX_CAPTURED_MEMORY_BYTES)
    (ProviderError_new "source.invalid_payload" "qtrb.memory" (Some c) false
       (field +:+ " exceeds capture maximum")) ;!
  let! bs := cursor_take count in
  fail_if (negb (((state =? 0) && (count =? 0)) || (state =? 1) || ((state =? 2) && (count =? 0))))
    (ProviderError_new "source.invalid_payload" "qtrb.memory" (Some c) false
       ("invalid " +:+ field +:+ " state")) ;!
  match state with
  | 0 => ret NotCaptured
  | 1 =>
      let! bs := try_copy_bytes bs "QTRB memory capture allocation failed" in
      ret (CapturedBytes bs)
  | _ => ret Unavailable
  end.

Definition decode_metrics : D (list Z) := for_each (seqZ 0 10) (fun _ => u64_le).

Definition observation (detail : string) (r : RegisterWire) : D RegisterObservation :=
  let! name := try_copy_string (rw_name r) detail in
  let! value := u64_le in
  ret (mkRegisterObservation (rw_slot r) (rw_width r) name value).

Definition memory_operand_wire (r : PhysicalRecord) : D MemoryOperandWire :=
  let! base := u8 in
  let! index := u8 in
  let! extend := u8 in
  let! mode := u8 in
  let! shift := u8 in
  let! kind := u8 in
  let! writeback := u8 in
  let! size := u32_le in
  let! displacement := i64_le in
  fail_if (operand_rejected base index extend mode kind writeback)
    (record_error r "source.invalid_payload" "qtrb.instruction_definition"
       "invalid instruction memory operand") ;!
  ret (mkMemoryOperandWire base index extend mode shift kind writeback size displacement).

Section receiver.
Context {S : Type}.
Abbreviation M := (Prog W ProviderError S).

Definition typed_register (r : RegisterWire) : M RegisterDefinition :=
  let! name := try_copy_string (rw_name r) "QTRB typed register name allocation failed" in
  ret (mkRegisterDefinition (rw_slot r) (rw_width r) name).

Definition typed_definition (definition_id : Z) (d : InstructionDefinitionWire) :
    M InstructionDefinition :=
  try_reserve_vec_exact T_RegisterDefinition 0 0 (zlen (dw_reads d))
    "QTRB typed read definition allocation failed" ;!
  let! reads := for_each (dw_reads d) typed_register in
  try_reserve_vec_exact T_RegisterDefinition 0 0 (zlen (dw_writes d))
    "QTRB typed write definition allocation failed" ;!
  let! writes := for_each (dw_writes d) typed_register in
  try_reserve_vec_exact T_MemoryOperand 0 0 (zlen (dw_memory_operands d))
    "QTRB typed memory operand allocation failed" ;!
  let memory_operands := map typed_memory_operand (dw_memory_operands d) in
  let! mnemonic := try_copy_string (dw_mnemonic d) "QTRB typed mnemonic allocation failed" in
  let! operands := try_copy_string (dw_operands d) "QTRB typed operands allocation failed" in
  let! disassembly :=
    try_copy_string (dw_disassembly d) "QTRB typed disassembly allocation failed" in
  ret (mkInstructionDefinition definition_id (dw_opcode d) (dw_read_mask d) (dw_write_mask d)
         (dw_displacement d) (dw_flags d) (typed_pc_kind (dw_pc_kind d)) (dw_condition d)
         (dw_slow_memory_path d =? 1) mnemonic operands disassembly reads writes memory_operands).

Definition clone_register_wire (r : RegisterWire) : M RegisterWire :=
  let! name := try_copy_string (rw_name r) "QTRB dictionary register name allocation failed" in
  ret (mkRegisterWire (rw_slot r) (rw_width r) name).

Definition clone_definition_wire (d : InstructionDefinitionWire) : M InstructionDefinitionWire :=
  try_reserve_vec_exact T_RegisterWire 0 0 (zlen (dw_reads d))
    "QTRB dictionary read definition allocation failed" ;!
  let! reads := for_each (dw_reads d) clone_register_wire in
  try_reserve_vec_exact T_RegisterWire 0 0 (zlen (dw_writes d))
    "QTRB dictionary write definition allocation failed" ;!
  let! writes := for_each (dw_writes d) clone_register_wire in
  try_reserve_vec_exact T_MemoryOperandWire 0 0 (zlen (dw_memory_operands d))
    "QTRB dictionary memory operand allocation failed" ;!
  let! mnemonic := try_copy_string (dw_mnemonic d) "QTRB dictionary mnemonic allocation failed" in
  let! operands := try_copy_string (dw_operands d) "QTRB dictionary operands allocation failed" in
  let! disassembly :=
    try_copy_string (dw_disassembly d) "QTRB dictionary disassembly allocation failed" in
  ret (mkDefinitionWire (dw_opcode d) (dw_read_mask d) (dw_write_mask d) (dw_displacement d)
         (dw_flags d) (dw_pc_kind d) (dw_condition d) (dw_slow_memory_path d) mnemonic operands
         disassembly reads writes (dw_memory_operands d)).

(** The fields [StreamHeader::parse] reads before it checks them. *)
Definition parse_header_fields : D (bytes * Z * Z * Z * Z * Z * Z * Z * Z) :=
  let! magic := cursor_take 4 in
  let! major := u8 in
  let! minor := u8 in
  let! endian := u8 in
  let! pointer_width := u8 in
  let! profile := u8 in
  let! reserved := u8 in
  let! header_bytes := u16_le in
  let! required_features := u32_le in
  cursor_finish ;!
  ret (magic, major, minor, endian, pointer_width, profile, reserved, header_bytes,
       required_features).

(** [StreamHeader::parse] *)
Definition header_parse (bs : bytes) : M StreamHeader :=
  let! fields := with_local (cursor_new bs "stream header" (mkCoordinate 0 None))
    parse_header_fields in
  let '(magic, major, minor, endian, pointer_width, profile, reserved, header_bytes,
        required_features) := fields in
  fail_if (negb (bool_decide (magic = MAGIC))) (header_error "invalid QTRB magic") ;!
  fail_if (negb (major =? MAJOR_VERSION)) (version_error "unsupported QTRB major version") ;!
  fail_if (negb (endian =? LITTLE_ENDIAN_MARKER))
    (header_error "QTRB stream is not little-endian") ;!
  fail_if (negb ((pointer_width =? 4) || (pointer_width =? 8)))
    (header_error "invalid QTRB pointer width") ;!
  fail_if (profile >? 2) (header_error "invalid QTRB trace profile") ;!
  fail_if (negb (reserved =? 0)) (header_error "nonzero QTRB header reserved byte") ;!
  fail_if (negb (header_bytes =? STREAM_HEADER_BYTES))
    (header_error "invalid QTRB stream header size") ;!
  fail_if (negb (((minor =? 0) && (required_features =? 0))
                 || ((minor =? 1) && (required_features =? 0))
                 || ((minor =? 2) && (required_features =? 1))))
    (version_error "unsupported QTRB minor/features matrix") ;!
  ret (mkStreamHeader minor profile required_features).

(** [QtrbProvider::open] *)
Definition provider_open (source : ReadAtSource) (identity : SourceIdentity) (mode : OpenMode) :
    M QtrbProvider :=
  let source_bytes := src_len source in
  consume (delta_input STREAM_HEADER_BYTES) ;!
  let! bs := lift_result (map_err (fun e => with_coordinate e 0 None "qtrb.header")
                            (src_read source 0 STREAM_HEADER_BYTES)) in
  let! header := header_parse bs in
  let identity := mkSourceIdentity (si_artifact identity) (si_format identity) MAJOR_VERSION
                    (sh_minor header) source_bytes in
  consume (delta_nodes 1) ;!
  try_reserve_vec_exact T_TimelineDescriptor 0 0 1 "QTRB timeline allocation failed" ;!
  let! label := try_copy_string (String.list_byte_of_string "QTRB")
                  "QTRB timeline label allocation failed" in
  ret (mkProvider source identity qtrb_register_observations
         [mkTimelineDescriptor TIMELINE_ID None (Some label)] mode header).

End receiver.

(** [QtrbProvider::into_cursor] *)
Definition into_cursor (p : QtrbProvider) : QtrbEventCursor :=
  mkCursor (qp_source p) (qp_identity p) (qp_mode p) (qp_header p) STREAM_HEADER_BYTES 0
    empty empty None false false false false None 1 0 0 None []
    (qp_timelines p)
    (mkCounters 0 0 0 0 STREAM_HEADER_BYTES STREAM_HEADER_BYTES).

(** ** Framing *)

(** [self.counters] after one more record of [payload_bytes] bytes. *)
Definition count_record (payload_bytes : Z) (c : ProviderCounters) : ProviderCounters :=
  mkCounters (saturating_add u64_max (pc_records_seen c) 1) (pc_events_emitted c)
    (pc_opaque_records c) (pc_damaged_records c)
    (saturating_add u64_max (pc_input_bytes c) (RECORD_HEADER_BYTES + payload_bytes))
    (saturating_add u64_max (pc_decompressed_bytes c) (RECORD_HEADER_BYTES + payload_bytes)).

Definition count_event (c : ProviderCounters) : ProviderCounters :=
  mkCounters (pc_records_seen c) (saturating_add u64_max (pc_events_emitted c) 1)
    (pc_opaque_records c) (pc_damaged_records c) (pc_input_bytes c) (pc_decompressed_bytes c).

Definition count_opaque (c : ProviderCounters) : ProviderCounters :=
  mkCounters (pc_records_seen c) (pc_events_emitted c)
    (saturating_add u64_max (pc_opaque_records c) 1) (pc_damaged_records c) (pc_input_bytes c)
    (pc_decompressed_bytes c).

(** The payload limit of a record header, or the framing error. *)
Definition framing_limit (header : StreamHeader) (coordinate : SourceCoordinate)
    (raw_type flags : Z) : result ProviderError Z :=
  match from_raw raw_type with
  | Some t =>
      ok_or (payload_limit t flags)
        (ProviderError_new "source.unsupported_record" "qtrb.framing" (Some coordinate) false
           ("unsupported flags " +:+ hex flags +:+ " for record type " +:+ pretty raw_type))
  | None =>
      if (OPTIONAL_RECORD_TYPE_MIN <=? raw_type) && (1 <=? sh_minor header) && (flags =? 0)
      then Ok MAX_OPAQUE_PAYLOAD_BYTES
      else Err (ProviderError_new "source.unsupported_record" "qtrb.framing" (Some coordinate) false
             ("unsupported required record type " +:+ pretty raw_type +:+ " or flags " +:+ hex flags))
  end.

(** The fields of a record header. *)
Definition parse_record_fields : D (Z * Z * Z) :=
  let! raw_type := u16_le in
  let! flags := u16_le in
  let! payload_bytes := u32_le in
  cursor_finish ;!
  ret (raw_type, flags, payload_bytes).

Definition parse_record_header (header : bytes) (coordinate : SourceCoordinate) : QM (Z * Z * Z) :=
  with_local (cursor_new header "record header" coordinate) parse_record_fields.

Definition read_record : QM PhysicalRecord :=
  let! q := get in
  let record_offset := q_offset q in
  let ordinal := q_next_ordinal q in
  let coordinate := mkCoordinate record_offset (Some ordinal) in
  consume (delta_input RECORD_HEADER_BYTES) ;!
  let! header := lift_result
    (map_err (fun e => with_coordinate e record_offset (Some ordinal) "qtrb.record")
       (src_read (q_source q) record_offset RECORD_HEADER_BYTES)) in
  let! payload_offset := lift_option (checked_add u64_max (q_offset q) RECORD_HEADER_BYTES)
                           (record_overflow_error record_offset ordinal) in
  modify (set_offset payload_offset) ;!
  let! fields := parse_record_header header coordinate in
  let '(raw_type, flags, payload_bytes) := fields in
  let record_type := from_raw raw_type in
  let! payload_limit := lift_result (framing_limit (q_header q) coordinate raw_type flags) in
  fail_if (payload_bytes >? payload_limit)
    (ProviderError_new "source.record_too_large" "qtrb.framing" (Some coordinate) false
       ("record type " +:+ pretty raw_type +:+ " payload " +:+ pretty payload_bytes
        +:+ " exceeds " +:+ pretty payload_limit +:+ " bytes")) ;!
  let! payload_len := lift_option (try_from usize_max payload_bytes)
    (ProviderError_new "source.record_too_large" "qtrb.framing" (Some coordinate) false
       "record payload cannot be represented on this host") in
  consume (mkWorkDelta payload_bytes payload_bytes 0
             (record_node_upper_bound record_type flags
                (match q_pending q with None => true | Some _ => false end)) 0 0) ;!
  try_reserve_vec_exact T_u8 0 0 payload_len "QTRB payload buffer allocation failed" ;!
  let! payload := lift_result
    (map_err (fun e => with_coordinate e record_offset (Some ordinal) "qtrb.payload")
       (src_read (q_source q) payload_offset payload_len)) in
  let! next_offset := lift_option (checked_add u64_max payload_offset payload_bytes)
                        (record_overflow_error record_offset ordinal) in
  modify (set_offset next_offset) ;!
  let! next_ordinal := lift_option (checked_add u64_max ordinal 1)
                         (record_overflow_error record_offset ordinal) in
  modify (set_next_ordinal next_ordinal) ;!
  modify (fun q => set_counters (count_record payload_bytes (q_counters q)) q) ;!
  ret (mkPhysicalRecord record_type raw_type flags payload record_offset ordinal).

(** ** Record decoders *)

(** The payload of [decode_begin]. *)
Definition parse_begin : D (Z * Z * BeginMetadata * Z) :=
  let! module_base := u64_le in
  let! target_offset := u64_le in
  let! target_address := u64_le in
  let! pid := u32_le in
  let! tid := u32_le in
  let! profile := u8 in
  let! compression := u8 in
  let! effective_buffer_bytes := u64_le in
  let! run_id := u64_le in
  let! scene := bounded_utf8_guarded MAX_CONTEXT_STRING_BYTES "scene" in
  let! target := bounded_utf8_guarded MAX_CONTEXT_STRING_BYTES "target" in
  cursor_finish ;!
  ret (profile, compression,
       mkBegin module_base target_offset target_address pid (Some tid) (typed_profile profile)
         (compression =? 1) effective_buffer_bytes run_id scene target 0 None None,
       tid).

Definition decode_begin (r : PhysicalRecord) : QM EventRecord :=
  let! q := get in
  fail_if (q_began q)
    (record_error r "source.invalid_order" "qtrb.lifecycle" "TRACE_BEGIN appears more than once") ;!
  let! fields := with_local (cursor_new (pr_payload r) "TRACE_BEGIN" (coordinate r))
    parse_begin in
  let '(profile, compression, metadata, tid) := fields in
  fail_if (negb (profile =? sh_profile (q_header q))
           || negb ((compression =? 0) || (compression =? 1)))
    (record_error r "source.invalid_payload" "qtrb.lifecycle"
       "TRACE_BEGIN profile or compression does not match the stream") ;!
  modify (set_began tid (bm_effective_buffer_bytes metadata)) ;!
  let! q := get in
  ret (event q r None (Begin metadata)).

(** The payload of [decode_module]. *)
Definition parse_module : D (Z * Z * bytes) :=
  let! module_id := u32_le in
  let! base := u64_le in
  let! name := bounded_utf8_guarded MAX_MODULE_NAME_BYTES "module name" in
  cursor_finish ;!
  ret (module_id, base, name).

Definition decode_module (r : PhysicalRecord) : QM EventRecord :=
  let! fields := with_local (cursor_new (pr_payload r) "MODULE_DEF" (coordinate r))
    parse_module in
  let '(module_id, base, name) := fields in
  let! name_copy := try_copy_string name "QTRB module dictionary string allocation failed" in
  let definition := mkModuleWire base name_copy in
  let! q := get in
  match q_modules q !! module_id with
  | Some existing =>
      fail_if (negb (bool_decide (existing = definition)))
        (record_error r "source.definition_conflict" "qtrb.dictionary"
           "conflicting module definition")
  | None =>
      fail_if (MAX_DICTIONARY_ENTRIES <=? Z.of_nat (size (q_modules q)))
        (record_error r "source.dictionary_limit" "qtrb.dictionary"
           "module dictionary limit exceeded") ;!
      try_reserve_hash_map Modules T_module_entry (Z.of_nat (size (q_modules q))) 1
        "QTRB module dictionary allocation failed" ;!
      modify (fun q => set_modules (<[module_id := definition]> (q_modules q)) q)
  end ;!
  ret (event q r None (PModuleDefinition (mkModuleDefinition module_id base name))).

(** The payload part of [decode_instruction_definition]. *)
Definition parse_instruction_definition (r : PhysicalRecord) : D (Z * InstructionDefinitionWire) :=
  let! metadata_id := u32_le in
  let! opcode := u32_le in
  let! read_mask := u64_le in
  let! write_mask := u64_le in
  let! displacement := i64_le in
  let! flags := u32_le in
  let! pc_kind := u8 in
  let! condition := u8 in
  let! memory_count := u8 in
  let! slow_memory_path := u8 in
  fail_if (definition_rejected flags pc_kind slow_memory_path memory_count read_mask write_mask)
    (record_error r "source.invalid_payload" "qtrb.instruction_definition"
       "invalid instruction definition metadata") ;!
  let! mnemonic := bounded_utf8_guarded MAX_MNEMONIC_BYTES "mnemonic" in
  let! operands := bounded_utf8_guarded MAX_OPERANDS_BYTES "operands" in
  let! disassembly := bounded_utf8_guarded MAX_DISASSEMBLY_BYTES "disassembly" in
  let! reads := decode_registers read_mask "read register" (coordinate r) in
  let! writes := decode_registers write_mask "write register" (coordinate r) in
  try_reserve_vec_exact T_MemoryOperandWire 0 0 memory_count
    "QTRB memory operand allocation failed" ;!
  let! memory_operands := for_each (seqZ 0 memory_count) (fun _ => memory_operand_wire r) in
  cursor_finish ;!
  ret (metadata_id,
       mkDefinitionWire opcode read_mask write_mask displacement flags pc_kind condition
         slow_memory_path mnemonic operands disassembly reads writes memory_operands).

Definition decode_instruction_definition (r : PhysicalRecord) : QM EventRecord :=
  let! fields := with_local (cursor_new (pr_payload r) "INSTRUCTION_DEF" (coordinate r))
                   (parse_instruction_definition r) in
  let '(metadata_id, definition) := fields in
  let! q := get in
  match q_definitions q !! metadata_id with
  | Some existing =>
      fail_if (negb (bool_decide (existing = definition)))
        (record_error r "source.definition_conflict" "qtrb.dictionary"
           "conflicting instruction definition")
  | None =>
      fail_if (MAX_DICTIONARY_ENTRIES <=? Z.of_nat (size (q_definitions q)))
        (record_error r "source.dictionary_limit" "qtrb.dictionary"
           "instruction dictionary limit exceeded") ;!
      try_reserve_hash_map Definitions T_definition_entry (Z.of_nat (size (q_definitions q))) 1
        "QTRB instruction dictionary allocation failed" ;!
      let! copy := clone_definition_wire definition in
      modify (fun q => set_definitions (<[metadata_id := copy]> (q_definitions q)) q)
  end ;!
  let! typed := typed_definition metadata_id definition in
  ret (event q r None (PInstructionDefinition typed)).

(** The payload of [decode_instruction], checked against the dictionaries. *)
Definition parse_instruction (q : QtrbEventCursor) (r : PhysicalRecord) : D (Z * Instruction) :=
  let! sequence := u64_le in
  let! module_id := u32_le in
  let! relative_pc := u64_le in
  let! metadata_id := u32_le in
  let! read_count := u8 in
  let! write_count := u8 in
  match q_modules q !! module_id, q_definitions q !! metadata_id with
  | Some _, Some definition =>
      fail_if (negb (read_count =? zlen (dw_reads definition))
               || negb (write_count =? zlen (dw_writes definition)))
        (record_error r "source.invalid_payload" "qtrb.instruction"
           "instruction register counts do not match its definition") ;!
      try_reserve_vec_exact T_RegisterObservation 0 0 read_count
        "QTRB read observation allocation failed" ;!
      let! read_before := for_each (dw_reads definition)
        (observation "QTRB read observation name allocation failed") in
      try_reserve_vec_exact T_RegisterObservation 0 0 write_count
        "QTRB write observation allocation failed" ;!
      let! write_after := for_each (dw_writes definition)
        (observation "QTRB write observation name allocation failed") in
      cursor_finish ;!
      ret (sequence, mkInstruction metadata_id module_id relative_pc read_before write_after)
  | _, _ =>
      throw (record_error r "source.undefined_reference" "qtrb.dictionary"
               "instruction references an undefined module or metadata definition")
  end.

Definition decode_instruction (r : PhysicalRecord) : QM EventRecord :=
  let! q := get in
  let! fields := with_local (cursor_new (pr_payload r) "INSTRUCTION" (coordinate r))
    (parse_instruction q r) in
  let '(sequence, instruction) := fields in
  fail_if (negb (sequence =? q_next_sequence q))
    (record_error r "source.sequence_gap" "qtrb.sequence"
       "instruction sequence is not contiguous") ;!
  let! next_sequence := lift_option (checked_add u64_max (q_next_sequence q) 1)
    (record_error r "source.sequence_gap" "qtrb.sequence"
       "instruction sequence overflows u64") in
  modify (set_next_sequence next_sequence) ;!
  let! instruction_count := lift_option (checked_add u64_max (q_instruction_count q) 1)
    (record_error r "source.terminal_counter_mismatch" "qtrb.sequence"
       "instruction counter overflows u64") in
  modify (set_instruction_count instruction_count) ;!
  ret (event q r (Some sequence) (PInstruction instruction)).

(** The payload of [decode_memory]. *)
Definition parse_memory (q : QtrbEventCursor) (r : PhysicalRecord) : D Memory :=
  let! module_id := u32_le in
  let! relative_pc := u64_le in
  let! direction := u8 in
  let! direction :=
    match direction with
    | 1 => ret Read
    | 2 => ret Write
    | 3 => ret ReadWrite
    | _ => throw (record_error r "source.invalid_payload" "qtrb.memory"
                    "invalid memory access direction")
    end in
  let! metadata_available := u8 in
  let! flags := u16_le in
  let! address := u64_le in
  let! size := u32_le in
  let! value := u64_le in
  fail_if (match q_modules q !! module_id with Some _ => false | None => true end)
    (record_error r "source.undefined_reference" "qtrb.dictionary"
       "memory record references an undefined module") ;!
  fail_if (metadata_available >? 1)
    (record_error r "source.invalid_payload" "qtrb.memory"
       "invalid memory metadata availability") ;!
  let! before := decode_memory_state "before memory" (coordinate r) in
  let! after := decode_memory_state "after memory" (coordinate r) in
  cursor_finish ;!
  ret (mkMemory module_id relative_pc address size direction (metadata_available =? 1) flags
         value before after).

Definition decode_memory (r : PhysicalRecord) : QM EventRecord :=
  let! q := get in
  let! memory := with_local (cursor_new (pr_payload r) "MEMORY" (coordinate r))
    (parse_memory q r) in
  ret (event q r None (PMemory memory)).

(** ** Semantic events and fragments *)

(** The payload of a CALL, RULE or ERROR continuation record. *)
Definition parse_fragment (r : PhysicalRecord) (kind : FragmentKind) :
    D (Z * Z * Z * Z * option bytes * bytes * bytes) :=
  let! event_id := u64_le in
  let! total_detail_bytes := u32_le in
  let! chunk_index := u16_le in
  let! chunk_count := u16_le in
  let! category :=
    if is_call kind
    then let! c := decode_bounded_raw MAX_CALL_CATEGORY_BYTES "CALL category" (coordinate r) in
         ret (Some c)
    else ret None in
  let! name := decode_bounded_raw
    (if is_call kind then MAX_CALL_NAME_BYTES else MAX_EVENT_NAME_BYTES)
    "event name" (coordinate r) in
  let! detail := decode_bounded_raw
    (if is_call kind then MAX_CALL_CHUNK_DETAIL_BYTES else MAX_EVENT_CHUNK_DETAIL_BYTES)
    "event detail fragment" (coordinate r) in
  cursor_finish ;!
  ret (event_id, total_detail_bytes, chunk_index, chunk_count, category, name, detail).

Definition invalid_fragment (r : PhysicalRecord) (detail : string) : ProviderError :=
  record_error r "source.invalid_fragment" "qtrb.fragment" detail.

(** [self.pending.take()], or the first fragment of a new group. *)
Definition take_or_start_pending (r : PhysicalRecord) (kind : FragmentKind)
    (event_id total_detail_bytes chunk_index chunk_count : Z) (category : option bytes)
    (name : bytes) : QM PendingFragment :=
  let! q := get in
  modify (set_pending None) ;!
  match q_pending q with
  | Some pending => ret pending
  | None =>
      fail_if (negb (chunk_index =? 0))
        (invalid_fragment r "fragment index must start at zero") ;!
      let! category_copy :=
        match category with
        | Some bs =>
            let! c := try_copy_bytes bs "QTRB fragment category allocation failed" in
            ret (Some c)
        | None => ret None
        end in
      let! name_copy := try_copy_bytes name "QTRB fragment name allocation failed" in
      try_reserve_vec_exact T_u8 0 0 total_detail_bytes
        "QTRB logical fragment allocation failed" ;!
      try_reserve_vec_exact T_u64 0 0 chunk_count "QTRB fragment offset allocation failed" ;!
      ret (mkPending kind event_id total_detail_bytes chunk_count 0 category_copy name_copy []
             (pr_offset r) (pr_ordinal r) [])
  end.

(** [String::from_utf8(bytes)] with the caller's error. *)
Definition from_utf8 (bs : bytes) (e : ProviderError) : QM bytes :=
  if utf8_valid bs then ret bs else throw e.

(** The pending group with one more fragment. *)
Definition extend_pending (p : PendingFragment) (r : PhysicalRecord) (detail : bytes) :
    PendingFragment :=
  mkPending (pf_kind p) (pf_event_id p) (pf_total_detail_bytes p) (pf_chunk_count p)
    (saturating_add u16_max (pf_next_index p) 1) (pf_category p) (pf_name p)
    (pf_detail p ++ detail) (pf_first_offset p) (pf_first_ordinal p)
    (pf_fragment_offsets p ++ [pr_offset r]).

(** The tail of [decode_fragment]: the group is complete. *)
Definition finish_fragment (r : PhysicalRecord) (kind : FragmentKind) (p : PendingFragment) :
    QM EventRecord :=
  fail_if (negb (zlen (pf_detail p) =? pf_total_detail_bytes p)
           || negb (zlen (pf_fragment_offsets p) =? pf_chunk_count p))
    (invalid_fragment r "fragment group does not match declared length or count") ;!
  let! category :=
    match pf_category p with
    | Some bs =>
        let! c := from_utf8 bs (record_error r "source.invalid_utf8" "qtrb.fragment"
                                  "logical CALL category is not valid UTF-8") in
        ret (Some c)
    | None => ret None
    end in
  let! name := from_utf8 (pf_name p) (record_error r "source.invalid_utf8" "qtrb.fragment"
                                        "logical event name is not valid UTF-8") in
  let! detail := from_utf8 (pf_detail p) (record_error r "source.invalid_utf8" "qtrb.fragment"
                                            "logical event detail is not valid UTF-8") in
  let first := mkPhysicalRecord (pr_record_type r) (pr_raw_type r) (pr_flags r) []
                 (pf_first_offset p) (pf_first_ordinal p) in
  let! q := get in
  let e := semantic_event q first kind category name detail in
  lift_option
    (with_fragment_source_offsets (ev_key e) (ev_provenance e) (ev_payload e)
       (pf_fragment_offsets p))
    (invalid_fragment r "fragment provenance offsets are invalid or exceed their bound").

Definition decode_fragment (r : PhysicalRecord) (kind : FragmentKind) : QM (option EventRecord) :=
  let! fields := with_local (cursor_new (pr_payload r) "semantic fragment" (coordinate r))
                   (parse_fragment r kind) in
  let '(event_id, total_detail_bytes, chunk_index, chunk_count, category, name, detail) := fields in
  fail_if (fragment_rejected kind event_id total_detail_bytes chunk_index chunk_count detail)
    (invalid_fragment r "invalid semantic fragment metadata") ;!
  let! pending := take_or_start_pending r kind event_id total_detail_bytes chunk_index chunk_count
                    category name in
  fail_if (negb (bool_decide (pf_kind pending = kind))
           || negb (pf_event_id pending =? event_id)
           || negb (pf_total_detail_bytes pending =? total_detail_bytes)
           || negb (pf_chunk_count pending =? chunk_count)
           || negb (bool_decide (pf_category pending = category))
           || negb (bool_decide (pf_name pending = name)))
    (invalid_fragment r "fragment metadata does not match the logical event") ;!
  fail_if (negb (chunk_index =? pf_next_index pending))
    (invalid_fragment r "fragment index is duplicate or out of order") ;!
  let pending := extend_pending pending r detail in
  fail_if (zlen (pf_detail pending) >? pf_total_detail_bytes pending)
    (invalid_fragment r "fragment data exceeds declared logical detail length") ;!
  if pf_next_index pending <? pf_chunk_count pending
  then modify (set_pending (Some pending)) ;! ret None
  else let! e := finish_fragment r kind pending in ret (Some e).

(** The payload of an unfragmented CALL, RULE or ERROR record. *)
Definition parse_semantic (kind : FragmentKind) : D (option bytes * bytes * bytes) :=
  let! category :=
    if is_call kind
    then let! c := bounded_utf8_guarded MAX_CALL_CATEGORY_BYTES "CALL category" in
         ret (Some c)
    else ret None in
  let! name := bounded_utf8_guarded
    (if is_call kind then MAX_CALL_NAME_BYTES else MAX_EVENT_NAME_BYTES) "event name" in
  let! detail := bounded_utf8_guarded MAX_EVENT_DETAIL_BYTES "event detail" in
  cursor_finish ;!
  ret (category, name, detail).

Definition decode_semantic (r : PhysicalRecord) (kind : FragmentKind) : QM (option EventRecord) :=
  if pr_flags r =? 0
  then
    let! fields := with_local (cursor_new (pr_payload r) "semantic event" (coordinate r))
    (parse_semantic kind) in
    let '(category, name, detail) := fields in
    let! q := get in
    ret (Some (semantic_event q r kind category name detail))
  else
    let! q := get in
    fail_if (negb (is_call kind) && (sh_minor (q_header q) =? 0))
      (record_error r "source.version_unsupported" "qtrb.fragment"
         "RULE/ERROR fragments require QTRB minor 1 or newer") ;!
    decode_fragment r kind.

(** ** Terminals *)

Definition accept_terminal (r : PhysicalRecord) (metrics : list Z) (draft : TerminalDraft) :
    QM EventRecord :=
  let! q := get in
  fail_if (negb (q_offset q =? src_len (q_source q)))
    (record_error r "source.record_after_terminal" "qtrb.lifecycle" "record follows QTRB terminal") ;!
  fail_if (negb (metrics !!! 0%nat =? q_instruction_count q)
           || negb (metrics !!! 1%nat =? q_offset q)
           || negb (metrics !!! 9%nat =? q_effective_buffer_bytes q))
    (record_error r "source.terminal_counter_mismatch" "qtrb.lifecycle"
       "terminal instruction, encoded-byte, or buffer metric does not match the stream") ;!
  let! summary_reason :=
    match dr_reason draft with
    | Some value =>
        let! c := try_copy_string value "QTRB summary terminal reason allocation failed" in
        ret (Some c)
    | None => ret None
    end in
  let terminal_metrics := mkTerminalMetrics (metrics !!! 0%nat) (metrics !!! 1%nat)
    (metrics !!! 2%nat) (metrics !!! 3%nat) (metrics !!! 4%nat) (metrics !!! 5%nat)
    (metrics !!! 6%nat) (metrics !!! 7%nat) (metrics !!! 8%nat) (metrics !!! 9%nat) in
  modify (set_terminal (mkTermination (dr_kind draft) summary_reason (dr_return_value draft)
                          (dr_elapsed_ms draft) terminal_metrics None)) ;!
  let! q := get in
  ret (event q r None
         (PTermination (mkTermination (dr_kind draft) (dr_reason draft) (dr_return_value draft)
                          (dr_elapsed_ms draft) terminal_metrics None))).

(** The payload of [decode_trace_end]. *)
Definition parse_trace_end : D (Z * Z * Z * list Z) :=
  let! success := u8 in
  let! return_value := u64_le in
  let! elapsed_ms := u64_le in
  let! metrics := decode_metrics in
  cursor_finish ;!
  ret (success, return_value, elapsed_ms, metrics).

Definition decode_trace_end (r : PhysicalRecord) : QM EventRecord :=
  fail_if (negb (zlen (pr_payload r) =? TRACE_END_PAYLOAD_BYTES))
    (invalid_terminal r "invalid TRACE_END payload size") ;!
  let! fields := with_local (cursor_new (pr_payload r) "TRACE_END" (coordinate r))
    parse_trace_end in
  let '(success, return_value, elapsed_ms, metrics) := fields in
  fail_if (negb (success =? 1)) (invalid_terminal r "TRACE_END is not successful") ;!
  accept_terminal r metrics (mkDraft Completed None (Some return_value) elapsed_ms).

(** The payload of [decode_trace_stop]. *)
Definition parse_trace_stop : D (Z * bytes * Z * list Z) :=
  let! reason := u8 in
  let! reserved := cursor_take 7 in
  let! elapsed_ms := u64_le in
  let! metrics := decode_metrics in
  cursor_finish ;!
  ret (reason, reserved, elapsed_ms, metrics).

Definition decode_trace_stop (r : PhysicalRecord) : QM EventRecord :=
  let! q := get in
  fail_if (negb (sh_minor (q_header q) =? 2)
           || (Z.land (sh_required_features (q_header q)) STOPPED_TERMINAL_FEATURE =? 0))
    (record_error r "source.version_unsupported" "qtrb.lifecycle"
       "TRACE_STOP requires QTRB 1.2 feature bit 0") ;!
  fail_if (negb (zlen (pr_payload r) =? TRACE_STOP_PAYLOAD_BYTES))
    (invalid_terminal r "invalid TRACE_STOP payload size") ;!
  let! fields := with_local (cursor_new (pr_payload r) "TRACE_STOP" (coordinate r))
    parse_trace_stop in
  let '(reason, reserved, elapsed_ms, metrics) := fields in
  fail_if (negb ((1 <=? reason) && (reason <=? 4))
           || negb (bool_decide (reserved = replicate 7 x00)))
    (invalid_terminal r "invalid TRACE_STOP reason or reserved bytes") ;!
  let! reason := try_copy_string (stop_reason reason) "QTRB terminal reason allocation failed" in
  accept_terminal r metrics (mkDraft Stopped (Some reason) None elapsed_ms).

(** ** The cursor *)

Definition decode_record (r : PhysicalRecord) : QM (option EventRecord) :=
  match pr_record_type r with
  | Some TraceBegin => let! e := decode_begin r in ret (Some e)
  | Some TModuleDefinition => let! e := decode_module r in ret (Some e)
  | Some TInstructionDefinition => let! e := decode_instruction_definition r in ret (Some e)
  | Some TInstruction => let! e := decode_instruction r in ret (Some e)
  | Some TMemory => let! e := decode_memory r in ret (Some e)
  | Some TCall => decode_semantic r FCall
  | Some TRule => decode_semantic r FRule
  | Some TError => decode_semantic r FError
  | Some TraceEnd => let! e := decode_trace_end r in ret (Some e)
  | Some TraceStop => let! e := decode_trace_stop r in ret (Some e)
  | None =>
      modify (fun q => set_counters (count_opaque (q_counters q)) q) ;!
      let! q := get in
      ret (Some (event q r None
                   (OpaqueOptional (mkOpaque (pr_raw_type r) (pr_flags r) (pr_payload r)))))
  end.

Definition validate_source_identity : QM unit :=
  let! q := get in
  fail_if (negb (src_len (q_source q) =? si_source_bytes (q_identity q)))
    (ProviderError_new "source.identity_changed" "qtrb.identity"
       (Some (mkCoordinate (q_offset q) (Some (q_next_ordinal q)))) false
       "QTRB source length changed while parsing").

(** [if let Some(range) = range { .. }] *)
Definition push_range (range : option CompletenessRange) (l : list CompletenessRange) :
    list CompletenessRange :=
  match range with Some r => l ++ [r] | None => l end.
Definition insert_first_range (range : option CompletenessRange) (l : list CompletenessRange) :
    list CompletenessRange :=
  match range with Some r => r :: l | None => l end.

Definition finish_stream : QM (option EventRecord) :=
  validate_source_identity ;!
  let! q := get in
  fail_if (match q_pending q with Some _ => true | None => false end)
    (error_at_current q "source.incomplete_fragment" "qtrb.fragment"
       "source ended during a logical fragment group") ;!
  fail_if (negb (q_began q))
    (error_at_current q "source.invalid_order" "qtrb.lifecycle" "QTRB source has no TRACE_BEGIN") ;!
  let! completeness_count := lift_option
    (checked_add usize_max
       (if negb (q_terminal_seen q) && bool_decide (q_mode q = RecoverablePartial) then 1 else 0) 1)
    (provider_allocation_error "QTRB completeness count overflow") in
  let! completeness_target := lift_option
    (checked_add usize_max (zlen (q_completeness q)) completeness_count)
    (provider_allocation_error "QTRB completeness count overflow") in
  try_reserve_vec_exact T_CompletenessRange 0 (zlen (q_completeness q)) completeness_target
    "QTRB completeness allocation failed" ;!
  (if negb (q_terminal_seen q)
   then match q_mode q with
        | Sealed =>
            throw (error_at_current q "source.missing_terminal" "qtrb.lifecycle"
                     "sealed QTRB source has no successful terminal")
        | RecoverablePartial =>
            modify (fun q => set_completeness
              (push_range (source_bytes_with_cause (q_offset q) (q_offset q) ProvUnknown
                             MissingTerminal) (q_completeness q)) q)
        end
   else ret tt) ;!
  modify (fun q => set_completeness
    (insert_first_range (source_bytes_with_cause 0 (q_offset q) Captured Retained)
       (q_completeness q)) q) ;!
  modify set_drained ;!
  ret None.

(** The order checks between [read_record] and [decode_record]. *)
Definition check_order (q : QtrbEventCursor) (r : PhysicalRecord) : result ProviderError unit :=
  if negb (q_began q) && negb (bool_decide (pr_record_type r = Some TraceBegin))
  then Err (record_error r "source.invalid_order" "qtrb.lifecycle"
              "TRACE_BEGIN must be the first record")
  else
    match q_pending q with
    | Some pending =>
        if negb (bool_decide (pr_record_type r = Some (fragment_record_type (pf_kind pending))))
           || negb (pr_flags r =? CHUNK_FLAG)
        then Err (record_error r "source.incomplete_fragment" "qtrb.fragment"
                    "fragment records must be contiguous")
        else Ok tt
    | None => Ok tt
    end.

(** Not an error of the code: the [loop] below ran out of fuel. *)
Definition out_of_fuel : ProviderError := ProviderError_new "model.fuel" "model" None false "".

(** One turn of the [loop] of [next_event_inner]: [Some] is a [return]. *)
Definition next_event_turn : QM (option (option EventRecord)) :=
  let! q := get in
  if q_terminal_seen q then
    fail_if (q_offset q <? src_len (q_source q))
      (error_at_current q "source.record_after_terminal" "qtrb.lifecycle"
         "record follows QTRB terminal") ;!
    let! e := finish_stream in ret (Some e)
  else if q_offset q =? src_len (q_source q) then
    let! e := finish_stream in ret (Some e)
  else
    fail_if (q_offset q >? src_len (q_source q))
      (error_at_current q "source.short_read" "qtrb.read" "QTRB cursor passed source end") ;!
    let! r := read_record in
    let! q := get in
    lift_result (check_order q r) ;!
    let! e := decode_record r in
    match e with
    | Some e =>
        consume (delta_events 1) ;!
        modify (fun q => set_counters (count_event (q_counters q)) q) ;!
        ret (Some (Some e))
    | None => ret None
    end.

Fixpoint next_event_loop (fuel : nat) : QM (option EventRecord) :=
  match fuel with
  | O => throw out_of_fuel
  | S fuel =>
      let! turn := next_event_turn in
      match turn with
      | Some result => ret result
      | None => next_event_loop fuel
      end
  end.

(** A turn that does not return has read a record, and a record is at least
    its eight-byte header. *)
Definition loop_fuel (q : QtrbEventCursor) : nat :=
  S (Z.to_nat (src_len (q_source q) - q_offset q)).

Definition next_event_inner : QM (option EventRecord) :=
  let! q := get in next_event_loop (loop_fuel q).

(** [EventCursor::next_event] *)
Definition next_event : QM (option EventRecord) := fun q w =>
  if q_drained q then (Ok None, q, w)
  else if q_poisoned q then
    (Err (ProviderError_new "source.cursor_failed" "qtrb.cursor" None false
            "QTRB cursor cannot continue after a prior failure"), q, w)
  else
    match next_event_inner q w with
    | (Ok e, q', w') => (Ok e, q', w')
    | (Err e, q', w') => (Err e, set_poisoned q', w')
    end.

(** [timelines[0].tid = self.tid] *)
Definition set_first_tid (tid : option Z) (l : list TimelineDescriptor) : list TimelineDescriptor :=
  match l with
  | t :: l => mkTimelineDescriptor (td_id t) tid (td_label t) :: l
  | [] => []
  end.

(** [EventCursor::finish] *)
Definition cursor_summary : QM ProviderSummary :=
  let! q := get in
  fail_if (negb (q_drained q) || q_poisoned q) stream_not_drained ;!
  validate_source_identity ;!
  ret (mkSummary (set_first_tid (q_tid q) (q_timelines q)) (q_termination q) (q_counters q)
         (q_completeness q)).

End qtrb.
