(* ===== verification/QtrbRefine.v ===== *)
(** * The guarded QTRB cursor refines the unguarded one

    Guards and allocators decide whether work may proceed, never what it
    produces: in any world, each program of the QTRB provider ends exactly as
    it does in the world that never refuses, or it fails with a resource
    error.  This is the interface between the provider and its clients: every
    property of the data is proved in the permissive world or by [wp], and
    holds under any budget. *)

From stdpp Require Import prelude list strings gmap.
From Stdlib Require Import ZArith Lia Strings.Byte.
From S2P Require Import Prelude Prog Control Model Source QtrbWire QtrbPayload QtrbEvents Qtrb.
Local Open Scope Z_scope.

Section qtrb_refines.
Context {W : Type} `{WorkGuard W} `{Allocator W}.

Notation "p ⊑ q" := (refines (W1 := W) (W2 := unit) resource_error p q) (at level 70).

(** ** Payload helpers *)

Lemma shared_registers_refines mask field c :
  shared_registers mask field c ⊑ shared_registers mask field c.
Proof. unfold shared_registers. refine_auto. Qed.

Lemma shared_memory_state_refines field c :
  shared_memory_state field c ⊑ shared_memory_state field c.
Proof. unfold shared_memory_state. refine_auto. Qed.

Lemma shared_memory_operand_refines c : shared_memory_operand c ⊑ shared_memory_operand c.
Proof. unfold shared_memory_operand. refine_auto. Qed.

Lemma shared_observation_refines d r : shared_observation d r ⊑ shared_observation d r.
Proof. unfold shared_observation. refine_auto. Qed.

Lemma decode_registers_refines mask field c :
  decode_registers mask field c ⊑ decode_registers mask field c.
Proof. unfold decode_registers. refine_auto. Qed.

Lemma decode_bounded_raw_refines n field c :
  decode_bounded_raw n field c ⊑ decode_bounded_raw n field c.
Proof. unfold decode_bounded_raw. refine_auto. Qed.

Lemma decode_memory_state_refines field c :
  decode_memory_state field c ⊑ decode_memory_state field c.
Proof. unfold decode_memory_state. refine_auto. Qed.

Lemma decode_metrics_refines : decode_metrics ⊑ decode_metrics.
Proof. unfold decode_metrics. refine_auto. Qed.

Lemma observation_refines d r : observation d r ⊑ observation d r.
Proof. unfold observation. refine_auto. Qed.

Lemma memory_operand_wire_refines r : memory_operand_wire r ⊑ memory_operand_wire r.
Proof. unfold memory_operand_wire. refine_auto. Qed.

Hint Resolve shared_registers_refines shared_memory_state_refines shared_memory_operand_refines
  shared_observation_refines decode_registers_refines decode_bounded_raw_refines
  decode_memory_state_refines decode_metrics_refines observation_refines
  memory_operand_wire_refines : refine.

(** ** Definitions and headers *)

Section receiver.
Context {S : Type}.

Lemma typed_register_refines r :
  refines (S := S) resource_error (typed_register (W := W) r) (typed_register (W := unit) r).
Proof. unfold typed_register. refine_auto. Qed.

Lemma clone_register_wire_refines r :
  refines (S := S) resource_error (clone_register_wire (W := W) r)
    (clone_register_wire (W := unit) r).
Proof. unfold clone_register_wire. refine_auto. Qed.

Hint Resolve typed_register_refines clone_register_wire_refines : refine.

Lemma typed_definition_refines i d :
  refines (S := S) resource_error (typed_definition (W := W) i d) (typed_definition (W := unit) i d).
Proof. unfold typed_definition. refine_auto. Qed.

Lemma clone_definition_wire_refines d :
  refines (S := S) resource_error (clone_definition_wire (W := W) d)
    (clone_definition_wire (W := unit) d).
Proof. unfold clone_definition_wire. refine_auto. Qed.

Lemma header_parse_refines bs :
  refines (S := S) resource_error (header_parse (W := W) bs) (header_parse (W := unit) bs).
Proof. unfold header_parse, parse_header_fields. refine_auto. Qed.

Hint Resolve header_parse_refines : refine.

Lemma provider_open_refines src identity mode :
  refines (S := S) resource_error (provider_open (W := W) src identity mode)
    (provider_open (W := unit) src identity mode).
Proof. unfold provider_open. refine_auto. Qed.

Lemma nested_refines payload k c :
  refines (S := S) resource_error (nested (W := W) payload k c) (nested (W := unit) payload k c).
Proof. unfold nested. refine_auto. Qed.

End receiver.

Hint Resolve typed_definition_refines clone_definition_wire_refines : refine.

(** ** Framing and decoders *)

Lemma parse_record_header_refines bs c : parse_record_header bs c ⊑ parse_record_header bs c.
Proof. unfold parse_record_header, parse_record_fields. refine_auto. Qed.

Hint Resolve parse_record_header_refines : refine.

Lemma read_record_refines : read_record ⊑ read_record.
Proof. unfold read_record. refine_auto. Qed.

Lemma decode_begin_refines r : decode_begin r ⊑ decode_begin r.
Proof. unfold decode_begin, parse_begin. refine_auto. Qed.

Lemma dictionary_size_bound (n : nat) :
  (MAX_DICTIONARY_ENTRIES <=? Z.of_nat n) = false -> 0 <= Z.of_nat n /\ Z.of_nat n + 1 <= usize_max.
Proof. intros Hn%Z.leb_gt. change MAX_DICTIONARY_ENTRIES with 65536 in Hn. machine. lia. Qed.

Lemma decode_module_refines r : decode_module r ⊑ decode_module r.
Proof.
  unfold decode_module, parse_module. apply refines_bind; [refine_auto|intros [[id base] name]].
  apply refines_bind; [refine_auto|intros copy].
  apply refines_bind; [refine_auto|intros q].
  apply refines_bind; [|refine_auto].
  destruct (_ !! _); [refine_auto|].
  apply refines_checked. intros [Hn Hb]%dictionary_size_bound.
  apply refines_bind; [|refine_auto]. apply reserve_map_refines; [apply _|done..].
Qed.

Lemma parse_instruction_definition_refines r :
  parse_instruction_definition r ⊑ parse_instruction_definition r.
Proof. unfold parse_instruction_definition. refine_auto. Qed.

Hint Resolve parse_instruction_definition_refines : refine.

Lemma decode_instruction_definition_refines r :
  decode_instruction_definition r ⊑ decode_instruction_definition r.
Proof.
  unfold decode_instruction_definition. apply refines_bind; [refine_auto|intros [id d]].
  apply refines_bind; [refine_auto|intros q].
  apply refines_bind; [|refine_auto].
  destruct (_ !! _); [refine_auto|].
  apply refines_checked. intros [Hn Hb]%dictionary_size_bound.
  apply refines_bind; [|refine_auto]. apply reserve_map_refines; [apply _|done..].
Qed.

Lemma decode_instruction_refines r : decode_instruction r ⊑ decode_instruction r.
Proof. unfold decode_instruction, parse_instruction. refine_auto. Qed.

Lemma decode_memory_refines r : decode_memory r ⊑ decode_memory r.
Proof. unfold decode_memory, parse_memory. refine_auto. Qed.

Lemma parse_fragment_refines r k : parse_fragment r k ⊑ parse_fragment r k.
Proof. unfold parse_fragment. refine_auto. Qed.

Lemma take_or_start_pending_refines r k a b c d e f :
  take_or_start_pending r k a b c d e f ⊑ take_or_start_pending r k a b c d e f.
Proof. unfold take_or_start_pending. refine_auto. Qed.

Lemma finish_fragment_refines r k p : finish_fragment r k p ⊑ finish_fragment r k p.
Proof. unfold finish_fragment, from_utf8. refine_auto. Qed.

Hint Resolve parse_fragment_refines take_or_start_pending_refines finish_fragment_refines : refine.

Lemma decode_fragment_refines r k : decode_fragment r k ⊑ decode_fragment r k.
Proof. unfold decode_fragment. refine_auto. Qed.

Hint Resolve decode_fragment_refines : refine.

Lemma decode_semantic_refines r k : decode_semantic r k ⊑ decode_semantic r k.
Proof. unfold decode_semantic, parse_semantic. refine_auto. Qed.

Lemma accept_terminal_refines r m d : accept_terminal r m d ⊑ accept_terminal r m d.
Proof. unfold accept_terminal. refine_auto. Qed.

Hint Resolve accept_terminal_refines : refine.

Lemma decode_trace_end_refines r : decode_trace_end r ⊑ decode_trace_end r.
Proof. unfold decode_trace_end, parse_trace_end. refine_auto. Qed.

Lemma decode_trace_stop_refines r : decode_trace_stop r ⊑ decode_trace_stop r.
Proof. unfold decode_trace_stop, parse_trace_stop. refine_auto. Qed.

Hint Resolve decode_begin_refines decode_module_refines decode_instruction_definition_refines
  decode_instruction_refines decode_memory_refines decode_semantic_refines
  decode_trace_end_refines decode_trace_stop_refines read_record_refines : refine.

Lemma decode_record_refines r : decode_record r ⊑ decode_record r.
Proof. unfold decode_record. refine_auto. Qed.

(** ** The cursor *)

Lemma finish_stream_refines : finish_stream ⊑ finish_stream.
Proof. unfold finish_stream, validate_source_identity. refine_auto. Qed.

Hint Resolve decode_record_refines finish_stream_refines : refine.

Lemma next_event_turn_refines : next_event_turn ⊑ next_event_turn.
Proof. unfold next_event_turn. refine_auto. Qed.

Hint Resolve next_event_turn_refines : refine.

Lemma next_event_loop_refines fuel : next_event_loop fuel ⊑ next_event_loop fuel.
Proof. induction fuel; cbn [next_event_loop]; refine_auto. Qed.

Lemma next_event_refines_lemma : next_event ⊑ next_event.
Proof.
  intros q w1 w2. unfold next_event. destruct (q_drained q); [by left|].
  destruct (q_poisoned q); [by left|].
  assert (next_event_inner ⊑ next_event_inner) as Hinner.
  { unfold next_event_inner. apply refines_bind; [apply refines_get|].
    intros; apply next_event_loop_refines. }
  specialize (Hinner q w1 w2).
  destruct (next_event_inner q w1) as [[[a1|e1] q1] w1'],
    (next_event_inner q w2) as [[[a2|e2] q2] w2'];
    destruct Hinner as [[Hr Hq]|(e & Hr & He)]; try done.
  - left. by simplify_eq.
  - right. exists e1. by simplify_eq.
  - left. by simplify_eq.
  - right. exists e1. by simplify_eq.
Qed.

End qtrb_refines.
