(* ===== verification/QtrbFormat.v ===== *)
(** * The QTRB record layouts

    Specification of the payload of each record type, after
    [docs/trace-format.md], and the proofs that the decoders of
    [qtrb/mod.rs] are codecs for them: a decoder accepts a payload exactly when
    it is the encoding of a well-formed value. *)

From stdpp Require Import prelude list strings pretty gmap.
From Stdlib Require Import ZArith Lia Strings.Byte.
From S2P Require Import Prelude Prog Control Model Source QtrbWire QtrbPayload QtrbCodec.
From S2P Require Import QtrbEvents Qtrb.
Local Open Scope string_scope.
Local Open Scope list_scope.
Local Open Scope Z_scope.

(** A bounded UTF-8 field. *)
Definition text_ok (maximum : Z) (s : bytes) : Prop :=
  zlen s <= maximum /\ in_u16 (zlen s) /\ utf8_valid s = true.

Definition bool_byte (b : bool) : bytes := le_bytes 1 (if b then 1 else 0).

(** ** TRACE_BEGIN *)

Definition encode_begin (v : Z * Z * BeginMetadata * Z) : bytes :=
  let '(profile, compression, m, tid) := v in
  le_bytes 8 (bm_module_base m) ++ le_bytes 8 (bm_target_offset m)
    ++ le_bytes 8 (bm_target_address m) ++ le_bytes 4 (bm_pid m) ++ le_bytes 4 tid
    ++ le_bytes 1 profile ++ le_bytes 1 compression
    ++ le_bytes 8 (bm_effective_buffer_bytes m) ++ le_bytes 8 (bm_run_id m)
    ++ encode_string (bm_scene m) ++ encode_string (bm_target m).

Definition begin_ok (v : Z * Z * BeginMetadata * Z) : Prop :=
  let '(profile, compression, m, tid) := v in
  in_u64 (bm_module_base m) /\ in_u64 (bm_target_offset m) /\ in_u64 (bm_target_address m)
  /\ in_u32 (bm_pid m) /\ in_u32 tid /\ in_u8 profile /\ in_u8 compression
  /\ in_u64 (bm_effective_buffer_bytes m) /\ in_u64 (bm_run_id m)
  /\ text_ok MAX_CONTEXT_STRING_BYTES (bm_scene m) /\ text_ok MAX_CONTEXT_STRING_BYTES (bm_target m)
  /\ bm_tid m = Some tid /\ bm_profile m = typed_profile profile
  /\ bm_compression_enabled m = (compression =? 1)
  /\ bm_pointer_width m = 0 /\ bm_chunk_index m = None /\ bm_chunk_generation m = None.

#[export] Instance codec_begin : Codec (@parse_begin) encode_begin begin_ok.
Proof.
  split.
  - intros W G H rest. unfold parse_begin. repeat parse_step.
    cbn. rewrite ?app_nil_r. unfold text_ok. split_and!; done.
  - intros [[[profile compression] m] tid] Hok. unfold begin_ok, text_ok in Hok.
    destruct m as [mb to ta pid bt pr ce eb run scene target pw ci cg]; cbn in *.
    destruct_and!. subst. unfold parse_begin.
    rewrite <- (app_nil_r (encode_string target)). repeat (print_step; try done).
Qed.

(** ** MODULE_DEF *)

Definition encode_module (v : Z * Z * bytes) : bytes :=
  let '(module_id, base, name) := v in
  le_bytes 4 module_id ++ le_bytes 8 base ++ encode_string name.

Definition module_ok (v : Z * Z * bytes) : Prop :=
  let '(module_id, base, name) := v in
  in_u32 module_id /\ in_u64 base /\ text_ok MAX_MODULE_NAME_BYTES name.

#[export] Instance codec_module : Codec (@parse_module) encode_module module_ok.
Proof.
  split.
  - intros W G H rest. unfold parse_module. repeat parse_step.
    cbn. rewrite ?app_nil_r. unfold text_ok. split_and!; done.
  - intros [[id base] name] Hok. unfold module_ok, text_ok in Hok. destruct_and!.
    unfold parse_module, encode_module.
    rewrite <- (app_nil_r (encode_string name)). repeat (print_step; try done).
Qed.

(** ** INSTRUCTION_DEF *)

Definition encode_register (r : RegisterWire) : bytes :=
  le_bytes 1 (rw_width r) ++ encode_string (rw_name r).

Definition register_ok (slot : Z) (r : RegisterWire) : Prop :=
  rw_slot r = slot /\ 1 <= rw_width r <= 16 /\ 1 <= zlen (rw_name r)
  /\ text_ok MAX_REGISTER_NAME_BYTES (rw_name r).

Definition encode_registers (l : list RegisterWire) : bytes := concat (map encode_register l).

Definition encode_operand (o : MemoryOperandWire) : bytes :=
  le_bytes 1 (mow_base o) ++ le_bytes 1 (mow_index o) ++ le_bytes 1 (mow_extend o)
    ++ le_bytes 1 (mow_mode o) ++ le_bytes 1 (mow_shift o) ++ le_bytes 1 (mow_kind o)
    ++ le_bytes 1 (mow_writeback o) ++ le_bytes 4 (mow_size o) ++ le_i64 (mow_displacement o).

Definition operand_ok (o : MemoryOperandWire) : Prop :=
  in_u8 (mow_base o) /\ in_u8 (mow_index o) /\ in_u8 (mow_extend o) /\ in_u8 (mow_mode o)
  /\ in_u8 (mow_shift o) /\ in_u8 (mow_kind o) /\ in_u8 (mow_writeback o) /\ in_u32 (mow_size o)
  /\ in_i64 (mow_displacement o)
  /\ operand_rejected (mow_base o) (mow_index o) (mow_extend o) (mow_mode o) (mow_kind o)
       (mow_writeback o) = false.

Definition encode_definition (v : Z * InstructionDefinitionWire) : bytes :=
  let '(definition_id, d) := v in
  le_bytes 4 definition_id ++ le_bytes 4 (dw_opcode d) ++ le_bytes 8 (dw_read_mask d)
    ++ le_bytes 8 (dw_write_mask d) ++ le_i64 (dw_displacement d) ++ le_bytes 4 (dw_flags d)
    ++ le_bytes 1 (dw_pc_kind d) ++ le_bytes 1 (dw_condition d)
    ++ le_bytes 1 (zlen (dw_memory_operands d)) ++ le_bytes 1 (dw_slow_memory_path d)
    ++ encode_string (dw_mnemonic d) ++ encode_string (dw_operands d)
    ++ encode_string (dw_disassembly d)
    ++ encode_registers (dw_reads d) ++ encode_registers (dw_writes d)
    ++ concat (map encode_operand (dw_memory_operands d)).

Definition definition_ok (v : Z * InstructionDefinitionWire) : Prop :=
  let '(definition_id, d) := v in
  in_u32 definition_id /\ in_u32 (dw_opcode d) /\ in_u64 (dw_read_mask d)
  /\ in_u64 (dw_write_mask d) /\ in_i64 (dw_displacement d) /\ in_u32 (dw_flags d)
  /\ in_u8 (dw_pc_kind d) /\ in_u8 (dw_condition d) /\ in_u8 (dw_slow_memory_path d)
  /\ definition_rejected (dw_flags d) (dw_pc_kind d) (dw_slow_memory_path d)
       (zlen (dw_memory_operands d)) (dw_read_mask d) (dw_write_mask d) = false
  /\ text_ok MAX_MNEMONIC_BYTES (dw_mnemonic d) /\ text_ok MAX_OPERANDS_BYTES (dw_operands d)
  /\ text_ok MAX_DISASSEMBLY_BYTES (dw_disassembly d)
  /\ Forall2 register_ok (mask_slots (dw_read_mask d)) (dw_reads d)
  /\ Forall2 register_ok (mask_slots (dw_write_mask d)) (dw_writes d)
  /\ Forall operand_ok (dw_memory_operands d).

Lemma concat_zip_ignore {X A} (enc : A -> bytes) (xs : list X) (out : list A) :
  length xs = length out ->
  concat (zip_with (fun _ a => enc a) xs out) = concat (map enc out).
Proof.
  revert out. induction xs as [|x xs IH]; intros [|a out] Hl; try done.
  cbn. f_equal. apply IH. by injection Hl.
Qed.

Lemma Forall2_seqZ_replicate {A} (P : A -> Prop) n (out : list A) :
  0 <= n -> Forall2 (fun _ a => P a) (seqZ 0 n) out <-> zlen out = n /\ Forall P out.
Proof.
  intros Hn. split.
  - intros H. pose proof (Forall2_length _ _ _ H) as Hl. rewrite length_seqZ in Hl.
    split; [unfold zlen; lia|]. clear Hl. by induction H; constructor.
  - intros [<- HP]. apply Forall2_same_length_lookup_2.
    + rewrite length_seqZ. unfold zlen. lia.
    + intros i _ a _ Ha. by eapply Forall_lookup_1.
Qed.

Lemma parses_register {W} `{WorkGuard W} `{Allocator W} field e slot r :
  parses (W := W)
    (let! width := u8 in
     let! name := bounded_utf8_guarded MAX_REGISTER_NAME_BYTES field in
     fail_if ((width =? 0) || (width >? 16) || (zlen name =? 0)) e ;!
     ret (mkRegisterWire slot width name)) r
    (fun a r' => register_ok slot a /\ r = encode_register a ++ r').
Proof.
  repeat parse_step. rename select (_ || _ = false) into Hf.
  apply orb_false_iff in Hf as [[Hw0 Hw16]%orb_false_iff Hn].
  unfold register_ok, text_ok, encode_register. cbn. rewrite <- app_assoc. machine.
  split_and!; try done; unfold zlen in *; lia.
Qed.

Lemma prints_register field e slot a r :
  register_ok slot a ->
  prints
    (let! width := u8 in
     let! name := bounded_utf8_guarded MAX_REGISTER_NAME_BYTES field in
     fail_if ((width =? 0) || (width >? 16) || (zlen name =? 0)) e ;!
     ret (mkRegisterWire slot width name)) (encode_register a ++ r) a r.
Proof.
  unfold register_ok, text_ok, encode_register. destruct a as [s w n]. cbn.
  intros (-> & Hw & Hn & Hm & Hu & Hv). rewrite <- app_assoc.
  repeat (print_step; try done); [machine; lia|].
  replace (w =? 0) with false by lia. replace (w >? 16) with false by lia.
  replace (zlen n =? 0) with false by lia. done.
Qed.

Lemma parses_registers {W} `{WorkGuard W} `{Allocator W} mask field c rest
    (Q : list RegisterWire -> bytes -> Prop) :
  (forall out rest', Forall2 register_ok (mask_slots mask) out ->
     rest = encode_registers out ++ rest' -> Q out rest') ->
  parses (W := W) (decode_registers mask field c) rest Q.
Proof.
  intros HQ. unfold decode_registers. do 2 parse_step.
  eapply (parses_for_each _ _ (fun _ => encode_register) register_ok).
  - intros x r _. apply parses_register.
  - intros out r Hout ->. apply HQ; [done|].
    rewrite concat_zip_ignore by (by eapply Forall2_length). done.
Qed.

Lemma prints_registers mask field c out rest :
  Forall2 register_ok (mask_slots mask) out ->
  prints (decode_registers mask field c) (encode_registers out ++ rest) out rest.
Proof.
  intros Hout. unfold decode_registers. print_step. unfold encode_registers.
  rewrite <- (concat_zip_ignore encode_register (mask_slots mask)) by (by eapply Forall2_length).
  apply prints_for_each. eapply Forall2_impl; [exact Hout|]. intros slot a Ha r.
  by apply prints_register.
Qed.

Lemma parses_operand {W} `{WorkGuard W} `{Allocator W} r rest :
  parses (W := W) (memory_operand_wire r) rest
    (fun o rest' => operand_ok o /\ rest = encode_operand o ++ rest').
Proof.
  unfold memory_operand_wire. repeat parse_step.
  unfold operand_ok, encode_operand. cbn. rewrite <- !app_assoc. split_and!; done.
Qed.

Lemma prints_operand r o rest :
  operand_ok o -> prints (memory_operand_wire r) (encode_operand o ++ rest) o rest.
Proof.
  unfold operand_ok, encode_operand, memory_operand_wire. destruct o. cbn. intros Ho. destruct_and!.
  rewrite <- !app_assoc. repeat (print_step; try done).
Qed.

#[export] Instance codec_definition r :
  Codec (fun W G H => @parse_instruction_definition W G H r) encode_definition definition_ok.
Proof.
  split.
  - intros W G H rest. unfold parse_instruction_definition. repeat parse_step.
    apply parses_registers. intros reads r1 Hreads ->. parse_step.
    apply parses_registers. intros writes r2 Hwrites ->. repeat parse_step.
    eapply (parses_for_each _ _ (fun _ => encode_operand) (fun _ => operand_ok));
      [intros; apply parses_operand|]. intros ops r3 Hops ->. repeat parse_step.
    rewrite concat_zip_ignore by (by eapply Forall2_length).
    apply Forall2_seqZ_replicate in Hops as [<- Hops]; [|machine; lia].
    unfold definition_ok, encode_definition, text_ok. cbn. rewrite ?app_nil_r. split_and!; done.
  - intros [id d] Hok. unfold definition_ok, text_ok in Hok. destruct d as [op rm wm di fl pk co sl mn os dis reads writes ops]; cbn in Hok. destruct_and!.
    unfold parse_instruction_definition, encode_definition. cbn.
    rewrite <- (app_nil_r (concat (map encode_operand _))).
    assert (zlen ops <= 4) as Hops4.
    { rename select (definition_rejected _ _ _ _ _ _ = false) into Hrej.
      unfold definition_rejected in Hrej. rewrite !orb_false_iff in Hrej.
      destruct_and!. unfold MAX_MEMORY_OPERAND_COUNT in *. lia. }
    repeat (print_step; try first [done | unfold zlen in *; machine; lia]).
    eapply prints_bind; [by apply prints_registers|].
    eapply prints_bind; [by apply prints_registers|]. print_step.
    eapply prints_bind; [|repeat print_step].
    rewrite <- (concat_zip_ignore encode_operand (seqZ 0 (zlen ops)))
      by (rewrite length_seqZ; unfold zlen; lia).
    apply prints_for_each. eapply Forall2_impl.
    { apply (Forall2_seqZ_replicate operand_ok); [unfold zlen; lia|done]. }
    intros x o Ho r'. by apply prints_operand.
Qed.

(** ** INSTRUCTION *)

Definition encode_values (l : list RegisterObservation) : bytes :=
  concat (map (fun o => le_bytes 8 (ro_value o)) l).

#[global] Arguments encode_values : simpl never.

Definition encode_instruction (v : Z * Instruction) : bytes :=
  let '(sequence, i) := v in
  le_bytes 8 sequence ++ le_bytes 4 (in_module_id i) ++ le_bytes 8 (in_relative_pc i)
    ++ le_bytes 4 (in_definition_id i) ++ le_bytes 1 (zlen (in_read_before i))
    ++ le_bytes 1 (zlen (in_write_after i))
    ++ encode_values (in_read_before i) ++ encode_values (in_write_after i).

(** An observation names the register it was taken of. *)
Definition observation_ok (r : RegisterWire) (o : RegisterObservation) : Prop :=
  ro_slot o = rw_slot r /\ ro_captured_width o = rw_width r /\ ro_name o = rw_name r
  /\ in_u64 (ro_value o) /\ zlen (rw_name r) <= u64_max.

(** What the dictionaries of the cursor admit. *)
Definition instruction_ok (q : QtrbEventCursor) (v : Z * Instruction) : Prop :=
  let '(sequence, i) := v in
  in_u64 sequence /\ in_u32 (in_module_id i) /\ in_u64 (in_relative_pc i)
  /\ in_u32 (in_definition_id i)
  /\ is_Some (q_modules q !! in_module_id i)
  /\ exists d, q_definitions q !! in_definition_id i = Some d
     /\ in_u8 (zlen (dw_reads d)) /\ in_u8 (zlen (dw_writes d))
     /\ Forall2 observation_ok (dw_reads d) (in_read_before i)
     /\ Forall2 observation_ok (dw_writes d) (in_write_after i).

Lemma Forall2_zlen {A B} (P : A -> B -> Prop) l k : Forall2 P l k -> zlen l = zlen k.
Proof. intros H%Forall2_length. unfold zlen. by rewrite H. Qed.

Lemma parses_observations {W} `{WorkGuard W} `{Allocator W} detail rs rest
    (Q : list RegisterObservation -> bytes -> Prop) :
  (forall out rest', Forall2 observation_ok rs out -> rest = encode_values out ++ rest' ->
     Q out rest') ->
  parses (W := W) (for_each rs (observation detail)) rest Q.
Proof.
  intros HQ.
  eapply (parses_for_each _ _ (fun _ o => le_bytes 8 (ro_value o)) observation_ok).
  - intros x r _. unfold observation. repeat parse_step. unfold observation_ok. split_and!; done.
  - intros out r Hout ->. apply HQ; [done|].
    rewrite (concat_zip_ignore (fun o => le_bytes 8 (ro_value o))) by (by eapply Forall2_length).
    done.
Qed.

Lemma prints_observations detail rs out rest :
  Forall2 observation_ok rs out ->
  prints (for_each rs (observation detail)) (encode_values out ++ rest) out rest.
Proof.
  intros Hout. unfold encode_values.
  rewrite <- (concat_zip_ignore (fun o => le_bytes 8 (ro_value o)) rs) by (by eapply Forall2_length).
  apply prints_for_each. eapply Forall2_impl; [exact Hout|].
  intros x [s w n v] (Hs & Hw & Hn & Hv & Hb) r. cbn in *. subst. unfold observation.
  repeat (print_step; try done).
Qed.

#[export] Instance codec_instruction q r :
  Codec (fun W G H => @parse_instruction W G H q r) encode_instruction (instruction_ok q).
Proof.
  split.
  - intros W G H rest. unfold parse_instruction. repeat parse_step.
    destruct (q_modules q !! _) eqn:Hm; [|parse_step].
    destruct (q_definitions q !! _) as [d|] eqn:Hd; [|parse_step].
    do 2 parse_step. rename select (_ || _ = false) into Hcount.
    rewrite orb_false_iff, !negb_false_iff, !Z.eqb_eq in Hcount. destruct Hcount as [-> ->].
    repeat parse_step. apply parses_observations. intros out1 r1 Hout1 ->. repeat parse_step.
    apply parses_observations. intros out2 r2 Hout2 ->. repeat parse_step. split; [done|].
    unfold instruction_ok, encode_instruction. cbn. rewrite app_nil_r.
    rewrite <- (Forall2_zlen _ _ _ Hout1), <- (Forall2_zlen _ _ _ Hout2). split; [|done].
    split_and!; [done..|by rewrite Hm|by exists d].
  - intros [sequence [id m pc out1 out2]] (Hs & Hm & Hpc & Hid & [mw Hmw] & d & Hd & Hn1 & Hn2 & H1 & H2).
    cbn in *. unfold parse_instruction.
    rewrite <- (app_nil_r (encode_values out2)), <- (Forall2_zlen _ _ _ H1), <- (Forall2_zlen _ _ _ H2).
    repeat (print_step; try done). rewrite Hmw, Hd, !Z.eqb_refl. cbn [negb orb].
    repeat (print_step; try done). eapply prints_bind; [by apply prints_observations|].
    print_step. eapply prints_bind; [by apply prints_observations|]. repeat print_step.
Qed.

(** ** MEMORY *)

Definition encode_direction (d : MemoryDirection) : bytes :=
  le_bytes 1 (match d with Read => 1 | Write => 2 | ReadWrite => 3 | DirUnknown => 0 end).

Definition encode_capture (c : CaptureBytes) : bytes :=
  match c with
  | NotCaptured => le_bytes 1 0 ++ le_bytes 1 0
  | CapturedBytes bs => le_bytes 1 1 ++ le_bytes 1 (zlen bs) ++ bs
  | Unavailable => le_bytes 1 2 ++ le_bytes 1 0
  end.

Definition capture_ok (c : CaptureBytes) : Prop :=
  match c with CapturedBytes bs => zlen bs <= MAX_CAPTURED_MEMORY_BYTES | _ => True end.

Definition encode_memory (m : Memory) : bytes :=
  le_bytes 4 (me_module_id m) ++ le_bytes 8 (me_relative_pc m) ++ encode_direction (me_direction m)
    ++ bool_byte (me_metadata_available m) ++ le_bytes 2 (me_flags m) ++ le_bytes 8 (me_address m)
    ++ le_bytes 4 (me_size m) ++ le_bytes 8 (me_value m)
    ++ encode_capture (me_before m) ++ encode_capture (me_after m).

Definition memory_fields_ok (m : Memory) : Prop :=
  in_u32 (me_module_id m) /\ in_u64 (me_relative_pc m) /\ me_direction m <> DirUnknown
  /\ in_u16 (me_flags m) /\ in_u64 (me_address m) /\ in_u32 (me_size m) /\ in_u64 (me_value m)
  /\ capture_ok (me_before m) /\ capture_ok (me_after m).

Definition memory_ok (q : QtrbEventCursor) (m : Memory) : Prop :=
  memory_fields_ok m /\ is_Some (q_modules q !! me_module_id m).

Lemma parses_capture {W} `{WorkGuard W} `{Allocator W} field c rest
    (Q : CaptureBytes -> bytes -> Prop) :
  (forall s rest', capture_ok s -> rest = encode_capture s ++ rest' -> Q s rest') ->
  parses (W := W) (decode_memory_state field c) rest Q.
Proof.
  intros HQ. unfold decode_memory_state. repeat parse_step.
  apply parses_take; [machine; lia|]. intros bs r Hlen ->. repeat parse_step.
  rename select (negb _ = false) into Hstate. rewrite negb_false_iff, !orb_true_iff, !andb_true_iff,
    !Z.eqb_eq in Hstate. rename select (in_u8 v0) into Hu8.
  destruct Hstate as [[Hstate|Hstate]|Hstate]; [destruct Hstate as [-> ->]|subst v|destruct Hstate as [-> ->]].
  - apply parses_ret, HQ; [done|]. by destruct bs.
  - repeat parse_step. apply HQ; cbn; [lia|]. by rewrite Hlen, <- !app_assoc.
  - apply parses_ret, HQ; [done|]. by destruct bs.
Qed.

Lemma prints_capture field c s rest :
  capture_ok s -> prints (decode_memory_state field c) (encode_capture s ++ rest) s rest.
Proof.
  intros Hs. unfold decode_memory_state.
  destruct s as [| |bs]; cbn [encode_capture]; rewrite <- !app_assoc;
    repeat (print_step; try done).
  - eapply prints_bind; [by apply (prints_take 0 [])|]. repeat (print_step; try done).
  - eapply prints_bind; [by apply (prints_take 0 [])|]. repeat (print_step; try done).
  - cbn in Hs. unfold MAX_CAPTURED_MEMORY_BYTES in Hs. unfold zlen in *. machine. lia.
  - cbn in Hs. lia.
  - eapply prints_bind; [by apply prints_take|]. repeat (print_step; try done).
Qed.

#[export] Instance codec_memory q r :
  Codec (fun W G H => @parse_memory W G H q r) encode_memory (memory_ok q).
Proof.
  split.
  - intros W G H rest. unfold parse_memory. do 6 parse_step.
    rename select (in_u8 _) into Hdir. parse_step.
    eapply parses_mono with (Q := fun d r' => d <> DirUnknown /\ le_bytes 1 v1 = encode_direction d /\ r' = rest').
    { destruct (v1 =? 1) eqn:E1; [apply Z.eqb_eq in E1 as ->; by apply parses_ret|].
      destruct (v1 =? 2) eqn:E2; [apply Z.eqb_eq in E2 as ->; by apply parses_ret|].
      destruct (v1 =? 3) eqn:E3; [apply Z.eqb_eq in E3 as ->; by apply parses_ret|].
      repeat (case_match; try lia; try apply parses_throw). }
    intros d r' (Hd & -> & ->). repeat parse_step.
    apply parses_capture. intros before r1 Hb ->. parse_step.
    apply parses_capture. intros after r2 Ha ->. repeat parse_step. split; [done|].
    rename select ((_ >? 1) = false) into Hmeta.
    unfold memory_ok, memory_fields_ok, encode_memory. cbn. rewrite app_nil_r.
    split; [split|]; [split_and!; done|by destruct (q_modules q !! v)|].
    unfold bool_byte. do 3 f_equal. machine. destruct (v2 =? 1) eqn:E; do 3 f_equal; lia.
  - intros [mid pc addr size dir avail flags value before after].
    intros ((H1 & H2 & H3 & H4 & H5 & H6 & H7 & H8 & H9) & [mw Hm]). cbn in *.
    unfold parse_memory, encode_memory. cbn. rewrite <- (app_nil_r (encode_capture after)).
    repeat (print_step; try done).
    { by destruct dir. }
    eapply (prints_bind _ _ _ dir); [destruct dir; try done; apply prints_ret|].
    unfold bool_byte. repeat (print_step; try first [done | by destruct avail | by rewrite Hm]).
    eapply prints_bind; [by apply prints_capture|].
    eapply prints_bind; [by apply prints_capture|].
    print_step. destruct avail; apply prints_ret.
Qed.

(** ** CALL, RULE and ERROR *)

Definition encode_optional (o : option bytes) : bytes :=
  match o with Some s => encode_string s | None => [] end.

Definition encode_semantic (v : option bytes * bytes * bytes) : bytes :=
  let '(category, name, detail) := v in
  encode_optional category ++ encode_string name ++ encode_string detail.

Definition name_limit (kind : FragmentKind) : Z :=
  if is_call kind then MAX_CALL_NAME_BYTES else MAX_EVENT_NAME_BYTES.

(** CALL records carry a category, the others do not. *)
Definition category_ok (text : Z -> bytes -> Prop) (kind : FragmentKind) (o : option bytes) : Prop :=
  match o with
  | Some s => kind = FCall /\ text MAX_CALL_CATEGORY_BYTES s
  | None => kind <> FCall
  end.

Definition semantic_ok (kind : FragmentKind) (v : option bytes * bytes * bytes) : Prop :=
  let '(category, name, detail) := v in
  category_ok text_ok kind category /\ text_ok (name_limit kind) name
  /\ text_ok MAX_EVENT_DETAIL_BYTES detail.

(** Evaluate [is_call] at a constructor. *)
Ltac eval_call :=
  repeat match goal with
    |- context [is_call ?k] => let b := eval vm_compute in (is_call k) in change (is_call k) with b
  end; cbv iota.

#[export] Instance codec_semantic kind :
  Codec (fun W G H => @parse_semantic W G H kind) encode_semantic (semantic_ok kind).
Proof.
  split.
  - intros W G H rest. unfold parse_semantic. parse_step.
    unfold semantic_ok, encode_semantic, text_ok, category_ok.
    destruct kind; eval_call; repeat parse_step; cbn;
      rewrite ?app_nil_r; split_and!; done.
  - intros [[category name] detail] (Hc & (Hn1 & Hn2 & Hn3) & (Hd1 & Hd2 & Hd3)).
    unfold parse_semantic, encode_semantic. rewrite <- (app_nil_r (encode_string detail)).
    eapply (prints_bind _ _ _ category).
    + destruct category as [s|]; cbn in Hc.
      * destruct Hc as [-> (Hs1 & Hs2 & Hs3)]. eval_call. cbn [encode_optional]. repeat (print_step; try done).
      * replace (is_call kind) with false by (by destruct kind). apply prints_ret.
    + repeat (print_step; try done).
Qed.

(** ** Fragments *)

Definition raw_ok (maximum : Z) (s : bytes) : Prop := zlen s <= maximum /\ in_u16 (zlen s).

Definition fragment_fields : Type := Z * Z * Z * Z * option bytes * bytes * bytes.

Definition encode_fragment (v : fragment_fields) : bytes :=
  let '(event_id, total, index, count, category, name, detail) := v in
  le_bytes 8 event_id ++ le_bytes 4 total ++ le_bytes 2 index ++ le_bytes 2 count
    ++ encode_optional category ++ encode_string name ++ encode_string detail.

Definition chunk_limit (kind : FragmentKind) : Z :=
  if is_call kind then MAX_CALL_CHUNK_DETAIL_BYTES else MAX_EVENT_CHUNK_DETAIL_BYTES.

Definition fragment_ok (kind : FragmentKind) (v : fragment_fields) : Prop :=
  let '(event_id, total, index, count, category, name, detail) := v in
  in_u64 event_id /\ in_u32 total /\ in_u16 index /\ in_u16 count
  /\ category_ok raw_ok kind category /\ raw_ok (name_limit kind) name
  /\ raw_ok (chunk_limit kind) detail.

Lemma parses_raw {W} `{WorkGuard W} `{Allocator W} maximum field c rest
    (Q : bytes -> bytes -> Prop) :
  (forall s rest', raw_ok maximum s -> rest = encode_string s ++ rest' -> Q s rest') ->
  parses (W := W) (decode_bounded_raw maximum field c) rest Q.
Proof.
  intros HQ. unfold decode_bounded_raw. repeat parse_step.
  apply parses_take; [machine; lia|]. intros bs r <- ->. repeat parse_step.
  apply HQ; [split; [lia|done]|]. unfold encode_string. by rewrite <- app_assoc.
Qed.

Lemma prints_raw maximum field c s rest :
  raw_ok maximum s -> prints (decode_bounded_raw maximum field c) (encode_string s ++ rest) s rest.
Proof.
  intros [Hm Hu]. unfold decode_bounded_raw, encode_string. rewrite <- app_assoc.
  repeat (print_step; try done); [lia|]. eapply prints_bind; [by apply prints_take|].
  apply prints_copy_bytes.
Qed.

#[export] Instance codec_fragment r kind :
  Codec (fun W G H => @parse_fragment W G H r kind) encode_fragment (fragment_ok kind).
Proof.
  split.
  - intros W G H rest. unfold parse_fragment. repeat parse_step.
    match goal with |- parses _ ?r1 _ =>
      eapply (parses_mono _ _ (fun cat r2 => category_ok raw_ok kind cat
                                             /\ r1 = encode_optional cat ++ r2))
    end.
    { destruct kind; eval_call; repeat parse_step;
        [apply parses_raw; intros s r1 Hs ->; parse_step|..]; done. }
    intros cat r1 [Hcat ->]. parse_step. apply parses_raw. intros name r2 Hname ->. parse_step.
    apply parses_raw. intros detail r3 Hdetail ->. repeat parse_step.
    unfold fragment_ok, encode_fragment. rewrite app_nil_r. split_and!; done.
  - intros [[[[[[event_id total] index] count] cat] name] detail] Hok. unfold fragment_ok in Hok.
    destruct_and!. unfold parse_fragment, encode_fragment.
    rewrite <- (app_nil_r (encode_string detail)). repeat (print_step; try done).
    eapply (prints_bind _ _ _ cat).
    + destruct cat as [s|]; cbn in *.
      * rename select (_ /\ _) into Hcat. destruct Hcat as [-> Hs]. eval_call.
        eapply prints_bind; [by apply prints_raw|apply prints_ret].
      * replace (is_call kind) with false by (by destruct kind). apply prints_ret.
    + eapply prints_bind; [by apply prints_raw|].
      eapply prints_bind; [by apply prints_raw|]. repeat print_step.
Qed.

(** ** TRACE_END and TRACE_STOP *)

Definition encode_metrics (l : list Z) : bytes := concat (map (le_bytes 8) l).

Definition metrics_ok (l : list Z) : Prop := zlen l = 10 /\ Forall in_u64 l.

Definition encode_trace_end (v : Z * Z * Z * list Z) : bytes :=
  let '(success, return_value, elapsed, metrics) := v in
  le_bytes 1 success ++ le_bytes 8 return_value ++ le_bytes 8 elapsed ++ encode_metrics metrics.

Definition trace_end_ok (v : Z * Z * Z * list Z) : Prop :=
  let '(success, return_value, elapsed, metrics) := v in
  in_u8 success /\ in_u64 return_value /\ in_u64 elapsed /\ metrics_ok metrics.

Definition encode_trace_stop (v : Z * bytes * Z * list Z) : bytes :=
  let '(reason, reserved, elapsed, metrics) := v in
  le_bytes 1 reason ++ reserved ++ le_bytes 8 elapsed ++ encode_metrics metrics.

Definition trace_stop_ok (v : Z * bytes * Z * list Z) : Prop :=
  let '(reason, reserved, elapsed, metrics) := v in
  in_u8 reason /\ zlen reserved = 7 /\ in_u64 elapsed /\ metrics_ok metrics.

Lemma parses_metrics {W} `{WorkGuard W} `{Allocator W} rest (Q : list Z -> bytes -> Prop) :
  (forall l rest', metrics_ok l -> rest = encode_metrics l ++ rest' -> Q l rest') ->
  parses (W := W) decode_metrics rest Q.
Proof.
  intros HQ. unfold decode_metrics.
  eapply (parses_for_each _ _ (fun _ => le_bytes 8) (fun _ => in_u64)).
  - intros x r _. by parse_step.
  - intros out r Hout ->. apply HQ.
    + by apply Forall2_seqZ_replicate in Hout.
    + unfold encode_metrics. by rewrite concat_zip_ignore by (by eapply Forall2_length).
Qed.

Lemma prints_metrics l rest : metrics_ok l -> prints decode_metrics (encode_metrics l ++ rest) l rest.
Proof.
  intros [Hlen Hl]. unfold decode_metrics, encode_metrics.
  rewrite <- (concat_zip_ignore (le_bytes 8) (seqZ 0 10))
    by (rewrite length_seqZ; unfold zlen in Hlen; lia).
  apply prints_for_each. eapply Forall2_impl;
    [by apply (Forall2_seqZ_replicate in_u64 10); [|split]|].
  intros x v Hv r. by apply prints_u64.
Qed.

#[export] Instance codec_trace_end : Codec (fun W _ _ => @parse_trace_end W) encode_trace_end trace_end_ok.
Proof.
  split.
  - intros W G H rest. unfold parse_trace_end. repeat parse_step.
    apply parses_metrics. intros l r Hl ->. repeat parse_step. cbn. rewrite app_nil_r.
    split_and!; done.
  - intros [[[s rv] e] l] (Hs & Hr & He & Hl). unfold parse_trace_end, encode_trace_end.
    rewrite <- (app_nil_r (encode_metrics l)). repeat (print_step; try done).
    eapply prints_bind; [by apply prints_metrics|]. repeat print_step.
Qed.

#[export] Instance codec_trace_stop : Codec (fun W _ _ => @parse_trace_stop W) encode_trace_stop trace_stop_ok.
Proof.
  split.
  - intros W G H rest. unfold parse_trace_stop. repeat parse_step.
    apply parses_take; [done|]. intros reserved r Hres ->. repeat parse_step.
    apply parses_metrics. intros l r' Hl ->. repeat parse_step. cbn. rewrite app_nil_r.
    split_and!; done.
  - intros [[[s rv] e] l] (Hs & Hr & He & Hl). unfold parse_trace_stop, encode_trace_stop.
    rewrite <- (app_nil_r (encode_metrics l)). repeat (print_step; try done).
    eapply prints_bind; [by apply prints_take|]. repeat (print_step; try done).
    eapply prints_bind; [by apply prints_metrics|]. repeat print_step.
Qed.

(** ** Framing *)

Definition encode_record_header (v : Z * Z * Z) : bytes :=
  let '(raw_type, flags, size) := v in le_bytes 2 raw_type ++ le_bytes 2 flags ++ le_bytes 4 size.

Definition record_header_ok (v : Z * Z * Z) : Prop :=
  let '(raw_type, flags, size) := v in in_u16 raw_type /\ in_u16 flags /\ in_u32 size.

#[export] Instance codec_record_fields :
  Codec (fun W _ _ => @parse_record_fields W) encode_record_header record_header_ok.
Proof.
  split.
  - intros W G H rest. unfold parse_record_fields. repeat parse_step. cbn.
    rewrite app_nil_r. split_and!; done.
  - intros [[t f] n] (Ht & Hf & Hn). unfold parse_record_fields, encode_record_header.
    rewrite <- (app_nil_r (le_bytes 4 n)). repeat (print_step; try done).
Qed.

(** A whole record. *)
Definition encode_record (t : RecordType) (flags : Z) (payload : bytes) : bytes :=
  encode_record_header (to_raw t, flags, zlen payload) ++ payload.

Definition encode_header (h : StreamHeader) (pointer_width : Z) : bytes :=
  MAGIC ++ le_bytes 1 MAJOR_VERSION ++ le_bytes 1 (sh_minor h) ++ le_bytes 1 LITTLE_ENDIAN_MARKER
    ++ le_bytes 1 pointer_width ++ le_bytes 1 (sh_profile h) ++ le_bytes 1 0
    ++ le_bytes 2 STREAM_HEADER_BYTES ++ le_bytes 4 (sh_required_features h).
