(* ===== verification/QtrbSteps.v ===== *)
(** * The QTRB stream as a step relation

    The abstract specification of the event cursor.  [framed] says which bytes
    of the source form the next record, [decodes] what each record type does to
    the cursor state and which event it yields, [turn] what one turn of the
    cursor loop may do and [reaches] which histories of events a cursor can
    have produced.  Nothing here mentions guards, heaps or errors. *)

From stdpp Require Import prelude list strings pretty gmap.
From Stdlib Require Import ZArith Lia Strings.Byte.
From S2P Require Import Prelude Prog Control Model Source QtrbWire QtrbPayload QtrbCodec.
From S2P Require Import QtrbEvents Qtrb QtrbFormat.
Local Open Scope string_scope.
Local Open Scope list_scope.
Local Open Scope Z_scope.

(** ** Framing *)

(** The cursor past a record with a payload of [n] bytes. *)
Definition past_record (n : Z) (q : QtrbEventCursor) : QtrbEventCursor :=
  set_counters (count_record n (q_counters q))
    (set_next_ordinal (q_next_ordinal q + 1)
       (set_offset (q_offset q + RECORD_HEADER_BYTES + n) q)).

(** The record types, flags and payload sizes a stream may use. *)
Definition frame_ok (h : StreamHeader) (raw_type flags n : Z) : Prop :=
  match from_raw raw_type with
  | Some t => exists limit, payload_limit t flags = Some limit /\ n <= limit
  | None =>
      OPTIONAL_RECORD_TYPE_MIN <= raw_type /\ 1 <= sh_minor h /\ flags = 0
      /\ n <= MAX_OPAQUE_PAYLOAD_BYTES
  end.

Inductive framed (content : bytes) (q : QtrbEventCursor) : PhysicalRecord -> QtrbEventCursor -> Prop :=
| framed_record raw_type flags payload :
    record_header_ok (raw_type, flags, zlen payload) ->
    frame_ok (q_header q) raw_type flags (zlen payload) ->
    slice content (q_offset q) RECORD_HEADER_BYTES
      = encode_record_header (raw_type, flags, zlen payload) ->
    slice content (q_offset q + RECORD_HEADER_BYTES) (zlen payload) = payload ->
    q_offset q + RECORD_HEADER_BYTES + zlen payload <= zlen content ->
    q_next_ordinal q + 1 <= u64_max ->
    framed content q
      (mkPhysicalRecord (from_raw raw_type) raw_type flags payload (q_offset q) (q_next_ordinal q))
      (past_record (zlen payload) q).

(** ** Decoding *)

(** A dictionary takes an entry it does not contradict while it has room. *)
Definition dictionary_admits {V} (m : gmap Z V) (id : Z) (v : V) : Prop :=
  match m !! id with
  | Some existing => existing = v
  | None => Z.of_nat (size m) < MAX_DICTIONARY_ENTRIES
  end.

Definition register_definition_of (r : RegisterWire) : RegisterDefinition :=
  mkRegisterDefinition (rw_slot r) (rw_width r) (rw_name r).

Definition definition_of (id : Z) (d : InstructionDefinitionWire) : InstructionDefinition :=
  mkInstructionDefinition id (dw_opcode d) (dw_read_mask d) (dw_write_mask d) (dw_displacement d)
    (dw_flags d) (typed_pc_kind (dw_pc_kind d)) (dw_condition d) (dw_slow_memory_path d =? 1)
    (dw_mnemonic d) (dw_operands d) (dw_disassembly d) (map register_definition_of (dw_reads d))
    (map register_definition_of (dw_writes d)) (map typed_memory_operand (dw_memory_operands d)).

Definition terminal_of (metrics : list Z) (d : TerminalDraft) : Termination :=
  mkTermination (dr_kind d) (dr_reason d) (dr_return_value d) (dr_elapsed_ms d)
    (mkTerminalMetrics (metrics !!! 0%nat) (metrics !!! 1%nat) (metrics !!! 2%nat)
       (metrics !!! 3%nat) (metrics !!! 4%nat) (metrics !!! 5%nat) (metrics !!! 6%nat)
       (metrics !!! 7%nat) (metrics !!! 8%nat) (metrics !!! 9%nat)) None.

(** The terminal's counters describe the stream read so far. *)
Definition terminal_matches (q : QtrbEventCursor) (metrics : list Z) : Prop :=
  q_offset q = src_len (q_source q)
  /\ metrics !!! 0%nat = q_instruction_count q
  /\ metrics !!! 1%nat = q_offset q
  /\ metrics !!! 9%nat = q_effective_buffer_bytes q.

(** The fragment group a continuation record belongs to. *)
Definition group_of (q : QtrbEventCursor) (r : PhysicalRecord) (kind : FragmentKind)
    (v : fragment_fields) : option PendingFragment :=
  let '(event_id, total, index, count, category, name, detail) := v in
  match q_pending q with
  | Some p => Some p
  | None =>
      if index =? 0
      then Some (mkPending kind event_id total count 0 category name [] (pr_offset r)
                   (pr_ordinal r) [])
      else None
  end.

(** The continuation carries the metadata of its group and the next index. *)
Definition group_accepts (p : PendingFragment) (kind : FragmentKind) (v : fragment_fields) : Prop :=
  let '(event_id, total, index, count, category, name, detail) := v in
  pf_kind p = kind /\ pf_event_id p = event_id /\ pf_total_detail_bytes p = total
  /\ pf_chunk_count p = count /\ pf_category p = category /\ pf_name p = name
  /\ index = pf_next_index p
  /\ zlen (pf_detail p) + zlen detail <= pf_total_detail_bytes p.

Definition fragment_admitted (kind : FragmentKind) (v : fragment_fields) : Prop :=
  let '(event_id, total, index, count, category, name, detail) := v in
  fragment_rejected kind event_id total index count detail = false.

Definition fragment_detail (v : fragment_fields) : bytes := snd v.

(** The record an assembled group is attributed to. *)
Definition first_record (p : PendingFragment) (r : PhysicalRecord) : PhysicalRecord :=
  mkPhysicalRecord (pr_record_type r) (pr_raw_type r) (pr_flags r) [] (pf_first_offset p)
    (pf_first_ordinal p).

Definition group_complete (p : PendingFragment) : Prop :=
  zlen (pf_detail p) = pf_total_detail_bytes p
  /\ zlen (pf_fragment_offsets p) = pf_chunk_count p
  /\ from_option utf8_valid true (pf_category p) = true
  /\ utf8_valid (pf_name p) = true /\ utf8_valid (pf_detail p) = true.

(** What [decode_record] may do, one rule per kind of record. *)
Inductive decodes (q : QtrbEventCursor) (r : PhysicalRecord) :
    option EventRecord -> QtrbEventCursor -> Prop :=
| decodes_begin compression m tid :
    pr_record_type r = Some TraceBegin ->
    q_began q = false ->
    begin_ok (sh_profile (q_header q), compression, m, tid) ->
    pr_payload r = encode_begin (sh_profile (q_header q), compression, m, tid) ->
    compression = 0 \/ compression = 1 ->
    decodes q r
      (Some (event (set_began tid (bm_effective_buffer_bytes m) q) r None (Begin m)))
      (set_began tid (bm_effective_buffer_bytes m) q)
| decodes_module id base name :
    pr_record_type r = Some TModuleDefinition ->
    module_ok (id, base, name) ->
    pr_payload r = encode_module (id, base, name) ->
    dictionary_admits (q_modules q) id (mkModuleWire base name) ->
    decodes q r
      (Some (event q r None (PModuleDefinition (mkModuleDefinition id base name))))
      (set_modules (<[id := mkModuleWire base name]> (q_modules q)) q)
| decodes_definition id d :
    pr_record_type r = Some TInstructionDefinition ->
    definition_ok (id, d) ->
    pr_payload r = encode_definition (id, d) ->
    dictionary_admits (q_definitions q) id d ->
    decodes q r
      (Some (event q r None (PInstructionDefinition (definition_of id d))))
      (set_definitions (<[id := d]> (q_definitions q)) q)
| decodes_instruction i :
    pr_record_type r = Some TInstruction ->
    instruction_ok q (q_next_sequence q, i) ->
    pr_payload r = encode_instruction (q_next_sequence q, i) ->
    q_next_sequence q + 1 <= u64_max ->
    q_instruction_count q + 1 <= u64_max ->
    decodes q r
      (Some (event q r (Some (q_next_sequence q)) (PInstruction i)))
      (set_instruction_count (q_instruction_count q + 1)
         (set_next_sequence (q_next_sequence q + 1) q))
| decodes_memory m :
    pr_record_type r = Some TMemory ->
    memory_ok q m ->
    pr_payload r = encode_memory m ->
    decodes q r (Some (event q r None (PMemory m))) q
| decodes_semantic kind category name detail :
    pr_record_type r = Some (fragment_record_type kind) ->
    pr_flags r = 0 ->
    semantic_ok kind (category, name, detail) ->
    pr_payload r = encode_semantic (category, name, detail) ->
    decodes q r (Some (semantic_event q r kind category name detail)) q
| decodes_fragment kind v p p' :
    pr_record_type r = Some (fragment_record_type kind) ->
    pr_flags r <> 0 ->
    kind = FCall \/ sh_minor (q_header q) <> 0 ->
    fragment_ok kind v ->
    pr_payload r = encode_fragment v ->
    fragment_admitted kind v ->
    group_of q r kind v = Some p ->
    group_accepts p kind v ->
    p' = extend_pending p r (fragment_detail v) ->
    pf_next_index p' < pf_chunk_count p' ->
    decodes q r None (set_pending (Some p') q)
| decodes_last_fragment kind v p p' e :
    pr_record_type r = Some (fragment_record_type kind) ->
    pr_flags r <> 0 ->
    kind = FCall \/ sh_minor (q_header q) <> 0 ->
    fragment_ok kind v ->
    pr_payload r = encode_fragment v ->
    fragment_admitted kind v ->
    group_of q r kind v = Some p ->
    group_accepts p kind v ->
    p' = extend_pending p r (fragment_detail v) ->
    pf_chunk_count p' <= pf_next_index p' ->
    group_complete p' ->
    (let e0 := semantic_event q (first_record p' r) kind (pf_category p') (pf_name p')
                 (pf_detail p') in
     with_fragment_source_offsets (ev_key e0) (ev_provenance e0) (ev_payload e0)
       (pf_fragment_offsets p') = Some e) ->
    decodes q r (Some e) (set_pending None q)
| decodes_end return_value elapsed metrics :
    pr_record_type r = Some TraceEnd ->
    trace_end_ok (1, return_value, elapsed, metrics) ->
    pr_payload r = encode_trace_end (1, return_value, elapsed, metrics) ->
    terminal_matches q metrics ->
    let t := terminal_of metrics (mkDraft Completed None (Some return_value) elapsed) in
    decodes q r (Some (event q r None (PTermination t))) (set_terminal t q)
| decodes_stop reason elapsed metrics :
    pr_record_type r = Some TraceStop ->
    sh_minor (q_header q) = 2 ->
    Z.land (sh_required_features (q_header q)) STOPPED_TERMINAL_FEATURE <> 0 ->
    1 <= reason <= 4 ->
    trace_stop_ok (reason, replicate 7 x00, elapsed, metrics) ->
    pr_payload r = encode_trace_stop (reason, replicate 7 x00, elapsed, metrics) ->
    terminal_matches q metrics ->
    let t := terminal_of metrics (mkDraft Stopped (Some (stop_reason reason)) None elapsed) in
    decodes q r (Some (event q r None (PTermination t))) (set_terminal t q)
| decodes_opaque :
    pr_record_type r = None ->
    decodes q r
      (Some (event q r None
               (OpaqueOptional (mkOpaque (pr_raw_type r) (pr_flags r) (pr_payload r)))))
      (set_counters (count_opaque (q_counters q)) q).

(** ** Turns and histories *)

Definition order_ok (q : QtrbEventCursor) (r : PhysicalRecord) : Prop :=
  (q_began q = true \/ pr_record_type r = Some TraceBegin)
  /\ forall p, q_pending q = Some p ->
       pr_record_type r = Some (fragment_record_type (pf_kind p)) /\ pr_flags r = CHUNK_FLAG.

(** The cursor at the end of the stream. *)
Definition finished (q : QtrbEventCursor) : QtrbEventCursor :=
  set_drained (set_completeness
    (insert_first_range (source_bytes_with_cause 0 (q_offset q) Captured Retained)
       (if q_terminal_seen q then q_completeness q
        else push_range (source_bytes_with_cause (q_offset q) (q_offset q) ProvUnknown
                           MissingTerminal) (q_completeness q))) q).

Definition counted (e : option EventRecord) (q : QtrbEventCursor) : QtrbEventCursor :=
  match e with Some _ => set_counters (count_event (q_counters q)) q | None => q end.

Inductive turn (content : bytes) (q : QtrbEventCursor) :
    option (option EventRecord) -> QtrbEventCursor -> Prop :=
| turn_record r q1 e q2 :
    q_terminal_seen q = false ->
    framed content q r q1 ->
    order_ok q1 r ->
    decodes q1 r e q2 ->
    turn content q (Some <$> e) (counted e q2)
| turn_finish :
    q_offset q = zlen content ->
    q_pending q = None ->
    q_began q = true ->
    zlen content = si_source_bytes (q_identity q) ->
    q_terminal_seen q = true \/ q_mode q = RecoverablePartial ->
    turn content q (Some None) (finished q).

(** The events of a turn. *)
Definition turn_events (o : option (option EventRecord)) : list EventRecord :=
  match o with Some (Some e) => [e] | _ => [] end.

(** The histories a cursor can have produced from [q0]: turns are taken until
    the stream is drained. *)
Inductive reaches (content : bytes) (q0 : QtrbEventCursor) :
    list EventRecord -> QtrbEventCursor -> Prop :=
| reaches_start : reaches content q0 [] q0
| reaches_turn history q o q' :
    reaches content q0 history q ->
    q_drained q = false ->
    turn content q o q' ->
    reaches content q0 (history ++ turn_events o) q'.
