(* ===== verification/QtrbSound.v ===== *)
(** * The cursor implements the step relation

    In every world, whatever the code accepts is a step of [QtrbSteps]: a record
    it reads is [framed], a record it decodes [decodes], a turn it completes is
    a [turn], and a [next_event] that returns extends the history.  The loop of
    [next_event] terminates on every lawful source. *)

From stdpp Require Import prelude list strings pretty gmap.
From Stdlib Require Import ZArith Lia Strings.Byte.
From S2P Require Import Prelude Prog Control Model Source QtrbWire QtrbPayload QtrbCodec.
From S2P Require Import QtrbEvents Qtrb QtrbFormat QtrbSteps.
Local Open Scope string_scope.
Local Open Scope list_scope.
Local Open Scope Z_scope.

Section sound.
Context {W : Type} `{G : WorkGuard W} `{A : Allocator W}.

(** Only successful runs matter here. *)
Abbreviation accepts p Q s := (wp (W := W) p Q (fun _ _ => True) s).

Section receiver.
Context {S : Type}.
Implicit Types s : S.

Lemma accepts_consume d (Q : unit -> S -> Prop) s : Q tt s -> accepts (consume d) Q s.
Proof. intros HQ. by apply wp_consume. Qed.

Lemma accepts_reserve t cap len n d (Q : unit -> S -> Prop) s :
  Q tt s -> accepts (try_reserve_vec_exact t cap len n d) Q s.
Proof. intros HQ. apply wp_bind, wp_reserve_vec; [apply _| |done]. intros. by apply wp_ret. Qed.

Lemma accepts_copy_string bs d (Q : bytes -> S -> Prop) s :
  Q bs s -> accepts (try_copy_string bs d) Q s.
Proof. intros HQ. by apply wp_copy_string; [apply _| |]. Qed.

Lemma accepts_copy_bytes bs d (Q : bytes -> S -> Prop) s :
  Q bs s -> accepts (try_copy_bytes bs d) Q s.
Proof. intros HQ. by apply wp_copy_bytes; [apply _| |]. Qed.

Lemma accepts_reserve_map id t len n d (Q : unit -> S -> Prop) s :
  Q tt s -> accepts (try_reserve_hash_map id t len n d) Q s.
Proof. intros HQ. by apply wp_reserve_map; [apply _| |]. Qed.

(** A loop whose turns return a fixed value and leave the receiver alone. *)
Lemma accepts_map {X B} (xs : list X) (f : X -> Prog W ProviderError S B) (g : X -> B)
    (Q : list B -> S -> Prop) s :
  (forall x (Q' : B -> S -> Prop), Q' (g x) s -> accepts (f x) Q' s) ->
  Q (map g xs) s -> accepts (for_each xs f) Q s.
Proof.
  intros Hf. revert Q. induction xs as [|x xs IH]; intros Q HQ; cbn [for_each].
  - by apply wp_ret.
  - apply wp_bind, Hf, wp_bind, IH, wp_ret. exact HQ.
Qed.

Lemma accepts_typed_definition id d (Q : InstructionDefinition -> S -> Prop) s :
  Q (definition_of id d) s -> accepts (typed_definition id d) Q s.
Proof.
  intros HQ. unfold typed_definition.
  assert (forall x (Q' : RegisterDefinition -> S -> Prop), Q' (register_definition_of x) s ->
            accepts (typed_register x) Q' s) as Hreg.
  { intros x Q' HQ'. by apply wp_bind, accepts_copy_string, wp_ret. }
  apply wp_bind, accepts_reserve, wp_bind, (accepts_map _ _ _ _ _ Hreg).
  apply wp_bind, accepts_reserve, wp_bind, (accepts_map _ _ _ _ _ Hreg).
  apply wp_bind, accepts_reserve, wp_bind, accepts_copy_string.
  by apply wp_bind, accepts_copy_string, wp_bind, accepts_copy_string, wp_ret.
Qed.

Lemma accepts_clone_definition d (Q : InstructionDefinitionWire -> S -> Prop) s :
  Q d s -> accepts (clone_definition_wire d) Q s.
Proof.
  intros HQ. unfold clone_definition_wire.
  assert (forall x (Q' : RegisterWire -> S -> Prop), Q' ((fun x => x) x) s ->
            accepts (clone_register_wire x) Q' s) as Hreg.
  { intros [] Q' HQ'. by apply wp_bind, accepts_copy_string, wp_ret. }
  apply wp_bind, accepts_reserve, wp_bind, (accepts_map _ _ _ _ _ Hreg).
  apply wp_bind, accepts_reserve, wp_bind, (accepts_map _ _ _ _ _ Hreg).
  apply wp_bind, accepts_reserve, wp_bind, accepts_copy_string.
  apply wp_bind, accepts_copy_string, wp_bind, accepts_copy_string, wp_ret.
  rewrite !map_id. by destruct d.
Qed.

End receiver.

Implicit Types (q : QtrbEventCursor) (r : PhysicalRecord).

(** ** Framing *)

Lemma framing_limit_ok h c raw_type flags limit n :
  framing_limit h c raw_type flags = Ok limit -> n <= limit -> frame_ok h raw_type flags n.
Proof.
  unfold framing_limit, frame_ok. destruct (from_raw raw_type) as [t|].
  - destruct (payload_limit t flags) as [l|] eqn:Hl; [|done]. intros [= ->]. by exists limit.
  - destruct (_ && _) eqn:Hc; [|done]. intros [= <-].
    rewrite !andb_true_iff, !Z.leb_le, Z.eqb_eq in Hc. naive_solver.
Qed.

Lemma accepts_read_record content q `{!LawfulSource (q_source q) content} :
  0 <= q_offset q -> accepts read_record (framed content q) q.
Proof.
  intros Ho. unfold read_record. apply wp_bind, wp_get, wp_bind, accepts_consume, wp_bind, wp_result.
  destruct (src_read _ _ _) as [header|] eqn:Hh; [|done]. cbn.
  assert (0 <= RECORD_HEADER_BYTES) as H8 by done.
  destruct (lawful_read_inv _ content _ _ _ Ho H8 Hh) as (Hb & Hslice & Hlen).
  apply wp_bind, wp_option. destruct (checked_add _ _ _) as [po|] eqn:Hpo; [|done].
  apply checked_add_Some in Hpo as [-> Hpo].
  apply wp_bind, wp_modify, wp_bind. unfold parse_record_header.
  apply (wp_codec codec_record_fields G A); [|done].
  intros [[raw flags] n] Hok Henc. cbv zeta.
  apply wp_bind, wp_result. destruct (framing_limit _ _ _ _) as [limit|] eqn:Hlim; [|done].
  apply wp_bind, wp_fail_if; [intros Hn|done].
  apply wp_bind, wp_option. unfold try_from.
  destruct (n <=? usize_max); [|done].
  apply wp_bind, accepts_consume, wp_bind, accepts_reserve, wp_bind, wp_result.
  destruct (src_read (q_source q) (q_offset q + RECORD_HEADER_BYTES) n) as [payload|] eqn:Hp; [|done].
  cbn. destruct Hok as (Hraw & Hflags & Hn32).
  assert (0 <= q_offset q + RECORD_HEADER_BYTES) as Ho8 by (unfold RECORD_HEADER_BYTES; lia).
  assert (0 <= n) as Hn0 by (machine; lia).
  destruct (lawful_read_inv _ content _ _ _ Ho8 Hn0 Hp) as (Hpb & Hpslice & <-).
  apply wp_bind, wp_option. destruct (checked_add _ _ (zlen payload)) as [no|] eqn:Hno; [|done].
  apply checked_add_Some in Hno as [-> Hno].
  apply wp_bind, wp_modify, wp_bind, wp_option.
  destruct (checked_add _ _ 1) as [nn|] eqn:Hnn; [|done]. apply checked_add_Some in Hnn as [-> Hnn].
  apply wp_bind, wp_modify, wp_bind, wp_modify, wp_ret.
  apply (framed_record content q raw flags payload); try done.
  - eapply framing_limit_ok; [exact Hlim|]. lia.
  - by rewrite <- Hslice.
Qed.

(** ** Dictionaries *)

Lemma set_modules_same q : set_modules (q_modules q) q = q.
Proof. by destruct q. Qed.
Lemma set_definitions_same q : set_definitions (q_definitions q) q = q.
Proof. by destruct q. Qed.

Lemma accepts_decode_begin r q :
  pr_record_type r = Some TraceBegin ->
  accepts (decode_begin r) (fun e q' => decodes q r (Some e) q') q.
Proof.
  intros Ht. unfold decode_begin. apply wp_bind, wp_get, wp_bind, wp_fail_if; [intros Hb|done].
  apply wp_bind, (wp_codec codec_begin); [|done].
  intros [[[profile compression] m] tid] Hok Hp. cbv zeta.
  apply wp_bind, wp_fail_if; [intros Hc|done].
  rewrite orb_false_iff, !negb_false_iff, orb_true_iff, !Z.eqb_eq in Hc. destruct Hc as [-> Hc].
  apply wp_bind, wp_modify, wp_bind, wp_get, wp_ret. by eapply decodes_begin.
Qed.

Lemma accepts_decode_module r q :
  pr_record_type r = Some TModuleDefinition ->
  accepts (decode_module r) (fun e q' => decodes q r (Some e) q') q.
Proof.
  intros Ht. unfold decode_module. apply wp_bind, (wp_codec codec_module); [|done].
  intros [[id base] name] Hok Hp. cbv zeta.
  apply wp_bind, accepts_copy_string, wp_bind, wp_get, wp_bind.
  pose proof (decodes_module q r id base name Ht Hok Hp) as Hdec. unfold dictionary_admits in Hdec.
  destruct (q_modules q !! id) as [existing|] eqn:Hid.
  - apply wp_fail_if; [|done]. rewrite negb_false_iff, bool_decide_eq_true. intros ->.
    apply wp_ret. rewrite insert_id, set_modules_same in Hdec by done. by apply Hdec.
  - apply wp_bind, wp_fail_if; [intros Hsize%Z.leb_gt|done].
    apply wp_bind, accepts_reserve_map, wp_modify, wp_ret. by apply Hdec.
Qed.

Lemma accepts_decode_definition r q :
  pr_record_type r = Some TInstructionDefinition ->
  accepts (decode_instruction_definition r) (fun e q' => decodes q r (Some e) q') q.
Proof.
  intros Ht. unfold decode_instruction_definition.
  apply wp_bind, (wp_codec (codec_definition r)); [|done].
  intros [id d] Hok Hp. cbv zeta. apply wp_bind, wp_get, wp_bind.
  pose proof (decodes_definition q r id d Ht Hok Hp) as Hdec. unfold dictionary_admits in Hdec.
  destruct (q_definitions q !! id) as [existing|] eqn:Hid.
  - apply wp_fail_if; [|done]. rewrite negb_false_iff, bool_decide_eq_true. intros ->.
    apply wp_bind, accepts_typed_definition, wp_ret.
    rewrite insert_id, set_definitions_same in Hdec by done. by apply Hdec.
  - apply wp_bind, wp_fail_if; [intros Hsize%Z.leb_gt|done].
    apply wp_bind, accepts_reserve_map, wp_bind, accepts_clone_definition, wp_modify.
    apply wp_bind, accepts_typed_definition, wp_ret. by apply Hdec.
Qed.

Lemma accepts_decode_instruction r q :
  pr_record_type r = Some TInstruction ->
  accepts (decode_instruction r) (fun e q' => decodes q r (Some e) q') q.
Proof.
  intros Ht. unfold decode_instruction. apply wp_bind, wp_get, wp_bind.
  apply (wp_codec (codec_instruction q r)); [|done].
  intros [sequence i] Hok Hp. cbv zeta. apply wp_bind, wp_fail_if; [intros Hs|done].
  rewrite negb_false_iff, Z.eqb_eq in Hs. subst sequence.
  apply wp_bind, wp_option. destruct (checked_add _ _ 1) as [ns|] eqn:Hns; [|done].
  apply checked_add_Some in Hns as [-> Hns]. apply wp_bind, wp_modify, wp_bind, wp_option.
  destruct (checked_add _ (q_instruction_count q) 1) as [ni|] eqn:Hni; [|done].
  apply checked_add_Some in Hni as [-> Hni]. apply wp_bind, wp_modify, wp_ret.
  by apply decodes_instruction.
Qed.

Lemma accepts_decode_memory r q :
  pr_record_type r = Some TMemory ->
  accepts (decode_memory r) (fun e q' => decodes q r (Some e) q') q.
Proof.
  intros Ht. unfold decode_memory. apply wp_bind, wp_get, wp_bind.
  apply (wp_codec (codec_memory q r)); [|done].
  intros m Hok Hp. apply wp_ret. by apply decodes_memory.
Qed.

(** ** Semantic events *)

Lemma accepts_take_pending r kind event_id total index count category name detail q :
  accepts
    (take_or_start_pending r kind event_id total index count category name)
    (fun p q' => group_of q r kind (event_id, total, index, count, category, name, detail) = Some p
                 /\ q' = set_pending None q) q.
Proof.
  unfold take_or_start_pending, group_of. apply wp_bind, wp_get, wp_bind, wp_modify.
  destruct (q_pending q) as [p|]; [by apply wp_ret|].
  apply wp_bind, wp_fail_if; [intros Hi|done]. rewrite negb_false_iff in Hi. rewrite Hi.
  apply wp_bind. destruct category as [bs|].
  - by apply wp_bind, accepts_copy_bytes, wp_ret, wp_bind, accepts_copy_bytes, wp_bind,
      accepts_reserve, wp_bind, accepts_reserve, wp_ret.
  - by apply wp_ret, wp_bind, accepts_copy_bytes, wp_bind, accepts_reserve, wp_bind,
      accepts_reserve, wp_ret.
Qed.

Lemma accepts_utf8 bs e (Q : bytes -> QtrbEventCursor -> Prop) q :
  (utf8_valid bs = true -> Q bs q) -> accepts (from_utf8 bs e) Q q.
Proof.
  intros HQ. unfold from_utf8. destruct (utf8_valid bs); [by apply wp_ret, HQ|by apply wp_throw].
Qed.

Lemma accepts_finish_fragment r kind p q :
  accepts (finish_fragment r kind p)
    (fun e q' => q' = q /\ group_complete p
       /\ let e0 := semantic_event q (first_record p r) kind (pf_category p) (pf_name p)
                      (pf_detail p) in
          with_fragment_source_offsets (ev_key e0) (ev_provenance e0) (ev_payload e0)
            (pf_fragment_offsets p) = Some e) q.
Proof.
  unfold finish_fragment, group_complete. apply wp_bind, wp_fail_if; [intros Hl|done].
  rewrite orb_false_iff, !negb_false_iff, !Z.eqb_eq in Hl. destruct Hl as [Hl1 Hl2].
  apply wp_bind. destruct (pf_category p) as [cat|] eqn:Hcat.
  - apply wp_bind, accepts_utf8. intros Hv1. apply wp_ret, wp_bind, accepts_utf8. intros Hv2.
    apply wp_bind, accepts_utf8. intros Hv3. apply wp_bind, wp_get, wp_option.
    cbv zeta. fold (first_record p r).
    destruct (with_fragment_source_offsets _ _ _ _) eqn:He; [|done]. by split_and!.
  - apply wp_ret, wp_bind, accepts_utf8. intros Hv2.
    apply wp_bind, accepts_utf8. intros Hv3. apply wp_bind, wp_get, wp_option.
    cbv zeta. fold (first_record p r).
    destruct (with_fragment_source_offsets _ _ _ _) eqn:He; [|done]. by split_and!.
Qed.

Lemma accepts_decode_fragment r kind q :
  pr_record_type r = Some (fragment_record_type kind) ->
  pr_flags r <> 0 -> kind = FCall \/ sh_minor (q_header q) <> 0 ->
  accepts (decode_fragment r kind) (decodes q r) q.
Proof.
  intros Ht Hf Hk. unfold decode_fragment. apply wp_bind, (wp_codec (codec_fragment r kind)); [|done].
  intros [[[[[[event_id total] index] count] category] name] detail] Hok Hp. cbv zeta.
  apply wp_bind, wp_fail_if; [intros Hrej|done]. apply wp_bind.
  eapply wp_mono; [apply (accepts_take_pending _ _ _ _ _ _ _ _ detail)| |done].
  intros p q' [Hg ->]. apply wp_bind, wp_fail_if; [intros Hm|done].
  rewrite !orb_false_iff, !negb_false_iff, !bool_decide_eq_true, !Z.eqb_eq in Hm.
  destruct Hm as [[[[[Hm1 Hm2] Hm3] Hm4] Hm5] Hm6].
  apply wp_bind, wp_fail_if; [intros Hi|done]. rewrite negb_false_iff, Z.eqb_eq in Hi.
  apply wp_bind, wp_fail_if; [intros Hlen|done].
  assert (group_accepts p kind (event_id, total, index, count, category, name, detail)) as Hacc.
  { cbn in Hlen. rewrite zlen_app in Hlen. unfold group_accepts. split_and!; try done. lia. }
  destruct (Z.ltb_spec (pf_next_index (extend_pending p r detail))
              (pf_chunk_count (extend_pending p r detail))) as [Hlt|Hge].
  - apply wp_bind, wp_modify, wp_ret. change (set_pending ?x (set_pending None q)) with (set_pending x q).
    by eapply decodes_fragment.
  - apply wp_bind. eapply wp_mono; [apply accepts_finish_fragment| |done].
    intros e q' (-> & Hcomplete & He). apply wp_ret. by eapply decodes_last_fragment.
Qed.

Lemma accepts_decode_semantic r kind q :
  pr_record_type r = Some (fragment_record_type kind) ->
  accepts (decode_semantic r kind) (decodes q r) q.
Proof.
  intros Ht. unfold decode_semantic. destruct (Z.eqb_spec (pr_flags r) 0) as [Hf|Hf].
  - apply wp_bind, (wp_codec (codec_semantic kind)); [|done].
    intros [[category name] detail] Hok Hp. cbv zeta. apply wp_bind, wp_get, wp_ret.
    by apply decodes_semantic.
  - apply wp_bind, wp_get, wp_bind, wp_fail_if; [intros Hk|done].
    apply accepts_decode_fragment; [done..|].
    rewrite andb_false_iff, Z.eqb_neq in Hk.
    destruct kind; [by left|right; by destruct Hk..].
Qed.

(** ** Terminals *)

Lemma accepts_accept_terminal r metrics draft q (Q : EventRecord -> QtrbEventCursor -> Prop) :
  (terminal_matches q metrics ->
   Q (event q r None (PTermination (terminal_of metrics draft)))
     (set_terminal (terminal_of metrics draft) q)) ->
  accepts (accept_terminal r metrics draft) Q q.
Proof.
  intros HQ. unfold accept_terminal. apply wp_bind, wp_get, wp_bind, wp_fail_if; [intros Ho|done].
  apply wp_bind, wp_fail_if; [intros Hm|done].
  rewrite negb_false_iff, Z.eqb_eq in Ho. rewrite !orb_false_iff, !negb_false_iff, !Z.eqb_eq in Hm.
  assert (terminal_matches q metrics) as Hmatch by (unfold terminal_matches; naive_solver).
  apply wp_bind. destruct (dr_reason draft) as [reason|] eqn:Hr.
  - apply wp_bind, accepts_copy_string, wp_ret, wp_bind, wp_modify, wp_bind, wp_get, wp_ret.
    specialize (HQ Hmatch). unfold terminal_of in HQ. by rewrite Hr in HQ.
  - apply wp_ret, wp_bind, wp_modify, wp_bind, wp_get, wp_ret.
    specialize (HQ Hmatch). unfold terminal_of in HQ. by rewrite Hr in HQ.
Qed.

Lemma accepts_decode_trace_end r q :
  pr_record_type r = Some TraceEnd ->
  accepts (decode_trace_end r) (fun e q' => decodes q r (Some e) q') q.
Proof.
  intros Ht. unfold decode_trace_end. apply wp_bind, wp_fail_if; [intros Hs|done].
  apply wp_bind, (wp_codec codec_trace_end G A); [|done].
  intros [[[success rv] elapsed] metrics] Hok Hp. cbv zeta.
  apply wp_bind, wp_fail_if; [intros H1|done]. rewrite negb_false_iff, Z.eqb_eq in H1. subst success.
  apply accepts_accept_terminal. intros Hm. by apply decodes_end.
Qed.

Lemma accepts_decode_trace_stop r q :
  pr_record_type r = Some TraceStop ->
  accepts (decode_trace_stop r) (fun e q' => decodes q r (Some e) q') q.
Proof.
  intros Ht. unfold decode_trace_stop. apply wp_bind, wp_get, wp_bind, wp_fail_if; [intros Hv|done].
  rewrite orb_false_iff, negb_false_iff, Z.eqb_eq, Z.eqb_neq in Hv. destruct Hv as [Hv1 Hv2].
  apply wp_bind, wp_fail_if; [intros Hs|done].
  apply wp_bind, (wp_codec codec_trace_stop G A); [|done].
  intros [[[reason reserved] elapsed] metrics] Hok Hp. cbv zeta.
  apply wp_bind, wp_fail_if; [intros H1|done].
  rewrite orb_false_iff, !negb_false_iff, andb_true_iff, !Z.leb_le, bool_decide_eq_true in H1.
  destruct H1 as [Hreason ->]. apply wp_bind, accepts_copy_string, accepts_accept_terminal.
  intros Hm. by apply decodes_stop.
Qed.

(** ** The cursor *)

Lemma accepts_some (p : Prog W ProviderError QtrbEventCursor EventRecord) r q :
  accepts p (fun e q' => decodes q r (Some e) q') q ->
  accepts (let! e := p in ret (Some e)) (decodes q r) q.
Proof. intros Hp. apply wp_bind. eapply wp_mono; [exact Hp| |done]. intros. by apply wp_ret. Qed.

Lemma accepts_decode_record r q : accepts (decode_record r) (decodes q r) q.
Proof.
  unfold decode_record. destruct (pr_record_type r) as [[]|] eqn:Ht.
  - by apply accepts_some, accepts_decode_begin.
  - by apply accepts_some, accepts_decode_module.
  - by apply accepts_some, accepts_decode_definition.
  - by apply accepts_some, accepts_decode_instruction.
  - by apply accepts_some, accepts_decode_memory.
  - by apply accepts_decode_semantic.
  - by apply accepts_decode_semantic.
  - by apply accepts_decode_semantic.
  - by apply accepts_some, accepts_decode_trace_end.
  - by apply accepts_some, accepts_decode_trace_stop.
  - apply wp_bind, wp_modify, wp_bind, wp_get, wp_ret. exact (decodes_opaque q r Ht).
Qed.

Lemma check_order_ok q r : check_order q r = Ok tt <-> order_ok q r.
Proof.
  unfold check_order, order_ok.
  match goal with |- (if _ then _ else ?rest) = _ <-> _ /\ ?P =>
    assert (rest = Ok tt <-> P) as Hrest end.
  { destruct (q_pending q) as [p|]; [|split; [intros _ p [=]|done]].
    destruct (_ || _) eqn:E.
    - split; [done|]. intros HP. destruct (HP p eq_refl) as [Ht Hf].
      rewrite bool_decide_eq_true_2, Hf in E by done. done.
    - rewrite orb_false_iff, !negb_false_iff, bool_decide_eq_true, Z.eqb_eq in E.
      split; [|done]. by intros _ p' [= <-]. }
  rewrite <- Hrest. destruct (q_began q); cbn [negb andb].
  - split; [intros H; split; [by left|done]|by intros [_ H]].
  - case_bool_decide as Hb; cbn [negb].
    + split; [intros H; split; [by right|done]|by intros [_ H]].
    + split; [done|]. by intros [[?|?] _].
Qed.

Lemma accepts_finish_stream content q `{!LawfulSource (q_source q) content} :
  q_offset q = zlen content ->
  accepts finish_stream
    (fun e q' => e = None /\ turn content q (Some None) q') q.
Proof.
  intros Ho. unfold finish_stream, validate_source_identity.
  apply wp_bind, wp_bind, wp_get, wp_fail_if; [intros Hid|done].
  rewrite negb_false_iff, Z.eqb_eq, lawful_len in Hid.
  apply wp_bind, wp_get, wp_bind, wp_fail_if; [intros Hp|done].
  destruct (q_pending q) eqn:Hpend; [done|].
  apply wp_bind, wp_fail_if; [intros Hb|done]. rewrite negb_false_iff in Hb.
  apply wp_bind, wp_option. destruct (checked_add _ _ _) as [n|]; [|done].
  apply wp_bind, wp_option. destruct (checked_add _ _ n) as [n'|]; [|done].
  apply wp_bind, accepts_reserve, wp_bind.
  pose proof (turn_finish content q Ho Hpend Hb Hid) as Hturn. unfold finished in Hturn.
  destruct (q_terminal_seen q) eqn:Hts; cbn [negb].
  - apply wp_ret, wp_bind, wp_modify, wp_bind, wp_modify, wp_ret. split; [done|].
    apply Hturn. by left.
  - destruct (q_mode q); [by apply wp_throw|].
    apply wp_modify, wp_bind, wp_modify, wp_bind, wp_modify, wp_ret. split; [done|].
    apply Hturn. by right.
Qed.

Lemma accepts_turn content q `{!LawfulSource (q_source q) content} :
  0 <= q_offset q <= zlen content -> accepts next_event_turn (turn content q) q.
Proof.
  intros [Ho Hle]. unfold next_event_turn. apply wp_bind, wp_get. rewrite lawful_len.
  destruct (q_terminal_seen q) eqn:Hts.
  { apply wp_bind, wp_fail_if; [intros Hlt%Z.ltb_ge|done]. apply wp_bind.
    assert (q_offset q = zlen content) as Heq by lia.
    eapply wp_mono; [by apply (accepts_finish_stream content)| |done].
    intros e q' [-> Ht]. by apply wp_ret. }
  destruct (Z.eqb_spec (q_offset q) (zlen content)) as [Heq|Hne].
  { apply wp_bind. eapply wp_mono; [by apply (accepts_finish_stream content)| |done].
    intros e q' [-> Ht]. by apply wp_ret. }
  apply wp_bind, wp_fail_if; [intros _|done]. apply wp_bind.
  eapply wp_mono; [by apply (accepts_read_record content)| |done]. intros r q1 Hf.
  apply wp_bind, wp_get, wp_bind, wp_result.
  destruct (check_order q1 r) as [[]|] eqn:Hord; [|done]. apply check_order_ok in Hord.
  apply wp_bind. eapply wp_mono; [apply accepts_decode_record| |done]. intros e q2 Hd.
  pose proof (turn_record content q r q1 e q2 Hts Hf Hord Hd) as Hturn. destruct e as [e|].
  - apply wp_bind, accepts_consume, wp_bind, wp_modify, wp_ret. exact Hturn.
  - apply wp_ret. exact Hturn.
Qed.

End sound.
