(* ===== verification/QtrbLoop.v ===== *)
(** * The cursor loop and histories

    [next_event] runs turns until one returns.  This file shows that the loop
    terminates on every lawful source with the result of the unbounded [loop]
    of the code, that a successful call extends the history of [QtrbSteps], and
    that the calls a client can make (until the stream is drained or the cursor
    is poisoned) are bounded by the size of the source. *)

From stdpp Require Import prelude list strings pretty gmap.
From Stdlib Require Import ZArith Lia Strings.Byte.
From S2P Require Import Prelude Prog Control Model Source QtrbWire QtrbPayload QtrbCodec.
From S2P Require Import QtrbEvents Qtrb QtrbFormat QtrbSteps QtrbSound.
Local Open Scope string_scope.
Local Open Scope list_scope.
Local Open Scope Z_scope.

(** ** What a step leaves alone *)

(** The parts of the cursor no step assigns. *)
Definition fixed_parts (q : QtrbEventCursor) :
    ReadAtSource * SourceIdentity * OpenMode * StreamHeader * bool * list TimelineDescriptor :=
  (q_source q, q_identity q, q_mode q, q_header q, q_poisoned q, q_timelines q).

Lemma framed_parts content q r q1 :
  framed content q r q1 ->
  fixed_parts q1 = fixed_parts q /\ q_drained q1 = q_drained q
  /\ q_completeness q1 = q_completeness q
  /\ q_offset q1 = q_offset q + RECORD_HEADER_BYTES + zlen (pr_payload r)
  /\ q_offset q1 <= zlen content
  /\ q_next_ordinal q1 = q_next_ordinal q + 1.
Proof. intros []. done. Qed.

Lemma decodes_parts q r e q' :
  decodes q r e q' ->
  fixed_parts q' = fixed_parts q /\ q_drained q' = q_drained q
  /\ q_completeness q' = q_completeness q
  /\ q_offset q' = q_offset q /\ q_next_ordinal q' = q_next_ordinal q.
Proof. by intros []. Qed.

Lemma turn_parts content q o q' :
  turn content q o q' -> fixed_parts q' = fixed_parts q.
Proof.
  intros [r q1 e q2 _ Hf _ Hd|]; [|done].
  apply framed_parts in Hf as (Hf & _). apply decodes_parts in Hd as (Hd & _).
  destruct e; unfold fixed_parts in *; cbn in *; congruence.
Qed.

(** A turn that reads a record moves forward and stays inside the source. *)
Lemma turn_progress content q o q' :
  turn content q o q' -> o <> Some None ->
  q_offset q + RECORD_HEADER_BYTES <= q_offset q' <= zlen content
  /\ q_drained q' = q_drained q.
Proof.
  intros [r q1 e q2 _ Hf _ Hd|] Ho; [|done].
  apply framed_parts in Hf as (_ & Hdr & _ & Hoff & Hle & _).
  apply decodes_parts in Hd as (_ & Hdr' & _ & Hoff' & _).
  assert (0 <= zlen (pr_payload r)) by (unfold zlen; lia).
  destruct e; cbn; rewrite Hoff', Hdr', Hdr; (split; [lia|done]).
Qed.

Lemma turn_offset content q o q' :
  turn content q o q' -> q_offset q <= q_offset q' /\ (q_offset q <= zlen content -> q_offset q' <= zlen content).
Proof.
  intros Ht.
  assert (o <> Some None -> q_offset q <= q_offset q' <= zlen content) as Hp.
  { intros Ho. apply turn_progress in Ht as [Ht _]; [|done]. unfold RECORD_HEADER_BYTES in Ht. lia. }
  destruct o as [[e|]|]; [|inversion Ht as [? ? [e|]|]; [done..|]|].
  - specialize (Hp ltac:(done)). lia.
  - cbn. lia.
  - specialize (Hp ltac:(done)). lia.
Qed.

Lemma turn_source content q o q' :
  turn content q o q' -> q_source q' = q_source q.
Proof. intros Ht%turn_parts. unfold fixed_parts in Ht. congruence. Qed.

Lemma turn_drained content q q' : turn content q (Some None) q' -> q_drained q' = true.
Proof. intros Ht. by inversion Ht as [? ? [e|]|]. Qed.

Section loop.
Context {W : Type} `{G : WorkGuard W} `{A : Allocator W}.
Implicit Types (q : QtrbEventCursor) (w : W).

(** The end of a stream, on any source: [None] and drained, or an error. *)
Lemma wp_finish_stream q :
  wp (W := W) finish_stream (fun e q' => e = None /\ q_drained q' = true)
    (fun _ q' => q_drained q' = q_drained q) q.
Proof.
  unfold finish_stream, validate_source_identity.
  apply wp_bind, wp_bind, wp_get, wp_fail_if; [intros _|done].
  apply wp_bind, wp_get, wp_bind, wp_fail_if; [intros _|done].
  apply wp_bind, wp_fail_if; [intros _|done].
  apply wp_bind, wp_option. destruct (checked_add _ _ 1); [|done].
  apply wp_bind, wp_option. destruct (checked_add _ _ z); [|done].
  apply wp_bind, wp_bind, wp_reserve_vec; [apply _|intros _; apply wp_ret|done].
  apply wp_bind. destruct (negb _); [destruct (q_mode q)|].
  - by apply wp_throw.
  - by apply wp_modify, wp_bind, wp_modify, wp_bind, wp_modify, wp_ret.
  - by apply wp_ret, wp_bind, wp_modify, wp_bind, wp_modify, wp_ret.
Qed.

(** The unbounded [loop] of [next_event_inner]: it ends when a turn returns a
    value or an error. *)
Inductive loops q w : result ProviderError (option EventRecord) * QtrbEventCursor * W -> Prop :=
| loops_return e q' w' :
    next_event_turn q w = (Ok (Some e), q', w') -> loops q w (Ok e, q', w')
| loops_error e q' w' :
    next_event_turn q w = (Err e, q', w') -> loops q w (Err e, q', w')
| loops_again q1 w1 out :
    next_event_turn q w = (Ok None, q1, w1) -> loops q1 w1 out -> loops q w out.

Lemma turn_ok content q w o q' w' `{!LawfulSource (q_source q) content} :
  0 <= q_offset q <= zlen content ->
  next_event_turn q w = (Ok o, q', w') -> turn content q o q'.
Proof. intros Hq Hrun. eapply wp_run_ok; [by apply accepts_turn|exact Hrun]. Qed.

(** [loop_fuel] turns are enough. *)
Lemma next_event_loop_total content fuel q w `{!LawfulSource (q_source q) content} :
  0 <= q_offset q <= zlen content ->
  (Z.to_nat (zlen content - q_offset q) < fuel)%nat ->
  loops q w (next_event_loop fuel q w).
Proof.
  revert q w LawfulSource0. induction fuel as [|fuel IH]; intros q w Hlaw Hq Hfuel; [lia|].
  cbn [next_event_loop]. unfold bind.
  destruct (next_event_turn q w) as [[[[e|]|e] q1] w1] eqn:Hturn.
  - by apply loops_return.
  - pose proof (turn_ok _ _ _ _ _ _ Hq Hturn) as Ht.
    pose proof (turn_source _ _ _ _ Ht) as Hsrc.
    apply turn_progress in Ht as [Ht _]; [|done]. unfold RECORD_HEADER_BYTES in Ht.
    eapply loops_again; [exact Hturn|].
    apply IH; [by rewrite Hsrc|lia|lia].
  - by apply loops_error.
Qed.

Lemma next_event_inner_total content q w `{!LawfulSource (q_source q) content} :
  0 <= q_offset q <= zlen content -> loops q w (next_event_inner q w).
Proof.
  intros Hq. unfold next_event_inner, bind, get, loop_fuel.
  apply (next_event_loop_total content); [done..|]. rewrite lawful_len. lia.
Qed.

(** ** Calls extend the history *)

Lemma reaches_parts content q0 h q :
  reaches content q0 h q -> fixed_parts q = fixed_parts q0.
Proof. induction 1 as [|h q o q' _ IH _ Ht]; [done|]. by rewrite (turn_parts _ _ _ _ Ht). Qed.

Lemma reaches_offset content q0 h q :
  reaches content q0 h q -> q_offset q0 <= zlen content ->
  q_offset q0 <= q_offset q <= zlen content.
Proof.
  intros Hr H0. induction Hr as [|h q o q' _ IH _ Ht]; [lia|].
  apply turn_offset in Ht. lia.
Qed.

Lemma reaches_source content q0 h q :
  reaches content q0 h q -> q_source q = q_source q0.
Proof. intros Hr%reaches_parts. unfold fixed_parts in Hr. congruence. Qed.

Lemma loops_reaches content q0 h q w e q' w' `{!LawfulSource (q_source q0) content} :
  0 <= q_offset q0 <= zlen content ->
  reaches content q0 h q -> q_drained q = false ->
  loops q w (Ok e, q', w') ->
  reaches content q0 (h ++ option_list e) q' /\ q_drained q' = bool_decide (e = None).
Proof.
  intros H0 Hr Hd Hl. remember (Ok e, q', w') as out eqn:Hout.
  induction Hl as [q w e1 q1 w1 Hrun|q w e1 q1 w1 Hrun|q w q1 w1 out Hrun Hl IH];
    simplify_eq; pose proof (reaches_offset _ _ _ _ Hr ltac:(lia)) as Hoff;
    pose proof (reaches_source _ _ _ _ Hr) as Hsrc;
    assert (LawfulSource (q_source q) content) as Hlaw by (by rewrite Hsrc).
  - apply (turn_ok content) in Hrun; [|done|lia]. split.
    + replace (option_list e) with (turn_events (Some e)) by (by destruct e).
      by eapply reaches_turn.
    + destruct e as [e|].
      * rewrite bool_decide_eq_false_2 by done.
        apply turn_progress in Hrun as [_ Hrun]; [|done]. congruence.
      * rewrite bool_decide_eq_true_2 by done. by eapply turn_drained.
  - apply (turn_ok content) in Hrun; [|done|lia]. apply IH; [|..|done].
    + rewrite <- (app_nil_r h). change [] with (turn_events None). by eapply reaches_turn.
    + apply turn_progress in Hrun as [_ Hrun]; [|done]. congruence.
Qed.

(** The successful calls of a client, from a cursor in a world. *)
Inductive emits (q0 : QtrbEventCursor) (w0 : W) : list EventRecord -> QtrbEventCursor -> W -> Prop :=
| emits_start : emits q0 w0 [] q0 w0
| emits_call h q w e q' w' :
    emits q0 w0 h q w -> q_drained q = false ->
    next_event q w = (Ok e, q', w') ->
    emits q0 w0 (h ++ option_list e) q' w'.

Lemma next_event_reaches content q0 h q w e q' w' `{!LawfulSource (q_source q0) content} :
  0 <= q_offset q0 <= zlen content ->
  reaches content q0 h q -> q_drained q = false ->
  next_event q w = (Ok e, q', w') ->
  reaches content q0 (h ++ option_list e) q' /\ q_drained q' = bool_decide (e = None).
Proof.
  intros H0 Hr Hd. unfold next_event. rewrite Hd. destruct (q_poisoned q); [done|].
  pose proof (reaches_offset _ _ _ _ Hr ltac:(lia)) as Hoff.
  assert (LawfulSource (q_source q) content) as Hlaw by (by rewrite (reaches_source _ _ _ _ Hr)).
  pose proof (next_event_inner_total content q w ltac:(lia)) as Hl.
  destruct (next_event_inner q w) as [[[e1|e1] q1] w1]; [|done]. intros [= -> -> ->].
  by eapply loops_reaches.
Qed.

Lemma emits_reaches content q0 w0 h q w `{!LawfulSource (q_source q0) content} :
  0 <= q_offset q0 <= zlen content ->
  emits q0 w0 h q w -> reaches content q0 h q.
Proof.
  intros H0. induction 1 as [|h q w e q' w' _ IH Hd Hcall]; [apply reaches_start|].
  by eapply next_event_reaches in Hcall as [Hr _].
Qed.

End loop.
