(* ===== verification/QtrbInv.v ===== *)
(** * Invariants of the QTRB stream

    What every history of events satisfies, by induction on [reaches]: the
    cursor's bookkeeping, the order and completeness of the events, the
    dictionaries the events refer to, the lifecycle of a run and the partition
    of the source into records. *)

From stdpp Require Import prelude list strings pretty gmap.
From Stdlib Require Import ZArith Lia Strings.Byte Sorted.
From S2P Require Import Prelude Prog Control Model Source QtrbWire QtrbPayload QtrbCodec.
From S2P Require Import QtrbEvents Qtrb QtrbFormat QtrbSteps QtrbSound QtrbLoop.
Local Open Scope string_scope.
Local Open Scope list_scope.
Local Open Scope Z_scope.

(** ** Induction on histories *)

(** A cursor a provider has just opened on a source of [content]. *)
Record fresh (content : bytes) (q : QtrbEventCursor) : Prop := {
  fresh_offset : q_offset q = STREAM_HEADER_BYTES;
  fresh_len : STREAM_HEADER_BYTES <= zlen content <= u64_max;
  fresh_ordinal : q_next_ordinal q = 0;
  fresh_modules : q_modules q = empty;
  fresh_definitions : q_definitions q = empty;
  fresh_pending : q_pending q = None;
  fresh_began : q_began q = false;
  fresh_terminal : q_terminal_seen q = false /\ q_termination q = None;
  fresh_drained : q_drained q = false /\ q_completeness q = [];
  fresh_sequence : q_next_sequence q = 1 /\ q_instruction_count q = 0;
  fresh_counters : q_counters q = mkCounters 0 0 0 0 STREAM_HEADER_BYTES STREAM_HEADER_BYTES
}.

(** An invariant needs only be kept by record turns and by the end of the
    stream. *)
Lemma reaches_invariant content q0 (I : list EventRecord -> QtrbEventCursor -> Prop) h q :
  I [] q0 ->
  (forall h q r q1 e q2,
     reaches content q0 h q -> I h q -> q_drained q = false -> q_terminal_seen q = false ->
     framed content q r q1 -> order_ok q1 r -> decodes q1 r e q2 ->
     I (h ++ option_list e) (counted e q2)) ->
  (forall h q, reaches content q0 h q -> I h q -> q_drained q = false ->
     turn content q (Some None) (finished q) -> I h (finished q)) ->
  reaches content q0 h q -> I h q.
Proof.
  intros H0 Hrec Hfin. induction 1 as [|h q o q' Hr IH Hd Ht]; [done|].
  pose proof Ht as Ht'. destruct Ht as [r q1 e q2 Hts Hf Ho Hdec|].
  - replace (turn_events (Some <$> e)) with (option_list e) by (by destruct e). eauto.
  - cbn. rewrite app_nil_r. auto.
Qed.

(** ** Bookkeeping *)

(** Offsets, ordinals and counters agree with what was read and returned. *)
Definition books (content : bytes) (h : list EventRecord) (q : QtrbEventCursor) : Prop :=
  0 <= q_next_ordinal q
  /\ STREAM_HEADER_BYTES + RECORD_HEADER_BYTES * q_next_ordinal q <= q_offset q <= zlen content
  /\ pc_records_seen (q_counters q) = q_next_ordinal q
  /\ pc_input_bytes (q_counters q) = q_offset q
  /\ pc_decompressed_bytes (q_counters q) = q_offset q
  /\ pc_events_emitted (q_counters q) = zlen h
  /\ zlen h <= q_next_ordinal q
  /\ pc_damaged_records (q_counters q) = 0.

Lemma decodes_counters q r e q' :
  decodes q r e q' ->
  pc_records_seen (q_counters q') = pc_records_seen (q_counters q)
  /\ pc_input_bytes (q_counters q') = pc_input_bytes (q_counters q)
  /\ pc_decompressed_bytes (q_counters q') = pc_decompressed_bytes (q_counters q)
  /\ pc_events_emitted (q_counters q') = pc_events_emitted (q_counters q)
  /\ pc_damaged_records (q_counters q') = pc_damaged_records (q_counters q).
Proof. by intros []. Qed.

Lemma books_reached content q0 h q :
  fresh content q0 -> reaches content q0 h q -> books content h q.
Proof.
  intros F Hr. pose proof (fresh_len _ _ F) as Hlen. revert Hr. apply reaches_invariant; clear h q.
  - destruct F as [F1 F2 F3 _ _ _ _ _ _ _ F4]. unfold books. rewrite F1, F3, F4. cbn.
    unfold STREAM_HEADER_BYTES, RECORD_HEADER_BYTES, zlen in *. cbn. lia.
  - intros h q r q1 e q2 _ (B1 & B2 & B3 & B4 & B5 & B6 & B7 & B8) _ _ Hf _ Hd.
    pose proof (decodes_counters _ _ _ _ Hd) as (C1 & C2 & C3 & C4 & C5).
    apply decodes_parts in Hd as (_ & _ & _ & D1 & D2).
    destruct Hf as [raw flags payload _ _ _ _ Hle Hord]. cbn in *.
    assert (0 <= zlen payload) by (unfold zlen; lia).
    assert (0 <= zlen h) by (unfold zlen; lia).
    unfold books, STREAM_HEADER_BYTES, RECORD_HEADER_BYTES in *. rewrite zlen_app.
    rewrite saturating_add_exact in C1 by lia. rewrite saturating_add_exact in C2 by lia.
    rewrite saturating_add_exact in C3 by lia.
    destruct e as [e|]; cbn -[zlen]; [change (zlen [e]) with 1|change (zlen []) with 0];
      [rewrite saturating_add_exact by lia|]; lia.
  - intros h q _ (B1 & B2 & B) _ _. split_and!; try done; cbn; lia.
Qed.

(** ** Instruction sequences *)

(** The sequence numbers of the events, in order. *)
Definition sequences (h : list EventRecord) : list Z := omap (fun e => ek_sequence (ev_key e)) h.

Lemma sequences_app a b : sequences (a ++ b) = sequences a ++ sequences b.
Proof. apply omap_app. Qed.

Lemma with_offsets_key key p payload offsets e :
  with_fragment_source_offsets key p payload offsets = Some e ->
  ev_key e = key /\ ev_payload e = payload /\ ev_provenance e = p
  /\ ev_fragment_source_offsets e = offsets
  /\ Sorted Z.lt offsets /\ zlen offsets <= MAX_FRAGMENT_SOURCE_OFFSETS
  /\ first_offset_mismatch offsets key = false.
Proof.
  unfold with_fragment_source_offsets. destruct (fragment_offsets_new offsets) as [l|] eqn:Hl; [|done].
  apply fragment_offsets_new_iff in Hl as (-> & Hlen & Hs).
  destruct (first_offset_mismatch _ _) eqn:Hm; [done|]. by intros [= <-].
Qed.

Lemma seqZ_snoc n : 0 <= n -> seqZ 1 (n + 1) = seqZ 1 n ++ [n + 1].
Proof. intros Hn. rewrite seqZ_app by lia. f_equal. rewrite seqZ_cons by lia. f_equal. lia. Qed.

(** Instructions are numbered from one without gaps. *)
Definition contiguous (h : list EventRecord) (q : QtrbEventCursor) : Prop :=
  q_next_sequence q = q_instruction_count q + 1 /\ 0 <= q_instruction_count q
  /\ sequences h = seqZ 1 (q_instruction_count q).

Lemma sequences_reached content q0 h q :
  fresh content q0 -> reaches content q0 h q -> contiguous h q.
Proof.
  intros F. apply reaches_invariant; clear h q.
  - unfold contiguous. destruct (fresh_sequence _ _ F) as [-> ->]. done.
  - intros h q r q1 e q2 _ (S1 & S2 & S3) _ _ Hf _ Hd. unfold contiguous. rewrite sequences_app.
    destruct Hf as [raw flags payload]. destruct Hd; cbn -[seqZ] in *;
      rewrite ?app_nil_r; try done.
    + rewrite seqZ_snoc by lia. rewrite S1, S3. split_and!; [lia|lia|done].
    + rename select (with_fragment_source_offsets _ _ _ _ = _) into Hw.
      apply with_offsets_key in Hw as (-> & _). cbn. by rewrite app_nil_r.
  - done.
Qed.

(** ** Fragment groups *)

Definition logical_limit (kind : FragmentKind) : Z :=
  if is_call kind then MAX_LOGICAL_CALL_DETAIL_BYTES else MAX_EVENT_DETAIL_BYTES.

(** An open group: some but not all of its fragments were read, in order, each
    with a part of the detail, and the group starts where its first fragment
    did. *)
Definition group_open (q : QtrbEventCursor) (p : PendingFragment) : Prop :=
  1 <= pf_next_index p < pf_chunk_count p
  /\ in_u16 (pf_chunk_count p)
  /\ zlen (pf_fragment_offsets p) = pf_next_index p
  /\ pf_next_index p <= zlen (pf_detail p) <= pf_total_detail_bytes p
  /\ pf_total_detail_bytes p <= logical_limit (pf_kind p)
  /\ head (pf_fragment_offsets p) = Some (pf_first_offset p)
  /\ Sorted Z.lt (pf_fragment_offsets p)
  /\ Forall (fun o => o < q_offset q) (pf_fragment_offsets p)
  /\ 0 <= pf_first_ordinal p < q_next_ordinal q.

Definition pending_ok (h : list EventRecord) (q : QtrbEventCursor) : Prop :=
  match q_pending q with Some p => group_open q p | None => True end.

Lemma fragment_admitted_inv kind v :
  fragment_admitted kind v ->
  let '(event_id, total, index, count, category, name, detail) := v in
  2 <= count /\ index < count /\ total <= logical_limit kind /\ 1 <= zlen detail < total
  /\ count <= total /\ event_id <> 0.
Proof.
  destruct v as [[[[[[event_id total] index] count] category] name] detail].
  unfold fragment_admitted, fragment_rejected, logical_limit. cbv zeta.
  rewrite !orb_false_iff. unfold zlen. lia.
Qed.

Lemma Sorted_snoc_below (l : list Z) x :
  Sorted Z.lt l -> Forall (fun o => o < x) l -> Sorted Z.lt (l ++ [x]).
Proof.
  intros Hs Hl. apply Sorted_snoc_inv. split; [done|].
  destruct (last l) as [y|] eqn:Hy; [|done]. cbn. apply last_Some_elem_of in Hy.
  rewrite Forall_forall in Hl. by apply Hl.
Qed.

(** Adding an accepted fragment to its group. *)
Lemma group_extends content q r q1 kind v p :
  framed content q r q1 -> 0 <= q_next_ordinal q ->
  (forall p, q_pending q = Some p -> group_open q p) ->
  fragment_ok kind v -> fragment_admitted kind v ->
  group_of q1 r kind v = Some p -> group_accepts p kind v ->
  let p' := extend_pending p r (fragment_detail v) in
  1 <= pf_next_index p' <= pf_chunk_count p'
  /\ in_u16 (pf_chunk_count p')
  /\ zlen (pf_fragment_offsets p') = pf_next_index p'
  /\ pf_next_index p' <= zlen (pf_detail p') <= pf_total_detail_bytes p'
  /\ pf_total_detail_bytes p' <= logical_limit (pf_kind p')
  /\ head (pf_fragment_offsets p') = Some (pf_first_offset p')
  /\ Sorted Z.lt (pf_fragment_offsets p')
  /\ Forall (fun o => o < q_offset q1) (pf_fragment_offsets p')
  /\ 0 <= pf_first_ordinal p' < q_next_ordinal q1
  /\ pf_first_ordinal p' = match q_pending q with
                           | Some p => pf_first_ordinal p | None => q_next_ordinal q end
  /\ pf_first_offset p' = match q_pending q with
                          | Some p => pf_first_offset p | None => q_offset q end.
Proof.
  intros Hf Hord Hopen Hok Hadm Hg Hacc p'. subst p'. apply fragment_admitted_inv in Hadm.
  destruct v as [[[[[[event_id total] index] count] category] name] detail].
  destruct Hok as (_ & _ & _ & Hcount & _). destruct Hacc as (<- & <- & <- & <- & <- & <- & -> & Hlen).
  destruct Hf as [raw flags payload _ _ _ _ Hle _].
  assert (0 <= zlen payload) by (unfold zlen; lia).
  unfold group_of in Hg. cbn -[saturating_add Z.add] in *. rewrite !zlen_app. change (zlen [q_offset q]) with 1.
  unfold RECORD_HEADER_BYTES in *. destruct (q_pending q) as [p0|] eqn:Hp.
  - injection Hg as ->. destruct (Hopen p eq_refl) as (O1 & O2 & O3 & O4 & O5 & O6 & O7 & O8 & O9).
    rewrite saturating_add_exact by (machine; lia).
    split_and!; try done; try (machine; lia).
    + by destruct (pf_fragment_offsets p).
    + by apply Sorted_snoc_below.
    + apply Forall_app. split; [eapply Forall_impl; [exact O8|]; intros; cbn in *; lia|].
      constructor; [lia|done].
  - destruct (Z.eqb_spec (pf_next_index p) 0) as [Hi|]; [|done]. injection Hg as Hg. rewrite Hi in *.
    destruct p as [k ei tt cc ni ca na de fo fi offs]. cbn in *. injection Hg as <- <- <- <- <-. 
    change (zlen []) with 0 in *. rewrite saturating_add_exact by (machine; lia).
    split_and!; try done; try (machine; lia).
    + repeat constructor.
    + constructor; [lia|done].
Qed.

Lemma group_open_mono q q' p :
  group_open q p -> q_offset q <= q_offset q' -> q_next_ordinal q <= q_next_ordinal q' ->
  group_open q' p.
Proof.
  intros (O1 & O2 & O3 & O4 & O5 & O6 & O7 & O8 & O9) Ho Hn. unfold group_open.
  split_and!; try done; try lia. eapply Forall_impl; [exact O8|]. cbn. lia.
Qed.

Lemma pending_reached content q0 h q :
  fresh content q0 -> reaches content q0 h q -> pending_ok h q.
Proof.
  intros F. apply reaches_invariant; clear h q.
  - unfold pending_ok. by rewrite (fresh_pending _ _ F).
  - intros h q r q1 e q2 Hr Hp _ _ Hf _ Hd.
    pose proof (books_reached _ _ _ _ F Hr) as (B1 & _).
    assert (forall p, q_pending q = Some p -> group_open q p) as Hopen.
    { unfold pending_ok in Hp. intros p Hq. by rewrite Hq in Hp. }
    assert (q_offset q <= q_offset q1 /\ q_next_ordinal q <= q_next_ordinal q1
            /\ q_pending q1 = q_pending q) as (M1 & M2 & M3).
    { destruct Hf as [raw flags payload]. cbn. unfold RECORD_HEADER_BYTES, zlen.
      split_and!; [lia..|done]. }
    assert (forall p, q_pending q1 = Some p -> group_open q1 p) as Hopen1.
    { rewrite M3. intros p Hq. eapply group_open_mono; [by apply Hopen|lia..]. }
    unfold pending_ok. destruct Hd; cbn; try (destruct (q_pending q1); [by apply Hopen1|done]); [|done].
    subst p'. eapply group_extends in Hf; [|eassumption..]. cbv zeta in Hf. destruct_and!.
    unfold group_open. cbn -[saturating_add] in *. split_and!; try done; lia.
  - done.
Qed.

(** ** Event order *)

(** Where the next event is attributed: the open group's first record, or the
    next record. *)
Definition frontier (q : QtrbEventCursor) : Z * Z :=
  match q_pending q with
  | Some p => (pf_first_ordinal p, pf_first_offset p)
  | None => (q_next_ordinal q, q_offset q)
  end.

Definition ordinals (h : list EventRecord) : list Z := map (fun e => ek_record_ordinal (ev_key e)) h.
Definition offsets (h : list EventRecord) : list Z := map (fun e => ek_source_offset (ev_key e)) h.

Definition ordered (h : list EventRecord) (q : QtrbEventCursor) : Prop :=
  StronglySorted Z.lt (ordinals h) /\ Forall (fun o => o < fst (frontier q)) (ordinals h)
  /\ StronglySorted Z.lt (offsets h) /\ Forall (fun o => o < snd (frontier q)) (offsets h).

Lemma StronglySorted_snoc (l : list Z) x :
  StronglySorted Z.lt l -> Forall (fun o => o < x) l -> StronglySorted Z.lt (l ++ [x]).
Proof.
  induction 1 as [|a l Hs IH Ha]; intros Hx; cbn; [by repeat constructor|].
  inversion Hx; subst. constructor; [by apply IH|]. apply Forall_app. by repeat constructor.
Qed.

(** While a group is open only its continuations decode. *)
Lemma open_group_contiguous q r p e q' :
  order_ok q r -> q_pending q = Some p -> decodes q r e q' ->
  exists kind v, pr_record_type r = Some (fragment_record_type kind) /\ pf_kind p = kind
    /\ pr_payload r = encode_fragment v /\ group_accepts p kind v.
Proof.
  intros [_ Ho] Hp Hd. destruct (Ho p Hp) as [Ht Hf].
  destruct Hd; try (rewrite Ht in *; destruct (pf_kind p); discriminate);
    [rewrite Hf in *; discriminate|..]; unfold group_of in *; rewrite Hp in *;
    destruct v as [[[[[[? ?] ?] ?] ?] ?] ?]; simplify_eq; eexists _, _; split_and!; try done;
    by match goal with H : group_accepts _ _ _ |- _ => destruct H end.
Qed.

Lemma decodes_key content q r q1 e q2 :
  framed content q r q1 -> order_ok q1 r -> 0 <= q_next_ordinal q ->
  (forall p, q_pending q = Some p -> group_open q p) ->
  decodes q1 r (Some e) q2 ->
  ek_record_ordinal (ev_key e) = fst (frontier q) /\ ek_source_offset (ev_key e) = snd (frontier q)
  /\ q_pending q2 = None.
Proof.
  intros Hf Hord Hn Hopen Hd. unfold frontier.
  assert (q_pending q1 = q_pending q /\ pr_ordinal r = q_next_ordinal q /\ pr_offset r = q_offset q)
    as (P1 & P2 & P3) by (by destruct Hf).
  destruct (q_pending q) as [p|] eqn:Hp.
  - destruct (open_group_contiguous _ _ _ _ _ Hord P1 Hd) as (k & v' & Ht & Hk & _).
    destruct Hord as [_ Hord]. destruct (Hord p P1) as [_ Hflag].
    inversion Hd; subst; try (rewrite Ht in *; destruct (pf_kind p); discriminate);
      [rewrite Hflag in *; discriminate|].
    eapply group_extends in Hf; [|eassumption|by rewrite Hp|eassumption..]. cbv zeta in *.
    rename select (with_fragment_source_offsets _ _ _ _ = _) into Hw.
    apply with_offsets_key in Hw as (-> & _). rewrite Hp in Hf. destruct_and!. done.
  - inversion Hd; subst; cbn; rewrite ?P1, ?P2, ?P3; try done.
    eapply group_extends in Hf; [|eassumption|by rewrite Hp|eassumption..]. cbv zeta in *.
    rename select (with_fragment_source_offsets _ _ _ _ = _) into Hw.
    apply with_offsets_key in Hw as (-> & _). rewrite Hp in Hf. destruct_and!. done.
Qed.

Lemma decodes_frontier content q r q1 q2 :
  framed content q r q1 -> 0 <= q_next_ordinal q ->
  (forall p, q_pending q = Some p -> group_open q p) ->
  decodes q1 r None q2 -> frontier q2 = frontier q.
Proof.
  intros Hf Hn Hopen Hd. inversion Hd; subst.
  eapply group_extends in Hf; [|eassumption..]. cbv zeta in Hf. destruct_and!.
  unfold frontier. cbn [set_pending q_pending]. destruct (q_pending q); congruence.
Qed.

Lemma ordered_reached content q0 h q :
  fresh content q0 -> reaches content q0 h q -> ordered h q.
Proof.
  intros F. apply reaches_invariant; clear h q.
  - repeat constructor.
  - intros h q r q1 e q2 Hr (S1 & F1 & S2 & F2) _ _ Hf Hord Hd.
    pose proof (books_reached _ _ _ _ F Hr) as (B1 & _).
    pose proof (pending_reached _ _ _ _ F Hr) as Hp. unfold pending_ok in Hp.
    assert (forall p, q_pending q = Some p -> group_open q p) as Hopen.
    { intros p Hq. by rewrite Hq in Hp. }
    destruct e as [e|]; cbn [option_list counted].
    + destruct (decodes_key _ _ _ _ _ _ Hf Hord B1 Hopen Hd) as (K1 & K2 & K3).
      pose proof (decodes_parts _ _ _ _ Hd) as (_ & _ & _ & P1 & P2).
      assert (q_next_ordinal q < q_next_ordinal q2 /\ q_offset q < q_offset q2) as [M1 M2].
      { destruct Hf as [raw flags payload]. cbn in *. unfold RECORD_HEADER_BYTES, zlen in *. lia. }
      assert (fst (frontier q) < q_next_ordinal q2 /\ snd (frontier q) < q_offset q2) as [G1 G2].
      { unfold frontier. destruct (q_pending q) as [p|]; cbn; [|lia].
        destruct Hp as (_ & _ & _ & _ & _ & O6 & _ & O8 & O9). split; [lia|].
        destruct (pf_fragment_offsets p); [done|]. injection O6 as ->. inversion O8; subst. lia. }
      unfold ordered, ordinals, offsets, frontier in *. cbn [set_counters q_pending q_next_ordinal q_offset].
      rewrite K3, !map_app. cbn. rewrite K1, K2. split_and!.
      * by apply StronglySorted_snoc.
      * apply Forall_app. split; [eapply Forall_impl; [exact F1|]; cbn; lia|by repeat constructor].
      * by apply StronglySorted_snoc.
      * apply Forall_app. split; [eapply Forall_impl; [exact F2|]; cbn; lia|by repeat constructor].
    + rewrite app_nil_r. unfold ordered. by rewrite (decodes_frontier _ _ _ _ _ Hf B1 Hopen Hd).
  - done.
Qed.

(** ** Dictionaries *)

Definition payloads (h : list EventRecord) : list EventPayload := map ev_payload h.

(** The dictionaries hold exactly the definitions that were emitted, and never
    outgrow their bound. *)
Definition dictionaries (h : list EventRecord) (q : QtrbEventCursor) : Prop :=
  (forall id base name, PModuleDefinition (mkModuleDefinition id base name) ∈ payloads h
     <-> q_modules q !! id = Some (mkModuleWire base name))
  /\ (forall d, PInstructionDefinition d ∈ payloads h
     <-> exists wire, q_definitions q !! id_definition_id d = Some wire
         /\ d = definition_of (id_definition_id d) wire)
  /\ Z.of_nat (size (q_modules q)) <= MAX_DICTIONARY_ENTRIES
  /\ Z.of_nat (size (q_definitions q)) <= MAX_DICTIONARY_ENTRIES.

Lemma dictionary_insert_size {V} (m : gmap Z V) id v :
  dictionary_admits m id v -> Z.of_nat (size m) <= MAX_DICTIONARY_ENTRIES ->
  Z.of_nat (size (<[id := v]> m)) <= MAX_DICTIONARY_ENTRIES.
Proof.
  unfold dictionary_admits. intros Ha Hm. destruct (m !! id) as [v'|] eqn:Hid.
  - by rewrite map_size_insert_Some by (by rewrite Hid).
  - rewrite map_size_insert_None by done. lia.
Qed.

Lemma payloads_snoc h e p : p ∈ payloads (h ++ [e]) <-> p ∈ payloads h \/ p = ev_payload e.
Proof. unfold payloads. rewrite map_app, elem_of_app. cbn. by rewrite list_elem_of_singleton. Qed.

(** A record that is not a definition leaves the dictionaries alone. *)
Definition is_definition (p : EventPayload) : Prop :=
  match p with PModuleDefinition _ | PInstructionDefinition _ => True | _ => False end.

Lemma dictionaries_other h q e q' :
  dictionaries h q -> q_modules q' = q_modules q -> q_definitions q' = q_definitions q ->
  (forall e', e = Some e' -> ~ is_definition (ev_payload e')) ->
  dictionaries (h ++ option_list e) q'.
Proof.
  intros (D1 & D2 & D3) Hm Hd He. unfold dictionaries. rewrite Hm, Hd. destruct e as [e|];
    [change (option_list (Some e)) with [e]|change (option_list None) with (@nil EventRecord)].
  - specialize (He e eq_refl). split_and!; [..|apply D3|apply D3].
    + intros id base name. rewrite payloads_snoc, <- D1. split; [|by left].
      intros [|Heq]; [done|]. by rewrite <- Heq in He.
    + intros d. rewrite payloads_snoc, <- D2. split; [|by left].
      intros [|Heq]; [done|]. by rewrite <- Heq in He.
  - by rewrite app_nil_r.
Qed.

Lemma dictionaries_module h q e id base name :
  dictionaries h q -> dictionary_admits (q_modules q) id (mkModuleWire base name) ->
  ev_payload e = PModuleDefinition (mkModuleDefinition id base name) ->
  dictionaries (h ++ [e]) (set_modules (<[id := mkModuleWire base name]> (q_modules q)) q).
Proof.
  intros (D1 & D2 & D3 & D4) Ha He. unfold dictionaries. cbn [set_modules q_modules q_definitions].
  split_and!; [| |by apply dictionary_insert_size|done].
  - intros id' base' name'. rewrite payloads_snoc, D1, He. split.
    + intros [Hin|[= -> -> ->]]; [|by rewrite lookup_insert_eq].
      destruct (decide (id' = id)) as [->|Hne]; [|by rewrite lookup_insert_ne].
      unfold dictionary_admits in Ha. rewrite Hin in Ha. by rewrite lookup_insert_eq, Ha.
    + destruct (decide (id' = id)) as [->|Hne]; [|rewrite lookup_insert_ne by done; by left].
      rewrite lookup_insert_eq. intros [= -> ->]. by right.
  - intros d. rewrite payloads_snoc, <- D2, He. naive_solver.
Qed.

Lemma dictionaries_definition h q e id d :
  dictionaries h q -> dictionary_admits (q_definitions q) id d ->
  ev_payload e = PInstructionDefinition (definition_of id d) ->
  dictionaries (h ++ [e]) (set_definitions (<[id := d]> (q_definitions q)) q).
Proof.
  intros (D1 & D2 & D3 & D4) Ha He. unfold dictionaries. cbn [set_definitions q_modules q_definitions].
  split_and!; [| |done|by apply dictionary_insert_size].
  - intros id' base' name'. rewrite payloads_snoc, D1, He. naive_solver.
  - intros d'. rewrite payloads_snoc, D2, He. split.
    + intros [(wire & Hin & Hd')|[= ->]].
      * exists wire. split; [|done]. destruct (decide (id_definition_id d' = id)) as [Heq|Hne].
        { unfold dictionary_admits in Ha. rewrite <- Heq, Hin in Ha. subst. by rewrite lookup_insert_eq. }
        by rewrite lookup_insert_ne.
      * exists d. cbn. by rewrite lookup_insert_eq.
    + intros (wire & Hin & Hd'). destruct (decide (id_definition_id d' = id)) as [Heq|Hne].
      * rewrite Heq, lookup_insert_eq in Hin. injection Hin as <-. rewrite Heq in Hd'. subst. by right.
      * rewrite lookup_insert_ne in Hin by done. left. by exists wire.
Qed.

Lemma dictionaries_count h q c :
  dictionaries h q -> dictionaries h (set_counters c q).
Proof. done. Qed.

Lemma dictionaries_reached content q0 h q :
  fresh content q0 -> reaches content q0 h q -> dictionaries h q.
Proof.
  intros F. apply reaches_invariant; clear h q.
  - destruct F as [_ _ _ Fm Fd _ _ _ _ _ _]. unfold dictionaries. rewrite Fm, Fd.
    split_and!; [| |done|done].
    + intros. rewrite lookup_empty. split; [|done]. intros Hin. by apply not_elem_of_nil in Hin.
    + intros. split; [intros Hin; by apply not_elem_of_nil in Hin|].
      intros (wire & Hin & _). by rewrite lookup_empty in Hin.
  - intros h q r q1 e q2 Hr D _ _ Hf Hord Hd.
    assert (dictionaries h q1) as D1 by (by destruct Hf).
    assert (dictionaries (h ++ option_list e) q2) as D2; [|by destruct e].
    destruct Hd; [|by apply dictionaries_module|by apply dictionaries_definition|..];
      apply (dictionaries_other h q1 _ _ D1); try done; intros e' [= <-]; cbn; try tauto.
    + destruct kind; cbn; tauto.
    + rename select (let _ := _ in _) into Hw. cbv zeta in Hw.
      apply with_offsets_key in Hw as (_ & -> & _). destruct kind; cbn; tauto.
  - done.
Qed.

(** ** References *)

(** What an event refers to was defined before it. *)
Definition references_ok (before : list EventRecord) (e : EventRecord) : Prop :=
  match ev_payload e with
  | PInstruction i =>
      (exists base name, PModuleDefinition (mkModuleDefinition (in_module_id i) base name)
                         ∈ payloads before)
      /\ (exists d, PInstructionDefinition d ∈ payloads before
          /\ id_definition_id d = in_definition_id i
          /\ map (fun o => mkRegisterDefinition (ro_slot o) (ro_captured_width o) (ro_name o))
               (in_read_before i) = id_reads d
          /\ map (fun o => mkRegisterDefinition (ro_slot o) (ro_captured_width o) (ro_name o))
               (in_write_after i) = id_writes d)
  | PMemory m =>
      exists base name, PModuleDefinition (mkModuleDefinition (me_module_id m) base name)
                        ∈ payloads before
  | _ => True
  end.

Definition closed_references (h : list EventRecord) (q : QtrbEventCursor) : Prop :=
  forall before e after, h = before ++ e :: after -> references_ok before e.

Lemma closed_snoc h q e q' :
  closed_references h q -> (forall e', e = Some e' -> references_ok h e') ->
  closed_references (h ++ option_list e) q'.
Proof.
  intros Hc He before e0 after Heq. destruct e as [e|]; cbn in Heq.
  - destruct (decide (after = [])) as [->|Hne].
    + apply app_inj_tail in Heq as [<- <-]. by apply He.
    + destruct (exists_last Hne) as (after' & x & ->).
      rewrite app_comm_cons, app_assoc in Heq. apply app_inj_tail in Heq as [-> _]. by eapply Hc.
  - rewrite app_nil_r in Heq. by eapply Hc.
Qed.

Lemma observations_match rs out :
  Forall2 observation_ok rs out ->
  map (fun o => mkRegisterDefinition (ro_slot o) (ro_captured_width o) (ro_name o)) out
  = map register_definition_of rs.
Proof.
  induction 1 as [|r o rs out (Hs & Hw & Hn & _) _ IH]; [done|].
  cbn. rewrite IH, Hs, Hw, Hn. done.
Qed.

Lemma decodes_references h q r e q' :
  dictionaries h q -> decodes q r (Some e) q' -> references_ok h e.
Proof.
  intros (D1 & D2 & _) Hd. inversion Hd; subst; cbn; try done.
  - rename select (instruction_ok _ _) into Hok.
    destruct Hok as (_ & _ & _ & _ & [mw Hm] & d & Hdef & _ & _ & Hr & Hw). split.
    + exists (mw_base mw), (mw_name mw). apply D1. by destruct mw.
    + exists (definition_of (in_definition_id i) d). split_and!; cbn.
      * apply D2. by exists d.
      * done.
      * by apply observations_match.
      * by apply observations_match.
  - rename select (memory_ok _ _) into Hok. destruct Hok as [_ [mw Hm]].
    exists (mw_base mw), (mw_name mw). apply D1. by destruct mw.
  - by destruct kind.
  - cbv zeta in *. rename select (with_fragment_source_offsets _ _ _ _ = _) into Hw.
    apply with_offsets_key in Hw as (_ & Hp & _). unfold references_ok. rewrite Hp. by destruct kind.
Qed.

Lemma references_reached content q0 h q :
  fresh content q0 -> reaches content q0 h q -> closed_references h q.
Proof.
  intros F. apply reaches_invariant; clear h q.
  - intros before e after Heq. by destruct before.
  - intros h q r q1 e q2 Hr Hc _ _ Hf _ Hd.
    apply (closed_snoc h q); [done|]. intros e' ->.
    eapply decodes_references; [|exact Hd].
    pose proof (dictionaries_reached _ _ _ _ F Hr) as D. by destruct Hf.
  - done.
Qed.

(** ** Lifecycle *)

Definition is_begin (p : EventPayload) : Prop := match p with Begin _ => True | _ => False end.
Definition is_termination (p : EventPayload) : Prop :=
  match p with PTermination _ => True | _ => False end.

(** The first event is the only TRACE_BEGIN, and it fixes the thread and the
    buffer size the rest of the stream reports. *)
Definition begun (h : list EventRecord) (q : QtrbEventCursor) : Prop :=
  match h with
  | [] => q_began q = false /\ q_pending q = None
  | e :: rest =>
      q_began q = true /\ Forall (fun e => ~ is_begin (ev_payload e)) rest
      /\ Forall (fun e => ek_tid (ev_key e) = q_tid q) h
      /\ exists m, ev_payload e = Begin m /\ bm_tid m = q_tid q
         /\ bm_effective_buffer_bytes m = q_effective_buffer_bytes q
  end.

(** After TRACE_BEGIN, every event carries the stream's thread and none is
    another TRACE_BEGIN. *)
Lemma decodes_begun q r e q' :
  decodes q r e q' -> q_began q = true ->
  q_began q' = true /\ q_tid q' = q_tid q
  /\ q_effective_buffer_bytes q' = q_effective_buffer_bytes q
  /\ (forall e', e = Some e' -> ~ is_begin (ev_payload e') /\ ek_tid (ev_key e') = q_tid q).
Proof.
  intros Hd Hb. destruct Hd; cbn; try congruence; split_and!; try done;
    intros e' [= <-]; cbn; try (by split; [tauto|]).
  - split; [|done]. destruct kind; cbn; tauto.
  - cbv zeta in *. rename select (with_fragment_source_offsets _ _ _ _ = _) into Hw.
    apply with_offsets_key in Hw as (-> & -> & _). split; [|done]. destruct kind; cbn; tauto.
Qed.

(** Before it, nothing else decodes. *)
Lemma decodes_first q r e q' :
  decodes q r e q' -> order_ok q r -> q_began q = false -> q_pending q = None ->
  exists m tid, e = Some (event q' r None (Begin m)) /\ bm_tid m = Some tid
    /\ q' = set_began tid (bm_effective_buffer_bytes m) q.
Proof.
  intros Hd [[Hb|Ht] _] Hbegan _; [congruence|].
  destruct Hd; rewrite Ht in *; try discriminate; try (destruct kind; discriminate).
  exists m, tid. rename select (begin_ok _) into Hok. cbn in Hok. split_and!; [done|naive_solver|done].
Qed.

Lemma begun_reached content q0 h q :
  fresh content q0 -> reaches content q0 h q -> begun h q.
Proof.
  intros F. apply reaches_invariant; clear h q.
  - split; [by apply (fresh_began _ _ F)|by apply (fresh_pending _ _ F)].
  - intros h q r q1 e q2 Hr Hb _ _ Hf Hord Hd.
    assert (begun h q1) as Hb1 by (destruct Hf; by destruct h).
    enough (begun (h ++ option_list e) q2) as Hb2.
    { destruct e; [|done]. cbn in *. by destruct h. }
    destruct h as [|e0 h]; cbn [begun] in Hb1.
    + destruct Hb1 as [Hbegan Hpend].
      destruct (decodes_first _ _ _ _ Hd Hord Hbegan Hpend) as (m & tid & -> & Htid & ->). cbn.
      split_and!; [done..|by constructor|]. exists m. by rewrite Htid.
    + destruct Hb1 as (B1 & B2 & B3 & m & B4 & B5 & B6).
      destruct (decodes_begun _ _ _ _ Hd B1) as (E1 & E2 & E3 & E4). cbn [app begun].
      rewrite E1, E2, E3. split_and!; [done| | |by exists m].
      * apply Forall_app. split; [done|]. destruct e as [e|]; cbn; [|by constructor].
        destruct (E4 e eq_refl). by repeat constructor.
      * apply (Forall_app _ (e0 :: h)). split; [done|]. destruct e as [e|]; cbn; [|by constructor].
        destruct (E4 e eq_refl). by repeat constructor.
  - intros h q _ Hb _ _. by destruct h.
Qed.

(** The terminal is the last event, its counters are those of the whole stream,
    and nothing follows it in the source. *)
Definition ended (content : bytes) (h : list EventRecord) (q : QtrbEventCursor) : Prop :=
  if q_terminal_seen q then
    exists before e t, h = before ++ [e] /\ ev_payload e = PTermination t
      /\ q_termination q = Some t
      /\ Forall (fun e => ~ is_termination (ev_payload e)) before
      /\ q_offset q = zlen content
      /\ tm_instructions (te_metrics t) = q_instruction_count q
      /\ tm_encoded_bytes (te_metrics t) = zlen content
      /\ tm_effective_buffer_bytes (te_metrics t) = q_effective_buffer_bytes q
  else q_termination q = None /\ Forall (fun e => ~ is_termination (ev_payload e)) h.

Lemma decodes_ended q r e q' :
  decodes q r e q' -> q_terminal_seen q = false ->
  (q_terminal_seen q' = false /\ q_termination q' = q_termination q
   /\ forall e', e = Some e' -> ~ is_termination (ev_payload e'))
  \/ (exists t e', q_terminal_seen q' = true /\ e = Some e' /\ ev_payload e' = PTermination t
      /\ q_termination q' = Some t /\ q_offset q' = src_len (q_source q)
      /\ tm_instructions (te_metrics t) = q_instruction_count q'
      /\ tm_encoded_bytes (te_metrics t) = q_offset q'
      /\ tm_effective_buffer_bytes (te_metrics t) = q_effective_buffer_bytes q').
Proof.
  intros Hd Hts. destruct Hd; cbn;
    try (left; split_and!; [done|done|intros e' [= <-]; cbn; tauto]).
  - left. split_and!; [done..|]. intros e' [= <-]. destruct kind; cbn; tauto.
  - left. split_and!; [done..|]. intros e' [= <-]. cbv zeta in *.
    rename select (with_fragment_source_offsets _ _ _ _ = _) into Hw.
    apply with_offsets_key in Hw as (_ & -> & _). destruct kind; cbn; tauto.
  - right. exists t. eexists. rename select (terminal_matches _ _) into Hm.
    destruct Hm as (M1 & M2 & M3 & M4). split_and!; done.
  - right. exists t. eexists. rename select (terminal_matches _ _) into Hm.
    destruct Hm as (M1 & M2 & M3 & M4). split_and!; done.
Qed.

Lemma ended_reached content q0 h q `{!LawfulSource (q_source q0) content} :
  fresh content q0 -> reaches content q0 h q -> ended content h q.
Proof.
  intros F. apply reaches_invariant; clear h q.
  - unfold ended. destruct (fresh_terminal _ _ F) as [-> ->]. by split.
  - intros h q r q1 e q2 Hr He _ Hts Hf _ Hd. unfold ended in He. rewrite Hts in He.
    destruct He as [He1 He2].
    assert (q_terminal_seen q1 = false /\ q_termination q1 = None) as [Hts1 Ht1] by (by destruct Hf).
    assert (src_len (q_source q1) = zlen content) as Hlen.
    { rewrite <- (lawful_len (content := content)). f_equal.
      destruct Hf. cbn. by apply reaches_source in Hr. }
    enough (ended content (h ++ option_list e) q2) as He by (by destruct e).
    destruct (decodes_ended _ _ _ _ Hd Hts1)
      as [(E1 & E2 & E3)|(t & e' & E1 & -> & E2 & E3 & E4 & E5 & E6 & E7)];
      unfold ended; rewrite E1.
    + rewrite E2. split; [done|]. apply Forall_app. split; [done|].
      destruct e as [e|]; [|constructor]. repeat constructor. by apply E3.
    + exists h, e', t. split_and!; try done; congruence.
  - done.
Qed.

(** A drained cursor has read the whole source, reports it as retained and has
    a terminal unless the caller accepted a partial run. *)
Definition drained_ok (content : bytes) (h : list EventRecord) (q : QtrbEventCursor) : Prop :=
  if q_drained q then
    q_offset q = zlen content /\ q_pending q = None /\ q_began q = true
    /\ (q_terminal_seen q = true \/ q_mode q = RecoverablePartial)
    /\ q_completeness q =
         mkRange SourceBytes (HalfOpen 0 (zlen content)) Captured Retained
         :: (if q_terminal_seen q then []
             else [mkRange SourceBytes (HalfOpen (zlen content) (zlen content)) ProvUnknown
                     MissingTerminal])
  else q_completeness q = [].

Lemma drained_reached content q0 h q :
  fresh content q0 -> reaches content q0 h q -> drained_ok content h q.
Proof.
  intros F. apply reaches_invariant; clear h q.
  - unfold drained_ok. by destruct (fresh_drained _ _ F) as [-> ->].
  - intros h q r q1 e q2 Hr D Hdr _ Hf _ Hd. unfold drained_ok in *. rewrite Hdr in D.
    apply framed_parts in Hf as (_ & F1 & F2 & _). apply decodes_parts in Hd as (_ & E1 & E2 & _).
    destruct e; cbn; rewrite E1, E2, F1, F2, Hdr; done.
  - intros h q Hr D Hdr Ht. pose proof (books_reached _ _ _ _ F Hr) as (B1 & B2 & _).
    inversion Ht as [? ? [e|]|Ho Hp Hb Hid Hm]; [done..|].
    unfold drained_ok in *. rewrite Hdr in D. cbn. rewrite D, <- Ho.
    unfold source_bytes_with_cause, half_open, STREAM_HEADER_BYTES, RECORD_HEADER_BYTES in *.
    replace (0 >? q_offset q) with false by lia.
    replace (q_offset q >? q_offset q) with false by lia. cbn.
    destruct (q_terminal_seen q); done.
Qed.

(** ** The records partition the source *)

Definition raw_record : Type := Z * Z * bytes.

Definition encode_raw (r : raw_record) : bytes :=
  let '(raw_type, flags, payload) := r in
  encode_record_header (raw_type, flags, zlen payload) ++ payload.

Definition raw_record_ok (h : StreamHeader) (r : raw_record) : Prop :=
  let '(raw_type, flags, payload) := r in
  record_header_ok (raw_type, flags, zlen payload) /\ frame_ok h raw_type flags (zlen payload).

(** What was read is the stream header and the records, nothing else. *)
Definition partitioned (content : bytes) (h : list EventRecord) (q : QtrbEventCursor) : Prop :=
  exists records,
    take (Z.to_nat (q_offset q)) content
      = take (Z.to_nat STREAM_HEADER_BYTES) content ++ concat (map encode_raw records)
    /\ zlen records = q_next_ordinal q
    /\ Forall (raw_record_ok (q_header q)) records.

Lemma take_slice (content : bytes) o n :
  0 <= o -> 0 <= n ->
  take (Z.to_nat (o + n)) content = take (Z.to_nat o) content ++ slice content o n.
Proof.
  intros Ho Hn. unfold slice. rewrite Z2Nat.inj_add by done. symmetry. apply take_take_drop.
Qed.

Lemma partitioned_reached content q0 h q :
  fresh content q0 -> reaches content q0 h q -> partitioned content h q.
Proof.
  intros F. apply reaches_invariant; clear h q.
  - exists []. rewrite (fresh_offset _ _ F), (fresh_ordinal _ _ F), app_nil_r. by split_and!.
  - intros h q r q1 e q2 Hr (records & P1 & P2 & P3) _ _ Hf _ Hd.
    pose proof (books_reached _ _ _ _ F Hr) as (B1 & B2 & _).
    destruct (decodes_parts _ _ _ _ Hd) as (D1 & _ & _ & D2 & D3).
    destruct Hf as [raw flags payload F1 F2 F3 F4 F5 F6].
    exists (records ++ [(raw, flags, payload)]).
    assert (q_offset (counted e q2) = q_offset q + RECORD_HEADER_BYTES + zlen payload
            /\ q_next_ordinal (counted e q2) = q_next_ordinal q + 1
            /\ q_header (counted e q2) = q_header q) as (-> & -> & ->).
    { unfold fixed_parts in D1. destruct e; cbn in *; simplify_eq; done. }
    unfold STREAM_HEADER_BYTES, RECORD_HEADER_BYTES in *. split_and!.
    + rewrite !take_slice by (unfold zlen; lia). rewrite P1, F3, F4, map_app, concat_app.
      cbn [map concat encode_raw]. by rewrite app_nil_r, !app_assoc.
    + rewrite zlen_app, P2. done.
    + apply Forall_app. split; [done|]. apply Forall_singleton. by split.
  - done.
Qed.

(** ** A provider opens a fresh cursor *)

Lemma into_cursor_fresh content p :
  STREAM_HEADER_BYTES <= zlen content <= u64_max -> fresh content (into_cursor p).
Proof. intros Hlen. by constructor. Qed.
