(* ===== verification/QtrbComplete.v ===== *)
(** * Every step of the relation is taken

    The converse of [QtrbSound]: in the world that never refuses, a record that
    is [framed] is read, a record that [decodes] is decoded, and a [turn] is
    completed.  Together with [QtrbSound] and [QtrbRefine] this makes the step
    relation an exact specification of the cursor. *)

From stdpp Require Import prelude list strings pretty gmap.
From Stdlib Require Import ZArith Lia Strings.Byte.
From S2P Require Import Prelude Prog Control Model Source QtrbWire QtrbPayload QtrbCodec.
From S2P Require Import QtrbEvents Qtrb QtrbFormat QtrbSteps QtrbSound QtrbLoop QtrbInv.
Local Open Scope string_scope.
Local Open Scope list_scope.
Local Open Scope Z_scope.

(** ** Running straight-line code *)

Section runs.
Context {S : Type}.
Implicit Types s : S.

Lemma run_fail_if (b : bool) (e : ProviderError) s : b = false -> run (fail_if b e) s = (Ok tt, s).
Proof. by intros ->. Qed.

Lemma run_result {A} (r : result ProviderError A) a s : r = Ok a -> run (lift_result r) s = (Ok a, s).
Proof. by intros ->. Qed.

Lemma run_option {A} (o : option A) (e : ProviderError) a s :
  o = Some a -> run (lift_option o e) s = (Ok a, s).
Proof. by intros ->. Qed.

(** A loop whose turns return a fixed value. *)
Lemma run_map {X A} (xs : list X) (f : X -> Prog unit ProviderError S A) (g : X -> A) s :
  Forall (fun x => run (f x) s = (Ok (g x), s)) xs -> run (for_each xs f) s = (Ok (map g xs), s).
Proof.
  induction 1 as [|x xs Hx _ IH]; [done|]. cbn [for_each].
  rewrite (run_bind_ok _ _ _ _ _ Hx), (run_bind_ok _ _ _ _ _ IH). done.
Qed.

End runs.

(** [run_step] executes the first statement, leaving its precondition. *)
Ltac run_step :=
  cbv beta iota;
  match goal with
  | |- run (bind get _) _ = _ => erewrite run_bind_ok; [|reflexivity]
  | |- run (bind (ret _) _) _ = _ => erewrite run_bind_ok; [|reflexivity]
  | |- run (bind (modify _) _) _ = _ => erewrite run_bind_ok; [|reflexivity]
  | |- run (bind (consume _) _) _ = _ => erewrite run_bind_ok; [|reflexivity]
  | |- run (bind (fail_if _ _) _) _ = _ => erewrite run_bind_ok; [|apply run_fail_if]
  | |- run (bind (lift_result _) _) _ = _ => erewrite run_bind_ok; [|apply run_result]
  | |- run (bind (lift_option _ _) _) _ = _ => erewrite run_bind_ok; [|apply run_option]
  | |- run (bind (try_reserve_vec_exact _ _ _ _ _) _) _ = _ =>
      erewrite run_bind_ok; [|apply run_reserve_vec]
  | |- run (bind (try_copy_string _ _) _) _ = _ => erewrite run_bind_ok; [|apply run_copy_string]
  | |- run (bind (try_copy_bytes _ _) _) _ = _ => erewrite run_bind_ok; [|apply run_copy_bytes]
  | |- run (bind (try_reserve_hash_map _ _ _ _ _) _) _ = _ =>
      erewrite run_bind_ok; [|apply run_reserve_map]
  | |- run (bind (bind _ _) _) _ = _ => erewrite run_bind_ok
  end.

(** ** Definitions *)

Lemma text_short maximum s : text_ok maximum s -> zlen s <= u64_max.
Proof. intros (_ & Hu & _). machine. lia. Qed.

Lemma registers_short slots rs :
  Forall2 register_ok slots rs -> Forall (fun r => zlen (rw_name r) <= u64_max) rs.
Proof.
  induction 1 as [|s r slots rs (_ & _ & _ & Ht) _ IH]; constructor; [|done]. by eapply text_short.
Qed.

Lemma run_typed_definition {S} id d (s : S) :
  definition_ok (id, d) ->
  run (typed_definition (W := unit) id d) s = (Ok (definition_of id d), s).
Proof.
  intros Hok. unfold definition_ok in Hok. destruct_and!. unfold typed_definition.
  assert (forall rs slots, Forall2 register_ok slots rs ->
    run (for_each rs (typed_register (W := unit))) s = (Ok (map register_definition_of rs), s)) as Hreg.
  { intros rs slots Hrs. apply run_map. eapply Forall_impl; [by eapply registers_short|].
    intros r Hr. unfold typed_register. run_step; [done|]. done. }
  run_step. erewrite run_bind_ok; [|by eapply Hreg].
  run_step. erewrite run_bind_ok; [|by eapply Hreg].
  run_step. do 3 (run_step; [|by eapply text_short]). done.
Qed.

Lemma run_clone_definition {S} id d (s : S) :
  definition_ok (id, d) -> run (clone_definition_wire (W := unit) d) s = (Ok d, s).
Proof.
  intros Hok. unfold definition_ok in Hok. destruct_and!. unfold clone_definition_wire.
  assert (forall rs slots, Forall2 register_ok slots rs ->
    run (for_each rs (clone_register_wire (W := unit))) s = (Ok rs, s)) as Hreg.
  { intros rs slots Hrs. rewrite <- (map_id rs) at 2. apply run_map.
    eapply Forall_impl; [by eapply registers_short|].
    intros [] Hr. unfold clone_register_wire. run_step; [done|]. done. }
  run_step. erewrite run_bind_ok; [|by eapply Hreg].
  run_step. erewrite run_bind_ok; [|by eapply Hreg].
  run_step. do 3 (run_step; [|by eapply text_short]). by destruct d.
Qed.

(** ** Decoding *)

Section decode.
Context (q : QtrbEventCursor) (r : PhysicalRecord).
Context (Hsize : zlen (pr_payload r) <= u64_max).

Lemma zlen_metrics l : metrics_ok l -> zlen (encode_metrics l) = 80.
Proof.
  intros [Hl _]. replace 80 with (8 * zlen l) by lia. clear Hl. unfold encode_metrics.
  induction l as [|x l IH]; [done|]. cbn [map concat]. rewrite zlen_app, zlen_le_bytes, IH.
  unfold zlen. cbn [length]. lia.
Qed.

Lemma run_accept_terminal metrics draft :
  terminal_matches q metrics ->
  from_option zlen 0 (dr_reason draft) <= u64_max ->
  run (accept_terminal (W := unit) r metrics draft) q
  = (Ok (event q r None (PTermination (terminal_of metrics draft))),
     set_terminal (terminal_of metrics draft) q).
Proof.
  intros (M1 & M2 & M3 & M4) Hr. unfold accept_terminal. run_step.
  run_step; [|rewrite M1, Z.eqb_refl; done]. run_step; [|rewrite M2, M3, M4, !Z.eqb_refl; done].
  erewrite run_bind_ok with (a := dr_reason draft) (s' := q).
  - run_step. run_step. unfold terminal_of. done.
  - destruct (dr_reason draft); [|done]. run_step; [done|]. done.
Qed.

(** Reduce [decode_record] to the decoder of the record's type. *)
Ltac run_decoder :=
  match goal with Hty : pr_record_type r = Some _ |- _ =>
    unfold decode_record; rewrite Hty; erewrite run_bind_ok; [reflexivity|]
  end.

Lemma run_decode_terminal e q' :
  decodes q r e q' ->
  pr_record_type r = Some TraceEnd \/ pr_record_type r = Some TraceStop ->
  run (decode_record (W := unit) r) q = (Ok e, q').
Proof.
  intros Hd Ht.
  destruct Hd; try (destruct Ht; congruence); try (destruct Ht, kind; cbn in *; congruence).
  - run_decoder.
    rename select (trace_end_ok _) into Hok. rename select (pr_payload r = _) into Hp.
    unfold decode_trace_end. run_step.
    + erewrite run_bind_ok; [|by apply (run_codec codec_trace_end)]. run_step; [|done].
      by apply run_accept_terminal.
    + rewrite Hp. unfold encode_trace_end. rewrite !zlen_app, !zlen_le_bytes, zlen_metrics; [done|].
      by destruct Hok as (_ & _ & _ & ?).
  - run_decoder.
    rename select (trace_stop_ok _) into Hok. rename select (pr_payload r = _) into Hp.
    unfold decode_trace_stop. run_step. run_step; [|by apply orb_false_iff; rewrite negb_false_iff, Z.eqb_eq, Z.eqb_neq].
    run_step.
    + erewrite run_bind_ok; [|by apply (run_codec codec_trace_stop)]. run_step.
      * assert (zlen (stop_reason reason) <= u64_max) as Hstop.
        { unfold stop_reason. repeat case_match; vm_compute; discriminate. }
        run_step; [by apply run_accept_terminal|done].
      * rewrite bool_decide_eq_true_2 by done. lia.
    + rewrite Hp. unfold encode_trace_stop. rewrite !zlen_app, !zlen_le_bytes, zlen_metrics; [done|].
      by destruct Hok as (_ & _ & _ & ?).
Qed.

Lemma dictionary_room {V} (m : gmap Z V) :
  Z.of_nat (size m) < MAX_DICTIONARY_ENTRIES -> 0 <= Z.of_nat (size m) /\ Z.of_nat (size m) + 1 <= usize_max.
Proof. change MAX_DICTIONARY_ENTRIES with 65536. machine. lia. Qed.

Lemma run_decode_dictionary e q' :
  decodes q r e q' ->
  pr_record_type r = Some TModuleDefinition \/ pr_record_type r = Some TInstructionDefinition ->
  run (decode_record (W := unit) r) q = (Ok e, q').
Proof.
  intros Hd Ht.
  destruct Hd; try (destruct Ht; congruence); try (destruct Ht, kind; cbn in *; congruence);
    run_decoder; rename select (dictionary_admits _ _ _) into Ha; unfold dictionary_admits in Ha.
  - unfold decode_module. erewrite run_bind_ok; [|by apply (run_codec codec_module)].
    run_step; [|by eapply text_short; naive_solver]. run_step.
    destruct (q_modules q !! id) as [existing|] eqn:Hid.
    + subst existing. run_step; [|by rewrite bool_decide_eq_true_2].
      by rewrite insert_id, set_modules_same.
    + apply dictionary_room in Ha as Hroom. erewrite run_bind_ok; [reflexivity|].
      run_step; [|by apply Z.leb_gt]. by run_step; [|naive_solver..].
  - unfold decode_instruction_definition.
    erewrite run_bind_ok; [|by apply (run_codec (codec_definition r))]. run_step.
    destruct (q_definitions q !! id) as [existing|] eqn:Hid.
    + subst existing. run_step; [|by rewrite bool_decide_eq_true_2].
      erewrite run_bind_ok; [|by apply run_typed_definition].
      by rewrite insert_id, set_definitions_same.
    + apply dictionary_room in Ha as Hroom. erewrite run_bind_ok.
      * erewrite run_bind_ok; [|by apply run_typed_definition]. reflexivity.
      * run_step; [|by apply Z.leb_gt]. run_step; [|naive_solver..].
        by erewrite run_bind_ok; [|by eapply run_clone_definition].
Qed.

Lemma run_decode_observed e q' :
  decodes q r e q' ->
  pr_record_type r = Some TraceBegin \/ pr_record_type r = Some TInstruction
  \/ pr_record_type r = Some TMemory \/ pr_record_type r = None ->
  run (decode_record (W := unit) r) q = (Ok e, q').
Proof.
  intros Hd Ht.
  destruct Hd; try (naive_solver congruence); try (destruct kind; cbn in *; naive_solver congruence).
  - run_decoder. unfold decode_begin. run_step. run_step; [|done].
    erewrite run_bind_ok; [|by apply (run_codec codec_begin)]. run_step; [|lia]. done.
  - run_decoder. unfold decode_instruction. run_step.
    erewrite run_bind_ok; [|by apply (run_codec (codec_instruction q r))].
    run_step; [|by rewrite Z.eqb_refl]. run_step; [|by apply checked_add_Some].
    run_step. run_step; [|by apply checked_add_Some]. done.
  - run_decoder. unfold decode_memory. run_step.
    by erewrite run_bind_ok; [|by apply (run_codec (codec_memory q r))].
  - unfold decode_record. by rewrite (ltac:(done) : pr_record_type r = None).
Qed.

Lemma run_take_pending kind v p :
  group_of q r kind v = Some p ->
  let '(event_id, total, index, count, category, name, detail) := v in
  run (take_or_start_pending (W := unit) r kind event_id total index count category name) q
  = (Ok p, set_pending None q).
Proof.
  destruct v as [[[[[[event_id total] index] count] category] name] detail]. intros Hg.
  unfold group_of in Hg. unfold take_or_start_pending. do 2 run_step.
  destruct (q_pending q) as [p0|]; [by injection Hg as ->|].
  destruct (index =? 0) eqn:Hi; [|done]. injection Hg as <-. run_step; [|done].
  erewrite run_bind_ok with (a := category) (s' := set_pending None q).
  - run_step. by do 2 run_step.
  - destruct category; [|done]. by run_step.
Qed.

Lemma run_finish_fragment kind p e q1 :
  group_complete p ->
  (let e0 := semantic_event q1 (first_record p r) kind (pf_category p) (pf_name p) (pf_detail p) in
   with_fragment_source_offsets (ev_key e0) (ev_provenance e0) (ev_payload e0)
     (pf_fragment_offsets p) = Some e) ->
  run (finish_fragment (W := unit) r kind p) q1 = (Ok e, q1).
Proof.
  intros (C1 & C2 & C3 & C4 & C5) He. unfold finish_fragment, from_utf8.
  run_step; [|by rewrite C1, C2, !Z.eqb_refl].
  erewrite run_bind_ok with (a := pf_category p) (s' := q1).
  - rewrite C4, C5. do 3 run_step. by apply run_option.
  - destruct (pf_category p) as [c|]; [|done]. cbn in C3. by rewrite C3.
Qed.

Lemma group_accepts_checks p kind v :
  group_accepts p kind v ->
  let '(event_id, total, index, count, category, name, detail) := v in
  negb (bool_decide (pf_kind p = kind)) || negb (pf_event_id p =? event_id)
    || negb (pf_total_detail_bytes p =? total) || negb (pf_chunk_count p =? count)
    || negb (bool_decide (pf_category p = category)) || negb (bool_decide (pf_name p = name)) = false
  /\ negb (index =? pf_next_index p) = false
  /\ (zlen (pf_detail (extend_pending p r detail))
        >? pf_total_detail_bytes (extend_pending p r detail)) = false.
Proof.
  destruct v as [[[[[[event_id total] index] count] category] name] detail].
  intros (<- & <- & <- & <- & <- & <- & -> & Hlen). cbn -[zlen]. rewrite zlen_app.
  rewrite !Z.eqb_refl, !bool_decide_eq_true_2 by done. split_and!; [done..|lia].
Qed.

Lemma run_decode_fragment kind v p e q' :
  fragment_ok kind v -> pr_payload r = encode_fragment v -> fragment_admitted kind v ->
  group_of q r kind v = Some p -> group_accepts p kind v ->
  (let p' := extend_pending p r (fragment_detail v) in
   if pf_next_index p' <? pf_chunk_count p'
   then e = None /\ q' = set_pending (Some p') q
   else exists ev, run (finish_fragment (W := unit) r kind p') (set_pending None q)
                   = (Ok ev, set_pending None q) /\ e = Some ev /\ q' = set_pending None q) ->
  run (decode_fragment (W := unit) r kind) q = (Ok e, q').
Proof.
  intros Hok Hp Hadm Hg Hacc Hend. unfold decode_fragment.
  erewrite run_bind_ok; [|by apply (run_codec (codec_fragment r kind))].
  apply run_take_pending in Hg. apply group_accepts_checks in Hacc.
  destruct v as [[[[[[event_id total] index] count] category] name] detail].
  destruct Hacc as (A1 & A2 & A3). run_step; [|done].
  erewrite run_bind_ok; [|exact Hg]. run_step; [|done]. run_step; [|done]. cbv zeta.
  run_step; [|done]. cbn [fragment_detail snd] in Hend. cbv zeta in Hend.
  destruct (_ <? _).
  - destruct Hend as [-> ->]. by run_step.
  - destruct Hend as (ev & Hfin & -> & ->). by erewrite run_bind_ok; [|exact Hfin].
Qed.

Lemma run_decode_semantic kind e q' :
  decodes q r e q' -> pr_record_type r = Some (fragment_record_type kind) ->
  run (decode_record (W := unit) r) q = (Ok e, q').
Proof.
  intros Hd Ht.
  assert (run (decode_semantic (W := unit) r kind) q = (Ok e, q')) as Hsem;
    [|unfold decode_record; rewrite Ht; by destruct kind].
  unfold decode_semantic.
  destruct Hd; try (destruct kind; cbn in *; congruence);
    assert (kind0 = kind) as -> by (destruct kind0, kind; cbn in *; congruence).
  - rewrite (proj2 (Z.eqb_eq _ _)) by done.
    by erewrite run_bind_ok; [|by apply (run_codec (codec_semantic kind))].
  - rewrite (proj2 (Z.eqb_neq _ _)) by done. run_step. subst p'. run_step.
    + eapply run_decode_fragment; [done..|]. cbv zeta. by rewrite (proj2 (Z.ltb_lt _ _)) by done.
    + apply andb_false_iff. rewrite Z.eqb_neq. destruct kind; naive_solver.
  - rewrite (proj2 (Z.eqb_neq _ _)) by done. run_step. subst p'. run_step.
    + eapply run_decode_fragment; [done..|]. cbv zeta. rewrite (proj2 (Z.ltb_ge _ _)) by done.
      exists e. split_and!; [|done..]. by apply run_finish_fragment.
    + apply andb_false_iff. rewrite Z.eqb_neq. destruct kind; naive_solver.
Qed.

(** [decode_record] is exactly [decodes]. *)
Lemma run_decode_record e q' :
  run (decode_record (W := unit) r) q = (Ok e, q') <-> decodes q r e q'.
Proof.
  split.
  - unfold run. intros Hrun. destruct (decode_record r q tt) as [[res q1] []] eqn:Hd. cbn in Hrun.
    injection Hrun as -> ->. exact (wp_run_ok _ _ _ _ _ _ _ _ (accepts_decode_record r q) Hd).
  - intros Hd. destruct (pr_record_type r) as [[]|] eqn:Ht;
      try (apply run_decode_observed; [done|tauto]);
      try (apply run_decode_dictionary; [done|tauto]);
      try (apply run_decode_terminal; [done|tauto]).
    + by apply (run_decode_semantic FCall).
    + by apply (run_decode_semantic FRule).
    + by apply (run_decode_semantic FError).
Qed.

End decode.

(** ** Framing and turns *)

Lemma framing_limit_complete h c raw_type flags n :
  frame_ok h raw_type flags n -> exists limit, framing_limit h c raw_type flags = Ok limit /\ n <= limit.
Proof.
  unfold framing_limit, frame_ok. destruct (from_raw raw_type) as [t|].
  - intros (limit & -> & Hn). by exists limit.
  - intros (H1 & H2 & -> & H4). exists MAX_OPAQUE_PAYLOAD_BYTES. split; [|done].
    rewrite !(proj2 (Z.leb_le _ _)) by done. done.
Qed.

Section turns.
Context (content : bytes) (q : QtrbEventCursor) `{!LawfulSource (q_source q) content}.
Context (Ho : 0 <= q_offset q <= zlen content).

Lemma run_read_record r q' :
  run (read_record (W := unit)) q = (Ok r, q') <-> framed content q r q'.
Proof.
  pose proof (lawful_bound (src := q_source q) (content := content)) as Hb. split.
  - unfold run. intros Hrun. destruct (read_record q tt) as [[res q1] []] eqn:Hd. cbn in Hrun.
    injection Hrun as -> ->.
    exact (wp_run_ok _ _ _ _ _ _ _ _ (accepts_read_record content q (proj1 Ho)) Hd).
  - intros [raw flags payload Hh Hf S1 S2 Hle Hord]. assert (0 <= zlen payload) by (unfold zlen; lia).
    destruct (framing_limit_complete _ (mkCoordinate (q_offset q) (Some (q_next_ordinal q))) _ _ _ Hf)
      as (limit & Hlimit & Hn).
    unfold RECORD_HEADER_BYTES in *. unfold read_record, RECORD_HEADER_BYTES. do 2 run_step.
    run_step; [|by rewrite lawful_read by lia]. cbv zeta.
    run_step; [|apply checked_add_ok; lia]. run_step.
    erewrite run_bind_ok; [|unfold parse_record_header; apply (run_codec codec_record_fields)].
    2: { rewrite length_slice by lia. machine. lia. }
    2: { split; [exact Hh|exact S1]. }
    run_step; [|exact Hlimit]. run_step; [|lia].
    destruct Hh as (_ & _ & Hp32).
    run_step; [|unfold try_from; rewrite (proj2 (Z.leb_le _ _)); [done|machine; lia]].
    do 2 run_step. run_step; [|rewrite lawful_read by lia; by rewrite S2].
    run_step; [|apply checked_add_ok; lia]. run_step. run_step; [|by apply checked_add_Some].
    do 2 run_step. done.
Qed.

Lemma run_finish_stream :
  q_completeness q = [] -> turn content q (Some None) (finished q) ->
  run (finish_stream (W := unit)) q = (Ok None, finished q).
Proof.
  intros Hc Ht. inversion Ht as [? ? [e|]|Hoff Hp Hb Hid Hm]; [done..|].
  unfold finish_stream, validate_source_identity.
  erewrite run_bind_ok; [|run_step; apply run_fail_if; by rewrite lawful_len, Hid, Z.eqb_refl].
  run_step. run_step; [|by rewrite Hp]. run_step; [|by rewrite Hb].
  run_step; [|apply checked_add_ok; unfold zlen; destruct (_ && _); cbn; machine; lia]. rewrite Hc.
  run_step; [|apply checked_add_ok; unfold zlen; destruct (_ && _); cbn; machine; lia]. run_step. unfold finished.
  destruct (q_terminal_seen q) eqn:Hts; cbn [negb].
  - do 3 run_step. by rewrite Hc.
  - destruct Hm as [Hm|Hm]; [done|]. rewrite Hm. do 3 run_step. by rewrite Hc.
Qed.

(** A turn of the loop is exactly [turn]. *)
Lemma run_turn o q' :
  q_completeness q = [] ->
  run (next_event_turn (W := unit)) q = (Ok o, q') <-> turn content q o q'.
Proof.
  intros Hc. split.
  - unfold run. intros Hrun. destruct (next_event_turn q tt) as [[res q1] []] eqn:Hd. cbn in Hrun.
    injection Hrun as -> ->. exact (turn_ok content q tt o q' tt Ho Hd).
  - intros Ht. unfold next_event_turn. run_step. rewrite lawful_len.
    destruct Ht as [r q1 e q2 Hts Hf Hord Hd|Hoff Hp Hb Hid Hm].
    + rewrite Hts. pose proof (framed_parts _ _ _ _ Hf) as (_ & _ & _ & F1 & F2 & _).
      assert (0 <= zlen (pr_payload r) <= u64_max) as Hsize.
      { pose proof (lawful_bound (src := q_source q) (content := content)).
        unfold RECORD_HEADER_BYTES, zlen in *. lia. }
      unfold RECORD_HEADER_BYTES in *.
      rewrite (proj2 (Z.eqb_neq _ _)) by lia. run_step; [|lia].
      apply run_read_record in Hf. erewrite run_bind_ok; [|exact Hf]. run_step.
      run_step; [|by apply check_order_ok].
      apply (run_decode_record _ _ (proj2 Hsize)) in Hd. erewrite run_bind_ok; [|exact Hd].
      destruct e; [|done]. by do 2 run_step.
    + pose proof (run_finish_stream Hc (turn_finish content q Hoff Hp Hb Hid Hm)) as Hfin.
      destruct (q_terminal_seen q) eqn:Hts.
      * run_step; [|lia]. by erewrite run_bind_ok; [|exact Hfin].
      * rewrite (proj2 (Z.eqb_eq _ _)) by done. by erewrite run_bind_ok; [|exact Hfin].
Qed.

End turns.
