(* ===== verification/QtrbRoundtrip.v ===== *)
(** * Round trips: stream header and fragment groups

    The stream header is accepted exactly when it is an encoding of an accepted
    header, and a logical event split into continuation records is reassembled
    to itself. *)

From stdpp Require Import prelude list strings pretty gmap.
From Stdlib Require Import ZArith Lia Strings.Byte Sorted.
From S2P Require Import Prelude Prog Control Model Source QtrbWire QtrbPayload QtrbCodec.
From S2P Require Import QtrbEvents Qtrb QtrbFormat QtrbSteps QtrbSound QtrbLoop QtrbInv.
From S2P Require Import QtrbComplete.
Local Open Scope string_scope.
Local Open Scope list_scope.
Local Open Scope Z_scope.

(** ** The stream header *)

(** The version matrix and field domains of a QTRB 1.x header. *)
Definition header_ok (h : StreamHeader) : Prop :=
  0 <= sh_profile h <= 2
  /\ ((sh_minor h = 0 /\ sh_required_features h = 0)
      \/ (sh_minor h = 1 /\ sh_required_features h = 0)
      \/ (sh_minor h = 2 /\ sh_required_features h = 1)).

Definition header_fields : Type := bytes * Z * Z * Z * Z * Z * Z * Z * Z.

Definition encode_header_fields (v : header_fields) : bytes :=
  let '(magic, major, minor, endian, width, profile, reserved, size, features) := v in
  magic ++ le_bytes 1 major ++ le_bytes 1 minor ++ le_bytes 1 endian ++ le_bytes 1 width
    ++ le_bytes 1 profile ++ le_bytes 1 reserved ++ le_bytes 2 size ++ le_bytes 4 features.

Definition header_fields_ok (v : header_fields) : Prop :=
  let '(magic, major, minor, endian, width, profile, reserved, size, features) := v in
  zlen magic = 4 /\ in_u8 major /\ in_u8 minor /\ in_u8 endian /\ in_u8 width /\ in_u8 profile
  /\ in_u8 reserved /\ in_u16 size /\ in_u32 features.

#[export] Instance codec_header_fields :
  Codec (fun W _ _ => @parse_header_fields W) encode_header_fields header_fields_ok.
Proof.
  split.
  - intros W G H rest. unfold parse_header_fields. parse_step. apply parses_take; [done|].
    intros magic r Hm ->. repeat parse_step. cbn. rewrite app_nil_r. split_and!; done.
  - intros [[[[[[[[magic major] minor] endian] width] profile] reserved] size] features] Hok.
    cbn in Hok. destruct_and!. unfold parse_header_fields, encode_header_fields.
    eapply prints_bind; [by apply prints_take|]. rewrite <- (app_nil_r (le_bytes 4 features)).
    repeat (print_step; try done).
Qed.

Lemma accepts_header_parse {W} {G : WorkGuard W} {A : Allocator W} {S} bs (s : S) :
  wp (W := W) (header_parse bs)
    (fun h s' => s' = s /\ header_ok h
                 /\ exists width, (width = 4 \/ width = 8) /\ bs = encode_header h width)
    (fun _ _ => True) s.
Proof.
  unfold header_parse. apply wp_bind, (wp_codec codec_header_fields G A); [|done].
  intros [[[[[[[[magic major] minor] endian] width] profile] reserved] size] features] Hok Hp.
  cbv zeta iota beta. 
  apply wp_bind, wp_fail_if; [intros Hmagic%negb_false_iff%bool_decide_eq_true|done].
  apply wp_bind, wp_fail_if; [intros Hmajor%negb_false_iff%Z.eqb_eq|done].
  apply wp_bind, wp_fail_if; [intros Hendian%negb_false_iff%Z.eqb_eq|done].
  apply wp_bind, wp_fail_if; [intros Hwidth%negb_false_iff|done].
  apply wp_bind, wp_fail_if; [intros Hprofile|done].
  apply wp_bind, wp_fail_if; [intros Hreserved%negb_false_iff%Z.eqb_eq|done].
  apply wp_bind, wp_fail_if; [intros Hsize%negb_false_iff%Z.eqb_eq|done].
  apply wp_bind, wp_fail_if; [intros Hmatrix%negb_false_iff|done].
  apply wp_ret. cbn in Hok. subst. split; [done|]. unfold header_ok. cbn. split; [machine; lia|].
  exists width. split; [lia|]. done.
Qed.

Lemma run_header_parse {S} bs h (s : S) :
  run (header_parse (W := unit) bs) s = (Ok h, s)
  <-> header_ok h /\ exists width, (width = 4 \/ width = 8) /\ bs = encode_header h width.
Proof.
  split.
  - unfold run. intros Hrun. destruct (header_parse bs s tt) as [[res s'] []] eqn:Hd. cbn in Hrun.
    injection Hrun as -> ->.
    destruct (wp_run_ok _ _ _ _ _ _ _ _ (accepts_header_parse bs s) Hd) as [_ Hok]. exact Hok.
  - intros (Hok & width & Hw & ->). unfold header_parse. destruct h as [minor profile features].
    unfold header_ok in Hok. cbn in Hok.
    erewrite run_bind_ok with (a := (MAGIC, MAJOR_VERSION, minor, LITTLE_ENDIAN_MARKER, width, profile,
                                     0, STREAM_HEADER_BYTES, features)) (s' := s).
    + run_step; [|done]. run_step; [|done]. run_step; [|done]. run_step; [|lia].
      run_step; [|lia]. run_step; [|done]. run_step; [|done]. run_step; [|lia]. done.
    + apply (run_codec codec_header_fields).
      * unfold encode_header, zlen. rewrite !length_app, !length_le_bytes. cbn. machine. lia.
      * split; [|done]. cbn. unfold LITTLE_ENDIAN_MARKER, MAJOR_VERSION, STREAM_HEADER_BYTES. machine.
        split_and!; try done; lia.
Qed.

(** ** Opening a provider *)

Lemma accepts_provider_open {W} {G : WorkGuard W} {A : Allocator W} {S} src content identity mode (s : S)
    `{!LawfulSource src content} :
  wp (W := W) (provider_open src identity mode)
    (fun p s' => s' = s /\ qp_source p = src /\ qp_mode p = mode
       /\ STREAM_HEADER_BYTES <= zlen content <= u64_max
       /\ header_ok (qp_header p)
       /\ (exists width, (width = 4 \/ width = 8)
           /\ slice content 0 STREAM_HEADER_BYTES = encode_header (qp_header p) width)
       /\ si_source_bytes (qp_identity p) = zlen content
       /\ si_artifact (qp_identity p) = si_artifact identity
       /\ si_format_major (qp_identity p) = MAJOR_VERSION
       /\ si_format_minor (qp_identity p) = sh_minor (qp_header p))
    (fun _ _ => True) s.
Proof.
  unfold provider_open. apply wp_bind, accepts_consume, wp_bind, wp_result.
  destruct (src_read src 0 STREAM_HEADER_BYTES) as [bs|] eqn:Hread; [|done]. cbn [map_err].
  assert (0 <= STREAM_HEADER_BYTES) as H16 by done.
  destruct (lawful_read_inv src content _ _ _ (Z.le_refl 0) H16 Hread) as (Hlen & -> & _).
  apply wp_bind. eapply wp_mono; [apply accepts_header_parse| |done].
  intros h s' (-> & Hok & Hw). apply wp_bind, accepts_consume, wp_bind, accepts_reserve.
  apply wp_bind, accepts_copy_string, wp_ret. cbn.
  pose proof (lawful_bound (src := src) (content := content)). rewrite lawful_len.
  split_and!; try done; lia.
Qed.

(** ** Fragment groups *)

(** The continuation records of a logical event: chunk [i] of [n] at its own
    offset and ordinal. *)
Definition fragment_record (kind : FragmentKind) (event_id total count : Z) (category : option bytes)
    (name : bytes) (i : Z) (chunk : bytes) (at_ : Z * Z) : PhysicalRecord :=
  mkPhysicalRecord (Some (fragment_record_type kind)) (to_raw (fragment_record_type kind)) CHUNK_FLAG
    (encode_fragment (event_id, total, i, count, category, name, chunk)) (fst at_) (snd at_).

Fixpoint fragment_records (kind : FragmentKind) (event_id total count : Z) (category : option bytes)
    (name : bytes) (i : Z) (chunks : list (bytes * (Z * Z))) : list PhysicalRecord :=
  match chunks with
  | [] => []
  | (chunk, at_) :: chunks =>
      fragment_record kind event_id total count category name i chunk at_
      :: fragment_records kind event_id total count category name (i + 1) chunks
  end.

Definition chunk_bytes (chunks : list (bytes * (Z * Z))) : bytes := concat (map fst chunks).
Definition chunk_offsets (chunks : list (bytes * (Z * Z))) : list Z := map (fun c => fst (snd c)) chunks.

Section fragments.
Context (q : QtrbEventCursor) (kind : FragmentKind) (event_id total count : Z)
  (category : option bytes) (name : bytes).
Context (Hid : 1 <= event_id <= u64_max) (Hcount : 2 <= count <= u16_max)
  (Htotal : count <= total <= logical_limit kind)
  (Hcat : category_ok text_ok kind category) (Hname : text_ok (name_limit kind) name)
  (Hminor : kind = FCall \/ sh_minor (q_header q) <> 0).

Abbreviation group i detail first offsets :=
  (mkPending kind event_id total count i category name detail (fst first) (snd first) offsets).
Abbreviation record i chunk at_ :=
  (fragment_record kind event_id total count category name i chunk at_).

Definition chunk_ok (chunk : bytes) : Prop := 1 <= zlen chunk <= chunk_limit kind /\ zlen chunk < total.

Lemma category_raw : category_ok raw_ok kind category.
Proof.
  destruct category as [c|]; [|done]. destruct Hcat as [-> (H1 & H2 & _)]. split; [done|by split].
Qed.

Lemma fragment_fields_ok i chunk :
  0 <= i < count -> chunk_ok chunk ->
  fragment_ok kind (event_id, total, i, count, category, name, chunk)
  /\ fragment_admitted kind (event_id, total, i, count, category, name, chunk)
  /\ zlen (encode_fragment (event_id, total, i, count, category, name, chunk)) <= u64_max.
Proof.
  intros Hi [Hc1 Hc2].
  assert (in_u16 (zlen chunk) /\ logical_limit kind <= u32_max) as [Hc16 Hl].
  { unfold chunk_limit, logical_limit in *. destruct (is_call kind);
      unfold MAX_CALL_CHUNK_DETAIL_BYTES, MAX_EVENT_CHUNK_DETAIL_BYTES in *;
      (split; [machine; lia|vm_compute; discriminate]). }
  assert (fragment_ok kind (event_id, total, i, count, category, name, chunk)) as Hok.
  { unfold fragment_ok, raw_ok. destruct Hname as (N1 & N2 & _).
    split_and!; try done; try apply category_raw; machine; lia. }
  split_and!; [done|..].
  - unfold fragment_admitted, fragment_rejected, logical_limit in *. cbv zeta. lia.
  - unfold encode_fragment, encode_string. rewrite !zlen_app, !zlen_le_bytes.
    assert (zlen (encode_optional category) <= 2 + u16_max).
    { destruct category as [c|]; [|vm_compute; discriminate]. destruct Hcat as [_ (_ & Hc & _)].
      unfold encode_optional, encode_string. rewrite zlen_app, zlen_le_bytes. machine. lia. }
    destruct Hname as (_ & N2 & _). machine. lia.
Qed.

(** One continuation that leaves the group open. *)
Lemma run_fragment_more q1 i chunk at_ first detail offsets :
  q_header q1 = q_header q ->
  q_pending q1 = (if i =? 0 then None else Some (group i detail first offsets)) ->
  (i = 0 -> detail = [] /\ offsets = [] /\ first = at_) ->
  0 <= i -> i + 1 < count -> chunk_ok chunk -> zlen detail + zlen chunk <= total ->
  run (decode_record (W := unit) (record i chunk at_)) q1
  = (Ok None, set_pending (Some (group (i + 1) (detail ++ chunk) first (offsets ++ [fst at_]))) q1).
Proof.
  intros Hh Hp H0 Hi Hlt Hc Hlen. destruct (fragment_fields_ok i chunk ltac:(lia) Hc) as (F1 & F2 & F3).
  apply run_decode_record; [done|].
  eapply (decodes_fragment _ _ kind _ (group i detail first offsets)); cbn -[Z.add saturating_add]; try done.
  - by rewrite Hh.
  - unfold group_of. rewrite Hp. destruct (Z.eqb_spec i 0) as [->|]; [|done].
    by destruct (H0 eq_refl) as (-> & -> & ->).
  - unfold extend_pending. cbn -[Z.add saturating_add]. by rewrite saturating_add_exact by lia.
Qed.

(** The continuation that completes it. *)
Lemma run_fragment_last q1 i chunk at_ first detail offsets :
  q_header q1 = q_header q ->
  q_pending q1 = Some (group i detail first offsets) ->
  0 < i -> i + 1 = count -> chunk_ok chunk -> zlen detail + zlen chunk = total ->
  zlen offsets = i -> head (offsets ++ [fst at_]) = Some (fst first) ->
  Sorted Z.lt (offsets ++ [fst at_]) -> utf8_valid (detail ++ chunk) = true ->
  run (decode_record (W := unit) (record i chunk at_)) q1
  = (Ok (Some (mkEventRecord
       (mkEventKey (si_artifact (q_identity q1)) TIMELINE_ID (snd first) (fst first) None (q_tid q1))
       Captured
       (let s := mkSemanticEvent category name (detail ++ chunk) [] in
        match kind with FCall => SemanticCall s | FRule => SemanticRule s | FError => SemanticError s end)
       ArtifactScope (offsets ++ [fst at_]))), set_pending None q1).
Proof.
  intros Hh Hp Hi Heq Hc Hlen Hoff Hhd Hs Hutf.
  destruct (fragment_fields_ok i chunk ltac:(lia) Hc) as (F1 & F2 & F3).
  apply run_decode_record; [done|].
  eapply (decodes_last_fragment _ _ kind _ (group i detail first offsets)); cbn -[Z.add saturating_add zlen]; try done.
  - by rewrite Hh.
  - unfold group_of. by rewrite Hp.
  - split_and!; try done. cbn -[zlen Z.add]. lia.
  - cbn -[Z.add saturating_add]. rewrite saturating_add_exact; lia.
  - unfold group_complete. cbn -[zlen]. rewrite !zlen_app. change (zlen [fst at_]) with 1.
    destruct Hname as (_ & _ & ?). split_and!; try done; try lia.
    destruct category as [c|]; [|done]. by destruct Hcat as [_ (_ & _ & ?)].
  - unfold with_fragment_source_offsets. cbn [pf_fragment_offsets extend_pending pr_offset fragment_record].
    rewrite (proj2 (fragment_offsets_new_iff (offsets ++ [fst at_]) (offsets ++ [fst at_])));
      [|split_and!; [done| |done]; rewrite zlen_app; change (zlen [fst at_]) with 1;
        unfold MAX_FRAGMENT_SOURCE_OFFSETS; lia].
    unfold first_offset_mismatch. destruct (offsets ++ [fst at_]); [done|].
    injection Hhd as ->. cbn. rewrite Z.eqb_refl. by destruct kind.
Qed.

Lemma chunk_bytes_app a b : chunk_bytes (a ++ b) = chunk_bytes a ++ chunk_bytes b.
Proof. unfold chunk_bytes. by rewrite map_app, concat_app. Qed.

(** The rest of a group, from any point of it. *)
Lemma run_fragments_from chunks q1 i first detail offsets :
  q_header q1 = q_header q ->
  q_pending q1 = (if i =? 0 then None else Some (group i detail first offsets)) ->
  (i = 0 -> detail = [] /\ offsets = [] /\ exists c rest, chunks = (c, first) :: rest) ->
  0 <= i -> i + zlen chunks = count -> chunks <> [] ->
  Forall (fun c => chunk_ok (fst c)) chunks ->
  zlen (detail ++ chunk_bytes chunks) = total -> zlen offsets = i ->
  head (offsets ++ chunk_offsets chunks) = Some (fst first) ->
  Sorted Z.lt (offsets ++ chunk_offsets chunks) ->
  utf8_valid (detail ++ chunk_bytes chunks) = true ->
  run (for_each (fragment_records kind event_id total count category name i chunks)
         (decode_record (W := unit))) q1
  = (Ok (replicate (length chunks - 1) None ++ [Some (mkEventRecord
       (mkEventKey (si_artifact (q_identity q1)) TIMELINE_ID (snd first) (fst first) None (q_tid q1))
       Captured
       (let s := mkSemanticEvent category name (detail ++ chunk_bytes chunks) [] in
        match kind with FCall => SemanticCall s | FRule => SemanticRule s | FError => SemanticError s end)
       ArtifactScope (offsets ++ chunk_offsets chunks))]), set_pending None q1).
Proof.
  revert q1 i detail offsets. induction chunks as [|[chunk at_] chunks IH];
    intros q1 i detail offsets Hh Hp H0 Hi Hn Hne Hall Htot Hoff Hhd Hs Hutf; [done|].
  apply Forall_cons in Hall as [Hc Hall']. cbn [fragment_records for_each].
  assert (zlen ((chunk, at_) :: chunks) = 1 + zlen chunks) as Hlen by (unfold zlen; cbn [length]; lia).
  change (chunk_bytes ((chunk, at_) :: chunks)) with (chunk ++ chunk_bytes chunks) in *.
  change (chunk_offsets ((chunk, at_) :: chunks)) with ([fst at_] ++ chunk_offsets chunks) in *.
  destruct chunks as [|c2 chunks].
  - change (zlen []) with 0 in Hlen. change (chunk_bytes []) with (@nil byte) in *.
    change (chunk_offsets []) with (@nil Z) in *. rewrite !app_nil_r in *.
    rewrite zlen_app in Htot. destruct (Z.eqb_spec i 0) as [->|Hi0]; [lia|].
    erewrite run_bind_ok; [|eapply (run_fragment_last _ _ _ _ first detail offsets); try done; lia].
    reflexivity.
  - assert (first = at_ \/ i <> 0) as Hfirst.
    { destruct (decide (i = 0)) as [->|]; [|by right]. destruct (H0 eq_refl) as (_ & _ & c & r & [= -> ->]).
      by left. }
    erewrite run_bind_ok; [|eapply (run_fragment_more _ _ _ _ first detail offsets); try done].
    + rewrite !app_assoc in Htot, Hutf, Hhd, Hs.
      erewrite run_bind_ok.
      2: { apply (IH _ (i + 1) (detail ++ chunk) (offsets ++ [fst at_])); try done.
           - rewrite (proj2 (Z.eqb_neq _ _)) by lia. done.
           - lia.
           - lia.
           - unfold zlen in *. cbn [length] in *. lia.
           - rewrite zlen_app. change (zlen [fst at_]) with 1. lia. }
      cbn [length Nat.sub replicate]. rewrite Nat.sub_0_r, !app_assoc. reflexivity.
    + intros ->. destruct (H0 eq_refl) as (-> & -> & c & r & [= -> ->]). done.
    + unfold zlen in *. cbn [length] in *. lia.
    + rewrite !zlen_app in Htot. unfold zlen in *. lia.
Qed.

End fragments.
