(* ===== verification/QtrbShared.v ===== *)
(** * The shared Flight decoders agree with the QTRB cursor

    [qtrb/events.rs] decodes the definition, instruction and memory payloads a
    second time, for records that travel inside Flight chunks.  Both decoders
    accept the same payloads with the same meaning, up to the checks that only
    make sense in one place (a Flight definition id is never zero, a Flight
    record names module 1, a QTRB record names a dictionary entry). *)

From stdpp Require Import prelude list strings pretty gmap.
From Stdlib Require Import ZArith Lia Strings.Byte.
From S2P Require Import Prelude Prog Control Model Source QtrbWire QtrbPayload QtrbCodec.
From S2P Require Import QtrbEvents Qtrb QtrbFormat QtrbSteps QtrbSound QtrbComplete.
Local Open Scope string_scope.
Local Open Scope list_scope.
Local Open Scope Z_scope.

(** ** Definitions *)

(** The wire form of a register definition. *)
Definition wire_of (d : RegisterDefinition) : RegisterWire :=
  mkRegisterWire (rd_slot d) (rd_captured_width d) (rd_name d).

Lemma map_definition_wire l : map register_definition_of (map wire_of l) = l.
Proof. induction l as [|[] l IH]; [done|]. cbn. by rewrite IH. Qed.

Section parses.
Context {W : Type} `{WorkGuard W} `{Allocator W}.

Lemma parses_shared_registers mask field c rest (Q : list RegisterDefinition -> bytes -> Prop) :
  (forall out rest', Forall2 register_ok (mask_slots mask) out -> rest = encode_registers out ++ rest' ->
     Q (map register_definition_of out) rest') ->
  parses (W := W) (shared_registers mask field c) rest Q.
Proof.
  intros HQ. unfold shared_registers. do 2 parse_step.
  eapply (parses_for_each _ _ (fun _ d => encode_register (wire_of d))
            (fun slot d => register_ok slot (wire_of d))).
  - intros slot r _. repeat parse_step. rename select (_ || _ = false) into Hf.
    apply orb_false_iff in Hf as [[Hw0 Hw16]%orb_false_iff Hn].
    unfold register_ok, text_ok, encode_register, wire_of. cbn. rewrite <- app_assoc. machine.
    split_and!; try done; unfold zlen in *; lia.
  - intros out r Hout ->. rewrite <- (map_definition_wire out). apply HQ.
    + by apply Forall2_fmap_r.
    + rewrite (concat_zip_ignore (fun d => encode_register (wire_of d)))
        by (by eapply Forall2_length).
      unfold encode_registers. by rewrite map_map.
Qed.

Lemma parses_shared_operand c rest :
  parses (W := W) (shared_memory_operand c) rest
    (fun o rest' => exists wire, rest = encode_operand wire ++ rest' /\ operand_ok wire
                                 /\ o = typed_memory_operand wire).
Proof.
  unfold shared_memory_operand. repeat parse_step.
  rename select (operand_rejected _ _ _ _ _ _ = false) into Hrej.
  rename select (decode_direction _ _ = Ok _) into Hdir.
  eexists (mkMemoryOperandWire _ _ _ _ _ _ _ _ _). split_and!.
  - unfold encode_operand. cbn. by rewrite <- !app_assoc.
  - unfold operand_ok. cbn. by split_and!.
  - unfold typed_memory_operand. cbn. f_equal. revert Hdir. unfold decode_direction.
    repeat case_match; by intros [= <-].
Qed.

(** A counted sequence whose elements are the images of wire values. *)
Lemma parses_images {X A B} (xs : list X) (f : X -> Prog W ProviderError PayloadCursor A)
    (enc : B -> bytes) (ok : X -> B -> Prop) (g : B -> A) rest (Q : list A -> bytes -> Prop) :
  (forall x r, x ∈ xs ->
     parses (f x) r (fun a r' => exists b, r = enc b ++ r' /\ ok x b /\ a = g b)) ->
  (forall out rest', Forall2 ok xs out -> rest = concat (map enc out) ++ rest' -> Q (map g out) rest') ->
  parses (for_each xs f) rest Q.
Proof.
  revert rest Q. induction xs as [|x xs IH]; intros rest Q Hf HQ; cbn [for_each].
  - apply parses_ret. apply (HQ []); [constructor|done].
  - apply parses_bind. eapply parses_mono; [apply Hf; left|]. intros a r (b & -> & Hb & ->).
    apply parses_bind, IH; [intros; apply Hf; by right|]. intros out r' Hout ->.
    apply parses_ret, (HQ (b :: out)); [by constructor|]. cbn. by rewrite app_assoc.
Qed.

(** What the shared decoder accepts, in terms of the cursor's wire values. *)
Definition shared_definition (payload : bytes) (t : InstructionDefinition) : Prop :=
  exists id d, id <> 0 /\ definition_ok (id, d) /\ payload = encode_definition (id, d)
               /\ t = definition_of id d.

Lemma parses_shared_definition c rest :
  parses (W := W) (decode_instruction_definition_payload_body c) rest
    (fun t rest' => rest' = [] /\ shared_definition rest t).
Proof.
  unfold decode_instruction_definition_payload_body. repeat parse_step.
  apply parses_shared_registers. intros reads r1 Hreads ->. parse_step.
  apply parses_shared_registers. intros writes r2 Hwrites ->. repeat parse_step.
  eapply (parses_images _ _ encode_operand (fun _ => operand_ok) typed_memory_operand);
    [intros; apply parses_shared_operand|]. intros ops r3 Hops ->. repeat parse_step.
  split; [done|]. rename select (_ || _ = false) into Hrej.
  apply orb_false_iff in Hrej as [Hid Hrej].
  apply Forall2_seqZ_replicate in Hops as [<- Hops]; [|machine; lia].
  eexists _, (mkDefinitionWire _ _ _ _ _ _ _ _ _ _ _ reads writes ops). split_and!.
  3: { unfold encode_definition. cbn. rewrite app_nil_r. done. }
  - lia.
  - unfold definition_ok, text_ok. cbn. by split_and!.
  - done.
Qed.

End parses.

Lemma prints_images {X A B} (xs : list X) (f : X -> Prog unit ProviderError PayloadCursor A)
    (enc : B -> bytes) (g : B -> A) out rest :
  Forall2 (fun x b => forall r, prints (f x) (enc b ++ r) (g b) r) xs out ->
  prints (for_each xs f) (concat (map enc out) ++ rest) (map g out) rest.
Proof.
  induction 1 as [|x b xs out Hx _ IH]; cbn; [apply prints_ret|].
  rewrite <- app_assoc. eapply prints_bind; [done|]. eapply prints_bind; [done|]. apply prints_ret.
Qed.

Lemma prints_shared_registers mask field c out rest :
  Forall2 register_ok (mask_slots mask) out ->
  prints (shared_registers mask field c) (encode_registers out ++ rest)
    (map register_definition_of out) rest.
Proof.
  intros Hout. unfold shared_registers. print_step. apply prints_images.
  eapply Forall2_impl; [exact Hout|]. intros slot [s w n] (Hs & Hw & Hn & Hm & Hu & Hv) r.
  cbn in *. subst s. unfold encode_register. cbn. rewrite <- app_assoc.
  repeat (print_step; try done); [machine; lia|].
  replace (w =? 0) with false by lia. replace (w >? 16) with false by lia.
  replace (zlen n =? 0) with false by lia. done.
Qed.

Lemma prints_shared_operand c o rest :
  operand_ok o ->
  prints (shared_memory_operand c) (encode_operand o ++ rest) (typed_memory_operand o) rest.
Proof.
  unfold operand_ok, encode_operand, shared_memory_operand, typed_memory_operand.
  destruct o as [b i e m s k w z d]. cbn. intros Ho. destruct_and!. rewrite <- !app_assoc.
  rename select (operand_rejected _ _ _ _ _ _ = false) into Hrej.
  assert (1 <= k <= 3) as Hk.
  { unfold operand_rejected in Hrej. rewrite !orb_false_iff in Hrej. lia. }
  assert (decode_direction k c = Ok (match k with 1 => Read | 2 => Write | _ => ReadWrite end)) as Hdir.
  { assert (k = 1 \/ k = 2 \/ k = 3) as Hk3 by lia. by destruct Hk3 as [-> | [-> | ->]]. }
  repeat (print_step; try done).
Qed.

Lemma prints_shared_definition c id d :
  id <> 0 -> definition_ok (id, d) ->
  prints (decode_instruction_definition_payload_body c) (encode_definition (id, d))
    (definition_of id d) [].
Proof.
  intros Hid Hok. unfold definition_ok, text_ok in Hok.
  destruct d as [op rm wm di fl pk co sl mn os dis reads writes ops]; cbn in Hok. destruct_and!.
  unfold decode_instruction_definition_payload_body, encode_definition. cbn.
  rewrite <- (app_nil_r (concat (map encode_operand _))).
  rename select (definition_rejected _ _ _ _ _ _ = false) into Hrej.
  assert (zlen ops <= 4) as Hops4.
  { unfold definition_rejected in Hrej. rewrite !orb_false_iff in Hrej.
    destruct_and!. unfold MAX_MEMORY_OPERAND_COUNT in *. lia. }
  repeat (print_step; try first [done | unfold zlen in *; machine; lia | by rewrite Hrej, orb_false_r, Z.eqb_neq]).
  eapply prints_bind; [by apply prints_shared_registers|].
  eapply prints_bind; [by apply prints_shared_registers|]. print_step.
  eapply prints_bind; [|repeat print_step]. apply prints_images. eapply Forall2_impl.
  { apply (Forall2_seqZ_replicate operand_ok); [unfold zlen; lia|done]. }
  intros x o Ho r'. by apply prints_shared_operand.
Qed.

(** A decoder on a payload of its own, both directions at once. *)
Lemma run_local_iff {S A} (p : Prog unit ProviderError PayloadCursor A) (P : bytes -> A -> Prop)
    payload label coordinate (s : S) a :
  (forall rest, parses p rest (fun a rest' => rest' = [] /\ P rest a)) ->
  (forall a, P payload a -> prints p payload a []) ->
  zlen payload <= u64_max ->
  run (with_local (cursor_new payload label coordinate) p) s = (Ok a, s) <-> P payload a.
Proof.
  intros Hparse Hprint Hb. split.
  - intros Hr. unfold run in Hr.
    destruct (with_local _ _ s tt) as [[r s'] []] eqn:Hrun. cbn in Hr. injection Hr as -> ->.
    eapply (wp_run_ok _ (fun a _ => P payload a) (fun _ _ => True)); [|exact Hrun]. apply wp_local.
    eapply wp_mono; [apply (Hparse payload); [apply cursor_new_wf|done]| |done]. naive_solver.
  - intros Ha. by apply run_local_prints; [apply Hprint|].
Qed.

Lemma run_shared_definition {S} payload c (s : S) t :
  zlen payload <= u64_max ->
  run (decode_instruction_definition_payload (W := unit) payload c) s = (Ok t, s)
  <-> shared_definition payload t.
Proof.
  intros Hb. apply run_local_iff; [apply parses_shared_definition| |done].
  intros a (id & d & Hid & Hok & -> & ->). by apply prints_shared_definition.
Qed.

(** ** Memory *)

Definition shared_memory (expected : option Z) (payload : bytes) (m : Memory) : Prop :=
  memory_fields_ok m /\ payload = encode_memory m
  /\ from_option (fun id => me_module_id m = id) True expected.

Lemma direction_codes code c d :
  decode_direction code c = Ok d <-> d <> DirUnknown /\ in_u8 code /\ le_bytes 1 code = encode_direction d
                                     /\ 1 <= code <= 3.
Proof.
  split.
  - unfold decode_direction. intros H. repeat case_match; try done; injection H as <-;
      (split_and!; [done|machine; lia|done|lia..]).
  - intros (Hd & _ & He & Hc). assert (code = 1 \/ code = 2 \/ code = 3) as H3 by lia.
    destruct H3 as [-> | [-> | ->]], d; try done.
Qed.

Lemma parses_shared_capture {W} `{WorkGuard W} `{Allocator W} field c rest
    (Q : CaptureBytes -> bytes -> Prop) :
  (forall s rest', capture_ok s -> rest = encode_capture s ++ rest' -> Q s rest') ->
  parses (W := W) (shared_memory_state field c) rest Q.
Proof.
  intros HQ. unfold shared_memory_state. do 2 parse_step. rename v into state. do 2 parse_step.
  rename v into count. parse_step. parse_step. parse_step. apply parses_take; [machine; lia|].
  intros bs r Hlen ->.
  assert (count = 0 -> bs = []) as Hbs by (intros ->; by destruct bs).
  destruct (Z.eqb_spec state 0) as [->|Hs0].
  { destruct (Z.eqb_spec count 0) as [->|Hc]; [|destruct count; [done|parse_step..]].
    apply parses_ret, HQ; [done|]. by rewrite (Hbs eq_refl). }
  destruct (Z.eqb_spec state 1) as [->|Hs1].
  { repeat parse_step. apply HQ; cbn; [lia|]. by rewrite Hlen, <- !app_assoc. }
  destruct (Z.eqb_spec state 2) as [->|Hs2].
  { destruct (Z.eqb_spec count 0) as [->|Hc]; [|destruct count; [done|parse_step..]].
    apply parses_ret, HQ; [done|]. by rewrite (Hbs eq_refl). }
  repeat (case_match; try lia; try parse_step).
Qed.

Lemma prints_shared_capture field c s rest :
  capture_ok s -> prints (shared_memory_state field c) (encode_capture s ++ rest) s rest.
Proof.
  intros Hs. unfold shared_memory_state.
  destruct s as [| |bs]; cbn [encode_capture]; rewrite <- !app_assoc;
    repeat (print_step; try done).
  - eapply prints_bind; [by apply (prints_take 0 [])|]. repeat (print_step; try done).
  - eapply prints_bind; [by apply (prints_take 0 [])|]. repeat (print_step; try done).
  - cbn in Hs. unfold MAX_CAPTURED_MEMORY_BYTES in Hs. unfold zlen in *. machine. lia.
  - cbn in Hs. lia.
  - eapply prints_bind; [by apply prints_take|]. repeat (print_step; try done).
Qed.

Lemma parses_shared_memory {W} `{WorkGuard W} `{Allocator W} expected c rest :
  parses (W := W) (decode_memory_payload_body expected c) rest
    (fun m rest' => rest' = [] /\ shared_memory expected rest m).
Proof.
  unfold decode_memory_payload_body. repeat parse_step.
  rename select (decode_direction _ _ = Ok _) into Hdir. apply direction_codes in Hdir as (Hd & _ & -> & _).
  rename select (_ || _ = false) into Hf. apply orb_false_iff in Hf as [Hexp Hmeta].
  apply parses_shared_capture. intros before r1 Hb ->. parse_step.
  apply parses_shared_capture. intros after r2 Ha ->. repeat parse_step. split; [done|].
  unfold shared_memory, memory_fields_ok, encode_memory. cbn. rewrite app_nil_r.
  split_and!; try done.
  - unfold bool_byte. do 3 f_equal. rename select (in_u8 _) into Hu. 
    match goal with |- context [?x =? 1] => destruct (x =? 1) eqn:E; do 3 f_equal; machine; lia end.
  - destruct expected; cbn in *; [|done]. lia.
Qed.

Lemma prints_shared_memory expected c m :
  memory_fields_ok m -> from_option (fun id => me_module_id m = id) True expected ->
  prints (decode_memory_payload_body expected c) (encode_memory m) m [].
Proof.
  destruct m as [mid pc addr size dir avail flags value before after].
  intros (H1 & H2 & H3 & H4 & H5 & H6 & H7 & H8 & H9) He. cbn in *.
  unfold decode_memory_payload_body, encode_memory. cbn. rewrite <- (app_nil_r (encode_capture after)).
  unfold bool_byte. repeat (print_step; try first [done | by destruct dir | by destruct avail]).
  { destruct expected as [x|]; cbn in *; subst; rewrite ?Z.eqb_refl; by destruct avail. }
  eapply prints_bind; [by apply prints_shared_capture|].
  eapply prints_bind; [by apply prints_shared_capture|].
  print_step. destruct avail; apply prints_ret.
Qed.

Lemma run_shared_memory {S} payload expected c (s : S) m :
  zlen payload <= u64_max ->
  run (decode_memory_payload_for_module (W := unit) payload expected c) s = (Ok m, s)
  <-> shared_memory expected payload m.
Proof.
  intros Hb. apply run_local_iff; [apply parses_shared_memory| |done].
  intros a (Hok & -> & He). by apply prints_shared_memory.
Qed.

(** ** Instructions *)

(** An instruction payload read against one definition. *)
Definition shared_instruction (id : Z) (d : InstructionDefinitionWire) (expected : option Z)
    (payload : bytes) (v : DecodedInstruction) : Prop :=
  let i := dec_instruction v in
  in_u64 (dec_local_sequence v) /\ in_u32 (in_module_id i) /\ in_u64 (in_relative_pc i)
  /\ in_u32 (in_definition_id i) /\ in_definition_id i = id
  /\ from_option (fun m => in_module_id i = m) True expected
  /\ in_u8 (zlen (dw_reads d)) /\ in_u8 (zlen (dw_writes d))
  /\ Forall2 observation_ok (dw_reads d) (in_read_before i)
  /\ Forall2 observation_ok (dw_writes d) (in_write_after i)
  /\ payload = encode_instruction (dec_local_sequence v, i).

Lemma shared_observation_spec {W} `{WorkGuard W} `{Allocator W} detail r :
  shared_observation (W := W) detail (register_definition_of r) = observation detail r.
Proof. done. Qed.

Lemma for_each_map {W E S X Y A} (g : X -> Y) (f : Y -> Prog W E S A) xs :
  for_each (map g xs) f = for_each xs (fun x => f (g x)).
Proof. induction xs as [|x xs IH]; [done|]. cbn. by rewrite IH. Qed.

Lemma zlen_map {X Y} (g : X -> Y) xs : zlen (map g xs) = zlen xs.
Proof. unfold zlen. by rewrite length_map. Qed.

Lemma parses_shared_instruction {W} `{WorkGuard W} `{Allocator W} id d expected c rest :
  parses (W := W) (decode_instruction_payload_body (definition_of id d) expected c) rest
    (fun v rest' => rest' = [] /\ shared_instruction id d expected rest v).
Proof.
  unfold decode_instruction_payload_body. cbn [id_reads id_writes id_definition_id definition_of].
  rewrite !for_each_map, !zlen_map. repeat parse_step. rename select (_ || _ = false) into Hf.
  rewrite !orb_false_iff, !negb_false_iff, !Z.eqb_eq in Hf. destruct Hf as [[[Hexp ->] ->] ->].
  apply parses_observations. intros out1 r1 Hout1 ->. repeat parse_step.
  apply parses_observations. intros out2 r2 Hout2 ->. repeat parse_step. split; [done|].
  unfold shared_instruction, encode_instruction. cbn. rewrite app_nil_r.
  rewrite <- (Forall2_zlen _ _ _ Hout1), <- (Forall2_zlen _ _ _ Hout2).
  split_and!; try done. destruct expected; cbn in *; [lia|done].
Qed.

Lemma prints_shared_instruction id d expected c payload v :
  shared_instruction id d expected payload v ->
  prints (decode_instruction_payload_body (definition_of id d) expected c) payload v [].
Proof.
  destruct v as [sequence [did m pc out1 out2]]. intros Hv. unfold shared_instruction in Hv. cbn in Hv.
  destruct Hv as (Hs & Hm & Hpc & Hid & <- & He & Hn1 & Hn2 & H1 & H2 & ->).
  unfold decode_instruction_payload_body, encode_instruction.
  cbn [id_reads id_writes id_definition_id definition_of in_module_id in_relative_pc in_definition_id
       in_read_before in_write_after].
  rewrite !for_each_map, !zlen_map, <- (app_nil_r (encode_values out2)),
    <- (Forall2_zlen _ _ _ H1), <- (Forall2_zlen _ _ _ H2).
  repeat (print_step; try done).
  { rewrite !Z.eqb_refl. destruct expected as [x|]; cbn in *; subst; by rewrite ?Z.eqb_refl. }
  eapply prints_bind; [by apply (prints_observations _ (dw_reads d))|]. print_step.
  eapply prints_bind; [by apply (prints_observations _ (dw_writes d))|]. repeat print_step.
Qed.

Lemma run_shared_instruction {S} id d payload expected c (s : S) v :
  zlen payload <= u64_max ->
  run (decode_instruction_payload (W := unit) payload (definition_of id d) expected c) s = (Ok v, s)
  <-> shared_instruction id d expected payload v.
Proof.
  intros Hb. apply run_local_iff; [apply parses_shared_instruction| |done].
  intros a. apply prints_shared_instruction.
Qed.
