(* ===== verification/QtrbClient.v ===== *)
(** * A client of the QTRB provider

    The protocol a client follows ([SourceProvider::open], then
    [EventCursor::next_event] until it returns [None], then [finish]) as a
    program, and the facts about a whole run that the theorems of
    [QtrbTheorems] are read off from. *)

From stdpp Require Import prelude list strings pretty gmap.
From Stdlib Require Import ZArith Lia Strings.Byte Sorted.
From S2P Require Import Prelude Prog Control Model Source QtrbWire QtrbPayload QtrbCodec.
From S2P Require Import QtrbEvents Qtrb QtrbFormat QtrbSteps QtrbSound QtrbLoop QtrbInv.
From S2P Require Import QtrbRoundtrip.
Local Open Scope string_scope.
Local Open Scope list_scope.
Local Open Scope Z_scope.

Section client.
Context {W : Type} `{G : WorkGuard W} `{A : Allocator W}.
Implicit Types (q : QtrbEventCursor) (w : W).

(** [while let Some(event) = cursor.next_event(guard)? { .. }], at most [fuel]
    calls; [None] means the calls did not suffice. *)
Fixpoint collect (fuel : nat) q w :
    option (result ProviderError (list EventRecord) * QtrbEventCursor * W) :=
  match fuel with
  | O => None
  | S fuel =>
      match next_event q w with
      | (Err e, q', w') => Some (Err e, q', w')
      | (Ok None, q', w') => Some (Ok [], q', w')
      | (Ok (Some e), q', w') =>
          match collect fuel q' w' with
          | Some (Ok h, q'', w'') => Some (Ok (e :: h), q'', w'')
          | other => other
          end
      end
  end.

(** The run of a client on a source: open, then read to the end. *)
Definition read_stream (fuel : nat) (src : ReadAtSource) (identity : SourceIdentity) (mode : OpenMode)
    w : option (result ProviderError (list EventRecord) * QtrbEventCursor) :=
  match provider_open src identity mode tt w with
  | (Ok p, _, w') =>
      match collect fuel (into_cursor p) w' with
      | Some (r, q, _) => Some (r, q)
      | None => None
      end
  | _ => None
  end.

(** A provider opened on [src] has produced the events [h] and is now [q]. *)
Definition streamed (src : ReadAtSource) (identity : SourceIdentity) (mode : OpenMode)
    (h : list EventRecord) q : Prop :=
  exists p w0 w1 w, provider_open src identity mode tt w0 = (Ok p, tt, w1)
                    /\ emits (into_cursor p) w1 h q w.

Lemma next_event_drained content q0 w0 h q w e q' w' `{!LawfulSource (q_source q0) content} :
  0 <= q_offset q0 <= zlen content -> emits q0 w0 h q w -> q_drained q = false ->
  next_event q w = (Ok e, q', w') -> q_drained q' = bool_decide (e = None).
Proof.
  intros H0 Hem Hd Hcall. apply (emits_reaches content) in Hem; [|done..].
  by eapply next_event_reaches in Hcall as [_ Hr].
Qed.

(** Collecting extends a run to its end. *)
Lemma collect_emits content q0 w0 fuel h0 q w h q' w' `{!LawfulSource (q_source q0) content} :
  0 <= q_offset q0 <= zlen content -> emits q0 w0 h0 q w -> q_drained q = false ->
  collect fuel q w = Some (Ok h, q', w') ->
  emits q0 w0 (h0 ++ h) q' w' /\ q_drained q' = true.
Proof.
  intros H0. revert h0 q w h. induction fuel as [|fuel IH]; intros h0 q w h Hem Hd; [done|]. cbn.
  destruct (next_event q w) as [[[[e|]|e] q1] w1] eqn:Hcall; [| |done];
    pose proof (next_event_drained content _ _ _ _ _ _ _ _ H0 Hem Hd Hcall) as Hd1.
  - destruct (collect fuel q1 w1) as [[[[h1|] q2] w2]|] eqn:Hc; try done. intros [= <- <- <-].
    replace (h0 ++ e :: h1) with ((h0 ++ option_list (Some e)) ++ h1) by (by rewrite <- app_assoc).
    eapply IH; [|exact Hd1|exact Hc]. by eapply emits_call.
  - intros [= <- <- <-]. split; [|exact Hd1].
    change [] with (option_list (@None EventRecord)). by eapply emits_call.
Qed.

(** Every call of a run consumes a record, so the calls are bounded by the
    source. *)
Lemma collect_total content q0 w0 fuel h0 q w `{!LawfulSource (q_source q0) content} :
  fresh content q0 -> emits q0 w0 h0 q w -> q_drained q = false ->
  zlen content < RECORD_HEADER_BYTES * (zlen h0 + Z.of_nat fuel) ->
  is_Some (collect fuel q w).
Proof.
  intros F. pose proof (fresh_offset _ _ F) as Fo. pose proof (fresh_len _ _ F) as Fl.
  assert (0 <= q_offset q0 <= zlen content) as H0 by (unfold STREAM_HEADER_BYTES in *; lia).
  revert h0 q w. induction fuel as [|fuel IH]; intros h0 q w Hem Hd Hfuel; cbn.
  - pose proof Hem as Hr. apply (emits_reaches content) in Hr; [|done..].
    destruct (books_reached _ _ _ _ F Hr) as (_ & B2 & _ & _ & _ & _ & B7 & _).
    unfold STREAM_HEADER_BYTES, RECORD_HEADER_BYTES in *. lia.
  - destruct (next_event q w) as [[[[e|]|e] q1] w1] eqn:Hcall; [|done..].
    pose proof (next_event_drained content _ _ _ _ _ _ _ _ H0 Hem Hd Hcall) as Hd1.
    destruct (IH (h0 ++ option_list (Some e)) q1 w1) as [[[[h1|] q2] w2] Hc].
    + by eapply emits_call.
    + exact Hd1.
    + rewrite zlen_app. change (zlen (option_list (Some e))) with 1. lia.
    + by rewrite Hc.
    + by rewrite Hc.
Qed.

(** ** From an opened provider *)

Lemma opened_fresh src content identity mode p w0 w1 `{!LawfulSource src content} :
  provider_open src identity mode tt w0 = (Ok p, tt, w1) ->
  fresh content (into_cursor p) /\ q_source (into_cursor p) = src
  /\ q_mode (into_cursor p) = mode /\ 0 <= q_offset (into_cursor p) <= zlen content
  /\ si_source_bytes (q_identity (into_cursor p)) = zlen content.
Proof.
  intros Hopen.
  destruct (wp_run_ok _ _ _ _ _ _ _ _ (accepts_provider_open src content identity mode tt) Hopen)
    as (_ & Hs & Hm & Hlen & _ & _ & Hid & _).
  split_and!; [by apply into_cursor_fresh|done|done|done| |done].
  unfold STREAM_HEADER_BYTES in Hlen. cbn. unfold STREAM_HEADER_BYTES. lia.
Qed.

Lemma streamed_reaches src content identity mode h q `{!LawfulSource src content} :
  streamed src identity mode h q ->
  exists q0, fresh content q0 /\ q_source q0 = src /\ q_mode q0 = mode /\ reaches content q0 h q.
Proof.
  intros (p & w0 & w1 & w & Hopen & Hem).
  destruct (opened_fresh src content _ _ _ _ _ Hopen) as (F & Hs & Hm & H0 & _).
  exists (into_cursor p). split_and!; [done..|].
  assert (LawfulSource (q_source (into_cursor p)) content) by (by rewrite Hs).
  by eapply emits_reaches.
Qed.

Lemma read_stream_streamed fuel src content identity mode w0 h q `{!LawfulSource src content} :
  read_stream fuel src identity mode w0 = Some (Ok h, q) ->
  streamed src identity mode h q /\ q_drained q = true.
Proof.
  unfold read_stream. destruct (provider_open src identity mode tt w0) as [[[p|] []] w1] eqn:Hopen; [|done].
  destruct (collect fuel (into_cursor p) w1) as [[[r q1] w2]|] eqn:Hc; [|done]. intros [= -> ->].
  destruct (opened_fresh src content _ _ _ _ _ Hopen) as (F & Hs & Hm & H0 & _).
  assert (LawfulSource (q_source (into_cursor p)) content) by (by rewrite Hs).
  destruct (collect_emits content _ _ _ _ _ _ _ _ _ H0 (emits_start _ w1) eq_refl Hc) as [Hem Hd].
  split; [|done]. by exists p, w0, w1, w2.
Qed.

End client.
