(* ===== verification/QtrbSample.v ===== *)
(** * A sample stream

    One QTRB stream with every kind of record the current encoder writes, and
    its run: the concrete input of the examples in the theorem files. *)

From stdpp Require Import prelude list strings pretty gmap.
From Stdlib Require Import ZArith Lia Strings.Byte.
From S2P Require Import Prelude Prog Control Model Source QtrbWire QtrbPayload QtrbCodec.
From S2P Require Import QtrbEvents Qtrb QtrbFormat QtrbSteps QtrbLoop QtrbClient.
Local Open Scope string_scope.
Local Open Scope list_scope.
Local Open Scope Z_scope.

Definition text (s : string) : bytes := String.list_byte_of_string s.

Definition sample_begin : BeginMetadata :=
  mkBegin 4096 64 4160 100 (Some 7) Balanced false 65536 1 (text "scene") (text "target") 0 None None.

Definition sample_definition : InstructionDefinitionWire :=
  mkDefinitionWire 2332033024 1 2 (-4) 1 1 14 0 (text "mov") (text "x1, x0") (text "mov x1, x0")
    [mkRegisterWire 0 8 (text "x0")] [mkRegisterWire 1 8 (text "x1")]
    [mkMemoryOperandWire 31 255 0 0 0 1 0 8 16].

Definition sample_instruction : Instruction :=
  mkInstruction 1 1 128 [mkRegisterObservation 0 8 (text "x0") 42]
    [mkRegisterObservation 1 8 (text "x1") 42].

Definition sample_memory : Memory :=
  mkMemory 1 128 8192 8 Read true 0 42 NotCaptured (CapturedBytes (text "12345678")).

Definition sample_chunk (i : Z) (detail : string) : fragment_fields :=
  (9, 10, i, 2, Some (text "jni"), text "FindClass", text detail).

Definition sample_body : bytes :=
  encode_record TraceBegin 0 (encode_begin (1, 0, sample_begin, 7))
    ++ encode_record TModuleDefinition 0 (encode_module (1, 4096, text "libapp.so"))
    ++ encode_record TInstructionDefinition 0 (encode_definition (1, sample_definition))
    ++ encode_record TInstruction 0 (encode_instruction (1, sample_instruction))
    ++ encode_record TMemory 0 (encode_memory sample_memory)
    ++ encode_record TCall CHUNK_FLAG (encode_fragment (sample_chunk 0 "java/"))
    ++ encode_record TCall CHUNK_FLAG (encode_fragment (sample_chunk 1 "lang/")).

Definition sample_header : StreamHeader := mkStreamHeader 2 1 1.

Definition sample_content : bytes :=
  let prefix := encode_header sample_header 8 ++ sample_body in
  let total := zlen prefix + RECORD_HEADER_BYTES + TRACE_STOP_PAYLOAD_BYTES in
  prefix ++ encode_record TraceStop 0
              (encode_trace_stop (1, replicate 7 x00, 12, [1; total; 0; 0; 0; 0; 0; 0; 0; 65536])).

Definition sample_identity : SourceIdentity := mkSourceIdentity [] (text "qtrb") 0 0 0.

Abbreviation sample_run :=
  (read_stream (W := unit) 20 (ByteSource sample_content) sample_identity Sealed tt).

Definition sample_events : list EventRecord :=
  match sample_run with Some (Ok h, _) => h | _ => [] end.

Definition sample_cursor : QtrbEventCursor :=
  match sample_run with
  | Some (_, q) => q
  | None => into_cursor (mkProvider (ByteSource sample_content) sample_identity
              qtrb_register_observations [] Sealed sample_header)
  end.

#[export] Instance sample_lawful : LawfulSource (ByteSource sample_content) sample_content.
Proof. apply ByteSource_lawful. vm_compute. discriminate. Qed.

Lemma sample_kinds :
  map (fun e => payload_kind (ev_payload e)) sample_events
  = [KBegin; KModuleDefinition; KInstructionDefinition; KInstruction; KMemory; KSemanticCall;
     KTermination].
Proof. vm_compute. reflexivity. Qed.

Lemma sample_run_ok : sample_run = Some (Ok sample_events, sample_cursor).
Proof.
  assert (match sample_run with Some (Ok _, _) => true | _ => false end = true) as Hok
    by (vm_compute; reflexivity).
  unfold sample_events, sample_cursor. revert Hok. generalize sample_run.
  intros [[[h|e] q]|] Hok; [reflexivity|discriminate Hok..].
Qed.

Lemma sample_streamed :
  streamed (W := unit) (ByteSource sample_content) sample_identity Sealed sample_events sample_cursor
  /\ q_drained sample_cursor = true.
Proof. exact (read_stream_streamed 20 _ sample_content _ _ tt _ _ sample_run_ok). Qed.
