(* ===== verification/QtrbTheorems.v ===== *)
(** * Properties of the QTRB provider

    The statements a reader of the crate cares about, over every work guard and
    heap ([W]) and every lawful source, each read off from the libraries of the
    other [Qtrb] files. *)

From stdpp Require Import prelude list strings pretty gmap.
From Stdlib Require Import ZArith Lia Strings.Byte Sorted.
From S2P Require Import Prelude Prog Control Model Source QtrbWire QtrbPayload QtrbCodec.
From S2P Require Import QtrbEvents Qtrb QtrbRefine QtrbFormat QtrbSteps QtrbSound QtrbLoop.
From S2P Require Import QtrbInv QtrbComplete QtrbRoundtrip QtrbShared QtrbClient QtrbSample.
Local Open Scope string_scope.
Local Open Scope list_scope.
Local Open Scope Z_scope.

(** ** Guards decide whether, never what *)

(** C15: A call of [next_event] under any work guard and any heap ends exactly as
    the call that is never refused: same result, same cursor.  The only other
    outcome is a resource error (cancellation, budget, allocation), which
    poisons the cursor. *)
Theorem next_event_guard_transparent {W} {G : WorkGuard W} {A : Allocator W} (q : QtrbEventCursor) (w : W) :
  match next_event q w with
  | (r, q', _) =>
      run (next_event (W := unit)) q = (r, q')
      \/ exists e, r = Err e /\ resource_error e /\ q_poisoned q' = true
  end.
Proof.
  pose proof (next_event_refines_lemma q w tt) as H. unfold run.
  destruct (next_event q w) as [[r1 q1] w1] eqn:Hw.
  destruct (next_event q tt) as [[r2 q2] []]. destruct H as [[-> ->]|(e & -> & He)]; [by left|].
  right. exists e. split_and!; [done..|].
  unfold next_event in Hw. destruct (q_drained q); [done|].
  destruct (q_poisoned q) eqn:Hp; [by injection Hw as _ <- _|].
  destruct (next_event_inner q w) as [[[?|?] ?] ?]; [done|]. by injection Hw as _ <- _.
Qed.

(** ** The cursor is the step relation *)

(** C1: One turn of the cursor's loop returns [o] and leaves [q'] exactly when the
    step relation of the format allows it: the next bytes of the source frame a
    record, the order rules admit it and it decodes to that event and state, or
    the source is exhausted and the run may end. *)
Theorem turn_exact (content : bytes) (q q' : QtrbEventCursor) (o : option (option EventRecord))
    (Hlaw : LawfulSource (q_source q) content)
    (Hoff : 0 <= q_offset q <= zlen content) (Hcomp : q_completeness q = []) :
  run (next_event_turn (W := unit)) q = (Ok o, q') <-> turn content q o q'.
Proof. by apply run_turn. Qed.

Definition sample_fresh : QtrbEventCursor :=
  into_cursor (mkProvider (ByteSource sample_content) sample_identity qtrb_register_observations []
                 Sealed sample_header).

Lemma turn_exact_witness :
  exists o q', turn sample_content sample_fresh (Some (Some o)) q' /\ ek_record_ordinal (ev_key o) = 0.
Proof.
  assert (match run (next_event_turn (W := unit)) sample_fresh with
          | (Ok (Some (Some o)), _) => ek_record_ordinal (ev_key o) =? 0 | _ => false end = true) as Hok
    by (vm_compute; reflexivity).
  destruct (run (next_event_turn (W := unit)) sample_fresh) as [[[[o|]|]|] q'] eqn:Hrun;
    try discriminate Hok.
  exists o, q'. split.
  - apply (turn_exact sample_content sample_fresh q' (Some (Some o)) sample_lawful);
      [vm_compute; split; discriminate|reflexivity|exact Hrun].
  - by apply Z.eqb_eq.
Defined.

(** C2: Decoding a framed record succeeds with event [e] and cursor [q'] exactly
    when [decodes] relates them; in particular every accepted payload is the
    wire encoding of the value the event carries, and every such encoding is
    accepted. *)
Theorem decode_record_exact (q q' : QtrbEventCursor) (r : PhysicalRecord) (e : option EventRecord)
    (Hsize : zlen (pr_payload r) <= u64_max) :
  run (decode_record (W := unit) r) q = (Ok e, q') <-> decodes q r e q'.
Proof. by apply run_decode_record. Qed.

Lemma decode_record_exact_witness :
  let r := mkPhysicalRecord (Some TModuleDefinition) 2 0 (encode_module (1, 4096, text "libapp.so")) 16 0 in
  exists e q', decodes sample_fresh r e q' /\ size (q_modules q') = 1%nat.
Proof.
  set (r := mkPhysicalRecord _ _ _ _ _ _). cbv zeta.
  assert (match run (decode_record (W := unit) r) sample_fresh with
          | (Ok _, q') => Nat.eqb (size (q_modules q')) 1 | _ => false end = true) as Hok
    by (vm_compute; reflexivity).
  destruct (run (decode_record (W := unit) r) sample_fresh) as [[e|] q'] eqn:Hrun;
    [|discriminate Hok].
  exists e, q'. split.
  - apply (decode_record_exact sample_fresh q' r e); [vm_compute; discriminate|exact Hrun].
  - by apply Nat.eqb_eq.
Defined.

(** Reading a record returns exactly the record framed at the cursor: its type,
    flags and size are admitted by the stream's version, its bytes are the
    header and payload found in the source, and offset, ordinal and counters
    move past it. *)
Theorem read_record_exact (content : bytes) (q q' : QtrbEventCursor) (r : PhysicalRecord)
    (Hlaw : LawfulSource (q_source q) content) (Hoff : 0 <= q_offset q <= zlen content) :
  run (read_record (W := unit)) q = (Ok r, q') <-> framed content q r q'.
Proof. by apply run_read_record. Qed.

Lemma read_record_exact_witness :
  exists r q', framed sample_content sample_fresh r q' /\ pr_record_type r = Some TraceBegin.
Proof.
  assert (match run (read_record (W := unit)) sample_fresh with
          | (Ok r, _) => bool_decide (pr_record_type r = Some TraceBegin) | _ => false end = true) as Hok
    by (vm_compute; reflexivity).
  destruct (run (read_record (W := unit)) sample_fresh) as [[r|] q'] eqn:Hrun;
    [|discriminate Hok].
  exists r, q'. split.
  - apply (read_record_exact sample_content sample_fresh q' r sample_lawful);
      [vm_compute; split; discriminate|exact Hrun].
  - by apply bool_decide_eq_true in Hok.
Defined.

(** ** Termination *)

(** C21: The unbounded [loop] of [next_event_inner] terminates on every lawful
    source, under every guard, and its result is the one the model computes. *)
Theorem next_event_terminates {W} {G : WorkGuard W} {A : Allocator W} (content : bytes)
    (q : QtrbEventCursor) (w : W)
    (Hlaw : LawfulSource (q_source q) content) (Hoff : 0 <= q_offset q <= zlen content) :
  loops q w (next_event_inner q w).
Proof. by apply (next_event_inner_total content). Qed.

Lemma next_event_terminates_witness : loops sample_fresh tt (next_event_inner sample_fresh tt).
Proof.
  apply (next_event_terminates sample_content sample_fresh tt sample_lawful).
  vm_compute. split; discriminate.
Defined.

(** A client that calls [next_event] until it returns [None] or an error needs
    at most one call per eight bytes of the source, plus one. *)
Theorem stream_terminates {W} {G : WorkGuard W} {A : Allocator W} (src : ReadAtSource) (content : bytes)
    (identity : SourceIdentity) (mode : OpenMode) (p : QtrbProvider) (w0 w1 : W) (fuel : nat)
    (Hlaw : LawfulSource src content)
    (Hopen : provider_open src identity mode tt w0 = (Ok p, tt, w1))
    (Hfuel : zlen content / 8 < Z.of_nat fuel) :
  is_Some (collect fuel (into_cursor p) w1).
Proof.
  destruct (opened_fresh src content _ _ _ _ _ Hopen) as (F & Hs & _).
  assert (LawfulSource (q_source (into_cursor p)) content) by (by rewrite Hs).
  apply (collect_total content _ w1 _ [] _ _ F (emits_start _ w1) eq_refl).
  change (zlen []) with 0. unfold RECORD_HEADER_BYTES.
  pose proof (Z.div_mod (zlen content) 8 ltac:(lia)).
  pose proof (Z.mod_pos_bound (zlen content) 8 ltac:(lia)). lia.
Qed.

Lemma stream_terminates_witness :
  exists p, is_Some (collect (W := unit) 200 (into_cursor p) tt).
Proof.
  assert (is_ok (fst (run (provider_open (W := unit) (ByteSource sample_content) sample_identity
    Sealed) tt)) = true) as Hok by (vm_compute; reflexivity).
  unfold run in Hok.
  destruct (provider_open (W := unit) (ByteSource sample_content) sample_identity Sealed tt tt)
    as [[[p|] []] []] eqn:Hopen; [|discriminate Hok].
  exists p. eapply (stream_terminates (ByteSource sample_content) sample_content sample_identity
    Sealed p tt tt 200 sample_lawful Hopen). vm_compute. reflexivity.
Defined.

(** ** What a stream of events looks like *)

Section streams.
Context {W : Type} {G : WorkGuard W} {A : Allocator W}.

(** The events a provider has returned, at any point of any run, are in the
    order of the source: record ordinals and source offsets strictly increase,
    each event is counted once and no event is invented (one record at least
    per event). *)
Theorem events_ordered (src : ReadAtSource) (content : bytes) (identity : SourceIdentity)
    (mode : OpenMode) (h : list EventRecord) (q : QtrbEventCursor)
    (Hlaw : LawfulSource src content) (Hs : streamed (W := W) src identity mode h q) :
  StronglySorted Z.lt (ordinals h) /\ StronglySorted Z.lt (offsets h)
  /\ pc_events_emitted (q_counters q) = zlen h
  /\ zlen h <= pc_records_seen (q_counters q)
  /\ pc_records_seen (q_counters q) = q_next_ordinal q.
Proof.
  destruct (streamed_reaches _ content _ _ _ _ Hs) as (q0 & F & _ & _ & Hr).
  destruct (ordered_reached _ _ _ _ F Hr) as (O1 & _ & O2 & _).
  destruct (books_reached _ _ _ _ F Hr) as (_ & _ & B3 & _ & _ & B6 & B7 & _).
  split_and!; [done..|lia|done].
Qed.

(** Instruction events are numbered 1, 2, 3, ... without gap or repetition,
    whatever else the stream interleaves with them. *)
Theorem instructions_contiguous (src : ReadAtSource) (content : bytes) (identity : SourceIdentity)
    (mode : OpenMode) (h : list EventRecord) (q : QtrbEventCursor)
    (Hlaw : LawfulSource src content) (Hs : streamed (W := W) src identity mode h q) :
  sequences h = seqZ 1 (q_instruction_count q).
Proof.
  destruct (streamed_reaches _ content _ _ _ _ Hs) as (q0 & F & _ & _ & Hr).
  apply (sequences_reached _ _ _ _ F Hr).
Qed.

(** C11: Every instruction event refers to a module and to an instruction definition
    that were emitted before it, with exactly the registers of that definition;
    every memory event refers to a module emitted before it. *)
Theorem references_resolved (src : ReadAtSource) (content : bytes) (identity : SourceIdentity)
    (mode : OpenMode) (h before after : list EventRecord) (e : EventRecord) (q : QtrbEventCursor)
    (Hlaw : LawfulSource src content) (Hs : streamed (W := W) src identity mode h q)
    (Hh : h = before ++ e :: after) :
  references_ok before e.
Proof.
  destruct (streamed_reaches _ content _ _ _ _ Hs) as (q0 & F & _ & _ & Hr).
  by eapply (references_reached _ _ _ _ F Hr).
Qed.

(** The module and instruction dictionaries hold exactly the definitions that
    were emitted, at most 65536 each, so an id never changes its meaning within
    a stream. *)
Theorem dictionaries_exact (src : ReadAtSource) (content : bytes) (identity : SourceIdentity)
    (mode : OpenMode) (h : list EventRecord) (q : QtrbEventCursor)
    (Hlaw : LawfulSource src content) (Hs : streamed (W := W) src identity mode h q) :
  dictionaries h q.
Proof.
  destruct (streamed_reaches _ content _ _ _ _ Hs) as (q0 & F & _ & _ & Hr).
  by eapply dictionaries_reached.
Qed.

(** C13: The first event is the stream's only TRACE_BEGIN and fixes the thread id
    every event carries; a termination is the last event, is the one the
    summary reports, and its instruction count, encoded size and buffer size
    are those of the stream. *)
Theorem lifecycle_enforced (src : ReadAtSource) (content : bytes) (identity : SourceIdentity)
    (mode : OpenMode) (h : list EventRecord) (q : QtrbEventCursor)
    (Hlaw : LawfulSource src content) (Hs : streamed (W := W) src identity mode h q) :
  begun h q /\ ended content h q.
Proof.
  destruct (streamed_reaches _ content _ _ _ _ Hs) as (q0 & F & <- & _ & Hr).
  split; [by eapply begun_reached|by eapply ended_reached].
Qed.

(** C12: A drained stream was read to its last byte: the source is the stream header
    followed by the records that were read and nothing else, the byte counters
    equal its length, no fragment group is open, the completeness report starts
    with the whole source, and without a terminal the caller had asked for a
    partial run. *)
Theorem drained_complete (src : ReadAtSource) (content : bytes) (identity : SourceIdentity)
    (mode : OpenMode) (h : list EventRecord) (q : QtrbEventCursor)
    (Hlaw : LawfulSource src content) (Hs : streamed (W := W) src identity mode h q)
    (Hd : q_drained q = true) :
  (exists records,
     content = take (Z.to_nat STREAM_HEADER_BYTES) content ++ concat (map encode_raw records)
     /\ Forall (raw_record_ok (q_header q)) records
     /\ zlen records = pc_records_seen (q_counters q))
  /\ pc_input_bytes (q_counters q) = zlen content
  /\ q_pending q = None
  /\ head (q_completeness q) = Some (mkRange SourceBytes (HalfOpen 0 (zlen content)) Captured Retained)
  /\ (q_terminal_seen q = true \/ mode = RecoverablePartial).
Proof.
  destruct (streamed_reaches _ content _ _ _ _ Hs) as (q0 & F & _ & Hmode & Hr).
  pose proof (drained_reached _ _ _ _ F Hr) as D. unfold drained_ok in D. rewrite Hd in D.
  destruct D as (D1 & D2 & _ & D4 & D5).
  destruct (books_reached _ _ _ _ F Hr) as (_ & _ & B3 & B4 & _).
  destruct (partitioned_reached _ _ _ _ F Hr) as (records & P1 & P2 & P3).
  split_and!; [|by rewrite B4|done|by rewrite D5|].
  - exists records. rewrite <- P1, D1. unfold zlen at 1. rewrite Nat2Z.id, firstn_all. by rewrite B3, P2.
  - apply reaches_parts in Hr. unfold fixed_parts in Hr. destruct D4; [by left|right; congruence].
Qed.

End streams.

Lemma events_ordered_witness :
  length sample_events = 7%nat /\ StronglySorted Z.lt (ordinals sample_events).
Proof.
  split; [vm_compute; reflexivity|].
  apply (events_ordered (ByteSource sample_content) sample_content sample_identity Sealed
           sample_events sample_cursor sample_lawful (proj1 sample_streamed)).
Defined.

Lemma instructions_contiguous_witness :
  sequences sample_events = [1] /\ sequences sample_events = seqZ 1 (q_instruction_count sample_cursor).
Proof.
  split; [vm_compute; reflexivity|].
  apply (instructions_contiguous (ByteSource sample_content) sample_content sample_identity Sealed
           sample_events sample_cursor sample_lawful (proj1 sample_streamed)).
Defined.

Lemma references_resolved_witness :
  exists e, sample_events = take 3 sample_events ++ e :: drop 4 sample_events
            /\ payload_kind (ev_payload e) = KInstruction
            /\ references_ok (take 3 sample_events) e.
Proof.
  assert (match sample_events !! 3%nat with
          | Some e => bool_decide (payload_kind (ev_payload e) = KInstruction) | None => false end
          = true) as Hok by (vm_compute; reflexivity).
  destruct (sample_events !! 3%nat) as [e|] eqn:He; [|discriminate Hok].
  pose proof (eq_sym (take_drop_middle _ _ _ He)) as Hsplit.
  exists e. split_and!; [exact Hsplit|by apply bool_decide_eq_true in Hok|].
  apply (references_resolved (ByteSource sample_content) sample_content sample_identity Sealed
           sample_events _ _ e sample_cursor sample_lawful (proj1 sample_streamed) Hsplit).
Defined.

Lemma dictionaries_exact_witness :
  size (q_modules sample_cursor) = 1%nat /\ dictionaries sample_events sample_cursor.
Proof.
  split; [vm_compute; reflexivity|].
  apply (dictionaries_exact (ByteSource sample_content) sample_content sample_identity Sealed
           sample_events sample_cursor sample_lawful (proj1 sample_streamed)).
Defined.

Lemma lifecycle_enforced_witness :
  q_terminal_seen sample_cursor = true
  /\ begun sample_events sample_cursor /\ ended sample_content sample_events sample_cursor.
Proof.
  split; [vm_compute; reflexivity|].
  apply (lifecycle_enforced (ByteSource sample_content) sample_content sample_identity Sealed
           sample_events sample_cursor sample_lawful (proj1 sample_streamed)).
Defined.

Lemma drained_complete_witness :
  q_drained sample_cursor = true /\ pc_input_bytes (q_counters sample_cursor) = zlen sample_content.
Proof.
  split; [apply sample_streamed|].
  apply (drained_complete (ByteSource sample_content) sample_content sample_identity Sealed
           sample_events sample_cursor sample_lawful (proj1 sample_streamed) (proj2 sample_streamed)).
Defined.

(** ** Cursor states *)

Section states.
Context {W : Type} {G : WorkGuard W} {A : Allocator W}.
Abbreviation keep p := (keeps (W := W) (E := ProviderError) q_drained p).

Lemma keeps_typed_definition id d : keep (typed_definition id d).
Proof. unfold typed_definition, typed_register. keep_auto. Qed.

Lemma keeps_clone_definition d : keep (clone_definition_wire d).
Proof. unfold clone_definition_wire, clone_register_wire. keep_auto. Qed.

Hint Resolve keeps_typed_definition keeps_clone_definition : keep.

Lemma keeps_read_record : keep read_record.
Proof. unfold read_record, parse_record_header. keep_auto. Qed.

Lemma keeps_decode_semantic r k : keep (decode_semantic r k).
Proof.
  unfold decode_semantic, decode_fragment, take_or_start_pending, finish_fragment, from_utf8.
  keep_auto.
Qed.

Hint Resolve keeps_decode_semantic : keep.

Lemma keeps_decode_record r : keep (decode_record r).
Proof.
  unfold decode_record, decode_begin, decode_module, decode_instruction_definition,
    decode_instruction, decode_memory, decode_trace_end, decode_trace_stop, accept_terminal.
  keep_auto.
Qed.

(** A turn that fails leaves the stream undrained; only the end drains it. *)
Lemma turn_not_drained (q : QtrbEventCursor) (w : W) :
  q_drained q = false ->
  match next_event_turn q w with
  | (Ok (Some None), q', _) => q_drained q' = true
  | (_, q', _) => q_drained q' = false
  end.
Proof.
  intros Hd. set (R := fun (_ : ProviderError) q' => q_drained q' = false).
  set (Q := fun (o : option (option EventRecord)) q' =>
    match o with Some None => q_drained q' = true | _ => q_drained q' = false end).
  assert (wp (W := W) next_event_turn Q R q) as Hwp.
  { assert (forall B (p : Prog W ProviderError QtrbEventCursor B), keep p ->
      wp p (fun _ q' => q_drained q' = false) R q) as Hkeep.
    { intros B p Hp w'. specialize (Hp q w'). destruct (p q w') as [[[?|?] ?] ?]; unfold R; congruence. }
    assert (wp (W := W) finish_stream (fun e q' => e = None /\ q_drained q' = true) R q) as Hfin
      by (eapply wp_mono; [apply wp_finish_stream|done|intros ? ?; unfold R; congruence]).
    unfold next_event_turn. apply wp_bind, wp_get. destruct (q_terminal_seen q).
    { apply wp_bind, wp_fail_if; [intros _|done]. apply wp_bind.
      eapply wp_mono; [exact Hfin| |done]. intros e q' [-> Hq]. by apply wp_ret. }
    destruct (_ =? _).
    { apply wp_bind. eapply wp_mono; [exact Hfin| |done]. intros e q' [-> Hq]. by apply wp_ret. }
    apply wp_bind, wp_fail_if; [intros _|done]. apply wp_bind.
    eapply wp_mono; [apply Hkeep, keeps_read_record| |done]. intros r q1 Hd1.
    apply wp_bind, wp_get, wp_bind, wp_result. destruct (check_order q1 r); [|done].
    apply wp_bind. intros w'. pose proof (keeps_decode_record r q1 w') as Hk.
    destruct (decode_record r q1 w') as [[[[e|]|e] q2] w2]; [| |unfold R; congruence].
    - apply wp_bind, wp_consume; [|intros; unfold R; congruence].
      apply wp_bind, wp_modify, wp_ret. unfold Q. cbn. congruence.
    - apply wp_ret. unfold Q. congruence. }
  specialize (Hwp w). unfold Q, R in Hwp. destruct (next_event_turn q w) as [[[[[e|]|]|] ?] ?]; done.
Qed.

Lemma loop_not_drained fuel (q : QtrbEventCursor) (w : W) :
  q_drained q = false ->
  match next_event_loop fuel q w with
  | (Ok None, q', _) => q_drained q' = true
  | (_, q', _) => q_drained q' = false
  end.
Proof.
  revert q w. induction fuel as [|fuel IH]; intros q w Hd; [done|]. cbn [next_event_loop]. unfold bind.
  pose proof (turn_not_drained q w Hd) as Ht.
  destruct (next_event_turn q w) as [[[[[e|]|]|] q1] w1]; try done. by apply IH.
Qed.

(** A failure is final and an end is final, on any source.  After a call that
    failed, every later call fails with [source.cursor_failed] without touching
    the cursor or charging the guard, and [finish] is refused; after a call
    that returned [None], every later call returns [None] likewise; an event is
    only returned by a cursor that has neither failed nor ended, and leaves it
    so. *)
Theorem cursor_states_final (q : QtrbEventCursor) (w : W) :
  match next_event q w with
  | (Err _, q', _) =>
      (forall w2 : W, exists e', next_event q' w2 = (Err e', q', w2) /\ pe_code e' = "source.cursor_failed")
      /\ (forall w2 : W, cursor_summary q' w2 = (Err stream_not_drained, q', w2))
  | (Ok None, q', _) => forall w2 : W, next_event q' w2 = (Ok None, q', w2)
  | (Ok (Some _), q', _) => q_drained q = false /\ q_poisoned q = false /\ q_drained q' = false
  end.
Proof.
  assert (forall q', q_drained q' = false -> q_poisoned q' = true ->
    (forall w2 : W, exists e', next_event q' w2 = (Err e', q', w2) /\ pe_code e' = "source.cursor_failed")
    /\ (forall w2 : W, cursor_summary q' w2 = (Err stream_not_drained, q', w2))) as Hfail.
  { intros q' Hd Hp. split; intros w2; [unfold next_event; rewrite Hd, Hp; by eexists|].
    unfold cursor_summary, bind, get. by rewrite Hd. }
  unfold next_event at 1. destruct (q_drained q) eqn:Hd.
  { intros w2. unfold next_event. by rewrite Hd. }
  destruct (q_poisoned q) eqn:Hp; [by apply Hfail|].
  pose proof (loop_not_drained (loop_fuel q) q w Hd) as Hl. unfold next_event_inner, bind, get.
  destruct (next_event_loop _ q w) as [[[[e|]|e] q1] w1].
  - done.
  - intros w2. unfold next_event. by rewrite Hl.
  - by apply Hfail.
Qed.

End states.

(** ** Round trips *)

(** The stream header parser accepts exactly the sixteen-byte encodings of the
    version matrix: magic, major 1, little endian, 4- or 8-byte pointers, a
    known profile, and minor 0 or 1 without features or minor 2 with the
    stopped-terminal feature. *)
Theorem header_exact (bs : bytes) (h : StreamHeader) :
  run (header_parse (W := unit) bs) tt = (Ok h, tt)
  <-> header_ok h /\ exists width, (width = 4 \/ width = 8) /\ bs = encode_header h width.
Proof. apply run_header_parse. Qed.

(** C20: A logical CALL, RULE or ERROR split into two or more non-empty continuation
    records, in order and back to back, is reassembled to the one event whose
    detail is the concatenation of the chunks, attributed to the first record,
    with the offsets of all its records; nothing else of the cursor changes. *)
Theorem fragments_reassemble (q : QtrbEventCursor) (kind : FragmentKind) (event_id : Z)
    (category : option bytes) (name : bytes) (c0 : bytes) (at0 : Z * Z)
    (rest : list (bytes * (Z * Z)))
    (chunks := (c0, at0) :: rest) (total := zlen (chunk_bytes chunks)) (count := zlen chunks)
    (Hidle : q_pending q = None) (Hid : 1 <= event_id <= u64_max) (Hcount : 2 <= count <= u16_max)
    (Htotal : total <= logical_limit kind) (Hcat : category_ok text_ok kind category)
    (Hname : text_ok (name_limit kind) name) (Hminor : kind = FCall \/ sh_minor (q_header q) <> 0)
    (Hchunks : Forall (fun c => 1 <= zlen (fst c) <= chunk_limit kind) chunks)
    (Hoffsets : Sorted Z.lt (chunk_offsets chunks)) (Hutf : utf8_valid (chunk_bytes chunks) = true) :
  run (for_each (fragment_records kind event_id total count category name 0 chunks)
         (decode_record (W := unit))) q
  = (Ok (replicate (length rest) None
         ++ [Some (mkEventRecord
              (mkEventKey (si_artifact (q_identity q)) TIMELINE_ID (snd at0) (fst at0) None (q_tid q))
              Captured
              (let s := mkSemanticEvent category name (chunk_bytes chunks) [] in
               match kind with
               | FCall => SemanticCall s | FRule => SemanticRule s | FError => SemanticError s end)
              ArtifactScope (chunk_offsets chunks))]), q).
Proof.
  assert (forall l : list (bytes * (Z * Z)), Forall (fun c => 1 <= zlen (fst c) <= chunk_limit kind) l ->
            zlen l <= zlen (chunk_bytes l)) as Hsum.
  { induction 1 as [|[c a] l Hc _ IH]; [done|].
    change (chunk_bytes ((c, a) :: l)) with (c ++ chunk_bytes l). rewrite zlen_app.
    change (zlen ((c, a) :: l)) with (Z.of_nat (S (length l))). unfold zlen in *. cbn in Hc. lia. }
  assert (Forall (fun c => chunk_ok kind total (fst c)) chunks) as Hok.
  { pose proof Hchunks as Hall. rewrite Forall_forall in Hchunks |- *. intros c Hc. split; [by apply Hchunks|].
    apply list_elem_of_split in Hc as (l1 & l2 & Hsplit). unfold total. rewrite Hsplit in Hall |- *.
    apply Forall_app in Hall as [H1 [H2 H3]%Forall_cons]. rewrite chunk_bytes_app.
    change (chunk_bytes (c :: l2)) with (fst c ++ chunk_bytes l2). rewrite !zlen_app.
    apply Hsum in H1. apply Hsum in H3. assert (1 <= zlen l1 + zlen l2); [|unfold zlen in *; lia].
    unfold count in Hcount. rewrite Hsplit, zlen_app in Hcount.
    change (zlen (c :: l2)) with (Z.of_nat (S (length l2))) in Hcount. unfold zlen in *. lia. }
  pose proof (Hsum _ Hchunks) as Hle.
  rewrite (run_fragments_from q kind event_id total count category name Hid Hcount
             (conj Hle Htotal) Hcat Hname Hminor chunks q 0 at0 [] []); try done; try lia.
  - assert (set_pending None q = q) as -> by (clear -Hidle; destruct q; cbn in *; by subst).
    unfold chunks. cbn [length]. by rewrite Nat.sub_1_r.
  - intros _. split_and!; [done..|]. by exists c0, rest.
Qed.

Lemma fragments_reassemble_witness :
  let q := sample_fresh in
  exists e, run (for_each (fragment_records FCall 9 10 2 (Some (text "jni")) (text "FindClass") 0
                   [(text "java/", (100, 5)); (text "lang/", (160, 6))]) (decode_record (W := unit))) q
            = (Ok [None; Some e], q)
            /\ match ev_payload e with SemanticCall s => se_detail s = text "java/lang/" | _ => False end.
Proof.
  eexists. split.
  - apply (fragments_reassemble sample_fresh FCall 9 (Some (text "jni")) (text "FindClass")
             (text "java/") (100, 5) [(text "lang/", (160, 6))]).
    + reflexivity.
    + vm_compute. split; discriminate.
    + vm_compute. split; discriminate.
    + vm_compute. discriminate.
    + split; [reflexivity|]. vm_compute. repeat split; discriminate.
    + vm_compute. repeat split; discriminate.
    + by left.
    + repeat constructor; vm_compute; discriminate.
    + by repeat constructor.
    + reflexivity.
  - reflexivity.
Defined.

(** ** The two decoders *)

(** The decoder Flight uses for instruction definitions accepts a payload with
    result [t] exactly when the QTRB cursor's own decoder accepts it as
    definition [d] under a non-zero id and [t] is the typed form of [d]. *)
Theorem definition_decoders_agree (payload : bytes) (r : PhysicalRecord) (c : SourceCoordinate)
    (label : string) (t : InstructionDefinition) (Hsize : zlen payload <= u64_max) :
  run (decode_instruction_definition_payload (W := unit) payload c) tt = (Ok t, tt)
  <-> exists id d,
        run (with_local (cursor_new payload label (coordinate r))
               (parse_instruction_definition (W := unit) r)) tt = (Ok (id, d), tt)
        /\ id <> 0 /\ t = definition_of id d.
Proof.
  rewrite run_shared_definition by done. unfold shared_definition. split.
  - intros (id & d & Hid & Hok & Hp & ->). exists id, d. split_and!; [|done..].
    by apply (run_codec (codec_definition r)).
  - intros (id & d & Hrun & Hid & ->). exists id, d.
    apply (run_codec (codec_definition r)) in Hrun as [Hok Hp]; [|done]. done.
Qed.

Lemma definition_decoders_agree_witness :
  run (decode_instruction_definition_payload (W := unit) (encode_definition (1, sample_definition))
         (mkCoordinate 0 None)) tt = (Ok (definition_of 1 sample_definition), tt).
Proof.
  apply (definition_decoders_agree (encode_definition (1, sample_definition))
           (mkPhysicalRecord None 0 0 [] 0 0) (mkCoordinate 0 None) "").
  - vm_compute. discriminate.
  - exists 1, sample_definition. split_and!; [vm_compute; reflexivity|discriminate|reflexivity].
Defined.

(** On a memory payload whose module the stream has defined, the decoder Flight
    uses and the QTRB cursor's own decoder accept the same bytes as the same
    event. *)
Theorem memory_decoders_agree (payload : bytes) (q : QtrbEventCursor) (r : PhysicalRecord)
    (c : SourceCoordinate) (label : string) (m : Memory) (Hsize : zlen payload <= u64_max)
    (Hmodule : is_Some (q_modules q !! me_module_id m)) :
  run (decode_memory_payload_for_module (W := unit) payload None c) tt = (Ok m, tt)
  <-> run (with_local (cursor_new payload label (coordinate r)) (parse_memory (W := unit) q r)) tt
      = (Ok m, tt).
Proof.
  rewrite run_shared_memory, (run_codec (codec_memory q r)) by done.
  unfold shared_memory, memory_ok. cbn. tauto.
Qed.

Definition sample_defined : QtrbEventCursor :=
  set_definitions {[1 := sample_definition]} (set_modules {[1 := mkModuleWire 4096 []]} sample_fresh).

Lemma memory_decoders_agree_witness :
  run (with_local (cursor_new (encode_memory sample_memory) "" (mkCoordinate 0 (Some 0)))
         (parse_memory (W := unit) sample_defined (mkPhysicalRecord None 0 0 [] 0 0))) tt
  = (Ok sample_memory, tt).
Proof.
  apply (memory_decoders_agree (encode_memory sample_memory) sample_defined
           (mkPhysicalRecord None 0 0 [] 0 0) (mkCoordinate 0 None)).
  - vm_compute. discriminate.
  - vm_compute. eauto.
  - vm_compute. reflexivity.
Defined.

(** On an instruction payload whose module and definition the stream has
    defined, the decoder Flight uses, given the typed definition, and the QTRB
    cursor's own decoder accept the same bytes with the same sequence number
    and register values. *)
Theorem instruction_decoders_agree (payload : bytes) (q : QtrbEventCursor) (r : PhysicalRecord)
    (c : SourceCoordinate) (label : string) (d : InstructionDefinitionWire) (sequence : Z)
    (i : Instruction) (Hsize : zlen payload <= u64_max)
    (Hmodule : is_Some (q_modules q !! in_module_id i))
    (Hdefinition : q_definitions q !! in_definition_id i = Some d) :
  run (decode_instruction_payload (W := unit) payload (definition_of (in_definition_id i) d) None c) tt
    = (Ok (mkDecodedInstruction sequence i), tt)
  <-> run (with_local (cursor_new payload label (coordinate r)) (parse_instruction (W := unit) q r)) tt
      = (Ok (sequence, i), tt).
Proof.
  rewrite run_shared_instruction, (run_codec (codec_instruction q r)) by done.
  unfold shared_instruction, instruction_ok. cbn. split.
  - intros (H1 & H2 & H3 & H4 & _ & _ & H5 & H6 & H7 & H8 & H9). split; [|done].
    split_and!; [done..|]. exists d. by split_and!.
  - intros [(H1 & H2 & H3 & H4 & _ & d' & Hd & H5 & H6 & H7 & H8) H9].
    rewrite Hdefinition in Hd. injection Hd as <-. by split_and!.
Qed.

Lemma instruction_decoders_agree_witness :
  run (with_local (cursor_new (encode_instruction (1, sample_instruction)) "" (mkCoordinate 0 (Some 0)))
         (parse_instruction (W := unit) sample_defined (mkPhysicalRecord None 0 0 [] 0 0))) tt
  = (Ok (1, sample_instruction), tt).
Proof.
  apply (instruction_decoders_agree (encode_instruction (1, sample_instruction)) sample_defined
           (mkPhysicalRecord None 0 0 [] 0 0) (mkCoordinate 0 None) "" sample_definition).
  - vm_compute. discriminate.
  - vm_compute. eauto.
  - reflexivity.
  - vm_compute. reflexivity.
Defined.
