(* ===== verification/Budget.v ===== *)
(** * Service budgets

    Models [qtrace-service/src/budget.rs]: [ServiceBudget], the work guard the
    service hands to providers and indexes, and [MemoryWorkGuard], the adapter
    for internal scans.  The flags and the clock a budget reads change under
    it: they are an environment indexed by the number of calls so far.  The six
    counters are atomics; [BudgetStep] interleaves the [fetch_add]s of any
    number of workers. *)

From stdpp Require Import prelude list strings.
From Stdlib Require Import ZArith Lia Strings.Byte.
From S2P Require Import Prelude Prog Control.
Local Open Scope list_scope.
Local Open Scope Z_scope.

(** ** The budget *)

Record ServiceLimits := mkServiceLimits {
  sl_deadline : Z;
  sl_input_bytes : Z;
  sl_decompressed_bytes : Z;
  sl_events : Z;
  sl_nodes : Z;
  sl_rows : Z;
  sl_resident_bytes : Z
}.

(** [ServiceLimits::interactive]; instants are nanoseconds. *)
Definition interactive (now : Z) : ServiceLimits :=
  mkServiceLimits (now + 5 * 1000000000) u64_max u64_max u64_max 100000 2000 (256 * 1024 * 1024).

(** What one call of [consume] observes of the world around the budget. *)
Record Observation := mkObservation {
  ob_cancelled : bool;
  ob_external_cancel : option bool;
  ob_now : Z
}.

Record ServiceBudget := mkServiceBudget {
  sb_limits : ServiceLimits;
  sb_environment : nat -> Observation;
  sb_calls : nat;
  sb_used : list Z;
  sb_validation_workers : Z
}.

(** [ServiceBudget::new] and [with_cancellation]: the environment decides
    whether there is an external flag. *)
Definition budget_new (limits : ServiceLimits) (env : nat -> Observation) : ServiceBudget :=
  mkServiceBudget limits env 0 (replicate 6 0) 1.

Definition with_cache_validation_workers (b : ServiceBudget) : ServiceBudget :=
  mkServiceBudget (sb_limits b) (sb_environment b) (sb_calls b) (sb_used b) 2.

Definition is_cancelled (o : Observation) : bool :=
  ob_cancelled o || from_option (fun flag => flag) false (ob_external_cancel o).

Definition delta_values (d : WorkDelta) : list Z :=
  [wd_input_bytes d; wd_decompressed_bytes d; wd_events d; wd_nodes d; wd_rows d;
   wd_resident_bytes d].

Definition limit_values (l : ServiceLimits) : list Z :=
  [sl_input_bytes l; sl_decompressed_bytes l; sl_events l; sl_nodes l; sl_rows l;
   sl_resident_bytes l].

Definition dimensions : list BudgetDimension :=
  [InputBytes; DecompressedBytes; Events; Nodes; Rows; ResidentBytes].

(** [fetch_add] returns the old value and wraps; the total saturates. *)
Definition fetch_add (old v : Z) : Z := wrapping_add u64_max old v.
Definition total_of (old v : Z) : Z := saturating_add u64_max old v.

(** The [for i in 0..6] loop: counters before the one that fails stay charged. *)
Fixpoint charge (dims : list BudgetDimension) (used values limits : list Z) :
    result OperationAbort unit * list Z :=
  match dims, used, values, limits with
  | dim :: dims, old :: used, v :: values, limit :: limits =>
      if total_of old v >? limit
      then (Err (budget_exceeded dim limit (total_of old v)), fetch_add old v :: used)
      else let '(r, used) := charge dims used values limits in (r, fetch_add old v :: used)
  | _, _, _, _ => (Ok tt, used)
  end.

(** [<ServiceBudget as WorkGuard>::consume] *)
Definition budget_consume (d : WorkDelta) (b : ServiceBudget) :
    result OperationAbort unit * ServiceBudget :=
  let o := sb_environment b (sb_calls b) in
  let called := mkServiceBudget (sb_limits b) (sb_environment b) (S (sb_calls b)) (sb_used b)
                  (sb_validation_workers b) in
  if is_cancelled o || (ob_now o >? sl_deadline (sb_limits b)) then (Err Cancelled, called)
  else
    let '(r, used) := charge dimensions (sb_used b) (delta_values d) (limit_values (sb_limits b)) in
    (r, mkServiceBudget (sb_limits b) (sb_environment b) (S (sb_calls b)) used
          (sb_validation_workers b)).

(** The guard the service passes down, next to a heap [H]. *)
#[export] Instance budget_guard {H : Type} : WorkGuard (ServiceBudget * H) := {|
  guard_consume d w := let '(r, b) := budget_consume d (fst w) in (r, (b, snd w));
  guard_begin_phase _ w := w;
  guard_parallelism w := sb_validation_workers (fst w);
  guard_begin_scope d _ w := let '(r, b) := budget_consume d (fst w) in (r, (b, snd w));
  guard_end_scope w := w
|}.

#[export] Instance budget_heap {H : Type} `{Allocator H} : Allocator (ServiceBudget * H) := {|
  size_of := size_of (W := H);
  align_of := align_of (W := H);
  vec_grow t n w := let '(r, h) := vec_grow t n (snd w) in (r, (fst w, h));
  map_capacity id w := map_capacity id (snd w);
  map_grow id n w := let '(r, h) := map_grow id n (snd w) in (r, (fst w, h))
|}.

(** [MemoryWorkGuard::work] *)
Definition memory_work (d : WorkDelta) : WorkDelta :=
  mkWorkDelta (wd_input_bytes d) (wd_decompressed_bytes d) (wd_events d)
    (saturating_add u64_max (wd_nodes d) (wd_rows d)) 0 (wd_resident_bytes d).

(** [impl WorkGuard for MemoryWorkGuard]: [begin_phase] keeps the provided
    no-op, the rest forwards. *)
Definition MemoryWorkGuard {W} (inner : WorkGuard W) : WorkGuard W := {|
  guard_consume d w := guard_consume (memory_work d) w;
  guard_begin_phase _ w := w;
  guard_parallelism w := guard_parallelism w;
  guard_begin_scope d slack w := guard_begin_scope (memory_work d) slack w;
  guard_end_scope w := guard_end_scope w
|}.

(** ** Interleaved consumption *)

(** A worker inside [consume]: the values it adds, the next dimension, and the
    outcome once it has one. *)
Record Worker := mkWorker {
  wk_values : list Z;
  wk_next : nat;
  wk_outcome : option (result OperationAbort unit)
}.

(** One atomic step of a worker: the [fetch_add] of its next dimension and the
    comparison of the total it got.  [None] when it has an outcome. *)
Definition worker_step (limits used : list Z) (wk : Worker) : option (list Z * Worker) :=
  match wk_outcome wk, used !! wk_next wk, wk_values wk !! wk_next wk, limits !! wk_next wk,
        dimensions !! wk_next wk with
  | None, Some old, Some v, Some limit, Some dim =>
      Some (<[wk_next wk := fetch_add old v]> used,
            if total_of old v >? limit
            then mkWorker (wk_values wk) (wk_next wk)
                   (Some (Err (budget_exceeded dim limit (total_of old v))))
            else mkWorker (wk_values wk) (S (wk_next wk))
                   (if Nat.eqb (wk_next wk) 5 then Some (Ok tt) else None))
  | _, _, _, _, _ => None
  end.

(** Any worker may step next. *)
Inductive budget_step (limits : list Z) : list Z * list Worker -> list Z * list Worker -> Prop :=
| budget_step_worker used workers j wk used' wk' :
    workers !! j = Some wk ->
    worker_step limits used wk = Some (used', wk') ->
    budget_step limits (used, workers) (used', <[j := wk']> workers).

(** The workers before they start. *)
Definition fresh_workers (deltas : list WorkDelta) : list Worker :=
  map (fun d => mkWorker (delta_values d) 0 None) deltas.

(** ** Sums *)

Definition sumZ (l : list Z) : Z := foldr Z.add 0 l.

Lemma sumZ_insert {A} (f : A -> Z) (l : list A) j x y :
  l !! j = Some x -> sumZ (map f (<[j := y]> l)) = sumZ (map f l) - f x + f y.
Proof.
  unfold sumZ. revert j. induction l as [|a l IH]; intros [|j] Hj; try done; cbn in *.
  - injection Hj as ->. lia.
  - rewrite IH by done. lia.
Qed.

Lemma sumZ_le {A} (f g : A -> Z) (l : list A) :
  (forall x, x ∈ l -> f x <= g x) -> sumZ (map f l) <= sumZ (map g l).
Proof.
  unfold sumZ. induction l as [|a l IH]; intros H; cbn; [lia|].
  pose proof (H a ltac:(left)). pose proof (IH ltac:(intros; apply H; by right)). lia.
Qed.

(** ** Sequential consumption *)

Definition delta_ok (d : WorkDelta) : Prop := Forall in_u64 (delta_values d).

(** A counter after [total] was consumed: the total modulo the width, and within
    the limit unless the limit is the width itself (no limit). *)
Definition counter_ok (used total limit : Z) : Prop :=
  used = total mod (u64_max + 1) /\ 0 <= total /\ (limit < u64_max -> total <= limit).

Lemma charge_ok dims used total values limits used' :
  length dims = length values -> Forall3 counter_ok used total limits ->
  Forall in_u64 values -> length values = length used ->
  charge dims used values limits = (Ok tt, used') ->
  Forall3 counter_ok used' (zip_with Z.add total values) limits.
Proof.
  intros Hd HF. revert dims values used' Hd.
  induction HF as [|old t limit used total limits (Hu & Ht & Hl) HF IH];
    intros [|dim dims] [|v values] used' Hd V L; try done; cbn.
  { intros [= <-]. constructor. }
  apply Forall_cons in V as [Hv V].
  destruct (Z.gtb_spec (total_of old v) limit) as [|Hle]; [done|].
  destruct (charge dims used values limits) as [r used1] eqn:Hc. intros [= -> <-].
  constructor; [|eapply IH; [|done| |exact Hc]; cbn in *; lia].
  unfold counter_ok, fetch_add, total_of in *. machine. split_and!.
  - rewrite Hu, Z.add_mod_idemp_l by lia. done.
  - lia.
  - intros Hlim. specialize (Hl Hlim). rewrite Z.mod_small in Hu by lia. lia.
Qed.

Definition budget_exact (b : ServiceBudget) (total : list Z) : Prop :=
  Forall3 counter_ok (sb_used b) total (limit_values (sb_limits b)).

Lemma budget_consume_ok d b b' total :
  delta_ok d -> budget_exact b total -> budget_consume d b = (Ok tt, b') ->
  sb_limits b' = sb_limits b /\ budget_exact b' (zip_with Z.add total (delta_values d)).
Proof.
  intros Hd Hb. unfold budget_consume.
  destruct (_ || _); [done|]. destruct (charge _ _ _ _) as [r used] eqn:Hc. intros [= -> <-].
  split; [done|]. eapply charge_ok in Hc; [exact Hc|done|exact Hb|exact Hd|].
  apply Forall3_length_lr in Hb. by rewrite Hb.
Qed.

(** Consume a list of deltas, stopping at the first refusal. *)
Fixpoint consume_all (ds : list WorkDelta) (b : ServiceBudget) :
    result OperationAbort unit * ServiceBudget :=
  match ds with
  | [] => (Ok tt, b)
  | d :: ds =>
      match budget_consume d b with
      | (Ok _, b') => consume_all ds b'
      | (Err a, b') => (Err a, b')
      end
  end.

Definition sum_deltas (ds : list WorkDelta) : list Z :=
  foldl (fun total d => zip_with Z.add total (delta_values d)) (replicate 6 0) ds.

Lemma consume_all_exact ds b b' total :
  Forall delta_ok ds -> budget_exact b total -> consume_all ds b = (Ok tt, b') ->
  sb_limits b' = sb_limits b
  /\ budget_exact b' (foldl (fun total d => zip_with Z.add total (delta_values d)) total ds).
Proof.
  revert b total. induction ds as [|d ds IH]; intros b total Hds Hb; cbn; [by intros [= <-]|].
  apply Forall_cons in Hds as [Hd Hds].
  destruct (budget_consume d b) as [[[]|a] b1] eqn:Hc; [|done]. intros Hrest.
  destruct (budget_consume_ok _ _ _ _ Hd Hb Hc) as [<- Hb1]. by eapply IH.
Qed.

Definition limits_ok (l : ServiceLimits) : Prop := Forall in_u64 (limit_values l).

Lemma budget_new_exact limits env :
  limits_ok limits -> budget_exact (budget_new limits env) (replicate 6 0).
Proof.
  intros Hl. unfold limits_ok, limit_values in Hl. rewrite !Forall_cons in Hl. destruct_and!.
  unfold budget_exact, counter_ok, limit_values. cbn -[Z.modulo].
  repeat constructor; machine; lia.
Qed.

(** As long as a budget has refused nothing, each of its six counters is the sum
    of what was consumed in that dimension and no limited dimension has passed
    its limit; only a dimension without a limit ([u64::MAX]) may wrap. *)
Theorem budget_accounts_exactly (limits : ServiceLimits) (env : nat -> Observation)
    (ds : list WorkDelta) (b : ServiceBudget) (Hlimits : limits_ok limits)
    (Hds : Forall delta_ok ds) (Hall : consume_all ds (budget_new limits env) = (Ok tt, b)) :
  Forall3 (fun used total limit =>
    used = total mod 2 ^ 64 /\ (limit < u64_max -> used = total /\ total <= limit))
    (sb_used b) (sum_deltas ds) (limit_values limits).
Proof.
  destruct (consume_all_exact ds (budget_new limits env) b (replicate 6 0) Hds
              (budget_new_exact limits env Hlimits) Hall) as [Hl Hb].
  unfold budget_exact in Hb. rewrite Hl in Hb. eapply Forall3_impl; [exact Hb|].
  intros used total limit (Hu & Ht & Hlim). split; [done|]. intros Hlt. specialize (Hlim Hlt).
  rewrite Hu. unfold u64_max in *. rewrite Z.mod_small; lia.
Qed.

Definition calm : nat -> Observation := fun _ => mkObservation false None 0.

Lemma budget_accounts_exactly_witness :
  let ds := [delta_nodes 60000; delta_nodes 40000] in
  let b := snd (consume_all ds (budget_new (interactive 0) calm)) in
  sb_used b = [0; 0; 0; 100000; 0; 0]
  /\ Forall3 (fun used total limit =>
       used = total mod 2 ^ 64 /\ (limit < u64_max -> used = total /\ total <= limit))
       (sb_used b) (sum_deltas ds) (limit_values (interactive 0)).
Proof.
  split; [vm_compute; reflexivity|].
  apply (budget_accounts_exactly (interactive 0) calm [delta_nodes 60000; delta_nodes 40000]).
  - repeat constructor; vm_compute; discriminate.
  - repeat constructor; vm_compute; discriminate.
  - vm_compute. reflexivity.
Defined.

(** ** What a refusal says *)

Lemma charge_err dims used values limits a used' :
  charge dims used values limits = (Err a, used') ->
  exists i dim limit old v, dims !! i = Some dim /\ used !! i = Some old /\ values !! i = Some v
    /\ limits !! i = Some limit /\ a = BudgetExceeded dim limit (total_of old v)
    /\ limit < total_of old v
    /\ (forall j o v l, (j < i)%nat -> used !! j = Some o -> values !! j = Some v ->
          limits !! j = Some l -> total_of o v <= l /\ used' !! j = Some (fetch_add o v))
    /\ (forall j, (i < j)%nat -> used' !! j = used !! j).
Proof.
  revert used values limits used'. induction dims as [|dim dims IH];
    intros [|old used] [|v values] [|limit limits] used'; cbn; try done.
  destruct (Z.gtb_spec (total_of old v) limit) as [Hgt|Hle].
  - intros [= <- <-]. exists 0%nat, dim, limit, old, v. split_and!; try done; [lia|].
    intros [|j]; [lia|done].
  - destruct (charge dims used values limits) as [[[]|a1] used1] eqn:Hc; [done|]. intros [= -> <-].
    destruct (IH _ _ _ _ Hc) as (i & dim' & l' & o' & v' & H1 & H2 & H3 & H4 & H5 & H6 & H7 & H8).
    exists (S i), dim', l', o', v'. split_and!; try done.
    + intros [|j] o x l Hj; cbn; [|intros; apply H7 with (l := l); [lia|done..]].
      by intros [= <-] [= <-] [= <-].
    + intros [|j] Hj; [lia|]. cbn. apply H8. lia.
Qed.

(** C23: [consume] is refused for a reason: cancellation or an expired deadline
    leaves every counter alone, and a budget error names the first dimension
    whose total passes its limit, with that limit and total; earlier dimensions
    stay charged and later ones are not. *)
Theorem budget_refusal_explained (d : WorkDelta) (b b' : ServiceBudget) (a : OperationAbort)
    (Hrefused : budget_consume d b = (Err a, b')) :
  match a with
  | Cancelled =>
      let o := sb_environment b (sb_calls b) in
      (is_cancelled o = true \/ sl_deadline (sb_limits b) < ob_now o) /\ sb_used b' = sb_used b
  | BudgetExceeded dim limit consumed =>
      exists i old v, dimensions !! i = Some dim /\ sb_used b !! i = Some old
        /\ delta_values d !! i = Some v /\ limit_values (sb_limits b) !! i = Some limit
        /\ consumed = total_of old v /\ limit < consumed
        /\ (forall j o v l, (j < i)%nat -> sb_used b !! j = Some o -> delta_values d !! j = Some v ->
              limit_values (sb_limits b) !! j = Some l ->
              total_of o v <= l /\ sb_used b' !! j = Some (fetch_add o v))
        /\ (forall j, (i < j)%nat -> sb_used b' !! j = sb_used b !! j)
  end.
Proof.
  unfold budget_consume in Hrefused. destruct (_ || _) eqn:Hc.
  { injection Hrefused as <- <-. cbv zeta. split; [|done]. apply orb_true_iff in Hc as [Hc|Hc]; [by left|].
    right. by apply Z.gtb_lt in Hc. }
  destruct (charge _ _ _ _) as [r used] eqn:Hch. injection Hrefused as -> <-. cbn [sb_used].
  apply charge_err in Hch as (i & dim & l & o & v & H1 & H2 & H3 & H4 & -> & H6 & H7 & H8).
  exists i, o, v. by split_and!.
Qed.

Lemma budget_refusal_explained_witness :
  let b := budget_new (interactive 0) calm in
  let d := mkWorkDelta 5 0 0 100001 7 0 in
  exists b', budget_consume d b = (Err (BudgetExceeded Nodes 100000 100001), b')
             /\ exists i old v, dimensions !! i = Some Nodes /\ sb_used b !! i = Some old
                /\ delta_values d !! i = Some v.
Proof.
  eexists. split; [vm_compute; reflexivity|].
  destruct (budget_refusal_explained (mkWorkDelta 5 0 0 100001 7 0) (budget_new (interactive 0) calm) _ _
    ltac:(vm_compute; reflexivity)) as (i & old & v & H1 & H2 & H3 & _).
  exists i, old, v. repeat split; [exact H1|exact H2|exact H3].
Defined.








(** ** Internal work *)

(** Charge a list of deltas to a guard, stopping at the first refusal. *)
Fixpoint charge_all {W} (g : WorkGuard W) (ds : list WorkDelta) (w : W) :
    result OperationAbort unit * W :=
  match ds with
  | [] => (Ok tt, w)
  | d :: ds =>
      match @guard_consume W g d w with
      | (Ok _, w') => charge_all g ds w'
      | (Err a, w') => (Err a, w')
      end
  end.

(** Through the adapter, a service budget sees the translated deltas. *)
Lemma memory_charge_all {H} ds (b : ServiceBudget) (h : H) :
  charge_all (MemoryWorkGuard budget_guard) ds (b, h)
  = let '(r, b') := consume_all (map memory_work ds) b in (r, (b', h)).
Proof.
  revert b. induction ds as [|d ds IH]; intros b; [done|]. cbn.
  destruct (budget_consume (memory_work d) b) as [[[]|a] b1]; [apply IH|done].
Qed.

Lemma charge_zero dims used values limits r used' i old :
  charge dims used values limits = (r, used') -> values !! i = Some 0 -> used !! i = Some old ->
  in_u64 old -> used' !! i = Some old.
Proof.
  revert dims values limits r used' i.
  induction used as [|u used IH]; intros [|dim dims] [|v values] [|limit limits] r used' i; cbn;
    try (intros [= <- <-]; done).
  destruct (_ >? _).
  - intros [= <- <-] Hv Hu Hr. destruct i as [|i]; [|done]. cbn in *. injection Hv as ->.
    injection Hu as ->. unfold fetch_add. machine. rewrite Z.add_0_r, Z.mod_small by lia. done.
  - destruct (charge dims used values limits) as [r1 used1] eqn:Hc. intros [= <- <-] Hv Hu Hr.
    destruct i as [|i]; [|exact (IH _ _ _ _ _ _ Hc Hv Hu Hr)]. cbn in *. injection Hv as ->.
    injection Hu as ->. unfold fetch_add. machine. rewrite Z.add_0_r, Z.mod_small by lia. done.
Qed.

Lemma consume_rows_kept d b r b' old :
  budget_consume (memory_work d) b = (r, b') -> sb_used b !! 4%nat = Some old -> in_u64 old ->
  sb_used b' !! 4%nat = Some old.
Proof.
  unfold budget_consume. destruct (_ || _); [by intros [= <- <-]|].
  destruct (charge _ _ _ _) as [r1 used] eqn:Hc. intros [= <- <-] Hu Hr. cbn [sb_used].
  eapply charge_zero; [exact Hc|done..].
Qed.

Lemma consume_all_rows_kept ds b r b' old :
  consume_all (map memory_work ds) b = (r, b') -> sb_used b !! 4%nat = Some old -> in_u64 old ->
  sb_used b' !! 4%nat = Some old.
Proof.
  revert b. induction ds as [|d ds IH]; intros b; cbn; [by intros [= <- <-]|].
  destruct (budget_consume (memory_work d) b) as [[[]|a] b1] eqn:Hc.
  - intros Hrest Hu Hr. eapply IH; [exact Hrest| |done]. by eapply consume_rows_kept.
  - intros [= <- <-] Hu Hr. by eapply consume_rows_kept.
Qed.

(** Internal memory scans charged through [MemoryWorkGuard] never spend the rows
    reserved for the response, however many charges there are and whether or
    not one is refused; what they ask as rows is charged as nodes, and when all
    are admitted the nodes and rows together stay within the node limit. *)
Theorem memory_scans_spend_nodes {H} (limits : ServiceLimits) (env : nat -> Observation)
    (ds : list WorkDelta) (h : H) (Hlimits : limits_ok limits) (Hnodes : sl_nodes limits < u64_max)
    (Hds : Forall (fun d => delta_ok (memory_work d)) ds) :
  let '(r, w) := charge_all (MemoryWorkGuard budget_guard) ds (budget_new limits env, h) in
  sb_used (fst w) !! 4%nat = Some 0
  /\ (r = Ok tt ->
      exists nodes, sb_used (fst w) !! 3%nat = Some nodes /\ nodes <= sl_nodes limits
        /\ sum_deltas (map memory_work ds) !! 3%nat = Some nodes).
Proof.
  rewrite memory_charge_all.
  destruct (consume_all (map memory_work ds) (budget_new limits env)) as [r b] eqn:Hc. cbn [fst]. split.
  - eapply consume_all_rows_kept; [exact Hc|done|]. machine. lia.
  - intros ->. assert (Forall delta_ok (map memory_work ds)) as Hds' by (by apply Forall_fmap).
    destruct (consume_all_exact _ _ _ _ Hds' (budget_new_exact limits env Hlimits) Hc) as [Hl Hb].
    unfold budget_exact in Hb. rewrite Hl in Hb.
    destruct (Forall3_lookup_r _ _ _ _ 3%nat (sl_nodes limits) Hb eq_refl) as (u & t & Hu & Ht & Hok).
    destruct Hok as (-> & Ht0 & Hlim). specialize (Hlim Hnodes).
    rewrite Z.mod_small in Hu by (unfold u64_max in *; lia).
    exists t. split_and!; [done|lia|done].
Qed.

Lemma memory_scans_spend_nodes_witness :
  let '(r, w) := charge_all (MemoryWorkGuard budget_guard)
                   [mkWorkDelta 0 0 0 10 50000 0; mkWorkDelta 0 0 0 0 40000 0]
                   (budget_new (interactive 0) calm, tt) in
  r = Ok tt /\ sb_used (fst w) !! 4%nat = Some 0.
Proof.
  pose proof (memory_scans_spend_nodes (interactive 0) calm
    [mkWorkDelta 0 0 0 10 50000 0; mkWorkDelta 0 0 0 0 40000 0] tt) as H.
  destruct (charge_all _ _ _) as [r w] eqn:Hc. split.
  - vm_compute in Hc. injection Hc as <- _. reflexivity.
  - apply H.
    + repeat constructor; vm_compute; discriminate.
    + vm_compute. reflexivity.
    + repeat constructor; vm_compute; discriminate.
Defined.

(** ** Concurrent workers *)

Section interleaving.
Context (limits : list Z).

Definition value_at (wk : Worker) (i : nat) : Z := default 0 (wk_values wk !! i).

(** A worker has been admitted in dimension [i], or has at least added to it. *)
Definition passed (i : nat) (wk : Worker) : bool := Nat.ltb i (wk_next wk).
Definition added (i : nat) (wk : Worker) : bool :=
  passed i wk || (Nat.eqb i (wk_next wk) && match wk_outcome wk with Some (Err _) => true | _ => false end).

Definition amount (p : nat -> Worker -> bool) (i : nat) (wk : Worker) : Z :=
  if p i wk then value_at wk i else 0.

Definition admitted (i : nat) (workers : list Worker) : Z := sumZ (map (amount passed i) workers).

(** What every schedule keeps: the counters are the sums of what was added, and
    what was admitted in a dimension is within its limit. *)
Definition schedule_ok (deltas : list WorkDelta) (st : list Z * list Worker) : Prop :=
  map wk_values (snd st) = map delta_values deltas
  /\ (forall i, (i < 6)%nat -> fst st !! i = Some (sumZ (map (amount added i) (snd st))))
  /\ (forall i limit, limits !! i = Some limit -> admitted i (snd st) <= limit).

Definition total_asked (i : nat) (deltas : list WorkDelta) : Z :=
  sumZ (map (fun d => default 0 (delta_values d !! i)) deltas).

Context (deltas : list WorkDelta) (Hdeltas : Forall delta_ok deltas)
  (Hfit : forall i, total_asked i deltas <= u64_max)
  (Hlimits : Forall in_u64 limits).

Lemma value_at_nonneg wk i : wk_values wk ∈ map delta_values deltas -> 0 <= value_at wk i.
Proof.
  intros Hin. apply list_elem_of_fmap in Hin as (d & Hd & Hin). unfold value_at. rewrite Hd.
  destruct (delta_values d !! i) as [v|] eqn:Hv; [|cbn; lia]. cbn.
  rewrite Forall_forall in Hdeltas. specialize (Hdeltas d Hin). unfold delta_ok in Hdeltas.
  rewrite Forall_forall in Hdeltas. destruct (Hdeltas v); [by eapply list_elem_of_lookup_2|]. lia.
Qed.

Lemma added_bound i workers :
  map wk_values workers = map delta_values deltas ->
  0 <= admitted i workers <= sumZ (map (amount added i) workers)
  /\ sumZ (map (amount added i) workers) <= u64_max.
Proof.
  intros Hv.
  assert (forall wk, wk ∈ workers -> 0 <= value_at wk i) as Hpos.
  { intros wk Hwk. apply value_at_nonneg. rewrite <- Hv. by apply list_elem_of_fmap_2. }
  assert (sumZ (map (fun wk => value_at wk i) workers) = total_asked i deltas) as Hall.
  { unfold total_asked, value_at. f_equal.
    transitivity (map (fun vs => default 0 (vs !! i)) (map wk_values workers)); [by rewrite map_map|].
    by rewrite Hv, map_map. }
  split; [split|].
  - transitivity (sumZ (map (fun _ : Worker => 0) workers)).
    + clear. unfold sumZ. induction workers; cbn; lia.
    + apply sumZ_le. intros wk Hwk. unfold amount. destruct (passed i wk); [by apply Hpos|lia].
  - apply sumZ_le. intros wk Hwk. unfold amount, added. specialize (Hpos wk Hwk).
    destruct (passed i wk); cbn; [lia|]. destruct (_ && _); lia.
  - rewrite <- (Hfit i), <- Hall. apply sumZ_le. intros wk Hwk. specialize (Hpos wk Hwk).
    unfold amount. destruct (added i wk); lia.
Qed.

(** A step changes one worker in one dimension. *)
Lemma worker_step_amounts used wk used' wk' i :
  worker_step limits used wk = Some (used', wk') ->
  wk_values wk' = wk_values wk /\ wk_outcome wk = None /\ (wk_next wk < 6)%nat
  /\ (i <> wk_next wk -> amount added i wk' = amount added i wk
                         /\ amount passed i wk' = amount passed i wk)
  /\ amount added (wk_next wk) wk = 0 /\ amount passed (wk_next wk) wk = 0
  /\ amount added (wk_next wk) wk' = value_at wk (wk_next wk)
  /\ exists old limit, used !! wk_next wk = Some old /\ limits !! wk_next wk = Some limit
     /\ used' = <[wk_next wk := fetch_add old (value_at wk (wk_next wk))]> used
     /\ amount passed (wk_next wk) wk'
         = if total_of old (value_at wk (wk_next wk)) >? limit then 0
           else value_at wk (wk_next wk).
Proof.
  unfold worker_step. destruct wk as [values next [o|]]; [done|]. cbn [wk_outcome wk_next wk_values].
  destruct (used !! next) as [old|] eqn:Hu; [|done]. destruct (values !! next) as [v|] eqn:Hv; [|done].
  destruct (limits !! next) as [limit|] eqn:Hl; [|done].
  destruct (dimensions !! next) as [dim|] eqn:Hd; [|done]. intros [= <- <-].
  assert (next < 6)%nat as Hn by (by apply lookup_lt_Some in Hd).
  assert (value_at (mkWorker values next None) next = v) as Hval by (unfold value_at; cbn; by rewrite Hv).
  assert (forall k o, value_at (mkWorker values k o) = value_at (mkWorker values next None)) as Hsame by done.
  unfold amount, added, passed. cbn [wk_next wk_outcome]. rewrite Hval.
  rewrite Nat.ltb_irrefl, Nat.eqb_refl. cbn [orb andb].
  destruct (total_of old v >? limit) eqn:Ht; cbn [wk_next wk_outcome wk_values].
  - rewrite Nat.ltb_irrefl, Nat.eqb_refl, Hsame, Hval. cbn [orb andb]. split_and!; try done.
    + intros Hi. by rewrite (proj2 (Nat.eqb_neq _ _)) by lia.
    + exists old, limit. by rewrite Ht.
  - rewrite (proj2 (Nat.ltb_lt next (S next))) by lia. rewrite Hsame, Hval. cbn [orb].
    split_and!; try done.
    + intros Hi. destruct (Nat.ltb_spec i next).
      * by rewrite (proj2 (Nat.ltb_lt i (S next))) by lia.
      * rewrite (proj2 (Nat.ltb_ge i (S next))) by lia. rewrite (proj2 (Nat.eqb_neq i next)) by lia.
        cbn. destruct (Nat.eqb next 5); by rewrite ?andb_false_r.
    + exists old, limit. by rewrite Ht.
Qed.

Lemma schedule_step st st' :
  budget_step limits st st' -> schedule_ok deltas st -> schedule_ok deltas st'.
Proof.
  intros [used workers j wk used' wk' Hj Hstep] (Hv & Hu & Hl). unfold schedule_ok. cbn [fst snd] in *.
  destruct (worker_step_amounts used wk used' wk' 0 Hstep)
    as (Hvals & Hrun & Hn & _ & A1 & A2 & A3 & old & limit & Hold & Hlimit & -> & A4).
  set (k := wk_next wk) in *. set (v := value_at wk k) in *.
  assert (map wk_values (<[j := wk']> workers) = map delta_values deltas) as Hv'.
  { rewrite <- Hv. change (wk_values <$> <[j := wk']> workers = wk_values <$> workers).
    rewrite list_fmap_insert, Hvals. apply list_insert_id. by rewrite list_lookup_fmap, Hj. }
  assert (forall i, sumZ (map (amount added i) (<[j := wk']> workers))
    = sumZ (map (amount added i) workers) + if Nat.eqb i k then v else 0) as Hadd.
  { intros i. rewrite (sumZ_insert _ _ _ _ _ Hj).
    destruct (worker_step_amounts _ _ _ _ i Hstep) as (_ & _ & _ & Hother & _).
    destruct (Nat.eqb_spec i k) as [->|Hne]; [lia|]. destruct (Hother Hne) as [-> _]. lia. }
  pose proof (Hu k ltac:(lia)) as Huk. rewrite Hold in Huk. injection Huk as Huk.
  destruct (added_bound k workers Hv) as [_ Hb]. destruct (added_bound k _ Hv') as [Hb1 Hb2].
  rewrite Hadd, Nat.eqb_refl, <- Huk in Hb1, Hb2.
  assert (0 <= old /\ 0 <= v) as [Hold0 Hv0].
  { destruct (added_bound k workers Hv) as [[? ?] _]. split; [lia|]. apply value_at_nonneg.
    rewrite <- Hv. apply list_elem_of_fmap_2. by eapply list_elem_of_lookup_2. }
  assert (fetch_add old v = old + v) as Hfetch.
  { unfold fetch_add. machine. rewrite Z.mod_small; lia. }
  split_and!; [done|..].
  - intros i Hi. rewrite Hadd, Hfetch. destruct (Nat.eqb_spec i k) as [->|Hne].
    + rewrite list_lookup_insert_eq by (eapply lookup_lt_Some; exact Hold). by rewrite Huk.
    + rewrite list_lookup_insert_ne by done. rewrite Z.add_0_r. by apply Hu.
  - intros i limit' Hlimit'. unfold admitted. rewrite (sumZ_insert _ _ _ _ _ Hj).
    destruct (worker_step_amounts _ _ _ _ i Hstep) as (_ & _ & _ & Hother & _).
    specialize (Hl i limit' Hlimit'). unfold admitted in Hl.
    destruct (decide (i = k)) as [->|Hne]; [|destruct (Hother Hne) as [_ ->]; lia].
    rewrite Hlimit in Hlimit'. injection Hlimit' as <-. rewrite A2, A4.
    destruct (Z.gtb_spec (total_of old v) limit) as [|Hle]; [lia|].
    destruct (added_bound k workers Hv) as [[? ?] _]. unfold admitted in *.
    unfold total_of in Hle. machine. lia.
Qed.

Lemma schedule_start used :
  used = replicate 6 0 -> schedule_ok deltas (used, fresh_workers deltas).
Proof.
  intros ->. unfold schedule_ok. cbn [fst snd].
  assert (forall p i, (forall d, p i (mkWorker (delta_values d) 0 None) = false) ->
    sumZ (map (amount p i) (fresh_workers deltas)) = 0) as Hzero.
  { intros p i Hp. unfold fresh_workers. clear -Hp. induction deltas as [|d l IH]; [done|].
    cbn [map]. unfold amount at 1. rewrite Hp. unfold sumZ in *. cbn. lia. }
  split_and!.
  - unfold fresh_workers. by rewrite map_map.
  - intros i Hi. rewrite lookup_replicate_2 by done. f_equal. symmetry. apply Hzero. intros d.
    unfold added, passed. cbn. by rewrite andb_false_r.
  - intros i limit Hl. unfold admitted. rewrite Hzero; [|done].
    rewrite Forall_forall in Hlimits. destruct (Hlimits limit); [by eapply list_elem_of_lookup_2|done].
Qed.

End interleaving.

(** C22: However the atomic additions of concurrent [consume] calls interleave, what
    is admitted in each dimension never exceeds its limit, provided the sum of
    everything asked for fits the counter; the counter itself is the sum of
    what was added so far. *)
Theorem concurrent_budget_safe (limits : ServiceLimits) (deltas : list WorkDelta)
    (used : list Z) (workers : list Worker) (i : nat) (limit : Z)
    (Hlimits : limits_ok limits) (Hdeltas : Forall delta_ok deltas)
    (Hfit : forall i, total_asked i deltas <= u64_max)
    (Hrun : rtc (budget_step (limit_values limits)) (replicate 6 0, fresh_workers deltas) (used, workers))
    (Hi : limit_values limits !! i = Some limit) :
  admitted i workers <= limit /\ used !! i = Some (sumZ (map (amount added i) workers)).
Proof.
  assert (schedule_ok (limit_values limits) deltas (used, workers)) as (_ & Hu & Hl).
  { remember (replicate 6 0, fresh_workers deltas) as start eqn:Hstart.
    remember (used, workers) as final eqn:Hfinal. clear Hfinal.
    assert (schedule_ok (limit_values limits) deltas start) as H0.
    { rewrite Hstart. by apply schedule_start. }
    clear Hstart. induction Hrun as [|x y z Hxy _ IH]; [done|]. apply IH.
    by eapply schedule_step. }
  split; [by apply Hl|]. apply Hu. by apply lookup_lt_Some in Hi.
Qed.

(** A schedule: which worker steps next. *)
Fixpoint run_schedule (limits : list Z) (st : list Z * list Worker) (js : list nat) :
    option (list Z * list Worker) :=
  match js with
  | [] => Some st
  | j :: js =>
      match snd st !! j with
      | Some wk =>
          match worker_step limits (fst st) wk with
          | Some (used, wk') => run_schedule limits (used, <[j := wk']> (snd st)) js
          | None => None
          end
      | None => None
      end
  end.

Lemma run_schedule_rtc limits st js st' :
  run_schedule limits st js = Some st' -> rtc (budget_step limits) st st'.
Proof.
  revert st. induction js as [|j js IH]; intros [used workers]; cbn.
  - intros [= <-]. apply rtc_refl.
  - destruct (workers !! j) as [wk|] eqn:Hj; [|done].
    destruct (worker_step limits used wk) as [[used1 wk1]|] eqn:Hs; [|done]. intros Hrest.
    eapply rtc_l; [by eapply budget_step_worker|]. by apply IH.
Qed.

Lemma concurrent_budget_safe_witness :
  exists used workers,
    run_schedule (limit_values (interactive 0))
      (replicate 6 0, fresh_workers [delta_nodes 60000; delta_nodes 60000])
      [0; 1; 0; 1; 1; 0; 1; 0]%nat = Some (used, workers)
    /\ admitted 3 workers = 60000
    /\ admitted 3 workers <= 100000.
Proof.
  eexists _, _. split; [vm_compute; reflexivity|]. split; [vm_compute; reflexivity|].
  apply (concurrent_budget_safe (interactive 0) [delta_nodes 60000; delta_nodes 60000]
           [0; 0; 0; 120000; 0; 0]).
  - repeat constructor; vm_compute; discriminate.
  - repeat constructor; vm_compute; discriminate.
  - intros [|[|[|[|[|[|i]]]]]]; vm_compute; discriminate.
  - apply (run_schedule_rtc _ _ [0; 1; 0; 1; 1; 0; 1; 0]%nat). vm_compute. reflexivity.
  - reflexivity.
Defined.
