(* ===== verification/BudgetQtrb.v ===== *)
(** * A provider under a service budget

    Composes [Qtrb] with [Budget]: the service opens a QTRB provider and drives
    its cursor with one [ServiceBudget] as the work guard.  The input,
    decompressed and event counters of the budget then meter the cursor. *)

From stdpp Require Import prelude list strings pretty gmap.
From Stdlib Require Import ZArith Lia Strings.Byte.
From S2P Require Import Prelude Prog Control Model Source QtrbWire QtrbPayload QtrbCodec.
From S2P Require Import QtrbEvents Qtrb QtrbFormat QtrbSteps QtrbSound QtrbLoop QtrbInv.
From S2P Require Import QtrbRoundtrip QtrbClient QtrbSample Budget.
Local Open Scope string_scope.
Local Open Scope list_scope.
Local Open Scope Z_scope.

Section limited.
Context (limits : ServiceLimits) (Hlimits : limits_ok limits).

Lemma limits_in :
  in_u64 (sl_input_bytes limits) /\ in_u64 (sl_decompressed_bytes limits) /\ in_u64 (sl_events limits).
Proof. unfold limits_ok, limit_values in Hlimits. rewrite !Forall_cons in Hlimits. tauto. Qed.

(** [spent b x y z]: the first three counters, each within its limit. *)
Definition spent (b : ServiceBudget) (x y z : Z) : Prop :=
  sb_limits b = limits
  /\ (exists nodes rows resident, sb_used b = [x; y; z; nodes; rows; resident])
  /\ 0 <= x <= sl_input_bytes limits
  /\ 0 <= y <= sl_decompressed_bytes limits
  /\ 0 <= z <= sl_events limits.

Lemma spent_new env : spent (budget_new limits env) 0 0 0.
Proof.
  split; [done|]. split; [by eexists _, _, _|]. pose proof limits_in. unfold in_u64 in *. lia.
Qed.

(** An admitted addition stays within the limit, also when it wraps. *)
Lemma fetch_add_within old v limit :
  0 <= old -> 0 <= v -> (total_of old v >? limit) = false -> 0 <= fetch_add old v <= limit.
Proof.
  intros Ho Hv. destruct (Z.gtb_spec (total_of old v) limit) as [|Hle]; [done|]. intros _.
  unfold fetch_add, total_of, wrapping_add, saturating_add in *.
  pose proof (Z.mod_pos_bound (old + v) (u64_max + 1) ltac:(unfold u64_max; lia)).
  pose proof (Z.mod_le (old + v) (u64_max + 1) ltac:(lia) ltac:(unfold u64_max; lia)). lia.
Qed.

Lemma fetch_add_0 old limit : 0 <= old <= limit -> in_u64 limit -> fetch_add old 0 = old.
Proof. unfold fetch_add, in_u64. intros. machine. rewrite Z.mod_small; lia. Qed.

Lemma consume_spent d b b' x y z :
  spent b x y z -> 0 <= wd_input_bytes d -> 0 <= wd_decompressed_bytes d -> 0 <= wd_events d ->
  budget_consume d b = (Ok tt, b') ->
  spent b' (fetch_add x (wd_input_bytes d)) (fetch_add y (wd_decompressed_bytes d))
    (fetch_add z (wd_events d)).
Proof.
  intros (Hl & (n & r & t & Hu) & Hx & Hy & Hz) Hi Hd He. unfold budget_consume.
  destruct (_ || _); [done|]. rewrite Hu, Hl. unfold delta_values, limit_values, dimensions.
  cbn [charge].
  repeat match goal with
  | |- context [total_of ?o ?v >? ?l] => destruct (total_of o v >? l) eqn:?; [done|]
  end.
  intros [= <-]. split; [done|]. split; [by eexists _, _, _|].
  split; [|split]; (apply fetch_add_within; [lia|lia|done]).
Qed.

(** The counters that meter the cursor, left alone. *)
Definition unmetered {H} (w w' : ServiceBudget * H) : Prop :=
  forall x y z, spent (fst w) x y z -> spent (fst w') x y z.

Section metered.
Context {H : Type} `{Allocator H}.
Abbreviation World := (ServiceBudget * H)%type.

#[local] Instance unmetered_preorder : PreOrder (@unmetered H).
Proof. split; [by intros w x y z|]. intros w1 w2 w3 H1 H2 x y z Hs. by apply H2, H1. Qed.

Lemma consume_unmetered d b b' (h h' : H) :
  wd_input_bytes d = 0 -> wd_decompressed_bytes d = 0 -> wd_events d = 0 ->
  budget_consume d b = (Ok tt, b') -> unmetered (b, h) (b', h').
Proof.
  intros H1 H2 H3 Hc x y z Hs. pose proof Hs as (Hl & _ & Hx & Hy & Hz).
  eapply consume_spent in Hc; [|exact Hs|lia..]. rewrite H1, H2, H3 in Hc.
  by rewrite !(fetch_add_0 _ _ Hx), !(fetch_add_0 _ _ Hy), !(fetch_add_0 _ _ Hz) in Hc
    by apply limits_in.
Qed.

#[local] Instance unmetered_order : WorldOrder World unmetered.
Proof.
  split; [apply _| | | |].
  - intros n k [b h] w'. cbn. destruct (budget_consume _ b) as [[[]|] b'] eqn:Hc; [|done].
    intros [= <-]. by apply (consume_unmetered _ _ _ h h) in Hc.
  - intros w. reflexivity.
  - intros t n [b h] r w'. cbn. destruct (vec_grow t n h) as [? h']. intros [= _ <-]. by intros x y z.
  - intros id n [b h] r w'. cbn. destruct (map_grow id n h) as [? h']. intros [= _ <-]. by intros x y z.
Qed.

Abbreviation advance p := (advances (W := World) (E := ProviderError) unmetered p).

Lemma advances_take n : advance (cursor_take n).
Proof.
  intros s w a s' w'. unfold cursor_take. repeat case_match; by intros [= _ _ <-].
Qed.
Hint Resolve advances_take : advance.

Lemma advances_ints :
  advance u8 /\ advance u16_le /\ advance u32_le /\ advance u64_le /\ advance i64_le.
Proof. unfold u8, u16_le, u32_le, u64_le, i64_le. split_and!; advance_auto. Qed.

Lemma advances_utf8 n f : advance (bounded_utf8_guarded n f).
Proof. unfold bounded_utf8_guarded, u16_le. advance_auto. Qed.
Hint Resolve advances_utf8 : advance.

Lemma advances_typed_definition {S} id d : advance (typed_definition (S := S) id d).
Proof. unfold typed_definition, typed_register. advance_auto. Qed.
Lemma advances_clone_definition {S} d : advance (clone_definition_wire (S := S) d).
Proof. unfold clone_definition_wire, clone_register_wire. advance_auto. Qed.
Hint Resolve advances_typed_definition advances_clone_definition : advance.

Lemma advances_nodes {S} n : advance (consume (S := S) (delta_nodes n)).
Proof.
  intros s [b h] a s' w'. unfold consume. cbn.
  destruct (budget_consume (delta_nodes n) b) as [[[]|] b'] eqn:Hc; [|done]. intros [= _ _ <-].
  by apply (consume_unmetered _ _ _ h h) in Hc.
Qed.
Hint Resolve advances_nodes : advance.

(** No record decoder charges input or events. *)
Lemma advances_decode_record r : advance (decode_record r).
Proof.
  unfold decode_record, decode_begin, decode_module, decode_instruction_definition,
    decode_instruction, decode_memory, decode_semantic, decode_fragment, take_or_start_pending,
    finish_fragment, from_utf8, decode_trace_end, decode_trace_stop, accept_terminal, parse_begin,
    parse_module, parse_instruction_definition, parse_instruction, parse_memory, parse_semantic,
    parse_fragment, parse_trace_end, parse_trace_stop, decode_registers, decode_memory_state,
    decode_bounded_raw, decode_metrics, memory_operand_wire, observation, cursor_finish,
    u8, u16_le, u32_le, u64_le, i64_le.
  advance_auto.
Qed.

(** ** What a successful call has charged *)

(** [yields p q w Q]: if [p] succeeds from [q] and [w], the outcome satisfies [Q]. *)
Definition yields {S A} (p : Prog World ProviderError S A) (s : S) (w : World)
    (Q : A -> S -> World -> Prop) : Prop :=
  forall a s' w', p s w = (Ok a, s', w') -> Q a s' w'.

Lemma yields_bind {S A B} (p : Prog World ProviderError S A) (k : A -> Prog World ProviderError S B)
    s w Q :
  yields p s w (fun a s1 w1 => yields (k a) s1 w1 Q) -> yields (bind p k) s w Q.
Proof.
  intros Hp b s' w'. unfold bind. destruct (p s w) as [[[a|e] s1] w1] eqn:Hrun; [|done].
  by apply Hp.
Qed.

Lemma yields_option {S A} (o : option A) e (s : S) w (Q : A -> S -> World -> Prop) :
  (forall a, o = Some a -> Q a s w) -> yields (lift_option o e) s w Q.
Proof. intros HQ a s' w'. destruct o; [|done]. intros [= <- <- <-]. by apply HQ. Qed.

Lemma yields_result {S A} (r : result ProviderError A) (s : S) w (Q : A -> S -> World -> Prop) :
  (forall a, r = Ok a -> Q a s w) -> yields (lift_result r) s w Q.
Proof. intros HQ a s' w'. destruct r; [|done]. intros [= <- <- <-]. by apply HQ. Qed.

Lemma yields_fail_if {S} b e (s : S) w (Q : unit -> S -> World -> Prop) :
  (b = false -> Q tt s w) -> yields (fail_if b e) s w Q.
Proof. intros HQ a s' w'. destruct b; [done|]. intros [= <- <- <-]. by apply HQ. Qed.

(** A step that touches neither the receiver nor the metered counters. *)
Lemma yields_quiet {S A} (p : Prog World ProviderError S A) (s : S) w Q x y z :
  spent (fst w) x y z -> advance p -> keeps (fun s => s) p ->
  (forall a w', spent (fst w') x y z -> Q a s w') -> yields p s w Q.
Proof.
  intros Hs Ha Hk HQ a s' w' Hrun. specialize (Hk s w). rewrite Hrun in Hk. subst.
  apply HQ. by eapply Ha.
Qed.

Lemma yields_consume {S} d (s : S) w (Q : unit -> S -> World -> Prop) x y z :
  spent (fst w) x y z -> 0 <= wd_input_bytes d -> 0 <= wd_decompressed_bytes d ->
  0 <= wd_events d ->
  (forall w', spent (fst w') (fetch_add x (wd_input_bytes d)) (fetch_add y (wd_decompressed_bytes d))
                (fetch_add z (wd_events d)) -> Q tt s w') ->
  yields (consume d) s w Q.
Proof.
  intros Hs H1 H2 H3 HQ a s' w'. unfold consume. destruct w as [b h]. cbn.
  destruct (budget_consume d b) as [[[]|e] b'] eqn:Hc; [|done]. intros [= <- <- <-].
  apply HQ. by eapply consume_spent.
Qed.

Lemma fetch_add_exact old v : 0 <= old -> 0 <= v -> old + v <= u64_max -> fetch_add old v = old + v.
Proof. intros. unfold fetch_add, wrapping_add. apply Z.mod_small. lia. Qed.

(** The counters meter the cursor: bytes up to its offset, and the events. *)
Definition metered (z : Z) (q : QtrbEventCursor) (w : World) : Prop :=
  spent (fst w) (q_offset q) (q_offset q) z.

Lemma advances_record_fields : advances (W := World) (E := ProviderError) eq parse_record_fields.
Proof.
  unfold parse_record_fields, u16_le, u32_le, cursor_finish. advance_auto.
  all: intros s w a' s' w'; unfold cursor_take; repeat case_match; by intros [= _ _ <-].
Qed.

Lemma parse_record_header_bound hd c (q : QtrbEventCursor) w :
  yields (parse_record_header hd c) q w
    (fun fields q' w' => q' = q /\ w' = w /\ 0 <= snd fields).
Proof.
  intros [[raw flags] n] q' w'. unfold parse_record_header, with_local.
  destruct (parse_record_fields _ w) as [[r c1] w1] eqn:Hrun. intros [= -> <- <-].
  split; [done|]. split; [symmetry; by apply (advances_record_fields _ _ _ _ _ Hrun)|].
  assert (wp (W := World) parse_record_fields (fun fields _ => 0 <= snd fields)
            (fun _ _ => True) (cursor_new hd "record header" c)) as Hwp.
  { assert (cursor_wf (cursor_new hd "record header" c)) by (unfold cursor_wf, zlen; cbn; lia).
    unfold parse_record_fields. apply wp_bind, (wp_int 2 (fun v => v)); [done|intros raw' _ _ ?|done].
    apply wp_bind, (wp_int 2 (fun v => v)); [done|intros flags' _ _ ?|done].
    apply wp_bind, (wp_int 4 (fun v => v)); [done|intros n' ? _ ?|done].
    apply wp_bind, wp_finish; [done|intros _|done]. apply wp_ret. cbn. lia. }
  exact (wp_run_ok _ _ _ _ _ _ _ _ Hwp Hrun).
Qed.

Lemma read_record_metered z q w :
  metered z q w -> yields read_record q w (fun _ q' w' => metered z q' w').
Proof.
  unfold metered. intros Hs. pose proof Hs as (Hl & _ & Hx & Hy & Hz).
  pose proof limits_in as (L1 & L2 & L3). unfold in_u64 in L1, L2. unfold read_record. apply yields_bind. intros a s1 w1 [= -> -> ->].
  apply yields_bind. eapply yields_consume; [exact Hs|done..|]. cbn. intros w2 Hs2.
  rewrite (fetch_add_0 z _ Hz) in Hs2 by done.
  apply yields_bind, yields_result. intros hd _.
  apply yields_bind, yields_option. intros off1 [-> Ho1]%checked_add_Some.
  rewrite fetch_add_exact in Hs2 by (unfold RECORD_HEADER_BYTES in *; lia).
  apply yields_bind. intros ? s3 w3 [= _ <- <-].
  apply yields_bind. intros fields s4 w4 Hf.
  destruct (parse_record_header_bound _ _ _ _ _ _ _ Hf) as (-> & -> & Hn).
  destruct fields as [[raw flags] n]. cbn in Hn.
  apply yields_bind, yields_result. intros limit _.
  apply yields_bind, yields_fail_if. intros _.
  apply yields_bind, yields_option. intros len _.
  apply yields_bind. eapply yields_consume; [exact Hs2|done..|]. cbn. intros w5 Hs5.
  rewrite (fetch_add_0 z _ Hz) in Hs5 by done.
  apply yields_bind. eapply yields_quiet; [exact Hs5|advance_auto|keep_auto|]. intros _ w6 Hs6.
  apply yields_bind, yields_result. intros payload _.
  apply yields_bind, yields_option. intros off2 [-> Ho2]%checked_add_Some.
  rewrite fetch_add_exact in Hs6 by (unfold RECORD_HEADER_BYTES in *; lia).
  apply yields_bind. intros ? s7 w7 [= _ <- <-].
  apply yields_bind, yields_option. intros ord _.
  apply yields_bind. intros ? ? ? [= _ <- <-]. apply yields_bind. intros ? ? ? [= _ <- <-].
  intros r q' w' [= _ <- <-]. exact Hs6.
Qed.

Lemma finish_stream_metered z q w :
  metered z q w -> yields finish_stream q w (fun e q' w' => e = None /\ metered z q' w').
Proof.
  intros Hs r q' w' Hrun.
  assert (advance finish_stream) as Ha
    by (unfold finish_stream, validate_source_identity; advance_auto).
  assert (keeps (W := World) (E := ProviderError) q_offset finish_stream) as Hk
    by (unfold finish_stream, validate_source_identity; keep_auto).
  specialize (Hk q w). rewrite Hrun in Hk. unfold metered. rewrite Hk.
  split; [apply (wp_run_ok _ _ _ _ _ _ _ _ (wp_finish_stream q) Hrun)|by eapply Ha].
Qed.

Lemma decode_record_metered z r q w :
  metered z q w -> yields (decode_record r) q w (fun _ q' w' => metered z q' w').
Proof.
  intros Hs e q' w' Hrun. unfold metered.
  destruct (decodes_parts _ _ _ _ (wp_run_ok _ _ _ _ _ _ _ _ (accepts_decode_record r q) Hrun))
    as (_ & _ & _ & -> & _).
  by eapply advances_decode_record.
Qed.

(** The events of a turn. *)
Definition turn_count (o : option (option EventRecord)) : Z :=
  match o with Some (Some _) => 1 | _ => 0 end.

Lemma turn_metered z q w :
  z < u64_max -> metered z q w ->
  yields next_event_turn q w (fun o q' w' => metered (z + turn_count o) q' w').
Proof.
  intros Hz Hs. unfold next_event_turn. apply yields_bind. intros ? ? ? [= -> -> ->].
  destruct (q_terminal_seen _); [|destruct (_ =? _)].
  - apply yields_bind, yields_fail_if. intros _. apply yields_bind. intros e q1 w1 Hrun.
    destruct (finish_stream_metered _ _ _ Hs _ _ _ Hrun) as [-> Hs1].
    intros o q2 w2 [= <- <- <-]. cbn. by rewrite Z.add_0_r.
  - apply yields_bind. intros e q1 w1 Hrun.
    destruct (finish_stream_metered _ _ _ Hs _ _ _ Hrun) as [-> Hs1].
    intros o q2 w2 [= <- <- <-]. cbn. by rewrite Z.add_0_r.
  - apply yields_bind, yields_fail_if. intros _. apply yields_bind. intros r q1 w1 Hrun.
    apply (read_record_metered _ _ _ Hs) in Hrun as Hs1.
    apply yields_bind. intros ? ? ? [= -> -> ->]. apply yields_bind, yields_result. intros _ _.
    apply yields_bind. intros e q2 w2 Hd. apply (decode_record_metered _ _ _ _ Hs1) in Hd as Hs2.
    destruct e as [e|]; [|intros o q3 w3 [= <- <- <-]; cbn; by rewrite Z.add_0_r].
    pose proof Hs2 as (Hl & _ & Hx & Hy & Hz2).
    apply yields_bind. eapply yields_consume; [exact Hs2|done..|]. cbn. intros w3 Hs3.
    rewrite (fetch_add_0 _ _ Hx), fetch_add_exact in Hs3 by (apply limits_in || lia).
    apply yields_bind. intros ? ? ? [= _ <- <-]. intros o q4 w4 [= <- <- <-]. exact Hs3.
Qed.

Lemma loop_metered z fuel q w :
  z < u64_max -> metered z q w ->
  yields (next_event_loop fuel) q w (fun e q' w' => metered (z + zlen (option_list e)) q' w').
Proof.
  intros Hz. revert q w. induction fuel as [|fuel IH]; intros q w Hs; [intros ? ? ?; done|].
  cbn [next_event_loop]. apply yields_bind. intros o q1 w1 Hturn.
  apply (turn_metered _ _ _ Hz Hs) in Hturn as Hs1.
  destruct o as [e|]; [|apply IH; cbn in Hs1; by rewrite Z.add_0_r in Hs1].
  intros e' q2 w2 [= <- <- <-]. by destruct e.
Qed.

Lemma provider_open_metered src identity mode (w : World) :
  spent (fst w) 0 0 0 ->
  yields (provider_open src identity mode) tt w (fun p _ w' => metered 0 (into_cursor p) w').
Proof.
  intros Hs. unfold provider_open. apply yields_bind.
  eapply yields_consume; [exact Hs|done..|]. cbn. intros w1 Hs1.
  change (spent (fst w1) STREAM_HEADER_BYTES STREAM_HEADER_BYTES 0) in Hs1.
  match goal with |- yields ?rest _ _ _ => enough (advance rest) as Ha end.
  { intros p [] w' Hrun. by eapply Ha. }
  unfold header_parse, parse_header_fields, u8, u16_le, u32_le, cursor_finish. advance_auto.
Qed.

Lemma emits_metered content q0 w0 events q w `{!LawfulSource (q_source q0) content} :
  fresh content q0 -> metered 0 q0 w0 -> emits q0 w0 events q w -> metered (zlen events) q w.
Proof.
  intros F Hs Hem. pose proof (fresh_offset _ _ F) as Fo. pose proof (fresh_len _ _ F) as Fl.
  induction Hem as [|h q w e q' w' Hem IH Hd Hcall]; [exact Hs|].
  apply (emits_reaches content) in Hem as Hr; [|done|unfold STREAM_HEADER_BYTES in *; lia].
  destruct (books_reached _ _ _ _ F Hr) as (_ & B2 & _ & _ & _ & _ & B7 & _).
  pose proof IH as (_ & _ & Hx & _). pose proof limits_in as (L & _). unfold in_u64 in L.
  revert Hcall. unfold next_event. rewrite Hd. destruct (q_poisoned q); [done|].
  unfold next_event_inner, bind, get.
  destruct (next_event_loop (loop_fuel q) q w) as [[[e1|e1] q1] w1] eqn:Hloop; [|done].
  intros [= -> -> ->]. rewrite zlen_app. eapply loop_metered; [|exact IH|exact Hloop].
  unfold STREAM_HEADER_BYTES, RECORD_HEADER_BYTES in *. lia.
Qed.

End metered.
End limited.

(** C16: A service budget meters the provider it guards.  From a fresh budget, open
    and any run of calls, the budget's input and decompressed counters are the
    cursor's offset and its event counter is the number of events returned, so
    the client never gets more events, and the provider never reads further,
    than the limits allow. *)
Theorem budget_meters_provider {H} {A : Allocator H} (limits : ServiceLimits)
    (env : nat -> Observation) (heap : H) (src : ReadAtSource) (content : bytes)
    (identity : SourceIdentity) (mode : OpenMode) (p : QtrbProvider) (w1 w : ServiceBudget * H)
    (events : list EventRecord) (q : QtrbEventCursor)
    (Hlimits : limits_ok limits) (Hlaw : LawfulSource src content)
    (Hopen : provider_open src identity mode tt (budget_new limits env, heap) = (Ok p, tt, w1))
    (Hrun : emits (into_cursor p) w1 events q w) :
  take 3 (sb_used (fst w)) = [q_offset q; q_offset q; zlen events]
  /\ q_offset q <= sl_input_bytes limits /\ q_offset q <= sl_decompressed_bytes limits
  /\ zlen events <= sl_events limits.
Proof.
  destruct (opened_fresh src content _ _ _ _ _ Hopen) as (F & Hs & _).
  assert (LawfulSource (q_source (into_cursor p)) content) by (by rewrite Hs).
  apply (provider_open_metered limits Hlimits) in Hopen; [|by apply spent_new].
  destruct (emits_metered limits Hlimits content _ _ _ _ _ F Hopen Hrun)
    as (_ & (n & r & t & ->) & Hx & Hy & Hz).
  split; [done|]. lia.
Qed.

(** A budget that admits the sample stream's seven events and no eighth. *)
Definition sample_limits : ServiceLimits :=
  mkServiceLimits 1000 4096 4096 7 100000 2000 1048576.

Lemma budget_meters_provider_witness :
  exists (w : ServiceBudget * unit) (events : list EventRecord) (q : QtrbEventCursor),
    length events = 7%nat /\ q_drained q = true
    /\ take 3 (sb_used (fst w)) = [q_offset q; q_offset q; zlen events].
Proof.
  set (w0 := (budget_new sample_limits calm, tt)).
  assert (match provider_open (ByteSource sample_content) sample_identity Sealed tt w0 with
          | (Ok p, _, w1) =>
              match collect 20 (into_cursor p) w1 with
              | Some (Ok h, _, _) => Nat.eqb (length h) 7
              | _ => false
              end
          | _ => false
          end = true) as Hok by (vm_compute; reflexivity).
  destruct (provider_open _ _ _ tt w0) as [[[p|] []] w1] eqn:Hopen; [|discriminate Hok].
  destruct (collect 20 (into_cursor p) w1) as [[[[h|] q] w]|] eqn:Hc; try discriminate Hok.
  apply Nat.eqb_eq in Hok.
  destruct (opened_fresh (ByteSource sample_content) sample_content _ _ _ _ _ Hopen)
    as (_ & Hs & _ & H0 & _).
  assert (LawfulSource (q_source (into_cursor p)) sample_content) as Hl
    by (rewrite Hs; exact sample_lawful).
  destruct (collect_emits sample_content _ _ _ _ _ _ _ _ _ H0 (emits_start _ w1) eq_refl Hc)
    as [Hem Hd].
  exists w, h, q. split; [exact Hok|]. split; [exact Hd|].
  apply (budget_meters_provider sample_limits calm tt (ByteSource sample_content) sample_content
           sample_identity Sealed p w1 w h q); [|exact sample_lawful|exact Hopen|exact Hem].
  repeat constructor; vm_compute; discriminate.
Defined.
