(* ===== verification/FlightWire.v ===== *)
(** * The Flight wire format

    Models [qtrace-provider/src/flight/wire.rs]: the fixed-size structures of a
    Flight artifact (superblock, directory entries, chunk and record headers,
    emergency cells), the bounded cursor they are read with and the FNV-1a
    checksums that guard records, chunks and emergency cells. *)

From stdpp Require Import prelude list strings pretty.
From Stdlib Require Import ZArith Lia Strings.Byte.
From S2P Require Import Prelude Prog Control Source.
Local Open Scope string_scope.
Local Open Scope list_scope.
Local Open Scope Z_scope.

(** ** Constants and structures *)

Definition FLIGHT_SUPERBLOCK_BYTES : Z := 4096.
Definition FLIGHT_DIRECTORY_ENTRY_BYTES : Z := 64.
Definition FLIGHT_CHUNK_HEADER_BYTES : Z := 64.
Definition FLIGHT_RECORD_HEADER_BYTES : Z := 24.
Definition FLIGHT_EMERGENCY_RECORD_BYTES : Z := 64.
Definition FLIGHT_EMERGENCY_SLOT_BYTES : Z := 128.

Definition FLIGHT_MAGIC : Z := 0x51464c54.
Definition FLIGHT_VERSION : Z := 2.
Definition RECORD_COMMIT : Z := 0x51434d54.
Definition EMERGENCY_COMMITTED : Z := 0x80000000.
Definition INVALID_INDEX : Z := u32_max.
Definition KNOWN_INCOMPLETE_FLAGS : Z := 0x0f.
Definition TARGET_NAME_BYTES : Z := 128.
Definition TARGET_NAME_OFFSET : Z := 98.

Record Region := mkRegion { rg_offset : Z; rg_end : Z }.

Record Superblock := mkSuperblock {
  sb_pointer_width : Z;
  sb_run_id : Z;
  sb_pid : Z;
  sb_module_generation : Z;
  sb_target : bytes;
  sb_target_len : Z;
  sb_artifact_bytes : Z;
  sb_directory : Region;
  sb_directory_entries : Z;
  sb_chunks : Region;
  sb_chunk_bytes : Z;
  sb_chunk_count : Z;
  sb_emergencies : Region;
  sb_emergency_count : Z;
  sb_flags : Z
}.

Record DirectoryEntry := mkDirectoryEntry {
  de_index : Z;
  de_tid : Z;
  de_state : Z;
  de_first_sequence : Z;
  de_last_sequence : Z;
  de_chunk_index : Z;
  de_generation : Z;
  de_range_reliable : bool
}.

Record ChunkHeader := mkChunkHeader {
  ch_state : Z;
  ch_tid : Z;
  ch_generation : Z;
  ch_first_sequence : Z;
  ch_last_sequence : Z;
  ch_committed_bytes : Z;
  ch_record_count : Z;
  ch_checksum : Z
}.

Record RecordHeader := mkRecordHeader {
  rh_kind : Z;
  rh_flags : Z;
  rh_total_bytes : Z;
  rh_sequence : Z;
  rh_checksum : Z;
  rh_commit : Z
}.

Record EmergencyCell := mkEmergencyCell {
  em_kind : Z;
  em_tid : Z;
  em_sequence : Z;
  em_pc : Z;
  em_sp : Z;
  em_fault_address : Z;
  em_signal_number : Z;
  em_signal_code : Z;
  em_flags : Z;
  em_checksum : Z;
  em_checksum_inverse : Z;
  em_version : Z
}.

Ltac wire_consts :=
  unfold FLIGHT_DIRECTORY_ENTRY_BYTES, FLIGHT_EMERGENCY_SLOT_BYTES, FLIGHT_SUPERBLOCK_BYTES,
    FLIGHT_EMERGENCY_RECORD_BYTES, FLIGHT_CHUNK_HEADER_BYTES, FLIGHT_RECORD_HEADER_BYTES,
    TARGET_NAME_BYTES, TARGET_NAME_OFFSET in *.

(** ** Errors *)

Definition superblock_error (detail : string) : ProviderError :=
  ProviderError_new "source.flight.superblock" "flight.superblock" (Some (mkCoordinate 0 None)) false
    detail.
Definition directory_error (offset : Z) (detail : string) : ProviderError :=
  ProviderError_new "source.flight.directory" "flight.directory" (Some (mkCoordinate offset None))
    false detail.
Definition chunk_error (offset : Z) (detail : string) : ProviderError :=
  ProviderError_new "source.flight.chunk" "flight.chunk" (Some (mkCoordinate offset None)) false
    detail.
Definition flight_record_error (coordinate : SourceCoordinate) (detail : string) : ProviderError :=
  ProviderError_new "source.flight.record" "flight.record" (Some coordinate) false detail.

(** ** The bounded cursor *)

Record WireCursor := mkWireCursor {
  wc_bytes : bytes;
  wc_position : Z;
  wc_coordinate : SourceCoordinate;
  wc_label : string
}.

Definition wire_cursor (bs : bytes) (coordinate : SourceCoordinate) (label : string) : WireCursor :=
  mkWireCursor bs 0 coordinate label.

Definition wire_invalid_length (c : WireCursor) : ProviderError :=
  ProviderError_new "source.flight.invalid_length" "flight.wire" (Some (wc_coordinate c)) false
    ("invalid " +:+ wc_label c +:+ " length").

Definition wire_at (stop : Z) (c : WireCursor) : WireCursor :=
  mkWireCursor (wc_bytes c) stop (wc_coordinate c) (wc_label c).

(** Reads are pure: they run in the one-state world. *)
Abbreviation Rd := (Prog unit ProviderError WireCursor).

Definition wire_take (n : Z) : Rd bytes :=
  let! c := get in
  let! stop := lift_option (checked_add usize_max (wc_position c) n) (wire_invalid_length c) in
  let! source := lift_option (slice_get (wc_bytes c) (wc_position c) stop) (wire_invalid_length c) in
  modify (wire_at stop) ;!
  ret source.

Definition wire_skip (count : Z) : Rd unit :=
  let! c := get in
  let! stop := lift_option (checked_add usize_max (wc_position c) count) (wire_invalid_length c) in
  let! _ := lift_option (slice_get (wc_bytes c) (wc_position c) stop) (wire_invalid_length c) in
  modify (wire_at stop).

Definition wire_u8 : Rd Z := let! b := wire_take 1 in ret (le_Z b).
Definition wire_u16 : Rd Z := let! b := wire_take 2 in ret (le_Z b).
Definition wire_u32 : Rd Z := let! b := wire_take 4 in ret (le_Z b).
Definition wire_u64 : Rd Z := let! b := wire_take 8 in ret (le_Z b).

Definition wire_finish : Rd unit :=
  let! c := get in
  fail_if (negb (wc_position c =? zlen (wc_bytes c))) (wire_invalid_length c).

(** The body of a parser, run on a cursor of its own. *)
Definition parse_with {A} (bs : bytes) (coordinate : SourceCoordinate) (label : string) (p : Rd A) :
    result ProviderError A := fst (run p (wire_cursor bs coordinate label)).

(** ** Validation helpers *)

Definition is_zero (b : byte) : bool := bool_decide (b = x00).

Definition require_zero (bs : bytes) (start stop : Z) (label : string)
    (coordinate : SourceCoordinate) : result ProviderError unit :=
  match slice_get bs start stop with
  | None => Err (ProviderError_new "source.flight.superblock" "flight.superblock" (Some coordinate)
                   false ("invalid " +:+ label +:+ " bounds"))
  | Some region =>
      if negb (forallb is_zero region) then
        let '(code, stage) :=
          if (32 <=? start) && (stop =? FLIGHT_DIRECTORY_ENTRY_BYTES)
          then ("source.flight.directory", "flight.directory")
          else if (52 <=? start) && (stop =? FLIGHT_CHUNK_HEADER_BYTES)
          then ("source.flight.chunk", "flight.chunk")
          else ("source.flight.superblock", "flight.superblock") in
        Err (ProviderError_new code stage (Some coordinate) false ("nonzero " +:+ label))
      else Ok tt
  end.

Definition checked_region (offset count size artifact_size : Z) (label : string) :
    result ProviderError Region :=
  match checked_mul u64_max count size with
  | None => Err (superblock_error ("invalid " +:+ label +:+ " region extent"))
  | Some extent =>
      match checked_add u64_max offset extent with
      | None => Err (superblock_error ("invalid " +:+ label +:+ " region bounds"))
      | Some stop =>
          if (offset >? artifact_size) || (stop >? artifact_size)
          then Err (superblock_error ("invalid " +:+ label +:+ " region bounds"))
          else Ok (mkRegion offset stop)
      end
  end.

(** [u32::is_power_of_two] *)
Definition is_power_of_two (n : Z) : bool := (0 <? n) && (Z.land n (n - 1) =? 0).

(** [flags & !mask] at 32 bits. *)
Definition and_not32 (flags mask : Z) : Z := Z.land flags (Z.lxor u32_max mask).

(** ** Parsers *)

(** The words of a superblock before the target name, in wire order. *)
Record SuperblockWords := mkSuperblockWords {
  sw_magic : Z; sw_version : Z; sw_byte_order : Z; sw_pointer_width : Z; sw_header_bytes : Z;
  sw_artifact_bytes : Z;
  sw_directory_offset : Z; sw_directory_entry_bytes : Z; sw_directory_entries : Z;
  sw_chunk_offset : Z; sw_chunk_bytes : Z; sw_chunk_count : Z;
  sw_emergency_offset : Z; sw_emergency_record_bytes : Z; sw_emergency_count : Z;
  sw_flags : Z; sw_run_id : Z; sw_pid : Z; sw_module_generation : Z; sw_target_name_bytes : Z
}.

Definition read_superblock_words : Rd SuperblockWords :=
  let! magic := wire_u32 in
  let! version := wire_u16 in
  let! byte_order := wire_u8 in
  let! pointer_width := wire_u8 in
  let! header_bytes := wire_u16 in
  wire_skip 6 ;!
  let! artifact_bytes := wire_u64 in
  let! directory_offset := wire_u64 in
  let! directory_entry_bytes := wire_u32 in
  let! directory_entries := wire_u32 in
  let! chunk_offset := wire_u64 in
  let! chunk_bytes := wire_u32 in
  let! chunk_count := wire_u32 in
  let! emergency_offset := wire_u64 in
  let! emergency_record_bytes := wire_u32 in
  let! emergency_count := wire_u32 in
  let! flags := wire_u32 in
  wire_skip 4 ;!
  let! run_id := wire_u64 in
  let! pid := wire_u32 in
  let! module_generation := wire_u32 in
  let! target_name_bytes := wire_u16 in
  ret (mkSuperblockWords magic version byte_order pointer_width header_bytes artifact_bytes
         directory_offset directory_entry_bytes directory_entries chunk_offset chunk_bytes
         chunk_count emergency_offset emergency_record_bytes emergency_count flags run_id pid
         module_generation target_name_bytes).

Definition parse_superblock (bs : bytes) (source_size : Z) : result ProviderError Superblock :=
  let coordinate := mkCoordinate 0 None in
  parse_with bs coordinate "flight superblock" (
    lift_result (require_zero bs 10 16 "superblock header reserved bytes" coordinate) ;!
    lift_result (require_zero bs 76 80 "superblock identity reserved bytes" coordinate) ;!
    lift_result (require_zero bs 226 FLIGHT_SUPERBLOCK_BYTES "superblock tail reserved bytes"
                   coordinate) ;!
    let! w := read_superblock_words in
    fail_if (negb (sw_magic w =? FLIGHT_MAGIC) || negb (sw_version w =? FLIGHT_VERSION)
             || negb (sw_byte_order w =? 1)
             || negb ((sw_pointer_width w =? 4) || (sw_pointer_width w =? 8))
             || negb (sw_header_bytes w =? FLIGHT_SUPERBLOCK_BYTES))
      (superblock_error "invalid Flight v2 header identity") ;!
    fail_if (negb (sw_artifact_bytes w =? source_size)
             || (sw_artifact_bytes w <? FLIGHT_SUPERBLOCK_BYTES))
      (superblock_error "artifact size does not match source") ;!
    fail_if (negb (sw_directory_entry_bytes w =? FLIGHT_DIRECTORY_ENTRY_BYTES)
             || (sw_directory_entries w =? 0))
      (superblock_error "invalid directory configuration") ;!
    let! expected_emergency_count := lift_option (checked_add u32_max (sw_directory_entries w) 1)
      (superblock_error "emergency count overflow") in
    fail_if (negb (sw_emergency_record_bytes w =? FLIGHT_EMERGENCY_SLOT_BYTES)
             || negb (sw_emergency_count w =? expected_emergency_count))
      (superblock_error "invalid emergency configuration") ;!
    fail_if ((sw_chunk_bytes w <=? FLIGHT_CHUNK_HEADER_BYTES)
             || negb (is_power_of_two (sw_chunk_bytes w))
             || (sw_chunk_count w =? 0))
      (superblock_error "invalid chunk configuration") ;!
    fail_if (negb (and_not32 (sw_flags w) KNOWN_INCOMPLETE_FLAGS =? 0))
      (superblock_error "unknown Flight incomplete flags") ;!
    fail_if ((sw_run_id w =? 0) || (sw_pid w =? 0) || (sw_target_name_bytes w =? 0)
             || (sw_target_name_bytes w >? TARGET_NAME_BYTES))
      (superblock_error "invalid Flight producer identity") ;!
    let! target_end := lift_option (checked_add usize_max TARGET_NAME_OFFSET (sw_target_name_bytes w))
      (superblock_error "target name overflow") in
    let! target := lift_option (slice_get bs TARGET_NAME_OFFSET target_end)
      (superblock_error "invalid target name bounds") in
    fail_if (existsb is_zero target || negb (utf8_valid target))
      (superblock_error "invalid target module name") ;!
    lift_result (require_zero bs target_end (TARGET_NAME_OFFSET + TARGET_NAME_BYTES)
                   "target name padding" coordinate) ;!
    let! directory := lift_result
      (checked_region (sw_directory_offset w) (sw_directory_entries w) (sw_directory_entry_bytes w)
         (sw_artifact_bytes w) "directory") in
    let! emergencies := lift_result
      (checked_region (sw_emergency_offset w) (sw_emergency_count w) (sw_emergency_record_bytes w)
         (sw_artifact_bytes w) "emergency") in
    let! chunks := lift_result
      (checked_region (sw_chunk_offset w) (sw_chunk_count w) (sw_chunk_bytes w)
         (sw_artifact_bytes w) "chunk") in
    fail_if ((rg_offset directory <? FLIGHT_SUPERBLOCK_BYTES)
             || (rg_end directory >? rg_offset emergencies)
             || (rg_end emergencies >? rg_offset chunks))
      (superblock_error "overlapping Flight regions") ;!
    fail_if (negb (rg_offset directory mod 8 =? 0)
             || negb (rg_offset emergencies mod FLIGHT_EMERGENCY_RECORD_BYTES =? 0)
             || negb (rg_offset chunks mod sw_chunk_bytes w =? 0))
      (superblock_error "misaligned Flight region") ;!
    ret (mkSuperblock (sw_pointer_width w) (sw_run_id w) (sw_pid w) (sw_module_generation w)
           (target ++ replicate (Z.to_nat (TARGET_NAME_BYTES - sw_target_name_bytes w)) x00)
           (sw_target_name_bytes w) (sw_artifact_bytes w) directory (sw_directory_entries w)
           chunks (sw_chunk_bytes w) (sw_chunk_count w) emergencies (sw_emergency_count w)
           (sw_flags w))).

Definition parse_directory (bs : bytes) (index chunk_count offset : Z) :
    result ProviderError (option DirectoryEntry) :=
  let coordinate := mkCoordinate offset None in
  parse_with bs coordinate "Flight directory entry" (
    let! tid := wire_u32 in
    let! state := wire_u32 in
    let! first_sequence := wire_u64 in
    let! last_sequence := wire_u64 in
    let! chunk_index := wire_u32 in
    let! generation := wire_u32 in
    if state =? 0 then ret None else
    fail_if (negb ((state =? 1) || (state =? 2)))
      (directory_error offset "invalid directory state") ;!
    lift_result (require_zero bs 32 FLIGHT_DIRECTORY_ENTRY_BYTES "directory reserved bytes"
                   coordinate) ;!
    fail_if (tid =? 0) (directory_error offset "directory TID is zero") ;!
    if state =? 2
    then ret (Some (mkDirectoryEntry index tid state 0 0 INVALID_INDEX 0 false))
    else
      let range_reliable :=
        negb (negb (Bool.eqb (first_sequence =? 0) (last_sequence =? 0))
              || (negb (first_sequence =? 0) && (first_sequence >? last_sequence))) in
      let first_sequence := if range_reliable then first_sequence else 0 in
      let last_sequence := if range_reliable then last_sequence else 0 in
      (if chunk_index =? INVALID_INDEX
       then fail_if (negb (generation =? 0))
              (directory_error offset "invalid directory generation")
       else fail_if ((chunk_index >=? chunk_count) || (generation =? 0))
              (directory_error offset "invalid directory chunk reference")) ;!
      ret (Some (mkDirectoryEntry index tid state first_sequence last_sequence chunk_index
                   generation range_reliable))).

Definition parse_chunk_header (bs : bytes) (expected_index offset : Z) :
    result ProviderError (option ChunkHeader) :=
  let coordinate := mkCoordinate offset None in
  parse_with bs coordinate "Flight chunk header" (
    let! magic := wire_u32 in
    let! version := wire_u16 in
    let! header_bytes := wire_u16 in
    let! index := wire_u32 in
    let! state := wire_u32 in
    let! tid := wire_u32 in
    let! generation := wire_u32 in
    let! first_sequence := wire_u64 in
    let! last_sequence := wire_u64 in
    let! committed_bytes := wire_u32 in
    let! record_count := wire_u32 in
    let! checksum := wire_u32 in
    if state =? 0 then ret None else
    fail_if (negb ((state =? 1) || (state =? 2))) (chunk_error offset "invalid chunk state") ;!
    fail_if (negb (magic =? FLIGHT_MAGIC) || negb (version =? FLIGHT_VERSION)
             || negb (header_bytes =? FLIGHT_CHUNK_HEADER_BYTES)
             || negb (index =? expected_index))
      (chunk_error offset "invalid chunk header identity") ;!
    lift_result (require_zero bs 52 FLIGHT_CHUNK_HEADER_BYTES "chunk reserved bytes" coordinate) ;!
    fail_if ((tid =? 0) || (generation =? 0)) (chunk_error offset "invalid chunk ownership") ;!
    ret (Some (mkChunkHeader state tid generation first_sequence last_sequence committed_bytes
                 record_count checksum))).

Definition parse_flight_record_header (bs : bytes) (coordinate : SourceCoordinate) :
    result ProviderError RecordHeader :=
  parse_with bs coordinate "Flight record header" (
    let! kind := wire_u16 in
    let! flags := wire_u16 in
    let! total_bytes := wire_u32 in
    let! sequence := wire_u64 in
    let! checksum := wire_u32 in
    let! commit := wire_u32 in
    ret (mkRecordHeader kind flags total_bytes sequence checksum commit)).

Definition parse_emergency_cell (bs : bytes) (offset : Z) : result ProviderError EmergencyCell :=
  parse_with bs (mkCoordinate offset None) "Flight emergency cell" (
    let! kind := wire_u32 in
    let! tid := wire_u32 in
    let! sequence := wire_u64 in
    let! pc := wire_u64 in
    let! sp := wire_u64 in
    let! fault_address := wire_u64 in
    let! signal_number := wire_u32 in
    let! signal_code := wire_u32 in
    let! published_flags := wire_u32 in
    let! checksum := wire_u32 in
    let! checksum_inverse := wire_u32 in
    let! version := wire_u32 in
    wire_finish ;!
    ret (mkEmergencyCell kind tid sequence pc sp fault_address signal_number signal_code
           published_flags checksum checksum_inverse version)).

(** ** Flags and checksums *)

Definition valid_record_flags (kind flags : Z) : bool :=
  if kind =? 4 then (flags =? 0) || (flags =? 1)
  else if kind =? 6 then (flags =? 0) || (flags =? 3) || (flags =? 4)
  else if (kind =? 7) || (kind =? 8) then (flags =? 0) || (flags =? 4)
  else if kind =? 9 then (flags =? 0) || (flags =? 1)
  else if (1 <=? kind) && (kind <=? 15) then flags =? 0
  else false.

Definition FNV_OFFSET : Z := 2166136261.
Definition FNV_PRIME : Z := 16777619.

Definition fnv32_step (value : Z) (b : byte) : Z :=
  wrapping_mul u32_max (Z.lxor value (Z_of_byte b)) FNV_PRIME.
Definition fnv32 (bs : bytes) : Z := foldl fnv32_step FNV_OFFSET bs.
Definition fnv32_update (value : Z) (bs : bytes) : Z := foldl fnv32_step value bs.

Definition record_checksum (header payload : bytes) : option Z :=
  prefix ← slice_get header 0 16; Some (fnv32_update (fnv32 prefix) payload).

Definition emergency_checksum (cell : EmergencyCell) : Z :=
  let value := FNV_OFFSET in
  let value := fnv32_update value (le_bytes 4 (em_kind cell)) in
  let value := fnv32_update value (le_bytes 4 (em_tid cell)) in
  let value := fnv32_update value (le_bytes 8 (em_sequence cell)) in
  let value := fnv32_update value (le_bytes 8 (em_pc cell)) in
  let value := fnv32_update value (le_bytes 8 (em_sp cell)) in
  let value := fnv32_update value (le_bytes 8 (em_fault_address cell)) in
  let value := fnv32_update value (le_bytes 4 (em_signal_number cell)) in
  let value := fnv32_update value
                 (le_bytes 4 (if em_kind cell =? 15 then 0 else em_signal_code cell)) in
  fnv32_update value (le_bytes 4 (and_not32 (em_flags cell) EMERGENCY_COMMITTED)).

(** ** Running a parser *)

#[global] Arguments le_bytes : simpl never.

Definition wire_ok (c : WireCursor) : Prop :=
  0 <= wc_position c <= zlen (wc_bytes c) /\ zlen (wc_bytes c) <= u64_max.
Definition wire_rest (c : WireCursor) : bytes := drop (Z.to_nat (wc_position c)) (wc_bytes c).

(** The middle of a byte string. *)
Lemma slice_get_mid a m b start stop :
  zlen a = start -> zlen m = stop - start -> slice_get (a ++ m ++ b) start stop = Some m.
Proof.
  intros Ha Hm. unfold slice_get, slice. rewrite !zlen_app.
  pose proof (zlen_nonneg m). pose proof (zlen_nonneg b).
  replace (start <=? stop) with true by lia.
  replace (stop <=? zlen a + (zlen m + zlen b)) with true by lia. cbn.
  f_equal. unfold zlen in *.
  rewrite drop_app_length' by lia. apply take_app_length'. lia.
Qed.

Lemma slice_get_Some bs start stop m :
  0 <= start -> slice_get bs start stop = Some m ->
  exists a b, bs = a ++ m ++ b /\ zlen a = start /\ zlen m = stop - start.
Proof.
  unfold slice_get, slice. intros Hs H. destruct (_ && _) eqn:E; [|done]. injection H as <-.
  exists (take (Z.to_nat start) bs), (drop (Z.to_nat (stop - start)) (drop (Z.to_nat start) bs)).
  rewrite take_drop, take_drop. unfold zlen in *. rewrite !length_take, length_drop.
  split_and!; [done|lia|lia].
Qed.

Lemma wire_split c a b n :
  wire_ok c -> wire_rest c = a ++ b -> zlen a = n ->
  checked_add usize_max (wc_position c) n = Some (wc_position c + n)
  /\ slice_get (wc_bytes c) (wc_position c) (wc_position c + n) = Some a
  /\ wire_ok (wire_at (wc_position c + n) c) /\ wire_rest (wire_at (wc_position c + n) c) = b.
Proof.
  intros [Hp Hb] Hr Hn. unfold wire_rest in Hr. pose proof (zlen_nonneg a). pose proof (zlen_nonneg b).
  assert (wc_bytes c = take (Z.to_nat (wc_position c)) (wc_bytes c) ++ a ++ b) as Hbs
    by by rewrite <- Hr, take_drop.
  assert (zlen (take (Z.to_nat (wc_position c)) (wc_bytes c)) = wc_position c) as Ht
    by (unfold zlen in *; rewrite length_take; lia).
  assert (zlen (wc_bytes c) = wc_position c + zlen a + zlen b) as Hz
    by (rewrite Hbs, !zlen_app, Ht; lia).
  split_and!.
  - apply checked_add_ok. unfold usize_max. lia.
  - rewrite Hbs at 1. apply slice_get_mid; lia.
  - split; cbn; lia.
  - unfold wire_rest. cbn. rewrite Hbs.
    replace (Z.to_nat (wc_position c + n)) with (Z.to_nat (wc_position c) + Z.to_nat n)%nat by lia.
    rewrite <- drop_drop. rewrite drop_app_length' by (unfold zlen in Ht; lia).
    apply drop_app_length'. unfold zlen in Hn. lia.
Qed.

Section steps.
Context {A : Type}.
Implicit Types (c : WireCursor) (k : Z -> Rd A).

Lemma step_take c a b n (k : bytes -> Rd A) :
  wire_ok c -> wire_rest c = a ++ b -> zlen a = n ->
  exists c', wire_ok c' /\ wire_rest c' = b /\ run (bind (wire_take n) k) c = run (k a) c'.
Proof.
  intros Hc Hr Hn. destruct (wire_split c a b n Hc Hr Hn) as (Ha & Hs & Hok & Hrest).
  exists (wire_at (wc_position c + n) c). split_and!; [done..|].
  apply run_bind_ok. unfold wire_take, run, bind, get, lift_option, lift_result, modify, ret.
  by rewrite Ha; cbn; rewrite Hs; cbn.
Qed.

Lemma step_skip c a b n (k : unit -> Rd A) :
  wire_ok c -> wire_rest c = a ++ b -> zlen a = n ->
  exists c', wire_ok c' /\ wire_rest c' = b /\ run (bind (wire_skip n) k) c = run (k tt) c'.
Proof.
  intros Hc Hr Hn. destruct (wire_split c a b n Hc Hr Hn) as (Ha & Hs & Hok & Hrest).
  exists (wire_at (wc_position c + n) c). split_and!; [done..|].
  apply run_bind_ok. unfold wire_skip, run, bind, get, lift_option, lift_result, modify, ret.
  by rewrite Ha; cbn; rewrite Hs; cbn.
Qed.

Lemma step_int n v c b k :
  wire_ok c -> wire_rest c = le_bytes n v ++ b -> 0 <= v < 256 ^ Z.of_nat n ->
  exists c', wire_ok c' /\ wire_rest c' = b
    /\ run (bind (let! b := wire_take (Z.of_nat n) in ret (le_Z b)) k) c = run (k v) c'.
Proof.
  intros Hc Hr Hv.
  destruct (step_take c _ b (Z.of_nat n) (fun b => bind (ret (le_Z b)) k) Hc Hr) as (c' & Hok & Hb & Hrun);
    [apply zlen_le_bytes|].
  exists c'. split_and!; [done..|].
  transitivity (run (bind (ret (le_Z (le_bytes n v))) k) c'); [|by rewrite le_Z_le_bytes].
  rewrite <- Hrun. unfold run, bind. by destruct (wire_take _ c tt) as [[[x|e] c2] []].
Qed.

Lemma step_u8 v c b k :
  wire_ok c -> wire_rest c = le_bytes 1 v ++ b -> in_u8 v ->
  exists c', wire_ok c' /\ wire_rest c' = b /\ run (bind wire_u8 k) c = run (k v) c'.
Proof. intros Hc Hr Hv. apply (step_int 1 v c b k Hc Hr). machine. lia. Qed.
Lemma step_u16 v c b k :
  wire_ok c -> wire_rest c = le_bytes 2 v ++ b -> in_u16 v ->
  exists c', wire_ok c' /\ wire_rest c' = b /\ run (bind wire_u16 k) c = run (k v) c'.
Proof. intros Hc Hr Hv. apply (step_int 2 v c b k Hc Hr). machine. lia. Qed.
Lemma step_u32 v c b k :
  wire_ok c -> wire_rest c = le_bytes 4 v ++ b -> in_u32 v ->
  exists c', wire_ok c' /\ wire_rest c' = b /\ run (bind wire_u32 k) c = run (k v) c'.
Proof. intros Hc Hr Hv. apply (step_int 4 v c b k Hc Hr). machine. lia. Qed.
Lemma step_u64 v c b k :
  wire_ok c -> wire_rest c = le_bytes 8 v ++ b -> in_u64 v ->
  exists c', wire_ok c' /\ wire_rest c' = b /\ run (bind wire_u64 k) c = run (k v) c'.
Proof. intros Hc Hr Hv. apply (step_int 8 v c b k Hc Hr). machine. lia. Qed.

Lemma step_fail_if b e c (k : unit -> Rd A) a :
  fst (run (bind (fail_if b e) k) c) = Ok a <-> b = false /\ fst (run (k tt) c) = Ok a.
Proof. destruct b; cbn; naive_solver. Qed.

Lemma step_result {B} (r : result ProviderError B) c (k : B -> Rd A) a :
  fst (run (bind (lift_result r) k) c) = Ok a <-> exists x, r = Ok x /\ fst (run (k x) c) = Ok a.
Proof. destruct r; cbn; naive_solver. Qed.

Lemma step_option {B} (o : option B) e c (k : B -> Rd A) a :
  fst (run (bind (lift_option o e) k) c) = Ok a <-> exists x, o = Some x /\ fst (run (k x) c) = Ok a.
Proof. destruct o; cbn; naive_solver. Qed.

End steps.

(** [wire_read] performs the next read of a run whose remaining input is known. *)
Ltac wire_next Hc Hr H :=
  let c' := fresh "c" in let Hc' := fresh "Hc" in let Hr' := fresh "Hr" in let Hrun := fresh "Hrun" in
  destruct H as (c' & Hc' & Hr' & Hrun);
  rewrite Hrun; clear Hrun Hr Hc; rename Hr' into Hr; rename Hc' into Hc.
Ltac wire_read Hc Hr :=
  match goal with
  | |- context [run (bind wire_u8 ?k) ?c] =>
      wire_next Hc Hr (step_u8 _ c _ k Hc Hr ltac:(first [done|assumption]))
  | |- context [run (bind wire_u16 ?k) ?c] =>
      wire_next Hc Hr (step_u16 _ c _ k Hc Hr ltac:(first [done|assumption]))
  | |- context [run (bind wire_u32 ?k) ?c] =>
      wire_next Hc Hr (step_u32 _ c _ k Hc Hr ltac:(first [done|assumption]))
  | |- context [run (bind wire_u64 ?k) ?c] =>
      wire_next Hc Hr (step_u64 _ c _ k Hc Hr ltac:(first [done|assumption]))
  | |- context [run (bind (wire_skip ?n) ?k) ?c] =>
      wire_next Hc Hr (step_skip c _ _ n k Hc Hr ltac:(first [done|assumption]))
  end.

Lemma wire_cursor_ok bs coordinate label :
  zlen bs <= u64_max -> wire_ok (wire_cursor bs coordinate label).
Proof. intros Hb. pose proof (zlen_nonneg bs). split; cbn; lia. Qed.

(** Any long enough byte string starts with a field. *)
Lemma field_split n bs :
  Z.of_nat n <= zlen bs ->
  exists v r, bs = le_bytes n v ++ r /\ 0 <= v < 256 ^ Z.of_nat n /\ zlen r = zlen bs - Z.of_nat n.
Proof.
  intros Hn. exists (le_Z (take n bs)), (drop n bs). unfold zlen in *.
  assert (length (take n bs) = n) as Hl by (rewrite length_take; lia).
  pose proof (le_Z_range (take n bs)) as Hv. unfold zlen in Hv. rewrite Hl in Hv.
  rewrite le_bytes_le_Z, take_drop by done. rewrite length_drop. split_and!; [done|lia..].
Qed.

Lemma bytes_split n (bs : bytes) :
  0 <= n <= zlen bs -> exists a r, bs = a ++ r /\ zlen a = n /\ zlen r = zlen bs - n.
Proof.
  intros Hn. exists (take (Z.to_nat n) bs), (drop (Z.to_nat n) bs). rewrite take_drop.
  unfold zlen in *. rewrite length_take, length_drop. split_and!; [done|lia..].
Qed.

Lemma zeros_spec bs : forallb is_zero bs = true <-> bs = replicate (length bs) x00.
Proof.
  induction bs as [|b bs IH]; [done|]. cbn. rewrite andb_true_iff, IH. unfold is_zero.
  rewrite bool_decide_eq_true. split; [intros [-> Hbs]; by f_equal|by intros [= -> Hbs]].
Qed.

Lemma require_zero_ok bs start stop label coordinate a m b u :
  bs = a ++ m ++ b -> zlen a = start -> zlen m = stop - start ->
  require_zero bs start stop label coordinate = Ok u <-> m = replicate (length m) x00.
Proof.
  intros -> Ha Hm. unfold require_zero. rewrite (slice_get_mid a m b) by done.
  rewrite <- zeros_spec. destruct u, (forallb is_zero m); cbn; [done|].
  split; [|done]. repeat case_match; done.
Qed.

(** ** The superblock *)

(** The layout of the words, around two gaps of reserved bytes. *)
Definition words_head (w : SuperblockWords) : bytes :=
  le_bytes 4 (sw_magic w) ++ le_bytes 2 (sw_version w) ++ le_bytes 1 (sw_byte_order w)
  ++ le_bytes 1 (sw_pointer_width w) ++ le_bytes 2 (sw_header_bytes w).
Definition words_body (w : SuperblockWords) : bytes :=
  le_bytes 8 (sw_artifact_bytes w) ++ le_bytes 8 (sw_directory_offset w)
  ++ le_bytes 4 (sw_directory_entry_bytes w) ++ le_bytes 4 (sw_directory_entries w)
  ++ le_bytes 8 (sw_chunk_offset w) ++ le_bytes 4 (sw_chunk_bytes w)
  ++ le_bytes 4 (sw_chunk_count w) ++ le_bytes 8 (sw_emergency_offset w)
  ++ le_bytes 4 (sw_emergency_record_bytes w) ++ le_bytes 4 (sw_emergency_count w)
  ++ le_bytes 4 (sw_flags w).
Definition words_identity (w : SuperblockWords) : bytes :=
  le_bytes 8 (sw_run_id w) ++ le_bytes 4 (sw_pid w)
  ++ le_bytes 4 (sw_module_generation w) ++ le_bytes 2 (sw_target_name_bytes w).
Definition encode_words (w : SuperblockWords) (gap1 gap2 rest : bytes) : bytes :=
  words_head w ++ gap1 ++ words_body w ++ gap2 ++ words_identity w ++ rest.

Record words_range (w : SuperblockWords) : Prop := mkWordsRange {
  wr_magic : in_u32 (sw_magic w); wr_version : in_u16 (sw_version w);
  wr_order : in_u8 (sw_byte_order w); wr_width : in_u8 (sw_pointer_width w);
  wr_header : in_u16 (sw_header_bytes w); wr_artifact : in_u64 (sw_artifact_bytes w);
  wr_dir_offset : in_u64 (sw_directory_offset w); wr_dir_bytes : in_u32 (sw_directory_entry_bytes w);
  wr_dir_entries : in_u32 (sw_directory_entries w); wr_chunk_offset : in_u64 (sw_chunk_offset w);
  wr_chunk_bytes : in_u32 (sw_chunk_bytes w); wr_chunk_count : in_u32 (sw_chunk_count w);
  wr_em_offset : in_u64 (sw_emergency_offset w); wr_em_bytes : in_u32 (sw_emergency_record_bytes w);
  wr_em_count : in_u32 (sw_emergency_count w); wr_flags : in_u32 (sw_flags w);
  wr_run : in_u64 (sw_run_id w); wr_pid : in_u32 (sw_pid w);
  wr_generation : in_u32 (sw_module_generation w); wr_target : in_u16 (sw_target_name_bytes w)
}.

Ltac take_field n v H :=
  match type of H with
  | zlen ?b = _ =>
      let r := fresh "bs" in let Hv := fresh "Hv" in
      destruct (field_split n b ltac:(lia)) as (v & r & -> & Hv & ?H');
      rewrite H in H'; clear H; rename H' into H
  end.
Ltac take_bytes n g H :=
  match type of H with
  | zlen ?b = _ =>
      let r := fresh "bs" in let Hg := fresh "Hg" in
      destruct (bytes_split n b ltac:(lia)) as (g & r & -> & Hg & ?H');
      rewrite H in H'; clear H; rename H' into H
  end.

(** Every 4096-byte block reads as words, gaps, a name field and a tail. *)
Lemma words_decompose bs :
  zlen bs = FLIGHT_SUPERBLOCK_BYTES ->
  exists w gap1 gap2 name tail,
    bs = encode_words w gap1 gap2 (name ++ tail) /\ words_range w
    /\ zlen gap1 = 6 /\ zlen gap2 = 4 /\ zlen name = TARGET_NAME_BYTES /\ zlen tail = 3870.
Proof.
  unfold FLIGHT_SUPERBLOCK_BYTES, TARGET_NAME_BYTES. intros H.
  take_field 4%nat magic H. take_field 2%nat version H. take_field 1%nat byord H.
  take_field 1%nat width H. take_field 2%nat header H. take_bytes 6 gap1 H.
  take_field 8%nat artifact H. take_field 8%nat dir H. take_field 4%nat dirb H.
  take_field 4%nat dire H. take_field 8%nat chunk H. take_field 4%nat chunkb H.
  take_field 4%nat chunkc H. take_field 8%nat em H. take_field 4%nat emb H.
  take_field 4%nat emc H. take_field 4%nat flags H. take_bytes 4 gap2 H.
  take_field 8%nat runid H. take_field 4%nat pid H. take_field 4%nat modgen H.
  take_field 2%nat target H. take_bytes 128 name H.
  match type of H with zlen ?tail = _ =>
    exists (mkSuperblockWords magic version byord width header artifact dir dirb dire chunk chunkb
              chunkc em emb emc flags runid pid modgen target), gap1, gap2, name, tail end.
  split_and!; [|split; cbn; machine; lia|done|done|done|lia].
  unfold encode_words, words_head, words_body, words_identity. cbn. by rewrite <- !app_assoc.
Qed.

Lemma read_words w gap1 gap2 rest c {A} (k : SuperblockWords -> Rd A) :
  words_range w -> zlen gap1 = 6 -> zlen gap2 = 4 ->
  wire_ok c -> wire_rest c = encode_words w gap1 gap2 rest ->
  exists c', run (bind read_superblock_words k) c = run (k w) c'.
Proof.
  intros [] Hg1 Hg2 Hc Hr. unfold encode_words, words_head, words_body, words_identity in Hr.
  rewrite <- !app_assoc in Hr.
  enough (exists c', run read_superblock_words c = (Ok w, c')) as [c' Hrun].
  { exists c'. by apply run_bind_ok. }
  unfold read_superblock_words. do 22 wire_read Hc Hr.
  eexists. by destruct w.
Qed.

Lemma is_power_of_two_spec n : is_power_of_two n = true <-> exists k, 0 <= k /\ n = 2 ^ k.
Proof.
  unfold is_power_of_two. rewrite andb_true_iff, Z.ltb_lt, Z.eqb_eq. split.
  - intros [Hn Hland]. exists (Z.log2 n). split; [apply Z.log2_nonneg|].
    destruct (Z.log2_spec n Hn) as [Hlo Hhi]. destruct (Z.eq_dec n (2 ^ Z.log2 n)) as [|Hne]; [done|].
    exfalso. assert (Z.testbit (Z.land n (n - 1)) (Z.log2 n) = true) as Hbit.
    { rewrite Z.land_spec, Z.bit_log2 by done.
      replace (Z.log2 n) with (Z.log2 (n - 1)) at 1
        by (apply Z.log2_unique; [apply Z.log2_nonneg|lia]).
      rewrite Z.bit_log2; [done|]. pose proof (Z.pow_pos_nonneg 2 (Z.log2 n) ltac:(lia) (Z.log2_nonneg n)).
      lia. }
    rewrite Hland, Z.bits_0 in Hbit. done.
  - intros (k & Hk & ->). split; [apply Z.pow_pos_nonneg; lia|].
    rewrite Z.sub_1_r, <- Z.ones_equiv, Z.land_ones by done. apply Z.mod_same.
    apply Z.pow_nonzero; lia.
Qed.

Lemma known_flags_spec flags :
  in_u32 flags -> (and_not32 flags KNOWN_INCOMPLETE_FLAGS =? 0) = true <-> flags <= 15.
Proof.
  intros Hf. rewrite Z.eqb_eq. unfold and_not32, KNOWN_INCOMPLETE_FLAGS.
  change (Z.lxor u32_max 15) with 4294967280. split.
  - intros H. assert (Z.shiftr flags 4 = 0) as Hs.
    { apply (f_equal (fun z => Z.shiftr z 4)) in H. rewrite Z.shiftr_land in H.
      change (Z.shiftr 4294967280 4) with (Z.ones 28) in H. rewrite Z.land_ones in H by lia.
      rewrite Z.shiftr_div_pow2 in * by lia. machine.
      rewrite Z.mod_small in H; [done|]. split; [apply Z.div_pos; lia|].
      apply Z.div_lt_upper_bound; lia. }
    rewrite Z.shiftr_div_pow2 in Hs by lia. change (2 ^ 4) with 16 in Hs. apply Z.div_small_iff in Hs; lia.
  - intros Hle. replace flags with (Z.land flags (Z.ones 4))
      by (rewrite Z.land_ones by lia; machine; apply Z.mod_small; lia).
    rewrite <- Z.land_assoc. change (Z.land (Z.ones 4) 4294967280) with 0. apply Z.land_0_r.
Qed.

Lemma checked_region_ok offset count size artifact label r :
  0 <= offset -> 0 <= count -> 0 <= size -> artifact <= u64_max ->
  checked_region offset count size artifact label = Ok r
  <-> r = mkRegion offset (offset + count * size) /\ offset + count * size <= artifact.
Proof.
  intros Ho Hc Hs Ha. unfold checked_region, checked_mul, checked_add.
  assert (0 <= count * size) by nia.
  destruct (Z.leb_spec (count * size) u64_max); [|split; [done|intros [-> ?]; lia]].
  destruct (Z.leb_spec (offset + count * size) u64_max); [|split; [done|intros [-> ?]; lia]].
  destruct (_ || _) eqn:E; split; intros; [done|lia| |].
  - split; [congruence|lia].
  - destruct H2 as [-> _]. done.
Qed.

(** What a valid superblock promises the scanner: the producer's identity, three
    aligned and disjoint regions inside the artifact, and known flags. *)
Record superblock_ok (size : Z) (sb : Superblock) : Prop := mkSuperblockOk {
  so_width : sb_pointer_width sb = 4 \/ sb_pointer_width sb = 8;
  so_run : 0 < sb_run_id sb <= u64_max;
  so_pid : 0 < sb_pid sb <= u32_max;
  so_generation : in_u32 (sb_module_generation sb);
  so_target : exists name,
    sb_target sb = name ++ replicate (Z.to_nat (TARGET_NAME_BYTES - zlen name)) x00
    /\ zlen name = sb_target_len sb /\ 0 < zlen name <= TARGET_NAME_BYTES
    /\ (x00 ∉ name) /\ utf8_valid name = true;
  so_size : sb_artifact_bytes sb = size /\ FLIGHT_SUPERBLOCK_BYTES <= size <= u64_max;
  so_entries : 0 < sb_directory_entries sb < u32_max;
  so_directory : sb_directory sb = mkRegion (rg_offset (sb_directory sb))
    (rg_offset (sb_directory sb) + sb_directory_entries sb * FLIGHT_DIRECTORY_ENTRY_BYTES)
    /\ FLIGHT_SUPERBLOCK_BYTES <= rg_offset (sb_directory sb)
    /\ rg_offset (sb_directory sb) mod 8 = 0;
  so_emergency_count : sb_emergency_count sb = sb_directory_entries sb + 1;
  so_emergencies : sb_emergencies sb = mkRegion (rg_offset (sb_emergencies sb))
    (rg_offset (sb_emergencies sb) + sb_emergency_count sb * FLIGHT_EMERGENCY_SLOT_BYTES)
    /\ rg_end (sb_directory sb) <= rg_offset (sb_emergencies sb)
    /\ rg_offset (sb_emergencies sb) mod FLIGHT_EMERGENCY_RECORD_BYTES = 0;
  so_chunk_bytes : FLIGHT_CHUNK_HEADER_BYTES < sb_chunk_bytes sb <= u32_max
    /\ exists k, 0 <= k /\ sb_chunk_bytes sb = 2 ^ k;
  so_chunk_count : 0 < sb_chunk_count sb <= u32_max;
  so_chunks : sb_chunks sb = mkRegion (rg_offset (sb_chunks sb))
    (rg_offset (sb_chunks sb) + sb_chunk_count sb * sb_chunk_bytes sb)
    /\ rg_end (sb_emergencies sb) <= rg_offset (sb_chunks sb)
    /\ rg_offset (sb_chunks sb) mod sb_chunk_bytes sb = 0
    /\ rg_end (sb_chunks sb) <= size;
  so_flags : 0 <= sb_flags sb <= 15
}.

Definition words_of (sb : Superblock) : SuperblockWords :=
  mkSuperblockWords FLIGHT_MAGIC FLIGHT_VERSION 1 (sb_pointer_width sb) FLIGHT_SUPERBLOCK_BYTES
    (sb_artifact_bytes sb) (rg_offset (sb_directory sb)) FLIGHT_DIRECTORY_ENTRY_BYTES
    (sb_directory_entries sb) (rg_offset (sb_chunks sb)) (sb_chunk_bytes sb) (sb_chunk_count sb)
    (rg_offset (sb_emergencies sb)) FLIGHT_EMERGENCY_SLOT_BYTES (sb_emergency_count sb)
    (sb_flags sb) (sb_run_id sb) (sb_pid sb) (sb_module_generation sb) (sb_target_len sb).

Definition encode_superblock (sb : Superblock) : bytes :=
  encode_words (words_of sb) (replicate 6 x00) (replicate 4 x00)
    (sb_target sb ++ replicate (Z.to_nat 3870) x00).

(** The reserved bytes and the name field of a laid-out block. *)
Lemma layout_gaps w gap1 gap2 name tail :
  zlen gap1 = 6 -> zlen gap2 = 4 -> zlen name = TARGET_NAME_BYTES ->
  let bs := encode_words w gap1 gap2 (name ++ tail) in
  (exists a b, bs = a ++ gap1 ++ b /\ zlen a = 10)
  /\ (exists a b, bs = a ++ gap2 ++ b /\ zlen a = 76)
  /\ (exists a, bs = a ++ name ++ tail /\ zlen a = 98).
Proof.
  intros H1 H2 H3 bs. subst bs. unfold encode_words.
  assert (zlen (words_head w) = 10) as Hh by (unfold words_head; by rewrite !zlen_app, !zlen_le_bytes).
  assert (zlen (words_body w) = 60) as Hb by (unfold words_body; by rewrite !zlen_app, !zlen_le_bytes).
  assert (zlen (words_identity w) = 18) as Hi
    by (unfold words_identity; by rewrite !zlen_app, !zlen_le_bytes).
  split_and!.
  - by exists (words_head w), (words_body w ++ gap2 ++ words_identity w ++ name ++ tail).
  - exists (words_head w ++ gap1 ++ words_body w), (words_identity w ++ name ++ tail).
    rewrite <- !app_assoc, !zlen_app. split; [done|lia].
  - exists (words_head w ++ gap1 ++ words_body w ++ gap2 ++ words_identity w).
    rewrite <- !app_assoc, !zlen_app. split; [done|lia].
Qed.

Lemma existsb_zero bs : existsb is_zero bs = false <-> (x00 ∉ bs).
Proof.
  rewrite <- not_true_iff_false, existsb_exists. unfold is_zero.
  split; intros H Hin; apply H.
  - exists x00. by rewrite <- list_elem_of_In, bool_decide_eq_true.
  - destruct Hin as (b & Hb & ->%bool_decide_eq_true). by apply list_elem_of_In.
Qed.

(** [ok_step] opens the next step of a parse that succeeded; [ok_goal] performs
    the next step of one that will. *)
Ltac ok_step H :=
  let Hg := fresh "Hg" in let x := fresh "x" in
  match type of H with
  | fst (run (bind (fail_if _ _) _) _) = Ok _ => apply step_fail_if in H as [Hg H]
  | fst (run (bind (lift_result _) _) _) = Ok _ => apply step_result in H as (x & Hg & H)
  | fst (run (bind (lift_option _ _) _) _) = Ok _ => apply step_option in H as (x & Hg & H)
  end.
Ltac ok_goal :=
  match goal with
  | |- fst (run (bind (fail_if _ _) _) _) = Ok _ => apply step_fail_if; split
  | |- fst (run (bind (lift_result _) _) _) = Ok _ => apply step_result; eexists; split
  | |- fst (run (bind (lift_option _ _) _) _) = Ok _ => apply step_option; eexists; split
  end.

Section superblock.
Context (w : SuperblockWords) (gap1 gap2 name tail : bytes) (size : Z).
Context (Hw : words_range w) (Hg1 : zlen gap1 = 6) (Hg2 : zlen gap2 = 4)
  (Hname : zlen name = TARGET_NAME_BYTES) (Htail : zlen tail = 3870).
Let bs := encode_words w gap1 gap2 (name ++ tail).

Lemma layout_length : zlen bs = FLIGHT_SUPERBLOCK_BYTES.
Proof.
  subst bs. destruct (layout_gaps w gap1 gap2 name tail Hg1 Hg2 Hname) as (_ & _ & a & Ha & Hl).
  rewrite Ha, !zlen_app, Hl, Hname, Htail. done.
Qed.

(** The name field splits at the length the words declare. *)
Lemma layout_name target_end target :
  0 < sw_target_name_bytes w <= TARGET_NAME_BYTES ->
  target_end = TARGET_NAME_OFFSET + sw_target_name_bytes w ->
  slice_get bs TARGET_NAME_OFFSET target_end = Some target
  <-> exists pad, name = target ++ pad /\ zlen target = sw_target_name_bytes w.
Proof.
  intros Ht ->. subst bs.
  destruct (layout_gaps w gap1 gap2 name tail Hg1 Hg2 Hname) as (_ & _ & a & -> & Hl).
  split.
  - destruct (bytes_split (sw_target_name_bytes w) name ltac:(lia)) as (t & pad & -> & Hlt & _).
    rewrite <- app_assoc, (slice_get_mid a t (pad ++ tail))
      by (unfold TARGET_NAME_OFFSET in *; lia).
    intros [= <-]. by exists pad.
  - intros (pad & -> & Hlt). rewrite <- app_assoc. apply slice_get_mid; unfold TARGET_NAME_OFFSET in *; lia.
Qed.

Lemma layout_padding target pad u :
  name = target ++ pad -> zlen target = sw_target_name_bytes w ->
  require_zero bs (TARGET_NAME_OFFSET + sw_target_name_bytes w)
    (TARGET_NAME_OFFSET + TARGET_NAME_BYTES) "target name padding" (mkCoordinate 0 None) = Ok u
  <-> pad = replicate (Z.to_nat (TARGET_NAME_BYTES - sw_target_name_bytes w)) x00.
Proof.
  intros Hn Hlt. subst bs.
  destruct (layout_gaps w gap1 gap2 name tail Hg1 Hg2 Hname) as (_ & _ & a & -> & Hl).
  pose proof Hname as Hz. rewrite Hn in Hz |- *. rewrite zlen_app in Hz.
  rewrite (require_zero_ok _ _ _ _ _ (a ++ target) pad tail).
  - replace (length pad) with (Z.to_nat (TARGET_NAME_BYTES - sw_target_name_bytes w))
      by (unfold zlen in *; lia). done.
  - by rewrite <- !app_assoc.
  - rewrite zlen_app. unfold TARGET_NAME_OFFSET. lia.
  - lia.
Qed.

End superblock.

(** The three gaps a parse requires to be zero. *)
Lemma layout_zero w gap1 gap2 name tail u1 u2 u3 :
  zlen gap1 = 6 -> zlen gap2 = 4 -> zlen name = TARGET_NAME_BYTES -> zlen tail = 3870 ->
  let bs := encode_words w gap1 gap2 (name ++ tail) in
  (forall label c, require_zero bs 10 16 label c = Ok u1 <-> gap1 = replicate 6 x00)
  /\ (forall label c, require_zero bs 76 80 label c = Ok u2 <-> gap2 = replicate 4 x00)
  /\ (forall label c, require_zero bs 226 FLIGHT_SUPERBLOCK_BYTES label c = Ok u3
                      <-> tail = replicate (Z.to_nat 3870) x00).
Proof.
  intros H1 H2 H3 H4 bs.
  destruct (layout_gaps w gap1 gap2 name tail H1 H2 H3)
    as ((a1 & b1 & He1 & Hl1) & (a2 & b2 & He2 & Hl2) & (a3 & He3 & Hl3)).
  split_and!; intros label c.
  - rewrite (require_zero_ok _ _ _ _ _ a1 gap1 b1) by (done || lia).
    replace (length gap1) with 6%nat by (unfold zlen in *; lia). done.
  - rewrite (require_zero_ok _ _ _ _ _ a2 gap2 b2) by (done || lia).
    replace (length gap2) with 4%nat by (unfold zlen in *; lia). done.
  - rewrite (require_zero_ok _ _ _ _ _ (a3 ++ name) tail []).
    + replace (length tail) with (Z.to_nat 3870) by (unfold zlen in *; lia). done.
    + by rewrite app_nil_r, <- app_assoc.
    + rewrite zlen_app, Hl3, H3. done.
    + rewrite H4. done.
Qed.

(** The conditions a parse places on the words. *)
Record words_ok (size : Z) (w : SuperblockWords) : Prop := mkWordsOk {
  wk_magic : sw_magic w = FLIGHT_MAGIC;
  wk_version : sw_version w = FLIGHT_VERSION;
  wk_order : sw_byte_order w = 1;
  wk_width : sw_pointer_width w = 4 \/ sw_pointer_width w = 8;
  wk_header : sw_header_bytes w = FLIGHT_SUPERBLOCK_BYTES;
  wk_size : sw_artifact_bytes w = size /\ FLIGHT_SUPERBLOCK_BYTES <= size;
  wk_entry_bytes : sw_directory_entry_bytes w = FLIGHT_DIRECTORY_ENTRY_BYTES;
  wk_entries : 0 < sw_directory_entries w < u32_max;
  wk_slot_bytes : sw_emergency_record_bytes w = FLIGHT_EMERGENCY_SLOT_BYTES;
  wk_slots : sw_emergency_count w = sw_directory_entries w + 1;
  wk_chunk_bytes : FLIGHT_CHUNK_HEADER_BYTES < sw_chunk_bytes w;
  wk_chunk_power : is_power_of_two (sw_chunk_bytes w) = true;
  wk_chunk_count : 0 < sw_chunk_count w;
  wk_flags : sw_flags w <= 15;
  wk_identity : 0 < sw_run_id w /\ 0 < sw_pid w;
  wk_name : 0 < sw_target_name_bytes w <= TARGET_NAME_BYTES;
  wk_directory : FLIGHT_SUPERBLOCK_BYTES <= sw_directory_offset w;
  wk_apart1 : sw_directory_offset w + sw_directory_entries w * sw_directory_entry_bytes w
              <= sw_emergency_offset w;
  wk_apart2 : sw_emergency_offset w + sw_emergency_count w * sw_emergency_record_bytes w
              <= sw_chunk_offset w;
  wk_inside : sw_chunk_offset w + sw_chunk_count w * sw_chunk_bytes w <= size;
  wk_aligned : sw_directory_offset w mod 8 = 0
               /\ sw_emergency_offset w mod FLIGHT_EMERGENCY_RECORD_BYTES = 0
               /\ sw_chunk_offset w mod sw_chunk_bytes w = 0
}.

Definition superblock_of (w : SuperblockWords) (name : bytes) : Superblock :=
  mkSuperblock (sw_pointer_width w) (sw_run_id w) (sw_pid w) (sw_module_generation w) name
    (sw_target_name_bytes w) (sw_artifact_bytes w)
    (mkRegion (sw_directory_offset w)
       (sw_directory_offset w + sw_directory_entries w * sw_directory_entry_bytes w))
    (sw_directory_entries w)
    (mkRegion (sw_chunk_offset w) (sw_chunk_offset w + sw_chunk_count w * sw_chunk_bytes w))
    (sw_chunk_bytes w) (sw_chunk_count w)
    (mkRegion (sw_emergency_offset w)
       (sw_emergency_offset w + sw_emergency_count w * sw_emergency_record_bytes w))
    (sw_emergency_count w) (sw_flags w).

(** The name field: a non-empty UTF-8 name without NUL, zero padded. *)
Definition name_ok (len : Z) (name : bytes) : Prop :=
  exists t, name = t ++ replicate (Z.to_nat (TARGET_NAME_BYTES - len)) x00 /\ zlen t = len
    /\ (x00 ∉ t) /\ utf8_valid t = true.

Section exact.
Context (w : SuperblockWords) (gap1 gap2 name tail : bytes) (size : Z).
Context (Hw : words_range w) (Hg1 : zlen gap1 = 6) (Hg2 : zlen gap2 = 4)
  (Hname : zlen name = TARGET_NAME_BYTES) (Htail : zlen tail = 3870).
Let bs := encode_words w gap1 gap2 (name ++ tail).

Lemma layout_sound sb :
  parse_superblock bs size = Ok sb ->
  (gap1 = replicate 6 x00 /\ gap2 = replicate 4 x00 /\ tail = replicate (Z.to_nat 3870) x00)
  /\ words_ok size w /\ name_ok (sw_target_name_bytes w) name /\ sb = superblock_of w name.
Proof.
  intros H. unfold parse_superblock, parse_with in H.
  pose proof (layout_length w gap1 gap2 name tail Hg1 Hg2 Hname Htail) as Hlen.
  destruct (layout_zero w gap1 gap2 name tail tt tt tt Hg1 Hg2 Hname Htail) as (Hz1 & Hz2 & Hz3).
  apply step_result in H as ([] & H1%Hz1 & H). apply step_result in H as ([] & H2%Hz2 & H).
  apply step_result in H as ([] & H3%Hz3 & H).
  match type of H with fst (run (bind read_superblock_words ?k) ?c) = _ =>
    destruct (read_words w gap1 gap2 (name ++ tail) c k Hw Hg1 Hg2) as [c1 Hrun];
      [apply wire_cursor_ok; subst bs; by rewrite Hlen|done|rewrite Hrun in H; clear Hrun] end.
  destruct Hw. unfold in_u8, in_u16, in_u32, in_u64 in *. do 3 ok_step H. apply step_option in H as (n & Hn%checked_add_Some & H).
  do 4 ok_step H. apply step_option in H as (target_end & [-> He]%checked_add_Some & H).
  apply step_option in H as (target & Hslice & H).
  apply (layout_name w gap1 gap2 name tail Hg1 Hg2 Hname) in Hslice as (pad & Hnm & Hlt);
    [|lia|done].
  apply step_fail_if in H as [[Hnul%existsb_zero Hutf%negb_false_iff]%orb_false_iff H].
  apply step_result in H as (u & Hpad & H).
  apply (layout_padding w gap1 gap2 name tail Hg1 Hg2 Hname target pad u Hnm Hlt) in Hpad.
  apply step_result in H as (rd & Hrd & H). apply step_result in H as (re & Hre & H).
  apply step_result in H as (rc & Hrc & H).
  apply checked_region_ok in Hrd as [-> ?], Hre as [-> ?], Hrc as [-> ?]; [|lia..].
  do 2 ok_step H. cbn in H. injection H as <-. cbn in *.
  assert (is_power_of_two (sw_chunk_bytes w) = true) as Hpow
    by (destruct (is_power_of_two (sw_chunk_bytes w)); [done|lia]).
  assert (sw_flags w <= 15) as Hflags by (apply known_flags_spec; unfold in_u32; lia).
  split_and!; [done..| | |].
  - split; unfold u32_max in *; done || lia.
  - exists target. subst pad. done.
  - unfold superblock_of. by rewrite Hnm, Hpad.
Qed.

Lemma layout_complete :
  gap1 = replicate 6 x00 -> gap2 = replicate 4 x00 -> tail = replicate (Z.to_nat 3870) x00 ->
  words_ok size w -> name_ok (sw_target_name_bytes w) name ->
  parse_superblock bs size = Ok (superblock_of w name).
Proof.
  intros H1 H2 H3 [] (t & Hnm & Hlt & Hnul & Hutf). unfold parse_superblock, parse_with.
  pose proof (layout_length w gap1 gap2 name tail Hg1 Hg2 Hname Htail) as Hlen.
  destruct (layout_zero w gap1 gap2 name tail tt tt tt Hg1 Hg2 Hname Htail) as (Hz1 & Hz2 & Hz3).
  ok_goal; [by apply Hz1|]. ok_goal; [by apply Hz2|]. ok_goal; [by apply Hz3|].
  match goal with |- fst (run (bind read_superblock_words ?k) ?c) = _ =>
    destruct (read_words w gap1 gap2 (name ++ tail) c k Hw Hg1 Hg2) as [c1 Hrun];
      [apply wire_cursor_ok; subst bs; by rewrite Hlen|done|rewrite Hrun; clear Hrun] end.
  destruct Hw. unfold in_u8, in_u16, in_u32, in_u64 in *.
  do 3 (ok_goal; [lia|]). ok_goal; [apply checked_add_ok; lia|].
  ok_goal; [lia|]. ok_goal; [rewrite wk_chunk_power0; lia|].
  ok_goal; [apply negb_false_iff, known_flags_spec; unfold in_u32; lia|].
  ok_goal; [lia|]. ok_goal; [apply checked_add_ok; unfold TARGET_NAME_OFFSET, usize_max, u64_max, TARGET_NAME_BYTES in *; lia|].
  ok_goal; [apply (layout_name w gap1 gap2 name tail Hg1 Hg2 Hname); [lia|done|eauto]|].
  ok_goal; [by rewrite Hutf, (proj2 (existsb_zero t) Hnul)|].
  ok_goal; [by apply (layout_padding w gap1 gap2 name tail Hg1 Hg2 Hname t _ tt Hnm Hlt)|].
  do 3 (ok_goal; [apply checked_region_ok; [lia..|split; [reflexivity|lia]]|]).
  do 2 (ok_goal; [cbn; lia|]). unfold superblock_of. by rewrite Hnm.
Qed.

End exact.

Lemma superblock_of_words sb :
  sb_directory sb = mkRegion (rg_offset (sb_directory sb))
    (rg_offset (sb_directory sb) + sb_directory_entries sb * FLIGHT_DIRECTORY_ENTRY_BYTES) ->
  sb_emergencies sb = mkRegion (rg_offset (sb_emergencies sb))
    (rg_offset (sb_emergencies sb) + sb_emergency_count sb * FLIGHT_EMERGENCY_SLOT_BYTES) ->
  sb_chunks sb = mkRegion (rg_offset (sb_chunks sb))
    (rg_offset (sb_chunks sb) + sb_chunk_count sb * sb_chunk_bytes sb) ->
  superblock_of (words_of sb) (sb_target sb) = sb.
Proof.
  destruct sb. cbn. intros Hd He Hc. unfold superblock_of, words_of. cbn. f_equal; by symmetry.
Qed.

Lemma superblock_words size sb :
  superblock_ok size sb -> words_range (words_of sb) /\ words_ok size (words_of sb).
Proof.
  intros []. destruct so_directory0 as (Hd & ? & ?), so_emergencies0 as (He & ? & ?),
    so_chunks0 as (Hc & ? & ? & ?), so_chunk_bytes0 as [? Hpow%is_power_of_two_spec],
    so_target0 as (? & ? & ? & ? & ?).
  apply (f_equal rg_end) in Hd, He, Hc. cbn [rg_end] in Hd, He, Hc.
  wire_consts. assert (0 <= sb_chunk_count sb * sb_chunk_bytes sb) by nia.
  split; split; cbn; machine; wire_consts; done || lia.
Qed.

Lemma parse_superblock_sound (bs : bytes) (size : Z) (sb : Superblock) :
  zlen bs = FLIGHT_SUPERBLOCK_BYTES -> parse_superblock bs size = Ok sb ->
  superblock_ok size sb /\ bs = encode_superblock sb.
Proof.
  intros Hlen. destruct (words_decompose bs Hlen) as (w & gap1 & gap2 & name & tail & -> & Hw & Hg1 & Hg2 & Hn & Ht).
    intros H. destruct (layout_sound w gap1 gap2 name tail size Hw Hg1 Hg2 Hn Ht sb H)
      as ((-> & -> & ->) & Hok & Hname & ->).
    destruct Hok, Hw. split.
    + destruct Hname as (t & -> & Hlt & ? & ?).
      split; cbn; unfold in_u8, in_u16, in_u32, in_u64 in *; try (done || lia).
      * exists t. rewrite Hlt. done.
      * rewrite wk_entry_bytes0. split; [done|lia].
      * rewrite wk_slot_bytes0. split; [done|lia].
      * split; [lia|by apply is_power_of_two_spec].
      * split; [done|lia].
    + unfold encode_superblock. f_equal. unfold words_of, superblock_of. cbn. destruct w. cbn in *. congruence.
Qed.

(** C37: the superblock parser accepts a 4096-byte block exactly when it is the
    encoding of a superblock whose regions are aligned, disjoint, in order and
    inside the artifact, whose target name is non-empty UTF-8 without NUL, zero
    padded, and whose reserved bytes are zero; it returns that superblock. *)
Theorem superblock_exact (bs : bytes) (size : Z) (sb : Superblock)
    (Hlen : zlen bs = FLIGHT_SUPERBLOCK_BYTES) :
  parse_superblock bs size = Ok sb <-> superblock_ok size sb /\ bs = encode_superblock sb.
Proof.
  split; [by apply parse_superblock_sound|].
  intros [Hok ->]. destruct (superblock_words size sb Hok) as [Hrange Hwords].
  destruct Hok. destruct so_target0 as (t & Htgt & Hlt & ? & ?).
  rewrite <- (superblock_of_words sb) at 2; [|tauto..].
  apply layout_complete; [done..| | | | | |done|]; rewrite ?zlen_replicate; try done.
  + rewrite Htgt, zlen_app, zlen_replicate. unfold TARGET_NAME_BYTES in *. lia.
  + exists t. cbn. rewrite Htgt, Hlt. tauto.
Qed.

Definition sample_name : bytes := [x6c; x69; x62; x61].
Definition sample_superblock : Superblock :=
  mkSuperblock 8 7 42 1 (sample_name ++ replicate (Z.to_nat (TARGET_NAME_BYTES - 4)) x00) 4 16384
    (mkRegion 4096 4160) 1 (mkRegion 8192 16384) 4096 2 (mkRegion 4160 4416) 2 0.

Lemma sample_superblock_ok : superblock_ok 16384 sample_superblock.
Proof.
  split; cbn; try done; try (unfold u64_max, u32_max; lia).
  - exists sample_name. split_and!; [done..| |done]. rewrite <- existsb_zero. done.
  - split; [done|]. exists 12. done.
Qed.

Lemma superblock_exact_witness :
  zlen (encode_superblock sample_superblock) = FLIGHT_SUPERBLOCK_BYTES
  /\ parse_superblock (encode_superblock sample_superblock) 16384 = Ok sample_superblock.
Proof.
  assert (zlen (encode_superblock sample_superblock) = FLIGHT_SUPERBLOCK_BYTES) as Hlen
    by (vm_compute; reflexivity).
  split; [exact Hlen|]. apply (superblock_exact _ _ _ Hlen).
  split; [exact sample_superblock_ok|reflexivity].
Defined.

(** ** Directory entries and chunk headers *)

Definition encode_directory (tid state first last chunk generation : Z) (reserved : bytes) : bytes :=
  le_bytes 4 tid ++ le_bytes 4 state ++ le_bytes 8 first ++ le_bytes 8 last ++ le_bytes 4 chunk
  ++ le_bytes 4 generation ++ reserved.

(** What the scanner learns from a directory entry. *)
Record directory_ok (index chunk_count : Z) (e : DirectoryEntry) : Prop := mkDirectoryOk {
  do_index : de_index e = index;
  do_tid : 0 < de_tid e <= u32_max;
  do_state : de_state e = 1 \/ de_state e = 2 /\ de_range_reliable e = false;
  do_range : (de_first_sequence e = 0 /\ de_last_sequence e = 0)
    \/ (de_range_reliable e = true /\ 0 < de_first_sequence e <= de_last_sequence e
        /\ de_last_sequence e <= u64_max);
  do_chunk : (de_chunk_index e = INVALID_INDEX /\ de_generation e = 0)
    \/ (0 <= de_chunk_index e < chunk_count /\ 0 < de_generation e <= u32_max)
}.

Lemma parse_directory_ok bs index chunk_count offset e :
  zlen bs = FLIGHT_DIRECTORY_ENTRY_BYTES ->
  parse_directory bs index chunk_count offset = Ok (Some e) -> directory_ok index chunk_count e.
Proof.
  intros H Hp. pose proof H as Hlen. wire_consts.
  take_field 4%nat tid H. take_field 4%nat state H. take_field 8%nat lo H.
  take_field 8%nat hi H. take_field 4%nat chunk H. take_field 4%nat gener H.
  unfold parse_directory, parse_with in Hp. revert Hp.
  match goal with |- fst (run _ ?c) = _ -> _ =>
    assert (wire_ok c) as Hc by (apply wire_cursor_ok; rewrite Hlen; done);
    assert (wire_rest c = wc_bytes c) as Hr by done; cbn in Hr end.
  assert (in_u32 tid /\ in_u32 state /\ in_u64 lo /\ in_u64 hi /\ in_u32 chunk /\ in_u32 gener)
    as (?&?&?&?&?&?) by (machine; lia).
  do 6 wire_read Hc Hr. destruct (Z.eqb_spec state 0); [done|].
  intros Hp. ok_step Hp. ok_step Hp. ok_step Hp. destruct x.
  destruct (Z.eqb_spec state 2); cbn in Hp.
  { injection Hp as <-. split; cbn; machine; try lia; tauto. }
  set (reliable := negb _) in Hp.
  destruct (Z.eqb_spec chunk INVALID_INDEX); apply step_fail_if in Hp as [Hg2 Hp]; cbn in Hp;
    injection Hp as <-; split; cbn; unfold in_u32, in_u64 in *; try lia;
    subst reliable; destruct (Z.eqb_spec lo 0), (Z.eqb_spec hi 0), (Z.gtb_spec lo hi); cbn; lia.
Qed.

Record chunk_header_ok (h : ChunkHeader) : Prop := mkChunkHeaderOk {
  co_state : ch_state h = 1 \/ ch_state h = 2;
  co_tid : 0 < ch_tid h <= u32_max;
  co_generation : 0 < ch_generation h <= u32_max;
  co_first : in_u64 (ch_first_sequence h);
  co_last : in_u64 (ch_last_sequence h);
  co_committed : in_u32 (ch_committed_bytes h);
  co_count : in_u32 (ch_record_count h);
  co_checksum : in_u32 (ch_checksum h)
}.

Definition encode_chunk_header (index : Z) (h : ChunkHeader) : bytes :=
  le_bytes 4 FLIGHT_MAGIC ++ le_bytes 2 FLIGHT_VERSION ++ le_bytes 2 FLIGHT_CHUNK_HEADER_BYTES
  ++ le_bytes 4 index ++ le_bytes 4 (ch_state h) ++ le_bytes 4 (ch_tid h)
  ++ le_bytes 4 (ch_generation h) ++ le_bytes 8 (ch_first_sequence h)
  ++ le_bytes 8 (ch_last_sequence h) ++ le_bytes 4 (ch_committed_bytes h)
  ++ le_bytes 4 (ch_record_count h) ++ le_bytes 4 (ch_checksum h) ++ replicate 12 x00.

(** Turn a run on a cursor of its own into reads from known bytes. *)
Ltac open_parse Hc Hr :=
  match goal with |- context [run _ (wire_cursor ?bs ?co ?l)] =>
    assert (wire_ok (wire_cursor bs co l)) as Hc
      by (apply wire_cursor_ok; rewrite ?zlen_app, ?zlen_le_bytes, ?zlen_replicate, ?zlen_nil;
          unfold u64_max; cbn; lia);
    assert (wire_rest (wire_cursor bs co l) = bs) as Hr by done end.

Lemma chunk_header_sound bs index offset h :
  zlen bs = FLIGHT_CHUNK_HEADER_BYTES ->
  parse_chunk_header bs index offset = Ok (Some h) ->
  chunk_header_ok h /\ bs = encode_chunk_header index h.
Proof.
  intros H Hp. wire_consts.
  take_field 4%nat magic H. take_field 2%nat version H. take_field 2%nat header H.
  take_field 4%nat idx H. take_field 4%nat state H. take_field 4%nat tid H.
  take_field 4%nat gener H. take_field 8%nat lo H. take_field 8%nat hi H.
  take_field 4%nat committed H. take_field 4%nat count H. take_field 4%nat checksum H.
  match type of H with zlen ?r = _ => rename r into reserved end.
  unfold parse_chunk_header, parse_with in Hp. revert Hp. open_parse Hc Hr.
  assert (in_u32 magic /\ in_u16 version /\ in_u16 header /\ in_u32 idx /\ in_u32 state /\ in_u32 tid
    /\ in_u32 gener /\ in_u64 lo /\ in_u64 hi /\ in_u32 committed /\ in_u32 count /\ in_u32 checksum)
    as (?&?&?&?&?&?&?&?&?&?&?&?) by (machine; lia).
  do 12 wire_read Hc Hr. destruct (Z.eqb_spec state 0); [done|].
  intros Hp. do 2 ok_step Hp. apply step_result in Hp as (u & Hz & Hp). ok_step Hp.
  cbn in Hp. injection Hp as <-.
  assert (magic = FLIGHT_MAGIC /\ version = FLIGHT_VERSION /\ header = FLIGHT_CHUNK_HEADER_BYTES
          /\ idx = index) as (-> & -> & -> & ->) by (wire_consts; lia).
  match type of Hz with require_zero ?bs _ _ _ _ = _ =>
    assert (exists a, bs = a ++ reserved ++ [] /\ zlen a = 52) as (a & Ha & Hla) end.
  { exists (le_bytes 4 FLIGHT_MAGIC ++ le_bytes 2 FLIGHT_VERSION
            ++ le_bytes 2 FLIGHT_CHUNK_HEADER_BYTES ++ le_bytes 4 index ++ le_bytes 4 state
            ++ le_bytes 4 tid ++ le_bytes 4 gener ++ le_bytes 8 lo ++ le_bytes 8 hi
            ++ le_bytes 4 committed ++ le_bytes 4 count ++ le_bytes 4 checksum).
    split; [by rewrite app_nil_r, <- !app_assoc|]. by rewrite !zlen_app, !zlen_le_bytes. }
  rewrite (require_zero_ok _ _ _ _ _ a reserved [] u Ha Hla) in Hz
    by (wire_consts; lia).
  split; [split; cbn; unfold in_u32, in_u64 in *; lia|].
  unfold encode_chunk_header. cbn [ch_state ch_tid ch_generation ch_first_sequence ch_last_sequence
    ch_committed_bytes ch_record_count ch_checksum].
  rewrite Hz. by replace (length reserved) with 12%nat by (unfold zlen in H; lia).
Qed.

Record record_header_ok (h : RecordHeader) : Prop := mkRecordHeaderOk {
  ro_kind : in_u16 (rh_kind h);
  ro_flags : in_u16 (rh_flags h);
  ro_total : in_u32 (rh_total_bytes h);
  ro_sequence : in_u64 (rh_sequence h);
  ro_checksum : in_u32 (rh_checksum h);
  ro_commit : in_u32 (rh_commit h)
}.

Definition encode_record_header (h : RecordHeader) : bytes :=
  le_bytes 2 (rh_kind h) ++ le_bytes 2 (rh_flags h) ++ le_bytes 4 (rh_total_bytes h)
  ++ le_bytes 8 (rh_sequence h) ++ le_bytes 4 (rh_checksum h) ++ le_bytes 4 (rh_commit h).

(** Every 24-byte block is a record header. *)
Lemma record_header_total bs coordinate :
  zlen bs = FLIGHT_RECORD_HEADER_BYTES ->
  exists h, parse_flight_record_header bs coordinate = Ok h /\ record_header_ok h
    /\ bs = encode_record_header h.
Proof.
  intros H. wire_consts.
  take_field 2%nat kind H. take_field 2%nat flags H. take_field 4%nat ttl H.
  take_field 8%nat sequence H. take_field 4%nat checksum H. take_field 4%nat commit H.
  match type of H with zlen ?r = _ => destruct r; [|discriminate H || (unfold zlen in H; cbn in H; lia)] end.
  exists (mkRecordHeader kind flags ttl sequence checksum commit).
  assert (in_u16 kind /\ in_u16 flags /\ in_u32 ttl /\ in_u64 sequence /\ in_u32 checksum /\ in_u32 commit)
    as (?&?&?&?&?&?) by (machine; lia).
  split_and!; [|by split|unfold encode_record_header; cbn; by rewrite app_nil_r].
  unfold parse_flight_record_header, parse_with. open_parse Hc Hr. do 6 wire_read Hc Hr. done.
Qed.

Lemma zlen_record_header h : zlen (encode_record_header h) = FLIGHT_RECORD_HEADER_BYTES.
Proof. unfold encode_record_header. by rewrite !zlen_app, !zlen_le_bytes. Qed.

Lemma record_header_read h coordinate :
  record_header_ok h -> parse_flight_record_header (encode_record_header h) coordinate = Ok h.
Proof.
  intros []. unfold parse_flight_record_header, parse_with, encode_record_header.
  rewrite <- (app_nil_r (le_bytes 4 (rh_commit h))). open_parse Hc Hr. do 6 wire_read Hc Hr.
  by destruct h.
Qed.

(** ** Checksums *)

Definition FNV_INVERSE : Z := 899433627.

Lemma xor_range v b : in_u32 v -> in_u32 (Z.lxor v (Z_of_byte b)).
Proof.
  intros Hv. pose proof (Z_of_byte_range b). machine.
  assert (0 <= Z.lxor v (Z_of_byte b)) as Hn by (apply Z.lxor_nonneg; lia).
  split; [done|]. assert (Z.shiftr (Z.lxor v (Z_of_byte b)) 32 = 0) as Hs.
  { rewrite Z.shiftr_lxor, !Z.shiftr_div_pow2, !Z.div_small by lia. done. }
  rewrite Z.shiftr_div_pow2 in Hs by lia. apply Z.div_small_iff in Hs; lia.
Qed.

Lemma fnv32_step_range v b : in_u32 (fnv32_step v b).
Proof.
  unfold fnv32_step, wrapping_mul, in_u32.
  pose proof (Z.mod_pos_bound (Z.lxor v (Z_of_byte b) * FNV_PRIME) (u32_max + 1) ltac:(done)). lia.
Qed.

Lemma fnv32_update_range v bs : in_u32 v -> in_u32 (fnv32_update v bs).
Proof.
  revert v. induction bs as [|b bs IH]; intros v Hv; [done|]. apply IH, fnv32_step_range.
Qed.

(** The prime is odd, so a step can be undone. *)
Lemma fnv32_step_undo v b :
  in_u32 v -> wrapping_mul u32_max (fnv32_step v b) FNV_INVERSE = Z.lxor v (Z_of_byte b).
Proof.
  intros Hv. pose proof (xor_range v b Hv) as Hx. unfold fnv32_step. machine.
  rewrite Z.mul_mod_idemp_l, <- Z.mul_assoc by lia.
  rewrite <- Z.mul_mod_idemp_r by lia.
  change (FNV_PRIME * FNV_INVERSE mod (4294967295 + 1)) with 1.
  rewrite Z.mul_1_r. apply Z.mod_small. lia.
Qed.

Lemma fnv32_step_inj_value v v' b :
  in_u32 v -> in_u32 v' -> fnv32_step v b = fnv32_step v' b -> v = v'.
Proof.
  intros Hv Hv' H. apply (f_equal (fun z => wrapping_mul u32_max z FNV_INVERSE)) in H.
  rewrite !fnv32_step_undo in H by done.
  apply (f_equal (fun z => Z.lxor z (Z_of_byte b))) in H.
  by rewrite !Z.lxor_assoc, !Z.lxor_nilpotent, !Z.lxor_0_r in H.
Qed.

Lemma fnv32_step_inj_byte v b b' :
  in_u32 v -> fnv32_step v b = fnv32_step v b' -> b = b'.
Proof.
  intros Hv H. apply (f_equal (fun z => wrapping_mul u32_max z FNV_INVERSE)) in H.
  rewrite !fnv32_step_undo in H by done.
  apply (f_equal (fun z => Z.lxor v z)) in H.
  rewrite <- !Z.lxor_assoc, !Z.lxor_nilpotent, !Z.lxor_0_l in H. by apply Z_of_byte_inj.
Qed.

Lemma fnv32_update_inj v v' bs :
  in_u32 v -> in_u32 v' -> fnv32_update v bs = fnv32_update v' bs -> v = v'.
Proof.
  revert v v'. induction bs as [|b bs IH]; intros v v' Hv Hv' H; [done|].
  eapply fnv32_step_inj_value; [done..|]. eapply IH; [apply fnv32_step_range..|done].
Qed.

(** Changing one byte changes the checksum of what contains it. *)
Lemma fnv32_update_detects v bs i x y :
  in_u32 v -> bs !! i = Some x -> x <> y -> fnv32_update v (<[i := y]> bs) <> fnv32_update v bs.
Proof.
  intros Hv Hi Hxy. rewrite <- (take_drop_middle bs i x Hi) at 2.
  rewrite insert_take_drop by (by eapply lookup_lt_Some). unfold fnv32_update.
  rewrite !foldl_app. cbn. intros H.
  apply fnv32_update_inj in H; [|apply fnv32_step_range..].
  apply fnv32_step_inj_byte in H; [done|]. by apply (fnv32_update_range v).
Qed.

(** The bytes of a record its checksum covers. *)
Definition covered (header payload : bytes) : bytes := take 16 header ++ payload.

Lemma record_checksum_covered header payload :
  zlen header = FLIGHT_RECORD_HEADER_BYTES ->
  record_checksum header payload = Some (fnv32 (covered header payload)).
Proof.
  intros Hh. unfold record_checksum, slice_get. rewrite Hh. cbn.
  unfold slice, covered, fnv32, fnv32_update. by rewrite foldl_app.
Qed.

(** The record checksum detects every corruption of a single byte: two records
    whose type, flags, length, sequence and payload differ in exactly one byte
    never carry the same checksum. *)
Theorem record_checksum_detects (header header' payload payload' : bytes) (i : nat) (x y : byte)
    (Hh : zlen header = FLIGHT_RECORD_HEADER_BYTES) (Hh' : zlen header' = FLIGHT_RECORD_HEADER_BYTES)
    (Hi : covered header payload !! i = Some x) (Hxy : x <> y)
    (Hdiff : covered header' payload' = <[i := y]> (covered header payload)) :
  record_checksum header' payload' <> record_checksum header payload.
Proof.
  rewrite !record_checksum_covered, Hdiff by done. intros [= H].
  eapply fnv32_update_detects; [| |exact Hxy|exact H]; [|done]. done.
Qed.

Lemma record_checksum_detects_witness :
  record_checksum (replicate 24 x01) [x02; x03] <> record_checksum (replicate 24 x01) [x02; x04].
Proof.
  apply (record_checksum_detects _ _ _ _ 17 x04 x03); vm_compute; (reflexivity || discriminate).
Defined.
