(* ===== verification/FlightContext.v ===== *)
(** * Recovery context

    Models the parts of [qtrace-provider/src/flight/mod.rs] and [recovery.rs]
    every recovery step goes through: the allocation wrappers with Flight's
    error context, vectors that grow under the guard, the checkpoint and the
    [RecoveryContext] that reads the source and counts what it read. *)

From stdpp Require Import prelude list strings pretty.
From Stdlib Require Import ZArith Lia Strings.Byte.
From S2P Require Import Prelude Prog Control Model Source FlightWire.
Local Open Scope string_scope.
Local Open Scope list_scope.
Local Open Scope Z_scope.

(** ** Vectors with their capacity *)

Record Vec (A : Type) := mkVec { v_items : list A; v_capacity : Z }.
Arguments mkVec {A}.
Arguments v_items {A}.
Arguments v_capacity {A}.

Definition vec_new {A} : Vec A := mkVec [] 0.
(** [Vec::clear] keeps the capacity. *)
Definition vec_clear {A} (v : Vec A) : Vec A := mkVec [] (v_capacity v).

Definition allocation_error (detail : string) : ProviderError :=
  ProviderError_new "source.flight.resource" "flight.recovery" None false detail.

Section allocation.
Context {W : Type} `{WorkGuard W} `{Allocator W} {S : Type}.
Abbreviation M := (Prog W ProviderError S).

(** [allocation::try_reserve_vec_exact] *)
Definition flight_reserve_vec {A} (t : RustType) (v : Vec A) (capacity : Z) (detail : string) :
    M (Vec A) :=
  let! cap := try_reserve_vec_exact_in t (v_capacity v) (zlen (v_items v)) capacity detail
                FLIGHT_RECOVERY_ALLOCATION in
  ret (mkVec (v_items v) cap).

(** [allocation::try_push_vec] *)
Definition flight_push {A} (t : RustType) (v : Vec A) (value : A) (detail : string) : M (Vec A) :=
  let! r := try_push_vec_in t (v_items v) (v_capacity v) value detail FLIGHT_RECOVERY_ALLOCATION in
  ret (mkVec (fst r) (snd r)).

(** [allocation::try_copy_string] *)
Definition flight_copy_string (value : bytes) (detail : string) : M bytes :=
  try_copy_string_in value detail FLIGHT_RECOVERY_ALLOCATION.

(** [allocation::try_reserve_hash_map] *)
Definition flight_reserve_map (id : MapId) (t : RustType) (len additional : Z) (detail : string) :
    M unit :=
  try_reserve_hash_map_in id t len additional detail FLIGHT_RECOVERY_ALLOCATION.

(** [guarded_push] *)
Definition guarded_push {A} (t : RustType) (output : Vec A) (value : A) : M (Vec A) :=
  flight_push t output value "Flight vector growth failed".

(** [guarded_push_without_charge] *)
Definition guarded_push_without_charge {A} (output : Vec A) (value : A) : M (Vec A) :=
  fail_if (zlen (v_items output) =? v_capacity output)
    (allocation_error "Flight fixed-capacity vector count mismatch") ;!
  ret (mkVec (v_items output ++ [value]) (v_capacity output)).

(** [fallible_vec] *)
Definition fallible_vec {A} (t : RustType) (capacity : Z) : M (Vec A) :=
  flight_reserve_vec t vec_new capacity "Flight recovery allocation failed".

Definition guard_checkpoint (index : Z) : M unit :=
  let! interval := lift_option (try_from usize_max MAX_UNGUARDED_RECORDS)
    (allocation_error "Flight checkpoint interval does not fit host") in
  if index mod interval =? 0 then consume WorkDelta_default else ret tt.

(** [fallible_none_vec]; pushes stay inside the reserved capacity. *)
Definition fallible_none_vec {A} (t : RustType) (length : Z) : M (Vec (option A)) :=
  let! output := fallible_vec t length in
  fold_each (seq 0 (Z.to_nat length)) output (fun output index =>
    guard_checkpoint (Z.of_nat index) ;!
    ret (mkVec (v_items output ++ [None]) (v_capacity output))).

(** [fallible_hash_map]: a fresh table. *)
Definition fallible_hash_map (id : MapId) (t : RustType) (capacity : Z) : M unit :=
  flight_reserve_map id t 0 capacity "Flight recovery hash allocation failed".

Definition indexed_offset (base index stride : Z) (detail : string) : M Z :=
  lift_option (value ← checked_mul u64_max index stride; checked_add u64_max base value)
    (allocation_error detail).

End allocation.

(** ** The context *)

Record RecoveryContext := mkRecoveryContext {
  fx_counters : ProviderCounters;
  fx_next_ordinal : Z
}.

Definition counters_default : ProviderCounters := mkCounters 0 0 0 0 0 0.

(** [counters.input_bytes.saturating_add(n)] *)
Definition count_input (n : Z) (x : RecoveryContext) : RecoveryContext :=
  let c := fx_counters x in
  mkRecoveryContext
    (mkCounters (pc_records_seen c) (pc_events_emitted c) (pc_opaque_records c)
       (pc_damaged_records c) (saturating_add u64_max (pc_input_bytes c) n)
       (pc_decompressed_bytes c)) (fx_next_ordinal x).
Definition count_seen (x : RecoveryContext) : RecoveryContext :=
  let c := fx_counters x in
  mkRecoveryContext
    (mkCounters (saturating_add u64_max (pc_records_seen c) 1) (pc_events_emitted c)
       (pc_opaque_records c) (pc_damaged_records c) (pc_input_bytes c)
       (pc_decompressed_bytes c)) (fx_next_ordinal x).
Definition count_damaged (n : Z) (x : RecoveryContext) : RecoveryContext :=
  let c := fx_counters x in
  mkRecoveryContext
    (mkCounters (pc_records_seen c) (pc_events_emitted c) (pc_opaque_records c)
       (saturating_add u64_max (pc_damaged_records c) n) (pc_input_bytes c)
       (pc_decompressed_bytes c)) (fx_next_ordinal x).
Definition set_next_ordinal (n : Z) (x : RecoveryContext) : RecoveryContext :=
  mkRecoveryContext (fx_counters x) n.

(** The error a failed read is reported as. *)
Definition read_error (e : ProviderError) (stage : string) (coordinate : SourceCoordinate) :
    ProviderError :=
  ProviderError_new (pe_code e) stage (Some coordinate) (pe_retryable e) (error_detail e).

Section reads.
Context {W : Type} `{WorkGuard W} `{Allocator W} (source : ReadAtSource).
Abbreviation R := (Prog W ProviderError RecoveryContext).

Definition read_into (offset size : Z) (stage : string) (ordinal : option Z) : R bytes :=
  consume (mkWorkDelta size 0 0 0 0 0) ;!
  let! output := lift_result
    (map_err (fun e => read_error e stage (mkCoordinate offset ordinal))
       (src_read source offset size)) in
  modify (count_input size) ;!
  ret output.

Definition read_array (size offset : Z) (stage : string) (ordinal : option Z) : R bytes :=
  read_into offset size stage ordinal.

Definition read_event_payload (offset size : Z) (coordinate : SourceCoordinate) : R bytes :=
  let! length := lift_option (try_from usize_max size)
    (flight_record_error coordinate "payload does not fit this host") in
  consume (mkWorkDelta size 0 1 0 0 0) ;!
  flight_reserve_vec (A := byte) T_u8 vec_new length "Flight payload allocation failed" ;!
  let! output := lift_result
    (map_err (fun e => read_error e "flight.record" coordinate) (src_read source offset length)) in
  modify (count_input size) ;!
  ret output.

(** The block of [checksum_region]'s buffer. *)
Definition CHECKSUM_BLOCK : Z := 4096.

(** [while relative < size]; every turn moves [relative] forward. *)
Fixpoint checksum_loop (fuel : nat) (offset size checksum relative : Z) : R Z :=
  match fuel with
  | O => throw (ProviderError_new "model.fuel" "model" None false "")
  | Datatypes.S fuel =>
      if relative <? size then
        consume WorkDelta_default ;!
        let! amount := lift_option (try_from usize_max (Z.min (size - relative) CHECKSUM_BLOCK))
          (allocation_error "checksum block length overflow") in
        fail_if (amount >? CHECKSUM_BLOCK) (allocation_error "checksum block bounds invalid") ;!
        let! destination := read_into (offset + relative) amount "flight.chunk.checksum" None in
        let! relative := lift_option (checked_add u64_max relative amount)
          (allocation_error "checksum cursor overflow") in
        checksum_loop fuel offset size (fnv32_update checksum destination) relative
      else ret checksum
  end.

Definition checksum_region (offset size : Z) : R Z :=
  checksum_loop (Datatypes.S (Z.to_nat size)) offset size FNV_OFFSET 0.

End reads.

(** ** Rules *)

(** Vectors the unrefused heap always extends. *)
Definition roomy {A} (v : Vec A) : Prop := v_capacity v <= 2 ^ 62.

(** The errors the host can cause: the guard aborts, the heap refuses or a count
    leaves the machine's range.  Nothing in the data causes one. *)
Definition host_details : list string :=
  ["allocation byte count overflow"; "vector length overflow"; "vector capacity overflow";
   "Flight vector growth failed"; "damage sweep work overflow"; "sequence proof work overflow"].

Definition host_error (e : ProviderError) : Prop :=
  (exists a, e = from_abort a) \/ (exists d, d ∈ host_details /\ e = allocation_error d).

Lemma host_abort a : host_error (from_abort a).
Proof. left. by exists a. Qed.

Lemma host_detail d : bool_decide (d ∈ host_details) = true -> host_error (allocation_error d).
Proof. intros Hd%bool_decide_eq_true. right. by exists d. Qed.

#[export] Hint Resolve host_abort : qtrace.
#[export] Hint Extern 1 (host_error (allocation_error _)) => apply host_detail; reflexivity : qtrace.
#[export] Hint Extern 1 (host_error (context_error FLIGHT_RECOVERY_ALLOCATION _)) =>
  apply host_detail; reflexivity : qtrace.

(** The codes a recovery ends with, for a source that keeps its contract.  The
    fuel of the model's loops is not among them. *)
Definition recovery_codes : list string :=
  ["control.cancelled"; "control.budget_exceeded"; "control.resource_exhausted"; "source.flight.resource";
   "source.short_read"; "source.flight.invalid_length"; "source.flight.superblock";
   "source.flight.directory"; "source.flight.chunk"; "source.flight.record";
   "source.flight.record_checksum"; "source.flight.sequence"; "source.flight.payload"].

Definition recovery_error (e : ProviderError) : Prop := pe_code e ∈ recovery_codes.

(** A code of the list, by computation. *)
Lemma recovery_code e : bool_decide (pe_code e ∈ recovery_codes) = true -> recovery_error e.
Proof. apply bool_decide_eq_true. Qed.

Lemma recovery_resource e : resource_error e -> recovery_error e.
Proof. unfold resource_error, recovery_error, recovery_codes. rewrite !elem_of_cons. intuition. Qed.

Lemma recovery_host e : host_error e -> recovery_error e.
Proof.
  intros [[a ->]|(d & _ & ->)]; [apply recovery_resource, from_abort_resource|by apply recovery_code].
Qed.

Lemma host_resource e : host_error e -> resource_error e.
Proof.
  intros [[a ->]|(d & _ & ->)]; [apply from_abort_resource|]. unfold resource_error. cbn. set_solver.
Qed.

#[export] Hint Extern 0 (recovery_error _) => apply recovery_code; reflexivity : core.
#[export] Hint Immediate recovery_resource recovery_host : core.

(** An error of the code: its code is in the list. *)
Ltac genuine := intros; cbv beta; solve [auto].

Section vec_rules.
Context {W : Type} `{WorkGuard W} `{Allocator W} {S A : Type}.
Implicit Types (v : Vec A) (R : ProviderError -> S -> Prop).

Lemma wp_charge d (Q : unit -> S -> Prop) R s :
  Q tt s -> (forall e, host_error e -> R e s) -> wp (W := W) (consume d) Q R s.
Proof.
  intros HQ HR w. unfold consume. destruct (guard_consume d w) as [[[]|a] w']; [done|].
  apply HR, host_abort.
Qed.

Lemma wp_flight_reserve t v n detail (Q : Vec A -> S -> Prop) R s :
  (forall cap, Q (mkVec (v_items v) cap) s) -> (forall e, resource_error e -> R e s) ->
  wp (W := W) (flight_reserve_vec t v n detail) Q R s.
Proof. intros HQ HR. apply wp_bind, wp_reserve_vec; [apply _|intros cap; apply wp_ret, HQ|done]. Qed.

(** Growing a vector fails only through the host. *)
Lemma wp_grow t cap len n detail (Q : Z -> S -> Prop) R s :
  bool_decide (detail ∈ host_details) = true ->
  (forall cap, Q cap s) -> (forall e, host_error e -> R e s) ->
  wp (W := W) (try_reserve_vec_exact_in t cap len n detail FLIGHT_RECOVERY_ALLOCATION) Q R s.
Proof.
  intros Hd HQ HR. unfold try_reserve_vec_exact_in, checked_vec_capacity_in, checked_array_bytes_in.
  case_match; [by apply wp_ret|]. apply wp_bind, wp_bind, wp_option.
  destruct (array_bytes t n) eqn:E; [|apply HR; auto with qtrace].
  apply wp_ret, wp_bind, wp_option. rewrite E. intros w. unfold allocation_scope.
  destruct (guard_begin_scope _ _ w) as [[[]|a] w']; [|apply HR, host_abort].
  unfold heap_grow. destruct (vec_grow _ _ w') as [[c|] w'']; [apply HQ|].
  apply HR. by apply (host_detail detail).
Qed.

Lemma wp_guarded_push t v x (Q : Vec A -> S -> Prop) R s :
  (forall cap, Q (mkVec (v_items v ++ [x]) cap) s) -> (forall e, host_error e -> R e s) ->
  wp (W := W) (guarded_push t v x) Q R s.
Proof.
  intros HQ HR. apply wp_bind, wp_bind.
  assert (forall cap, wp (W := W) (ret (v_items v ++ [x], cap))
    (fun r s => wp (W := W) (ret (mkVec (fst r) (snd r))) Q R s) R s) as Hret
    by (intros cap; apply wp_ret, wp_ret, HQ).
  case_match; [|by apply wp_ret].
  apply wp_bind, wp_option. destruct (checked_add _ _ _); [|apply HR; auto with qtrace].
  apply wp_bind, wp_result. unfold checked_geometric_capacity_in, ok_or.
  destruct (checked_mul _ _ _); [|apply HR; auto with qtrace].
  by apply wp_grow.
Qed.

Lemma wp_checkpoint i (Q : unit -> S -> Prop) R s :
  Q tt s -> (forall e, host_error e -> R e s) -> wp (W := W) (guard_checkpoint i) Q R s.
Proof.
  intros HQ HR. apply wp_bind, wp_option. cbn. case_match; [|by apply wp_ret].
  by apply wp_charge.
Qed.

End vec_rules.

(** The loop rule for loops that leave the receiver alone: an invariant over
    the elements already visited. *)
Lemma wp_fold_still {W E S X A} (I : list X -> A -> Prop) (xs : list X) (a : A)
    (f : A -> X -> Prog W E S A) (R : E -> S -> Prop) s :
  I [] a ->
  (forall before x after a, xs = before ++ x :: after -> I before a ->
     wp (f a x) (fun a' s' => s' = s /\ I (before ++ [x]) a') R s) ->
  wp (fold_each xs a f) (fun a' s' => s' = s /\ I xs a') R s.
Proof.
  intros H0 Hstep.
  enough (forall rest before a, I before a -> xs = before ++ rest ->
    wp (fold_each rest a f) (fun a' s' => s' = s /\ I xs a') R s) as Hgen by exact (Hgen xs [] a H0 eq_refl).
  clear H0 a. intros rest. induction rest as [|x rest IH]; intros before a Ha Hxs; cbn [fold_each].
  - apply wp_ret. rewrite app_nil_r in Hxs. by subst.
  - apply wp_bind. eapply wp_mono; [by apply (Hstep before x rest)| |done].
    intros a' s' [-> Ha']. apply (IH (before ++ [x])); [done|]. by rewrite <- app_assoc.
Qed.

(** The same for [iter().enumerate()], the invariant over the elements. *)
Lemma wp_fold_indexed {W E S X A} (I : list X -> A -> Prop) (xs : list X) (a : A)
    (f : A -> nat * X -> Prog W E S A) (R : E -> S -> Prop) s :
  I [] a ->
  (forall before x after a, xs = before ++ x :: after -> I before a ->
     wp (f a (length before, x)) (fun a' s' => s' = s /\ I (before ++ [x]) a') R s) ->
  wp (fold_each (imap pair xs) a f) (fun a' s' => s' = s /\ I xs a') R s.
Proof.
  intros H0 Hstep.
  enough (forall rest before a, I before a -> xs = before ++ rest ->
    wp (fold_each (imap (fun i => pair (length before + i)%nat) rest) a f)
      (fun a' s' => s' = s /\ I xs a') R s) as Hgen by exact (Hgen xs [] a H0 eq_refl).
  clear H0 a. intros rest. induction rest as [|x rest IH]; intros before a Ha Hxs; cbn [imap fold_each].
  - apply wp_ret. rewrite app_nil_r in Hxs. by subst.
  - apply wp_bind. rewrite Nat.add_0_r. eapply wp_mono; [by apply (Hstep before x rest)| |done].
    intros a' s' [-> Ha']. specialize (IH (before ++ [x]) a' Ha' ltac:(by rewrite <- app_assoc)).
    rewrite length_app in IH. cbn in IH. erewrite imap_ext; [exact IH|]. intros i y _. cbn. f_equal. lia.
Qed.

(** The loop rule with a changing receiver. *)
Lemma wp_fold_over {W E S X A} (I : list X -> A -> S -> Prop) (xs : list X) (a : A)
    (f : A -> nat * X -> Prog W E S A) (R : E -> S -> Prop) s :
  I [] a s ->
  (forall before x after a s, xs = before ++ x :: after -> I before a s ->
     wp (f a (length before, x)) (fun a' s' => I (before ++ [x]) a' s') R s) ->
  wp (fold_each (imap pair xs) a f) (fun a' s' => I xs a' s') R s.
Proof.
  intros H0 Hstep.
  enough (forall rest before a s, I before a s -> xs = before ++ rest ->
    wp (fold_each (imap (fun i => pair (length before + i)%nat) rest) a f) (fun a' s' => I xs a' s') R s)
    as Hgen by exact (Hgen xs [] a s H0 eq_refl).
  clear H0 a s. intros rest. induction rest as [|x rest IH]; intros before a s Ha Hxs; cbn [imap fold_each].
  - apply wp_ret. rewrite app_nil_r in Hxs. by subst.
  - apply wp_bind. rewrite Nat.add_0_r. eapply wp_mono; [by apply (Hstep before x rest)| |done].
    intros a' s' Ha'. specialize (IH (before ++ [x]) a' s' Ha' ltac:(by rewrite <- app_assoc)).
    rewrite length_app in IH. cbn in IH. erewrite imap_ext; [exact IH|]. intros i y _. cbn. f_equal. lia.
Qed.

(** A loop over plain elements with a changing receiver. *)
Lemma wp_fold_plain {W E S X A} (I : list X -> A -> S -> Prop) (xs : list X) (a : A)
    (f : A -> X -> Prog W E S A) (R : E -> S -> Prop) s :
  I [] a s ->
  (forall before y after a s, xs = before ++ y :: after -> I before a s ->
     wp (f a y) (fun a' s' => I (before ++ [y]) a' s') R s) ->
  wp (fold_each xs a f) (fun a' s' => I xs a' s') R s.
Proof.
  intros H1 Hstep.
  enough (forall rest before a s, I before a s -> xs = before ++ rest ->
    wp (fold_each rest a f) (fun a' s' => I xs a' s') R s) as Hgen by exact (Hgen xs [] a s H1 eq_refl).
  clear H1 a s. intros rest. induction rest as [|y rest IH]; intros before a s Ha Hxs; cbn [fold_each].
  - apply wp_ret. rewrite app_nil_r in Hxs. by subst.
  - apply wp_bind. eapply wp_mono; [by apply (Hstep before y rest)| |done].
    intros a' s' Ha'. apply (IH (before ++ [y])); [done|]. by rewrite <- app_assoc.
Qed.

Section vec_runs.
Context {S A : Type}.
Implicit Types v : Vec A.

Lemma run_flight_reserve t v n detail (s : S) :
  exists cap, run (flight_reserve_vec t v n detail) s = (Ok (mkVec (v_items v) cap), s).
Proof.
  destruct (run_reserve_vec_in t (v_capacity v) (zlen (v_items v)) n detail
    FLIGHT_RECOVERY_ALLOCATION s) as [cap Hcap].
  exists cap. unfold flight_reserve_vec. by rewrite (run_bind_ok _ _ _ _ _ Hcap).
Qed.

Lemma run_reserve_grow t cap len n detail c (s : S) :
  cap < n ->
  run (try_reserve_vec_exact_in (W := unit) t cap len n detail c) s = (Ok (len + saturating_sub n len), s).
Proof.
  intros Hn. unfold try_reserve_vec_exact_in. replace (n <=? cap) with false by lia.
  assert (array_bytes (W := unit) t n = Some 0) as Hb.
  { unfold array_bytes, checked_mul. cbn -[Z.mul usize_max]. by rewrite Z.mul_0_r. }
  unfold run, checked_vec_capacity_in, checked_array_bytes_in, lift_option, lift_result, bind.
  rewrite Hb. cbn. by rewrite Hb.
Qed.

(** A vector that still has room for as many elements as a host can hold. *)
Lemma run_guarded_push t v x (s : S) :
  roomy v -> 0 <= v_capacity v -> zlen (v_items v) < 2 ^ 61 ->
  exists cap, run (guarded_push t v x) s = (Ok (mkVec (v_items v ++ [x]) cap), s)
    /\ 0 <= cap <= 2 ^ 62.
Proof.
  intros Hroom Hcap Hlen. unfold roomy in Hroom. pose proof (zlen_nonneg (v_items v)).
  unfold guarded_push, flight_push, try_push_vec_in.
  destruct (Z.eqb_spec (zlen (v_items v)) (v_capacity v)) as [Heq|Hne].
  - set (n := Z.max (zlen (v_items v) + 1) (Z.max 4 (v_capacity v * 2))).
    exists (zlen (v_items v) + saturating_sub n (zlen (v_items v))).
    split; [|unfold saturating_sub; subst n; lia].
    rewrite (run_bind_ok _ _ _ (v_items v ++ [x], zlen (v_items v) + saturating_sub n (zlen (v_items v))) s);
      [done|].
    rewrite (run_bind_ok _ _ _ (zlen (v_items v) + saturating_sub n (zlen (v_items v))) s); [done|].
    rewrite (run_bind_ok _ _ _ (zlen (v_items v) + 1) s)
      by (unfold lift_option; by rewrite checked_add_ok by (unfold usize_max, u64_max; lia)).
    rewrite (run_bind_ok _ _ _ n s).
    + apply run_reserve_grow. subst n. lia.
    + unfold run, lift_result, checked_geometric_capacity_in, checked_mul.
      by replace (v_capacity v * 2 <=? usize_max) with true by (unfold usize_max, u64_max; lia).
  - exists (v_capacity v). split; [done|lia].
Qed.

Lemma run_guard_checkpoint i (s : S) : run (guard_checkpoint i) s = (Ok tt, s).
Proof. unfold guard_checkpoint, run, bind. cbn. by case_match. Qed.

End vec_runs.

Section read_rules.
Context (source : ReadAtSource) (content : bytes) {LS : LawfulSource source content}.

Section worlds.
Context {W : Type} `{WorkGuard W} `{Allocator W}.
Implicit Types (x : RecoveryContext) (R : ProviderError -> RecoveryContext -> Prop).

(** A refused read is a short one. *)
Lemma read_recovery offset size e stage coordinate :
  0 <= offset -> 0 <= size -> src_read source offset size = Err e ->
  recovery_error (read_error e stage coordinate).
Proof.
  intros Ho Hs He. destruct (Z.le_gt_cases (offset + size) (zlen content)) as [Hle|Hgt].
  - rewrite (lawful_read offset size Ho Hs Hle) in He. done.
  - destruct (lawful_short offset size Ho Hs Hgt) as (e' & He' & Hcode). rewrite He' in He. injection He as ->.
    apply recovery_code. unfold read_error. rewrite Hcode. reflexivity.
Qed.

(** A successful read returns the bytes of the source. *)
Lemma wp_read_into offset size stage ordinal (Q : bytes -> RecoveryContext -> Prop) R x :
  0 <= offset -> 0 <= size ->
  (offset + size <= zlen content -> Q (slice content offset size) (count_input size x)) ->
  (forall e, recovery_error e -> R e x) ->
  wp (W := W) (read_into source offset size stage ordinal) Q R x.
Proof.
  intros Ho Hs HQ HR. apply wp_bind, wp_consume; [|auto]. apply wp_bind, wp_result.
  destruct (src_read source offset size) as [bs|e] eqn:E; cbn; [|by apply HR, (read_recovery offset size)].
  apply (lawful_read_inv source content) in E as (Hle & -> & _); [|done..].
  apply wp_bind, wp_modify, wp_ret, HQ, Hle.
Qed.

(** Inside the source only the guard can stop a read. *)
Lemma wp_read_within offset size stage ordinal (Q : bytes -> RecoveryContext -> Prop) R x :
  0 <= offset -> 0 <= size -> offset + size <= zlen content ->
  Q (slice content offset size) (count_input size x) ->
  (forall e, resource_error e -> R e x) ->
  wp (W := W) (read_into source offset size stage ordinal) Q R x.
Proof.
  intros Ho Hs Hle HQ HR. apply wp_bind, wp_consume; [|done]. apply wp_bind, wp_result.
  rewrite (lawful_read offset size) by done. cbn. by apply wp_bind, wp_modify, wp_ret.
Qed.

Lemma wp_read_payload offset size coordinate (Q : bytes -> RecoveryContext -> Prop) R x :
  0 <= offset -> 0 <= size ->
  (offset + size <= zlen content -> Q (slice content offset size) (count_input size x)) ->
  (forall e, recovery_error e -> R e x) ->
  wp (W := W) (read_event_payload source offset size coordinate) Q R x.
Proof.
  intros Ho Hs HQ HR. apply wp_bind, wp_option.
  destruct (try_from usize_max size) as [n|] eqn:En; [|by apply HR].
  assert (n = size) as -> by (unfold try_from in En; case_match; congruence).
  apply wp_bind, wp_consume; [|auto]. apply wp_bind, wp_flight_reserve; [|auto]. intros cap.
  apply wp_bind, wp_result. destruct (src_read source offset size) as [bs|e] eqn:E; cbn; [|by apply HR, (read_recovery offset size)].
  apply (lawful_read_inv source content) in E as (Hle & -> & _); [|done..].
  apply wp_bind, wp_modify, wp_ret, HQ, Hle.
Qed.

Lemma wp_payload_within offset size coordinate (Q : bytes -> RecoveryContext -> Prop) R x :
  0 <= offset -> 0 <= size -> offset + size <= zlen content ->
  Q (slice content offset size) (count_input size x) ->
  (forall e, resource_error e -> R e x) ->
  wp (W := W) (read_event_payload source offset size coordinate) Q R x.
Proof.
  intros Ho Hs Hle HQ HR. pose proof (lawful_bound (src := source) (content := content)). apply wp_bind, wp_option.
  unfold try_from, usize_max. replace (size <=? u64_max) with true by lia.
  apply wp_bind, wp_consume; [|auto]. apply wp_bind, wp_flight_reserve; [|auto]. intros cap.
  apply wp_bind, wp_result. rewrite (lawful_read offset size) by done. cbn. by apply wp_bind, wp_modify, wp_ret.
Qed.

End worlds.

Implicit Types x : RecoveryContext.

Lemma run_read_into offset size stage ordinal x :
  0 <= offset -> 0 <= size -> offset + size <= zlen content ->
  run (read_into source offset size stage ordinal) x
  = (Ok (slice content offset size), count_input size x).
Proof.
  intros. unfold read_into, run, bind, lift_result. cbn. by rewrite (lawful_read offset size).
Qed.

Lemma run_read_payload offset size coordinate x :
  0 <= offset -> 0 <= size -> offset + size <= zlen content ->
  run (read_event_payload source offset size coordinate) x
  = (Ok (slice content offset size), count_input size x).
Proof.
  intros Ho Hs Hle. pose proof (lawful_bound (src := source) (content := content)).
  unfold read_event_payload.
  rewrite (run_bind_ok _ _ _ size x)
    by (unfold lift_option, try_from, usize_max; by replace (size <=? u64_max) with true by lia).
  rewrite (run_bind_ok _ _ _ tt x) by done.
  destruct (run_flight_reserve (A := byte) T_u8 vec_new size "Flight payload allocation failed" x)
    as [cap Hcap].
  rewrite (run_bind_ok _ _ _ _ _ Hcap).
  rewrite (run_bind_ok _ _ _ (slice content offset size) x)
    by (unfold lift_result, run; cbn; by rewrite (lawful_read offset size)).
  done.
Qed.

(** The block-wise checksum is the checksum of the whole region. *)
Lemma slice_split bs offset a b :
  0 <= offset -> 0 <= a -> 0 <= b ->
  slice bs offset (a + b) = slice bs offset a ++ slice bs (offset + a) b.
Proof.
  intros Ho Ha Hb. unfold slice.
  rewrite (Z2Nat.inj_add a b), (Z2Nat.inj_add offset a) by lia.
  by rewrite <- drop_drop, take_take_drop.
Qed.

Lemma checksum_loop_spec fuel offset size checksum relative x :
  0 <= offset -> 0 <= relative <= size -> offset + size <= zlen content ->
  (Z.to_nat (size - relative) < fuel)%nat ->
  exists x', run (checksum_loop source fuel offset size checksum relative) x
    = (Ok (fnv32_update checksum (slice content (offset + relative) (size - relative))), x')
    /\ fx_next_ordinal x' = fx_next_ordinal x.
Proof.
  pose proof (lawful_bound (src := source) (content := content)) as Hb.
  intros Ho Hr Hle. revert checksum relative x Hr.
  induction fuel as [|fuel IH]; intros checksum relative x Hr Hfuel; [lia|]. cbn [checksum_loop].
  destruct (Z.ltb_spec relative size).
  - unfold CHECKSUM_BLOCK. set (amount := Z.min (size - relative) 4096).
    rewrite (run_bind_ok _ _ _ tt x) by done.
    rewrite (run_bind_ok _ _ _ amount x)
      by (unfold lift_option, try_from, usize_max; by replace (amount <=? u64_max) with true by lia).
    rewrite (run_bind_ok _ _ _ tt x) by by replace (amount >? 4096) with false by lia.
    rewrite (run_bind_ok _ _ _ (slice content (offset + relative) amount) (count_input amount x))
      by (apply run_read_into; lia).
    rewrite (run_bind_ok _ _ _ (relative + amount) (count_input amount x))
      by (unfold lift_option; by rewrite checked_add_ok by lia).
    destruct (IH (fnv32_update checksum (slice content (offset + relative) amount)) (relative + amount)
      (count_input amount x)) as (x' & Hrun & Hx'); [lia|lia|].
    exists x'. split; [|done]. rewrite Hrun.
    replace (size - relative) with (amount + (size - (relative + amount))) by lia.
    rewrite slice_split by lia. unfold fnv32_update. rewrite foldl_app.
    do 4 f_equal; lia.
  - exists x. replace (size - relative) with 0 by lia. unfold slice.
    by rewrite take_0.
Qed.

Lemma run_checksum_region offset size x :
  0 <= offset -> 0 <= size -> offset + size <= zlen content ->
  exists x', run (checksum_region source offset size) x = (Ok (fnv32 (slice content offset size)), x')
    /\ fx_next_ordinal x' = fx_next_ordinal x.
Proof.
  intros Ho Hs Hle. unfold checksum_region.
  destruct (checksum_loop_spec (Datatypes.S (Z.to_nat size)) offset size FNV_OFFSET 0 x)
    as (x' & Hrun & Hx'); [lia..|].
  exists x'. rewrite Hrun. split; [|done]. do 4 f_equal; lia.
Qed.

End read_rules.
