(* ===== verification/FlightErrors.v ===== *)
(** * The errors of a Flight recovery

    The errors of the parsers are codes of [recovery_codes]. *)

From stdpp Require Import prelude list strings gmap.
From Stdlib Require Import ZArith Lia Strings.Byte.
From S2P Require Import Prelude Prog Control Throws Model Source QtrbEvents FlightWire FlightContext.
Local Open Scope string_scope.
Local Open Scope list_scope.
Local Open Scope Z_scope.

Ltac recovery := first [exact recovery_resource | apply recovery_code; reflexivity].
Ltac recovery_auto :=
  repeat first [throws_step ltac:(recovery)
               | match goal with |- throws _ (let _ := _ in _) => cbv zeta end].

(** ** The parsers *)

Abbreviation Rd p := (throws (W := unit) (S := WireCursor) recovery_error p).

Lemma error_take n : Rd (wire_take n).
Proof. unfold wire_take. recovery_auto. Qed.
Lemma error_skip n : Rd (wire_skip n).
Proof. unfold wire_skip. recovery_auto. Qed.
Lemma error_finish : Rd wire_finish.
Proof. unfold wire_finish. recovery_auto. Qed.
#[export] Hint Resolve error_take error_skip error_finish : throw.

Lemma error_u16 : Rd wire_u16.
Proof. unfold wire_u16. recovery_auto. Qed.
Lemma error_u32 : Rd wire_u32.
Proof. unfold wire_u32. recovery_auto. Qed.
Lemma error_u64 : Rd wire_u64.
Proof. unfold wire_u64. recovery_auto. Qed.
#[export] Hint Resolve error_u16 error_u32 error_u64 : throw.

Lemma error_zero {W S} bs start stop label coordinate :
  throws (W := W) (S := S) recovery_error (lift_result (require_zero bs start stop label coordinate)).
Proof.
  apply throws_result. intros e. unfold require_zero. destruct (slice_get bs start stop); [|by intros [= <-]].
  destruct (negb _); [|done]. destruct ((32 <=? start) && _); [by intros [= <-]|].
  destruct ((52 <=? start) && _); by intros [= <-].
Qed.
#[export] Hint Resolve error_zero : throw.

Lemma error_parse {A} bs coordinate label (p : Prog unit ProviderError WireCursor A) e :
  Rd p -> parse_with bs coordinate label p = Err e -> recovery_error e.
Proof.
  intros Hp. unfold parse_with, run. specialize (Hp (wire_cursor bs coordinate label) tt).
  destruct (p _ tt) as [[[?|?] ?] ?]; cbn; [done|]. by intros [= <-].
Qed.

Lemma error_directory bs index count offset e : parse_directory bs index count offset = Err e -> recovery_error e.
Proof. apply error_parse. recovery_auto. Qed.
Lemma error_chunk_header bs index offset e : parse_chunk_header bs index offset = Err e -> recovery_error e.
Proof. apply error_parse. recovery_auto. Qed.
Lemma error_record_header bs coordinate e : parse_flight_record_header bs coordinate = Err e -> recovery_error e.
Proof. apply error_parse. recovery_auto. Qed.

Lemma error_u8 : Rd wire_u8.
Proof. unfold wire_u8. recovery_auto. Qed.
#[export] Hint Resolve error_u8 : throw.

Lemma error_region {W S} offset count stride limit label :
  throws (W := W) (S := S) recovery_error (lift_result (checked_region offset count stride limit label)).
Proof. apply throws_result. intros e. unfold checked_region. repeat case_match; intros [= <-]; done. Qed.
#[export] Hint Resolve error_region : throw.

Lemma error_superblock bs size e : parse_superblock bs size = Err e -> recovery_error e.
Proof. apply error_parse. unfold read_superblock_words. recovery_auto. Qed.
