(* ===== verification/FlightScan.v ===== *)
(** * Scanning a Flight chunk

    Models [scan_records] of [qtrace-provider/src/flight/recovery.rs] with the
    lifecycle bookkeeping around it.  A sealed chunk must consist of committed
    records to its last byte; an active chunk is read up to the first record
    that was not committed under the chunk's generation. *)

From stdpp Require Import prelude list strings pretty gmap.
From Stdlib Require Import ZArith Lia Strings.Byte.
From S2P Require Import Prelude Prog Control Model Source FlightWire FlightContext FlightErrors.
Local Open Scope string_scope.
Local Open Scope list_scope.
Local Open Scope Z_scope.

(** [PhysicalRecord] *)
Record PhysicalFlight := mkPhysicalFlight {
  ph_key : EventKey;
  ph_scope : EventScope;
  ph_raw : OpaqueOptionalRecord
}.

Record RecordScan := mkRecordScan {
  sc_first_sequence : option Z;
  sc_last_sequence : option Z;
  sc_lifecycle_balance : Z;
  sc_lifecycle_first_begin : option Z
}.

Record LifecycleBalance := mkLifecycleBalance { lb_balance : Z; lb_first_begin : Z }.

Definition MERGED_TIMELINE_ID : TimelineId := 0.

(** [i64::saturating_add] *)
Definition saturating_add_i64 (a b : Z) : Z := Z.max (-(2 ^ 63)) (Z.min (2 ^ 63 - 1) (a + b)).

Definition update_lifecycle (balance : Z) (first_begin : option Z) (kind sequence : Z) :
    Z * option Z :=
  if (kind =? 2) || (kind =? 3) then
    let delta := if kind =? 2 then 1 else -1 in
    let balance := saturating_add_i64 balance delta in
    (balance, if (delta >? 0) && (balance =? delta) then Some sequence else first_begin)
  else (balance, first_begin).

(** The mutable locals of [scan_records]. *)
Record ScanState := mkScanState {
  ss_balance : Z;
  ss_first_begin : option Z;
  ss_relative : Z;
  ss_first : option Z;
  ss_last : option Z;
  ss_events : Vec PhysicalFlight
}.

Section scan.
Context {W : Type} `{WorkGuard W} `{Allocator W} (source : ReadAtSource).
Abbreviation R := (Prog W ProviderError RecoveryContext).

(** [(total + 7) & !7] *)
Definition record_storage (total : Z) : option Z :=
  value ← checked_add u32_max total 7; Some (and_not32 value 7).

Definition record_checksum_error (coordinate : SourceCoordinate) : ProviderError :=
  ProviderError_new "source.flight.record_checksum" "flight.record" (Some coordinate) false
    "committed record checksum mismatch".

(** The alignment bytes after a record. *)
Definition check_padding (coordinate : SourceCoordinate) (record_offset total storage ordinal : Z) :
    R unit :=
  let padding_bytes := storage - total in
  if padding_bytes =? 0 then ret tt
  else
    let! padding_offset := lift_option (checked_add u64_max record_offset total)
      (flight_record_error coordinate "padding offset overflow") in
    fail_if (padding_bytes >? 7) (flight_record_error coordinate "invalid padding length") ;!
    let! requested := read_into source padding_offset padding_bytes "flight.record" (Some ordinal) in
    fail_if (existsb (fun b => negb (is_zero b)) requested)
      (flight_record_error coordinate "nonzero record alignment padding").

(** One turn of the [while] loop; [None] is a [break]. *)
Definition scan_turn (artifact : ArtifactDigest) (chunk_index : Z) (header : ChunkHeader)
    (data_offset limit : Z) (active : bool) (st : ScanState) : R (option ScanState) :=
  consume WorkDelta_default ;!
  let! x := get in
  let ordinal := fx_next_ordinal x in
  let! remaining := lift_option (checked_sub limit (ss_relative st))
    (allocation_error "record extent underflow") in
  if remaining <? FLIGHT_RECORD_HEADER_BYTES then
    if active then ret None
    else throw (flight_record_error (mkCoordinate (data_offset + ss_relative st) (Some ordinal))
                  "truncated sealed record header")
  else
    let! record_offset := lift_option (checked_add u64_max data_offset (ss_relative st))
      (allocation_error "record offset overflow") in
    let coordinate := mkCoordinate record_offset (Some ordinal) in
    let! raw_header := read_array source FLIGHT_RECORD_HEADER_BYTES record_offset "flight.record"
      (Some ordinal) in
    let! record := lift_result (parse_flight_record_header raw_header coordinate) in
    let expected_commit :=
      Z.lxor (Z.lxor RECORD_COMMIT (rh_total_bytes record)) (ch_generation header) in
    if negb (rh_commit record =? expected_commit) then
      if active then ret None
      else throw (flight_record_error coordinate "sealed record commit mismatch")
    else
      fail_if (rh_total_bytes record <? FLIGHT_RECORD_HEADER_BYTES)
        (flight_record_error coordinate "invalid committed record length") ;!
      let! storage := lift_option (record_storage (rh_total_bytes record))
        (flight_record_error coordinate "record storage overflow") in
      fail_if (storage >? remaining)
        (flight_record_error coordinate "invalid committed record extent") ;!
      fail_if (negb (valid_record_flags (rh_kind record) (rh_flags record)))
        (flight_record_error coordinate "unknown committed record type or flags") ;!
      fail_if ((rh_sequence record =? 0)
               || match ss_last st with Some last => rh_sequence record <=? last | None => false end)
        (flight_record_error coordinate "invalid chunk sequence order") ;!
      let payload_bytes := rh_total_bytes record - FLIGHT_RECORD_HEADER_BYTES in
      let! payload_offset := lift_option
        (checked_add u64_max record_offset FLIGHT_RECORD_HEADER_BYTES)
        (flight_record_error coordinate "record payload offset overflow") in
      let! payload := read_event_payload source payload_offset payload_bytes coordinate in
      fail_if (negb (bool_decide (record_checksum raw_header payload = Some (rh_checksum record))))
        (record_checksum_error coordinate) ;!
      check_padding coordinate record_offset (rh_total_bytes record) storage ordinal ;!
      let event := mkPhysicalFlight
        (mkEventKey artifact MERGED_TIMELINE_ID ordinal record_offset (Some (rh_sequence record))
           (Some (ch_tid header)))
        (FlightChunkScope chunk_index (ch_generation header) (ch_tid header))
        (mkOpaque (rh_kind record) (rh_flags record) payload) in
      let! events := guarded_push T_PhysicalRecord (ss_events st) event in
      let! next := lift_option (checked_add u64_max ordinal 1)
        (flight_record_error coordinate "record ordinal overflow") in
      modify (set_next_ordinal next) ;!
      modify count_seen ;!
      let '(balance, first_begin) := update_lifecycle (ss_balance st) (ss_first_begin st)
        (rh_kind record) (rh_sequence record) in
      let! relative := lift_option (checked_add u64_max (ss_relative st) storage)
        (flight_record_error coordinate "record cursor overflow") in
      ret (Some (mkScanState balance first_begin relative
        (match ss_first st with None => Some (rh_sequence record) | some => some end)
        (Some (rh_sequence record)) events)).

(** Not an error of the code: the [while] loop below ran out of fuel. *)
Definition scan_fuel : ProviderError := ProviderError_new "model.fuel" "model" None false "".

Fixpoint scan_loop (fuel : nat) (artifact : ArtifactDigest) (chunk_index : Z) (header : ChunkHeader)
    (data_offset limit : Z) (active : bool) (st : ScanState) : R ScanState :=
  match fuel with
  | O => throw scan_fuel
  | Datatypes.S fuel =>
      if ss_relative st <? limit then
        let! turn := scan_turn artifact chunk_index header data_offset limit active st in
        match turn with
        | Some st => scan_loop fuel artifact chunk_index header data_offset limit active st
        | None => ret st
        end
      else ret st
  end.

(** [scan_records] over the extent [start..stop]; every turn that continues
    moves at least eight bytes forward, so the extent bounds the turns. *)
Definition scan_records (artifact : ArtifactDigest) (chunk_index : Z) (header : ChunkHeader)
    (start stop : Z) (active : bool) (events : Vec PhysicalFlight) :
    R (RecordScan * Vec PhysicalFlight) :=
  let! limit := lift_option (checked_sub stop start)
    (allocation_error "chunk scan extent underflow") in
  let! st := scan_loop (Datatypes.S (Z.to_nat limit)) artifact chunk_index header start limit active
    (mkScanState 0 None 0 None None (vec_clear events)) in
  let! x := get in
  fail_if (negb active && negb (ss_relative st =? limit))
    (flight_record_error (mkCoordinate (start + ss_relative st) (Some (fx_next_ordinal x)))
       "sealed chunk has an invalid suffix") ;!
  ret (mkRecordScan (ss_first st) (ss_last st) (ss_balance st) (ss_first_begin st), ss_events st).

Definition merge_lifecycle (target : gmap Z LifecycleBalance) (tid incoming_balance : Z)
    (incoming_first_begin : option Z) : R (gmap Z LifecycleBalance) :=
  if (incoming_balance =? 0) && bool_decide (incoming_first_begin = None) then ret target
  else
    (match target !! tid with
     | None => flight_reserve_map Lifecycle T_lifecycle_entry (Z.of_nat (size target)) 1
                 "Flight lifecycle allocation failed"
     | Some _ => ret tt
     end) ;!
    ret (<[tid :=
      match target !! tid with
      | Some item =>
          mkLifecycleBalance (saturating_add_i64 (lb_balance item) incoming_balance)
            (if (lb_balance item <=? 0) && (incoming_balance >? 0)
             then default 0 incoming_first_begin else lb_first_begin item)
      | None => mkLifecycleBalance incoming_balance (default 0 incoming_first_begin)
      end]> target).

(** [append_events]: the source vector is drained. *)
Definition append_events (target source : Vec PhysicalFlight) :
    R (Vec PhysicalFlight * Vec PhysicalFlight) :=
  let! target := fold_each (v_items source) target (fun target event =>
    guarded_push T_PhysicalRecord target event) in
  ret (target, vec_clear source).

End scan.

(** ** The format of a chunk's data *)

(** A committed record as the tracer writes it. *)
Record FlightRecord := mkFlightRecord {
  fr_kind : Z;
  fr_flags : Z;
  fr_sequence : Z;
  fr_payload : bytes
}.

Definition fr_total (r : FlightRecord) : Z := FLIGHT_RECORD_HEADER_BYTES + zlen (fr_payload r).
(** Records start at multiples of eight bytes. *)
Definition fr_storage (r : FlightRecord) : Z := (fr_total r + 7) / 8 * 8.

Record record_ok (r : FlightRecord) : Prop := mkRecordOk {
  rk_kind : in_u16 (fr_kind r);
  rk_flags : in_u16 (fr_flags r);
  rk_valid : valid_record_flags (fr_kind r) (fr_flags r) = true;
  rk_sequence : 0 < fr_sequence r <= u64_max;
  rk_total : fr_total r + 7 <= u32_max
}.

Definition fr_prefix (r : FlightRecord) : bytes :=
  le_bytes 2 (fr_kind r) ++ le_bytes 2 (fr_flags r) ++ le_bytes 4 (fr_total r)
  ++ le_bytes 8 (fr_sequence r).

Definition commit_word (generation total : Z) : Z := Z.lxor (Z.lxor RECORD_COMMIT total) generation.

Definition encode_record (generation : Z) (r : FlightRecord) : bytes :=
  fr_prefix r ++ le_bytes 4 (fnv32 (fr_prefix r ++ fr_payload r))
  ++ le_bytes 4 (commit_word generation (fr_total r))
  ++ fr_payload r ++ replicate (Z.to_nat (fr_storage r - fr_total r)) x00.

Definition encode_records (generation : Z) (recs : list FlightRecord) : bytes :=
  concat (map (encode_record generation) recs).

(** Sequence numbers grow through the chunk. *)
Definition follows (last : option Z) (r : FlightRecord) : Prop :=
  match last with Some l => l < fr_sequence r | None => True end.
Fixpoint chained (last : option Z) (recs : list FlightRecord) : Prop :=
  match recs with
  | [] => True
  | r :: recs => follows last r /\ chained (Some (fr_sequence r)) recs
  end.

(** What follows the committed records of an active chunk: too little for a
    header, or a header that was not committed under this generation. *)
Definition uncommitted (generation : Z) (tail : bytes) : Prop :=
  zlen tail < FLIGHT_RECORD_HEADER_BYTES
  \/ exists h rest, tail = encode_record_header h ++ rest /\ record_header_ok h
       /\ rh_commit h <> commit_word generation (rh_total_bytes h).

(** ** What the scan makes of it *)

Section format.
Context (artifact : ArtifactDigest) (chunk_index : Z) (header : ChunkHeader) (data_offset : Z).

Definition physical (ordinal relative : Z) (r : FlightRecord) : PhysicalFlight :=
  mkPhysicalFlight
    (mkEventKey artifact MERGED_TIMELINE_ID ordinal (data_offset + relative) (Some (fr_sequence r))
       (Some (ch_tid header)))
    (FlightChunkScope chunk_index (ch_generation header) (ch_tid header))
    (mkOpaque (fr_kind r) (fr_flags r) (fr_payload r)).

(** The locals after one more record; capacities are not observed. *)
Definition scan_advance (ordinal : Z) (st : ScanState) (r : FlightRecord) : ScanState :=
  let '(balance, first_begin) := update_lifecycle (ss_balance st) (ss_first_begin st)
    (fr_kind r) (fr_sequence r) in
  mkScanState balance first_begin (ss_relative st + fr_storage r)
    (match ss_first st with None => Some (fr_sequence r) | some => some end)
    (Some (fr_sequence r))
    (mkVec (v_items (ss_events st) ++ [physical ordinal (ss_relative st) r]) 0).

Fixpoint scan_advances (ordinal : Z) (st : ScanState) (recs : list FlightRecord) : ScanState :=
  match recs with
  | [] => st
  | r :: recs => scan_advances (ordinal + 1) (scan_advance ordinal st r) recs
  end.

Definition scan_view (st : ScanState) : ScanState :=
  mkScanState (ss_balance st) (ss_first_begin st) (ss_relative st) (ss_first st) (ss_last st)
    (mkVec (v_items (ss_events st)) 0).

End format.

Lemma and_not_7 v : in_u32 v -> and_not32 v 7 = v / 8 * 8.
Proof.
  intros Hv. unfold and_not32.
  change (Z.lxor u32_max 7) with (Z.land (Z.ones 32) (Z.lnot (Z.ones 3))).
  rewrite Z.land_assoc, Z.land_ones by lia. machine. rewrite Z.mod_small by lia.
  change (Z.land v (Z.lnot (Z.ones 3))) with (Z.land v (Z.lnot (Z.ones 3))).
  rewrite <- Z.ldiff_land, Z.ldiff_ones_r, Z.shiftl_mul_pow2, Z.shiftr_div_pow2 by lia. done.
Qed.

Lemma fr_storage_bounds r :
  fr_total r <= fr_storage r <= fr_total r + 7 /\ 24 <= fr_storage r.
Proof.
  unfold fr_storage. pose proof (Z.div_mod (fr_total r + 7) 8 ltac:(lia)).
  pose proof (Z.mod_pos_bound (fr_total r + 7) 8 ltac:(lia)).
  pose proof (zlen_nonneg (fr_payload r)). unfold fr_total in *. wire_consts. lia.
Qed.

Lemma record_storage_ok r :
  record_ok r -> record_storage (fr_total r) = Some (fr_storage r).
Proof.
  intros []. unfold record_storage. rewrite checked_add_ok by done. cbn.
  pose proof (zlen_nonneg (fr_payload r)). rewrite and_not_7; [done|].
  unfold in_u32, fr_total in *. wire_consts. lia.
Qed.

Lemma zlen_encode_record generation r : zlen (encode_record generation r) = fr_storage r.
Proof.
  unfold encode_record, fr_prefix. rewrite !zlen_app, !zlen_le_bytes, zlen_replicate.
  pose proof (fr_storage_bounds r). unfold fr_total in *. wire_consts. lia.
Qed.

Lemma zlen_prefix r : zlen (fr_prefix r) = 16.
Proof. unfold fr_prefix. by rewrite !zlen_app, !zlen_le_bytes. Qed.

(** The header of an encoded record. *)
Definition fr_header (generation : Z) (r : FlightRecord) : RecordHeader :=
  mkRecordHeader (fr_kind r) (fr_flags r) (fr_total r) (fr_sequence r)
    (fnv32 (fr_prefix r ++ fr_payload r)) (commit_word generation (fr_total r)).

Lemma encode_header_split generation r :
  encode_record generation r
  = encode_record_header (fr_header generation r) ++ fr_payload r
    ++ replicate (Z.to_nat (fr_storage r - fr_total r)) x00.
Proof. unfold encode_record, encode_record_header, fr_prefix. cbn. by rewrite <- !app_assoc. Qed.

Lemma covered_header h payload :
  covered (encode_record_header h) payload
  = (le_bytes 2 (rh_kind h) ++ le_bytes 2 (rh_flags h) ++ le_bytes 4 (rh_total_bytes h)
     ++ le_bytes 8 (rh_sequence h)) ++ payload.
Proof.
  reflexivity.
Qed.

Lemma lxor_u32 a b : in_u32 a -> in_u32 b -> in_u32 (Z.lxor a b).
Proof.
  machine. intros Ha Hb. assert (0 <= Z.lxor a b) by (apply Z.lxor_nonneg; lia).
  split; [done|]. assert (Z.shiftr (Z.lxor a b) 32 = 0) as Hs.
  { rewrite Z.shiftr_lxor, !Z.shiftr_div_pow2, !Z.div_small by lia. done. }
  rewrite Z.shiftr_div_pow2 in Hs by lia. apply Z.div_small_iff in Hs; lia.
Qed.

Lemma fr_header_ok generation r :
  record_ok r -> in_u32 generation -> record_header_ok (fr_header generation r).
Proof.
  intros [] Hg. pose proof (zlen_nonneg (fr_payload r)).
  assert (in_u32 (fr_total r)) by (unfold in_u32, fr_total in *; wire_consts; lia).
  split; cbn; try done.
  - unfold in_u64. lia.
  - by apply fnv32_update_range.
  - unfold commit_word. by repeat apply lxor_u32.
Qed.

(** A header that passed the scan's checks is the header of a record. *)
Lemma header_record generation h payload storage :
  record_header_ok h -> rh_commit h = commit_word generation (rh_total_bytes h) ->
  zlen payload = rh_total_bytes h - FLIGHT_RECORD_HEADER_BYTES ->
  record_storage (rh_total_bytes h) = Some storage ->
  valid_record_flags (rh_kind h) (rh_flags h) = true ->
  0 < rh_sequence h ->
  record_checksum (encode_record_header h) payload = Some (rh_checksum h) ->
  let r := mkFlightRecord (rh_kind h) (rh_flags h) (rh_sequence h) payload in
  record_ok r /\ fr_total r = rh_total_bytes h /\ fr_storage r = storage
  /\ encode_record generation r
     = encode_record_header h ++ payload ++ replicate (Z.to_nat (storage - rh_total_bytes h)) x00.
Proof.
  intros [] Hc Hp Hs Hv Hseq Hsum r.
  assert (fr_total r = rh_total_bytes h) as Ht by (unfold fr_total, r; cbn; lia).
  assert (record_ok r) as Hok.
  { unfold record_storage in Hs. destruct (checked_add _ _ _) eqn:E; [|done].
    apply checked_add_Some in E as [_ E]. split; cbn; [done..|unfold in_u64 in *; lia|by rewrite Ht]. }
  assert (fr_storage r = storage) as Hst.
  { pose proof (record_storage_ok r Hok) as H. rewrite Ht in H. congruence. }
  split_and!; [done..|]. rewrite encode_header_split, Hst, Ht. f_equal. f_equal.
  rewrite record_checksum_covered in Hsum by apply zlen_record_header.
  rewrite covered_header in Hsum. apply Some_inj in Hsum.
  unfold fr_header, fr_prefix. rewrite Ht. cbn. rewrite Hsum, <- Hc. by destruct h.
Qed.

(** ** A scan that returns *)

Section scans.
Context (source : ReadAtSource) (content : bytes) {LS : LawfulSource source content}.
Context (artifact : ArtifactDigest) (chunk_index : Z) (header : ChunkHeader).
Context (data_offset limit : Z) (active : bool).
Context (Hdata : 0 <= data_offset) (Hlimit : data_offset + limit <= zlen content).

(** What is left of the extent. *)
Definition left_over (relative : Z) : bytes := slice content (data_offset + relative) (limit - relative).

Lemma left_over_length relative : 0 <= relative <= limit -> zlen (left_over relative) = limit - relative.
Proof. intros Hr. apply length_slice; lia. Qed.

Lemma left_over_split relative n :
  0 <= relative -> 0 <= n -> relative + n <= limit ->
  left_over relative = slice content (data_offset + relative) n ++ left_over (relative + n).
Proof.
  intros Hr Hn Hle. unfold left_over.
  replace (limit - relative) with (n + (limit - (relative + n))) by lia.
  rewrite slice_split by lia. do 2 f_equal. lia.
Qed.

(** One turn stops at something uncommitted or consumes one record. *)
Definition turn_post (ordinal : Z) (st : ScanState) (turn : option ScanState) (x' : RecoveryContext) :
    Prop :=
  match turn with
  | None => active = true /\ uncommitted (ch_generation header) (left_over (ss_relative st))
            /\ fx_next_ordinal x' = ordinal
  | Some st' => exists r, record_ok r /\ follows (ss_last st) r
      /\ left_over (ss_relative st)
         = encode_record (ch_generation header) r ++ left_over (ss_relative st')
      /\ scan_view st' = scan_advance artifact chunk_index header data_offset ordinal (scan_view st) r
      /\ ss_relative st' <= limit /\ fx_next_ordinal x' = ordinal + 1
  end.

Section worlds.
Context {W : Type} `{WorkGuard W} `{Allocator W}.

Lemma wp_check_padding coordinate record_offset total storage ordinal
    (Q : unit -> RecoveryContext -> Prop) (R : ProviderError -> RecoveryContext -> Prop) x :
  0 <= record_offset -> 0 <= total <= storage ->
  (forall x', slice content (record_offset + total) (storage - total)
                = replicate (Z.to_nat (storage - total)) x00 ->
     fx_next_ordinal x' = fx_next_ordinal x -> Q tt x') ->
  (forall e x', recovery_error e -> fx_next_ordinal x' = fx_next_ordinal x -> R e x') ->
  wp (W := W) (check_padding source coordinate record_offset total storage ordinal) Q R x.
Proof.
  intros Ho Ht HQ HR. unfold check_padding. destruct (Z.eqb_spec (storage - total) 0) as [Hz|Hz].
  - apply wp_ret, HQ; [|done]. rewrite Hz. unfold slice. by rewrite take_0.
  - apply wp_bind, wp_option. destruct (checked_add _ _ _) as [off|] eqn:Eo; [|by apply HR].
    apply checked_add_Some in Eo as [-> _].
    apply wp_bind, wp_fail_if; [intros _|intros _; by apply HR].
    apply wp_bind, (wp_read_into source content); [lia|lia| |by auto]. intros Hle.
    apply wp_fail_if; [|intros _; by apply HR]. intros Hzero. apply HQ; [|done].
    rewrite <- (length_slice content (record_offset + total) (storage - total)) at 2 by lia.
    unfold zlen. rewrite Nat2Z.id. apply zeros_spec, forallb_forall. intros b Hb.
    apply not_true_iff_false in Hzero. destruct (is_zero b) eqn:Eb; [done|].
    exfalso. apply Hzero, existsb_exists. exists b. by rewrite Eb.
Qed.

(** An error of the code, at most one record later. *)
Ltac stops := intros; cbv beta; split; [solve [auto]|cbn in *; lia].

Lemma wp_scan_turn st x :
  0 <= ss_relative st < limit ->
  wp (W := W) (scan_turn source artifact chunk_index header data_offset limit active st)
    (turn_post (fx_next_ordinal x) st)
    (fun e x' => recovery_error e /\ fx_next_ordinal x' <= fx_next_ordinal x + 1) x.
Proof.
  intros Hr. unfold scan_turn. apply wp_bind, wp_consume; [|stops]. apply wp_bind, wp_get.
  apply wp_bind, wp_option. unfold checked_sub. replace (ss_relative st <=? limit) with true by lia.
  destruct (Z.ltb_spec (limit - ss_relative st) FLIGHT_RECORD_HEADER_BYTES) as [Hshort|Hlong].
  { destruct active eqn:Ea; [|apply wp_throw; stops]. apply wp_ret. split; [done|]. split; [|done].
    left. by rewrite left_over_length by lia. }
  apply wp_bind, wp_option. destruct (checked_add _ _ _) as [off|] eqn:Eo; [|stops].
  apply checked_add_Some in Eo as [-> _].
  apply wp_bind, (wp_read_into source content); [lia|by wire_consts| |stops]. intros _.
  pose proof (left_over_split (ss_relative st) FLIGHT_RECORD_HEADER_BYTES ltac:(lia) ltac:(by wire_consts) ltac:(lia)) as Hsplit.
  destruct (record_header_total (slice content (data_offset + ss_relative st) FLIGHT_RECORD_HEADER_BYTES)
    (mkCoordinate (data_offset + ss_relative st) (Some (fx_next_ordinal x)))) as (h & Hparse & Hh & Hbytes).
  { apply length_slice; wire_consts; lia. }
  apply wp_bind, wp_result. rewrite Hparse. fold (commit_word (ch_generation header) (rh_total_bytes h)).
  destruct (Z.eqb_spec (rh_commit h) (commit_word (ch_generation header) (rh_total_bytes h))) as [Hc|Hc];
    cbn [negb].
  2: { destruct active eqn:Ea; [|apply wp_throw; stops]. apply wp_ret. split; [done|]. split; [|done].
       right. exists h, (left_over (ss_relative st + FLIGHT_RECORD_HEADER_BYTES)).
       by rewrite <- Hbytes. }
  apply wp_bind, wp_fail_if; [intros Hmin|stops].
  apply wp_bind, wp_option. destruct (record_storage (rh_total_bytes h)) as [storage|] eqn:Es; [|stops].
  apply wp_bind, wp_fail_if; [intros Hext|stops]. apply wp_bind, wp_fail_if; [intros Hflags|stops].
  apply wp_bind, wp_fail_if; [intros Hseq|stops].
  apply wp_bind, wp_option. destruct (checked_add _ _ _) as [poff|] eqn:Ep; [|stops].
  apply checked_add_Some in Ep as [-> _].
  apply wp_bind, (wp_read_payload source content); [wire_consts; lia|lia| |stops]. intros Hple.
  set (payload := slice content _ (rh_total_bytes h - FLIGHT_RECORD_HEADER_BYTES)).
  assert (zlen payload = rh_total_bytes h - FLIGHT_RECORD_HEADER_BYTES) as Hpl
    by (apply length_slice; wire_consts; lia).
  apply wp_bind, wp_fail_if; [intros Hsum|stops].
  rewrite negb_false_iff, bool_decide_eq_true, Hbytes in Hsum. rewrite negb_false_iff in Hflags.
  apply orb_false_iff in Hseq as [Hseq0 Hseq].
  destruct (header_record (ch_generation header) h payload storage) as (Hok & Ht & Hst & Henc);
    [done|done|done|done|done|destruct Hh; unfold in_u64 in *; lia|done|].
  set (r := mkFlightRecord _ _ _ _) in *. pose proof (fr_storage_bounds r) as Hsb. rewrite Ht, Hst in Hsb.
  apply wp_bind, wp_check_padding; [lia|lia| |stops]. intros x' Hpad Hx'.
  apply wp_bind, wp_guarded_push; [|stops]. intros cap.
  apply wp_bind, wp_option. destruct (checked_add u64_max (fx_next_ordinal x) 1) as [next|] eqn:En; [|stops].
  apply checked_add_Some in En as [-> _].
  apply wp_bind, wp_modify, wp_bind, wp_modify.
  destruct (update_lifecycle _ _ _ _) as [balance first_begin] eqn:Eu.
  apply wp_bind, wp_option. destruct (checked_add u64_max (ss_relative st) storage) as [rel|] eqn:Er; [|stops].
  apply checked_add_Some in Er as [-> _]. apply wp_ret. exists r. split; [done|].
  split; [by unfold follows; destruct (ss_last st); cbn; [lia|]|]. cbn [ss_relative].
  split; [|split; [|split; [lia|done]]].
  - rewrite Henc, Hsplit, Hbytes, <- !app_assoc. f_equal. unfold payload.
    rewrite (left_over_split _ (rh_total_bytes h - FLIGHT_RECORD_HEADER_BYTES)) by (wire_consts; lia).
    rewrite Z.add_assoc. f_equal. rewrite <- Hpad.
    replace (ss_relative st + FLIGHT_RECORD_HEADER_BYTES + (rh_total_bytes h - FLIGHT_RECORD_HEADER_BYTES))
      with (ss_relative st + rh_total_bytes h) by lia.
    rewrite (left_over_split _ (storage - rh_total_bytes h)) by lia. f_equal; f_equal; lia.
  - unfold scan_advance, scan_view. cbn. rewrite Eu, Hst. done.
Qed.

(** What a returned scan has read. *)
Definition scan_post (ordinal : Z) (st st' : ScanState) (x' : RecoveryContext) : Prop :=
  exists recs tail,
    left_over (ss_relative st) = encode_records (ch_generation header) recs ++ tail
    /\ Forall record_ok recs /\ chained (ss_last st) recs
    /\ scan_view st'
       = scan_advances artifact chunk_index header data_offset ordinal (scan_view st) recs
    /\ (tail = [] \/ active = true /\ uncommitted (ch_generation header) tail)
    /\ tail = left_over (ss_relative st') /\ ss_relative st' <= limit
    /\ fx_next_ordinal x' = ordinal + zlen recs.

Lemma scan_advance_relative ordinal st r :
  ss_relative (scan_advance artifact chunk_index header data_offset ordinal st r)
  = ss_relative st + fr_storage r.
Proof. unfold scan_advance. by destruct (update_lifecycle _ _ _ _). Qed.
Lemma scan_advance_last ordinal st r :
  ss_last (scan_advance artifact chunk_index header data_offset ordinal st r) = Some (fr_sequence r).
Proof. unfold scan_advance. by destruct (update_lifecycle _ _ _ _). Qed.

Lemma wp_scan_loop fuel st x :
  0 <= ss_relative st <= limit -> (Z.to_nat (limit - ss_relative st) < fuel)%nat ->
  wp (W := W) (scan_loop source fuel artifact chunk_index header data_offset limit active st)
    (scan_post (fx_next_ordinal x) st)
    (fun e x' => recovery_error e /\ fx_next_ordinal x' <= fx_next_ordinal x + (limit - ss_relative st)) x.
Proof.
  revert st x. induction fuel as [|fuel IH]; intros st x Hr Hfuel; cbn [scan_loop]; [lia|].
  destruct (Z.ltb_spec (ss_relative st) limit) as [Hlt|Hge].
  - apply wp_bind. eapply wp_mono; [apply wp_scan_turn; lia| |intros e x' [He Hx]; split; [done|lia]].
    intros [st'|] x' Hpost; cbn in Hpost.
    + destruct Hpost as (r & Hok & Hf & Hleft & Hview & Hle & Hx).
      assert (ss_relative st' = ss_relative st + fr_storage r) as Hrel.
      { apply (f_equal ss_relative) in Hview. by rewrite scan_advance_relative in Hview. }
      assert (ss_last st' = Some (fr_sequence r)) as Hlast.
      { apply (f_equal ss_last) in Hview. by rewrite scan_advance_last in Hview. }
      pose proof (fr_storage_bounds r).
      eapply wp_mono; [apply IH; lia| |intros e x'' [He Hx'']; split; [done|lia]].
      intros st'' x'' (recs & tail & Hl & Hoks & Hch & Hv & Htail & Hteq & Hle' & Hx'').
      exists (r :: recs), tail. rewrite Hlast in Hch. rewrite Hview, Hx in Hv. cbn.
      split_and!; [|by constructor|done|done|done|done|done|done|].
      * unfold encode_records in *. cbn. by rewrite Hleft, Hl, <- app_assoc.
      * rewrite Hx'', Hx. unfold zlen. cbn. lia.
    + destruct Hpost as (Hact & Hunc & Hx). apply wp_ret. exists [], (left_over (ss_relative st)).
      cbn. split_and!; [done..|by right|done|lia|unfold zlen; cbn; lia].
  - apply wp_ret. exists [], []. cbn. assert (left_over (ss_relative st) = []) as Hnil.
    { unfold left_over. replace (limit - ss_relative st) with 0 by lia. unfold slice. by rewrite take_0. }
    rewrite Hnil. split_and!; [done..|by left|done|lia|unfold zlen; cbn; lia].
Qed.

End worlds.

(** ** A chunk in the format is scanned *)

Definition turn_ready (st : ScanState) (x : RecoveryContext) : Prop :=
  0 <= ss_relative st <= limit /\ roomy (ss_events st) /\ 0 <= v_capacity (ss_events st)
  /\ fx_next_ordinal x <= u64_max.

Lemma run_check_padding coordinate record_offset total storage ordinal x :
  0 <= record_offset -> 0 <= total <= storage -> storage <= total + 7 ->
  record_offset + storage <= zlen content ->
  slice content (record_offset + total) (storage - total) = replicate (Z.to_nat (storage - total)) x00 ->
  exists x', run (check_padding source coordinate record_offset total storage ordinal) x = (Ok tt, x')
    /\ fx_next_ordinal x' = fx_next_ordinal x.
Proof.
  intros Ho Ht Ht7 Hle Hpad. pose proof (lawful_bound (src := source) (content := content)).
  unfold check_padding. destruct (Z.eqb_spec (storage - total) 0); [by exists x|].
  exists (count_input (storage - total) x). split; [|done].
  rewrite (run_bind_ok _ _ _ (record_offset + total) x)
    by (unfold lift_option; by rewrite checked_add_ok by lia).
  rewrite (run_bind_ok _ _ _ tt x) by by replace (storage - total >? 7) with false by lia.
  rewrite (run_bind_ok _ _ _ (slice content (record_offset + total) (storage - total))
    (count_input (storage - total) x)) by (apply (run_read_into source content); lia).
  rewrite Hpad. replace (existsb _ _) with false; [done|]. symmetry. apply not_true_iff_false.
  rewrite existsb_exists. intros (b & Hb & Hz). apply list_elem_of_In, elem_of_replicate in Hb as [-> _].
  done.
Qed.

(** The bytes a record occupies, read field by field. *)
Lemma record_slices r relative rest :
  record_ok r -> 0 <= relative -> relative + fr_storage r <= limit ->
  left_over relative = encode_record (ch_generation header) r ++ rest ->
  slice content (data_offset + relative) FLIGHT_RECORD_HEADER_BYTES
    = encode_record_header (fr_header (ch_generation header) r)
  /\ slice content (data_offset + relative + FLIGHT_RECORD_HEADER_BYTES)
       (fr_total r - FLIGHT_RECORD_HEADER_BYTES) = fr_payload r
  /\ slice content (data_offset + relative + fr_total r) (fr_storage r - fr_total r)
     = replicate (Z.to_nat (fr_storage r - fr_total r)) x00
  /\ left_over (relative + fr_storage r) = rest.
Proof.
  intros Hok Hr Hle Hleft. pose proof (fr_storage_bounds r) as Hsb.
  pose proof (zlen_nonneg (fr_payload r)). assert (fr_total r = 24 + zlen (fr_payload r)) as Ht by done.
  rewrite encode_header_split, <- !app_assoc in Hleft.
  rewrite (left_over_split relative FLIGHT_RECORD_HEADER_BYTES) in Hleft by (wire_consts; lia).
  apply app_inj_1 in Hleft as [H1 Hleft].
  2: { pose proof (length_slice content (data_offset + relative) FLIGHT_RECORD_HEADER_BYTES
         ltac:(lia) ltac:(done) ltac:(wire_consts; lia)) as Hl.
       pose proof (zlen_record_header (fr_header (ch_generation header) r)). unfold zlen in *. lia. }
  rewrite (left_over_split _ (fr_total r - FLIGHT_RECORD_HEADER_BYTES)) in Hleft by (wire_consts; lia).
  apply app_inj_1 in Hleft as [H2 Hleft].
  2: { pose proof (length_slice content (data_offset + (relative + FLIGHT_RECORD_HEADER_BYTES))
         (fr_total r - FLIGHT_RECORD_HEADER_BYTES) ltac:(wire_consts; lia) ltac:(wire_consts; lia)
         ltac:(wire_consts; lia)). wire_consts. unfold zlen in *. lia. }
  replace (relative + FLIGHT_RECORD_HEADER_BYTES + (fr_total r - FLIGHT_RECORD_HEADER_BYTES))
    with (relative + fr_total r) in Hleft by lia.
  rewrite (left_over_split _ (fr_storage r - fr_total r)) in Hleft by lia.
  apply app_inj_1 in Hleft as [H3 Hleft].
  2: { pose proof (length_slice content (data_offset + (relative + fr_total r))
         (fr_storage r - fr_total r) ltac:(lia) ltac:(lia) ltac:(lia)) as Hl.
       unfold zlen in Hl. rewrite length_replicate. lia. }
  rewrite !Z.add_assoc in *. split_and!; [done..|].
  rewrite <- Hleft. f_equal. lia.
Qed.

Lemma run_scan_turn_record r rest st x :
  in_u32 (ch_generation header) -> record_ok r -> follows (ss_last st) r -> turn_ready st x ->
  zlen (v_items (ss_events st)) < 2 ^ 61 -> fx_next_ordinal x + 1 <= u64_max ->
  left_over (ss_relative st) = encode_record (ch_generation header) r ++ rest ->
  exists st' x',
    run (scan_turn source artifact chunk_index header data_offset limit active st) x = (Ok (Some st'), x')
    /\ scan_view st'
       = scan_advance artifact chunk_index header data_offset (fx_next_ordinal x) (scan_view st) r
    /\ turn_ready st' x' /\ left_over (ss_relative st') = rest
    /\ fx_next_ordinal x' = fx_next_ordinal x + 1.
Proof.
  intros Hgen Hok Hf (Hr & Hroom & Hcap & _) Hlen Hord Hleft.
  pose proof (lawful_bound (src := source) (content := content)) as Hb.
  pose proof (fr_storage_bounds r) as Hsb. pose proof (zlen_nonneg (fr_payload r)).
  assert (fr_total r = 24 + zlen (fr_payload r)) as Ht by done.
  assert (ss_relative st + fr_storage r <= limit) as Hle.
  { pose proof (left_over_length (ss_relative st) ltac:(lia)) as Hl. rewrite Hleft, zlen_app, zlen_encode_record in Hl.
    pose proof (zlen_nonneg rest). lia. }
  destruct (record_slices r (ss_relative st) rest Hok ltac:(lia) Hle Hleft) as (Hs1 & Hs2 & Hs3 & Hs4).
  unfold scan_turn. rewrite (run_bind_ok _ _ _ tt x) by done. rewrite (run_bind_ok _ _ _ x x) by done.
  rewrite (run_bind_ok _ _ _ (limit - ss_relative st) x)
    by (unfold lift_option, checked_sub; by replace (ss_relative st <=? limit) with true by lia).
  replace (limit - ss_relative st <? FLIGHT_RECORD_HEADER_BYTES) with false by (wire_consts; lia).
  rewrite (run_bind_ok _ _ _ (data_offset + ss_relative st) x)
    by (unfold lift_option; by rewrite checked_add_ok by lia).
  set (x1 := count_input FLIGHT_RECORD_HEADER_BYTES x).
  rewrite (run_bind_ok _ _ _ (encode_record_header (fr_header (ch_generation header) r)) x1)
    by (rewrite <- Hs1; apply (run_read_into source content); wire_consts; lia).
  rewrite (run_result_ok _ _ _ (fr_header (ch_generation header) r))
    by by apply record_header_read, fr_header_ok.
  fold (commit_word (ch_generation header) (rh_total_bytes (fr_header (ch_generation header) r))).
  cbn [fr_header rh_kind rh_flags rh_total_bytes rh_sequence rh_checksum rh_commit].
  rewrite Z.eqb_refl. cbn [negb]. destruct Hok eqn:Hok'.
  rewrite run_passed by (wire_consts; lia).
  rewrite (run_option_ok _ _ _ _ (fr_storage r)) by by apply record_storage_ok.
  rewrite run_passed by lia. rewrite run_passed by (by rewrite rk_valid0).
  rewrite run_passed by (unfold follows in Hf; destruct (ss_last st); lia).
  rewrite (run_option_ok _ _ _ _ (data_offset + ss_relative st + FLIGHT_RECORD_HEADER_BYTES))
    by (apply checked_add_ok; wire_consts; lia).
  set (x2 := count_input (fr_total r - FLIGHT_RECORD_HEADER_BYTES) x1).
  rewrite (run_bind_ok _ _ _ (fr_payload r) x2)
    by (rewrite <- Hs2; apply (run_read_payload source content); wire_consts; lia).
  rewrite run_passed by (rewrite negb_false_iff, bool_decide_eq_true,
    record_checksum_covered, covered_header by apply zlen_record_header; done).
  destruct (run_check_padding (mkCoordinate (data_offset + ss_relative st) (Some (fx_next_ordinal x)))
    (data_offset + ss_relative st) (fr_total r) (fr_storage r) (fx_next_ordinal x) x2)
    as (x3 & Hpad & Hx3); [lia..|done|].
  rewrite (run_bind_ok _ _ _ _ _ Hpad).
  destruct (run_guarded_push T_PhysicalRecord (ss_events st)
    (physical artifact chunk_index header data_offset (fx_next_ordinal x) (ss_relative st) r) x3
    Hroom Hcap Hlen) as (cap & Hpush & Hcap').
  rewrite (run_bind_ok _ _ _ _ _ Hpush).
  rewrite (run_option_ok _ _ _ _ (fx_next_ordinal x + 1)) by by apply checked_add_ok.
  rewrite (run_bind_ok _ _ _ tt (set_next_ordinal (fx_next_ordinal x + 1) x3)) by done.
  rewrite (run_bind_ok _ _ _ tt (count_seen (set_next_ordinal (fx_next_ordinal x + 1) x3))) by done.
  destruct (update_lifecycle _ _ _ _) as [balance first_begin] eqn:Eu.
  rewrite (run_option_ok _ _ _ _ (ss_relative st + fr_storage r)) by (apply checked_add_ok; lia).
  eexists _, _. split; [reflexivity|]. split_and!.
  - unfold scan_advance, scan_view. cbn. by rewrite Eu.
  - split; cbn; unfold roomy; cbn; lia.
  - done.
  - done.
Qed.

Lemma run_scan_turn_stop st x :
  active = true -> turn_ready st x -> uncommitted (ch_generation header) (left_over (ss_relative st)) ->
  exists x',
    run (scan_turn source artifact chunk_index header data_offset limit active st) x = (Ok None, x')
    /\ fx_next_ordinal x' = fx_next_ordinal x.
Proof.
  intros Ha (Hr & _) Hunc. pose proof (lawful_bound (src := source) (content := content)) as Hb.
  pose proof (left_over_length (ss_relative st) Hr) as Hl.
  unfold scan_turn. rewrite (run_bind_ok _ _ _ tt x) by done. rewrite (run_bind_ok _ _ _ x x) by done.
  rewrite (run_option_ok _ _ _ _ (limit - ss_relative st))
    by (unfold checked_sub; by replace (ss_relative st <=? limit) with true by lia).
  rewrite Ha. destruct Hunc as [Hshort|(h & rest & Htail & Hh & Hne)].
  { rewrite Hl in Hshort. exists x. replace (_ <? FLIGHT_RECORD_HEADER_BYTES) with true by lia. done. }
  assert (FLIGHT_RECORD_HEADER_BYTES <= limit - ss_relative st) as Hlong.
  { rewrite <- Hl, Htail, zlen_app, zlen_record_header. pose proof (zlen_nonneg rest). lia. }
  replace (_ <? FLIGHT_RECORD_HEADER_BYTES) with false by lia.
  rewrite (run_option_ok _ _ _ _ (data_offset + ss_relative st)) by (apply checked_add_ok; lia).
  set (x1 := count_input FLIGHT_RECORD_HEADER_BYTES x).
  assert (slice content (data_offset + ss_relative st) FLIGHT_RECORD_HEADER_BYTES
          = encode_record_header h) as Hs.
  { rewrite (left_over_split (ss_relative st) FLIGHT_RECORD_HEADER_BYTES) in Htail by (wire_consts; lia).
    apply app_inj_1 in Htail as [Hs _]; [done|].
    pose proof (length_slice content (data_offset + ss_relative st) FLIGHT_RECORD_HEADER_BYTES
      ltac:(lia) ltac:(done) ltac:(lia)). pose proof (zlen_record_header h). unfold zlen in *. lia. }
  rewrite (run_bind_ok _ _ _ (encode_record_header h) x1)
    by (rewrite <- Hs; apply (run_read_into source content); wire_consts; lia).
  rewrite (run_result_ok _ _ _ h) by by apply record_header_read.
  fold (commit_word (ch_generation header) (rh_total_bytes h)).
  destruct (Z.eqb_spec (rh_commit h) (commit_word (ch_generation header) (rh_total_bytes h))); [done|].
  by exists x1.
Qed.

Lemma encode_record_nonempty r rest relative :
  0 <= relative <= limit -> left_over relative = encode_record (ch_generation header) r ++ rest ->
  relative < limit.
Proof.
  intros Hr Hl. pose proof (left_over_length relative Hr) as Hz.
  rewrite Hl, zlen_app, zlen_encode_record in Hz.
  pose proof (fr_storage_bounds r). pose proof (zlen_nonneg rest). lia.
Qed.

Lemma run_scan_loop fuel recs tail st x :
  in_u32 (ch_generation header) -> turn_ready st x ->
  Forall record_ok recs -> chained (ss_last st) recs ->
  left_over (ss_relative st) = encode_records (ch_generation header) recs ++ tail ->
  (tail = [] \/ active = true /\ uncommitted (ch_generation header) tail) ->
  zlen (v_items (ss_events st)) + zlen recs <= 2 ^ 61 -> fx_next_ordinal x + zlen recs <= u64_max ->
  (length recs < fuel)%nat ->
  exists st' x',
    run (scan_loop source fuel artifact chunk_index header data_offset limit active st) x = (Ok st', x')
    /\ scan_view st' = scan_advances artifact chunk_index header data_offset (fx_next_ordinal x)
                         (scan_view st) recs
    /\ left_over (ss_relative st') = tail /\ ss_relative st' <= limit
    /\ fx_next_ordinal x' = fx_next_ordinal x + zlen recs.
Proof.
  intros Hgen Hready Hoks. revert fuel st x Hready.
  induction Hoks as [|r recs Hok Hoks IH]; intros fuel st x Hready Hch Hleft Htail Hlen Hord Hfuel;
    destruct fuel as [|fuel]; [lia| |lia|]; cbn [scan_loop].
  - cbn in Hleft. destruct Hready as (Hr & Hready'). destruct (Z.ltb_spec (ss_relative st) limit).
    + destruct Htail as [->|[Ha Hunc]].
      { pose proof (left_over_length (ss_relative st) Hr) as Hl. rewrite Hleft in Hl. unfold zlen in Hl.
        cbn in Hl. lia. }
      rewrite <- Hleft in Hunc.
      destruct (run_scan_turn_stop st x Ha (conj Hr Hready') Hunc) as (x' & Hrun & Hx').
      exists st, x'. rewrite (run_bind_ok _ _ _ _ _ Hrun). cbn. unfold zlen. cbn.
      split_and!; [done..|lia|lia].
    + exists st, x. cbn. unfold zlen. cbn. split_and!; [done..|lia|lia].
  - cbn in Hleft, Hch. destruct Hch as [Hf Hch]. unfold zlen in Hlen, Hord. cbn in Hlen, Hord, Hfuel.
    fold (encode_records (ch_generation header) recs) in Hleft. rewrite <- app_assoc in Hleft.
    pose proof (encode_record_nonempty _ _ _ (proj1 Hready) Hleft) as Hlt.
    replace (ss_relative st <? limit) with true by lia.
    destruct (run_scan_turn_record r (encode_records (ch_generation header) recs ++ tail) st x Hgen Hok
      Hf Hready) as (st1 & x1 & Hrun & Hv & Hready1 & Hl1 & Hx1);
      [unfold zlen; lia|lia|exact Hleft|].
    rewrite (run_bind_ok _ _ _ _ _ Hrun). cbn [scan_advances].
    assert (ss_last st1 = Some (fr_sequence r)) as Hlast.
    { apply (f_equal ss_last) in Hv. by rewrite scan_advance_last in Hv. }
    assert (length (v_items (ss_events st1)) = Datatypes.S (length (v_items (ss_events st)))) as Hle1.
    { apply (f_equal (fun s => length (v_items (ss_events s)))) in Hv. unfold scan_advance in Hv.
      destruct (update_lifecycle _ _ _ _). cbn in Hv. rewrite length_app in Hv. cbn in Hv. lia. }
    destruct (IH fuel st1 x1 Hready1) as (st' & x' & Hrun' & Hv' & Hl' & Hle' & Hx');
      [by rewrite Hlast|done|done|unfold zlen; lia|unfold zlen; lia|lia|].
    exists st', x'. rewrite Hv' , Hv, Hx1. rewrite Hx', Hx1. unfold zlen. cbn.
    split_and!; [done..|lia].
Qed.

(** In the format nothing but a refusal stops a scan, in any world. *)
Section accepting.
Context {W : Type} `{WorkGuard W} `{Allocator W}.
Context (Hgen : in_u32 (ch_generation header)).
Abbreviation accepts p Q x := (wp (W := W) (E := ProviderError) p Q (fun e _ => resource_error e) x).

Lemma accepts_padding coordinate record_offset total storage ordinal (Q : unit -> RecoveryContext -> Prop) x :
  0 <= record_offset -> 0 <= total <= storage -> storage <= total + 7 -> record_offset + storage <= zlen content ->
  slice content (record_offset + total) (storage - total) = replicate (Z.to_nat (storage - total)) x00 ->
  (forall x', fx_next_ordinal x' = fx_next_ordinal x -> Q tt x') ->
  accepts (check_padding source coordinate record_offset total storage ordinal) Q x.
Proof.
  intros Ho Ht Ht7 Hle Hpad HQ. pose proof (lawful_bound (src := source) (content := content)).
  unfold check_padding. destruct (Z.eqb_spec (storage - total) 0); [by apply wp_ret, HQ|].
  apply wp_bind, wp_option. rewrite checked_add_ok by lia.
  apply wp_bind, wp_fail_if; [intros _|intros; lia].
  apply wp_bind, (wp_read_within source content); [lia..| |done]. rewrite Hpad.
  apply wp_fail_if; [intros _; by apply HQ|]. rewrite existsb_exists. intros (b & Hb & Hz).
  by apply list_elem_of_In, elem_of_replicate in Hb as [-> _].
Qed.

Lemma accepts_record_turn r rest st x :
  record_ok r -> follows (ss_last st) r -> 0 <= ss_relative st <= limit -> fx_next_ordinal x + 1 <= u64_max ->
  left_over (ss_relative st) = encode_record (ch_generation header) r ++ rest ->
  accepts (scan_turn source artifact chunk_index header data_offset limit active st)
    (fun turn x' => exists st', turn = Some st'
       /\ scan_view st' = scan_advance artifact chunk_index header data_offset (fx_next_ordinal x) (scan_view st) r
       /\ 0 <= ss_relative st' <= limit /\ left_over (ss_relative st') = rest
       /\ fx_next_ordinal x' = fx_next_ordinal x + 1) x.
Proof.
  intros Hok Hf Hr Hord Hleft. pose proof (lawful_bound (src := source) (content := content)) as Hb.
  pose proof (fr_storage_bounds r) as Hsb. pose proof (zlen_nonneg (fr_payload r)).
  assert (fr_total r = 24 + zlen (fr_payload r)) as Ht by done.
  assert (ss_relative st + fr_storage r <= limit) as Hle.
  { pose proof (left_over_length (ss_relative st) ltac:(lia)) as Hl. rewrite Hleft, zlen_app, zlen_encode_record in Hl.
    pose proof (zlen_nonneg rest). lia. }
  destruct (record_slices r (ss_relative st) rest Hok ltac:(lia) Hle Hleft) as (Hs1 & Hs2 & Hs3 & Hs4).
  unfold scan_turn. apply wp_bind, wp_consume; [|done]. apply wp_bind, wp_get.
  apply wp_bind, wp_option. unfold checked_sub. replace (ss_relative st <=? limit) with true by lia.
  replace (limit - ss_relative st <? FLIGHT_RECORD_HEADER_BYTES) with false by (wire_consts; lia).
  apply wp_bind, wp_option. rewrite checked_add_ok by lia.
  apply wp_bind, (wp_read_within source content); [lia|by wire_consts|wire_consts; lia| |done]. rewrite Hs1.
  apply wp_bind, wp_result. rewrite record_header_read by by apply fr_header_ok.
  fold (commit_word (ch_generation header) (rh_total_bytes (fr_header (ch_generation header) r))).
  cbn [fr_header rh_kind rh_flags rh_total_bytes rh_sequence rh_checksum rh_commit].
  rewrite Z.eqb_refl. cbn [negb]. destruct Hok eqn:Hok'.
  apply wp_bind, wp_fail_if; [intros _|wire_consts; lia].
  apply wp_bind, wp_option. rewrite record_storage_ok by done.
  apply wp_bind, wp_fail_if; [intros _|lia]. apply wp_bind, wp_fail_if; [intros _|by rewrite rk_valid0].
  apply wp_bind, wp_fail_if; [intros _|unfold follows in Hf; destruct (ss_last st); lia].
  apply wp_bind, wp_option. rewrite checked_add_ok by (wire_consts; lia).
  apply wp_bind, (wp_payload_within source content); [wire_consts; lia..| |done]. rewrite Hs2.
  apply wp_bind, wp_fail_if; [intros _|].
  2: { rewrite negb_true_iff, bool_decide_eq_false, record_checksum_covered, covered_header by apply zlen_record_header. by intros []. }
  apply wp_bind, accepts_padding; [lia..|done|]. intros x3 Hx3.
  apply wp_bind, wp_guarded_push; [|auto using host_resource]. intros cap.
  apply wp_bind, wp_option. rewrite checked_add_ok by done.
  apply wp_bind, wp_modify, wp_bind, wp_modify. destruct (update_lifecycle _ _ _ _) as [balance first_begin] eqn:Eu.
  apply wp_bind, wp_option. rewrite checked_add_ok by lia. apply wp_ret. eexists. split; [done|]. split_and!; cbn; [|lia..|done|done].
  unfold scan_advance, scan_view. cbn. by rewrite Eu.
Qed.

Lemma accepts_loop fuel recs st x :
  Forall record_ok recs -> chained (ss_last st) recs -> 0 <= ss_relative st <= limit ->
  left_over (ss_relative st) = encode_records (ch_generation header) recs ->
  fx_next_ordinal x + zlen recs <= u64_max -> (length recs < fuel)%nat ->
  accepts (scan_loop source fuel artifact chunk_index header data_offset limit active st)
    (fun st' _ => scan_view st' = scan_advances artifact chunk_index header data_offset (fx_next_ordinal x) (scan_view st) recs
       /\ ss_relative st' = limit) x.
Proof.
  intros Hoks. revert fuel st x. induction Hoks as [|r recs Hok _ IH]; intros fuel st x Hch Hr Hleft Hord Hfuel;
    (destruct fuel as [|fuel]; [cbn in Hfuel; lia|]); cbn [scan_loop].
  - pose proof (left_over_length (ss_relative st) Hr) as Hl. rewrite Hleft in Hl. change (zlen (encode_records _ [])) with 0 in Hl.
    replace (ss_relative st <? limit) with false by lia. apply wp_ret. cbn. split; [done|lia].
  - cbn [chained] in Hch. destruct Hch as [Hf Hch]. unfold encode_records in Hleft. cbn [map concat] in Hleft.
    fold (encode_records (ch_generation header) recs) in Hleft. unfold zlen in Hord. cbn [length] in Hord, Hfuel.
    pose proof (encode_record_nonempty _ _ _ Hr Hleft) as Hlt. replace (ss_relative st <? limit) with true by lia.
    apply wp_bind. eapply wp_mono; [apply (accepts_record_turn r _ st x Hok Hf Hr ltac:(lia) Hleft)| |done].
    intros turn x1 (st1 & -> & Hv & Hr1 & Hl1 & Hx1). cbn [scan_advances].
    assert (ss_last st1 = Some (fr_sequence r)) as Hlast.
    { apply (f_equal ss_last) in Hv. by rewrite scan_advance_last in Hv. }
    rewrite <- Hv, <- Hx1. apply IH; [by rewrite Hlast|done|done|unfold zlen; lia|lia].
Qed.

End accepting.

End scans.

(** ** The contract of a scan *)

Section contract.
Context (artifact : ArtifactDigest) (chunk_index : Z) (header : ChunkHeader) (data_offset : Z).

Fixpoint physicals (ordinal relative : Z) (recs : list FlightRecord) : list PhysicalFlight :=
  match recs with
  | [] => []
  | r :: recs =>
      physical artifact chunk_index header data_offset ordinal relative r
      :: physicals (ordinal + 1) (relative + fr_storage r) recs
  end.

Definition lifecycle_of (start : Z * option Z) (recs : list FlightRecord) : Z * option Z :=
  foldl (fun '(balance, first_begin) r =>
           update_lifecycle balance first_begin (fr_kind r) (fr_sequence r)) start recs.

Definition scan_summary (recs : list FlightRecord) : RecordScan :=
  mkRecordScan (fr_sequence <$> head recs) (fr_sequence <$> last recs)
    (fst (lifecycle_of (0, None) recs)) (snd (lifecycle_of (0, None) recs)).

Abbreviation advances := (scan_advances artifact chunk_index header data_offset).

Lemma scan_advances_items ordinal st recs :
  v_items (ss_events (advances ordinal st recs))
  = v_items (ss_events st) ++ physicals ordinal (ss_relative st) recs.
Proof.
  revert ordinal st. induction recs as [|r recs IH]; intros ordinal st; cbn [scan_advances physicals].
  - by rewrite app_nil_r.
  - rewrite IH, scan_advance_relative. unfold scan_advance.
    destruct (update_lifecycle _ _ _ _). cbn. by rewrite <- app_assoc.
Qed.

Lemma scan_advances_ends ordinal st recs :
  ss_first (advances ordinal st recs)
    = match ss_first st with None => fr_sequence <$> head recs | some => some end
  /\ ss_last (advances ordinal st recs)
    = match last recs with Some r => Some (fr_sequence r) | None => ss_last st end.
Proof.
  revert ordinal st. induction recs as [|r recs IH]; intros ordinal st; cbn [scan_advances].
  - cbn. by destruct (ss_first st).
  - destruct (IH (ordinal + 1) (scan_advance artifact chunk_index header data_offset ordinal st r))
      as [-> ->].
    unfold scan_advance. destruct (update_lifecycle _ _ _ _). cbn.
    split; [by destruct (ss_first st)|]. destruct recs as [|r' recs]; [done|]. cbn.
    by destruct (last (r' :: recs)) eqn:E; [|apply last_None in E].
Qed.

Lemma scan_advances_lifecycle ordinal st recs :
  (ss_balance (advances ordinal st recs), ss_first_begin (advances ordinal st recs))
  = lifecycle_of (ss_balance st, ss_first_begin st) recs.
Proof.
  revert ordinal st. induction recs as [|r recs IH]; intros ordinal st; cbn [scan_advances]; [done|].
  rewrite IH. unfold scan_advance, lifecycle_of. cbn. by destruct (update_lifecycle _ _ _ _).
Qed.

End contract.

(** The data of a chunk, the records in it and what the scan reports of them. *)
Definition scanned (content : bytes) (artifact : ArtifactDigest) (chunk_index : Z)
    (header : ChunkHeader) (start stop : Z) (active : bool) (ordinal : Z) (scan : RecordScan)
    (items : list PhysicalFlight) (ordinal' : Z) : Prop :=
  exists recs tail,
    slice content start (stop - start) = encode_records (ch_generation header) recs ++ tail
    /\ Forall record_ok recs /\ chained None recs
    /\ (if active then uncommitted (ch_generation header) tail else tail = [])
    /\ scan = scan_summary recs
    /\ items = physicals artifact chunk_index header start ordinal 0 recs
    /\ ordinal' = ordinal + zlen recs.

Lemma encode_records_length generation recs : 24 * zlen recs <= zlen (encode_records generation recs).
Proof.
  unfold encode_records. induction recs as [|r recs IH]; [done|]. cbn.
  rewrite zlen_app, zlen_encode_record. pose proof (fr_storage_bounds r).
  unfold zlen in *. cbn. lia.
Qed.

Section records.
Context (source : ReadAtSource) (content : bytes) {LS : LawfulSource source content}.
Context (artifact : ArtifactDigest) (chunk_index : Z) (header : ChunkHeader).
Context (start stop : Z) (active : bool).
Context (Hstart : 0 <= start <= stop) (Hstop : stop <= zlen content).

Lemma scan_summary_view st ordinal recs events :
  scan_view st = scan_advances artifact chunk_index header start ordinal
                   (scan_view (mkScanState 0 None 0 None None (vec_clear events))) recs ->
  mkRecordScan (ss_first st) (ss_last st) (ss_balance st) (ss_first_begin st) = scan_summary recs
  /\ v_items (ss_events st) = physicals artifact chunk_index header start ordinal 0 recs.
Proof.
  intros Hv.
  pose proof (scan_advances_items artifact chunk_index header start ordinal
    (scan_view (mkScanState 0 None 0 None None (vec_clear events))) recs) as Hi.
  pose proof (scan_advances_ends artifact chunk_index header start ordinal
    (scan_view (mkScanState 0 None 0 None None (vec_clear events))) recs) as [Hf Hl].
  pose proof (scan_advances_lifecycle artifact chunk_index header start ordinal
    (scan_view (mkScanState 0 None 0 None None (vec_clear events))) recs) as Hc.
  rewrite <- Hv in *. cbn in Hi, Hf, Hl, Hc. split; [|done].
  unfold scan_summary. rewrite <- Hc, Hf, Hl. cbn. by destruct (last recs).
Qed.

(** Records take at least a header's length each. *)
Lemma scanned_count recs tail :
  slice content start (stop - start) = encode_records (ch_generation header) recs ++ tail -> 24 * zlen recs <= stop - start.
Proof.
  intros Hdata. pose proof (encode_records_length (ch_generation header) recs).
  pose proof (length_slice content start (stop - start) ltac:(lia) ltac:(lia) ltac:(lia)) as Hl.
  rewrite Hdata, zlen_app in Hl. pose proof (zlen_nonneg tail). lia.
Qed.

Lemma wp_scan_records {W} `{WorkGuard W} `{Allocator W} events x :
  wp (W := W) (scan_records source artifact chunk_index header start stop active events)
    (fun r x' => scanned content artifact chunk_index header start stop active (fx_next_ordinal x)
                   (fst r) (v_items (snd r)) (fx_next_ordinal x'))
    (fun e x' => recovery_error e /\ fx_next_ordinal x' <= fx_next_ordinal x + (stop - start)) x.
Proof.
  unfold scan_records. apply wp_bind, wp_option. unfold checked_sub.
  replace (start <=? stop) with true by lia. apply wp_bind.
  eapply wp_mono; [apply (wp_scan_loop source content); cbn; lia| |cbn; intros e x' [He Hx]; split; [done|lia]].
  intros st x' (recs & tail & Hleft & Hoks & Hch & Hv & Htail & Hteq & Hle & Hx').
  unfold left_over in Hleft. cbn [ss_relative] in Hleft. rewrite Z.add_0_r, Z.sub_0_r in Hleft.
  pose proof (scanned_count recs tail Hleft) as Hcount. pose proof (zlen_nonneg recs).
  apply wp_bind, wp_get, wp_bind, wp_fail_if; [intros Hfin|intros _; split; [done|lia]]. apply wp_ret. cbn [fst snd].
  destruct (scan_summary_view st (fx_next_ordinal x) recs events Hv) as [Hs Hi].
  exists recs, tail. split_and!; [done..| |done|done|done].
  destruct active; [|destruct Htail as [?|[? _]]; done].
  destruct Htail as [->|[_ Hu]]; [by left|done].
Qed.

(** A sealed chunk in the format is scanned in any world that does not refuse. *)
Lemma accepts_records {W} `{WorkGuard W} `{Allocator W} events x scan items ordinal' :
  active = false -> in_u32 (ch_generation header) -> fx_next_ordinal x + (stop - start) <= u64_max ->
  scanned content artifact chunk_index header start stop active (fx_next_ordinal x) scan items ordinal' ->
  wp (W := W) (scan_records source artifact chunk_index header start stop active events)
    (fun r _ => fst r = scan /\ v_items (snd r) = items) (fun e _ => resource_error e) x.
Proof.
  intros Ha Hgen Hord (recs & tail & Hdata & Hoks & Hch & Htail & -> & -> & _). pose proof (scanned_count recs tail Hdata) as Hcount.
  pose proof (zlen_nonneg recs). rewrite Ha in Htail. subst tail. rewrite app_nil_r in Hdata.
  unfold scan_records. apply wp_bind, wp_option. unfold checked_sub. replace (start <=? stop) with true by lia. apply wp_bind.
  eapply wp_mono; [apply (accepts_loop source content artifact chunk_index header start (stop - start) active ltac:(lia) ltac:(lia) Hgen
    (Datatypes.S (Z.to_nat (stop - start))) recs)| |done]; cbn [ss_last ss_relative].
  - done.
  - done.
  - lia.
  - unfold left_over. by rewrite Z.add_0_r, Z.sub_0_r.
  - lia.
  - unfold zlen in *. lia.
  - intros st x' [Hv Hend]. destruct (scan_summary_view st (fx_next_ordinal x) recs events Hv) as [Hs Hi].
    apply wp_bind, wp_get, wp_bind, wp_fail_if; [intros _|rewrite Hend, Z.eqb_refl, andb_false_r; done].
    apply wp_ret. cbn [fst snd]. by rewrite Hs.
Qed.

Lemma run_scan_records events x scan items ordinal' :
  in_u32 (ch_generation header) -> roomy events -> 0 <= v_capacity events ->
  fx_next_ordinal x + (stop - start) <= u64_max ->
  scanned content artifact chunk_index header start stop active (fx_next_ordinal x) scan items ordinal' ->
  exists cap x',
    run (scan_records source artifact chunk_index header start stop active events) x
    = (Ok (scan, mkVec items cap), x') /\ fx_next_ordinal x' = ordinal'.
Proof.
  intros Hgen Hroom Hcap Hord (recs & tail & Hdata & Hoks & Hch & Htail & -> & -> & ->).
  pose proof (lawful_bound (src := source) (content := content)) as Hb.
  pose proof (scanned_count recs tail Hdata) as Hcount.
  pose proof (zlen_nonneg recs). unfold scan_records.
  rewrite (run_option_ok _ _ _ _ (stop - start))
    by (unfold checked_sub; by replace (start <=? stop) with true by lia).
  destruct (run_scan_loop source content artifact chunk_index header start (stop - start) active
    ltac:(lia) ltac:(lia) (Datatypes.S (Z.to_nat (stop - start))) recs tail
    (mkScanState 0 None 0 None None (vec_clear events)) x) as (st & x' & Hrun & Hv & Hl & Hle & Hx');
    cbn [ss_last ss_relative ss_events vec_clear v_items].
  - done.
  - split; cbn; [lia|]. split_and!; [done..|lia].
  - done.
  - done.
  - unfold left_over. by rewrite Z.add_0_r, Z.sub_0_r.
  - destruct active; [by right|by left].
  - unfold zlen at 1. cbn. unfold u64_max in *. lia.
  - lia.
  - unfold zlen in *. lia.
  - destruct (scan_summary_view st (fx_next_ordinal x) recs events Hv) as [Hs Hi].
    exists (v_capacity (ss_events st)), x'. split; [|done].
    rewrite (run_bind_ok _ _ _ _ _ Hrun), (run_bind_ok _ _ _ x' x') by done.
    assert (active = false -> ss_relative st = stop - start) as Hend.
    { intros ->. subst tail. pose proof (left_over_length content start (stop - start)) as Hz.
      destruct (Z.eq_dec (ss_relative st) (stop - start)) as [|Hne]; [done|]. exfalso.
      assert (0 <= ss_relative st) as Hr0.
      { apply (f_equal ss_relative) in Hv. cbn in Hv. rewrite Hv. clear.
        assert (forall recs o s, 0 <= ss_relative s ->
          0 <= ss_relative (scan_advances artifact chunk_index header start o s recs)) as Hpos.
        { intros rs. induction rs as [|r rs IH]; intros o s Hs; cbn; [done|]. apply IH.
          rewrite scan_advance_relative. pose proof (fr_storage_bounds r). lia. }
        apply Hpos. cbn. lia. }
      specialize (Hz ltac:(lia) ltac:(lia) (ss_relative st) ltac:(lia)).
      rewrite Hl in Hz. unfold zlen in Hz. cbn in Hz. lia. }
    rewrite run_passed
      by (destruct active; [done|]; cbn; rewrite Hend by done; by rewrite Z.eqb_refl).
    rewrite Hs, <- Hi. by destruct (ss_events st).
Qed.

End records.

(** C10: a chunk scan returns exactly the committed records: under any guard and
    heap a returned scan has split the chunk's data into well-formed records of
    the chunk's generation with growing sequence numbers, followed by nothing (a
    sealed chunk) or by bytes not committed under that generation (an active
    one), and reports those records with their offsets, ordinals, end points and
    lifecycle balance; and data of that form is always scanned. *)
Theorem scan_records_exact (source : ReadAtSource) (content : bytes) {LS : LawfulSource source content}
    (artifact : ArtifactDigest) (chunk_index : Z) (header : ChunkHeader) (start stop : Z)
    (active : bool) (events : Vec PhysicalFlight) (x : RecoveryContext)
    (Hstart : 0 <= start <= stop) (Hstop : stop <= zlen content)
    (Hgen : in_u32 (ch_generation header)) (Hcap : 0 <= v_capacity events <= 2 ^ 62)
    (Hord : fx_next_ordinal x + (stop - start) <= u64_max) :
  (forall W (G : WorkGuard W) (A : Allocator W) w scan out x' w',
     scan_records source artifact chunk_index header start stop active events x w
       = (Ok (scan, out), x', w') ->
     scanned content artifact chunk_index header start stop active (fx_next_ordinal x) scan
       (v_items out) (fx_next_ordinal x'))
  /\ (forall scan items ordinal',
     scanned content artifact chunk_index header start stop active (fx_next_ordinal x) scan items ordinal' ->
     exists cap x',
       run (scan_records source artifact chunk_index header start stop active events) x
       = (Ok (scan, mkVec items cap), x') /\ fx_next_ordinal x' = ordinal').
Proof.
  split.
  - intros W G A w scan out x' w' Hrun.
    exact (wp_run_ok _ _ _ _ _ _ _ _
      (wp_scan_records source content artifact chunk_index header start stop active Hstart Hstop events x)
      Hrun).
  - intros scan items ordinal' Hs.
    exact (run_scan_records source content artifact chunk_index header start stop active Hstart Hstop
      events x scan items ordinal' Hgen (proj2 Hcap) (proj1 Hcap) Hord Hs).
Qed.

Definition sample_chunk : ChunkHeader := mkChunkHeader 2 77 3 5 6 56 2 0.
Definition sample_records : list FlightRecord :=
  [mkFlightRecord 2 0 5 []; mkFlightRecord 3 0 6 [x2a]].
Definition sample_data : bytes := encode_records 3 sample_records.

Lemma scan_records_exact_witness :
  exists cap x',
    run (scan_records (ByteSource sample_data) [] 0 sample_chunk 0 56 false vec_new)
      (mkRecoveryContext counters_default 0)
    = (Ok (mkRecordScan (Some 5) (Some 6) 0 (Some 5),
           mkVec (physicals [] 0 sample_chunk 0 0 0 sample_records) cap), x')
    /\ fx_next_ordinal x' = 2.
Proof.
  assert (LawfulSource (ByteSource sample_data) sample_data) as LS
    by (apply ByteSource_lawful; vm_compute; discriminate).
  refine (proj2 (scan_records_exact (ByteSource sample_data) sample_data [] 0 sample_chunk 0 56 false
    vec_new (mkRecoveryContext counters_default 0) _ _ _ _ _) _ _ 2 _);
    [lia|vm_compute; discriminate|split; vm_compute; discriminate|split; vm_compute; discriminate
    |vm_compute; discriminate|].
  exists sample_records, []. split_and!; [vm_compute; reflexivity| |cbn; lia|done..].
  repeat constructor; vm_compute; discriminate.
Defined.
