(* ===== verification/FlightLoss.v ===== *)
(** * Accounting for lost sequence numbers

    Models the part of [qtrace-provider/src/flight/recovery.rs] that turns the
    recovered records, the ranges the directory and the chunk headers claim and
    the ranges of damaged chunks into completeness ranges and physical proofs:
    [add_sequence_completeness] and what it calls. *)

From stdpp Require Import prelude list sorting strings pretty.
From Stdlib Require Import ZArith Lia Strings.Byte.
From S2P Require Import Prelude Prog Control Model Source FlightWire FlightContext FlightScan.
Local Open Scope string_scope.
Local Open Scope list_scope.
Local Open Scope Z_scope.

Record SequenceRange := mkSequenceRange { sr_first : Z; sr_last : Z }.

Inductive ProofCoordinate := AtSource (offset : Z) | AtEof.

Record SequenceFact := mkSequenceFact { sf_range : SequenceRange; sf_coordinate : ProofCoordinate }.

Record MissingRange := mkMissingRange { mr_range : SequenceRange; mr_cause : CompletenessCause }.

Record SequenceProof := mkSequenceProof {
  sp_range : SequenceRange;
  sp_cause : CompletenessCause;
  sp_provenance : Provenance;
  sp_coordinate : ProofCoordinate
}.

Record RecoveryStatus := mkRecoveryStatus {
  st_flags : Z;
  st_has_damage : bool;
  st_has_incomplete : bool
}.

Definition valid_sealed_range (header : ChunkHeader) : option SequenceRange :=
  if negb (Bool.eqb (ch_first_sequence header =? 0) (ch_last_sequence header =? 0))
     || (negb (ch_first_sequence header =? 0)
         && (ch_first_sequence header >? ch_last_sequence header))
     || (ch_first_sequence header =? 0)
  then None
  else Some (mkSequenceRange (ch_first_sequence header) (ch_last_sequence header)).

Section loss.
Context {W : Type} `{WorkGuard W} `{Allocator W} {S : Type}.
Abbreviation M := (Prog W ProviderError S).

Definition push_sequence_range (output : Vec CompletenessRange) (first last : Z) (p : Provenance)
    (c : CompletenessCause) : M (Vec CompletenessRange) :=
  let! range := lift_option (captured_sequence_with_cause first last p c)
    (allocation_error "invalid sequence completeness range") in
  guarded_push T_CompletenessRange output range.

Definition push_source_range (output : Vec CompletenessRange) (start stop : Z) (p : Provenance)
    (c : CompletenessCause) : M (Vec CompletenessRange) :=
  let! range := lift_option (source_bytes_with_cause start stop p c)
    (allocation_error "invalid source completeness range") in
  guarded_push T_CompletenessRange output range.

Definition mark_chunk_damage (completeness : Vec CompletenessRange) (damage : Vec SequenceRange)
    (proofs : Vec SequenceProof) (range : option SequenceRange) (offset chunk_bytes : Z)
    (cause : CompletenessCause) :
    M (Vec CompletenessRange * Vec SequenceRange * Vec SequenceProof) :=
  match range with
  | Some range =>
      let! proofs := guarded_push T_SequenceProof proofs
        (mkSequenceProof range cause Damaged (AtSource offset)) in
      let! completeness := push_sequence_range completeness (sr_first range) (sr_last range) Damaged
        cause in
      let! damage := guarded_push T_SequenceRange damage range in
      ret (completeness, damage, proofs)
  | None =>
      let! completeness := push_source_range completeness offset
        (saturating_add u64_max offset chunk_bytes) Damaged cause in
      ret (completeness, damage, proofs)
  end.

(** The two outputs of the gap search. *)
Abbreviation Gaps := (Vec CompletenessRange * Vec MissingRange)%type.

Definition push_missing_range (gaps : Gaps) (first last : Z) (cause : CompletenessCause) : M Gaps :=
  let! completeness := push_sequence_range (fst gaps) first last ProvUnknown cause in
  let! missing := guarded_push T_MissingRange (snd gaps)
    (mkMissingRange (mkSequenceRange first last) cause) in
  ret (completeness, missing).

(** [damage_steps.checked_add(1)] after its checkpoint. *)
Definition damage_step (steps : Z) : M Z :=
  guard_checkpoint steps ;!
  lift_option (checked_add usize_max steps 1) (allocation_error "damage sweep work overflow").

(** The [while let] loop of [add_missing_without_damage].  [damage] is the
    slice from [damage_index] on; advancing the index drops its head. *)
Fixpoint sweep_damage (damage : list SequenceRange) (cursor : option Z) (last : Z)
    (cause : CompletenessCause) (steps : Z) (gaps : Gaps) :
    M (list SequenceRange * option Z * Z * Gaps) :=
  match damage with
  | [] => ret ([], cursor, steps, gaps)
  | d :: rest =>
      match cursor with
      | None => ret (damage, cursor, steps, gaps)
      | Some current =>
          if sr_last d <? current then
            let! steps := damage_step steps in
            sweep_damage rest cursor last cause steps gaps
          else if sr_first d >? last then ret (damage, cursor, steps, gaps)
          else
            let! gaps :=
              if sr_first d >? current
              then push_missing_range gaps current (sr_first d - 1) cause else ret gaps in
            let cursor := checked_add u64_max (sr_last d) 1 in
            if sr_last d >? last then ret (damage, cursor, steps, gaps)
            else
              let! steps := damage_step steps in
              sweep_damage rest cursor last cause steps gaps
      end
  end.

Definition add_missing_without_damage (first last : Z) (damage : list SequenceRange) (steps : Z)
    (cause : CompletenessCause) (gaps : Gaps) : M (list SequenceRange * Z * Gaps) :=
  let! swept := sweep_damage damage (Some first) last cause steps gaps in
  let '(damage, cursor, steps, gaps) := swept in
  let! gaps :=
    match cursor with
    | Some current => if current <=? last then push_missing_range gaps current last cause else ret gaps
    | None => ret gaps
    end in
  ret (damage, steps, gaps).

(** The runs of consecutive sequence numbers that were recovered. *)
Definition retain_turn (st : option Z * Z * Vec CompletenessRange) (indexed : nat * PhysicalFlight) :
    M (option Z * Z * Vec CompletenessRange) :=
  let '(retained_start, retained_last, completeness) := st in
  let '(index, event) := indexed in
  guard_checkpoint (Z.of_nat index) ;!
  let! sequence := lift_option (ek_sequence (ph_key event))
    (allocation_error "Flight event has no sequence") in
  match retained_start with
  | None => ret (Some sequence, sequence, completeness)
  | Some start =>
      if bool_decide (checked_add u64_max retained_last 1 = Some sequence)
      then ret (retained_start, sequence, completeness)
      else
        let! completeness := push_sequence_range completeness start retained_last Captured Retained in
        ret (Some sequence, sequence, completeness)
  end.

(** The search for gaps between recovered records; [None] for the cursor means
    the sequence space is exhausted ([break]). *)
Fixpoint missing_loop (events : list (nat * PhysicalFlight)) (last : Z)
    (missing_cause : CompletenessCause) (cursor : option Z) (damage : list SequenceRange) (steps : Z)
    (gaps : Gaps) : M (option Z * list SequenceRange * Z * Gaps) :=
  match events with
  | [] => ret (cursor, damage, steps, gaps)
  | (index, event) :: events =>
      guard_checkpoint (Z.of_nat index) ;!
      let sequence := default 0 (ek_sequence (ph_key event)) in
      match cursor with
      | None => ret (cursor, damage, steps, gaps)
      | Some current =>
          if (sequence <? current) || (sequence >? last)
          then missing_loop events last missing_cause cursor damage steps gaps
          else
            let! swept :=
              if sequence >? current then
                let cause := if oo_record_type (ph_raw event) =? 15 then Lost else missing_cause in
                add_missing_without_damage current (sequence - 1) damage steps cause gaps
              else ret (damage, steps, gaps) in
            let '(damage, steps, gaps) := swept in
            missing_loop events last missing_cause (checked_add u64_max sequence 1) damage steps gaps
      end
  end.

(** [steps.checked_add(1)] after its checkpoint. *)
Definition proof_step (steps : Z) : M Z :=
  guard_checkpoint steps ;!
  lift_option (checked_add usize_max steps 1) (allocation_error "sequence proof work overflow").

(** The [while]: advance [first_candidate] past ranges that end before the fact. *)
Fixpoint skip_candidates (missing : list MissingRange) (first steps : Z) :
    M (list MissingRange * Z) :=
  match missing with
  | [] => ret ([], steps)
  | m :: rest =>
      if sr_last (mr_range m) <? first then
        let! steps := proof_step steps in
        skip_candidates rest first steps
      else ret (missing, steps)
  end.

(** The inner [for]: intersections of the fact with the missing ranges. *)
Fixpoint prove_fact (missing : list MissingRange) (fact : SequenceFact) (steps : Z)
    (output : Vec SequenceProof) : M (Z * Vec SequenceProof) :=
  match missing with
  | [] => ret (steps, output)
  | m :: rest =>
      let! steps := proof_step steps in
      if sr_first (mr_range m) >? sr_last (sf_range fact) then ret (steps, output)
      else
        let first := Z.max (sr_first (mr_range m)) (sr_first (sf_range fact)) in
        let last := Z.min (sr_last (mr_range m)) (sr_last (sf_range fact)) in
        let! output := guarded_push T_SequenceProof output
          (mkSequenceProof (mkSequenceRange first last) (mr_cause m) ProvUnknown
             (sf_coordinate fact)) in
        prove_fact rest fact steps output
  end.

Definition proof_turn (st : list MissingRange * Z * Vec SequenceProof) (fact : SequenceFact) :
    M (list MissingRange * Z * Vec SequenceProof) :=
  let '(missing, steps, output) := st in
  let! steps := proof_step steps in
  let! skipped := skip_candidates missing (sr_first (sf_range fact)) steps in
  let '(missing, steps) := skipped in
  let! proved := prove_fact missing fact steps output in
  ret (missing, fst proved, snd proved).

Definition add_missing_proofs (missing : list MissingRange) (facts : list SequenceFact)
    (output : Vec SequenceProof) : M (Vec SequenceProof) :=
  consume (delta_nodes (zlen facts)) ;!
  let! st := fold_each facts (missing, 0, output) proof_turn in
  ret (snd st).

(** The interval of sequence numbers anything is known about. *)
Definition widen (bounds : Z * Z) (indexed : nat * SequenceFact) : M (Z * Z) :=
  guard_checkpoint (Z.of_nat (fst indexed)) ;!
  ret (Z.min (fst bounds) (sr_first (sf_range (snd indexed))),
       Z.max (snd bounds) (sr_last (sf_range (snd indexed)))).

(** The sequence numbers the search spans before the hints widen them. *)
Definition initial_bounds (events : list PhysicalFlight) : Z * Z :=
  (default u64_max (head events ≫= fun e => ek_sequence (ph_key e)),
   default 0 (list.last events ≫= fun e => ek_sequence (ph_key e))).

(** [add_sequence_completeness] past its early return: the runs, the gaps between
    [first] and [last], their proofs. *)
Definition account_losses (events : list PhysicalFlight) (hints : list SequenceFact)
    (damage : list SequenceRange) (missing_cause : CompletenessCause) (first last : Z)
    (completeness : Vec CompletenessRange) (proofs : Vec SequenceProof) :
    M (Vec CompletenessRange * Vec SequenceProof) :=
  let! retained := fold_each (imap pair events) (None, 0, completeness) retain_turn in
  let '(retained_start, retained_last, completeness) := retained in
  let! completeness :=
    match retained_start with
    | Some start => push_sequence_range completeness start retained_last Captured Retained
    | None => ret completeness
    end in
  let! found := missing_loop (imap pair events) last missing_cause (Some first) damage 0
    (completeness, vec_new) in
  let '(cursor, damage, steps, gaps) := found in
  let! tail :=
    match cursor with
    | Some current =>
        if current <=? last
        then add_missing_without_damage current last damage steps missing_cause gaps
        else ret (damage, steps, gaps)
    | None => ret (damage, steps, gaps)
    end in
  let '(_, _, (completeness, missing)) := tail in
  let! proofs := add_missing_proofs (v_items missing) hints proofs in
  ret (completeness, proofs).

Definition missing_cause_of (status : RecoveryStatus) : CompletenessCause :=
  if (st_flags status =? 0) && negb (st_has_damage status) && negb (st_has_incomplete status)
  then Overwritten else Lost.

Definition add_sequence_completeness (events : list PhysicalFlight) (hints : list SequenceFact)
    (damage : list SequenceRange) (status : RecoveryStatus) (completeness : Vec CompletenessRange)
    (proofs : Vec SequenceProof) : M (Vec CompletenessRange * Vec SequenceProof) :=
  match events, hints with
  | [], [] => ret (completeness, proofs)
  | _, _ =>
      let! bounds := fold_each (imap pair hints) (initial_bounds events) widen in
      let '(first, last) := bounds in
      if (first =? u64_max) && (last =? 0) then ret (completeness, proofs)
      else account_losses events hints damage (missing_cause_of status) first last completeness proofs
  end.

End loss.

(** ** Sets of sequence numbers *)

Definition in_range_of (s : Z) (r : SequenceRange) : Prop := sr_first r <= s <= sr_last r.
Definition covered_by (ranges : list SequenceRange) (s : Z) : Prop := Exists (in_range_of s) ranges.

Definition range_ok (r : SequenceRange) : Prop := 0 <= sr_first r <= sr_last r /\ sr_last r <= u64_max.
Definition by_first (a b : SequenceRange) : Prop := sr_first a <= sr_first b.

Lemma covered_nil s : covered_by [] s <-> False.
Proof. unfold covered_by. by rewrite Exists_nil. Qed.
Lemma covered_cons r rs s : covered_by (r :: rs) s <-> in_range_of s r \/ covered_by rs s.
Proof. unfold covered_by. by rewrite Exists_cons. Qed.
Lemma covered_app a b s : covered_by (a ++ b) s <-> covered_by a s \/ covered_by b s.
Proof. unfold covered_by. by rewrite Exists_app. Qed.

(** Nothing that starts after [s] covers it. *)
Lemma covered_sorted_late d ds s :
  StronglySorted by_first (d :: ds) -> s < sr_first d -> ~ covered_by ds s.
Proof.
  intros Hs Hlt. inversion Hs as [|? ? _ Hd]; subst. unfold covered_by. rewrite Exists_exists.
  intros (r & Hr & Hin). rewrite Forall_forall in Hd. specialize (Hd r Hr).
  unfold by_first, in_range_of in *. lia.
Qed.

(** The gaps a sweep reports, and the damage it leaves for the next one. *)
Definition last_gap (cursor : option Z) (last : Z) : list SequenceRange :=
  match cursor with
  | Some current => if current <=? last then [mkSequenceRange current last] else []
  | None => []
  end.

Fixpoint gap_list (damage : list SequenceRange) (cursor : option Z) (last : Z) : list SequenceRange :=
  match damage, cursor with
  | _, None => []
  | [], Some _ => last_gap cursor last
  | d :: rest, Some current =>
      if sr_last d <? current then gap_list rest cursor last
      else if sr_first d >? last then last_gap cursor last
      else (if sr_first d >? current then [mkSequenceRange current (sr_first d - 1)] else [])
           ++ (let cursor := checked_add u64_max (sr_last d) 1 in
               if sr_last d >? last then last_gap cursor last else gap_list rest cursor last)
  end.

Fixpoint gap_rest (damage : list SequenceRange) (cursor : option Z) (last : Z) : list SequenceRange :=
  match damage, cursor with
  | _, None => damage
  | [], Some _ => []
  | d :: rest, Some current =>
      if sr_last d <? current then gap_rest rest cursor last
      else if sr_first d >? last then damage
      else if sr_last d >? last then damage
      else gap_rest rest (checked_add u64_max (sr_last d) 1) last
  end.

(** The gaps are exactly what no damage covers. *)
Lemma gap_list_covers damage current last s :
  StronglySorted by_first damage -> Forall range_ok damage -> last <= u64_max ->
  covered_by (gap_list damage (Some current) last) s
  <-> current <= s <= last /\ ~ covered_by damage s.
Proof.
  intros Hs Hok Hlast. revert current. induction damage as [|d damage IH]; intros current.
  - cbn. destruct (Z.leb_spec current last).
    + rewrite covered_cons, covered_nil. unfold in_range_of. cbn. tauto.
    + rewrite covered_nil. lia.
  - pose proof (covered_sorted_late d damage s Hs) as Hlate.
    inversion Hs as [|? ? Hs' _]; subst. inversion Hok as [|? ? Hd Hok']; subst.
    specialize (IH Hs' Hok'). destruct Hd as [Hd Hd64]. rewrite covered_cons. unfold in_range_of at 1.
    cbn [gap_list]. destruct (Z.ltb_spec (sr_last d) current); [rewrite IH; intuition lia|].
    assert (covered_by (if sr_first d >? current then [mkSequenceRange current (sr_first d - 1)] else []) s
            <-> current <= s < sr_first d) as Hfirst.
    { destruct (Z.gtb_spec (sr_first d) current); rewrite ?covered_cons, covered_nil; unfold in_range_of;
        cbn; lia. }
    assert (s < sr_first d \/ sr_first d <= s) as [Hlt|Hge] by lia;
      [specialize (Hlate Hlt)|clear Hlate];
      (destruct (Z.gtb_spec (sr_first d) last);
       [unfold last_gap; destruct (Z.leb_spec current last);
        rewrite ?covered_cons, covered_nil; unfold in_range_of; cbn; intuition lia|]);
      rewrite covered_app, Hfirst;
      (destruct (checked_add u64_max (sr_last d) 1) as [c|] eqn:Ec;
       [apply checked_add_Some in Ec as [-> _]|apply checked_add_None in Ec]);
      (destruct (Z.gtb_spec (sr_last d) last); [unfold last_gap|rewrite ?IH]);
      try replace (sr_last d + 1 <=? last) with false by lia;
      try (destruct damage); cbn [gap_list]; rewrite ?covered_nil; intuition lia.
Qed.

(** Ranges in order, with no overlap. *)
Definition apart (a b : SequenceRange) : Prop := sr_last a < sr_first b.

Definition within (first last : Z) (g : SequenceRange) : Prop :=
  first <= sr_first g /\ sr_first g <= sr_last g <= last.

Lemma within_weaken first first' last last' gs :
  first' <= first -> last <= last' -> Forall (within first last) gs -> Forall (within first' last') gs.
Proof.
  intros H1 H2 H. eapply Forall_impl; [exact H|]. unfold within. intros g. lia.
Qed.

Lemma apart_app a b first last m :
  StronglySorted apart a -> StronglySorted apart b ->
  Forall (within first m) a -> Forall (within (m + 1) last) b -> StronglySorted apart (a ++ b).
Proof.
  intros Ha Hb Hwa Hwb. induction Ha as [|x a Ha IH Hx]; [done|]. cbn.
  inversion Hwa as [|? ? Hwx Hwa']; subst. constructor; [by apply IH|].
  apply Forall_app. split; [done|]. eapply Forall_impl; [exact Hwb|].
  unfold within, apart in *. intros g. lia.
Qed.

Lemma gap_list_within damage current last :
  Forall range_ok damage -> 0 <= current ->
  Forall (within current last) (gap_list damage (Some current) last)
  /\ StronglySorted apart (gap_list damage (Some current) last).
Proof.
  intros Hok. revert current. induction Hok as [|d damage [Hd Hd64] Hok IH]; intros current Hc.
  - cbn. case_match; (split; [|repeat constructor]); repeat constructor; cbn; lia.
  - assert (Forall (within current last) (last_gap (Some current) last)
            /\ StronglySorted apart (last_gap (Some current) last)) as Hlast.
    { cbn. case_match; (split; [|repeat constructor]); repeat constructor; cbn; lia. }
    cbn [gap_list]. destruct (Z.ltb_spec (sr_last d) current); [by apply IH|].
    destruct (Z.gtb_spec (sr_first d) last); [done|].
    set (before := if sr_first d >? current then _ else []).
    assert (Forall (within current (sr_first d - 1)) before /\ StronglySorted apart before) as [Hb1 Hb2].
    { subst before. destruct (Z.gtb_spec (sr_first d) current); (split; [|repeat constructor]);
        repeat constructor; cbn; lia. }
    set (after := if sr_last d >? last then _ else _).
    assert (Forall (within (sr_last d + 1) last) after /\ StronglySorted apart after) as [Ha1 Ha2].
    { subst after. destruct (checked_add u64_max (sr_last d) 1) as [c|] eqn:Ec.
      - apply checked_add_Some in Ec as [-> _]. destruct (Z.gtb_spec (sr_last d) last).
        + cbn. replace (sr_last d + 1 <=? last) with false by lia. split; constructor.
        + apply IH. lia.
      - case_match; [cbn|destruct damage; cbn]; split; constructor. }
    apply (within_weaken _ current _ (sr_last d)) in Hb1; [|lia..].
    split.
    + apply Forall_app. split.
      * destruct (Z.le_gt_cases (sr_last d) last).
        { eapply within_weaken; [| |exact Hb1]; lia. }
        subst before. destruct (Z.gtb_spec (sr_first d) current); repeat constructor; cbn; lia.
      * eapply within_weaken; [| |exact Ha1]; lia.
    + by eapply (apart_app _ _ current last (sr_last d)).
Qed.

Lemma gap_rest_drops damage current last :
  current <= last + 1 ->
  exists dropped, damage = dropped ++ gap_rest damage (Some current) last
    /\ Forall (fun d => sr_last d <= last) dropped.
Proof.
  revert current. induction damage as [|d damage IH]; intros current Hc; cbn [gap_rest].
  - by exists [].
  - destruct (Z.ltb_spec (sr_last d) current).
    { destruct (IH current Hc) as (dropped & Hd & Hle). exists (d :: dropped).
      split; [cbn; by rewrite <- Hd|]. constructor; [lia|done]. }
    destruct (Z.gtb_spec (sr_first d) last); [by exists []|].
    destruct (Z.gtb_spec (sr_last d) last); [by exists []|].
    destruct (checked_add u64_max (sr_last d) 1) as [c|] eqn:Ec.
    + apply checked_add_Some in Ec as [-> _]. destruct (IH (sr_last d + 1) ltac:(lia)) as (dropped & Hd & Hle).
      exists (d :: dropped). split; [cbn; by rewrite <- Hd|]. constructor; [lia|done].
    + exists [d]. split; [by destruct damage|]. by repeat constructor.
Qed.

(** ** The programs report those gaps *)

Definition unknown_range (cause : CompletenessCause) (g : SequenceRange) : CompletenessRange :=
  mkRange CapturedSequence (InclusiveSequence (sr_first g) (sr_last g)) ProvUnknown cause.

(** The outputs extended by gaps of one cause. *)
Definition extends_gaps (gaps gaps' : Vec CompletenessRange * Vec MissingRange)
    (missing : list MissingRange) : Prop :=
  v_items (fst gaps') = v_items (fst gaps)
    ++ map (fun m => unknown_range (mr_cause m) (mr_range m)) missing
  /\ v_items (snd gaps') = v_items (snd gaps) ++ missing.

Definition caused (cause : CompletenessCause) : list SequenceRange -> list MissingRange :=
  map (fun g => mkMissingRange g cause).

Lemma extends_refl gaps : extends_gaps gaps gaps [].
Proof. split; by rewrite app_nil_r. Qed.

Lemma extends_trans g1 g2 g3 a b :
  extends_gaps g1 g2 a -> extends_gaps g2 g3 b -> extends_gaps g1 g3 (a ++ b).
Proof. intros [H1 H2] [H3 H4]. split; rewrite ?map_app, app_assoc; congruence. Qed.

Section loss_rules.
Context {W : Type} `{WorkGuard W} `{Allocator W} {S : Type}.
Implicit Types (s : S) (gaps : Vec CompletenessRange * Vec MissingRange).

(** Runs that only the host can stop, and that leave the receiver alone. *)
Abbreviation computes p Q s :=
  (wp (W := W) p (fun a s' => s' = s /\ Q a) (fun e s' => s' = s /\ host_error e) s).

Lemma computes_bind {A B} (p : Prog W ProviderError S A) (k : A -> Prog W ProviderError S B)
    (Q : A -> Prop) (Q' : B -> Prop) s :
  computes p Q s -> (forall a, Q a -> computes (k a) Q' s) -> computes (bind p k) Q' s.
Proof.
  intros Hp Hk. apply wp_bind. eapply wp_mono; [exact Hp| |done]. intros a s' [-> Ha]. by apply Hk.
Qed.

Lemma computes_ret {A} (a : A) (Q : A -> Prop) s : Q a -> computes (ret a) Q s.
Proof. intros Ha. by apply wp_ret. Qed.

Lemma computes_push {A} t (v : Vec A) x s :
  computes (guarded_push t v x) (fun v' => v_items v' = v_items v ++ [x]) s.
Proof. apply wp_guarded_push; [done|by intros]. Qed.

Lemma computes_checkpoint i s : computes (guard_checkpoint i) (fun _ => True) s.
Proof. apply wp_checkpoint; [done|by intros]. Qed.

Lemma computes_sequence_range output first last p c s :
  first <= last ->
  computes (push_sequence_range output first last p c)
    (fun v => v_items v = v_items output
       ++ [mkRange CapturedSequence (InclusiveSequence first last) p c]) s.
Proof.
  intros Hle. apply wp_bind, wp_option. unfold captured_sequence_with_cause.
  replace (first >? last) with false by lia. apply computes_push.
Qed.

Lemma computes_missing gaps first last cause s :
  first <= last ->
  computes (push_missing_range gaps first last cause)
    (fun g => extends_gaps gaps g [mkMissingRange (mkSequenceRange first last) cause]) s.
Proof.
  intros Hle. eapply computes_bind; [by apply computes_sequence_range|]. intros v Hv.
  eapply computes_bind; [apply computes_push|]. intros m Hm. apply computes_ret.
  split; [exact Hv|exact Hm].
Qed.

Lemma computes_damage_step steps s : computes (damage_step steps) (fun _ => True) s.
Proof.
  eapply computes_bind; [apply computes_checkpoint|]. intros _ _. apply wp_option.
  case_match; [done|]. split; [done|auto with qtrace].
Qed.

Lemma computes_sweep damage cursor last cause steps gaps s :
  computes (sweep_damage damage cursor last cause steps gaps)
    (fun r => let '(rest, cursor', _, gaps') := r in
       rest = gap_rest damage cursor last
       /\ exists pushed, extends_gaps gaps gaps' (caused cause pushed)
          /\ pushed ++ last_gap cursor' last = gap_list damage cursor last) s.
Proof.
  revert cursor steps gaps. induction damage as [|d damage IH]; intros cursor steps gaps.
  - cbn. apply computes_ret. split; [by destruct cursor|]. exists [].
    split; [apply extends_refl|]. by destruct cursor.
  - cbn [sweep_damage gap_rest gap_list]. destruct cursor as [current|].
    2: { apply computes_ret. split; [done|]. exists []. split; [apply extends_refl|done]. }
    destruct (Z.ltb_spec (sr_last d) current).
    { eapply computes_bind; [apply computes_damage_step|]. intros steps' _. apply IH. }
    destruct (Z.gtb_spec (sr_first d) last).
    { apply computes_ret. split; [done|]. exists []. split; [apply extends_refl|done]. }
    eapply computes_bind.
    { instantiate (1 := fun g => extends_gaps gaps g (caused cause
        (if sr_first d >? current then [mkSequenceRange current (sr_first d - 1)] else []))).
      destruct (Z.gtb_spec (sr_first d) current); [apply computes_missing; lia|].
      apply computes_ret, extends_refl. }
    intros gaps1 Hg1. destruct (Z.gtb_spec (sr_last d) last).
    + apply computes_ret. split; [done|]. eexists. split; [exact Hg1|done].
    + eapply computes_bind; [apply computes_damage_step|]. intros steps' _.
      eapply wp_mono; [apply IH| |done].
      intros [[[rest cursor'] steps''] gaps'] s' (-> & -> & pushed & Hg & Hp). split; [done|].
      split; [done|]. eexists (_ ++ pushed). split; [|by rewrite <- app_assoc, Hp].
      unfold caused in *. rewrite map_app. by eapply extends_trans.
Qed.

Lemma computes_add_missing first last damage steps cause gaps s :
  computes (add_missing_without_damage first last damage steps cause gaps)
    (fun r => let '(rest, _, gaps') := r in
       rest = gap_rest damage (Some first) last
       /\ extends_gaps gaps gaps' (caused cause (gap_list damage (Some first) last))) s.
Proof.
  eapply computes_bind; [apply computes_sweep|].
  intros [[[rest cursor] steps'] gaps1] (-> & pushed & Hg1 & Hp).
  eapply computes_bind.
  { instantiate (1 := fun g => extends_gaps gaps1 g (caused cause (last_gap cursor last))).
    destruct cursor as [current|]; cbn; [|apply computes_ret, extends_refl].
    destruct (Z.leb_spec current last); [by apply computes_missing|apply computes_ret, extends_refl]. }
  intros gaps2 Hg2. apply computes_ret. split; [done|]. rewrite <- Hp. unfold caused in *.
  rewrite map_app. by eapply extends_trans.
Qed.

End loss_rules.

(** ** What a search establishes *)

(** The sequence number the search reads from an event. *)
Definition sequence_of (event : PhysicalFlight) : Z := default 0 (ek_sequence (ph_key event)).

(** Where the search stands: past every sequence number below it. *)
Definition next_of (cursor : option Z) : Z := default (u64_max + 1) cursor.

(** What the search has established below its cursor. *)
Definition searched (seqs : list Z) (damage : list SequenceRange) (current last : Z)
    (cursor' : option Z) (damage' : list SequenceRange) (missing : list MissingRange) : Prop :=
  current <= next_of cursor' <= last + 1
  /\ (forall q, q ∈ seqs -> q <= last -> q < next_of cursor')
  /\ (exists dropped, damage = dropped ++ damage' /\ Forall (fun d => sr_last d < next_of cursor') dropped)
  /\ Forall (within current (next_of cursor' - 1)) (map mr_range missing)
  /\ StronglySorted apart (map mr_range missing)
  /\ forall s, covered_by (map mr_range missing) s
       <-> current <= s < next_of cursor' /\ (s ∉ seqs) /\ ~ covered_by damage s.

Lemma searched_nothing damage current last :
  current <= last + 1 -> searched [] damage current last (Some current) damage [].
Proof.
  intros Hc. unfold searched. cbn. split; [lia|]. split; [set_solver|]. split; [by exists []|].
  split; [constructor|]. split; [constructor|]. intros s. rewrite covered_nil. lia.
Qed.

Lemma searched_skip q seqs damage current last cursor' damage' missing :
  q < current \/ last < q -> searched seqs damage current last cursor' damage' missing ->
  searched (q :: seqs) damage current last cursor' damage' missing.
Proof.
  intros Hq (Hc & Hseq & Hdrop & Hw & Hs & Hcov). split; [done|]. split.
  2: split; [done|]. 2: split; [done|]. 2: split; [done|].
  - intros r [->|Hr]%elem_of_cons Hle; [lia|by apply Hseq].
  - intros s. rewrite Hcov, not_elem_of_cons. intuition lia.
Qed.

(** The part of the damage a sweep dropped no longer matters. *)
Lemma covered_suffix dropped damage bound s :
  Forall (fun d => sr_last d < bound) dropped -> bound <= s ->
  covered_by (dropped ++ damage) s <-> covered_by damage s.
Proof.
  intros Hd Hs. rewrite covered_app. split; [|tauto]. intros [Hc|Hc]; [|done]. exfalso.
  unfold covered_by in Hc. apply Exists_exists in Hc as (d & Hin & Hr).
  rewrite Forall_forall in Hd. specialize (Hd d Hin). unfold in_range_of in Hr. lia.
Qed.

Lemma map_caused cause gs : map mr_range (caused cause gs) = gs.
Proof. unfold caused. rewrite map_map. cbn. apply map_id. Qed.

(** One event at or past the cursor: the gap before it, then the rest. *)
Lemma searched_step q seqs damage damage1 current last cause cursor' damage' missing :
  StronglySorted by_first damage -> Forall range_ok damage -> StronglySorted Z.le (q :: seqs) ->
  0 <= current <= q -> q <= last -> last <= u64_max ->
  damage1 = (if q >? current then gap_rest damage (Some current) (q - 1) else damage) ->
  searched seqs damage1 (q + 1) last cursor' damage' missing ->
  searched (q :: seqs) damage current last cursor' damage'
    (caused cause (if q >? current then gap_list damage (Some current) (q - 1) else []) ++ missing).
Proof.
  intros Hsort Hok Hq Hcur Hql Hlast Hd1 (Hc & Hseq & (dropped & Hd & Hdl) & Hw & Hs & Hcov).
  assert (exists pre, damage = pre ++ damage1 /\ Forall (fun d => sr_last d < q + 1) pre) as (pre & Hpre & Hprel).
  { subst damage1. destruct (Z.gtb_spec q current); [|by exists []].
    destruct (gap_rest_drops damage current (q - 1) ltac:(lia)) as (pre & Hpre & Hl).
    exists pre. split; [done|]. eapply Forall_impl; [exact Hl|]. cbn. lia. }
  set (gs := if q >? current then _ else []).
  assert (Forall (within current (q - 1)) gs /\ StronglySorted apart gs
          /\ forall s, covered_by gs s <-> current <= s < q /\ ~ covered_by damage s) as (Hg1 & Hg2 & Hg3).
  { subst gs. destruct (Z.gtb_spec q current).
    - destruct (gap_list_within damage current (q - 1) Hok ltac:(lia)) as [H1 H2].
      split_and!; [done..|]. intros s. rewrite gap_list_covers by (done || lia). intuition lia.
    - split_and!; [constructor..|]. intros s. rewrite covered_nil. lia. }
  apply StronglySorted_inv in Hq as [_ Hqf]. rewrite Forall_forall in Hqf.
  unfold searched. rewrite map_app, map_caused. split; [lia|]. split; [|split; [|split; [|split]]].
  - intros r [->|Hr]%elem_of_cons Hle; [lia|by apply Hseq].
  - exists (pre ++ dropped). split; [by rewrite <- app_assoc, <- Hd|]. apply Forall_app. split; [|done].
    eapply Forall_impl; [exact Hprel|]. cbn. lia.
  - apply Forall_app. split; eapply within_weaken; [| |exact Hg1| | |exact Hw]; lia.
  - eapply (apart_app _ _ current _ (q - 1)); [done..|].
    eapply within_weaken; [| |exact Hw]; [lia|reflexivity].
  - intros s. rewrite covered_app, Hg3, Hcov, not_elem_of_cons.
    assert (q + 1 <= s -> covered_by damage s <-> covered_by damage1 s) as Hsuf
      by (intros; rewrite Hpre; by eapply covered_suffix).
    assert (s < q -> (s ∉ seqs)) as Hlow by (intros ? Hin; specialize (Hqf s Hin); lia).
    destruct (Z.lt_trichotomy s q) as [?|[->|?]].
    + specialize (Hlow ltac:(lia)). intuition lia.
    + clear Hsuf Hlow. intuition lia.
    + rewrite (Hsuf ltac:(lia)). intuition lia.
Qed.


Lemma searched_done seqs damage last :
  last = u64_max -> searched seqs damage (u64_max + 1) last None damage [].
Proof.
  intros ->. unfold searched. cbn. split; [lia|]. split; [intros; lia|]. split; [by exists []|].
  split; [constructor|]. split; [constructor|]. intros s. rewrite covered_nil. lia.
Qed.

Lemma gap_rest_sorted damage current last :
  current <= last + 1 -> StronglySorted by_first damage -> Forall range_ok damage ->
  StronglySorted by_first (gap_rest damage (Some current) last)
  /\ Forall range_ok (gap_rest damage (Some current) last).
Proof.
  intros Hc Hs Hok. destruct (gap_rest_drops damage current last Hc) as (dropped & Hd & _).
  rewrite Hd in Hs, Hok. apply Forall_app in Hok as [_ Hok]. split; [|done].
  revert Hs. generalize (gap_rest damage (Some current) last). clear.
  intros rest. induction dropped as [|d dropped IH]; [done|]. cbn. intros Hs.
  apply StronglySorted_inv in Hs as [Hs _]. by apply IH.
Qed.

(** A finished search covers exactly what is neither recovered nor damaged. *)
Lemma searched_finish seqs damage first last cursor damage' missing cause :
  StronglySorted by_first damage' -> Forall range_ok damage' -> 0 <= first -> last <= u64_max ->
  searched seqs damage first last cursor damage' missing ->
  let tail := match cursor with
              | Some c => if c <=? last then gap_list damage' (Some c) last else []
              | None => [] end in
  let all := missing ++ caused cause tail in
  Forall (within first last) (map mr_range all) /\ StronglySorted apart (map mr_range all)
  /\ forall s, covered_by (map mr_range all) s
       <-> first <= s <= last /\ (s ∉ seqs) /\ ~ covered_by damage s.
Proof.
  intros Hs Hok Hf Hlast (Hc & Hseq & (dropped & Hd & Hdl) & Hw & Hsort & Hcov) tail all.
  subst all. rewrite map_app, map_caused.
  assert (Forall (within (next_of cursor) last) tail /\ StronglySorted apart tail
    /\ forall s, covered_by tail s <-> next_of cursor <= s <= last /\ ~ covered_by damage' s) as (Ht1 & Ht2 & Ht3).
  { subst tail. destruct cursor as [c|]; cbn in *; [destruct (Z.leb_spec c last)|].
    - destruct (gap_list_within damage' c last Hok ltac:(lia)). split_and!; [done..|].
      intros s. by apply gap_list_covers.
    - split_and!; [constructor..|]. intros s. rewrite covered_nil. lia.
    - split_and!; [constructor..|]. intros s. rewrite covered_nil. lia. }
  split; [|split].
  - apply Forall_app. split; eapply within_weaken; [| |exact Hw| | |exact Ht1]; lia.
  - eapply (apart_app _ _ first last (next_of cursor - 1)); [done..|].
    by replace (next_of cursor - 1 + 1) with (next_of cursor) by lia.
  - intros s. rewrite covered_app, Hcov, Ht3.
    assert (next_of cursor <= s -> covered_by damage s <-> covered_by damage' s) as Hsuf
      by (intros; rewrite Hd; by eapply covered_suffix).
    assert (next_of cursor <= s <= last -> (s ∉ seqs)) as Hhigh
      by (intros [? ?] Hin; specialize (Hseq s Hin); lia).
    destruct (Z.lt_ge_cases s (next_of cursor)); [intuition lia|].
    rewrite (Hsuf ltac:(lia)). destruct (Z.le_gt_cases s last); [|intuition lia].
    specialize (Hhigh ltac:(lia)). intuition lia.
Qed.

(** Gaps carry the cause of the recovery, or the loss a record announced. *)
Definition caused_by (cause : CompletenessCause) (m : MissingRange) : Prop :=
  mr_cause m = cause \/ mr_cause m = Lost.

Lemma caused_causes c cause gs :
  c = cause \/ c = Lost -> Forall (caused_by cause) (caused c gs).
Proof. intros Hc. unfold caused. rewrite Forall_map. by apply Forall_true. Qed.

Section search.
Context {W : Type} `{WorkGuard W} `{Allocator W} {S : Type}.
Implicit Types (s : S) (gaps : Vec CompletenessRange * Vec MissingRange).
Abbreviation computes p Q s :=
  (wp (W := W) p (fun a s' => s' = s /\ Q a) (fun e s' => s' = s /\ host_error e) s).

Lemma computes_missing_loop events last cause current damage steps gaps s :
  StronglySorted by_first damage -> Forall range_ok damage ->
  StronglySorted Z.le (map (fun e => sequence_of (snd e)) events) ->
  0 <= current <= last + 1 -> last <= u64_max ->
  computes (missing_loop events last cause (Some current) damage steps gaps)
    (fun r => let '(cursor', damage', _, gaps') := r in
       exists missing, extends_gaps gaps gaps' missing /\ Forall (caused_by cause) missing
         /\ searched (map (fun e => sequence_of (snd e)) events) damage current last cursor' damage' missing
         /\ StronglySorted by_first damage' /\ Forall range_ok damage') s.
Proof.
  revert current damage steps gaps.
  induction events as [|[index event] events IH]; intros current damage steps gaps Hsort Hok Hev Hcur Hlast;
    cbn [missing_loop map].
  - apply computes_ret. exists []. split_and!; [apply extends_refl..|constructor| |done|done].
    apply searched_nothing. lia.
  - eapply computes_bind; [apply computes_checkpoint|]. intros _ _. cbn [snd] in *.
    fold (sequence_of event). pose proof Hev as Hev'. apply StronglySorted_inv in Hev' as [Hev' _].
    destruct (_ || _) eqn:Eskip.
    { eapply wp_mono; [by apply IH| |done].
      intros [[[cursor' damage'] steps'] gaps'] s' (-> & missing & Hg & Hca & Hse & Hrest).
      split; [done|]. exists missing. split_and!; [apply Hg..|done| |apply Hrest|apply Hrest].
      apply searched_skip; [lia|done]. }
    set (q := sequence_of event) in *.
    set (damage1 := if q >? current then gap_rest damage (Some current) (q - 1) else damage).
    assert (StronglySorted by_first damage1 /\ Forall range_ok damage1) as [Hs1 Hok1].
    { subst damage1. destruct (Z.gtb_spec q current); [|done]. apply gap_rest_sorted; [lia|done..]. }
    set (c := if oo_record_type (ph_raw event) =? 15 then Lost else cause).
    assert (c = cause \/ c = Lost) as Hcc by (subst c; case_match; auto).
    eapply computes_bind.
    { instantiate (1 := fun r => let '(d, _, g) := r in d = damage1 /\ extends_gaps gaps g
        (caused c (if q >? current then gap_list damage (Some current) (q - 1) else []))).
      subst damage1. destruct (Z.gtb_spec q current).
      - apply computes_add_missing.
      - apply computes_ret. split; [done|apply extends_refl]. }
    intros [[d steps1] gaps1] [-> Hg1].
    destruct (checked_add u64_max q 1) as [n|] eqn:En.
    + apply checked_add_Some in En as [-> Hq].
      eapply wp_mono; [apply IH; [done..|lia|done]| |done].
      intros [[[cursor' damage'] steps'] gaps'] s' (-> & missing & Hg & Hca & Hse & Hrest).
      split; [done|]. eexists. split; [eapply extends_trans; [exact Hg1|exact Hg]|].
      split; [apply Forall_app; split; [by apply caused_causes|done]|]. split; [|done].
      apply (searched_step q _ damage damage1); done || lia.
    + apply checked_add_None in En. assert (q = u64_max) as Hq by lia.
      assert (computes (missing_loop events last cause None damage1 steps1 gaps1)
        (fun r => let '(c', d', _, g') := r in c' = None /\ d' = damage1 /\ g' = gaps1) s) as Hstop.
      { destruct events as [|[i e] events]; cbn [missing_loop]; [by apply computes_ret|].
        eapply computes_bind; [apply computes_checkpoint|]. intros _ _. by apply computes_ret. }
      eapply wp_mono; [exact Hstop| |done].
      intros [[[cursor' damage'] steps'] gaps'] s' (-> & -> & -> & ->). split; [done|].
      eexists (_ ++ []). split; [eapply extends_trans; [exact Hg1|apply extends_refl]|].
      split; [rewrite app_nil_r; by apply caused_causes|]. split; [|done].
      apply (searched_step q _ damage damage1); [done..|lia|lia|done|done|].
      rewrite Hq. apply searched_done. lia.
Qed.

End search.

(** ** Retained runs *)

Definition retained_range (g : SequenceRange) : CompletenessRange :=
  mkRange CapturedSequence (InclusiveSequence (sr_first g) (sr_last g)) Captured Retained.

(** A range that is not empty. *)
Definition filled (r : SequenceRange) : Prop := sr_first r <= sr_last r.

(** The run being collected. *)
Definition open_run (start : option Z) (last : Z) : list SequenceRange :=
  match start with Some first => [mkSequenceRange first last] | None => [] end.

Definition run_ready (start : option Z) (last : Z) (seqs : list Z) : Prop :=
  match start with
  | Some first => first <= last /\ Forall (fun q => last < q) seqs
  | None => True
  end.

Lemma open_run_covers start last s :
  covered_by (open_run start last) s <-> match start with Some first => first <= s <= last | None => False end.
Proof.
  destruct start; cbn; [|by rewrite covered_nil]. rewrite covered_cons, covered_nil.
  unfold in_range_of. cbn. tauto.
Qed.

Section retained.
Context {W : Type} `{WorkGuard W} `{Allocator W} {S : Type}.
Abbreviation computes p Q s :=
  (wp (W := W) p (fun a s' => s' = s /\ Q a) (fun e s' => s' = s /\ host_error e) s).

Lemma computes_retain (events : list (nat * PhysicalFlight)) start last completeness (s : S) :
  Forall (fun e => exists q, ek_sequence (ph_key (snd e)) = Some q) events ->
  StronglySorted Z.lt (map (fun e => sequence_of (snd e)) events) ->
  run_ready start last (map (fun e => sequence_of (snd e)) events) ->
  computes (fold_each events (start, last, completeness) retain_turn)
    (fun r => let '(start', last', completeness') := r in
       run_ready start' last' []
       /\ exists runs, v_items completeness' = v_items completeness ++ map retained_range runs
          /\ Forall filled runs
          /\ forall q, covered_by (runs ++ open_run start' last') q
               <-> covered_by (open_run start last) q
                   \/ q ∈ map (fun e => sequence_of (snd e)) events) s.
Proof.
  intros Hsome. revert start last completeness.
  induction Hsome as [|[index event] events [q Hq] Hsome IH]; intros start last completeness Hsort Hready.
  - cbn. apply computes_ret. split; [by destruct start as [?|]; [destruct Hready|]|]. exists [].
    rewrite app_nil_r. split; [done|]. split; [done|]. intros r. set_solver.
  - cbn [fold_each map]. cbn [snd map] in *. apply StronglySorted_inv in Hsort as [Hsort Hhead].
    assert (sequence_of event = q) as Eq by (unfold sequence_of; by rewrite Hq). rewrite Eq in *.
    eapply (computes_bind _ _ (fun r => let '(start', last', completeness') := r in
      run_ready start' last' (map (fun e => sequence_of (snd e)) events)
      /\ exists runs, v_items completeness' = v_items completeness ++ map retained_range runs
         /\ Forall filled runs
         /\ forall p, covered_by (runs ++ open_run start' last') p
              <-> covered_by (open_run start last) p \/ p = q)).
    + unfold retain_turn. eapply computes_bind; [apply computes_checkpoint|]. intros _ _.
      rewrite Hq. apply wp_bind, wp_option. destruct start as [first|].
      * destruct Hready as [Hle Hgt]. inversion Hgt as [|? ? Hlq Hgt']; subst.
        destruct (bool_decide _) eqn:Ec.
        { apply bool_decide_eq_true, checked_add_Some in Ec as [Ec _]. apply computes_ret.
          split; [split; [lia|done]|]. exists []. split; [by rewrite app_nil_r|]. split; [done|]. intros p.
          cbn [app]. rewrite !open_run_covers. lia. }
        eapply computes_bind; [by apply computes_sequence_range|]. intros v Hv. apply computes_ret.
        split; [split; [lia|done]|]. exists [mkSequenceRange first last]. split; [done|].
        split; [by repeat constructor|].
        intros p. rewrite covered_app, covered_cons, covered_nil, !open_run_covers. unfold in_range_of.
        cbn. lia.
      * apply computes_ret. split; [split; [lia|done]|]. exists []. split; [by rewrite app_nil_r|].
        split; [done|]. intros p. cbn [app]. rewrite !open_run_covers. lia.
    + intros [[start1 last1] completeness1] (Hr1 & runs1 & Hv1 & Hf1 & Hc1).
      eapply wp_mono; [by apply IH| |done].
      intros [[start' last'] completeness'] s' (-> & Hr & runs & Hv & Hf & Hc). split; [done|]. split; [done|].
      exists (runs1 ++ runs). rewrite Hv, Hv1, map_app, <- app_assoc. split; [done|].
      split; [by apply Forall_app|].
      intros p. rewrite <- app_assoc, covered_app, Hc, elem_of_cons. specialize (Hc1 p).
      rewrite covered_app in Hc1. tauto.
Qed.

End retained.

(** ** Proofs *)

Definition overlap (f : SequenceFact) (m : MissingRange) : option SequenceProof :=
  if (sr_first (mr_range m) <=? sr_last (sf_range f)) && (sr_first (sf_range f) <=? sr_last (mr_range m))
  then Some (mkSequenceProof
               (mkSequenceRange (Z.max (sr_first (mr_range m)) (sr_first (sf_range f)))
                  (Z.min (sr_last (mr_range m)) (sr_last (sf_range f))))
               (mr_cause m) ProvUnknown (sf_coordinate f))
  else None.

(** Every overlap of a fact with a missing range, in order. *)
Definition overlaps (missing : list MissingRange) (facts : list SequenceFact) : list SequenceProof :=
  concat (map (fun f => omap (overlap f) missing) facts).

Definition facts_by_first (a b : SequenceFact) : Prop := by_first (sf_range a) (sf_range b).

Section proofs.
Context {W : Type} `{WorkGuard W} `{Allocator W} {S : Type}.
Abbreviation computes p Q s :=
  (wp (W := W) p (fun a s' => s' = s /\ Q a) (fun e s' => s' = s /\ host_error e) s).

Lemma computes_proof_step steps (s : S) : computes (proof_step steps) (fun _ => True) s.
Proof.
  eapply computes_bind; [apply computes_checkpoint|]. intros _ _. apply wp_option.
  case_match; [done|]. split; [done|auto with qtrace].
Qed.

(** Skipped ranges end before the fact starts. *)
Lemma computes_skip missing first steps (s : S) :
  computes (skip_candidates missing first steps)
    (fun r => exists skipped, missing = skipped ++ fst r
       /\ Forall (fun m => sr_last (mr_range m) < first) skipped
       /\ match fst r with [] => True | m :: _ => first <= sr_last (mr_range m) end) s.
Proof.
  revert steps. induction missing as [|m missing IH]; intros steps; cbn [skip_candidates].
  - apply computes_ret. by exists [].
  - destruct (Z.ltb_spec (sr_last (mr_range m)) first).
    + eapply computes_bind; [apply computes_proof_step|]. intros steps' _.
      eapply wp_mono; [apply IH| |done]. intros r s' (-> & skipped & -> & Hs & Hr). split; [done|].
      exists (m :: skipped). split; [done|]. split; [by constructor|done].
    + apply computes_ret. by exists [].
Qed.

Lemma overlap_late f m :
  sr_last (sf_range f) < sr_first (mr_range m) -> overlap f m = None.
Proof. unfold overlap. intros Hlt. by replace (_ <=? sr_last (sf_range f)) with false by lia. Qed.

Lemma overlap_early f m :
  sr_last (mr_range m) < sr_first (sf_range f) -> overlap f m = None.
Proof.
  unfold overlap. intros Hlt. replace (sr_first (sf_range f) <=? _) with false by lia.
  by rewrite andb_false_r.
Qed.

Lemma omap_none {A B} (f : A -> option B) l : Forall (fun x => f x = None) l -> omap f l = [].
Proof. induction 1 as [|x l Hx Hl IH]; [done|]. cbn. by rewrite Hx. Qed.

Lemma computes_prove missing fact steps output (s : S) :
  StronglySorted apart (map mr_range missing) ->
  Forall (fun m => sr_first (mr_range m) <= sr_last (mr_range m)) missing ->
  match missing with [] => True | m :: _ => sr_first (sf_range fact) <= sr_last (mr_range m) end ->
  computes (prove_fact missing fact steps output)
    (fun r => v_items (snd r) = v_items output ++ omap (overlap fact) missing) s.
Proof.
  intros Hsort Hok. revert steps output. induction missing as [|m missing IH]; intros steps output Hfirst;
    cbn [prove_fact].
  - apply computes_ret. by rewrite app_nil_r.
  - eapply computes_bind; [apply computes_proof_step|]. intros steps' _. cbn [map] in Hsort.
    apply StronglySorted_inv in Hsort as [Hsort Hhead]. rewrite Forall_map in Hhead.
    inversion Hok as [|? ? Hm Hok']; subst.
    destruct (Z.gtb_spec (sr_first (mr_range m)) (sr_last (sf_range fact))).
    + apply computes_ret. rewrite omap_none, app_nil_r; [done|]. constructor; [by apply overlap_late|].
      eapply Forall_impl; [exact Hhead|]. cbn. intros m' Hm'. apply overlap_late. unfold apart in Hm'. lia.
    + eapply computes_bind; [apply computes_push|]. intros output' Ho.
      eapply wp_mono; [apply IH; [done..|]| |done].
      { destruct missing as [|m' missing]; [done|]. inversion Hhead as [|? ? Hm' _]; subst.
        inversion Hok' as [|? ? Hm2 _]; subst. unfold apart in Hm'. lia. }
      intros r s' [-> Hr]. split; [done|]. rewrite Hr, Ho, <- app_assoc. f_equal.
      cbn. unfold overlap at 2. replace (_ <=? sr_last (sf_range fact)) with true by lia.
      by replace (sr_first (sf_range fact) <=? sr_last (mr_range m)) with true by lia.
Qed.

Lemma computes_proofs missing facts output (s : S) :
  StronglySorted apart (map mr_range missing) ->
  Forall (fun m => sr_first (mr_range m) <= sr_last (mr_range m)) missing ->
  StronglySorted facts_by_first facts ->
  computes (add_missing_proofs missing facts output)
    (fun v => v_items v = v_items output ++ overlaps missing facts) s.
Proof.
  intros Hsort Hok Hfacts. unfold add_missing_proofs. apply wp_bind, wp_charge; [|by intros].
  enough (forall skipped left steps out,
    missing = skipped ++ left ->
    Forall (fun m => Forall (fun f => sr_last (mr_range m) < sr_first (sf_range f)) facts) skipped ->
    computes (fold_each facts (left, steps, out) proof_turn)
      (fun r => v_items (snd r) = v_items out ++ overlaps missing facts) s) as Hgen.
  { eapply computes_bind; [by apply (Hgen [] missing)|]. intros r Hr. by apply computes_ret. }
  induction Hfacts as [|f facts Hfacts IH Hf]; intros skipped left steps out -> Hskip; cbn [fold_each].
  - apply computes_ret. cbn. by rewrite app_nil_r.
  - rewrite map_app in Hsort. 
    assert (StronglySorted apart (map mr_range left)) as Hl.
    { clear -Hsort. induction skipped as [|x xs IH]; [done|]. cbn in Hsort.
      apply StronglySorted_inv in Hsort as [Hsort _]. by apply IH. }
    eapply (computes_bind _ _ (fun r => let '(left', _, out') := r in
      v_items out' = v_items out ++ omap (overlap f) (skipped ++ left)
      /\ exists dropped, left = dropped ++ left'
         /\ Forall (fun m => sr_last (mr_range m) < sr_first (sf_range f)) dropped)).
    + unfold proof_turn. eapply computes_bind; [apply computes_proof_step|]. intros steps1 _.
      eapply computes_bind; [apply computes_skip|].
      intros [left' steps2] (dropped & -> & Hd & Hnext). cbn [fst] in *.
      assert (StronglySorted apart (map mr_range left')) as Hl'.
      { clear -Hl. induction dropped as [|x xs IH]; [done|]. cbn in Hl.
        apply StronglySorted_inv in Hl as [Hl _]. by apply IH. }
      apply Forall_app in Hok as [_ Hok]. apply Forall_app in Hok as [_ Hok'].
      eapply computes_bind; [by apply computes_prove|]. intros [steps3 out'] Ho. apply computes_ret.
      cbn [fst snd] in *.
      split; [|by exists dropped]. rewrite Ho. f_equal.
      rewrite !omap_app, (omap_none _ skipped), (omap_none _ dropped); [done|..].
      * eapply Forall_impl; [exact Hd|]. intros m. apply overlap_early.
      * eapply Forall_impl; [exact Hskip|]. intros m Hm. apply overlap_early.
        by inversion Hm.
    + intros [[left' steps'] out'] (Ho & dropped & -> & Hd).
      eapply wp_mono; [apply (IH (skipped ++ dropped) left' steps' out'); [apply app_assoc|]| |done].
      * apply Forall_app. split.
        -- eapply Forall_impl; [exact Hskip|]. intros m Hm. by inversion Hm.
        -- eapply Forall_impl; [exact Hd|]. intros m Hm. eapply Forall_impl; [exact Hf|].
           unfold facts_by_first, by_first. cbn beta in *. intros f'. lia.
      * intros r s' [-> Hr]. split; [done|]. rewrite Hr, Ho, <- app_assoc. done.
Qed.

End proofs.

(** ** The account *)

(** The sequence numbers a recovery has evidence of. *)
Definition known (seqs : list Z) (hints : list SequenceFact) (q : Z) : Prop :=
  q ∈ seqs \/ covered_by (map sf_range hints) q.

(** Sequence numbers between two known ones. *)
Definition enclosed (seqs : list Z) (hints : list SequenceFact) (q : Z) : Prop :=
  exists a b, known seqs hints a /\ known seqs hints b /\ a <= q <= b.

(** What the losses of a recovery should be: every number between two known ones
    is recovered, damaged or reported missing, and nothing else is; each proof is
    where a claimed range meets a missing one. *)
Definition accounted (seqs : list Z) (hints : list SequenceFact) (damage : list SequenceRange)
    (status : RecoveryStatus) (completeness completeness' : list CompletenessRange)
    (proofs proofs' : list SequenceProof) : Prop :=
  exists runs missing,
    completeness' = completeness ++ map retained_range runs
      ++ map (fun m => unknown_range (mr_cause m) (mr_range m)) missing
    /\ proofs' = proofs ++ overlaps missing hints
    /\ (forall q, covered_by runs q <-> q ∈ seqs)
    /\ (forall q, covered_by (map mr_range missing) q
          <-> enclosed seqs hints q /\ (q ∉ seqs) /\ ~ covered_by damage q)
    /\ StronglySorted apart (map mr_range missing)
    /\ Forall (caused_by (missing_cause_of status)) missing
    /\ Forall filled runs /\ Forall filled (map mr_range missing).

(** What the widening loop computes. *)
Definition spans (lo hi : Z) (seqs : list Z) (hints : list SequenceFact) : Prop :=
  lo <= hi /\ known seqs hints lo /\ known seqs hints hi
  /\ forall q, known seqs hints q -> lo <= q <= hi.

Lemma spans_enclosed lo hi seqs hints q :
  spans lo hi seqs hints -> enclosed seqs hints q <-> lo <= q <= hi.
Proof.
  intros (Hle & Hlo & Hhi & Hall). split.
  - intros (a & b & Ha & Hb & Hq). apply Hall in Ha, Hb. lia.
  - intros Hq. by exists lo, hi.
Qed.

Lemma map_snd_indexed {A} (l : list A) : map snd (imap pair l) = l.
Proof.
  change (snd <$> imap pair l = l). rewrite fmap_imap.
  transitivity (imap (const id) l); [done|]. rewrite imap_const. apply list_fmap_id.
Qed.

Lemma map_indexed {A B} (f : A -> B) (l : list A) : map (fun e => f (snd e)) (imap pair l) = map f l.
Proof. rewrite <- (map_map snd f). by rewrite map_snd_indexed. Qed.

Lemma Forall_indexed {A} (P : A -> Prop) (l : list A) :
  Forall P l -> Forall (fun e => P (snd e)) (imap pair l).
Proof. intros Hl. rewrite <- (Forall_map snd P), map_snd_indexed. done. Qed.

(** Recovered events: each has a sequence number, in increasing order. *)
Definition recovered (events : list PhysicalFlight) : Prop :=
  Forall (fun e => exists q, ek_sequence (ph_key e) = Some q /\ 0 <= q <= u64_max) events
  /\ StronglySorted Z.lt (map sequence_of events).

(** Claimed ranges, in the order [radix_sort_sequence_facts] leaves them. *)
Definition claims_ok (hints : list SequenceFact) : Prop :=
  Forall range_ok (map sf_range hints) /\ StronglySorted facts_by_first hints.

Lemma sorted_last (l : list Z) (x y : Z) :
  StronglySorted Z.lt (x :: l) -> list.last (x :: l) = Some y ->
  x <= y /\ y ∈ x :: l /\ forall z, z ∈ x :: l -> x <= z <= y.
Proof.
  revert x. induction l as [|x' l IH]; intros x Hs Hl.
  - cbn in Hl. injection Hl as <-. set_solver.
  - apply StronglySorted_inv in Hs as [Hs Hx]. change (list.last (x' :: l) = Some y) in Hl.
    destruct (IH x' Hs Hl) as (Hle & Hin & Hall). inversion Hx as [|? ? Hxx _]; subst.
    split; [lia|]. split; [by right|]. intros z [->|Hz]%elem_of_cons; [lia|]. apply Hall in Hz. lia.
Qed.

(** The widened bounds, against where the loop started. *)
Definition widened (lo hi : Z) (facts : list SequenceFact) (r : Z * Z) : Prop :=
  fst r <= lo /\ hi <= snd r
  /\ Forall (fun f => fst r <= sr_first (sf_range f) /\ sr_last (sf_range f) <= snd r) facts
  /\ (fst r = lo \/ Exists (fun f => fst r = sr_first (sf_range f)) facts)
  /\ (snd r = hi \/ Exists (fun f => snd r = sr_last (sf_range f)) facts).

(** What the recovered events alone span. *)
Lemma initial_bounds_ok events :
  recovered events ->
  (events = [] /\ initial_bounds events = (u64_max, 0))
  \/ exists lo hi, initial_bounds events = (lo, hi) /\ 0 <= lo <= hi /\ hi <= u64_max
     /\ lo ∈ map sequence_of events /\ hi ∈ map sequence_of events
     /\ forall q, q ∈ map sequence_of events -> lo <= q <= hi.
Proof.
  intros [Hsome Hsort]. destruct events as [|e events]; [by left|right].
  destruct (list.last (e :: events)) as [e'|] eqn:He'; [|apply last_None in He'; discriminate He'].
  assert (list.last (map sequence_of (e :: events)) = Some (sequence_of e')) as Hl
    by (change (list.last (sequence_of <$> (e :: events)) = Some (sequence_of e'));
        by rewrite fmap_last, He').
  apply last_Some in He' as [pre Epre]. rewrite Forall_forall in Hsome.
  destruct (Hsome e ltac:(by left)) as (q & Hq & Hq64).
  destruct (Hsome e' ltac:(rewrite Epre; set_solver)) as (q' & Hq' & Hq64').
  assert (sequence_of e = q /\ sequence_of e' = q') as [Es Es']
    by (unfold sequence_of; by rewrite Hq, Hq').
  apply sorted_last in Hl as (Hle & Hin & Hall); [|done]. rewrite Es, Es' in *.
  exists q, q'. split.
  { unfold initial_bounds. rewrite Epre, last_snoc. cbn. rewrite Hq'. f_equal.
    rewrite <- Epre. cbn. by rewrite Hq. }
  split; [lia|]. split; [lia|]. split; [rewrite <- Es; by left|]. cbn [map]. rewrite Es. done.
Qed.

Lemma known_hint seqs hints f q :
  f ∈ hints -> in_range_of q (sf_range f) -> known seqs hints q.
Proof.
  intros Hf Hq. right. unfold covered_by. rewrite Exists_exists. exists (sf_range f).
  split; [|done]. by apply (list_elem_of_fmap_2 sf_range).
Qed.

Lemma spans_widened events hints lo hi r :
  recovered events -> claims_ok hints -> ~ (events = [] /\ hints = []) ->
  initial_bounds events = (lo, hi) -> widened lo hi hints r ->
  spans (fst r) (snd r) (map sequence_of events) hints /\ 0 <= fst r /\ snd r <= u64_max.
Proof.
  intros Hev [Hok _] Hne Hib (Hlo & Hhi & Hf & Hal & Hah). rewrite Forall_map in Hok.
  assert (Forall (fun f => known (map sequence_of events) hints (sr_first (sf_range f))
    /\ known (map sequence_of events) hints (sr_last (sf_range f))
    /\ range_ok (sf_range f) /\ fst r <= sr_first (sf_range f) /\ sr_last (sf_range f) <= snd r) hints) as Hk.
  { rewrite Forall_forall in Hok, Hf |- *. intros f Hin. specialize (Hok f Hin). specialize (Hf f Hin).
    pose proof Hok as [Hr Hr64]. split_and!; try done; try apply Hf;
      (eapply known_hint; [exact Hin|unfold in_range_of; lia]). }
  rewrite Exists_exists in Hal, Hah. rewrite Forall_forall in Hk. clear Hf Hok.
  assert (forall q, covered_by (map sf_range hints) q -> fst r <= q <= snd r) as Hcov.
  { intros q Hq. unfold covered_by in Hq. rewrite Exists_map, Exists_exists in Hq.
    destruct Hq as (f & Hin & Hq). apply Hk in Hin as (_ & _ & _ & ? & ?). unfold in_range_of in Hq. lia. }
  destruct (initial_bounds_ok events Hev) as [[-> E]|(lo' & hi' & E & H1 & H2 & H3 & H4 & H5)];
    rewrite Hib in E; injection E as -> ->.
  - destruct hints as [|f0 hints]; [by destruct Hne|].
    destruct (Hk f0 ltac:(by left)) as (_ & _ & [[Hr1 Hr2] Hr3] & Hr4 & Hr5).
    assert (exists f, f ∈ f0 :: hints /\ fst r = sr_first (sf_range f)) as (f & Hin & Ef).
    { destruct Hal as [Hal|]; [|done]. exists f0. split; [by left|lia]. }
    assert (exists f, f ∈ f0 :: hints /\ snd r = sr_last (sf_range f)) as (g & Hing & Eg).
    { destruct Hah as [Hah|]; [|done]. exists f0. split; [by left|lia]. }
    destruct (Hk f Hin) as (Kf & _ & [? ?] & _ & _). destruct (Hk g Hing) as (_ & Kg & [? ?] & _ & _).
    rewrite <- Ef in Kf. rewrite <- Eg in Kg. split; [|lia]. split; [lia|]. split_and!; [done..|].
    intros q [Hq|Hq]; [set_solver|by apply Hcov].
  - assert (known (map sequence_of events) hints (fst r) /\ 0 <= fst r) as [Kl ?].
    { destruct Hal as [->|(f & Hin & Ef)]; [split; [by left|lia]|].
      destruct (Hk f Hin) as (Kf & _ & [? ?] & _ & _). rewrite Ef. split; [done|lia]. }
    assert (known (map sequence_of events) hints (snd r) /\ snd r <= u64_max) as [Kh ?].
    { destruct Hah as [->|(f & Hin & Ef)]; [split; [by left|lia]|].
      destruct (Hk f Hin) as (_ & Kf & [? ?] & _ & _). rewrite Ef. split; [done|lia]. }
    split; [|done]. split; [lia|]. split_and!; [done..|].
    intros q [Hq|Hq]; [apply H5 in Hq; lia|by apply Hcov].
Qed.

Section account.
Context {W : Type} `{WorkGuard W} `{Allocator W} {S : Type}.
Abbreviation computes p Q s :=
  (wp (W := W) p (fun a s' => s' = s /\ Q a) (fun e s' => s' = s /\ host_error e) s).

Lemma computes_widen (indexed : list (nat * SequenceFact)) lo hi (s : S) :
  computes (fold_each indexed (lo, hi) widen) (widened lo hi (map snd indexed)) s.
Proof.
  revert lo hi. induction indexed as [|[i f] indexed IH]; intros lo hi; cbn [fold_each map].
  - apply computes_ret. unfold widened. cbn. split_and!; [lia..|constructor|by left|by left].
  - eapply (computes_bind _ _ (fun r => r = (Z.min lo (sr_first (sf_range f)),
                                             Z.max hi (sr_last (sf_range f))))).
    { eapply computes_bind; [apply computes_checkpoint|]. intros _ _. by apply computes_ret. }
    intros r ->. eapply wp_mono; [apply IH| |done].
    intros [lo' hi'] s' (-> & H1 & H2 & H3 & H4 & H5). split; [done|]. cbn [fst snd] in *.
    unfold widened. cbn [fst snd]. rewrite Forall_cons, !Exists_cons.
    split_and!; [lia|lia|lia|lia|done| |].
    + destruct H4 as [H4|H4]; [|by right; right]. destruct (Z.min_spec lo (sr_first (sf_range f))); intuition lia.
    + destruct H5 as [H5|H5]; [|by right; right]. destruct (Z.max_spec hi (sr_last (sf_range f))); intuition lia.
Qed.

Lemma StronglySorted_lt_le (l : list Z) : StronglySorted Z.lt l -> StronglySorted Z.le l.
Proof.
  induction 1 as [|x l Hl IH Hx]; constructor; [done|]. eapply Forall_impl; [exact Hx|]. cbn. lia.
Qed.

Lemma computes_account events hints damage cause first last completeness proofs (s : S) :
  recovered events -> claims_ok hints ->
  StronglySorted by_first damage -> Forall range_ok damage ->
  0 <= first <= last -> last <= u64_max ->
  computes (account_losses events hints damage cause first last completeness proofs)
    (fun r => exists runs missing,
       v_items (fst r) = v_items completeness ++ map retained_range runs
         ++ map (fun m => unknown_range (mr_cause m) (mr_range m)) missing
       /\ v_items (snd r) = v_items proofs ++ overlaps missing hints
       /\ (forall q, covered_by runs q <-> q ∈ map sequence_of events)
       /\ (forall q, covered_by (map mr_range missing) q
             <-> first <= q <= last /\ (q ∉ map sequence_of events) /\ ~ covered_by damage q)
       /\ StronglySorted apart (map mr_range missing)
       /\ Forall (caused_by cause) missing
       /\ Forall filled runs /\ Forall filled (map mr_range missing)) s.
Proof.
  intros [Hsome Hsort] [_ Hfacts] Hds Hdok Hfl Hlast.
  assert (Forall (fun e => exists q, ek_sequence (ph_key (snd e)) = Some q) (imap pair events)) as Hsome'.
  { apply (Forall_indexed (fun e => exists q, ek_sequence (ph_key e) = Some q)).
    eapply Forall_impl; [exact Hsome|]. cbn. intros e (q & Hq & _). by exists q. }
  eapply computes_bind.
  { apply (computes_retain (imap pair events) None 0 completeness); [done|by rewrite map_indexed|done]. }
  intros [[start rlast] completeness1] (Hready & runs & Hv1 & Hfill & Hcov). rewrite map_indexed in Hcov.
  eapply (computes_bind _ _ (fun v => v_items v = v_items completeness
    ++ map retained_range (runs ++ open_run start rlast))).
  { destruct start as [st|]; cbn [open_run].
    - destruct Hready as [Hle _]. eapply wp_mono; [by apply computes_sequence_range| |done].
      intros v s' [-> Hv]. split; [done|]. by rewrite Hv, Hv1, map_app, <- app_assoc.
    - apply computes_ret. by rewrite app_nil_r. }
  intros completeness2 Hv2.
  eapply computes_bind.
  { apply computes_missing_loop; [done..| |lia|done]. rewrite map_indexed. by apply StronglySorted_lt_le. }
  intros [[[cursor damage'] steps] gaps] (missing & Hg & Hca & Hse & Hds' & Hdok').
  rewrite map_indexed in Hse.
  set (tail := match cursor with
               | Some c => if c <=? last then gap_list damage' (Some c) last else []
               | None => [] end).
  eapply (computes_bind _ _ (fun r => let '(_, _, g) := r in extends_gaps gaps g (caused cause tail))).
  { subst tail. destruct cursor as [c|]; [destruct (c <=? last)|].
    - eapply wp_mono; [apply computes_add_missing| |done].
      intros [[rest steps'] g] s' (-> & _ & Hx). done.
    - apply computes_ret, extends_refl.
    - apply computes_ret, extends_refl. }
  intros [[rest steps'] [completeness3 gaps3]] Hg3.
  destruct (searched_finish (map sequence_of events) damage first last _ _ _ cause Hds' Hdok' ltac:(lia) Hlast Hse) as (Hw & Hap & Hgaps).
  fold tail in Hw, Hap, Hgaps.
  pose proof (extends_trans _ _ _ _ _ Hg Hg3) as [Hx1 Hx2]. cbn [fst snd app v_items vec_new] in Hx1, Hx2.
  set (all := missing ++ caused cause tail) in *.
  eapply computes_bind.
  { apply computes_proofs; [by rewrite Hx2| |done]. rewrite Hx2. rewrite Forall_map in Hw.
    eapply Forall_impl; [exact Hw|]. unfold within. intros m. cbn beta. lia. }
  intros proofs' Hp. apply computes_ret. exists (runs ++ open_run start rlast), all. cbn [fst snd].
  rewrite Hx1, Hv2, <- app_assoc, Hp, Hx2. split_and!; [done..| |done|done| | |].
  - intros q. rewrite Hcov. cbn. rewrite covered_nil. tauto.
  - apply Forall_app. split; [done|]. apply caused_causes. by left.
  - apply Forall_app. split; [done|]. destruct start as [first'|]; [|constructor].
    destruct Hready as [Hle _]. by repeat constructor.
  - eapply Forall_impl; [exact Hw|]. unfold within, filled. intros m. lia.
Qed.

End account.

Lemma wp_add_sequence {W} `{WorkGuard W} `{Allocator W} {S} (events : list PhysicalFlight)
    (hints : list SequenceFact) (damage : list SequenceRange) (status : RecoveryStatus)
    (completeness : Vec CompletenessRange) (proofs : Vec SequenceProof) (s : S) :
  recovered events -> claims_ok hints -> Forall range_ok damage /\ StronglySorted by_first damage ->
  wp (W := W) (add_sequence_completeness events hints damage status completeness proofs)
    (fun r s' => s' = s /\ accounted (map sequence_of events) hints damage status
       (v_items completeness) (v_items (fst r)) (v_items proofs) (v_items (snd r)))
    (fun e s' => s' = s /\ host_error e) s.
Proof.
  intros Hev Hhints Hdamage.
  destruct (decide (events = [] /\ hints = [])) as [[-> ->]|Hne].
  { apply computes_ret. exists [], []. cbn. rewrite !app_nil_r. split; [done|]. split; [done|].
    split; [intros q; rewrite covered_nil; set_solver|]. split; [|repeat split; constructor].
    intros q. rewrite covered_nil. split; [done|].
    intros ((a & b & [Ha|Ha] & _) & _); [set_solver|]. by apply covered_nil in Ha. }
  enough (wp (W := W) (let! bounds := fold_each (imap pair hints) (initial_bounds events) widen in
      let '(first, last) := bounds in
      if (first =? u64_max) && (last =? 0) then ret (completeness, proofs)
      else account_losses events hints damage (missing_cause_of status) first last completeness proofs)
    (fun r s' => s' = s /\ accounted (map sequence_of events) hints damage status
       (v_items completeness) (v_items (fst r)) (v_items proofs) (v_items (snd r)))
    (fun e s' => s' = s /\ host_error e) s) as Hwp.
  { destruct events, hints; [by destruct Hne|exact Hwp..]. }
  destruct (initial_bounds events) as [lo hi] eqn:Hib.
  eapply computes_bind; [apply computes_widen|]. rewrite map_snd_indexed. intros [first last] Hwide.
  destruct (spans_widened _ _ _ _ _ Hev Hhints Hne Hib Hwide) as (Hspan & Hf & Hl).
  pose proof Hspan as (Hle & _). cbn [fst snd] in *.
  replace ((first =? u64_max) && (last =? 0)) with false by (unfold u64_max in *; lia).
  destruct Hdamage as [Hdok Hds].
  eapply wp_mono; [apply computes_account; done || lia| |done].
  intros r s' (-> & runs & missing & H1 & H2 & H3 & H4 & H5 & H6 & H7 & H8). split; [done|].
  exists runs, missing. split_and!; [done..| |done|done|done|done].
  intros q. by rewrite H4, (spans_enclosed _ _ _ _ _ Hspan).
Qed.

(** C33: sequence accounting is exact.  Given the recovered events in increasing
    sequence order and the claimed and damaged ranges in the order of their
    starts, [add_sequence_completeness] leaves the recovery context alone and,
    unless the host stops it (cancellation, a budget, an allocation), appends to
    the completeness list the runs of recovered numbers and ranges, in order and
    disjoint, that cover exactly the numbers lying between two known ones which
    are neither recovered nor damaged; each is blamed on overwriting only when
    the file records no incident; and the proofs it appends are exactly the
    overlaps of the claimed ranges with the missing ones. *)
Theorem losses_exact (W : Type) (G : WorkGuard W) (A : Allocator W) (S : Type)
    (events : list PhysicalFlight) (hints : list SequenceFact) (damage : list SequenceRange)
    (status : RecoveryStatus) (completeness : Vec CompletenessRange) (proofs : Vec SequenceProof)
    (s : S) (w : W)
    (Hev : recovered events) (Hhints : claims_ok hints)
    (Hdamage : Forall range_ok damage /\ StronglySorted by_first damage) :
  match add_sequence_completeness events hints damage status completeness proofs s w with
  | (Ok (completeness', proofs'), s', _) =>
      s' = s /\ accounted (map sequence_of events) hints damage status
                  (v_items completeness) (v_items completeness') (v_items proofs) (v_items proofs')
  | (Err e, s', _) => s' = s /\ host_error e
  end.
Proof.
  pose proof (wp_add_sequence events hints damage status completeness proofs s Hev Hhints Hdamage w) as Hwp.
  by destruct (add_sequence_completeness _ _ _ _ _ _ s w) as [[[[? ?]|?] ?] ?].
Qed.

(** A sample: 5, 6 and 9 recovered, 3 to 12 claimed, 7 damaged. *)
Definition sample_event (q : Z) : PhysicalFlight :=
  mkPhysicalFlight (mkEventKey [] MERGED_TIMELINE_ID q 0 (Some q) (Some 1)) ArtifactScope
    (mkOpaque 1 0 []).
Definition sample_hint : SequenceFact := mkSequenceFact (mkSequenceRange 3 12) (AtSource 100).
Definition sample_losses : Prog unit ProviderError unit (Vec CompletenessRange * Vec SequenceProof) :=
  add_sequence_completeness (map sample_event [5; 6; 9]) [sample_hint] [mkSequenceRange 7 7]
    (mkRecoveryStatus 0 true false) vec_new vec_new.
Definition sample_missing : list MissingRange :=
  caused Lost [mkSequenceRange 3 4; mkSequenceRange 8 8; mkSequenceRange 10 12].

Lemma losses_exact_witness :
  exists c p, run sample_losses tt = (Ok (c, p), tt)
    /\ v_items c = map retained_range [mkSequenceRange 5 6; mkSequenceRange 9 9]
                   ++ map (fun m => unknown_range (mr_cause m) (mr_range m)) sample_missing
    /\ accounted [5; 6; 9] [sample_hint] [mkSequenceRange 7 7] (mkRecoveryStatus 0 true false)
         [] (v_items c) [] (v_items p).
Proof.
  eexists _, _. split; [vm_compute; reflexivity|]. split; [vm_compute; reflexivity|].
  refine (proj2 (losses_exact unit _ _ unit (map sample_event [5; 6; 9]) [sample_hint]
    [mkSequenceRange 7 7] (mkRecoveryStatus 0 true false) vec_new vec_new tt tt _ _ _)).
  - split; [|cbn; repeat constructor; lia].
    repeat (constructor; [eexists; split; [reflexivity|unfold u64_max; lia]|]). constructor.
  - split; repeat constructor; cbn; unfold u64_max; lia.
  - split; repeat constructor; cbn; unfold u64_max; lia.
Defined.
