(* ===== verification/FlightSort.v ===== *)
(** * The Flight radix sort

    Models [qtrace-provider/src/flight/sort.rs] and its allocation wrapper in
    [flight/mod.rs]: a guarded least-significant-byte radix sort of row
    numbers, whose permutation is then applied to the values in place along its
    cycles.  The reference is [stable_sort], an insertion sort by the number
    the key bytes spell. *)

From stdpp Require Import prelude list sorting strings gmap.
From Stdlib Require Import ZArith Lia Strings.Byte Sorted.
From S2P Require Import Prelude Prog Control.
Local Open Scope string_scope.
Local Open Scope list_scope.

(** Not errors of the code: an index out of bounds (a Rust panic), and a [loop]
    that ran out of fuel. *)
Definition sort_panic : ProviderError := ProviderError_new "model.panic" "model" None false "".
Definition sort_fuel : ProviderError := ProviderError_new "model.fuel" "model" None false "".

(** [values[i] = v], out of bounds a panic. *)
Definition store {T} (values : list T) (i : nat) (v : T) : option (list T) :=
  if decide (i < length values)%nat then Some (<[i := v]> values) else None.

(** [values.swap(i, j)] *)
Definition swap {T} (values : list T) (i j : nat) : option (list T) :=
  match values !! i, values !! j with
  | Some x, Some y => Some (<[i := y]> (<[j := x]> values))
  | _, _ => None
  end.

Section sort.
Context {W : Type} `{WorkGuard W} `{Allocator W} {S T : Type}.
Abbreviation M := (Prog W ProviderError S).

(** [flight::allocation::try_vec_with_capacity]; the vectors start empty. *)
Definition try_vec_with_capacity (t : RustType) (capacity : Z) (detail : string) : M unit :=
  try_vec_with_capacity_in t capacity detail FLIGHT_RECOVERY_ALLOCATION ;! ret tt.

Definition checkpoint (index : nat) : M unit :=
  if (Z.of_nat index mod MAX_UNGUARDED_RECORDS =? 0)%Z then consume WorkDelta_default else ret tt.

(** [values[i]], out of bounds a panic. *)
Definition at_index {X} (values : list X) (i : nat) : M X := lift_option (values !! i) sort_panic.

Context (key_byte : T -> nat -> result ProviderError Z).

(** [usize::from(key_byte(&values[source], pass)?)] *)
Definition bucket_of (values : list T) (pass source : nat) : M nat :=
  let! v := at_index values source in
  let! b := lift_result (key_byte v pass) in
  ret (Z.to_nat b).

Definition count_keys (values : list T) (pass : nat) (order : list nat) : M (list nat) :=
  fold_each (imap pair order) (replicate 256 0%nat) (fun counts '(index, source) =>
    checkpoint index ;!
    let! b := bucket_of values pass source in
    let! n := at_index counts b in
    lift_option (store counts b (n + 1)%nat) sort_panic).

(** [positions[index] = positions[index - 1] + counts[index - 1]] for 1..256 *)
Definition prefix_positions (counts : list nat) : list nat :=
  foldl (fun positions index =>
           <[index := (positions !!! (index - 1) + counts !!! (index - 1))%nat]> positions)
    (replicate 256 0%nat) (seq 1 255).

Definition scatter (values : list T) (pass : nat) (order scratch positions : list nat) :
    M (list nat * list nat) :=
  fold_each (imap pair order) (scratch, positions) (fun '(scratch, positions) '(index, source) =>
    checkpoint index ;!
    let! b := bucket_of values pass source in
    let! position := at_index positions b in
    let! scratch := lift_option (store scratch position source) sort_panic in
    let! positions := lift_option (store positions b (position + 1)%nat) sort_panic in
    ret (scratch, positions)).

(** One pass; the swapped pair ([order], [scratch]). *)
Definition radix_pass (values : list T) (buffers : list nat * list nat) (pass : nat) :
    M (list nat * list nat) :=
  let '(order, scratch) := buffers in
  let! counts := count_keys values pass order in
  let! filled := scatter values pass order scratch (prefix_positions counts) in
  ret (fst filled, order).

(** The inner [loop]: follow the cycle of [start]. *)
Fixpoint follow_cycle (fuel start current : nat) (order : list nat) (values : list T)
    (reorder_work : nat) : M (list nat * list T * nat) :=
  match fuel with
  | O => throw sort_fuel
  | Datatypes.S fuel =>
      let! source := at_index order current in
      let order := <[current := current]> order in
      if (source =? start)%nat then ret (order, values, reorder_work)
      else
        checkpoint reorder_work ;!
        let! values := lift_option (swap values current source) sort_panic in
        follow_cycle fuel start source order values (reorder_work + 1)
  end.

(** The reorder loop; a cycle is no longer than the vector. *)
Definition reorder (order : list nat) (values : list T) : M (list T) :=
  let! final :=
    fold_each (seq 0 (length values)) (order, values, 0%nat)
      (fun '(order, values, reorder_work) start =>
        checkpoint reorder_work ;!
        follow_cycle (Datatypes.S (length values)) start start order values (reorder_work + 1)) in
  ret (snd (fst final)).

Definition guarded_radix_sort (values : list T) (passes : nat) : M (list T) :=
  checkpoint 0 ;!
  let length := length values in
  if (length <? 2)%nat then ret values
  else
    try_vec_with_capacity T_usize (Z.of_nat length) "Flight sort order allocation failed" ;!
    try_vec_with_capacity T_usize (Z.of_nat length) "Flight sort scratch allocation failed" ;!
    let! buffers :=
      fold_each (seq 0 length) ([], []) (fun '(order, scratch) index =>
        checkpoint index ;! ret (order ++ [index], scratch ++ [0%nat])) in
    let! buffers := fold_each (seq 0 passes) buffers (radix_pass values) in
    reorder (fst buffers) values.

End sort.

(** [value.to_le_bytes()[pass]] *)
Definition le_byte (v : Z) (pass : nat) : result ProviderError Z :=
  Ok (Z.land (Z.shiftr v (8 * Z.of_nat pass)) 255).

(** [flight/events.rs], [guarded_sort_u64]: sort, then drop neighbours that are
    equal, in place. *)
Section sort_u64.
Context {W : Type} `{WorkGuard W} `{Allocator W} {S : Type}.
Abbreviation M := (Prog W ProviderError S).

Definition retain_step (buffer : list Z * nat) (index : nat) : M (list Z * nat) :=
  let '(values, retained) := buffer in
  checkpoint index ;!
  let! value := at_index values index in
  let! fresh :=
    if (retained =? 0)%nat then ret true
    else let! last := at_index values (retained - 1) in ret (negb (last =? value)%Z) in
  if fresh
  then let! values := lift_option (store values retained value) sort_panic in
       ret (values, (retained + 1)%nat)
  else ret (values, retained).

Definition guarded_sort_u64 (values : list Z) : M (list Z) :=
  let! values := guarded_radix_sort le_byte values 8 in
  let! buffer := fold_each (seq 0 (length values)) (values, 0%nat) retain_step in
  ret (take (snd buffer) (fst buffer)).

End sort_u64.

(** ** The reference: a stable insertion sort *)

Section reference.
Context {T : Type} (key : T -> Z).

Fixpoint insert_sorted (x : T) (l : list T) : list T :=
  match l with
  | [] => [x]
  | y :: l => if (key x <=? key y)%Z then x :: y :: l else y :: insert_sorted x l
  end.

Definition stable_sort (l : list T) : list T := foldr insert_sorted [] l.

Lemma insert_sorted_perm x l : insert_sorted x l ≡ₚ x :: l.
Proof.
  induction l as [|y l IH]; cbn; [done|]. destruct (_ <=? _)%Z; [done|]. rewrite IH. apply Permutation_swap.
Qed.

Lemma stable_sort_perm l : stable_sort l ≡ₚ l.
Proof.
  unfold stable_sort. induction l as [|x l IH]; cbn [foldr]; [done|]. by rewrite insert_sorted_perm, IH.
Qed.

End reference.

Lemma stable_sort_map {A B} (key : B -> Z) (f : A -> B) (l : list A) :
  stable_sort key (map f l) = map f (stable_sort (fun a => key (f a)) l).
Proof.
  assert (forall x m, insert_sorted key (f x) (map f m)
                      = map f (insert_sorted (fun a => key (f a)) x m)) as Hins.
  { intros x m. induction m as [|y m IH]; cbn; [done|]. destruct (_ <=? _)%Z; cbn; [done|]. by rewrite IH. }
  unfold stable_sort. induction l as [|x l IH]; cbn [foldr map]; [done|]. by rewrite IH, Hins.
Qed.

(** Rows by key, ties by position. *)
Definition row_before (key : nat -> Z) (i j : nat) : Prop :=
  (key i < key j)%Z \/ (key i = key j /\ (i < j)%nat).

#[local] Instance row_before_trans key : Transitive (row_before key).
Proof. unfold row_before. intros i j k. lia. Qed.
#[local] Instance row_before_antisym key : AntiSymm (=) (row_before key).
Proof. unfold row_before. intros i j. lia. Qed.

Lemma Sorted_filter {A} (R : A -> A -> Prop) (f : A -> bool) l :
  StronglySorted R l -> StronglySorted R (List.filter f l).
Proof.
  induction 1 as [|x l _ IH Hx]; cbn; [constructor|]. destruct (f x); [|done]. constructor; [done|].
  rewrite Forall_forall in *. intros y. rewrite list_elem_of_In, filter_In, <- list_elem_of_In.
  intros [Hy _]. by apply Hx.
Qed.

Lemma Sorted_concat {A} (R : A -> A -> Prop) (g : nat -> list A) bs :
  (forall b, b ∈ bs -> StronglySorted R (g b)) -> StronglySorted lt bs ->
  (forall b c x y, (b < c)%nat -> x ∈ g b -> y ∈ g c -> R x y) ->
  StronglySorted R (concat (map g bs)).
Proof.
  intros Hg Hbs Hcross. induction Hbs as [|b bs _ IH Hb]; cbn; [constructor|].
  apply StronglySorted_app_2; [|apply Hg; left|apply IH; intros; apply Hg; by right].
  intros x y Hx Hy. rewrite list_elem_of_In, in_concat in Hy.
  destruct Hy as (m & (c & <- & Hc)%in_map_iff & Hy). rewrite Forall_forall in Hb.
  apply (Hcross b c); [by apply Hb, list_elem_of_In|done|by apply list_elem_of_In].
Qed.

Lemma Sorted_weaken {A} (R R' : A -> A -> Prop) l :
  (forall x y, R x y -> R' x y) -> StronglySorted R l -> StronglySorted R' l.
Proof.
  intros HR. induction 1; constructor; [done|]. by eapply Forall_impl; [|intros; apply HR].
Qed.

Lemma seq_sorted a n : StronglySorted lt (seq a n).
Proof.
  revert a. induction n as [|n IH]; intros a; cbn; [constructor|]. constructor; [done|].
  apply Forall_forall. intros x ?%elem_of_seq. lia.
Qed.

Lemma stable_sort_rows key l :
  StronglySorted lt l -> StronglySorted (row_before key) (stable_sort key l).
Proof.
  induction 1 as [|x l _ IH Hx]; [constructor|].
  assert (Forall (lt x) (stable_sort key l)) as Hall by (by rewrite stable_sort_perm).
  change (stable_sort key (x :: l)) with (insert_sorted key x (stable_sort key l)).
  induction IH as [|y m Hm IHm Hy]; cbn; [repeat constructor|].
  apply Forall_cons in Hall as [Hxy Hall]. destruct (Z.leb_spec (key x) (key y)).
  - constructor; [by constructor|]. constructor; [unfold row_before; lia|].
    rewrite Forall_forall in *. intros z Hz. specialize (Hy z Hz). specialize (Hall z Hz).
    unfold row_before in *. lia.
  - constructor; [by apply IHm|]. rewrite insert_sorted_perm. constructor; [unfold row_before; lia|done].
Qed.

(** ** One pass: distribute into buckets *)

Section buckets.
Context (byte : nat -> nat -> nat) (Hbyte : forall p i, (byte p i < 256)%nat).

Definition bucket (p b : nat) (l : list nat) : list nat :=
  List.filter (fun i => (byte p i =? b)%nat) l.
Definition buckets (p : nat) (l : list nat) : list (list nat) :=
  map (fun b => bucket p b l) (seq 0 256).
Definition distribute (p : nat) (l : list nat) : list nat := concat (buckets p l).

(** The number spelled by the bytes of the first [p] passes. *)
Fixpoint low_key (p i : nat) : Z :=
  match p with
  | O => 0
  | Datatypes.S p => low_key p i + Z.of_nat (byte p i) * 256 ^ Z.of_nat p
  end%Z.

Lemma low_key_range p i : (0 <= low_key p i < 256 ^ Z.of_nat p)%Z.
Proof.
  induction p as [|p IH]; [done|]. cbn [low_key]. specialize (Hbyte p i).
  rewrite Nat2Z.inj_succ, Z.pow_succ_r by lia. nia.
Qed.

Lemma bucket_elem p b l i : i ∈ bucket p b l <-> i ∈ l /\ byte p i = b.
Proof. unfold bucket. by rewrite !list_elem_of_In, filter_In, Nat.eqb_eq. Qed.

Lemma distribute_sorted p l :
  StronglySorted (row_before (low_key p)) l ->
  StronglySorted (row_before (low_key (Datatypes.S p))) (distribute p l).
Proof.
  intros Hl. apply Sorted_concat; [|apply seq_sorted|].
  - intros b _. pose proof (Sorted_filter _ (fun i => (byte p i =? b)%nat) _ Hl) as Hf.
    change (StronglySorted (row_before (low_key p)) (bucket p b l)) in Hf.
    assert (Forall (fun i => byte p i = b) (bucket p b l)) as Hb
      by (apply Forall_forall; intros i Hi; by apply bucket_elem in Hi as [_ ?]).
    induction Hf as [|i m _ IH Hi]; [constructor|]. apply Forall_cons in Hb as [Hb Hbs].
    constructor; [by apply IH|]. rewrite Forall_forall in *. intros j Hj.
    specialize (Hi j Hj). specialize (Hbs j Hj). unfold row_before in *. cbn [low_key].
    rewrite Hb, Hbs. lia.
  - intros b c x y Hbc [_ Hx]%bucket_elem [_ Hy]%bucket_elem. left. cbn [low_key].
    pose proof (low_key_range p x). pose proof (low_key_range p y). rewrite Hx, Hy. nia.
Qed.

Lemma concat_map_app {A} (g h : nat -> list A) bs :
  concat (map (fun b => g b ++ h b) bs) ≡ₚ concat (map g bs) ++ concat (map h bs).
Proof.
  induction bs as [|b bs IH]; cbn; [done|]. rewrite IH, <- !(assoc_L (++)). f_equiv.
  rewrite !(assoc_L (++)). f_equiv. apply Permutation_app_comm.
Qed.

Lemma concat_single {A} (x : A) k a n :
  concat (map (fun b => if (k =? b)%nat then [x] else []) (seq a n))
  = if decide (a <= k < a + n)%nat then [x] else [].
Proof.
  revert a. induction n as [|n IH]; intros a; cbn [seq map concat].
  { by destruct (decide _); [lia|]. }
  rewrite IH. destruct (Nat.eqb_spec k a) as [->|Hne];
    destruct (decide (Datatypes.S a <= _ < _)%nat), (decide (_ <= _ < a + Datatypes.S n)%nat); lia || done.
Qed.

Lemma distribute_perm p l : distribute p l ≡ₚ l.
Proof.
  unfold distribute, buckets. induction l as [|i l IH].
  { assert (concat (map (fun b => bucket p b []) (seq 0 256)) = []) as -> by done. done. }
  assert (map (fun b => bucket p b (i :: l)) (seq 0 256)
          = map (fun b => (if (byte p i =? b)%nat then [i] else []) ++ bucket p b l) (seq 0 256)) as ->.
  { apply map_ext. intros b. unfold bucket. cbn. by destruct (_ =? _)%nat. }
  rewrite concat_map_app, IH, concat_single, decide_True by (specialize (Hbyte p i); lia). done.
Qed.

(** All passes, from the identity: the rows in stable key order. *)
Definition distribute_all (passes n : nat) : list nat :=
  foldl (fun l p => distribute p l) (seq 0 n) (seq 0 passes).

Lemma distribute_all_stable passes n :
  distribute_all passes n = stable_sort (low_key passes) (seq 0 n).
Proof.
  assert (distribute_all passes n ≡ₚ seq 0 n
          /\ StronglySorted (row_before (low_key passes)) (distribute_all passes n)) as [Hp Hs].
  { unfold distribute_all. induction passes as [|p [IHp IHs]].
    - split; [done|]. cbn. apply (Sorted_weaken lt); [right; cbn; lia|apply seq_sorted].
    - rewrite seq_S, foldl_app. cbn [foldl].
      split; [by rewrite distribute_perm|by apply distribute_sorted]. }
  apply (StronglySorted_unique (row_before (low_key passes))); [done|..].
  - apply stable_sort_rows, seq_sorted.
  - by rewrite Hp, stable_sort_perm.
Qed.

End buckets.

(** ** The counting loops compute [distribute] *)

Lemma concat_insert {A} (L : list (list A)) b r j x :
  L !! b = Some r -> (j < length r)%nat ->
  <[(length (concat (take b L)) + j)%nat := x]> (concat L) = concat (<[b := <[j := x]> r]> L).
Proof.
  revert b. induction L as [|r0 L IH]; intros [|b] Hb Hj; try done; cbn in *.
  - injection Hb as ->. by rewrite insert_app_l.
  - rewrite length_app, <- Nat.add_assoc, insert_app_r. by rewrite IH.
Qed.

Lemma split_rows {A} (ns : list nat) (l : list A) :
  list_sum ns = length l -> exists L, map length L = ns /\ concat L = l.
Proof.
  revert l. induction ns as [|n ns IH]; intros l Hl.
  - exists []. by destruct l.
  - change (n + list_sum ns = length l)%nat in Hl.
    destruct (IH (drop n l)) as (L & HL & Hc); [rewrite length_drop; lia|].
    exists (take n l :: L). cbn. rewrite length_take, Hc, take_drop, HL. split; [f_equal; lia|done].
Qed.

Lemma imap_pair_split {A} (l : list A) before i x after :
  imap pair l = before ++ (i, x) :: after -> l = map snd before ++ x :: map snd after.
Proof.
  intros Hl. assert (map snd (imap pair l) = l) as Hs.
  { change (snd <$> imap pair l = l). rewrite fmap_imap. apply list_eq. intros j.
    rewrite list_lookup_imap. by destruct (l !! j). }
  rewrite Hl, map_app in Hs. by rewrite <- Hs.
Qed.

Lemma list_sum_take_S (ns : list nat) k n :
  ns !! k = Some n -> list_sum (take (Datatypes.S k) ns) = (list_sum (take k ns) + n)%nat.
Proof. intros Hk. rewrite (take_S_r _ _ _ Hk), list_sum_app. cbn. lia. Qed.

Lemma prefix_positions_lookup counts b :
  length counts = 256%nat -> (b < 256)%nat ->
  prefix_positions counts !! b = Some (list_sum (take b counts)).
Proof.
  intros Hlen Hb. unfold prefix_positions.
  enough (forall m, (m <= 255)%nat ->
    let ps := foldl (fun ps i => <[i := (ps !!! (i - 1) + counts !!! (i - 1))%nat]> ps)
                (replicate 256 0%nat) (seq 1 m) in
    length ps = 256%nat /\ forall i, (i <= m)%nat -> ps !! i = Some (list_sum (take i counts))) as Hgen.
  { apply Hgen; lia. }
  induction m as [|m IH]; intros Hm; cbn zeta.
  { split; [done|]. intros i Hi. by replace i with 0%nat by lia. }
  destruct (IH ltac:(lia)) as [Hl Hps]. rewrite seq_S, foldl_app. cbn [foldl].
  set (ps := foldl _ _ _) in *. replace (1 + m - 1)%nat with m by lia. change (1 + m)%nat with (Datatypes.S m).
  split; [by rewrite length_insert|]. intros i Hi.
  destruct (decide (i = Datatypes.S m)) as [->|Hne].
  - rewrite list_lookup_insert_eq by lia. f_equal.
    destruct (lookup_lt_is_Some_2 counts m ltac:(lia)) as [n Hn].
    pose proof (Hps m ltac:(lia)) as Hpm.
    by rewrite (list_lookup_total_correct ps m _ Hpm), (list_lookup_total_correct counts m _ Hn),
      (list_sum_take_S _ _ _ Hn).
  - rewrite list_lookup_insert_ne by lia. apply Hps. lia.
Qed.

Section counting.
Context (byte : nat -> nat -> nat) (Hbyte : forall p i, (byte p i < 256)%nat).
Abbreviation bucket := (FlightSort.bucket byte).
Abbreviation buckets := (FlightSort.buckets byte).

Lemma bucket_snoc p b l i :
  bucket p b (l ++ [i]) = bucket p b l ++ (if (byte p i =? b)%nat then [i] else []).
Proof. unfold FlightSort.bucket. rewrite List.filter_app. cbn. by destruct (_ =? _)%nat. Qed.

Lemma buckets_lookup p l b : (b < 256)%nat -> buckets p l !! b = Some (bucket p b l).
Proof.
  intros Hb. unfold FlightSort.buckets. change (map ?f ?x) with (f <$> x).
  by rewrite list_lookup_fmap, lookup_seq_lt.
Qed.

Lemma counts_lookup p l b :
  (b < 256)%nat -> map length (buckets p l) !! b = Some (length (bucket p b l)).
Proof.
  intros Hb. change (map length ?x) with (length <$> x).
  by rewrite list_lookup_fmap, buckets_lookup by done.
Qed.

Lemma length_counts p l : length (map length (buckets p l)) = 256%nat.
Proof. unfold FlightSort.buckets. by rewrite !length_map, length_seq. Qed.

Lemma counts_snoc p l x :
  <[byte p x := (length (bucket p (byte p x) l) + 1)%nat]> (map length (buckets p l))
  = map length (buckets p (l ++ [x])).
Proof.
  apply list_eq. intros b. destruct (decide (b < 256)%nat) as [Hb|Hb].
  - rewrite counts_lookup, bucket_snoc, length_app by done.
    destruct (Nat.eqb_spec (byte p x) b) as [<-|Hne]; cbn [length].
    + by rewrite list_lookup_insert_eq by (by rewrite length_counts).
    + rewrite list_lookup_insert_ne, counts_lookup by done. by rewrite Nat.add_0_r.
  - rewrite !lookup_ge_None_2; [done|..]; rewrite ?length_insert, length_counts; lia.
Qed.

(** The scatter loop: row [b] of [scratch] fills from the left with bucket [b]. *)
Definition scattered (p : nat) (order visited scratch positions : list nat) : Prop :=
  length positions = 256%nat
  /\ exists L, scratch = concat L /\ map length L = map length (buckets p order)
       /\ forall b, (b < 256)%nat ->
            positions !! b = Some (length (concat (take b L)) + length (bucket p b visited))%nat
            /\ exists r, L !! b = Some r
                 /\ take (length (bucket p b visited)) r = bucket p b visited.

Lemma scattered_start p order scratch :
  length scratch = length order ->
  scattered p order [] scratch (prefix_positions (map length (buckets p order))).
Proof.
  intros Hlen. split.
  { unfold prefix_positions. generalize (seq 1 255). intros l.
    enough (forall ps : list nat, length ps = 256%nat ->
      length (foldl (fun ps i => <[i := (ps !!! (i - 1) + map length (buckets p order) !!! (i - 1))%nat]> ps)
        ps l) = 256%nat) as H by by apply H.
    induction l as [|i l IH]; intros ps Hps; [done|]. cbn [foldl]. apply IH. by rewrite length_insert. }
  destruct (split_rows (map length (buckets p order)) scratch) as (L & HL & <-).
  { rewrite <- length_concat, Hlen. apply Permutation_length.
    apply (distribute_perm byte Hbyte). }
  exists L. split; [done|]. split; [done|]. intros b Hb. split.
  - rewrite prefix_positions_lookup by (rewrite ?length_counts; done). f_equal.
    rewrite <- HL. cbn. rewrite Nat.add_0_r, length_concat. f_equal. symmetry. apply fmap_take.
  - destruct (lookup_lt_is_Some_2 L b) as [r Hr]; [|by exists r].
    by rewrite <- (length_map length), HL, length_counts.
Qed.

(** Writing the next row number fills one more place of its bucket. *)
Lemma scattered_step p order visited x rest scratch positions :
  order = visited ++ x :: rest ->
  scattered p order visited scratch positions ->
  exists position,
    positions !! byte p x = Some position /\ (position < length scratch)%nat
    /\ scattered p order (visited ++ [x]) (<[position := x]> scratch)
         (<[byte p x := (position + 1)%nat]> positions).
Proof.
  intros Hsplit (Hlen & L & -> & HL & Hrows). set (b0 := byte p x).
  pose proof (Hbyte p x) as Hb0. fold b0 in Hb0.
  destruct (Hrows b0 Hb0) as (Hpos & r & Hr & Htake).
  assert (length r = length (bucket p b0 order)) as Hlr.
  { pose proof (counts_lookup p order b0 Hb0) as Hc. rewrite <- HL in Hc.
    change (map length ?y) with (length <$> y) in Hc. rewrite list_lookup_fmap, Hr in Hc.
    by injection Hc. }
  assert (length (bucket p b0 visited) < length r)%nat as Hroom.
  { rewrite Hlr, Hsplit. change (x :: rest) with ([x] ++ rest). unfold FlightSort.bucket.
    rewrite !List.filter_app, !length_app. cbn. unfold b0. rewrite Nat.eqb_refl. cbn. lia. }
  eexists. split; [exact Hpos|]. split.
  { rewrite <- (take_drop_middle L b0 r Hr) at 2. rewrite concat_app, length_app. cbn.
    rewrite length_app. lia. }
  split; [by rewrite length_insert|]. rewrite (concat_insert L b0 r _ x Hr Hroom).
  eexists. split; [done|]. split.
  { rewrite <- HL. apply list_eq. intros b. change (map ?f ?y) with (f <$> y).
    rewrite !list_lookup_fmap. destruct (decide (b = b0)) as [->|Hne].
    - rewrite list_lookup_insert_eq by (by eapply lookup_lt_Some). rewrite Hr. cbn.
      by rewrite length_insert.
    - by rewrite list_lookup_insert_ne by done. }
  intros b Hb. destruct (Hrows b Hb) as (Hposb & rb & Hrb & Htakeb).
  assert (length (concat (take b (<[b0 := <[length (bucket p b0 visited) := x]> r]> L)))
          = length (concat (take b L))) as Hoff.
  { destruct (decide (b <= b0)%nat); [by rewrite take_insert_ge by lia|].
    rewrite take_insert_lt by lia. rewrite !length_concat. f_equal. apply list_eq. intros k.
    change (map ?f ?y) with (f <$> y). rewrite !list_lookup_fmap.
    destruct (decide (k = b0)) as [->|Hne]; [|by rewrite list_lookup_insert_ne by done].
    rewrite list_lookup_insert_eq by (rewrite length_take; apply lookup_lt_Some in Hr; lia).
    rewrite lookup_take_lt by lia. rewrite Hr. cbn. by rewrite length_insert. }
  rewrite Hoff, bucket_snoc, length_app. fold b0.
  destruct (Nat.eqb_spec b0 b) as [<-|Hne]; cbn [length].
  - split; [rewrite list_lookup_insert_eq by lia; f_equal; lia|].
    exists (<[length (bucket p b0 visited) := x]> r).
    rewrite list_lookup_insert_eq by (by eapply lookup_lt_Some). split; [done|].
    rewrite Nat.add_1_r, (take_S_r _ _ x) by (by apply list_lookup_insert_eq).
    by rewrite take_insert_ge, Htake by lia.
  - rewrite Nat.add_0_r, app_nil_r. split; [by rewrite list_lookup_insert_ne|].
    exists rb. by rewrite list_lookup_insert_ne.
Qed.

Lemma scattered_end p order scratch positions :
  scattered p order order scratch positions -> scratch = distribute byte p order.
Proof.
  intros (_ & L & -> & HL & Hrows). unfold distribute. f_equal. apply list_eq. intros b.
  destruct (decide (b < 256)%nat) as [Hb|Hb].
  - destruct (Hrows b Hb) as (_ & r & Hr & Htake). rewrite buckets_lookup, Hr by done. f_equal.
    rewrite <- Htake. rewrite take_ge; [done|].
    pose proof (counts_lookup p order b Hb) as Hc. rewrite <- HL in Hc.
    change (map length ?y) with (length <$> y) in Hc. rewrite list_lookup_fmap, Hr in Hc.
    injection Hc as ->. done.
  - rewrite !lookup_ge_None_2; [done|..].
    + unfold FlightSort.buckets. rewrite length_map, length_seq. lia.
    + rewrite <- (length_map length), HL, length_counts. lia.
Qed.

End counting.

Section runs.
Context {S T : Type} (key_byte : T -> nat -> result ProviderError Z) (values : list T)
  (passes : nat).
Context (Hkey : forall v p, v ∈ values -> (p < passes)%nat ->
  exists b, key_byte v p = Ok b /\ (0 <= b < 256)%Z).
Implicit Types s : S.

(** The byte a row shows in a pass. *)
Definition row_byte (p i : nat) : nat :=
  if decide (p < passes)%nat then
    match values !! i with
    | Some v => match key_byte v p with Ok b => Z.to_nat b | Err _ => 0 end
    | None => 0
    end
  else 0.

Lemma row_byte_range p i : (row_byte p i < 256)%nat.
Proof.
  unfold row_byte. destruct (decide _) as [Hp|]; [|lia].
  destruct (values !! i) as [v|] eqn:Hv; [|lia].
  destruct (Hkey v p) as (b & -> & Hb); [by eapply list_elem_of_lookup_2|done|]. lia.
Qed.

Lemma run_checkpoint i s : run (checkpoint (W := unit) i) s = (Ok tt, s).
Proof. unfold checkpoint. by destruct (_ =? _)%Z. Qed.

Lemma run_at_index {X} (l : list X) i x s :
  l !! i = Some x -> run (at_index (W := unit) l i) s = (Ok x, s).
Proof. intros Hx. unfold at_index, lift_option. by rewrite Hx. Qed.

Lemma run_bucket_of p i s :
  (p < passes)%nat -> (i < length values)%nat ->
  run (bucket_of (W := unit) key_byte values p i) s = (Ok (row_byte p i), s).
Proof.
  intros Hp Hi. destruct (lookup_lt_is_Some_2 _ _ Hi) as [v Hv]. unfold bucket_of.
  rewrite (run_bind_ok _ _ _ _ _ (run_at_index _ _ _ s Hv)). unfold row_byte.
  rewrite decide_True by done. rewrite Hv.
  destruct (Hkey v p) as (b & -> & Hb); [by eapply list_elem_of_lookup_2|done|]. done.
Qed.

Lemma run_store {X} (l : list X) i x s :
  (i < length l)%nat ->
  run (lift_option (W := unit) (store l i x) sort_panic) s = (Ok (<[i := x]> l), s).
Proof. intros Hi. unfold store. by rewrite decide_True by done. Qed.

Abbreviation bucket := (bucket row_byte).
Abbreviation buckets := (buckets row_byte).

Lemma order_member order before i x after :
  Forall (fun i => i < length values)%nat order -> imap pair order = before ++ (i, x) :: after ->
  (x < length values)%nat /\ order = map snd before ++ x :: map snd after.
Proof.
  intros Ho Hs%imap_pair_split. split; [|done]. rewrite Hs in Ho.
  by apply Forall_app in Ho as [_ [? _]%Forall_cons].
Qed.

Lemma imap_pair_snd {A} (l : list A) : map snd (imap pair l) = l.
Proof.
  change (snd <$> imap pair l = l). rewrite fmap_imap. apply list_eq. intros j.
  rewrite list_lookup_imap. by destruct (l !! j).
Qed.

Lemma run_count_keys p order s :
  (p < passes)%nat -> Forall (fun i => i < length values)%nat order ->
  run (count_keys (W := unit) key_byte values p order) s
  = (Ok (map length (buckets p order)), s).
Proof.
  intros Hp Ho. unfold count_keys. match goal with |- run (fold_each ?xs ?a ?f) s = _ =>
    destruct (run_fold_each (fun before counts => counts = map length (buckets p (map snd before)))
                xs a f s) as (c & Hrun & Hc) end.
  - done.
  - intros before [i x] after counts Hsplit ->.
    destruct (order_member _ _ _ _ _ Ho Hsplit) as [Hx _].
    rewrite map_app. cbn [map snd]. rewrite <- counts_snoc. eexists. split; [|done].
    rewrite (run_bind_ok _ _ _ _ _ (run_checkpoint _ _)),
      (run_bind_ok _ _ _ _ _ (run_bucket_of _ _ _ Hp Hx)).
    pose proof (row_byte_range p x) as Hb.
    rewrite (run_bind_ok _ _ _ _ _ (run_at_index _ _ _ _ (counts_lookup row_byte p _ _ Hb))).
    apply run_store. by rewrite length_counts.
  - rewrite Hrun, Hc. by rewrite imap_pair_snd.
Qed.

Lemma run_scatter p order scratch s :
  (p < passes)%nat -> Forall (fun i => i < length values)%nat order ->
  length scratch = length order ->
  exists positions,
    run (scatter (W := unit) key_byte values p order scratch
           (prefix_positions (map length (buckets p order)))) s
    = (Ok (distribute row_byte p order, positions), s).
Proof.
  intros Hp Ho Hlen. unfold scatter. match goal with |- context [run (fold_each ?xs ?a ?f) s] =>
    destruct (run_fold_each (fun before st => scattered row_byte p order (map snd before) (fst st) (snd st))
                xs a f s) as ([c ps] & Hrun & Hc) end.
  - by apply (scattered_start row_byte row_byte_range).
  - intros before [i x] after [sc ps] Hsplit Hsc. cbn [fst snd] in *.
    destruct (order_member _ _ _ _ _ Ho Hsplit) as [Hx Horder].
    destruct (scattered_step row_byte row_byte_range _ _ _ _ _ _ _ Horder Hsc) as (position & Hpos & Hroom & Hnext).
    exists (<[position := x]> sc, <[row_byte p x := (position + 1)%nat]> ps).
    rewrite map_app. split; [|exact Hnext].
    rewrite (run_bind_ok _ _ _ _ _ (run_checkpoint _ _)),
      (run_bind_ok _ _ _ _ _ (run_bucket_of _ _ _ Hp Hx)),
      (run_bind_ok _ _ _ _ _ (run_at_index _ _ _ _ Hpos)),
      (run_bind_ok _ _ _ _ _ (run_store _ _ _ _ Hroom)).
    assert (row_byte p x < length ps)%nat as Hb
      by (destruct Hsc as [-> _]; apply row_byte_range).
    by rewrite (run_bind_ok _ _ _ _ _ (run_store _ _ _ _ Hb)).
  - exists ps. rewrite Hrun. cbn in Hc. rewrite imap_pair_snd in Hc.
    by rewrite (scattered_end row_byte _ _ _ _ Hc).
Qed.

Lemma run_radix_pass p order scratch s :
  (p < passes)%nat -> Forall (fun i => i < length values)%nat order ->
  length scratch = length order ->
  run (radix_pass (W := unit) key_byte values (order, scratch) p) s
  = (Ok (distribute row_byte p order, order), s).
Proof.
  intros Hp Ho Hlen. unfold radix_pass.
  rewrite (run_bind_ok _ _ _ _ _ (run_count_keys _ _ _ Hp Ho)).
  destruct (run_scatter p order scratch s Hp Ho Hlen) as [ps Hrun].
  by rewrite (run_bind_ok _ _ _ _ _ Hrun).
Qed.

Lemma run_passes n s :
  n = length values ->
  exists scratch,
    run (fold_each (seq 0 passes) (seq 0 n, replicate n 0%nat)
           (radix_pass (W := unit) key_byte values)) s
    = (Ok (distribute_all row_byte passes n, scratch), s).
Proof.
  intros Hn.
  destruct (run_fold_each (fun before st =>
      fst st = foldl (fun l p => distribute row_byte p l) (seq 0 n) before
      /\ fst st ≡ₚ seq 0 n /\ length (snd st) = n)
    (seq 0 passes) (seq 0 n, replicate n 0%nat) (radix_pass (W := unit) key_byte values) s)
    as ([order scratch] & Hrun & Hc & _).
  - split; [done|]. split; [done|]. apply length_replicate.
  - intros before p after [order scratch] Hsplit (Ho & Hperm & Hlen). cbn [fst snd] in *.
    assert (p < passes)%nat as Hp.
    { assert (p ∈ seq 0 passes) as Hin by (rewrite Hsplit; set_solver). apply elem_of_seq in Hin. lia. }
    assert (Forall (fun i => i < length values)%nat order) as Hall.
    { rewrite Hperm. apply Forall_forall. intros j Hj%elem_of_seq. lia. }
    exists (distribute row_byte p order, order). split.
    + apply run_radix_pass; [done|done|]. by rewrite Hperm, length_seq.
    + cbn [fst snd]. rewrite foldl_app. cbn [foldl]. rewrite <- Ho. split; [done|].
      split; [by rewrite (distribute_perm row_byte row_byte_range)|by rewrite Hperm, length_seq].
  - exists scratch. rewrite Hrun. cbn in Hc. by rewrite Hc.
Qed.

End runs.

(** ** Applying a permutation along its cycles *)

Section cycles.
Context {S T : Type} (perm : list nat) (original : list T) (n : nat).
Context (Hperm : perm ≡ₚ seq 0 n) (Hlen : length original = n).
Implicit Types (s : S) (visited : gset nat) (order : list nat) (values : list T).

Lemma perm_length : length perm = n.
Proof. by rewrite Hperm, length_seq. Qed.

Lemma perm_bound d source : perm !! d = Some source -> (d < n)%nat /\ (source < n)%nat.
Proof.
  intros Hd. split; [rewrite <- perm_length; by eapply lookup_lt_Some|].
  apply list_elem_of_lookup_2 in Hd. rewrite Hperm in Hd. apply elem_of_seq in Hd. lia.
Qed.

Lemma perm_inj i j x : perm !! i = Some x -> perm !! j = Some x -> i = j.
Proof. apply NoDup_lookup. rewrite Hperm. apply NoDup_ListNoDup, seq_NoDup. Qed.

(** Visited places hold their final value and the identity, the others are
    untouched but for the value of [start] in hand at [hole]; [n] is no place. *)
Definition placed (visited : gset nat) (hole start : nat) order values : Prop :=
  length order = n /\ length values = n
  /\ (forall d source, perm !! d = Some source ->
        if decide (d ∈ visited)
        then order !! d = Some d /\ values !! d = original !! source
        else order !! d = Some source
             /\ values !! d = original !! (if decide (d = hole) then start else d)).

(** Whole cycles are visited, except for the one from [start]. *)
Definition closed (visited : gset nat) (start : option nat) : Prop :=
  (forall d, d ∈ visited -> (d < n)%nat)
  /\ forall d p, d ∈ visited -> perm !! p = Some d -> p ∈ visited \/ Some d = start.

Definition on_cycle (visited : gset nat) (start current : nat) : Prop :=
  (current ∉ visited) /\ (current < n)%nat
  /\ (current = start
      \/ (start ∈ visited /\ exists p, p ∈ visited /\ perm !! p = Some current)).

Lemma size_visited visited current :
  (forall d, d ∈ visited -> (d < n)%nat) ->
  (current < n)%nat -> current ∉ visited -> (size visited < n)%nat.
Proof.
  intros Hc Hcur Hnot.
  assert ({[current]} ∪ visited ⊆ set_seq (C := gset nat) 0 n) as Hsub.
  { intros d Hd. apply elem_of_set_seq. set_solver by lia. }
  apply subseteq_size in Hsub. rewrite size_union, size_singleton, size_set_seq in Hsub by set_solver.
  lia.
Qed.

(** Closing the cycle. *)
Lemma cycle_close visited start current order values :
  placed visited current start order values -> closed visited (Some start) ->
  on_cycle visited start current -> perm !! current = Some start ->
  placed ({[current]} ∪ visited) n n (<[current := current]> order) values
  /\ closed ({[current]} ∪ visited) None /\ start ∈ ({[current]} ∪ visited : gset nat).
Proof.
  intros (Lo & Lv & Hp) [Hb Hc] (Hn & Hcur & Hchain) Hback. split_and!.
  - split_and!; [by rewrite length_insert|done|]. intros d source Hd. specialize (Hp d source Hd).
    destruct (decide (d = current)) as [->|Hne].
    + rewrite decide_True by set_solver. rewrite decide_False in Hp by done.
      rewrite list_lookup_insert_eq by lia. split; [done|].
      destruct Hp as [_ ->]. congruence.
    + rewrite list_lookup_insert_ne by done. destruct (decide (d ∈ visited)).
      * by rewrite decide_True by set_solver.
      * rewrite decide_False by set_solver.
        destruct (perm_bound _ _ Hd) as [Hdn _]. by rewrite decide_False by lia.
  - split; [set_solver by lia|]. intros d p Hd Hp'. left.
    apply elem_of_union in Hd as [->%elem_of_singleton|Hd].
    + destruct Hchain as [->|(_ & p0 & Hp0 & Hp0')].
      * by rewrite (perm_inj _ _ _ Hp' Hback); set_solver.
      * rewrite (perm_inj _ _ _ Hp' Hp0'). set_solver.
    + destruct (Hc d p Hd Hp') as [?|[= ->]]; [set_solver|].
      rewrite (perm_inj _ _ _ Hp' Hback). set_solver.
  - destruct Hchain as [->|[? _]]; set_solver.
Qed.

(** One swap along the cycle. *)
Lemma cycle_step visited start current source order values :
  placed visited current start order values -> closed visited (Some start) ->
  on_cycle visited start current -> perm !! current = Some source -> source <> start ->
  exists values',
    swap values current source = Some values'
    /\ placed ({[current]} ∪ visited) source start (<[current := current]> order) values'
    /\ closed ({[current]} ∪ visited) (Some start) /\ on_cycle ({[current]} ∪ visited) start source.
Proof.
  intros (Lo & Lv & Hp) [Hb Hc] (Hn & Hcur & Hchain) Hsrc Hne.
  destruct (perm_bound _ _ Hsrc) as [_ Hs].
  assert (source <> current) as Hsc.
  { intros ->. destruct Hchain as [->|(_ & p0 & Hp0 & Hp0')]; [done|].
    by rewrite (perm_inj _ _ _ Hp0' Hsrc) in Hp0. }
  assert (source ∉ visited) as Hsv.
  { intros Hin. destruct (Hc _ _ Hin Hsrc) as [?|[= ->]]; done. }
  assert (start < n)%nat as Hst.
  { destruct Hchain as [<-|[Hst _]]; [done|by apply Hb]. }
  destruct (lookup_lt_is_Some_2 original start ltac:(lia)) as [x0 Hx0].
  destruct (lookup_lt_is_Some_2 original source ltac:(lia)) as [x1 Hx1].
  assert (values !! current = Some x0) as Hvc.
  { pose proof (Hp _ _ Hsrc) as Hd. rewrite decide_False, decide_True in Hd by done.
    destruct Hd as [_ ->]. done. }
  assert (values !! source = Some x1) as Hvs.
  { destruct (lookup_lt_is_Some_2 perm source) as [next Hnext]; [by rewrite perm_length|].
    pose proof (Hp _ _ Hnext) as Hd. rewrite !decide_False in Hd by done. by destruct Hd as [_ ->]. }
  eexists. split; [unfold swap; by rewrite Hvc, Hvs|]. split_and!.
  - split_and!; [by rewrite length_insert|by rewrite !length_insert|]. intros d src Hd.
    specialize (Hp d src Hd). destruct (decide (d = current)) as [->|Hdc].
    + rewrite decide_True by set_solver. rewrite !list_lookup_insert_eq by (rewrite ?length_insert; lia).
      split; [done|]. congruence.
    + rewrite !(list_lookup_insert_ne _ current d) by done. destruct (decide (d ∈ visited)) as [Hdv|Hdv].
      * rewrite decide_True by set_solver. rewrite list_lookup_insert_ne by congruence. done.
      * rewrite decide_False by set_solver. destruct Hp as [-> Hv].
        split; [done|]. destruct (decide (d = source)) as [->|Hds].
        -- by rewrite list_lookup_insert_eq by lia.
        -- by rewrite list_lookup_insert_ne by done.
  - split; [set_solver by lia|]. intros d p Hd Hp'.
    apply elem_of_union in Hd as [->%elem_of_singleton|Hd].
    + destruct Hchain as [->|(_ & p0 & Hp0 & Hp0')]; [by right|left].
      rewrite (perm_inj _ _ _ Hp' Hp0'). set_solver.
    + destruct (Hc d p Hd Hp') as [?|?]; [left; set_solver|by right].
  - split_and!; [set_solver|done|]. right. split; [destruct Hchain as [->|[? _]]; set_solver|].
    exists current. split; [set_solver|done].
Qed.

Lemma run_follow_cycle fuel visited start current order values work s :
  placed visited current start order values -> closed visited (Some start) ->
  on_cycle visited start current -> (n - size visited < fuel)%nat ->
  exists order' values' work' visited',
    run (follow_cycle (W := unit) fuel start current order values work) s
    = (Ok (order', values', work'), s)
    /\ placed visited' n n order' values' /\ closed visited' None
    /\ visited ⊆ visited' /\ start ∈ visited'.
Proof.
  revert visited current order values work.
  induction fuel as [|fuel IH]; intros visited current order values work Hp Hc Ho Hfuel; [lia|].
  destruct (lookup_lt_is_Some_2 perm current) as [source Hsrc]; [rewrite perm_length; apply Ho|].
  assert (order !! current = Some source) as Hcur.
  { destruct Hp as (_ & _ & Hp). specialize (Hp _ _ Hsrc). rewrite decide_False in Hp by apply Ho.
    apply Hp. }
  cbn [follow_cycle]. rewrite (run_bind_ok _ _ _ _ _ (run_at_index _ _ _ _ Hcur)).
  destruct (Nat.eqb_spec source start) as [->|Hne].
  - destruct (cycle_close _ _ _ _ _ Hp Hc Ho Hsrc) as (H1 & H2 & H3).
    eexists _, _, _, _. split; [done|]. split_and!; [exact H1|exact H2|set_solver|exact H3].
  - destruct (cycle_step _ _ _ _ _ _ Hp Hc Ho Hsrc Hne) as (values' & Hswap & H1 & H2 & H3).
    rewrite (run_bind_ok _ _ _ _ _ (run_checkpoint _ _)).
    assert (run (lift_option (W := unit) (swap values current source) sort_panic) s = (Ok values', s))
      as Hrun by (by rewrite Hswap).
    rewrite (run_bind_ok _ _ _ _ _ Hrun).
    pose proof (size_visited visited current ltac:(apply Hc) ltac:(apply Ho) ltac:(apply Ho)).
    destruct (IH ({[current]} ∪ visited) source (<[current := current]> order) values' (work + 1)%nat)
      as (o' & v' & w' & vis' & Hr & Hpl & Hcl & Hsub & Hst); [done..| |].
    { rewrite size_union, size_singleton by (destruct Ho; set_solver). lia. }
    exists o', v', w', vis'. split_and!; [exact Hr|done|done|set_solver|done].
Qed.

Lemma run_reorder s :
  exists values, run (reorder (W := unit) perm original) s = (Ok values, s) /\ length values = n
    /\ forall d source, perm !! d = Some source -> values !! d = original !! source.
Proof.
  unfold reorder. rewrite Hlen.
  destruct (run_fold_each (fun before '(order, values, _) =>
      exists visited, placed visited n n order values /\ closed visited None
                      /\ forall d, d ∈ before -> d ∈ visited)
    (seq 0 n) (perm, original, 0%nat)
    (fun '(order, values, reorder_work) start =>
      checkpoint (W := unit) reorder_work ;!
      follow_cycle (Datatypes.S (length values)) start start order values (reorder_work + 1)) s)
    as ([[order values] work] & Hrun & visited & (_ & Lv & Hp) & _ & Hall).
  - exists ∅. split_and!; [|split; set_solver|set_solver].
    split_and!; [apply perm_length|done|]. intros d source Hd. rewrite decide_False by set_solver.
    destruct (perm_bound _ _ Hd). by rewrite decide_False by lia.
  - intros before start after [[order values] work] Hsplit (visited & Hp & Hc & Hall).
    assert (start < n)%nat as Hst.
    { assert (start ∈ seq 0 n) as Hin by (rewrite Hsplit; set_solver). apply elem_of_seq in Hin. lia. }
    rewrite (run_bind_ok _ _ _ _ _ (run_checkpoint _ _)).
    destruct (lookup_lt_is_Some_2 perm start) as [source Hsrc]; [by rewrite perm_length|].
    destruct (decide (start ∈ visited)) as [Hin|Hnot].
    + pose proof Hp as (Lo & Lv & Hp'). specialize (Hp' _ _ Hsrc). rewrite decide_True in Hp' by done.
      destruct Hp' as [Hos _]. cbn [follow_cycle].
      rewrite (run_bind_ok _ _ _ _ _ (run_at_index _ _ _ _ Hos)), Nat.eqb_refl.
      rewrite list_insert_id by done. eexists. split; [done|]. exists visited. set_solver.
    + destruct (run_follow_cycle (Datatypes.S (length values)) visited start start order values
        (work + 1)%nat s) as (o' & v' & w' & vis' & Hr & Hpl & Hcl & Hsub & Hin).
      * pose proof Hp as (Lo & Lv & Hp'). split_and!; [done..|]. intros d src Hd.
        specialize (Hp' d src Hd). destruct (decide (d ∈ visited)); [done|].
        destruct (perm_bound _ _ Hd). rewrite decide_False in Hp' by lia.
        destruct Hp' as [? Hv]. split; [done|]. rewrite Hv. by destruct (decide (d = start)) as [->|].
      * destruct Hc as [Hc1 Hc2]. split; [done|]. intros d p Hd Hp'. left.
        by destruct (Hc2 d p Hd Hp') as [?|?].
      * split_and!; [done..|by left].
      * destruct Hp as (_ & -> & _). lia.
      * exists (o', v', w'). split; [exact Hr|]. exists vis'. set_solver.
  - exists values. rewrite (run_bind_ok _ _ _ _ _ Hrun). split_and!; [done..|].
    intros d source Hd. specialize (Hp d source Hd). destruct (perm_bound _ _ Hd) as [Hdn _].
    rewrite decide_True in Hp by (apply Hall, elem_of_seq; lia). apply Hp.
Qed.

End cycles.

(** ** The sort *)

(** The number the key bytes spell, least significant pass first. *)
Fixpoint radix_key {T} (key_byte : T -> nat -> result ProviderError Z) (passes : nat) (v : T) : Z :=
  match passes with
  | O => 0
  | Datatypes.S p =>
      radix_key key_byte p v + match key_byte v p with Ok b => b | Err _ => 0 end * 256 ^ Z.of_nat p
  end%Z.

Lemma stable_sort_ext {T} (key key' : T -> Z) l :
  (forall x, x ∈ l -> key x = key' x) -> stable_sort key l = stable_sort key' l.
Proof.
  intros Heq. unfold stable_sort.
  assert (forall x m, key x = key' x -> (forall y, y ∈ m -> key y = key' y) ->
    insert_sorted key x m = insert_sorted key' x m) as Hins.
  { intros x m Hx. induction m as [|y m IH]; intros Hm; cbn; [done|].
    rewrite Hx, (Hm y) by set_solver. destruct (_ <=? _)%Z; [done|]. by rewrite IH by set_solver. }
  induction l as [|x l IH]; cbn [foldr]; [done|]. rewrite IH by set_solver.
  apply Hins; [by apply Heq; left|]. intros y Hy. apply Heq. right.
  change (y ∈ stable_sort key' l) in Hy. by rewrite stable_sort_perm in Hy.
Qed.

Lemma low_key_radix {T} (key_byte : T -> nat -> result ProviderError Z) values passes i v p :
  (forall v p, v ∈ values -> (p < passes)%nat -> exists b, key_byte v p = Ok b /\ (0 <= b < 256)%Z) ->
  values !! i = Some v -> (p <= passes)%nat ->
  low_key (row_byte key_byte values passes) p i = radix_key key_byte p v.
Proof.
  intros Hkey Hv. induction p as [|p IH]; intros Hp; [done|]. cbn [low_key radix_key].
  rewrite IH by lia. unfold row_byte. rewrite decide_True, Hv by lia.
  destruct (Hkey v p) as (b & -> & Hb); [by eapply list_elem_of_lookup_2|lia|]. by rewrite Z2Nat.id by lia.
Qed.

Section sorted.
Context {S T : Type} (key_byte : T -> nat -> result ProviderError Z) (values : list T)
  (passes : nat) (s : S).
Context (Hkey : forall v p, v ∈ values -> (p < passes)%nat ->
  exists b, key_byte v p = Ok b /\ (0 <= b < 256)%Z).

(** The sorted rows, read through the values. *)
Lemma rows_sorted result :
  length result = length values ->
  (forall d source, distribute_all (row_byte key_byte values passes) passes (length values) !! d
                    = Some source -> result !! d = values !! source) ->
  result = stable_sort (radix_key key_byte passes) values.
Proof.
  intros Hlen Hres. destruct values as [|v0 rest] eqn:Hv; [by destruct result|]. rewrite <- Hv in *.
  set (f := fun i => nth i values v0).
  assert (forall i v, values !! i = Some v -> f i = v) as Hf.
  { intros i v Hi. unfold f. by rewrite nth_lookup, Hi. }
  assert (values = map f (seq 0 (length values))) as Hmap.
  { apply list_eq. intros i. change (map f ?x) with (f <$> x). rewrite list_lookup_fmap.
    destruct (values !! i) as [v|] eqn:Hi.
    - rewrite lookup_seq_lt by (by eapply lookup_lt_Some). cbn. by rewrite (Hf _ _ Hi).
    - apply lookup_ge_None in Hi. rewrite lookup_seq_ge by lia. done. }
  assert (forall i, i ∈ seq 0 (length values) ->
    low_key (row_byte key_byte values passes) passes i = radix_key key_byte passes (f i)) as Hk.
  { intros i Hi%elem_of_seq. destruct (lookup_lt_is_Some_2 values i ltac:(lia)) as [v Hi'].
    rewrite (Hf _ _ Hi'). by eapply low_key_radix. }
  rewrite Hmap at 1. rewrite stable_sort_map, <- (stable_sort_ext _ _ _ Hk),
    <- (distribute_all_stable _ (row_byte_range _ _ _ Hkey)).
  pose proof (distribute_all_stable _ (row_byte_range _ _ _ Hkey) passes (length values)) as Hd.
  apply list_eq. intros d. change (map f ?x) with (f <$> x). rewrite list_lookup_fmap.
  destruct (distribute_all _ passes (length values) !! d) as [source|] eqn:Hsrc.
  - rewrite (Hres _ _ Hsrc). cbn.
    apply list_elem_of_lookup_2 in Hsrc. rewrite Hd, stable_sort_perm in Hsrc.
    apply elem_of_seq in Hsrc. destruct (lookup_lt_is_Some_2 values source ltac:(lia)) as [v Hv'].
    by rewrite Hv', (Hf _ _ Hv').
  - apply lookup_ge_None in Hsrc. rewrite Hd, stable_sort_perm, length_seq in Hsrc.
    rewrite lookup_ge_None_2 by lia. done.
Qed.

Lemma run_vec_with_capacity t n d :
  run (try_vec_with_capacity (W := unit) t n d) s = (Ok tt, s).
Proof.
  unfold try_vec_with_capacity, try_vec_with_capacity_in.
  destruct (run_reserve_vec_in t 0 0 n d FLIGHT_RECOVERY_ALLOCATION s) as [k Hk].
  by rewrite (run_bind_ok _ _ _ _ _ Hk).
Qed.

Lemma run_radix_sort :
  run (guarded_radix_sort (W := unit) key_byte values passes) s
  = (Ok (stable_sort (radix_key key_byte passes) values), s).
Proof.
  unfold guarded_radix_sort. rewrite (run_bind_ok _ _ _ _ _ (run_checkpoint _ _)). cbv zeta.
  destruct (Nat.ltb_spec (length values) 2) as [Hlt|_].
  { destruct values as [|x [|y l]]; [done|done|cbn in Hlt; lia]. }
  rewrite !(run_bind_ok _ _ _ _ _ (run_vec_with_capacity _ _ _)).
  destruct (run_fold_each (fun before '(order, scratch) =>
      order = before /\ scratch = replicate (length before) 0%nat)
    (seq 0 (length values)) ([], []) (fun '(order, scratch) index =>
      checkpoint (W := unit) index ;! ret (order ++ [index], scratch ++ [0%nat])) s)
    as ([order scratch] & Hrun & -> & Hs).
  - done.
  - intros before i after [order scratch] _ [-> ->]. eexists.
    rewrite (run_bind_ok _ _ _ _ _ (run_checkpoint _ _)). split; [done|]. split; [done|].
    by rewrite length_app, replicate_add.
  - rewrite (run_bind_ok _ _ _ _ _ Hrun). rewrite length_seq in Hs. subst scratch.
    destruct (run_passes key_byte values passes Hkey (length values) s eq_refl) as [scratch Hp].
    rewrite (run_bind_ok _ _ _ _ _ Hp). cbn [fst].
    assert (distribute_all (row_byte key_byte values passes) passes (length values)
            ≡ₚ seq 0 (length values)) as Hperm.
    { rewrite (distribute_all_stable _ (row_byte_range _ _ _ Hkey)). apply stable_sort_perm. }
    destruct (run_reorder _ values _ Hperm eq_refl s) as (result & Hr & Hlen & Hres).
    rewrite Hr. by rewrite (rows_sorted result Hlen Hres).
Qed.

End sorted.

(** ** Under any guard *)

Section sort_refines.
Context {W : Type} `{WorkGuard W} `{Allocator W} {S T : Type}.
Notation "p ⊑ q" := (refines (W1 := W) (W2 := unit) (S := S) resource_error p q) (at level 70).

Lemma checkpoint_refines i : checkpoint i ⊑ checkpoint i.
Proof. unfold checkpoint. refine_auto. Qed.

Lemma vec_with_capacity_refines t n d :
  try_vec_with_capacity t n d ⊑ try_vec_with_capacity t n d.
Proof.
  apply (refines_of_wp tt); [|intros; apply run_vec_with_capacity].
  intros s. apply wp_bind, wp_reserve_vec; [apply _|intros; by apply wp_ret|done].
Qed.

Hint Resolve checkpoint_refines vec_with_capacity_refines : refine.

Lemma follow_cycle_refines fuel start current order (values : list T) work :
  follow_cycle fuel start current order values work
  ⊑ follow_cycle fuel start current order values work.
Proof.
  revert current order values work. induction fuel as [|fuel IH]; intros; cbn [follow_cycle];
    unfold at_index; refine_auto.
Qed.

Hint Resolve follow_cycle_refines : refine.

Lemma radix_sort_refines key_byte (values : list T) passes :
  guarded_radix_sort key_byte values passes ⊑ guarded_radix_sort key_byte values passes.
Proof.
  unfold guarded_radix_sort, radix_pass, count_keys, scatter, reorder, bucket_of, at_index.
  repeat (refine_step || match goal with x : (_ * _)%type |- _ => destruct x end).
Qed.

Lemma follow_cycle_keeps fuel start current order (values : list T) work :
  keeps (W := W) (fun s : S => s) (follow_cycle fuel start current order values work).
Proof.
  revert current order values work. induction fuel as [|fuel IH]; intros; cbn [follow_cycle];
    unfold at_index, checkpoint; repeat (keep_step || apply IH).
Qed.

Lemma radix_sort_keeps key_byte (values : list T) passes :
  keeps (W := W) (fun s : S => s) (guarded_radix_sort key_byte values passes).
Proof.
  unfold guarded_radix_sort, radix_pass, count_keys, scatter, reorder, bucket_of, at_index, checkpoint,
    try_vec_with_capacity, try_vec_with_capacity_in.
  repeat (keep_step || apply follow_cycle_keeps || apply keeps_reserve_in
          || match goal with x : (_ * _)%type |- _ => destruct x end).
Qed.

(** The postcondition of a sort: the receiver is untouched, and the outcome is
    the stable sort or a resource error. *)
Lemma wp_radix_sort key_byte (values : list T) passes (Q : list T -> S -> Prop)
    (R : ProviderError -> S -> Prop) s :
  (forall v p, v ∈ values -> (p < passes)%nat -> exists b, key_byte v p = Ok b /\ (0 <= b < 256)%Z) ->
  Q (stable_sort (radix_key key_byte passes) values) s ->
  (forall e, resource_error e -> R e s) ->
  wp (W := W) (guarded_radix_sort key_byte values passes) Q R s.
Proof.
  intros Hkey HQ HR w. pose proof (radix_sort_keeps key_byte values passes s w) as Hk.
  destruct (guarded_radix_sort key_byte values passes s w) as [[r s'] w'] eqn:Hg. subst s'.
  destruct (run_refines _ _ _ _ _ _ _ _ (radix_sort_refines key_byte values passes) Hg) as [Hr|(e & -> & He)].
  - rewrite (run_radix_sort key_byte values passes s Hkey) in Hr. by injection Hr as <-.
  - by apply HR.
Qed.

End sort_refines.

(** C40: The Flight radix sort is a stable sort.  Whatever the vector, the number of
    passes and the total key-byte function, it returns the values ordered by
    the number their key bytes spell, equal keys in their original order; it
    neither loses nor repeats a value, never indexes out of bounds, and under
    any guard and heap the only other outcome is a resource error. *)
Theorem radix_sort_stable {W} {G : WorkGuard W} {A : Allocator W} {S T : Type}
    (key_byte : T -> nat -> result ProviderError Z) (values : list T) (passes : nat) (s : S) (w : W)
    (Hkey : forall v p, v ∈ values -> (p < passes)%nat ->
      exists b, key_byte v p = Ok b /\ (0 <= b < 256)%Z) :
  run (guarded_radix_sort (W := unit) key_byte values passes) s
  = (Ok (stable_sort (radix_key key_byte passes) values), s)
  /\ match guarded_radix_sort key_byte values passes s w with
     | (Ok sorted, _, _) => sorted = stable_sort (radix_key key_byte passes) values
     | (Err e, _, _) => resource_error e
     end.
Proof.
  pose proof (run_radix_sort key_byte values passes s Hkey) as Hrun. split; [done|].
  destruct (guarded_radix_sort key_byte values passes s w) as [[r s'] w'] eqn:Hg.
  destruct (run_refines _ _ _ _ _ _ _ _ (radix_sort_refines key_byte values passes) Hg) as [Hr|(e & -> & He)].
  - rewrite Hrun in Hr. by injection Hr as <- _.
  - done.
Qed.

Lemma radix_sort_stable_witness :
  fst (run (guarded_radix_sort (W := unit) le_byte [770; 3; 258; 3; 1]%Z 8) tt)
  = Ok [1; 3; 3; 258; 770]%Z.
Proof.
  rewrite (proj1 (radix_sort_stable (W := unit) le_byte [770; 3; 258; 3; 1]%Z 8 tt tt
    ltac:(intros v p _ _; eexists; split; [reflexivity|];
          change 255%Z with (Z.ones 8); rewrite Z.land_ones by lia; apply Z.mod_pos_bound; lia))).
  vm_compute. reflexivity.
Defined.

(** ** Sorting row numbers without repetition *)

Lemma le_byte_range v pass : exists b, le_byte v pass = Ok b /\ (0 <= b < 256)%Z.
Proof.
  eexists. split; [done|]. change 255%Z with (Z.ones 8). rewrite Z.land_ones by lia.
  apply Z.mod_pos_bound. lia.
Qed.

Lemma radix_key_le_byte p v : (0 <= v)%Z -> radix_key le_byte p v = (v mod 256 ^ Z.of_nat p)%Z.
Proof.
  intros Hv. induction p as [|p IH]; cbn [radix_key]; [by rewrite Z.mod_1_r|].
  rewrite IH. unfold le_byte. change 255%Z with (Z.ones 8).
  rewrite Z.land_ones, Z.shiftr_div_pow2, Nat2Z.inj_succ, Z.pow_succ_r by lia.
  replace (2 ^ (8 * Z.of_nat p))%Z with (256 ^ Z.of_nat p)%Z by (by rewrite Z.pow_mul_r by lia).
  rewrite Z.mul_comm with (n := 256%Z), Z.rem_mul_r by lia. change (2 ^ 8)%Z with 256%Z. lia.
Qed.

(** After [i] steps: the first [retained] places hold the distinct values of the
    first [i], and the rest is as sorted. *)
Definition retained_ok (sorted : list Z) (i : nat) (buffer : list Z * nat) : Prop :=
  let '(values, retained) := buffer in
  length values = length sorted /\ (retained <= i)%nat /\ drop i values = drop i sorted
  /\ StronglySorted Z.lt (take retained values)
  /\ (forall x, x ∈ take retained values <-> x ∈ take i sorted).

Lemma retain_step_ok {S} (sorted : list Z) i buffer (s : S) :
  StronglySorted Z.le sorted -> (i < length sorted)%nat -> retained_ok sorted i buffer ->
  exists buffer', run (retain_step (W := unit) buffer i) s = (Ok buffer', s)
                  /\ retained_ok sorted (Datatypes.S i) buffer'.
Proof.
  destruct buffer as [values retained]. intros Hsorted Hi (Hlen & Hret & Hdrop & Hlt & Hmem).
  destruct (lookup_lt_is_Some_2 sorted i Hi) as [v Hv].
  assert (values !! i = Some v) as Hval.
  { rewrite <- (Nat.add_0_r i), <- lookup_drop, Hdrop, lookup_drop, Nat.add_0_r. done. }
  assert (forall x, x ∈ take i sorted -> (x <= v)%Z) as Hmax.
  { intros x Hx. rewrite <- (take_drop_middle _ _ _ Hv) in Hsorted.
    eapply StronglySorted_app_1_elem_of; [exact Hsorted|done|set_solver]. }
  assert (drop (Datatypes.S i) values = drop (Datatypes.S i) sorted) as Hdrop'.
  { replace (Datatypes.S i) with (i + 1)%nat by lia. by rewrite <- !drop_drop, Hdrop. }
  unfold retain_step. rewrite (run_bind_ok _ _ _ _ _ (run_checkpoint _ _)),
    (run_bind_ok _ _ _ _ _ (run_at_index _ _ _ _ Hval)).
  assert (forall fresh : bool,
    (if fresh then forall x, x ∈ take retained values -> (x < v)%Z else v ∈ take retained values) ->
    exists buffer', run (if fresh
      then let! values := lift_option (W := unit) (store values retained v) sort_panic in
           ret (values, (retained + 1)%nat)
      else ret (values, retained)) s = (Ok buffer', s)
      /\ retained_ok sorted (Datatypes.S i) buffer') as Hrest.
  { intros [] Hfresh.
    - assert (retained < length values)%nat as Hroom by lia.
      rewrite (run_bind_ok _ _ _ _ _ (run_store _ _ _ _ Hroom)). eexists. split; [done|].
      rewrite Nat.add_1_r.
      assert (take (Datatypes.S retained) (<[retained := v]> values) = take retained values ++ [v]) as Ht.
      { rewrite (take_S_r _ _ v) by (apply list_lookup_insert_eq; lia). by rewrite take_insert_ge by lia. }
      split_and!; [by rewrite length_insert|lia|by rewrite drop_insert_lt by lia|..]; rewrite Ht.
      + apply StronglySorted_app_2; [set_solver|done|repeat constructor].
      + intros x. rewrite (take_S_r _ _ _ Hv). set_solver.
    - eexists. split; [done|]. split_and!; [done|lia|done|done|].
      intros x. rewrite (take_S_r _ _ _ Hv). set_solver. }
  destruct (Nat.eqb_spec retained 0) as [->|Hne].
  - apply (Hrest true). set_solver.
  - destruct (lookup_lt_is_Some_2 values (retained - 1) ltac:(lia)) as [l Hl].
    assert (take retained values = take (retained - 1) values ++ [l]) as Hlast.
    { rewrite <- (take_S_r _ _ _ Hl). f_equal. lia. }
    rewrite (run_bind_ok _ _ _ (negb (l =? v)%Z) s) by (by rewrite (run_bind_ok _ _ _ _ _ (run_at_index _ _ _ _ Hl))).
    apply (Hrest (negb (l =? v)%Z)). rewrite Hlast in Hlt |- *. destruct (Z.eqb_spec l v) as [->|Hlv]; cbn [negb].
    + set_solver.
    + assert (l < v)%Z as Hlv' by (pose proof (Hmax l ltac:(apply Hmem; rewrite Hlast; set_solver)); lia).
      intros x [Hx| ->%list_elem_of_singleton]%elem_of_app; [|done].
      pose proof (StronglySorted_app_1_elem_of _ _ _ x l Hlt Hx ltac:(set_solver)). lia.
Qed.

Lemma stable_sort_sorted {T} (key : T -> Z) l :
  StronglySorted (fun x y => key x <= key y)%Z (stable_sort key l).
Proof.
  unfold stable_sort. induction l as [|x l IH]; cbn [foldr]; [constructor|].
  induction IH as [|y m Hm IHm Hy]; cbn [insert_sorted]; [repeat constructor|].
  destruct (Z.leb_spec (key x) (key y)).
  - constructor; [by constructor|]. constructor; [done|]. eapply Forall_impl; [exact Hy|]. cbn. lia.
  - constructor; [done|]. rewrite insert_sorted_perm. constructor; [lia|done].
Qed.

Lemma run_sort_u64 {S} (values : list Z) (s : S) :
  Forall in_u64 values ->
  exists sorted, run (guarded_sort_u64 (W := unit) values) s = (Ok sorted, s)
    /\ StronglySorted Z.lt sorted /\ forall x, x ∈ sorted <-> x ∈ values.
Proof.
  intros Hv. unfold guarded_sort_u64.
  rewrite (run_bind_ok _ _ _ _ _ (run_radix_sort _ _ _ _ (fun v p _ _ => le_byte_range v p))).
  set (sorted := stable_sort (radix_key le_byte 8) values).
  assert (StronglySorted Z.le sorted) as Hsorted.
  { unfold sorted. rewrite (stable_sort_ext _ (fun v => v)).
    - apply (stable_sort_sorted (fun v : Z => v)).
    - intros x Hx. rewrite Forall_forall in Hv. specialize (Hv x Hx). unfold in_u64, u64_max in Hv.
      rewrite radix_key_le_byte by lia. apply Z.mod_small. lia. }
  destruct (run_fold_each (fun before buffer => retained_ok sorted (length before) buffer)
    (seq 0 (length sorted)) (sorted, 0%nat) (retain_step (W := unit)) s) as ([vs n] & Hrun & Hok).
  - split_and!; [done|done|done|constructor|set_solver].
  - intros before i after buffer Hsplit Hb.
    assert (i = length before) as ->.
    { assert (seq 0 (length sorted) !! length before = Some i) as Hl
        by (rewrite Hsplit; by apply list_lookup_middle).
      apply lookup_seq in Hl. lia. }
    assert (length before < length sorted)%nat as Hlt.
    { apply (f_equal length) in Hsplit. rewrite length_seq, length_app in Hsplit. cbn in Hsplit. lia. }
    rewrite length_app, Nat.add_1_r. by apply retain_step_ok.
  - rewrite (run_bind_ok _ _ _ _ _ Hrun). eexists. split; [done|].
    destruct Hok as (_ & _ & _ & Hlt & Hmem). split; [done|]. intros x. cbn [fst snd].
    rewrite Hmem, length_seq, firstn_all. unfold sorted. by rewrite stable_sort_perm.
Qed.

Lemma sort_u64_refines {W} {G : WorkGuard W} {A : Allocator W} {S} (values : list Z) :
  refines (W1 := W) (W2 := unit) (S := S) resource_error
    (guarded_sort_u64 values) (guarded_sort_u64 values).
Proof.
  unfold guarded_sort_u64, retain_step, at_index.
  repeat (refine_step || apply radix_sort_refines || apply checkpoint_refines
          || match goal with x : (_ * _)%type |- _ => destruct x end).
Qed.

(** [guarded_sort_u64], the in-place sort that drops repetitions, returns the
    distinct values of its input in strictly increasing order, and nothing
    else; under any guard and heap the only other outcome is a resource
    error. *)
Theorem sort_u64_exact {W} {G : WorkGuard W} {A : Allocator W} {S : Type} (values : list Z) (s : S)
    (w : W) (Hvalues : Forall in_u64 values) :
  exists sorted,
    StronglySorted Z.lt sorted /\ (forall x, x ∈ sorted <-> x ∈ values)
    /\ run (guarded_sort_u64 (W := unit) values) s = (Ok sorted, s)
    /\ match guarded_sort_u64 values s w with
       | (Ok result, _, _) => result = sorted
       | (Err e, _, _) => resource_error e
       end.
Proof.
  destruct (run_sort_u64 values s Hvalues) as (sorted & Hrun & Hlt & Hmem).
  exists sorted. split_and!; [done..|].
  destruct (guarded_sort_u64 values s w) as [[r s'] w'] eqn:Hg.
  destruct (run_refines _ _ _ _ _ _ _ _ (sort_u64_refines values) Hg) as [Hr|(e & -> & He)]; [|done].
  rewrite Hrun in Hr. by injection Hr as <- _.
Qed.

Lemma sort_u64_exact_witness :
  exists sorted, StronglySorted Z.lt sorted
    /\ run (guarded_sort_u64 (W := unit) [7; 300; 7; 2; 300]%Z) tt = (Ok sorted, tt)
    /\ run (guarded_sort_u64 (W := unit) [7; 300; 7; 2; 300]%Z) tt = (Ok [2; 7; 300]%Z, tt).
Proof.
  destruct (sort_u64_exact (W := unit) [7; 300; 7; 2; 300]%Z tt tt) as (sorted & Hlt & _ & Hrun & _).
  - repeat constructor; vm_compute; discriminate.
  - exists sorted. split; [exact Hlt|]. split; [exact Hrun|]. vm_compute. reflexivity.
Defined.
