(* ===== verification/FlightMerge.v ===== *)
(** * Canonical completeness and merged sequences

    Models the rest of the bookkeeping of
    [qtrace-provider/src/flight/recovery.rs] around its sorts: the radix key
    bytes, the canonical form of the completeness list
    ([normalize_completeness]), the index of regular sequence numbers, the
    resolution of collisions between regular and emergency records. *)

From stdpp Require Import prelude list sorting strings pretty gmap.
From Stdlib Require Import ZArith Lia Strings.Byte ZifyBool.
From S2P Require Import Prelude Prog Control Model Source FlightWire FlightContext FlightScan FlightLoss FlightSort.
Local Open Scope string_scope.
Local Open Scope list_scope.
Local Open Scope Z_scope.

(** ** Radix key bytes *)

Definition byte_at (bs : bytes) (index : nat) : result ProviderError Z :=
  ok_or (Z_of_byte <$> bs !! index) (allocation_error "invalid radix byte index").

Definition event_sequence_byte (event : PhysicalFlight) (pass : nat) : result ProviderError Z :=
  match ek_sequence (ph_key event) with
  | Some sequence => byte_at (le_bytes 8 sequence) pass
  | None => Err (allocation_error "Flight event has no sequence")
  end.

Definition u32_byte (value : Z) (pass : nat) : result ProviderError Z := byte_at (le_bytes 4 value) pass.

Definition u64_byte (value : Z) (pass : nat) : result ProviderError Z := byte_at (le_bytes 8 value) pass.

Definition sequence_range_byte (range : SequenceRange) (pass : nat) : result ProviderError Z :=
  if (pass <? 8)%nat then byte_at (le_bytes 8 (sr_last range)) pass
  else byte_at (le_bytes 8 (sr_first range)) (pass - 8).

Definition sequence_fact_byte (fact : SequenceFact) (pass : nat) : result ProviderError Z :=
  byte_at (le_bytes 8 (sr_first (sf_range fact))) pass.

Definition completeness_byte (range : CompletenessRange) (pass : nat) : result ProviderError Z :=
  let key := completeness_canonical_key range in
  if (pass =? 0)%nat then Ok (key !!! 4%nat)
  else if (pass <=? 8)%nat then byte_at (le_bytes 8 (key !!! 3%nat)) (pass - 1)
  else if (pass <=? 16)%nat then byte_at (le_bytes 8 (key !!! 2%nat)) (pass - 9)
  else if (pass =? 17)%nat then Ok (key !!! 1%nat)
  else if (pass =? 18)%nat then Ok (key !!! 0%nat)
  else Err (allocation_error "invalid completeness radix pass").

(** ** Operations *)

Definition duplicate_sequence (event : PhysicalFlight) : ProviderError :=
  ProviderError_new "source.flight.sequence" "flight.recovery"
    (Some (mkCoordinate (ek_source_offset (ph_key event)) (Some (ek_record_ordinal (ph_key event)))))
    false "duplicate Flight global sequence".

Section merge.
Context {W : Type} `{WorkGuard W} `{Allocator W} {S : Type}.
Abbreviation M := (Prog W ProviderError S).

(** One turn of the merge; pushes stay inside the reserved capacity. *)
Definition normalize_turn (output : Vec CompletenessRange) (indexed : nat * CompletenessRange) :
    M (Vec CompletenessRange) :=
  let '(index, range) := indexed in
  guard_checkpoint (Z.of_nat index) ;!
  match list.last (v_items output) ≫= fun previous => merge_canonical_completeness previous range with
  | Some merged =>
      ret (mkVec (take (length (v_items output) - 1) (v_items output) ++ [merged]) (v_capacity output))
  | None => ret (mkVec (v_items output ++ [range]) (v_capacity output))
  end.

Definition normalize_completeness (ranges : Vec CompletenessRange) : M (Vec CompletenessRange) :=
  let! sorted := guarded_radix_sort completeness_byte (v_items ranges) 19 in
  let! output := fallible_vec T_CompletenessRange (zlen sorted) in
  fold_each (imap pair sorted) output normalize_turn.

Definition sequence_required (event : PhysicalFlight) : M Z :=
  lift_option (ek_sequence (ph_key event)) (allocation_error "Flight event has no sequence").

Definition index_regular_sequences (events : list PhysicalFlight) : M (gset Z) :=
  fallible_hash_map RegularSequences T_sequence_entry (zlen events) ;!
  fold_each (imap pair events) ∅ (fun sequences '(index, event) =>
    guard_checkpoint (Z.of_nat index) ;!
    let! sequence := sequence_required event in
    fail_if (bool_decide (sequence ∈ sequences)) (duplicate_sequence event) ;!
    ret ({[sequence]} ∪ sequences)).

Definition flush_sequence_group (output : Vec PhysicalFlight) (regular emergency : option PhysicalFlight)
    (completeness : Vec CompletenessRange) : M (Vec PhysicalFlight * Vec CompletenessRange) :=
  match regular, emergency with
  | Some regular, Some emergency =>
      let offset := ek_source_offset (ph_key emergency) in
      let! completeness := push_source_range completeness offset
        (saturating_add u64_max offset FLIGHT_EMERGENCY_RECORD_BYTES) ProvUnknown Stale in
      let! output := guarded_push T_PhysicalRecord output regular in
      ret (output, completeness)
  | Some event, None | None, Some event =>
      let! output := guarded_push T_PhysicalRecord output event in
      ret (output, completeness)
  | None, None => ret (output, completeness)
  end.

(** The first loop: is any sequence number used twice in a row? *)
Fixpoint find_collision (events : list (nat * PhysicalFlight)) (previous : option Z) : M bool :=
  match events with
  | [] => ret false
  | (index, event) :: events =>
      guard_checkpoint (Z.of_nat index) ;!
      let! sequence := sequence_required event in
      if bool_decide (previous = Some sequence) then ret true
      else find_collision events (Some sequence)
  end.

(** The mutable locals of the second loop. *)
Record GroupState := mkGroupState {
  gs_output : Vec PhysicalFlight;
  gs_completeness : Vec CompletenessRange;
  gs_sequence : option Z;
  gs_regular : option PhysicalFlight;
  gs_emergency : option PhysicalFlight
}.

Definition group_turn (emergency_start emergency_end : Z) (st : GroupState)
    (indexed : nat * PhysicalFlight) : M GroupState :=
  let '(index, event) := indexed in
  guard_checkpoint (Z.of_nat index) ;!
  let! current := sequence_required event in
  let! st :=
    if match gs_sequence st with Some value => negb (value =? current) | None => false end then
      let! flushed := flush_sequence_group (gs_output st) (gs_regular st) (gs_emergency st)
        (gs_completeness st) in
      ret (mkGroupState (fst flushed) (snd flushed) (gs_sequence st) None None)
    else ret st in
  let offset := ek_source_offset (ph_key event) in
  if (emergency_start <=? offset) && (offset <? emergency_end) then
    fail_if (bool_decide (is_Some (gs_emergency st))) (duplicate_sequence event) ;!
    ret (mkGroupState (gs_output st) (gs_completeness st) (Some current) (gs_regular st) (Some event))
  else
    fail_if (bool_decide (is_Some (gs_regular st))) (duplicate_sequence event) ;!
    ret (mkGroupState (gs_output st) (gs_completeness st) (Some current) (Some event) (gs_emergency st)).

Definition resolve_sequence_collisions (events : Vec PhysicalFlight)
    (emergency_start emergency_end : Z) (completeness : Vec CompletenessRange) :
    M (Vec PhysicalFlight * Vec CompletenessRange) :=
  let! has_collision := find_collision (imap pair (v_items events)) None in
  if negb has_collision then ret (events, completeness)
  else
    let! output := fallible_vec T_PhysicalRecord (zlen (v_items events)) in
    let! st := fold_each (imap pair (v_items events)) (mkGroupState output completeness None None None)
      (group_turn emergency_start emergency_end) in
    flush_sequence_group (gs_output st) (gs_regular st) (gs_emergency st) (gs_completeness st).

End merge.

(** ** The numbers the radix bytes spell *)

Lemma le_Z_app a b : le_Z (a ++ b) = le_Z a + 256 ^ zlen a * le_Z b.
Proof.
  induction a as [|x a IH]; [change (256 ^ zlen []) with 1; cbn [app le_Z]; lia|]. cbn [app le_Z]. rewrite IH. unfold zlen. cbn [length].
  rewrite Nat2Z.inj_succ, Z.pow_succ_r by lia. ring.
Qed.

Lemma radix_key_digits {T} (key_byte : T -> nat -> result ProviderError Z) (v : T) (ds : bytes) :
  (forall p b, ds !! p = Some b -> key_byte v p = Ok (Z_of_byte b)) ->
  radix_key key_byte (length ds) v = le_Z ds.
Proof.
  induction ds as [|b ds IH] using rev_ind; intros Hd; [done|].
  rewrite length_app, Nat.add_1_r. cbn [radix_key]. rewrite le_Z_app, IH.
  - rewrite (Hd (length ds) b); [cbn [le_Z]; unfold zlen; ring|]. by apply list_lookup_middle.
  - intros p b' Hp. apply Hd. by apply lookup_app_l_Some.
Qed.

Lemma byte_at_lookup bs p b : bs !! p = Some b -> byte_at bs p = Ok (Z_of_byte b).
Proof. unfold byte_at. by intros ->. Qed.

Lemma byte_at_range bs p : (p < length bs)%nat -> exists b, byte_at bs p = Ok b /\ 0 <= b < 256.
Proof.
  intros [b Hb]%lookup_lt_is_Some_2. exists (Z_of_byte b). split; [by apply byte_at_lookup|].
  pose proof (Z_of_byte_range b). lia.
Qed.

(** A single key byte as a digit. *)
Lemma digit_lookup (z : Z) (p : nat) b : 0 <= z < 256 -> [byte_of_Z z] !! p = Some b -> Z_of_byte b = z.
Proof. intros Hz [_ <-]%list_lookup_singleton_Some. rewrite Z_of_byte_of_Z. by apply Z.mod_small. Qed.

Lemma u64_bytes z : in_u64 z -> le_Z (le_bytes 8 z) = z.
Proof. intros Hz. apply le_Z_le_bytes. unfold in_u64, u64_max in Hz. change (256 ^ Z.of_nat 8) with (2 ^ 64). lia. Qed.

(** The canonical key of a range as one number. *)
Definition range_number (r : CompletenessRange) : Z :=
  let key := completeness_canonical_key r in
  key !!! 4%nat + 256 * (key !!! 3%nat) + 256 ^ 9 * (key !!! 2%nat) + 256 ^ 17 * (key !!! 1%nat)
  + 256 ^ 18 * (key !!! 0%nat).

Definition range_first (r : CompletenessRange) : Z :=
  match cr_bounds r with InclusiveSequence a _ => a | HalfOpen a _ => a end.
Definition range_last (r : CompletenessRange) : Z :=
  match cr_bounds r with InclusiveSequence _ b => b | HalfOpen _ b => b end.

Lemma range_wf_u64 r : range_wf r -> in_u64 (range_first r) /\ in_u64 (range_last r) /\ range_first r <= range_last r.
Proof. unfold range_wf, range_first, range_last. destruct r as [[] [] ? ?]; cbn; tauto. Qed.

Definition domain_code (d : RangeDomain) : Z :=
  match d with CapturedSequence => 0 | SourceBytes => 1 | MemoryAddresses => 2 end.

Lemma canonical_key_eq r :
  completeness_canonical_key r
  = [domain_code (cr_domain r); completeness_cause_order (cr_cause r); range_first r; range_last r;
     provenance_canonical_order (cr_provenance r)].
Proof. done. Qed.

Lemma code_bounds (r : CompletenessRange) :
  0 <= domain_code (cr_domain r) < 256 /\ 0 <= completeness_cause_order (cr_cause r) < 256
  /\ 0 <= provenance_canonical_order (cr_provenance r) < 256.
Proof. destruct r as [[] ? [] []]; cbn; lia. Qed.

Lemma completeness_radix r :
  range_wf r -> radix_key completeness_byte 19 r = range_number r.
Proof.
  intros Hr. destruct (range_wf_u64 r Hr) as (Hf & Hl & _). destruct (code_bounds r) as (Hd & Hc & Hp).
  unfold range_number. rewrite canonical_key_eq. cbn [lookup_total list_lookup_total].
  set (ds := [byte_of_Z (provenance_canonical_order (cr_provenance r))]
    ++ le_bytes 8 (range_last r) ++ le_bytes 8 (range_first r)
    ++ [byte_of_Z (completeness_cause_order (cr_cause r)); byte_of_Z (domain_code (cr_domain r))]).
  change 19%nat with (length ds). rewrite radix_key_digits.
  - unfold ds. rewrite !le_Z_app, !zlen_le_bytes, !u64_bytes by done. cbn [le_Z].
    rewrite !Z_of_byte_of_Z, !Z.mod_small by lia.
    change (zlen [_]) with 1. change (256 ^ Z.of_nat 8) with (2 ^ 64).
    change (256 ^ 9) with (256 * 2 ^ 64). change (256 ^ 17) with (256 * 2 ^ 64 * 2 ^ 64).
    change (256 ^ 18) with (256 * 2 ^ 64 * 2 ^ 64 * 256). lia.
  - intros p b Hb. unfold completeness_byte. rewrite canonical_key_eq.
    cbn [lookup_total list_lookup_total]. unfold ds in Hb.
    do 19 (destruct p as [|p];
      [injection Hb as <-;
       first [reflexivity|rewrite Z_of_byte_of_Z, Z.mod_small by lia; reflexivity]|]).
    apply lookup_lt_Some in Hb. rewrite !length_app, !length_le_bytes in Hb. cbn in Hb. lia.
Qed.

Lemma completeness_byte_total r p :
  range_wf r -> (p < 19)%nat -> exists b, completeness_byte r p = Ok b /\ 0 <= b < 256.
Proof.
  intros Hr Hp. destruct (code_bounds r) as (Hd & Hc & Hv). unfold completeness_byte.
  rewrite canonical_key_eq. cbn [lookup_total list_lookup_total].
  repeat case_match; rewrite ?Nat.eqb_eq, ?Nat.eqb_neq, ?Nat.leb_le, ?Nat.leb_gt in *;
    first [by eexists|apply byte_at_range; rewrite length_le_bytes; lia|lia].
Qed.

(** ** The canonical form *)

Definition key_le (l r : CompletenessRange) : Prop :=
  lex_leb (completeness_canonical_key l) (completeness_canonical_key r) = true.

Lemma key_le_number l r : range_wf l -> range_wf r -> range_number l <= range_number r <-> key_le l r.
Proof.
  intros Hl Hr. destruct (range_wf_u64 l Hl) as (? & ? & _), (range_wf_u64 r Hr) as (? & ? & _).
  pose proof (code_bounds l). pose proof (code_bounds r). unfold key_le, range_number.
  rewrite !canonical_key_eq. cbn [lookup_total list_lookup_total lex_leb].
  unfold in_u64, u64_max in *. lia.
Qed.

Definition same_kind (l r : CompletenessRange) : Prop :=
  cr_domain l = cr_domain r /\ cr_cause l = cr_cause r /\ cr_provenance l = cr_provenance r.
#[global] Instance same_kind_dec l r : Decision (same_kind l r).
Proof. unfold same_kind. apply _. Defined.

(** The coordinates a list of ranges covers, per kind. *)
Definition covers (ranges : list CompletenessRange) (kind : CompletenessRange) (x : Z) : Prop :=
  exists r, r ∈ ranges /\ same_kind kind r /\ range_contains r x = true.

Fixpoint coalesce (current : CompletenessRange) (rest : list CompletenessRange) :
    list CompletenessRange :=
  match rest with
  | [] => [current]
  | r :: rest =>
      match merge_canonical_completeness current r with
      | Some m => coalesce m rest
      | None => current :: coalesce r rest
      end
  end.

Definition coalesced (l : list CompletenessRange) : list CompletenessRange :=
  match l with [] => [] | r :: l => coalesce r l end.

(** What merging keeps of its left argument. *)
Lemma merge_shape l r m :
  range_wf l -> range_wf r -> merge_canonical_completeness l r = Some m ->
  same_kind m l /\ same_kind l r /\ range_first m = range_first l
  /\ range_last m = Z.max (range_last l) (range_last r).
Proof.
  unfold merge_canonical_completeness, captured_sequence_with_cause, source_bytes_with_cause,
    memory_addresses_with_cause, half_open, same_kind, range_first, range_last.
  intros Hl Hr Hm. destruct (_ || _) eqn:E; [done|]. apply orb_false_elim in E as [E E3].
  apply orb_false_elim in E as [E1 E2]. rewrite negb_false_iff, bool_decide_eq_true in *.
  destruct l as [dl [a b|a b] pl cl], r as [dr [x y|x y] pr cr]; cbn in *; try done; subst;
    destruct (_ <=? _); try done; destruct dr; try done; case_match; try done; injection Hm as <-; done.
Qed.

Lemma key_le_trans a b c : key_le a b -> key_le b c -> key_le a c.
Proof. unfold key_le. rewrite !canonical_key_eq. cbn [lex_leb]. lia. Qed.

Lemma key_le_unfold a b :
  key_le a b <->
  domain_code (cr_domain a) < domain_code (cr_domain b)
  \/ domain_code (cr_domain a) = domain_code (cr_domain b)
     /\ (completeness_cause_order (cr_cause a) < completeness_cause_order (cr_cause b)
         \/ completeness_cause_order (cr_cause a) = completeness_cause_order (cr_cause b)
            /\ (range_first a < range_first b
                \/ range_first a = range_first b
                   /\ (range_last a < range_last b
                       \/ range_last a = range_last b
                          /\ provenance_canonical_order (cr_provenance a)
                             <= provenance_canonical_order (cr_provenance b)))).
Proof. unfold key_le. rewrite !canonical_key_eq. cbn [lex_leb]. lia. Qed.

(** A merged range still comes before what follows. *)
Lemma merge_key_le l r m next :
  range_wf l -> range_wf r -> key_le l r -> key_le r next ->
  merge_canonical_completeness l r = Some m -> key_le m next.
Proof.
  intros Hl Hr Hlr Hrn Hm.
  destruct (merge_shape _ _ _ Hl Hr Hm) as ((Ed & Ec & Ep) & (Ed' & Ec' & Ep') & Ef & El).
  rewrite key_le_unfold in *. rewrite Ed, Ec, Ep, Ef, El.
  rewrite Ed', Ec', Ep' in Hlr |- *. lia.
Qed.

Lemma covers_cons r rs kind x :
  covers (r :: rs) kind x <-> same_kind kind r /\ range_contains r x = true \/ covers rs kind x.
Proof. unfold covers. setoid_rewrite elem_of_cons. naive_solver. Qed.

Lemma same_kind_trans a b c : same_kind a b -> same_kind b c -> same_kind a c.
Proof. unfold same_kind. intuition congruence. Qed.
Lemma same_kind_sym a b : same_kind a b -> same_kind b a.
Proof. unfold same_kind. intuition congruence. Qed.

(** Neighbours that the merge would not join. *)
Definition unmergeable (l r : CompletenessRange) : Prop := merge_canonical_completeness l r = None.

Record canonical (ranges : list CompletenessRange) : Prop := mkCanonical {
  can_wf : Forall range_wf ranges;
  can_sorted : StronglySorted key_le ranges;
  can_apart : Sorted unmergeable ranges
}.

(** Whether neighbours join depends on the second one's kind and start only. *)
Lemma unmergeable_start l a b :
  range_wf l -> range_wf a -> range_wf b -> same_kind a b -> range_first a = range_first b ->
  unmergeable l a -> unmergeable l b.
Proof.
  unfold unmergeable, merge_canonical_completeness, captured_sequence_with_cause, source_bytes_with_cause,
    memory_addresses_with_cause, half_open, same_kind, range_first.
  intros Hl Ha Hb (Ed & Ec & Ep) Ef. rewrite Ed, Ec, Ep. destruct (_ || _); [done|].
  destruct l as [dl [x y|x y] pl cl], a as [da [ax ay|ax ay] pa ca], b as [db [bx by'|bx by'] pb cb];
    cbn in *; subst; try done; try (destruct db; done);
    destruct (_ <=? _); try done; destruct dl; try done;
    repeat case_match; rewrite ?Z.gtb_gt, ?Z.gtb_ltb, ?Z.ltb_ge in *; try done; cbn in *; lia.
Qed.

Lemma coalesce_canonical current rest :
  Forall range_wf (current :: rest) -> StronglySorted key_le (current :: rest) ->
  canonical (coalesce current rest)
  /\ (exists h t, coalesce current rest = h :: t /\ same_kind h current
      /\ range_first h = range_first current /\ range_last current <= range_last h)
  /\ forall kind x, covers (coalesce current rest) kind x <-> covers (current :: rest) kind x.
Proof.
  revert current. induction rest as [|r rest IH]; intros current Hwf Hsort; cbn [coalesce].
  - split; [split; [done|done|repeat constructor]|]. split; [|done].
    exists current, []. repeat split; lia.
  - inversion Hwf as [|? ? Hc Hwf']; subst. inversion Hwf' as [|? ? Hr Hwf'']; subst.
    inversion Hsort as [|? ? Hsort' Hle]; subst. inversion Hle as [|? ? Hcr Hle']; subst.
    inversion Hsort' as [|? ? Hsort'' Hrle]; subst.
    destruct (merge_canonical_completeness current r) as [m|] eqn:Hm.
    + pose proof (merge_wf _ _ _ Hc Hr Hm) as Hmw.
      destruct (merge_shape _ _ _ Hc Hr Hm) as (Hk & Hk' & Ef & El).
      destruct (IH m) as (Hcan & (h & t & Eq & Hkh & Hf & Hl) & Hcov).
      { by constructor. }
      { constructor; [done|]. eapply Forall_impl; [exact Hrle|]. intros n Hn.
        exact (merge_key_le _ _ _ _ Hc Hr Hcr Hn Hm). }
      split; [done|]. split.
      { exists h, t. split; [done|]. split; [by eapply same_kind_trans|]. lia. }
      intros kind x. rewrite Hcov, !covers_cons, (merge_contains _ _ _ x Hc Hr Hcr Hm), orb_true_iff.
      assert (same_kind kind m <-> same_kind kind current) as E1 by (unfold same_kind in *; intuition congruence).
      assert (same_kind kind r <-> same_kind kind current) as E2 by (unfold same_kind in *; intuition congruence).
      rewrite E1, E2. tauto.
    + destruct (IH r) as (Hcan & (h & t & Eq & Hkh & Hf & Hl) & Hcov); [done..|].
      rewrite Eq in *. destruct Hcan as [Cw Cs Ca].
      inversion Cw as [|? ? Chw Ctw]; subst. inversion Cs as [|? ? Cs' Cle]; subst.
      assert (key_le current h) as Hch.
      { rewrite key_le_unfold in *. destruct Hkh as (-> & -> & ->). rewrite Hf.
        revert Hcr Hl. lia. }
      split; [split|split].
      * by constructor.
      * constructor; [done|]. constructor; [done|]. eapply Forall_impl; [exact Cle|].
        intros n Hn. by eapply key_le_trans.
      * constructor; [done|]. constructor. eapply (unmergeable_start _ r); [done..| | |done].
        -- by apply same_kind_sym.
        -- done.
      * exists current, (h :: t). repeat split; lia.
      * intros kind x. rewrite covers_cons, Hcov, covers_cons. rewrite (covers_cons current).
        rewrite covers_cons. tauto.
Qed.

Lemma run_normalize_loop {S} (xs : list (nat * CompletenessRange)) pre current cap (s : S) :
  run (fold_each xs (mkVec (pre ++ [current]) cap) normalize_turn) s
  = (Ok (mkVec (pre ++ coalesce current (map snd xs)) cap), s).
Proof.
  revert pre current. induction xs as [|[i r] xs IH]; intros pre current; [done|].
  cbn [fold_each map snd coalesce].
  assert (run (normalize_turn (mkVec (pre ++ [current]) cap) (i, r)) s
    = (Ok (match merge_canonical_completeness current r with
           | Some m => mkVec (pre ++ [m]) cap
           | None => mkVec ((pre ++ [current]) ++ [r]) cap end), s)) as Hturn.
  { unfold normalize_turn. rewrite (run_bind_ok _ _ _ _ _ (run_guard_checkpoint _ _)). cbn [v_items v_capacity].
    rewrite last_snoc. cbn [mbind option_bind]. case_match; [|done].
    by rewrite length_app, Nat.add_sub, take_app_length. }
  rewrite (run_bind_ok _ _ _ _ _ Hturn). case_match.
  - apply IH.
  - rewrite IH, <- app_assoc. done.
Qed.

Lemma sorted_keys ranges :
  Forall range_wf ranges -> StronglySorted key_le (stable_sort range_number ranges).
Proof.
  intros Hwf. pose proof (stable_sort_sorted range_number ranges) as Hs.
  assert (Forall range_wf (stable_sort range_number ranges)) as Hw by by rewrite stable_sort_perm.
  induction Hs as [|x l Hl IH Hx]; [constructor|]. inversion Hw as [|? ? Hxw Hlw]; subst.
  constructor; [by apply IH|]. rewrite Forall_forall in Hx, Hlw |- *. intros y Hy.
  apply key_le_number; [done|by apply Hlw|by apply Hx].
Qed.

Lemma run_normalize {S} (ranges : Vec CompletenessRange) (s : S) :
  Forall range_wf (v_items ranges) ->
  exists cap, run (normalize_completeness ranges) s
    = (Ok (mkVec (coalesced (stable_sort range_number (v_items ranges))) cap), s).
Proof.
  intros Hwf. unfold normalize_completeness. rewrite Forall_forall in Hwf.
  assert (forall v p, v ∈ v_items ranges -> (p < 19)%nat ->
    exists b, completeness_byte v p = Ok b /\ 0 <= b < 256) as Hkey
    by (intros; apply completeness_byte_total; auto).
  rewrite (run_bind_ok _ _ _ _ _ (run_radix_sort _ _ _ _ Hkey)).
  rewrite (stable_sort_ext _ range_number) by (intros; apply completeness_radix; auto).
  set (sorted := stable_sort range_number (v_items ranges)).
  destruct (run_flight_reserve (A := CompletenessRange) T_CompletenessRange vec_new (zlen sorted)
    "Flight recovery allocation failed" s) as [cap Hcap].
  unfold fallible_vec. rewrite (run_bind_ok _ _ _ _ _ Hcap). cbn [v_items vec_new].
  destruct sorted as [|r sorted]; [by exists cap|]. cbn [imap fold_each]. exists cap.
  assert (run (normalize_turn (mkVec [] cap) (0%nat, r)) s = (Ok (mkVec [r] cap), s)) as Hturn.
  { unfold normalize_turn. by rewrite (run_bind_ok _ _ _ _ _ (run_guard_checkpoint _ _)). }
  rewrite (run_bind_ok _ _ _ _ _ Hturn). rewrite (run_normalize_loop _ [] r). cbn [app coalesced].
  do 4 f_equal. change (snd <$> imap (pair ∘ Datatypes.S) sorted = sorted).
  rewrite fmap_imap. transitivity (imap (const id) sorted); [done|]. rewrite imap_const. apply list_fmap_id.
Qed.

Lemma coalesced_canonical ranges :
  Forall range_wf ranges ->
  canonical (coalesced (stable_sort range_number ranges))
  /\ forall kind x, covers (coalesced (stable_sort range_number ranges)) kind x <-> covers ranges kind x.
Proof.
  intros Hwf. pose proof (sorted_keys ranges Hwf) as Hs.
  assert (Forall range_wf (stable_sort range_number ranges)) as Hw by by rewrite stable_sort_perm.
  assert (forall kind x, covers (stable_sort range_number ranges) kind x <-> covers ranges kind x) as Hc.
  { intros kind x. unfold covers. by setoid_rewrite (stable_sort_perm range_number ranges). }
  destruct (stable_sort range_number ranges) as [|r l].
  - split; [|done]. split; constructor.
  - destruct (coalesce_canonical r l Hw Hs) as (Hcan & _ & Hcov). split; [done|].
    intros kind x. cbn [coalesced]. by rewrite Hcov, Hc.
Qed.

#[export] Hint Resolve host_resource : qtrace.

Section settle_rules.
Context {W : Type} `{WorkGuard W} `{Allocator W} {S : Type}.
Implicit Types s : S.
(** Runs that leave the receiver alone and that only resources can stop. *)
Abbreviation settles p Q s :=
  (wp (W := W) p (fun a s' => s' = s /\ Q a) (fun e s' => s' = s /\ resource_error e) s).

Lemma settles_bind {A B} (p : Prog W ProviderError S A) (k : A -> Prog W ProviderError S B)
    (Q : A -> Prop) (Q' : B -> Prop) s :
  settles p Q s -> (forall a, Q a -> settles (k a) Q' s) -> settles (bind p k) Q' s.
Proof.
  intros Hp Hk. apply wp_bind. eapply wp_mono; [exact Hp| |done]. intros a s' [-> Ha]. by apply Hk.
Qed.

Lemma settles_ret {A} (a : A) (Q : A -> Prop) s : Q a -> settles (ret a) Q s.
Proof. intros Ha. by apply wp_ret. Qed.

Lemma settles_checkpoint i (Q : unit -> Prop) s : Q tt -> settles (guard_checkpoint i) Q s.
Proof. intros HQ. apply wp_checkpoint; [done|]. auto with qtrace. Qed.

Lemma settles_vec {A} t n (Q : Vec A -> Prop) s :
  (forall cap, Q (mkVec [] cap)) -> settles (fallible_vec t n) Q s.
Proof.
  intros HQ. apply wp_bind, (wp_reserve_vec _); [intros cap; by apply wp_ret|done].
Qed.

Lemma settles_push {A} t (v : Vec A) x (Q : Vec A -> Prop) s :
  (forall cap, Q (mkVec (v_items v ++ [x]) cap)) -> settles (guarded_push t v x) Q s.
Proof. intros HQ. apply wp_guarded_push; [done|]. auto with qtrace. Qed.

Lemma settles_reserve {A} t (v : Vec A) n detail (Q : Vec A -> Prop) s :
  (forall cap, Q (mkVec (v_items v) cap)) -> settles (flight_reserve_vec t v n detail) Q s.
Proof.
  intros HQ. apply wp_bind, (wp_reserve_vec _); [intros cap; by apply wp_ret|done].
Qed.

Lemma settles_map id t n (Q : unit -> Prop) s : Q tt -> settles (fallible_hash_map id t n) Q s.
Proof. intros HQ. apply (wp_reserve_map _); [done|done]. Qed.

Lemma settles_normalize_loop (xs : list (nat * CompletenessRange)) pre current cap s :
  settles (fold_each xs (mkVec (pre ++ [current]) cap) normalize_turn)
    (fun v => v_items v = pre ++ coalesce current (map snd xs)) s.
Proof.
  revert pre current. induction xs as [|[i r] xs IH]; intros pre current; [by apply settles_ret|].
  cbn [fold_each map snd coalesce].
  eapply (settles_bind _ _ (fun v => v = match merge_canonical_completeness current r with
           | Some m => mkVec (pre ++ [m]) cap
           | None => mkVec ((pre ++ [current]) ++ [r]) cap end)).
  - apply (settles_bind _ _ (fun _ => True)); [by apply settles_checkpoint|]. intros _ _.
    cbn [v_items v_capacity]. rewrite last_snoc. cbn [mbind option_bind].
    case_match; [|by apply settles_ret]. apply settles_ret.
    by rewrite length_app, Nat.add_sub, take_app_length.
  - intros v ->. case_match; [apply IH|]. eapply wp_mono; [apply IH| |done].
    intros v s' [-> Hv]. split; [done|]. by rewrite Hv, <- app_assoc.
Qed.

Lemma settles_normalize (ranges : Vec CompletenessRange) s :
  Forall range_wf (v_items ranges) ->
  settles (normalize_completeness ranges)
    (fun v => v_items v = coalesced (stable_sort range_number (v_items ranges))) s.
Proof.
  intros Hwf. rewrite Forall_forall in Hwf. apply wp_bind, wp_radix_sort.
  { intros v p Hv Hp. apply completeness_byte_total; auto. }
  2: { by intros e He. }
  rewrite (stable_sort_ext _ range_number) by (intros; apply completeness_radix; auto).
  set (sorted := stable_sort range_number (v_items ranges)).
  apply (settles_bind _ _ (fun v => v_items v = [])); [by apply settles_vec|]. intros [items cap] Hi.
  cbn in Hi. subst items. destruct sorted as [|r sorted]; [by apply settles_ret|]. cbn [imap fold_each].
  apply (settles_bind _ _ (fun v => v = mkVec [r] cap)).
  { apply (settles_bind _ _ (fun _ => True)); [by apply settles_checkpoint|]. intros _ _. by apply settles_ret. }
  intros v ->. eapply wp_mono; [apply (settles_normalize_loop _ [] r)| |done].
  intros v s' [-> Hv]. split; [done|]. rewrite Hv. cbn [app coalesced]. f_equal.
  change (snd <$> imap (pair ∘ Datatypes.S) sorted = sorted).
  rewrite fmap_imap. transitivity (imap (const id) sorted); [done|]. rewrite imap_const. apply list_fmap_id.
Qed.

End settle_rules.

(** The completeness report is canonical.  For well-formed ranges,
    [normalize_completeness] returns a list ordered by the canonical key whose
    neighbours cannot be merged any further and which covers, for every domain,
    cause and provenance, exactly the coordinates the input covered; it always
    succeeds when nothing is refused, and under any guard and heap the only
    other outcome is a resource error that leaves the receiver alone. *)
Theorem normalize_exact (W : Type) (G : WorkGuard W) (A : Allocator W) (S : Type)
    (ranges : Vec CompletenessRange) (s : S) (w : W)
    (Hranges : Forall range_wf (v_items ranges)) :
  exists normal,
    canonical normal /\ (forall kind x, covers normal kind x <-> covers (v_items ranges) kind x)
    /\ (exists cap, run (normalize_completeness ranges) s = (Ok (mkVec normal cap), s))
    /\ match normalize_completeness ranges s w with
       | (Ok out, s', _) => s' = s /\ v_items out = normal
       | (Err e, s', _) => s' = s /\ resource_error e
       end.
Proof.
  exists (coalesced (stable_sort range_number (v_items ranges))).
  destruct (coalesced_canonical _ Hranges) as [Hcan Hcov]. split; [done|]. split; [done|].
  split; [by apply run_normalize|]. pose proof (settles_normalize ranges s Hranges w) as Hw.
  by destruct (normalize_completeness ranges s w) as [[[?|?] ?] ?].
Qed.

Lemma normalize_exact_witness :
  let a := mkRange CapturedSequence (InclusiveSequence 7 9) Captured Retained in
  let b := mkRange CapturedSequence (InclusiveSequence 1 3) Captured Retained in
  let c := mkRange CapturedSequence (InclusiveSequence 4 6) Captured Retained in
  let d := mkRange SourceBytes (HalfOpen 0 64) Damaged Checksum in
  exists normal, canonical normal
    /\ (exists cap, run (normalize_completeness (mkVec [a; d; b; c] 0)) tt = (Ok (mkVec normal cap), tt))
    /\ fst (run (normalize_completeness (mkVec [a; d; b; c] 0)) tt)
       = Ok (mkVec [mkRange CapturedSequence (InclusiveSequence 1 9) Captured Retained; d] 4).
Proof.
  intros a b c d.
  destruct (normalize_exact unit _ _ unit (mkVec [a; d; b; c] 0) tt tt) as (normal & Hcan & _ & Hrun & _).
  - repeat constructor; vm_compute; discriminate.
  - exists normal. split; [exact Hcan|]. split; [exact Hrun|]. vm_compute. reflexivity.
Defined.

(** ** Collisions between regular and emergency records *)

Section collision.
Context (emergency_start emergency_end : Z).

Definition from_emergency (e : PhysicalFlight) : bool :=
  (emergency_start <=? ek_source_offset (ph_key e)) && (ek_source_offset (ph_key e) <? emergency_end).

(** An emergency copy of a sequence number a regular record carries. *)
Definition shadowed (events : list PhysicalFlight) (e : PhysicalFlight) : bool :=
  from_emergency e
  && existsb (fun r => negb (from_emergency r) && (sequence_of r =? sequence_of e)) events.

Definition kept (events : list PhysicalFlight) : list PhysicalFlight :=
  List.filter (fun e => negb (shadowed events e)) events.

Definition stale_range (e : PhysicalFlight) : CompletenessRange :=
  mkRange SourceBytes
    (HalfOpen (ek_source_offset (ph_key e))
       (saturating_add u64_max (ek_source_offset (ph_key e)) FLIGHT_EMERGENCY_RECORD_BYTES))
    ProvUnknown Stale.

Definition stale (events : list PhysicalFlight) : list CompletenessRange :=
  map stale_range (List.filter (shadowed events) events).

(** Two records may share a number only as a regular record and its copy. *)
Definition may_follow (a b : PhysicalFlight) : Prop :=
  sequence_of a = sequence_of b -> from_emergency a <> from_emergency b.

Definition ordered (a b : PhysicalFlight) : Prop := sequence_of a <= sequence_of b.

Lemma shadowed_app_ne l1 l2 e :
  (forall b, b ∈ l2 -> sequence_of b <> sequence_of e) -> shadowed (l1 ++ l2) e = shadowed l1 e.
Proof.
  intros Hne. unfold shadowed. f_equal. rewrite existsb_app.
  replace (existsb _ l2) with false; [apply orb_false_r|]. symmetry. apply not_true_iff_false.
  rewrite existsb_exists. intros (b & Hb & Hcond). apply (Hne b); [by apply list_elem_of_In|].
  apply andb_true_iff in Hcond as [_ Hq]. by apply Z.eqb_eq.
Qed.

Lemma filter_ext_elem {A} (f g : A -> bool) l :
  (forall x, x ∈ l -> f x = g x) -> List.filter f l = List.filter g l.
Proof. intros Hfg. apply filter_ext_in. intros x Hx. apply Hfg. by apply list_elem_of_In. Qed.

Lemma shadowed_comm l1 l2 e : shadowed (l1 ++ l2) e = shadowed (l2 ++ l1) e.
Proof. unfold shadowed. f_equal. rewrite !existsb_app. apply orb_comm. Qed.

(** Groups of different numbers do not interact. *)
Lemma resolved_app l1 l2 :
  (forall a b, a ∈ l1 -> b ∈ l2 -> sequence_of a <> sequence_of b) ->
  kept (l1 ++ l2) = kept l1 ++ kept l2 /\ stale (l1 ++ l2) = stale l1 ++ stale l2.
Proof.
  intros Hne.
  assert (forall e, e ∈ l1 -> shadowed (l1 ++ l2) e = shadowed l1 e) as H1.
  { intros e He. apply shadowed_app_ne. intros b Hb. by apply not_eq_sym, Hne. }
  assert (forall e, e ∈ l2 -> shadowed (l1 ++ l2) e = shadowed l2 e) as H2.
  { intros e He. rewrite shadowed_comm. apply shadowed_app_ne. intros b Hb. by apply Hne. }
  unfold kept, stale. rewrite !List.filter_app, map_app.
  rewrite (filter_ext_elem _ (fun e => negb (shadowed l1 e)) l1) by (intros; by rewrite H1).
  rewrite (filter_ext_elem _ (fun e => negb (shadowed l2 e)) l2) by (intros; by rewrite H2).
  by rewrite (filter_ext_elem (shadowed (l1 ++ l2)) (shadowed l1) l1),
    (filter_ext_elem (shadowed (l1 ++ l2)) (shadowed l2) l2) by done.
Qed.

Lemma Sorted_impl_elem {A} (R R' : A -> A -> Prop) l :
  (forall x y, x ∈ l -> y ∈ l -> R x y -> R' x y) -> StronglySorted R l -> StronglySorted R' l.
Proof.
  intros HR Hs. induction Hs as [|x l Hl IH Hx]; [constructor|]. constructor.
  - apply IH. intros y z Hy Hz. apply HR; by right.
  - rewrite Forall_forall in Hx |- *. intros y Hy. apply HR; [by left|by right|by apply Hx].
Qed.

Lemma Sorted_both {A} (R R' : A -> A -> Prop) l :
  StronglySorted R l -> StronglySorted R' l -> StronglySorted (fun x y => R x y /\ R' x y) l.
Proof.
  induction 1 as [|x l Hl IH Hx]; [constructor|]. intros [Hl' Hx']%StronglySorted_inv.
  constructor; [by apply IH|]. apply Forall_and. by split.
Qed.

Lemma kept_increasing events :
  StronglySorted ordered events -> StronglySorted may_follow events ->
  StronglySorted Z.lt (map sequence_of (kept events)).
Proof.
  intros Ho Hm. pose proof (Sorted_filter _ (fun e => negb (shadowed events e)) _ (Sorted_both _ _ _ Ho Hm)) as Hs.
  fold (kept events) in Hs.
  apply (Sorted_impl_elem _ (fun a b => sequence_of a < sequence_of b)) in Hs.
  - induction Hs as [|x l Hl IH Hx]; cbn; constructor; [done|]. by rewrite Forall_map.
  - assert (forall x, x ∈ kept events -> x ∈ events /\ shadowed events x = false) as Hin.
    { intros x Hx. unfold kept in Hx. rewrite list_elem_of_In, filter_In in Hx.
      rewrite list_elem_of_In, negb_true_iff in *. done. }
    intros a b [Ha Hsa]%Hin [Hb Hsb]%Hin [Hle Hfol]. destruct (Z.eq_dec (sequence_of a) (sequence_of b)) as [E|E];
      [|unfold ordered in Hle; lia]. exfalso. specialize (Hfol E). unfold shadowed in Hsa, Hsb.
    destruct (from_emergency a) eqn:Ea, (from_emergency b) eqn:Eb; try done; cbn in Hsa, Hsb.
    + apply not_true_iff_false in Hsa. apply Hsa, existsb_exists. exists b.
      rewrite Eb, E, Z.eqb_refl. split; [by apply list_elem_of_In|done].
    + apply not_true_iff_false in Hsb. apply Hsb, existsb_exists. exists a.
      rewrite Ea, E, Z.eqb_refl. split; [by apply list_elem_of_In|done].
Qed.

End collision.

Section resolve.
Context {W : Type} `{WorkGuard W} `{Allocator W} {S : Type} (emergency_start emergency_end : Z).
Implicit Types s : S.
Abbreviation em := (from_emergency emergency_start emergency_end).
Abbreviation keep l := (kept emergency_start emergency_end l).
Abbreviation drops l := (stale emergency_start emergency_end l).
Abbreviation settles p Q s :=
  (wp (W := W) p (fun a s' => s' = s /\ Q a) (fun e s' => s' = s /\ resource_error e) s).

(** A physical record the recovery can place. *)
Definition placed (e : PhysicalFlight) : Prop :=
  (exists q, ek_sequence (ph_key e) = Some q) /\ in_u64 (ek_source_offset (ph_key e)).

Lemma settles_sequence e (Q : Z -> Prop) s :
  placed e -> Q (sequence_of e) -> settles (sequence_required e) Q s.
Proof.
  intros [[q Hq] _] HQ. apply wp_option. unfold sequence_of in HQ. rewrite Hq in *. done.
Qed.

(** The records of the open group, whatever their order. *)
Definition group_of (regular emergency : option PhysicalFlight) (grp : list PhysicalFlight) : Prop :=
  grp ≡ₚ option_list regular ++ option_list emergency
  /\ (forall r, regular = Some r -> em r = false) /\ (forall e, emergency = Some e -> em e = true).

Lemma settles_flush output regular emergency completeness grp q s :
  group_of regular emergency grp -> Forall placed grp -> Forall (fun e => sequence_of e = q) grp ->
  settles (flush_sequence_group output regular emergency completeness)
    (fun r => v_items (fst r) = v_items output ++ keep grp
              /\ v_items (snd r) = v_items completeness ++ drops grp) s.
Proof.
  intros (Hp & Hr & He) Hplaced Hq. rewrite Forall_forall in Hplaced, Hq.
  assert (forall x, settles (let! output := guarded_push T_PhysicalRecord output x in
    ret (output, completeness))
    (fun r => v_items (fst r) = v_items output ++ [x] /\ v_items (snd r) = v_items completeness ++ []) s) as Hone.
  { intros x. eapply (settles_bind _ _ (fun v => v_items v = v_items output ++ [x]));
      [by apply settles_push|]. intros v Hv. apply settles_ret. by rewrite app_nil_r. }
  destruct regular as [r|], emergency as [e|]; cbn [option_list app flush_sequence_group] in *.
  - specialize (Hr r eq_refl). specialize (He e eq_refl).
    assert (r ∈ grp /\ e ∈ grp) as [Hrin Hein] by (rewrite Hp; set_solver).
    assert (keep grp = [r] /\ drops grp = [stale_range e]) as [-> ->].
    { pose proof (Hq r Hrin) as Eqr. pose proof (Hq e Hein) as Eqe.
      assert (shadowed emergency_start emergency_end grp r = false) as S1 by (unfold shadowed; by rewrite Hr).
      assert (shadowed emergency_start emergency_end grp e = true) as S2.
      { unfold shadowed. rewrite He. apply existsb_exists. exists r. rewrite Hr, Eqr, Eqe, Z.eqb_refl.
        split; [by apply list_elem_of_In|done]. }
      unfold kept, stale. apply Permutation_sym, Permutation_length_2_inv in Hp as [E|E];
        rewrite E in *; cbn [List.filter]; by rewrite S1, S2. }
    assert (push_source_range (W := W) (S := S) completeness (ek_source_offset (ph_key e))
      (saturating_add u64_max (ek_source_offset (ph_key e)) FLIGHT_EMERGENCY_RECORD_BYTES) ProvUnknown Stale
      = guarded_push T_CompletenessRange completeness (stale_range e)) as Epush.
    { unfold push_source_range, source_bytes_with_cause, half_open. destruct (Hplaced e Hein) as [_ He64].
      unfold in_u64 in He64.
      assert (saturating_add u64_max (ek_source_offset (ph_key e)) FLIGHT_EMERGENCY_RECORD_BYTES
              >= ek_source_offset (ph_key e)) by (unfold saturating_add, FLIGHT_EMERGENCY_RECORD_BYTES; lia).
      by replace (_ >? _) with false by lia. }
    rewrite Epush.
    eapply (settles_bind _ _ (fun v => v_items v = v_items completeness ++ [stale_range e]));
      [by apply settles_push|]. intros c Hc.
    eapply (settles_bind _ _ (fun v => v_items v = v_items output ++ [r])); [by apply settles_push|].
    intros v Hv. by apply settles_ret.
  - apply Permutation_sym, Permutation_length_1_inv in Hp as ->. specialize (Hr r eq_refl).
    unfold kept, stale, shadowed. cbn. rewrite Hr. cbn. apply Hone.
  - apply Permutation_sym, Permutation_length_1_inv in Hp as ->. specialize (He e eq_refl).
    unfold kept, stale, shadowed. cbn. rewrite He. cbn. apply Hone.
  - apply Permutation_sym, Permutation_nil in Hp as ->. apply settles_ret. cbn. by rewrite !app_nil_r.
Qed.

Abbreviation follows_ok l := (StronglySorted (may_follow emergency_start emergency_end) l).

(** Why a resolution may stop: the host, or a number used twice by records of
    the same kind. *)
Definition refused (events : list PhysicalFlight) (e : ProviderError) : Prop :=
  resource_error e \/ (pe_code e = "source.flight.sequence" /\ ~ follows_ok events).

(** What the second loop has established of the records it visited. *)
Definition grouped (completeness : list CompletenessRange) (visited : list PhysicalFlight)
    (st : GroupState) : Prop :=
  exists closed grp, visited = closed ++ grp
    /\ v_items (gs_output st) = keep closed
    /\ v_items (gs_completeness st) = completeness ++ drops closed
    /\ group_of (gs_regular st) (gs_emergency st) grp
    /\ match gs_sequence st with
       | Some q => grp <> [] /\ Forall (fun e => sequence_of e = q) grp
                   /\ Forall (fun e => sequence_of e < q) closed
       | None => visited = []
       end
    /\ follows_ok visited.

Lemma follows_snoc l e :
  follows_ok l -> Forall (fun a => may_follow emergency_start emergency_end a e) l -> follows_ok (l ++ [e]).
Proof.
  induction 1 as [|x l Hl IH Hx]; intros Hall; cbn; [repeat constructor|].
  inversion Hall as [|? ? Hxe Hall']; subst. constructor; [by apply IH|].
  apply Forall_app. split; [done|by repeat constructor].
Qed.

(** Closing the open group before a record of another number. *)
Lemma settles_close completeness visited st event s :
  grouped completeness visited st -> Forall placed visited ->
  Forall (fun e => sequence_of e <= sequence_of event) visited ->
  settles (if match gs_sequence st with Some value => negb (value =? sequence_of event) | None => false end
           then let! flushed := flush_sequence_group (gs_output st) (gs_regular st) (gs_emergency st)
                  (gs_completeness st) in
                ret (mkGroupState (fst flushed) (snd flushed) (gs_sequence st) None None)
           else ret st)
    (fun st' => exists closed grp, visited = closed ++ grp
       /\ v_items (gs_output st') = keep closed
       /\ v_items (gs_completeness st') = completeness ++ drops closed
       /\ group_of (gs_regular st') (gs_emergency st') grp
       /\ Forall (fun e => sequence_of e = sequence_of event) grp
       /\ Forall (fun e => sequence_of e < sequence_of event) closed) s.
Proof.
  intros (closed & grp & -> & Ho & Hc & Hg & Hq & _) Hplaced Hle.
  apply Forall_app in Hplaced as [_ Hplaced]. apply Forall_app in Hle as [Hle1 Hle2].
  destruct (gs_sequence st) as [q|].
  - destruct Hq as (Hne0 & Hq1 & Hq2). destruct (Z.eqb_spec q (sequence_of event)) as [->|Hne]; cbn [negb].
    + apply settles_ret. by exists closed, grp.
    + eapply settles_bind; [by eapply settles_flush|]. intros [o c] [Ho' Hc']. apply settles_ret.
      exists (closed ++ grp), []. cbn [fst snd gs_output gs_completeness gs_regular gs_emergency] in *.
      destruct (resolved_app emergency_start emergency_end closed grp) as [-> ->].
      { rewrite Forall_forall in Hq1, Hq2. intros a b Ha Hb. specialize (Hq2 a Ha). rewrite (Hq1 b Hb). lia. }
      rewrite Ho', Hc', Ho, Hc, app_assoc, app_nil_r. split_and!; [done..| |constructor|].
      * split; [done|]. split; [by intros|by intros].
      * assert (Forall (fun e => sequence_of e <= q) (closed ++ grp)) as Hall.
        { apply Forall_app. split; [eapply Forall_impl; [exact Hq2|]|eapply Forall_impl; [exact Hq1|]];
            cbn; lia. }
        assert (q < sequence_of event) as Hlt.
        { destruct grp as [|g grp]; [done|]. inversion Hq1; inversion Hle2; subst. lia. }
        eapply Forall_impl; [exact Hall|]. cbn. lia.
  - apply app_nil in Hq as [-> ->]. apply settles_ret. exists [], []. by split_and!.
Qed.

Lemma settles_group_turn completeness events visited event after st s :
  events = visited ++ event :: after -> Forall placed events -> StronglySorted ordered events ->
  grouped completeness visited st ->
  wp (W := W) (group_turn emergency_start emergency_end st (length visited, event))
    (fun st' s' => s' = s /\ grouped completeness (visited ++ [event]) st')
    (fun e s' => s' = s /\ refused events e) s.
Proof.
  intros Hev Hplaced Hsort Hst. pose proof Hst as (_ & _ & _ & _ & _ & _ & _ & Hfollow).
  assert (placed event) as Hpe by (rewrite Forall_forall in Hplaced; apply Hplaced; rewrite Hev; set_solver).
  assert (Forall placed visited) as Hpv by (rewrite Hev in Hplaced; by apply Forall_app in Hplaced as [? _]).
  assert (Forall (fun e => sequence_of e <= sequence_of event) visited) as Hle.
  { apply Forall_forall. intros a Ha. rewrite Hev in Hsort.
    apply (StronglySorted_app_1_elem_of _ _ _ a event Hsort Ha). set_solver. }
  assert (forall e s', s' = s /\ resource_error e -> s' = s /\ refused events e) as Hres
    by (intros e s' [-> He]; split; [done|by left]).
  unfold group_turn. apply wp_bind. eapply wp_mono; [by apply (settles_checkpoint _ (fun _ => True))| |exact Hres].
  intros _ s' [-> _]. apply wp_bind.
  eapply wp_mono; [by apply (settles_sequence event (fun q => q = sequence_of event))| |exact Hres].
  intros q s' [-> ->]. apply wp_bind. eapply wp_mono; [by eapply settles_close| |exact Hres].
  intros st' s' (-> & closed & grp & Ev & Ho & Hc & (Hp & Hr & He) & Hq & Hlt).
  assert (forall slot, slot ∈ grp -> em slot = em event -> ~ follows_ok events) as Hclash.
  { intros slot Hslot Hsame Hok. rewrite Hev in Hok.
    assert (may_follow emergency_start emergency_end slot event) as Hm.
    { apply (StronglySorted_app_1_elem_of _ _ _ slot event Hok); [rewrite Ev|]; set_solver. }
    rewrite Forall_forall in Hq. by apply Hm; [apply Hq|]. }
  assert (forall regular emergency,
    (grp ++ [event]) ≡ₚ option_list regular ++ option_list emergency ->
    (forall r, regular = Some r -> em r = false) -> (forall e, emergency = Some e -> em e = true) ->
    Forall (fun a => em a <> em event) grp ->
    grouped completeness (visited ++ [event])
      (mkGroupState (gs_output st') (gs_completeness st') (Some (sequence_of event)) regular emergency)) as Hnext.
  { intros regular emergency Hp' Hr' He' Hother. exists closed, (grp ++ [event]).
    split; [by rewrite Ev, <- app_assoc|]. split; [done|]. split; [done|]. split; [by split_and!|]. split.
    - split; [by destruct grp|]. split; [|done]. apply Forall_app. split; [done|by repeat constructor].
    - apply follows_snoc; [done|]. rewrite Ev. apply Forall_app. split.
      + eapply Forall_impl; [exact Hlt|]. unfold may_follow. cbn. intros a. lia.
      + eapply Forall_impl; [exact Hother|]. unfold may_follow. cbn. intros a Ha _. done. }
  assert (forall slot, is_Some slot -> option_list slot ⊆ grp ->
    (forall x, slot = Some x -> em x = em event) -> refused events (duplicate_sequence event)) as Hdup.
  { intros slot [x ->] Hsub Hx. right. split; [done|]. apply (Hclash x); [apply Hsub; cbn; set_solver|by apply Hx]. }
  fold (from_emergency emergency_start emergency_end event). destruct (em event) eqn:Eev.
  - apply wp_bind, wp_fail_if; intros Hslot.
    + apply bool_decide_eq_false in Hslot. apply wp_ret. split; [done|].
      destruct (gs_emergency st') as [x|] eqn:Ex; [by destruct Hslot|]. apply Hnext; [|done|by intros ? [= <-]|].
      * rewrite Hp. cbn. by rewrite app_nil_r.
      * apply Forall_forall. intros a Ha. rewrite Hp in Ha. cbn in Ha. rewrite app_nil_r in Ha.
        destruct (gs_regular st') as [r|]; cbn in Ha; [|set_solver].
        apply list_elem_of_singleton in Ha as ->. by rewrite (Hr r eq_refl).
    + apply bool_decide_eq_true in Hslot. split; [done|]. apply (Hdup (gs_emergency st')); [done| |done].
      intros a Ha. rewrite Hp. set_solver.
  - apply wp_bind, wp_fail_if; intros Hslot.
    + apply bool_decide_eq_false in Hslot. apply wp_ret. split; [done|].
      destruct (gs_regular st') as [x|] eqn:Ex; [by destruct Hslot|]. apply Hnext; [|by intros ? [= <-]|done|].
      * rewrite Hp. cbn. by rewrite Permutation_app_comm.
      * apply Forall_forall. intros a Ha. rewrite Hp in Ha. cbn in Ha.
        destruct (gs_emergency st') as [r|]; cbn in Ha; [|set_solver].
        apply list_elem_of_singleton in Ha as ->. by rewrite (He r eq_refl).
    + apply bool_decide_eq_true in Hslot. split; [done|]. apply (Hdup (gs_regular st')); [done| |done].
      intros a Ha. rewrite Hp. set_solver.
Qed.

Lemma settles_find_collision (xs : list (nat * PhysicalFlight)) previous s :
  Forall placed (map snd xs) ->
  settles (find_collision xs previous)
    (fun found => found = false ->
       Sorted (fun a b => a <> b) (option_list previous ++ map (fun e => sequence_of (snd e)) xs)) s.
Proof.
  revert previous. induction xs as [|[i e] xs IH]; intros previous Hp; cbn [find_collision map].
  - apply settles_ret. intros _. destruct previous; repeat constructor.
  - cbn [map snd] in *. inversion Hp as [|? ? He Hp']; subst.
    apply (settles_bind _ _ (fun _ => True)); [by apply settles_checkpoint|]. intros _ _.
    eapply (settles_bind _ _ (fun q => q = sequence_of e)); [by apply settles_sequence|]. intros q ->.
    case_bool_decide as Hprev; [by apply settles_ret|].
    eapply wp_mono; [by apply IH| |done]. intros found s' [-> Hf]. split; [done|]. intros ->.
    specialize (Hf eq_refl). cbn [option_list app] in Hf. destruct previous as [p|]; [|done].
    constructor; [done|]. constructor. congruence.
Qed.

Lemma strictly_ordered events :
  StronglySorted ordered events -> Sorted (fun a b => a <> b) (map sequence_of events) ->
  StronglySorted (fun a b => sequence_of a < sequence_of b) events.
Proof.
  intros Ho Hn. apply Sorted_StronglySorted; [intros a b c; lia|].
  induction Ho as [|x l Hl IH Hx]; [constructor|]. cbn [map] in Hn. inversion Hn as [|? ? Hn' Hhd]; subst.
  constructor; [by apply IH|]. destruct l as [|y l]; constructor. inversion Hx as [|? ? Hxy _]; subst.
  inversion Hhd; subst. unfold ordered in Hxy. lia.
Qed.

(** With distinct numbers there is nothing to resolve. *)
Lemma resolved_distinct events :
  StronglySorted (fun a b => sequence_of a < sequence_of b) events ->
  keep events = events /\ drops events = [] /\ follows_ok events.
Proof.
  intros Hs. assert (follows_ok events) as Hf.
  { eapply Sorted_weaken; [|exact Hs]. intros a b Hab E. cbn beta in Hab. lia. }
  induction Hs as [|x l Hl IH Hx]; [by split_and!|].
  apply StronglySorted_inv in Hf as [Hf' _]. destruct (IH Hf') as (Hk & Hd & _).
  destruct (resolved_app emergency_start emergency_end [x] l) as [Ek Ed].
  { rewrite Forall_forall in Hx. intros a b ->%list_elem_of_singleton Hb. specialize (Hx b Hb). lia. }
  assert (shadowed emergency_start emergency_end [x] x = false) as Esh.
  { unfold shadowed. cbn. destruct (em x); cbn; [done|done]. }
  split_and!.
  - change (x :: l) with ([x] ++ l). rewrite Ek, Hk. unfold kept. cbn [List.filter]. by rewrite Esh.
  - change (x :: l) with ([x] ++ l). rewrite Ed, Hd. unfold stale. cbn [List.filter]. by rewrite Esh.
  - constructor; [done|]. eapply Forall_impl; [exact Hx|]. intros y Hy E. cbn beta in Hy. lia.
Qed.

Lemma wp_resolve (events : Vec PhysicalFlight) completeness s :
  Forall placed (v_items events) -> StronglySorted ordered (v_items events) ->
  wp (W := W) (resolve_sequence_collisions events emergency_start emergency_end completeness)
    (fun r s' => s' = s /\ follows_ok (v_items events)
       /\ v_items (fst r) = keep (v_items events)
       /\ v_items (snd r) = v_items completeness ++ drops (v_items events))
    (fun e s' => s' = s /\ refused (v_items events) e) s.
Proof.
  intros Hp Hs.
  assert (forall e s', s' = s /\ resource_error e -> s' = s /\ refused (v_items events) e) as Hres
    by (intros e s' [-> He]; split; [done|by left]).
  unfold resolve_sequence_collisions. apply wp_bind.
  eapply wp_mono; [apply settles_find_collision; by rewrite map_snd_indexed| |exact Hres].
  intros found s' [-> Hf]. destruct found; cbn [negb].
  - clear Hf. apply wp_bind. eapply wp_mono; [by apply (settles_vec _ _ (fun v => v_items v = []))| |exact Hres].
    intros output s' [-> Ho]. apply wp_bind.
    eapply wp_mono; [apply (wp_fold_indexed (grouped (v_items completeness)) _ _ _
      (fun e s' => s' = s /\ refused (v_items events) e))| |done].
    + exists [], []. cbn. rewrite app_nil_r. split_and!; [done..| |done|constructor].
      split; [done|]. split; [by intros|by intros].
    + intros visited event after st Hev Hst. by eapply settles_group_turn.
    + intros st s' (-> & closed & grp & Ev & Ho' & Hc & Hg & Hq & Hfol).
      assert (exists q, Forall (fun e => sequence_of e = q) grp /\ Forall (fun e => sequence_of e < q) closed)
        as (q & Hq1 & Hq2).
      { destruct (gs_sequence st) as [q|]; [exists q; tauto|]. rewrite Hq in Ev. symmetry in Ev.
        apply app_nil in Ev as [-> ->]. exists 0. split; constructor. }
      eapply wp_mono; [eapply settles_flush; [done| |done]| |exact Hres].
      { rewrite Ev in Hp. by apply Forall_app in Hp as [_ ?]. }
      intros r s' (-> & H1 & H2). split; [done|]. split; [done|].
      destruct (resolved_app emergency_start emergency_end closed grp) as [Ek Ed].
      { rewrite Forall_forall in Hq1, Hq2. intros a b Ha Hb. specialize (Hq2 a Ha). rewrite (Hq1 b Hb). lia. }
      rewrite H1, H2, Ho', Hc, Ev, Ek, Ed, app_assoc. done.
  - apply wp_ret. split; [done|]. specialize (Hf eq_refl). cbn [option_list app] in Hf.
    rewrite map_indexed in Hf. destruct (resolved_distinct _ (strictly_ordered _ Hs Hf)) as (Hk & Hd & Hfol).
    cbn [fst snd]. rewrite Hk, Hd, app_nil_r. done.
Qed.

End resolve.

(** C34: sequence collisions resolve in favour of regular records.  Given the
    recovered records in sequence order, [resolve_sequence_collisions]
    succeeds only when no number is used by two regular or by two emergency
    records; the records it returns are exactly those that no regular record
    shadows, in strictly increasing sequence order, and every shadowed
    emergency record is reported as one stale source range.  It fails only
    through the host, or with the duplicate-sequence error when a number is
    used twice by records of one kind. *)
Theorem collisions_resolved (W : Type) (G : WorkGuard W) (A : Allocator W) (S : Type)
    (events : Vec PhysicalFlight) (emergency_start emergency_end : Z)
    (completeness : Vec CompletenessRange) (s : S) (w : W)
    (Hplaced : Forall placed (v_items events)) (Hsorted : StronglySorted ordered (v_items events)) :
  match resolve_sequence_collisions events emergency_start emergency_end completeness s w with
  | (Ok (out, completeness'), s', _) =>
      s' = s
      /\ StronglySorted (may_follow emergency_start emergency_end) (v_items events)
      /\ v_items out = kept emergency_start emergency_end (v_items events)
      /\ StronglySorted Z.lt (map sequence_of (v_items out))
      /\ v_items completeness' = v_items completeness
           ++ stale emergency_start emergency_end (v_items events)
  | (Err e, s', _) =>
      s' = s /\ (resource_error e
                 \/ (pe_code e = "source.flight.sequence"
                     /\ ~ StronglySorted (may_follow emergency_start emergency_end) (v_items events)))
  end.
Proof.
  pose proof (wp_resolve emergency_start emergency_end events completeness s Hplaced Hsorted w) as Hw.
  destruct (resolve_sequence_collisions _ _ _ _ s w) as [[[[out c]|e] s'] w']; [|exact Hw].
  destruct Hw as (-> & Hf & Ho & Hc). cbn [fst snd] in *. split; [done|]. split; [done|].
  split; [done|]. split; [|done]. rewrite Ho. by apply kept_increasing.
Qed.

(** A sample: number 5 in a regular record and in an emergency copy. *)
Definition sample_at (q offset : Z) : PhysicalFlight :=
  mkPhysicalFlight (mkEventKey [] MERGED_TIMELINE_ID q offset (Some q) (Some 1)) ArtifactScope
    (mkOpaque 11 0 []).

Lemma collisions_resolved_witness :
  exists out c,
    run (resolve_sequence_collisions (mkVec [sample_at 4 64; sample_at 5 5000; sample_at 5 128] 3)
           4096 8192 vec_new) tt = (Ok (out, c), tt)
    /\ v_items out = [sample_at 4 64; sample_at 5 128]
    /\ v_items c = [stale_range (sample_at 5 5000)]
    /\ StronglySorted Z.lt (map sequence_of (v_items out)).
Proof.
  eexists _, _. split; [vm_compute; reflexivity|]. split; [reflexivity|]. split; [vm_compute; reflexivity|].
  refine (proj1 (proj2 (proj2 (proj2 (collisions_resolved unit _ _ unit
    (mkVec [sample_at 4 64; sample_at 5 5000; sample_at 5 128] 3) 4096 8192 vec_new tt tt _ _))))).
  - repeat constructor; try (eexists; reflexivity); vm_compute; discriminate.
  - repeat constructor; vm_compute; discriminate.
Defined.
