(* ===== verification/FlightReport.v ===== *)
(** * Reporting what is missing

    Models [add_discontinuity_events] and [push_discontinuity] of
    [qtrace-provider/src/flight/recovery.rs]: the events that stand for the
    completeness ranges and the physical proofs of a recovery. *)

From stdpp Require Import prelude list sorting strings pretty gmap.
From Stdlib Require Import ZArith Lia Strings.Byte.
From S2P Require Import Prelude Prog Control Model Source FlightWire FlightContext FlightScan FlightLoss FlightSort FlightMerge.
Local Open Scope string_scope.
Local Open Scope list_scope.
Local Open Scope Z_scope.

(** ** Discontinuity events *)

Definition discontinuity_cause (cause : CompletenessCause) : DiscontinuityCause :=
  match cause with
  | Lost => Loss
  | Overwritten => Overwrite
  | Checksum => Damage
  | Truncation => DiscTruncation
  | _ => DiscUnknown
  end.

Definition proof_evidence (p : SequenceProof) : option CompletenessRange :=
  captured_sequence_with_cause (sr_first (sp_range p)) (sr_last (sp_range p)) (sp_provenance p)
    (sp_cause p).

(** The evidence a physical proof already stands for. *)
Definition proved (coverage : list CompletenessRange) (evidence : CompletenessRange) : bool :=
  match cr_bounds evidence with
  | InclusiveSequence _ _ => bool_decide (evidence ∈ coverage)
  | HalfOpen _ _ => false
  end.

Definition proof_offset (artifact_bytes : Z) (coordinate : ProofCoordinate) : Z :=
  match coordinate with AtSource offset => offset | AtEof => artifact_bytes end.

Section discontinuity.
Context {W : Type} `{WorkGuard W} `{Allocator W}.
Abbreviation R := (Prog W ProviderError RecoveryContext).

Definition push_discontinuity (events : Vec EventRecord) (evidence : CompletenessRange)
    (source_offset : Z) (artifact : ArtifactDigest) : R (Vec EventRecord) :=
  let! x := get in
  let key := mkEventKey artifact MERGED_TIMELINE_ID (fx_next_ordinal x) source_offset None None in
  let! next := lift_option (checked_add u64_max (fx_next_ordinal x) 1)
    (allocation_error "discontinuity ordinal overflow") in
  modify (set_next_ordinal next) ;!
  guarded_push T_EventRecord events
    (event_record_new key (cr_provenance evidence)
       (PDiscontinuity (mkDiscontinuity (discontinuity_cause (cr_cause evidence)) evidence))).

Definition evidence_of (proof : SequenceProof) : R CompletenessRange :=
  lift_option (proof_evidence proof) (allocation_error "invalid discontinuity proof range").

(** The proofs as completeness ranges, in canonical form. *)
Definition proof_ranges (proofs : list SequenceProof) : R (Vec CompletenessRange) :=
  let! ranges := fallible_vec T_CompletenessRange (zlen proofs) in
  let! ranges := fold_each (imap pair proofs) ranges (fun ranges '(index, proof) =>
    guard_checkpoint (Z.of_nat index) ;!
    let! evidence := evidence_of proof in
    ret (mkVec (v_items ranges ++ [evidence]) (v_capacity ranges))) in
  normalize_completeness ranges.

(** How many events the evidence and the proofs will need. *)
Definition count_turn (coverage : list CompletenessRange) (additional : Z)
    (indexed : nat * CompletenessRange) : R Z :=
  let '(index, evidence) := indexed in
  guard_checkpoint (Z.of_nat index) ;!
  if negb (bool_decide (cr_cause evidence = Retained)) && negb (proved coverage evidence)
  then lift_option (checked_add usize_max additional 1)
         (allocation_error "discontinuity event count overflow")
  else ret additional.

Definition evidence_turn (coverage : list CompletenessRange) (artifact : ArtifactDigest)
    (events : Vec EventRecord) (indexed : nat * CompletenessRange) : R (Vec EventRecord) :=
  let '(index, evidence) := indexed in
  guard_checkpoint (Z.of_nat index) ;!
  if bool_decide (cr_cause evidence = Retained) then ret events
  else if proved coverage evidence then ret events
  else
    match cr_bounds evidence with
    | HalfOpen start _ => push_discontinuity events evidence start artifact
    | InclusiveSequence _ _ =>
        throw (allocation_error "sequence discontinuity lacks a physical proof coordinate")
    end.

Definition discontinuity_proof_turn (artifact : ArtifactDigest) (artifact_bytes : Z)
    (events : Vec EventRecord) (indexed : nat * SequenceProof) : R (Vec EventRecord) :=
  let '(index, proof) := indexed in
  guard_checkpoint (Z.of_nat index) ;!
  let! evidence := evidence_of proof in
  push_discontinuity events evidence (proof_offset artifact_bytes (sp_coordinate proof)) artifact.

Definition add_discontinuity_events (events : Vec EventRecord) (completeness : list CompletenessRange)
    (proofs : list SequenceProof) (artifact : ArtifactDigest) (artifact_bytes : Z) :
    R (Vec EventRecord) :=
  let! evidence_capacity := lift_option (checked_add usize_max (zlen completeness) (zlen proofs))
    (allocation_error "discontinuity evidence count overflow") in
  consume (mkWorkDelta 0 0 evidence_capacity evidence_capacity 0 0) ;!
  let! ranges := proof_ranges proofs in
  fallible_hash_map ProofCoverage T_range_entry (zlen (v_items ranges)) ;!
  let coverage := v_items ranges in
  fold_each (imap pair coverage) tt (fun _ '(index, _) => guard_checkpoint (Z.of_nat index)) ;!
  let! additional := fold_each (imap pair completeness) (zlen proofs) (count_turn coverage) in
  let! event_capacity := lift_option (checked_add usize_max (zlen (v_items events)) additional)
    (allocation_error "discontinuity event count overflow") in
  let! events := flight_reserve_vec T_EventRecord events event_capacity
    "Flight discontinuity event allocation failed" in
  let! events := fold_each (imap pair completeness) events (evidence_turn coverage artifact) in
  fold_each (imap pair proofs) events (discontinuity_proof_turn artifact artifact_bytes).

End discontinuity.

(** ** What the events say *)

(** The event for one piece of evidence. *)
Definition gap_event (artifact : ArtifactDigest) (ordinal : Z) (gap : CompletenessRange * Z) : EventRecord :=
  event_record_new (mkEventKey artifact MERGED_TIMELINE_ID ordinal (snd gap) None None)
    (cr_provenance (fst gap))
    (PDiscontinuity (mkDiscontinuity (discontinuity_cause (cr_cause (fst gap))) (fst gap))).

(** Events numbered from [ordinal] on. *)
Definition gap_events (artifact : ArtifactDigest) (ordinal : Z) (gaps : list (CompletenessRange * Z)) :
    list EventRecord :=
  imap (fun i gap => gap_event artifact (ordinal + Z.of_nat i) gap) gaps.

(** The evidence that gets an event of its own, with its source offset. *)
Definition unproved_gap (coverage : list CompletenessRange) (r : CompletenessRange) :
    option (CompletenessRange * Z) :=
  if bool_decide (cr_cause r = Retained) || proved coverage r then None
  else Some (r, range_first r).

Definition proof_gap (artifact_bytes : Z) (p : SequenceProof) : option (CompletenessRange * Z) :=
  e ← proof_evidence p; Some (e, proof_offset artifact_bytes (sp_coordinate p)).

(** Sequence evidence that no proof stands for makes the report impossible. *)
Definition reportable (coverage : list CompletenessRange) (r : CompletenessRange) : Prop :=
  cr_cause r = Retained \/ proved coverage r = true
  \/ match cr_bounds r with HalfOpen _ _ => True | InclusiveSequence _ _ => False end.

Section report.
Context {W : Type} `{WorkGuard W} `{Allocator W} (artifact : ArtifactDigest).
Implicit Types x : RecoveryContext.

(** The events so far are the first ones followed by those of [gaps]. *)
Definition reported (events : list EventRecord) (x0 : RecoveryContext)
    (gaps : list (CompletenessRange * Z)) (out : Vec EventRecord) (x : RecoveryContext) : Prop :=
  v_items out = events ++ gap_events artifact (fx_next_ordinal x0) gaps
  /\ x = set_next_ordinal (fx_next_ordinal x0 + zlen gaps) x0.

Lemma wp_push_discontinuity events x0 gaps out x evidence offset :
  reported events x0 gaps out x ->
  wp (W := W) (push_discontinuity out evidence offset artifact)
    (fun out' x' => reported events x0 (gaps ++ [(evidence, offset)]) out' x')
    (fun e _ => resource_error e) x.
Proof.
  intros [Ho ->]. apply wp_bind, wp_get. cbn [fx_next_ordinal set_next_ordinal].
  apply wp_bind, wp_option. destruct (checked_add _ _ _) as [next|] eqn:En; [|unfold resource_error; cbn; set_solver].
  apply checked_add_Some in En as [-> _]. apply wp_bind, wp_modify, wp_guarded_push.
  - intros cap. split.
    + cbn [v_items]. rewrite Ho, <- app_assoc. f_equal. unfold gap_events. rewrite imap_app. f_equal.
      cbn. unfold gap_event. cbn. do 3 f_equal. unfold zlen. lia.
    + unfold set_next_ordinal. cbn. f_equal. rewrite zlen_app. unfold zlen. cbn. lia.
  - auto with qtrace.
Qed.

Lemma wp_evidence_turn coverage events x0 gaps out x i r :
  reported events x0 gaps out x ->
  wp (W := W) (evidence_turn coverage artifact out (i, r))
    (fun out' x' => reportable coverage r
       /\ reported events x0 (gaps ++ option_list (unproved_gap coverage r)) out' x')
    (fun e _ => resource_error e) x.
Proof.
  intros Hrep. unfold evidence_turn, unproved_gap, reportable.
  apply wp_bind, wp_checkpoint; [|auto with qtrace].
  destruct (bool_decide (cr_cause r = Retained)) eqn:Er; cbn [orb option_list].
  { apply bool_decide_eq_true in Er. apply wp_ret. rewrite app_nil_r. auto. }
  destruct (proved coverage r) eqn:Ep; cbn [option_list].
  { apply wp_ret. rewrite app_nil_r. auto. }
  destruct (cr_bounds r) as [a b|a b] eqn:Eb.
  - apply wp_throw. unfold resource_error. cbn. set_solver.
  - eapply wp_mono; [by apply wp_push_discontinuity| |done]. intros out' x' Hr. split; [auto|].
    unfold range_first. by rewrite Eb.
Qed.

Lemma wp_proof_turn artifact_bytes events x0 gaps out x i p :
  reported events x0 gaps out x -> is_Some (proof_evidence p) ->
  wp (W := W) (discontinuity_proof_turn artifact artifact_bytes out (i, p))
    (fun out' x' => reported events x0 (gaps ++ option_list (proof_gap artifact_bytes p)) out' x')
    (fun e _ => resource_error e) x.
Proof.
  intros Hrep [e He]. unfold discontinuity_proof_turn, proof_gap, evidence_of.
  apply wp_bind, wp_checkpoint; [|auto with qtrace]. apply wp_bind, wp_option. rewrite He. cbn.
  by apply wp_push_discontinuity.
Qed.

Lemma omap_snoc {A B} (f : A -> option B) l y : omap f (l ++ [y]) = omap f l ++ option_list (f y).
Proof. rewrite omap_app. cbn. by destruct (f y). Qed.

Lemma proof_evidence_wf p e : range_ok (sp_range p) -> proof_evidence p = Some e -> range_wf e.
Proof.
  intros [Hr Hr64]. unfold proof_evidence, captured_sequence_with_cause. case_match; [done|].
  intros [= <-]. cbn. unfold in_u64. lia.
Qed.

Lemma proof_evidence_some p : range_ok (sp_range p) -> is_Some (proof_evidence p).
Proof.
  intros [Hr _]. unfold proof_evidence, captured_sequence_with_cause.
  by replace (_ >? _) with false by lia.
Qed.

Lemma wp_proof_ranges proofs x :
  Forall range_ok (map sp_range proofs) ->
  wp (W := W) (proof_ranges proofs)
    (fun v x' => x' = x /\ v_items v = coalesced (stable_sort range_number (omap proof_evidence proofs)))
    (fun e _ => resource_error e) x.
Proof.
  intros Hok. rewrite Forall_map, Forall_forall in Hok. apply wp_bind.
  eapply wp_mono; [by apply (settles_vec _ _ (fun v => v_items v = []))| |by intros e s' []].
  intros v0 x' [-> Hv0]. apply wp_bind.
  eapply wp_mono; [apply (wp_fold_indexed (fun before v => v_items v = omap proof_evidence before) _ _ _
    (fun e _ => resource_error e))| |done].
  - done.
  - intros before p after v Hp Hv. destruct (proof_evidence_some p) as [e He];
      [apply Hok; rewrite Hp; set_solver|].
    apply wp_bind, wp_checkpoint; [|auto with qtrace]. apply wp_bind, wp_option. rewrite He.
    apply wp_ret. split; [done|]. cbn [v_items]. by rewrite omap_snoc, He, Hv.
  - intros v x' [-> Hv]. eapply wp_mono; [apply settles_normalize| |by intros e s' []].
    + rewrite Hv. apply Forall_forall. intros e (p & Hp & He)%list_elem_of_omap.
      eapply proof_evidence_wf; [|exact He]. by apply Hok.
    + intros v' x' [-> Hv']. by rewrite Hv', Hv.
Qed.

(** The gaps a report lists: the evidence without a proof, then the proofs. *)
Definition gaps_of (completeness : list CompletenessRange) (proofs : list SequenceProof)
    (artifact_bytes : Z) : list (CompletenessRange * Z) :=
  let coverage := coalesced (stable_sort range_number (omap proof_evidence proofs)) in
  omap (unproved_gap coverage) completeness ++ omap (proof_gap artifact_bytes) proofs.

Lemma wp_add_discontinuities events completeness proofs artifact_bytes x :
  Forall range_ok (map sp_range proofs) ->
  wp (W := W) (add_discontinuity_events events completeness proofs artifact artifact_bytes)
    (fun out x' =>
       Forall (reportable (coalesced (stable_sort range_number (omap proof_evidence proofs)))) completeness
       /\ reported (v_items events) x (gaps_of completeness proofs artifact_bytes) out x'
       /\ zlen (v_items out) <= usize_max)
    (fun e _ => resource_error e) x.
Proof.
  intros Hok. set (coverage := coalesced (stable_sort range_number (omap proof_evidence proofs))).
  assert (forall d, resource_error (allocation_error d)) as Hres
    by (intros d; unfold resource_error; cbn; set_solver).
  apply wp_bind, wp_option. case_match; [|apply Hres].
  apply wp_bind, wp_charge; [|auto with qtrace]. apply wp_bind.
  eapply wp_mono; [by apply wp_proof_ranges| |done]. intros v x' [-> Hv]. cbv zeta. rewrite Hv. fold coverage.
  apply wp_bind, (wp_reserve_map _); [|done]. apply wp_bind.
  eapply wp_mono; [apply (wp_fold_indexed (fun _ _ => True) _ _ _ (fun e _ => resource_error e)); [done|]| |done].
  { intros before r after [] _ _. apply wp_checkpoint; auto with qtrace. }
  intros [] x' [-> _]. apply wp_bind.
  eapply wp_mono; [apply (wp_fold_indexed (fun before n => n = zlen proofs
    + zlen (omap (unproved_gap coverage) before)) _ _ _ (fun e _ => resource_error e))| |done].
  { unfold zlen. cbn. lia. }
  { intros before r after n _ Hn. apply wp_bind, wp_checkpoint; [|auto with qtrace].
    rewrite omap_snoc, zlen_app, Z.add_assoc, <- Hn. clear Hn. unfold unproved_gap. rewrite <- negb_orb.
    destruct (_ || _); cbn [negb option_list].
    - apply wp_ret. split; [done|]. unfold zlen. cbn. lia.
    - apply wp_option. destruct (checked_add usize_max n 1) eqn:E; [|apply Hres].
      by apply checked_add_Some in E as [-> _]. }
  intros additional x' [-> Hadd]. apply wp_bind, wp_option.
  destruct (checked_add usize_max (zlen (v_items events)) additional) eqn:Hroom; [|apply Hres].
  apply checked_add_Some in Hroom as [_ Hroom]. apply wp_bind.
  eapply wp_mono; [by apply (settles_reserve _ _ _ _ (fun v => v_items v = v_items events))| |by intros e s' []].
  intros out x' [-> Hout]. apply wp_bind.
  eapply wp_mono; [apply (wp_fold_over (fun before out x' => Forall (reportable coverage) before
    /\ reported (v_items events) x (omap (unproved_gap coverage) before) out x') _ _ _
    (fun e _ => resource_error e))| |done].
  - split; [constructor|]. unfold reported, gap_events. cbn. rewrite app_nil_r. split; [done|].
    destruct x. unfold set_next_ordinal, zlen. cbn. f_equal. lia.
  - intros before r after out' x' _ [Hf Hrep]. eapply wp_mono; [by apply wp_evidence_turn| |done].
    intros out'' x'' [Hr Hrep']. rewrite omap_snoc. split; [|done]. apply Forall_app. split; [done|by constructor].
  - intros out' x' [Hf Hrep]. eapply wp_mono; [apply (wp_fold_over (fun before out x' =>
      reported (v_items events) x (omap (unproved_gap coverage) completeness
        ++ omap (proof_gap artifact_bytes) before) out x') _ _ _ (fun e _ => resource_error e))| |done].
    + by rewrite app_nil_r.
    + intros before p after out'' x'' Hp Hrep'. eapply wp_mono; [apply wp_proof_turn; [done|]| |done].
      * apply proof_evidence_some. rewrite Forall_map, Forall_forall in Hok. apply Hok. rewrite Hp. set_solver.
      * intros o y Hy. by rewrite omap_snoc, app_assoc.
    + intros o y Hy. split; [done|]. split; [done|]. destruct Hy as [-> _]. unfold gap_events.
      assert (zlen (omap (proof_gap artifact_bytes) proofs) <= zlen proofs).
      { unfold zlen. apply Nat2Z.inj_le. clear. induction proofs as [|p proofs IH]; [done|]. cbn. case_match; cbn; lia. }
      rewrite zlen_app. unfold zlen at 2. rewrite length_imap, length_app. unfold zlen in *. lia.
Qed.

End report.

(** An event that reports coordinate [c] of a range of the kind of [r]. *)
Definition reports (r : CompletenessRange) (c : Z) (e : EventRecord) : Prop :=
  exists d, ev_payload e = PDiscontinuity d /\ same_kind r (di_evidence d)
    /\ range_contains (di_evidence d) c = true
    /\ di_cause d = discontinuity_cause (cr_cause r).

Lemma gap_event_reports artifact ordinal gaps r c g :
  g ∈ gaps -> same_kind r (fst g) -> range_contains (fst g) c = true ->
  exists e, e ∈ gap_events artifact ordinal gaps /\ reports r c e.
Proof.
  intros (i & Hi)%list_elem_of_lookup_1 Hk Hc. exists (gap_event artifact (ordinal + Z.of_nat i) g). split.
  - apply list_elem_of_lookup_2 with i. unfold gap_events. by rewrite list_lookup_imap, Hi.
  - eexists. split; [done|]. cbn. split; [done|]. split; [done|]. by destruct Hk as (_ & -> & _).
Qed.

(** Every point of an unretained range is reported by some gap. *)
Lemma gaps_cover completeness proofs artifact artifact_bytes ordinal r c :
  Forall range_ok (map sp_range proofs) ->
  Forall (reportable (coalesced (stable_sort range_number (omap proof_evidence proofs)))) completeness ->
  r ∈ completeness -> cr_cause r <> Retained -> range_contains r c = true ->
  exists e, e ∈ gap_events artifact ordinal (gaps_of completeness proofs artifact_bytes) /\ reports r c e.
Proof.
  intros Hproofs Hrep Hr Hret Hc. rewrite Forall_forall in Hrep.
  pose proof (Hrep r Hr) as [?|[Hp|Hb]]; [done| |].
  - unfold proved in Hp. destruct (cr_bounds r) eqn:Eb; [|done]. apply bool_decide_eq_true in Hp.
    assert (covers (omap proof_evidence proofs) r c) as (e & He & Hk & Hce).
    { apply coalesced_canonical; [|by exists r].
      apply Forall_forall. intros e (p & Hin & He)%list_elem_of_omap. rewrite Forall_map, Forall_forall in Hproofs.
      eapply proof_evidence_wf; [by apply Hproofs|done]. }
    apply list_elem_of_omap in He as (p & Hin & He).
    eapply (gap_event_reports _ _ _ _ _ (e, proof_offset artifact_bytes (sp_coordinate p))); [|done|done].
    unfold gaps_of. apply elem_of_app. right. apply list_elem_of_omap. exists p.
    split; [done|]. unfold proof_gap. by rewrite He.
  - set (coverage := coalesced (stable_sort range_number (omap proof_evidence proofs))) in *.
    eapply (gap_event_reports _ _ _ _ _ (r, range_first r)); [|done|done].
    unfold gaps_of. apply elem_of_app. left. apply list_elem_of_omap. exists r. split; [done|].
    unfold unproved_gap, proved. rewrite bool_decide_eq_false_2 by done. by destruct (cr_bounds r).
Qed.

(** C35: nothing missing goes unreported.  When [add_discontinuity_events]
    succeeds it has appended one discontinuity event per piece of evidence
    without a proof and one per proof, numbered on from the context's ordinal;
    every coordinate of every completeness range other than a retained one is
    covered by an appended event with the same domain, cause and provenance;
    and each appended event carries a range of the report or of a proof. *)
Theorem gaps_reported (W : Type) (G : WorkGuard W) (A : Allocator W) (events : Vec EventRecord)
    (completeness : list CompletenessRange) (proofs : list SequenceProof) (artifact : ArtifactDigest)
    (artifact_bytes : Z) (x : RecoveryContext) (w : W)
    (Hproofs : Forall range_ok (map sp_range proofs)) :
  match add_discontinuity_events events completeness proofs artifact artifact_bytes x w with
  | (Ok out, x', _) =>
      exists added,
        v_items out = v_items events ++ added
        /\ fx_next_ordinal x' = fx_next_ordinal x + zlen added
        /\ map (fun e => ek_record_ordinal (ev_key e)) added
           = imap (fun i _ => fx_next_ordinal x + Z.of_nat i) added
        /\ (forall r c, r ∈ completeness -> cr_cause r <> Retained -> range_contains r c = true ->
              exists e, e ∈ added /\ reports r c e)
        /\ (forall e, e ∈ added -> exists d, ev_payload e = PDiscontinuity d
              /\ (di_evidence d ∈ completeness \/ di_evidence d ∈ omap proof_evidence proofs))
  | (Err e, _, _) => resource_error e
  end.
Proof.
  pose proof (wp_add_discontinuities artifact events completeness proofs artifact_bytes x Hproofs w) as Hw.
  destruct (add_discontinuity_events _ _ _ _ _ x w) as [[[out|e] x'] w']; [|exact Hw].
  destruct Hw as [Hrep [[Ho ->] _]]. set (gaps := gaps_of completeness proofs artifact_bytes) in *.
  exists (gap_events artifact (fx_next_ordinal x) gaps). split; [done|]. unfold gap_events.
  split; [unfold set_next_ordinal, zlen; cbn; by rewrite length_imap|]. split.
  { change (map ?f ?l) with (f <$> l). apply list_eq. intros i.
    rewrite list_lookup_fmap, !list_lookup_imap. by destruct (gaps !! i). }
  fold (gap_events artifact (fx_next_ordinal x) gaps). split.
  - intros r c Hr Hret Hc. by eapply gaps_cover.
  - intros e (i & Hi)%list_elem_of_lookup_1. unfold gap_events in Hi. rewrite list_lookup_imap in Hi.
    destruct (gaps !! i) as [g|] eqn:Eg; [|done]. injection Hi as <-. eexists. split; [done|]. cbn.
    apply list_elem_of_lookup_2 in Eg. unfold gaps, gaps_of in Eg.
    apply elem_of_app in Eg as [(r & Hr & Hg)%list_elem_of_omap|(p & Hp & Hg)%list_elem_of_omap].
    + left. unfold unproved_gap in Hg. case_match; [done|]. by injection Hg as <-.
    + right. unfold proof_gap in Hg. destruct (proof_evidence p) as [e|] eqn:He; [|done].
      injection Hg as <-. apply list_elem_of_omap. by exists p.
Qed.

Lemma gaps_reported_witness :
  let lost := mkRange CapturedSequence (InclusiveSequence 3 6) ProvUnknown Lost in
  let kept := mkRange CapturedSequence (InclusiveSequence 1 2) Captured Retained in
  let damaged := mkRange SourceBytes (HalfOpen 64 128) Damaged Checksum in
  let proofs := [mkSequenceProof (mkSequenceRange 3 4) Lost ProvUnknown (AtSource 4096);
                 mkSequenceProof (mkSequenceRange 5 6) Lost ProvUnknown AtEof] in
  let x := mkRecoveryContext counters_default 9 in
  exists out x',
    run (add_discontinuity_events vec_new [kept; lost; damaged] proofs [] 8192) x = (Ok out, x')
    /\ map (fun e => ek_source_offset (ev_key e)) (v_items out) = [64; 4096; 8192]
    /\ (exists e, e ∈ v_items out /\ reports lost 5 e).
Proof.
  intros lost kept damaged proofs x.
  assert (exists out x',
    add_discontinuity_events vec_new [kept; lost; damaged] proofs [] 8192 x tt = (Ok out, x', tt)
    /\ map (fun e => ek_source_offset (ev_key e)) (v_items out) = [64; 4096; 8192]) as (out & x' & Hrun & Hmap).
  { eexists _, _. split; [vm_compute; reflexivity|vm_compute; reflexivity]. }
  exists out, x'. split; [unfold run; by rewrite Hrun|]. split; [exact Hmap|].
  pose proof (gaps_reported unit _ _ vec_new [kept; lost; damaged] proofs [] 8192 x tt) as Hg.
  rewrite Hrun in Hg. destruct Hg as (added & Ho & _ & _ & Hrep & _).
  - repeat constructor; vm_compute; discriminate.
  - cbn [v_items vec_new app] in Ho. rewrite Ho. apply Hrep; [|discriminate|reflexivity]. right. left.
Defined.
