(* ===== verification/FlightEmergency.v ===== *)
(** * Emergency slots

    Models [qtrace-provider/src/flight/recovery/emergency.rs]: the cells signal
    handlers publish two to a slot, their validation, the choice between the
    two cells of a slot and the records recovered from them. *)

From stdpp Require Import prelude list sorting strings pretty gmap.
From Stdlib Require Import ZArith Lia Strings.Byte.
From S2P Require Import Prelude Prog Control Model Source FlightWire FlightContext FlightScan FlightLoss FlightSort FlightMerge FlightReport.
Local Open Scope string_scope.
Local Open Scope list_scope.
Local Open Scope Z_scope.

Record EmergencyStatus := mkEmergencyStatus {
  es_has_coverage : bool;
  es_has_damage : bool;
  es_has_incomplete : bool
}.

Definition EmergencyStatus_default : EmergencyStatus := mkEmergencyStatus false false false.
Definition set_coverage (st : EmergencyStatus) : EmergencyStatus :=
  mkEmergencyStatus true (es_has_damage st) (es_has_incomplete st).
Definition set_damage (st : EmergencyStatus) : EmergencyStatus :=
  mkEmergencyStatus (es_has_coverage st) true (es_has_incomplete st).
Definition set_incomplete (st : EmergencyStatus) : EmergencyStatus :=
  mkEmergencyStatus (es_has_coverage st) (es_has_damage st) true.

Record EmergencyCandidate := mkCandidate {
  ec_cell : EmergencyCell;
  ec_offset : Z;
  ec_raw : bytes
}.

(** The checksum older runtimes wrote: coverage cells included their code. *)
Definition emergency_legacy_checksum (cell : EmergencyCell) : Z :=
  let value := FNV_OFFSET in
  let value := fnv32_update value (le_bytes 4 (em_kind cell)) in
  let value := fnv32_update value (le_bytes 4 (em_tid cell)) in
  let value := fnv32_update value (le_bytes 8 (em_sequence cell)) in
  let value := fnv32_update value (le_bytes 8 (em_pc cell)) in
  let value := fnv32_update value (le_bytes 8 (em_sp cell)) in
  let value := fnv32_update value (le_bytes 8 (em_fault_address cell)) in
  let value := fnv32_update value (le_bytes 4 (em_signal_number cell)) in
  let value := fnv32_update value (le_bytes 4 (em_signal_code cell)) in
  fnv32_update value (le_bytes 4 (and_not32 (em_flags cell) EMERGENCY_COMMITTED)).

Definition pinned_termination_pair (older newer : EmergencyCell) : bool :=
  let intended_signal :=
    if (em_signal_number older =? 129) || (em_signal_number older =? 130)
       || (em_signal_number older =? 138)
    then try_from u32_max (em_fault_address older)
    else if em_signal_number older =? 131 then Some (em_signal_code older)
    else None in
  (em_kind older =? 14)
  && ((11 <=? em_kind newer) && (em_kind newer <=? 13))
  && (em_tid older =? em_tid newer)
  && bool_decide (intended_signal = Some (em_signal_number newer))
  && (Z.land (and_not32 (em_flags newer) EMERGENCY_COMMITTED) 0xffff =? 1).

(** [cell.flags & EMERGENCY_COMMITTED == 0 || version == 0 || version % 2 != 0] *)
Definition unpublished (cell : EmergencyCell) : bool :=
  (Z.land (em_flags cell) EMERGENCY_COMMITTED =? 0) || (em_version cell =? 0)
  || negb (em_version cell mod 2 =? 0).

Definition checksum_matches (cell : EmergencyCell) : bool :=
  (em_checksum_inverse cell =? Z.lxor u32_max (em_checksum cell))
  && ((em_checksum cell =? emergency_checksum cell)
      || (em_checksum cell =? emergency_legacy_checksum cell)).

Definition pointer_maximum (superblock : Superblock) : Z :=
  if sb_pointer_width superblock =? 4 then u32_max else u64_max.

(** Fields no runtime writes. *)
Definition malformed (superblock : Superblock) (cell : EmergencyCell) : bool :=
  negb ((1 <=? em_kind cell) && (em_kind cell <=? 15))
  || (em_tid cell =? 0)
  || (em_sequence cell =? 0)
  || ((em_kind cell =? 15)
      && negb (and_not32 (and_not32 (em_flags cell) EMERGENCY_COMMITTED) KNOWN_INCOMPLETE_FLAGS =? 0))
  || (em_pc cell >? pointer_maximum superblock)
  || (em_sp cell >? pointer_maximum superblock)
  || (em_fault_address cell >? pointer_maximum superblock).

Section cells.
Context {W : Type} `{WorkGuard W} `{Allocator W} {S : Type}.
Abbreviation M := (Prog W ProviderError S).

(** The source range of one cell. *)
Definition push_cell_range (completeness : Vec CompletenessRange) (offset : Z) (p : Provenance)
    (c : CompletenessCause) : M (Vec CompletenessRange) :=
  push_source_range completeness offset (offset + FLIGHT_EMERGENCY_RECORD_BYTES) p c.

Definition evaluate_emergency_cell (slot : bytes) (start offset : Z) (superblock : Superblock)
    (completeness : Vec CompletenessRange) (status : EmergencyStatus) :
    M (option EmergencyCandidate * Vec CompletenessRange * EmergencyStatus) :=
  let! stop := lift_option (checked_add usize_max start FLIGHT_EMERGENCY_RECORD_BYTES)
    (allocation_error "emergency cell bounds overflow") in
  let! raw := lift_option (slice_get slot start stop)
    (allocation_error "invalid emergency cell bounds") in
  if forallb is_zero raw then ret (None, completeness, status)
  else
    let! cell := lift_result (parse_emergency_cell raw offset) in
    if unpublished cell then
      let! completeness := push_cell_range completeness offset ProvUnknown Incomplete in
      ret (None, completeness, set_incomplete status)
    else if negb (checksum_matches cell) then
      let! completeness := push_cell_range completeness offset Damaged Checksum in
      ret (None, completeness, set_damage status)
    else if malformed superblock cell then
      let! completeness := push_cell_range completeness offset Damaged Incomplete in
      ret (None, completeness, set_incomplete (set_damage status))
    else ret (Some (mkCandidate cell offset raw), completeness, status).

(** [newer.version == older.version.saturating_add(2)], or a pinned pair, with
    sequence numbers in order. *)
Definition successive (older newer : EmergencyCell) : bool :=
  (em_sequence newer >? em_sequence older)
  && ((em_version newer =? saturating_add u32_max (em_version older) 2)
      || pinned_termination_pair older newer).

Definition select_emergency (first second : option EmergencyCandidate)
    (completeness : Vec CompletenessRange) (status : EmergencyStatus) :
    M (list EmergencyCandidate * Vec CompletenessRange * EmergencyStatus) :=
  match first, second with
  | Some lower, Some upper =>
      if em_version (ec_cell lower) =? em_version (ec_cell upper) then
        let! completeness := push_cell_range completeness (ec_offset lower) Damaged Incomplete in
        let! completeness := push_cell_range completeness (ec_offset upper) Damaged Incomplete in
        ret ([], completeness, set_incomplete (set_damage status))
      else
        let '(older, newer) :=
          if em_version (ec_cell lower) <=? em_version (ec_cell upper) then (lower, upper)
          else (upper, lower) in
        if successive (ec_cell older) (ec_cell newer)
        then ret ([older; newer], completeness, status)
        else
          let! completeness := push_cell_range completeness (ec_offset older) ProvUnknown Stale in
          ret ([newer], completeness, status)
  | Some one, None | None, Some one => ret ([one], completeness, status)
  | None, None => ret ([], completeness, status)
  end.

End cells.

(** The mutable arguments of [scan_emergencies]. *)
Record SlotState := mkSlotState {
  sl_events : Vec PhysicalFlight;
  sl_completeness : Vec CompletenessRange;
  sl_tids : Vec Z;
  sl_known_tids : gset Z;
  sl_status : EmergencyStatus
}.

Definition EMERGENCY_PAYLOAD_BYTES : Z := 52.

(** The record of a candidate. *)
Definition emergency_record (artifact : ArtifactDigest) (ordinal : Z) (c : EmergencyCandidate) :
    PhysicalFlight :=
  mkPhysicalFlight
    (mkEventKey artifact MERGED_TIMELINE_ID ordinal (ec_offset c) (Some (em_sequence (ec_cell c)))
       (Some (em_tid (ec_cell c))))
    ArtifactScope
    (mkOpaque (em_kind (ec_cell c)) 0 (take (Z.to_nat EMERGENCY_PAYLOAD_BYTES) (ec_raw c))).

Section scan.
Context {W : Type} `{WorkGuard W} `{Allocator W} (source : ReadAtSource).
Abbreviation R := (Prog W ProviderError RecoveryContext).

Definition candidate_turn (artifact : ArtifactDigest) (regular_sequences : gset Z) (st : SlotState)
    (candidate : EmergencyCandidate) : R SlotState :=
  let cell := ec_cell candidate in
  if bool_decide (em_sequence cell ∈ regular_sequences) then
    let! stop := lift_option (checked_add u64_max (ec_offset candidate) FLIGHT_EMERGENCY_RECORD_BYTES)
      (allocation_error "emergency stale range overflow") in
    let! completeness := push_source_range (sl_completeness st) (ec_offset candidate) stop
      ProvUnknown Stale in
    ret (mkSlotState (sl_events st) completeness (sl_tids st) (sl_known_tids st) (sl_status st))
  else
    let status := if em_kind cell =? 15 then set_coverage (sl_status st) else sl_status st in
    let! tids :=
      if bool_decide (em_tid cell ∈ sl_known_tids st) then ret (sl_tids st, sl_known_tids st)
      else
        flight_reserve_map KnownTids T_tid_entry (Z.of_nat (size (sl_known_tids st))) 1
          "Flight emergency TID allocation failed" ;!
        let! tids := guarded_push T_u32 (sl_tids st) (em_tid cell) in
        ret (tids, {[em_tid cell]} ∪ sl_known_tids st) in
    consume (mkWorkDelta 0 0 1 0 0 0) ;!
    fallible_vec (A := byte) T_u8 EMERGENCY_PAYLOAD_BYTES ;!
    lift_option (slice_get (ec_raw candidate) 0 EMERGENCY_PAYLOAD_BYTES)
      (allocation_error "invalid emergency payload bounds") ;!
    lift_option (try_from u16_max (em_kind cell))
      (allocation_error "emergency type conversion failed") ;!
    let! x := get in
    let! next := lift_option (checked_add u64_max (fx_next_ordinal x) 1)
      (allocation_error "emergency ordinal overflow") in
    modify (set_next_ordinal next) ;!
    let! events := guarded_push T_PhysicalRecord (sl_events st)
      (emergency_record artifact (fx_next_ordinal x) candidate) in
    modify count_seen ;!
    ret (mkSlotState events (sl_completeness st) (fst tids) (snd tids) status).

Definition slot_turn (superblock : Superblock) (artifact : ArtifactDigest)
    (regular_sequences : gset Z) (st : SlotState) (index : nat) : R SlotState :=
  consume WorkDelta_default ;!
  let! slot_offset := indexed_offset (rg_offset (sb_emergencies superblock)) (Z.of_nat index)
    FLIGHT_EMERGENCY_SLOT_BYTES "emergency slot offset overflow" in
  let! slot := read_array source FLIGHT_EMERGENCY_SLOT_BYTES slot_offset "flight.emergency" None in
  if forallb is_zero slot then ret st
  else
    let! one := evaluate_emergency_cell slot 0 slot_offset superblock (sl_completeness st)
      (sl_status st) in
    let '(first, completeness, status) := one in
    let! two := evaluate_emergency_cell slot FLIGHT_EMERGENCY_RECORD_BYTES
      (slot_offset + FLIGHT_EMERGENCY_RECORD_BYTES) superblock completeness status in
    let '(second, completeness, status) := two in
    let! chosen := select_emergency first second completeness status in
    let '(selected, completeness, status) := chosen in
    fold_each selected
      (mkSlotState (sl_events st) completeness (sl_tids st) (sl_known_tids st) status)
      (candidate_turn artifact regular_sequences).

Definition scan_emergencies (superblock : Superblock) (artifact : ArtifactDigest)
    (events : Vec PhysicalFlight) (completeness : Vec CompletenessRange) (tids : Vec Z)
    (known_tids regular_sequences : gset Z) : R SlotState :=
  fold_each (seq 0 (Z.to_nat (sb_emergency_count superblock)))
    (mkSlotState events completeness tids known_tids EmergencyStatus_default)
    (slot_turn superblock artifact regular_sequences).

End scan.

(** ** What a slot holds *)

Section held.
Context (content : bytes) (superblock : Superblock).

(** The candidate of the cell at [offset], if the cell is fit to be one. *)
Definition cell_at (offset : Z) : option EmergencyCandidate :=
  let raw := slice content offset FLIGHT_EMERGENCY_RECORD_BYTES in
  match parse_emergency_cell raw offset with
  | Ok cell =>
      if forallb is_zero raw || unpublished cell || negb (checksum_matches cell)
         || malformed superblock cell
      then None else Some (mkCandidate cell offset raw)
  | Err _ => None
  end.

(** The cells of a slot that are recovered. *)
Definition chosen (first second : option EmergencyCandidate) : list EmergencyCandidate :=
  match first, second with
  | Some lower, Some upper =>
      if em_version (ec_cell lower) =? em_version (ec_cell upper) then []
      else
        let '(older, newer) :=
          if em_version (ec_cell lower) <=? em_version (ec_cell upper) then (lower, upper)
          else (upper, lower) in
        if successive (ec_cell older) (ec_cell newer) then [older; newer] else [newer]
  | _, _ => option_list first ++ option_list second
  end.

Definition slot_offset_of (index : nat) : Z :=
  rg_offset (sb_emergencies superblock) + Z.of_nat index * FLIGHT_EMERGENCY_SLOT_BYTES.

Definition slot_candidates (index : nat) : list EmergencyCandidate :=
  chosen (cell_at (slot_offset_of index))
    (cell_at (slot_offset_of index + FLIGHT_EMERGENCY_RECORD_BYTES)).

(** Emergency cells never replace a committed regular sequence. *)
Definition surviving (regular : gset Z) (cs : list EmergencyCandidate) : list EmergencyCandidate :=
  List.filter (fun c => negb (bool_decide (em_sequence (ec_cell c) ∈ regular))) cs.

End held.

Lemma step_finish {A} (c : WireCursor) (k : unit -> Prog unit ProviderError WireCursor A) :
  wire_ok c -> wire_rest c = [] -> run (bind wire_finish k) c = run (k tt) c.
Proof.
  intros [Hp _] Hr. unfold wire_rest in Hr. apply (f_equal length) in Hr. rewrite length_drop in Hr. cbn in Hr.
  unfold wire_finish, run, bind. cbn.
  by replace (wc_position c =? zlen (wc_bytes c)) with true by (unfold zlen in *; lia).
Qed.

Lemma emergency_cell_total raw offset :
  zlen raw = FLIGHT_EMERGENCY_RECORD_BYTES ->
  exists cell, parse_emergency_cell raw offset = Ok cell /\ in_u32 (em_kind cell)
    /\ in_u32 (em_tid cell) /\ in_u64 (em_sequence cell).
Proof.
  intros H. wire_consts.
  take_field 4%nat kind H. take_field 4%nat tid H. take_field 8%nat sequence H. take_field 8%nat pc H.
  take_field 8%nat sp H. take_field 8%nat fault H. take_field 4%nat number H. take_field 4%nat code H.
  take_field 4%nat flags H. take_field 4%nat checksum H. take_field 4%nat inverse H. take_field 4%nat version H.
  match type of H with zlen ?r = _ => destruct r; [|discriminate H || (unfold zlen in H; cbn in H; lia)] end.
  exists (mkEmergencyCell kind tid sequence pc sp fault number code flags checksum inverse version).
  assert (in_u32 kind /\ in_u32 tid /\ in_u64 sequence /\ in_u64 pc /\ in_u64 sp /\ in_u64 fault
    /\ in_u32 number /\ in_u32 code /\ in_u32 flags /\ in_u32 checksum /\ in_u32 inverse /\ in_u32 version)
    as (?&?&?&?&?&?&?&?&?&?&?&?) by (machine; lia). split; [|done].
  unfold parse_emergency_cell, parse_with. open_parse Hc Hr. do 12 wire_read Hc Hr.
  by rewrite step_finish.
Qed.

Lemma slice_slice bs o n start size :
  0 <= o -> 0 <= start -> 0 <= size -> start + size <= n ->
  slice (slice bs o n) start size = slice bs (o + start) size.
Proof.
  intros. unfold slice. rewrite (Z2Nat.inj_add o start), <- drop_drop by lia.
  rewrite !take_drop_commute, take_take. do 3 f_equal. lia.
Qed.

(** No incident so far. *)
Definition clean (st : EmergencyStatus) : bool := negb (es_has_damage st) && negb (es_has_incomplete st).

(** Ranges appended to the report; only stale ones while the status is clean. *)
Definition incidents (c c' : list CompletenessRange) (st st' : EmergencyStatus) : Prop :=
  exists added, c' = c ++ added /\ Forall range_wf added
    /\ (clean st' = true -> clean st = true /\ Forall (fun r => cr_cause r = Stale) added).

Lemma incidents_refl c st : incidents c c st st.
Proof. exists []. rewrite app_nil_r. split; [done|]. split; [constructor|]. intros ->. split; [done|constructor]. Qed.

Lemma incidents_trans c1 c2 c3 s1 s2 s3 :
  incidents c1 c2 s1 s2 -> incidents c2 c3 s2 s3 -> incidents c1 c3 s1 s3.
Proof.
  intros (a & -> & Ha & Hs) (b & -> & Hb & Ht). exists (a ++ b). rewrite app_assoc. split; [done|].
  split; [by apply Forall_app|]. intros H3. destruct (Ht H3) as [H2 Hb']. destruct (Hs H2) as [H1 Ha'].
  split; [done|]. by apply Forall_app.
Qed.

Section held_rules.
Context {W : Type} `{WorkGuard W} `{Allocator W} {S : Type} (content : bytes) (superblock : Superblock).
Context (Hbound : zlen content <= u64_max).
Implicit Types s : S.
Abbreviation settles p Q s :=
  (wp (W := W) p (fun a s' => s' = s /\ Q a) (fun e s' => s' = s /\ resource_error e) s).

Lemma settles_cell_range c offset p k st st' s :
  0 <= offset -> offset + FLIGHT_EMERGENCY_RECORD_BYTES <= zlen content ->
  (clean st' = true -> clean st = true /\ k = Stale) ->
  settles (push_cell_range c offset p k) (fun c' => incidents (v_items c) (v_items c') st st') s.
Proof.
  intros Ho Hle Hst. wire_consts. unfold push_cell_range, push_source_range, source_bytes_with_cause, half_open.
  wire_consts. replace (offset >? offset + 64) with false by lia. apply wp_bind, wp_option.
  eapply settles_push. intros cap. cbn [v_items]. exists [mkRange SourceBytes (HalfOpen offset (offset + 64)) p k].
  split; [done|]. split.
  - repeat constructor; cbn; unfold in_u64; lia.
  - intros Hc. destruct (Hst Hc) as [? ->]. split; [done|]. by repeat constructor.
Qed.

Lemma settles_evaluate slot_offset start c st s :
  0 <= slot_offset -> 0 <= start -> start + FLIGHT_EMERGENCY_RECORD_BYTES <= FLIGHT_EMERGENCY_SLOT_BYTES ->
  slot_offset + FLIGHT_EMERGENCY_SLOT_BYTES <= zlen content ->
  settles (evaluate_emergency_cell (slice content slot_offset FLIGHT_EMERGENCY_SLOT_BYTES) start
             (slot_offset + start) superblock c st)
    (fun r => let '(candidate, c', st') := r in
       candidate = cell_at content superblock (slot_offset + start)
       /\ incidents (v_items c) (v_items c') st st' /\ es_has_coverage st' = es_has_coverage st) s.
Proof.
  intros Ho Hs Hin Hle. pose proof Hle as Hle'. unfold evaluate_emergency_cell.
  rewrite checked_add_ok by (wire_consts; unfold usize_max, u64_max in *; lia). apply wp_bind, wp_option.
  assert (zlen (slice content slot_offset FLIGHT_EMERGENCY_SLOT_BYTES) = FLIGHT_EMERGENCY_SLOT_BYTES) as Hlen
    by (apply length_slice; wire_consts; lia).
  set (raw := slice content (slot_offset + start) FLIGHT_EMERGENCY_RECORD_BYTES).
  assert (slice_get (slice content slot_offset FLIGHT_EMERGENCY_SLOT_BYTES) start
    (start + FLIGHT_EMERGENCY_RECORD_BYTES) = Some raw) as ->.
  { unfold slice_get. rewrite Hlen. wire_consts.
    replace ((start <=? start + 64) && (start + 64 <=? 128)) with true by lia.
    f_equal. subst raw. replace (start + 64 - start) with 64 by lia. apply slice_slice; lia. }
  apply wp_bind, wp_option.
  assert (zlen raw = FLIGHT_EMERGENCY_RECORD_BYTES) as Hraw by (apply length_slice; wire_consts; lia).
  destruct (emergency_cell_total raw (slot_offset + start) Hraw) as (cell & Hcell & _).
  assert (cell_at content superblock (slot_offset + start)
    = if forallb is_zero raw || unpublished cell || negb (checksum_matches cell) || malformed superblock cell
      then None else Some (mkCandidate cell (slot_offset + start) raw)) as ->.
  { unfold cell_at. fold raw. by rewrite Hcell. }
  destruct (forallb is_zero raw); cbn [orb].
  { apply settles_ret. split; [done|]. split; [apply incidents_refl|done]. }
  rewrite Hcell. apply wp_bind, wp_result.
  assert (forall p k st1, (clean st1 = true -> clean st = true /\ k = Stale) ->
    es_has_coverage st1 = es_has_coverage st ->
    settles (let! c' := push_cell_range c (slot_offset + start) p k in
             ret (None (A := EmergencyCandidate), c', st1))
      (fun r => let '(candidate, c', st') := r in
         candidate = None /\ incidents (v_items c) (v_items c') st st'
         /\ es_has_coverage st' = es_has_coverage st) s) as Hpush.
  { intros p k st1 Hst Hcov. eapply settles_bind; [apply (settles_cell_range c _ p k st st1); [lia|wire_consts; lia|done]|].
    intros c' Hc'. by apply settles_ret. }
  destruct (unpublished cell); cbn [orb].
  { apply Hpush; [|done]. unfold clean. cbn. rewrite andb_false_r. done. }
  destruct (checksum_matches cell); cbn [negb orb].
  2: { apply Hpush; [|done]. unfold clean. cbn. done. }
  destruct (malformed superblock cell).
  - apply Hpush; [|done]. unfold clean. cbn. done.
  - apply settles_ret. split; [done|]. split; [apply incidents_refl|done].
Qed.

(** A candidate lies inside the source. *)
Definition inside (c : EmergencyCandidate) : Prop :=
  0 <= ec_offset c /\ ec_offset c + FLIGHT_EMERGENCY_RECORD_BYTES <= zlen content.

Lemma settles_select first second c st s :
  (forall k, first = Some k -> inside k) -> (forall k, second = Some k -> inside k) ->
  settles (select_emergency first second c st)
    (fun r => let '(selected, c', st') := r in
       selected = chosen first second
       /\ incidents (v_items c) (v_items c') st st' /\ es_has_coverage st' = es_has_coverage st) s.
Proof.
  intros H1 H2. unfold select_emergency, chosen.
  destruct first as [lower|], second as [upper|];
    try (apply settles_ret; split; [done|]; split; [apply incidents_refl|done]).
  destruct (H1 lower eq_refl) as [Hl1 Hl2], (H2 upper eq_refl) as [Hu1 Hu2]. clear H1 H2.
  destruct (_ =? _).
  - eapply settles_bind.
    { apply (settles_cell_range c _ Damaged Incomplete st (set_incomplete (set_damage st))); [done..|].
      unfold clean. by cbn. }
    intros c1 Hc1. eapply settles_bind.
    { apply (settles_cell_range c1 _ Damaged Incomplete (set_incomplete (set_damage st))
        (set_incomplete (set_damage st))); [done..|]. unfold clean. by cbn. }
    intros c2 Hc2. apply settles_ret. split; [done|]. split; [|done]. exact (incidents_trans _ _ _ _ _ _ Hc1 Hc2).
  - set (pair := if _ <=? _ then _ else _).
    assert (inside (fst pair)) as [Hp1 Hp2] by (subst pair; case_match; done).
    destruct pair as [older newer]. cbn [fst] in *. destruct (successive _ _).
    + apply settles_ret. split; [done|]. split; [apply incidents_refl|done].
    + eapply settles_bind; [apply (settles_cell_range c _ ProvUnknown Stale st st); [done..|by intros]|].
      intros c1 Hc1. by apply settles_ret.
Qed.

Lemma cell_at_inside offset k :
  0 <= offset -> offset + FLIGHT_EMERGENCY_RECORD_BYTES <= zlen content ->
  cell_at content superblock offset = Some k -> inside k.
Proof.
  intros Ho Hle. unfold cell_at. destruct (parse_emergency_cell _ _); [|done]. case_match; [done|].
  by intros [= <-].
Qed.

End held_rules.

(** ** The scan *)

Section scan_rules.
Context (source : ReadAtSource) (content : bytes) {LS : LawfulSource source content}.
Context {W : Type} `{WorkGuard W} `{Allocator W}.
Context (superblock : Superblock) (artifact : ArtifactDigest) (regular : gset Z).
Implicit Types x : RecoveryContext.

(** Thread ids: each once, and the set the code keeps beside the list. *)
Definition tids_ok (tids : list Z) (known : gset Z) : Prop :=
  NoDup tids /\ forall t, t ∈ known <-> t ∈ tids.

(** What recovering [added] has done to the scan's state. *)
Record scan_ok (st0 : SlotState) (x0 : RecoveryContext) (added : list EmergencyCandidate)
    (st : SlotState) (x : RecoveryContext) : Prop := mkScanOk {
  so_events : v_items (sl_events st) = v_items (sl_events st0)
    ++ imap (fun i c => emergency_record artifact (fx_next_ordinal x0 + Z.of_nat i) c) added;
  so_ordinal : fx_next_ordinal x = fx_next_ordinal x0 + zlen added;
  so_tids : tids_ok (v_items (sl_tids st)) (sl_known_tids st);
  so_old_tids : v_items (sl_tids st0) `prefix_of` v_items (sl_tids st);
  so_new_tids : forall t, t ∈ v_items (sl_tids st)
    <-> t ∈ v_items (sl_tids st0) \/ t ∈ map (fun c => em_tid (ec_cell c)) added;
  so_coverage : es_has_coverage (sl_status st)
    = es_has_coverage (sl_status st0) || existsb (fun c => em_kind (ec_cell c) =? 15) added;
  so_incidents : incidents (v_items (sl_completeness st0)) (v_items (sl_completeness st))
    (sl_status st0) (sl_status st)
}.

(** A candidate the validation let through. *)
Definition fit (c : EmergencyCandidate) : Prop :=
  inside content c /\ 1 <= em_kind (ec_cell c) <= 15 /\ zlen (ec_raw c) = FLIGHT_EMERGENCY_RECORD_BYTES
  /\ 0 < em_sequence (ec_cell c) <= u64_max /\ 0 < em_tid (ec_cell c) <= u32_max.

Lemma surviving_snoc done c :
  surviving regular (done ++ [c])
  = surviving regular done ++ (if bool_decide (em_sequence (ec_cell c) ∈ regular) then [] else [c]).
Proof. unfold surviving. rewrite List.filter_app. cbn. by case_bool_decide. Qed.

Lemma wp_candidate st0 x0 added st x c :
  scan_ok st0 x0 added st x -> fit c ->
  wp (W := W) (candidate_turn artifact regular st c)
    (fun st' x' => scan_ok st0 x0
       (added ++ (if bool_decide (em_sequence (ec_cell c) ∈ regular) then [] else [c])) st' x')
    (fun e _ => resource_error e) x.
Proof.
  intros [He Ho Ht Hp Hn Hc Hi] ((Hin1 & Hin2) & Hk & Hraw & _).
  pose proof (lawful_bound (src := source) (content := content)) as Hb.
  assert (forall d, resource_error (allocation_error d)) as Hres
    by (intros d; unfold resource_error; cbn; set_solver).
  unfold candidate_turn. case_bool_decide as Hreg.
  - rewrite app_nil_r. apply wp_bind, wp_option. rewrite checked_add_ok by lia. apply wp_bind.
    eapply wp_mono; [apply (settles_cell_range content Hb (sl_completeness st) (ec_offset c) ProvUnknown Stale
      (sl_status st) (sl_status st)); [done..|by intros]| |by intros e s' []].
    intros c' x' [-> Hc']. apply wp_ret. split; cbn; try done. by eapply incidents_trans.
  - set (status := if em_kind (ec_cell c) =? 15 then _ else _).
    assert (exists tail, es_has_coverage status = es_has_coverage (sl_status st) || (em_kind (ec_cell c) =? 15)
      /\ clean status = clean (sl_status st) /\ tail = tt) as (_ & Hcov & Hclean & _).
    { exists tt. subst status. case_match; cbn; [|by rewrite orb_false_r]. by rewrite orb_true_r. }
    apply wp_bind.
    apply (wp_mono _ (fun t x' => x' = x /\ tids_ok (v_items (fst t)) (snd t)
      /\ v_items (sl_tids st) `prefix_of` v_items (fst t)
      /\ forall u, u ∈ v_items (fst t) <-> u ∈ v_items (sl_tids st) \/ u = em_tid (ec_cell c)) _
      (fun e _ => resource_error e)); [| |done].
    { destruct Ht as [Hnd Hset]. case_bool_decide as Hknown.
      - apply wp_ret. split; [done|]. split; [done|]. split; [done|]. intros u. cbn.
        rewrite <- !Hset. split; [by left|intros [?| ->]; done].
      - apply wp_bind, (wp_reserve_map _); [|done]. apply wp_bind, wp_guarded_push; [|auto with qtrace].
        intros cap. apply wp_ret. cbn. split; [done|]. split; [split|split].
        + apply NoDup_app. split; [done|]. split; [|apply NoDup_singleton].
          intros u Hu ->%list_elem_of_singleton. by apply Hknown, Hset.
        + intros u. rewrite elem_of_union, elem_of_app, Hset. set_solver.
        + by eexists.
        + intros u. set_solver. }
    intros [tids known] x' (-> & Ht' & Hp' & Hn'). cbn [fst snd] in *.
    apply wp_bind, wp_charge; [|auto with qtrace]. apply wp_bind.
    eapply wp_mono; [by apply (settles_vec _ _ (fun _ => True))| |by intros e s' []]. intros _ x' [-> _].
    apply wp_bind, wp_option. unfold slice_get. rewrite Hraw. wire_consts. cbn [Z.leb Z.compare andb].
    apply wp_bind, wp_option. unfold try_from.
    replace (em_kind (ec_cell c) <=? u16_max) with true by (unfold u16_max; lia).
    apply wp_bind, wp_get, wp_bind, wp_option. destruct (checked_add _ _ _) as [next|] eqn:En; [|apply Hres].
    apply checked_add_Some in En as [-> _]. apply wp_bind, wp_modify, wp_bind, wp_guarded_push; [|auto with qtrace].
    intros cap. apply wp_bind, wp_modify, wp_ret. split; cbn.
    + rewrite He, <- app_assoc. f_equal. rewrite imap_app. f_equal. cbn. rewrite Ho. unfold zlen.
      do 2 f_equal. lia.
    + rewrite zlen_app, Ho. unfold zlen. cbn. lia.
    + done.
    + by etrans.
    + intros u. rewrite Hn', Hn, map_app, elem_of_app. cbn. rewrite list_elem_of_singleton. tauto.
    + rewrite Hcov, Hc, existsb_app. cbn. by rewrite orb_false_r, orb_assoc.
    + destruct Hi as (ranges & E & Hw & Hst). exists ranges. split; [done|]. split; [done|].
      by rewrite Hclean.
Qed.

Lemma cell_at_fit offset k :
  0 <= offset -> offset + FLIGHT_EMERGENCY_RECORD_BYTES <= zlen content ->
  cell_at content superblock offset = Some k -> fit k.
Proof.
  intros Ho Hle. unfold cell_at.
  assert (zlen (slice content offset FLIGHT_EMERGENCY_RECORD_BYTES) = FLIGHT_EMERGENCY_RECORD_BYTES) as Hraw
    by (apply length_slice; wire_consts; lia).
  destruct (emergency_cell_total _ offset Hraw) as (cell & -> & _ & Htid & Hseq). unfold in_u32, in_u64 in *.
  case_match eqn:E; [done|]. intros [= <-]. repeat apply orb_false_elim in E as [E ?]. cbn.
  split; [done|].
  match goal with H : malformed _ _ = false |- _ => unfold malformed in H; repeat apply orb_false_elim in H as [H ?];
    rewrite negb_false_iff in H end.
  cbn [ec_cell ec_raw]. split; [lia|]. split; [exact Hraw|lia].
Qed.

Lemma chosen_from first second c :
  c ∈ chosen first second -> first = Some c \/ second = Some c.
Proof.
  unfold chosen. destruct first as [a|], second as [b|]; cbn; repeat case_match; simplify_eq; set_solver.
Qed.

Context (Hregion : 0 <= rg_offset (sb_emergencies superblock)
  /\ rg_offset (sb_emergencies superblock) + sb_emergency_count superblock * FLIGHT_EMERGENCY_SLOT_BYTES
     <= zlen content).

Lemma wp_slot st0 x0 added st x index :
  scan_ok st0 x0 added st x -> (index < Z.to_nat (sb_emergency_count superblock))%nat ->
  wp (W := W) (slot_turn source superblock artifact regular st index)
    (fun st' x' => scan_ok st0 x0
       (added ++ surviving regular (slot_candidates content superblock index)) st' x')
    (fun e _ => resource_error e) x.
Proof.
  intros Hst Hindex. destruct Hregion as [Hr1 Hr2].
  pose proof (lawful_bound (src := source) (content := content)) as Hb.
  assert (Z.of_nat index < sb_emergency_count superblock) as Hlt by lia.
  set (o := slot_offset_of superblock index).
  assert (0 <= o /\ o + FLIGHT_EMERGENCY_SLOT_BYTES <= zlen content) as [Ho1 Ho2]
    by (subst o; unfold slot_offset_of; wire_consts; nia).
  unfold slot_turn. apply wp_bind, wp_charge; [|auto with qtrace]. apply wp_bind.
  unfold indexed_offset, checked_mul. apply wp_option.
  replace (Z.of_nat index * FLIGHT_EMERGENCY_SLOT_BYTES <=? u64_max) with true by (wire_consts; nia).
  cbn [mbind option_bind]. rewrite checked_add_ok by (subst o; unfold slot_offset_of in *; wire_consts; lia).
  fold (slot_offset_of superblock index). fold o.
  apply wp_bind, (wp_read_within source content); [lia|wire_consts; lia|wire_consts; lia| |done].
  assert (forall x', fx_next_ordinal x' = fx_next_ordinal x -> scan_ok st0 x0 added st x') as Hx.
  { intros x' Hx'. destruct Hst. split; try done. by rewrite Hx'. }
  set (slot := slice content o FLIGHT_EMERGENCY_SLOT_BYTES).
  destruct (forallb is_zero slot) eqn:Ezero.
  { apply wp_ret. assert (slot_candidates content superblock index = []) as ->; [|rewrite app_nil_r; by apply Hx].
    assert (forall start, 0 <= start -> start + FLIGHT_EMERGENCY_RECORD_BYTES <= FLIGHT_EMERGENCY_SLOT_BYTES ->
      cell_at content superblock (o + start) = None) as Hnone.
    { intros start Hs1 Hs2. unfold cell_at.
      rewrite <- (slice_slice content o FLIGHT_EMERGENCY_SLOT_BYTES) by (wire_consts; lia). fold slot.
      destruct (parse_emergency_cell _ _); [|done].
      replace (forallb is_zero (slice slot start FLIGHT_EMERGENCY_RECORD_BYTES)) with true; [done|].
      symmetry. apply forallb_forall. rewrite forallb_forall in Ezero. intros b Hin. apply Ezero.
      apply list_elem_of_In. apply list_elem_of_In in Hin. unfold slice in Hin.
      apply elem_of_take in Hin as (i & Hi & _). rewrite lookup_drop in Hi. by eapply list_elem_of_lookup_2. }
    unfold slot_candidates. fold o. rewrite (Hnone FLIGHT_EMERGENCY_RECORD_BYTES) by (wire_consts; lia).
    replace o with (o + 0) by lia. by rewrite Hnone by (wire_consts; lia). }
  assert (forall e (s' x' : RecoveryContext), s' = x' /\ resource_error e -> resource_error e) as Herr by tauto.
  apply wp_bind. replace o with (o + 0) at 1 by lia.
  eapply wp_mono; [apply (settles_evaluate content superblock Hb o 0); wire_consts; lia| |by intros e s' []].
  intros [[first c1] st1] x1 (-> & -> & Hi1 & Hv1). apply wp_bind.
  eapply wp_mono; [apply (settles_evaluate content superblock Hb o FLIGHT_EMERGENCY_RECORD_BYTES);
    wire_consts; lia| |by intros e s' []].
  intros [[second c2] st2] x2 (-> & -> & Hi2 & Hv2). rewrite Z.add_0_r. apply wp_bind.
  eapply wp_mono; [apply (settles_select content Hb)| |by intros e s' []].
  { intros k. apply cell_at_inside; wire_consts; lia. }
  { intros k. apply cell_at_inside; wire_consts; lia. }
  intros [[selected c3] st3] x3 (-> & -> & Hi3 & Hv3).
  fold (slot_candidates content superblock index).
  eapply wp_mono; [apply (wp_fold_plain (fun before st' x' => scan_ok st0 x0 (added ++ surviving regular before) st' x')
    _ _ _ (fun e _ => resource_error e))| |done].
  - cbn. rewrite app_nil_r. destruct Hst as [He Hord Ht Hp Hn Hc Hi]. split; cbn; try done.
    + by rewrite Hv3, Hv2, Hv1.
    + eapply incidents_trans; [exact Hi|]. eapply incidents_trans; [exact Hi1|].
      eapply incidents_trans; [exact Hi2|exact Hi3].
  - intros before c after st' x' Heq Hst'. rewrite surviving_snoc, app_assoc. apply wp_candidate; [done|].
    assert (c ∈ slot_candidates content superblock index) as Hin 
      by (unfold slot_candidates; fold o; rewrite Heq; set_solver).
    apply chosen_from in Hin as [Hin|Hin]; eapply cell_at_fit; [| |exact Hin| | |exact Hin];
      unfold o in *; wire_consts; lia.
  - done.
Qed.

(** What the cells of the slots are like. *)
Lemma slots_fit c :
  c ∈ surviving regular (concat (map (slot_candidates content superblock)
        (seq 0 (Z.to_nat (sb_emergency_count superblock))))) ->
  fit c /\ rg_offset (sb_emergencies superblock) <= ec_offset c
  /\ ec_offset c < rg_offset (sb_emergencies superblock)
       + sb_emergency_count superblock * FLIGHT_EMERGENCY_SLOT_BYTES.
Proof.
  intros Hc. unfold surviving in Hc. rewrite list_elem_of_In, filter_In in Hc. destruct Hc as [Hc _].
  apply in_concat in Hc as (l & Hl & Hc). apply in_map_iff in Hl as (index & <- & Hi).
  apply in_seq in Hi. rewrite <- list_elem_of_In in Hc. unfold slot_candidates in Hc.
  assert (forall offset k, cell_at content superblock offset = Some k -> ec_offset k = offset) as Hoff.
  { intros offset k. unfold cell_at. destruct (parse_emergency_cell _ _); [|done]. case_match; [done|].
    by intros [= <-]. }
  destruct Hregion as [H1 H2].
  assert (Z.of_nat index + 1 <= sb_emergency_count superblock) as Hle by lia.
  assert ((Z.of_nat index + 1) * FLIGHT_EMERGENCY_SLOT_BYTES
    <= sb_emergency_count superblock * FLIGHT_EMERGENCY_SLOT_BYTES) as Hm
    by (apply Z.mul_le_mono_nonneg_r; [wire_consts; lia|done]).
  apply chosen_from in Hc as [Hc|Hc]; pose proof (Hoff _ _ Hc) as Ho;
    (split; [eapply cell_at_fit; [| |exact Hc]|]); unfold slot_offset_of in *; wire_consts; lia.
Qed.

Lemma wp_scan_emergencies events completeness tids known x :
  tids_ok (v_items tids) known ->
  wp (W := W) (scan_emergencies source superblock artifact events completeness tids known regular)
    (fun st x' => scan_ok (mkSlotState events completeness tids known EmergencyStatus_default) x
       (surviving regular (concat (map (slot_candidates content superblock)
          (seq 0 (Z.to_nat (sb_emergency_count superblock)))))) st x')
    (fun e _ => resource_error e) x.
Proof.
  intros Ht. unfold scan_emergencies.
  apply (wp_fold_plain (fun before st x' =>
    scan_ok (mkSlotState events completeness tids known EmergencyStatus_default) x
      (surviving regular (concat (map (slot_candidates content superblock) before))) st x')).
  - split; cbn; try done.
    + by rewrite app_nil_r.
    + unfold zlen. cbn. lia.
    + intros t. set_solver.
    + apply incidents_refl.
  - intros before index after st x' Hseq Hst. rewrite map_app, concat_app. cbn [map concat]. rewrite app_nil_r.
    unfold surviving at 1. rewrite List.filter_app. fold (surviving regular). apply wp_slot; [done|].
    assert (index ∈ seq 0 (Z.to_nat (sb_emergency_count superblock))) as Hin by (rewrite Hseq; set_solver).
    apply elem_of_seq in Hin. lia.
Qed.

End scan_rules.

(** C36: the emergency scan recovers exactly the fit cells.  On a lawful source
    that contains the emergency region, [scan_emergencies] appends, in slot
    order and with consecutive ordinals, one record for every cell that is
    published, carries a matching checksum and well-formed fields, is the
    choice of its slot and whose sequence number no committed regular record
    has; it extends the thread ids without repetition by the threads of those
    records, sets the coverage flag exactly when one of them is a coverage gap,
    and reports nothing but stale cells while it sees no damaged or incomplete
    one.  Its only failures are resource errors. *)
Theorem emergencies_recovered (source : ReadAtSource) (content : bytes) {LS : LawfulSource source content}
    (W : Type) (G : WorkGuard W) (A : Allocator W) (superblock : Superblock) (artifact : ArtifactDigest)
    (regular : gset Z) (events : Vec PhysicalFlight) (completeness : Vec CompletenessRange)
    (tids : Vec Z) (known : gset Z) (x : RecoveryContext) (w : W)
    (Hregion : 0 <= rg_offset (sb_emergencies superblock)
      /\ rg_offset (sb_emergencies superblock)
         + sb_emergency_count superblock * FLIGHT_EMERGENCY_SLOT_BYTES <= zlen content)
    (Htids : tids_ok (v_items tids) known) :
  let cells := concat (map (slot_candidates content superblock)
                         (seq 0 (Z.to_nat (sb_emergency_count superblock)))) in
  match scan_emergencies source superblock artifact events completeness tids known regular x w with
  | (Ok st, x', _) =>
      scan_ok artifact (mkSlotState events completeness tids known EmergencyStatus_default) x
        (surviving regular cells) st x'
      /\ (forall e, e ∈ v_items (sl_events st) -> e ∈ v_items events
            \/ exists q, ek_sequence (ph_key e) = Some q /\ (q ∉ regular))
  | (Err e, _, _) => resource_error e
  end.
Proof.
  intros cells.
  pose proof (wp_scan_emergencies source content superblock artifact regular Hregion events completeness
    tids known x Htids w) as Hw.
  destruct (scan_emergencies _ _ _ _ _ _ _ _ x w) as [[[st|e] x'] w']; [|exact Hw].
  split; [exact Hw|]. intros e He. rewrite (so_events _ _ _ _ _ _ Hw) in He. cbn [sl_events] in He.
  apply elem_of_app in He as [He|(i & Hi)%list_elem_of_lookup_1]; [by left|right].
  rewrite list_lookup_imap in Hi. destruct (surviving regular _ !! i) as [c|] eqn:Ec; [|done].
  injection Hi as <-. exists (em_sequence (ec_cell c)). split; [done|]. apply list_elem_of_lookup_2 in Ec.
  unfold surviving in Ec. rewrite list_elem_of_In, filter_In in Ec. destruct Ec as [_ Hc].
  rewrite negb_true_iff, bool_decide_eq_false in Hc. done.
Qed.

(** A sample: one slot whose first cell is a published signal. *)
Definition sample_cell : EmergencyCell :=
  let cell := mkEmergencyCell 11 77 9 4096 8192 0 11 1 EMERGENCY_COMMITTED 0 0 2 in
  let sum := emergency_checksum cell in
  mkEmergencyCell 11 77 9 4096 8192 0 11 1 EMERGENCY_COMMITTED sum (Z.lxor u32_max sum) 2.
Definition encode_cell (c : EmergencyCell) : bytes :=
  le_bytes 4 (em_kind c) ++ le_bytes 4 (em_tid c) ++ le_bytes 8 (em_sequence c) ++ le_bytes 8 (em_pc c)
  ++ le_bytes 8 (em_sp c) ++ le_bytes 8 (em_fault_address c) ++ le_bytes 4 (em_signal_number c)
  ++ le_bytes 4 (em_signal_code c) ++ le_bytes 4 (em_flags c) ++ le_bytes 4 (em_checksum c)
  ++ le_bytes 4 (em_checksum_inverse c) ++ le_bytes 4 (em_version c).
Definition sample_slots : bytes := encode_cell sample_cell ++ replicate 64 x00.
Definition slot_superblock : Superblock :=
  mkSuperblock 8 1 1 1 [] 0 128 (mkRegion 0 0) 0 (mkRegion 0 0) 4096 0 (mkRegion 0 128) 1 0.

Lemma emergencies_recovered_witness :
  exists st x',
    run (scan_emergencies (ByteSource sample_slots) slot_superblock [] vec_new vec_new vec_new ∅ {[5]})
      (mkRecoveryContext counters_default 3) = (Ok st, x')
    /\ map (fun e => ek_sequence (ph_key e)) (v_items (sl_events st)) = [Some 9]
    /\ scan_ok [] (mkSlotState vec_new vec_new vec_new ∅ EmergencyStatus_default)
         (mkRecoveryContext counters_default 3)
         (surviving {[5]} (concat (map (slot_candidates sample_slots slot_superblock) (seq 0 1)))) st x'.
Proof.
  assert (tids_ok (v_items (vec_new (A := Z))) ∅) as Htids by (split; [constructor|set_solver]).
  assert (LawfulSource (ByteSource sample_slots) sample_slots) as LS
    by (apply ByteSource_lawful; vm_compute; discriminate).
  assert (exists st x', scan_emergencies (ByteSource sample_slots) slot_superblock [] vec_new vec_new vec_new ∅
    {[5]} (mkRecoveryContext counters_default 3) tt = (Ok st, x', tt)
    /\ map (fun e => ek_sequence (ph_key e)) (v_items (sl_events st)) = [Some 9]) as (st & x' & Hrun & Hmap).
  { eexists _, _. split; [vm_compute; reflexivity|vm_compute; reflexivity]. }
  exists st, x'. split; [unfold run; by rewrite Hrun|]. split; [exact Hmap|].
  assert (0 <= rg_offset (sb_emergencies slot_superblock)
    /\ rg_offset (sb_emergencies slot_superblock)
       + sb_emergency_count slot_superblock * FLIGHT_EMERGENCY_SLOT_BYTES <= zlen sample_slots) as Hregion
    by (split; vm_compute; discriminate).
  pose proof (emergencies_recovered (ByteSource sample_slots) sample_slots unit _ _ slot_superblock [] {[5]}
    vec_new vec_new vec_new ∅ (mkRecoveryContext counters_default 3) tt Hregion Htids) as Hg.
  cbv zeta in Hg. rewrite Hrun in Hg. exact (proj1 Hg).
Defined.
