(* ===== verification/FlightPayload.v ===== *)
(** * Flight event payloads

    Models the payload decoders of [qtrace-provider/src/flight/events.rs]: the
    cursor they share, the checks of pointer-width values, and one decoder per
    record kind (chunk begin, register checkpoints and deltas, string and
    instruction dictionaries, semantic records, thread lifecycle, syscalls,
    signals and the cells of the emergency region).  The instruction and
    memory records themselves are decoded by the code shared with QTRB. *)

From stdpp Require Import prelude list strings pretty gmap.
From Stdlib Require Import ZArith Lia Strings.Byte.
From S2P Require Import Prelude Prog Control Model Source QtrbEvents FlightWire FlightContext FlightScan.
Local Open Scope string_scope.
Local Open Scope list_scope.
Local Open Scope Z_scope.

(** [ChunkIdentity] of recovery.rs *)
Record ChunkIdentity := mkChunkIdentity {
  ci_tid : Z;
  ci_generation : Z;
  ci_state : Z
}.

(** [EventRecord::new_scoped] *)
Definition event_record_new_scoped (key : EventKey) (p : Provenance) (scope : EventScope)
    (payload : EventPayload) : EventRecord :=
  mkEventRecord key p payload scope [].

(** ** Helpers *)

Definition payload_error (coordinate : SourceCoordinate) (detail : string) : ProviderError :=
  ProviderError_new "source.flight.payload" "flight.event" (Some coordinate) false detail.

(** [SourceCoordinate { offset: 0, record_ordinal: None }] *)
Definition no_coordinate : SourceCoordinate := mkCoordinate 0 None.

Definition require_pointer (value width : Z) : option unit :=
  if (width =? 4) && (value >? u32_max) then None else Some tt.

Definition pointer_sum (base relative width : Z) : option Z :=
  _ ← require_pointer base width;
  _ ← require_pointer relative width;
  value ← checked_add u64_max base relative;
  _ ← require_pointer value width;
  Some value.

Definition raw_u32 (bs : bytes) (offset : Z) : option Z :=
  stop ← checked_add usize_max offset 4; le_Z <$> slice_get bs offset stop.

Definition raw_u64 (bs : bytes) (offset : Z) : option Z :=
  stop ← checked_add usize_max offset 8; le_Z <$> slice_get bs offset stop.

Definition exact_u32 (bs : bytes) : option Z :=
  if zlen bs =? 4 then raw_u32 bs 0 else None.

Definition push_pc (value : Z) (values : list Z) : list Z :=
  if negb (value =? 0) then values ++ [value] else values.

(** [value as i32] of a [u32] *)
Definition signed32 (z : Z) : Z := if z <? 2 ^ 31 then z else z - 2 ^ 32.

Definition chunk_index (superblock : Superblock) (offset : Z) : option Z :=
  if (offset <? rg_offset (sb_chunks superblock)) || (rg_end (sb_chunks superblock) <=? offset)
  then None
  else try_from u32_max ((offset - rg_offset (sb_chunks superblock)) / sb_chunk_bytes superblock).

Definition rewrap (key : EventKey) (p : Provenance) (scope : EventScope)
    (raw : OpaqueOptionalRecord) : EventRecord :=
  event_record_new_scoped key p scope (OpaqueOptional raw).

Definition coordinate (event : EventRecord) : SourceCoordinate :=
  mkCoordinate (ek_source_offset (ev_key event)) (Some (ek_record_ordinal (ev_key event))).

(** ** The payload cursor of events.rs *)

Record EventCursor := mkEventCursor { ec_bytes : bytes; ec_offset : Z }.

Definition event_cursor (bs : bytes) : EventCursor := mkEventCursor bs 0.

Section cursor.
Context {W : Type} `{WorkGuard W} `{Allocator W}.
Abbreviation C := (Prog W ProviderError EventCursor).

Definition ec_take (count : Z) : C bytes :=
  let! c := get in
  let! stop := lift_option (checked_add usize_max (ec_offset c) count)
    (payload_error no_coordinate "payload overflow") in
  let! value := lift_option (slice_get (ec_bytes c) (ec_offset c) stop)
    (payload_error no_coordinate "truncated payload") in
  put (mkEventCursor (ec_bytes c) stop) ;!
  ret value.

Definition ec_u8 : C Z := let! b := ec_take 1 in ret (le_Z b).
Definition ec_u16 : C Z := let! b := ec_take 2 in ret (le_Z b).
Definition ec_u32 : C Z := let! b := ec_take 4 in ret (le_Z b).
Definition ec_u64 : C Z := let! b := ec_take 8 in ret (le_Z b).

Definition text_guarded (count : Z) : C bytes :=
  let! text := ec_take count in
  fail_if (negb (utf8_valid text)) (payload_error no_coordinate "invalid UTF-8") ;!
  flight_copy_string text "Flight text allocation failed".

Definition ec_finish : C unit :=
  let! c := get in
  fail_if (negb (ec_offset c =? zlen (ec_bytes c)))
    (payload_error no_coordinate "trailing payload bytes").

End cursor.

(** ** Decoders *)

Inductive TypedDecodeError :=
| TypedInvalid
| TypedControl (error : ProviderError).

Definition typed_decode_error (error : TypedDecodeError) (coordinate : SourceCoordinate)
    (detail : string) : ProviderError :=
  match error with
  | TypedInvalid => payload_error coordinate detail
  | TypedControl error => error
  end.

Section decoders.
Context {W : Type} `{WorkGuard W} `{Allocator W} {S : Type}.
Abbreviation M := (Prog W ProviderError S).
Abbreviation Typed := (Prog W TypedDecodeError S).

(** The fields of the begin record, in wire order. *)
Record BeginFields := mkBeginFields {
  bf_profile : Z; bf_width : Z; bf_reserved : Z; bf_pid : Z; bf_tid : Z;
  bf_module_base : Z; bf_target_offset : Z; bf_target_address : Z;
  bf_target : bytes; bf_scene : bytes
}.

Definition read_begin_fields : Prog W ProviderError EventCursor BeginFields :=
  let! profile := ec_u8 in
  let! width := ec_u8 in
  let! target_len := ec_u16 in
  let! scene_len := ec_u16 in
  let! reserved := ec_u16 in
  let! pid := ec_u32 in
  let! tid := ec_u32 in
  let! module_base := ec_u64 in
  let! target_offset := ec_u64 in
  let! target_address := ec_u64 in
  let! target := text_guarded target_len in
  let! scene := text_guarded scene_len in
  ec_finish ;!
  ret (mkBeginFields profile width reserved pid tid module_base target_offset target_address
         target scene).

Definition profile_of (profile : Z) : TraceProfile :=
  match profile with 0 => Fast | 1 => Balanced | _ => Full end.

Definition decode_begin (bs : bytes) (superblock : Superblock) (identity : ChunkIdentity)
    (index : Z) (coordinate : SourceCoordinate) : M BeginMetadata :=
  let! f := with_local (event_cursor bs) read_begin_fields in
  let expected_target := take (Z.to_nat (sb_target_len superblock)) (sb_target superblock) in
  fail_if (negb (utf8_valid expected_target))
    (payload_error coordinate "invalid superblock target") ;!
  let! expected_address :=
    lift_option (checked_add u64_max (bf_module_base f) (bf_target_offset f))
      (payload_error coordinate "target address overflow") in
  fold_each [bf_module_base f; bf_target_offset f; bf_target_address f] tt (fun _ value =>
    lift_option (require_pointer value (bf_width f))
      (payload_error coordinate "chunk address exceeds pointer width")) ;!
  fail_if ((bf_profile f >? 2)
           || negb (bf_width f =? sb_pointer_width superblock)
           || negb (bf_reserved f =? 0)
           || negb (bf_pid f =? sb_pid superblock)
           || negb (bf_tid f =? ci_tid identity)
           || negb (bool_decide (bf_target f = expected_target))
           || negb (bf_target_address f =? expected_address))
    (payload_error coordinate "invalid Flight chunk begin identity") ;!
  ret (mkBegin (bf_module_base f) (bf_target_offset f) (bf_target_address f) (bf_pid f)
         (Some (bf_tid f)) (profile_of (bf_profile f)) false 0 (sb_run_id superblock)
         (bf_scene f) (bf_target f) (bf_width f) (Some index) (Some (ci_generation identity))).

(** [u64::from_le_bytes(bytes[at..at + 8])], [require_pointer] and the slot. *)
Definition register_at (bs : bytes) (width at_ index : Z) : Typed RegisterValue :=
  let! raw := lift_option (slice_get bs at_ (at_ + 8)) TypedInvalid in
  lift_option (require_pointer (le_Z raw) width) TypedInvalid ;!
  let! slot := lift_option (slot_from_index index) TypedInvalid in
  ret (mkRegisterValue slot (le_Z raw)).

Definition decode_checkpoint (bs : bytes) (width : Z) :
    Typed (RegisterCheckpoint * RegisterSnapshot) :=
  fail_if (negb (zlen bs =? REGISTER_SLOT_COUNT * 8)) TypedInvalid ;!
  relabel TypedControl (flight_reserve_vec (A := RegisterValue) T_RegisterValue vec_new
    REGISTER_SLOT_COUNT "Flight checkpoint value allocation failed") ;!
  relabel TypedControl (flight_reserve_vec (A := Z) T_u64 vec_new
    REGISTER_SLOT_COUNT "Flight checkpoint snapshot allocation failed") ;!
  let! values := for_each (seqZ 0 REGISTER_SLOT_COUNT) (fun index =>
    register_at bs width (index * 8) index) in
  let! snapshot := lift_option (snapshot_new (map rv_value values)) TypedInvalid in
  ret (mkCheckpoint values, snapshot).

Definition clone_snapshot (snapshot : RegisterSnapshot) : M RegisterSnapshot :=
  flight_reserve_vec (A := Z) T_u64 vec_new (zlen (rs_values snapshot))
    "Flight register snapshot clone allocation failed" ;!
  lift_option (snapshot_new (rs_values snapshot))
    (payload_error no_coordinate "invalid register snapshot clone").

Definition clone_register (register : RegisterDefinition) : M RegisterDefinition :=
  let! name := flight_copy_string (rd_name register)
    "Flight dictionary register name allocation failed" in
  ret (mkRegisterDefinition (rd_slot register) (rd_captured_width register) name).

Definition clone_instruction_definition (d : InstructionDefinition) : M InstructionDefinition :=
  flight_reserve_vec (A := RegisterDefinition) T_RegisterDefinition vec_new (zlen (id_reads d))
    "Flight dictionary read allocation failed" ;!
  let! reads := for_each (id_reads d) clone_register in
  flight_reserve_vec (A := RegisterDefinition) T_RegisterDefinition vec_new (zlen (id_writes d))
    "Flight dictionary write allocation failed" ;!
  let! writes := for_each (id_writes d) clone_register in
  flight_reserve_vec (A := MemoryOperand) T_MemoryOperand vec_new (zlen (id_memory_operands d))
    "Flight dictionary memory operand allocation failed" ;!
  let! mnemonic := flight_copy_string (id_mnemonic d)
    "Flight dictionary mnemonic allocation failed" in
  let! operands := flight_copy_string (id_operands d)
    "Flight dictionary operands allocation failed" in
  let! disassembly := flight_copy_string (id_disassembly d)
    "Flight dictionary disassembly allocation failed" in
  ret (mkInstructionDefinition (id_definition_id d) (id_opcode d) (id_read_mask d)
         (id_write_mask d) (id_pc_displacement d) (id_flags d) (id_pc_kind d) (id_condition d)
         (id_slow_memory_path d) mnemonic operands disassembly reads writes
         (id_memory_operands d)).

(** One turn of the slot loop over ([changed], [cursor]). *)
Definition delta_turn (bs : bytes) (width mask : Z) (acc : list RegisterValue * Z) (index : Z) :
    Typed (list RegisterValue * Z) :=
  if negb (Z.land mask (Z.shiftl 1 index) =? 0) then
    let! value := register_at bs width (snd acc) index in
    ret (fst acc ++ [value], snd acc + 8)
  else ret acc.

(** The delta and what [ancestry] points to afterwards. *)
Definition decode_delta (bs : bytes) (width : Z) (ancestry : option RegisterSnapshot) :
    Typed (RegisterDelta * option RegisterSnapshot) :=
  fail_if (zlen bs <? 8) TypedInvalid ;!
  let mask := le_Z (slice bs 0 8) in
  fail_if ((mask =? 0) || negb (Z.shiftr mask REGISTER_SLOT_COUNT =? 0)
           || negb (zlen bs =? 8 + count_ones mask * 8)) TypedInvalid ;!
  relabel TypedControl (flight_reserve_vec (A := RegisterValue) T_RegisterValue vec_new
    (count_ones mask) "Flight delta allocation failed") ;!
  let! done := fold_each (seqZ 0 REGISTER_SLOT_COUNT) ([], 8) (delta_turn bs width mask) in
  let changed := fst done in
  ret (mkRegisterDelta mask changed (bool_decide (is_Some ancestry)),
       (fun snapshot => snapshot_apply snapshot changed) <$> ancestry).

Definition validate_string (bs : bytes) (strings : gmap Z nat) : result ProviderError Z :=
  let truncated := payload_error no_coordinate "truncated string definition" in
  if zlen bs <? 8 then Err truncated
  else match raw_u32 bs 0, raw_u32 bs 4 with
       | Some id, Some size =>
           if (id =? 0) || (size >? 4096) || negb (size =? zlen bs - 8)
              || bool_decide (is_Some (strings !! id))
           then Err (payload_error no_coordinate "invalid string definition")
           else Ok id
       | _, _ => Err truncated
       end.

(** [size_of::<usize>()] and [align_of::<usize>()] *)
Definition WORD_BYTES : Z := 8.

(** The bytes are shared from then on; the block is charged with its header. *)
Definition shared_string (bs : bytes) : M bytes :=
  let! unaligned := lift_option
    (checked_add usize_max (zlen bs) (saturating_mul usize_max WORD_BYTES 2))
    (payload_error no_coordinate "string Arc allocation overflow") in
  let! aligned := lift_option
    (value ← checked_add usize_max unaligned (saturating_sub WORD_BYTES 1);
     try_from u64_max (Z.land value (Z.lxor usize_max (saturating_sub WORD_BYTES 1))))
    (payload_error no_coordinate "string Arc aligned allocation overflow") in
  allocation_scope aligned (saturating_sub aligned unaligned) (ret bs).

(** [strings.get(&id)], then [output.get] of the row, when it is a string. *)
Definition string_of (strings : gmap Z nat) (output : list EventRecord) (id : Z) : option bytes :=
  row ← strings !! id;
  event ← output !! row;
  match ev_payload event with PStringDefinition s => Some (sd_bytes s) | _ => None end.

Definition semantic_field (bs : bytes) (strings : gmap Z nat) (output : list EventRecord)
    (index : Z) : M bytes :=
  let! id := lift_option (raw_u32 bs (index * 4))
    (payload_error no_coordinate "truncated semantic string reference") in
  let! raw := lift_option (string_of strings output id)
    (payload_error no_coordinate "undefined string reference") in
  fail_if (negb (utf8_valid raw))
    (payload_error no_coordinate "semantic string is not UTF-8") ;!
  flight_copy_string raw "Flight semantic string allocation failed".

(** [if kind == 6 { 3 } else { 2 }] *)
Definition field_count (kind : Z) : Z := if kind =? 6 then 3 else 2.

(** [fields.remove(0)] and so on, by kind. *)
Definition semantic_of (kind : Z) (fields : list bytes) (sequences : list Z) :
    option SemanticEvent :=
  if kind =? 6 then
    match fields with
    | category :: name :: detail :: _ => Some (mkSemanticEvent (Some category) name detail sequences)
    | _ => None
    end
  else
    match fields with
    | name :: detail :: _ => Some (mkSemanticEvent None name detail sequences)
    | _ => None
    end.

Definition semantic_payload (kind : Z) (value : SemanticEvent) : EventPayload :=
  match kind with
  | 6 => SemanticCall value
  | 7 => SemanticRule value
  | _ => SemanticError value
  end.

(** A Rust panic: an index past the end. *)
Definition index_panic : ProviderError := ProviderError_new "model.panic" "model" None false "".

Definition decode_semantic (kind : Z) (bs : bytes) (strings : gmap Z nat)
    (output : list EventRecord) (fragment_sequences : list Z) : M EventPayload :=
  let count := field_count kind in
  fail_if (negb (zlen bs =? count * 4))
    (payload_error no_coordinate "invalid semantic string references") ;!
  flight_reserve_vec (A := bytes) T_String vec_new count
    "Flight semantic field allocation failed" ;!
  let! fields := for_each (seqZ 0 count) (semantic_field bs strings output) in
  let length_at i := from_option zlen 0 (fields !! Z.to_nat i) in
  fail_if ((length_at 0 >? 255) || ((kind =? 6) && (length_at 1 >? 255))
           || (length_at (count - 1) >? 3072))
    (payload_error no_coordinate "semantic field exceeds Flight bound") ;!
  let! value := lift_option (semantic_of kind fields fragment_sequences) index_panic in
  ret (semantic_payload kind value).

Definition decode_thread_begin (bs : bytes) (tid : Z) : ThreadLifecycle :=
  let unknown := mkThreadLifecycle tid ThreadBegin None None None in
  if zlen bs =? 24 then
    match raw_u32 bs 0, raw_u32 bs 4, raw_u64 bs 8, raw_u64 bs 16 with
    | Some creator, Some encoded_tid, Some start, Some generation =>
        if encoded_tid =? tid
        then mkThreadLifecycle tid ThreadBegin (Some creator) (Some start) (Some generation)
        else unknown
    | _, _, _, _ => unknown
    end
  else unknown.

Definition read_syscall_words : Prog W ProviderError EventCursor (Z * list Z * Z * Z) :=
  let! pc := ec_u64 in
  let! arguments := for_each (seqZ 0 6) (fun _ => ec_u64) in
  let! number := ec_u64 in
  let! result := ec_u64 in
  ec_finish ;!
  ret (pc, arguments, signed64 number, signed64 result).

Definition decode_syscall (bs : bytes) (tid width : Z) : M Syscall :=
  fail_if (negb (zlen bs =? 72)) (payload_error no_coordinate "invalid syscall payload") ;!
  let! words := with_local (event_cursor bs) read_syscall_words in
  let '(pc, arguments, number, result) := words in
  fold_each (pc :: arguments) tt (fun _ value =>
    lift_option (require_pointer value width)
      (payload_error no_coordinate "syscall value exceeds pointer width")) ;!
  ret (mkSyscall tid number pc arguments (Some result)).

Definition decode_signal (bs : bytes) (tid width : Z) : M Signal :=
  let truncated := payload_error no_coordinate "truncated signal" in
  fail_if (negb (zlen bs =? 24)) (payload_error no_coordinate "invalid signal payload") ;!
  let! number := lift_option (raw_u32 bs 0) truncated in
  let! code := lift_option (raw_u32 bs 4) truncated in
  let! fault_address := lift_option (raw_u64 bs 8) truncated in
  let! pc := lift_option (raw_u64 bs 16) truncated in
  fold_each [fault_address; pc] tt (fun _ value =>
    lift_option (require_pointer value width)
      (payload_error no_coordinate "signal address exceeds pointer width")) ;!
  ret (mkSignal tid (signed32 number) (signed32 code) pc 0 fault_address 0 PcUnknown).

(** [TerminalMetrics::default()] *)
Definition TerminalMetrics_default : TerminalMetrics := mkTerminalMetrics 0 0 0 0 0 0 0 0 0 0.

Record EmergencyWords := mkEmergencyWords {
  ew_kind : Z; ew_tid : Z; ew_sequence : Z; ew_pc : Z; ew_sp : Z; ew_fault : Z;
  ew_number : Z; ew_code : Z; ew_flags : Z
}.

Definition read_emergency_words : Prog W ProviderError EventCursor EmergencyWords :=
  let! kind := ec_u32 in
  let! tid := ec_u32 in
  let! sequence := ec_u64 in
  let! pc := ec_u64 in
  let! sp := ec_u64 in
  let! fault := ec_u64 in
  let! number := ec_u32 in
  let! code := ec_u32 in
  let! flags := ec_u32 in
  ret (mkEmergencyWords (kind mod 2 ^ 16) tid sequence pc sp fault number code
         (and_not32 flags EMERGENCY_COMMITTED)).

(** [match kind { .. }] *)
Definition emergency_payload (e : EmergencyWords) : option EventPayload :=
  match ew_kind e with
  | 10 => Some (PSyscall (mkSyscall (ew_tid e) (ew_number e) (ew_pc e)
            [ew_sp e; ew_fault e; ew_code e; ew_flags e; 0; 0] None))
  | 11 => Some (PSignal (mkSignal (ew_tid e) (signed32 (ew_number e)) (signed32 (ew_code e))
            (ew_pc e) (ew_sp e) (ew_fault e) (ew_flags e) PcUnknown))
  | 12 => Some (PSignalHandlerBoundary (mkSignalHandlerBoundary (ew_tid e) HandlerBegin
            (signed32 (ew_number e)) (signed32 (ew_code e)) (ew_pc e) (ew_sp e) (ew_fault e)
            (ew_flags e) PcUnknown (Z.land (ew_flags e) 65535) (Z.shiftr (ew_flags e) 16) None))
  | 13 => Some (PSignalHandlerBoundary (mkSignalHandlerBoundary (ew_tid e) HandlerReturn
            (signed32 (ew_number e)) (signed32 (ew_code e)) (ew_pc e) (ew_sp e) (ew_fault e)
            (ew_flags e) PcUnknown (Z.land (ew_flags e) 65535) (Z.shiftr (ew_flags e) 16)
            (Some (ew_fault e))))
  | 14 => Some (PTermination (mkTermination Intent None None 0 TerminalMetrics_default
            (Some (mkTerminationIntent (ew_pc e) (ew_number e)
               [ew_sp e; ew_fault e; ew_code e; ew_flags e]))))
  | 15 => Some (PCoverageGap (mkCoverageGap (ew_tid e) (ew_pc e) (ew_sp e) (ew_fault e)
            (ew_flags e) (ew_code e)))
  | _ => None
  end.

Definition decode_emergency (raw : OpaqueOptionalRecord) (key : EventKey)
    (coordinate : SourceCoordinate) : M EventRecord :=
  fail_if (negb (zlen (oo_bytes raw) =? 52))
    (payload_error coordinate "invalid emergency payload") ;!
  let! words := with_local (event_cursor (oo_bytes raw)) read_emergency_words in
  let! payload := lift_option (emergency_payload words)
    (payload_error coordinate "unknown emergency kind") in
  ret (event_record_new key Captured payload).

Definition definition_id (bs : bytes) : result ProviderError Z :=
  let truncated := payload_error no_coordinate "truncated instruction record" in
  if zlen bs <? 32 then Err truncated else ok_or (raw_u32 bs 28) truncated.

End decoders.
