(* ===== verification/FlightRegisters.v ===== *)
(** * Register records of a Flight chunk

    What the register decoders of [FlightPayload] accept: a checkpoint is the
    encoding of 34 values, a delta the encoding of a non-empty set of changed
    slots in increasing order, every value within the artifact's pointer width.
    Replaying the difference of two snapshots over the first gives the second. *)

From stdpp Require Import prelude list sorting strings.
From Stdlib Require Import ZArith Lia Strings.Byte Sorted.
From S2P Require Import Prelude Prog Control Model Source QtrbEvents FlightWire FlightContext FlightPayload.
Local Open Scope string_scope.
Local Open Scope list_scope.
Local Open Scope Z_scope.

(** ** Bit masks of slots *)

Definition slots_of (changed : list RegisterValue) : list Z := map (fun r => slot_index (rv_slot r)) changed.

(** The mask with the bits of these slots. *)
Definition mask_of (slots : list Z) : Z := foldr (fun i m => Z.lor (Z.shiftl 1 i) m) 0 slots.

Lemma testbit_one_shift i j : 0 <= i -> 0 <= j -> Z.testbit (Z.shiftl 1 i) j = (i =? j).
Proof.
  intros Hi Hj. rewrite Z.shiftl_1_l. destruct (Z.eqb_spec i j) as [->|].
  - by apply Z.pow2_bits_true.
  - by apply Z.pow2_bits_false.
Qed.

Lemma land_bit mask i : 0 <= i -> negb (Z.land mask (Z.shiftl 1 i) =? 0) = Z.testbit mask i.
Proof.
  intros Hi. destruct (Z.testbit mask i) eqn:E.
  - apply negb_true_iff, Z.eqb_neq. intros H0.
    assert (Z.testbit (Z.land mask (Z.shiftl 1 i)) i = true) as Hb
      by (rewrite Z.land_spec, E, testbit_one_shift by done; by rewrite Z.eqb_refl).
    by rewrite H0, Z.bits_0 in Hb.
  - apply negb_false_iff, Z.eqb_eq, Z.bits_inj'. intros j Hj.
    rewrite Z.land_spec, Z.bits_0, testbit_one_shift by done.
    destruct (Z.eqb_spec i j) as [<-|]; [by rewrite E|apply andb_false_r].
Qed.

Lemma testbit_mask_of slots i :
  Forall (fun j => 0 <= j) slots -> 0 <= i -> Z.testbit (mask_of slots) i = bool_decide (i ∈ slots).
Proof.
  intros Hs Hi. induction Hs as [|j slots Hj Hs IH]; cbn [mask_of foldr].
  { rewrite Z.bits_0. symmetry. apply bool_decide_eq_false, not_elem_of_nil. }
  fold (mask_of slots). rewrite Z.lor_spec, IH, testbit_one_shift by done.
  rewrite (bool_decide_ext (i ∈ j :: slots) (j = i \/ i ∈ slots)) by set_solver.
  rewrite bool_decide_or. f_equal.
  destruct (Z.eqb_spec j i); symmetry;
    [by apply bool_decide_eq_true|by apply bool_decide_eq_false].
Qed.

Lemma mask_of_nonneg slots : Forall (fun j => 0 <= j) slots -> 0 <= mask_of slots.
Proof.
  induction 1 as [|j slots Hj Hs IH]; cbn [mask_of foldr]; [done|]. fold (mask_of slots).
  apply Z.lor_nonneg. split; [by apply Z.shiftl_nonneg|done].
Qed.

Definition set_slots (mask : Z) : list Z := List.filter (Z.testbit mask) (seqZ 0 REGISTER_SLOT_COUNT).

Definition slot_list (slots : list Z) : Prop :=
  StronglySorted Z.lt slots /\ Forall (fun i => 0 <= i < REGISTER_SLOT_COUNT) slots.

Lemma seqZ_sorted m n : StronglySorted Z.lt (seqZ m n).
Proof.
  unfold seqZ. generalize (Z.to_nat n). intros k. generalize 0%nat. revert m.
  induction k as [|k IH]; intros m a; cbn; [constructor|]. constructor; [apply IH|].
  apply Forall_forall. intros x (i & -> & Hi)%list_elem_of_fmap.
  apply elem_of_seq in Hi. lia.
Qed.

Lemma elem_of_set_slots mask i :
  i ∈ set_slots mask <-> 0 <= i < REGISTER_SLOT_COUNT /\ Z.testbit mask i = true.
Proof.
  unfold set_slots. rewrite list_elem_of_In, List.filter_In, <- list_elem_of_In, elem_of_seqZ.
  split; intros [? ?]; split; auto; lia.
Qed.

Lemma set_slots_list mask : slot_list (set_slots mask).
Proof.
  split; [apply filter_sorted, seqZ_sorted|]. apply Forall_forall.
  by intros i [? _]%elem_of_set_slots.
Qed.

Lemma sorted_lists_equal (l k : list Z) :
  StronglySorted Z.lt l -> StronglySorted Z.lt k -> (forall i, i ∈ l <-> i ∈ k) -> l = k.
Proof.
  intros Hl Hk Hi. assert (forall q, StronglySorted Z.lt q -> NoDup q) as Hdup.
  { induction 1 as [|x q Hq IH Hx]; constructor; [|done].
    intros Hin. apply (proj1 (Forall_forall _ _)) with (x := x) in Hx; [lia|done]. }
  assert (AntiSymm (=) Z.lt) as Hanti by (intros a b ? ?; lia).
  apply (StronglySorted_unique Z.lt); [done..|]. apply NoDup_Permutation; auto.
Qed.

(** A mask within the slots is the mask of its slots, and back. *)
Lemma set_slots_mask slots : slot_list slots -> set_slots (mask_of slots) = slots.
Proof.
  intros [Hs Hr]. assert (Forall (fun j => 0 <= j) slots) as H0.
  { eapply Forall_impl; [exact Hr|]. intros i Hi. cbn beta in *. lia. }
  apply sorted_lists_equal; [apply set_slots_list|done|]. intros i. rewrite elem_of_set_slots. split.
  - intros [Hi Hb]. rewrite testbit_mask_of in Hb by (done || lia). by apply bool_decide_eq_true in Hb.
  - intros Hi. pose proof (proj1 (Forall_forall _ _) Hr i Hi) as Hb. cbn beta in Hb. split; [done|].
    rewrite testbit_mask_of by (done || lia). by apply bool_decide_eq_true.
Qed.

Lemma high_bits_clear mask i :
  Z.shiftr mask REGISTER_SLOT_COUNT = 0 -> REGISTER_SLOT_COUNT <= i -> Z.testbit mask i = false.
Proof.
  intros Hm Hi. replace i with ((i - REGISTER_SLOT_COUNT) + REGISTER_SLOT_COUNT) by lia.
  rewrite <- Z.shiftr_spec by lia. by rewrite Hm, Z.bits_0.
Qed.

Lemma mask_set_slots mask : Z.shiftr mask REGISTER_SLOT_COUNT = 0 -> mask_of (set_slots mask) = mask.
Proof.
  intros Hm. apply Z.bits_inj'. intros i Hi.
  rewrite testbit_mask_of; [|eapply Forall_impl; [apply set_slots_list|]; intros j Hj; cbn beta in *; lia|done].
  destruct (Z.le_gt_cases REGISTER_SLOT_COUNT i) as [Hge|Hlt].
  - rewrite (high_bits_clear mask i) by done. apply bool_decide_eq_false.
    intros [? _]%elem_of_set_slots. lia.
  - destruct (Z.testbit mask i) eqn:E.
    + apply bool_decide_eq_true, elem_of_set_slots. split; [lia|done].
    + apply bool_decide_eq_false. intros [_ ?]%elem_of_set_slots. congruence.
Qed.

Lemma mask_of_high slots :
  slot_list slots -> Z.shiftr (mask_of slots) REGISTER_SLOT_COUNT = 0.
Proof.
  intros [_ Hr]. assert (Forall (fun j => 0 <= j) slots) as H0.
  { eapply Forall_impl; [exact Hr|]. intros i Hi. cbn beta in *. lia. }
  apply Z.bits_inj'. intros i Hi. rewrite Z.shiftr_spec, Z.bits_0 by done.
  rewrite testbit_mask_of by (done || unfold REGISTER_SLOT_COUNT; lia).
  apply bool_decide_eq_false. intros Hin. pose proof (proj1 (Forall_forall _ _) Hr _ Hin). cbn beta in *. lia.
Qed.

Lemma filter_none {A} (f : A -> bool) l : Forall (fun x => f x = false) l -> List.filter f l = [].
Proof. induction 1 as [|x l Hx Hl IH]; cbn; [done|]. by rewrite Hx. Qed.

Lemma count_ones_slots mask :
  Z.shiftr mask REGISTER_SLOT_COUNT = 0 -> count_ones mask = zlen (set_slots mask).
Proof.
  intros Hm. unfold count_ones, set_slots.
  change (seqZ 0 64) with (seqZ 0 REGISTER_SLOT_COUNT ++ seqZ REGISTER_SLOT_COUNT 30).
  rewrite List.filter_app, (filter_none _ (seqZ REGISTER_SLOT_COUNT 30)), app_nil_r; [done|].
  apply Forall_forall. intros i [Hi _]%elem_of_seqZ. by apply high_bits_clear.
Qed.

Lemma mask_of_bound slots : slot_list slots -> 0 <= mask_of slots < 2 ^ 64.
Proof.
  intros Hs. assert (0 <= mask_of slots) as H0.
  { apply mask_of_nonneg. eapply Forall_impl; [apply Hs|]. intros i Hi. cbn beta in *. lia. }
  split; [done|]. pose proof (mask_of_high slots Hs) as Hh. rewrite Z.shiftr_div_pow2 in Hh by done.
  apply Z.div_small_iff in Hh; [|done]. unfold REGISTER_SLOT_COUNT in Hh. lia.
Qed.

Lemma mask_of_zero slots : slot_list slots -> mask_of slots = 0 -> slots = [].
Proof. intros Hs Hz. rewrite <- (set_slots_mask slots Hs), Hz. reflexivity. Qed.

(** ** Values on the wire *)

(** A register value the artifact's pointer width admits. *)
Definition fits (width : Z) (r : RegisterValue) : Prop :=
  in_u64 (rv_value r) /\ require_pointer (rv_value r) width = Some tt.

Definition encode_value (r : RegisterValue) : bytes := le_bytes 8 (rv_value r).
Definition encode_values (vs : list RegisterValue) : bytes := concat (map encode_value vs).

Lemma zlen_encode_values vs : zlen (encode_values vs) = 8 * zlen vs.
Proof.
  unfold encode_values. induction vs as [|v vs IH]; [done|]. cbn [map concat].
  rewrite zlen_app, IH. unfold encode_value. rewrite zlen_le_bytes. unfold zlen. cbn [length]. lia.
Qed.

Section loops.
Context {W S : Type} (bs : bytes) (width : Z).
Implicit Types (s : S) (w : W).

(** [vs] are the values of [slots] from [at_] on. *)
Definition reads_values (at_ : Z) (slots : list Z) (vs : list RegisterValue) : Prop :=
  (exists rest, drop (Z.to_nat at_) bs = encode_values vs ++ rest)
  /\ slots_of vs = slots /\ Forall (fits width) vs.

Lemma register_at_eq at_ i s w :
  register_at (W := W) bs width at_ i s w
  = (ok_or (raw ← slice_get bs at_ (at_ + 8);
            _ ← require_pointer (le_Z raw) width;
            slot ← slot_from_index i;
            Some (mkRegisterValue slot (le_Z raw))) TypedInvalid, s, w).
Proof.
  unfold register_at, bind, lift_option, lift_result.
  destruct (slice_get bs at_ (at_ + 8)) as [raw|]; [|done]. cbn.
  destruct (require_pointer (le_Z raw) width); [|done]. cbn. by destruct (slot_from_index i).
Qed.

Lemma reads_values_cons at_ i slots v vs :
  0 <= at_ ->
  reads_values at_ (i :: slots) (v :: vs)
  <-> (drop (Z.to_nat at_) bs = encode_value v ++ drop (Z.to_nat (at_ + 8)) bs
       /\ slot_index (rv_slot v) = i /\ fits width v) /\ reads_values (at_ + 8) slots vs.
Proof.
  intros Hat. unfold reads_values. rewrite Forall_cons.
  assert (forall rest, drop (Z.to_nat at_) bs = encode_value v ++ rest ->
    drop (Z.to_nat (at_ + 8)) bs = rest) as Hdrop.
  { intros rest Hr. rewrite (Z2Nat.inj_add at_ 8), <- drop_drop, Hr by lia.
    apply drop_app_length'. unfold encode_value. by rewrite length_le_bytes. }
  split.
  - intros ([rest Hr] & [= <- <-] & Hv & Hvs). cbn [encode_values map concat] in Hr.
    rewrite <- app_assoc in Hr. rewrite (Hdrop _ Hr). split_and!; [done..| |done|done]. by exists rest.
  - intros ((Hr & <- & Hv) & [rest Hr'] & <- & Hvs). split_and!; [|done|done|done].
    exists rest. cbn [encode_values map concat]. by rewrite Hr, Hr', app_assoc.
Qed.

Lemma register_at_ok at_ i s w v :
  0 <= at_ ->
  drop (Z.to_nat at_) bs = encode_value v ++ drop (Z.to_nat (at_ + 8)) bs ->
  slot_index (rv_slot v) = i -> fits width v ->
  register_at (W := W) bs width at_ i s w = (Ok v, s, w).
Proof.
  intros Hat Hd <- [Hv Hp]. rewrite register_at_eq.
  assert (slice_get bs at_ (at_ + 8) = Some (encode_value v)) as ->.
  { rewrite <- (take_drop (Z.to_nat at_) bs), Hd at 1. apply slice_get_mid.
    - assert (Z.to_nat at_ <= length bs)%nat.
      { apply Nat.nlt_ge. intros Hlt. rewrite drop_ge in Hd by lia.
        apply (f_equal length) in Hd. rewrite length_app in Hd. unfold encode_value in Hd.
        rewrite length_le_bytes in Hd. cbn in Hd. lia. }
      unfold zlen. rewrite length_take. lia.
    - unfold encode_value. rewrite zlen_le_bytes. lia. }
  cbn. unfold encode_value. rewrite le_Z_le_bytes by (unfold in_u64, u64_max in Hv; cbn; lia).
  rewrite Hp. cbn. rewrite (proj2 (slot_from_index_iff _ _) eq_refl). by destruct v.
Qed.

Lemma register_at_inv at_ i s w :
  0 <= at_ ->
  (exists v, drop (Z.to_nat at_) bs = encode_value v ++ drop (Z.to_nat (at_ + 8)) bs
     /\ slot_index (rv_slot v) = i /\ fits width v)
  \/ register_at (W := W) bs width at_ i s w = (Err TypedInvalid, s, w).
Proof.
  intros Hat. rewrite register_at_eq.
  destruct (slice_get bs at_ (at_ + 8)) as [raw|] eqn:Hraw; [|by right]. cbn.
  destruct (require_pointer (le_Z raw) width) as [[]|] eqn:Hp; [|by right]. cbn.
  destruct (slot_from_index i) as [slot|] eqn:Hi; [|by right]. cbn. left.
  apply slice_get_Some in Hraw as (a & b & -> & Ha & Hr); [|done].
  exists (mkRegisterValue slot (le_Z raw)). cbn. apply slot_from_index_iff in Hi as ->.
  unfold encode_value. cbn [rv_value]. rewrite le_bytes_le_Z by (unfold zlen in Hr; lia).
  split_and!; [|done|].
  - rewrite drop_app_length' by (unfold zlen in Ha; lia). f_equal.
    rewrite app_assoc. rewrite drop_app_length'; [done|]. rewrite length_app. unfold zlen in *. lia.
  - split; [|done]. cbn. pose proof (le_Z_range raw) as Hz.
    replace (zlen raw) with 8 in Hz by lia. unfold in_u64, u64_max. lia.
Qed.

(** The slot loop of a delta: it succeeds exactly on the values of the slots the
    mask selects, and never touches the world. *)
Lemma delta_loop mask xs acc at_ s w :
  0 <= at_ -> Forall (fun i => 0 <= i) xs ->
  let slots := List.filter (Z.testbit mask) xs in
  (exists vs, reads_values at_ slots vs
     /\ fold_each xs (acc, at_) (delta_turn (W := W) bs width mask) s w
        = (Ok (acc ++ vs, at_ + 8 * zlen vs), s, w))
  \/ ((forall vs, ~ reads_values at_ slots vs)
      /\ fold_each xs (acc, at_) (delta_turn (W := W) bs width mask) s w = (Err TypedInvalid, s, w)).
Proof.
  intros Hat Hxs. revert acc at_ Hat. induction Hxs as [|i xs Hi Hxs IH]; intros acc at_ Hat slots.
  - left. exists []. split; [split_and!; [by eexists|done|done]|]. cbn [fold_each]. unfold ret.
    rewrite app_nil_r. unfold zlen. cbn [length Z.of_nat]. by rewrite Z.mul_0_r, Z.add_0_r.
  - cbn [fold_each]. unfold bind. subst slots. cbn [List.filter]. unfold delta_turn at 1 3.
    rewrite land_bit by done. destruct (Z.testbit mask i); [|apply IH, Hat]. cbn [fst snd]. unfold bind.
    destruct (register_at_inv at_ i s w Hat) as [(v & Hd & Hv & Hf)|Herr].
    + rewrite (register_at_ok at_ i s w v) by done. cbn [ret].
      destruct (IH (acc ++ [v]) (at_ + 8) ltac:(lia)) as [(vs & Hr & Hrun)|[Hno Hrun]].
      * left. exists (v :: vs). split; [by apply reads_values_cons|]. unfold ret. rewrite Hrun.
        rewrite <- app_assoc. do 4 f_equal. unfold zlen. cbn [length]. lia.
      * right. split; [|done]. intros [|v' vs]; [by intros (_ & ? & _)|].
        intros [_ Hr]%reads_values_cons; [|done]. by apply (Hno vs).
    + rewrite Herr. right. split; [|done]. intros [|v vs]; [by intros (_ & ? & _)|].
      intros [(Hd & Hv & Hf) _]%reads_values_cons; [|done].
      by rewrite (register_at_ok at_ i s w v) in Herr.
Qed.

(** The loop of a checkpoint reads every slot. *)
Lemma checkpoint_loop n a s w :
  0 <= a ->
  let xs := map (fun i : nat => Z.of_nat i + a) (seq 0 n) in
  (exists vs, reads_values (a * 8) xs vs
     /\ for_each xs (fun i => register_at (W := W) bs width (i * 8) i) s w = (Ok vs, s, w))
  \/ ((forall vs, ~ reads_values (a * 8) xs vs)
      /\ for_each xs (fun i => register_at (W := W) bs width (i * 8) i) s w = (Err TypedInvalid, s, w)).
Proof.
  revert a. induction n as [|n IH]; intros a Ha xs.
  - left. exists []. split; [split_and!; [by eexists|done|done]|done].
  - assert (xs = a :: map (fun i : nat => Z.of_nat i + (a + 1)) (seq 0 n)) as ->.
    { subst xs. cbn [seq map]. f_equal. rewrite <- seq_shift, map_map. apply map_ext. intros i. lia. }
    cbn [for_each]. unfold bind. replace ((a + 1) * 8) with (a * 8 + 8) in IH by lia.
    specialize (IH (a + 1) ltac:(lia)). replace ((a + 1) * 8) with (a * 8 + 8) in IH by lia.
    destruct (register_at_inv (a * 8) a s w ltac:(lia)) as [(v & Hd & Hv & Hf)|Herr].
    + rewrite (register_at_ok (a * 8) a s w v) by (done || lia).
      destruct IH as [(vs & Hr & Hrun)|[Hno Hrun]]; rewrite Hrun.
      * left. exists (v :: vs). split; [by apply reads_values_cons; [lia|]|done].
      * right. split; [|done]. intros [|v' vs]; [by intros (_ & ? & _)|].
        intros [_ Hr]%reads_values_cons; [|lia]. by apply (Hno vs).
    + rewrite Herr. right. split; [|done]. intros [|v vs]; [by intros (_ & ? & _)|].
      intros [(Hd & Hv & Hf) _]%reads_values_cons; [|lia].
      by rewrite (register_at_ok (a * 8) a s w v) in Herr by (done || lia).
Qed.

End loops.

(** ** The records *)

(** A delta: a non-empty, strictly increasing set of slots with their values. *)
Definition delta_wire (width : Z) (bs : bytes) (mask : Z) (changed : list RegisterValue) : Prop :=
  changed <> [] /\ slot_list (slots_of changed) /\ Forall (fits width) changed
  /\ mask = mask_of (slots_of changed)
  /\ bs = le_bytes 8 mask ++ encode_values changed.

(** A checkpoint: all slots in order. *)
Definition checkpoint_wire (width : Z) (bs : bytes) (values : list RegisterValue) : Prop :=
  slots_of values = seqZ 0 REGISTER_SLOT_COUNT /\ Forall (fits width) values
  /\ bs = encode_values values.

Lemma zlen_slots_of changed : zlen (slots_of changed) = zlen changed.
Proof. unfold slots_of, zlen. by rewrite length_map. Qed.

Lemma reads_rest bs width at_ slots vs :
  reads_values bs width at_ slots vs -> 0 <= at_ -> zlen bs = at_ + 8 * zlen vs ->
  drop (Z.to_nat at_) bs = encode_values vs.
Proof.
  intros ([rest Hr] & _ & _) Hat Hlen. rewrite Hr.
  assert (zlen rest = 0) as Hz.
  { apply (f_equal zlen) in Hr. rewrite zlen_app, zlen_encode_values in Hr.
    unfold zlen in Hr at 1. rewrite length_drop in Hr. unfold zlen in *. lia. }
  destruct rest; [|unfold zlen in Hz; cbn in Hz; lia]. apply app_nil_r.
Qed.

Lemma delta_wire_reads width bs mask changed :
  8 <= zlen bs -> mask = le_Z (slice bs 0 8) -> Z.shiftr mask REGISTER_SLOT_COUNT = 0 ->
  zlen bs = 8 + count_ones mask * 8 -> mask <> 0 ->
  delta_wire width bs mask changed <-> reads_values bs width 8 (set_slots mask) changed.
Proof.
  intros H8 Hmask Hhigh Hlen H0. rewrite count_ones_slots in Hlen by done. split.
  - intros (_ & Hs & Hf & Hm & Hbs). split_and!; [|by rewrite Hm, set_slots_mask|done].
    exists []. rewrite Hbs at 1. rewrite app_nil_r. apply drop_app_length'. by rewrite length_le_bytes.
  - intros Hr. pose proof Hr as (_ & Hs & Hf).
    assert (zlen bs = 8 + 8 * zlen changed) as Hl by (rewrite <- zlen_slots_of, Hs; lia).
    pose proof (reads_rest _ _ _ _ _ Hr ltac:(lia) Hl) as Hd. split_and!; [..|].
    + intros ->. cbn in Hs. apply H0. by rewrite <- (mask_set_slots mask Hhigh), <- Hs.
    + rewrite Hs. apply set_slots_list.
    + done.
    + rewrite Hs. symmetry. by apply mask_set_slots.
    + rewrite <- Hd, Hmask, le_bytes_le_Z.
      * unfold slice. cbn [Z.to_nat drop]. change (Pos.to_nat 8) with 8%nat. by rewrite take_drop.
      * pose proof (length_slice bs 0 8 ltac:(lia) ltac:(lia) ltac:(lia)) as Hz. unfold zlen in Hz. lia.
Qed.

Lemma delta_wire_checks width bs mask changed :
  delta_wire width bs mask changed ->
  8 <= zlen bs /\ mask = le_Z (slice bs 0 8) /\ Z.shiftr mask REGISTER_SLOT_COUNT = 0
  /\ zlen bs = 8 + count_ones mask * 8 /\ mask <> 0.
Proof.
  intros (Hne & Hs & _ & Hm & Hbs). pose proof (mask_of_bound _ Hs) as Hb.
  assert (Z.shiftr mask REGISTER_SLOT_COUNT = 0) as Hh by (rewrite Hm; by apply mask_of_high).
  assert (zlen bs = 8 + 8 * zlen changed) as Hl.
  { rewrite Hbs, zlen_app, zlen_le_bytes, zlen_encode_values. done. }
  pose proof (zlen_nonneg changed). split_and!; [lia| |done| |].
  - rewrite Hbs. replace 8 with (zlen (le_bytes 8 mask)) at 2 by by rewrite zlen_le_bytes.
    rewrite slice_app_l, le_Z_le_bytes; [done|]. rewrite Hm. exact Hb.
  - rewrite count_ones_slots, Hm, set_slots_mask, zlen_slots_of by done. lia.
  - intros Hz. rewrite Hm in Hz. apply mask_of_zero in Hz; [|done]. by destruct changed.
Qed.

(** ** The decoders *)

Section exact.
Context {W : Type} `{WorkGuard W} `{Allocator W} {S : Type}.

(** What a typed decoder promises: the value related to the bytes, [TypedInvalid]
    exactly when there is none, and otherwise only a refused resource. *)
Definition decodes {A} (p : Prog W TypedDecodeError S A) (related : A -> Prop) : Prop :=
  forall s w, match p s w with
              | (Ok a, s', _) => s' = s /\ related a
              | (Err TypedInvalid, s', _) => s' = s /\ forall a, ~ related a
              | (Err (TypedControl e), s', _) => s' = s /\ resource_error e
              end.

Lemma decodes_reserve {A B} t n detail (k : Vec B -> Prog W TypedDecodeError S A) related :
  (forall v, decodes (k v) related) ->
  decodes (bind (relabel TypedControl (flight_reserve_vec t vec_new n detail)) k) related.
Proof.
  intros Hk s w. unfold relabel, attempt, attempt_on, bind.
  assert (wp (W := W) (flight_reserve_vec t (vec_new (A := B)) n detail) (fun _ s' => s' = s)
    (fun e s' => s' = s /\ resource_error e) s) as Hwp.
  { apply wp_bind, wp_reserve_vec; [apply _|intros; by apply wp_ret|done]. }
  specialize (Hwp w). destruct (flight_reserve_vec t vec_new n detail s w) as [[[v|e] s1] w1].
  - subst s1. apply Hk.
  - by destruct Hwp as [-> He].
Qed.

Lemma decodes_check {A} (b : bool) (k : unit -> Prog W TypedDecodeError S A) related :
  (b = true -> forall a, ~ related a) -> (b = false -> decodes (k tt) related) ->
  decodes (bind (fail_if b TypedInvalid) k) related.
Proof.
  intros Hno Hk s w. destruct b; cbn.
  - split; [done|]. by apply Hno.
  - by apply Hk.
Qed.

Lemma decode_checkpoint_exact bs width :
  decodes (decode_checkpoint bs width) (fun '(checkpoint, snapshot) =>
    checkpoint_wire width bs (rc_values checkpoint)
    /\ rs_values snapshot = map rv_value (rc_values checkpoint)).
Proof.
  unfold decode_checkpoint. apply decodes_check.
  { intros Hb%negb_true_iff%Z.eqb_neq [checkpoint snapshot] [(Hs & _ & Hbs) _]. apply Hb.
    rewrite Hbs, zlen_encode_values, <- zlen_slots_of, Hs. done. }
  intros Hlen%negb_false_iff%Z.eqb_eq. apply decodes_reserve. intros _. apply decodes_reserve. intros _.
  intros s w. unfold bind. change (seqZ 0 REGISTER_SLOT_COUNT)
    with (map (fun i : nat => Z.of_nat i + 0) (seq 0 34)) at 1.
  destruct (checkpoint_loop bs width 34 0 s w ltac:(lia)) as [(vs & Hr & Hrun)|[Hno Hrun]]; rewrite Hrun.
  - pose proof Hr as (_ & Hs & Hf).
    assert (zlen vs = REGISTER_SLOT_COUNT) as Hn by (rewrite <- zlen_slots_of, Hs; done).
    unfold snapshot_new. replace (zlen (map rv_value vs)) with (zlen vs) by (unfold zlen; by rewrite length_map).
    rewrite Hn, Z.eqb_refl. cbn. split; [done|]. split; [|done]. split_and!; [done|done|].
    apply (reads_rest _ _ _ _ _ Hr); [lia|]. unfold REGISTER_SLOT_COUNT in *. lia.
  - split; [done|]. intros [checkpoint snapshot] [(Hs & Hf & Hbs) _]. apply (Hno (rc_values checkpoint)).
    split_and!; [|done|done]. exists []. by rewrite app_nil_r.
Qed.

Lemma decode_delta_exact bs width ancestry :
  decodes (decode_delta bs width ancestry) (fun '(delta, after) =>
    delta_wire width bs (de_mask delta) (de_changed delta)
    /\ de_ancestry_reliable delta = bool_decide (is_Some ancestry)
    /\ after = (fun snapshot => snapshot_apply snapshot (de_changed delta)) <$> ancestry).
Proof.
  unfold decode_delta. apply decodes_check.
  { intros Hb [delta after] [(? & _)%delta_wire_checks _]. lia. }
  intros H8. set (mask := le_Z (slice bs 0 8)). apply decodes_check.
  { intros Hb [delta after] [(_ & Hm & Hh & Hl & Hz)%delta_wire_checks _]. fold mask in Hm.
    rewrite <- Hm, Hh, <- Hl, Z.eqb_refl in Hb. cbn in Hb. rewrite orb_false_r in Hb. lia. }
  intros [[Hz Hh%negb_false_iff]%orb_false_iff Hl%negb_false_iff]%orb_false_iff.
  apply Z.eqb_eq in Hh, Hl. apply decodes_reserve. intros _ s w. unfold bind.
  assert (Forall (fun i => 0 <= i) (seqZ 0 REGISTER_SLOT_COUNT)) as Hxs
    by (apply Forall_forall; intros i [? _]%elem_of_seqZ; lia).
  pose proof (fun changed => delta_wire_reads width bs mask changed ltac:(lia) eq_refl Hh Hl ltac:(lia)) as Hiff.
  destruct (delta_loop bs width mask _ [] 8 s w ltac:(lia) Hxs) as [(vs & Hr & Hrun)|[Hno Hrun]];
    rewrite Hrun; cbn.
  - split; [done|]. split_and!; [|done|done]. by apply Hiff.
  - split; [done|]. intros [delta after] [Hw _].
    pose proof (delta_wire_checks _ _ _ _ Hw) as (_ & Hm & _). rewrite Hm in Hw.
    apply (Hno (de_changed delta)). by apply Hiff.
Qed.

End exact.

(** C25: register records decode exactly.  Whatever the guard and the heap do, a
    checkpoint payload decodes exactly when it is the encoding of 34 values
    within the pointer width, to those values; a delta payload exactly when it
    is the encoding of a non-empty set of changed slots in increasing order,
    to those changes applied to the ancestry it is given.  Otherwise the record
    is invalid or a resource was refused, and the receiver is untouched. *)
Theorem register_records_exact (W : Type) (G : WorkGuard W) (A : Allocator W) (S : Type)
    (bs : bytes) (width : Z) (ancestry : option RegisterSnapshot) :
  decodes (W := W) (S := S) (decode_checkpoint bs width) (fun '(checkpoint, snapshot) =>
    checkpoint_wire width bs (rc_values checkpoint)
    /\ rs_values snapshot = map rv_value (rc_values checkpoint))
  /\ decodes (W := W) (S := S) (decode_delta bs width ancestry) (fun '(delta, after) =>
    delta_wire width bs (de_mask delta) (de_changed delta)
    /\ de_ancestry_reliable delta = bool_decide (is_Some ancestry)
    /\ after = (fun snapshot => snapshot_apply snapshot (de_changed delta)) <$> ancestry).
Proof. split; [apply decode_checkpoint_exact|apply decode_delta_exact]. Qed.

(** ** Replaying a difference *)

(** The change the writer records for one slot. *)
Definition change_of (old new : RegisterSnapshot) (i : Z) : option RegisterValue :=
  slot ← slot_from_index i;
  value ← snapshot_value new slot;
  if bool_decide (snapshot_value old slot = Some value) then None
  else Some (mkRegisterValue slot value).

Definition changes (old new : RegisterSnapshot) : list RegisterValue :=
  omap (change_of old new) (seqZ 0 REGISTER_SLOT_COUNT).

Lemma elem_of_changes old new r :
  r ∈ changes old new
  <-> snapshot_value new (rv_slot r) = Some (rv_value r)
      /\ snapshot_value old (rv_slot r) <> Some (rv_value r).
Proof.
  unfold changes. rewrite list_elem_of_omap. unfold change_of. split.
  - intros (i & _ & Hr). apply bind_Some in Hr as (slot & _ & Hr).
    apply bind_Some in Hr as (value & Hv & Hr). case_bool_decide; [done|].
    injection Hr as <-. done.
  - intros [Hn Ho]. exists (slot_index (rv_slot r)). split.
    + apply elem_of_seqZ. pose proof (slot_index_range (rv_slot r)). lia.
    + rewrite (proj2 (slot_from_index_iff _ _) eq_refl). cbn. rewrite Hn. cbn.
      rewrite bool_decide_false by done. by destruct r.
Qed.

Lemma omap_sorted (f : Z -> option RegisterValue) xs :
  (forall i r, f i = Some r -> slot_index (rv_slot r) = i) ->
  StronglySorted Z.lt xs -> StronglySorted Z.lt (slots_of (omap f xs)).
Proof.
  intros Hf. induction 1 as [|i xs Hxs IH Hi]; cbn; [constructor|].
  destruct (f i) as [r|] eqn:E; [|done]. cbn. constructor; [done|].
  apply Forall_forall. intros j (r' & -> & Hr')%list_elem_of_fmap.
  apply list_elem_of_omap in Hr' as (i' & Hi' & Hr'). rewrite (Hf _ _ E), (Hf _ _ Hr').
  by apply (proj1 (Forall_forall _ _) Hi).
Qed.

Lemma changes_slots old new : slot_list (slots_of (changes old new)).
Proof.
  split.
  - apply omap_sorted; [|apply seqZ_sorted]. unfold change_of. intros i r Hr.
    apply bind_Some in Hr as (slot & Hs & Hr). apply bind_Some in Hr as (value & _ & Hr).
    case_bool_decide; [done|]. injection Hr as <-. by apply slot_from_index_iff in Hs.
  - apply Forall_forall. intros i (r & -> & _)%list_elem_of_fmap. apply slot_index_range.
Qed.

Lemma last_write_unique changed r :
  StronglySorted Z.lt (slots_of changed) -> r ∈ changed ->
  last_write changed (rv_slot r) = Some (rv_value r).
Proof.
  intros Hs Hr. unfold last_write.
  destruct (last (filter (fun item => rv_slot item = rv_slot r) changed)) as [r'|] eqn:E.
  - apply last_Some in E as [l E].
    assert (r' ∈ filter (fun item => rv_slot item = rv_slot r) changed) as [Hslot Hr']%list_elem_of_filter
      by (rewrite E; set_solver). cbn. f_equal.
    clear E l. induction changed as [|x changed IH]; [by apply not_elem_of_nil in Hr|].
    cbn in Hs. apply StronglySorted_inv in Hs as [Hs Hx].
    rewrite Forall_forall in Hx.
    assert (forall y, y ∈ changed -> slot_index (rv_slot x) < slot_index (rv_slot y)) as Hlt
      by (intros y Hy; apply Hx, list_elem_of_fmap; by exists y).
    apply elem_of_cons in Hr as [->|Hr], Hr' as [->|Hr']; [done|..].
    + specialize (Hlt _ Hr'). rewrite Hslot in Hlt. lia.
    + specialize (Hlt _ Hr). rewrite Hslot in Hlt. lia.
    + by apply IH.
  - apply last_None in E.
    assert (r ∈ filter (fun item => rv_slot item = rv_slot r) changed) as Hin by by apply list_elem_of_filter.
    rewrite E in Hin. by apply not_elem_of_nil in Hin.
Qed.

(** Snapshots are equal when their slots are. *)
Lemma snapshot_ext a b :
  zlen (rs_values a) = REGISTER_SLOT_COUNT -> zlen (rs_values b) = REGISTER_SLOT_COUNT ->
  (forall r, snapshot_value a r = snapshot_value b r) -> a = b.
Proof.
  destruct a as [a], b as [b]. cbn. intros Ha Hb Hr. f_equal. apply list_eq. intros i.
  unfold zlen in Ha, Hb. destruct (decide (i < 34)%nat) as [Hi|Hi].
  - destruct (slot_from_index (Z.of_nat i)) as [r|] eqn:E.
    + apply slot_from_index_iff in E. specialize (Hr r). unfold snapshot_value in Hr. cbn in Hr.
      by rewrite <- E, Nat2Z.id in Hr.
    + exfalso. do 34 (destruct i as [|i]; [done|]). lia.
  - rewrite !lookup_ge_None_2; [done|unfold REGISTER_SLOT_COUNT in *; lia..].
Qed.

Lemma apply_changes old new :
  zlen (rs_values old) = REGISTER_SLOT_COUNT -> zlen (rs_values new) = REGISTER_SLOT_COUNT ->
  snapshot_apply old (changes old new) = new.
Proof.
  intros Ho Hn. apply snapshot_ext; [|done|].
  { unfold zlen in *. by rewrite length_snapshot_apply. }
  intros r. rewrite snapshot_value_apply by done.
  destruct (snapshot_value new r) as [v|] eqn:Hv.
  - destruct (decide (snapshot_value old r = Some v)) as [Heq|Hne].
    + destruct (last_write (changes old new) r) as [v'|] eqn:E; [|done].
      unfold last_write in E. destruct (last _) as [r'|] eqn:El; [|done]. injection E as <-.
      apply last_Some in El as [l El].
      assert (r' ∈ filter (fun item => rv_slot item = r) (changes old new)) as [<- Hr']%list_elem_of_filter
        by (rewrite El; set_solver).
      apply elem_of_changes in Hr' as [Hr' _]. congruence.
    + pose proof (last_write_unique _ (mkRegisterValue r v) (proj1 (changes_slots old new))
        (proj2 (elem_of_changes _ _ (mkRegisterValue r v)) (conj Hv Hne))) as Hw. cbn in Hw. by rewrite Hw.
  - exfalso. unfold snapshot_value in Hv. apply lookup_ge_None_1 in Hv.
    pose proof (slot_index_range r). unfold zlen in Hn. lia.
Qed.

Lemma encode_values_inj vs vs' :
  slots_of vs = slots_of vs' -> Forall (fun r => in_u64 (rv_value r)) vs ->
  Forall (fun r => in_u64 (rv_value r)) vs' -> encode_values vs = encode_values vs' -> vs = vs'.
Proof.
  intros Hs Hv. revert vs' Hs. induction Hv as [|v vs Hv Hvs IH]; intros [|v' vs'] Hs Hv' He; [done..|].
  injection Hs as Hi Hs. apply Forall_cons in Hv' as [Hv' Hvs'].
  cbn [encode_values map concat] in He. apply app_inj_1 in He as [He Hes];
    [|unfold encode_value; by rewrite !length_le_bytes].
  f_equal; [|by apply IH]. destruct v as [r v], v' as [r' v']. cbn in *. apply slot_index_inj in Hi as ->.
  f_equal. unfold encode_value in He. cbn in He. unfold in_u64, u64_max in *.
  rewrite <- (le_Z_le_bytes 8 v), <- (le_Z_le_bytes 8 v') by (cbn; lia). by f_equal.
Qed.

Lemma delta_wire_unique width bs m m' c c' :
  delta_wire width bs m c -> delta_wire width bs m' c' -> m = m' /\ c = c'.
Proof.
  intros Hw Hw'. pose proof (delta_wire_checks _ _ _ _ Hw) as (_ & Hm & _).
  pose proof (delta_wire_checks _ _ _ _ Hw') as (_ & Hm' & _).
  assert (m = m') as <- by congruence. split; [done|].
  destruct Hw as (_ & Hs & Hf & He & Hbs), Hw' as (_ & Hs' & Hf' & He' & Hbs').
  assert (forall vs, Forall (fits width) vs -> Forall (fun r => in_u64 (rv_value r)) vs) as Hu.
  { intros vs Hvs. eapply Forall_impl; [exact Hvs|]. by intros r [? _]. }
  apply encode_values_inj; [|by apply Hu..|].
  - rewrite <- (set_slots_mask _ Hs), <- (set_slots_mask _ Hs'). congruence.
  - rewrite Hbs in Hbs'. by apply app_inv_head in Hbs'.
Qed.

(** With nothing refused there is no control error. *)
Lemma wp_reserve_granted {S A} t (v : Vec A) n detail (s : S) :
  wp (W := unit) (flight_reserve_vec t v n detail) (fun _ s' => s' = s) (fun _ _ => False) s.
Proof.
  intros []. destruct (run_flight_reserve t v n detail s) as [cap Hcap]. unfold run in Hcap.
  destruct (flight_reserve_vec t v n detail s tt) as [[r s'] []]. cbn in Hcap. by injection Hcap as -> ->.
Qed.

Lemma run_delta_typed {S} bs width ancestry (s : S) :
  wp (W := unit) (decode_delta bs width ancestry) (fun _ _ => True) (fun e _ => e = TypedInvalid) s.
Proof.
  unfold decode_delta. generalize (le_Z (slice bs 0 8)). intros mask.
  apply wp_bind, wp_fail_if; [intros _|done]. apply wp_bind, wp_fail_if; [intros _|done].
  apply wp_bind, wp_relabel. eapply wp_mono; [apply wp_reserve_granted| |done]. intros _ s' ->.
  assert (Forall (fun i => 0 <= i) (seqZ 0 REGISTER_SLOT_COUNT)) as Hxs
    by (apply Forall_forall; intros i [? _]%elem_of_seqZ; lia).
  apply wp_bind. intros w.
  destruct (delta_loop bs width mask _ [] 8 s w ltac:(lia) Hxs) as [(vs & _ & Hrun)|[_ Hrun]];
    rewrite Hrun; [by apply wp_ret|done].
Qed.

(** The payload a writer emits for the step from [old] to [new]. *)
Definition encode_delta (old new : RegisterSnapshot) : bytes :=
  le_bytes 8 (mask_of (slots_of (changes old new))) ++ encode_values (changes old new).

(** Deltas replay.  For two different register snapshots whose values fit
    the pointer width, decoding the delta between them over the first one
    yields the second one, marked reliable, whatever the receiver. *)
Theorem delta_replays (S : Type) (s : S) (width : Z) (old new : RegisterSnapshot)
    (Hold : zlen (rs_values old) = REGISTER_SLOT_COUNT)
    (Hnew : zlen (rs_values new) = REGISTER_SLOT_COUNT) (Hdiff : old <> new)
    (Hfits : Forall (fun v => in_u64 v /\ require_pointer v width = Some tt) (rs_values new)) :
  exists delta,
    run (decode_delta (encode_delta old new) width (Some old)) s = (Ok (delta, Some new), s)
    /\ de_ancestry_reliable delta = true /\ de_changed delta = changes old new.
Proof.
  assert (delta_wire width (encode_delta old new) (mask_of (slots_of (changes old new)))
    (changes old new)) as Hw.
  { split_and!; [|apply changes_slots| |done|done].
    - intros Hnil. apply Hdiff. rewrite <- (apply_changes old new Hold Hnew), Hnil. by destruct old.
    - apply Forall_forall. intros r [Hr _]%elem_of_changes.
      by apply (proj1 (Forall_forall _ _) Hfits), list_elem_of_lookup; eexists. }
  pose proof (decode_delta_exact (W := unit) (S := S) (encode_delta old new) width (Some old) s tt) as Hd.
  unfold run. destruct (decode_delta (encode_delta old new) width (Some old) s tt)
    as [[[[delta after]|[|e]] s'] []] eqn:Hrun.
  - destruct Hd as [-> (Hw' & Hrel & ->)]. destruct (delta_wire_unique _ _ _ _ _ _ Hw' Hw) as [_ Hc].
    exists delta. cbn. by rewrite Hc, apply_changes, Hrel.
  - destruct Hd as [_ Hno]. exfalso.
    apply (Hno (mkRegisterDelta (mask_of (slots_of (changes old new))) (changes old new) true, Some new)).
    cbn. split_and!; [exact Hw|done|by rewrite apply_changes].
  - exfalso. pose proof (wp_run_err _ _ _ _ _ _ _ _ (run_delta_typed _ _ _ s) Hrun). done.
Qed.

Lemma delta_replays_witness :
  exists delta,
    run (decode_delta (encode_delta (mkSnapshot (replicate 34 0)) (mkSnapshot (<[5%nat := 7]> (replicate 34 0))))
      4 (Some (mkSnapshot (replicate 34 0)))) tt
    = (Ok (delta, Some (mkSnapshot (<[5%nat := 7]> (replicate 34 0)))), tt)
    /\ de_ancestry_reliable delta = true
    /\ de_changed delta = changes (mkSnapshot (replicate 34 0)) (mkSnapshot (<[5%nat := 7]> (replicate 34 0))).
Proof.
  apply (delta_replays unit tt 4 (mkSnapshot (replicate 34 0)) (mkSnapshot (<[5%nat := 7]> (replicate 34 0)))).
  - reflexivity.
  - reflexivity.
  - intros Heq. discriminate Heq.
  - cbn. repeat constructor; unfold u64_max; lia.
Defined.
