(* ===== verification/FlightFragments.v ===== *)
(** * Fragment assembly of Flight semantic records

    Models [qtrace-provider/src/flight/fragments.rs].  A long semantic record is
    written as several fragments that may land in different chunks; [decode]
    reads one fragment and [finish] groups them by thread, event id and kind,
    joins the groups that are whole and reports every other group as damaged. *)

From stdpp Require Import prelude list sorting strings gmap.
From Stdlib Require Import ZArith Lia Strings.Byte Sorted.
From S2P Require Import Prelude Prog Control Model Source QtrbEvents FlightWire FlightContext FlightScan FlightSort FlightPayload.
Local Open Scope string_scope.
Local Open Scope list_scope.
Local Open Scope Z_scope.

(** The order in which a [HashMap] yields its entries is the table's own. *)
Class HashOrder := {
  hash_iter : forall (id : MapId) {K V : Type} `{Countable K}, gmap K V -> list (K * V);
  hash_iter_entries (id : MapId) {K V : Type} `{Countable K} (m : gmap K V) :
    hash_iter id m ≡ₚ map_to_list m
}.

#[export] Instance insertion_order : HashOrder := {|
  hash_iter _ _ _ _ _ m := map_to_list m;
  hash_iter_entries _ _ _ _ _ m := reflexivity _
|}.

Record Fragment := mkFragment {
  fg_key : EventKey;
  fg_provenance : Provenance;
  fg_kind : Z;
  fg_event_id : Z;
  fg_total : Z;
  fg_index : Z;
  fg_count : Z;
  fg_fixed : list bytes;
  fg_detail : bytes;
  fg_chunk_index : Z;
  fg_generation : Z
}.

Definition fragment_allocation_error : ProviderError :=
  ProviderError_new "source.flight.allocation" "flight.fragment" None false
    "Flight fragment allocation failed".

Definition fragment_payload_error : ProviderError :=
  ProviderError_new "source.flight.payload" "flight.fragment" None false
    "invalid Flight fragment payload".

(** [let total_limit = ..] *)
Definition total_limit (kind : Z) : Z := if kind =? 6 then Z.shiftl 1 20 else 4096.

(** The size checks that close [decode]. *)
Definition fragment_rejected (kind total count : Z) (fixed : list bytes) (detail : bytes) : bool :=
  from_option (fun field => zlen field >? 255) true (fixed !! 0%nat)
  || ((kind =? 6) && from_option (fun field => zlen field >? 255) true (fixed !! 1%nat))
  || (zlen detail =? 0)
  || (zlen detail >? 3072)
  || (total >? total_limit kind)
  || (total <=? zlen detail)
  || (total <? count)
  || (total <? saturating_sub (saturating_add usize_max (zlen detail) count) 1).

(** [vec.pop()] *)
Definition pop {A} (l : list A) : option (list A * A) :=
  x ← last l; Some (take (length l - 1) l, x).

(** [contributor_matches] *)
Definition contributor_matches (item : Fragment) (tid : Z) (superblock : Superblock)
    (chunks : list (option ChunkIdentity)) : bool :=
  match mjoin (index ← try_from usize_max (fg_chunk_index item); chunks !! Z.to_nat index) with
  | None => false
  | Some chunk =>
      match (relative ← checked_mul u64_max (fg_chunk_index item) (sb_chunk_bytes superblock);
             checked_add u64_max (rg_offset (sb_chunks superblock)) relative) with
      | None => false
      | Some chunk_start =>
          match checked_add u64_max chunk_start FLIGHT_CHUNK_HEADER_BYTES,
                checked_add u64_max chunk_start (sb_chunk_bytes superblock) with
          | Some data_start, Some chunk_end =>
              (ci_tid chunk =? tid)
              && (ci_generation chunk =? fg_generation item)
              && bool_decide (ek_tid (fg_key item) = Some tid)
              && (data_start <=? ek_source_offset (fg_key item))
              && (ek_source_offset (fg_key item) <? chunk_end)
          | _, _ => false
          end
      end
  end.

(** The key of [group_counts] and [groups]. *)
Definition group_key (fragment : Fragment) : Z * Z * Z :=
  (default 0 (ek_tid (fg_key fragment)), fg_event_id fragment, fg_kind fragment).

(** What [finish] assigns: [output], [damaged] and [damaged_offsets]. *)
Record FragmentSink := mkFragmentSink {
  fs_output : list EventRecord;
  fs_damaged : list Z;
  fs_damaged_offsets : list Z
}.

Definition push_event (event : EventRecord) (s : FragmentSink) : FragmentSink :=
  mkFragmentSink (fs_output s ++ [event]) (fs_damaged s) (fs_damaged_offsets s).

(** One turn of [mark_damaged]. *)
Definition push_damage (evidence : option Z * Z) (s : FragmentSink) : FragmentSink :=
  mkFragmentSink (fs_output s)
    (fs_damaged s ++ match fst evidence with Some sequence => [sequence] | None => [] end)
    (fs_damaged_offsets s ++ [snd evidence]).

Section fragments.
Context {W : Type} `{WorkGuard W} `{Allocator W}.

Section receiver.
Context {S : Type}.
Abbreviation M := (Prog W ProviderError S).

Definition fragment_checkpoint (index : nat) : M unit :=
  if Z.of_nat index mod MAX_UNGUARDED_RECORDS =? 0 then consume WorkDelta_default else ret tt.

(** One turn of the field loop. *)
Definition fragment_field (bs : bytes) (strings : gmap Z bytes) (field : Z) : M bytes :=
  let! raw := lift_option (slice_get bs (16 + field * 4) (20 + field * 4)) fragment_payload_error in
  lift_option (strings !! le_Z raw) fragment_payload_error.

(** [fragments::decode] *)
Definition decode_fragment (kind : Z) (bs : bytes) (strings : gmap Z bytes) (key : EventKey)
    (p : Provenance) (chunk_index generation : Z) : M Fragment :=
  let count_of := field_count kind in
  fail_if (negb (zlen bs =? 16 + count_of * 4)) fragment_payload_error ;!
  let event_id := le_Z (slice bs 0 8) in
  let total := le_Z (slice bs 8 4) in
  let index := le_Z (slice bs 12 2) in
  let count := le_Z (slice bs 14 2) in
  fail_if ((event_id =? 0) || (total =? 0) || (count <? 2) || (count <=? index))
    fragment_payload_error ;!
  flight_reserve_vec (A := bytes) T_SharedBytes vec_new count_of
    "Flight fragment field allocation failed" ;!
  let! raw_fields := for_each (seqZ 0 count_of) (fragment_field bs strings) in
  let! popped := lift_option (pop raw_fields) fragment_payload_error in
  let '(fixed, detail) := popped in
  fail_if (fragment_rejected kind total count fixed detail) fragment_payload_error ;!
  ret (mkFragment key p kind event_id total index count fixed detail chunk_index generation).

(** The first loop of [finish]: how many fragments each group has. *)
Definition count_groups (fragments : list Fragment) : M (gmap (Z * Z * Z) Z) :=
  fold_each (imap pair fragments) ∅ (fun counts '(index, fragment) =>
    fragment_checkpoint index ;!
    let! count := lift_option
      (checked_add usize_max (default 0 (counts !! group_key fragment)) 1)
      fragment_allocation_error in
    ret (<[group_key fragment := count]> counts)).

(** The third loop: the fragments of each group, in record order. *)
Definition fill_groups (fragments : list Fragment) (groups : gmap (Z * Z * Z) (list Fragment)) :
    M (gmap (Z * Z * Z) (list Fragment)) :=
  fold_each (imap pair fragments) groups (fun groups '(index, fragment) =>
    fragment_checkpoint index ;!
    let! values := lift_option (groups !! group_key fragment) fragment_allocation_error in
    ret (<[group_key fragment := values ++ [fragment]]> groups)).

(** [evidence] *)
Definition collect_evidence (values : list Fragment) : M (list (option Z * Z)) :=
  for_each (imap pair values) (fun '(index, item) =>
    fragment_checkpoint index ;!
    ret (ek_sequence (fg_key item), ek_source_offset (fg_key item))).

(** [stable &= ..] of one fragment against the group's first. *)
Definition agrees (first item : Fragment) (tid : Z) (superblock : Superblock)
    (chunks : list (option ChunkIdentity)) : bool :=
  (fg_total item =? fg_total first) && (fg_count item =? fg_count first)
  && bool_decide (fg_fixed item = fg_fixed first)
  && contributor_matches item tid superblock chunks.

(** The loop that puts every fragment at its index. *)
Definition place_fragments (first : Fragment) (tid : Z) (superblock : Superblock)
    (chunks : list (option ChunkIdentity)) (values : list Fragment)
    (ordered : list (option Fragment)) (stable : bool) : M (list (option Fragment) * bool) :=
  fold_each (imap pair values) (ordered, stable) (fun '(ordered, stable) '(index, item) =>
    fragment_checkpoint index ;!
    let stable := stable && agrees first item tid superblock chunks in
    match ordered !! Z.to_nat (fg_index item) with
    | Some None => ret (<[Z.to_nat (fg_index item) := Some item]> ordered, stable)
    | _ => ret (ordered, false)
    end).

(** The loop that takes the fragments out again. *)
Definition take_ordered (ordered : list (option Fragment)) (stable : bool) :
    M (list Fragment * bool) :=
  fold_each (imap pair ordered) ([], stable) (fun '(values, stable) '(index, item) =>
    fragment_checkpoint index ;!
    match item with
    | Some item => ret (values ++ [item], stable)
    | None => ret (values, false)
    end).

(** The loop over [previous_sequence]. *)
Definition check_sequences (values : list Fragment) (stable : bool) : M bool :=
  let! final := fold_each (imap pair values) (None, stable) (fun '(previous, stable) '(index, item) =>
    fragment_checkpoint index ;!
    let current := default 0 (ek_sequence (fg_key item)) in
    ret (Some current,
         if from_option (fun previous => current <=? previous) false previous
         then false else stable)) in
  ret (snd final).

(** The copies of the fixed fields; [None] when one is not UTF-8. *)
Fixpoint copy_fixed (fields : list bytes) (fixed : list bytes) : M (option (list bytes)) :=
  match fields with
  | [] => ret (Some fixed)
  | raw :: fields =>
      if utf8_valid raw then
        let! value := flight_copy_string raw "Flight semantic fixed string allocation failed" in
        copy_fixed fields (fixed ++ [value])
      else ret None
  end.

(** The detail so far extended by the rest of the fragments; [None] when it
    would pass [total]. *)
Fixpoint join_details (index : nat) (values : list Fragment) (total : Z) (detail : bytes) :
    M (option bytes) :=
  match values with
  | [] => ret (Some detail)
  | value :: values =>
      fragment_checkpoint index ;!
      match checked_add usize_max (zlen detail) (zlen (fg_detail value)) with
      | None => ret None
      | Some next_len =>
          if next_len >? total then ret None
          else join_details (index + 1) values total (detail ++ fg_detail value)
      end
  end.

(** The mutable locals of the last loop over a group. *)
Record GroupTotals := mkGroupTotals {
  gt_fragment_sequences : list Z;
  gt_offsets : list Z;
  gt_sequence : Z;
  gt_all_captured : bool;
  gt_first_ordinal : Z;
  gt_first_offset : Z
}.

Definition total_turn (t : GroupTotals) (item : Fragment) : GroupTotals :=
  let key := fg_key item in
  let earlier := ek_source_offset key <? gt_first_offset t in
  mkGroupTotals
    (gt_fragment_sequences t ++ match ek_sequence key with Some s => [s] | None => [] end)
    (gt_offsets t ++ [ek_source_offset key])
    (match ek_sequence key with Some s => Z.max (gt_sequence t) s | None => gt_sequence t end)
    (gt_all_captured t && bool_decide (fg_provenance item = Captured))
    (if earlier then ek_record_ordinal key else gt_first_ordinal t)
    (if earlier then ek_source_offset key else gt_first_offset t).

Definition sum_group (first : Fragment) (values : list Fragment) : M GroupTotals :=
  fold_each (imap pair values)
    (mkGroupTotals [] [] 0 true (ek_record_ordinal (fg_key first)) (ek_source_offset (fg_key first)))
    (fun t '(index, item) => fragment_checkpoint index ;! ret (total_turn t item)).

(** [let (category, name) = ..] *)
Definition fixed_names (kind : Z) (fixed : list bytes) : M (option bytes * bytes) :=
  if kind =? 6 then
    let! name := lift_option (fixed !! 1%nat) fragment_allocation_error in
    ret (fixed !! 0%nat, name)
  else
    let! name := lift_option (fixed !! 0%nat) fragment_allocation_error in
    ret (None, name).

End receiver.

Abbreviation Sink := (Prog W ProviderError FragmentSink).

Definition mark_damaged (evidence : list (option Z * Z)) : Sink unit :=
  fold_each (imap pair evidence) tt (fun _ '(index, item) =>
    fragment_checkpoint index ;! modify (push_damage item)).

(** From the details on: the whole group as one event. *)
Definition emit_group (artifact : ArtifactDigest) (tid kind : Z) (first : Fragment)
    (values : list Fragment) (fixed : list bytes) (detail : bytes) : Sink unit :=
  flight_reserve_vec (A := Z) T_u64 vec_new (zlen values)
    "Flight fragment sequence allocation failed" ;!
  flight_reserve_vec (A := Z) T_u64 vec_new (zlen values)
    "Flight fragment offset allocation failed" ;!
  let! totals := sum_group first values in
  let! names := fixed_names kind fixed in
  let semantic := mkSemanticEvent (fst names) (snd names) detail (gt_fragment_sequences totals) in
  let p := if gt_all_captured totals then Captured else Derived in
  let! offsets := guarded_sort_u64 (gt_offsets totals) in
  let key := mkEventKey artifact MERGED_TIMELINE_ID (gt_first_ordinal totals)
    (gt_first_offset totals) (Some (gt_sequence totals)) (Some tid) in
  match with_fragment_source_offsets key p (semantic_payload kind semantic) offsets with
  | Some event => modify (push_event event)
  | None => ret tt
  end.

(** A stable group: its fields are copied and its details joined. *)
Definition assemble_group (artifact : ArtifactDigest) (tid kind : Z)
    (evidence : list (option Z * Z)) (values : list Fragment) : Sink unit :=
  match values with
  | [] => mark_damaged evidence
  | first :: _ =>
      flight_reserve_vec (A := bytes) T_String vec_new (zlen (fg_fixed first))
        "Flight semantic fixed-field allocation failed" ;!
      let! fixed := copy_fixed (fg_fixed first) [] in
      match fixed with
      | None => mark_damaged evidence
      | Some fixed =>
          flight_reserve_vec (A := byte) T_u8 vec_new (fg_total first)
            "Flight fragment detail allocation failed" ;!
          let! detail := join_details 0 values (fg_total first) [] in
          match detail with
          | None => mark_damaged evidence
          | Some detail =>
              if negb (zlen detail =? fg_total first) then mark_damaged evidence
              else if negb (utf8_valid detail) then mark_damaged evidence
              else emit_group artifact tid kind first values fixed detail
          end
      end
  end.

(** One turn of the loop over [groups]. *)
Definition group_turn (artifact : ArtifactDigest) (superblock : Superblock)
    (chunks : list (option ChunkIdentity)) (tid kind : Z) (values : list Fragment) : Sink unit :=
  match values with
  | [] => ret tt
  | first :: _ =>
      let expected_count := fg_count first in
      flight_reserve_vec (A := bytes) T_SharedBytes vec_new (zlen (fg_fixed first))
        "Flight fragment fixed-field allocation failed" ;!
      flight_reserve_vec (A := option Z * Z) T_FragmentEvidence vec_new (zlen values)
        "Flight fragment evidence allocation failed" ;!
      let! evidence := collect_evidence values in
      flight_reserve_vec (A := option Fragment) T_FragmentSlot vec_new expected_count
        "Flight fragment ordering allocation failed" ;!
      let! ordered := for_each (seq 0 (Z.to_nat expected_count)) (fun index =>
        fragment_checkpoint index ;! ret None) in
      let! placed := place_fragments first tid superblock chunks values ordered
        (zlen values =? expected_count) in
      flight_reserve_vec (A := Fragment) T_Fragment vec_new expected_count
        "Flight fragment value allocation failed" ;!
      let! taken := take_ordered (fst placed) (snd placed) in
      let! stable := check_sequences (fst taken) (snd taken) in
      if negb stable then mark_damaged evidence
      else assemble_group artifact tid kind evidence (fst taken)
  end.

Context {HO : HashOrder}.

(** The second loop: an empty vector per group. *)
Definition open_groups (counts : gmap (Z * Z * Z) Z) : Sink (gmap (Z * Z * Z) (list Fragment)) :=
  fold_each (hash_iter GroupCounts counts) ∅ (fun groups '(key, count) =>
    flight_reserve_vec (A := Fragment) T_Fragment vec_new count
      "Flight fragment group allocation failed" ;!
    ret (<[key := []]> groups)).

(** [fragments::finish] *)
Definition finish_fragments (fragments : list Fragment) (artifact : ArtifactDigest)
    (superblock : Superblock) (chunks : list (option ChunkIdentity)) : Sink unit :=
  flight_reserve_map GroupCounts T_group_count_entry 0 (zlen fragments)
    "Flight fragment count map allocation failed" ;!
  let! counts := count_groups fragments in
  flight_reserve_map Groups T_group_entry 0 (Z.of_nat (size counts))
    "Flight fragment group map allocation failed" ;!
  let! groups := open_groups counts in
  let! groups := fill_groups fragments groups in
  fold_each (imap pair (hash_iter Groups groups)) tt
    (fun _ '(group_index, ((tid, _, kind), values)) =>
      fragment_checkpoint group_index ;!
      group_turn artifact superblock chunks tid kind values).

End fragments.

(** ** Groups that are whole *)

Definition fragment_sequence (f : Fragment) : Z := default 0 (ek_sequence (fg_key f)).
Definition fragment_offset (f : Fragment) : Z := ek_source_offset (fg_key f).
Definition joined (fragments : list Fragment) : bytes := concat (map fg_detail fragments).

(** What [decode_fragment] and the record header guarantee of a fragment. *)
Record fragment_ok (f : Fragment) : Prop := mkFragmentOk {
  fo_index : 0 <= fg_index f;
  fo_count : 2 <= fg_count f <= u16_max;
  fo_total : 0 <= fg_total f <= u32_max;
  fo_fixed : zlen (fg_fixed f) = field_count (fg_kind f) - 1;
  fo_offset : in_u64 (fragment_offset f);
  fo_sequence : exists sequence, ek_sequence (fg_key f) = Some sequence /\ 0 <= sequence
}.

(** [ordered] is the record the fragments [group] were cut from, in order. *)
Record whole (tid : Z) (superblock : Superblock) (chunks : list (option ChunkIdentity))
    (group ordered : list Fragment) : Prop := mkWhole {
  wh_members : ordered ≡ₚ group;
  wh_indices : map fg_index ordered = seqZ 0 (zlen group);
  wh_counts : Forall (fun f => fg_count f = zlen group) group;
  wh_fixed : forall f g, f ∈ group -> g ∈ group -> fg_fixed f = fg_fixed g;
  wh_contributors : Forall (fun f => contributor_matches f tid superblock chunks = true) group;
  wh_sequences : StronglySorted Z.lt (map fragment_sequence ordered);
  wh_texts : Forall (fun f => Forall (fun field => utf8_valid field = true) (fg_fixed f)) group;
  wh_totals : Forall (fun f => fg_total f = zlen (joined ordered)) group;
  wh_text : utf8_valid (joined ordered) = true
}.

(** The event that stands for a whole group. *)
Record assembles (artifact : ArtifactDigest) (tid kind : Z) (ordered : list Fragment)
    (e : EventRecord) : Prop := mkAssembles {
  as_payload : exists first fixed, ordered !! 0%nat = Some first /\ fg_fixed first = fixed
    /\ ev_payload e = semantic_payload kind (mkSemanticEvent
         (if kind =? 6 then fixed !! 0%nat else None)
         (default [] (fixed !! (if kind =? 6 then 1%nat else 0%nat)))
         (joined ordered) (map fragment_sequence ordered));
  as_provenance : ev_provenance e = (if decide (Forall (fun f => fg_provenance f = Captured) ordered)
                                     then Captured else Derived);
  as_scope : ev_scope e = ArtifactScope;
  as_offsets : StronglySorted Z.lt (ev_fragment_source_offsets e)
    /\ forall o, o ∈ ev_fragment_source_offsets e <-> o ∈ map fragment_offset ordered;
  as_key : ek_artifact (ev_key e) = artifact /\ ek_timeline (ev_key e) = MERGED_TIMELINE_ID
    /\ ek_tid (ev_key e) = Some tid
    /\ ek_sequence (ev_key e) = fragment_sequence <$> last ordered
    /\ exists f, f ∈ ordered /\ ek_source_offset (ev_key e) = fragment_offset f
         /\ ek_record_ordinal (ev_key e) = ek_record_ordinal (fg_key f)
         /\ forall g, g ∈ ordered -> fragment_offset f <= fragment_offset g
}.

(** ** The loops as folds *)

(** A loop over an enumerated list that only computes. *)
Lemma wp_fold_pure {W E S X A} (g : A -> X -> A) (xs : list X) (a : A)
    (f : A -> nat * X -> Prog W E S A) (R : E -> S -> Prop) s :
  (forall a i x, wp (f a (i, x)) (fun a' s' => s' = s /\ a' = g a x) R s) ->
  wp (fold_each (imap pair xs) a f) (fun a' s' => s' = s /\ a' = foldl g a xs) R s.
Proof.
  intros Hf. apply (wp_fold_indexed (fun before a' => a' = foldl g a before)); [done|].
  intros before x after a' _ ->. rewrite foldl_snoc. apply Hf.
Qed.

Definition place_one (first : Fragment) (tid : Z) (superblock : Superblock)
    (chunks : list (option ChunkIdentity)) (acc : list (option Fragment) * bool) (item : Fragment) :
    list (option Fragment) * bool :=
  match fst acc !! Z.to_nat (fg_index item) with
  | Some None => (<[Z.to_nat (fg_index item) := Some item]> (fst acc),
                  snd acc && agrees first item tid superblock chunks)
  | _ => (fst acc, false)
  end.

Definition take_one (acc : list Fragment * bool) (item : option Fragment) : list Fragment * bool :=
  match item with
  | Some item => (fst acc ++ [item], snd acc)
  | None => (fst acc, false)
  end.

Definition sequence_one (acc : option Z * bool) (item : Fragment) : option Z * bool :=
  (Some (fragment_sequence item),
   if from_option (fun previous => fragment_sequence item <=? previous) false (fst acc)
   then false else snd acc).

Section loop_rules.
Context {W : Type} `{WorkGuard W} `{Allocator W} {S : Type}.
Implicit Types (s : S).
Abbreviation refused := (fun (e : ProviderError) (_ : S) => resource_error e).

Lemma wp_fragment_checkpoint i (Q : unit -> S -> Prop) s :
  Q tt s -> wp (W := W) (fragment_checkpoint i) Q refused s.
Proof. intros HQ. unfold fragment_checkpoint. case_match; [by apply wp_consume|by apply wp_ret]. Qed.

Lemma wp_reserve_still {A} t (v : Vec A) n detail (Q : Vec A -> S -> Prop) s :
  (forall v, Q v s) -> wp (W := W) (flight_reserve_vec t v n detail) Q refused s.
Proof. intros HQ. apply wp_bind, wp_reserve_vec; [apply _|intros; apply wp_ret, HQ|done]. Qed.

Lemma wp_collect_evidence values s :
  wp (W := W) (collect_evidence values) (fun ev s' => s' = s
    /\ ev = map (fun f => (ek_sequence (fg_key f), fragment_offset f)) values) refused s.
Proof.
  eapply wp_mono; [apply (wp_for_each _ _ (fun done out s' => s' = s
    /\ out = map (fun x => (ek_sequence (fg_key x.2), fragment_offset x.2)) done))|..].
  - done.
  - intros before [i x] out s' [-> ->] _. apply wp_bind, wp_fragment_checkpoint, wp_ret.
    split; [done|]. by rewrite map_app.
  - intros out s' [-> ->]. split; [done|]. rewrite <- (map_map snd (fun f => (ek_sequence (fg_key f), fragment_offset f))).
    f_equal. clear. generalize (fun (i : nat) (x : Fragment) => (i, x)). intros _.
    induction values as [|x l IH] using rev_ind; [done|]. by rewrite imap_app, map_app, IH.
  - done.
Qed.

Lemma wp_empty_slots n s :
  wp (W := W) (for_each (seq 0 n) (fun index => fragment_checkpoint index ;! ret (@None Fragment)))
    (fun out s' => s' = s /\ out = replicate n None) refused s.
Proof.
  eapply wp_mono; [apply (wp_for_each _ _ (fun done out s' => s' = s /\ out = replicate (length done) None))|..].
  - done.
  - intros before i out s' [-> ->] _. apply wp_bind, wp_fragment_checkpoint, wp_ret.
    split; [done|]. by rewrite length_app, replicate_add.
  - intros out s' [-> ->]. by rewrite length_seq.
  - done.
Qed.

Lemma wp_place_fragments first tid superblock chunks values ordered stable s :
  wp (W := W) (place_fragments first tid superblock chunks values ordered stable)
    (fun acc s' => s' = s /\ acc = foldl (place_one first tid superblock chunks) (ordered, stable) values)
    refused s.
Proof.
  apply wp_fold_pure. intros [slots st] i x. apply wp_bind, wp_fragment_checkpoint.
  unfold place_one. cbn [fst snd].
  destruct (slots !! Z.to_nat (fg_index x)) as [[]|]; by apply wp_ret.
Qed.

Lemma wp_take_ordered ordered stable s :
  wp (W := W) (take_ordered ordered stable)
    (fun acc s' => s' = s /\ acc = foldl take_one ([], stable) ordered) refused s.
Proof.
  apply wp_fold_pure. intros [vs st] i x. apply wp_bind, wp_fragment_checkpoint.
  destruct x; by apply wp_ret.
Qed.

Lemma wp_check_sequences values stable s :
  wp (W := W) (check_sequences values stable)
    (fun st s' => s' = s /\ st = snd (foldl sequence_one (None, stable) values)) refused s.
Proof.
  apply wp_bind. eapply wp_mono; [apply (wp_fold_pure sequence_one _ _ _ refused)| |done].
  - intros [p st] i x. by apply wp_bind, wp_fragment_checkpoint, wp_ret.
  - intros acc s' [-> ->]. by apply wp_ret.
Qed.

Lemma wp_sum_group first values s :
  wp (W := W) (sum_group first values)
    (fun t s' => s' = s /\ t = foldl total_turn (mkGroupTotals [] [] 0 true
       (ek_record_ordinal (fg_key first)) (fragment_offset first)) values) refused s.
Proof. apply wp_fold_pure. intros t i x. by apply wp_bind, wp_fragment_checkpoint, wp_ret. Qed.

Lemma wp_copy_fixed fields fixed (Q : option (list bytes) -> S -> Prop) s :
  (Forall (fun f => utf8_valid f = true) fields -> Q (Some (fixed ++ fields)) s) ->
  (~ Forall (fun f => utf8_valid f = true) fields -> Q None s) ->
  wp (W := W) (copy_fixed fields fixed) Q refused s.
Proof.
  revert fixed Q. induction fields as [|raw fields IH]; intros fixed Q Hok Hbad; cbn [copy_fixed].
  - apply wp_ret. specialize (Hok (Forall_nil_2 _)). by rewrite app_nil_r in Hok.
  - destruct (utf8_valid raw) eqn:E.
    + apply wp_bind, wp_copy_string; [apply _| |done]. intros _. apply IH.
      * intros Hf. rewrite <- app_assoc. apply Hok. by constructor.
      * intros Hf. apply Hbad. by intros [_ ?]%Forall_cons.
    + apply wp_ret, Hbad. intros [? _]%Forall_cons. congruence.
Qed.

Lemma wp_join_details index values total detail (Q : option bytes -> S -> Prop) s :
  total <= usize_max ->
  (zlen (detail ++ joined values) <= total -> Q (Some (detail ++ joined values)) s) ->
  (total < zlen (detail ++ joined values) -> Q None s) -> zlen detail <= total ->
  wp (W := W) (join_details index values total detail) Q refused s.
Proof.
  intros Htotal. revert index detail Q.
  induction values as [|v values IH]; intros index detail Q Hok Hbad Hd; cbn [join_details].
  - apply wp_ret. change (joined []) with (@nil byte) in Hok. rewrite app_nil_r in Hok. by apply Hok.
  - apply wp_bind, wp_fragment_checkpoint.
    change (joined (v :: values)) with (fg_detail v ++ joined values) in Hok, Hbad.
    rewrite app_assoc in Hok, Hbad. pose proof (zlen_nonneg (joined values)) as Hj.
    rewrite zlen_app in Hok, Hbad. rewrite (zlen_app detail) in Hok, Hbad.
    destruct (checked_add usize_max (zlen detail) (zlen (fg_detail v))) as [next|] eqn:E.
    + apply checked_add_Some in E as [-> E]. destruct (Z.gtb_spec (zlen detail + zlen (fg_detail v)) total).
      * apply wp_ret, Hbad. lia.
      * apply IH; rewrite ?zlen_app; [exact Hok|exact Hbad|lia].
    + apply checked_add_None in E. apply wp_ret, Hbad. lia.
Qed.

Lemma wp_sort_u64 values (Q : list Z -> S -> Prop) s :
  Forall in_u64 values ->
  (forall sorted, StronglySorted Z.lt sorted -> (forall x, x ∈ sorted <-> x ∈ values) -> Q sorted s) ->
  wp (W := W) (guarded_sort_u64 values) Q refused s.
Proof.
  intros Hv HQ w. destruct (run_sort_u64 values s Hv) as (sorted & Hrun & Hlt & Hmem).
  destruct (guarded_sort_u64 values s w) as [[r s'] w'] eqn:Hg.
  destruct (run_refines _ _ _ _ _ _ _ _ (sort_u64_refines values) Hg) as [Hr|(e & -> & He)]; [|done].
  rewrite Hrun in Hr. injection Hr as <- <-. by apply HQ.
Qed.

End loop_rules.

(** ** What the placing loops compute *)

Definition at_slot (i : nat) (f : Fragment) : bool := (Z.to_nat (fg_index f) =? i)%nat.

(** Slot by slot: the first fragment with that index. *)
Definition slots_of_group (n : nat) (group : list Fragment) : list (option Fragment) :=
  map (fun i => List.find (at_slot i) group) (seq 0 n).

Definition slot_indices (group : list Fragment) : list nat := map (fun f => Z.to_nat (fg_index f)) group.

Lemma find_snoc {A} (f : A -> bool) l x :
  List.find f (l ++ [x]) = match List.find f l with Some y => Some y | None => if f x then Some x else None end.
Proof. induction l as [|y l IH]; cbn; [by destruct (f x)|]. by destruct (f y). Qed.

Lemma lookup_slots n group i :
  slots_of_group n group !! i = if decide (i < n)%nat then Some (List.find (at_slot i) group) else None.
Proof.
  unfold slots_of_group. rewrite list_lookup_fmap. case_decide as Hi.
  - by rewrite lookup_seq_lt.
  - by rewrite lookup_seq_ge by lia.
Qed.

Lemma find_at_slot i group f :
  List.find (at_slot i) group = Some f -> f ∈ group /\ Z.to_nat (fg_index f) = i.
Proof.
  intros [Hin Hi]%List.find_some. split; [by apply list_elem_of_In|].
  unfold at_slot in Hi. by apply Nat.eqb_eq.
Qed.

Lemma find_at_slot_None i group : List.find (at_slot i) group = None <-> (i ∉ slot_indices group).
Proof.
  unfold slot_indices. split.
  - intros Hn (f & -> & Hf)%list_elem_of_fmap.
    pose proof (List.find_none _ _ Hn f (proj1 (list_elem_of_In _ _) Hf)) as Hi.
    unfold at_slot in Hi. by rewrite Nat.eqb_refl in Hi.
  - intros Hn. destruct (List.find _ _) as [f|] eqn:E; [|done].
    apply find_at_slot in E as [Hf <-]. exfalso. apply Hn, list_elem_of_fmap. by exists f.
Qed.

Section placing.
Context (first : Fragment) (tid : Z) (superblock : Superblock) (chunks : list (option ChunkIdentity)).

Definition unstable_free (n : nat) (group : list Fragment) : Prop :=
  Forall (fun f => agrees first f tid superblock chunks = true) group
  /\ NoDup (slot_indices group) /\ Forall (fun i => (i < n)%nat) (slot_indices group).

Lemma place_all n stable group :
  let acc := foldl (place_one first tid superblock chunks) (replicate n None, stable) group in
  fst acc = slots_of_group n group
  /\ (snd acc = true <-> stable = true /\ unstable_free n group).
Proof.
  induction group as [|f group IH] using rev_ind.
  - cbn. split; [|split; [intros ->; split; [done|]; split_and!; constructor|by intros [? _]]].
    apply list_eq. intros i. rewrite lookup_slots. case_decide as Hi; cbn [List.find].
    + by apply lookup_replicate_2.
    + apply lookup_ge_None_2. rewrite length_replicate. lia.
  - rewrite foldl_snoc. cbn zeta in *. destruct IH as [Hs Hst].
    set (acc := foldl _ _ group) in *. unfold place_one. rewrite Hs, lookup_slots.
    set (i := Z.to_nat (fg_index f)). unfold unstable_free, slot_indices.
    rewrite map_app, Forall_app. cbn [map]. fold (slot_indices group).
    assert (forall slots, (forall k, (k < n)%nat -> slots !! k = Some (List.find (at_slot k) (group ++ [f]))) ->
      length slots = n -> slots = slots_of_group n (group ++ [f])) as Hext.
    { intros slots Hk Hlen. apply list_eq. intros k. rewrite lookup_slots. case_decide as Hlt; [by apply Hk|].
      apply lookup_ge_None_2. lia. }
    assert (length (slots_of_group n group) = n) as Hlen by (unfold slots_of_group; by rewrite length_map, length_seq).
    case_decide as Hi; [destruct (List.find (at_slot i) group) as [g|] eqn:Hfind|]; cbn [fst snd].
    + split.
      * apply Hext; [|done]. intros k Hk. rewrite lookup_slots, decide_True by done. f_equal.
        rewrite find_snoc. destruct (List.find (at_slot k) group) eqn:E; [done|].
        unfold at_slot at 1. fold i. destruct (Nat.eqb_spec i k); congruence.
      * split; [done|]. intros (_ & _ & (_ & Hnew & _)%NoDup_app & _). exfalso.
        apply find_at_slot in Hfind as [Hg Hgi]. apply (Hnew i); [|by left].
        apply list_elem_of_fmap. by exists g.
    + apply find_at_slot_None in Hfind. split.
      * apply Hext; [|by rewrite length_insert]. intros k Hk. rewrite find_snoc.
        destruct (decide (k = i)) as [->|Hne].
        -- rewrite list_lookup_insert_eq by lia. rewrite (proj2 (find_at_slot_None i group)) by done.
           unfold at_slot. fold i. by rewrite Nat.eqb_refl.
        -- rewrite list_lookup_insert_ne by done. rewrite lookup_slots, decide_True by done. f_equal.
           destruct (List.find (at_slot k) group); [done|]. unfold at_slot. fold i.
           destruct (Nat.eqb_spec i k); congruence.
      * rewrite andb_true_iff, Hst. rewrite Forall_app, NoDup_app, !Forall_singleton. unfold unstable_free.
        split.
        -- intros [(Hst' & Ha & Hd & Hb) Hf]. split_and!; [done..| |apply NoDup_singleton|done|lia].
           intros k Hk ->%list_elem_of_singleton. done.
        -- intros (Hst' & (Ha & Hf) & (Hd & _ & _) & Hb & _). done.
    + split.
      * apply Hext; [|done]. intros k Hk. rewrite lookup_slots, decide_True by done. f_equal.
        rewrite find_snoc. destruct (List.find (at_slot k) group) eqn:E; [done|].
        unfold at_slot at 1. fold i. destruct (Nat.eqb_spec i k); [lia|done].
      * split; [done|]. intros (_ & _ & _ & (_ & Hb)%Forall_app). rewrite Forall_singleton in Hb. lia.
Qed.

End placing.

Lemma take_all slots stable :
  foldl take_one ([], stable) slots
  = (omap (fun x => x) slots, stable && forallb (fun x => match x with Some _ => true | None => false end) slots).
Proof.
  induction slots as [|x slots IH] using rev_ind; cbn [foldl].
  - cbn. by rewrite andb_true_r.
  - rewrite foldl_snoc, IH, omap_app, forallb_app. destruct x; cbn.
    + by rewrite !andb_true_r.
    + by rewrite app_nil_r, !andb_false_r.
Qed.

Lemma sequences_checked previous stable values :
  snd (foldl sequence_one (previous, stable) values) = true
  <-> stable = true
      /\ StronglySorted Z.lt (option_list previous ++ map fragment_sequence values).
Proof.
  revert previous stable. induction values as [|v values IH]; intros previous stable; cbn [foldl map].
  - rewrite app_nil_r. destruct previous; cbn; split; intros; destruct_and?; repeat constructor; done.
  - unfold sequence_one at 2. cbn [fst snd]. rewrite IH. cbn [option_list app].
    assert (StronglySorted Z.lt (option_list previous ++ fragment_sequence v :: map fragment_sequence values)
      <-> from_option (fun p => p < fragment_sequence v) True previous
          /\ StronglySorted Z.lt (fragment_sequence v :: map fragment_sequence values)) as ->.
    { destruct previous as [p|]; cbn; [|by split; [split|intros [_ ?]]]. split.
      - intros [Hs Hp]%StronglySorted_inv. apply Forall_cons in Hp as [Hp _]. done.
      - intros [Hp Hs]. constructor; [done|]. constructor; [done|].
        apply StronglySorted_inv in Hs as [_ Hs]. eapply Forall_impl; [exact Hs|].
        intros x Hx. cbn beta in *. lia. }
    destruct previous as [p|]; cbn; [|naive_solver].
    destruct (Z.leb_spec (fragment_sequence v) p); naive_solver lia.
Qed.

(** ** From the loops to whole groups *)

Section groups.
Context (tid : Z) (superblock : Superblock) (chunks : list (option ChunkIdentity)).

(** The part of [whole] the placing loops establish. *)
Definition arranged (first : Fragment) (group ordered : list Fragment) : Prop :=
  ordered ≡ₚ group /\ map fg_index ordered = seqZ 0 (zlen group) /\ zlen group = fg_count first
  /\ Forall (fun f => agrees first f tid superblock chunks = true) group
  /\ StronglySorted Z.lt (map fragment_sequence ordered).

Lemma omap_find_ordered ordered group :
  (forall f, f ∈ ordered -> List.find (at_slot (Z.to_nat (fg_index f))) group = Some f) ->
  omap (fun i => List.find (at_slot i) group) (slot_indices ordered) = ordered.
Proof.
  induction ordered as [|f ordered IH]; intros Hf; [done|].
  change (slot_indices (f :: ordered)) with (Z.to_nat (fg_index f) :: slot_indices ordered).
  change (omap ?g (?a :: ?l)) with (match g a with Some y => y :: omap g l | None => omap g l end).
  cbv beta. rewrite Hf by left. f_equal. apply IH. intros g Hg. apply Hf. by right.
Qed.

Lemma find_unique group f :
  NoDup (slot_indices group) -> f ∈ group ->
  List.find (at_slot (Z.to_nat (fg_index f))) group = Some f.
Proof.
  intros Hd Hf. induction group as [|g group IH]; [by apply not_elem_of_nil in Hf|].
  change (slot_indices (g :: group)) with (Z.to_nat (fg_index g) :: slot_indices group) in Hd.
  apply NoDup_cons in Hd as [Hg Hd]. cbn [List.find]. unfold at_slot at 1.
  apply elem_of_cons in Hf as [->|Hf]; [by rewrite Nat.eqb_refl|].
  destruct (Nat.eqb_spec (Z.to_nat (fg_index g)) (Z.to_nat (fg_index f))) as [He|]; [|by apply IH].
  exfalso. apply Hg. rewrite He. apply list_elem_of_fmap. by exists f.
Qed.

Lemma omap_map {A B C} (f : A -> B) (g : B -> option C) l : omap g (map f l) = omap (fun x => g (f x)) l.
Proof. induction l as [|x l IH]; cbn; [done|]. by rewrite IH. Qed.

Lemma slot_indices_seq ordered n :
  map fg_index ordered = seqZ 0 n -> slot_indices ordered = seq 0 (Z.to_nat n).
Proof.
  intros Hm. unfold slot_indices. rewrite <- (map_map fg_index Z.to_nat), Hm. unfold seqZ.
  rewrite map_map. rewrite <- (map_id (seq 0 (Z.to_nat n))) at 2. apply map_ext. intros i. lia.
Qed.

Lemma forallb_find_seq n group :
  forallb (fun x => match x with Some _ => true | None => false end) (slots_of_group n group) = true ->
  exists ordered, omap (fun i => List.find (at_slot i) group) (seq 0 n) = ordered
    /\ slot_indices ordered = seq 0 n /\ (forall f, f ∈ ordered -> f ∈ group).
Proof.
  unfold slots_of_group. generalize (seq 0 n). intros l Hl. eexists. split; [done|].
  induction l as [|i l IH]; [split; [done|]; set_solver|].
  cbn in Hl. destruct (List.find (at_slot i) group) as [f|] eqn:E; [|done].
  change (omap ?g (?a :: ?l)) with (match g a with Some y => y :: omap g l | None => omap g l end).
  cbv beta. rewrite E. specialize (IH Hl) as [IH1 IH2]. apply find_at_slot in E as [Hin Hi]. split.
  - change (slot_indices (f :: ?k)) with (Z.to_nat (fg_index f) :: slot_indices k). by rewrite IH1, Hi.
  - intros g [->|Hg]%elem_of_cons; auto.
Qed.

Lemma arranged_slots first group ordered :
  arranged first group ordered -> unstable_free first tid superblock chunks (length group) group.
Proof.
  intros (Hperm & Hidx & _ & Ha & _). pose proof (slot_indices_seq _ _ Hidx) as Hs.
  assert (slot_indices group ≡ₚ seq 0 (length group)) as Hp.
  { transitivity (slot_indices ordered); [by apply fmap_Permutation|]. rewrite Hs. unfold zlen. by rewrite Nat2Z.id. }
  split_and!; [done|rewrite Hp; apply NoDup_seq|].
  apply Forall_forall. intros i Hi. rewrite Hp in Hi. apply elem_of_seq in Hi. lia.
Qed.

(** The placing loops find the arrangement exactly when there is one. *)
Lemma group_arranged first group :
  Forall fragment_ok group ->
  let placed := foldl (place_one first tid superblock chunks)
    (replicate (Z.to_nat (fg_count first)) None, zlen group =? fg_count first) group in
  let taken := foldl take_one ([], snd placed) (fst placed) in
  let stable := snd (foldl sequence_one (None, snd taken) (fst taken)) in
  (stable = true -> arranged first group (fst taken))
  /\ (forall ordered, arranged first group ordered -> stable = true /\ fst taken = ordered).
Proof.
  intros Hok. cbn zeta.
  destruct (place_all first tid superblock chunks (Z.to_nat (fg_count first)) (zlen group =? fg_count first) group)
    as [Hslots Hst].
  set (placed := foldl (place_one first tid superblock chunks) _ group) in *.
  rewrite take_all, Hslots. cbn [fst snd]. rewrite sequences_checked. cbn [option_list app].
  assert (forall n, omap (fun x => x) (slots_of_group n group)
    = omap (fun i => List.find (at_slot i) group) (seq 0 n)) as Hom by (intros n; apply omap_map).
  rewrite !Hom. split.
  - intros [[Hs Hall]%andb_true_iff Hseq].
    apply Hst in Hs as [Hcount%Z.eqb_eq (Ha & Hd & Hb)]. rewrite <- Hcount in Hall, Hseq |- *.
    unfold zlen in Hall, Hseq |- *. rewrite Nat2Z.id in Hall, Hseq |- *.
    destruct (forallb_find_seq _ _ Hall) as (ordered & Ho & Hidx & Hin).
    rewrite Ho in Hseq |- *. clear Ho.
    assert (NoDup ordered) as Hnd.
    { apply (NoDup_fmap_1 (fun f => Z.to_nat (fg_index f))). change (NoDup (slot_indices ordered)).
      rewrite Hidx. apply NoDup_seq. }
    assert (ordered ≡ₚ group) as Hperm.
    { apply submseteq_length_Permutation; [by apply NoDup_submseteq|]. apply (f_equal length) in Hidx.
      unfold slot_indices in Hidx. rewrite length_map, length_seq in Hidx. lia. }
    split_and!; [done| |done|done|done].
    apply (f_equal (map Z.of_nat)) in Hidx. unfold slot_indices in Hidx. rewrite map_map in Hidx.
    unfold seqZ, zlen. rewrite Nat2Z.id.
    transitivity (map (fun f => Z.of_nat (Z.to_nat (fg_index f))) ordered).
    { apply map_ext_in. intros f Hf%list_elem_of_In. apply Hin in Hf.
      pose proof (fo_index f (proj1 (Forall_forall _ _) Hok f Hf)). lia. }
    rewrite Hidx. apply map_ext. intros i. lia.
  - intros ordered Harr. pose proof (arranged_slots _ _ _ Harr) as Hfree.
    destruct Harr as (Hperm & Hidx & Hcount & Ha & Hseq).
    pose proof (slot_indices_seq _ _ Hidx) as Hs. rewrite <- Hcount in Hst |- *. unfold zlen in Hs, Hst |- *.
    rewrite Nat2Z.id in Hs, Hst |- *. destruct Hfree as (_ & Hd & Hb).
    assert (omap (fun i => List.find (at_slot i) group) (seq 0 (length group)) = ordered) as Ho.
    { rewrite <- Hs. apply omap_find_ordered. intros f Hf. apply find_unique; [done|]. by rewrite <- Hperm. }
    rewrite Ho. split; [|done]. apply sequences_checked. split; [|done]. apply andb_true_iff. split.
    + apply Hst. split; [by apply Z.eqb_eq|done].
    + apply forallb_forall. unfold slots_of_group. intros x (i & <- & Hi)%in_map_iff.
      destruct (List.find (at_slot i) group) eqn:E; [done|]. apply find_at_slot_None in E. exfalso. apply E.
      apply list_elem_of_In in Hi. rewrite <- Hs in Hi. unfold slot_indices in *.
      by rewrite <- Hperm.
Qed.

End groups.

(** ** Emitting and settling a group *)

Lemma totals_of first l :
  Forall fragment_ok l -> StronglySorted Z.lt (map fragment_sequence l) ->
  let t := foldl total_turn (mkGroupTotals [] [] 0 true
    (ek_record_ordinal (fg_key first)) (fragment_offset first)) l in
  gt_fragment_sequences t = map fragment_sequence l
  /\ gt_offsets t = map fragment_offset l
  /\ gt_sequence t = default 0 (last (map fragment_sequence l))
  /\ gt_all_captured t = bool_decide (Forall (fun f => fg_provenance f = Captured) l)
  /\ exists f, f ∈ first :: l /\ gt_first_ordinal t = ek_record_ordinal (fg_key f)
       /\ gt_first_offset t = fragment_offset f
       /\ forall g, g ∈ first :: l -> fragment_offset f <= fragment_offset g.
Proof.
  induction l as [|x l IH] using rev_ind; intros Hok Hs; cbn zeta.
  - split_and!; [done..|]. exists first. split_and!; [left|done|done|].
    intros g [->|Hg]%elem_of_cons; [done|by apply not_elem_of_nil in Hg].
  - rewrite foldl_snoc. apply Forall_app in Hok as [Hok [Hx _]%Forall_cons].
    rewrite map_app in Hs. cbn [map] in Hs. pose proof (StronglySorted_app_1_l _ _ _ Hs) as Hl.
    specialize (IH Hok Hl). cbn zeta in IH. set (t := foldl total_turn _ l) in *.
    destruct IH as (H1 & H2 & H3 & H4 & f & Hf & Ho & Hoff & Hmin).
    destruct (fo_sequence x Hx) as (q & Hq & Hq0).
    assert (fragment_sequence x = q) as Hxq by (unfold fragment_sequence; by rewrite Hq).
    unfold total_turn. cbn [gt_fragment_sequences gt_offsets gt_sequence gt_all_captured gt_first_ordinal gt_first_offset].
    fold (fragment_offset x). rewrite Hq, H1, H2, H3, H4, Ho, Hoff, !map_app. cbn [map]. rewrite last_snoc. cbn [default].
    split_and!; [by rewrite Hxq|done| | |].
    + unfold from_option. cbn. destruct (last (map fragment_sequence l)) as [p|] eqn:E; cbn; [|lia].
      apply last_Some in E as [k E]. rewrite E in Hs.
      pose proof (StronglySorted_app_1_elem_of _ _ _ p q Hs ltac:(set_solver) ltac:(rewrite Hxq; set_solver)). lia.
    + rewrite <- bool_decide_and. apply bool_decide_ext. by rewrite Forall_app, Forall_singleton.
    + destruct (Z.ltb_spec (fragment_offset x) (fragment_offset f)).
      * exists x. split_and!; [set_solver|done|done|]. intros g Hg.
        assert (g ∈ first :: l \/ g = x) as [Hg'| ->] by set_solver; [|lia]. specialize (Hmin g Hg'). lia.
      * exists f. split_and!; [set_solver|done|done|]. intros g Hg.
        assert (g ∈ first :: l \/ g = x) as [Hg'| ->] by set_solver; [auto|lia].
Qed.

Definition evidence_of_group (group : list Fragment) : list (option Z * Z) :=
  map (fun f => (ek_sequence (fg_key f), fragment_offset f)) group.

Definition mark_all (evidence : list (option Z * Z)) (sink : FragmentSink) : FragmentSink :=
  foldl (fun s item => push_damage item s) sink evidence.

Section settle.
Context {W : Type} `{WorkGuard W} `{Allocator W}.
Context (artifact : ArtifactDigest) (superblock : Superblock) (chunks : list (option ChunkIdentity)).
Abbreviation refused := (fun (e : ProviderError) (_ : FragmentSink) => resource_error e).

Lemma wp_mark_damaged evidence (Q : unit -> FragmentSink -> Prop) sink :
  Q tt (mark_all evidence sink) -> wp (W := W) (mark_damaged evidence) Q refused sink.
Proof.
  intros HQ. eapply wp_mono; [apply (wp_fold_over (fun before _ s => s = mark_all before sink) _ _ _ refused)|..].
  - done.
  - intros before x after [] s _ ->. apply wp_bind, wp_fragment_checkpoint, wp_modify.
    unfold mark_all. by rewrite foldl_snoc.
  - intros [] s ->. done.
  - done.
Qed.

(** The key offset is the first of the sorted offsets, so the event is never
    dropped. *)
Lemma offsets_accepted key p payload offsets :
  StronglySorted Z.lt offsets -> zlen offsets <= MAX_FRAGMENT_SOURCE_OFFSETS ->
  ek_source_offset key ∈ offsets -> (forall o, o ∈ offsets -> ek_source_offset key <= o) ->
  with_fragment_source_offsets key p payload offsets = Some (mkEventRecord key p payload ArtifactScope offsets).
Proof.
  intros Hs Hlen Hin Hmin. unfold with_fragment_source_offsets, fragment_offsets_new.
  replace (zlen offsets >? MAX_FRAGMENT_SOURCE_OFFSETS) with false by lia.
  assert (windows_not_increasing offsets = false) as ->
    by by apply windows_increasing, StronglySorted_Sorted.
  cbn. destruct offsets as [|o offsets]; [done|]. cbn.
  assert (o = ek_source_offset key) as ->; [|by rewrite Z.eqb_refl].
  apply StronglySorted_inv in Hs as [_ Ho]. apply elem_of_cons in Hin as [?|Hin]; [done|].
  pose proof (Hmin o ltac:(left)). pose proof (proj1 (Forall_forall _ _) Ho _ Hin). cbn beta in *. lia.
Qed.

Lemma sorted_no_longer (l k : list Z) :
  StronglySorted Z.lt l -> (forall x, x ∈ l -> x ∈ k) -> zlen l <= zlen k.
Proof.
  intros Hl Hin. unfold zlen. apply Nat2Z.inj_le, submseteq_length, NoDup_submseteq; [|done].
  clear Hin. induction Hl as [|x l Hl IH Hx]; constructor; [|done].
  intros Hin. pose proof (proj1 (Forall_forall _ _) Hx x Hin). cbn beta in *. lia.
Qed.

Lemma wp_emit_group tid kind first ordered fixed (Q : unit -> FragmentSink -> Prop) sink :
  Forall fragment_ok ordered -> StronglySorted Z.lt (map fragment_sequence ordered) ->
  ordered !! 0%nat = Some first -> fg_fixed first = fixed -> zlen fixed = field_count kind - 1 ->
  zlen ordered <= u16_max ->
  (forall e, assembles artifact tid kind ordered e -> Q tt (push_event e sink)) ->
  wp (W := W) (emit_group artifact tid kind first ordered fixed (joined ordered)) Q refused sink.
Proof.
  intros Hok Hs Hfirst Hfixed Hlen Hcount HQ. unfold emit_group.
  apply wp_bind, wp_reserve_still. intros _. apply wp_bind, wp_reserve_still. intros _.
  apply wp_bind. eapply wp_mono; [apply wp_sum_group| |done]. intros t s' [-> ->].
  destruct (totals_of first ordered Hok Hs) as (H1 & H2 & H3 & H4 & f & Hf & Ho & Hoff & Hmin).
  set (t := foldl total_turn _ ordered) in *.
  assert (first ∈ ordered) as Hin by by eapply list_elem_of_lookup_2.
  assert (forall g, g ∈ first :: ordered <-> g ∈ ordered) as Hcons by set_solver.
  apply wp_bind. unfold fixed_names.
  set (name := default [] (fixed !! (if kind =? 6 then 1%nat else 0%nat))).
  set (category := if kind =? 6 then fixed !! 0%nat else None).
  assert (forall Q', Q' (category, name) sink ->
    wp (W := W) (fixed_names kind fixed) Q' refused sink) as Hnames.
  { intros Q' HQ'. unfold fixed_names, category, name, field_count in *.
    destruct (kind =? 6); apply wp_bind, wp_option.
    - destruct fixed as [|a [|b fixed]]; [done..|]. by apply wp_ret.
    - destruct fixed as [|a fixed]; [done|]. by apply wp_ret. }
  apply Hnames. apply wp_bind, wp_sort_u64.
  { rewrite H2. apply Forall_map, Forall_forall. intros g Hg. apply (fo_offset g).
    by apply (proj1 (Forall_forall _ _) Hok). }
  intros offsets Hsorted Hmem. rewrite H2 in Hmem.
  rewrite (offsets_accepted _ _ _ offsets); [|done|..]; cbn [ek_source_offset].
  - apply wp_modify, HQ. rewrite H1, H3, H4. constructor; cbn.
    + exists first, fixed. done.
    + by case_bool_decide; case_decide.
    + done.
    + done.
    + split_and!; [done|done|done| |].
      * rewrite <- fmap_last. change (fmap fragment_sequence ordered) with (map fragment_sequence ordered).
        destruct (last (map fragment_sequence ordered)) eqn:E; [done|].
        apply last_None in E. by destruct ordered.
      * exists f. rewrite <- Hcons. split_and!; [done..|]. intros g Hg. apply Hmin. by rewrite Hcons.
  - pose proof (sorted_no_longer offsets (map fragment_offset ordered) Hsorted
      (fun x Hx => proj1 (Hmem x) Hx)) as Hle.
    unfold zlen in Hle at 2. rewrite length_map in Hle. fold (zlen ordered) in Hle.
    unfold MAX_FRAGMENT_SOURCE_OFFSETS. lia.
  - rewrite Hmem, Hoff. apply list_elem_of_fmap. exists f. by rewrite <- Hcons.
  - intros o (g & -> & Hg)%Hmem%list_elem_of_fmap. rewrite Hoff. apply Hmin. by rewrite Hcons.
Qed.

End settle.

(** ** A group is settled one way or the other *)

Section finish.
Context {W : Type} `{WorkGuard W} `{Allocator W}.
Context (artifact : ArtifactDigest) (superblock : Superblock) (chunks : list (option ChunkIdentity)).
Abbreviation refused := (fun (e : ProviderError) (_ : FragmentSink) => resource_error e).

Definition settled (tid kind : Z) (group : list Fragment) (sink sink' : FragmentSink) : Prop :=
  (exists ordered e, whole tid superblock chunks group ordered
     /\ assembles artifact tid kind ordered e /\ sink' = push_event e sink)
  \/ ((forall ordered, ~ whole tid superblock chunks group ordered)
      /\ sink' = mark_all (evidence_of_group group) sink).

Lemma whole_arranged tid first group ordered :
  first ∈ group -> whole tid superblock chunks group ordered ->
  arranged tid superblock chunks first group ordered.
Proof.
  intros Hin [Hp Hi Hc Hf Hm Hs Ht Hl Hu]. rewrite Forall_forall in Hc, Hm, Hl.
  split_and!; [done|done|by rewrite (Hc first)| |done]. apply Forall_forall. intros f Hin'.
  unfold agrees. rewrite (Hl f), (Hl first), (Hc f), (Hc first), (Hm f), !Z.eqb_refl by done.
  rewrite bool_decide_true by by apply Hf. done.
Qed.

Lemma arranged_whole tid first group ordered :
  first ∈ group -> arranged tid superblock chunks first group ordered ->
  Forall (fun field => utf8_valid field = true) (fg_fixed first) ->
  zlen (joined ordered) = fg_total first -> utf8_valid (joined ordered) = true ->
  whole tid superblock chunks group ordered.
Proof.
  intros Hin (Hp & Hi & Hc & Ha & Hs) Ht Hl Hu. rewrite Forall_forall in Ha.
  assert (forall f, f ∈ group -> fg_total f = fg_total first /\ fg_count f = fg_count first
    /\ fg_fixed f = fg_fixed first /\ contributor_matches f tid superblock chunks = true) as Hall.
  { intros f Hf. specialize (Ha f Hf). unfold agrees in Ha. rewrite !andb_true_iff in Ha.
    destruct Ha as [[[H1 H2] H3%bool_decide_eq_true] H4]. split_and!; [lia|lia|done|done]. }
  constructor; try done.
  - apply Forall_forall. intros f Hf. destruct (Hall f Hf) as (_ & -> & _). lia.
  - intros f g Hf Hg. destruct (Hall f Hf) as (_ & _ & -> & _), (Hall g Hg) as (_ & _ & -> & _). done.
  - apply Forall_forall. intros f Hf. by destruct (Hall f Hf) as (_ & _ & _ & ?).
  - apply Forall_forall. intros f Hf. by destruct (Hall f Hf) as (_ & _ & -> & _).
  - apply Forall_forall. intros f Hf. destruct (Hall f Hf) as (-> & _). lia.
Qed.

Lemma wp_assemble_group tid kind first group ordered sink :
  first ∈ group -> Forall fragment_ok group -> Forall (fun f => fg_kind f = kind) group ->
  arranged tid superblock chunks first group ordered ->
  wp (W := W) (assemble_group artifact tid kind (evidence_of_group group) ordered)
    (fun _ sink' => (exists e, whole tid superblock chunks group ordered
        /\ assembles artifact tid kind ordered e /\ sink' = push_event e sink)
      \/ (~ whole tid superblock chunks group ordered
          /\ sink' = mark_all (evidence_of_group group) sink)) refused sink.
Proof.
  intros Hin Hok Hkind Harr. pose proof Harr as (Hperm & Hidx & Hcount & Hagree & Hseq).
  assert (Forall fragment_ok ordered) as Hok' by by rewrite Hperm.
  rewrite Forall_forall in Hok, Hkind.
  destruct ordered as [|head rest] eqn:Eo.
  { apply Permutation_nil_l in Hperm. subst group. by apply not_elem_of_nil in Hin. }
  rewrite <- Eo in *. assert (ordered !! 0%nat = Some head) as Hhead by by rewrite Eo.
  assert (head ∈ group) as Hhead' by (rewrite <- Hperm; by eapply list_elem_of_lookup_2).
  (* the head of the arrangement agrees with the first fragment *)
  assert (fg_total head = fg_total first /\ fg_fixed head = fg_fixed first) as [Htot Hfix].
  { pose proof (proj1 (Forall_forall _ _) Hagree head Hhead') as Ha. unfold agrees in Ha.
    rewrite !andb_true_iff in Ha. destruct Ha as [[[H1 _] H3%bool_decide_eq_true] _]. split; [lia|done]. }
  assert (whole tid superblock chunks group ordered
    <-> Forall (fun field => utf8_valid field = true) (fg_fixed head)
        /\ zlen (joined ordered) = fg_total head /\ utf8_valid (joined ordered) = true) as Hiff.
  { rewrite Hfix, Htot. split.
    - intros Hw. split_and!; [|symmetry|apply (wh_text _ _ _ _ _ Hw)].
      + apply (proj1 (Forall_forall _ _) (wh_texts _ _ _ _ _ Hw) first Hin).
      + apply (proj1 (Forall_forall _ _) (wh_totals _ _ _ _ _ Hw) first Hin).
    - intros (Ht & Hl & Hu). by apply (arranged_whole tid first). }
  pose proof (Hok head Hhead') as Hoh.
  unfold assemble_group. rewrite Eo. rewrite <- Eo.
  apply wp_bind, wp_reserve_still. intros _. apply wp_bind, wp_copy_fixed; cbn [app].
  - intros Htext. apply wp_bind, wp_reserve_still. intros _. pose proof (fo_total head Hoh) as Hrange.
    apply wp_bind, wp_join_details; cbn [app].
    + unfold usize_max, u64_max, u32_max in *. lia.
    + intros Hle. destruct (Z.eqb_spec (zlen (joined ordered)) (fg_total head)) as [Hl|Hl]; cbn [negb].
      2:{ apply wp_mark_damaged. right. split; [|done]. rewrite Hiff. naive_solver. }
      destruct (utf8_valid (joined ordered)) eqn:Hu; cbn [negb].
      2:{ apply wp_mark_damaged. right. split; [|done]. rewrite Hiff. naive_solver. }
      apply wp_emit_group; try done.
      * rewrite (fo_fixed head Hoh), (Hkind head Hhead'). done.
      * pose proof (fo_count first (Hok first Hin)). unfold zlen in *. rewrite Hperm. lia.
      * intros e He. left. exists e. split_and!; [|done|done]. by apply Hiff.
    + intros Hgt. apply wp_mark_damaged. right. split; [|done]. rewrite Hiff. intros (_ & ? & _). lia.
    + unfold zlen. cbn. lia.
  - intros Hbad. apply wp_mark_damaged. right. split; [|done]. rewrite Hiff. naive_solver.
Qed.

Lemma wp_group_turn tid kind group sink :
  group <> [] -> Forall fragment_ok group -> Forall (fun f => fg_kind f = kind) group ->
  wp (W := W) (group_turn artifact superblock chunks tid kind group)
    (fun _ sink' => settled tid kind group sink sink') refused sink.
Proof.
  intros Hne Hok Hkind. destruct group as [|first rest] eqn:Eg; [done|]. rewrite <- Eg in *.
  assert (first ∈ group) as Hin by (rewrite Eg; left).
  unfold group_turn. rewrite Eg. rewrite <- Eg.
  apply wp_bind, wp_reserve_still. intros _. apply wp_bind, wp_reserve_still. intros _.
  apply wp_bind. eapply wp_mono; [apply wp_collect_evidence| |done]. intros ev s [-> ->].
  fold (evidence_of_group group). apply wp_bind, wp_reserve_still. intros _.
  apply wp_bind. eapply wp_mono; [apply wp_empty_slots| |done]. intros slots s [-> ->].
  apply wp_bind. eapply wp_mono; [apply wp_place_fragments| |done]. intros placed s [-> ->].
  apply wp_bind, wp_reserve_still. intros _.
  apply wp_bind. eapply wp_mono; [apply wp_take_ordered| |done]. intros taken s [-> ->].
  apply wp_bind. eapply wp_mono; [apply wp_check_sequences| |done]. intros stable s [-> ->].
  destruct (group_arranged tid superblock chunks first group Hok) as [Hsound Hcomplete].
  set (placed := foldl (place_one first tid superblock chunks) _ group) in *.
  set (taken := foldl take_one _ (fst placed)) in *.
  destruct (snd (foldl sequence_one _ (fst taken))) eqn:Hst; cbn [negb].
  - specialize (Hsound eq_refl). eapply wp_mono; [by apply (wp_assemble_group tid kind first)| |done].
    intros [] sink' [(e & Hw & He & ->)|[Hno ->]].
    + left. by exists (fst taken), e.
    + right. split; [|done]. intros ordered Hw.
      destruct (Hcomplete ordered (whole_arranged tid first group ordered Hin Hw)) as [_ <-]. done.
  - apply wp_mark_damaged. right. split; [|done]. intros ordered Hw.
    by destruct (Hcomplete ordered (whole_arranged tid first group ordered Hin Hw)) as [? _].
Qed.

(** ** All groups *)

Definition group_of (key : Z * Z * Z) (fragments : list Fragment) : list Fragment :=
  filter (fun f => group_key f = key) fragments.

Lemma group_of_snoc key before f :
  group_of key (before ++ [f]) = group_of key before ++ (if decide (group_key f = key) then [f] else []).
Proof. unfold group_of. by rewrite filter_app, filter_cons, filter_nil. Qed.

Lemma group_of_nonempty key fragments :
  group_of key fragments <> [] <-> exists f, f ∈ fragments /\ group_key f = key.
Proof.
  unfold group_of. split.
  - intros Hne. destruct (filter _ fragments) as [|f l] eqn:E; [done|]. exists f.
    assert (f ∈ filter (fun f => group_key f = key) fragments) as Hf by (rewrite E; left).
    by apply list_elem_of_filter in Hf as [? ?].
  - intros (f & Hf & Hk) Hnil. assert (f ∈ filter (fun f => group_key f = key) fragments) as Hin
      by by apply list_elem_of_filter.
    rewrite Hnil in Hin. by apply not_elem_of_nil in Hin.
Qed.

Lemma zlen_group_of key l : zlen (group_of key l) <= zlen l.
Proof. unfold zlen, group_of. apply Nat2Z.inj_le, length_filter. Qed.

(** Membership of the keys, one loop at a time. *)
Definition keyed {A} (fragments : list Fragment) (value : Z * Z * Z -> A) (m : gmap (Z * Z * Z) A) : Prop :=
  forall key, m !! key = if decide (group_of key fragments = []) then None else Some (value key).

Lemma wp_count_groups (fragments : list Fragment) sink :
  zlen fragments <= usize_max ->
  wp (W := W) (count_groups fragments)
    (fun counts s => s = sink /\ keyed fragments (fun key => zlen (group_of key fragments)) counts)
    refused sink.
Proof.
  intros Hlen. apply (wp_fold_indexed (fun before counts =>
    keyed before (fun key => zlen (group_of key before)) counts)); [done|].
  intros before f after counts Hsplit Hk. apply wp_bind, wp_fragment_checkpoint, wp_bind, wp_option.
  assert (default 0 (counts !! group_key f) = zlen (group_of (group_key f) before)) as ->.
  { rewrite Hk. case_decide as Hn; [by rewrite Hn|done]. }
  pose proof (zlen_group_of (group_key f) before). rewrite Hsplit, zlen_app in Hlen.
  unfold zlen in Hlen at 2. cbn [length] in Hlen. rewrite checked_add_ok by lia.
  apply wp_ret. split; [done|]. intros key. rewrite group_of_snoc.
  destruct (decide (group_key f = key)) as [<-|Hne].
  - rewrite lookup_insert_eq, decide_False by (by intros [_ ?]%app_nil). by rewrite zlen_app.
  - rewrite lookup_insert_ne, app_nil_r by done. apply Hk.
Qed.

Lemma wp_open_groups {HO : HashOrder} (counts : gmap (Z * Z * Z) Z) sink :
  wp (W := W) (open_groups counts)
    (fun groups s => s = sink /\ forall key, groups !! key = (fun _ => []) <$> counts !! key) refused sink.
Proof.
  eapply wp_mono; [apply (wp_fold_still (fun before groups =>
    forall key, groups !! key = (if decide (key ∈ map fst before) then Some [] else None)) _ _ _ refused)|..].
  - intros key. cbn. by rewrite decide_False by apply not_elem_of_nil.
  - intros before [key count] after groups _ Hg. apply wp_bind, wp_reserve_still. intros _.
    apply wp_ret. split; [done|]. intros k. rewrite map_app. cbn [map fst].
    destruct (decide (key = k)) as [<-|Hne].
    + by rewrite lookup_insert_eq, decide_True by set_solver.
    + rewrite lookup_insert_ne, Hg by done. apply decide_ext. set_solver.
  - intros groups s [-> Hg]. split; [done|]. intros key. rewrite Hg.
    assert (key ∈ map fst (hash_iter GroupCounts counts) <-> is_Some (counts !! key)) as Hin.
    { rewrite (fmap_Permutation fst _ _ (hash_iter_entries GroupCounts counts)).
      rewrite list_elem_of_fmap. split.
      - intros ([k n] & -> & Hn%elem_of_map_to_list). by eexists.
      - intros [n Hn]. exists (key, n). split; [done|]. by apply elem_of_map_to_list. }
    destruct (counts !! key) eqn:E; cbn.
    + apply decide_True. apply Hin. by eexists.
    + apply decide_False. intros [? ?]%Hin. done.
  - done.
Qed.

Lemma wp_fill_groups (fragments : list Fragment) groups sink :
  (forall key vs, groups !! key = Some vs -> vs = []) ->
  (forall f, f ∈ fragments -> is_Some (groups !! group_key f)) ->
  wp (W := W) (fill_groups fragments groups)
    (fun filled s => s = sink
      /\ forall key, filled !! key = (fun _ => group_of key fragments) <$> groups !! key) refused sink.
Proof.
  intros Hempty Hopen. apply (wp_fold_indexed (fun before filled => forall key,
    filled !! key = (fun _ => group_of key before) <$> groups !! key)).
  - intros key. destruct (groups !! key) as [vs|] eqn:E; [|done]. cbn. by rewrite (Hempty key vs).
  - intros before f after filled Hsplit Hf. apply wp_bind, wp_fragment_checkpoint, wp_bind, wp_option.
    destruct (Hopen f) as [vs Hvs]; [rewrite Hsplit; set_solver|]. rewrite Hf, Hvs. cbn.
    apply wp_ret. split; [done|]. intros key. rewrite group_of_snoc.
    destruct (decide (group_key f = key)) as [<-|Hne].
    + by rewrite lookup_insert_eq, Hvs.
    + rewrite lookup_insert_ne, app_nil_r by done. apply Hf.
Qed.

(** What became of a group: its event, or [None] when it was reported damaged. *)
Definition verdict_ok (fragments : list Fragment) (v : (Z * Z * Z) * option EventRecord) : Prop :=
  let '((tid, id, kind), outcome) := v in
  match outcome with
  | Some e => exists ordered, whole tid superblock chunks (group_of (tid, id, kind) fragments) ordered
                /\ assembles artifact tid kind ordered e
  | None => forall ordered, ~ whole tid superblock chunks (group_of (tid, id, kind) fragments) ordered
  end.

Definition settle (fragments : list Fragment) (sink : FragmentSink)
    (v : (Z * Z * Z) * option EventRecord) : FragmentSink :=
  match snd v with
  | Some e => push_event e sink
  | None => mark_all (evidence_of_group (group_of (fst v) fragments)) sink
  end.

Lemma wp_settle_groups (fragments : list Fragment) (entries : list ((Z * Z * Z) * list Fragment)) sink :
  Forall fragment_ok fragments ->
  (forall key vs, (key, vs) ∈ entries -> vs = group_of key fragments /\ vs <> []) ->
  wp (W := W) (fold_each (imap pair entries) tt (fun _ '(group_index, ((tid, _, kind), values)) =>
      fragment_checkpoint group_index ;! group_turn artifact superblock chunks tid kind values))
    (fun _ sink' => exists verdicts, map fst verdicts = map fst entries
       /\ Forall (verdict_ok fragments) verdicts /\ sink' = foldl (settle fragments) sink verdicts)
    refused sink.
Proof.
  intros Hok Hentries. apply (wp_fold_over (fun before _ s => exists verdicts,
    map fst verdicts = map fst before /\ Forall (verdict_ok fragments) verdicts
    /\ s = foldl (settle fragments) sink verdicts)).
  - by exists [].
  - intros before [[[tid id] kind] values] after [] s Hsplit (verdicts & Hkeys & Hv & ->).
    destruct (Hentries (tid, id, kind) values) as [-> Hne]; [rewrite Hsplit; set_solver|].
    assert (forall P : Fragment -> Prop, (forall f, f ∈ fragments -> group_key f = (tid, id, kind) -> P f) ->
      Forall P (group_of (tid, id, kind) fragments)) as Hgroup.
    { intros P HP. apply Forall_forall. intros f [Hk Hf]%list_elem_of_filter. by apply HP. }
    apply wp_bind, wp_fragment_checkpoint. eapply wp_mono; [apply wp_group_turn; [done|..]| |done].
    + apply Hgroup. intros f Hf _. by apply (proj1 (Forall_forall _ _) Hok).
    + apply Hgroup. intros f _ [= _ _ Hk]. done.
    + intros [] s' [(ordered & e & Hw & He & ->)|[Hno ->]].
      * exists (verdicts ++ [((tid, id, kind), Some e)]). rewrite !map_app, Hkeys, foldl_snoc.
        split_and!; [done| |done]. apply Forall_app. split; [done|]. apply Forall_singleton. by exists ordered.
      * exists (verdicts ++ [((tid, id, kind), None)]). rewrite !map_app, Hkeys, foldl_snoc.
        split_and!; [done| |done]. apply Forall_app. split; [done|]. by apply Forall_singleton.
Qed.

Lemma wp_finish_fragments {HO : HashOrder} (fragments : list Fragment) sink :
  Forall fragment_ok fragments -> zlen fragments <= usize_max ->
  wp (W := W) (finish_fragments fragments artifact superblock chunks)
    (fun _ sink' => exists verdicts, NoDup (map fst verdicts)
       /\ (forall key, key ∈ map fst verdicts <-> exists f, f ∈ fragments /\ group_key f = key)
       /\ Forall (verdict_ok fragments) verdicts /\ sink' = foldl (settle fragments) sink verdicts)
    refused sink.
Proof.
  intros Hok Hlen. unfold finish_fragments. apply wp_bind, wp_reserve_map; [apply _| |done].
  apply wp_bind. eapply wp_mono; [by apply wp_count_groups| |done]. intros counts s [-> Hcounts].
  apply wp_bind, wp_reserve_map; [apply _| |done].
  apply wp_bind. eapply wp_mono; [apply wp_open_groups| |done]. intros groups s [-> Hgroups].
  assert (forall key, groups !! key = if decide (group_of key fragments = []) then None else Some []) as Hg.
  { intros key. rewrite Hgroups, Hcounts. by case_decide. }
  apply wp_bind. eapply wp_mono; [apply wp_fill_groups| |done].
  - intros key vs. rewrite Hg. case_decide; congruence.
  - intros f Hf. rewrite Hg, decide_False; [by eexists|]. apply group_of_nonempty. by exists f.
  - intros filled s [-> Hfilled].
    assert (forall key, filled !! key = if decide (group_of key fragments = []) then None
      else Some (group_of key fragments)) as Hf by (intros key; rewrite Hfilled, Hg; by case_decide).
    assert (forall key vs, (key, vs) ∈ hash_iter Groups filled <-> filled !! key = Some vs) as Hentries.
    { intros key vs. rewrite (hash_iter_entries Groups filled). apply elem_of_map_to_list. }
    eapply wp_mono; [apply (wp_settle_groups fragments)| |done].
    + done.
    + intros key vs Hin%Hentries. rewrite Hf in Hin. case_decide; [done|]. by injection Hin as <-.
    + intros [] s (verdicts & Hkeys & Hv & ->). exists verdicts. rewrite Hkeys. split_and!; [| |done|done].
      * rewrite (fmap_Permutation fst _ _ (hash_iter_entries Groups filled)). apply NoDup_fst_map_to_list.
      * intros key. rewrite list_elem_of_fmap, <- group_of_nonempty. split.
        -- intros ([k vs] & -> & Hin%Hentries). cbn. rewrite Hf in Hin. by case_decide.
        -- intros Hne. exists (key, group_of key fragments). split; [done|]. apply Hentries.
           by rewrite Hf, decide_False.
Qed.

End finish.

(** C24: no fragment is lost and none is invented.  Whatever the guard, the heap
    and the order in which the hash tables yield their groups, [finish]
    either stops on a refused resource or settles every group of fragments
    exactly once: a group that is whole (indices 0 to count - 1 once each,
    one total, count and set of fixed fields, every contributor inside its
    chunk and of its generation, increasing sequence numbers, details that
    join to the announced total and to valid text) becomes the one event with
    the joined detail, all its sequence numbers and offsets, and the position
    of its earliest fragment; every fragment of any other group is reported
    as damaged. *)
Theorem fragments_settled (W : Type) (G : WorkGuard W) (A : Allocator W) (HO : HashOrder)
    (fragments : list Fragment) (artifact : ArtifactDigest) (superblock : Superblock)
    (chunks : list (option ChunkIdentity)) (sink : FragmentSink) (w : W)
    (Hok : Forall fragment_ok fragments) (Hlen : zlen fragments <= usize_max) :
  match finish_fragments fragments artifact superblock chunks sink w with
  | (Ok _, sink', _) =>
      exists verdicts, NoDup (map fst verdicts)
        /\ (forall key, key ∈ map fst verdicts <-> exists f, f ∈ fragments /\ group_key f = key)
        /\ Forall (verdict_ok artifact superblock chunks fragments) verdicts
        /\ sink' = foldl (settle fragments) sink verdicts
  | (Err e, _, _) => resource_error e
  end.
Proof. exact (wp_finish_fragments artifact superblock chunks fragments sink Hok Hlen w). Qed.

(** The two fragments of the crate's own cross-chunk test. *)
Definition sample_superblock : Superblock :=
  mkSuperblock 8 1 1 1 (replicate 128 x00) 0 16384 (mkRegion 4096 4160) 1 (mkRegion 8192 12288) 2048 2
    (mkRegion 4160 4288) 1 0.
Definition sample_fragment (index chunk generation offset : Z) : Fragment :=
  mkFragment (mkEventKey [] 0 index offset (Some (index + 1)) (Some 77)) Captured 7 9 2 index 2
    [String.list_byte_of_string "rule"] [byte_of_Z (97 + index)] chunk generation.
Definition sample_fragments : list Fragment :=
  [sample_fragment 0 0 3 8256; sample_fragment 1 1 4 10304].
Definition sample_identities : list (option ChunkIdentity) :=
  [Some (mkChunkIdentity 77 3 2); Some (mkChunkIdentity 77 4 2)].

Lemma fragments_settled_witness :
  (exists verdicts sink', finish_fragments (W := unit) sample_fragments [] sample_superblock sample_identities
      (mkFragmentSink [] [] []) tt = (Ok tt, sink', tt)
    /\ sink' = foldl (settle sample_fragments) (mkFragmentSink [] [] []) verdicts
    /\ Forall (verdict_ok [] sample_superblock sample_identities sample_fragments) verdicts)
  /\ map ev_payload (fs_output (snd (fst (finish_fragments (W := unit) sample_fragments []
       sample_superblock sample_identities (mkFragmentSink [] [] []) tt))))
     = [SemanticRule (mkSemanticEvent None (String.list_byte_of_string "rule") (String.list_byte_of_string "ab") [1; 2])].
Proof.
  split; [|vm_compute; reflexivity].
  assert (Forall fragment_ok sample_fragments) as Hok.
  { repeat constructor; cbn; unfold u16_max, u32_max, u64_max; try lia;
      eexists; (split; [reflexivity|lia]). }
  pose proof (fragments_settled unit _ _ _ sample_fragments [] sample_superblock sample_identities
    (mkFragmentSink [] [] []) tt Hok ltac:(vm_compute; discriminate)) as Hset.
  destruct (finish_fragments sample_fragments [] sample_superblock sample_identities
    (mkFragmentSink [] [] []) tt) as [[[[]|e] sink'] []] eqn:Hrun.
  - destruct Hset as (verdicts & _ & _ & Hv & Hs). exists verdicts, sink'. split; [reflexivity|].
    split; [exact Hs|exact Hv].
  - exfalso. vm_compute in Hrun. discriminate Hrun.
Defined.
