(* ===== verification/FlightEvents.v ===== *)
(** * Decoding the records of a Flight artifact

    Models [decode] of [qtrace-provider/src/flight/events.rs]: every chunk is
    decoded under a small state machine (begin record, register checkpoint,
    then typed records until something in the register stream breaks), the
    emergency cells are decoded on their own, fragments are assembled, and the
    events are put in sequence order. *)

From stdpp Require Import prelude list sorting strings gmap.
From Stdlib Require Import ZArith Lia Strings.Byte Sorted.
From S2P Require Import Prelude Prog Control Model Source QtrbEvents FlightWire FlightContext FlightScan FlightSort FlightPayload FlightFragments.
Local Open Scope string_scope.
Local Open Scope list_scope.
Local Open Scope Z_scope.

(** The events are a [Vec]: its items and its capacity. *)
Record DecodedFlight := mkDecodedFlight {
  df_events : list EventRecord;
  df_events_capacity : Z;
  df_final_registers : gmap Z RegisterSnapshot;
  df_target_pcs : list Z;
  df_termination : option Termination;
  df_damaged_sequences : list Z;
  df_damaged_source_offsets : list Z
}.

Inductive PrefixState := ExpectBegin | ExpectCheckpoint | Ready | Broken.
#[global] Instance PrefixState_eq_dec : EqDecision PrefixState.
Proof. solve_decision. Defined.

Record ChunkState := mkChunkState {
  cs_prefix : PrefixState;
  cs_prefix_damage_recorded : bool;
  cs_module_base : Z;
  cs_strings : gmap Z nat;
  cs_fragment_strings : gmap Z bytes;
  cs_definitions : gmap Z InstructionDefinition;
  cs_registers : option RegisterSnapshot
}.

(** [ChunkState::default()] *)
Definition ChunkState_default : ChunkState := mkChunkState ExpectBegin false 0 ∅ ∅ ∅ None.

Definition set_prefix (p : PrefixState) (s : ChunkState) : ChunkState :=
  mkChunkState p (cs_prefix_damage_recorded s) (cs_module_base s) (cs_strings s)
    (cs_fragment_strings s) (cs_definitions s) (cs_registers s).
Definition set_damage_recorded (s : ChunkState) : ChunkState :=
  mkChunkState (cs_prefix s) true (cs_module_base s) (cs_strings s) (cs_fragment_strings s)
    (cs_definitions s) (cs_registers s).
Definition set_module_base (base : Z) (s : ChunkState) : ChunkState :=
  mkChunkState (cs_prefix s) (cs_prefix_damage_recorded s) base (cs_strings s)
    (cs_fragment_strings s) (cs_definitions s) (cs_registers s).
Definition insert_string (id : Z) (row : nat) (s : ChunkState) : ChunkState :=
  mkChunkState (cs_prefix s) (cs_prefix_damage_recorded s) (cs_module_base s)
    (<[id := row]> (cs_strings s)) (cs_fragment_strings s) (cs_definitions s) (cs_registers s).
Definition insert_fragment_string (id : Z) (value : bytes) (s : ChunkState) : ChunkState :=
  mkChunkState (cs_prefix s) (cs_prefix_damage_recorded s) (cs_module_base s) (cs_strings s)
    (<[id := value]> (cs_fragment_strings s)) (cs_definitions s) (cs_registers s).
Definition insert_definition (id : Z) (d : InstructionDefinition) (s : ChunkState) : ChunkState :=
  mkChunkState (cs_prefix s) (cs_prefix_damage_recorded s) (cs_module_base s) (cs_strings s)
    (cs_fragment_strings s) (<[id := d]> (cs_definitions s)) (cs_registers s).
Definition set_registers (r : option RegisterSnapshot) (s : ChunkState) : ChunkState :=
  mkChunkState (cs_prefix s) (cs_prefix_damage_recorded s) (cs_module_base s) (cs_strings s)
    (cs_fragment_strings s) (cs_definitions s) r.

Inductive ChunkDecodeError :=
| ChunkPayload (original : OpaqueOptionalRecord)
| ChunkControl (error : ProviderError).

Definition events_allocation_error (message : string) : ProviderError :=
  ProviderError_new "source.flight.allocation" "flight.events" None false message.

(** ** One record of a chunk *)

(** What [decode_chunk_record] may assign. *)
Record ChunkView := mkChunkView {
  cv_state : ChunkState;
  cv_fragments : list Fragment;
  cv_target_pcs : list Z
}.

Definition on_state (f : ChunkState -> ChunkState) (v : ChunkView) : ChunkView :=
  mkChunkView (f (cv_state v)) (cv_fragments v) (cv_target_pcs v).
Definition on_pcs (value : Z) (v : ChunkView) : ChunkView :=
  mkChunkView (cv_state v) (cv_fragments v) (push_pc value (cv_target_pcs v)).
Definition on_fragments (f : Fragment) (v : ChunkView) : ChunkView :=
  mkChunkView (cv_state v) (cv_fragments v ++ [f]) (cv_target_pcs v).

(** [error.operation_abort().is_some()] *)
Definition aborted (e : ProviderError) : bool := bool_decide (is_Some (operation_abort e)).

Section chunk.
Context {W : Type} `{WorkGuard W} `{Allocator W}.
Abbreviation V := (Prog W ProviderError ChunkView).
Abbreviation Chunk := (Prog W ChunkDecodeError ChunkView).

Definition checkpoint_payload (bs : bytes) (width : Z) (c : SourceCoordinate) : V EventPayload :=
  let! decoded := relabel (fun e => typed_decode_error e c "invalid register checkpoint")
    (decode_checkpoint bs width) in
  let '(checkpoint, snapshot) := decoded in
  modify (on_pcs (default 0 (snapshot_value snapshot Pc))) ;!
  modify (on_state (set_registers (Some snapshot))) ;!
  modify (on_state (set_prefix Ready)) ;!
  ret (PRegisterCheckpoint checkpoint).

Definition delta_payload (bs : bytes) (width : Z) (c : SourceCoordinate) : V EventPayload :=
  let! v := get in
  let! decoded := relabel (fun e => typed_decode_error e c "invalid register delta")
    (decode_delta bs width (cs_registers (cv_state v))) in
  let '(delta, after) := decoded in
  modify (on_state (set_registers after)) ;!
  match after with
  | Some snapshot => modify (on_pcs (default 0 (snapshot_value snapshot Pc)))
  | None => ret tt
  end ;!
  ret (PRegisterDelta delta).

Definition definition_payload (bs : bytes) (c : SourceCoordinate) : V EventPayload :=
  let! definition := decode_instruction_definition_record bs c in
  let! v := get in
  fail_if (bool_decide (is_Some (cs_definitions (cv_state v) !! id_definition_id definition)))
    (payload_error c "duplicate Flight instruction definition") ;!
  let! copy := clone_instruction_definition definition in
  modify (on_state (insert_definition (id_definition_id definition) copy)) ;!
  ret (PInstructionDefinition definition).

Definition instruction_payload (bs : bytes) (width : Z) (c : SourceCoordinate) : V EventPayload :=
  let! id := lift_result (definition_id bs) in
  let! v := get in
  let! definition := lift_option (cs_definitions (cv_state v) !! id)
    (payload_error c "undefined Flight instruction definition") in
  let! decoded := decode_instruction_record bs definition c in
  let instruction := dec_instruction decoded in
  let! pc := lift_option (pointer_sum (cs_module_base (cv_state v)) (in_relative_pc instruction) width)
    (payload_error c "instruction PC exceeds pointer width") in
  fold_each (in_read_before instruction ++ in_write_after instruction) tt (fun _ observation =>
    lift_option (require_pointer (ro_value observation) width)
      (payload_error c "instruction observation exceeds pointer width")) ;!
  modify (on_pcs pc) ;!
  ret (PInstruction instruction).

Definition memory_payload (bs : bytes) (width : Z) (c : SourceCoordinate) : V EventPayload :=
  let! memory := decode_memory_record bs c in
  let! v := get in
  let! pc := lift_option (pointer_sum (cs_module_base (cv_state v)) (me_relative_pc memory) width)
    (payload_error c "memory PC exceeds pointer width") in
  lift_option (require_pointer (me_address memory) width)
    (payload_error c "memory address exceeds pointer width") ;!
  modify (on_pcs pc) ;!
  ret (PMemory memory).

Definition thread_begin_payload (bs : bytes) (tid width : Z) (c : SourceCoordinate) : V EventPayload :=
  let lifecycle := decode_thread_begin bs tid in
  match tl_start_routine lifecycle with
  | None => ret tt
  | Some start => lift_option (require_pointer start width)
                    (payload_error c "thread start routine exceeds pointer width")
  end ;!
  ret (PThreadLifecycle lifecycle).

Definition thread_end_payload (bs : bytes) (tid : Z) (c : SourceCoordinate) : V EventPayload :=
  lift_option
    (encoded ← exact_u32 bs;
     if encoded =? tid then Some (PThreadLifecycle (mkThreadLifecycle tid ThreadEnd None None None))
     else None)
    (payload_error c "invalid thread end").

Definition signal_payload (bs : bytes) (tid width : Z) : V EventPayload :=
  let! item := decode_signal bs tid width in
  modify (on_pcs (sg_pc item)) ;!
  ret (PSignal item).

(** [matches!((raw.record_type, raw.flags), (kind, flags))] *)
Definition is_record (raw : OpaqueOptionalRecord) (kind flags : Z) : bool :=
  (oo_record_type raw =? kind) && (oo_flags raw =? flags).

(** [(kind @ 6..=8, ..)] *)
Definition semantic_kind (kind : Z) : bool := (6 <=? kind) && (kind <=? 8).

(** [match (raw.record_type, raw.flags)]; [None] is the last arm. *)
Definition typed_payload (raw : OpaqueOptionalRecord) (c : SourceCoordinate) (tid : Z)
    (superblock : Superblock) (output : list EventRecord) : option (V EventPayload) :=
  let width := sb_pointer_width superblock in
  let bs := oo_bytes raw in
  if is_record raw 9 1 then Some (checkpoint_payload bs width c)
  else if is_record raw 9 0 then Some (delta_payload bs width c)
  else if is_record raw 4 1 then Some (definition_payload bs c)
  else if is_record raw 4 0 then Some (instruction_payload bs width c)
  else if is_record raw 5 0 then Some (memory_payload bs width c)
  else if semantic_kind (oo_record_type raw) && (oo_flags raw =? 0) then
    Some (let! v := get in
          decode_semantic (oo_record_type raw) bs (cs_strings (cv_state v)) output [])
  else if is_record raw 2 0 then Some (thread_begin_payload bs tid width c)
  else if is_record raw 3 0 then Some (thread_end_payload bs tid c)
  else if is_record raw 10 0 then Some (let! item := decode_syscall bs tid width in ret (PSyscall item))
  else if is_record raw 11 0 then Some (signal_payload bs tid width)
  else None.

(** One turn of the loop that shares the strings of a fragment. *)
Definition share_field (raw : OpaqueOptionalRecord) (output : list EventRecord) (field : Z) :
    Chunk unit :=
  let! id := lift_option (raw_u32 (oo_bytes raw) (16 + field * 4)) (ChunkPayload raw) in
  let! v := get in
  let! row := lift_option (cs_strings (cv_state v) !! id) (ChunkPayload raw) in
  match cs_fragment_strings (cv_state v) !! id with
  | Some _ => ret tt
  | None =>
      let! event := lift_option (output !! row) (ChunkControl index_panic) in
      match ev_payload event with
      | PStringDefinition value =>
          let! shared := relabel ChunkControl (shared_string (sd_bytes value)) in
          modify (on_state (insert_fragment_string id shared))
      | _ => throw (ChunkPayload raw)
      end
  end.

(** [(kind @ 6..=8, 4) => ..] *)
Definition fragment_record (raw : OpaqueOptionalRecord) (key : EventKey) (p : Provenance)
    (chunk_index generation : Z) (output : list EventRecord) : Chunk (option EventRecord) :=
  let kind := oo_record_type raw in
  fail_if (negb (zlen (oo_bytes raw) =? 16 + field_count kind * 4)) (ChunkPayload raw) ;!
  let! v := get in
  relabel ChunkControl (flight_reserve_map (ChunkFragmentStrings (Z.to_nat chunk_index))
    T_shared_string_entry (Z.of_nat (size (cs_fragment_strings (cv_state v)))) (field_count kind)
    "Flight fragment dictionary allocation failed") ;!
  fold_each (seqZ 0 (field_count kind)) tt (fun _ field => share_field raw output field) ;!
  let! v := get in
  let! decoded := attempt (decode_fragment kind (oo_bytes raw)
    (cs_fragment_strings (cv_state v)) key p chunk_index generation) in
  match decoded with
  | Ok fragment => modify (on_fragments fragment) ;! ret None
  | Err error => if aborted error then throw (ChunkControl error) else throw (ChunkPayload raw)
  end.

(** The provenance of a decoded payload. *)
Definition payload_damaged (payload : EventPayload) : bool :=
  match payload with
  | PThreadLifecycle value =>
      match tl_creator_tid value, tl_phase value with None, ThreadBegin => true | _, _ => false end
  | PRegisterDelta value => negb (de_ancestry_reliable value)
  | _ => false
  end.

Definition decode_chunk_record (raw : OpaqueOptionalRecord) (key : EventKey) (p : Provenance)
    (scope : EventScope) (identity : ChunkIdentity) (chunk_index : Z) (superblock : Superblock)
    (output : list EventRecord) : Chunk (option EventRecord) :=
  let c := mkCoordinate (ek_source_offset key) (Some (ek_record_ordinal key)) in
  if is_record raw 6 3 then
    let! v := get in
    let! id := lift_result (map_err (fun _ => ChunkPayload raw)
      (validate_string (oo_bytes raw) (cs_strings (cv_state v)))) in
    modify (on_state (insert_string id (length output))) ;!
    ret (Some (event_record_new_scoped key p scope
      (PStringDefinition (mkStringDefinition id (drop 8 (oo_bytes raw))))))
  else if semantic_kind (oo_record_type raw) && (oo_flags raw =? 4) then
    fragment_record raw key p chunk_index (ci_generation identity) output
  else
    let! decode := lift_option (typed_payload raw c (ci_tid identity) superblock output)
      (ChunkPayload raw) in
    let! result := attempt decode in
    match result with
    | Ok payload =>
        ret (Some (event_record_new_scoped key (if payload_damaged payload then Damaged else p)
          scope payload))
    | Err error => if aborted error then throw (ChunkControl error) else throw (ChunkPayload raw)
    end.

End chunk.

(** ** The decode loop *)

(** The mutable locals of [decode]. *)
Record DecodeState := mkDecodeState {
  ds_states : list ChunkState;
  ds_output : list EventRecord;
  ds_fragments : list Fragment;
  ds_final_state : gmap Z (Z * RegisterSnapshot);
  ds_target_pcs : list Z;
  ds_termination : option Termination;
  ds_damaged_sequences : list Z;
  ds_damaged_source_offsets : list Z
}.

Definition ds_push (event : EventRecord) (d : DecodeState) : DecodeState :=
  mkDecodeState (ds_states d) (ds_output d ++ [event]) (ds_fragments d) (ds_final_state d)
    (ds_target_pcs d) (ds_termination d) (ds_damaged_sequences d) (ds_damaged_source_offsets d).
Definition ds_damage (sequence offset : Z) (d : DecodeState) : DecodeState :=
  mkDecodeState (ds_states d) (ds_output d) (ds_fragments d) (ds_final_state d) (ds_target_pcs d)
    (ds_termination d) (ds_damaged_sequences d ++ [sequence])
    (ds_damaged_source_offsets d ++ [offset]).
Definition ds_set_final (final : gmap Z (Z * RegisterSnapshot)) (d : DecodeState) : DecodeState :=
  mkDecodeState (ds_states d) (ds_output d) (ds_fragments d) final (ds_target_pcs d)
    (ds_termination d) (ds_damaged_sequences d) (ds_damaged_source_offsets d).
Definition ds_pc (value : Z) (d : DecodeState) : DecodeState :=
  mkDecodeState (ds_states d) (ds_output d) (ds_fragments d) (ds_final_state d)
    (push_pc value (ds_target_pcs d)) (ds_termination d) (ds_damaged_sequences d)
    (ds_damaged_source_offsets d).
Definition ds_set_termination (t : Termination) (d : DecodeState) : DecodeState :=
  mkDecodeState (ds_states d) (ds_output d) (ds_fragments d) (ds_final_state d) (ds_target_pcs d)
    (Some t) (ds_damaged_sequences d) (ds_damaged_source_offsets d).

(** [&mut states[index]] *)
Definition ds_state (index : nat) (d : DecodeState) : ChunkState :=
  default ChunkState_default (ds_states d !! index).
Definition ds_on_state (index : nat) (f : ChunkState -> ChunkState) (d : DecodeState) : DecodeState :=
  mkDecodeState (alter f index (ds_states d)) (ds_output d) (ds_fragments d) (ds_final_state d)
    (ds_target_pcs d) (ds_termination d) (ds_damaged_sequences d) (ds_damaged_source_offsets d).

(** The borrows passed to [decode_chunk_record]. *)
Definition ds_view (index : nat) (d : DecodeState) : ChunkView :=
  mkChunkView (ds_state index d) (ds_fragments d) (ds_target_pcs d).
Definition ds_set_view (index : nat) (v : ChunkView) (d : DecodeState) : DecodeState :=
  mkDecodeState (alter (fun _ => cv_state v) index (ds_states d)) (ds_output d) (cv_fragments v)
    (ds_final_state d) (cv_target_pcs v) (ds_termination d) (ds_damaged_sequences d)
    (ds_damaged_source_offsets d).

(** The borrows passed to [fragments::finish]. *)
Definition ds_sink (d : DecodeState) : FragmentSink :=
  mkFragmentSink (ds_output d) (ds_damaged_sequences d) (ds_damaged_source_offsets d).
Definition ds_set_sink (s : FragmentSink) (d : DecodeState) : DecodeState :=
  mkDecodeState (ds_states d) (fs_output s) (ds_fragments d) (ds_final_state d) (ds_target_pcs d)
    (ds_termination d) (fs_damaged s) (fs_damaged_offsets s).

(** [record_prefix_damage] on [states[index]] *)
Definition record_prefix_damage (index : nat) (sequence offset : Z) (d : DecodeState) : DecodeState :=
  if cs_prefix_damage_recorded (ds_state index d) then d
  else ds_on_state index set_damage_recorded (ds_damage sequence offset d).

Section decode.
Context {W : Type} `{WorkGuard W} `{Allocator W}.
Abbreviation D := (Prog W ProviderError DecodeState).

(** What every record of the loop knows about itself. *)
Record RecordContext := mkRecordContext {
  rx_key : EventKey;
  rx_scope : EventScope;
  rx_raw : OpaqueOptionalRecord;
  rx_sequence : Z;
  rx_tid : Z
}.

Definition record_context (p : PhysicalFlight) : RecordContext :=
  mkRecordContext (ph_key p) (ph_scope p) (ph_raw p) (default 0 (ek_sequence (ph_key p)))
    (default 0 (ek_tid (ph_key p))).

Definition rx_offset (x : RecordContext) : Z := ek_source_offset (rx_key x).
Definition rx_coordinate (x : RecordContext) : SourceCoordinate :=
  mkCoordinate (rx_offset x) (Some (ek_record_ordinal (rx_key x))).

(** [output.push(rewrap(.., Provenance::Damaged, ..))] after the prefix broke. *)
Definition break_prefix (index : nat) (x : RecordContext) : D unit :=
  modify (ds_on_state index (set_prefix Broken)) ;!
  modify (record_prefix_damage index (rx_sequence x) (rx_offset x)) ;!
  modify (ds_push (rewrap (rx_key x) Damaged (rx_scope x) (rx_raw x))).

(** [if state.prefix == PrefixState::ExpectBegin { .. }] *)
Definition begin_turn (index : nat) (identity : ChunkIdentity) (superblock : Superblock)
    (x : RecordContext) : D unit :=
  if negb (oo_record_type (rx_raw x) =? 1) || negb (oo_flags (rx_raw x) =? 0)
  then break_prefix index x
  else
    let! r := attempt (decode_begin (oo_bytes (rx_raw x)) superblock identity (Z.of_nat index)
      (rx_coordinate x)) in
    match r with
    | Ok begin =>
        modify (ds_on_state index (set_prefix ExpectCheckpoint)) ;!
        modify (ds_on_state index (set_module_base (bm_module_base begin))) ;!
        modify (ds_push (event_record_new_scoped (rx_key x) Captured (rx_scope x) (Begin begin)))
    | Err error => if aborted error then throw error else break_prefix index x
    end.

(** [if state.prefix == PrefixState::Broken { .. }] *)
Definition broken_turn (index : nat) (superblock : Superblock) (x : RecordContext) : D unit :=
  let! d := get in
  let damage_was_recorded := cs_prefix_damage_recorded (ds_state index d) in
  modify (record_prefix_damage index (rx_sequence x) (rx_offset x)) ;!
  (if damage_was_recorded then modify (ds_damage (rx_sequence x) (rx_offset x)) else ret tt) ;!
  let opaque := modify (ds_push (rewrap (rx_key x) Damaged (rx_scope x) (rx_raw x))) in
  if is_record (rx_raw x) 9 0 then
    let! r := attempt (decode_delta (oo_bytes (rx_raw x)) (sb_pointer_width superblock) None) in
    match r with
    | Ok (delta, _) => modify (ds_push (event_record_new_scoped (rx_key x) Damaged (rx_scope x)
                                 (PRegisterDelta delta)))
    | Err (TypedControl error) => throw error
    | Err TypedInvalid => opaque
    end
  else opaque.

(** [if let Some(snapshot) = &state.registers { match final_state.entry(tid) .. }] *)
Definition note_registers (index : nat) (x : RecordContext) : D unit :=
  let! d := get in
  match cs_registers (ds_state index d) with
  | None => ret tt
  | Some snapshot =>
      match ds_final_state d !! rx_tid x with
      | Some (last, _) =>
          if last <=? rx_sequence x
          then modify (ds_set_final (<[rx_tid x := (rx_sequence x, snapshot)]> (ds_final_state d)))
          else ret tt
      | None =>
          let! copy := clone_snapshot snapshot in
          modify (ds_set_final (<[rx_tid x := (rx_sequence x, copy)]> (ds_final_state d)))
      end
  end.

(** The typed record of a chunk whose prefix holds. *)
Definition record_turn (index : nat) (identity : ChunkIdentity) (superblock : Superblock)
    (x : RecordContext) : D unit :=
  let! d := get in
  let! decoded := attempt_on (ds_view index) (ds_set_view index)
    (decode_chunk_record (rx_raw x) (rx_key x) Captured (rx_scope x) identity (Z.of_nat index)
       superblock (ds_output d)) in
  match decoded with
  | Ok (Some typed) =>
      note_registers index x ;!
      match ev_provenance typed with
      | Damaged => modify (ds_damage (rx_sequence x) (rx_offset x))
      | _ => ret tt
      end ;!
      modify (ds_push typed)
  | Ok None => ret tt
  | Err (ChunkPayload original) =>
      (if oo_record_type original =? 9 then
         modify (ds_on_state index (set_registers None)) ;!
         modify (ds_on_state index (set_prefix Broken)) ;!
         modify (fun d => ds_set_final (delete (rx_tid x) (ds_final_state d)) d)
       else ret tt) ;!
      modify (ds_damage (rx_sequence x) (rx_offset x)) ;!
      modify (ds_push (rewrap (rx_key x) Damaged (rx_scope x) original))
  | Err (ChunkControl error) => throw error
  end.

(** A record of the chunk [index]. *)
Definition chunk_turn (index : nat) (identity : ChunkIdentity) (superblock : Superblock)
    (x : RecordContext) : D unit :=
  let! d := get in
  lift_option (ds_states d !! index) index_panic ;!
  let checkpoint := is_record (rx_raw x) 9 1 in
  match cs_prefix (ds_state index d) with
  | ExpectBegin => begin_turn index identity superblock x
  | ExpectCheckpoint =>
      if checkpoint then record_turn index identity superblock x else break_prefix index x
  | Ready =>
      if checkpoint then
        modify (ds_on_state index (set_prefix Broken)) ;!
        modify (ds_on_state index (set_registers None)) ;!
        modify (fun d => ds_set_final (delete (rx_tid x) (ds_final_state d)) d) ;!
        modify (record_prefix_damage index (rx_sequence x) (rx_offset x)) ;!
        modify (ds_push (rewrap (rx_key x) Damaged (rx_scope x) (rx_raw x)))
      else record_turn index identity superblock x
  | Broken => broken_turn index superblock x
  end.

(** The program counters an emergency record names, and the termination. *)
Definition note_emergency (payload : EventPayload) (d : DecodeState) : DecodeState :=
  match payload with
  | PCoverageGap value => ds_pc (cg_pc value) d
  | PSignal value => ds_pc (sg_pc value) d
  | PSignalHandlerBoundary value => ds_pc (sh_pc value) d
  | PTermination value =>
      ds_set_termination value (ds_pc (from_option ti_pc 0 (te_intent value)) d)
  | _ => d
  end.

Definition emergency_turn (x : RecordContext) : D unit :=
  let! typed := decode_emergency (rx_raw x) (rx_key x) (rx_coordinate x) in
  modify (note_emergency (ev_payload typed)) ;!
  modify (ds_push typed).

(** One turn of the main loop. *)
Definition decode_turn (superblock : Superblock) (chunks : list (option ChunkIdentity))
    (position : nat) (p : PhysicalFlight) : D unit :=
  let x := record_context p in
  fragment_checkpoint position ;!
  let opaque := modify (ds_push (rewrap (rx_key x) Captured (rx_scope x) (rx_raw x))) in
  match chunk_index superblock (rx_offset x) with
  | Some index =>
      match mjoin (chunks !! Z.to_nat index) with
      | None => opaque
      | Some chunk => chunk_turn (Z.to_nat index) chunk superblock x
      end
  | None =>
      if (rg_offset (sb_emergencies superblock) <=? rx_offset x)
         && (rx_offset x <? rg_end (sb_emergencies superblock))
      then emergency_turn x
      else opaque
  end.

(** ** Before and after the loop *)

Section receiver.
Context {S : Type}.
Abbreviation M := (Prog W ProviderError S).

(** The definitions, strings and fragments to make room for. *)
Record DecodeCounts := mkDecodeCounts {
  dc_definitions : list Z;
  dc_strings : list Z;
  dc_fragments : Z
}.

(** [counts.get_mut(index)] and [checked_add(1)] *)
Definition bump (counts : list Z) (index : nat) (invalid overflow : string) : M (list Z) :=
  let! count := lift_option (counts !! index) (events_allocation_error invalid) in
  let! count := lift_option (checked_add usize_max count 1) (events_allocation_error overflow) in
  ret (<[index := count]> counts).

Definition count_record_turn (superblock : Superblock) (counts : DecodeCounts) (position : nat)
    (p : PhysicalFlight) : M DecodeCounts :=
  fragment_checkpoint position ;!
  let raw := ph_raw p in
  let! counts :=
    match chunk_index superblock (ek_source_offset (ph_key p)) with
    | None => ret counts
    | Some chunk =>
        let index := Z.to_nat chunk in
        let! definitions :=
          if is_record raw 4 1
          then bump (dc_definitions counts) index "Flight definition chunk is invalid"
                 "Flight definition count overflow"
          else ret (dc_definitions counts) in
        let! strings :=
          if is_record raw 6 3
          then bump (dc_strings counts) index "Flight string chunk is invalid"
                 "Flight string count overflow"
          else ret (dc_strings counts) in
        ret (mkDecodeCounts definitions strings (dc_fragments counts))
    end in
  if semantic_kind (oo_record_type raw) && (oo_flags raw =? 4) then
    let! n := lift_option (checked_add usize_max (dc_fragments counts) 1)
      (events_allocation_error "Flight fragment count overflow") in
    ret (mkDecodeCounts (dc_definitions counts) (dc_strings counts) n)
  else ret counts.

Definition count_records (superblock : Superblock) (chunks : Z) (physical : list PhysicalFlight) :
    M DecodeCounts :=
  fold_each (imap pair physical)
    (mkDecodeCounts (replicate (Z.to_nat chunks) 0) (replicate (Z.to_nat chunks) 0) 0)
    (fun counts '(position, p) => count_record_turn superblock counts position p).

Definition initialize_states (definition_counts string_counts : list Z) : M (list ChunkState) :=
  fail_if (negb (zlen definition_counts =? zlen string_counts))
    (events_allocation_error "Flight state count mismatch") ;!
  flight_reserve_vec (A := ChunkState) T_ChunkState vec_new (zlen definition_counts)
    "Flight chunk-state allocation failed" ;!
  for_each (imap pair (zip definition_counts string_counts))
    (fun '(index, (definition_count, string_count)) =>
      fragment_checkpoint index ;!
      flight_reserve_map (ChunkDefinitions index) T_chunk_definition_entry 0 definition_count
        "Flight definition-state allocation failed" ;!
      flight_reserve_map (ChunkStrings index) T_chunk_string_entry 0 string_count
        "Flight string-state allocation failed" ;!
      ret ChunkState_default).

Context {HO : HashOrder}.

Definition finalize_registers (states : gmap Z (Z * RegisterSnapshot)) : M (gmap Z RegisterSnapshot) :=
  consume (delta_nodes (Z.of_nat (size states))) ;!
  flight_reserve_map FinalRegisters T_final_register_entry 0 (Z.of_nat (size states))
    "Flight final-register allocation failed" ;!
  fold_each (imap pair (hash_iter FinalState states)) ∅ (fun output '(index, (tid, (_, state))) =>
    fragment_checkpoint index ;! ret (<[tid := state]> output)).

(** [event.key.sequence.unwrap_or(0).to_le_bytes()[pass]] *)
Definition event_key_byte (event : EventRecord) (pass : nat) : result ProviderError Z :=
  le_byte (default 0 (ek_sequence (ev_key event))) pass.

Definition guarded_sort_events (values : list EventRecord) : M (list EventRecord) :=
  guarded_radix_sort event_key_byte values 8.

(** A literal, with its inner quotes written as apostrophes here. *)
Definition quoted (s : string) : bytes :=
  map (fun b => if bool_decide (b = x27) then x22 else b) (String.list_byte_of_string s).

Definition PC_POLICY : bytes :=
  quoted "{'schema':1,'firstLevel':'qbdi_logical','nested':'kernel_ucontext','handlerReturn':'guest_handler_context'}".

Definition SIGNAL_PC : bytes := String.list_byte_of_string "qtrace.signal_pc".

Definition set_payload (payload : EventPayload) (e : EventRecord) : EventRecord :=
  mkEventRecord (ev_key e) (ev_provenance e) payload (ev_scope e) (ev_fragment_source_offsets e).

(** [signal.pc_source = match signal.flags & 0xffff { .. }] *)
Definition signal_pc_source (flags : Z) : SignalPcSource :=
  match Z.land flags 65535 with 0 => PcUnknown | 1 => QbdiLogical | _ => KernelUcontext end.

Definition boundary_pc_source (b : SignalHandlerBoundary) : SignalPcSource :=
  match sh_phase b with
  | HandlerReturn => GuestHandlerContext
  | HandlerBegin => if sh_depth b =? 1 then QbdiLogical else KernelUcontext
  end.

Definition set_signal_source (p : SignalPcSource) (s : Signal) : Signal :=
  mkSignal (sg_tid s) (sg_number s) (sg_code s) (sg_pc s) (sg_sp s) (sg_fault_address s) (sg_flags s) p.
Definition set_boundary_source (p : SignalPcSource) (b : SignalHandlerBoundary) : SignalHandlerBoundary :=
  mkSignalHandlerBoundary (sh_tid b) (sh_phase b) (sh_number b) (sh_code b) (sh_pc b) (sh_sp b)
    (sh_fault_address b) (sh_flags b) p (sh_depth b) (sh_nested_delivery_count b) (sh_begin_sequence b).

(** One turn of the policy pass over ([output], [pc_policies]). *)
Definition policy_turn (acc : list EventRecord * gmap Z bool) (item : nat * EventRecord) :
    M (list EventRecord * gmap Z bool) :=
  let '(output, policies) := acc in
  let '(index, event) := item in
  fragment_checkpoint index ;!
  let keep e := (output ++ [e], policies) in
  match ev_payload event with
  | SemanticRule rule =>
      if bool_decide (se_name rule = SIGNAL_PC) then
        match ek_tid (ev_key event) with
        | None => ret (keep event)
        | Some tid =>
            (if bool_decide (is_Some (policies !! tid)) then ret tt
             else flight_reserve_map PcPolicies T_pc_policy_entry (Z.of_nat (size policies)) 1
                    "signal PC policy allocation failed") ;!
            ret (output ++ [event], <[tid := bool_decide (se_detail rule = PC_POLICY)]> policies)
        end
      else ret (keep event)
  | PSignal signal =>
      if bool_decide (policies !! sg_tid signal = Some true)
      then ret (keep (set_payload (PSignal (set_signal_source (signal_pc_source (sg_flags signal)) signal)) event))
      else ret (keep event)
  | PSignalHandlerBoundary boundary =>
      if bool_decide (policies !! sh_tid boundary = Some true) && negb (sh_depth boundary =? 0)
      then ret (keep (set_payload
             (PSignalHandlerBoundary (set_boundary_source (boundary_pc_source boundary) boundary)) event))
      else ret (keep event)
  | _ => ret (keep event)
  end.

Definition apply_policies (output : list EventRecord) : M (list EventRecord) :=
  let! final := fold_each (imap pair output) ([], ∅) policy_turn in
  ret (fst final).

(** [fragments::finish] on the locals of [decode]. *)
Definition finish_turn (superblock : Superblock) (chunks : list (option ChunkIdentity))
    (artifact : ArtifactDigest) : D unit :=
  let! d := get in
  zoom ds_sink ds_set_sink (finish_fragments (ds_fragments d) artifact superblock chunks).

(** [for (position, physical) in physical.into_iter().enumerate()] *)
Definition decode_records (physical : list PhysicalFlight) (superblock : Superblock)
    (chunks : list (option ChunkIdentity)) : D unit :=
  fold_each (imap pair physical) tt (fun _ '(position, p) => decode_turn superblock chunks position p).

(** The main loop and the fragments. *)
Definition decode_loop (physical : list PhysicalFlight) (superblock : Superblock)
    (chunks : list (option ChunkIdentity)) (artifact : ArtifactDigest) : D DecodeState :=
  decode_records physical superblock chunks ;!
  finish_turn superblock chunks artifact ;!
  get.

Definition decode (physical : list PhysicalFlight) (superblock : Superblock)
    (chunks : list (option ChunkIdentity)) (artifact : ArtifactDigest) : M DecodedFlight :=
  let records := zlen physical in
  consume WorkDelta_default ;!
  flight_reserve_vec (A := Z) T_usize vec_new (zlen chunks)
    "Flight definition-count allocation failed" ;!
  flight_reserve_vec (A := Z) T_usize vec_new (zlen chunks)
    "Flight string-count allocation failed" ;!
  let! counts := count_records superblock (zlen chunks) physical in
  consume (delta_nodes (saturating_mul usize_max records 8)) ;!
  let! states := initialize_states (dc_definitions counts) (dc_strings counts) in
  let! room := flight_reserve_vec (A := EventRecord) T_EventRecord vec_new records
    "Flight typed output allocation failed" in
  flight_reserve_vec (A := Fragment) T_Fragment vec_new (dc_fragments counts)
    "Flight fragment allocation failed" ;!
  flight_reserve_map FinalState T_final_state_entry 0 (zlen chunks)
    "Flight final-state allocation failed" ;!
  flight_reserve_vec (A := Z) T_u64 vec_new records "Flight PC allocation failed" ;!
  flight_reserve_vec (A := Z) T_u64 vec_new records "Flight damage allocation failed" ;!
  flight_reserve_vec (A := Z) T_u64 vec_new records "Flight damage-offset allocation failed" ;!
  let! d := with_local (mkDecodeState states [] [] ∅ [] None [] [])
    (decode_loop physical superblock chunks artifact) in
  let! output := guarded_sort_events (ds_output d) in
  let! output := apply_policies output in
  let! target_pcs := guarded_sort_u64 (ds_target_pcs d) in
  let! final_registers := finalize_registers (ds_final_state d) in
  ret (mkDecodedFlight output (v_capacity room) final_registers target_pcs (ds_termination d)
         (ds_damaged_sequences d) (ds_damaged_source_offsets d)).

End receiver.
End decode.
