(* ===== verification/FlightDecode.v ===== *)
(** * What decoding a Flight artifact guarantees

    The laws of [FlightEvents]: how one record moves the state of its chunk, the
    chunk state machine with the register file it replays, and the account of
    every record of the artifact. *)

From stdpp Require Import prelude list sorting strings gmap.
From Stdlib Require Import ZArith Lia Strings.Byte Sorted.
From S2P Require Import Prelude Prog Control Model Source QtrbEvents FlightWire FlightContext FlightScan FlightSort FlightPayload FlightRegisters FlightFragments FlightEvents.
Local Open Scope string_scope.
Local Open Scope list_scope.
Local Open Scope Z_scope.

(** ** Decoders that leave the receiver alone *)

Section keep.
Context {W : Type} `{WorkGuard W} `{Allocator W} {S : Type}.
Abbreviation still p := (keeps (W := W) (E := ProviderError) (fun s : S => s) p).

Lemma keeps_flight_reserve {A} t (v : Vec A) n d : still (flight_reserve_vec t v n d).
Proof. apply keeps_bind; [apply keeps_reserve_in|intros; apply keeps_ret]. Qed.

Lemma keeps_flight_copy bs d : still (flight_copy_string bs d).
Proof.
  unfold flight_copy_string, try_copy_string_in.
  apply keeps_bind; [apply keeps_option|intros n]. apply keeps_scope.
  apply keeps_bind; [apply keeps_heap_grow|intros; apply keeps_ret].
Qed.

Lemma keeps_fragment_checkpoint i : still (fragment_checkpoint i).
Proof. unfold fragment_checkpoint. case_match; [apply keeps_consume|apply keeps_ret]. Qed.

Lemma keeps_shared_string bs : still (shared_string bs).
Proof. unfold shared_string. keep_auto. apply keeps_scope. keep_auto. Qed.

End keep.

#[export] Hint Resolve keeps_flight_reserve keeps_flight_copy keeps_fragment_checkpoint
  keeps_shared_string : keep.

Section keep_decoders.
Context {W : Type} `{WorkGuard W} `{Allocator W} {S : Type}.
Abbreviation still p := (keeps (W := W) (E := ProviderError) (fun s : S => s) p).

Lemma keeps_flight_clone d : still (clone_instruction_definition d).
Proof. unfold clone_instruction_definition, clone_register. keep_auto. Qed.

Lemma keeps_flight_definition bs c : still (decode_instruction_definition_record bs c).
Proof. unfold decode_instruction_definition_record, nested, decode_instruction_definition_payload. keep_auto. Qed.

Lemma keeps_flight_instruction bs d c : still (decode_instruction_record bs d c).
Proof. unfold decode_instruction_record, nested, decode_instruction_payload. keep_auto. Qed.

Lemma keeps_flight_memory bs c : still (decode_memory_record bs c).
Proof. unfold decode_memory_record, nested, decode_memory_payload_for_module. keep_auto. Qed.

Lemma keeps_flight_semantic kind bs strings output l : still (decode_semantic kind bs strings output l).
Proof. unfold decode_semantic, semantic_field. keep_auto. Qed.

Lemma keeps_flight_syscall bs tid width : still (decode_syscall bs tid width).
Proof. unfold decode_syscall. keep_auto. Qed.

Lemma keeps_flight_signal bs tid width : still (decode_signal bs tid width).
Proof. unfold decode_signal. keep_auto. Qed.

Lemma keeps_flight_begin bs sb id index c : still (decode_begin bs sb id index c).
Proof. unfold decode_begin. keep_auto. Qed.

Lemma keeps_flight_emergency raw key c : still (decode_emergency raw key c).
Proof. unfold decode_emergency. keep_auto. Qed.

Lemma keeps_clone_snapshot snapshot : still (clone_snapshot snapshot).
Proof. unfold clone_snapshot. keep_auto. Qed.

Lemma keeps_decode_fragment kind bs strings key p i g : still (decode_fragment kind bs strings key p i g).
Proof. unfold decode_fragment, fragment_field. keep_auto. Qed.

End keep_decoders.

(** The rule for a decoder that only reads. *)
Lemma wp_still {W E S A} (p : Prog W E S A) (Q : A -> S -> Prop) (R : E -> S -> Prop) s :
  keeps (fun s => s) p -> (forall a, Q a s) -> (forall e, R e s) -> wp p Q R s.
Proof. apply wp_keeps. Qed.

(** ** One record of a chunk *)

(** The snapshot a checkpoint stands for. *)
Definition snapshot_of (c : RegisterCheckpoint) : RegisterSnapshot := mkSnapshot (map rv_value (rc_values c)).

(** The parts of a chunk no record changes. *)
Definition same_header (v v' : ChunkView) : Prop :=
  cs_prefix_damage_recorded (cv_state v') = cs_prefix_damage_recorded (cv_state v)
  /\ cs_module_base (cv_state v') = cs_module_base (cv_state v).
Definition same_registers (v v' : ChunkView) : Prop :=
  cs_prefix (cv_state v') = cs_prefix (cv_state v)
  /\ cs_registers (cv_state v') = cs_registers (cv_state v).

(** How a typed payload moves its chunk. *)
Definition typed_step (raw : OpaqueOptionalRecord) (payload : EventPayload) (v v' : ChunkView) : Prop :=
  cv_fragments v' = cv_fragments v /\ same_header v v'
  /\ match payload with
     | PRegisterCheckpoint c =>
         is_record raw 9 1 = true /\ cs_prefix (cv_state v') = Ready
         /\ cs_registers (cv_state v') = Some (snapshot_of c) /\ zlen (rc_values c) = REGISTER_SLOT_COUNT
     | PRegisterDelta d =>
         is_record raw 9 1 = false /\ cs_prefix (cv_state v') = cs_prefix (cv_state v)
         /\ cs_registers (cv_state v')
            = (fun s => snapshot_apply s (de_changed d)) <$> cs_registers (cv_state v)
         /\ de_ancestry_reliable d = bool_decide (is_Some (cs_registers (cv_state v)))
     | Begin _ => False
     | _ => is_record raw 9 1 = false /\ same_registers v v'
     end.

Section chunk_rules.
Context {W : Type} `{WorkGuard W} `{Allocator W}.

Lemma wp_checkpoint_payload raw bs width c v :
  is_record raw 9 1 = true ->
  wp (W := W) (checkpoint_payload bs width c) (fun payload v' => typed_step raw payload v v')
    (fun _ v' => v' = v) v.
Proof.
  intros Hr. apply wp_bind, wp_relabel. intros w.
  pose proof (decode_checkpoint_exact (W := W) (S := ChunkView) bs width v w) as Hd.
  destruct (decode_checkpoint bs width v w) as [[[[checkpoint snapshot]|[|e]] v'] w'].
  - destruct Hd as [-> ((Hslots & _) & Hs)]. unfold bind, modify, ret. split; [done|]. split; [by split|].
    split_and!; [done|done|..].
    + cbn. unfold snapshot_of. rewrite <- Hs. by destruct snapshot.
    + rewrite <- zlen_slots_of, Hslots. done.
  - by destruct Hd.
  - by destruct Hd.
Qed.

Lemma wp_delta_payload raw bs width c v :
  is_record raw 9 1 = false ->
  wp (W := W) (delta_payload bs width c) (fun payload v' => typed_step raw payload v v')
    (fun _ v' => v' = v) v.
Proof.
  intros Hr. apply wp_bind, wp_get, wp_bind, wp_relabel. intros w.
  pose proof (decode_delta_exact (W := W) (S := ChunkView) bs width (cs_registers (cv_state v)) v w) as Hd.
  destruct (decode_delta bs width (cs_registers (cv_state v)) v w) as [[[[delta after]|[|e]] v'] w'].
  - destruct Hd as [-> (_ & Hrel & ->)]. unfold bind, modify, ret.
    destruct (cs_registers (cv_state v)) as [snapshot|] eqn:E; cbn;
      (split; [done|]; split; [by split|]); rewrite ?E; split_and!; done.
  - by destruct Hd.
  - by destruct Hd.
Qed.

(** The other payloads leave the registers of the chunk alone. *)
Lemma typed_step_plain raw payload v v' :
  is_record raw 9 1 = false -> cv_fragments v' = cv_fragments v -> same_header v v' ->
  same_registers v v' ->
  match payload with Begin _ | PRegisterCheckpoint _ | PRegisterDelta _ => False | _ => True end ->
  typed_step raw payload v v'.
Proof. intros. split; [done|]. split; [done|]. by destruct payload. Qed.

Ltac plain := apply typed_step_plain; [done|done|by split|by split|done].

Lemma wp_definition_payload raw bs c v :
  is_record raw 9 1 = false ->
  wp (W := W) (definition_payload bs c) (fun payload v' => typed_step raw payload v v')
    (fun _ v' => v' = v) v.
Proof.
  intros Hr. apply wp_bind, wp_still; [apply keeps_flight_definition|intros d|done].
  apply wp_bind, wp_get, wp_bind, wp_fail_if; [intros _|done].
  apply wp_bind, wp_still; [apply keeps_flight_clone|intros copy|done].
  apply wp_bind, wp_modify, wp_ret. plain.
Qed.

Lemma wp_all_pointers {A X} (f : X -> Z) (xs : list X) width e (v : A) (Q : unit -> A -> Prop)
    (R : ProviderError -> A -> Prop) :
  Q tt v -> R e v ->
  wp (W := W) (fold_each xs tt (fun _ x => lift_option (require_pointer (f x) width) e)) Q R v.
Proof.
  intros HQ HR. induction xs as [|x xs IH]; cbn [fold_each]; [by apply wp_ret|].
  apply wp_bind, wp_option. by destruct (require_pointer (f x) width) as [[]|].
Qed.

Lemma wp_instruction_payload raw bs width c v :
  is_record raw 9 1 = false ->
  wp (W := W) (instruction_payload bs width c) (fun payload v' => typed_step raw payload v v')
    (fun _ v' => v' = v) v.
Proof.
  intros Hr. apply wp_bind, wp_result. destruct (definition_id bs); [|done].
  apply wp_bind, wp_get, wp_bind, wp_option. destruct (cs_definitions _ !! _) as [d|]; [|done].
  apply wp_bind, wp_still; [apply keeps_flight_instruction|intros decoded|done].
  apply wp_bind, wp_option. destruct (pointer_sum _ _ _); [|done].
  apply wp_bind, (wp_all_pointers ro_value); [|done]. apply wp_bind, wp_modify, wp_ret. plain.
Qed.

Lemma wp_memory_payload raw bs width c v :
  is_record raw 9 1 = false ->
  wp (W := W) (memory_payload bs width c) (fun payload v' => typed_step raw payload v v')
    (fun _ v' => v' = v) v.
Proof.
  intros Hr. apply wp_bind, wp_still; [apply keeps_flight_memory|intros m|done].
  apply wp_bind, wp_get, wp_bind, wp_option. destruct (pointer_sum _ _ _); [|done].
  apply wp_bind, wp_option. destruct (require_pointer _ _); [|done].
  apply wp_bind, wp_modify, wp_ret. plain.
Qed.

Lemma semantic_payload_plain kind value :
  match semantic_payload kind value with
  | Begin _ | PRegisterCheckpoint _ | PRegisterDelta _ => False | _ => True end.
Proof. unfold semantic_payload. repeat case_match; done. Qed.

Lemma wp_semantic_plain raw kind bs strings output l v :
  is_record raw 9 1 = false ->
  wp (W := W) (decode_semantic kind bs strings output l) (fun payload v' => typed_step raw payload v v')
    (fun _ v' => v' = v) v.
Proof.
  intros Hr. unfold decode_semantic. apply wp_bind, wp_fail_if; [intros _|done].
  apply wp_bind, wp_still; [apply keeps_flight_reserve|intros _|done].
  apply wp_bind, wp_still; [apply keeps_for_each; intros; unfold semantic_field; keep_auto|intros fields|done].
  apply wp_bind, wp_fail_if; [intros _|done]. apply wp_bind, wp_option.
  destruct (semantic_of kind fields l) as [value|]; [|done]. apply wp_ret.
  apply typed_step_plain; [done|done|by split|by split|apply semantic_payload_plain].
Qed.

Lemma is_record_other raw k f k' f' :
  is_record raw k f = true -> (k =? k') && (f =? f') = false -> is_record raw k' f' = false.
Proof. unfold is_record. intros [Hk Hf]%andb_true_iff Hne. apply Z.eqb_eq in Hk, Hf. by rewrite Hk, Hf. Qed.

Lemma wp_typed_payload raw c tid sb output decode v :
  typed_payload raw c tid sb output = Some decode ->
  wp (W := W) decode (fun payload v' => typed_step raw payload v v') (fun _ v' => v' = v) v.
Proof.
  unfold typed_payload. cbn zeta.
  destruct (is_record raw 9 1) eqn:H91; [intros [= <-]; by apply wp_checkpoint_payload|].
  destruct (is_record raw 9 0); [intros [= <-]; by apply wp_delta_payload|].
  destruct (is_record raw 4 1); [intros [= <-]; by apply wp_definition_payload|].
  destruct (is_record raw 4 0); [intros [= <-]; by apply wp_instruction_payload|].
  destruct (is_record raw 5 0); [intros [= <-]; by apply wp_memory_payload|].
  destruct (semantic_kind _ && _); [intros [= <-]; by apply wp_bind, wp_get, wp_semantic_plain|].
  destruct (is_record raw 2 0).
  { intros [= <-]. unfold thread_begin_payload. apply wp_bind.
    destruct (tl_start_routine _); [apply wp_option; destruct (require_pointer _ _); [|done]|apply wp_ret];
      apply wp_ret; plain. }
  destruct (is_record raw 3 0).
  { intros [= <-]. unfold thread_end_payload. apply wp_option.
    destruct (exact_u32 _) as [n|]; [|done]. cbn.
    destruct (n =? tid); [|done]. plain. }
  destruct (is_record raw 10 0).
  { intros [= <-]. apply wp_bind, wp_still; [apply keeps_flight_syscall|intros i|done]. apply wp_ret. plain. }
  destruct (is_record raw 11 0); [|done].
  intros [= <-]. unfold signal_payload. apply wp_bind, wp_still; [apply keeps_flight_signal|intros i|done].
  apply wp_bind, wp_modify, wp_ret. plain.
Qed.

(** Sharing strings only touches the fragment dictionary. *)
Definition shared_only (v v' : ChunkView) : Prop :=
  cv_fragments v' = cv_fragments v /\ cv_target_pcs v' = cv_target_pcs v
  /\ same_header v v' /\ same_registers v v'.

Lemma shared_only_refl v : shared_only v v.
Proof. by repeat split. Qed.

Lemma shared_only_trans v1 v2 v3 : shared_only v1 v2 -> shared_only v2 v3 -> shared_only v1 v3.
Proof.
  unfold shared_only, same_header, same_registers. intros (-> & -> & [-> ->] & -> & ->). naive_solver.
Qed.

Lemma wp_share_fields raw output fields v0 v :
  shared_only v0 v ->
  wp (W := W) (fold_each fields tt (fun _ field => share_field raw output field))
    (fun _ v' => shared_only v0 v')
    (fun e v' => shared_only v0 v' /\ (forall r, e = ChunkPayload r -> r = raw)) v.
Proof.
  intros Hv. revert v Hv. induction fields as [|field fields IH]; intros v Hv; cbn [fold_each]; [by apply wp_ret|].
  assert (forall r, ChunkPayload raw = ChunkPayload r -> r = raw) as Hraw by congruence.
  apply wp_bind, wp_bind, wp_option. destruct (raw_u32 _ _) as [id|]; [|done].
  apply wp_bind, wp_get, wp_bind, wp_option. destruct (cs_strings _ !! _) as [row|]; [|done].
  destruct (cs_fragment_strings _ !! _); [by apply wp_ret, IH|].
  apply wp_bind, wp_option. destruct (output !! row) as [event|]; [|done].
  destruct (ev_payload event); try by apply wp_throw.
  apply wp_bind, wp_relabel, wp_still; [apply keeps_shared_string|intros shared|done].
  apply wp_modify, IH. eapply shared_only_trans; [exact Hv|]. by repeat split.
Qed.

(** The record header of a fragment's key. *)
Definition key_ok (key : EventKey) : Prop :=
  in_u64 (ek_source_offset key) /\ exists sequence, ek_sequence key = Some sequence /\ 0 <= sequence.

Lemma length_for_each {X A S} (xs : list X) (f : X -> Prog W ProviderError S A) s :
  (forall x, keeps (fun s : S => s) (f x)) ->
  wp (for_each xs f) (fun out s' => s' = s /\ length out = length xs) (fun _ s' => s' = s) s.
Proof.
  intros Hf. induction xs as [|x xs IH]; cbn [for_each]; [by apply wp_ret|].
  apply wp_bind, wp_still; [apply Hf|intros a|done]. apply wp_bind.
  eapply wp_mono; [exact IH| |done]. intros out s' [-> Hlen]. apply wp_ret. cbn. by rewrite Hlen.
Qed.

Lemma le_slice_range bs at_ n : 0 <= le_Z (slice bs at_ n) < 256 ^ Z.max 0 n.
Proof.
  pose proof (le_Z_range (slice bs at_ n)) as Hr. split; [lia|].
  eapply Z.lt_le_trans; [apply Hr|]. apply Z.pow_le_mono_r; [lia|].
  unfold zlen, slice. rewrite length_take. lia.
Qed.

Lemma wp_decode_fragment kind bs strings key p i g (v : ChunkView) :
  key_ok key ->
  wp (W := W) (decode_fragment kind bs strings key p i g)
    (fun f v' => v' = v /\ fragment_ok f /\ fg_key f = key /\ fg_provenance f = p) (fun _ v' => v' = v) v.
Proof.
  intros [Hoff Hseq]. unfold decode_fragment. apply wp_bind, wp_fail_if; [intros _|done].
  apply wp_bind, wp_fail_if; [|done].
  intros [[[_ _]%orb_false_iff Hcount]%orb_false_iff Hindex]%orb_false_iff.
  apply wp_bind, wp_still; [apply keeps_flight_reserve|intros _|done].
  apply wp_bind. eapply wp_mono; [apply length_for_each; unfold fragment_field; intros; keep_auto| |done].
  intros fields v' [-> Hlen]. apply wp_bind, wp_option. unfold pop.
  destruct (last fields) as [detail|] eqn:Hl; [|done]. cbn [mbind option_bind].
  apply wp_bind, wp_fail_if; [intros _|done]. apply wp_ret. split_and!; [done| |done|done].
  pose proof (le_slice_range bs 8 4). pose proof (le_slice_range bs 12 2). pose proof (le_slice_range bs 14 2).
  change (256 ^ Z.max 0 4) with 4294967296 in *. change (256 ^ Z.max 0 2) with 65536 in *.
  constructor; cbn [fg_index fg_count fg_total fg_fixed fg_kind fg_key]; unfold u16_max, u32_max; try lia.
  - unfold zlen. rewrite length_take, Hlen. unfold seqZ. rewrite length_map, length_seq.
    unfold field_count. case_match; lia.
  - exact Hoff.
  - exact Hseq.
Qed.

(** ** [decode_chunk_record] *)

Lemma wp_fragment_record raw key p i g output v :
  key_ok key ->
  wp (W := W) (fragment_record raw key p i g output)
    (fun r v' => r = None /\ same_header v v' /\ same_registers v v' /\ exists f,
       cv_fragments v' = cv_fragments v ++ [f] /\ fragment_ok f /\ fg_key f = key)
    (fun e v' => shared_only v v' /\ (forall r, e = ChunkPayload r -> r = raw)) v.
Proof.
  intros Hkey. assert (forall r, ChunkPayload raw = ChunkPayload r -> r = raw) as Hraw by congruence.
  apply wp_bind, wp_fail_if; [intros _|split; [apply shared_only_refl|done]].
  apply wp_bind, wp_get, wp_bind, wp_relabel, wp_reserve_map; [apply _| |].
  2:{ intros e _. split; [apply shared_only_refl|done]. }
  apply wp_bind. eapply wp_mono; [apply (wp_share_fields _ _ _ v), shared_only_refl| |done].
  intros [] v1 Hv1. apply wp_bind, wp_get, wp_bind, wp_attempt.
  eapply wp_mono; [by apply wp_decode_fragment|..].
  - intros f v2 (-> & Hok & Hfk & _). apply wp_bind, wp_modify, wp_ret.
    destruct Hv1 as (Hfr & _ & [Hh1 Hh2] & [Hr1 Hr2]). split_and!; [done|by split|by split|].
    exists f. cbn. by rewrite Hfr.
  - intros e v2 ->. destruct (aborted e); by apply wp_throw.
Qed.

Definition chunk_step (raw : OpaqueOptionalRecord) (key : EventKey) (p : Provenance) (scope : EventScope)
    (r : option EventRecord) (v v' : ChunkView) : Prop :=
  match r with
  | Some e =>
      ev_key e = key /\ ev_scope e = scope /\ ev_fragment_source_offsets e = []
      /\ ev_provenance e = (if payload_damaged (ev_payload e) then Damaged else p)
      /\ typed_step raw (ev_payload e) v v'
  | None =>
      is_record raw 9 1 = false /\ same_header v v' /\ same_registers v v'
      /\ exists f, cv_fragments v' = cv_fragments v ++ [f] /\ fragment_ok f /\ fg_key f = key
  end.

Lemma wp_decode_chunk_record raw key p scope identity i sb output v :
  key_ok key ->
  wp (W := W) (decode_chunk_record raw key p scope identity i sb output)
    (fun r v' => chunk_step raw key p scope r v v')
    (fun e v' => shared_only v v' /\ (forall r, e = ChunkPayload r -> r = raw)) v.
Proof.
  intros Hkey. unfold decode_chunk_record. pose proof (shared_only_refl v) as Hv.
  assert (forall r, ChunkPayload raw = ChunkPayload r -> r = raw) as Hraw by congruence.
  destruct (is_record raw 6 3) eqn:H63.
  { apply wp_bind, wp_get, wp_bind, wp_result. destruct (validate_string _ _) as [id|]; [|done].
    apply wp_bind, wp_modify, wp_ret. split_and!; try done.
    apply typed_step_plain; [by apply (is_record_other _ _ _ _ _ H63)|done|by split|by split|done]. }
  destruct (semantic_kind (oo_record_type raw) && (oo_flags raw =? 4)) eqn:H4.
  { eapply wp_mono; [by apply wp_fragment_record| |done].
    intros r v' (-> & Hh & Hr & Hf). split_and!; try done.
    apply andb_true_iff in H4 as [_ H4%Z.eqb_eq]. unfold is_record. rewrite H4. apply andb_false_r. }
  apply wp_bind, wp_option. destruct (typed_payload _ _ _ _ _) as [decode|] eqn:Ht; [|done].
  apply wp_bind, wp_attempt. eapply wp_mono; [by eapply wp_typed_payload|..].
  - intros payload v' Hstep. apply wp_ret. by split_and!.
  - intros e v' ->. destruct (aborted e); by apply wp_throw.
Qed.

End chunk_rules.

(** ** The chunk state machine

    The abstract machine a chunk follows, as a step relation on its prefix state
    and register file.  A step carries the event it emits, or [None] when the
    record became a pending fragment. *)

Definition register_free (payload : EventPayload) : Prop :=
  match payload with Begin _ | PRegisterCheckpoint _ | PRegisterDelta _ => False | _ => True end.

Inductive chunk_moves :
    PrefixState * option RegisterSnapshot -> option EventRecord ->
    PrefixState * option RegisterSnapshot -> Prop :=
| MBegin b e :
    ev_payload e = Begin b -> ev_provenance e = Captured ->
    chunk_moves (ExpectBegin, None) (Some e) (ExpectCheckpoint, None)
| MCheckpoint c e :
    ev_payload e = PRegisterCheckpoint c -> ev_provenance e = Captured ->
    zlen (rc_values c) = REGISTER_SLOT_COUNT ->
    chunk_moves (ExpectCheckpoint, None) (Some e) (Ready, Some (snapshot_of c))
| MDelta d e s :
    ev_payload e = PRegisterDelta d -> ev_provenance e = Captured ->
    chunk_moves (Ready, Some s) (Some e) (Ready, Some (snapshot_apply s (de_changed d)))
| MOther e s :
    register_free (ev_payload e) -> chunk_moves (Ready, Some s) (Some e) (Ready, Some s)
| MFragment s : chunk_moves (Ready, Some s) None (Ready, Some s)
| MBreak e p r :
    ev_provenance e = Damaged -> p <> Broken -> chunk_moves (p, r) (Some e) (Broken, None)
| MBroken e :
    ev_provenance e = Damaged -> chunk_moves (Broken, None) (Some e) (Broken, None).

(** The runs of the machine, with the events emitted so far. *)
Inductive chunk_run : list EventRecord -> PrefixState * option RegisterSnapshot -> Prop :=
| run_start : chunk_run [] (ExpectBegin, None)
| run_move events st out st' :
    chunk_run events st -> chunk_moves st out st' -> chunk_run (events ++ option_list out) st'.

Definition abstract (st : ChunkState) : PrefixState * option RegisterSnapshot :=
  (cs_prefix st, cs_registers st).

(** The machine's states, and the flag that says whether damage was recorded. *)
Definition chunk_valid (st : ChunkState) : Prop :=
  match cs_prefix st with
  | Ready => is_Some (cs_registers st) /\ cs_prefix_damage_recorded st = false
  | Broken => cs_registers st = None
  | _ => cs_registers st = None /\ cs_prefix_damage_recorded st = false
  end.

(** By rule induction: a register file has all its slots. *)
Lemma chunk_run_registers events st s :
  chunk_run events st -> snd st = Some s -> zlen (rs_values s) = REGISTER_SLOT_COUNT.
Proof.
  intros Hrun. revert s. induction Hrun as [|events st out st' Hrun IH Hm]; intros s Hs; [done|].
  inversion Hm; subst; cbn in Hs; try done; injection Hs as <-.
  - cbn. unfold zlen in *. by rewrite length_map.
  - unfold zlen in *. rewrite length_snapshot_apply. by apply IH.
  - by apply IH.
  - by apply IH.
Qed.

(** The register file after the records that follow a checkpoint. *)
Definition replay_event (s : RegisterSnapshot) (e : EventRecord) : RegisterSnapshot :=
  match ev_payload e with PRegisterDelta d => snapshot_apply s (de_changed d) | _ => s end.
Definition replay (c : RegisterCheckpoint) (rest : list EventRecord) : RegisterSnapshot :=
  foldl replay_event (snapshot_of c) rest.

Lemma replay_snoc c rest e : replay c (rest ++ [e]) = replay_event (replay c rest) e.
Proof. apply foldl_snoc. Qed.

(** By rule induction: what a chunk emitted, by the state it is in. *)
Definition run_shape (events : list EventRecord) (st : PrefixState * option RegisterSnapshot) : Prop :=
  match fst st with
  | ExpectBegin => events = [] /\ snd st = None
  | ExpectCheckpoint => snd st = None /\ exists e b, events = [e] /\ ev_payload e = Begin b
  | Ready => exists e0 b e1 c rest, events = e0 :: e1 :: rest /\ ev_payload e0 = Begin b
      /\ ev_payload e1 = PRegisterCheckpoint c /\ snd st = Some (replay c rest)
      /\ Forall (fun e => match ev_payload e with Begin _ | PRegisterCheckpoint _ => False | _ => True end) rest
  | Broken => snd st = None
  end.

Lemma chunk_run_shape events st : chunk_run events st -> run_shape events st.
Proof.
  induction 1 as [|events st out st' Hrun IH Hm]; [done|].
  inversion Hm; subst; unfold run_shape in *; cbn in IH |- *; try done.
  - destruct IH as [-> _]. split; [done|]. by exists e, b.
  - destruct IH as (_ & e0 & b & -> & Hb). by exists e0, b, e, c, [].
  - destruct IH as (e0 & b & e1 & c & rest & -> & Hb & Hc & [= ->] & Hrest).
    exists e0, b, e1, c, (rest ++ [e]). split_and!; [done..| |].
    + rewrite replay_snoc. unfold replay_event. by match goal with H : ev_payload e = _ |- _ => rewrite H end.
    + apply Forall_app. split; [done|]. apply Forall_singleton. by match goal with H : ev_payload e = _ |- _ => rewrite H end.
  - destruct IH as (e0 & b & e1 & c & rest & -> & Hb & Hc & [= ->] & Hrest).
    exists e0, b, e1, c, (rest ++ [e]). split_and!; [done..| |].
    + rewrite replay_snoc. unfold replay_event, register_free in *. by destruct (ev_payload e).
    + apply Forall_app. split; [done|]. apply Forall_singleton. unfold register_free in *. by destruct (ev_payload e).
  - rewrite app_nil_r. exact IH.
Qed.

(** ** One record of the loop *)

(** The damage a pushed event adds. *)
Definition damage_of {A} (e : EventRecord) (a : A) : list A :=
  match ev_provenance e with Damaged => [a] | _ => [] end.

Record emits (x : RecordContext) (e : EventRecord) (d d' : DecodeState) : Prop := mkEmits {
  em_key : ev_key e = rx_key x;
  em_offsets : ev_fragment_source_offsets e = [];
  em_output : ds_output d' = ds_output d ++ [e];
  em_fragments : ds_fragments d' = ds_fragments d;
  em_sequences : ds_damaged_sequences d' = ds_damaged_sequences d ++ damage_of e (rx_sequence x);
  em_damage : ds_damaged_source_offsets d' = ds_damaged_source_offsets d ++ damage_of e (rx_offset x)
}.

Record defers (x : RecordContext) (f : Fragment) (d d' : DecodeState) : Prop := mkDefers {
  df_ok : fragment_ok f;
  df_key : fg_key f = rx_key x;
  df_output : ds_output d' = ds_output d;
  df_fragments : ds_fragments d' = ds_fragments d ++ [f];
  df_sequences : ds_damaged_sequences d' = ds_damaged_sequences d;
  df_damage : ds_damaged_source_offsets d' = ds_damaged_source_offsets d
}.

(** What became of the thread's register file. *)
Definition final_step (x : RecordContext) (st' : ChunkState) (out : option EventRecord)
    (d d' : DecodeState) : Prop :=
  ds_final_state d' = ds_final_state d
  \/ ds_final_state d' = delete (rx_tid x) (ds_final_state d)
  \/ exists s, cs_registers st' = Some s /\ is_Some out
       /\ ds_final_state d' = <[rx_tid x := (rx_sequence x, s)]> (ds_final_state d).

Definition chunk_post (i : nat) (x : RecordContext) (st : ChunkState) (d d' : DecodeState) : Prop :=
  exists st' out,
    ds_states d' = <[i := st']> (ds_states d)
    /\ chunk_moves (abstract st) out (abstract st') /\ chunk_valid st'
    /\ match out with Some e => emits x e d d' | None => exists f, defers x f d d' end
    /\ final_step x st' out d d'.

Lemma alter_states (f : ChunkState -> ChunkState) (i : nat) (states : list ChunkState) st :
  states !! i = Some st -> alter f i states = <[i := f st]> states.
Proof.
  intros Hst. apply list_eq. intros j. destruct (decide (i = j)) as [<-|Hne].
  - rewrite list_lookup_alter_eq, Hst. symmetry. apply list_lookup_insert_eq.
    by eapply lookup_lt_Some.
  - by rewrite list_lookup_alter_ne, list_lookup_insert_ne.
Qed.

Section turns.
Context {W : Type} `{WorkGuard W} `{Allocator W}.
Context (i : nat) (x : RecordContext) (st : ChunkState) (d : DecodeState).
Hypothesis Hst : ds_states d !! i = Some st.
Hypothesis Hvalid : chunk_valid st.

Lemma ds_state_eq : ds_state i d = st.
Proof. unfold ds_state. by rewrite Hst. Qed.

(** The chunk breaks: whatever the registers were, the record is pushed as
    damaged exactly once. *)
Lemma broken_post final d' :
  cs_prefix st <> Broken ->
  d' = mkDecodeState (<[i := set_damage_recorded (set_registers None (set_prefix Broken st))]> (ds_states d))
         (ds_output d ++ [rewrap (rx_key x) Damaged (rx_scope x) (rx_raw x)]) (ds_fragments d) final
         (ds_target_pcs d) (ds_termination d) (ds_damaged_sequences d ++ [rx_sequence x])
         (ds_damaged_source_offsets d ++ [rx_offset x]) ->
  final = ds_final_state d \/ final = delete (rx_tid x) (ds_final_state d) ->
  chunk_post i x st d d'.
Proof.
  intros Hp -> Hf. eexists _, (Some (rewrap (rx_key x) Damaged (rx_scope x) (rx_raw x))).
  split_and!; [done| |done|by constructor|].
  - by apply MBreak.
  - destruct Hf as [->| ->]; [by left|right; by left].
Qed.

Lemma not_recorded : cs_prefix st <> Broken -> cs_prefix_damage_recorded st = false.
Proof. unfold chunk_valid in Hvalid. destruct (cs_prefix st); naive_solver. Qed.

Lemma wp_break_prefix (R : ProviderError -> DecodeState -> Prop) :
  cs_prefix st <> Broken -> cs_registers st = None ->
  wp (W := W) (break_prefix i x) (fun _ d' => chunk_post i x st d d') R d.
Proof.
  intros Hp Hr. apply wp_bind, wp_modify, wp_bind, wp_modify, wp_modify.
  apply (broken_post (ds_final_state d)); [done| |by left].
  unfold record_prefix_damage, ds_state, ds_on_state, ds_damage, ds_push. cbn.
  rewrite list_lookup_alter_eq, Hst. cbn. rewrite (not_recorded Hp). cbn.
  rewrite (alter_states _ _ _ _ Hst).
  rewrite (alter_states _ _ _ (set_prefix Broken st)) by (apply list_lookup_insert_eq; by eapply lookup_lt_Some).
  rewrite list_insert_insert_eq. destruct st. cbn in *. by subst.
Qed.

Lemma wp_begin_turn identity sb :
  cs_prefix st = ExpectBegin ->
  wp (W := W) (begin_turn i identity sb x) (fun _ d' => chunk_post i x st d d') (fun _ _ => True) d.
Proof.
  intros Hp. pose proof Hvalid as Hv. unfold chunk_valid in Hv. rewrite Hp in Hv. destruct Hv as [Hr Hrec].
  assert (forall R, wp (W := W) (break_prefix i x) (fun _ d' => chunk_post i x st d d') R d) as Hbreak
    by (intros R; apply wp_break_prefix; [by rewrite Hp|done]).
  unfold begin_turn. case_match; [apply Hbreak|]. apply wp_bind, wp_attempt, wp_still;
    [apply keeps_flight_begin|intros begin|intros e]; cycle 1.
  { destruct (aborted e); [by apply wp_throw|apply Hbreak]. }
  apply wp_bind, wp_modify, wp_bind, wp_modify, wp_modify.
  exists (set_module_base (bm_module_base begin) (set_prefix ExpectCheckpoint st)), (Some
    (event_record_new_scoped (rx_key x) Captured (rx_scope x) (Begin begin))). split_and!.
  - cbn. rewrite (alter_states _ _ _ _ Hst).
    rewrite (alter_states _ _ _ (set_prefix ExpectCheckpoint st))
      by (apply list_lookup_insert_eq; by eapply lookup_lt_Some).
    by rewrite list_insert_insert_eq.
  - unfold abstract. cbn. rewrite Hp, Hr. by eapply MBegin.
  - done.
  - constructor; cbn; by rewrite ?app_nil_r.
  - by left.
Qed.

Lemma wp_broken_turn sb :
  cs_prefix st = Broken ->
  wp (W := W) (broken_turn i sb x) (fun _ d' => chunk_post i x st d d') (fun _ _ => True) d.
Proof.
  intros Hp. pose proof Hvalid as Hv. unfold chunk_valid in Hv. rewrite Hp in Hv.
  set (st' := set_damage_recorded st).
  assert (forall e, ev_key e = rx_key x -> ev_fragment_source_offsets e = [] -> ev_provenance e = Damaged ->
    forall st1, st1 = st \/ st1 = st' ->
    chunk_post i x st d (mkDecodeState (<[i := st1]> (ds_states d)) (ds_output d ++ [e]) (ds_fragments d)
      (ds_final_state d) (ds_target_pcs d) (ds_termination d) (ds_damaged_sequences d ++ [rx_sequence x])
      (ds_damaged_source_offsets d ++ [rx_offset x]))) as Hpost.
  { intros e Hk Ho He st1 Hs.
    assert (cs_prefix st1 = Broken /\ cs_registers st1 = None) as [Hp1 Hr1] by by destruct Hs as [->| ->].
    exists st1, (Some e). split_and!; [done|..].
    - unfold abstract. rewrite Hp, Hv, Hp1, Hr1. by constructor.
    - unfold chunk_valid. by rewrite Hp1.
    - constructor; cbn; unfold damage_of; by rewrite ?He.
    - by left. }
  apply wp_bind, wp_get, wp_bind, wp_modify.
  set (d1 := mkDecodeState (<[i := if cs_prefix_damage_recorded st then st else st']> (ds_states d))
    (ds_output d) (ds_fragments d) (ds_final_state d) (ds_target_pcs d) (ds_termination d)
    (ds_damaged_sequences d ++ [rx_sequence x]) (ds_damaged_source_offsets d ++ [rx_offset x])).
  assert (forall e, ev_key e = rx_key x -> ev_fragment_source_offsets e = [] -> ev_provenance e = Damaged ->
    chunk_post i x st d (ds_push e d1)) as Hpush.
  { intros e Hk Ho He. apply Hpost; [done..|]. destruct (cs_prefix_damage_recorded st); auto. }
  assert (forall Q : unit -> DecodeState -> Prop, Q tt d1 ->
    wp (W := W) (E := ProviderError) (if cs_prefix_damage_recorded (ds_state i d)
       then modify (ds_damage (rx_sequence x) (rx_offset x)) else ret tt) Q (fun _ _ => True)
      (record_prefix_damage i (rx_sequence x) (rx_offset x) d)) as Hd1.
  { intros Q HQ. unfold record_prefix_damage. rewrite ds_state_eq. unfold d1, st' in *.
    destruct (cs_prefix_damage_recorded st) eqn:E.
    - apply wp_modify. rewrite list_insert_id in HQ by done. exact HQ.
    - apply wp_ret. unfold ds_on_state. cbn. rewrite (alter_states _ _ _ _ Hst). exact HQ. }
  apply wp_bind, Hd1. cbv zeta. destruct (is_record (rx_raw x) 9 0); [|apply wp_modify; by apply Hpush].
  apply wp_bind, wp_attempt. intros w.
  pose proof (decode_delta_exact (W := W) (S := DecodeState) (oo_bytes (rx_raw x)) (sb_pointer_width sb) None d1 w) as Hd.
  destruct (decode_delta _ _ None d1 w) as [[[[delta after]|[|e]] d2] w']; destruct Hd as [-> _].
  - apply wp_modify. by apply Hpush.
  - apply wp_modify. by apply Hpush.
  - by apply wp_throw.
Qed.

Lemma wp_note_registers st1 d1 (Q : unit -> DecodeState -> Prop) :
  ds_states d1 !! i = Some st1 ->
  (forall final, final = ds_final_state d1
     \/ (exists s, cs_registers st1 = Some s
         /\ final = <[rx_tid x := (rx_sequence x, s)]> (ds_final_state d1)) ->
   Q tt (ds_set_final final d1)) ->
  wp (W := W) (note_registers i x) Q (fun _ _ => True) d1.
Proof.
  intros H1 HQ. assert (Q tt d1) as Hsame by (specialize (HQ _ (or_introl eq_refl)); by destruct d1).
  apply wp_bind, wp_get. unfold ds_state. rewrite H1. cbn [default from_option id].
  destruct (cs_registers st1) as [s|] eqn:Hs; [|by apply wp_ret].
  assert (Q tt (ds_set_final (<[rx_tid x := (rx_sequence x, s)]> (ds_final_state d1)) d1)) as Hnew
    by (apply HQ; right; by exists s).
  destruct (ds_final_state d1 !! rx_tid x) as [[last values]|].
  - case_match; [by apply wp_modify|by apply wp_ret].
  - apply wp_bind. unfold clone_snapshot.
    apply wp_bind, wp_still; [apply keeps_flight_reserve|intros _|done].
    apply wp_option. unfold snapshot_new. destruct (zlen (rs_values s) =? REGISTER_SLOT_COUNT); [|done].
    replace (mkSnapshot (rs_values s)) with s by (by destruct s). by apply wp_modify.
Qed.

(** A decoded record that stays in the machine. *)
Lemma typed_post st1 d1 e final :
  chunk_valid st1 -> chunk_moves (abstract st) (Some e) (abstract st1) ->
  d1 = mkDecodeState (<[i := st1]> (ds_states d)) (ds_output d) (ds_fragments d) (ds_final_state d)
         (ds_target_pcs d1) (ds_termination d) (ds_damaged_sequences d) (ds_damaged_source_offsets d) ->
  ev_key e = rx_key x -> ev_fragment_source_offsets e = [] ->
  final = ds_final_state d1
    \/ (exists s, cs_registers st1 = Some s
        /\ final = <[rx_tid x := (rx_sequence x, s)]> (ds_final_state d1)) ->
  wp (W := W) (E := ProviderError)
    (match ev_provenance e with Damaged => modify (ds_damage (rx_sequence x) (rx_offset x)) | _ => ret tt end ;!
     modify (ds_push e)) (fun _ d' => chunk_post i x st d d') (fun _ _ => True) (ds_set_final final d1).
Proof.
  intros Hv Hm Hd1 Hk Ho Hf. rewrite Hd1 in Hf |- *. cbn in Hf.
  assert (forall d', ds_states d' = <[i := st1]> (ds_states d) -> ds_final_state d' = final ->
    emits x e d d' -> chunk_post i x st d d') as Hpost.
  { intros d' Hs Hfinal He. exists st1, (Some e). split_and!; [done..|].
    destruct Hf as [->|(s & Hr & ->)]; [by left|]. right. right. by exists s. }
  apply wp_bind. destruct (ev_provenance e) eqn:Hp;
    (apply wp_modify || apply wp_ret); apply wp_modify; apply Hpost; try done;
    constructor; cbn; unfold damage_of; by rewrite ?Hp, ?app_nil_r.
Qed.

(** The record stays opaque and is reported. *)
Lemma opaque_post st1 final d1 :
  chunk_valid st1 ->
  chunk_moves (abstract st) (Some (rewrap (rx_key x) Damaged (rx_scope x) (rx_raw x))) (abstract st1) ->
  ds_states d1 = <[i := st1]> (ds_states d) -> ds_output d1 = ds_output d ->
  ds_fragments d1 = ds_fragments d -> ds_final_state d1 = final ->
  ds_damaged_sequences d1 = ds_damaged_sequences d ->
  ds_damaged_source_offsets d1 = ds_damaged_source_offsets d ->
  final = ds_final_state d \/ final = delete (rx_tid x) (ds_final_state d) ->
  chunk_post i x st d (ds_push (rewrap (rx_key x) Damaged (rx_scope x) (rx_raw x))
    (ds_damage (rx_sequence x) (rx_offset x) d1)).
Proof.
  intros Hv Hm H1 H2 H3 H4 H5 H6 Hf. eexists st1, (Some _). split_and!; [done|exact Hm|done|..].
  - constructor; cbn; unfold damage_of; cbn; congruence.
  - destruct Hf as [Hf|Hf]; [left|right; left]; cbn; congruence.
Qed.

Lemma wp_record_turn identity sb :
  key_ok (rx_key x) ->
  cs_prefix st = (if is_record (rx_raw x) 9 1 then ExpectCheckpoint else Ready) ->
  wp (W := W) (record_turn i identity sb x) (fun _ d' => chunk_post i x st d d') (fun _ _ => True) d.
Proof.
  intros Hkey Hp. apply wp_bind, wp_get, wp_bind, wp_attempt_on.
  pose proof (lookup_lt_Some _ _ _ Hst) as Hlt.
  eapply wp_mono; [by apply wp_decode_chunk_record|..].
  - intros [typed|] v' Hstep.
    + destruct Hstep as (Hk & _ & Ho & Hprov & Hfr & [Hrec _] & Hstep). cbn in Hfr, Hrec, Hstep.
      rewrite ds_state_eq in Hrec, Hstep.
      assert (chunk_valid (cv_state v') /\ chunk_moves (abstract st) (Some typed) (abstract (cv_state v')))
        as [Hv Hm].
      { pose proof Hvalid as Hval. unfold chunk_valid, abstract in *. rewrite Hp in Hval |- *.
        destruct (ev_payload typed) eqn:Hpay; cbn in Hprov; try done;
          destruct Hstep as [H91 Hstep]; rewrite H91 in Hval |- *.
        all: try (destruct Hstep as [Hp' Hr']; cbn in Hp', Hr'; rewrite ds_state_eq in Hp', Hr';
                  rewrite Hp, H91 in Hp'; rewrite Hp', Hr';
                  destruct Hval as [[snap Hs] Hr0]; rewrite Hs; split; [split; [by eexists|congruence]|];
                  apply MOther; by rewrite Hpay).
        - destruct Hstep as (Hp' & Hr' & Hlen). rewrite Hp', Hr'. destruct Hval as [Hnone Hr0]. rewrite Hnone.
          split; [split; [by eexists|congruence]|]. by apply MCheckpoint.
        - destruct Hstep as (Hp' & Hr' & Hrel). rewrite Hp, H91 in Hp'. rewrite Hp', Hr'.
          destruct Hval as [[snap Hs] Hr0]. rewrite Hs in Hrel |- *. cbn in Hrel |- *.
          split; [split; [by eexists|congruence]|]. apply MDelta; [done|]. by rewrite Hprov, Hrel. }
      apply wp_bind, (wp_note_registers (cv_state v')).
      { cbn -[alter]. rewrite (alter_states _ _ _ _ Hst). by apply list_lookup_insert_eq. }
      intros final Hf. eapply (typed_post (cv_state v')); [done|done| |done|done|exact Hf].
      unfold ds_set_view. cbn -[alter]. by rewrite (alter_states _ _ _ _ Hst), Hfr.
    + destruct Hstep as (H91 & [Hrec _] & [Hp' Hr'] & f & Hfr & Hok & Hfk). apply wp_ret.
      cbn in Hrec, Hp', Hr', Hfr. rewrite ds_state_eq in Hrec, Hp', Hr'. rewrite H91 in Hp.
      pose proof Hvalid as Hval. unfold chunk_valid in Hval. rewrite Hp in Hval. destruct Hval as [[s Hs] Hr0].
      exists (cv_state v'), None. split_and!.
      * cbn -[alter]. by rewrite (alter_states _ _ _ _ Hst).
      * unfold abstract. rewrite Hp', Hr', Hp, Hs. apply MFragment.
      * unfold chunk_valid. rewrite Hp', Hp, Hr', Hs. split; [by eexists|congruence].
      * exists f. by constructor.
      * by left.
  - intros [original|error] v' [(Hfr & _ & [Hrec _] & [Hp' Hr']) Horig]; [|by apply wp_throw].
    rewrite (Horig original eq_refl). cbn in Hfr, Hrec, Hp', Hr'. rewrite ds_state_eq in Hrec, Hp', Hr'.
    assert (ds_states (ds_set_view i v' d) = <[i := cv_state v']> (ds_states d)) as Hs1
      by (cbn -[alter]; by rewrite (alter_states _ _ _ _ Hst)).
    assert (ds_states (ds_set_view i v' d) !! i = Some (cv_state v')) as Hs2
      by (rewrite Hs1; by apply list_lookup_insert_eq).
    destruct (Z.eqb_spec (oo_record_type (rx_raw x)) 9) as [H9|H9].
    + apply wp_bind, wp_bind, wp_modify, wp_bind, wp_modify, wp_modify, wp_bind, wp_modify, wp_modify.
      eapply (opaque_post (set_prefix Broken (set_registers None (cv_state v')))); try done; [| |right; done].
      * unfold abstract. rewrite Hp. apply MBreak; [done|]. by case_match.
      * cbn -[alter]. rewrite (alter_states _ _ _ _ Hst).
        rewrite (alter_states (set_registers None) _ _ (cv_state v')) by by apply list_lookup_insert_eq.
        rewrite (alter_states (set_prefix Broken) _ _ (set_registers None (cv_state v')))
          by (apply list_lookup_insert_eq; by rewrite length_insert).
        by rewrite !list_insert_insert_eq.
    + assert (is_record (rx_raw x) 9 1 = false) as H91
        by (unfold is_record; by rewrite (proj2 (Z.eqb_neq _ _) H9)).
      rewrite H91 in Hp. pose proof Hvalid as Hval. unfold chunk_valid in Hval. rewrite Hp in Hval.
      destruct Hval as [[s Hs] Hr0].
      apply wp_bind, wp_ret, wp_bind, wp_modify, wp_modify.
      eapply (opaque_post (cv_state v')); try done; [| |by left].
      * unfold chunk_valid. rewrite Hp', Hp, Hr', Hs. split; [by eexists|congruence].
      * unfold abstract. rewrite Hp', Hr', Hp, Hs. by apply MOther.
Qed.

Lemma wp_chunk_turn identity sb :
  key_ok (rx_key x) ->
  wp (W := W) (chunk_turn i identity sb x) (fun _ d' => chunk_post i x st d d') (fun _ _ => True) d.
Proof.
  intros Hkey. apply wp_bind, wp_get, wp_bind, wp_option. rewrite Hst, ds_state_eq.
  pose proof (lookup_lt_Some _ _ _ Hst) as Hlt.
  destruct (cs_prefix st) eqn:Hp; [| | |by apply wp_broken_turn].
  - by apply wp_begin_turn.
  - destruct (is_record (rx_raw x) 9 1) eqn:H91.
    + apply wp_record_turn; [done|]. by rewrite H91.
    + apply wp_break_prefix; [by rewrite Hp|]. unfold chunk_valid in Hvalid. rewrite Hp in Hvalid.
      by destruct Hvalid.
  - destruct (is_record (rx_raw x) 9 1) eqn:H91; [|apply wp_record_turn; [done|]; by rewrite H91].
    apply wp_bind, wp_modify, wp_bind, wp_modify, wp_bind, wp_modify, wp_bind, wp_modify, wp_modify.
    eapply (broken_post (delete (rx_tid x) (ds_final_state d))); [by rewrite Hp| |by right].
    unfold record_prefix_damage, ds_state, ds_on_state, ds_damage, ds_push, ds_set_final. cbn -[alter].
    rewrite (alter_states (set_prefix Broken) _ _ _ Hst).
    rewrite (alter_states (set_registers None) _ _ (set_prefix Broken st)) by by apply list_lookup_insert_eq.
    rewrite list_insert_insert_eq, list_lookup_insert_eq by done. cbn -[alter].
    rewrite not_recorded by by rewrite Hp. cbn -[alter].
    rewrite (alter_states _ _ _ (set_registers None (set_prefix Broken st))) by by apply list_lookup_insert_eq.
    by rewrite list_insert_insert_eq.
Qed.

End turns.

(** ** The loop *)

Definition event_sequence (e : EventRecord) : Z := default 0 (ek_sequence (ev_key e)).
Definition event_tid (e : EventRecord) : Z := default 0 (ek_tid (ev_key e)).
Definition event_offset (e : EventRecord) : Z := ek_source_offset (ev_key e).

(** Where a record went: to the output, or to the pending fragments. *)
Inductive fate := Emitted (e : EventRecord) | Pending (f : Fragment).

Definition emitted (f : fate) : option EventRecord := match f with Emitted e => Some e | Pending _ => None end.
Definition pending (f : fate) : option Fragment := match f with Emitted _ => None | Pending f => Some f end.

Definition fate_ok (p : PhysicalFlight) (f : fate) : Prop :=
  match f with
  | Emitted e => ev_key e = ph_key p /\ ev_fragment_source_offsets e = []
  | Pending f => fg_key f = ph_key p /\ fragment_ok f
  end.

(** Every record has one fate, and exactly the damaged events are reported. *)
Definition accounted (records : list PhysicalFlight) (d : DecodeState) : Prop :=
  exists fates, Forall2 fate_ok records fates
    /\ ds_output d = omap emitted fates /\ ds_fragments d = omap pending fates
    /\ ds_damaged_sequences d = concat (map (fun e => damage_of e (event_sequence e)) (ds_output d))
    /\ ds_damaged_source_offsets d = concat (map (fun e => damage_of e (event_offset e)) (ds_output d)).

Section loop.
Context (superblock : Superblock) (chunks : list (option ChunkIdentity)).

(** The chunk an offset lies in. *)
Definition chunk_of (offset : Z) : option nat := Z.to_nat <$> chunk_index superblock offset.

Definition events_of (i : nat) (output : list EventRecord) : list EventRecord :=
  filter (fun e => chunk_of (event_offset e) = Some i) output.

Lemma events_of_app i l k : events_of i (l ++ k) = events_of i l ++ events_of i k.
Proof. apply filter_app. Qed.

(** A register file that some chunk had after the record of this number. *)
Definition replayed (output : list EventRecord) (tid sequence : Z) (s : RegisterSnapshot) : Prop :=
  exists i events e, events `prefix_of` events_of i output /\ chunk_run events (Ready, Some s)
    /\ last events = Some e /\ event_sequence e = sequence /\ event_tid e = tid.

Record loop_ok (before : list PhysicalFlight) (d : DecodeState) : Prop := mkLoopOk {
  lo_length : length (ds_states d) = length chunks;
  lo_valid : forall i st, ds_states d !! i = Some st -> chunk_valid st;
  lo_runs : forall i chunk st, chunks !! i = Some (Some chunk) -> ds_states d !! i = Some st ->
    chunk_run (events_of i (ds_output d)) (abstract st);
  lo_final : forall tid sequence s, ds_final_state d !! tid = Some (sequence, s) ->
    replayed (ds_output d) tid sequence s;
  lo_account : accounted before d
}.

Lemma replayed_app output more tid sequence s :
  replayed output tid sequence s -> replayed (output ++ more) tid sequence s.
Proof.
  intros (i & events & e & Hp & Hr). exists i, events, e. split; [|done].
  rewrite events_of_app. by apply prefix_app_r.
Qed.

Lemma accounted_emit before d d' p e :
  accounted before d -> emits (record_context p) e d d' -> accounted (before ++ [p]) d'.
Proof.
  intros (fates & Hf & Ho & Hp & Hs & Hd) [Hk Hoff Ho' Hf' Hs' Hd']. exists (fates ++ [Emitted e]).
  rewrite !omap_app. cbn. rewrite Ho', Hf', Hs', Hd', app_nil_r, !map_app, !concat_app, <- Ho, <- Hp, <- Hs, <- Hd.
  cbn. rewrite !app_nil_r. split_and!; [|done|done|..].
  - apply Forall2_app; [done|]. by repeat constructor.
  - unfold event_sequence. by rewrite Hk.
  - unfold event_offset. by rewrite Hk.
Qed.

Lemma accounted_defer before d d' p f :
  accounted before d -> defers (record_context p) f d d' -> accounted (before ++ [p]) d'.
Proof.
  intros (fates & Hf & Ho & Hp & Hs & Hd) [Hok Hk Ho' Hf' Hs' Hd']. exists (fates ++ [Pending f]).
  rewrite !omap_app. cbn. rewrite Ho', Hf', Hs', Hd', app_nil_r, <- Ho, <- Hp.
  split_and!; [|done..]. apply Forall2_app; [done|]. constructor; [by split|constructor].
Qed.

(** A record outside the chunks that keep a state. *)
Lemma loop_ok_plain before d d' p e :
  loop_ok before d -> emits (record_context p) e d d' ->
  ds_states d' = ds_states d -> ds_final_state d' = ds_final_state d ->
  (forall i chunk, chunks !! i = Some (Some chunk) -> chunk_of (ek_source_offset (ph_key p)) <> Some i) ->
  loop_ok (before ++ [p]) d'.
Proof.
  intros [Hl Hv Hr Hf Ha] He Hs Hfin Hout. pose proof (em_key _ _ _ _ He) as Hk. cbn in Hk.
  constructor; rewrite ?Hs, ?Hfin, ?(em_output _ _ _ _ He); try done.
  - intros i chunk st Hc Hst. rewrite events_of_app. unfold events_of at 2. rewrite filter_cons, filter_nil.
    unfold event_offset. rewrite Hk, decide_False by by eapply Hout. rewrite app_nil_r. by eapply Hr.
  - intros tid q s Hq. by apply replayed_app, Hf.
  - by eapply accounted_emit.
Qed.

(** A record of a chunk that keeps a state. *)
Lemma loop_ok_chunk before d d' p i chunk st :
  loop_ok before d -> chunks !! i = Some (Some chunk) -> ds_states d !! i = Some st ->
  chunk_of (ek_source_offset (ph_key p)) = Some i ->
  chunk_post i (record_context p) st d d' -> loop_ok (before ++ [p]) d'.
Proof.
  intros [Hl Hv Hr Hf Ha] Hc Hst Hi (st' & out & Hs' & Hm & Hv' & Hout & Hfin).
  assert (ds_output d' = ds_output d ++ option_list out
    /\ accounted (before ++ [p]) d' /\ (forall e, out = Some e -> ev_key e = ph_key p)) as (Ho' & Ha' & Hk).
  { destruct out as [e|]; cbn.
    - split_and!; [apply (em_output _ _ _ _ Hout)|by eapply accounted_emit|].
      intros e' [= <-]. apply (em_key _ _ _ _ Hout).
    - destruct Hout as [f Hf']. rewrite app_nil_r.
      split_and!; [apply (df_output _ _ _ _ Hf')|by eapply accounted_defer|done]. }
  assert (events_of i (option_list out) = option_list out) as Hown.
  { destruct out as [e|]; [|done]. change (option_list (Some e)) with [e]. unfold events_of. rewrite filter_cons, filter_nil.
    unfold event_offset. by rewrite (Hk e eq_refl), decide_True. }
  assert (forall j, j <> i -> events_of j (option_list out) = []) as Hother.
  { intros j Hj. destruct out as [e|]; [|done]. change (option_list (Some e)) with [e]. unfold events_of. rewrite filter_cons, filter_nil.
    unfold event_offset. rewrite (Hk e eq_refl), decide_False by congruence. done. }
  assert (chunk_run (events_of i (ds_output d')) (abstract st')) as Hrun.
  { rewrite Ho', events_of_app, Hown. eapply run_move; [|exact Hm]. by eapply Hr. }
  pose proof (lookup_lt_Some _ _ _ Hst) as Hlt.
  constructor; [by rewrite Hs', length_insert|..|done].
  - intros j sj Hj. rewrite Hs' in Hj. destruct (decide (i = j)) as [<-|Hne].
    + rewrite list_lookup_insert_eq in Hj by done. by injection Hj as <-.
    + rewrite list_lookup_insert_ne in Hj by done. by eapply Hv.
  - intros j cj sj Hcj Hj. rewrite Hs' in Hj. destruct (decide (i = j)) as [<-|Hne].
    + rewrite list_lookup_insert_eq in Hj by done. by injection Hj as <-.
    + rewrite list_lookup_insert_ne in Hj by done. rewrite Ho', events_of_app, Hother, app_nil_r by done.
      by eapply Hr.
  - intros tid q s Hq. destruct Hfin as [Heq|[Heq|(snap & Hsnap & [e ->] & Heq)]]; rewrite Heq in Hq.
    + rewrite Ho'. by apply replayed_app, Hf.
    + apply lookup_delete_Some in Hq as [_ Hq]. rewrite Ho'. by apply replayed_app, Hf.
    + destruct (decide (rx_tid (record_context p) = tid)) as [<-|Hne].
      * rewrite lookup_insert_eq in Hq. injection Hq as <- <-.
        exists i, (events_of i (ds_output d')), e. split; [done|].
        assert (abstract st' = (Ready, Some snap)) as Habs.
        { unfold abstract, chunk_valid in *. destruct (cs_prefix st'); destruct_and?; congruence. }
        rewrite <- Habs. split; [done|]. rewrite Ho', events_of_app, Hown.
        change (option_list (Some e)) with [e]. rewrite last_snoc. split_and!; [done|..].
        -- unfold event_sequence. by rewrite (Hk e eq_refl).
        -- unfold event_tid. by rewrite (Hk e eq_refl).
      * rewrite lookup_insert_ne in Hq by done. rewrite Ho'. by apply replayed_app, Hf.
Qed.

Section worlds.
Context {W : Type} `{WorkGuard W} `{Allocator W}.

Lemma wp_decode_turn before position p d :
  loop_ok before d -> key_ok (ph_key p) ->
  wp (W := W) (decode_turn superblock chunks position p) (fun _ d' => loop_ok (before ++ [p]) d')
    (fun _ _ => True) d.
Proof.
  intros Hok Hkey. unfold decode_turn. apply wp_bind, wp_still;
    [apply keeps_fragment_checkpoint|intros []|done].
  assert ((forall i chunk, chunks !! i = Some (Some chunk) -> chunk_of (ek_source_offset (ph_key p)) <> Some i) ->
    loop_ok (before ++ [p]) (ds_push (rewrap (ph_key p) Captured (ph_scope p) (ph_raw p)) d)) as Hopaque.
  { intros Hout. apply (loop_ok_plain before d _ p (rewrap (ph_key p) Captured (ph_scope p) (ph_raw p)));
      [done| |done|done|done].
    constructor; cbn; by rewrite ?app_nil_r. }
  cbv zeta. change (rx_offset (record_context p)) with (ek_source_offset (ph_key p)).
  destruct (chunk_index superblock (ek_source_offset (ph_key p))) as [j|] eqn:Hj.
  - destruct (chunks !! Z.to_nat j) as [[chunk|]|] eqn:Hc; cbn [mjoin option_join].
    + destruct (lookup_lt_is_Some_2 (ds_states d) (Z.to_nat j)) as [st Hst].
      { rewrite (lo_length _ _ Hok). by eapply lookup_lt_Some. }
      eapply wp_mono; [apply (wp_chunk_turn _ _ st d Hst (lo_valid _ _ Hok _ _ Hst)); exact Hkey| |done].
      intros [] d' Hpost. eapply loop_ok_chunk; try done. unfold chunk_of. by rewrite Hj.
    + apply wp_modify, Hopaque. intros i chunk Hi. unfold chunk_of. rewrite Hj. cbn. congruence.
    + apply wp_modify, Hopaque. intros i chunk Hi. unfold chunk_of. rewrite Hj. cbn. congruence.
  - assert (forall i chunk, chunks !! i = Some (Some chunk) -> chunk_of (ek_source_offset (ph_key p)) <> Some i)
      as Hout by (intros; unfold chunk_of; by rewrite Hj).
    case_match; [|by apply wp_modify, Hopaque]. unfold emergency_turn. apply wp_bind.
    unfold decode_emergency. apply wp_bind, wp_fail_if; [intros _|done].
    apply wp_bind, wp_still; [apply keeps_local|intros words|done].
    apply wp_bind, wp_option. destruct (emergency_payload words) as [payload|]; [|done].
    apply wp_ret, wp_bind, wp_modify, wp_modify.
    assert (forall d', ds_states d' = ds_states d -> ds_final_state d' = ds_final_state d ->
      ds_output d' = ds_output d -> ds_fragments d' = ds_fragments d ->
      ds_damaged_sequences d' = ds_damaged_sequences d ->
      ds_damaged_source_offsets d' = ds_damaged_source_offsets d ->
      loop_ok (before ++ [p]) (ds_push (event_record_new (ph_key p) Captured payload) d')) as Hpush.
    { intros d' H1' H2' H3' H4' H5' H6'. apply (loop_ok_plain before d _ p (event_record_new (ph_key p) Captured payload));
        [done| |done|done|done].
      constructor; cbn; rewrite ?app_nil_r; congruence. }
    apply Hpush; by destruct payload.
Qed.

Lemma wp_decode_records physical d :
  loop_ok [] d -> Forall (fun p => key_ok (ph_key p)) physical ->
  wp (W := W) (decode_records physical superblock chunks) (fun _ d' => loop_ok physical d')
    (fun _ _ => True) d.
Proof.
  intros Hd Hkeys. unfold decode_records.
  apply (wp_fold_over (fun before _ d' => loop_ok before d')); [done|].
  intros before p after [] d' Hsplit Hok. apply wp_decode_turn; [done|].
  apply (proj1 (Forall_forall _ _) Hkeys). rewrite Hsplit. set_solver.
Qed.

End worlds.

Lemma loop_ok_start :
  loop_ok [] (mkDecodeState (replicate (length chunks) ChunkState_default) [] [] ∅ [] None [] []).
Proof.
  constructor; cbn; try done.
  - apply length_replicate.
  - intros i st [-> _]%lookup_replicate. done.
  - intros i chunk st _ [-> _]%lookup_replicate. apply run_start.
  - by exists [].
Qed.

End loop.
