(* ===== verification/FlightAccount.v ===== *)
(** * The account of a whole Flight decode

    How [decode] of [FlightEvents] can fail, and what a successful decode holds:
    the chunk machine's register files, one place for every record of the
    artifact, and damage reported exactly where it is. *)

From stdpp Require Import prelude list sorting strings gmap.
From Stdlib Require Import ZArith Lia Strings.Byte Sorted.
From S2P Require Import Prelude Prog Control Throws Model Source QtrbPayload QtrbEvents FlightWire FlightContext FlightScan FlightSort FlightPayload FlightRegisters FlightFragments FlightEvents FlightDecode.
Local Open Scope string_scope.
Local Open Scope list_scope.
Local Open Scope Z_scope.

(** ** How decoding can fail

    A decoder's own complaints are caught and reported as damage; what gets out
    is an abort of the work guard. *)

Definition benign (e : ProviderError) : Prop := aborted e = true -> resource_error e.

Lemma benign_new code stage source retryable detail :
  benign (ProviderError_new code stage source retryable detail).
Proof. done. Qed.

Lemma benign_resource e : resource_error e -> benign e.
Proof. by intros He _. Qed.

Ltac benign := first [exact benign_resource | apply benign_new].
Ltac benign_auto := repeat throws_step ltac:(benign).

Section errors.
Context {W : Type} `{WorkGuard W} `{Allocator W}.

Section any.
Context {S : Type}.
Abbreviation B p := (throws (W := W) (S := S) benign p).

Lemma benign_reserve {A} t (v : Vec A) n d : B (flight_reserve_vec t v n d).
Proof. unfold flight_reserve_vec. benign_auto. Qed.
Lemma benign_copy bs d : B (flight_copy_string bs d).
Proof. unfold flight_copy_string. benign_auto. Qed.
Lemma benign_reserve_map id t len n d : B (flight_reserve_map id t len n d).
Proof. unfold flight_reserve_map. benign_auto. Qed.
Lemma benign_qtrb_reserve t cap len n d : B (try_reserve_vec_exact t cap len n d).
Proof. unfold try_reserve_vec_exact. benign_auto. Qed.
Lemma benign_qtrb_copy bs d : B (try_copy_string bs d).
Proof. unfold try_copy_string. benign_auto. Qed.
Lemma benign_qtrb_copy_bytes bs d : B (try_copy_bytes bs d).
Proof. unfold try_copy_bytes. benign_auto. Qed.

End any.

#[local] Hint Resolve benign_reserve benign_copy benign_reserve_map benign_qtrb_reserve
  benign_qtrb_copy benign_qtrb_copy_bytes : throw.

Lemma benign_take n : throws (W := W) benign (QtrbPayload.cursor_take n).
Proof. intros c w. unfold QtrbPayload.cursor_take. repeat case_match; simplify_eq; try done; apply benign_new. Qed.
Lemma benign_take' n : throws (W := W) benign (ec_take n).
Proof. unfold ec_take. benign_auto. Qed.

#[local] Hint Resolve benign_take benign_take' : throw.

Lemma benign_utf8 n f : throws (W := W) benign (QtrbPayload.bounded_utf8_guarded n f).
Proof. unfold QtrbPayload.bounded_utf8_guarded, QtrbPayload.u16_le. benign_auto. Qed.
Lemma benign_finish : throws (W := W) benign QtrbPayload.cursor_finish.
Proof. unfold QtrbPayload.cursor_finish. benign_auto. Qed.
Lemma benign_direction v c e : decode_direction v c = Err e -> benign e.
Proof. unfold decode_direction. repeat case_match; intros [= <-]; apply benign_new. Qed.
Lemma benign_memory_state f c : throws (W := W) benign (shared_memory_state f c).
Proof. unfold shared_memory_state, QtrbPayload.u8. benign_auto. Qed.

#[local] Hint Resolve benign_utf8 benign_finish benign_memory_state : throw.

Section decoders.
Context {S : Type}.
Abbreviation B p := (throws (W := W) (S := S) benign p).

Lemma benign_nested bs k c : B (nested bs k c).
Proof. unfold nested, QtrbPayload.u16_le, QtrbPayload.u32_le. benign_auto. Qed.
#[local] Hint Resolve benign_nested : throw.

Lemma benign_definition bs c : B (decode_instruction_definition_record bs c).
Proof.
  unfold decode_instruction_definition_record, decode_instruction_definition_payload,
    decode_instruction_definition_payload_body, shared_registers, shared_memory_operand,
    QtrbPayload.u8, QtrbPayload.u32_le, QtrbPayload.u64_le, QtrbPayload.i64_le.
  benign_auto. apply throws_result, benign_direction.
Qed.

Lemma benign_instruction bs d c : B (decode_instruction_record bs d c).
Proof.
  unfold decode_instruction_record, decode_instruction_payload, decode_instruction_payload_body,
    shared_observation, QtrbPayload.u8, QtrbPayload.u32_le, QtrbPayload.u64_le. benign_auto.
Qed.

Lemma benign_memory bs c : B (decode_memory_record bs c).
Proof.
  unfold decode_memory_record, decode_memory_payload_for_module, decode_memory_payload_body,
    QtrbPayload.u8, QtrbPayload.u16_le, QtrbPayload.u32_le, QtrbPayload.u64_le. benign_auto.
  apply throws_result, benign_direction.
Qed.

Lemma benign_begin bs sb id i c : B (decode_begin bs sb id i c).
Proof.
  unfold decode_begin, read_begin_fields, ec_u8, ec_u16, ec_u32, ec_u64, text_guarded, ec_finish. benign_auto.
Qed.

Lemma benign_semantic kind bs strings output l : B (decode_semantic kind bs strings output l).
Proof. unfold decode_semantic, semantic_field. benign_auto. Qed.

Lemma benign_syscall bs tid width : B (decode_syscall bs tid width).
Proof. unfold decode_syscall, read_syscall_words, ec_u64, ec_finish. benign_auto. Qed.

Lemma benign_signal bs tid width : B (decode_signal bs tid width).
Proof. unfold decode_signal. benign_auto. Qed.

Lemma benign_fragment kind bs strings key p i g : B (decode_fragment kind bs strings key p i g).
Proof. unfold decode_fragment, fragment_field. benign_auto. Qed.

Lemma benign_clone d : B (clone_instruction_definition d).
Proof. unfold clone_instruction_definition, clone_register. benign_auto. Qed.

Lemma typed_resource {A} (p : Prog W TypedDecodeError S A) related c detail :
  decodes p related -> B (relabel (fun e => typed_decode_error e c detail) p).
Proof.
  intros Hp. apply (throws_relabel _ (fun e => match e with TypedControl e => resource_error e | TypedInvalid => True end)).
  - intros s w. specialize (Hp s w). destruct (p s w) as [[[?|[|?]] ?] ?]; naive_solver.
  - intros [|e] He; [apply benign_new|by apply benign_resource].
Qed.

End decoders.
End errors.

(** ** No record makes the loop index out of bounds *)

(** The rows of a string dictionary are strings of the output. *)
Definition string_row (output : list EventRecord) (row : nat) : Prop :=
  exists e value, output !! row = Some e /\ ev_payload e = PStringDefinition value
    /\ zlen (sd_bytes value) <= 4096.

Definition rows_in (output : list EventRecord) (st : ChunkState) : Prop :=
  forall id row, cs_strings st !! id = Some row -> string_row output row.

Definition rows_ok (d : DecodeState) : Prop :=
  forall i st, ds_states d !! i = Some st -> rows_in (ds_output d) st.

Lemma string_row_app output more row : string_row output row -> string_row (output ++ more) row.
Proof.
  intros (e & value & He & Hrest). exists e, value. split; [|done]. by apply lookup_app_l_Some.
Qed.

Lemma rows_on_state i f d :
  (forall st, ds_states d !! i = Some st -> rows_in (ds_output d) (f st)) ->
  rows_ok d -> rows_ok (ds_on_state i f d).
Proof.
  intros Hf Hd j st Hj. cbn -[alter] in Hj |- *. destruct (decide (i = j)) as [<-|Hne].
  - rewrite list_lookup_alter_eq in Hj. destruct (ds_states d !! i) as [st0|] eqn:E; [|done].
    injection Hj as <-. by apply Hf.
  - rewrite list_lookup_alter_ne in Hj by done. by apply (Hd j).
Qed.

(** Everything but a new string leaves the dictionaries alone. *)
Lemma rows_on_other i f d :
  (forall st, cs_strings (f st) = cs_strings st) -> rows_ok d -> rows_ok (ds_on_state i f d).
Proof.
  intros Hf Hd. apply rows_on_state; [|done]. intros st Hst id row. rewrite Hf. by apply (Hd i).
Qed.

Lemma rows_push e d : rows_ok d -> rows_ok (ds_push e d).
Proof. intros Hd i st Hi id row Hr. cbn in *. by eapply string_row_app, (Hd i). Qed.

Lemma rows_same d d' :
  ds_states d' = ds_states d -> ds_output d' = ds_output d -> rows_ok d -> rows_ok d'.
Proof. intros Hs Ho Hd i st. rewrite Hs, Ho. apply Hd. Qed.

Lemma rows_prefix_damage i s o d : rows_ok d -> rows_ok (record_prefix_damage i s o d).
Proof. intros Hd. unfold record_prefix_damage. case_match; [done|]. by apply rows_on_other. Qed.

(** How a record moves the string dictionary of its chunk. *)
Definition strings_step (output : list EventRecord) (r : option EventRecord) (v v' : ChunkView) : Prop :=
  cs_strings (cv_state v') = cs_strings (cv_state v)
  \/ exists id e value, r = Some e /\ ev_payload e = PStringDefinition value
       /\ zlen (sd_bytes value) <= 4096
       /\ cs_strings (cv_state v') = <[id := length output]> (cs_strings (cv_state v)).

Section bounds.
Context {W : Type} `{WorkGuard W} `{Allocator W}.

(** The payload of a typed record leaves the dictionary alone. *)
Lemma typed_strings raw c tid sb output decode (v : ChunkView) :
  typed_payload (W := W) raw c tid sb output = Some decode ->
  wp decode (fun _ v' => cs_strings (cv_state v') = cs_strings (cv_state v))
    (fun _ v' => cs_strings (cv_state v') = cs_strings (cv_state v)) v.
Proof.
  assert (forall p : Prog W ProviderError ChunkView EventPayload,
    keeps (fun v => cs_strings (cv_state v)) p ->
    wp p (fun _ v' => cs_strings (cv_state v') = cs_strings (cv_state v))
      (fun _ v' => cs_strings (cv_state v') = cs_strings (cv_state v)) v) as Hkeep.
  { intros p Hp w. specialize (Hp v w). by destruct (p v w) as [[[?|?] ?] ?]. }
  assert (forall A (p : Prog W ProviderError ChunkView A),
    keeps (fun v => v) p -> keeps (fun v => cs_strings (cv_state v)) p) as Hstill.
  { intros A p Hp s w. specialize (Hp s w). destruct (p s w) as [[? ?] ?]. by rewrite Hp. }
  assert (forall A (p : Prog W TypedDecodeError ChunkView A) related c' detail, decodes p related ->
    keeps (fun v => cs_strings (cv_state v)) (relabel (fun e => typed_decode_error e c' detail) p)) as Htyped.
  { intros A p related c' detail Hp s w. specialize (Hp s w).
    unfold relabel, attempt, attempt_on, bind, lift_result.
    destruct (p s w) as [[[?|[|?]] ?] ?]; destruct Hp as [-> _]; done. }
  unfold typed_payload. intros Ht. apply Hkeep. revert Ht. cbn zeta.
  repeat case_match; intros [= <-];
    unfold checkpoint_payload, delta_payload, definition_payload, instruction_payload, memory_payload,
      thread_begin_payload, thread_end_payload, signal_payload;
    repeat first
      [ keep_step
      | eapply Htyped, decode_checkpoint_exact | eapply Htyped, decode_delta_exact
      | apply Hstill; first [apply keeps_flight_definition|apply keeps_flight_clone
          |apply keeps_flight_instruction|apply keeps_flight_memory|apply keeps_flight_semantic
          |apply keeps_flight_syscall|apply keeps_flight_signal] ].
Qed.

(** A control error is a refused resource. *)
Definition controlled (e : ChunkDecodeError) : Prop :=
  match e with ChunkControl e => resource_error e | ChunkPayload _ => True end.

Lemma wp_shared_string bs (v : ChunkView) (Q : bytes -> ChunkView -> Prop) R :
  zlen bs <= 4096 -> Q bs v -> (forall e, resource_error e -> R e v) ->
  wp (W := W) (shared_string bs) Q R v.
Proof.
  intros Hlen HQ HR. pose proof (zlen_nonneg bs). unfold shared_string.
  apply wp_bind, wp_option. unfold WORD_BYTES, saturating_mul.
  rewrite checked_add_ok by (unfold usize_max, u64_max; lia).
  apply wp_bind, wp_option. unfold saturating_sub at 1 2.
  rewrite checked_add_ok by (unfold usize_max, u64_max; lia). cbn [mbind option_bind].
  set (value := Z.land _ _).
  assert (value <= u64_max) as Hv.
  { set (mask := Z.lxor usize_max (Z.max 0 (8 - 1))) in *.
    assert (0 <= mask /\ Z.log2 mask = 63) as [Hm0 Hm] by (split; [discriminate|reflexivity]).
    destruct (Z.le_gt_cases value 0) as [|Hpos]; [unfold u64_max; lia|].
    assert (Z.log2 value <= 63) as Hlog.
    { subst value. rewrite <- Hm. etransitivity; [apply Z.log2_land; [unfold usize_max, u64_max; lia|exact Hm0]|]. lia. }
    assert (value < 2 ^ 64) by (apply Z.log2_lt_pow2; lia).
    unfold u64_max. lia. }
  unfold try_from. destruct (Z.leb_spec value u64_max); [|lia].
  apply wp_scope; [by apply wp_ret|done].
Qed.

Lemma wp_share_strings raw output fields v :
  rows_in output (cv_state v) ->
  wp (W := W) (fold_each fields tt (fun _ field => share_field raw output field))
    (fun _ v' => cs_strings (cv_state v') = cs_strings (cv_state v))
    (fun e v' => cs_strings (cv_state v') = cs_strings (cv_state v) /\ controlled e) v.
Proof.
  revert v. induction fields as [|field fields IH]; intros v Hrows; cbn [fold_each]; [by apply wp_ret|].
  apply wp_bind, wp_bind, wp_option. destruct (raw_u32 _ _) as [id|]; [|done].
  apply wp_bind, wp_get, wp_bind, wp_option. destruct (cs_strings _ !! _) as [row|] eqn:Hrow; [|done].
  destruct (cs_fragment_strings _ !! _); [by apply wp_ret, IH|].
  destruct (Hrows _ _ Hrow) as (e & value & He & Hvalue & Hlen).
  apply wp_bind, wp_option. rewrite He, Hvalue.
  apply wp_bind, wp_relabel, wp_shared_string; [done| |done].
  apply wp_modify, (IH (on_state (insert_fragment_string id (sd_bytes value)) v)). exact Hrows.
Qed.

Lemma wp_chunk_strings raw key p scope identity i sb output v :
  rows_in output (cv_state v) ->
  wp (W := W) (decode_chunk_record raw key p scope identity i sb output)
    (fun r v' => strings_step output r v v')
    (fun e v' => cs_strings (cv_state v') = cs_strings (cv_state v) /\ controlled e) v.
Proof.
  intros Hrows. unfold decode_chunk_record. destruct (is_record raw 6 3).
  { apply wp_bind, wp_get, wp_bind, wp_result. destruct (validate_string _ _) as [id|] eqn:Hid; [|done].
    apply wp_bind, wp_modify, wp_ret. right. eexists id, _, _. split_and!; [done|done| |done].
    unfold validate_string in Hid. destruct (Z.ltb_spec (zlen (oo_bytes raw)) 8); [done|].
    destruct (raw_u32 (oo_bytes raw) 0); [|done]. destruct (raw_u32 (oo_bytes raw) 4) as [size|]; [|done].
    destruct (_ || _) eqn:E in Hid; [done|]. rewrite !orb_false_iff in E.
    destruct E as [[[_ Ha] Hb%negb_false_iff] _]. cbn. unfold zlen in *. rewrite length_drop. lia. }
  assert (forall e, benign e -> controlled (if aborted e then ChunkControl e else ChunkPayload raw)) as Hcaught.
  { intros e He. destruct (aborted e) eqn:E; [by apply He|done]. }
  destruct (semantic_kind _ && _).
  { unfold fragment_record. apply wp_bind, wp_fail_if; [intros _|done].
    apply wp_bind, wp_get, wp_bind, wp_relabel, wp_reserve_map; [apply _| |done].
    apply wp_bind. eapply wp_mono; [by apply wp_share_strings| |done]. intros [] v1 Hv1.
    apply wp_bind, wp_get, wp_bind, wp_attempt.
    intros w. pose proof (keeps_decode_fragment (W := W) (S := ChunkView) (oo_record_type raw) (oo_bytes raw)
      (cs_fragment_strings (cv_state v1)) key p i (ci_generation identity) v1 w) as Hk.
    pose proof (benign_fragment (W := W) (S := ChunkView) (oo_record_type raw) (oo_bytes raw)
      (cs_fragment_strings (cv_state v1)) key p i (ci_generation identity) v1 w) as Hb.
    destruct (decode_fragment _ _ _ _ _ _ _ v1 w) as [[[f|e] v2] w']; subst v2.
    - apply wp_bind, wp_modify, wp_ret. by left.
    - specialize (Hcaught e Hb). destruct (aborted e); by apply wp_throw. }
  apply wp_bind, wp_option. destruct (typed_payload _ _ _ _ _) as [decode|] eqn:Ht; [|done].
  apply wp_bind, wp_attempt.
  assert (throws (W := W) benign decode) as Hb.
  { revert Ht. unfold typed_payload. cbn zeta. repeat case_match; intros [= <-];
      unfold checkpoint_payload, delta_payload, definition_payload, instruction_payload, memory_payload,
        thread_begin_payload, thread_end_payload, signal_payload;
      repeat first
        [ throws_step ltac:(benign)
        | eapply typed_resource, decode_checkpoint_exact | eapply typed_resource, decode_delta_exact
        | apply benign_definition | apply benign_clone | apply benign_instruction | apply benign_memory
        | apply benign_semantic | apply benign_syscall | apply benign_signal
        | apply throws_result; unfold definition_id, ok_or; repeat case_match; intros ? [= <-]; apply benign_new ]. }
  pose proof (typed_strings raw _ _ sb output decode v Ht) as Hs.
  intros w. specialize (Hb v w). specialize (Hs w).
  destruct (decode v w) as [[[payload|e] v'] w'].
  - apply wp_ret. by left.
  - specialize (Hcaught e Hb). destruct (aborted e); by apply wp_throw.
Qed.

End bounds.

(** ** The loop stops only on a resource or an emergency record *)

Lemma wp_conj {W E S A} (p : Prog W E S A) (Q Q' : A -> S -> Prop) (R R' : E -> S -> Prop) s :
  wp p Q R s -> wp p Q' R' s ->
  wp p (fun a s' => Q a s' /\ Q' a s') (fun e s' => R e s' /\ R' e s') s.
Proof. intros H1 H2 w. specialize (H1 w). specialize (H2 w). by destruct (p s w) as [[[?|?] ?] ?]. Qed.

Section stops.
Context {W : Type} `{WorkGuard W} `{Allocator W} (superblock : Superblock) (chunks : list (option ChunkIdentity)).
Abbreviation refused := (fun (e : ProviderError) (_ : DecodeState) => resource_error e).

(** The dictionaries of a state that a record may move. *)
Definition safe (d : DecodeState) : Prop := length (ds_states d) = length chunks /\ rows_ok d.

Lemma safe_on_other i f d :
  (forall st, cs_strings (f st) = cs_strings st) -> safe d -> safe (ds_on_state i f d).
Proof. intros Hf [Hl Hr]. split; [by cbn -[alter]; rewrite length_alter|by apply rows_on_other]. Qed.

Lemma safe_push e d : safe d -> safe (ds_push e d).
Proof. intros [Hl Hr]. split; [done|by apply rows_push]. Qed.

Lemma safe_same d d' : ds_states d' = ds_states d -> ds_output d' = ds_output d -> safe d -> safe d'.
Proof. intros Hs Ho [Hl Hr]. split; [by rewrite Hs|by eapply rows_same]. Qed.

Lemma safe_prefix_damage i s o d : safe d -> safe (record_prefix_damage i s o d).
Proof.
  intros Hd. unfold record_prefix_damage. case_match; [done|]. apply safe_on_other; [done|].
  by eapply safe_same.
Qed.

Hint Resolve safe_push safe_prefix_damage : qtrace.
Hint Extern 1 (safe (ds_on_state _ _ _)) => apply safe_on_other; [done|] : qtrace.
Hint Extern 1 (safe (ds_damage _ _ ?d)) => apply (safe_same d); [reflexivity|reflexivity|] : qtrace.
Hint Extern 1 (safe (ds_set_final _ ?d)) => apply (safe_same d); [reflexivity|reflexivity|] : qtrace.

Lemma wp_safe_break i x d R : safe d -> wp (W := W) (break_prefix i x) (fun _ d' => safe d') R d.
Proof. intros Hd. apply wp_bind, wp_modify, wp_bind, wp_modify, wp_modify. auto 6 with qtrace. Qed.

Lemma wp_safe_begin i identity x d :
  safe d -> wp (W := W) (begin_turn i identity superblock x) (fun _ d' => safe d') refused d.
Proof.
  intros Hd. unfold begin_turn. case_match; [by apply wp_safe_break|]. apply wp_bind, wp_attempt. intros w.
  pose proof (keeps_flight_begin (W := W) (S := DecodeState) (oo_bytes (rx_raw x)) superblock identity
    (Z.of_nat i) (rx_coordinate x) d w) as Hk.
  pose proof (benign_begin (W := W) (S := DecodeState) (oo_bytes (rx_raw x)) superblock identity
    (Z.of_nat i) (rx_coordinate x) d w) as Hb.
  destruct (decode_begin _ _ _ _ _ d w) as [[[b|e] d'] w']; subst d'.
  - apply wp_bind, wp_modify, wp_bind, wp_modify, wp_modify. auto 6 with qtrace.
  - destruct (aborted e) eqn:E; [apply wp_throw; by apply Hb|by apply wp_safe_break].
Qed.

Lemma wp_safe_broken i x d :
  safe d -> wp (W := W) (broken_turn i superblock x) (fun _ d' => safe d') refused d.
Proof.
  intros Hd. apply wp_bind, wp_get, wp_bind, wp_modify, wp_bind.
  set (d1 := record_prefix_damage i (rx_sequence x) (rx_offset x) d).
  assert (safe d1) as H1 by by apply safe_prefix_damage.
  assert (forall Q : unit -> DecodeState -> Prop, (forall d2, safe d2 -> Q tt d2) ->
    wp (W := W) (E := ProviderError) (if cs_prefix_damage_recorded (ds_state i d)
      then modify (ds_damage (rx_sequence x) (rx_offset x)) else ret tt) Q refused d1) as Hif.
  { intros Q HQ. case_match; [apply wp_modify|apply wp_ret]; apply HQ; auto with qtrace. }
  apply Hif. intros d2 H2. cbv zeta. destruct (is_record (rx_raw x) 9 0); [|apply wp_modify; auto with qtrace].
  apply wp_bind, wp_attempt. intros w.
  pose proof (decode_delta_exact (W := W) (S := DecodeState) (oo_bytes (rx_raw x))
    (sb_pointer_width superblock) None d2 w) as Hx.
  destruct (decode_delta _ _ None d2 w) as [[[[delta after]|[|e]] d3] w']; destruct Hx as [-> He].
  - apply wp_modify. auto with qtrace.
  - apply wp_modify. auto with qtrace.
  - by apply wp_throw.
Qed.

Lemma wp_safe_record i identity x st d :
  safe d -> ds_states d !! i = Some st -> key_ok (rx_key x) ->
  (forall s, cs_registers st = Some s -> zlen (rs_values s) = REGISTER_SLOT_COUNT) ->
  wp (W := W) (record_turn i identity superblock x) (fun _ d' => safe d') refused d.
Proof.
  intros Hd Hst Hkey Hregs. apply wp_bind, wp_get, wp_bind, wp_attempt_on.
  assert (cv_state (ds_view i d) = st) as Hview by (cbn; unfold ds_state; by rewrite Hst).
  assert (rows_in (ds_output d) st) as Hrows by (apply Hd in Hst; done).
  assert (forall v', ds_states (ds_set_view i v' d) !! i = Some (cv_state v')) as Hget.
  { intros v'. cbn -[alter]. rewrite list_lookup_alter_eq, Hst. done. }
  assert (forall v' e, (forall id row, cs_strings (cv_state v') !! id = Some row ->
      string_row (ds_output d ++ [e]) row) ->
    forall d2, ds_states d2 = ds_states (ds_set_view i v' d) -> ds_output d2 = ds_output d ->
    safe (ds_push e d2)) as Hpush.
  { intros v' e Hv d2 Hs2 Ho2. destruct Hd as [Hl Hr]. split; [cbn; by rewrite Hs2; cbn -[alter]; rewrite length_alter|].
    intros j sj Hj. cbn in Hj |- *. rewrite Hs2 in Hj. rewrite Ho2. cbn -[alter] in Hj.
    destruct (decide (i = j)) as [<-|Hne].
    - rewrite list_lookup_alter_eq, Hst in Hj. by injection Hj as <-.
    - rewrite list_lookup_alter_ne in Hj by done. intros id row Hrow. apply string_row_app.
      by eapply (Hr j). }
  assert (forall v', cs_strings (cv_state v') = cs_strings st -> safe (ds_set_view i v' d)) as Hsame.
  { intros v' Hv. destruct Hd as [Hl Hr]. split; [cbn -[alter]; by rewrite length_alter|].
    intros j sj Hj. cbn -[alter] in Hj |- *. destruct (decide (i = j)) as [<-|Hne].
    - rewrite list_lookup_alter_eq, Hst in Hj. injection Hj as <-. intros id row. rewrite Hv. apply Hrows.
    - rewrite list_lookup_alter_ne in Hj by done. by apply (Hr j). }
  eapply wp_mono; [apply wp_conj; [apply (wp_decode_chunk_record (rx_raw x) (rx_key x)); exact Hkey
    |apply wp_chunk_strings; by rewrite Hview]|..]; cbv beta.
  - intros [typed|] v' [Hstep Hstr]; rewrite ?Hview in Hstr.
    + assert (forall s, cs_registers (cv_state v') = Some s -> zlen (rs_values s) = REGISTER_SLOT_COUNT) as Hregs'.
      { destruct Hstep as (_ & _ & _ & _ & _ & _ & Hstep). intros s Hs.
        destruct (ev_payload typed); try done; try (destruct Hstep as [_ [_ Hr]]; rewrite Hview in Hr; apply Hregs; congruence).
        - destruct Hstep as (_ & _ & Hr & Hlen). rewrite Hr in Hs. injection Hs as <-. cbn.
          unfold zlen in *. by rewrite length_map.
        - destruct Hstep as (_ & _ & Hr & _). rewrite Hview in Hr. rewrite Hr in Hs.
          destruct (cs_registers st) as [s0|]; [|done]. injection Hs as <-. unfold zlen.
          rewrite length_snapshot_apply. by apply Hregs. }
      assert (forall id row, cs_strings (cv_state v') !! id = Some row ->
        string_row (ds_output d ++ [typed]) row) as Hnew.
      { intros id row Hrow. unfold strings_step in Hstr. rewrite Hview in Hstr.
        destruct Hstr as [Heq|(id' & e & value & [= <-] & Hval & Hlen & Heq)]; rewrite Heq in Hrow.
        - apply string_row_app. by eapply Hrows.
        - destruct (decide (id' = id)) as [<-|Hne].
          + rewrite lookup_insert_eq in Hrow. injection Hrow as <-. exists typed, value.
            split; [|done]. by apply list_lookup_middle.
          + rewrite lookup_insert_ne in Hrow by done. apply string_row_app. by eapply Hrows. }
      apply wp_bind.
      assert (wp (W := W) (note_registers i x) (fun _ d' => ds_states d' = ds_states (ds_set_view i v' d)
        /\ ds_output d' = ds_output d) refused (ds_set_view i v' d)) as Hnote.
      { apply wp_bind, wp_get. unfold ds_state. rewrite Hget. cbn [default from_option id].
        destruct (cs_registers (cv_state v')) as [s|] eqn:Hs; [|by apply wp_ret].
        destruct (ds_final_state _ !! _) as [[last values]|].
        - case_match; [by apply wp_modify|by apply wp_ret].
        - apply wp_bind. unfold clone_snapshot. apply wp_bind, wp_reserve_still. intros _.
          apply wp_option. unfold snapshot_new. rewrite (Hregs' s eq_refl), Z.eqb_refl. by apply wp_modify. }
      eapply wp_mono; [exact Hnote| |done]. intros [] d2 [Hs2 Ho2]. apply wp_bind.
      destruct (ev_provenance typed); (apply wp_modify || apply wp_ret); apply wp_modify; by eapply Hpush.
    + apply wp_ret. unfold strings_step in Hstr. rewrite Hview in Hstr.
      destruct Hstr as [Heq|(id' & e & value & [=] & _)]. by apply Hsame.
  - intros e v' [_ [Hstr Hctl]]. rewrite Hview in Hstr. specialize (Hsame v' Hstr).
    destruct e as [original|error]; [|by apply wp_throw].
    apply wp_bind. destruct (oo_record_type original =? 9).
    + apply wp_bind, wp_modify, wp_bind, wp_modify, wp_modify, wp_bind, wp_modify, wp_modify.
      auto 8 with qtrace.
    + apply wp_ret, wp_bind, wp_modify, wp_modify. auto 6 with qtrace.
Qed.

Lemma wp_safe_chunk i identity x st d :
  safe d -> ds_states d !! i = Some st -> key_ok (rx_key x) ->
  (forall s, cs_registers st = Some s -> zlen (rs_values s) = REGISTER_SLOT_COUNT) ->
  wp (W := W) (chunk_turn i identity superblock x) (fun _ d' => safe d') refused d.
Proof.
  intros Hd Hst Hkey Hregs. apply wp_bind, wp_get, wp_bind, wp_option. rewrite Hst.
  destruct (cs_prefix (ds_state i d)); [by apply wp_safe_begin| | |by apply wp_safe_broken];
    destruct (is_record (rx_raw x) 9 1); try (by eapply wp_safe_record); try (by apply wp_safe_break).
  apply wp_bind, wp_modify, wp_bind, wp_modify, wp_bind, wp_modify, wp_bind, wp_modify, wp_modify.
  auto 10 with qtrace.
Qed.

(** The one failure that is not a resource: an emergency cell whose kind has no
    event, or whose payload is not that of a cell. *)
Definition emergency_rejected (p : PhysicalFlight) (e : ProviderError) : Prop :=
  chunk_of superblock (ek_source_offset (ph_key p)) = None
  /\ rg_offset (sb_emergencies superblock) <= ek_source_offset (ph_key p) < rg_end (sb_emergencies superblock)
  /\ pe_code e = "source.flight.payload".

Lemma wp_safe_turn before position p d :
  safe d -> loop_ok superblock chunks before d -> key_ok (ph_key p) ->
  wp (W := W) (decode_turn superblock chunks position p) (fun _ d' => safe d')
    (fun e _ => resource_error e \/ emergency_rejected p e) d.
Proof.
  intros Hd Hok Hkey. unfold decode_turn. apply wp_bind. eapply wp_mono; [apply wp_fragment_checkpoint|..].
  2:{ intros a s' Hs. exact Hs. }
  2:{ intros e s' He. by left. }
  cbv zeta. change (rx_offset (record_context p)) with (ek_source_offset (ph_key p)).
  destruct (chunk_index superblock (ek_source_offset (ph_key p))) as [j|] eqn:Hj.
  - destruct (chunks !! Z.to_nat j) as [[chunk|]|] eqn:Hc; cbn [mjoin option_join];
      [|apply wp_modify; auto with qtrace..].
    destruct (lookup_lt_is_Some_2 (ds_states d) (Z.to_nat j)) as [st Hst].
    { rewrite (lo_length _ _ _ _ Hok). by eapply lookup_lt_Some. }
    eapply wp_mono; [apply (wp_safe_chunk _ _ _ st); [done|done|exact Hkey|]|done|].
    + intros s Hs. by apply (chunk_run_registers _ (abstract st) s (lo_runs _ _ _ _ Hok _ _ _ Hc Hst)).
    + intros e s' He. by left.
  - destruct (Z.leb_spec (rg_offset (sb_emergencies superblock)) (ek_source_offset (ph_key p)));
      destruct (Z.ltb_spec (ek_source_offset (ph_key p)) (rg_end (sb_emergencies superblock)));
      cbn [andb]; try (apply wp_modify; auto with qtrace).
    assert (forall e, pe_code e = "source.flight.payload" -> emergency_rejected p e) as Hrej.
    { intros e He. split; [unfold chunk_of; by rewrite Hj|]. split; [lia|done]. }
    assert (throws (W := W) (S := EventCursor) (fun e => resource_error e \/ pe_code e = "source.flight.payload")
      read_emergency_words) as Hwords.
    { unfold read_emergency_words, ec_u32, ec_u64, ec_take. repeat throws_step ltac:(by right). }
    unfold emergency_turn, decode_emergency. apply wp_bind, wp_bind, wp_fail_if; [intros _|intros _; right; by apply Hrej].
    apply wp_bind, wp_local.
    apply (wp_throws (fun e => resource_error e \/ pe_code e = "source.flight.payload")); [|exact Hwords|].
    2:{ intros e s' [He|He]; [by left|right; by apply Hrej]. }
    intros w. destruct (read_emergency_words _ w) as [[[words|e] ?] ?]; [|done].
    apply wp_bind, wp_option. destruct (emergency_payload words) as [payload|]; [|right; by apply Hrej].
    apply wp_ret, wp_bind, wp_modify, wp_modify, safe_push.
    apply (safe_same d); [by destruct payload|by destruct payload|exact Hd].
Qed.

Lemma wp_safe_records physical d :
  safe d -> loop_ok superblock chunks [] d -> Forall (fun p => key_ok (ph_key p)) physical ->
  wp (W := W) (decode_records physical superblock chunks)
    (fun _ d' => safe d' /\ loop_ok superblock chunks physical d')
    (fun e _ => resource_error e \/ exists p, p ∈ physical /\ emergency_rejected p e) d.
Proof.
  intros Hd Hok Hkeys. unfold decode_records.
  apply (wp_fold_over (fun before _ d' => safe d' /\ loop_ok superblock chunks before d')); [done|].
  intros before p after [] d' Hsplit [Hsafe Hloop].
  assert (p ∈ physical) as Hin by (rewrite Hsplit; set_solver).
  pose proof (proj1 (Forall_forall _ _) Hkeys p Hin) as Hkey. cbn beta in Hkey.
  eapply wp_mono; [apply wp_conj; [by apply (wp_safe_turn before)|by apply wp_decode_turn]|..]; cbv beta.
  - intros [] d2 [? ?]. done.
  - intros e d2 [[He|He] _]; [by left|right; by exists p].
Qed.

End stops.

(** ** The loop from its first record *)

(** The locals of [decode] before the loop. *)
Definition start_state (chunks : list (option ChunkIdentity)) : DecodeState :=
  mkDecodeState (replicate (length chunks) ChunkState_default) [] [] ∅ [] None [] [].

Lemma safe_start chunks : safe chunks (start_state chunks).
Proof.
  split; [apply length_replicate|]. intros i st [-> _]%lookup_replicate id row. cbn. by rewrite lookup_empty.
Qed.

(** C14: the register files of a decoded artifact are replays.  Whatever the guard
    and the heap, the main loop either stops on a refused resource or on an
    emergency cell it cannot decode, or every chunk has followed the prefix
    machine (a begin record, a checkpoint, then the records until the register
    stream breaks, after which every record is damaged and no registers are
    kept): a chunk that is still ready emitted its begin record and its
    checkpoint first and holds that checkpoint with all later deltas applied in
    order, and the register file kept for a thread is the one some chunk had
    right after the record of that thread and sequence number. *)
Theorem chunks_replayed (W : Type) (G : WorkGuard W) (A : Allocator W) (superblock : Superblock)
    (chunks : list (option ChunkIdentity)) (physical : list PhysicalFlight) (w : W)
    (Hkeys : Forall (fun p => key_ok (ph_key p)) physical) :
  match decode_records physical superblock chunks (start_state chunks) w with
  | (Ok _, d, _) =>
      (forall i chunk, chunks !! i = Some (Some chunk) ->
         exists st, ds_states d !! i = Some st
           /\ chunk_run (events_of superblock i (ds_output d)) (abstract st)
           /\ run_shape (events_of superblock i (ds_output d)) (abstract st))
      /\ (forall tid sequence s, ds_final_state d !! tid = Some (sequence, s) ->
            replayed superblock (ds_output d) tid sequence s)
  | (Err e, _, _) => resource_error e \/ exists p, p ∈ physical /\ emergency_rejected superblock p e
  end.
Proof.
  pose proof (wp_safe_records superblock chunks physical (start_state chunks) (safe_start chunks)
    (loop_ok_start superblock chunks) Hkeys w) as Hrun.
  destruct (decode_records _ _ _ _ w) as [[[[]|e] d] w']; [|done].
  destruct Hrun as [_ [Hl Hv Hr Hf _]]. split; [|exact Hf]. intros i chunk Hc.
  destruct (lookup_lt_is_Some_2 (ds_states d) i) as [st Hst].
  { rewrite Hl. by eapply lookup_lt_Some. }
  exists st. pose proof (Hr i chunk st Hc Hst). split_and!; [done..|by apply chunk_run_shape].
Qed.

(** A chunk of three records: begin, checkpoint, delta. *)
Definition sample_record (index kind flags : Z) (payload : bytes) : PhysicalFlight :=
  mkPhysicalFlight (mkEventKey [] 0 index (8256 + 512 * index) (Some (index + 1)) (Some 77))
    (FlightChunkScope 0 3 77) (mkOpaque kind flags payload).
Definition sample_zeros : RegisterSnapshot := mkSnapshot (replicate 34 0).
Definition sample_seven : RegisterSnapshot := mkSnapshot (<[5%nat := 7]> (replicate 34 0)).
Definition sample_physical : list PhysicalFlight :=
  [sample_record 0 1 0 (map byte_of_Z [0; 8; 0; 0; 0; 0; 0; 0] ++ le_bytes 4 1 ++ le_bytes 4 77
     ++ le_bytes 8 4096 ++ le_bytes 8 16 ++ le_bytes 8 4112);
   sample_record 1 9 1 (replicate 272 x00);
   sample_record 2 9 0 (encode_delta sample_zeros sample_seven)].

Lemma sample_keys : Forall (fun p => key_ok (ph_key p)) sample_physical.
Proof. repeat constructor; cbn; unfold u64_max; try lia; eexists; (split; [reflexivity|lia]). Qed.

Lemma chunks_replayed_witness :
  exists d, decode_records (W := unit) sample_physical sample_superblock sample_identities
      (start_state sample_identities) tt = (Ok tt, d, tt)
    /\ map abstract (ds_states d) = [(Ready, Some sample_seven); (ExpectBegin, None)]
    /\ ds_final_state d !! 77 = Some (3, sample_seven)
    /\ replayed sample_superblock (ds_output d) 77 3 sample_seven.
Proof.
  pose proof (chunks_replayed unit _ _ sample_superblock sample_identities sample_physical tt sample_keys) as Hc.
  assert (exists d, decode_records (W := unit) sample_physical sample_superblock sample_identities
      (start_state sample_identities) tt = (Ok tt, d, tt)
    /\ map abstract (ds_states d) = [(Ready, Some sample_seven); (ExpectBegin, None)]
    /\ ds_final_state d !! 77 = Some (3, sample_seven)) as (d & Hd & Hs & Hf)
    by (eexists; split; [|split]; vm_compute; reflexivity).
  rewrite Hd in Hc. exists d. split_and!; [done..|]. by apply (proj2 Hc).
Defined.
