(* ===== verification/FlightResult.v ===== *)
(** * The result of decoding a Flight artifact

    The whole of [decode]: the passes before the loop never fail on their own,
    the loop and the fragments account for every record, and the passes after
    it only order the events and name the source of signal program counters. *)

From stdpp Require Import prelude list sorting strings gmap.
From Stdlib Require Import ZArith Lia Strings.Byte Sorted.
From S2P Require Import Prelude Prog Control Model Source QtrbEvents FlightWire FlightContext FlightScan FlightSort FlightPayload FlightRegisters FlightFragments FlightEvents FlightDecode Throws FlightAccount.
Local Open Scope string_scope.
Local Open Scope list_scope.
Local Open Scope Z_scope.

(** ** Before the loop *)

Section before.
Context {W : Type} `{WorkGuard W} `{Allocator W} {S : Type}.
Implicit Types s : S.
Abbreviation refused := (fun (e : ProviderError) (_ : S) => resource_error e).

(** A table of counters, one per chunk, none above the records counted so far. *)
Definition counters (chunks : Z) (seen : Z) (counts : list Z) : Prop :=
  zlen counts = chunks /\ Forall (fun n => 0 <= n <= seen) counts.

Lemma counters_more chunks seen seen' counts :
  seen <= seen' -> counters chunks seen counts -> counters chunks seen' counts.
Proof.
  intros Hle [Hl Hc]. split; [done|]. eapply Forall_impl; [exact Hc|].
  intros x Hx; cbn beta in *; lia.
Qed.

Lemma wp_bump chunks seen counts index invalid overflow s :
  counters chunks seen counts -> 0 <= index < chunks -> seen < usize_max ->
  wp (W := W) (bump counts (Z.to_nat index) invalid overflow)
    (fun counts' s' => s' = s /\ counters chunks (seen + 1) counts') refused s.
Proof.
  intros [Hl Hc] Hi Hseen. unfold zlen in Hl.
  destruct (lookup_lt_is_Some_2 counts (Z.to_nat index)) as [n Hn]; [lia|].
  pose proof (proj1 (Forall_lookup _ _) Hc _ _ Hn) as Hrange. cbn beta in Hrange.
  apply wp_bind, wp_option. rewrite Hn. apply wp_bind, wp_option. rewrite checked_add_ok by lia.
  apply wp_ret. split; [done|]. split; [unfold zlen; by rewrite length_insert|].
  apply Forall_insert; [|lia]. eapply Forall_impl; [exact Hc|]. intros x Hx; cbn beta in *; lia.
Qed.

(** The chunks tile their region. *)
Definition chunks_tile (superblock : Superblock) (chunks : Z) : Prop :=
  0 < sb_chunk_bytes superblock
  /\ rg_end (sb_chunks superblock) <= rg_offset (sb_chunks superblock) + sb_chunk_bytes superblock * chunks.

Lemma chunk_index_range superblock chunks offset index :
  chunks_tile superblock chunks -> chunk_index superblock offset = Some index -> 0 <= index < chunks.
Proof.
  intros [Hpos Hend]. unfold chunk_index, try_from.
  destruct (Z.ltb_spec offset (rg_offset (sb_chunks superblock))); [done|].
  destruct (Z.leb_spec (rg_end (sb_chunks superblock)) offset); [done|]. cbn [orb].
  destruct (_ <=? _); [|done]. intros [= <-]. split.
  - apply Z.div_pos; lia.
  - apply Z.div_lt_upper_bound; lia.
Qed.

Definition counted (chunks seen : Z) (c : DecodeCounts) : Prop :=
  counters chunks seen (dc_definitions c) /\ counters chunks seen (dc_strings c)
  /\ 0 <= dc_fragments c <= seen.

Lemma wp_count_record superblock chunks seen c position p s :
  chunks_tile superblock chunks -> counted chunks seen c -> seen < usize_max ->
  wp (W := W) (count_record_turn superblock c position p)
    (fun c' s' => s' = s /\ counted chunks (seen + 1) c') refused s.
Proof.
  intros Htile (Hd & Hs & Hf) Hseen. unfold count_record_turn.
  apply wp_bind, wp_fragment_checkpoint, wp_bind.
  assert (forall c1, counted chunks (seen + 1) c1 -> dc_fragments c1 <= seen ->
    wp (W := W) (if semantic_kind (oo_record_type (ph_raw p)) && (oo_flags (ph_raw p) =? 4) then
      let! n := lift_option (checked_add usize_max (dc_fragments c1) 1)
        (events_allocation_error "Flight fragment count overflow") in
      ret (mkDecodeCounts (dc_definitions c1) (dc_strings c1) n) else ret c1)
      (fun c' s' => s' = s /\ counted chunks (seen + 1) c') refused s) as Hend.
  { intros c1 (Hd1 & Hs1 & Hf1) Hle. case_match; [|by apply wp_ret].
    apply wp_bind, wp_option. rewrite checked_add_ok by lia. apply wp_ret. split; [done|].
    split_and!; [done|done|cbn; lia..]. }
  assert (forall b counts invalid overflow index (Q : list Z -> S -> Prop), 0 <= index < chunks ->
    counters chunks seen counts -> (forall counts', counters chunks (seen + 1) counts' -> Q counts' s) ->
    wp (W := W) (if b : bool then bump counts (Z.to_nat index) invalid overflow else ret counts) Q refused s)
    as Hbump.
  { intros [] counts invalid overflow index Q Hi Hc HQ; cbn.
    - eapply wp_mono; [by eapply wp_bump| |done]. intros counts' s' [-> Hc']. by apply HQ.
    - apply wp_ret, HQ. eapply counters_more; [|exact Hc]. lia. }
  destruct (chunk_index superblock (ek_source_offset (ph_key p))) as [index|] eqn:Hi.
  - pose proof (chunk_index_range _ _ _ _ Htile Hi) as Hrange.
    apply wp_bind, Hbump; [done..|]. intros ds Hds. apply wp_bind, Hbump; [done..|]. intros ss Hss.
    apply wp_ret, Hend; [split_and!; [done|done|cbn; lia..]|cbn; lia].
  - apply wp_ret, Hend; [|lia]. split_and!; [eapply counters_more; [|eassumption]; lia..|lia|lia].
Qed.

Lemma wp_count_records superblock chunks physical s :
  0 <= chunks -> chunks_tile superblock chunks -> zlen physical <= usize_max ->
  wp (W := W) (count_records superblock chunks physical)
    (fun c s' => s' = s /\ counted chunks (zlen physical) c) refused s.
Proof.
  intros Hchunks Htile Hlen. unfold count_records.
  apply (wp_fold_indexed (fun before c => counted chunks (zlen before) c)).
  - assert (counters chunks 0 (replicate (Z.to_nat chunks) 0)) as Hzero.
    { split; [unfold zlen; rewrite length_replicate; lia|]. apply Forall_replicate. lia. }
    by split_and!.
  - intros before p after c Hsplit Hc. rewrite zlen_app. apply wp_count_record; [done|done|].
    rewrite Hsplit, zlen_app in Hlen. pose proof (zlen_nonneg after).
    change (zlen (p :: after)) with (Z.of_nat (Datatypes.S (length after))) in Hlen.
    unfold zlen in *. lia.
Qed.

Lemma wp_initialize_states definitions strings s :
  zlen definitions = zlen strings ->
  wp (W := W) (initialize_states definitions strings)
    (fun states s' => s' = s /\ states = replicate (length definitions) ChunkState_default) refused s.
Proof.
  intros Hlen. unfold initialize_states. apply wp_bind, wp_fail_if.
  2:{ rewrite Hlen, Z.eqb_refl. done. }
  intros _. apply wp_bind, wp_reserve_still. intros _.
  assert (length (imap pair (zip definitions strings)) = length definitions) as Hn.
  { rewrite length_imap, length_zip_with_l; [done|]. unfold zlen in Hlen. lia. }
  rewrite <- Hn. eapply wp_mono; [apply (wp_for_each _ _ (fun before out s' => s' = s
    /\ out = replicate (length before) ChunkState_default) refused)|..]; [done| |done|done].
  intros before [index [d t]] out s' [-> ->] _. apply wp_bind, wp_fragment_checkpoint.
  apply wp_bind, wp_reserve_map; [apply _| |done]. apply wp_bind, wp_reserve_map; [apply _| |done].
  apply wp_ret. split; [done|]. rewrite length_app, Nat.add_1_r. symmetry. apply replicate_S_end.
Qed.

End before.

(** ** After the loop *)

(** Two events that differ at most in where a signal's program counter comes from. *)
Definition unsourced (payload : EventPayload) : EventPayload :=
  match payload with
  | PSignal s => PSignal (set_signal_source PcUnknown s)
  | PSignalHandlerBoundary b => PSignalHandlerBoundary (set_boundary_source PcUnknown b)
  | other => other
  end.
Definition same_but_source (e e' : EventRecord) : Prop :=
  ev_key e' = ev_key e /\ ev_provenance e' = ev_provenance e /\ ev_scope e' = ev_scope e
  /\ ev_fragment_source_offsets e' = ev_fragment_source_offsets e
  /\ unsourced (ev_payload e') = unsourced (ev_payload e).

Lemma same_but_source_refl e : same_but_source e e.
Proof. by split_and!. Qed.

Section after.
Context {W : Type} `{WorkGuard W} `{Allocator W} {S : Type}.
Implicit Types s : S.
Abbreviation refused := (fun (e : ProviderError) (_ : S) => resource_error e).

Lemma wp_policy_turn output policies i e s :
  wp (W := W) (policy_turn (output, policies) (i, e))
    (fun acc s' => s' = s /\ exists e', fst acc = output ++ [e'] /\ same_but_source e e') refused s.
Proof.
  pose proof (same_but_source_refl e) as Hrefl.
  assert (forall policies' : gmap Z bool, wp (W := W) (ret (output ++ [e], policies'))
    (fun acc s' => s' = s /\ exists e', fst acc = output ++ [e'] /\ same_but_source e e') refused s) as Hkeep.
  { intros policies'. apply wp_ret. split; [done|]. by exists e. }
  unfold policy_turn. apply wp_bind, wp_fragment_checkpoint. cbv zeta.
  destruct (ev_payload e) eqn:Hp; try apply Hkeep.
  all: repeat case_match; try apply Hkeep.
  all: try (apply wp_bind; (apply wp_ret || (apply wp_reserve_map; [apply _| |done])); apply Hkeep).
  all: apply wp_ret; (split; [done|]); eexists; (split; [done|]); unfold same_but_source; cbn; by rewrite Hp.
Qed.

Lemma wp_apply_policies events s :
  wp (W := W) (apply_policies events)
    (fun output s' => s' = s /\ Forall2 same_but_source events output) refused s.
Proof.
  apply wp_bind. eapply wp_mono; [apply (wp_fold_indexed
    (fun before acc => Forall2 same_but_source before (fst acc)) _ _ _ refused)|..]; [constructor| | |done].
  - intros before e after [output policies] _ Hacc. eapply wp_mono; [apply wp_policy_turn| |done].
    intros [output' policies'] s' (-> & e' & Ho & He). split; [done|]. cbn in *. subst output'.
    apply Forall2_app; [done|]. constructor; [done|constructor].
  - intros acc s' [-> Hacc]. by apply wp_ret.
Qed.

Lemma wp_index_checkpoint i (Q : unit -> S -> Prop) s :
  Q tt s -> wp (W := W) (checkpoint i) Q refused s.
Proof. intros HQ. unfold checkpoint. case_match; [by apply wp_consume|by apply wp_ret]. Qed.

(** Sorting the program counters never fails on its own. *)
Lemma wp_sort_counters values s :
  wp (W := W) (guarded_sort_u64 values) (fun _ s' => s' = s) refused s.
Proof.
  unfold guarded_sort_u64. apply wp_bind, wp_radix_sort; [intros; apply le_byte_range| |done].
  set (sorted := stable_sort _ _). apply wp_bind. eapply wp_mono; [apply (wp_fold_plain
    (fun before buffer s' => s' = s /\ length (fst buffer) = length sorted
       /\ (snd buffer <= length before)%nat) _ _ _ refused)|..]; [split_and!; done + lia| | |done].
  - intros before index after [vs retained] s' Hsplit (-> & Hl & Hr). cbn [fst snd] in Hl, Hr.
    assert (index = length before /\ length before < length sorted)%nat as [-> Hlt].
    { assert (seq 0 (length sorted) !! length before = Some index) as Hi
        by (rewrite Hsplit; by apply list_lookup_middle). apply lookup_seq in Hi. lia. }
    assert (forall i (Q : Z -> S -> Prop), (i < length vs)%nat -> (forall v, Q v s) ->
      wp (W := W) (at_index vs i) Q refused s) as Hat.
    { intros i Q Hi HQ. unfold at_index. apply wp_option.
      destruct (lookup_lt_is_Some_2 vs i Hi) as [v ->]. apply HQ. }
    unfold retain_step. apply wp_bind, wp_index_checkpoint.
    apply wp_bind, Hat; [lia|]. intros value. apply wp_bind.
    assert (forall fresh : bool, wp (W := W) (if fresh then
        let! vs := lift_option (store vs retained value) sort_panic in ret (vs, (retained + 1)%nat)
      else ret (vs, retained))
      (fun buffer s' => s' = s /\ length (fst buffer) = length sorted
         /\ (snd buffer <= length (before ++ [length before]))%nat) refused s) as Hrest.
    { intros []; rewrite length_app; cbn [length]; [|apply wp_ret; cbn; split_and!; done + lia].
      apply wp_bind, wp_option. unfold store. rewrite decide_True by lia. apply wp_ret. cbn.
      rewrite length_insert. split_and!; done + lia. }
    destruct (retained =? 0)%nat eqn:Hz; [apply wp_ret, (Hrest true)|].
    apply wp_bind, Hat; [apply Nat.eqb_neq in Hz; lia|]. intros v. apply wp_ret, (Hrest (negb _)).
  - intros buffer s' (-> & _). by apply wp_ret.
Qed.

Lemma wp_finalize_registers {HO : HashOrder} states s :
  wp (W := W) (finalize_registers states) (fun out s' => s' = s /\ out = snd <$> states) refused s.
Proof.
  unfold finalize_registers. apply wp_bind, wp_consume; [|done].
  apply wp_bind, wp_reserve_map; [apply _| |done].
  set (entries := hash_iter FinalState states).
  assert (entries ≡ₚ map_to_list states) as Hperm by apply hash_iter_entries.
  assert (NoDup (map fst entries)) as Hnodup
    by (rewrite (fmap_Permutation fst _ _ Hperm); apply NoDup_fst_map_to_list).
  eapply wp_mono; [apply (wp_fold_indexed (fun before (out : gmap Z RegisterSnapshot) =>
    forall tid state, out !! tid = Some state <-> exists sequence, (tid, (sequence, state)) ∈ before)
    _ _ _ refused)|..]; [| | |done].
  - intros tid state. rewrite lookup_empty. set_solver.
  - intros before [tid [sequence state]] after out Hsplit Hout. apply wp_bind, wp_fragment_checkpoint, wp_ret.
    split; [done|]. rewrite Hsplit, map_app in Hnodup. apply NoDup_app in Hnodup as (_ & Hfresh & _).
    assert (forall q st, (tid, (q, st)) ∉ before) as Hno.
    { intros q st Hin. apply (Hfresh tid); [|left]. apply list_elem_of_fmap. by exists (tid, (q, st)). }
    intros tid' state'. destruct (decide (tid = tid')) as [<-|Hne].
    + rewrite lookup_insert_eq. set_solver.
    + rewrite lookup_insert_ne, Hout by done. set_solver.
  - intros out s' [-> Hout]. split; [done|]. apply map_eq. intros tid. apply option_eq. intros state.
    rewrite Hout, lookup_fmap_Some. setoid_rewrite Hperm. setoid_rewrite elem_of_map_to_list.
    split; [intros [q Hq]; by exists (q, state)|intros ([q st] & <- & Hq); by exists q].
Qed.

End after.

(** ** The account of an artifact *)

(** What the fragments of the groups that are not whole add to the damage. *)
Definition lost_fragments (pending : list Fragment) (verdicts : list ((Z * Z * Z) * option EventRecord)) :
    list Fragment :=
  concat (map (fun v => match snd v with Some _ => [] | None => group_of (fst v) pending end) verdicts).

Lemma mark_all_group group sink :
  Forall fragment_ok group ->
  mark_all (evidence_of_group group) sink
  = mkFragmentSink (fs_output sink) (fs_damaged sink ++ map fragment_sequence group)
      (fs_damaged_offsets sink ++ map fragment_offset group).
Proof.
  unfold mark_all, evidence_of_group. revert sink. induction group as [|f group IH]; intros sink Hok; cbn.
  - rewrite !app_nil_r. by destruct sink.
  - apply Forall_cons in Hok as [Hf Hok]. rewrite IH by done. cbn.
    destruct (fo_sequence f Hf) as (q & Hq & _). unfold fragment_sequence at 2. rewrite Hq. cbn.
    by rewrite <- !app_assoc.
Qed.

Lemma settle_all pending verdicts sink :
  Forall fragment_ok pending ->
  foldl (settle pending) sink verdicts
  = mkFragmentSink (fs_output sink ++ omap snd verdicts)
      (fs_damaged sink ++ map fragment_sequence (lost_fragments pending verdicts))
      (fs_damaged_offsets sink ++ map fragment_offset (lost_fragments pending verdicts)).
Proof.
  intros Hok. unfold lost_fragments. revert sink.
  induction verdicts as [|[key outcome] verdicts IH]; intros sink; cbn.
  - rewrite !app_nil_r. by destruct sink.
  - rewrite IH. unfold settle. cbn. destruct outcome as [e|]; cbn.
    + by rewrite <- !app_assoc.
    + rewrite mark_all_group. 2:{ apply Forall_forall. intros f [_ Hf]%list_elem_of_filter.
        by apply (proj1 (Forall_forall _ _) Hok). }
      cbn. by rewrite !map_app, <- !app_assoc.
Qed.

(** [decode] turned these records into this result. *)
Record decoded_from (artifact : ArtifactDigest) (superblock : Superblock)
    (chunks : list (option ChunkIdentity)) (physical : list PhysicalFlight) (out : DecodedFlight)
    (fates : list fate) (verdicts : list ((Z * Z * Z) * option EventRecord)) : Prop := mkDecodedFrom {
  dd_fates : Forall2 fate_ok physical fates;
  dd_groups : NoDup (map fst verdicts) /\ forall key, key ∈ map fst verdicts
    <-> exists f, f ∈ omap pending fates /\ group_key f = key;
  dd_verdicts : Forall (verdict_ok artifact superblock chunks (omap pending fates)) verdicts;
  dd_events : Forall2 same_but_source
    (stable_sort event_sequence (omap emitted fates ++ omap snd verdicts)) (df_events out);
  dd_sequences : df_damaged_sequences out
    = concat (map (fun e => damage_of e (event_sequence e)) (omap emitted fates))
      ++ map fragment_sequence (lost_fragments (omap pending fates) verdicts);
  dd_offsets : df_damaged_source_offsets out
    = concat (map (fun e => damage_of e (event_offset e)) (omap emitted fates))
      ++ map fragment_offset (lost_fragments (omap pending fates) verdicts);
  dd_registers : forall tid state, df_final_registers out !! tid = Some state ->
    exists sequence, replayed superblock (omap emitted fates) tid sequence state
}.

(** Where a record is found in the result. *)
Definition recorded (out : DecodedFlight) (p : PhysicalFlight) : Prop :=
  (exists e, e ∈ df_events out /\ ev_key e = ph_key p)
  \/ (exists e, e ∈ df_events out /\ ek_source_offset (ph_key p) ∈ ev_fragment_source_offsets e)
  \/ (ek_source_offset (ph_key p) ∈ df_damaged_source_offsets out
      /\ default 0 (ek_sequence (ph_key p)) ∈ df_damaged_sequences out).

Section account.
Context (artifact : ArtifactDigest) (superblock : Superblock) (chunks : list (option ChunkIdentity)).
Context (physical : list PhysicalFlight) (out : DecodedFlight).
Context (fates : list fate) (verdicts : list ((Z * Z * Z) * option EventRecord)).
Hypothesis Hfrom : decoded_from artifact superblock chunks physical out fates verdicts.

Lemma event_survives e :
  e ∈ omap emitted fates ++ omap snd verdicts -> exists e', e' ∈ df_events out /\ same_but_source e e'.
Proof.
  intros He. rewrite <- (stable_sort_perm event_sequence) in He.
  apply list_elem_of_lookup in He as [i Hi].
  destruct (Forall2_lookup_l _ _ _ _ _ (dd_events _ _ _ _ _ _ _ Hfrom) Hi) as (e' & Hi' & Hs).
  exists e'. split; [by eapply list_elem_of_lookup_2|done].
Qed.

Lemma all_recorded : Forall (recorded out) physical.
Proof.
  destruct Hfrom as [Hfates [_ Hgroups] Hverdicts _ Hseq Hoff _]. apply Forall_lookup. intros i p Hp.
  destruct (Forall2_lookup_l _ _ _ _ _ Hfates Hp) as (fate & Hfate & Hok).
  apply list_elem_of_lookup_2 in Hfate. destruct fate as [e|f]; destruct Hok as [Hkey Hrest].
  - left. destruct (event_survives e) as (e' & He' & Hs).
    { apply elem_of_app. left. apply list_elem_of_omap. by exists (Emitted e). }
    exists e'. split; [done|]. by rewrite (proj1 Hs).
  - assert (f ∈ omap pending fates) as Hf by (apply list_elem_of_omap; by exists (Pending f)).
    assert (group_key f ∈ map fst verdicts) as Hv by (apply Hgroups; by exists f).
    apply list_elem_of_fmap in Hv as ([key outcome] & Hk & Hv). cbn in Hk.
    assert (f ∈ group_of key (omap pending fates)) as Hin by (apply list_elem_of_filter; by split).
    pose proof (proj1 (Forall_forall _ _) Hverdicts _ Hv) as Hverdict.
    destruct key as [[tid id] kind]. destruct outcome as [e|].
    + right. left. destruct Hverdict as (ordered & Hwhole & [_ _ _ [_ Hoffs] _]).
      destruct (event_survives e) as (e' & He' & _ & _ & _ & Hsame & _).
      { apply elem_of_app. right. apply list_elem_of_omap. by exists ((tid, id, kind), Some e). }
      exists e'. split; [done|]. rewrite Hsame, <- Hkey. apply Hoffs, list_elem_of_fmap.
      exists f. split; [done|]. by rewrite (wh_members _ _ _ _ _ Hwhole).
    + right. right. rewrite Hseq, Hoff, <- Hkey.
      assert (f ∈ lost_fragments (omap pending fates) verdicts) as Hlost.
      { apply list_elem_of_In, in_concat. exists (group_of (tid, id, kind) (omap pending fates)).
        split; [|by apply list_elem_of_In]. apply in_map_iff. exists ((tid, id, kind), None).
        split; [done|by apply list_elem_of_In]. }
      split; apply elem_of_app; right; apply list_elem_of_fmap; by exists f.
Qed.

Lemma decoded_ordered : StronglySorted (fun e e' => event_sequence e <= event_sequence e') (df_events out).
Proof.
  pose proof (stable_sort_sorted event_sequence (omap emitted fates ++ omap snd verdicts)) as Hs.
  pose proof (dd_events _ _ _ _ _ _ _ Hfrom) as Hf. revert Hs Hf.
  generalize (stable_sort event_sequence (omap emitted fates ++ omap snd verdicts)). intros l Hs Hf.
  assert (forall e e', same_but_source e e' -> event_sequence e' = event_sequence e) as Heq.
  { intros e e' [Hk _]. unfold event_sequence. by rewrite Hk. }
  induction Hf as [|e e' l l' He Hl IH]; [constructor|]. apply StronglySorted_inv in Hs as [Hs Hall].
  constructor; [by apply IH|]. clear IH Hs. induction Hl as [|x x' l l' Hx Hl IH]; [constructor|].
  apply Forall_cons in Hall as [Hxe Hall]. constructor; [|by apply IH].
  cbn beta in *. by rewrite (Heq _ _ He), (Heq _ _ Hx).
Qed.

(** Every event comes from a record, or joins the fragments it names. *)
Lemma none_invented :
  Forall (fun e => (exists p, p ∈ physical /\ ev_key e = ph_key p /\ ev_fragment_source_offsets e = [])
    \/ (forall o, o ∈ ev_fragment_source_offsets e ->
         exists p, p ∈ physical /\ ek_source_offset (ph_key p) = o)) (df_events out).
Proof.
  destruct Hfrom as [Hfates _ Hverdicts Hevents _ _ _]. apply Forall_lookup. intros i e' Hi.
  destruct (Forall2_lookup_r _ _ _ _ _ Hevents Hi) as (e & He & Hk & _ & _ & Hoffs & _).
  apply list_elem_of_lookup_2 in He. rewrite stable_sort_perm in He. rewrite Hk, Hoffs.
  assert (forall fate, fate ∈ fates -> exists p, p ∈ physical /\ fate_ok p fate) as Hback.
  { intros fate [j Hj]%list_elem_of_lookup.
    destruct (Forall2_lookup_r _ _ _ _ _ Hfates Hj) as (p & Hp & Hok).
    exists p. split; [by eapply list_elem_of_lookup_2|done]. }
  apply elem_of_app in He as [He|He]; apply list_elem_of_omap in He.
  - left. destruct He as ([e1|] & Hin & [= ->]). destruct (Hback _ Hin) as (p & Hp & Hkey & Ho). by exists p.
  - right. destruct He as ([[[tid id] kind] [e1|]] & Hin & [= ->]).
    destruct (proj1 (Forall_forall _ _) Hverdicts _ Hin) as (ordered & Hwhole & [_ _ _ [_ Hos] _]).
    intros o [f [-> Hf]]%Hos%list_elem_of_fmap. rewrite (wh_members _ _ _ _ _ Hwhole) in Hf.
    apply list_elem_of_filter in Hf as [_ Hf]. apply list_elem_of_omap in Hf as ([|f1] & Hf1 & [= ->]).
    destruct (Hback _ Hf1) as (p & Hp & Hkey & _). exists p. split; [done|]. unfold fragment_offset. by rewrite Hkey.
Qed.

End account.

(** ** The theorem *)

Lemma radix_key_event p e :
  radix_key event_key_byte p e = radix_key le_byte p (event_sequence e).
Proof. induction p as [|p IH]; [done|]. cbn. by rewrite IH. Qed.

Section decode_rule.
Context {W : Type} `{WorkGuard W} `{Allocator W} {HO : HashOrder} {S : Type}.
Context (artifact : ArtifactDigest) (superblock : Superblock) (chunks : list (option ChunkIdentity)).
Context (physical : list PhysicalFlight).
Hypothesis Hkeys : Forall (fun p => key_ok (ph_key p)) physical.
Hypothesis Hsequences : Forall (fun p => in_u64 (default 0 (ek_sequence (ph_key p)))) physical.
Hypothesis Htile : chunks_tile superblock (zlen chunks).
Hypothesis Hlen : zlen physical <= usize_max.

Definition stopped (e : ProviderError) : Prop :=
  resource_error e \/ exists p, p ∈ physical /\ emergency_rejected superblock p e.

(** The loop and the fragments, from the first record. *)
Lemma wp_decode_loop :
  wp (W := W) (decode_loop physical superblock chunks artifact)
    (fun d _ => exists fates verdicts, Forall2 fate_ok physical fates
       /\ (NoDup (map fst verdicts) /\ forall key, key ∈ map fst verdicts
             <-> exists f, f ∈ omap pending fates /\ group_key f = key)
       /\ Forall (verdict_ok artifact superblock chunks (omap pending fates)) verdicts
       /\ ds_output d = omap emitted fates ++ omap snd verdicts
       /\ ds_damaged_sequences d
          = concat (map (fun e => damage_of e (event_sequence e)) (omap emitted fates))
            ++ map fragment_sequence (lost_fragments (omap pending fates) verdicts)
       /\ ds_damaged_source_offsets d
          = concat (map (fun e => damage_of e (event_offset e)) (omap emitted fates))
            ++ map fragment_offset (lost_fragments (omap pending fates) verdicts)
       /\ forall tid sequence state, ds_final_state d !! tid = Some (sequence, state) ->
            replayed superblock (omap emitted fates) tid sequence state)
    (fun e _ => stopped e) (start_state chunks).
Proof.
  apply wp_bind. eapply wp_mono; [by apply wp_safe_records; [apply safe_start|apply loop_ok_start|]| |].
  2:{ intros e d He. exact He. }
  intros [] d [_ [_ _ _ Hfinal (fates & Hfates & Hout & Hpend & Hseq & Hoff)]].
  assert (Forall fragment_ok (omap pending fates)) as Hok.
  { apply Forall_forall. intros f ([|f1] & Hin & [= ->])%list_elem_of_omap.
    apply list_elem_of_lookup in Hin as [i Hi].
    by destruct (Forall2_lookup_r _ _ _ _ _ Hfates Hi) as (p & _ & _ & Hf). }
  assert (zlen (omap pending fates) <= usize_max) as Hpl.
  { etransitivity; [|exact Hlen]. unfold zlen. rewrite (Forall2_length _ _ _ Hfates). apply Nat2Z.inj_le.
    clear. induction fates as [|[e|f] fates IH]; cbn; lia. }
  apply wp_bind, wp_bind, wp_get, wp_zoom. rewrite Hpend.
  eapply wp_mono; [by apply wp_finish_fragments| |].
  2:{ intros e sink He. by left. }
  intros [] sink (verdicts & Hnd & Hkeys' & Hv & ->). apply wp_get.
  rewrite settle_all by done. exists fates, verdicts. cbn. rewrite Hout in Hseq, Hoff, Hfinal.
  rewrite Hout, Hseq, Hoff. by split_and!.
Qed.

(** The events of an account keep the sequence numbers of the records. *)
Lemma account_sequences fates verdicts e :
  Forall2 fate_ok physical fates ->
  Forall (verdict_ok artifact superblock chunks (omap pending fates)) verdicts ->
  e ∈ omap emitted fates ++ omap snd verdicts -> in_u64 (event_sequence e).
Proof.
  intros Hfates Hverdicts He.
  assert (forall fate, fate ∈ fates -> exists p, fate_ok p fate /\ in_u64 (default 0 (ek_sequence (ph_key p)))) as Hback.
  { intros fate [j Hj]%list_elem_of_lookup.
    destruct (Forall2_lookup_r _ _ _ _ _ Hfates Hj) as (p & Hp & Hok).
    exists p. split; [done|]. by apply (proj1 (Forall_lookup _ _) Hsequences _ _ Hp). }
  apply elem_of_app in He as [He|He]; apply list_elem_of_omap in He.
  - destruct He as ([e1|] & Hin & [= ->]). destruct (Hback _ Hin) as (p & [Hk _] & Hp).
    unfold event_sequence. by rewrite Hk.
  - destruct He as ([[[tid id] kind] [e1|]] & Hin & [= ->]).
    destruct (proj1 (Forall_forall _ _) Hverdicts _ Hin) as (ordered & Hwhole & [_ _ _ _ (_ & _ & _ & Hq & _)]).
    unfold event_sequence. rewrite Hq. destruct (last ordered) as [f|] eqn:Hlast; [|by split].
    assert (f ∈ ordered) as Hf.
    { rewrite last_lookup in Hlast. by eapply list_elem_of_lookup_2. }
    rewrite (wh_members _ _ _ _ _ Hwhole) in Hf. apply list_elem_of_filter in Hf as [_ Hf].
    apply list_elem_of_omap in Hf as ([|f1] & Hf1 & [= ->]). destruct (Hback _ Hf1) as (p & [Hk _] & Hp).
    cbn. unfold fragment_sequence. by rewrite Hk.
Qed.

(** A pass that leaves the receiver alone and fails only on a refused resource. *)
Lemma wp_pass {X Y} (p : Prog W ProviderError S X) (k : X -> Prog W ProviderError S Y) (P : X -> Prop)
    (Q : Y -> S -> Prop) s :
  wp p (fun a s' => s' = s /\ P a) (fun e _ => resource_error e) s ->
  (forall a, P a -> wp (k a) Q (fun e _ => stopped e) s) -> wp (bind p k) Q (fun e _ => stopped e) s.
Proof.
  intros Hp Hk. apply wp_bind. eapply wp_mono; [exact Hp| |].
  - intros a s' [-> Ha]. by apply Hk.
  - intros e s' He. by left.
Qed.

Lemma wp_pass_vec {X Y} t (v : Vec X) n detail (k : Vec X -> Prog W ProviderError S Y) (Q : Y -> S -> Prop) s :
  (forall a, wp (k a) Q (fun e _ => stopped e) s) ->
  wp (W := W) (bind (flight_reserve_vec t v n detail) k) Q (fun e _ => stopped e) s.
Proof. intros Hk. apply (wp_pass _ _ (fun _ => True)); [by apply wp_reserve_still|by intros]. Qed.

Lemma wp_decode (s : S) :
  wp (W := W) (decode physical superblock chunks artifact)
    (fun out s' => s' = s /\ exists fates verdicts,
       decoded_from artifact superblock chunks physical out fates verdicts)
    (fun e _ => stopped e) s.
Proof.
  unfold decode. apply (wp_pass _ _ (fun _ => True)); [by apply wp_consume|intros _ _].
  do 2 (apply wp_pass_vec; intros ?).
  eapply wp_pass; [by apply wp_count_records; [apply zlen_nonneg|..]|].
  intros counts ([Hdefs _] & [Hstrs _] & _).
  apply (wp_pass _ _ (fun _ => True)); [by apply wp_consume|intros _ _].
  eapply wp_pass; [by apply wp_initialize_states; congruence|]. intros states ->.
  replace (length (dc_definitions counts)) with (length chunks) by (unfold zlen in *; lia).
  do 2 (apply wp_pass_vec; intros ?).
  apply (wp_pass _ _ (fun _ => True)); [by apply wp_reserve_map; [apply _|..]|intros _ _].
  do 3 (apply wp_pass_vec; intros ?).
  apply wp_bind, wp_local. eapply wp_mono; [apply wp_decode_loop| |done].
  intros d _ (fates & verdicts & Hfates & Hgroups & Hv & Hout & Hseq & Hoff & Hfinal).
  eapply (wp_pass _ _ (fun sorted => sorted = stable_sort event_sequence (ds_output d))).
  { apply wp_radix_sort; [intros; apply le_byte_range| |done]. split; [done|]. apply stable_sort_ext.
    intros e He. rewrite Hout in He. pose proof (account_sequences fates verdicts e Hfates Hv He) as Hr.
    unfold in_u64, u64_max in Hr. rewrite radix_key_event, radix_key_le_byte by lia. apply Z.mod_small. lia. }
  intros sorted ->. eapply wp_pass; [apply wp_apply_policies|]. intros output Hsame.
  apply (wp_pass _ _ (fun _ => True)).
  { eapply wp_mono; [apply wp_sort_counters|by intros; split|done]. }
  intros pcs _. eapply wp_pass; [apply wp_finalize_registers|]. intros registers ->.
  apply wp_ret. split; [done|]. exists fates, verdicts. rewrite Hout in Hsame. constructor; try done.
  intros tid state. cbn. rewrite lookup_fmap_Some. intros ([q st] & <- & Hq). exists q. by apply Hfinal.
Qed.

End decode_rule.

(** C5: decoding accounts for every record of the artifact.  Whatever the guard,
    the heap and the iteration order of the hash tables, [decode] either stops on
    a refused resource or on an emergency cell that names no event, or: every
    record became exactly one event with its own key, or a pending fragment;
    every group of fragments was settled once, as the event that joins a whole
    group or as damage; the events are the stable sort by sequence number of
    those two lists, changed at most in the source of a signal's program
    counter; the damage reported is exactly that of the damaged events and of
    the fragments that joined nothing; and every register file is the replay of
    a chunk.  So no record is lost, none is invented and the events are
    ordered. *)
Theorem decode_accounts (W : Type) (G : WorkGuard W) (A : Allocator W) (HO : HashOrder) (S : Type)
    (artifact : ArtifactDigest) (superblock : Superblock) (chunks : list (option ChunkIdentity))
    (physical : list PhysicalFlight) (s : S) (w : W)
    (Hkeys : Forall (fun p => key_ok (ph_key p)) physical)
    (Hsequences : Forall (fun p => in_u64 (default 0 (ek_sequence (ph_key p)))) physical)
    (Htile : chunks_tile superblock (zlen chunks)) (Hlen : zlen physical <= usize_max) :
  match decode physical superblock chunks artifact s w with
  | (Ok out, s', _) =>
      s' = s
      /\ (exists fates verdicts, decoded_from artifact superblock chunks physical out fates verdicts)
      /\ Forall (recorded out) physical
      /\ StronglySorted (fun e e' => event_sequence e <= event_sequence e') (df_events out)
      /\ Forall (fun e => (exists p, p ∈ physical /\ ev_key e = ph_key p /\ ev_fragment_source_offsets e = [])
           \/ (forall o, o ∈ ev_fragment_source_offsets e ->
                exists p, p ∈ physical /\ ek_source_offset (ph_key p) = o)) (df_events out)
  | (Err e, _, _) => resource_error e \/ exists p, p ∈ physical /\ emergency_rejected superblock p e
  end.
Proof.
  pose proof (wp_decode artifact superblock chunks physical Hkeys Hsequences Htile Hlen s w) as Hrun.
  destruct (decode physical superblock chunks artifact s w) as [[[out|e] s'] w']; [|exact Hrun].
  destruct Hrun as [-> (fates & verdicts & Hfrom)]. split_and!; [done|by exists fates, verdicts|..].
  - by eapply all_recorded.
  - by eapply decoded_ordered.
  - by eapply none_invented.
Qed.

Lemma sample_sequences :
  Forall (fun p => in_u64 (default 0 (ek_sequence (ph_key p)))) sample_physical.
Proof. repeat apply Forall_cons_2; [..|apply Forall_nil_2]; cbn; unfold in_u64, u64_max; lia. Qed.

Lemma decode_accounts_witness :
  exists out, decode (W := unit) (S := unit) sample_physical sample_superblock sample_identities [] tt tt
      = (Ok out, tt, tt)
    /\ map event_sequence (df_events out) = [1; 2; 3]
    /\ df_final_registers out !! 77 = Some sample_seven
    /\ Forall (recorded out) sample_physical.
Proof.
  pose proof (decode_accounts unit _ _ _ unit [] sample_superblock sample_identities sample_physical tt tt
    sample_keys sample_sequences
    ltac:(split; vm_compute; congruence) ltac:(vm_compute; congruence)) as Hd.
  assert (exists out, decode (W := unit) (S := unit) sample_physical sample_superblock sample_identities [] tt tt
      = (Ok out, tt, tt)
    /\ map event_sequence (df_events out) = [1; 2; 3]
    /\ df_final_registers out !! 77 = Some sample_seven) as (out & Ho & Hs & Hr)
    by (eexists; split; [|split]; vm_compute; reflexivity).
  rewrite Ho in Hd. exists out. split_and!; [done..|]. by apply Hd.
Defined.
