(* ===== verification/FlightRecover.v ===== *)
(** * Recovering a Flight artifact

    Models [recover] of [qtrace-provider/src/flight/recovery.rs]: the directory,
    the chunks, the emergency cells, the order of the records, the account of
    what is missing, the typed events and the discontinuities, in the order the
    code runs them.  The mutable locals of the function are the records below. *)

From stdpp Require Import prelude list sorting strings gmap.
From Stdlib Require Import ZArith Lia Strings.Byte Sorted.
From S2P Require Import Prelude Prog Control Model Source QtrbEvents FlightWire FlightContext FlightScan FlightLoss FlightSort FlightMerge FlightReport FlightEmergency FlightPayload FlightFragments FlightEvents.
Local Open Scope string_scope.
Local Open Scope list_scope.
Local Open Scope Z_scope.

Record FlightRecoverySummary := mkRecoverySummary {
  rs_format_version : Z;
  rs_run_id : Z;
  rs_pid : Z;
  rs_module_generation : Z;
  rs_target_module : bytes;
  rs_pointer_width : Z;
  rs_artifact_flags : Z;
  rs_complete : bool;
  rs_active_chunks : list Z;
  rs_stale_directory_entries : list Z;
  rs_rotating_directory_entries : list Z;
  rs_target_pcs : list Z
}.

Record RecoveredFlight := mkRecoveredFlight {
  rf_source_bytes : Z;
  rf_events : list EventRecord;
  rf_tids : list Z;
  rf_completeness : list CompletenessRange;
  rf_counters : ProviderCounters;
  rf_final_registers : gmap Z RegisterSnapshot;
  rf_termination : option Termination;
  rf_recovery_summary : FlightRecoverySummary
}.

(** What the directory loop assigns. *)
Record DirectoryState := mkDirectoryState {
  ry_directories : Vec DirectoryEntry;
  ry_tids : Vec Z;
  ry_directory_by_tid : gmap Z nat;
  ry_known_tids : gset Z;
  ry_hints : Vec SequenceFact;
  ry_completeness : Vec CompletenessRange;
  ry_has_directory_uncertainty : bool;
  ry_rotating_directory_entries : Vec Z
}.

(** What the chunk loop assigns. *)
Record ChunksState := mkChunksState {
  ck_chunks : list (option ChunkIdentity);
  ck_hints : Vec SequenceFact;
  ck_completeness : Vec CompletenessRange;
  ck_events : Vec PhysicalFlight;
  ck_lifecycle : gmap Z LifecycleBalance;
  ck_damage_ranges : Vec SequenceRange;
  ck_sequence_proofs : Vec SequenceProof;
  ck_has_damage : bool;
  ck_active_chunks : Vec Z;
  ck_chunk_events : Vec PhysicalFlight
}.

Definition ck_set_chunk (i : nat) (c : ChunkIdentity) (st : ChunksState) : ChunksState :=
  mkChunksState (<[i := Some c]> (ck_chunks st)) (ck_hints st) (ck_completeness st) (ck_events st)
    (ck_lifecycle st) (ck_damage_ranges st) (ck_sequence_proofs st) (ck_has_damage st)
    (ck_active_chunks st) (ck_chunk_events st).
Definition ck_set_hints (v : Vec SequenceFact) (st : ChunksState) : ChunksState :=
  mkChunksState (ck_chunks st) v (ck_completeness st) (ck_events st) (ck_lifecycle st)
    (ck_damage_ranges st) (ck_sequence_proofs st) (ck_has_damage st) (ck_active_chunks st)
    (ck_chunk_events st).
Definition ck_set_table (v : Vec PhysicalFlight) (st : ChunksState) : ChunksState :=
  mkChunksState (ck_chunks st) (ck_hints st) (ck_completeness st) (ck_events st) (ck_lifecycle st)
    (ck_damage_ranges st) (ck_sequence_proofs st) (ck_has_damage st) (ck_active_chunks st) v.
Definition ck_set_active (active : Vec Z) (completeness : Vec CompletenessRange) (st : ChunksState) :
    ChunksState :=
  mkChunksState (ck_chunks st) (ck_hints st) completeness (ck_events st) (ck_lifecycle st)
    (ck_damage_ranges st) (ck_sequence_proofs st) (ck_has_damage st) active (ck_chunk_events st).

Definition metadata_work (superblock : Superblock) : result ProviderError WorkDelta :=
  match (nodes ← checked_add u64_max (sb_directory_entries superblock) (sb_chunk_count superblock);
         checked_add u64_max nodes (sb_emergency_count superblock)) with
  | Some nodes => Ok (delta_nodes nodes)
  | None => Err (allocation_error "Flight metadata node count overflow")
  end.

(** [offset + FLIGHT_DIRECTORY_ENTRY_BYTES as u64] *)
Definition directory_end (offset : Z) : Z := offset + FLIGHT_DIRECTORY_ENTRY_BYTES.

Definition fx_set_counters (c : ProviderCounters) (x : RecoveryContext) : RecoveryContext :=
  mkRecoveryContext c (fx_next_ordinal x).

(** [counters.events_emitted = n], [counters.opaque_records = 0] *)
Definition count_emitted (n : Z) (x : RecoveryContext) : RecoveryContext :=
  let c := fx_counters x in
  fx_set_counters (mkCounters (pc_records_seen c) n 0 (pc_damaged_records c) (pc_input_bytes c)
                  (pc_decompressed_bytes c)) x.
(** [counters.opaque_records.saturating_add(1)] *)
Definition fx_count_opaque (x : RecoveryContext) : RecoveryContext :=
  let c := fx_counters x in
  fx_set_counters (mkCounters (pc_records_seen c) (pc_events_emitted c)
                  (saturating_add u64_max (pc_opaque_records c) 1) (pc_damaged_records c)
                  (pc_input_bytes c) (pc_decompressed_bytes c)) x.

Section recover.
Context {W : Type} `{WorkGuard W} `{Allocator W} (source : ReadAtSource).
Abbreviation R := (Prog W ProviderError RecoveryContext).

(** ** The directory *)

(** [if entry.state == 2 { .. } else if !entry.range_reliable { .. }] *)
Definition directory_doubt (offset : Z) (entry : DirectoryEntry) (st : DirectoryState) :
    R (Vec CompletenessRange * bool * Vec Z) :=
  if de_state entry =? 2 then
    let! rotating := guarded_push T_u32 (ry_rotating_directory_entries st) (de_index entry) in
    let! c := push_source_range (ry_completeness st) offset (directory_end offset) ProvUnknown Rotating in
    let! c := push_source_range c offset (directory_end offset) ProvUnknown Unreliable in
    ret (c, true, rotating)
  else if negb (de_range_reliable entry) then
    let! c := push_source_range (ry_completeness st) offset (directory_end offset) ProvUnknown Unreliable in
    ret (c, true, ry_rotating_directory_entries st)
  else ret (ry_completeness st, ry_has_directory_uncertainty st, ry_rotating_directory_entries st).

Definition directory_turn (superblock : Superblock) (st : DirectoryState) (index : nat) :
    R DirectoryState :=
  let! offset := indexed_offset (rg_offset (sb_directory superblock)) (Z.of_nat index)
    FLIGHT_DIRECTORY_ENTRY_BYTES "directory offset overflow" in
  let! raw := read_array source FLIGHT_DIRECTORY_ENTRY_BYTES offset "flight.directory" None in
  let! parsed := lift_result (parse_directory raw (Z.of_nat index) (sb_chunk_count superblock) offset) in
  match parsed with
  | None => ret st
  | Some entry =>
      fail_if (bool_decide (is_Some (ry_directory_by_tid st !! de_tid entry)))
        (directory_error offset "duplicate directory TID") ;!
      let directory_index := length (v_items (ry_directories st)) in
      flight_reserve_map DirectoryByTid T_directory_index_entry
        (Z.of_nat (size (ry_directory_by_tid st))) 1 "Flight directory map allocation failed" ;!
      flight_reserve_map KnownTids T_tid_entry (Z.of_nat (size (ry_known_tids st))) 1
        "Flight TID set allocation failed" ;!
      let! tids := guarded_push T_u32 (ry_tids st) (de_tid entry) in
      let! hints :=
        if de_range_reliable entry && negb (de_first_sequence entry =? 0)
        then guarded_push T_SequenceFact (ry_hints st)
               (mkSequenceFact (mkSequenceRange (de_first_sequence entry) (de_last_sequence entry))
                  (AtSource offset))
        else ret (ry_hints st) in
      let! doubt := directory_doubt offset entry st in
      let '(completeness, uncertain, rotating) := doubt in
      let! directories := guarded_push T_DirectoryEntry (ry_directories st) entry in
      ret (mkDirectoryState directories tids
             (<[de_tid entry := directory_index]> (ry_directory_by_tid st))
             ({[de_tid entry]} ∪ ry_known_tids st) hints completeness uncertain rotating)
  end.

Definition read_directory (superblock : Superblock) : R DirectoryState :=
  fold_each (seq 0 (Z.to_nat (sb_directory_entries superblock)))
    (mkDirectoryState vec_new vec_new ∅ ∅ vec_new vec_new false vec_new)
    (directory_turn superblock).

(** ** The chunks *)

(** The table of a scan, in the receiver so that it survives a rejected scan. *)
Abbreviation Scan := (Prog W ProviderError (RecoveryContext * Vec PhysicalFlight)).
Definition set_context (x : RecoveryContext) (t : RecoveryContext * Vec PhysicalFlight) :
    RecoveryContext * Vec PhysicalFlight := (x, snd t).
Definition set_table (v : Vec PhysicalFlight) (t : RecoveryContext * Vec PhysicalFlight) :
    RecoveryContext * Vec PhysicalFlight := (fst t, v).

(** [scan_records] as [scan_loop] computes it, on the table itself. *)
Fixpoint scan_table_loop (fuel : nat) (artifact : ArtifactDigest) (chunk_index : Z)
    (header : ChunkHeader) (data_offset limit : Z) (st : ScanState) : Scan ScanState :=
  modify (set_table (ss_events st)) ;!
  match fuel with
  | O => throw scan_fuel
  | Datatypes.S fuel =>
      if ss_relative st <? limit then
        let! turn := zoom fst set_context
          (scan_turn source artifact chunk_index header data_offset limit false st) in
        match turn with
        | Some st => scan_table_loop fuel artifact chunk_index header data_offset limit st
        | None => ret st
        end
      else ret st
  end.

Definition scan_table (artifact : ArtifactDigest) (chunk_index : Z) (header : ChunkHeader)
    (start stop : Z) : Scan RecordScan :=
  let! t := get in
  let! limit := lift_option (checked_sub stop start)
    (allocation_error "chunk scan extent underflow") in
  let! st := scan_table_loop (Datatypes.S (Z.to_nat limit)) artifact chunk_index header start limit
    (mkScanState 0 None 0 None None (vec_clear (snd t))) in
  let! t := get in
  fail_if (negb (ss_relative st =? limit))
    (flight_record_error (mkCoordinate (start + ss_relative st) (Some (fx_next_ordinal (fst t))))
       "sealed chunk has an invalid suffix") ;!
  ret (mkRecordScan (ss_first st) (ss_last st) (ss_balance st) (ss_first_begin st)).

(** [match scan_records(.., &mut chunk_events) { Ok(scan) => .., Err(error) => .. }] *)
Definition try_scan (artifact : ArtifactDigest) (chunk_index : Z) (header : ChunkHeader)
    (start stop : Z) (table : Vec PhysicalFlight) :
    R (result ProviderError RecordScan * Vec PhysicalFlight) :=
  fun x w =>
    let '(r, (x', table'), w') := scan_table artifact chunk_index header start stop (x, table) w in
    (Ok (r, table'), x', w').

(** [mark_chunk_damage(..)?; has_damage = true;] *)
Definition damage_chunk (superblock : Superblock) (range : option SequenceRange) (offset : Z)
    (cause : CompletenessCause) (st : ChunksState) : R ChunksState :=
  let! marked := mark_chunk_damage (ck_completeness st) (ck_damage_ranges st) (ck_sequence_proofs st)
    range offset (sb_chunk_bytes superblock) cause in
  let '(completeness, damage, proofs) := marked in
  ret (mkChunksState (ck_chunks st) (ck_hints st) completeness (ck_events st) (ck_lifecycle st)
         damage proofs true (ck_active_chunks st) (ck_chunk_events st)).

(** [merge_lifecycle(..)?; append_events(..)?;] *)
Definition publish_chunk (tid : Z) (scan : RecordScan) (st : ChunksState) : R ChunksState :=
  let! lifecycle := merge_lifecycle (ck_lifecycle st) tid (sc_lifecycle_balance scan)
    (sc_lifecycle_first_begin scan) in
  let! appended := append_events (ck_events st) (ck_chunk_events st) in
  ret (mkChunksState (ck_chunks st) (ck_hints st) (ck_completeness st) (fst appended) lifecycle
         (ck_damage_ranges st) (ck_sequence_proofs st) (ck_has_damage st) (ck_active_chunks st)
         (snd appended)).

(** [count_matches] and [endpoints_match] *)
Definition header_matches (header : ChunkHeader) (scan : RecordScan) (items : list PhysicalFlight) : bool :=
  negb (zlen items =? 0) && (ch_record_count header =? zlen items)
  && match sc_first_sequence scan, sc_last_sequence scan with
     | Some first, Some last =>
         (first =? ch_first_sequence header) && (last =? ch_last_sequence header)
     | None, None => (ch_first_sequence header =? 0) && (ch_last_sequence header =? 0)
     | _, _ => false
     end.

Definition sealed_chunk (superblock : Superblock) (artifact : ArtifactDigest) (index : Z)
    (header : ChunkHeader) (offset data_offset capacity : Z) (st : ChunksState) : R ChunksState :=
  let header_range := valid_sealed_range header in
  let! hints := match header_range with
    | Some range => guarded_push T_SequenceFact (ck_hints st) (mkSequenceFact range (AtSource offset))
    | None => ret (ck_hints st)
    end in
  let st := ck_set_hints hints st in
  let committed := ch_committed_bytes header in
  if (committed >? capacity) || negb (committed mod 8 =? 0) then
    damage_chunk superblock header_range offset Incomplete st
  else
    let! checksum := checksum_region source data_offset committed in
    if negb (checksum =? ch_checksum header) then
      let! st := damage_chunk superblock header_range offset Checksum st in
      modify (count_damaged 1) ;! ret st
    else
      let! stop := lift_option (checked_add u64_max data_offset committed)
        (allocation_error "chunk scan extent overflow") in
      let! scanned := try_scan artifact index header data_offset stop (ck_chunk_events st) in
      let '(outcome, table) := scanned in
      let st := ck_set_table table st in
      match outcome with
      | Err error =>
          if bool_decide (pe_code error ∈ ["source.flight.record"; "source.flight.record_checksum"]) then
            let cause := if bool_decide (pe_code error = "source.flight.record_checksum")
                         then Checksum else Incomplete in
            let! st := damage_chunk superblock header_range offset cause st in
            modify (count_damaged 1) ;! ret st
          else throw error
      | Ok scan =>
          if negb (header_matches header scan (v_items table)) then
            damage_chunk superblock header_range offset Incomplete st
          else publish_chunk (ch_tid header) scan st
      end.

Definition active_chunk (artifact : ArtifactDigest) (index : Z) (header : ChunkHeader)
    (offset data_offset capacity : Z) (st : ChunksState) : R ChunksState :=
  let! active := guarded_push T_u32 (ck_active_chunks st) index in
  let! completeness := push_source_range (ck_completeness st) offset data_offset Captured Active in
  let st := ck_set_active active completeness st in
  let! stop := lift_option (checked_add u64_max data_offset capacity)
    (allocation_error "chunk scan extent overflow") in
  let! scanned := scan_records source artifact index header data_offset stop true (ck_chunk_events st) in
  publish_chunk (ch_tid header) (fst scanned) (ck_set_table (snd scanned) st).

Definition recover_chunk (superblock : Superblock) (artifact : ArtifactDigest)
    (directory_by_tid : gmap Z nat) (st : ChunksState) (index : nat) : R ChunksState :=
  consume WorkDelta_default ;!
  let! offset := indexed_offset (rg_offset (sb_chunks superblock)) (Z.of_nat index)
    (sb_chunk_bytes superblock) "chunk offset overflow" in
  let! raw := read_array source FLIGHT_CHUNK_HEADER_BYTES offset "flight.chunk" None in
  let! parsed := lift_result (parse_chunk_header raw (Z.of_nat index) offset) in
  match parsed with
  | None => ret st
  | Some header =>
      fail_if (negb (bool_decide (is_Some (directory_by_tid !! ch_tid header))))
        (chunk_error offset "chunk TID has no directory owner") ;!
      lift_option (ck_chunks st !! index) (chunk_error offset "chunk index does not fit host") ;!
      let st := ck_set_chunk index
        (mkChunkIdentity (ch_tid header) (ch_generation header) (ch_state header)) st in
      let! capacity := lift_option (checked_sub (sb_chunk_bytes superblock) FLIGHT_CHUNK_HEADER_BYTES)
        (chunk_error offset "invalid chunk capacity") in
      let! data_offset := lift_option (checked_add u64_max offset FLIGHT_CHUNK_HEADER_BYTES)
        (chunk_error offset "chunk data offset overflow") in
      if ch_state header =? 2
      then sealed_chunk superblock artifact (Z.of_nat index) header offset data_offset capacity st
      else active_chunk artifact (Z.of_nat index) header offset data_offset capacity st
  end.

Definition recover_chunks (superblock : Superblock) (artifact : ArtifactDigest)
    (chunks : list (option ChunkIdentity)) (directory : DirectoryState) : R ChunksState :=
  fold_each (seq 0 (Z.to_nat (sb_chunk_count superblock)))
    (mkChunksState chunks (ry_hints directory) (ry_completeness directory) vec_new ∅ vec_new vec_new
       false vec_new vec_new)
    (recover_chunk superblock artifact (ry_directory_by_tid directory)).

(** ** The directory against the chunks *)

(** [current.is_some_and(..)] *)
Definition directory_current (chunks : list (option ChunkIdentity)) (entry : DirectoryEntry) : bool :=
  match mjoin (chunks !! Z.to_nat (de_chunk_index entry)) with
  | Some chunk => (ci_tid chunk =? de_tid entry) && (ci_generation chunk =? de_generation entry)
                  && ((ci_state chunk =? 1) || (ci_state chunk =? 2))
  | None => false
  end.

(** One turn over ([stale_directory_entries], [completeness], [has_incomplete]). *)
Definition stale_turn (superblock : Superblock) (chunks : list (option ChunkIdentity))
    (acc : Vec Z * Vec CompletenessRange * bool) (indexed : nat * DirectoryEntry) :
    R (Vec Z * Vec CompletenessRange * bool) :=
  let '(stale, completeness, incomplete) := acc in
  let '(index, entry) := indexed in
  guard_checkpoint (Z.of_nat index) ;!
  if (de_state entry =? 2) || (de_chunk_index entry =? INVALID_INDEX) then ret acc
  else if directory_current chunks entry then ret acc
  else
    let! stale := guarded_push T_u32 stale (de_index entry) in
    let! offset := indexed_offset (rg_offset (sb_directory superblock)) (de_index entry)
      FLIGHT_DIRECTORY_ENTRY_BYTES "directory offset overflow" in
    let! completeness := push_source_range completeness offset (directory_end offset) ProvUnknown Stale in
    ret (stale, completeness, true).

(** ** What the records say about coverage and threads *)

(** One turn over ([completeness], [sequence_proofs], [has_coverage]). *)
Definition coverage_turn (acc : Vec CompletenessRange * Vec SequenceProof * bool)
    (indexed : nat * PhysicalFlight) : R (Vec CompletenessRange * Vec SequenceProof * bool) :=
  let '(completeness, proofs, covered) := acc in
  let '(index, event) := indexed in
  guard_checkpoint (Z.of_nat index) ;!
  if oo_record_type (ph_raw event) =? 15 then
    let! sequence := lift_option (ek_sequence (ph_key event))
      (allocation_error "Flight coverage gap has no sequence") in
    let! completeness := push_sequence_range completeness sequence sequence Captured CauseCoverageGap in
    let! proofs := guarded_push T_SequenceProof proofs
      (mkSequenceProof (mkSequenceRange sequence sequence) CauseCoverageGap Captured
         (AtSource (ek_source_offset (ph_key event)))) in
    ret (completeness, proofs, true)
  else ret acc.

(** One turn over ([completeness], [sequence_proofs], [has_incomplete]). *)
Definition unterminated_turn (lifecycle : gmap Z LifecycleBalance)
    (acc : Vec CompletenessRange * Vec SequenceProof * bool) (indexed : nat * Z) :
    R (Vec CompletenessRange * Vec SequenceProof * bool) :=
  let '(completeness, proofs, incomplete) := acc in
  let '(index, tid) := indexed in
  guard_checkpoint (Z.of_nat index) ;!
  match lifecycle !! tid with
  | Some item =>
      if lb_balance item >? 0 then
        let! completeness := push_sequence_range completeness (lb_first_begin item) (lb_first_begin item)
          ProvUnknown UnterminatedThread in
        let! proofs := guarded_push T_SequenceProof proofs
          (mkSequenceProof (mkSequenceRange (lb_first_begin item) (lb_first_begin item))
             UnterminatedThread ProvUnknown AtEof) in
        ret (completeness, proofs, true)
      else ret acc
  | None => ret acc
  end.

(** ** What decoding adds *)

(** One turn over ([completeness], [sequence_proofs]). *)
Definition decoded_damage_turn (offsets : list Z)
    (acc : Vec CompletenessRange * Vec SequenceProof) (indexed : nat * Z) :
    R (Vec CompletenessRange * Vec SequenceProof) :=
  let '(completeness, proofs) := acc in
  let '(index, sequence) := indexed in
  guard_checkpoint (Z.of_nat index) ;!
  let! evidence := lift_option (captured_sequence_with_cause sequence sequence Damaged Incomplete)
    (allocation_error "invalid decoded damage sequence range") in
  let! completeness := guarded_push_without_charge completeness evidence in
  match offsets !! index with
  | Some source_offset =>
      let! proofs := guarded_push_without_charge proofs
        (mkSequenceProof (mkSequenceRange sequence sequence) Incomplete Damaged (AtSource source_offset)) in
      ret (completeness, proofs)
  | None => ret (completeness, proofs)
  end.

(** One turn over ([previous_chunk], [completeness]). *)
Definition damaged_chunk_turn (superblock : Superblock) (acc : option Z * Vec CompletenessRange)
    (indexed : nat * Z) : R (option Z * Vec CompletenessRange) :=
  let '(previous, completeness) := acc in
  let '(index, offset) := indexed in
  guard_checkpoint (Z.of_nat index) ;!
  let chunk := saturating_sub offset (rg_offset (sb_chunks superblock)) / sb_chunk_bytes superblock in
  if bool_decide (previous = Some chunk) then ret acc
  else
    let start := saturating_add u64_max (rg_offset (sb_chunks superblock))
      (saturating_mul u64_max chunk (sb_chunk_bytes superblock)) in
    let! completeness := push_source_range completeness start
      (saturating_add u64_max start (sb_chunk_bytes superblock)) Damaged Incomplete in
    ret (Some chunk, completeness).

(** From the decoded records to the normalized report. *)
Definition report_damage (superblock : Superblock) (decoded : DecodedFlight)
    (completeness : Vec CompletenessRange) (proofs : Vec SequenceProof) :
    R (Vec CompletenessRange * Vec SequenceProof) :=
  let damaged := zlen (df_damaged_sequences decoded) in
  let! target := lift_option (checked_add usize_max (zlen (v_items completeness)) damaged)
    (allocation_error "decoded completeness count overflow") in
  let! completeness := flight_reserve_vec T_CompletenessRange completeness target
    "Flight decoded completeness allocation failed" in
  let! target := lift_option (checked_add usize_max (zlen (v_items proofs)) damaged)
    (allocation_error "decoded proof count overflow") in
  let! proofs := flight_reserve_vec T_SequenceProof proofs target
    "Flight decoded proof allocation failed" in
  let! reported := fold_each (imap pair (df_damaged_sequences decoded)) (completeness, proofs)
    (decoded_damage_turn (df_damaged_source_offsets decoded)) in
  let '(completeness, proofs) := reported in
  fallible_vec (A := Z) T_u64 (zlen (df_damaged_source_offsets decoded)) ;!
  fold_each (imap pair (df_damaged_source_offsets decoded)) tt
    (fun _ '(index, _) => guard_checkpoint (Z.of_nat index)) ;!
  let! offsets := guarded_radix_sort u64_byte (df_damaged_source_offsets decoded) 8 in
  let! marked := fold_each (imap pair offsets) (None, completeness) (damaged_chunk_turn superblock) in
  let! completeness := normalize_completeness (snd marked) in
  ret (completeness, proofs).

Definition opaque_turn (indexed : nat * EventRecord) : R unit :=
  let '(index, event) := indexed in
  guard_checkpoint (Z.of_nat index) ;!
  match ev_payload event with
  | OpaqueOptional _ => modify fx_count_opaque
  | _ => ret tt
  end.

Definition fallible_string (value : bytes) : R bytes :=
  try_copy_string_in value "Flight provider allocation failed" FLIGHT_OPEN_ALLOCATION.

(** ** The records, in order *)

(** What the physical phases hand over to the typed ones. *)
Record PhysicalState := mkPhysicalState {
  py_directory : DirectoryState;
  py_chunks : ChunksState;
  py_stale : Vec Z;
  py_events : Vec PhysicalFlight;
  py_tids : list Z;
  py_completeness : Vec CompletenessRange;
  py_status : EmergencyStatus;
  py_has_incomplete : bool
}.

(** From the superblock to the sorted records. *)
Definition recover_physical (artifact : ArtifactDigest) (superblock : Superblock) : R PhysicalState :=
  let! metadata := lift_result (metadata_work superblock) in
  consume metadata ;!
  let! chunk_capacity := lift_option (try_from usize_max (sb_chunk_count superblock))
    (allocation_error "chunk count does not fit this host") in
  let! chunks := fallible_none_vec T_ChunkSlot chunk_capacity in
  let! directory := read_directory superblock in
  let! st := recover_chunks superblock artifact (v_items chunks) directory in
  let! stale := fold_each (imap pair (v_items (ry_directories directory)))
    (vec_new, ck_completeness st,
     negb (sb_flags superblock =? 0) || ry_has_directory_uncertainty directory)
    (stale_turn superblock (ck_chunks st)) in
  let '(stale_directory_entries, completeness, incomplete) := stale in
  let! regular_sequences := index_regular_sequences (v_items (ck_events st)) in
  let! em := scan_emergencies source superblock artifact (ck_events st) completeness
    (ry_tids directory) (ry_known_tids directory) regular_sequences in
  let! sorted := guarded_radix_sort event_sequence_byte (v_items (sl_events em)) 8 in
  let! resolved := resolve_sequence_collisions (mkVec sorted (v_capacity (sl_events em)))
    (rg_offset (sb_emergencies superblock)) (rg_end (sb_emergencies superblock)) (sl_completeness em) in
  let! tids := guarded_radix_sort u32_byte (v_items (sl_tids em)) 4 in
  ret (mkPhysicalState directory st stale_directory_entries (fst resolved) tids (snd resolved)
         (sl_status em) incomplete).

(** ** The losses *)

(** What [add_sequence_completeness] and the loops before it leave behind. *)
Record LossState := mkLossState {
  lx_completeness : Vec CompletenessRange;
  lx_proofs : Vec SequenceProof;
  lx_has_damage : bool;
  lx_has_coverage : bool
}.

Definition recover_losses (superblock : Superblock) (source_size : Z) (p : PhysicalState) : R LossState :=
  let st := py_chunks p in
  let has_damage := ck_has_damage st || es_has_damage (py_status p) in
  let has_incomplete := py_has_incomplete p || es_has_incomplete (py_status p) in
  let! covered := fold_each (imap pair (v_items (py_events p)))
    (py_completeness p, ck_sequence_proofs st, es_has_coverage (py_status p)) coverage_turn in
  let '(completeness, proofs, has_coverage) := covered in
  consume WorkDelta_default ;!
  fail_if (negb (src_len source =? source_size) || negb (source_size =? sb_artifact_bytes superblock))
    (superblock_error "source size changed during Flight recovery") ;!
  let! completeness :=
    if negb (sb_flags superblock =? 0)
    then push_source_range completeness 72 76 ProvUnknown Incomplete
    else ret completeness in
  let! unterminated := fold_each (imap pair (py_tids p)) (completeness, proofs, has_incomplete)
    (unterminated_turn (ck_lifecycle st)) in
  let '(completeness, proofs, has_incomplete) := unterminated in
  let! damage := guarded_radix_sort sequence_range_byte (v_items (ck_damage_ranges st)) 16 in
  let! hints := guarded_radix_sort sequence_fact_byte (v_items (ck_hints st)) 8 in
  let! accounted := add_sequence_completeness (v_items (py_events p)) hints damage
    (mkRecoveryStatus (sb_flags superblock) has_damage has_incomplete) completeness proofs in
  ret (mkLossState (fst accounted) (snd accounted) has_damage has_coverage).

Context {HO : HashOrder}.

(** ** The events *)

Definition recover_events (artifact : ArtifactDigest) (superblock : Superblock) (source_size : Z)
    (p : PhysicalState) (l : LossState) : R RecoveredFlight :=
  let! decoded := decode (v_items (py_events p)) superblock (ck_chunks (py_chunks p)) artifact in
  let! reported := report_damage superblock decoded (lx_completeness l) (lx_proofs l) in
  let '(completeness, proofs) := reported in
  let has_damage := lx_has_damage l || negb (zlen (df_damaged_sequences decoded) =? 0) in
  let! events := add_discontinuity_events (mkVec (df_events decoded) (df_events_capacity decoded))
    (v_items completeness) (v_items proofs) artifact source_size in
  modify (count_emitted (zlen (v_items events))) ;!
  fold_each (imap pair (v_items events)) tt (fun _ indexed => opaque_turn indexed) ;!
  modify (count_damaged (zlen (df_damaged_sequences decoded))) ;!
  let! active := guarded_radix_sort u32_byte (v_items (ck_active_chunks (py_chunks p))) 4 in
  let! stale := guarded_radix_sort u32_byte (v_items (py_stale p)) 4 in
  let! rotating := guarded_radix_sort u32_byte
    (v_items (ry_rotating_directory_entries (py_directory p))) 4 in
  let complete := (sb_flags superblock =? 0) && negb has_damage && negb (lx_has_coverage l)
    && (zlen stale =? 0) && (zlen (df_damaged_sequences decoded) =? 0) in
  let! x := get in
  let target := take (Z.to_nat (sb_target_len superblock)) (sb_target superblock) in
  fail_if (negb (utf8_valid target)) (superblock_error "invalid validated Flight target") ;!
  let! target := fallible_string target in
  ret (mkRecoveredFlight source_size (v_items events) (py_tids p) (v_items completeness)
         (fx_counters x) (df_final_registers decoded) (df_termination decoded)
         (mkRecoverySummary 2 (sb_run_id superblock) (sb_pid superblock)
            (sb_module_generation superblock) target (sb_pointer_width superblock)
            (sb_flags superblock) complete active stale rotating (df_target_pcs decoded))).

(** The body of [recover], on its own context. *)
Definition recover_in (artifact : ArtifactDigest) : R RecoveredFlight :=
  let source_size := src_len source in
  let! raw := read_array source FLIGHT_SUPERBLOCK_BYTES 0 "flight.superblock" None in
  let! superblock := lift_result (parse_superblock raw source_size) in
  let! p := recover_physical artifact superblock in
  let! l := recover_losses superblock source_size p in
  recover_events artifact superblock source_size p l.

Definition recover {S} (artifact : ArtifactDigest) : Prog W ProviderError S RecoveredFlight :=
  consume WorkDelta_default ;!
  with_local (mkRecoveryContext counters_default 0) (recover_in artifact).

End recover.
