(* ===== verification/FlightRecovered.v ===== *)
(** * What a recovered Flight artifact holds

    The laws of [recover]: the directory and chunk loops keep their tables
    consistent, every chunk with a header is published or reported, and the
    whole of [recover] returns what the artifact holds and reports the rest. *)

From stdpp Require Import prelude list sorting strings gmap.
From Stdlib Require Import ZArith Lia Strings.Byte Sorted.
From S2P Require Import Prelude Prog Control Throws Model Source QtrbEvents FlightWire FlightContext FlightErrors FlightScan FlightLoss FlightSort FlightMerge FlightReport FlightEmergency FlightPayload FlightRegisters FlightFragments FlightEvents FlightDecode FlightAccount FlightResult FlightRecover.
Local Open Scope string_scope.
Local Open Scope list_scope.
Local Open Scope Z_scope.

(** ** A scan that keeps its table *)

Section tables.
Context {W : Type} `{WorkGuard W} `{Allocator W} (source : ReadAtSource).
Context (artifact : ArtifactDigest) (index : Z) (header : ChunkHeader).

Lemma scan_table_loop_agrees start limit fuel : forall st x v w,
  exists v', scan_table_loop source fuel artifact index header start limit st (x, v) w
    = (let '(r, x', w') := scan_loop source fuel artifact index header start limit false st x w in
       (r, (x', v'), w'))
  /\ match scan_loop source fuel artifact index header start limit false st x w with
     | (Ok st', _, _) => v' = ss_events st'
     | _ => True
     end.
Proof.
  induction fuel as [|fuel IH]; intros st x v w; [by eexists|].
  cbn [scan_table_loop scan_loop].
  destruct (ss_relative st <? limit); [|by eexists].
  unfold bind, zoom, modify, set_table, set_context. cbn [fst snd].
  destruct (scan_turn source artifact index header start limit false st x w) as [[[[st'|]|e] x'] w'].
  - destruct (IH st' x' (ss_events st) w') as (v' & -> & Hv'). by exists v'.
  - by eexists.
  - by eexists.
Qed.

(** The outcome of the scan is that of [scan_records]. *)
Lemma try_scan_agrees start stop table x w :
  exists table', try_scan source artifact index header start stop table x w
    = (let '(r, x', w') := scan_records source artifact index header start stop false table x w in
       (Ok (match r with Ok scan => Ok (fst scan) | Err e => Err e end, table'), x', w'))
  /\ match scan_records source artifact index header start stop false table x w with
     | (Ok scan, _, _) => table' = snd scan
     | _ => True
     end.
Proof.
  unfold try_scan, scan_table, scan_records, bind, get, lift_option, lift_result, ok_or. cbn [snd].
  destruct (checked_sub stop start) as [limit|]; [|by eexists].
  destruct (scan_table_loop_agrees start limit (Datatypes.S (Z.to_nat limit))
    (mkScanState 0 None 0 None None (vec_clear table)) x table w) as (v' & -> & Hv').
  destruct (scan_loop source _ artifact index header start limit false _ x w) as [[[st'|e] x'] w'];
    [|by eexists]. subst v'.
  unfold fail_if. destruct (ss_relative st' =? limit); by eexists.
Qed.

Lemma wp_try_scan content {LS : LawfulSource source content} start stop table x :
  0 <= start <= stop -> stop <= zlen content -> in_u32 (ch_generation header) ->
  fx_next_ordinal x + (stop - start) <= u64_max ->
  wp (W := W) (try_scan source artifact index header start stop table)
    (fun r x' => fx_next_ordinal x' <= fx_next_ordinal x + (stop - start)
       /\ match fst r with
          | Ok scan => scanned content artifact index header start stop false (fx_next_ordinal x) scan
                         (v_items (snd r)) (fx_next_ordinal x')
          | Err e => recovery_error e
          end
       /\ forall scan' items' ordinal',
            scanned content artifact index header start stop false (fx_next_ordinal x) scan' items' ordinal' ->
            match fst r with
            | Ok scan => scan = scan' /\ v_items (snd r) = items'
            | Err e => resource_error e
            end) (fun _ _ => False) x.
Proof.
  intros Hstart Hstop Hgen Hord w.
  destruct (try_scan_agrees start stop table x w) as (table' & -> & Ht).
  pose proof (wp_scan_records source content artifact index header start stop false Hstart Hstop table x w) as Hs.
  pose proof (fun scan' items' ordinal' => accepts_records source content artifact index header start stop false Hstart Hstop
    table x scan' items' ordinal' eq_refl Hgen Hord) as Hall.
  destruct (scan_records source artifact index header start stop false table x w) as [[[scan|e] x'] w'] eqn:Hrun; cbn [fst snd].
  - subst table'. split_and!; [|done|].
    + destruct Hs as (recs & tail & Hdata & _ & _ & _ & _ & _ & ->).
      pose proof (scanned_count content header start stop Hstart Hstop recs tail Hdata). pose proof (zlen_nonneg recs). lia.
    + intros scan' items' ordinal' Hsc. specialize (Hall _ _ _ Hsc w). by rewrite Hrun in Hall.
  - destruct Hs as [He Hx]. split_and!; [done..|]. intros scan' items' ordinal' Hsc. specialize (Hall _ _ _ Hsc w). by rewrite Hrun in Hall.
Qed.

(** The records of an extent do not depend on where the ordinals start. *)
Lemma scanned_from content start stop active ordinal scan items ordinal' other :
  scanned content artifact index header start stop active ordinal scan items ordinal' ->
  exists items2 ordinal2, scanned content artifact index header start stop active other scan items2 ordinal2
    /\ length items2 = length items.
Proof.
  intros (recs & tail & Hd & Hok & Hch & Htail & -> & -> & ->).
  exists (physicals artifact index header start other 0 recs), (other + zlen recs). split; [by exists recs, tail|].
  generalize 0 at 1. generalize 0. revert other ordinal. clear. induction recs as [|r recs IH]; intros o o' a b; [done|]. cbn. f_equal. apply IH.
Qed.

End tables.

(** ** Reports that stay well formed *)

Definition source_range (start stop : Z) (p : Provenance) (c : CompletenessCause) : CompletenessRange :=
  mkRange SourceBytes (HalfOpen start stop) p c.
Definition sequence_range (range : SequenceRange) (p : Provenance) (c : CompletenessCause) : CompletenessRange :=
  mkRange CapturedSequence (InclusiveSequence (sr_first range) (sr_last range)) p c.

Section pushes.
Context {W : Type} `{WorkGuard W} `{Allocator W} {S : Type}.
Implicit Types s : S.
Abbreviation gives p Q s := (wp (W := W) (E := ProviderError) p Q (fun e _ => recovery_error e) s).

Lemma gives_push {A} t (v : Vec A) a (Q : Vec A -> S -> Prop) s :
  (forall v', v_items v' = v_items v ++ [a] -> Q v' s) -> gives (guarded_push t v a) Q s.
Proof. intros HQ. apply wp_guarded_push; [|genuine]. intros cap. by apply HQ. Qed.

Lemma gives_source_range v start stop p c (Q : Vec CompletenessRange -> S -> Prop) s :
  in_u64 start -> in_u64 stop ->
  (forall v', v_items v' = v_items v ++ [source_range start stop p c] ->
     range_wf (source_range start stop p c) -> Q v' s) ->
  gives (push_source_range v start stop p c) Q s.
Proof.
  intros H1 H2 HQ. apply wp_bind, wp_option. unfold source_bytes_with_cause, half_open.
  destruct (Z.gtb_spec start stop); [genuine|]. apply gives_push. intros v' Hv. by apply HQ.
Qed.

Lemma gives_sequence_range v range p c (Q : Vec CompletenessRange -> S -> Prop) s :
  range_ok range ->
  (forall v', v_items v' = v_items v ++ [sequence_range range p c] ->
     range_wf (sequence_range range p c) -> Q v' s) ->
  gives (push_sequence_range v (sr_first range) (sr_last range) p c) Q s.
Proof.
  intros [H1 H2] HQ. apply wp_bind, wp_option. unfold captured_sequence_with_cause.
  destruct (Z.gtb_spec (sr_first range) (sr_last range)); [genuine|]. apply gives_push. intros v' Hv.
  apply HQ; [done|]. cbn. unfold in_u64. split_and!; lia.
Qed.

Lemma gives_bind {A B} (p : Prog W ProviderError S A) (k : A -> Prog W ProviderError S B) (P : A -> Prop)
    (Q : B -> S -> Prop) s :
  gives p (fun a s' => s' = s /\ P a) s -> (forall a, P a -> gives (k a) Q s) -> gives (bind p k) Q s.
Proof. intros Hp Hk. apply wp_bind. eapply wp_mono; [exact Hp| |done]. intros a s' [-> Ha]. by apply Hk. Qed.

Lemma gives_option {A} (o : option A) e (Q : A -> S -> Prop) s :
  recovery_error e -> (forall a, o = Some a -> Q a s) -> gives (lift_option o e) Q s.
Proof. intros He HQ. apply wp_option. destruct o; [by apply HQ|done]. Qed.

Lemma gives_passed (b : bool) e (Q : unit -> S -> Prop) s :
  recovery_error e -> (b = false -> Q tt s) -> gives (fail_if b e) Q s.
Proof. intros He HQ. by apply wp_fail_if. Qed.

Lemma gives_checkpoint i (Q : unit -> S -> Prop) s : Q tt s -> gives (guard_checkpoint i) Q s.
Proof. intros HQ. apply wp_checkpoint; [done|genuine]. Qed.

Lemma gives_map id t n k detail (Q : unit -> S -> Prop) s :
  Q tt s -> gives (flight_reserve_map id t n k detail) Q s.
Proof. intros HQ. apply wp_reserve_map; [apply _|exact HQ|genuine]. Qed.

Lemma gives_offset base index stride detail (Q : Z -> S -> Prop) s :
  (base + index * stride <= u64_max -> Q (base + index * stride) s) ->
  gives (indexed_offset base index stride detail) Q s.
Proof.
  intros HQ. apply gives_option; [genuine|]. intros offset. unfold checked_mul, checked_add.
  destruct (Z.leb_spec (index * stride) u64_max); [|done]. cbn [mbind option_bind].
  destruct (Z.leb_spec (base + index * stride) u64_max); [|done]. intros [= <-]. by apply HQ.
Qed.

End pushes.

Lemma seq_split_index n before i after : seq 0 n = before ++ i :: after -> i = length before.
Proof.
  intros Hsplit. assert ((before ++ i :: after) !! length before = Some i) as Hi by by apply list_lookup_middle.
  rewrite <- Hsplit in Hi. apply lookup_seq in Hi. lia.
Qed.

Lemma seq_split_lt n before i after : seq 0 n = before ++ i :: after -> (i < n)%nat.
Proof.
  intros Hsplit. assert (i ∈ seq 0 n) as Hin by (rewrite Hsplit; apply elem_of_app; right; left).
  apply elem_of_seq in Hin. lia.
Qed.

(** ** The directory *)

Record directory_kept (entries : Z) (st : DirectoryState) : Prop := mkDirectoryKept {
  dk_tids : tids_ok (v_items (ry_tids st)) (ry_known_tids st);
  dk_index : forall t, is_Some (ry_directory_by_tid st !! t) <-> t ∈ ry_known_tids st;
  dk_range : Forall in_u32 (v_items (ry_tids st));
  dk_hints : Forall (fun f => range_ok (sf_range f)) (v_items (ry_hints st));
  dk_completeness : Forall range_wf (v_items (ry_completeness st));
  dk_entries : Forall (fun e => 0 <= de_index e < entries) (v_items (ry_directories st));
  dk_rotating : Forall in_u32 (v_items (ry_rotating_directory_entries st))
}.

Section phases.
Context {W : Type} `{WorkGuard W} `{Allocator W}.
Context (source : ReadAtSource) (content : bytes) {LS : LawfulSource source content}.
Context (superblock : Superblock) (artifact : ArtifactDigest).
Hypothesis Hsuper : superblock_ok (zlen content) superblock.
Implicit Types x : RecoveryContext.
Abbreviation gives p Q x := (wp (W := W) (E := ProviderError) p Q (fun e _ => recovery_error e) x).

Lemma content_bound : zlen content <= u64_max.
Proof. exact (lawful_bound (src := source) (content := content)). Qed.

Lemma wp_directory_doubt offset entry st x :
  0 <= offset -> directory_end offset <= zlen content -> Forall range_wf (v_items (ry_completeness st)) ->
  in_u32 (de_index entry) -> Forall in_u32 (v_items (ry_rotating_directory_entries st)) ->
  gives (directory_doubt offset entry st)
    (fun r x' => x' = x /\ Forall range_wf (v_items (fst (fst r))) /\ Forall in_u32 (v_items (snd r))) x.
Proof.
  intros Ho Hend Hwf Hindex Hrot. pose proof content_bound as Hb. unfold directory_end in *. wire_consts.
  assert (in_u64 offset /\ in_u64 (offset + 64)) as [Ho64 He64] by (unfold in_u64; lia).
  unfold directory_doubt, directory_end. wire_consts. destruct (de_state entry =? 2).
  - apply wp_bind, gives_push. intros rotating Hr.
    apply wp_bind, gives_source_range; [done..|]. intros c1 Hc1 Hw1.
    apply wp_bind, gives_source_range; [done..|]. intros c2 Hc2 Hw2.
    apply wp_ret. split; [done|]. cbn [fst snd]. rewrite Hc2, Hc1, Hr. split; by repeat apply Forall_snoc.
  - case_match; [|by apply wp_ret].
    apply wp_bind, gives_source_range; [done..|]. intros c1 Hc1 Hw1.
    apply wp_ret. split; [done|]. cbn [fst snd]. rewrite Hc1. split; [by apply Forall_snoc|done].
Qed.

Abbreviation kept_directory := (directory_kept (sb_directory_entries superblock)).

Lemma wp_directory_turn st index x :
  kept_directory st -> (index < Z.to_nat (sb_directory_entries superblock))%nat ->
  gives (directory_turn source superblock st index)
    (fun st' x' => kept_directory st' /\ fx_next_ordinal x' = fx_next_ordinal x) x.
Proof.
  intros [Ht Hi Hr Hh Hc Hd Hrot] Hindex. pose proof content_bound as Hb. pose proof (so_entries _ _ Hsuper) as Hen.
  assert (0 <= rg_offset (sb_directory superblock)) as Hbase
    by (destruct (so_directory _ _ Hsuper) as (_ & Hlow & _); wire_consts; lia).
  unfold directory_turn. apply wp_bind, gives_offset. intros Hle.
  set (offset := rg_offset (sb_directory superblock) + Z.of_nat index * FLIGHT_DIRECTORY_ENTRY_BYTES) in *.
  apply wp_bind, (wp_read_into source content); [wire_consts; lia..| |genuine]. intros Hin.
  apply wp_bind, wp_result.
  destruct (parse_directory _ _ _ _) as [[entry|]|] eqn:Hp; [|by apply wp_ret|by apply error_directory in Hp].
  apply parse_directory_ok in Hp; [|apply length_slice; wire_consts; lia]. destruct Hp as [Hix Htid _ Hrange _].
  apply wp_bind, gives_passed; [genuine|]. intros Hnew%bool_decide_eq_false. rewrite Hi in Hnew.
  apply wp_bind, gives_map, wp_bind, gives_map, wp_bind, gives_push. intros tids Htids.
  apply wp_bind. set (hints_ok := fun v : Vec SequenceFact => Forall (fun f => range_ok (sf_range f)) (v_items v)).
  apply (wp_mono _ (fun v x' => x' = count_input FLIGHT_DIRECTORY_ENTRY_BYTES x /\ hints_ok v) _ (fun e _ => recovery_error e));
    [| |done].
  { destruct (de_range_reliable entry && negb (de_first_sequence entry =? 0)) eqn:E; [|by apply wp_ret].
    apply gives_push. intros v Hv. split; [done|]. unfold hints_ok. rewrite Hv. apply Forall_snoc; [done|].
    cbn. unfold range_ok. cbn. apply andb_true_iff in E as [_ E]. destruct Hrange as [[? ?]|]; lia. }
  intros hints x' [-> Hhints]. apply wp_bind. eapply wp_mono; [apply wp_directory_doubt; [unfold offset; wire_consts; lia|exact Hin|done|unfold in_u32; lia|done]| |done].
  intros [[completeness uncertain] rotating] x' (-> & Hwf & Hrot'). cbn [fst snd] in Hwf, Hrot'.
  apply wp_bind, gives_push. intros directories Hdir. apply wp_ret. split; [|done]. constructor; cbn; rewrite ?Htids; try done.
  - destruct Ht as [Hnd Hset]. split.
    + apply NoDup_app. split; [done|]. split; [|apply NoDup_singleton].
      intros t Hin' ->%list_elem_of_singleton. by apply Hnew, Hset.
    + intros t. rewrite elem_of_union, elem_of_app, Hset. set_solver.
  - intros t. destruct (decide (de_tid entry = t)) as [<-|Hne].
    + rewrite lookup_insert_eq. set_solver.
    + rewrite lookup_insert_ne, Hi by done. set_solver.
  - apply Forall_snoc; [done|]. unfold in_u32. lia.
  - rewrite Hdir. apply Forall_snoc; [done|]. lia.
Qed.

Lemma wp_read_directory x :
  gives (read_directory source superblock)
    (fun st x' => kept_directory st /\ fx_next_ordinal x' = fx_next_ordinal x) x.
Proof.
  unfold read_directory. apply (wp_fold_plain (fun _ st x' => kept_directory st /\ fx_next_ordinal x' = fx_next_ordinal x)).
  - split; [|done]. constructor; cbn; try constructor.
    + constructor.
    + intros t. set_solver.
    + by intros ?%is_Some_None.
    + set_solver.
  - intros before index after st x' Hsplit [Hst Hx]. rewrite <- Hx. apply wp_directory_turn; [done|].
    by apply (seq_split_lt _ before index after).
Qed.

(** ** The chunks *)

Lemma gives_checksum_loop fuel offset size checksum relative x :
  0 <= offset -> 0 <= relative <= size -> offset + size <= zlen content ->
  (Z.to_nat (size - relative) < fuel)%nat ->
  gives (checksum_loop source fuel offset size checksum relative)
    (fun c x' => c = fnv32_update checksum (slice content (offset + relative) (size - relative))
       /\ fx_next_ordinal x' = fx_next_ordinal x) x.
Proof.
  pose proof content_bound as Hb. intros Ho Hr Hle. revert checksum relative x Hr.
  induction fuel as [|fuel IH]; intros checksum relative x Hr Hfuel; [lia|]. cbn [checksum_loop].
  destruct (Z.ltb_spec relative size) as [Hlt|Hge].
  - unfold CHECKSUM_BLOCK. set (amount := Z.min (size - relative) 4096).
    apply wp_bind, wp_consume; [|genuine]. apply wp_bind, gives_option; [genuine|]. unfold try_from.
    intros a. destruct (Z.leb_spec amount usize_max); [|done]. intros [= <-].
    apply wp_bind, gives_passed; [genuine|]. intros _. apply wp_bind, (wp_read_into source content); [lia..| |genuine].
    intros _. apply wp_bind, gives_option; [genuine|]. intros next [-> _]%checked_add_Some.
    eapply wp_mono; [apply IH; lia| |done]. intros c x' [-> ->]. split; [|done].
    replace (size - relative) with (amount + (size - (relative + amount))) by lia.
    rewrite slice_split by lia. unfold fnv32_update. rewrite foldl_app.
    by rewrite Z.add_assoc.
  - apply wp_ret. replace (size - relative) with 0 by lia. unfold slice. by rewrite take_0.
Qed.

Lemma gives_checksum offset size x :
  0 <= offset -> 0 <= size -> offset + size <= zlen content ->
  gives (checksum_region source offset size)
    (fun c x' => c = fnv32 (slice content offset size) /\ fx_next_ordinal x' = fx_next_ordinal x) x.
Proof.
  intros Ho Hs Hle. eapply wp_mono; [apply gives_checksum_loop; lia| |done]. intros c x' [-> ->].
  split; [|done]. unfold fnv32. do 2 f_equal; lia.
Qed.

Definition chunk_start (i : nat) : Z :=
  rg_offset (sb_chunks superblock) + Z.of_nat i * sb_chunk_bytes superblock.
Definition chunk_data (i : nat) : Z := chunk_start i + FLIGHT_CHUNK_HEADER_BYTES.
Definition chunk_stop (i : nat) (header : ChunkHeader) : Z :=
  if ch_state header =? 2 then chunk_data i + ch_committed_bytes header
  else chunk_start i + sb_chunk_bytes superblock.

Definition header_at (i : nat) : option ChunkHeader :=
  match parse_chunk_header (slice content (chunk_start i) FLIGHT_CHUNK_HEADER_BYTES) (Z.of_nat i)
          (chunk_start i) with
  | Ok header => header
  | Err _ => None
  end.

(** A scan and its records are what a sealed header announces. *)
Definition announced (header : ChunkHeader) (scan : RecordScan) (items : list PhysicalFlight) : Prop :=
  items <> [] /\ ch_record_count header = zlen items
  /\ ((sc_first_sequence scan = Some (ch_first_sequence header)
       /\ sc_last_sequence scan = Some (ch_last_sequence header))
      \/ (sc_first_sequence scan = None /\ sc_last_sequence scan = None
          /\ ch_first_sequence header = 0 /\ ch_last_sequence header = 0)).

Lemma header_matches_announced header scan items :
  header_matches header scan items = true -> announced header scan items.
Proof.
  unfold header_matches, announced. intros Hm. apply andb_true_iff in Hm as [Hm He].
  apply andb_true_iff in Hm as [Hn Hc]. split; [|split; [lia|]].
  - intros ->. cbn in Hn. done.
  - destruct (sc_first_sequence scan), (sc_last_sequence scan); try done;
      apply andb_true_iff in He as [H1 H2]; [left|right].
    + split; f_equal; lia.
    + repeat split; try done; lia.
Qed.

Lemma announced_matches header scan items : announced header scan items -> header_matches header scan items = true.
Proof.
  unfold header_matches, announced. intros (Hne & Hc & He). rewrite !andb_true_iff, negb_true_iff. split_and!.
  - destruct items; [done|]. unfold zlen. cbn. lia.
  - lia.
  - destruct He as [[-> ->]|(-> & -> & -> & ->)]; [|done]. lia.
Qed.

(** The records of chunk [i] are exactly the committed ones; a sealed chunk also
    has the checksum, the count and the end points its header announces. *)
Definition chunk_holds (i : nat) (header : ChunkHeader) (items : list PhysicalFlight) : Prop :=
  let sealed := ch_state header =? 2 in
  exists ordinal ordinal' scan,
    scanned content artifact (Z.of_nat i) header (chunk_data i) (chunk_stop i header) (negb sealed)
      ordinal scan items ordinal'
    /\ chunk_stop i header <= chunk_start i + sb_chunk_bytes superblock
    /\ (sealed = true -> announced header scan items
         /\ fnv32 (slice content (chunk_data i) (ch_committed_bytes header)) = ch_checksum header).

(** The damage a rejected chunk is reported with. *)
Definition chunk_damage (i : nat) (header : ChunkHeader) (cause : CompletenessCause) : CompletenessRange :=
  match valid_sealed_range header with
  | Some range => sequence_range range Damaged cause
  | None => source_range (chunk_start i)
              (saturating_add u64_max (chunk_start i) (sb_chunk_bytes superblock)) Damaged cause
  end.

Definition damage_reported (completeness : list CompletenessRange) (i : nat) (header : ChunkHeader) : Prop :=
  exists cause, cause ∈ [Incomplete; Checksum] /\ chunk_damage i header cause ∈ completeness.

(** The chunk is none that checks. *)
Definition refused (i : nat) (header : ChunkHeader) : Prop := forall items, ~ chunk_holds i header items.

(** A damaged range of sequence numbers, with a cause other than loss. *)
Definition range_marked (completeness : list CompletenessRange) (r : SequenceRange) : Prop :=
  exists cause, cause ∈ [Incomplete; Checksum] /\ sequence_range r Damaged cause ∈ completeness.

Lemma marked_more completeness added r :
  range_marked completeness r -> range_marked (completeness ++ added) r.
Proof. intros (cause & Hc & Hin). exists cause. split; [done|]. apply elem_of_app. by left. Qed.

Section chunks.
Context (known : gset Z) (directory_by_tid : gmap Z nat).
Hypothesis Hknown : forall t, is_Some (directory_by_tid !! t) <-> t ∈ known.

Definition published_ok (c : nat * list PhysicalFlight) : Prop :=
  exists header, header_at (fst c) = Some header /\ chunk_header_ok header
    /\ chunk_holds (fst c) header (snd c) /\ ch_tid header ∈ known.

Record chunks_kept (visited : list nat) (published : list (nat * list PhysicalFlight))
    (st : ChunksState) : Prop := mkChunksKept {
  cp_length : length (ck_chunks st) = Z.to_nat (sb_chunk_count superblock);
  cp_published : Forall published_ok published;
  cp_visited : map fst published `sublist_of` visited;
  cp_events : v_items (ck_events st) = concat (map snd published);
  cp_accounted : forall i header, i ∈ visited -> header_at i = Some header ->
    i ∈ map fst published
    \/ (ck_has_damage st = true /\ refused i header /\ damage_reported (v_items (ck_completeness st)) i header);
  cp_hints : Forall (fun f => range_ok (sf_range f)) (v_items (ck_hints st));
  cp_completeness : Forall range_wf (v_items (ck_completeness st));
  cp_damage : Forall range_ok (v_items (ck_damage_ranges st));
  cp_marked : Forall (range_marked (v_items (ck_completeness st))) (v_items (ck_damage_ranges st));
  cp_proofs : Forall (fun p => range_ok (sp_range p)) (v_items (ck_sequence_proofs st));
  cp_lifecycle : forall tid item, ck_lifecycle st !! tid = Some item -> in_u64 (lb_first_begin item);
  cp_active : Forall in_u32 (v_items (ck_active_chunks st))
}.


(** *** What the records of a chunk look like *)

Definition chunk_record (tid : Z) (e : PhysicalFlight) : Prop :=
  (exists q, ek_sequence (ph_key e) = Some q /\ 0 < q <= u64_max)
  /\ ek_tid (ph_key e) = Some tid
  /\ rg_end (sb_emergencies superblock) <= ek_source_offset (ph_key e) <= u64_max.

Lemma physicals_records header start i recs : forall ordinal relative,
  Forall record_ok recs -> 0 <= relative ->
  rg_end (sb_emergencies superblock) <= start ->
  start + relative + zlen (encode_records (ch_generation header) recs) <= u64_max ->
  Forall (chunk_record (ch_tid header)) (physicals artifact i header start ordinal relative recs).
Proof.
  induction recs as [|r recs IH]; intros ordinal relative Hrecs Hrel Hstart Hend; [constructor|].
  apply Forall_cons in Hrecs as [Hr Hrecs]. cbn [physicals].
  cbn in Hend. rewrite zlen_app, zlen_encode_record in Hend. fold (encode_records (ch_generation header) recs) in Hend.
  pose proof (zlen_nonneg (encode_records (ch_generation header) recs)).
  pose proof (fr_storage_bounds r). constructor; [|apply IH; [done|lia..]].
  split; [|split]; cbn; [|done|lia]. exists (fr_sequence r). split; [done|apply rk_sequence, Hr].
Qed.

Lemma scanned_records i header start stop active ordinal scan items ordinal' :
  scanned content artifact i header start stop active ordinal scan items ordinal' ->
  rg_end (sb_emergencies superblock) <= start -> 0 <= start <= stop -> stop <= zlen content ->
  Forall (chunk_record (ch_tid header)) items.
Proof.
  intros (recs & tail & Hs & Hok & _ & _ & _ & -> & _) Hem Hstart Hstop.
  pose proof content_bound as Hb. apply physicals_records; [done|lia|done|].
  apply (f_equal zlen) in Hs. rewrite length_slice, zlen_app in Hs by lia. pose proof (zlen_nonneg tail). lia.
Qed.

(** The first sequence number a lifecycle remembers is one of the records. *)
Lemma lifecycle_first recs : forall start,
  Forall record_ok recs -> in_u64 (default 0 (snd start)) -> in_u64 (default 0 (snd (lifecycle_of start recs))).
Proof.
  induction recs as [|r recs IH]; intros [balance first] Hrecs Hstart; [exact Hstart|].
  apply Forall_cons in Hrecs as [Hr Hrecs]. unfold lifecycle_of. cbn [foldl].
  apply IH; [done|]. unfold update_lifecycle. pose proof (rk_sequence _ Hr) as Hq.
  destruct ((fr_kind r =? 2) || (fr_kind r =? 3)); [|exact Hstart]. cbn [snd].
  destruct (_ && _); [|exact Hstart]. cbn. unfold in_u64. lia.
Qed.

(** *** Publishing or rejecting a chunk *)

Lemma sealed_range_ok header range :
  chunk_header_ok header -> valid_sealed_range header = Some range -> range_ok range.
Proof.
  intros Hh. destruct (co_first _ Hh), (co_last _ Hh). unfold valid_sealed_range, range_ok.
  destruct (_ || _) eqn:E; [done|]. intros [= <-]. cbn. lia.
Qed.

Lemma chunk_region i :
  (i < Z.to_nat (sb_chunk_count superblock))%nat ->
  rg_end (sb_emergencies superblock) <= chunk_start i /\ 0 <= chunk_start i
  /\ chunk_start i + sb_chunk_bytes superblock <= zlen content
  /\ FLIGHT_CHUNK_HEADER_BYTES < sb_chunk_bytes superblock.
Proof.
  intros Hi. destruct (so_chunks _ _ Hsuper) as (Hregion & Hafter & _ & Hend).
  destruct (so_chunk_bytes _ _ Hsuper) as [Hbytes _]. rewrite Hregion in Hend. cbn in Hend.
  destruct (so_emergencies _ _ Hsuper) as (Heq & Hd & _). rewrite Heq in Hafter. cbn in Hafter.
  destruct (so_directory _ _ Hsuper) as (Hdeq & H1 & _). rewrite Hdeq in Hd. cbn in Hd.
  pose proof (so_entries _ _ Hsuper). pose proof (so_emergency_count _ _ Hsuper).
  rewrite Heq. cbn. unfold chunk_start. wire_consts. nia.
Qed.

Lemma damage_more i header completeness added :
  damage_reported completeness i header -> damage_reported (completeness ++ added) i header.
Proof. intros (cause & Hc & Hin). exists cause. split; [done|]. apply elem_of_app. by left. Qed.

Lemma wp_damage_chunk visited published st i header cause x :
  chunks_kept visited published st -> (i < Z.to_nat (sb_chunk_count superblock))%nat ->
  header_at i = Some header -> chunk_header_ok header -> cause ∈ [Incomplete; Checksum] -> refused i header ->
  gives (damage_chunk superblock (valid_sealed_range header) (chunk_start i) cause st)
    (fun st' x' => x' = x /\ chunks_kept (visited ++ [i]) published st') x.
Proof.
  intros [Hlen Hpub Hvis Hev Hacc Hh Hc Hd Hmk Hp Hl Ha] Hi Hat Hok Hcause Href.
  pose proof content_bound as Hb. destruct (chunk_region i Hi) as (_ & Hs & He & Hcb). wire_consts.
  unfold damage_chunk, mark_chunk_damage. apply wp_bind.
  apply (wp_mono _ (fun r x' => x' = x
    /\ v_items (fst (fst r)) = v_items (ck_completeness st) ++ [chunk_damage i header cause]
    /\ range_wf (chunk_damage i header cause)
    /\ Forall range_ok (v_items (snd (fst r)))
    /\ Forall (range_marked (v_items (fst (fst r)))) (v_items (snd (fst r)))
    /\ Forall (fun p => range_ok (sp_range p)) (v_items (snd r))) _ (fun e _ => recovery_error e)); [| |done].
  - unfold chunk_damage. destruct (valid_sealed_range header) as [range|] eqn:Hr.
    + pose proof (sealed_range_ok _ _ Hok Hr) as Hrange.
      apply wp_bind, gives_push. intros proofs Hproofs.
      apply wp_bind, gives_sequence_range; [done|]. intros c Hcs Hwf.
      apply wp_bind, gives_push. intros damage Hdamage. apply wp_ret. cbn [fst snd].
      rewrite Hproofs, Hdamage. refine (conj eq_refl (conj Hcs (conj Hwf (conj _ (conj _ _))))); [by apply Forall_snoc| |by apply Forall_snoc].
      rewrite Hcs. apply Forall_snoc.
      * eapply Forall_impl; [exact Hmk|]. intros r'. apply marked_more.
      * exists cause. split; [done|]. apply elem_of_app. right. by apply list_elem_of_singleton.
    + apply wp_bind, gives_source_range; [unfold in_u64; lia|unfold in_u64, saturating_add; lia|].
      intros c Hcs Hwf. apply wp_ret. cbn [fst snd]. refine (conj eq_refl (conj Hcs (conj Hwf (conj Hd (conj _ Hp))))).
      rewrite Hcs. eapply Forall_impl; [exact Hmk|]. intros r'. apply marked_more.
  - intros [[c damage] proofs] x' (-> & Hcs & Hwf & Hdam & Hmarked & Hprf). cbn in Hcs, Hdam, Hprf, Hmarked. apply wp_ret.
    split; [done|]. constructor; cbn; try done.
    + by apply sublist_inserts_r.
    + intros j h [Hj| ->%list_elem_of_singleton]%elem_of_app Hjat; rewrite Hcs.
      * destruct (Hacc j h Hj Hjat) as [|(_ & Hnone & Hdr)]; [by left|]. right. split; [done|]. split; [done|]. by apply damage_more.
      * right. split; [done|]. rewrite Hat in Hjat. injection Hjat as <-. split; [done|]. exists cause. split; [done|].
        apply elem_of_app. right. by apply list_elem_of_singleton.
    + rewrite Hcs. by apply Forall_snoc.
Qed.

Lemma wp_merge_lifecycle lifecycle tid scan recs x :
  (forall t item, lifecycle !! t = Some item -> in_u64 (lb_first_begin item)) ->
  Forall record_ok recs -> scan = scan_summary recs ->
  gives (merge_lifecycle lifecycle tid (sc_lifecycle_balance scan) (sc_lifecycle_first_begin scan))
    (fun l x' => x' = x /\ forall t item, l !! t = Some item -> in_u64 (lb_first_begin item)) x.
Proof.
  intros Hl Hrecs ->. cbn.
  assert (in_u64 (default 0 (snd (lifecycle_of (0, None) recs)))) as Hfirst.
  { apply lifecycle_first; [done|]. cbn. unfold in_u64, u64_max. lia. }
  unfold merge_lifecycle. destruct (_ && _); [by apply wp_ret|]. apply wp_bind.
  apply (wp_mono _ (fun _ x' => x' = x) _ (fun e _ => recovery_error e)); [| |done].
  { destruct (lifecycle !! tid); [by apply wp_ret|by apply gives_map]. }
  intros _ x' ->. apply wp_ret. split; [done|]. intros t item.
  destruct (decide (tid = t)) as [<-|Hne]; [rewrite lookup_insert_eq|rewrite lookup_insert_ne by done; apply Hl].
  intros [= <-]. destruct (lifecycle !! tid) as [item|] eqn:Hitem; cbn; [|done].
  destruct (_ && _); [done|]. by apply (Hl tid).
Qed.

Lemma wp_append_events target events x :
  gives (append_events target events)
    (fun r x' => x' = x /\ v_items (fst r) = v_items target ++ v_items events) x.
Proof.
  unfold append_events. apply wp_bind.
  apply (wp_mono _ (fun v x' => x' = x /\ v_items v = v_items target ++ v_items events) _ (fun e _ => recovery_error e)); [| |done].
  - apply (wp_fold_plain (fun visited v x' => x' = x /\ v_items v = v_items target ++ visited)).
    + by rewrite app_nil_r.
    + intros before e after v x' _ [-> Hv]. apply gives_push. intros v' ->. by rewrite Hv, app_assoc.
  - intros v x' [-> Hv]. by apply wp_ret.
Qed.

Lemma wp_publish_chunk visited published st i header scan x :
  chunks_kept visited published st -> header_at i = Some header -> chunk_header_ok header ->
  ch_tid header ∈ known ->
  chunk_holds i header (v_items (ck_chunk_events st)) ->
  (exists recs, Forall record_ok recs /\ scan = scan_summary recs) ->
  gives (publish_chunk (ch_tid header) scan st)
    (fun st' x' => x' = x /\ exists published', chunks_kept (visited ++ [i]) published' st') x.
Proof.
  intros [Hlen Hpub Hvis Hev Hacc Hh Hc Hd Hmk Hp Hl Ha] Hat Hok Htid Hholds (recs & Hrecs & Hscan).
  unfold publish_chunk. apply wp_bind. eapply wp_mono; [by eapply wp_merge_lifecycle| |done].
  intros lifecycle x' [-> Hlife]. apply wp_bind. eapply wp_mono; [apply wp_append_events| |done].
  intros [events table] x' [-> Hevents]. cbn in Hevents. apply wp_ret. split; [done|].
  exists (published ++ [(i, v_items (ck_chunk_events st))]). constructor; cbn; try done.
  - apply Forall_snoc; [done|]. by exists header.
  - rewrite map_app. by apply sublist_app.
  - rewrite map_app, concat_app, Hevents, Hev. cbn. by rewrite app_nil_r.
  - intros j h [Hj| ->%list_elem_of_singleton]%elem_of_app Hjat; rewrite map_app, elem_of_app.
    + destruct (Hacc j h Hj Hjat) as [|]; [by left; left|by right].
    + left. right. by apply list_elem_of_singleton.
Qed.

(** *** One chunk *)

Lemma kept_table visited published st table :
  chunks_kept visited published st -> chunks_kept visited published (ck_set_table table st).
Proof. by intros []. Qed.

Lemma kept_hints visited published st hints :
  chunks_kept visited published st -> Forall (fun f => range_ok (sf_range f)) (v_items hints) ->
  chunks_kept visited published (ck_set_hints hints st).
Proof. by intros []. Qed.

Lemma kept_chunk visited published st i identity :
  chunks_kept visited published st -> chunks_kept visited published (ck_set_chunk i identity st).
Proof. intros []. constructor; cbn; rewrite ?length_insert; done. Qed.

(** A chunk has fewer records than bytes. *)
Definition counted (chunks : nat) x : Prop := fx_next_ordinal x <= Z.of_nat chunks * sb_chunk_bytes superblock.

Definition advanced (visited : list nat) (i : nat) (st' : ChunksState) (x' : RecoveryContext) : Prop :=
  (exists published', chunks_kept (visited ++ [i]) published' st') /\ counted (Datatypes.S i) x'.

Lemma wp_reject visited published st i header cause x :
  chunks_kept visited published st -> (i < Z.to_nat (sb_chunk_count superblock))%nat ->
  header_at i = Some header -> chunk_header_ok header -> cause ∈ [Incomplete; Checksum] -> refused i header -> counted (Datatypes.S i) x ->
  gives (damage_chunk superblock (valid_sealed_range header) (chunk_start i) cause st)
    (advanced visited i) x.
Proof.
  intros Hk Hi Hat Hok Hc Href Hx. eapply wp_mono; [by apply (wp_damage_chunk visited published)| |done].
  intros st' x' [-> Hst]. split; [by exists published|done].
Qed.

Lemma wp_counted_damage (p : Prog W ProviderError RecoveryContext ChunksState) visited i n x :
  gives p (advanced visited i) x -> gives (let! a := p in modify (count_damaged n) ;! ret a) (advanced visited i) x.
Proof.
  intros Hp. apply wp_bind. eapply wp_mono; [exact Hp| |done]. intros a x' Ha.
  by apply wp_bind, wp_modify, wp_ret.
Qed.

Lemma records_aligned generation recs : zlen (encode_records generation recs) mod 8 = 0.
Proof.
  unfold encode_records. induction recs as [|r recs IH]; [done|]. cbn. rewrite zlen_app, zlen_encode_record.
  unfold fr_storage. rewrite Z.add_comm, Z.mod_add by lia. done.
Qed.

(** What the data of a sealed chunk that checks looks like. *)
Lemma sealed_extent i header items :
  (i < Z.to_nat (sb_chunk_count superblock))%nat -> chunk_header_ok header -> ch_state header = 2 -> chunk_holds i header items ->
  ch_committed_bytes header <= sb_chunk_bytes superblock - FLIGHT_CHUNK_HEADER_BYTES /\ ch_committed_bytes header mod 8 = 0.
Proof.
  intros Hi Hok Hstate (ordinal & ordinal' & scan & Hscan & Hfit & _). destruct (chunk_region i Hi) as (_ & Hs & He & Hcb).
  destruct (co_committed _ Hok) as [Hcm _]. unfold chunk_stop, chunk_data in *. rewrite Hstate in *. cbn [negb Z.eqb] in *.
  change (Pos.eqb 2 2) with true in *. cbn [negb] in *. wire_consts. split; [lia|].
  destruct Hscan as (recs & tail & Hdata & _ & _ & -> & _). rewrite app_nil_r in Hdata.
  rewrite <- (records_aligned (ch_generation header) recs), <- Hdata, length_slice by lia. f_equal. lia.
Qed.

(** A scan that fails, or whose records are not announced, refuses the chunk. *)
Lemma scan_refuses i header ordinal (outcome : result ProviderError RecordScan) (items : list PhysicalFlight) :
  ch_state header = 2 ->
  (forall scan' items' ordinal',
     scanned content artifact (Z.of_nat i) header (chunk_data i) (chunk_data i + ch_committed_bytes header) false ordinal
       scan' items' ordinal' ->
     match outcome with Ok scan => scan = scan' /\ items = items' | Err e => resource_error e end) ->
  match outcome with
  | Ok scan => header_matches header scan items = false
  | Err e => pe_code e ∈ ["source.flight.record"; "source.flight.record_checksum"]
  end -> refused i header.
Proof.
  intros Hstate Hall Hbad items1 (o & o' & scan1 & Hscan & _ & Hsealed). unfold chunk_stop in Hscan.
  rewrite Hstate in *. change (2 =? 2) with true in *. cbn [negb] in *.
  destruct (Hsealed eq_refl) as [Hann _]. destruct (scanned_from _ _ _ _ _ _ _ _ _ _ _ ordinal Hscan) as (items2 & o2 & Hscan2 & Hlen).
  specialize (Hall _ _ _ Hscan2). destruct outcome as [scan|e].
  - destruct Hall as [-> ->]. rewrite announced_matches in Hbad; [done|]. destruct Hann as (Hne & Hc & He).
    split; [|split; [|done]]; [by destruct items2, items1|]. unfold zlen in *. by rewrite Hlen.
  - unfold resource_error in Hall. apply list_elem_of_In in Hall, Hbad. cbn in Hall, Hbad. intuition congruence.
Qed.

Lemma wp_sealed_chunk visited published st i header x :
  chunks_kept visited published st -> (i < Z.to_nat (sb_chunk_count superblock))%nat ->
  header_at i = Some header -> chunk_header_ok header -> ch_tid header ∈ known -> ch_state header = 2 -> counted i x ->
  gives (sealed_chunk source superblock artifact (Z.of_nat i) header (chunk_start i) (chunk_data i)
           (sb_chunk_bytes superblock - FLIGHT_CHUNK_HEADER_BYTES) st) (advanced visited i) x.
Proof.
  intros Hk Hi Hat Hok Htid Hstate Hx. pose proof content_bound as Hb.
  destruct (chunk_region i Hi) as (Hem & Hs & He & Hcb). destruct (co_committed _ Hok) as [Hcm _].
  assert (chunk_data i = chunk_start i + FLIGHT_CHUNK_HEADER_BYTES) as Hdata by done.
  assert (chunk_stop i header = chunk_data i + ch_committed_bytes header) as Hstop
    by (unfold chunk_stop; by rewrite Hstate).
  assert (forall x', fx_next_ordinal x' <= fx_next_ordinal x + (sb_chunk_bytes superblock - FLIGHT_CHUNK_HEADER_BYTES) -> counted (Datatypes.S i) x') as Hgrow
    by (unfold counted in *; wire_consts; lia).
  assert (fx_next_ordinal x + sb_chunk_bytes superblock <= u64_max) as Hroom 
    by (destruct (chunk_region 0) as (_ & Hfirst & _); [lia|]; unfold counted, chunk_start in *; lia).
  wire_consts. unfold sealed_chunk. apply wp_bind.
  apply (wp_mono _ (fun hints x' => x' = x /\ chunks_kept visited published (ck_set_hints hints st))
    _ (fun e _ => recovery_error e)); [| |done].
  { destruct (valid_sealed_range header) as [range|] eqn:Hr.
    - apply gives_push. intros hints Hh. split; [done|]. apply kept_hints; [done|]. rewrite Hh.
      apply Forall_snoc; [apply Hk|]. by eapply sealed_range_ok.
    - apply wp_ret. split; [done|]. apply kept_hints; [done|apply Hk]. }
  clear Hk. intros hints x' [-> Hk]. set (st1 := ck_set_hints hints st) in *.
  destruct (_ || _) eqn:Hbad.
  { apply (wp_reject visited published); [done..|set_solver| |apply Hgrow; lia].
    intros items [H1 H2]%(sealed_extent i header items Hi Hok Hstate). wire_consts. lia. }
  apply orb_false_iff in Hbad as [Hfit _]. rewrite Z.gtb_ltb, Z.ltb_ge in Hfit.
  apply wp_bind. eapply wp_mono; [apply gives_checksum; lia| |done]. intros checksum x1 [Hsum Hx1].
  destruct (Z.eqb_spec checksum (ch_checksum header)) as [Heq|Hne]; cbn [negb].
  2: { apply wp_counted_damage, (wp_reject visited published); [done..|set_solver| |apply Hgrow; lia].
       intros items (o & o' & scan & _ & _ & Hsealed). rewrite Hstate in Hsealed. destruct (Hsealed eq_refl) as [_ Hc]. by subst checksum. }
  apply wp_bind, gives_option; [genuine|]. intros stop [-> _]%checked_add_Some. apply wp_bind.
  eapply wp_mono; [apply (wp_try_scan source artifact (Z.of_nat i) header content); [lia|lia|destruct (co_generation _ Hok); unfold in_u32; lia|lia]| |done].
  intros [outcome table] x2 (Hx2 & Hscan & Hall); cbn [fst snd] in Hscan, Hall.
  pose proof (scan_refuses i header _ outcome (v_items table) Hstate Hall) as Href. destruct outcome as [scan|error].
  2: { destruct (bool_decide (_ ∈ _)) eqn:Hcode; [|by apply wp_throw]. apply bool_decide_eq_true in Hcode.
       apply wp_counted_damage, (wp_reject visited published); [by apply kept_table|done..| |by apply Href|apply Hgrow; lia].
       destruct (bool_decide _); set_solver. }
  destruct (header_matches header scan (v_items table)) eqn:Hmatch; cbn [negb];
    [|by apply (wp_reject visited published); [apply kept_table|..|set_solver|apply Href|apply Hgrow; lia]].
  eapply wp_mono; [apply (wp_publish_chunk visited published _ i header); [by apply kept_table|done..| |]| |done].
  - exists (fx_next_ordinal x1), (fx_next_ordinal x2), scan. rewrite Hstate, Hstop. cbn.
    split; [exact Hscan|]. split; [lia|]. intros _. split; [by apply header_matches_announced|]. by subst checksum.
  - destruct Hscan as (recs & tail & _ & Hrecs & _ & _ & -> & _). by exists recs.
  - intros st' x' [-> Hst']. split; [done|]. apply Hgrow. lia.
Qed.

Lemma wp_active_chunk visited published st i header x :
  chunks_kept visited published st -> (i < Z.to_nat (sb_chunk_count superblock))%nat ->
  header_at i = Some header -> chunk_header_ok header -> ch_tid header ∈ known -> ch_state header <> 2 -> counted i x ->
  gives (active_chunk source artifact (Z.of_nat i) header (chunk_start i) (chunk_data i)
           (sb_chunk_bytes superblock - FLIGHT_CHUNK_HEADER_BYTES) st) (advanced visited i) x.
Proof.
  intros Hk Hi Hat Hok Htid Hstate Hx. pose proof content_bound as Hb.
  destruct (chunk_region i Hi) as (Hem & Hs & He & Hcb).
  assert (chunk_data i = chunk_start i + FLIGHT_CHUNK_HEADER_BYTES) as Hdata by done.
  apply Z.eqb_neq in Hstate.
  assert (chunk_stop i header = chunk_start i + sb_chunk_bytes superblock) as Hstop
    by (unfold chunk_stop; by rewrite Hstate). wire_consts.
  unfold active_chunk. apply wp_bind, gives_push. intros active Hactive.
  apply wp_bind, gives_source_range; [unfold in_u64; lia..|]. intros completeness Hc Hwf.
  apply wp_bind, gives_option; [genuine|]. intros stop [-> _]%checked_add_Some. apply wp_bind.
  replace (chunk_data i + (sb_chunk_bytes superblock - 64)) with (chunk_stop i header) by lia.
  eapply wp_mono; [apply (wp_scan_records source content); lia| |by intros e x' [? _]]. intros [scan table] x1 Hscan.
  cbn [fst snd] in *. eapply wp_mono; [apply (wp_publish_chunk visited published _ i header); [|done..| |]| |done].
  - apply kept_table. destruct Hk as [Hlen Hpub Hvis Hev Hacc Hh Hcs Hd Hmk Hp Hl Ha]. constructor; cbn; try done.
    + intros j h Hj Hjat. rewrite Hc. destruct (Hacc j h Hj Hjat) as [|(? & ? & ?)]; [by left|right].
      split; [done|]. split; [done|]. by apply damage_more.
    + rewrite Hc. by apply Forall_snoc.
    + rewrite Hc. eapply Forall_impl; [exact Hmk|]. intros r'. apply marked_more.
    + rewrite Hactive. apply Forall_snoc; [done|]. pose proof (so_chunk_count _ _ Hsuper). unfold in_u32. lia.
  - exists (fx_next_ordinal x), (fx_next_ordinal x1), scan. rewrite Hstate, Hstop. cbn [negb].
    split; [by rewrite <- Hstop|]. split; [lia|done].
  - destruct Hscan as (recs & tail & _ & Hrecs & _ & _ & -> & _). by exists recs.
  - intros st' x' [-> Hst']. split; [done|]. destruct Hscan as (recs & tail & Hdat & _ & _ & _ & _ & _ & Hx1).
    pose proof (scanned_count content header (chunk_data i) (chunk_stop i header) ltac:(lia) ltac:(lia) recs tail Hdat).
    pose proof (zlen_nonneg recs). unfold counted in *. lia.
Qed.

Lemma wp_recover_chunk visited published st i x :
  chunks_kept visited published st -> (i < Z.to_nat (sb_chunk_count superblock))%nat -> counted i x ->
  gives (recover_chunk source superblock artifact directory_by_tid st i) (advanced visited i) x.
Proof.
  intros Hk Hi Hx. pose proof content_bound as Hb. destruct (chunk_region i Hi) as (Hem & Hs & He & Hcb).
  unfold recover_chunk. apply wp_bind, wp_consume; [|genuine]. apply wp_bind, gives_offset. intros _.
  fold (chunk_start i). apply wp_bind, (wp_read_into source content); [wire_consts; lia..| |genuine]. intros Hin.
  apply wp_bind, wp_result.
  destruct (parse_chunk_header _ _ _) as [[header|]|] eqn:Hparse; [| |by apply error_chunk_header in Hparse].
  - assert (header_at i = Some header) as Hat by (unfold header_at; by rewrite Hparse).
    apply chunk_header_sound in Hparse as [Hok _]; [|apply length_slice; wire_consts; lia].
    apply wp_bind, gives_passed; [genuine|]. intros Htid%negb_false_iff%bool_decide_eq_true. rewrite Hknown in Htid.
    apply wp_bind, gives_option; [genuine|]. intros _ _.
    apply wp_bind, gives_option; [genuine|]. intros capacity. unfold checked_sub.
    destruct (_ <=? _); [|done]. intros [= <-].
    apply wp_bind, gives_option; [genuine|]. intros data [-> _]%checked_add_Some. fold (chunk_data i).
    destruct (Z.eqb_spec (ch_state header) 2).
    + apply (wp_sealed_chunk visited published); [by apply kept_chunk|done..].
    + apply (wp_active_chunk visited published); [by apply kept_chunk|done..].
  - apply wp_ret. split; [|unfold counted in *; cbn [fx_next_ordinal count_input]; wire_consts; lia]. exists published. destruct Hk as [Hlen Hpub Hvis Hev Hacc Hh Hcs Hd Hmk Hp Hl Ha].
    constructor; try done.
    + by apply sublist_inserts_r.
    + intros j h [Hj| ->%list_elem_of_singleton]%elem_of_app Hjat; [by apply Hacc|].
      unfold header_at in Hjat. by rewrite Hparse in Hjat.
Qed.

End chunks.

(** *** All of them *)

Lemma wp_recover_chunks chunks directory x :
  length chunks = Z.to_nat (sb_chunk_count superblock) -> kept_directory directory -> fx_next_ordinal x = 0 ->
  gives (recover_chunks source superblock artifact chunks directory)
    (fun st _ => exists published,
       chunks_kept (ry_known_tids directory) (seq 0 (Z.to_nat (sb_chunk_count superblock))) published st) x.
Proof.
  intros Hlen [Ht Hi Hr Hh Hc _ _] Hx. unfold recover_chunks.
  set (inv := fun visited st x' => (exists published, chunks_kept (ry_known_tids directory) visited published st)
    /\ counted (length visited) x').
  apply (wp_mono _ (inv (seq 0 (Z.to_nat (sb_chunk_count superblock)))) _ (fun e _ => recovery_error e)); [|by intros st x' [? _]|done].
  apply (wp_fold_plain inv).
  - split; [|unfold counted; cbn; lia]. exists []. constructor; cbn; try done; by constructor.
  - intros before i after st x' Hsplit [[published Hk] Hcount]. unfold inv. rewrite length_app, Nat.add_1_r.
    rewrite <- (seq_split_index _ _ _ _ Hsplit) in *.
    apply (wp_recover_chunk _ (ry_directory_by_tid directory) Hi before published); [done| |done].
    by apply (seq_split_lt _ before i after).
Qed.

End phases.
