(* ===== verification/FlightPhysical.v ===== *)
(** * The records a Flight artifact holds, in order

    The phases of [recover] before the records are typed: the directory against
    the chunks, the sequence numbers of the chunks, the emergency cells, the
    order of the records and of the threads. *)

From stdpp Require Import prelude list sorting strings gmap.
From Stdlib Require Import ZArith Lia Strings.Byte Sorted.
From S2P Require Import Prelude Prog Control Throws Model Source QtrbEvents FlightWire FlightContext FlightErrors FlightScan FlightLoss FlightSort FlightMerge FlightReport FlightEmergency FlightPayload FlightFragments FlightEvents FlightRecover FlightRecovered.
Local Open Scope string_scope.
Local Open Scope list_scope.
Local Open Scope Z_scope.

(** ** Sorting by the bytes of a number *)

Section sorts.
Context {W : Type} `{WorkGuard W} `{Allocator W} {S : Type}.
Abbreviation gives p Q s := (wp (W := W) (E := ProviderError) (S := S) p Q (fun e _ => recovery_error e) s).

Lemma gives_sorted {T} key_byte (digits : T -> bytes) passes values (Q : list T -> S -> Prop) s :
  (forall v p b, v ∈ values -> digits v !! p = Some b -> key_byte v p = Ok (Z_of_byte b)) ->
  (forall v, v ∈ values -> length (digits v) = passes) ->
  Q (stable_sort (fun v => le_Z (digits v)) values) s ->
  gives (guarded_radix_sort key_byte values passes) Q s.
Proof.
  intros Hdigits Hlen HQ. apply wp_radix_sort; [| |genuine].
  - intros v p Hv Hp. destruct (lookup_lt_is_Some_2 (digits v) p) as [b Hb]; [by rewrite Hlen|].
    exists (Z_of_byte b). split; [by apply Hdigits|]. pose proof (Z_of_byte_range b). lia.
  - erewrite stable_sort_ext; [exact HQ|]. intros v Hv. cbn beta. rewrite <- (Hlen v Hv).
    apply radix_key_digits. intros p b. by apply Hdigits.
Qed.

Lemma gives_sorted_u32 values (Q : list Z -> S -> Prop) s :
  Forall in_u32 values ->
  Q (stable_sort (fun v => v) values) s -> gives (guarded_radix_sort u32_byte values 4) Q s.
Proof.
  intros Hv HQ. apply (gives_sorted _ (le_bytes 4)).
  - intros v p b _ Hb. by apply byte_at_lookup.
  - intros v _. apply length_le_bytes.
  - erewrite stable_sort_ext; [exact HQ|]. intros v Hin. cbn beta. apply le_Z_le_bytes.
    apply (proj1 (Forall_forall _ _) Hv) in Hin. unfold in_u32, u32_max in Hin.
    change (256 ^ Z.of_nat 4) with (2 ^ 32). lia.
Qed.

Lemma gives_sorted_events events (Q : list PhysicalFlight -> S -> Prop) s :
  Forall (fun e => exists q, ek_sequence (ph_key e) = Some q /\ 0 < q <= u64_max) events ->
  Q (stable_sort sequence_of events) s -> gives (guarded_radix_sort event_sequence_byte events 8) Q s.
Proof.
  intros Hv HQ. rewrite Forall_forall in Hv. apply (gives_sorted _ (fun e => le_bytes 8 (sequence_of e))).
  - intros e p b He Hb. destruct (Hv e He) as (q & Hq & _). unfold event_sequence_byte, sequence_of in *.
    rewrite Hq in *. by apply byte_at_lookup.
  - intros v _. apply length_le_bytes.
  - erewrite stable_sort_ext; [exact HQ|]. intros e He. cbn beta. destruct (Hv e He) as (q & Hq & Hr).
    apply u64_bytes. unfold sequence_of, in_u64. rewrite Hq. cbn. lia.
Qed.

Lemma gives_sorted_ranges ranges (Q : list SequenceRange -> S -> Prop) s :
  Forall range_ok ranges ->
  (forall out, out ≡ₚ ranges -> StronglySorted by_first out -> Q out s) ->
  gives (guarded_radix_sort sequence_range_byte ranges 16) Q s.
Proof.
  intros Hv HQ. rewrite Forall_forall in Hv.
  apply (gives_sorted _ (fun r => le_bytes 8 (sr_last r) ++ le_bytes 8 (sr_first r))).
  - intros r p b Hr Hb. unfold sequence_range_byte. destruct (Nat.ltb_spec p 8).
    + rewrite lookup_app_l in Hb by (by rewrite length_le_bytes). by apply byte_at_lookup.
    + rewrite lookup_app_r in Hb by (by rewrite length_le_bytes). rewrite length_le_bytes in Hb.
      by apply byte_at_lookup.
  - intros r _. by rewrite length_app, !length_le_bytes.
  - apply HQ; [apply stable_sort_perm|].
    eapply Sorted_impl_elem; [|apply stable_sort_sorted]. intros a b Ha Hb. cbn beta.
    rewrite stable_sort_perm in Ha, Hb. destruct (Hv a Ha) as [Ha1 Ha2], (Hv b Hb) as [Hb1 Hb2].
    rewrite !le_Z_app, !u64_bytes, !zlen_le_bytes by (unfold in_u64; lia).
    change (256 ^ Z.of_nat 8) with (2 ^ 64). unfold by_first, u64_max in *. lia.
Qed.

Lemma gives_sorted_facts facts (Q : list SequenceFact -> S -> Prop) s :
  Forall (fun f => range_ok (sf_range f)) facts ->
  (forall out, out ≡ₚ facts -> claims_ok out -> Q out s) ->
  gives (guarded_radix_sort sequence_fact_byte facts 8) Q s.
Proof.
  intros Hv HQ. rewrite Forall_forall in Hv.
  apply (gives_sorted _ (fun f => le_bytes 8 (sr_first (sf_range f)))).
  - intros f p b _ Hb. by apply byte_at_lookup.
  - intros f _. by rewrite length_le_bytes.
  - apply HQ; [apply stable_sort_perm|]. split.
    + apply Forall_map. rewrite stable_sort_perm. by apply Forall_forall.
    + eapply Sorted_impl_elem; [|apply stable_sort_sorted]. intros a b Ha Hb. cbn beta.
      rewrite stable_sort_perm in Ha, Hb. destruct (Hv a Ha) as [Ha1 Ha2], (Hv b Hb) as [Hb1 Hb2].
      rewrite !u64_bytes by (unfold in_u64; lia). done.
Qed.

End sorts.

(** ** The physical phases *)

Section physical.
Context {W : Type} `{WorkGuard W} `{Allocator W}.
Context (source : ReadAtSource) (content : bytes) {LS : LawfulSource source content}.
Context (superblock : Superblock) (artifact : ArtifactDigest).
Hypothesis Hsuper : superblock_ok (zlen content) superblock.
Implicit Types x : RecoveryContext.
Abbreviation gives p Q x := (wp (W := W) (E := ProviderError) p Q (fun e _ => recovery_error e) x).

Definition emergency_region (e : PhysicalFlight) : bool :=
  from_emergency (rg_offset (sb_emergencies superblock)) (rg_end (sb_emergencies superblock)) e.

(** Every record of the artifact: those of the published chunks, then the
    emergency cells that repeat none of them. *)
Definition all_records (published : list (nat * list PhysicalFlight)) (ordinal : Z) : list PhysicalFlight :=
  let regular := concat (map snd published) in
  let cells := concat (map (slot_candidates content superblock)
                         (seq 0 (Z.to_nat (sb_emergency_count superblock)))) in
  regular ++ imap (fun i c => emergency_record artifact (ordinal + Z.of_nat i) c)
               (surviving (list_to_set (map sequence_of regular)) cells).

Definition record_fine (e : PhysicalFlight) : Prop :=
  (exists q, ek_sequence (ph_key e) = Some q /\ 0 < q <= u64_max)
  /\ in_u64 (ek_source_offset (ph_key e)).

(** A directory entry that names a chunk which is no longer its own. *)
Definition stale_entry (chunks : list (option ChunkIdentity)) (entry : DirectoryEntry) : bool :=
  negb ((de_state entry =? 2) || (de_chunk_index entry =? INVALID_INDEX))
  && negb (directory_current chunks entry).

Lemma directory_region index :
  0 <= rg_offset (sb_directory superblock)
  /\ (0 <= index < sb_directory_entries superblock ->
      rg_offset (sb_directory superblock) + index * FLIGHT_DIRECTORY_ENTRY_BYTES + FLIGHT_DIRECTORY_ENTRY_BYTES
      <= u64_max).
Proof.
  destruct (so_directory _ _ Hsuper) as (Hd & Hlow & _). destruct (so_emergencies _ _ Hsuper) as (He & Hmid & _).
  destruct (so_chunks _ _ Hsuper) as (Hc & Hhigh & _ & Hend). destruct (so_size _ _ Hsuper) as [_ Hsize].
  pose proof (so_entries _ _ Hsuper). pose proof (so_chunk_count _ _ Hsuper).
  pose proof (so_emergency_count _ _ Hsuper). destruct (so_chunk_bytes _ _ Hsuper) as [Hb _].
  rewrite Hd in Hmid. rewrite He in Hhigh. rewrite Hc in Hend. cbn in Hmid, Hhigh, Hend. wire_consts. nia.
Qed.

Lemma wp_stale_turn chunks visited acc i entry x :
  0 <= de_index entry < sb_directory_entries superblock ->
  v_items (fst (fst acc)) = map de_index (List.filter (stale_entry chunks) visited) ->
  Forall range_wf (v_items (snd (fst acc))) ->
  gives (stale_turn superblock chunks acc (i, entry))
    (fun acc' x' => x' = x
       /\ v_items (fst (fst acc')) = map de_index (List.filter (stale_entry chunks) (visited ++ [entry]))
       /\ Forall range_wf (v_items (snd (fst acc')))
       /\ v_items (snd (fst acc)) `prefix_of` v_items (snd (fst acc'))) x.
Proof.
  destruct acc as [[stale completeness] incomplete]. cbn [fst snd]. intros Hindex Hstale Hwf.
  rewrite List.filter_app, map_app, <- Hstale. cbn [List.filter].
  destruct (directory_region (de_index entry)) as [Hlow Hhigh].
  unfold stale_turn. apply wp_bind, gives_checkpoint. unfold stale_entry.
  destruct (_ || _); [by apply wp_ret; cbn; rewrite app_nil_r|].
  destruct (directory_current chunks entry); [by apply wp_ret; cbn; rewrite app_nil_r|].
  apply wp_bind, gives_push. intros stale' Hs. apply wp_bind, gives_offset. intros _.
  unfold directory_end. apply wp_bind, gives_source_range; [unfold in_u64; wire_consts; nia..|].
  intros completeness' Hc Hw. apply wp_ret. cbn [fst snd]. split; [done|]. split; [done|].
  rewrite Hc. split; [by apply Forall_snoc|by apply prefix_app_r].
Qed.

Lemma wp_stale_entries chunks directories completeness incomplete x :
  Forall (fun e => 0 <= de_index e < sb_directory_entries superblock) directories ->
  Forall range_wf (v_items completeness) ->
  gives (fold_each (imap pair directories) (vec_new, completeness, incomplete)
           (stale_turn superblock chunks))
    (fun acc x' => x' = x
       /\ v_items (fst (fst acc)) = map de_index (List.filter (stale_entry chunks) directories)
       /\ Forall range_wf (v_items (snd (fst acc)))
       /\ v_items completeness `prefix_of` v_items (snd (fst acc))) x.
Proof.
  intros Hdir Hwf.
  apply (wp_fold_indexed (fun visited acc =>
    v_items (fst (fst acc)) = map de_index (List.filter (stale_entry chunks) visited)
    /\ Forall range_wf (v_items (snd (fst acc)))
    /\ v_items completeness `prefix_of` v_items (snd (fst acc)))); [done|].
  intros before entry after acc -> (Hstale & Hw & Hpre).
  apply Forall_app in Hdir as [_ [Hindex _]%Forall_cons].
  eapply wp_mono; [by apply (wp_stale_turn chunks before)| |done].
  intros acc' x' (-> & Hs' & Hw' & Hp'). split_and!; try done. by trans (v_items (snd (fst acc))).
Qed.

Lemma wp_index_sequences events x :
  gives (index_regular_sequences events)
    (fun set x' => x' = x /\ set = list_to_set (map sequence_of events)) x.
Proof.
  unfold index_regular_sequences. apply (gives_bind _ _ (fun _ => True)).
  { eapply wp_mono; [by apply (settles_map _ _ _ (fun _ => True))|done|by intros e s' [_ ?%recovery_resource]]. }
  intros _ _. apply (wp_fold_indexed (fun visited set => set = list_to_set (map sequence_of visited))); [done|].
  intros before e after set _ ->. apply wp_bind, gives_checkpoint.
  apply wp_bind, gives_option; [genuine|]. intros q Hq. apply wp_bind, gives_passed; [genuine|]. intros _. apply wp_ret.
  split; [done|]. rewrite map_app, list_to_set_app_L. cbn. unfold sequence_of at 3. rewrite Hq. set_solver.
Qed.

(** *** What the records are *)

Section records.
Context (known : gset Z) (published : list (nat * list PhysicalFlight)) (ordinal : Z).
Hypothesis Hpublished : Forall (published_ok content superblock artifact known) published.
Hypothesis Hindices : Forall (fun c => fst c < Z.to_nat (sb_chunk_count superblock))%nat published.

Lemma published_records e :
  e ∈ concat (map snd published) ->
  exists tid, chunk_record superblock tid e /\ tid ∈ known.
Proof.
  rewrite list_elem_of_In, in_concat. intros (items & Hitems & He).
  apply in_map_iff in Hitems as ([i items'] & <- & Hc). cbn [snd] in He. apply list_elem_of_In in Hc, He.
  rewrite Forall_forall in Hpublished, Hindices.
  destruct (Hpublished _ Hc) as (header & _ & Hok & (o & o' & scan & Hscan & Hstop & _) & Htid).
  specialize (Hindices _ Hc). cbn [fst snd] in *. exists (ch_tid header). split; [|done].
  destruct (chunk_region content superblock Hsuper i Hindices) as (Hem & Hs & He' & Hcb).
  destruct (co_committed _ Hok) as [Hcm _].
  assert (chunk_data superblock i <= chunk_stop superblock i header) as Hle.
  { unfold chunk_stop, chunk_data. destruct (_ =? _); wire_consts; lia. }
  assert (chunk_data superblock i = chunk_start superblock i + FLIGHT_CHUNK_HEADER_BYTES) as Hd by done.
  pose proof (scanned_records source content superblock artifact _ _ _ _ _ _ _ _ _ Hscan
    ltac:(wire_consts; lia) ltac:(wire_consts; lia) ltac:(lia)) as Hrecs.
  by apply (proj1 (Forall_forall _ _) Hrecs).
Qed.

Definition surviving_cells : list EmergencyCandidate :=
  surviving (list_to_set (map sequence_of (concat (map snd published))))
    (concat (map (slot_candidates content superblock) (seq 0 (Z.to_nat (sb_emergency_count superblock))))).

Lemma emergencies_inside :
  0 <= rg_offset (sb_emergencies superblock)
  /\ rg_offset (sb_emergencies superblock) + sb_emergency_count superblock * FLIGHT_EMERGENCY_SLOT_BYTES
     <= zlen content.
Proof.
  destruct (so_directory _ _ Hsuper) as (Hd & Hlow & _). destruct (so_emergencies _ _ Hsuper) as (He & Hmid & _).
  destruct (so_chunks _ _ Hsuper) as (Hc & Hhigh & _ & Hend).
  pose proof (so_entries _ _ Hsuper). pose proof (so_chunk_count _ _ Hsuper).
  destruct (so_chunk_bytes _ _ Hsuper) as [Hb _].
  rewrite Hd in Hmid. rewrite He in Hhigh. rewrite Hc in Hend. cbn in Hmid, Hhigh, Hend. wire_consts. nia.
Qed.

Lemma all_records_fine e :
  e ∈ all_records published ordinal ->
  record_fine e /\ exists tid, ek_tid (ph_key e) = Some tid
    /\ (tid ∈ known \/ tid ∈ map (fun c => em_tid (ec_cell c)) surviving_cells).
Proof.
  intros [He|He]%elem_of_app.
  - destruct (published_records e He) as (tid & (Hq & Ht & Ho) & Hk). split.
    + split; [done|]. unfold in_u64. destruct emergencies_inside as [H1 _].
      destruct (so_emergencies _ _ Hsuper) as (Heq & _). rewrite Heq in Ho. cbn in Ho.
      pose proof (so_entries _ _ Hsuper). pose proof (so_emergency_count _ _ Hsuper). wire_consts. lia.
    + exists tid. by split; [|left].
  - apply elem_of_lookup_imap in He as (i & c & -> & Hc). apply list_elem_of_lookup_2 in Hc.
    pose proof content_bound as Hb. specialize (Hb source content LS).
    destruct (slots_fit source content superblock _ emergencies_inside c Hc) as (([H1 H2] & _ & _ & Hs & Ht) & _).
    split.
    + split; [by eexists|]. cbn. unfold in_u64. wire_consts. lia.
    + eexists. split; [done|]. right. apply list_elem_of_fmap. by exists c.
Qed.

End records.

(** *** The whole of the physical phases *)

Abbreviation em_start := (rg_offset (sb_emergencies superblock)).
Abbreviation em_end := (rg_end (sb_emergencies superblock)).

Record physical_ok (published : list (nat * list PhysicalFlight)) (ordinal : Z) (p : PhysicalState) :
    Prop := mkPhysicalOk {
  po_directory : directory_kept (sb_directory_entries superblock) (py_directory p);
  po_chunks : chunks_kept content superblock artifact (ry_known_tids (py_directory p))
    (seq 0 (Z.to_nat (sb_chunk_count superblock))) published (py_chunks p);
  po_events : v_items (py_events p)
    = kept em_start em_end (stable_sort sequence_of (all_records published ordinal));
  po_recovered : recovered (v_items (py_events p));
  po_fine : Forall record_fine (v_items (py_events p));
  po_tids : StronglySorted Z.lt (py_tids p) /\ Forall in_u32 (py_tids p);
  po_owned : Forall (fun e => exists tid, ek_tid (ph_key e) = Some tid /\ tid ∈ py_tids p)
    (v_items (py_events p));
  po_stale : v_items (py_stale p)
    = map de_index (List.filter (stale_entry (ck_chunks (py_chunks p)))
                      (v_items (ry_directories (py_directory p))));
  po_completeness : Forall range_wf (v_items (py_completeness p));
  po_reported : v_items (ck_completeness (py_chunks p)) `prefix_of` v_items (py_completeness p)
}.

Lemma gives_none_vec {A} t n x :
  0 <= n -> gives (fallible_none_vec (A := A) t n) (fun v x' => x' = x /\ zlen (v_items v) = n) x.
Proof.
  intros Hn. unfold fallible_none_vec. apply (gives_bind _ _ (fun v => v_items v = [])).
  { eapply wp_mono; [by apply (settles_vec _ _ (fun v => v_items v = []))|done|by intros e s' [_ ?%recovery_resource]]. }
  intros v Hv.
  eapply (wp_mono _ (fun v x' => x' = x /\ zlen (v_items v) = zlen (seq 0 (Z.to_nat n)))); [| |intros ??; exact id].
  - apply (wp_fold_still (fun visited (v : Vec (option A)) => zlen (v_items v) = zlen visited)); [by rewrite Hv|].
    intros before i after v' _ Hv'. apply wp_bind, gives_checkpoint, wp_ret. split; [done|].
    cbn. rewrite !zlen_app, Hv'. done.
  - intros v' x' [-> Hv']. split; [done|]. rewrite Hv'. unfold zlen. rewrite length_seq. lia.
Qed.

Lemma sorted_tids tids : NoDup tids -> StronglySorted Z.lt (stable_sort (fun t => t) tids).
Proof.
  intros Hnd. pose proof (stable_sort_sorted (fun t => t) tids) as Hs.
  assert (NoDup (stable_sort (fun t => t) tids)) as Hnd' by (by rewrite stable_sort_perm).
  induction Hs as [|t l Hl IH Ht]; [constructor|]. apply NoDup_cons in Hnd' as [Hnin Hnd'].
  constructor; [by apply IH|]. rewrite Forall_forall in *. intros u Hu. specialize (Ht u Hu).
  destruct (decide (t = u)) as [->|]; [done|lia].
Qed.

Lemma kept_elem events e : e ∈ kept em_start em_end events -> e ∈ events.
Proof. rewrite !list_elem_of_In. unfold kept. by intros [? _]%filter_In. Qed.

(** The records and the threads, ordered. *)
Record ordered_records (published : list (nat * list PhysicalFlight)) (ordinal : Z)
    (completeness : list CompletenessRange) (resolved : Vec PhysicalFlight * Vec CompletenessRange)
    (tids : list Z) : Prop := mkOrderedRecords {
  oc_events : v_items (fst resolved)
    = kept em_start em_end (stable_sort sequence_of (all_records published ordinal));
  oc_recovered : recovered (v_items (fst resolved));
  oc_fine : Forall record_fine (v_items (fst resolved));
  oc_tids : StronglySorted Z.lt tids /\ Forall in_u32 tids;
  oc_owned : Forall (fun e => exists tid, ek_tid (ph_key e) = Some tid /\ tid ∈ tids) (v_items (fst resolved));
  oc_completeness : exists added, v_items (snd resolved) = completeness ++ added /\ Forall range_wf added
}.

Lemma wp_ordered {B} known published ordinal em (k : Vec PhysicalFlight * Vec CompletenessRange -> list Z ->
    Prog W ProviderError RecoveryContext B) (Q : B -> RecoveryContext -> Prop) x :
  Forall (published_ok content superblock artifact known) published ->
  Forall (fun c => fst c < Z.to_nat (sb_chunk_count superblock))%nat published ->
  v_items (sl_events em) = all_records published ordinal ->
  (forall t, t ∈ v_items (sl_tids em) <-> t ∈ known
     \/ t ∈ map (fun c => em_tid (ec_cell c)) (surviving_cells published)) ->
  NoDup (v_items (sl_tids em)) -> Forall in_u32 (v_items (sl_tids em)) ->
  (forall resolved tids,
     ordered_records published ordinal (v_items (sl_completeness em)) resolved tids -> gives (k resolved tids) Q x) ->
  gives (let! sorted := guarded_radix_sort event_sequence_byte (v_items (sl_events em)) 8 in
         let! resolved := resolve_sequence_collisions (mkVec sorted (v_capacity (sl_events em)))
           em_start em_end (sl_completeness em) in
         let! tids := guarded_radix_sort u32_byte (v_items (sl_tids em)) 4 in
         k resolved tids) Q x.
Proof.
  intros Hpub Hidx Hev Htids Hnd Hu32 Hk. rewrite Hev.
  pose proof (all_records_fine known published ordinal Hpub Hidx) as Hfine.
  set (events := stable_sort sequence_of (all_records published ordinal)).
  assert (forall e, e ∈ events -> record_fine e /\ exists tid, ek_tid (ph_key e) = Some tid
    /\ (tid ∈ known \/ tid ∈ map (fun c => em_tid (ec_cell c)) (surviving_cells published))) as Hevents.
  { intros e He. apply Hfine. unfold events in He. by rewrite stable_sort_perm in He. }
  apply wp_bind, gives_sorted_events; [apply Forall_forall; intros e He; apply Hfine, He|]. fold events.
  apply wp_bind. eapply wp_mono; [apply wp_resolve; cbn| |].
  { apply Forall_forall. intros e He. destruct (Hevents e He) as [[(q & Hq & _) Ho] _]. split; [by exists q|done]. }
  { apply stable_sort_sorted. }
  2: { intros e s' [_ [He|[He _]]]; [auto|]. apply recovery_code. by rewrite He. }
  cbn. intros [out completeness] x' (-> & Hfollow & Hout & Hcomp). cbn [fst snd] in Hout, Hcomp.
  assert (forall e, e ∈ v_items out -> e ∈ events) as Hsub by (intros e He; rewrite Hout in He; by eapply kept_elem).
  apply wp_bind, gives_sorted_u32; [done|]. apply Hk. constructor; cbn [fst snd]; [done|..].
  - split; [apply Forall_forall; intros e He|].
    + destruct (Hevents e (Hsub e He)) as [[(q & Hq & Hr) _] _]. exists q. split; [done|lia].
    + rewrite Hout. apply kept_increasing; [apply stable_sort_sorted|done].
  - apply Forall_forall. intros e He. apply Hevents, Hsub, He.
  - split; [by apply sorted_tids|by rewrite stable_sort_perm].
  - apply Forall_forall. intros e He. destruct (Hevents e (Hsub e He)) as [_ (tid & Ht & Hin)].
    exists tid. split; [done|]. rewrite stable_sort_perm. by apply Htids.
  - eexists. split; [exact Hcomp|]. apply Forall_map, Forall_forall. intros e He.
    apply list_elem_of_In, filter_In in He as [He _]. apply list_elem_of_In in He.
    destruct (Hevents e He) as [[_ [Ho1 Ho2]] _]. cbn. unfold in_u64, saturating_add. wire_consts. lia.
Qed.

Lemma wp_recover_physical x : fx_next_ordinal x = 0 ->
  gives (recover_physical source artifact superblock)
    (fun p _ => exists published ordinal, physical_ok published ordinal p) x.
Proof.
  intros Hx. unfold recover_physical. apply wp_bind, wp_result. destruct (metadata_work superblock) eqn:Hwork.
  2: { unfold metadata_work in Hwork. by destruct (_ ≫= _); simplify_eq. }
  apply wp_bind, wp_consume; [|genuine]. apply wp_bind, gives_option; [genuine|]. intros count. unfold try_from.
  destruct (_ <=? _); [|done]. intros [= <-]. pose proof (so_chunk_count _ _ Hsuper) as Hcount.
  eapply gives_bind; [apply gives_none_vec; lia|]. intros chunks Hchunks.
  apply wp_bind. eapply wp_mono; [by apply (wp_read_directory source content)| |done].
  intros directory x1 [Hdir Hx1]. apply wp_bind.
  eapply wp_mono; [by apply (wp_recover_chunks source content); [..|unfold zlen in *; lia|done|congruence]| |done].
  intros st x2 [published Hk]. pose proof Hk as [_ Hpub Hvis Hev _ _ Hwf _ _ _ _ _].
  assert (Forall (fun c => fst c < Z.to_nat (sb_chunk_count superblock))%nat published) as Hidx.
  { apply Forall_forall. intros c Hc. assert (fst c ∈ seq 0 (Z.to_nat (sb_chunk_count superblock))) as Hin.
    { eapply elem_of_sublist; [|exact Hvis]. by apply list_elem_of_fmap_2. }
    apply elem_of_seq in Hin. lia. }
  eapply gives_bind; [apply wp_stale_entries; [apply (dk_entries _ _ Hdir)|exact Hwf]|].
  intros [[stale_entries completeness] incomplete] (Hstale & Hcw & Hpre). cbn [fst snd] in *.
  eapply gives_bind; [apply wp_index_sequences|]. intros regular ->. apply wp_bind.
  eapply wp_mono; [apply (wp_scan_emergencies source content); [apply emergencies_inside|apply Hdir]| |genuine].
  intros em x3 [Hevents _ [Hnd _] _ Hnew _ (added & Hadd & Haw & _)]. rewrite Hev in Hevents, Hnew.
  cbn [sl_events sl_tids sl_completeness] in *. fold (surviving_cells published) in Hnew.
  apply (wp_ordered (ry_known_tids directory) published (fx_next_ordinal x2)); try done.
  - rewrite Hevents. unfold all_records. by rewrite Hev.
  - intros t. rewrite Hnew. pose proof (dk_tids _ _ Hdir) as [_ Hset]. by rewrite Hset.
  - apply Forall_forall. intros t Ht. apply Hnew in Ht as [Ht|Ht].
    + by apply (proj1 (Forall_forall _ _) (dk_range _ _ Hdir)).
    + apply list_elem_of_fmap in Ht as (c & -> & Hc).
      destruct (slots_fit source content superblock _ emergencies_inside c Hc) as ((_ & _ & _ & _ & Hr) & _).
      unfold in_u32. lia.
  - intros resolved tids [He Hr Hf Ht Ho (more & Hm & Hmw)]. apply wp_ret.
    exists published, (fx_next_ordinal x2). constructor; cbn; try done; rewrite Hm, Hadd.
    + rewrite !Forall_app. done.
    + rewrite <- app_assoc. by apply prefix_app_r.
Qed.

End physical.
