(* ===== verification/FlightOutcome.v ===== *)
(** * The outcome of recovering a Flight artifact

    The phases of [recover] after the records are ordered: the account of what
    is missing, the typed events, the report and the discontinuities; then the
    theorem about [recover] as a whole. *)

From stdpp Require Import prelude list sorting strings gmap.
From Stdlib Require Import ZArith Lia Strings.Byte Sorted.
From S2P Require Import Prelude Prog Control Throws Model Source QtrbEvents FlightWire FlightContext FlightErrors FlightScan FlightLoss FlightSort FlightMerge FlightReport FlightEmergency FlightPayload FlightFragments FlightEvents FlightDecode FlightAccount FlightResult FlightRecover FlightRecovered FlightPhysical.
Local Open Scope string_scope.
Local Open Scope list_scope.
Local Open Scope Z_scope.

(** ** Reports that only grow *)

Record report_kept (start completeness : list CompletenessRange) (proofs : list SequenceProof) : Prop :=
  mkReportKept {
  rk_grows : start `prefix_of` completeness;
  rk_ranges : Forall range_wf completeness;
  rk_proofs : Forall range_ok (map sp_range proofs)
}.

Lemma report_range start completeness proofs r :
  report_kept start completeness proofs -> range_wf r -> report_kept start (completeness ++ [r]) proofs.
Proof.
  intros [Hg Hr Hp] Hw. constructor; [|by apply Forall_snoc|done]. trans completeness; [done|by apply prefix_app_r].
Qed.

Lemma report_proof start completeness proofs p :
  report_kept start completeness proofs -> range_ok (sp_range p) ->
  report_kept start completeness (proofs ++ [p]).
Proof.
  intros [Hg Hr Hp] Hw. constructor; [done..|]. rewrite map_app. by apply Forall_snoc.
Qed.

Section losses.
Context {W : Type} `{WorkGuard W} `{Allocator W}.
Context (source : ReadAtSource) (content : bytes) {LS : LawfulSource source content}.
Context (superblock : Superblock) (artifact : ArtifactDigest).
Hypothesis Hsuper : superblock_ok (zlen content) superblock.
Implicit Types x : RecoveryContext.
Abbreviation gives p Q x := (wp (W := W) (E := ProviderError) p Q (fun e _ => recovery_error e) x).

(** A sequence number reported with its proof. *)
Lemma gives_reported {B} start (completeness : Vec CompletenessRange) (proofs : Vec SequenceProof) q p c at_
    (k : Vec CompletenessRange -> Vec SequenceProof -> Prog W ProviderError RecoveryContext B)
    (Q : B -> RecoveryContext -> Prop) x :
  report_kept start (v_items completeness) (v_items proofs) -> in_u64 q ->
  (forall completeness' proofs',
     v_items completeness' = v_items completeness ++ [sequence_range (mkSequenceRange q q) p c] ->
     report_kept start (v_items completeness') (v_items proofs') -> gives (k completeness' proofs') Q x) ->
  gives (let! completeness := push_sequence_range completeness q q p c in
         let! proofs := guarded_push T_SequenceProof proofs
           (mkSequenceProof (mkSequenceRange q q) c p at_) in
         k completeness proofs) Q x.
Proof.
  intros Hk [Hq1 Hq2] HQ.
  assert (range_ok (mkSequenceRange q q)) as Hok by (unfold range_ok; cbn; lia).
  apply wp_bind, (gives_sequence_range _ (mkSequenceRange q q)); [done|]. intros c' Hc Hw.
  apply wp_bind, gives_push. intros p' Hp. apply HQ; [done|]. rewrite Hc, Hp.
  by apply report_proof; [apply report_range|].
Qed.

Definition no_gap_record (e : PhysicalFlight) : Prop := oo_record_type (ph_raw e) <> 15.

Lemma wp_coverage start events completeness proofs covered x :
  Forall record_fine events -> report_kept start (v_items completeness) (v_items proofs) ->
  gives (fold_each (imap pair events) (completeness, proofs, covered) coverage_turn)
    (fun acc x' => x' = x
       /\ report_kept start (v_items (fst (fst acc))) (v_items (snd (fst acc)))
       /\ (snd acc = false -> Forall no_gap_record events)) x.
Proof.
  intros Hfine Hk. apply (wp_fold_indexed (fun visited acc =>
    report_kept start (v_items (fst (fst acc))) (v_items (snd (fst acc)))
    /\ (snd acc = false -> Forall no_gap_record visited))); [by split; [|constructor]|].
  intros before e after [[c p] cov] -> [Hr Hn]. cbn [fst snd] in *.
  apply Forall_app in Hfine as [_ [[(q & Hq & Hrange) _] _]%Forall_cons].
  unfold coverage_turn. apply wp_bind, gives_checkpoint. unfold no_gap_record.
  destruct (Z.eqb_spec (oo_record_type (ph_raw e)) 15) as [He|He].
  - apply wp_bind, gives_option; [genuine|]. intros q' Hq'. rewrite Hq in Hq'. injection Hq' as <-.
    apply (gives_reported start); [done|unfold in_u64; lia|]. intros c' p' _ Hr'. by apply wp_ret.
  - apply wp_ret. split_and!; [done..|]. cbn. intros Hf. by apply Forall_snoc; [apply Hn|].
Qed.

Lemma wp_unterminated start lifecycle tids completeness proofs incomplete x :
  (forall tid item, lifecycle !! tid = Some item -> in_u64 (lb_first_begin item)) ->
  report_kept start (v_items completeness) (v_items proofs) ->
  gives (fold_each (imap pair tids) (completeness, proofs, incomplete) (unterminated_turn lifecycle))
    (fun acc x' => x' = x /\ report_kept start (v_items (fst (fst acc))) (v_items (snd (fst acc)))) x.
Proof.
  intros Hlife Hk. apply (wp_fold_indexed (fun _ acc =>
    report_kept start (v_items (fst (fst acc))) (v_items (snd (fst acc))))); [done|].
  intros before tid after [[c p] inc] _ Hr. cbn [fst snd] in *.
  unfold unterminated_turn. apply wp_bind, gives_checkpoint.
  destruct (lifecycle !! tid) as [item|] eqn:Hitem; [|by apply wp_ret].
  destruct (_ >? _); [|by apply wp_ret].
  apply (gives_reported start); [done|by eapply Hlife|]. intros c' p' _ Hr'. by apply wp_ret.
Qed.

(** *** What is retained and what is missing *)

Definition retained_at (q : Z) : CompletenessRange := retained_range (mkSequenceRange q q).
Definition missing_at (cause : CompletenessCause) (q : Z) : CompletenessRange :=
  unknown_range cause (mkSequenceRange q q).

Section accounts.
Context (seqs : list Z) (hints : list SequenceFact) (damage : list SequenceRange) (status : RecoveryStatus).
Context (completeness completeness' : list CompletenessRange) (proofs proofs' : list SequenceProof).
Hypothesis Hacc : FlightLoss.accounted seqs hints damage status completeness completeness' proofs proofs'.
Hypothesis Hseqs : Forall in_u64 seqs.
Hypothesis Hhints : Forall range_ok (map sf_range hints).

Lemma known_u64 q : FlightLoss.known seqs hints q -> in_u64 q.
Proof.
  intros [Hq|Hq]; [by apply (proj1 (Forall_forall _ _) Hseqs)|].
  apply Exists_exists in Hq as (r & Hr & Hin). apply (proj1 (Forall_forall _ _) Hhints) in Hr.
  destruct Hr as [Hr1 Hr2]. unfold in_range_of in Hin. unfold in_u64. lia.
Qed.

Lemma enclosed_u64 q : enclosed seqs hints q -> in_u64 q.
Proof. intros (a & b & [Ha _]%known_u64 & [_ Hb]%known_u64 & Hq). unfold in_u64. lia. Qed.

Lemma covered_ends (ranges : list SequenceRange) r :
  r ∈ ranges -> filled r -> covered_by ranges (sr_first r) /\ covered_by ranges (sr_last r).
Proof.
  unfold filled. intros Hr Hf. split; apply Exists_exists; exists r; (split; [done|]); unfold in_range_of; lia.
Qed.

Lemma ends_wf r p c : in_u64 (sr_first r) -> in_u64 (sr_last r) -> filled r -> range_wf (sequence_range r p c).
Proof. unfold filled. intros H1 H2 Hf. by cbn. Qed.

Lemma accounted_report start :
  report_kept start completeness proofs -> report_kept start completeness' proofs'.
Proof.
  destruct Hacc as (runs & missing & -> & -> & Hruns & Hmissing & _ & _ & Hfr & Hfm).
  rewrite Forall_forall in Hfr, Hfm. intros [Hg Hr Hp].
  assert (forall r, r ∈ map mr_range missing -> in_u64 (sr_first r) /\ in_u64 (sr_last r)) as Hm64.
  { intros r Hin. destruct (covered_ends _ _ Hin (Hfm r Hin)) as [H1 H2].
    split; apply enclosed_u64; [apply (proj1 (Hmissing _) H1)|apply (proj1 (Hmissing _) H2)]. }
  constructor.
  - trans completeness; [done|by apply prefix_app_r].
  - rewrite !Forall_app. split_and!; [done|..]; apply Forall_map, Forall_forall.
    + intros r Hin. destruct (covered_ends _ _ Hin (Hfr r Hin)) as [H1 H2].
      rewrite Forall_forall in Hseqs. by apply ends_wf; [apply Hseqs, Hruns|apply Hseqs, Hruns|apply Hfr].
    + intros m Hin. assert (mr_range m ∈ map mr_range missing) as Hin' by (by apply list_elem_of_fmap_2).
      destruct (Hm64 _ Hin'). by apply ends_wf; [..|apply Hfm].
  - rewrite map_app. apply Forall_app. split; [done|]. apply Forall_map, Forall_forall. intros p Hin.
    unfold overlaps in Hin. apply list_elem_of_In, in_concat in Hin as (l & Hl & Hin).
    apply in_map_iff in Hl as (f & <- & Hf). apply list_elem_of_In, list_elem_of_omap in Hin as (m & Hm & Ho).
    assert (mr_range m ∈ map mr_range missing) as Hin' by (by apply list_elem_of_fmap_2).
    destruct (Hm64 _ Hin') as [[] []]. unfold overlap in Ho.
    destruct (_ && _) eqn:E; [|done]. injection Ho as <-. unfold range_ok. cbn.
    pose proof (Hfm _ Hin') as Hfill. unfold filled in Hfill. apply andb_true_iff in E as [E1 E2].
    assert (range_ok (sf_range f)) as [Hok1 Hok2]
      by (by apply (proj1 (Forall_forall _ _) Hhints), list_elem_of_fmap_2, list_elem_of_In). lia.
Qed.

Lemma accounted_retained q : q ∈ seqs -> covers completeness' (retained_at q) q.
Proof.
  destruct Hacc as (runs & missing & -> & _ & Hruns & _). intros Hq.
  apply Hruns, Exists_exists in Hq as (r & Hr & Hin). exists (retained_range r).
  split; [set_solver|]. split; [done|]. unfold range_contains. cbn. unfold in_range_of in Hin. lia.
Qed.

Lemma accounted_missing q :
  enclosed seqs hints q -> (q ∉ seqs) ->
  covered_by damage q \/ exists cause, cause <> Retained /\ covers completeness' (missing_at cause q) q.
Proof.
  destruct Hacc as (runs & missing & -> & _ & _ & Hmissing & _ & Hcause & _). intros He Hq.
  destruct (decide (covered_by damage q)) as [|Hd]; [by left|]. right.
  assert (covered_by (map mr_range missing) q) as Hm by (by apply Hmissing).
  apply Exists_exists in Hm as (r & (m & -> & Hm)%list_elem_of_fmap & Hin).
  exists (mr_cause m). split.
  { destruct (proj1 (Forall_forall _ _) Hcause m Hm) as [->| ->]; [|done]. unfold missing_cause_of. by destruct (_ && _). }
  exists (unknown_range (mr_cause m) (mr_range m)). split; [set_solver|]. split; [done|].
  unfold range_contains. cbn. unfold in_range_of in Hin. lia.
Qed.

End accounts.

(** *** The losses of an artifact *)

Record losses_ok (p : PhysicalState) (l : LossState) : Prop := mkLossesOk {
  lo_report : report_kept (v_items (py_completeness p)) (v_items (lx_completeness l)) (v_items (lx_proofs l));
  lo_retained : forall q, q ∈ map sequence_of (v_items (py_events p)) ->
    covers (v_items (lx_completeness l)) (retained_at q) q;
  lo_missing : forall q, enclosed (map sequence_of (v_items (py_events p))) (v_items (ck_hints (py_chunks p))) q ->
    (q ∉ map sequence_of (v_items (py_events p))) ->
    covered_by (v_items (ck_damage_ranges (py_chunks p))) q
    \/ exists cause, cause <> Retained /\ covers (v_items (lx_completeness l)) (missing_at cause q) q;
  lo_damage : lx_has_damage l = ck_has_damage (py_chunks p) || es_has_damage (py_status p);
  lo_coverage : lx_has_coverage l = false -> Forall no_gap_record (v_items (py_events p))
}.

Lemma wp_recover_losses published ordinal p x :
  physical_ok content superblock artifact published ordinal p ->
  gives (recover_losses source superblock (src_len source) p) (fun l x' => x' = x /\ losses_ok p l) x.
Proof.
  intros [_ Hk _ Hrec Hfine _ _ _ Hwf _]. destruct Hk as [_ _ _ _ _ Hh _ Hd _ Hp Hl _].
  unfold recover_losses. eapply gives_bind.
  { apply (wp_coverage (v_items (py_completeness p))); [done|]. constructor; [done..|]. by apply Forall_map. }
  intros [[completeness proofs] covered] [Hr1 Hcov]. cbn [fst snd] in *.
  apply wp_bind, wp_consume; [|genuine]. apply wp_bind, gives_passed; [genuine|]. intros _.
  apply (gives_bind _ _ (fun c => report_kept (v_items (py_completeness p)) (v_items c) (v_items proofs))).
  { destruct (negb _); [|by apply wp_ret].
    apply gives_source_range; [unfold in_u64, u64_max; lia..|]. intros c Hc Hw. split; [done|]. rewrite Hc.
    by apply report_range. }
  intros completeness1 Hr2.
  eapply gives_bind; [by apply (wp_unterminated (v_items (py_completeness p)))|].
  intros [[completeness2 proofs2] incomplete] Hr3. cbn [fst snd] in Hr3.
  apply wp_bind, gives_sorted_ranges; [done|]. intros damage Hdp Hds.
  apply wp_bind, gives_sorted_facts; [done|]. intros hints Hhp Hclaims.
  apply wp_bind. eapply wp_mono; [apply wp_add_sequence; [done|done|]| |by intros e s' [_ ?%recovery_host]].
  { split; [by rewrite Hdp|done]. }
  intros [completeness3 proofs3] x' [-> Hacc]. apply wp_ret. cbn [fst snd] in *. split; [done|].
  assert (Forall in_u64 (map sequence_of (v_items (py_events p)))) as Hseqs.
  { apply Forall_map, (Forall_impl _ _ _ (proj1 Hrec)). intros e (q & Hq & Hq'). cbn beta.
    unfold sequence_of, in_u64. rewrite Hq. cbn. lia. }
  destruct Hclaims as [Hranges Hsorted]. constructor; cbn.
  - by eapply accounted_report.
  - intros q Hq. by eapply accounted_retained.
  - intros q He Hq.
    destruct (accounted_missing _ _ _ _ _ _ _ _ Hacc Hseqs Hranges q) as [Hcd|Hm]; [|done|left|by right].
    + destruct He as (a & b & Ha & Hb & Hab). exists a, b. unfold FlightLoss.known, covered_by in *.
      by rewrite Hhp.
    + unfold covered_by in *. by rewrite <- Hdp.
  - done.
  - done.
Qed.

End losses.

(** ** What decoding adds to the report *)

Section decoded.
Context (artifact : ArtifactDigest) (superblock : Superblock) (chunks : list (option ChunkIdentity)).
Context (physical : list PhysicalFlight) (out : DecodedFlight).
Context (fates : list fate) (verdicts : list ((Z * Z * Z) * option EventRecord)).
Hypothesis Hfrom : decoded_from artifact superblock chunks physical out fates verdicts.

Lemma fate_record fate : fate ∈ fates -> exists p, p ∈ physical /\ fate_ok p fate.
Proof.
  intros [j Hj]%list_elem_of_lookup.
  destruct (Forall2_lookup_r _ _ _ _ _ (dd_fates _ _ _ _ _ _ _ Hfrom) Hj) as (p & Hp & Hok).
  exists p. split; [by eapply list_elem_of_lookup_2|done].
Qed.

Lemma pending_record f : f ∈ omap pending fates -> exists p, p ∈ physical /\ fg_key f = ph_key p.
Proof.
  intros ([|f1] & Hin & [= ->])%list_elem_of_omap. destruct (fate_record _ Hin) as (p & Hp & Hk & _). by exists p.
Qed.

(** A number taken from the key of a damaged record or fragment is one of the records'. *)
Lemma damaged_record (of_key : EventKey -> Z) n :
  n ∈ concat (map (fun e => damage_of e (of_key (ev_key e))) (omap emitted fates))
      ++ map (fun f => of_key (fg_key f)) (lost_fragments (omap pending fates) verdicts) ->
  exists p, p ∈ physical /\ of_key (ph_key p) = n.
Proof.
  intros [Hn|Hn]%elem_of_app.
  - apply list_elem_of_In, in_concat in Hn as (l & Hl & Hn). apply in_map_iff in Hl as (e & <- & He).
    unfold damage_of in Hn. destruct (ev_provenance e); try done. destruct Hn as [<-|[]].
    apply list_elem_of_In, list_elem_of_omap in He as ([e1|] & Hin & [= ->]).
    destruct (fate_record _ Hin) as (p & Hp & Hk & _). exists p. split; [done|]. by rewrite Hk.
  - apply list_elem_of_fmap in Hn as (f & -> & Hf). unfold lost_fragments in Hf.
    apply list_elem_of_In, in_concat in Hf as (l & Hl & Hf). apply in_map_iff in Hl as ([key [e|]] & <- & _); [done|].
    apply list_elem_of_In, list_elem_of_filter in Hf as [_ Hf].
    destruct (pending_record f Hf) as (p & Hp & Hk). exists p. split; [done|]. by rewrite Hk.
Qed.

Lemma damaged_sequence q :
  q ∈ df_damaged_sequences out -> exists p, p ∈ physical /\ sequence_of p = q.
Proof.
  rewrite (dd_sequences _ _ _ _ _ _ _ Hfrom). intros Hq.
  exact (damaged_record (fun k => default 0 (ek_sequence k)) q Hq).
Qed.

Lemma damaged_offset o :
  o ∈ df_damaged_source_offsets out -> exists p, p ∈ physical /\ ek_source_offset (ph_key p) = o.
Proof. rewrite (dd_offsets _ _ _ _ _ _ _ Hfrom). exact (damaged_record ek_source_offset o). Qed.

(** The thread of an event is the thread of a record. *)
Lemma event_thread e :
  Forall (fun p => is_Some (ek_tid (ph_key p))) physical ->
  e ∈ df_events out -> exists p, p ∈ physical /\ ek_tid (ev_key e) = ek_tid (ph_key p).
Proof.
  intros Htids [i Hi]%list_elem_of_lookup.
  destruct (Forall2_lookup_r _ _ _ _ _ (dd_events _ _ _ _ _ _ _ Hfrom) Hi) as (e0 & He & Hk & _).
  apply list_elem_of_lookup_2 in He. rewrite stable_sort_perm in He. rewrite Hk.
  apply elem_of_app in He as [He|He]; apply list_elem_of_omap in He.
  - destruct He as ([e1|] & Hin & [= ->]). destruct (fate_record _ Hin) as (p & Hp & Hkey & _).
    exists p. by rewrite Hkey.
  - destruct He as ([[[tid id] kind] [e1|]] & Hin & [= ->]).
    destruct (proj1 (Forall_forall _ _) (dd_verdicts _ _ _ _ _ _ _ Hfrom) _ Hin)
      as (ordered & Hwhole & [(first & _ & Hfirst & _) _ _ _ (_ & _ & Ht & _)]).
    apply list_elem_of_lookup_2 in Hfirst. rewrite (wh_members _ _ _ _ _ Hwhole) in Hfirst.
    apply list_elem_of_filter in Hfirst as [Hg Hf]. destruct (pending_record _ Hf) as (p & Hp & Hkey).
    exists p. split; [done|]. rewrite Ht, <- Hkey. unfold group_key in Hg. injection Hg as Htid _ _.
    destruct (proj1 (Forall_forall _ _) Htids p Hp) as [t Hpt]. rewrite <- Hkey in Hpt.
    rewrite Hpt in *. cbn in Htid. by subst.
Qed.

End decoded.

Section report.
Context {W : Type} `{WorkGuard W} `{Allocator W}.
Context (superblock : Superblock).
Hypothesis Hbytes : 0 < sb_chunk_bytes superblock.
Hypothesis Hchunks : 0 <= rg_offset (sb_chunks superblock).
Implicit Types x : RecoveryContext.
Abbreviation gives p Q x := (wp (W := W) (E := ProviderError) p Q (fun e _ => recovery_error e) x).

Definition damaged_at (q : Z) : CompletenessRange := sequence_range (mkSequenceRange q q) Damaged Incomplete.

Lemma wp_decoded_damage start sequences offsets completeness proofs x :
  Forall in_u64 sequences -> report_kept start (v_items completeness) (v_items proofs) ->
  gives (fold_each (imap pair sequences) (completeness, proofs) (decoded_damage_turn offsets))
    (fun acc x' => x' = x /\ report_kept start (v_items (fst acc)) (v_items (snd acc))
       /\ forall q, q ∈ sequences -> damaged_at q ∈ v_items (fst acc)) x.
Proof.
  intros Hseqs Hk. apply (wp_fold_indexed (fun visited acc =>
    report_kept start (v_items (fst acc)) (v_items (snd acc))
    /\ forall q, q ∈ visited -> damaged_at q ∈ v_items (fst acc))); [split; [done|]; intros q; by rewrite elem_of_nil|].
  intros before q after [c p] -> [Hr Hin]. cbn [fst snd] in *.
  apply Forall_app in Hseqs as [_ [Hq _]%Forall_cons].
  unfold decoded_damage_turn. apply wp_bind, gives_checkpoint. apply wp_bind, gives_option; [genuine|].
  intros evidence. unfold captured_sequence_with_cause. rewrite Z.gtb_ltb, Z.ltb_irrefl. intros [= <-].
  assert (range_wf (damaged_at q)) as Hw by (cbn; done).
  assert (range_ok (mkSequenceRange q q)) as Hok by (destruct Hq; unfold range_ok; cbn; lia).
  assert (forall r, r ∈ before ++ [q] -> damaged_at r ∈ v_items c ++ [damaged_at q]) as Hmem.
  { intros r [Hr'| ->%list_elem_of_singleton]%elem_of_app; apply elem_of_app.
    - left. by apply Hin.
    - right. by apply list_elem_of_singleton. }
  apply wp_bind, wp_bind, gives_passed; [genuine|]. intros _. apply wp_ret. cbn [v_items].
  destruct (offsets !! length before).
  - apply wp_bind, wp_bind, gives_passed; [genuine|]. intros _. apply wp_ret, wp_ret. cbn [fst snd v_items].
    split; [done|]. split; [|done]. apply report_proof; [by apply report_range|done].
  - apply wp_ret. cbn [fst snd v_items]. split; [done|]. split; [by apply report_range|done].
Qed.

Lemma wp_damaged_chunks start offsets completeness proofs previous x :
  Forall in_u64 offsets -> report_kept start (v_items completeness) proofs ->
  gives (fold_each (imap pair offsets) (previous, completeness) (damaged_chunk_turn superblock))
    (fun acc x' => x' = x /\ report_kept start (v_items (snd acc)) proofs
       /\ v_items completeness `prefix_of` v_items (snd acc)) x.
Proof.
  intros Hoffs Hk. apply (wp_fold_indexed (fun visited acc =>
    report_kept start (v_items (snd acc)) proofs /\ v_items completeness `prefix_of` v_items (snd acc))); [done|].
  intros before o after [prev c] -> [Hr Hpre]. cbn [fst snd] in *.
  apply Forall_app in Hoffs as [_ [[Ho1 Ho2] _]%Forall_cons].
  unfold damaged_chunk_turn. apply wp_bind, gives_checkpoint. destruct (bool_decide _); [by apply wp_ret|].
  assert (0 <= saturating_sub o (rg_offset (sb_chunks superblock)) / sb_chunk_bytes superblock) as Hdiv
    by (apply Z.div_pos; unfold saturating_sub; lia).
  set (chunk := saturating_sub o (rg_offset (sb_chunks superblock)) / sb_chunk_bytes superblock) in *.
  apply wp_bind, gives_source_range; [unfold in_u64, saturating_add, saturating_mul, u64_max in *; nia..|].
  intros c' Hc Hw. apply wp_ret. cbn [fst snd]. rewrite Hc. split; [done|]. split; [by apply report_range|].
  trans (v_items c); [done|by apply prefix_app_r].
Qed.

Lemma wp_report_damage decoded completeness proofs x :
  Forall in_u64 (df_damaged_sequences decoded) -> Forall in_u64 (df_damaged_source_offsets decoded) ->
  Forall range_wf (v_items completeness) -> Forall range_ok (map sp_range (v_items proofs)) ->
  gives (report_damage superblock decoded completeness proofs)
    (fun r x' => x' = x /\ exists full,
       report_kept (v_items completeness) full (v_items (snd r))
       /\ v_items (fst r) = coalesced (stable_sort range_number full)
       /\ forall q, q ∈ df_damaged_sequences decoded -> damaged_at q ∈ full) x.
Proof.
  intros Hseqs Hoffs Hwf Hprf. unfold report_damage.
  apply wp_bind, gives_option; [genuine|]. intros n1 _. apply wp_bind, wp_flight_reserve; [intros cap1|genuine].
  apply wp_bind, gives_option; [genuine|]. intros n2 _. apply wp_bind, wp_flight_reserve; [intros cap2|genuine].
  eapply gives_bind; [by apply (wp_decoded_damage (v_items completeness))|].
  intros [c1 p1] [Hr1 Hin1]. cbn [fst snd] in *.
  apply (gives_bind _ _ (fun _ => True)).
  { eapply wp_mono; [by apply (settles_vec _ _ (fun _ => True))|done|by intros e s' [_ ?%recovery_resource]]. }
  intros _ _. apply (gives_bind _ _ (fun _ => True)).
  { apply (wp_fold_indexed (fun _ _ => True)); [done|]. intros. by apply gives_checkpoint. }
  intros _ _. apply wp_bind, (gives_sorted _ (le_bytes 8)).
  { intros v p b _ Hb. by apply byte_at_lookup. }
  { intros v _. apply length_le_bytes. }
  eapply gives_bind; [apply (wp_damaged_chunks (v_items completeness)); [by rewrite stable_sort_perm|exact Hr1]|].
  intros [prev c2] [Hr2 Hpre]. cbn [fst snd] in *.
  apply wp_bind. eapply wp_mono; [apply settles_normalize, Hr2| |by intros e s' [_ ?%recovery_resource]]. intros c3 x' [-> Hc3].
  apply wp_ret. split; [done|]. exists (v_items c2). cbn [fst snd]. split; [done|]. split; [done|].
  intros q Hq. destruct Hpre as [more ->]. apply elem_of_app. left. by apply Hin1.
Qed.

End report.

Lemma sublist_sorted (l k : list nat) : l `sublist_of` k -> StronglySorted lt k -> StronglySorted lt l.
Proof.
  induction 1 as [|x l k Hsub IH|x l k _ IH]; intros Hs; [constructor|..]; apply StronglySorted_inv in Hs as [Hs Hx].
  - constructor; [by apply IH|]. apply Forall_forall. intros y Hy. apply (proj1 (Forall_forall _ _) Hx). by eapply elem_of_sublist.
  - by apply IH.
Qed.

(** ** The theorem *)

(** The events of [rf_events] a decoder reports as opaque. *)
Definition is_opaque (e : EventRecord) : bool :=
  match ev_payload e with OpaqueOptional _ => true | _ => false end.

(** The thread of an event is a known one; only discontinuities have none. *)
Definition owned (tids : list Z) (e : EventRecord) : Prop :=
  match ek_tid (ev_key e) with
  | Some tid => tid ∈ tids
  | None => exists d, ev_payload e = PDiscontinuity d
  end.

Section outcome.
Context (content : bytes) (artifact : ArtifactDigest).

(** [out] is what the artifact [content] holds. *)
Record holds (superblock : Superblock) (published : list (nat * list PhysicalFlight))
    (records : list PhysicalFlight) (decoded : DecodedFlight) (out : RecoveredFlight) : Prop := mkHolds {
  ho_superblock : parse_superblock (slice content 0 FLIGHT_SUPERBLOCK_BYTES) (zlen content) = Ok superblock;
  ho_published : Forall (fun c => exists header, header_at content superblock (fst c) = Some header
    /\ chunk_holds content superblock artifact (fst c) header (snd c)) published;
  ho_order : StronglySorted lt (map fst published);
  ho_chunks : forall i header, (i < Z.to_nat (sb_chunk_count superblock))%nat ->
    header_at content superblock i = Some header ->
    i ∈ map fst published
    \/ ((forall items, ~ chunk_holds content superblock artifact i header items)
        /\ rs_complete (rf_recovery_summary out) = false
        /\ exists cause, forall q, range_contains (chunk_damage superblock i header cause) q = true ->
             covers (rf_completeness out) (chunk_damage superblock i header cause) q);
  ho_records : exists ordinal, records
    = kept (rg_offset (sb_emergencies superblock)) (rg_end (sb_emergencies superblock))
        (stable_sort sequence_of (all_records content superblock artifact published ordinal));
  ho_increasing : StronglySorted Z.lt (map sequence_of records);
  ho_decoded : exists chunks fates verdicts,
    decoded_from artifact superblock chunks records decoded fates verdicts;
  ho_events : exists gaps, rf_events out = df_events decoded ++ gaps
    /\ Forall (fun e => exists d, ev_payload e = PDiscontinuity d /\ ek_tid (ev_key e) = None) gaps
    /\ forall r c, r ∈ rf_completeness out -> cr_cause r <> Retained -> range_contains r c = true ->
         exists e, e ∈ gaps /\ reports r c e;
  ho_tids : StronglySorted Z.lt (rf_tids out) /\ Forall in_u32 (rf_tids out) /\ Forall (owned (rf_tids out)) (rf_events out);
  ho_canonical : canonical (rf_completeness out);
  ho_retained : forall q, q ∈ map sequence_of records -> covers (rf_completeness out) (retained_at q) q;
  ho_damaged : forall q, q ∈ df_damaged_sequences decoded -> covers (rf_completeness out) (damaged_at q) q;
  ho_missing : forall a b q, a ∈ map sequence_of records -> b ∈ map sequence_of records -> a <= q <= b ->
    (q ∉ map sequence_of records) ->
    exists r, r ∈ rf_completeness out /\ cr_domain r = CapturedSequence /\ cr_cause r <> Retained
      /\ range_contains r q = true;
  ho_source : rf_source_bytes out = zlen content /\ zlen (rf_events out) <= usize_max;
  ho_counters : pc_events_emitted (rf_counters out) = zlen (rf_events out)
    /\ pc_opaque_records (rf_counters out) = Z.min u64_max (zlen (List.filter is_opaque (rf_events out)));
  ho_registers : rf_final_registers out = df_final_registers decoded
    /\ rf_termination out = df_termination decoded;
  ho_complete : rs_complete (rf_recovery_summary out) = true ->
    sb_flags superblock = 0 /\ df_damaged_sequences decoded = []
    /\ rs_stale_directory_entries (rf_recovery_summary out) = []
    /\ Forall no_gap_record records
}.

End outcome.

Section recover_rule.
Context {W : Type} `{WorkGuard W} `{Allocator W} {HO : HashOrder}.
Context (source : ReadAtSource) (content : bytes) {LS : LawfulSource source content}.
Context (artifact : ArtifactDigest) (superblock : Superblock).
Hypothesis Hparse : parse_superblock (slice content 0 FLIGHT_SUPERBLOCK_BYTES) (zlen content) = Ok superblock.
Hypothesis Hsuper : superblock_ok (zlen content) superblock.
Implicit Types x : RecoveryContext.
Abbreviation gives p Q x := (wp (W := W) (E := ProviderError) p Q (fun e _ => recovery_error e) x).

Lemma wp_count_opaque events x :
  pc_opaque_records (fx_counters x) = 0 ->
  gives (fold_each (imap pair events) tt (fun _ indexed => opaque_turn indexed))
    (fun _ x' => pc_events_emitted (fx_counters x') = pc_events_emitted (fx_counters x)
       /\ pc_opaque_records (fx_counters x') = Z.min u64_max (zlen (List.filter is_opaque events))) x.
Proof.
  intros Hx. apply (wp_fold_over (fun visited _ x' =>
    pc_events_emitted (fx_counters x') = pc_events_emitted (fx_counters x)
    /\ pc_opaque_records (fx_counters x') = Z.min u64_max (zlen (List.filter is_opaque visited)))).
  { split; [done|]. rewrite Hx. done. }
  intros before e after _ x' _ [He Ho]. unfold opaque_turn. apply wp_bind, gives_checkpoint.
  rewrite List.filter_app, zlen_app. cbn [List.filter]. unfold is_opaque at 2.
  destruct (ev_payload e); try (apply wp_ret; split; [done|]; rewrite Ho; f_equal; unfold zlen; cbn; lia).
  apply wp_modify. cbn. split; [done|]. rewrite Ho. unfold saturating_add, zlen. cbn. lia.
Qed.

Lemma chunks_tile_superblock : chunks_tile superblock (sb_chunk_count superblock).
Proof.
  destruct (so_chunks _ _ Hsuper) as (Hc & _). destruct (so_chunk_bytes _ _ Hsuper) as [Hb _].
  split; [wire_consts; lia|]. rewrite Hc. cbn. lia.
Qed.

Lemma increasing_length (seqs : list Z) lo hi :
  StronglySorted Z.lt seqs -> Forall (fun q => lo <= q <= hi) seqs -> zlen seqs <= Z.max 0 (hi - lo + 1).
Proof.
  intros Hs. revert lo. induction Hs as [|q seqs Hs IH Hq]; intros lo Hr; [unfold zlen; cbn; lia|].
  apply Forall_cons in Hr as [Hq1 Hr]. specialize (IH (q + 1)).
  assert (Forall (fun p => q + 1 <= p <= hi) seqs) as Hr'.
  { rewrite Forall_forall in *. intros p Hp. specialize (Hq p Hp). specialize (Hr p Hp). cbn beta in *. lia. }
  specialize (IH Hr'). unfold zlen in *. cbn [length]. lia.
Qed.

(** Ranges already reported are still reported after normalizing. *)
Lemma report_covers start full proofs kind q :
  report_kept start full proofs -> covers start kind q ->
  covers (coalesced (stable_sort range_number full)) kind q.
Proof.
  intros [[more ->] Hw _] (r & Hr & Hkind). apply coalesced_canonical; [done|]. exists r.
  split; [|done]. apply elem_of_app. by left.
Qed.

Lemma range_covers ranges r q : r ∈ ranges -> range_contains r q = true -> covers ranges r q.
Proof. intros Hr Hq. by exists r. Qed.

(** The records are small enough for [decode]. *)
Lemma records_bounds events :
  recovered events -> Forall record_fine events ->
  Forall (fun p => key_ok (ph_key p)) events
  /\ Forall (fun p => in_u64 (default 0 (ek_sequence (ph_key p)))) events /\ zlen events <= usize_max.
Proof.
  intros [Hseqs Hinc] Hfine. rewrite !Forall_forall in *. split_and!.
  - intros e He. destruct (Hfine e He) as [(q & Hq & Hr) Ho]. split; [done|]. exists q. split; [done|lia].
  - intros e He. destruct (Hfine e He) as [(q & Hq & Hr) _]. rewrite Hq. cbn. unfold in_u64. lia.
  - assert (Forall (fun q => 1 <= q <= u64_max) (map sequence_of events)) as Hr.
    { apply Forall_map, Forall_forall. intros e He. destruct (Hfine e He) as [(q & Hq & Hr) _].
      unfold sequence_of. rewrite Hq. cbn. lia. }
    pose proof (increasing_length _ 1 u64_max Hinc Hr) as Hl. unfold zlen in *. rewrite length_map in Hl.
    unfold usize_max, u64_max in *. lia.
Qed.

Definition summary_flags (out : RecoveredFlight) (p : PhysicalState) (l : LossState) (decoded : DecodedFlight) : Prop :=
  rs_complete (rf_recovery_summary out)
  = ((sb_flags superblock =? 0) && negb (lx_has_damage l || negb (zlen (df_damaged_sequences decoded) =? 0))
     && negb (lx_has_coverage l) && (zlen (rs_stale_directory_entries (rf_recovery_summary out)) =? 0)
     && (zlen (df_damaged_sequences decoded) =? 0)).

(** What [recover_events] returns, before it is read against the artifact. *)
Record events_ok (p : PhysicalState) (l : LossState) (decoded : DecodedFlight) (full : list CompletenessRange)
    (proofs : list SequenceProof) (ordinal : Z) (out : RecoveredFlight) : Prop := mkEventsOk {
  eo_decoded : exists fates verdicts, decoded_from artifact superblock (ck_chunks (py_chunks p))
    (v_items (py_events p)) decoded fates verdicts;
  eo_report : report_kept (v_items (lx_completeness l)) full proofs;
  eo_damaged : forall q, q ∈ df_damaged_sequences decoded -> damaged_at q ∈ full;
  eo_completeness : rf_completeness out = coalesced (stable_sort range_number full);
  eo_reportable : Forall (reportable (coalesced (stable_sort range_number (omap proof_evidence proofs))))
    (rf_completeness out);
  eo_events : rf_events out = df_events decoded
    ++ gap_events artifact ordinal (gaps_of (rf_completeness out) proofs (src_len source));
  eo_room : zlen (rf_events out) <= usize_max;
  eo_tids : rf_tids out = py_tids p /\ rf_source_bytes out = src_len source;
  eo_counters : pc_events_emitted (rf_counters out) = zlen (rf_events out)
    /\ pc_opaque_records (rf_counters out) = Z.min u64_max (zlen (List.filter is_opaque (rf_events out)));
  eo_registers : rf_final_registers out = df_final_registers decoded
    /\ rf_termination out = df_termination decoded;
  eo_complete : summary_flags out p l decoded
}.

Lemma wp_recover_events published ordinal p l x :
  physical_ok content superblock artifact published ordinal p -> losses_ok p l ->
  gives (recover_events artifact superblock (src_len source) p l)
    (fun out _ => exists decoded full proofs ordinal', events_ok p l decoded full proofs ordinal' out) x.
Proof.
  intros [Hdir Hk Hev Hrec Hfine Htids Howned _ _ _] [[_ Hlw Hlp] _ _ _ _].
  destruct (records_bounds _ Hrec Hfine) as (Hkeys & Hseqs & Hlen). unfold recover_events.
  apply wp_bind. eapply wp_mono; [apply wp_decode; [exact Hkeys|exact Hseqs| |exact Hlen]| |].
  { unfold zlen. rewrite (cp_length _ _ _ _ _ _ _ Hk). pose proof (so_chunk_count _ _ Hsuper).
    rewrite Z2Nat.id by lia. apply chunks_tile_superblock. }
  2: { intros e s' [He|(q & _ & _ & _ & He)]; [auto|]. apply recovery_code. by rewrite He. }
  intros decoded x' [-> (fates & verdicts & Hfrom)].
  eapply gives_bind; [apply wp_report_damage; [..|exact Hlw|exact Hlp]|].
  { destruct (so_chunk_bytes _ _ Hsuper) as [Hb _]. wire_consts. lia. }
  { pose proof (chunk_region content superblock Hsuper 0 ltac:(pose proof (so_chunk_count _ _ Hsuper); lia)) as (_ & Hs & _).
    unfold chunk_start in Hs. lia. }
  { apply Forall_forall. intros q Hq. destruct (damaged_sequence _ _ _ _ _ _ _ Hfrom q Hq) as (e & He & <-).
    by apply (proj1 (Forall_forall _ _) Hseqs). }
  { apply Forall_forall. intros o Ho. destruct (damaged_offset _ _ _ _ _ _ _ Hfrom o Ho) as (e & He & <-).
    by destruct (proj1 (Forall_forall _ _) Hkeys e He). }
  intros [completeness proofs] (full & Hfull & Hcomp & Hdmg). cbn [fst snd] in *.
  apply wp_bind. eapply wp_mono; [apply wp_add_discontinuities, Hfull| |genuine].
  intros events x1 (Hreportable & [Hevents Hx1] & Hroom).
  apply wp_bind, wp_modify, wp_bind. eapply wp_mono; [by apply wp_count_opaque| |done].
  intros _ x2 [Hem Hop]. apply wp_bind, wp_modify.
  assert (forall v, Forall in_u32 v -> forall Q : list Z -> RecoveryContext -> Prop, forall s,
    (forall out, Q out s) -> gives (guarded_radix_sort u32_byte v 4) Q s) as Hsort.
  { intros v Hv Q s HQ. by apply gives_sorted_u32. }
  apply wp_bind, Hsort; [apply Hk|intros active].
  apply wp_bind, (gives_sorted _ (le_bytes 4));
    [intros v i b _ Hb; by apply byte_at_lookup|intros v _; apply length_le_bytes|].
  apply wp_bind, Hsort; [apply Hdir|intros rotating].
  apply wp_bind, wp_get, wp_bind, gives_passed; [genuine|]. intros _.
  apply wp_bind, wp_copy_string; [apply _|intros _; apply wp_ret|genuine].
  exists decoded, full, (v_items proofs), (fx_next_ordinal x). constructor; cbn; try done.
  by exists fates, verdicts.
Qed.

(** *** Reading the phases against the artifact *)

Section reading.
Context (published : list (nat * list PhysicalFlight)) (ordinal : Z) (p : PhysicalState) (l : LossState).
Context (decoded : DecodedFlight) (full : list CompletenessRange) (proofs : list SequenceProof) (ordinal' : Z).
Context (out : RecoveredFlight).
Hypothesis Hphysical : physical_ok content superblock artifact published ordinal p.
Hypothesis Hlosses : losses_ok p l.
Hypothesis Hevents : events_ok p l decoded full proofs ordinal' out.

(** What the chunks reported is in the final report. *)
Lemma chunk_report r q :
  r ∈ v_items (ck_completeness (py_chunks p)) -> range_contains r q = true -> covers (rf_completeness out) r q.
Proof.
  intros Hr Hq. rewrite (eo_completeness _ _ _ _ _ _ _ Hevents).
  eapply report_covers; [apply Hevents|]. apply range_covers; [|done].
  destruct (rk_grows _ _ _ (lo_report _ _ Hlosses)) as [more ->].
  destruct (po_reported _ _ _ _ _ _ Hphysical) as [less ->]. rewrite !elem_of_app. by left; left.
Qed.

Lemma complete_flags :
  rs_complete (rf_recovery_summary out) = true ->
  sb_flags superblock = 0 /\ lx_has_damage l = false /\ lx_has_coverage l = false
  /\ rs_stale_directory_entries (rf_recovery_summary out) = [] /\ df_damaged_sequences decoded = [].
Proof.
  rewrite (eo_complete _ _ _ _ _ _ _ Hevents). unfold zlen.
  intros [[[[Hf Hd]%andb_true_iff Hc]%andb_true_iff Hs]%andb_true_iff Hn]%andb_true_iff.
  apply negb_true_iff in Hd, Hc. apply orb_false_iff in Hd as [Hd _].
  split_and!; [lia|done|done|apply nil_length_inv; lia|apply nil_length_inv; lia].
Qed.

Lemma read_chunks i header :
  (i < Z.to_nat (sb_chunk_count superblock))%nat -> header_at content superblock i = Some header ->
  i ∈ map fst published
  \/ (refused content superblock artifact i header /\ rs_complete (rf_recovery_summary out) = false
      /\ exists cause, forall q, range_contains (chunk_damage superblock i header cause) q = true ->
           covers (rf_completeness out) (chunk_damage superblock i header cause) q).
Proof.
  intros Hi Hat. destruct (cp_accounted _ _ _ _ _ _ _ (po_chunks _ _ _ _ _ _ Hphysical) i header)
    as [|(Hd & Href & cause & _ & Hin)]; [apply elem_of_seq; lia|done|by left|right]. split; [done|]. split.
  - destruct (rs_complete _) eqn:E; [|done]. destruct (complete_flags E) as (_ & Hl & _).
    rewrite (lo_damage _ _ Hlosses), Hd in Hl. done.
  - exists cause. intros q. by apply chunk_report.
Qed.

Lemma read_missing a b q :
  a ∈ map sequence_of (v_items (py_events p)) -> b ∈ map sequence_of (v_items (py_events p)) -> a <= q <= b ->
  (q ∉ map sequence_of (v_items (py_events p))) ->
  exists r, r ∈ rf_completeness out /\ cr_domain r = CapturedSequence /\ cr_cause r <> Retained
    /\ range_contains r q = true.
Proof.
  intros Ha Hb Hq Hn.
  destruct (lo_missing _ _ Hlosses q) as [Hd|(cause & Hc & Hm)]; [|done|..].
  - exists a, b. by split; [left|split; [left|]].
  - apply Exists_exists in Hd as (r & Hr & Hin).
    destruct (proj1 (Forall_forall _ _) (cp_marked _ _ _ _ _ _ _ (po_chunks _ _ _ _ _ _ Hphysical)) r Hr)
      as (cause & Hc & Hr').
    destruct (chunk_report _ q Hr') as (r' & Hr1 & (Hk1 & Hk2 & _) & Hr2).
    { unfold range_contains. cbn. unfold in_range_of in Hin. lia. }
    exists r'. cbn in Hk1, Hk2. rewrite <- Hk1, <- Hk2. split_and!; [done..| |done].
    apply list_elem_of_In in Hc as [<-|[<-|[]]]; done.
  - assert (covers (rf_completeness out) (missing_at cause q) q) as (r & Hr1 & (Hk1 & Hk2 & _) & Hr2).
    { rewrite (eo_completeness _ _ _ _ _ _ _ Hevents). by eapply report_covers; [apply Hevents|]. }
    exists r. cbn in Hk1, Hk2. by rewrite <- Hk1, <- Hk2.
Qed.

Lemma gap_shape e ordinal0 gaps :
  e ∈ gap_events artifact ordinal0 gaps -> exists d, ev_payload e = PDiscontinuity d /\ ek_tid (ev_key e) = None.
Proof.
  intros (i & g & -> & _)%elem_of_lookup_imap. by eexists.
Qed.

Lemma read_tids : Forall (owned (rf_tids out)) (rf_events out).
Proof.
  rewrite (eo_events _ _ _ _ _ _ _ Hevents), (proj1 (eo_tids _ _ _ _ _ _ _ Hevents)). apply Forall_app. split.
  - apply Forall_forall. intros e He. destruct (eo_decoded _ _ _ _ _ _ _ Hevents) as (fates & verdicts & Hfrom).
    pose proof (po_owned _ _ _ _ _ _ Hphysical) as Ho. rewrite Forall_forall in Ho.
    destruct (event_thread _ _ _ _ _ _ _ Hfrom e) as (r & Hr & Ht); [|done|].
    { apply Forall_forall. intros r Hr. destruct (Ho r Hr) as (tid & -> & _). done. }
    destruct (Ho r Hr) as (tid & Htid & Hin). unfold owned. by rewrite Ht, Htid.
  - apply Forall_forall. intros e (d & Hd & Ht)%gap_shape. unfold owned. rewrite Ht. by exists d.
Qed.

Lemma phases_hold : holds content artifact superblock published (v_items (py_events p)) decoded out.
Proof.
  pose proof (rk_ranges _ _ _ (eo_report _ _ _ _ _ _ _ Hevents)) as Hwf.
  constructor; try apply Hevents.
  - done.
  - eapply Forall_impl; [apply (cp_published _ _ _ _ _ _ _ (po_chunks _ _ _ _ _ _ Hphysical))|].
    intros c (header & Hat & _ & Hh & _). by exists header.
  - eapply sublist_sorted; [apply (cp_visited _ _ _ _ _ _ _ (po_chunks _ _ _ _ _ _ Hphysical))|apply seq_sorted].
  - apply read_chunks.
  - exists ordinal. apply Hphysical.
  - apply (po_recovered _ _ _ _ _ _ Hphysical).
  - destruct (eo_decoded _ _ _ _ _ _ _ Hevents) as (fates & verdicts & Hfrom).
    by exists (ck_chunks (py_chunks p)), fates, verdicts.
  - eexists. split; [apply Hevents|]. split.
    + apply Forall_forall. intros e. apply gap_shape.
    + intros r c Hr Hc Hq. eapply gaps_cover; [apply Hevents|apply Hevents|done..].
  - split; [|split; [|apply read_tids]]; rewrite (proj1 (eo_tids _ _ _ _ _ _ _ Hevents)); apply Hphysical.
  - rewrite (eo_completeness _ _ _ _ _ _ _ Hevents). by apply coalesced_canonical.
  - intros q Hq. rewrite (eo_completeness _ _ _ _ _ _ _ Hevents).
    eapply report_covers; [apply Hevents|]. by apply Hlosses.
  - intros q Hq. rewrite (eo_completeness _ _ _ _ _ _ _ Hevents). apply coalesced_canonical; [done|].
    apply range_covers; [by apply (eo_damaged _ _ _ _ _ _ _ Hevents)|]. unfold range_contains. cbn. lia.
  - apply read_missing.
  - rewrite (proj2 (eo_tids _ _ _ _ _ _ _ Hevents)).
    rewrite (lawful_len (src := source) (content := content)). split; [done|apply Hevents].
  - intros Hc. destruct (complete_flags Hc) as (Hf & _ & Hl & Hs & Hn). split_and!; [done..|]. by apply Hlosses.
Qed.

End reading.

End recover_rule.

Section recover_laws.
Context {W : Type} `{WorkGuard W} `{Allocator W} {HO : HashOrder}.
Context (source : ReadAtSource) (content : bytes) {LS : LawfulSource source content}.

Lemma wp_recover {S} artifact (s : S) :
  wp (W := W) (recover source artifact)
    (fun out s' => s' = s /\ exists superblock published records decoded,
       holds content artifact superblock published records decoded out)
    (fun e s' => s' = s /\ recovery_error e) s.
Proof.
  apply wp_bind, wp_consume; [|by intros e ?%recovery_resource]. apply wp_local.
  apply (wp_mono _ (fun out _ => exists superblock published records decoded,
    holds content artifact superblock published records decoded out) _ (fun e _ => recovery_error e)); [|done..].
  unfold recover_in. rewrite (lawful_len (src := source) (content := content)).
  apply wp_bind, (wp_read_into source content); [wire_consts; lia..| |genuine]. intros Hsize.
  apply wp_bind, wp_result. destruct (parse_superblock _ _) as [superblock|e] eqn:Hparse;
    [|by apply error_superblock in Hparse].
  destruct (parse_superblock_sound _ _ _ (length_slice content 0 FLIGHT_SUPERBLOCK_BYTES ltac:(wire_consts; lia)
    ltac:(wire_consts; lia) Hsize) Hparse) as [Hsuper _].
  apply wp_bind. eapply wp_mono; [by apply (wp_recover_physical source content)| |done].
  intros p x (published & ordinal & Hp). rewrite <- (lawful_len (src := source) (content := content)).
  eapply gives_bind; [by eapply (wp_recover_losses source content)|]. intros l Hl.
  eapply wp_mono; [by eapply (wp_recover_events source content)| |done].
  intros out x' (decoded & full & proofs & ordinal' & Ho).
  exists superblock, published, (v_items (py_events p)), decoded. by eapply phases_hold.
Qed.

End recover_laws.

(** C3: recovering an artifact returns what it holds and reports the rest.  For
    every source that serves [content], whatever the guard, the heap and the
    order of the hash tables, [recover] ends with an error of its own list of
    codes, or returns a result for which: the superblock is the one parsed from
    the first bytes; the published chunks are exactly the chunks with a header
    whose data checks, each once and in order, with exactly the records whose
    encoding that data is (up to an uncommitted tail when the chunk is active, up
    to the count, the end points, the extent and the checksum of its header when
    it is sealed); a chunk with a header is left out only when its data is no
    such encoding, and then it is reported damaged and keeps the artifact from
    being complete; the records are those of the published chunks and the
    emergency cells that repeat none of them, in strictly increasing sequence
    order; the events are what those records decode to followed by
    discontinuities, which cover every point of the report that is not retained;
    the report is canonical, retains every recovered sequence number, marks every
    damaged one and names every number missing between two recovered ones; and
    the threads are sorted, distinct, and own every event. *)
Theorem artifact_recovered (source : ReadAtSource) (content : bytes) (LS : LawfulSource source content)
    (W : Type) (G : WorkGuard W) (A : Allocator W) (HO : HashOrder) (S : Type) (artifact : ArtifactDigest)
    (s : S) (w : W) :
  match recover source artifact s w with
  | (Ok out, s', _) =>
      s' = s /\ exists superblock published records decoded,
        holds content artifact superblock published records decoded out
  | (Err e, s', _) => s' = s /\ pe_code e ∈ recovery_codes
  end.
Proof.
  pose proof (wp_recover source content artifact s w) as Hw.
  by destruct (recover source artifact s w) as [[[out|e] s'] w'].
Qed.

(** An artifact of one thread and one sealed chunk: its first record describes
    the chunk and the second holds the registers. *)
Definition tiny_superblock : Superblock :=
  mkSuperblock 8 7 42 1 (x61 :: replicate 127 x00) 1 5120 (mkRegion 4096 4160) 1 (mkRegion 4608 5120) 512 1
    (mkRegion 4160 4416) 2 0.
Definition tiny_records : list FlightRecord :=
  [mkFlightRecord 1 0 1 (map byte_of_Z [0; 8; 1; 0; 0; 0; 0; 0] ++ le_bytes 4 42 ++ le_bytes 4 77
     ++ le_bytes 8 4096 ++ le_bytes 8 16 ++ le_bytes 8 4112 ++ [x61]);
   mkFlightRecord 9 1 2 (replicate 272 x00)].
Definition tiny_chunk : ChunkHeader :=
  mkChunkHeader 2 77 3 1 2 (zlen (encode_records 3 tiny_records)) 2 (fnv32 (encode_records 3 tiny_records)).
Definition tiny_artifact : bytes :=
  encode_superblock tiny_superblock
  ++ encode_directory 77 1 1 2 0 3 (replicate 32 x00)
  ++ replicate 256 x00 ++ replicate 192 x00
  ++ encode_chunk_header 0 tiny_chunk ++ encode_records 3 tiny_records
  ++ replicate (Z.to_nat (448 - zlen (encode_records 3 tiny_records))) x00.

#[export] Instance tiny_lawful : LawfulSource (ByteSource tiny_artifact) tiny_artifact.
Proof. apply ByteSource_lawful. vm_compute. discriminate. Qed.

Lemma artifact_recovered_witness :
  exists out, recover (W := unit) (S := unit) (ByteSource tiny_artifact) [] tt tt = (Ok out, tt, tt)
    /\ map (fun e => ek_sequence (ev_key e)) (rf_events out) = [Some 1; Some 2]
    /\ rf_completeness out = [mkRange CapturedSequence (InclusiveSequence 1 2) Captured Retained]
    /\ rf_tids out = [77] /\ rs_complete (rf_recovery_summary out) = true
    /\ rf_final_registers out !! 77 = Some (mkSnapshot (replicate 34 0))
    /\ exists superblock published records decoded,
         holds tiny_artifact [] superblock published records decoded out.
Proof.
  pose proof (artifact_recovered (ByteSource tiny_artifact) tiny_artifact tiny_lawful unit _ _ _ unit [] tt tt) as Hr.
  assert (exists out, recover (W := unit) (S := unit) (ByteSource tiny_artifact) [] tt tt = (Ok out, tt, tt)
    /\ map (fun e => ek_sequence (ev_key e)) (rf_events out) = [Some 1; Some 2]
    /\ rf_completeness out = [mkRange CapturedSequence (InclusiveSequence 1 2) Captured Retained]
    /\ rf_tids out = [77] /\ rs_complete (rf_recovery_summary out) = true
    /\ rf_final_registers out !! 77 = Some (mkSnapshot (replicate 34 0)))
    as (out & Ho & H1 & H2 & H3 & H4 & H5).
  { eexists. split; [vm_compute; reflexivity|]. split_and!; vm_compute; reflexivity. }
  rewrite Ho in Hr. exists out. split_and!; [done..|]. apply Hr.
Defined.
