(* ===== verification/FlightProvider.v ===== *)
(** * The Flight provider and its cursor

    Models [qtrace-provider/src/flight/mod.rs]: [FlightProvider::open] (the
    recovered events, one timeline for all of them and one projection per
    thread) and [FlightCursor], which hands the events out one by one. *)

From stdpp Require Import prelude list sorting strings gmap.
From Stdlib Require Import ZArith Lia Strings.Byte Sorted.
From S2P Require Import Prelude Prog Control Model Source QtrbEvents FlightWire FlightContext FlightScan FlightEvents FlightFragments FlightRecover.
Local Open Scope string_scope.
Local Open Scope list_scope.
Local Open Scope Z_scope.

Record FlightProjectionDescriptor := mkProjection {
  fp_tid : Z;
  fp_timeline : TimelineDescriptor;
  fp_event_keys : list EventKey;
  fp_final_registers : option RegisterSnapshot
}.

Record FlightProvider := mkFlightProvider {
  fv_identity : SourceIdentity;
  fv_capabilities : ProviderCapabilities;
  fv_timelines : list TimelineDescriptor;
  fv_projections : list FlightProjectionDescriptor;
  fv_events : list EventRecord;
  fv_summary : ProviderSummary;
  fv_recovery_summary : FlightRecoverySummary
}.

Record FlightCursor := mkFlightCursor {
  fc_events : list EventRecord;
  fc_summary : ProviderSummary;
  fc_drained : bool;
  fc_poisoned : bool
}.

(** [resource_error] of the module. *)
Definition open_error (detail : string) : ProviderError :=
  ProviderError_new "source.flight.resource" "flight.open" None false detail.

Definition FLIGHT : bytes := String.list_byte_of_string "Flight".

Section open.
Context {W : Type} `{WorkGuard W} `{Allocator W} {S : Type}.
Abbreviation M := (Prog W ProviderError S).

(** [guard_checkpoint] of the module. *)
Definition open_checkpoint (index : Z) : M unit :=
  let! interval := lift_option (try_from usize_max MAX_UNGUARDED_RECORDS)
    (open_error "Flight checkpoint interval does not fit host") in
  if index mod interval =? 0 then consume WorkDelta_default else ret tt.

Definition open_string (value : bytes) : M bytes :=
  try_copy_string_in value "Flight provider allocation failed" FLIGHT_OPEN_ALLOCATION.

Definition open_vec (t : RustType) (capacity : Z) (detail : string) : M Z :=
  try_vec_with_capacity_in t capacity detail FLIGHT_OPEN_ALLOCATION.

(** What the loop over [recovered.tids] assigns. *)
Record OpenState := mkOpenState {
  os_timelines : list TimelineDescriptor;
  os_projections : list FlightProjectionDescriptor;
  os_final_registers : gmap Z RegisterSnapshot;
  os_projection_by_tid : gmap Z nat
}.

Definition tid_turn (st : OpenState) (indexed : nat * Z) : M OpenState :=
  let '(index, tid) := indexed in
  open_checkpoint (Z.of_nat index) ;!
  let! id := lift_option (checked_add u64_max (Z.of_nat index) 1)
    (open_error "projection timeline ID overflow") in
  let timeline := mkTimelineDescriptor id (Some tid) None in
  fail_if (bool_decide (is_Some (os_projection_by_tid st !! tid)))
    (open_error "duplicate Flight projection TID") ;!
  ret (mkOpenState (os_timelines st ++ [timeline])
         (os_projections st ++ [mkProjection tid timeline [] (os_final_registers st !! tid)])
         (delete tid (os_final_registers st)) (<[tid := index]> (os_projection_by_tid st))).

(** [projection_by_tid.get(&tid).copied().ok_or_else(..)] *)
Definition projection_of (by_tid : gmap Z nat) (tid : Z) : M nat :=
  lift_option (by_tid !! tid) (open_error "Flight event projection TID is missing").

Definition open_count_turn (by_tid : gmap Z nat) (counts : list Z) (indexed : nat * EventRecord) : M (list Z) :=
  let '(event_index, event) := indexed in
  open_checkpoint (Z.of_nat event_index) ;!
  match ek_tid (ev_key event) with
  | None => ret counts
  | Some tid =>
      let! index := projection_of by_tid tid in
      let! count := lift_option (counts !! index) (open_error "Flight projection count index is invalid") in
      let! count := lift_option (checked_add usize_max count 1)
        (open_error "Flight projection event count overflow") in
      ret (<[index := count]> counts)
  end.

(** [try_reserve_vec_exact_in(&mut projection.event_keys, count, ..)]: the keys
    are empty so far; the result is their capacity. *)
Definition reserve_turn (capacities : list Z) (indexed : nat * Z) : M (list Z) :=
  let '(index, count) := indexed in
  open_checkpoint (Z.of_nat index) ;!
  let! capacity := try_reserve_vec_exact_in T_EventKey 0 0 count
    "Flight projection key allocation failed" FLIGHT_OPEN_ALLOCATION in
  ret (capacities ++ [capacity]).

Definition key_turn (by_tid : gmap Z nat) (keys : list (Vec EventKey)) (indexed : nat * EventRecord) :
    M (list (Vec EventKey)) :=
  let '(event_index, event) := indexed in
  open_checkpoint (Z.of_nat event_index) ;!
  match ek_tid (ev_key event) with
  | None => ret keys
  | Some tid =>
      let! index := projection_of by_tid tid in
      let! own := lift_option (keys !! index) (open_error "Flight projection index is invalid") in
      let! grown := try_push_vec_in T_EventKey (v_items own) (v_capacity own) (ev_key event)
        "Flight projection key growth failed" FLIGHT_OPEN_ALLOCATION in
      ret (<[index := mkVec (fst grown) (snd grown)]> keys)
  end.

Definition summary_turn (out : list TimelineDescriptor) (indexed : nat * TimelineDescriptor) :
    M (list TimelineDescriptor) :=
  let '(index, timeline) := indexed in
  open_checkpoint (Z.of_nat index) ;!
  let! label := match td_label timeline with
    | Some label => let! label := open_string label in ret (Some label)
    | None => ret None
    end in
  ret (out ++ [mkTimelineDescriptor (td_id timeline) (td_tid timeline) label]).

Definition set_keys (p : FlightProjectionDescriptor) (keys : Vec EventKey) : FlightProjectionDescriptor :=
  mkProjection (fp_tid p) (fp_timeline p) (v_items keys) (fp_final_registers p).

Definition flight_capabilities : ProviderCapabilities :=
  mkCapabilities true true true true true true true true true.

(** [FlightProvider::open] after [recovery::recover]. *)
Definition open_recovered (identity : SourceIdentity) (recovered : RecoveredFlight) : M FlightProvider :=
  let threads := zlen (rf_tids recovered) in
  consume (delta_nodes (saturating_add usize_max threads 1)) ;!
  let! format := open_string FLIGHT in
  let identity := mkSourceIdentity (si_artifact identity) format 2 0 (rf_source_bytes recovered) in
  open_vec T_TimelineDescriptor (saturating_add usize_max threads 1) "Flight timeline allocation failed" ;!
  let! label := open_string FLIGHT in
  let merged := mkTimelineDescriptor MERGED_TIMELINE_ID None (Some label) in
  open_vec T_FlightProjection threads "Flight projection allocation failed" ;!
  try_reserve_hash_map_in ProjectionByTid T_projection_entry 0 threads
    "Flight projection map allocation failed" FLIGHT_OPEN_ALLOCATION ;!
  let! st := fold_each (imap pair (rf_tids recovered))
    (mkOpenState [merged] [] (rf_final_registers recovered) ∅) tid_turn in
  let projections := os_projections st in
  open_vec T_u64 (zlen projections) "Flight projection count allocation failed" ;!
  let! counts := fold_each (imap pair (rf_events recovered)) (replicate (length projections) 0)
    (open_count_turn (os_projection_by_tid st)) in
  let! capacities := fold_each (imap pair counts) [] reserve_turn in
  let! keys := fold_each (imap pair (rf_events recovered)) (map (mkVec []) capacities)
    (key_turn (os_projection_by_tid st)) in
  open_vec T_TimelineDescriptor (zlen (os_timelines st)) "Flight summary timeline allocation failed" ;!
  let! summary_timelines := fold_each (imap pair (os_timelines st)) [] summary_turn in
  ret (mkFlightProvider identity flight_capabilities (os_timelines st)
         (zip_with set_keys projections keys) (rf_events recovered)
         (mkSummary summary_timelines (rf_termination recovered) (rf_counters recovered)
            (rf_completeness recovered))
         (rf_recovery_summary recovered)).

Context {HO : HashOrder}.

Definition flight_open (source : ReadAtSource) (identity : SourceIdentity) : M FlightProvider :=
  let! recovered := recover source (si_artifact identity) in
  open_recovered identity recovered.

End open.

(** [TraceProvider::into_cursor] *)
Definition flight_into_cursor (p : FlightProvider) : FlightCursor :=
  mkFlightCursor (fv_events p) (fv_summary p) false false.

Definition flight_cursor_failed : ProviderError :=
  ProviderError_new "source.cursor_failed" "flight.cursor" None false
    "Flight cursor cannot continue after a prior failure".

Section cursor.
Context {W : Type} `{WorkGuard W}.

Definition flight_next_event : Prog W ProviderError FlightCursor (option EventRecord) := fun c w =>
  if fc_drained c then (Ok None, c, w)
  else if fc_poisoned c then (Err flight_cursor_failed, c, w)
  else
    match fc_events c with
    | [] => (Ok None, mkFlightCursor [] (fc_summary c) true (fc_poisoned c), w)
    | event :: events =>
        match guard_consume WorkDelta_default w with
        | (Err abort, w') =>
            (Err (from_abort abort), mkFlightCursor (fc_events c) (fc_summary c) (fc_drained c) true, w')
        | (Ok _, w') =>
            (Ok (Some event), mkFlightCursor events (fc_summary c) (fc_drained c) (fc_poisoned c), w')
        end
    end.

Definition flight_finish (c : FlightCursor) : result ProviderError ProviderSummary :=
  if negb (fc_drained c) || fc_poisoned c then Err stream_not_drained else Ok (fc_summary c).

End cursor.
