(* ===== verification/FlightOpened.v ===== *)
(** * What an opened Flight provider holds

    The projections of an opened provider split the keys of its events by
    thread, and its cursor hands out the recovered events in order.  The rules
    are proved against [Refusal], what a world may answer to a request for
    memory or work: any world refuses with a resource error, the one-state world
    never refuses. *)

From stdpp Require Import prelude list sorting strings gmap.
From Stdlib Require Import ZArith Lia Strings.Byte Sorted.
From S2P Require Import Prelude Prog Control Model Source QtrbEvents FlightWire FlightContext FlightScan FlightEvents FlightFragments FlightRecover FlightOutcome FlightProvider.
Local Open Scope string_scope.
Local Open Scope list_scope.
Local Open Scope Z_scope.

(** ** What a world may refuse *)

Class Refusal (W : Type) `{WorkGuard W} `{Allocator W} (refused : ProviderError -> Prop) : Prop := {
  refuse_consume {S} d (Q : unit -> S -> Prop) s :
    Q tt s -> wp (W := W) (consume d) Q (fun e _ => refused e) s;
  refuse_reserve {S} t cap len n detail (Q : Z -> S -> Prop) s :
    (forall c, n <= c -> Q c s) ->
    wp (W := W) (try_reserve_vec_exact_in t cap len n detail FLIGHT_OPEN_ALLOCATION) Q (fun e _ => refused e) s;
  refuse_copy {S} bs detail (Q : bytes -> S -> Prop) s :
    zlen bs <= u64_max -> Q bs s ->
    wp (W := W) (try_copy_string_in bs detail FLIGHT_OPEN_ALLOCATION) Q (fun e _ => refused e) s;
  refuse_map {S} id t len n detail (Q : unit -> S -> Prop) s :
    0 <= len -> len + n <= usize_max -> Q tt s ->
    wp (W := W) (try_reserve_hash_map_in id t len n detail FLIGHT_OPEN_ALLOCATION) Q (fun e _ => refused e) s
}.

#[export] Instance any_refusal (W : Type) `{WorkGuard W} `{!Allocator W} `{!AllocatorLaws W} :
  Refusal W resource_error.
Proof.
  split.
  - intros S d Q s HQ. by apply wp_consume.
  - intros S t cap len n detail Q s HQ. apply wp_reserve_vec_lawful; [apply _|apply _|done|done].
  - intros S bs detail Q s _ HQ. apply wp_copy_string; [apply _|done|done].
  - intros S id t len n detail Q s _ _ HQ. apply wp_reserve_map; [apply _|done|done].
Qed.

Lemma wp_run {S A} (p : Prog unit ProviderError S A) (Q : A -> S -> Prop) (R : ProviderError -> S -> Prop) s a :
  run p s = (Ok a, s) -> Q a s -> wp p Q R s.
Proof.
  intros Hrun HQ []. unfold run in Hrun. destruct (p s tt) as [[r s'] []]. cbn in Hrun. by injection Hrun as -> ->.
Qed.

#[export] Instance no_refusal : Refusal unit (fun _ => False).
Proof.
  split.
  - intros S d Q s HQ. by eapply wp_run.
  - intros S t cap len n detail Q s HQ.
    destruct (run_reserve_vec_in t cap len n detail FLIGHT_OPEN_ALLOCATION s) as [c Hc].
    eapply wp_run; [exact Hc|]. apply HQ.
    pose proof (wp_reserve_vec_lawful (W := unit) FLIGHT_OPEN_ALLOCATION t cap len n detail
      (fun c _ => n <= c) (fun _ _ => True) s ltac:(done) ltac:(done) tt) as Hl.
    unfold run in Hc. destruct (try_reserve_vec_exact_in t cap len n detail FLIGHT_OPEN_ALLOCATION s tt)
      as [[r s'] []]. cbn in Hc. by injection Hc as -> ->.
  - intros S bs detail Q s Hbs HQ. eapply wp_run; [by apply run_copy_string|done].
  - intros S id t len n detail Q s Hl Hn HQ. eapply wp_run; [by apply run_reserve_map|done].
Qed.

(** ** The provider that should come out *)

Definition thread_timeline (i : nat) (tid : Z) : TimelineDescriptor :=
  mkTimelineDescriptor (Z.of_nat i + 1) (Some tid) None.
Definition merged_timeline : TimelineDescriptor := mkTimelineDescriptor MERGED_TIMELINE_ID None (Some FLIGHT).
Definition all_timelines (tids : list Z) : list TimelineDescriptor :=
  merged_timeline :: imap thread_timeline tids.

(** The keys of the events of one thread, in order. *)
Definition keys_of (tid : Z) (events : list EventRecord) : list EventKey :=
  map ev_key (List.filter (fun e => bool_decide (ek_tid (ev_key e) = Some tid)) events).

Definition opened (identity : SourceIdentity) (out : RecoveredFlight) : FlightProvider :=
  let timelines := all_timelines (rf_tids out) in
  mkFlightProvider
    (mkSourceIdentity (si_artifact identity) FLIGHT 2 0 (rf_source_bytes out)) flight_capabilities timelines
    (imap (fun i tid => mkProjection tid (thread_timeline i tid) (keys_of tid (rf_events out))
                          (rf_final_registers out !! tid)) (rf_tids out))
    (rf_events out)
    (mkSummary timelines (rf_termination out) (rf_counters out) (rf_completeness out))
    (rf_recovery_summary out).

Lemma keys_of_snoc tid events e :
  keys_of tid (events ++ [e])
  = keys_of tid events ++ (if bool_decide (ek_tid (ev_key e) = Some tid) then [ev_key e] else []).
Proof. unfold keys_of. rewrite List.filter_app, map_app. cbn. by destruct (bool_decide _). Qed.

Lemma keys_of_length tid events : zlen (keys_of tid events) <= zlen events.
Proof.
  unfold keys_of, zlen. rewrite length_map. apply Nat2Z.inj_le. induction events as [|e events IH]; [done|].
  cbn. destruct (bool_decide _); cbn; lia.
Qed.

Lemma keys_of_prefix tid before e after :
  ek_tid (ev_key e) = Some tid -> zlen (keys_of tid before) < zlen (keys_of tid (before ++ e :: after)).
Proof.
  intros He. unfold keys_of, zlen. rewrite !length_map, List.filter_app, length_app. cbn.
  rewrite bool_decide_eq_true_2 by done. cbn. lia.
Qed.

Section opening.
Context {W : Type} `{WorkGuard W} `{Allocator W} (refused : ProviderError -> Prop) `{!Refusal W refused}.
Context {S : Type}.
Implicit Types s : S.
Abbreviation gives p Q s := (wp (W := W) (S := S) p Q (fun e _ => refused e) s).

Lemma gives_open_checkpoint index (Q : unit -> S -> Prop) s :
  Q tt s -> gives (open_checkpoint index) Q s.
Proof.
  intros HQ. apply wp_bind, wp_option. cbn. case_match; [|by apply wp_ret]. by apply refuse_consume.
Qed.

(** *** The threads *)

Record threads_kept (registers : gmap Z RegisterSnapshot) (visited : list Z) (st : OpenState) : Prop :=
  mkThreadsKept {
  tk_timelines : os_timelines st = all_timelines visited;
  tk_projections : os_projections st
    = imap (fun i tid => mkProjection tid (thread_timeline i tid) [] (registers !! tid)) visited;
  tk_registers : forall tid, (tid ∉ visited) -> os_final_registers st !! tid = registers !! tid;
  tk_index : forall tid i, os_projection_by_tid st !! tid = Some i <-> visited !! i = Some tid
}.

Lemma wp_tid_turn registers visited tid st s :
  threads_kept registers visited st -> (tid ∉ visited) -> NoDup visited -> zlen visited < u64_max ->
  gives (tid_turn st (length visited, tid))
    (fun st' s' => s' = s /\ threads_kept registers (visited ++ [tid]) st') s.
Proof.
  intros [Ht Hp Hr Hi] Hnew Hnd Hlen. unfold tid_turn. apply wp_bind, gives_open_checkpoint.
  apply wp_bind, wp_option. rewrite checked_add_ok by (unfold zlen in Hlen; lia).
  assert (os_projection_by_tid st !! tid = None) as Hnone.
  { apply eq_None_not_Some. intros [i Hin%Hi]. by apply list_elem_of_lookup_2 in Hin. }
  apply wp_bind, wp_fail_if; rewrite Hnone; [intros _|by intros ?%bool_decide_eq_true%is_Some_None].
  apply wp_ret. split; [done|]. constructor; cbn.
  - rewrite Ht. unfold all_timelines. rewrite imap_app. cbn. by rewrite Nat.add_0_r.
  - rewrite Hp, imap_app. cbn. rewrite Nat.add_0_r, Hr by done. done.
  - intros t Ht'. rewrite not_elem_of_app, list_elem_of_singleton in Ht'. destruct Ht' as [Ht1 Ht2].
    rewrite lookup_delete_ne by done. by apply Hr.
  - intros t i. destruct (decide (tid = t)) as [<-|Hne].
    + rewrite lookup_insert_eq. split.
      * intros [= <-]. apply list_lookup_middle. done.
      * intros Hin. apply lookup_app_Some in Hin as [Hin|[Hge Hin]].
        -- by apply list_elem_of_lookup_2 in Hin.
        -- apply list_lookup_singleton_Some in Hin as [Hz _]. f_equal. lia.
    + rewrite lookup_insert_ne, Hi by done. split; intros Hin.
      * by apply lookup_app_l_Some.
      * apply lookup_app_Some in Hin as [Hin|[_ Hin]]; [done|].
        by apply list_lookup_singleton_Some in Hin as [_ ->].
Qed.

Lemma wp_threads registers tids s :
  NoDup tids -> zlen tids <= u64_max ->
  gives (fold_each (imap pair tids) (mkOpenState [merged_timeline] [] registers ∅) tid_turn)
    (fun st s' => s' = s /\ threads_kept registers tids st) s.
Proof.
  intros Hnd Hlen. apply (wp_fold_indexed (threads_kept registers)).
  - by constructor.
  - intros before tid after st -> Hst. apply NoDup_app in Hnd as (Hb & Hnot & _).
    apply wp_tid_turn; try done.
    + intros Hin. apply (Hnot tid Hin). left.
    + unfold zlen in *. rewrite length_app in Hlen. cbn in Hlen. lia.
Qed.

(** *** The keys of each thread *)

Section keys.
Context (tids : list Z) (by_tid : gmap Z nat) (events : list EventRecord).
Hypothesis Hindex : forall tid i, by_tid !! tid = Some i <-> tids !! i = Some tid.
Hypothesis Howned : Forall (owned tids) events.
Hypothesis Hroom : zlen events <= usize_max.

(** The projection of an event that has a thread. *)
Lemma owner e tid :
  e ∈ events -> ek_tid (ev_key e) = Some tid -> exists i, by_tid !! tid = Some i /\ tids !! i = Some tid.
Proof.
  intros He Ht. apply (proj1 (Forall_forall _ _) Howned) in He. unfold owned in He. rewrite Ht in He.
  apply list_elem_of_lookup in He as [i Hi]. exists i. split; [by apply Hindex|done].
Qed.

(** One entry per thread, as [f] says. *)
Definition per_thread {A} (f : Z -> A -> Prop) (l : list A) : Prop := Forall2 f tids l.

Lemma per_thread_update {A} (f g : Z -> A -> Prop) l i tid a :
  per_thread f l -> tids !! i = Some tid -> g tid a ->
  (forall t b, (t <> tid) -> f t b -> g t b) -> NoDup tids ->
  per_thread g (<[i := a]> l).
Proof.
  intros Hl Hi Ha Hother Hnd. unfold per_thread in *. rewrite Forall2_lookup in *. intros j.
  destruct (decide (i = j)) as [<-|Hne].
  - specialize (Hl i). rewrite Hi in *. inversion Hl as [? b Hf Hb Heq|]. subst.
    rewrite list_lookup_insert_eq by (symmetry in Heq; by apply lookup_lt_Some in Heq). by constructor.
  - rewrite list_lookup_insert_ne by done. specialize (Hl j). destruct (tids !! j) as [t|] eqn:Hj.
    + inversion Hl as [? b Hf Hb Heq|]. subst. constructor. apply Hother; [|done].
      intros ->. apply Hne. by eapply NoDup_lookup.
    + inversion Hl. constructor.
Qed.

Lemma per_thread_weaken {A} (f g : Z -> A -> Prop) l :
  per_thread f l -> (forall t b, f t b -> g t b) -> per_thread g l.
Proof. intros Hl Hfg. by eapply Forall2_impl. Qed.

Lemma wp_counts s :
  NoDup tids ->
  gives (fold_each (imap pair events) (replicate (length tids) 0) (open_count_turn by_tid))
    (fun counts s' => s' = s /\ per_thread (fun tid n => n = zlen (keys_of tid events)) counts) s.
Proof.
  intros Hnd. apply (wp_fold_indexed (fun visited =>
    per_thread (fun tid n => n = zlen (keys_of tid visited)))).
  { unfold per_thread. apply Forall2_same_length_lookup_2; [by rewrite length_replicate|].
    intros i t n _ [-> _]%lookup_replicate. done. }
  intros before e after counts Hsplit Hc. unfold open_count_turn. apply wp_bind, gives_open_checkpoint.
  destruct (ek_tid (ev_key e)) as [tid|] eqn:Ht.
  - assert (e ∈ events) as He by (rewrite Hsplit; apply elem_of_app; right; left).
    destruct (owner e tid He Ht) as (i & Hb & Hi).
    destruct (Forall2_lookup_l _ _ _ _ _ Hc Hi) as (n & Hn & Hlen).
    apply wp_bind, wp_option. rewrite Hb. apply wp_bind, wp_option. rewrite Hn. apply wp_bind, wp_option.
    pose proof (keys_of_prefix tid before e after Ht) as Hlt. rewrite <- Hsplit in Hlt.
    pose proof (keys_of_length tid events). rewrite checked_add_ok by lia. apply wp_ret. split; [done|].
    eapply per_thread_update; [exact Hc|exact Hi|..|done].
    + cbn. rewrite keys_of_snoc, bool_decide_eq_true_2, zlen_app by done. unfold zlen at 2. cbn. lia.
    + intros t b Hne ->. rewrite keys_of_snoc, bool_decide_eq_false_2, app_nil_r by congruence. done.
  - apply wp_ret. split; [done|]. eapply per_thread_weaken; [exact Hc|].
    intros t b ->. by rewrite keys_of_snoc, bool_decide_eq_false_2, app_nil_r by congruence.
Qed.

Lemma wp_reserves counts s :
  per_thread (fun tid n => n = zlen (keys_of tid events)) counts ->
  gives (fold_each (imap pair counts) [] reserve_turn)
    (fun capacities s' => s' = s /\ per_thread (fun tid c => zlen (keys_of tid events) <= c) capacities) s.
Proof.
  intros Hcounts. eapply (wp_mono _ (fun capacities s' => s' = s /\ Forall2 Z.le counts capacities)).
  - apply (wp_fold_indexed (fun visited => Forall2 Z.le visited)); [constructor|].
    intros before n after capacities _ Hc. apply wp_bind, gives_open_checkpoint.
    apply wp_bind, refuse_reserve. intros c Hle. apply wp_ret. split; [done|].
    apply Forall2_app; [done|]. by constructor.
  - intros capacities s' [-> Hc]. split; [done|]. unfold per_thread in *. rewrite Forall2_lookup in *. intros i.
    specialize (Hcounts i). specialize (Hc i). inversion Hcounts as [t n Hn Ht Hi|Ht Hi]; rewrite <- Hi in Hc.
    + inversion Hc as [? c Hle Hn' Hci|]. constructor. lia.
    + inversion Hc. constructor.
  - intros e s'. exact id.
Qed.

Lemma gives_key_push (own : Vec EventKey) key (Q : list EventKey * Z -> S -> Prop) s :
  zlen (v_items own) < v_capacity own -> Q (v_items own ++ [key], v_capacity own) s ->
  gives (try_push_vec_in T_EventKey (v_items own) (v_capacity own) key
           "Flight projection key growth failed" FLIGHT_OPEN_ALLOCATION) Q s.
Proof.
  intros Hcap HQ. unfold try_push_vec_in. replace (zlen (v_items own) =? v_capacity own) with false by lia.
  by apply wp_bind, wp_ret, wp_ret.
Qed.

Lemma wp_keys capacities s :
  NoDup tids -> per_thread (fun tid c => zlen (keys_of tid events) <= c) capacities ->
  gives (fold_each (imap pair events) (map (mkVec []) capacities) (key_turn by_tid))
    (fun keys s' => s' = s /\ per_thread (fun tid v => v_items v = keys_of tid events) keys) s.
Proof.
  intros Hnd Hcaps.
  eapply (wp_mono _ (fun keys s' => s' = s /\ per_thread (fun tid v => v_items v = keys_of tid events
    /\ zlen (keys_of tid events) <= v_capacity v) keys)); [| |intros e s'; exact id].
  2: { intros keys s' [-> Hk]. split; [done|]. eapply per_thread_weaken; [exact Hk|]. by intros t b []. }
  apply (wp_fold_indexed (fun visited => per_thread (fun tid v => v_items v = keys_of tid visited
    /\ zlen (keys_of tid events) <= v_capacity v))).
  { unfold per_thread in *. apply Forall2_fmap_r. eapply Forall2_impl; [exact Hcaps|]. by cbn. }
  intros before e after keys Hsplit Hk. unfold key_turn. apply wp_bind, gives_open_checkpoint.
  destruct (ek_tid (ev_key e)) as [tid|] eqn:Ht.
  - assert (e ∈ events) as He by (rewrite Hsplit; apply elem_of_app; right; left).
    destruct (owner e tid He Ht) as (i & Hb & Hi).
    destruct (Forall2_lookup_l _ _ _ _ _ Hk Hi) as (own & Hown & Hitems & Hcap).
    apply wp_bind, wp_option. rewrite Hb. apply wp_bind, wp_option. rewrite Hown.
    pose proof (keys_of_prefix tid before e after Ht) as Hlt. rewrite <- Hsplit in Hlt.
    apply wp_bind, gives_key_push; [rewrite Hitems; lia|]. apply wp_ret. split; [done|].
    eapply per_thread_update; [exact Hk|exact Hi|..|done]; cbn.
    + by rewrite Hitems, keys_of_snoc, bool_decide_eq_true_2.
    + intros t b Hne [-> Hc]. by rewrite keys_of_snoc, bool_decide_eq_false_2, app_nil_r by congruence.
  - apply wp_ret. split; [done|]. eapply per_thread_weaken; [exact Hk|].
    intros t b [-> Hc]. by rewrite keys_of_snoc, bool_decide_eq_false_2, app_nil_r by congruence.
Qed.

End keys.

(** *** The whole of the opening *)

Lemma wp_summary timelines s :
  Forall (fun t => match td_label t with Some label => zlen label <= u64_max | None => True end) timelines ->
  gives (fold_each (imap pair timelines) [] summary_turn) (fun out s' => s' = s /\ out = timelines) s.
Proof.
  intros Hl. apply (wp_fold_indexed (fun visited out => out = visited)); [done|].
  intros before t after out -> ->. apply Forall_app in Hl as [_ [Ht _]%Forall_cons].
  apply wp_bind, gives_open_checkpoint, wp_bind. destruct t as [id tid [label|]]; cbn in *.
  - apply wp_bind, refuse_copy; [done|]. by apply wp_ret, wp_ret.
  - by apply wp_ret, wp_ret.
Qed.

Lemma set_keys_zip tids projections keys (f : nat -> Z -> FlightProjectionDescriptor) events :
  projections = imap f tids -> Forall2 (fun tid (v : Vec EventKey) => v_items v = keys_of tid events) tids keys ->
  zip_with set_keys projections keys
  = imap (fun i tid => mkProjection (fp_tid (f i tid)) (fp_timeline (f i tid)) (keys_of tid events)
                         (fp_final_registers (f i tid))) tids.
Proof.
  intros -> Hk. revert f. induction Hk as [|tid v tids keys Hv Hk IH]; intros f; [done|]. cbn [imap zip_with].
  f_equal; [unfold set_keys; by rewrite Hv|]. apply (IH (f ∘ Datatypes.S)).
Qed.

Lemma wp_open_recovered identity out s :
  StronglySorted Z.lt (rf_tids out) -> Forall in_u32 (rf_tids out) ->
  Forall (owned (rf_tids out)) (rf_events out) -> zlen (rf_events out) <= usize_max ->
  gives (open_recovered identity out) (fun p s' => s' = s /\ p = opened identity out) s.
Proof.
  intros Hsorted Hu32 Howned Hroom.
  pose proof (increasing_length (rf_tids out) 0 u32_max Hsorted Hu32) as Hlen.
  assert (zlen (rf_tids out) <= u64_max) as Hlen64 by (unfold u32_max, u64_max in *; lia).
  assert (zlen FLIGHT <= u64_max) as Hname by (vm_compute; discriminate).
  assert (NoDup (rf_tids out)) as Hnd.
  { clear -Hsorted. induction Hsorted as [|t l Hl IH Ht]; [constructor|]. constructor; [|done].
    intros Hin. apply (proj1 (Forall_forall _ _) Ht) in Hin. lia. }
  unfold open_recovered. apply wp_bind, refuse_consume, wp_bind, refuse_copy; [done|].
  apply wp_bind, refuse_reserve. intros _ _. apply wp_bind, refuse_copy; [done|].
  apply wp_bind, refuse_reserve. intros _ _.
  apply wp_bind, refuse_map; [lia|unfold usize_max; lia|]. apply wp_bind.
  eapply wp_mono; [by apply wp_threads| |intros e s'; exact id]. intros st s' [-> [Ht Hp _ Hi]].
  apply wp_bind, refuse_reserve. intros _ _. apply wp_bind.
  replace (length (os_projections st)) with (length (rf_tids out)) by (rewrite Hp; by rewrite length_imap).
  eapply wp_mono; [by eapply wp_counts| |intros e s'; exact id]. intros counts s' [-> Hc]. apply wp_bind.
  eapply wp_mono; [by eapply wp_reserves| |intros e s'; exact id]. intros capacities s' [-> Hcap]. apply wp_bind.
  eapply wp_mono; [by eapply wp_keys| |intros e s'; exact id]. intros keys s' [-> Hkeys].
  apply wp_bind, refuse_reserve. intros _ _. apply wp_bind. rewrite Ht.
  eapply wp_mono; [apply wp_summary| |intros e s'; exact id].
  { constructor; [done|]. apply Forall_forall. intros t (i & tid & -> & _)%elem_of_lookup_imap. done. }
  intros summary s' [-> ->]. apply wp_ret. split; [done|]. unfold opened. f_equal.
  by rewrite (set_keys_zip _ _ _ _ _ Hp Hkeys).
Qed.

End opening.
