(* ===== verification/Cursor.v ===== *)
(** * Event cursors

    [EventCursor] of [qtrace-provider/src/source.rs] as an interface: its two
    operations and what an implementation promises.  The QTRB cursor and the
    Flight cursor implement it, and so do the two cursors that
    [qtrace-store/src/session.rs] puts around another one.  [probe] of that
    file is their client.  [CursorLaws] carries the steps that proofs about
    several cursors share. *)

From stdpp Require Import prelude list strings gmap.
From Stdlib Require Import ZArith Lia Strings.Byte.
From S2P Require Import Prelude Prog Control Throws Model Source QtrbEvents Qtrb QtrbTheorems FlightRecover FlightProvider.
Local Open Scope string_scope.
Local Open Scope list_scope.
Local Open Scope Z_scope.

(** ** The interface *)

Class EventCursor (W C : Type) := mkEventCursor {
  cursor_next : Prog W ProviderError C (option EventRecord);
  cursor_finish : Prog W ProviderError C ProviderSummary
}.

(** What a cursor promises: an end and a failure are final, a call that returns
    an event leaves the cursor readable, and only a cursor that was read to its
    end without a failure can be finished. *)
Class CursorLaws (W C : Type) {cursor : EventCursor W C} := mkCursorLaws {
  cursor_drained : C -> bool;
  cursor_failed : C -> bool;
  law_end c w : cursor_drained c = true -> cursor_next c w = (Ok None, c, w);
  law_failed c w : cursor_drained c = false -> cursor_failed c = true ->
    exists e, cursor_next c w = (Err e, c, w) /\ pe_code e = "source.cursor_failed";
  law_step c w : cursor_drained c = false -> cursor_failed c = false ->
    match cursor_next c w with
    | (Ok (Some _), c', _) => cursor_drained c' = false /\ cursor_failed c' = false
    | (Ok None, c', _) => cursor_drained c' = true /\ cursor_failed c' = false
    | (Err _, c', _) => cursor_drained c' = false /\ cursor_failed c' = true
    end;
  law_finish c w : cursor_drained c = false \/ cursor_failed c = true ->
    fst (fst (cursor_finish c w)) = Err stream_not_drained
}.

(** ** The cursors of the providers *)

Section flight.
Context {W : Type} `{WorkGuard W}.

#[export] Instance flight_event_cursor : EventCursor W FlightCursor :=
  mkEventCursor W FlightCursor flight_next_event (fun c w => (flight_finish c, c, w)).

#[export] Instance flight_cursor_laws : CursorLaws W FlightCursor.
Proof.
  refine {| cursor_drained := fc_drained; cursor_failed := fc_poisoned |}; intros c w; cbn; unfold flight_next_event.
  - by intros ->.
  - intros -> ->. by eexists.
  - intros -> ->. destruct (fc_events c); [done|]. by destruct (guard_consume _ w) as [[[]|] ?].
  - unfold flight_finish. destruct (fc_drained c), (fc_poisoned c); naive_solver.
Defined.

End flight.

Section qtrb.
Context {W : Type} `{WorkGuard W} `{Allocator W}.
Abbreviation keep p := (keeps (W := W) (E := ProviderError) q_poisoned p).

Lemma keeps_poisoned_definition id d : keep (typed_definition id d).
Proof. unfold typed_definition, typed_register. keep_auto. Qed.
Lemma keeps_poisoned_clone d : keep (clone_definition_wire d).
Proof. unfold clone_definition_wire, clone_register_wire. keep_auto. Qed.
Hint Resolve keeps_poisoned_definition keeps_poisoned_clone : keep.

Lemma keeps_poisoned_semantic r k : keep (decode_semantic r k).
Proof.
  unfold decode_semantic, decode_fragment, take_or_start_pending, finish_fragment, from_utf8. keep_auto.
Qed.
Hint Resolve keeps_poisoned_semantic : keep.

Lemma keeps_poisoned_record r : keep (decode_record r).
Proof.
  unfold decode_record, decode_begin, decode_module, decode_instruction_definition,
    decode_instruction, decode_memory, decode_trace_end, decode_trace_stop, accept_terminal.
  keep_auto.
Qed.
Hint Resolve keeps_poisoned_record : keep.

Lemma keeps_poisoned_turn : keep next_event_turn.
Proof.
  unfold next_event_turn, finish_stream, validate_source_identity, read_record, parse_record_header. keep_auto.
Qed.

Lemma keeps_poisoned_loop fuel : keep (next_event_loop fuel).
Proof.
  induction fuel as [|fuel IH]; cbn [next_event_loop]; [apply keeps_throw|].
  apply keeps_bind; [apply keeps_poisoned_turn|]. intros [r|]; [apply keeps_ret|exact IH].
Qed.

#[export] Instance qtrb_event_cursor : EventCursor W QtrbEventCursor :=
  mkEventCursor W QtrbEventCursor next_event cursor_summary.

#[export] Instance qtrb_cursor_laws : CursorLaws W QtrbEventCursor.
Proof.
  refine {| cursor_drained := q_drained; cursor_failed := q_poisoned |}; intros q w; cbn.
  - intros Hd. unfold next_event. by rewrite Hd.
  - intros Hd Hp. unfold next_event. rewrite Hd, Hp. by eexists.
  - intros Hd Hp. unfold next_event. rewrite Hd, Hp.
    pose proof (loop_not_drained (loop_fuel q) q w Hd) as Hl.
    pose proof (keeps_poisoned_loop (loop_fuel q) q w) as Hk. unfold next_event_inner, bind, get.
    destruct (next_event_loop _ q w) as [[[[e|]|e] q1] w1]; [by rewrite Hk..|done].
  - intros Hrefused. unfold cursor_summary, bind, get.
    replace (negb (q_drained q) || q_poisoned q) with true; [done|].
    destruct Hrefused as [->| ->]; [done|by rewrite orb_true_r].
Defined.

End qtrb.

(** ** Cursors around a cursor *)

(** [TimelineRemapCursor] *)
Record TimelineRemapCursor (C : Type) := mkRemap { tr_inner : C; tr_timeline_id : TimelineId }.
Arguments mkRemap {C} _ _.
Arguments tr_inner {C} _.
Arguments tr_timeline_id {C} _.

(** [event.key.timeline = self.timeline_id] *)
Definition set_timeline (id : TimelineId) (e : EventRecord) : EventRecord :=
  let k := ev_key e in
  mkEventRecord (mkEventKey (ek_artifact k) id (ek_record_ordinal k) (ek_source_offset k) (ek_sequence k) (ek_tid k))
    (ev_provenance e) (ev_payload e) (ev_scope e) (ev_fragment_source_offsets e).

Definition remap_summary (id : TimelineId) (s : ProviderSummary) : ProviderSummary :=
  mkSummary (map (fun t => mkTimelineDescriptor id (td_tid t) (td_label t)) (ps_timelines s))
    (ps_termination s) (ps_counters s) (ps_completeness s).

(** [TimelineRemapProvider::into_cursor], on the cursor of the provider inside *)
Definition remap_into_cursor {C} (inner : C) (id : TimelineId) : TimelineRemapCursor C := mkRemap inner id.

Definition set_inner {C} (inner : C) (c : TimelineRemapCursor C) : TimelineRemapCursor C :=
  mkRemap inner (tr_timeline_id c).

Section remap.
Context {W C : Type} {inner : EventCursor W C}.

Definition remap_next : Prog W ProviderError (TimelineRemapCursor C) (option EventRecord) :=
  let! event := zoom tr_inner set_inner cursor_next in
  match event with
  | None => ret None
  | Some event => let! c := get in ret (Some (set_timeline (tr_timeline_id c) event))
  end.

Definition remap_finish : Prog W ProviderError (TimelineRemapCursor C) ProviderSummary :=
  let! summary := zoom tr_inner set_inner cursor_finish in
  let! c := get in
  ret (remap_summary (tr_timeline_id c) summary).

#[export] Instance remap_event_cursor : EventCursor W (TimelineRemapCursor C) :=
  mkEventCursor W _ remap_next remap_finish.

#[export] Instance remap_cursor_laws {laws : CursorLaws W C} : CursorLaws W (TimelineRemapCursor C).
Proof.
  refine {| cursor_drained c := cursor_drained (tr_inner c); cursor_failed c := cursor_failed (tr_inner c) |};
    intros [c id] w; cbn [tr_inner]; cbn; unfold remap_next, remap_finish, bind, zoom, set_inner; cbn.
  - intros Hd. by rewrite law_end.
  - intros Hd Hf. destruct (law_failed c w Hd Hf) as (e & -> & He). by exists e.
  - intros Hd Hf. pose proof (law_step c w Hd Hf) as Hs. by destruct (cursor_next c w) as [[[[e|]|e] c'] w'].
  - intros Hr. pose proof (law_finish c w Hr) as Hs.
    destruct (cursor_finish c w) as [[[s|e] c'] w']; cbn in *; [done|congruence].
Defined.

End remap.

(** [IdentityCheckedCursor]: the file is an interface, [verify] is
    [source.verify_unchanged(expected, true)] on the file and its expected
    identity. *)
Record IdentityCheckedCursor (C F : Type) := mkChecked { ic_inner : C; ic_source : F }.
Arguments mkChecked {C F} _ _.
Arguments ic_inner {C F} _.
Arguments ic_source {C F} _.

(** [IdentityCheckedProvider::into_cursor], on the cursor of the provider inside *)
Definition checked_into_cursor {C F} (inner : C) (source : F) : IdentityCheckedCursor C F := mkChecked inner source.

Definition set_checked {C F} (inner : C) (c : IdentityCheckedCursor C F) : IdentityCheckedCursor C F :=
  mkChecked inner (ic_source c).

Class SourceIdentityCheck (W F : Type) := verify_unchanged : F -> W -> result ProviderError unit * W.

Section checked.
Context {W C F : Type} {inner : EventCursor W C} {verify : SourceIdentityCheck W F}.

Definition checked_next : Prog W ProviderError (IdentityCheckedCursor C F) (option EventRecord) :=
  zoom ic_inner set_checked cursor_next.

Definition checked_finish : Prog W ProviderError (IdentityCheckedCursor C F) ProviderSummary :=
  let! summary := zoom ic_inner set_checked cursor_finish in
  let! c := get in
  (fun s w => let '(r, w) := verify_unchanged (ic_source c) w in (r, s, w)) ;!
  ret summary.

#[export] Instance checked_event_cursor : EventCursor W (IdentityCheckedCursor C F) :=
  mkEventCursor W _ checked_next checked_finish.

#[export] Instance checked_cursor_laws {laws : CursorLaws W C} : CursorLaws W (IdentityCheckedCursor C F).
Proof.
  refine {| cursor_drained c := cursor_drained (ic_inner c); cursor_failed c := cursor_failed (ic_inner c) |};
    intros [c f] w; cbn [ic_inner]; cbn; unfold checked_next, checked_finish, bind, zoom, set_checked; cbn.
  - intros Hd. by rewrite law_end.
  - intros Hd Hf. destruct (law_failed c w Hd Hf) as (e & -> & He). by exists e.
  - intros Hd Hf. pose proof (law_step c w Hd Hf) as Hs. by destruct (cursor_next c w) as [[[[e|]|e] c'] w'].
  - intros Hr. pose proof (law_finish c w Hr) as Hs.
    destruct (cursor_finish c w) as [[[s|e] c'] w']; cbn in *; [done|congruence].
Defined.

End checked.

(** ** The client *)

Inductive ArtifactFormat := FormatQtrb | FormatQtrbLz4 | FormatFlight.
Definition is_qtrb (f : ArtifactFormat) : bool := match f with FormatFlight => false | _ => true end.

Definition normalize_provider_error (format : ArtifactFormat) (e : ProviderError) : ProviderError :=
  if is_qtrb format && bool_decide (pe_code e = "source.short_read")
  then ProviderError_new "source.qtrb.truncated" (pe_stage e) (pe_source e) (pe_retryable e) (error_detail e)
  else e.

Section client.
Context {W C : Type} {cursor : EventCursor W C}.

(** [while let Some(event) = cursor.next_event(guard)? { .. }], at most [fuel]
    calls; [None] means the calls did not suffice. *)
Fixpoint drain (fuel : nat) (c : C) (w : W) : option (result ProviderError (list EventRecord) * C * W) :=
  match fuel with
  | O => None
  | S fuel =>
      match cursor_next c w with
      | (Err e, c', w') => Some (Err e, c', w')
      | (Ok None, c', w') => Some (Ok [], c', w')
      | (Ok (Some e), c', w') =>
          match drain fuel c' w' with
          | Some (Ok events, c'', w'') => Some (Ok (e :: events), c'', w'')
          | other => other
          end
      end
  end.

(** [probe]: read everything, then finish. *)
Definition probe (fuel : nat) (format : ArtifactFormat) (c : C) (w : W) : option (result ProviderError unit * W) :=
  match drain fuel c w with
  | Some (Ok _, c', w') =>
      let '(r, _, w'') := cursor_finish c' w' in
      Some (match r with Ok _ => Ok tt | Err e => Err (normalize_provider_error format e) end, w'')
  | Some (Err e, _, w') => Some (Err (normalize_provider_error format e), w')
  | None => None
  end.

End client.
