(* ===== verification/Streams.v ===== *)
(** * Streams of events

    Reading a provider to its end: the stream of a QTRB session, what the cursors
    of [session.rs] add to the one they wrap, and the stream of an opened Flight
    artifact. *)

From stdpp Require Import prelude list sorting strings gmap.
From Stdlib Require Import ZArith Lia Strings.Byte Sorted.
From S2P Require Import Prelude Prog Control Model Source QtrbWire QtrbEvents Qtrb QtrbLoop QtrbInv QtrbClient QtrbSample FlightWire FlightContext FlightScan FlightEvents FlightFragments FlightRecover FlightOutcome FlightProvider FlightOpened Cursor.
Local Open Scope string_scope.
Local Open Scope list_scope.
Local Open Scope Z_scope.

Lemma drain_step {W C} {cursor : EventCursor W C} fuel (c : C) (w : W) :
  drain (S fuel) c w
  = match cursor_next c w with
    | (Err e, c', w') => Some (Err e, c', w')
    | (Ok None, c', w') => Some (Ok [], c', w')
    | (Ok (Some e), c', w') =>
        match drain fuel c' w' with
        | Some (Ok events, c'', w'') => Some (Ok (e :: events), c'', w'')
        | other => other
        end
    end.
Proof. done. Qed.

Section client.
Context {W C : Type} {cursor : EventCursor W C} {laws : CursorLaws W C}.

Lemma drain_outcome fuel (c : C) (w : W) :
  cursor_drained c = false -> cursor_failed c = false ->
  match drain fuel c w with
  | Some (Ok _, c', _) => cursor_drained c' = true /\ cursor_failed c' = false
  | Some (Err _, c', _) => cursor_drained c' = false /\ cursor_failed c' = true
  | None => True
  end.
Proof.
  revert c w. induction fuel as [|fuel IH]; intros c w Hd Hf; [done|]. cbn.
  pose proof (law_step c w Hd Hf) as Hs. destruct (cursor_next c w) as [[[[e|]|e] c1] w1]; [|done..].
  destruct Hs as [Hd1 Hf1]. specialize (IH c1 w1 Hd1 Hf1).
  by destruct (drain fuel c1 w1) as [[[[es|e1] c2] w2]|].
Qed.

End client.

(** ** The cursors of a session *)

(** The event [e'] is the event [e] on the timeline [id]. *)
Record retimed (id : TimelineId) (e e' : EventRecord) : Prop := mkRetimed {
  rt_timeline : ek_timeline (ev_key e') = id;
  rt_artifact : ek_artifact (ev_key e') = ek_artifact (ev_key e);
  rt_position : ek_record_ordinal (ev_key e') = ek_record_ordinal (ev_key e)
    /\ ek_source_offset (ev_key e') = ek_source_offset (ev_key e);
  rt_source : ek_sequence (ev_key e') = ek_sequence (ev_key e) /\ ek_tid (ev_key e') = ek_tid (ev_key e);
  rt_event : ev_provenance e' = ev_provenance e /\ ev_payload e' = ev_payload e /\ ev_scope e' = ev_scope e;
  rt_fragments : ev_fragment_source_offsets e' = ev_fragment_source_offsets e
}.

(** The summary [s'] is the summary [s] with all its timelines named [id]. *)
Record summary_retimed (id : TimelineId) (s s' : ProviderSummary) : Prop := mkSummaryRetimed {
  sr_timelines : Forall2 (fun t t' => td_id t' = id /\ td_tid t' = td_tid t /\ td_label t' = td_label t)
    (ps_timelines s) (ps_timelines s');
  sr_outcome : ps_termination s' = ps_termination s /\ ps_counters s' = ps_counters s;
  sr_completeness : ps_completeness s' = ps_completeness s
}.

(** Two calls that end alike: values related by [R], the same error, the same world. *)
Definition ends_alike {A C C' W} (R : A -> A -> Prop) (inner : C' -> C)
    (x : result ProviderError A * C * W) (y : result ProviderError A * C' * W) : Prop :=
  let '(r, c, w) := x in
  let '(r', c', w') := y in
  inner c' = c /\ w' = w
  /\ match r, r' with
     | Ok a, Ok a' => R a a'
     | Err e, Err e' => e' = e
     | _, _ => False
     end.
Definition runs_alike {A C C' W} (R : A -> A -> Prop) (inner : C' -> C)
    (x : option (result ProviderError A * C * W)) (y : option (result ProviderError A * C' * W)) : Prop :=
  match x, y with
  | Some x, Some y => ends_alike R inner x y
  | None, None => True
  | _, _ => False
  end.

(** A cursor around another one whose calls end as those of the inner one do. *)
Lemma drain_alike {W C C'} {cursor : EventCursor W C} {wrapped : EventCursor W C'} (inner : C' -> C)
    (keeps : C' -> Prop) (R : EventRecord -> EventRecord -> Prop) :
  (forall (c' : C') (w : W), keeps c' ->
     ends_alike (option_Forall2 R) inner (cursor_next (inner c') w) (cursor_next c' w) /\ keeps (snd (fst (cursor_next c' w)))) ->
  forall fuel (c' : C') (w : W), keeps c' ->
  runs_alike (Forall2 R) inner (drain fuel (inner c') w) (drain fuel c' w)
  /\ match drain fuel c' w with Some (_, c1, _) => keeps c1 | None => True end.
Proof.
  intros Hnext. induction fuel as [|fuel IH]; intros c' w Hk; [done|]. rewrite !drain_step.
  destruct (Hnext c' w Hk) as [Ha Hk1].
  destruct (cursor_next (inner c') w) as [[[[e|]|e] c1] w1], (cursor_next c' w) as [[[[e'|]|e'] c1'] w1'];
    destruct Ha as (<- & -> & Hr); try (by inversion Hr); try done.
  - inversion Hr as [? ? He|]; subst. specialize (IH c1' w1 Hk1).
    destruct (drain fuel (inner c1') w1) as [[[[es|e1] c2] w2]|], (drain fuel c1' w1) as [[[[es'|e1'] c2'] w2']|];
      cbn in *; intuition.
Qed.

Lemma remap_next_alike {W C} {cursor : EventCursor W C} id (c' : TimelineRemapCursor C) (w : W) :
  tr_timeline_id c' = id ->
  ends_alike (option_Forall2 (retimed id)) tr_inner (cursor_next (tr_inner c') w) (cursor_next c' w)
  /\ tr_timeline_id (snd (fst (cursor_next c' w))) = id.
Proof.
  intros <-. destruct c' as [c id]. cbn. unfold remap_next, bind, zoom, set_inner. cbn.
  destruct (cursor_next c w) as [[[[e|]|e] c1] w1]; cbn; split; try done.
  - split_and!; [done..|]. by repeat constructor.
  - split_and!; [done..|]. constructor.
Qed.

Lemma checked_next_alike {W C F} {cursor : EventCursor W C} {verify : SourceIdentityCheck W F} file
    (c' : IdentityCheckedCursor C F) (w : W) :
  ic_source c' = file ->
  ends_alike (option_Forall2 eq) ic_inner (cursor_next (ic_inner c') w) (cursor_next c' w)
  /\ ic_source (snd (fst (cursor_next c' w))) = file.
Proof.
  intros <-. destruct c' as [c file]. cbn. unfold checked_next, zoom, set_checked. cbn.
  destruct (cursor_next c w) as [[[[e|]|e] c1] w1]; cbn; split; try done; split_and!; try done; by constructor.
Qed.

Lemma remap_summary_retimed id s : summary_retimed id s (remap_summary id s).
Proof. split; [|done..]. cbn. induction (ps_timelines s); by constructor. Qed.

Lemma remap_finish_alike {W C} {cursor : EventCursor W C} (c' : TimelineRemapCursor C) (w : W) :
  ends_alike (summary_retimed (tr_timeline_id c')) tr_inner (cursor_finish (tr_inner c') w) (cursor_finish c' w).
Proof.
  destruct c' as [c id]. cbn. unfold remap_finish, bind, zoom, set_inner. cbn.
  destruct (cursor_finish c w) as [[[s|e] c1] w1]; cbn; [|done]. split_and!; [done..|].
  apply remap_summary_retimed.
Qed.

(** C18: what the cursors of a session add, to any cursor.  The remapping one
    makes the same calls on the cursor inside, with the same effects on it, on
    the guard and on the heap, and returns its events in the same order with the
    session's timeline and every other part as it was, or its error; it finishes
    with its summary, every timeline of it named as the session names it and the
    rest as it was.  The checking one returns the events of the cursor inside
    unchanged, and finishes with its summary exactly when the file is unchanged
    after that, otherwise with the error of the check. *)
Theorem session_remaps (W C F : Type) (cursor : EventCursor W C) (verify : SourceIdentityCheck W F) (fuel : nat)
    (c : C) (id : TimelineId) (file : F) (w : W) :
  runs_alike (Forall2 (retimed id)) tr_inner (drain fuel c w) (drain fuel (remap_into_cursor c id) w)
  /\ ends_alike (summary_retimed id) tr_inner (cursor_finish c w) (cursor_finish (remap_into_cursor c id) w)
  /\ runs_alike eq ic_inner (drain fuel c w) (drain fuel (checked_into_cursor c file) w)
  /\ match cursor_finish c w, cursor_finish (checked_into_cursor c file) w with
     | (Ok s, c1, w1), (r, c2, w2) =>
         ic_inner c2 = c1 /\ w2 = snd (verify_unchanged file w1)
         /\ match fst (verify_unchanged file w1) with Ok _ => r = Ok s | Err e => r = Err e end
     | (Err e, c1, w1), (r, c2, w2) => ic_inner c2 = c1 /\ w2 = w1 /\ r = Err e
     end.
Proof.
  split_and!.
  - exact (proj1 (drain_alike tr_inner (fun c' => tr_timeline_id c' = id) (retimed id) (remap_next_alike id) fuel
      (remap_into_cursor c id) w eq_refl)).
  - apply (remap_finish_alike (remap_into_cursor c id)).
  - pose proof (drain_alike ic_inner (fun c' => ic_source c' = file) eq (checked_next_alike file) fuel
      (checked_into_cursor c file) w eq_refl) as [Ha _]. cbn [ic_inner checked_into_cursor] in Ha. revert Ha.
    destruct (drain fuel c w) as [[[[es|e] c1] w1]|], (drain fuel (checked_into_cursor c file) w) as [[[[es'|e'] c1'] w1']|]; cbn; try done.
    intros (-> & -> & Hes). split_and!; [done..|]. by apply list_eq_Forall2.
  - cbn. unfold checked_finish, bind, zoom, set_checked, get, ret. cbn.
    destruct (cursor_finish c w) as [[[s|e] c1] w1]; cbn; [|done].
    by destruct (verify_unchanged file w1) as [[[]|e] w2].
Qed.

(** ** A QTRB artifact through a session *)

Section qtrb.
Context {W F : Type} {G : WorkGuard W} {A : Allocator W} {verify : SourceIdentityCheck W F}.
Context (src : ReadAtSource) (content : bytes) (identity : SourceIdentity) (mode : OpenMode).
Context {LS : LawfulSource src content}.
Context (p : QtrbProvider) (w0 w1 : W) (Hopen : provider_open src identity mode tt w0 = (Ok p, tt, w1)).
Context (id : TimelineId) (file : F).

Lemma drain_collect fuel (q : QtrbEventCursor) (w : W) : drain fuel q w = collect fuel q w.
Proof.
  revert q w. induction fuel as [|fuel IH]; intros q w; [done|]. rewrite drain_step. cbn.
  destruct (next_event q w) as [[[[e|]|e] q1] w2]; [|done..]. by rewrite IH.
Qed.

(** Enough calls end the stream, and what they returned is what the provider streams. *)
Lemma collect_opened fuel : zlen content / 8 < Z.of_nat fuel ->
  exists r q w, collect fuel (into_cursor p) w1 = Some (r, q, w)
    /\ match r with
       | Ok h => streamed (W := W) src identity mode h q /\ q_drained q = true /\ q_poisoned q = false
                 /\ src_len (q_source q) = si_source_bytes (q_identity q)
       | Err _ => True
       end.
Proof.
  intros Hfuel. destruct (opened_fresh src content _ _ _ _ _ Hopen) as (Hf & Hs & _ & Hoff & Hid).
  assert (LawfulSource (q_source (into_cursor p)) content) as LS' by (by rewrite Hs).
  destruct (collect_total content (into_cursor p) w1 fuel [] (into_cursor p) w1 Hf (emits_start _ w1) eq_refl) as [[[r q] w] Hc].
  { change (zlen []) with 0. unfold RECORD_HEADER_BYTES. pose proof (Z.div_mod (zlen content) 8 ltac:(lia)).
    pose proof (Z.mod_pos_bound (zlen content) 8 ltac:(lia)). lia. }
  exists r, q, w. split; [done|]. destruct r as [h|]; [|done].
  destruct (collect_emits content _ _ _ _ _ _ _ _ _ Hoff (emits_start _ w1) eq_refl Hc) as [Hem Hd].
  split; [by exists p, w0, w1, w|]. split; [done|].
  pose proof (emits_reaches content _ _ _ _ _ Hoff Hem) as Hre%reaches_parts. unfold fixed_parts in Hre.
  assert (q_source q = q_source (into_cursor p)) as -> by congruence.
  assert (q_identity q = q_identity (into_cursor p)) as -> by congruence.
  split; [|by rewrite Hid, (lawful_len (src := q_source (into_cursor p)) (content := content))].
  transitivity (q_poisoned (into_cursor p)); [congruence|done].
Qed.

Lemma summary_drained (q : QtrbEventCursor) (w : W) :
  q_drained q = true -> q_poisoned q = false -> src_len (q_source q) = si_source_bytes (q_identity q) ->
  cursor_summary q w = (Ok (mkSummary (set_first_tid (q_tid q) (q_timelines q)) (q_termination q) (q_counters q)
                              (q_completeness q)), q, w).
Proof.
  intros Hd Hp Hl. unfold cursor_summary, validate_source_identity, bind, get, fail_if, ret. rewrite Hd, Hp. cbn.
  by rewrite Hl, Z.eqb_refl.
Qed.

End qtrb.

(** C17: a QTRB artifact read through its session.  For every provider opened on
    a source that serves [content], and any guard, heap and identity check: the
    session's cursor refuses to finish before it is read; one call for each eight
    bytes of the source and one more end the stream.  When it ends without an
    error, the events are those the provider streams, in order and with only the
    timeline replaced, every later call returns [None] and charges nothing, and
    finishing verifies the file and returns the provider's summary with the
    session's timeline, or the error of the check.  When a call fails, every later
    call returns [source.cursor_failed] and charges nothing and finishing is
    refused.  [probe] accepts the artifact exactly in the first case with the file
    unchanged, and reports a short read as a truncated artifact. *)
Theorem session_streams (W F : Type) (G : WorkGuard W) (A : Allocator W) (verify : SourceIdentityCheck W F)
    (src : ReadAtSource) (content : bytes) (identity : SourceIdentity) (mode : OpenMode) (p : QtrbProvider)
    (id : TimelineId) (file : F) (w0 w1 : W) (fuel : nat)
    (Hlaw : LawfulSource src content)
    (Hopen : provider_open src identity mode tt w0 = (Ok p, tt, w1))
    (Hfuel : zlen content / 8 < Z.of_nat fuel) :
  let c := checked_into_cursor (remap_into_cursor (into_cursor p) id) file in
  (forall w2 : W, fst (fst (cursor_finish c w2)) = Err stream_not_drained)
  /\ exists r c' w', drain fuel c w1 = Some (r, c', w')
    /\ match r with
       | Ok events => exists h q s,
           streamed (W := W) src identity mode h q /\ q_drained q = true
           /\ Forall2 (retimed id) h events
           /\ (forall w2 : W, cursor_next c' w2 = (Ok None, c', w2))
           /\ summary_retimed id (mkSummary (set_first_tid (q_tid q) (q_timelines q)) (q_termination q)
                                   (q_counters q) (q_completeness q)) s
           /\ (forall w2 : W, match verify_unchanged file w2 with
                | (Ok _, w3) => cursor_finish c' w2 = (Ok s, c', w3)
                | (Err e, w3) => cursor_finish c' w2 = (Err e, c', w3)
                end)
           /\ match verify_unchanged file w' with
              | (Ok _, w3) => probe fuel FormatQtrb c w1 = Some (Ok tt, w3)
              | (Err e, w3) => exists e', probe fuel FormatQtrb c w1 = Some (Err e', w3)
              end
       | Err e =>
           (forall w2 : W, exists e', cursor_next c' w2 = (Err e', c', w2) /\ pe_code e' = "source.cursor_failed")
           /\ (forall w2 : W, fst (fst (cursor_finish c' w2)) = Err stream_not_drained)
           /\ exists e', probe fuel FormatQtrb c w1 = Some (Err e', w')
                /\ pe_code e' = (if bool_decide (pe_code e = "source.short_read") then "source.qtrb.truncated"
                                 else pe_code e)
       end.
Proof.
  intros c. split; [intros w2; apply law_finish; by left|].
  destruct (collect_opened src content identity mode p w0 w1 Hopen fuel Hfuel) as (r & q & w & Hc & Hr).
  pose proof (drain_alike tr_inner (fun c' => tr_timeline_id c' = id) (retimed id) (remap_next_alike id) fuel
    (remap_into_cursor (into_cursor p) id) w1 eq_refl) as [Hremap Hid].
  pose proof (drain_alike ic_inner (fun c' => ic_source c' = file) eq (checked_next_alike file) fuel c w1 eq_refl) as [Hchecked Hfile].
  cbn [tr_inner ic_inner remap_into_cursor checked_into_cursor c] in Hremap, Hchecked.
  rewrite drain_collect, Hc in Hremap.
  destruct (drain fuel (remap_into_cursor (into_cursor p) id) w1) as [[[r1 c1] w2]|]; [|done].
  destruct Hremap as (Hq & -> & Hr1). pose proof (drain_outcome fuel c w1 eq_refl eq_refl) as Hout.
  destruct (drain fuel c w1) as [[[r2 c2] w3]|] eqn:Hd; [|done]. destruct Hchecked as (Hc1 & -> & Hr2).
  destruct c2 as [[q2 id2] file2]. cbn in Hc1, Hfile. subst file2 c1. cbn in Hq, Hid. subst q2 id2.
  exists r2, (mkChecked (mkRemap q id) file), w. split; [done|]. unfold probe. rewrite Hd.
  destruct r2 as [events|e], r1 as [events1|e1]; try done; destruct Hout as [Hdrained Hfailed].
  - destruct r as [h|]; [|done]. destruct Hr as (Hst & Hqd & Hqp & Hlen). apply list_eq_Forall2 in Hr2 as <-.
    assert (exists s, summary_retimed id (mkSummary (set_first_tid (q_tid q) (q_timelines q)) (q_termination q)
              (q_counters q) (q_completeness q)) s
      /\ forall w2 : W, cursor_finish (mkChecked (mkRemap q id) file) w2
           = (let '(checked, w3) := verify_unchanged file w2 in
              (match checked with Ok _ => Ok s | Err e => Err e end, mkChecked (mkRemap q id) file, w3))) as (s & Hs & Hfin).
    { eexists. split; [apply remap_summary_retimed|]. intros w2.
      cbn [cursor_finish checked_event_cursor remap_event_cursor qtrb_event_cursor].
      unfold checked_finish, zoom, bind at 1. cbn [cursor_finish ic_inner remap_event_cursor].
      unfold remap_finish, zoom, bind at 1. cbn [cursor_finish tr_inner qtrb_event_cursor]. rewrite summary_drained by done.
      cbn. unfold bind, get, ret. cbn. by destruct (verify_unchanged file w2) as [[[]|e] w4]. }
    exists h, q, s. split_and!; [done..| |done| |].
    + intros w2. by apply law_end.
    + intros w2. rewrite Hfin. by destruct (verify_unchanged file w2) as [[[]|e] w4].
    + rewrite Hfin. destruct (verify_unchanged file w) as [[[]|e] w4]; [done|by eexists].
  - split_and!; [intros w2; by apply law_failed|intros w2; apply law_finish; by right|].
    eexists. split; [done|]. unfold normalize_provider_error. cbn. by case_bool_decide.
Qed.

(** A file that never changes. *)
#[local] Instance steady_file : SourceIdentityCheck unit unit := fun _ w => (Ok tt, w).

Lemma session_streams_witness :
  exists p events h c' q,
    provider_open (W := unit) (ByteSource sample_content) sample_identity Sealed tt tt = (Ok p, tt, tt)
    /\ drain (W := unit) 200 (checked_into_cursor (remap_into_cursor (into_cursor p) 9) tt) tt = Some (Ok events, c', tt)
    /\ length events = 7%nat
    /\ streamed (W := unit) (ByteSource sample_content) sample_identity Sealed h q /\ Forall2 (retimed 9) h events
    /\ probe (W := unit) 200 FormatQtrb (checked_into_cursor (remap_into_cursor (into_cursor p) 9) tt) tt = Some (Ok tt, tt).
Proof.
  assert (match provider_open (W := unit) (ByteSource sample_content) sample_identity Sealed tt tt with
    | (Ok p, _, _) =>
        match drain (W := unit) 200 (checked_into_cursor (remap_into_cursor (into_cursor p) 9) tt) tt with
        | Some (Ok events, _, _) => length events
        | _ => 0%nat
        end
    | _ => 0%nat
    end = 7%nat) as Hrun by (vm_compute; reflexivity).
  destruct (provider_open (W := unit) (ByteSource sample_content) sample_identity Sealed tt tt) as [[[p|] []] []] eqn:Hopen; [|discriminate Hrun].
  destruct (drain 200 (checked_into_cursor (remap_into_cursor (into_cursor p) 9) tt) tt) as [[[[events|] c'] []]|] eqn:Hd;
    [|discriminate Hrun..]. rename Hrun into Hlen.
  destruct (session_streams unit unit _ _ steady_file (ByteSource sample_content) sample_content sample_identity Sealed p 9 tt tt tt
    200 sample_lawful Hopen ltac:(vm_compute; reflexivity)) as [_ (r & c1 & w' & Hd' & Hr)].
  rewrite Hd in Hd'. injection Hd' as <- <- <-.
  destruct Hr as (h & q & s & Hst & _ & Hre & _ & _ & _ & Hprobe).
  exists p, events, h, c', q. split; [reflexivity|]. split; [exact Hd|]. split; [exact Hlen|].
  split; [exact Hst|]. split; [exact Hre|]. exact Hprobe.
Defined.

(** ** The stream of a Flight artifact *)

Section flight.
Context {W : Type} `{WorkGuard W}.

Lemma drain_flight events summary w :
  exists r c' w', drain (S (length events)) (mkFlightCursor events summary false false) w = Some (r, c', w')
    /\ match r with
       | Ok out => out = events /\ c' = mkFlightCursor [] summary true false
       | Err e => resource_error e
       end.
Proof.
  revert w. induction events as [|e events IH]; intros w; [by do 3 eexists|].
  cbn [length]. rewrite drain_step. cbn [cursor_next flight_event_cursor]. unfold flight_next_event at 1.
  cbn [fc_drained fc_poisoned fc_events fc_summary].
  destruct (guard_consume WorkDelta_default w) as [[[]|a] w1].
  - destruct (IH w1) as (r & c' & w' & Hd & Hr). rewrite Hd. destruct r as [out|e1].
    + destruct Hr as [-> ->]. by do 3 eexists.
    + by do 3 eexists.
  - do 3 eexists. split; [done|]. apply from_abort_resource.
Qed.

End flight.

Lemma flight_drains {W} `{WorkGuard W} (p : FlightProvider) (w : W) :
  exists r c' w', drain (S (length (fv_events p))) (flight_into_cursor p) w = Some (r, c', w')
    /\ match r with
       | Ok events => events = fv_events p /\ flight_finish c' = Ok (fv_summary p)
       | Err e => resource_error e
       end.
Proof.
  destruct (drain_flight (fv_events p) (fv_summary p) w) as (r & c' & w' & Hd & Hr).
  exists r, c', w'. split; [exact Hd|]. destruct r; [|done]. by destruct Hr as [-> ->].
Qed.

(** C4: an opened Flight artifact streams what it holds.  Whatever the guard and a
    heap that keeps the standard library's promises, [FlightProvider::open] ends
    with an error of the list of codes of a recovery, or returns the provider
    with the recovered events, one timeline for all of them and one per thread,
    the keys of the events split by thread in their order, and the summary of
    the recovery; and reading its cursor, with any guard, takes one call more
    than there are events and returns exactly those events, after which
    [finish] returns the summary, unless the guard aborts. *)
Theorem flight_streams (source : ReadAtSource) (content : bytes) (LS : LawfulSource source content)
    (W : Type) (G : WorkGuard W) (A : Allocator W) (AL : AllocatorLaws W) (HO : HashOrder) (S : Type)
    (identity : SourceIdentity) (s : S) (w : W) :
  match flight_open source identity s w with
  | (Ok p, s', _) =>
      s' = s
      /\ (exists out superblock published records decoded,
            holds content (si_artifact identity) superblock published records decoded out
            /\ p = opened identity out)
      /\ forall w2 : W, exists r c' w3,
           drain (Datatypes.S (length (fv_events p))) (flight_into_cursor p) w2 = Some (r, c', w3)
           /\ match r with
              | Ok events => events = fv_events p /\ flight_finish c' = Ok (fv_summary p)
              | Err e => resource_error e
              end
  | (Err e, _, _) => pe_code e ∈ recovery_codes
  end.
Proof.
  unfold flight_open, bind. pose proof (wp_recover source content (si_artifact identity) s w) as Hr.
  destruct (recover source (si_artifact identity) s w) as [[[out|e] s1] w1]; [|apply Hr].
  destruct Hr as [-> (superblock & published & records & decoded & Hh)].
  destruct (ho_tids _ _ _ _ _ _ _ Hh) as (Hs & Hu & Ho). destruct (ho_source _ _ _ _ _ _ _ Hh) as [_ Hroom].
  pose proof (wp_open_recovered resource_error identity out s Hs Hu Ho Hroom w1) as Hopen.
  destruct (open_recovered identity out s w1) as [[[p|e] s2] w2]; [|by apply recovery_resource].
  destruct Hopen as [-> ->]. split; [done|]. split; [|intros w3; apply flight_drains].
  by exists out, superblock, published, records, decoded.
Qed.

Definition tiny_identity : SourceIdentity := mkSourceIdentity [] [] 0 0 0.

Lemma flight_streams_witness :
  exists p, flight_open (W := unit) (S := unit) (ByteSource tiny_artifact) tiny_identity tt tt = (Ok p, tt, tt)
    /\ map fp_tid (fv_projections p) = [77]
    /\ map (fun q => map ek_sequence (fp_event_keys q)) (fv_projections p) = [[Some 1; Some 2]]
    /\ exists r c' w3, drain (W := unit) (Datatypes.S (length (fv_events p))) (flight_into_cursor p) tt = Some (r, c', w3)
       /\ match r with
          | Ok events => events = fv_events p /\ flight_finish c' = Ok (fv_summary p)
          | Err e => resource_error e
          end.
Proof.
  pose proof (flight_streams (ByteSource tiny_artifact) tiny_artifact tiny_lawful unit _ _ _ _ unit tiny_identity tt tt) as Hf.
  assert (exists p, flight_open (W := unit) (S := unit) (ByteSource tiny_artifact) tiny_identity tt tt = (Ok p, tt, tt)
    /\ map fp_tid (fv_projections p) = [77]
    /\ map (fun q => map ek_sequence (fp_event_keys q)) (fv_projections p) = [[Some 1; Some 2]])
    as (p & Hp & H1 & H2) by (eexists; split; [vm_compute; reflexivity|split; vm_compute; reflexivity]).
  rewrite Hp in Hf. exists p. split_and!; [done..|]. apply (proj2 (proj2 Hf) tt).
Defined.

(** C19: opening adds no failure.  When nothing is refused, [FlightProvider::open]
    returns a provider whenever the recovery returns a result: no event misses
    its projection, no thread is listed twice and no counter overflows, although
    the code checks for each. *)
Theorem open_never_fails (source : ReadAtSource) (content : bytes) (LS : LawfulSource source content)
    (HO : HashOrder) (S : Type) (identity : SourceIdentity) (s s' : S) (out : RecoveredFlight)
    (Hrecovered : run (recover source (si_artifact identity)) s = (Ok out, s')) :
  run (flight_open source identity) s = (Ok (opened identity out), s).
Proof.
  pose proof (wp_recover (W := unit) source content (si_artifact identity) s tt) as Hr. unfold run in *.
  unfold flight_open, bind. destruct (recover source (si_artifact identity) s tt) as [[r s1] w1].
  cbn in Hrecovered. injection Hrecovered as -> ->. destruct Hr as [-> (superblock & published & records & decoded & Hh)].
  destruct (ho_tids _ _ _ _ _ _ _ Hh) as (Hs & Hu & Ho). destruct (ho_source _ _ _ _ _ _ _ Hh) as [_ Hroom].
  pose proof (wp_open_recovered (W := unit) (fun _ => False) identity out s Hs Hu Ho Hroom w1) as Hopen.
  destruct (open_recovered identity out s w1) as [[[p|e] s2] w2]; [|done]. by destruct Hopen as [-> ->].
Qed.

Lemma open_never_fails_witness :
  exists out, run (flight_open (ByteSource tiny_artifact) tiny_identity) tt = (Ok (opened tiny_identity out), tt)
    /\ rf_tids out = [77].
Proof.
  assert (exists out, run (recover (ByteSource tiny_artifact) []) tt = (Ok out, tt) /\ rf_tids out = [77])
    as (out & Ho & Ht) by (eexists; split; [vm_compute; reflexivity|vm_compute; reflexivity]).
  exists out. split; [|done].
  exact (open_never_fails (ByteSource tiny_artifact) tiny_artifact tiny_lawful _ unit tiny_identity tt tt out Ho).
Defined.
