(* ===== verification/Jobs.v ===== *)
(** * The job registry

    Models [qtrace-service/src/jobs.rs]: the table of open and projection jobs
    with its admission limit, retention, pruning, progress and cancellation.
    A [JobId] is the decimal rendering of a counter value; every key of the
    table is made by [from_u64], so the model keeps the number.  The shared
    [Arc<AtomicBool>] of a [JobCancellation] is an index into a store of flags,
    which outlives the table entry.  [job_step] interleaves the critical
    sections of any number of owners and clients. *)

From stdpp Require Import prelude list sorting strings gmap.
From Stdlib Require Import ZArith Lia.
From S2P Require Import Prelude Control.
Local Open Scope string_scope.
Local Open Scope list_scope.
Local Open Scope Z_scope.

(** ** Data *)

Abbreviation WorkspaceId := string.
Abbreviation JobId := Z.

Inductive JobState := Queued | Running | Completed | JCancelled | Failed.
#[global] Instance JobState_eq_dec : EqDecision JobState.
Proof. solve_decision. Defined.

Inductive OpenStage :=
| VerifySource | OpenCache | BuildIndex | PublishCache | ReopenCache | PrepareAnalysis
| PublishWorkspace.

Record AppError := mkAppError {
  ae_code : string;
  ae_stage : string;
  ae_source : option SourceCoordinate;
  ae_retryable : bool;
  ae_detail : string
}.

(** [AppError::new]; its [bounded] is [bounded_single_line]. *)
Definition AppError_new (code stage detail : string) : AppError :=
  mkAppError code stage None false (bounded_single_line detail).
Definition worker_failed : AppError :=
  AppError_new "internal.worker_failed" "worker" "background worker failed".

Record JobProgressDetail := mkProgressDetail {
  pd_stage : OpenStage;
  pd_artifact : option string;
  pd_processed_bytes : Z;
  pd_processed_events : Z;
  pd_processed_rows : Z
}.

Record JobProgress := mkProgress {
  jp_completed : Z;
  jp_total : option Z;
  jp_detail : option JobProgressDetail
}.

Record JobDto := mkJob {
  jd_id : JobId;
  jd_workspace_id : WorkspaceId;
  jd_kind : string;
  jd_state : JobState;
  jd_progress : JobProgress;
  jd_error : option AppError
}.

(** [Entry]; [en_cancel] points into the store of flags. *)
Record Entry := mkEntry { en_dto : JobDto; en_cancel : nat }.

(** [Inner], with the flags its cancellations share. *)
Record Inner := mkInner {
  in_next : Z;
  in_jobs : gmap JobId Entry;
  in_flags : list bool
}.

Definition registry_default : Inner := mkInner 0 ∅ [].

(** [JobCancellation::is_cancelled] and [cancel] *)
Definition flag_is_cancelled (flags : list bool) (f : nat) : bool := default false (flags !! f).
Definition flag_cancel (f : nat) (flags : list bool) : list bool := <[f := true]> flags.

(** ** Operations *)

(** [matches!(state, Queued | Running)] and [Completed | Cancelled | Failed] *)
Definition active_state (s : JobState) : bool :=
  match s with Queued | Running => true | _ => false end.
Definition terminal_state (s : JobState) : bool :=
  match s with Completed | JCancelled | Failed => true | _ => false end.
Definition active (e : Entry) : bool := active_state (jd_state (en_dto e)).

Definition MAX_ACTIVE : Z := 8.
Definition MAX_RETAINED : Z := 512.

(** The ids whose entry satisfies a predicate, oldest first. *)
Definition ids_where (f : Entry -> bool) (jobs : gmap JobId Entry) : list JobId :=
  merge_sort Z.le (map fst (map_to_list (filter (fun '(_, e) => f e = true) jobs))).

Definition active_count (jobs : gmap JobId Entry) : Z := zlen (ids_where active jobs).

(** [min_by_key] over the entries that are not active *)
Definition oldest (jobs : gmap JobId Entry) : option JobId :=
  head (ids_where (fun e => negb (active e)) jobs).

(** [while jobs.len() >= MAX_RETAINED]; each turn removes an entry. *)
Fixpoint evict (fuel : nat) (jobs : gmap JobId Entry) :
    result AppError unit * gmap JobId Entry :=
  if MAX_RETAINED <=? Z.of_nat (size jobs) then
    match fuel, oldest jobs with
    | S fuel, Some id => evict fuel (delete id jobs)
    | _, _ => (Err (AppError_new "control.too_many_jobs" "control" "job registry is full"), jobs)
    end
  else (Ok tt, jobs).

(** [next.fetch_add(1) + 1] *)
Definition next_id (next : Z) : JobId := wrapping_add u64_max next 1.

Definition new_entry (id : JobId) (workspace : WorkspaceId) (kind : string) (state : JobState)
    (flag : nat) : Entry :=
  mkEntry (mkJob id workspace kind state (mkProgress 0 None None) None) flag.

(** Insert a job with a fresh cancellation. *)
Definition insert_job (workspace : WorkspaceId) (kind : string) (state : JobState) (r : Inner) :
    JobId * nat * Inner :=
  let id := next_id (in_next r) in
  let flag := length (in_flags r) in
  (id, flag,
   mkInner (next_id (in_next r)) (<[id := new_entry id workspace kind state flag]> (in_jobs r))
     (in_flags r ++ [false])).

Definition with_jobs (jobs : gmap JobId Entry) (r : Inner) : Inner :=
  mkInner (in_next r) jobs (in_flags r).

Definition begin_bounded (workspace : WorkspaceId) (kind : string) (r : Inner) :
    result AppError (JobId * nat) * Inner :=
  if MAX_ACTIVE <=? active_count (in_jobs r) then
    (Err (AppError_new "control.too_many_jobs" "control"
            "at most 8 open/projection jobs may run concurrently"), r)
  else
    match evict (size (in_jobs r)) (in_jobs r) with
    | (Err e, jobs) => (Err e, with_jobs jobs r)
    | (Ok _, jobs) =>
        let '(id, flag, r) := insert_job workspace kind Running (with_jobs jobs r) in
        (Ok (id, flag), r)
    end.

(** The update [set_state] makes to an entry. *)
Definition entry_set_state (state : JobState) (error : option AppError) (e : Entry) : Entry :=
  let d := en_dto e in
  let p := jd_progress d in
  let progress :=
    if decide (state = Completed) then
      let total := default 1 (jp_total p) in mkProgress total (Some total) (jp_detail p)
    else p in
  mkEntry (mkJob (jd_id d) (jd_workspace_id d) (jd_kind d) state progress error) (en_cancel e).

Definition set_state (id : JobId) (state : JobState) (error : option AppError) (r : Inner) : Inner :=
  with_jobs (alter (entry_set_state state error) id (in_jobs r)) r.

(** [begin]: a queued entry, then [set_state] to running. *)
Definition begin_job (workspace : WorkspaceId) (kind : string) (r : Inner) : JobId * nat * Inner :=
  let '(id, flag, r) := insert_job workspace kind Queued r in
  (id, flag, set_state id Running None r).

(** The state and error a result ends in, shared by [finish] and [spawn];
    [None] is a task that panicked. *)
Definition outcome (joined : option (result AppError unit)) (cancelled : bool) :
    JobState * option AppError :=
  match joined with
  | Some (Ok _) => if cancelled then (JCancelled, None) else (Completed, None)
  | Some (Err e) =>
      if bool_decide (ae_code e = "job.cancelled") then (JCancelled, Some e) else (Failed, Some e)
  | None => (Failed, Some worker_failed)
  end.

Definition finish (id : JobId) (joined : option (result AppError unit)) (cancelled : bool)
    (r : Inner) : Inner :=
  let '(state, error) := outcome joined cancelled in set_state id state error r.

Definition record_completed (workspace : WorkspaceId) (kind : string) (r : Inner) : JobId * Inner :=
  let '(id, flag, r) := begin_job workspace kind r in
  (id, finish id (Some (Ok tt)) (flag_is_cancelled (in_flags r) flag) r).

(** Set the flag of every entry that satisfies a predicate. *)
Definition cancel_where (f : Entry -> bool) (r : Inner) : Inner :=
  mkInner (in_next r) (in_jobs r)
    (foldr (fun '(_, e) flags => if f e then flag_cancel (en_cancel e) flags else flags)
       (in_flags r) (map_to_list (in_jobs r))).

Definition of_workspace (w : WorkspaceId) (e : Entry) : bool :=
  bool_decide (jd_workspace_id (en_dto e) = w).

Definition cancel_workspace (w : WorkspaceId) : Inner -> Inner := cancel_where (of_workspace w).
Definition cancel_all : Inner -> Inner := cancel_where (fun _ => true).

Definition remove_workspace (w : WorkspaceId) (r : Inner) : Inner :=
  with_jobs (filter (fun '(_, e) => of_workspace w e = false) (in_jobs r)) r.

(** Drop the oldest of the selected entries until [keep] are left. *)
Definition prune_where (f : Entry -> bool) (keep : nat) (r : Inner) : Inner :=
  let terminal := ids_where f (in_jobs r) in
  with_jobs (foldl (fun jobs id => delete id jobs) (in_jobs r)
               (take (length terminal - keep) terminal)) r.

Definition terminal (e : Entry) : bool := terminal_state (jd_state (en_dto e)).
Definition prune_workspace (w : WorkspaceId) : nat -> Inner -> Inner :=
  prune_where (fun e => of_workspace w e && terminal e).
Definition prune_terminal : nat -> Inner -> Inner := prune_where terminal.

Definition get_job (id : JobId) (r : Inner) : option JobDto := en_dto <$> in_jobs r !! id.

Definition job_stale : AppError := AppError_new "job.stale" "job" "job not found".

Definition cancel_job (id : JobId) (r : Inner) : result AppError unit * Inner :=
  match in_jobs r !! id with
  | None => (Err job_stale, r)
  | Some e => (Ok tt, mkInner (in_next r) (in_jobs r) (flag_cancel (en_cancel e) (in_flags r)))
  end.

Definition entry_set_progress (p : JobProgress) (e : Entry) : Entry :=
  let d := en_dto e in
  mkEntry (mkJob (jd_id d) (jd_workspace_id d) (jd_kind d) (jd_state d) p (jd_error d))
    (en_cancel e).

Definition set_progress (id : JobId) (completed : Z) (total : option Z) (r : Inner) :
    result AppError unit * Inner :=
  match in_jobs r !! id with
  | None => (Err job_stale, r)
  | Some e =>
      let bounded := match total with Some t => Z.min completed t | None => completed end in
      let p := mkProgress bounded total (jp_detail (jd_progress (en_dto e))) in
      (Ok tt, with_jobs (<[id := entry_set_progress p e]> (in_jobs r)) r)
  end.

Definition set_open_progress (id : JobId) (detail : JobProgressDetail) (r : Inner) : Inner :=
  match in_jobs r !! id with
  | Some e =>
      if active e then
        let p := jd_progress (en_dto e) in
        with_jobs (<[id := entry_set_progress (mkProgress (jp_completed p) (jp_total p) (Some detail)) e]>
                     (in_jobs r)) r
      else r
  | None => r
  end.

(** ** Selections of entries *)

#[local] Instance Zle_total : Total Z.le.
Proof. intros x y. lia. Qed.

Lemma ids_where_elem f jobs id :
  id ∈ ids_where f jobs <-> exists e, jobs !! id = Some e /\ f e = true.
Proof.
  unfold ids_where. rewrite (merge_sort_Permutation Z.le), list_elem_of_In, in_map_iff. split.
  - intros ([i e] & <- & Hin%list_elem_of_In%elem_of_map_to_list). cbn.
    apply map_lookup_filter_Some in Hin as [Hl Hf]. by exists e.
  - intros (e & Hl & Hf). exists (id, e). split; [done|].
    apply list_elem_of_In, elem_of_map_to_list, map_lookup_filter_Some. done.
Qed.

Lemma ids_where_NoDup f jobs : NoDup (ids_where f jobs).
Proof. unfold ids_where. rewrite (merge_sort_Permutation Z.le). apply NoDup_fst_map_to_list. Qed.

Lemma ids_where_sorted f jobs : StronglySorted Z.le (ids_where f jobs).
Proof. unfold ids_where. apply (StronglySorted_merge_sort Z.le). Qed.

(** Two selections by the same members are the same list. *)
Lemma ids_where_ext f g jobs jobs' :
  (forall id, (exists e, jobs !! id = Some e /\ f e = true)
              <-> (exists e, jobs' !! id = Some e /\ g e = true)) ->
  ids_where f jobs = ids_where g jobs'.
Proof.
  intros H. apply (StronglySorted_unique Z.le); [apply ids_where_sorted..|].
  apply NoDup_Permutation; [apply ids_where_NoDup..|]. intros id. by rewrite !ids_where_elem.
Qed.

Lemma ids_where_insert f jobs id e :
  jobs !! id = None -> f e = true ->
  length (ids_where f (<[id := e]> jobs)) = S (length (ids_where f jobs)).
Proof.
  intros Hn Hf. change (S (length (ids_where f jobs))) with (length (id :: ids_where f jobs)).
  apply Permutation_length, NoDup_Permutation; [apply ids_where_NoDup| |].
  - constructor; [|apply ids_where_NoDup]. rewrite ids_where_elem. intros (? & ? & _). congruence.
  - intros i. rewrite elem_of_cons, !ids_where_elem. destruct (decide (i = id)) as [->|Hne].
    + rewrite lookup_insert_eq. naive_solver.
    + rewrite lookup_insert_ne by done. naive_solver.
Qed.

Lemma ids_where_split f jobs :
  (length (ids_where f jobs) + length (ids_where (fun e => negb (f e)) jobs))%nat = size jobs.
Proof.
  rewrite <- length_app. transitivity (length (map fst (map_to_list jobs))).
  - apply Permutation_length, NoDup_Permutation; [|apply NoDup_fst_map_to_list|].
    + apply NoDup_app. split_and!; [apply ids_where_NoDup| |apply ids_where_NoDup].
      intros id (e & He & Hf)%ids_where_elem (e' & He' & Hf')%ids_where_elem.
      rewrite He in He'. injection He' as <-. by rewrite Hf in Hf'.
    + intros id. rewrite elem_of_app, !ids_where_elem, list_elem_of_In, in_map_iff. split.
      * intros [(e & He & _)|(e & He & _)]; (exists (id, e); split; [done|]);
          by apply list_elem_of_In, elem_of_map_to_list.
      * intros ([i e] & <- & Hin%list_elem_of_In%elem_of_map_to_list). cbn.
        destruct (f e) eqn:Hf; [left|right]; exists e; by rewrite ?Hf.
  - by rewrite length_map, length_map_to_list.
Qed.

(** ** Eviction *)

(** What eviction and pruning do to a table: entries go, oldest of the
    selected ones first, and nothing else changes. *)
Definition trimmed (f : Entry -> bool) (jobs jobs' : gmap JobId Entry) : Prop :=
  jobs' ⊆ jobs
  /\ forall id e, jobs !! id = Some e -> jobs' !! id = None ->
       f e = true /\ forall id' e', jobs' !! id' = Some e' -> f e' = true -> id < id'.

Lemma trimmed_refl f jobs : trimmed f jobs jobs.
Proof. split; [done|]. intros. congruence. Qed.

Lemma trimmed_keeps f jobs jobs' id e :
  trimmed f jobs jobs' -> jobs !! id = Some e -> f e = false -> jobs' !! id = Some e.
Proof.
  intros [Hsub Ht] He Hf. destruct (jobs' !! id) as [e'|] eqn:He'.
  - pose proof (lookup_weaken _ _ _ _ He' Hsub). congruence.
  - destruct (Ht id e He He') as [? _]. congruence.
Qed.

Lemma trimmed_delete f jobs id rest :
  ids_where f jobs = id :: rest -> trimmed f jobs (delete id jobs) /\ is_Some (jobs !! id).
Proof.
  intros Hids. pose proof (ids_where_sorted f jobs) as Hs. pose proof (ids_where_NoDup f jobs) as Hn.
  rewrite Hids in Hs, Hn. apply StronglySorted_inv in Hs as [_ Hs]. apply NoDup_cons in Hn as [Hn _].
  assert (id ∈ ids_where f jobs) as (e & He & Hf)%ids_where_elem by (rewrite Hids; left).
  split; [|by eexists]. split; [apply delete_subseteq|]. intros i e' Hi Hd.
  destruct (decide (i = id)) as [->|Hne]; [|rewrite lookup_delete_ne in Hd by done; congruence].
  rewrite He in Hi. injection Hi as <-. split; [done|]. intros j ej Hj Hfj.
  destruct (decide (j = id)) as [->|Hij]; [by rewrite lookup_delete_eq in Hj|].
  rewrite lookup_delete_ne in Hj by done.
  assert (j ∈ ids_where f jobs) as Hin by (apply ids_where_elem; by exists ej).
  rewrite Hids in Hin. apply elem_of_cons in Hin as [->|Hin]; [done|].
  rewrite Forall_forall in Hs. specialize (Hs j Hin). assert (j <> id) by (intros ->; done). lia.
Qed.

Lemma trimmed_trans f jobs1 jobs2 jobs3 :
  trimmed f jobs1 jobs2 -> trimmed f jobs2 jobs3 -> trimmed f jobs1 jobs3.
Proof.
  intros [S1 T1] [S2 T2]. split; [by transitivity jobs2|]. intros id e He Hn.
  destruct (jobs2 !! id) as [e2|] eqn:H2.
  - pose proof (lookup_weaken _ _ _ _ H2 S1). simplify_eq. by apply (T2 id).
  - destruct (T1 id e He H2) as [Hf Ho]. split; [done|]. intros id' e' He' Hf'.
    apply (Ho id' e'); [by eapply lookup_weaken|done].
Qed.

Lemma active_count_bounds jobs : 0 <= active_count jobs <= Z.of_nat (size jobs).
Proof.
  unfold active_count, zlen. pose proof (ids_where_split active jobs). lia.
Qed.

Lemma active_count_delete jobs id e :
  jobs !! id = Some e -> active e = false -> active_count (delete id jobs) = active_count jobs.
Proof.
  intros He Ha. unfold active_count. f_equal. apply ids_where_ext. intros i.
  destruct (decide (i = id)) as [->|Hne].
  - rewrite lookup_delete_eq, He. naive_solver congruence.
  - by rewrite lookup_delete_ne.
Qed.

(** With fewer active jobs than the table holds, eviction always succeeds. *)
Lemma evict_spec fuel jobs :
  active_count jobs < MAX_RETAINED -> (size jobs <= fuel)%nat ->
  exists jobs', evict fuel jobs = (Ok tt, jobs')
    /\ Z.of_nat (size jobs') < MAX_RETAINED
    /\ (Z.of_nat (size jobs) < MAX_RETAINED -> jobs' = jobs)
    /\ active_count jobs' = active_count jobs
    /\ trimmed (fun e => negb (active e)) jobs jobs'.
Proof.
  revert jobs. induction fuel as [|fuel IH]; intros jobs Ha Hf; cbn [evict];
    (destruct (Z.leb_spec MAX_RETAINED (Z.of_nat (size jobs))) as [Hge|Hlt];
      [|exists jobs; split_and!; [done..|apply trimmed_refl]]).
  - unfold MAX_RETAINED in Hge. lia.
  - unfold oldest. pose proof (ids_where_split active jobs) as Hsplit.
    destruct (ids_where (fun e => negb (active e)) jobs) as [|id rest] eqn:Hids; cbn [head].
    { unfold active_count, zlen in Ha. cbn in Hsplit. lia. }
    destruct (trimmed_delete _ _ _ _ Hids) as [Ht [e He]].
    assert (active e = false) as Hna.
    { assert (id ∈ ids_where (fun e => negb (active e)) jobs) as Hin by (rewrite Hids; left).
      apply ids_where_elem in Hin as (e' & He' & Hn). rewrite He in He'. injection He' as <-.
      by apply negb_true_iff. }
    rewrite <- (active_count_delete _ _ _ He Hna) in Ha.
    pose proof (map_size_delete_Some id jobs (mk_is_Some _ _ He)) as Hsize.
    destruct (IH (delete id jobs) Ha) as (jobs' & Hev & Hs & _ & Hc & Ht'); [lia|].
    exists jobs'. split_and!; [done|done|lia| |by eapply trimmed_trans].
    by rewrite Hc, (active_count_delete _ _ _ He Hna).
Qed.

(** Keys never exceed the counter, and the counter has not wrapped. *)
Definition ids_fresh (r : Inner) : Prop :=
  0 <= in_next r < u64_max /\ forall id, is_Some (in_jobs r !! id) -> id <= in_next r.

Lemma next_id_fresh r : ids_fresh r -> next_id (in_next r) = in_next r + 1.
Proof. intros [Hn _]. unfold next_id, wrapping_add. apply Z.mod_small. lia. Qed.

(** Admission is exact.  [begin_bounded] refuses exactly when eight jobs are
    queued or running, and then changes nothing.  Otherwise it registers a
    running, uncancelled job under a fresh id; exactly one more job is active;
    at most 512 entries remain; and what was evicted to make room is finished
    work, oldest first (the error for a full registry cannot occur). *)
Theorem begin_bounded_exact (workspace : WorkspaceId) (kind : string) (r : Inner)
    (Hfresh : ids_fresh r) :
  match begin_bounded workspace kind r with
  | (Err e, r') => r' = r /\ MAX_ACTIVE <= active_count (in_jobs r) /\ ae_code e = "control.too_many_jobs"
  | (Ok (id, flag), r') =>
      active_count (in_jobs r) < MAX_ACTIVE
      /\ id = in_next r + 1 /\ in_next r' = id
      /\ in_jobs r' !! id = Some (new_entry id workspace kind Running flag)
      /\ flag_is_cancelled (in_flags r') flag = false
      /\ active_count (in_jobs r') = active_count (in_jobs r) + 1
      /\ Z.of_nat (size (in_jobs r')) <= MAX_RETAINED
      /\ trimmed (fun e => negb (active e)) (in_jobs r) (delete id (in_jobs r'))
      /\ (Z.of_nat (size (in_jobs r)) < MAX_RETAINED -> delete id (in_jobs r') = in_jobs r)
  end.
Proof.
  unfold begin_bounded. destruct (Z.leb_spec MAX_ACTIVE (active_count (in_jobs r))) as [Hge|Hlt]; [done|].
  destruct (evict_spec (size (in_jobs r)) (in_jobs r)) as (jobs & -> & Hs & Hid & Hc & Ht);
    [unfold MAX_ACTIVE, MAX_RETAINED in *; lia|done|].
  unfold insert_job. cbn [in_next in_jobs in_flags with_jobs]. rewrite (next_id_fresh _ Hfresh).
  assert (in_jobs r !! (in_next r + 1) = None) as Hnone.
  { apply eq_None_not_Some. intros Hsome. apply Hfresh in Hsome. lia. }
  assert (jobs !! (in_next r + 1) = None) as Hnone'.
  { destruct (jobs !! (in_next r + 1)) eqn:He; [|done].
    pose proof (lookup_weaken _ _ _ _ He (proj1 Ht)). congruence. }
  rewrite delete_insert_id by done. split_and!; try done.
  - by rewrite lookup_insert_eq.
  - unfold flag_is_cancelled. by rewrite lookup_app_r, Nat.sub_diag by done.
  - rewrite <- Hc. unfold active_count, zlen. rewrite ids_where_insert by done. lia.
  - rewrite map_size_insert_None by done. lia.
Qed.

(** [n] admissions from [r]; refusals are skipped. *)
Fixpoint admit_n (n : nat) (r : Inner) : Inner :=
  match n with O => r | S n => admit_n n (snd (begin_bounded "w" "open" r)) end.

Lemma begin_bounded_exact_witness :
  ids_fresh registry_default
  /\ (exists id flag r', begin_bounded "w" "open" registry_default = (Ok (id, flag), r')
       /\ active_count (in_jobs r') = active_count (in_jobs registry_default) + 1)
  /\ fst (begin_bounded "w" "open" (admit_n 7 registry_default)) = Ok (8, 7%nat)
  /\ in_next (admit_n 9 registry_default) = 8.
Proof.
  assert (ids_fresh registry_default) as Hr.
  { split; [vm_compute; split; congruence|]. intros id [e He]. cbn in He. by rewrite lookup_empty in He. }
  split; [exact Hr|]. split; [|split; vm_compute; reflexivity].
  pose proof (begin_bounded_exact "w" "open" registry_default Hr) as H.
  destruct (begin_bounded "w" "open" registry_default) as [[[id flag]|e] r'] eqn:Hrun.
  - exists id, flag, r'. split; [reflexivity|]. apply H.
  - exfalso. vm_compute in Hrun. discriminate Hrun.
Defined.

(** ** Pruning *)

Lemma foldl_delete_lookup (ids : list JobId) (jobs : gmap JobId Entry) id :
  foldl (fun jobs id => delete id jobs) jobs ids !! id
  = if decide (id ∈ ids) then None else jobs !! id.
Proof.
  revert jobs. induction ids as [|i ids IH]; intros jobs; cbn [foldl].
  - by rewrite decide_False by set_solver.
  - rewrite IH. destruct (decide (id ∈ ids)) as [H|H].
    + by rewrite decide_True by set_solver.
    + destruct (decide (id = i)) as [->|Hne].
      * by rewrite lookup_delete_eq, decide_True by set_solver.
      * by rewrite lookup_delete_ne, decide_False by set_solver.
Qed.

(** A sorted list without repetition, cut in two. *)
Lemma sorted_cut (ids : list Z) k x y :
  StronglySorted Z.le ids -> NoDup ids -> x ∈ take k ids -> y ∈ drop k ids -> x < y.
Proof.
  intros Hs Hn Hx Hy. rewrite <- (take_drop k ids) in Hs, Hn.
  pose proof (StronglySorted_app_1_elem_of _ _ _ x y Hs Hx Hy).
  apply NoDup_app in Hn as (_ & Hd & _). assert (x <> y) by (intros ->; by apply (Hd y)). lia.
Qed.

Lemma prune_trimmed f keep r : trimmed f (in_jobs r) (in_jobs (prune_where f keep r)).
Proof.
  unfold prune_where. cbn [in_jobs with_jobs]. set (ids := ids_where f (in_jobs r)).
  set (k := (length ids - keep)%nat). split.
  - apply map_subseteq_spec. intros id e. rewrite foldl_delete_lookup. by destruct (decide _).
  - intros id e He. rewrite foldl_delete_lookup. destruct (decide _) as [Hin|]; [|congruence]. intros _.
    split.
    + assert (id ∈ ids) as (e' & He' & Hf)%ids_where_elem by (by eapply elem_of_take in Hin as (? & ?%list_elem_of_lookup_2 & _)).
      congruence.
    + intros id' e'. rewrite foldl_delete_lookup. destruct (decide _) as [|Hnot]; [done|]. intros He' Hf'.
      assert (id' ∈ ids) as Hin' by (apply ids_where_elem; by exists e').
      rewrite <- (take_drop k ids) in Hin'. apply elem_of_app in Hin' as [?|Hd]; [done|].
      eapply sorted_cut; [apply ids_where_sorted|apply ids_where_NoDup|exact Hin|exact Hd].
Qed.

Lemma prune_count f keep r :
  length (ids_where f (in_jobs (prune_where f keep r)))
  = Nat.min keep (length (ids_where f (in_jobs r))).
Proof.
  unfold prune_where. cbn [in_jobs with_jobs]. set (ids := ids_where f (in_jobs r)).
  set (k := (length ids - keep)%nat).
  transitivity (length (drop k ids)); [|rewrite length_drop; lia].
  pose proof (ids_where_NoDup f (in_jobs r)) as Hn. fold ids in Hn.
  rewrite <- (take_drop k ids) in Hn. apply NoDup_app in Hn as (_ & Hd & Hn).
  apply Permutation_length, NoDup_Permutation; [apply ids_where_NoDup|exact Hn|].
  intros id. rewrite ids_where_elem. split.
  - intros (e & He & Hf). rewrite foldl_delete_lookup in He. destruct (decide _) as [|Hnot]; [done|].
    assert (id ∈ ids) as Hin by (apply ids_where_elem; by exists e).
    rewrite <- (take_drop k ids) in Hin. by apply elem_of_app in Hin as [?|?].
  - intros Hin. assert (id ∈ ids) as (e & He & Hf)%ids_where_elem
      by (rewrite <- (take_drop k ids); set_solver).
    exists e. rewrite foldl_delete_lookup, decide_False by (intros ?; by apply (Hd id)). done.
Qed.

(** Pruning a workspace keeps its newest finished jobs: at most [keep] of them
    remain, those removed are finished jobs of that workspace and older than
    every finished job of it that stays, and no active job, no job of another
    workspace, no flag and no id is touched. *)
Theorem prune_workspace_exact (w : WorkspaceId) (keep : nat) (r : Inner) :
  let mine := fun e => of_workspace w e && terminal e in
  let r' := prune_workspace w keep r in
  in_next r' = in_next r /\ in_flags r' = in_flags r
  /\ trimmed mine (in_jobs r) (in_jobs r')
  /\ (forall id e, in_jobs r !! id = Some e -> active e = true \/ of_workspace w e = false ->
        in_jobs r' !! id = Some e)
  /\ length (ids_where mine (in_jobs r')) = Nat.min keep (length (ids_where mine (in_jobs r))).
Proof.
  cbv zeta. split_and!; [done..|apply prune_trimmed| |apply prune_count].
  intros id e He Hk. eapply trimmed_keeps; [apply prune_trimmed|done|].
  unfold terminal, active in *. destruct Hk as [Ha| ->]; [|done].
  destruct (jd_state (en_dto e)); cbn in *; try discriminate; apply andb_false_r.
Qed.

(** ** Owners and clients, interleaved *)

(** An owner holds the id and the flag its admission returned. *)
Abbreviation Owner := (JobId * nat)%type.

(** One critical section.  Admission and insertion make an owner, [finish]
    consumes one; only an owner runs or reports on its job; anyone may cancel,
    remove and prune.  [unbounded] admits the entry points without a limit
    ([begin] and [spawn]).  An owner may have read its flag before it took the
    lock. *)
Inductive job_step (unbounded : bool) : Inner * list Owner -> Inner * list Owner -> Prop :=
| step_admit r owners workspace kind id flag r' :
    begin_bounded workspace kind r = (Ok (id, flag), r') ->
    job_step unbounded (r, owners) (r', (id, flag) :: owners)
| step_insert r owners workspace kind id flag r' :
    unbounded = true -> insert_job workspace kind Queued r = (id, flag, r') ->
    job_step unbounded (r, owners) (r', (id, flag) :: owners)
| step_run r owners id flag :
    (id, flag) ∈ owners ->
    job_step unbounded (r, owners) (set_state id Running None r, owners)
| step_finish r before id flag after joined cancelled :
    (cancelled = true -> flag_is_cancelled (in_flags r) flag = true) ->
    job_step unbounded (r, before ++ (id, flag) :: after)
      (finish id joined cancelled r, before ++ after)
| step_progress r owners id flag completed total r' :
    (id, flag) ∈ owners -> set_progress id completed total r = (Ok tt, r') ->
    job_step unbounded (r, owners) (r', owners)
| step_open_progress r owners id detail :
    job_step unbounded (r, owners) (set_open_progress id detail r, owners)
| step_cancel r owners id r' :
    cancel_job id r = (Ok tt, r') -> job_step unbounded (r, owners) (r', owners)
| step_cancel_workspace r owners w :
    job_step unbounded (r, owners) (cancel_workspace w r, owners)
| step_cancel_all r owners : job_step unbounded (r, owners) (cancel_all r, owners)
| step_remove r owners w : job_step unbounded (r, owners) (remove_workspace w r, owners)
| step_prune_workspace r owners w keep :
    job_step unbounded (r, owners) (prune_workspace w keep r, owners)
| step_prune_terminal r owners keep :
    job_step unbounded (r, owners) (prune_terminal keep r, owners).

(** A run of [n] critical sections from the empty registry. *)
Inductive job_run (unbounded : bool) : nat -> Inner * list Owner -> Prop :=
| run_start : job_run unbounded 0 (registry_default, [])
| run_more n st st' :
    job_run unbounded n st -> job_step unbounded st st' -> job_run unbounded (S n) st'.

(** What an entry promises its readers. *)
Definition entry_ok (flags : list bool) (id : JobId) (e : Entry) : Prop :=
  let d := en_dto e in
  let p := jd_progress d in
  jd_id d = id /\ (en_cancel e < length flags)%nat
  /\ (forall t, jp_total p = Some t -> jp_completed p <= t)
  /\ match jd_state d with
     | Queued | Running => jd_error d = None
     | Completed => jd_error d = None /\ jp_total p = Some (jp_completed p)
     | JCancelled =>
         flag_is_cancelled flags (en_cancel e) = true
         \/ exists err, jd_error d = Some err /\ ae_code err = "job.cancelled"
     | Failed => is_Some (jd_error d)
     end.

Record registry_ok (r : Inner) (owners : list Owner) : Prop := mkRegistryOk {
  ok_entries id e : in_jobs r !! id = Some e -> entry_ok (in_flags r) id e;
  ok_keys id : is_Some (in_jobs r !! id) -> 1 <= id <= in_next r;
  ok_owners id flag : (id, flag) ∈ owners -> 1 <= id <= in_next r /\ (flag < length (in_flags r))%nat;
  ok_distinct : NoDup (map fst owners);
  ok_owned id e : in_jobs r !! id = Some e -> active e = true -> (id, en_cancel e) ∈ owners;
  ok_active id flag e : (id, flag) ∈ owners -> in_jobs r !! id = Some e ->
    active e = true /\ en_cancel e = flag
}.

Lemma flags_grow flags flags' :
  (forall i, flag_is_cancelled flags i = true -> flag_is_cancelled flags' i = true) ->
  (length flags <= length flags')%nat -> forall id e, entry_ok flags id e -> entry_ok flags' id e.
Proof.
  intros Hf Hlen id e (H1 & H2 & H3 & H4). split_and!; [done|lia|done|].
  destruct (jd_state (en_dto e)); try done. destruct H4; [left; by apply Hf|by right].
Qed.

(** Removing entries keeps the invariant. *)
Lemma registry_ok_trim r owners jobs :
  registry_ok r owners -> jobs ⊆ in_jobs r -> registry_ok (with_jobs jobs r) owners.
Proof.
  intros [E K O D W A] Hsub. split; cbn [in_jobs in_flags in_next with_jobs]; try done.
  - intros id e He. by apply E, (lookup_weaken _ _ _ _ He).
  - intros id [e He]. apply K. exists e. by eapply lookup_weaken.
  - intros id e He. apply W. by eapply lookup_weaken.
  - intros id flag e Ho He. apply (A id flag e Ho). by eapply lookup_weaken.
Qed.

(** Raising flags keeps the invariant. *)
Lemma registry_ok_flags r owners flags :
  registry_ok r owners -> length flags = length (in_flags r) ->
  (forall i, flag_is_cancelled (in_flags r) i = true -> flag_is_cancelled flags i = true) ->
  registry_ok (mkInner (in_next r) (in_jobs r) flags) owners.
Proof.
  intros [E K O D W A] Hlen Hf. split; cbn [in_jobs in_flags in_next]; try done.
  - intros id e He. eapply flags_grow; [exact Hf|lia|by apply E].
  - intros id flag Ho. rewrite Hlen. by apply O.
Qed.

Lemma flag_cancel_grows f flags :
  length (flag_cancel f flags) = length flags
  /\ forall i, flag_is_cancelled flags i = true -> flag_is_cancelled (flag_cancel f flags) i = true.
Proof.
  unfold flag_cancel, flag_is_cancelled. split; [apply length_insert|]. intros i Hi.
  destruct (decide (i = f)) as [->|Hne]; [|by rewrite list_lookup_insert_ne].
  destruct (decide (f < length flags)%nat); [by rewrite list_lookup_insert_eq|].
  by rewrite list_insert_ge by lia.
Qed.

Lemma cancel_where_flags f r :
  length (in_flags (cancel_where f r)) = length (in_flags r)
  /\ forall i, flag_is_cancelled (in_flags r) i = true ->
              flag_is_cancelled (in_flags (cancel_where f r)) i = true.
Proof.
  cbn [cancel_where in_flags]. induction (map_to_list (in_jobs r)) as [|[id e] l [IHl IHf]]; [done|].
  cbn [foldr]. destruct (f e); [|done]. set (flags := foldr _ _ l) in *.
  destruct (flag_cancel_grows (en_cancel e) flags) as [Hl Hf].
  split; [by rewrite Hl|]. intros i Hi. by apply Hf, IHf.
Qed.

(** Replacing an entry by one of the same owner. *)
Lemma registry_ok_replace r owners id e e' :
  registry_ok r owners -> in_jobs r !! id = Some e -> en_cancel e' = en_cancel e ->
  active e' = active e -> entry_ok (in_flags r) id e' ->
  registry_ok (with_jobs (<[id := e']> (in_jobs r)) r) owners.
Proof.
  intros [E K O D W A] He Hc Ha Hok. split; cbn [in_jobs in_flags in_next with_jobs]; try done.
  - intros i x. destruct (decide (i = id)) as [->|Hne]; [rewrite lookup_insert_eq; by intros [= <-]|].
    rewrite lookup_insert_ne by done. apply E.
  - intros i Hi. apply K. destruct (decide (i = id)) as [->|Hne]; [by exists e|].
    by rewrite lookup_insert_ne in Hi by done.
  - intros i x. destruct (decide (i = id)) as [->|Hne].
    + rewrite lookup_insert_eq. intros [= <-]. rewrite Hc, Ha. by apply W.
    + rewrite lookup_insert_ne by done. apply W.
  - intros i flag x Ho. destruct (decide (i = id)) as [->|Hne].
    + rewrite lookup_insert_eq. intros [= <-]. rewrite Hc, Ha. by apply (A id flag e).
    + rewrite lookup_insert_ne by done. by apply A.
Qed.

Lemma alter_insert (g : Entry -> Entry) id (jobs : gmap JobId Entry) :
  alter g id jobs = match jobs !! id with Some e => <[id := g e]> jobs | None => jobs end.
Proof.
  apply map_eq. intros i. destruct (decide (i = id)) as [->|Hne].
  - rewrite lookup_alter_eq. destruct (jobs !! id) eqn:He; cbn; [by rewrite lookup_insert_eq|done].
  - rewrite lookup_alter_ne by done. destruct (jobs !! id); [by rewrite lookup_insert_ne|done].
Qed.

(** The owner's [finish]. *)
Lemma outcome_terminal joined cancelled : terminal_state (fst (outcome joined cancelled)) = true.
Proof. unfold outcome. destruct joined as [[|]|], cancelled; try done; by case_bool_decide. Qed.

Lemma finish_entry_ok flags id e joined cancelled :
  entry_ok flags id e ->
  (cancelled = true -> flag_is_cancelled flags (en_cancel e) = true) ->
  entry_ok flags id (entry_set_state (fst (outcome joined cancelled)) (snd (outcome joined cancelled)) e).
Proof.
  intros (H1 & H2 & H3 & _) Hc. unfold entry_ok, entry_set_state. cbn [en_dto en_cancel jd_id jd_state jd_progress jd_error].
  split_and!; [done|done| |].
  - destruct (decide _); [|done]. cbn. intros t [= <-]. done.
  - unfold outcome. destruct joined as [[[]|err]|]; [destruct cancelled| |]; cbn.
    + left. by apply Hc.
    + done.
    + case_bool_decide; cbn; [right; by exists err|done].
    + done.
Qed.

Lemma registry_ok_finish r before id flag after joined cancelled :
  registry_ok r (before ++ (id, flag) :: after) ->
  (cancelled = true -> flag_is_cancelled (in_flags r) flag = true) ->
  registry_ok (finish id joined cancelled r) (before ++ after).
Proof.
  intros [E K O D W A] Hc.
  assert (forall i f, (i, f) ∈ before ++ after -> (i, f) ∈ before ++ (id, flag) :: after /\ i <> id) as Hown.
  { intros i f Hin. split; [set_solver|]. intros ->. rewrite map_app in D. cbn in D.
    apply NoDup_app in D as (_ & D1 & D2). apply NoDup_cons in D2 as [D2 _].
    apply elem_of_app in Hin as [Hin|Hin].
    - apply (D1 id); [|by left]. apply list_elem_of_In, in_map_iff. exists (id, f).
      by rewrite <- list_elem_of_In.
    - apply D2, list_elem_of_In, in_map_iff. exists (id, f). by rewrite <- list_elem_of_In. }
  unfold finish. pose proof (outcome_terminal joined cancelled) as Hterm.
  destruct (outcome joined cancelled) as [state error] eqn:Hout. cbn in Hterm.
  unfold set_state. rewrite alter_insert. split; cbn [in_jobs in_flags in_next with_jobs].
  - intros i x. destruct (in_jobs r !! id) as [e|] eqn:He; [|apply E].
    destruct (decide (i = id)) as [->|Hne]; [rewrite lookup_insert_eq|rewrite lookup_insert_ne by done; apply E].
    intros [= <-]. destruct (A id flag e) as [_ Hf]; [set_solver|done|].
    pose proof (finish_entry_ok (in_flags r) id e joined cancelled (E id e He)) as Hok.
    rewrite Hout in Hok. apply Hok. by rewrite Hf.
  - intros i. destruct (in_jobs r !! id) as [e|] eqn:He; [|apply K].
    destruct (decide (i = id)) as [->|Hne]; [intros _; apply K; by exists e|].
    rewrite lookup_insert_ne by done. apply K.
  - intros i f Hin. by apply O, Hown.
  - rewrite map_app in *. cbn in D. apply NoDup_app in D as (D0 & D1 & D2).
    apply NoDup_cons in D2 as [_ D2]. apply NoDup_app. split_and!; [done| |done]. set_solver.
  - intros i x. destruct (in_jobs r !! id) as [e|] eqn:He.
    + destruct (decide (i = id)) as [->|Hne].
      * rewrite lookup_insert_eq. intros [= <-]. unfold active. cbn. by destruct state.
      * rewrite lookup_insert_ne by done. intros Hx Hax. pose proof (W i x Hx Hax). set_solver.
    + intros Hx Hax. pose proof (W i x Hx Hax).
      assert (i <> id) by (intros ->; congruence). set_solver.
  - intros i f x Hin. destruct (Hown i f Hin) as [Hin' Hne].
    destruct (in_jobs r !! id) as [e|]; [rewrite lookup_insert_ne by done|]; by apply A.
Qed.

(** A new job under a fresh id. *)
Lemma registry_ok_insert r owners workspace kind state :
  registry_ok r owners -> 0 <= in_next r < u64_max -> active_state state = true ->
  let '(id, flag, r') := insert_job workspace kind state r in registry_ok r' ((id, flag) :: owners).
Proof.
  intros [E K O D W A] Hn Hs. unfold insert_job.
  assert (next_id (in_next r) = in_next r + 1) as ->.
  { unfold next_id, wrapping_add. apply Z.mod_small. lia. }
  assert (in_jobs r !! (in_next r + 1) = None) as Hnone.
  { apply eq_None_not_Some. intros Hsome. apply K in Hsome. lia. }
  assert (forall f, (in_next r + 1, f) ∉ owners) as Hno.
  { intros f Hin. apply O in Hin. lia. }
  split; cbn [in_jobs in_flags in_next].
  - intros id e. destruct (decide (id = in_next r + 1)) as [->|Hne].
    + rewrite lookup_insert_eq. intros [= <-]. split_and!; [done|cbn; rewrite length_app; cbn; lia|done|].
      cbn. by destruct state.
    + rewrite lookup_insert_ne by done. intros He. eapply flags_grow; [| |by apply E].
      * unfold flag_is_cancelled. intros i Hi. destruct (in_flags r !! i) as [b|] eqn:Hb; [|done].
        by rewrite (lookup_app_l_Some _ _ _ _ Hb).
      * rewrite length_app. lia.
  - intros id Hid. destruct (decide (id = in_next r + 1)) as [->|Hne]; [lia|].
    rewrite lookup_insert_ne in Hid by done. apply K in Hid. lia.
  - intros id f. rewrite length_app. cbn. intros [[= -> ->]|Hin]%elem_of_cons; [lia|].
    apply O in Hin. lia.
  - cbn. constructor; [|done]. intros Hin. apply list_elem_of_In, in_map_iff in Hin as ([i f] & Hi & Hin).
    cbn in Hi. subst i. apply list_elem_of_In in Hin. by apply (Hno f).
  - intros id e. destruct (decide (id = in_next r + 1)) as [->|Hne].
    + rewrite lookup_insert_eq. intros [= <-] _. left.
    + rewrite lookup_insert_ne by done. intros He Ha. right. by apply W.
  - intros id f e [[= -> ->]|Hin]%elem_of_cons.
    + rewrite lookup_insert_eq. intros [= <-]. done.
    + destruct (decide (id = in_next r + 1)) as [->|Hne]; [by apply Hno in Hin|].
      rewrite lookup_insert_ne by done. by apply A.
Qed.

Lemma begin_bounded_ok workspace kind r id flag r' :
  begin_bounded workspace kind r = (Ok (id, flag), r') ->
  active_count (in_jobs r) < MAX_ACTIVE
  /\ exists jobs, Z.of_nat (size jobs) < MAX_RETAINED
       /\ active_count jobs = active_count (in_jobs r)
       /\ trimmed (fun e => negb (active e)) (in_jobs r) jobs
       /\ insert_job workspace kind Running (with_jobs jobs r) = (id, flag, r').
Proof.
  unfold begin_bounded. destruct (Z.leb_spec MAX_ACTIVE (active_count (in_jobs r))) as [Hge|Hlt]; [done|].
  destruct (evict_spec (size (in_jobs r)) (in_jobs r)) as (jobs & -> & Hs & _ & Hc & Ht);
    [unfold MAX_ACTIVE, MAX_RETAINED in *; lia|done|].
  destruct (insert_job _ _ _ _) as [[i f] r1] eqn:Hi. intros [= -> -> ->].
  split; [done|]. exists jobs. by rewrite Hi.
Qed.

Lemma entry_ok_progress flags id e p :
  entry_ok flags id e -> active e = true -> (forall t, jp_total p = Some t -> jp_completed p <= t) ->
  entry_ok flags id (entry_set_progress p e).
Proof.
  intros (H1 & H2 & H3 & H4) Ha Hp. split_and!; [done..|]. unfold active in Ha. cbn.
  by destruct (jd_state (en_dto e)).
Qed.

(** Every critical section keeps the invariant; the counter moves by one at
    most. *)
Lemma registry_ok_step unbounded r owners r' owners' :
  job_step unbounded (r, owners) (r', owners') -> registry_ok r owners -> 0 <= in_next r < u64_max ->
  registry_ok r' owners' /\ in_next r <= in_next r' <= in_next r + 1.
Proof.
  intros Hstep Hok Hn. inversion Hstep as
    [r0 o0 workspace kind id flag r1 Hb|r0 o0 workspace kind id flag r1 Hu Hi|r0 o0 id flag Hin
    |r0 before id flag after joined cancelled Hc|r0 o0 id flag completed total r1 Hin Hp
    |r0 o0 id detail|r0 o0 id r1 Hc|r0 o0 w|r0 o0|r0 o0 w|r0 o0 w keep|r0 o0 keep]; subst; clear Hstep.
  - destruct (begin_bounded_ok _ _ _ _ _ _ Hb) as (_ & jobs & _ & _ & Ht & Hi).
    pose proof (registry_ok_insert (with_jobs jobs r) owners workspace kind Running
      (registry_ok_trim _ _ _ Hok (proj1 Ht)) Hn eq_refl) as Hins.
    rewrite Hi in Hins. split; [done|]. unfold insert_job in Hi. injection Hi as _ _ <-. cbn.
    unfold next_id, wrapping_add. rewrite Z.mod_small by lia. lia.
  - pose proof (registry_ok_insert r owners workspace kind Queued Hok Hn eq_refl) as Hins.
    rewrite Hi in Hins. split; [done|]. unfold insert_job in Hi. injection Hi as _ _ <-. cbn.
    unfold next_id, wrapping_add. rewrite Z.mod_small by lia. lia.
  - split; [|cbn; lia]. unfold set_state. rewrite alter_insert.
    destruct (in_jobs r !! id) as [e|] eqn:He; [|by destruct r].
    destruct (ok_active _ _ Hok _ _ _ Hin He) as [Ha _].
    pose proof (ok_entries _ _ Hok _ _ He) as (E1 & E2 & E3 & E4).
    apply (registry_ok_replace _ _ _ e); [done..|by rewrite Ha|]. by split_and!.
  - split; [by apply (registry_ok_finish _ _ _ flag)|]. unfold finish.
    destruct (outcome joined cancelled). cbn. lia.
  - revert Hp. unfold set_progress. destruct (in_jobs r !! id) as [e|] eqn:He; [|done]. intros [= <-].
    split; [|cbn; lia]. destruct (ok_active _ _ Hok _ _ _ Hin He) as [Ha _].
    apply (registry_ok_replace _ _ _ e); [done..|].
    apply entry_ok_progress; [by apply (ok_entries _ _ Hok)|done|]. cbn.
    destruct total; intros t [= <-]. lia.
  - split; [|unfold set_open_progress; repeat case_match; cbn; lia]. unfold set_open_progress.
    destruct (in_jobs r !! id) as [e|] eqn:He; [|done]. destruct (active e) eqn:Ha; [|done].
    pose proof (ok_entries _ _ Hok _ _ He) as Hent.
    apply (registry_ok_replace _ _ _ e); [done..|].
    apply entry_ok_progress; [done|done|]. apply Hent.
  - revert Hc. unfold cancel_job. destruct (in_jobs r !! id) as [e|]; [|done]. intros [= <-].
    split; [|cbn; lia]. destruct (flag_cancel_grows (en_cancel e) (in_flags r)).
    by apply registry_ok_flags.
  - split; [|cbn; lia]. destruct (cancel_where_flags (of_workspace w) r). by apply registry_ok_flags.
  - split; [|cbn; lia]. destruct (cancel_where_flags (fun _ => true) r). by apply registry_ok_flags.
  - split; [|cbn; lia]. apply registry_ok_trim; [done|]. apply map_filter_subseteq.
  - split; [|cbn; lia]. apply (registry_ok_trim _ _ _ Hok). apply prune_trimmed.
  - split; [|cbn; lia]. apply (registry_ok_trim _ _ _ Hok). apply prune_trimmed.
Qed.

Lemma active_count_mono jobs jobs' :
  (forall id e', jobs' !! id = Some e' -> active e' = true ->
     exists e, jobs !! id = Some e /\ active e = true) ->
  active_count jobs' <= active_count jobs.
Proof.
  intros H. unfold active_count, zlen. apply Nat2Z.inj_le, submseteq_length, NoDup_submseteq;
    [apply ids_where_NoDup|].
  intros id (e' & He' & Ha)%ids_where_elem. apply ids_where_elem. by eapply H.
Qed.

(** The limits of bounded admission. *)
Definition within_limits (jobs : gmap JobId Entry) : Prop :=
  active_count jobs <= MAX_ACTIVE /\ Z.of_nat (size jobs) <= MAX_RETAINED.

Lemma within_limits_sub jobs jobs' : within_limits jobs -> jobs' ⊆ jobs -> within_limits jobs'.
Proof.
  intros [Ha Hs] Hsub. split.
  - etransitivity; [|exact Ha]. apply active_count_mono. intros id e He Hact. exists e.
    split; [by eapply lookup_weaken|done].
  - pose proof (map_subseteq_size _ _ Hsub). lia.
Qed.

Lemma within_limits_replace jobs id e e' :
  within_limits jobs -> jobs !! id = Some e -> active e = true -> within_limits (<[id := e']> jobs).
Proof.
  intros [Ha Hs] He Hact. split.
  - etransitivity; [|exact Ha]. apply active_count_mono. intros i x.
    destruct (decide (i = id)) as [->|Hne]; [by exists e|]. rewrite lookup_insert_ne by done. by exists x.
  - by rewrite map_size_insert_Some by (by eexists).
Qed.

Lemma within_limits_step r owners r' owners' :
  job_step false (r, owners) (r', owners') -> registry_ok r owners -> 0 <= in_next r < u64_max ->
  within_limits (in_jobs r) -> within_limits (in_jobs r').
Proof.
  intros Hstep Hok Hn Hl. inversion Hstep as
    [r0 o0 workspace kind id flag r1 Hb|r0 o0 workspace kind id flag r1 Hu Hi|r0 o0 id flag Hin
    |r0 before id flag after joined cancelled Hc|r0 o0 id flag completed total r1 Hin Hp
    |r0 o0 id detail|r0 o0 id r1 Hc|r0 o0 w|r0 o0|r0 o0 w|r0 o0 w keep|r0 o0 keep]; subst; clear Hstep.
  - assert (ids_fresh r) as Hf by (split; [done|]; intros i Hi; apply (ok_keys _ _ Hok) in Hi; lia).
    destruct (begin_bounded_ok _ _ _ _ _ _ Hb) as (Hlt & jobs & Hs & Hc & Ht & Hi).
    unfold insert_job in Hi. cbn in Hi. rewrite (next_id_fresh _ Hf) in Hi. injection Hi as _ _ <-.
    assert (jobs !! (in_next r + 1) = None) as Hnone.
    { destruct (jobs !! (in_next r + 1)) eqn:He; [|done].
      pose proof (proj2 Hf _ (mk_is_Some _ _ (lookup_weaken _ _ _ _ He (proj1 Ht)))). lia. }
    cbn [in_jobs]. split; [|rewrite map_size_insert_None by done; lia].
    unfold active_count, zlen in *. rewrite ids_where_insert by done. lia.
  - done.
  - unfold set_state. cbn [in_jobs with_jobs]. rewrite alter_insert.
    destruct (in_jobs r !! id) as [e|] eqn:He; [|done].
    eapply within_limits_replace; [done..|]. by eapply (ok_active _ _ Hok).
  - unfold finish. destruct (outcome joined cancelled). unfold set_state. cbn [in_jobs with_jobs].
    rewrite alter_insert. destruct (in_jobs r !! id) as [e|] eqn:He; [|done].
    eapply within_limits_replace; [done..|].
    eapply (ok_active _ _ Hok id flag); [set_solver|done].
  - revert Hp. unfold set_progress. destruct (in_jobs r !! id) as [e|] eqn:He; [|done]. intros [= <-].
    eapply within_limits_replace; [done..|]. by eapply (ok_active _ _ Hok).
  - unfold set_open_progress. destruct (in_jobs r !! id) as [e|] eqn:He; [|done].
    destruct (active e) eqn:Ha; [|done]. by eapply within_limits_replace.
  - revert Hc. unfold cancel_job. by destruct (in_jobs r !! id); intros [= <-].
  - done.
  - done.
  - eapply within_limits_sub; [done|apply map_filter_subseteq].
  - eapply within_limits_sub; [done|apply prune_trimmed].
  - eapply within_limits_sub; [done|apply prune_trimmed].
Qed.

Lemma job_run_ok unbounded n r owners :
  job_run unbounded n (r, owners) -> Z.of_nat n <= u64_max ->
  registry_ok r owners /\ 0 <= in_next r <= Z.of_nat n
  /\ (unbounded = false -> within_limits (in_jobs r)).
Proof.
  intros Hrun. remember (r, owners) as st eqn:Hst. revert r owners Hst.
  induction Hrun as [|n [r0 o0] st' _ IH Hstep]; intros r owners Hst Hn; subst.
  - injection Hst as <- <-. split_and!; [|cbn; lia|cbn; lia|].
    + split; cbn; try (intros; by rewrite lookup_empty in *); try set_solver; try constructor.
    + intros _. split; vm_compute; discriminate.
  - destruct (IH r0 o0 eq_refl ltac:(lia)) as (Hok & Hb & Hl).
    destruct (registry_ok_step _ _ _ _ _ Hstep Hok ltac:(lia)) as [Hok' Hnext].
    split_and!; [done|lia|lia|]. intros ->. eapply within_limits_step; [done|done|lia|by apply Hl].
Qed.

(** C39: The registry is sound however owners and clients interleave.  At any point
    of any run, every entry sits under its own id, reports progress within its
    total, is complete exactly at its total, carries an error exactly when it
    failed, and is cancelled only if its flag was raised or its task said so;
    the jobs that are queued or running are exactly those some owner is still
    working on, under that owner's flag; and when every job came through
    [begin_bounded], at most eight are active and at most 512 are kept. *)
Theorem registry_invariant (unbounded : bool) (n : nat) (r : Inner) (owners : list Owner)
    (Hrun : job_run unbounded n (r, owners)) (Hn : Z.of_nat n <= u64_max) :
  registry_ok r owners /\ (unbounded = false -> within_limits (in_jobs r)).
Proof. destruct (job_run_ok _ _ _ _ Hrun Hn) as (? & _ & ?). done. Qed.

Lemma registry_invariant_witness :
  exists r owners, job_run false 3 (r, owners) /\ registry_ok r owners /\ within_limits (in_jobs r)
    /\ jd_state <$> get_job 1 r = Some JCancelled.
Proof.
  destruct (begin_bounded "w" "open" registry_default) as [[[id flag]|e] r1] eqn:H1;
    [|vm_compute in H1; discriminate H1].
  assert (id = 1 /\ flag = 0%nat) as [-> ->] by (vm_compute in H1; by injection H1 as <- <- _).
  set (r3 := finish 1 (Some (Ok tt)) true (cancel_all r1)).
  assert (job_run false 3 (r3, [])) as Hrun.
  { eapply (run_more _ 2 (cancel_all r1, [] ++ [(1, 0%nat)])).
    - eapply (run_more _ 1 (r1, [(1, 0%nat)])); [|apply step_cancel_all].
      eapply run_more; [apply run_start|]. by eapply step_admit.
    - apply (step_finish _ _ [] 1 0%nat []). vm_compute in H1. injection H1 as <-. vm_compute. reflexivity. }
  destruct (registry_invariant false 3 r3 [] Hrun) as [Hok Hl]; [vm_compute; discriminate|].
  exists r3, []. split; [exact Hrun|]. split; [exact Hok|]. split; [by apply Hl|].
  unfold r3. vm_compute in H1. injection H1 as <-. vm_compute. reflexivity.
Defined.

(** How one entry evolves: gone, or the same owner's and untouched once finished. *)
Definition evolves (jobs jobs' : gmap JobId Entry) : Prop :=
  forall id e, jobs !! id = Some e ->
    jobs' !! id = None
    \/ exists e', jobs' !! id = Some e' /\ en_cancel e' = en_cancel e /\ (terminal e = true -> e' = e).

Lemma evolves_sub jobs jobs' : jobs' ⊆ jobs -> evolves jobs jobs'.
Proof.
  intros Hsub id e He. destruct (jobs' !! id) as [e'|] eqn:He'; [right|by left].
  pose proof (lookup_weaken _ _ _ _ He' Hsub). exists e'. split_and!; congruence.
Qed.

Lemma evolves_replace jobs id e0 e0' :
  jobs !! id = Some e0 -> active e0 = true -> en_cancel e0' = en_cancel e0 ->
  evolves jobs (<[id := e0']> jobs).
Proof.
  intros H0 Ha Hc i e He. right. destruct (decide (i = id)) as [->|Hne].
  - rewrite H0 in He. injection He as <-. exists e0'. rewrite lookup_insert_eq. split_and!; [done..|].
    unfold terminal, active in *. by destruct (jd_state (en_dto e0)).
  - exists e. by rewrite lookup_insert_ne.
Qed.

Lemma evolves_insert jobs jobs' id e0 :
  jobs' ⊆ jobs -> jobs !! id = None -> evolves jobs (<[id := e0]> jobs').
Proof.
  intros Hsub Hn i e He. assert (i <> id) as Hne by (intros ->; congruence).
  rewrite lookup_insert_ne by done. exact (evolves_sub _ _ Hsub i e He).
Qed.

Lemma step_evolves unbounded r owners r' owners' :
  job_step unbounded (r, owners) (r', owners') -> registry_ok r owners -> 0 <= in_next r < u64_max ->
  evolves (in_jobs r) (in_jobs r').
Proof.
  intros Hstep Hok Hn.
  assert (ids_fresh r) as Hf by (split; [done|]; intros i Hi; apply (ok_keys _ _ Hok) in Hi; lia).
  assert (in_jobs r !! (in_next r + 1) = None) as Hnone.
  { apply eq_None_not_Some. intros Hs. apply Hf in Hs. lia. }
  inversion Hstep as
    [r0 o0 workspace kind id flag r1 Hb|r0 o0 workspace kind id flag r1 Hu Hi|r0 o0 id flag Hin
    |r0 before id flag after joined cancelled Hc|r0 o0 id flag completed total r1 Hin Hp
    |r0 o0 id detail|r0 o0 id r1 Hc|r0 o0 w|r0 o0|r0 o0 w|r0 o0 w keep|r0 o0 keep]; subst; clear Hstep.
  - destruct (begin_bounded_ok _ _ _ _ _ _ Hb) as (_ & jobs & _ & _ & Ht & Hi).
    unfold insert_job in Hi. cbn in Hi. rewrite (next_id_fresh _ Hf) in Hi. injection Hi as _ _ <-.
    apply evolves_insert; [apply Ht|done].
  - unfold insert_job in Hi. rewrite (next_id_fresh _ Hf) in Hi. injection Hi as _ _ <-.
    by apply evolves_insert.
  - unfold set_state. cbn [in_jobs with_jobs]. rewrite alter_insert.
    destruct (in_jobs r !! id) as [e|] eqn:He; [|by apply evolves_sub].
    eapply evolves_replace; [done| |done]. by eapply (ok_active _ _ Hok).
  - unfold finish. destruct (outcome joined cancelled). unfold set_state. cbn [in_jobs with_jobs].
    rewrite alter_insert. destruct (in_jobs r !! id) as [e|] eqn:He; [|by apply evolves_sub].
    eapply evolves_replace; [done| |done]. eapply (ok_active _ _ Hok id flag); [set_solver|done].
  - revert Hp. unfold set_progress. destruct (in_jobs r !! id) as [e|] eqn:He; [|done]. intros [= <-].
    eapply evolves_replace; [done| |done]. by eapply (ok_active _ _ Hok).
  - unfold set_open_progress. destruct (in_jobs r !! id) as [e|] eqn:He; [|by apply evolves_sub].
    destruct (active e) eqn:Ha; [|by apply evolves_sub]. by eapply evolves_replace.
  - revert Hc. unfold cancel_job. destruct (in_jobs r !! id); intros [= <-]. by apply evolves_sub.
  - by apply evolves_sub.
  - by apply evolves_sub.
  - apply evolves_sub, map_filter_subseteq.
  - apply evolves_sub, prune_trimmed.
  - apply evolves_sub, prune_trimmed.
Qed.

Lemma step_flags unbounded r owners r' owners' :
  job_step unbounded (r, owners) (r', owners') ->
  forall f, flag_is_cancelled (in_flags r) f = true -> flag_is_cancelled (in_flags r') f = true.
Proof.
  assert (forall flags f, flag_is_cancelled flags f = true ->
    flag_is_cancelled (flags ++ [false]) f = true) as Happ.
  { unfold flag_is_cancelled. intros flags f Hi. destruct (flags !! f) as [b|] eqn:Hb; [|done].
    by rewrite (lookup_app_l_Some _ _ _ _ Hb). }
  intros Hstep f Hf. inversion Hstep as
    [r0 o0 workspace kind id flag r1 Hb|r0 o0 workspace kind id flag r1 Hu Hi|r0 o0 id flag Hin
    |r0 before id flag after joined cancelled Hc|r0 o0 id flag completed total r1 Hin Hp
    |r0 o0 id detail|r0 o0 id r1 Hc|r0 o0 w|r0 o0|r0 o0 w|r0 o0 w keep|r0 o0 keep]; subst; clear Hstep; try done.
  - destruct (begin_bounded_ok _ _ _ _ _ _ Hb) as (_ & jobs & _ & _ & Ht & Hi).
    unfold insert_job in Hi. injection Hi as _ _ <-. by apply Happ.
  - unfold insert_job in Hi. injection Hi as _ _ <-. by apply Happ.
  - unfold finish. by destruct (outcome joined cancelled).
  - revert Hp. unfold set_progress. by destruct (in_jobs r !! id); intros [= <-].
  - unfold set_open_progress. by repeat case_match.
  - revert Hc. unfold cancel_job. destruct (in_jobs r !! id); intros [= <-]. by apply flag_cancel_grows.
  - by apply cancel_where_flags.
  - by apply cancel_where_flags.
Qed.

(** A finished job stays as it finished.  Whatever critical section runs next,
    the entry of a finished job is unchanged or removed; an active job only
    becomes running or finished by its owner's hand or loses its entry; a
    raised cancellation flag is never lowered, also after its entry is gone. *)
Theorem finished_job_final (unbounded : bool) (n : nat) (r r' : Inner) (owners owners' : list Owner)
    (id : JobId) (e : Entry)
    (Hrun : job_run unbounded n (r, owners)) (Hn : Z.of_nat n < u64_max)
    (Hstep : job_step unbounded (r, owners) (r', owners')) (He : in_jobs r !! id = Some e) :
  (in_jobs r' !! id = None
   \/ exists e', in_jobs r' !! id = Some e' /\ en_cancel e' = en_cancel e
        /\ (terminal e = true -> e' = e)
        /\ ((id, en_cancel e) ∈ owners' -> active e' = true))
  /\ forall f, flag_is_cancelled (in_flags r) f = true -> flag_is_cancelled (in_flags r') f = true.
Proof.
  destruct (job_run_ok _ _ _ _ Hrun ltac:(lia)) as (Hok & Hnext & _).
  destruct (registry_ok_step _ _ _ _ _ Hstep Hok ltac:(lia)) as [Hok' _].
  split; [|by eapply step_flags].
  destruct (step_evolves _ _ _ _ _ Hstep Hok ltac:(lia) id e He) as [Hnone|(e' & He' & Hc & Ht)]; [by left|].
  right. exists e'. split_and!; [done..|]. intros Hin. rewrite <- Hc in Hin. by eapply (ok_active _ _ Hok').
Qed.

Lemma finished_job_final_witness :
  exists r e, in_jobs r !! 1 = Some e /\ terminal e = true
    /\ in_jobs (cancel_all r) !! 1 = Some e.
Proof.
  destruct (begin_bounded "w" "open" registry_default) as [[[id flag]|e] r1] eqn:H1;
    [|vm_compute in H1; discriminate H1].
  assert (id = 1 /\ flag = 0%nat) as [-> ->] by (vm_compute in H1; by injection H1 as <- <- _).
  set (r2 := finish 1 (Some (Ok tt)) false r1).
  assert (job_run false 2 (r2, [])) as Hrun.
  { eapply (run_more _ 1 (r1, [] ++ [(1, 0%nat)])).
    - eapply run_more; [apply run_start|]. by eapply step_admit.
    - by apply (step_finish _ _ [] 1 0%nat []). }
  assert (match in_jobs r2 !! 1 with Some e => terminal e | None => false end = true) as Hdone.
  { unfold r2. vm_compute in H1. injection H1 as <-. vm_compute. reflexivity. }
  destruct (in_jobs r2 !! 1) as [e|] eqn:He; [|discriminate Hdone].
  exists r2, e. split; [exact He|]. split; [exact Hdone|].
  destruct (finished_job_final false 2 r2 (cancel_all r2) [] [] 1 e Hrun ltac:(vm_compute; reflexivity)
    (step_cancel_all _ _ _) He) as [[Hnone|(e' & He' & _ & Ht & _)] _].
  - cbn [cancel_all cancel_where in_jobs] in Hnone. rewrite He in Hnone. discriminate Hnone.
  - rewrite (Ht Hdone) in He'. exact He'.
Defined.

(** Removing a workspace frees places in the table while the removed jobs' owners
    are still at work, so more than eight can run at once. *)
Fixpoint admit_owned (k : nat) (st : Inner * list Owner) : Inner * list Owner :=
  match k with
  | O => st
  | S k =>
      match begin_bounded "w" "open" (fst st) with
      | (Ok owner, r) => admit_owned k (r, owner :: snd st)
      | (Err _, _) => st
      end
  end.

Lemma admit_owned_run k n st :
  job_run false n st -> exists m, job_run false m (admit_owned k st).
Proof.
  revert n st. induction k as [|k IH]; intros n [r owners] Hrun; [by exists n|]. cbn.
  destruct (begin_bounded "w" "open" r) as [[[id flag]|e] r'] eqn:Hb; [|by exists n].
  eapply IH, run_more; [exact Hrun|]. by eapply step_admit.
Qed.

(** The limit of eight counts table entries, not owners at work: with bounded
    admission only, a run that removes a workspace reaches a state in which twice
    as many owners hold an unfinished job. *)
Theorem removed_jobs_keep_running :
  exists n r owners, job_run false n (r, owners) /\ zlen owners = 2 * MAX_ACTIVE.
Proof.
  destruct (admit_owned_run 8 0 _ (run_start false)) as [m Hm].
  destruct (admit_owned 8 (registry_default, [])) as [r owners] eqn:Ha.
  destruct (admit_owned_run 8 (S m) (remove_workspace "w" r, owners)) as [m' Hm'].
  { eapply run_more; [exact Hm|]. apply step_remove. }
  destruct (admit_owned 8 (remove_workspace "w" r, owners)) as [r' owners'] eqn:Hb.
  exists m', r', owners'. split; [done|].
  vm_compute in Ha. injection Ha as <- <-. vm_compute in Hb. injection Hb as _ <-. done.
Qed.
