(* ===== verification/Answers.v ===== *)
(** * Programs that only read

    The store and the analyses have no receiver of their own: they read
    immutable tables, keep locals, and are charged against a guard and a heap.
    [answers p Q R] says what such a program can return.  This file has its rules,
    the loops that charge once per 4096 elements, and the charges, scopes and
    reservations of a crate that turns a guard's refusal into its own error. *)

From stdpp Require Import prelude list strings.
From Stdlib Require Import ZArith Lia.
From S2P Require Import Prelude Prog Control.
Local Open Scope list_scope.
Local Open Scope Z_scope.

(** ** Slices in chunks *)

Fixpoint chunks_go {X} (fuel k : nat) (xs : list X) : list (list X) :=
  match fuel, xs with
  | S fuel, _ :: _ => take k xs :: chunks_go fuel k (drop k xs)
  | _, _ => []
  end.

(** [xs.chunks(k)] and, over a range, [(0..n).step_by(k)]. *)
Definition chunks {X} (k : nat) (xs : list X) : list (list X) := chunks_go (length xs) k xs.

Lemma chunks_concat {X} k (xs : list X) : (0 < k)%nat -> concat (chunks k xs) = xs.
Proof.
  intros Hk. unfold chunks.
  enough (forall fuel xs, (length xs <= fuel)%nat -> concat (chunks_go fuel k xs) = xs) as H by by apply H.
  clear xs. induction fuel as [|fuel IH]; intros [|x xs] Hf; cbn in Hf; try done; try lia.
  cbn [chunks_go concat]. rewrite IH; [apply take_drop|]. rewrite length_drop. cbn. lia.
Qed.

(** Where a loop over a range stands. *)
Lemma seq_position start n before x after : seq start n = before ++ x :: after ->
  x = (start + length before)%nat /\ (length before < n)%nat.
Proof.
  intros Hseq. pose proof (f_equal (fun l => l !! length before) Hseq) as Hi. cbv beta in Hi.
  rewrite lookup_app_r, Nat.sub_diag in Hi by lia. by apply lookup_seq in Hi.
Qed.

(** The number of leading elements that satisfy [f]: how far a [while] loop moves. *)
Fixpoint count_while {X} (f : X -> bool) (xs : list X) : nat :=
  match xs with
  | x :: xs => if f x then S (count_while f xs) else O
  | [] => O
  end.

(** ** Effects, with the crate's error for a refusal *)

Section effects.
Context {W : Type} `{WorkGuard W} `{Allocator W} {E : Type}.
Abbreviation M := (Prog W E unit).

(** [guard.consume(delta).map_err(of_abort)?] *)
Definition consume_as (of_abort : OperationAbort -> E) (d : WorkDelta) : M unit := fun s w =>
  match guard_consume d w with
  | (Ok _, w') => (Ok tt, s, w')
  | (Err a, w') => (Err (of_abort a), s, w')
  end.

(** [let scope = AllocationScope::begin(..).map_err(of_abort)?; body; drop(scope)] *)
Definition scope_as {A} (of_abort : OperationAbort -> E) (resident slack : Z) (body : M A) : M A := fun s w =>
  match guard_begin_scope (delta_resident resident) slack w with
  | (Err a, w') => (Err (of_abort a), s, w')
  | (Ok _, w') => let '(r, s', w'') := body s w' in (r, s', guard_end_scope w'')
  end.

(** [values.try_reserve_exact(..).map_err(..)?]: the capacity granted. *)
Definition grow_as (t : RustType) (n : Z) (e : E) : M Z := fun s w =>
  match vec_grow t n w with
  | (Some c, w') => (Ok c, s, w')
  | (None, w') => (Err e, s, w')
  end.

(** [for x in xs] with a [return] inside: the first [inr] ends it. *)
Fixpoint find_each {X A B} (xs : list X) (a : A) (f : A -> X -> M (A + B)) : M (A + B) :=
  match xs with
  | [] => ret (inl a)
  | x :: xs =>
      let! r := f a x in
      match r with
      | inl a => find_each xs a f
      | inr b => ret (inr b)
      end
  end.

(** A loop that pays once per 4096 elements. *)
Definition WORK_CHUNK : nat := 4096.
Definition chunked_fold {X A} (pay : nat -> M unit) (xs : list X) (a : A) (f : A -> X -> M A) : M A :=
  fold_each (chunks WORK_CHUNK xs) a (fun a chunk => pay (length chunk) ;! fold_each chunk a f).
Definition chunked_find {X A B} (pay : nat -> M unit) (xs : list X) (a : A) (f : A -> X -> M (A + B)) : M (A + B) :=
  find_each (chunks WORK_CHUNK xs) a (fun a chunk => pay (length chunk) ;! find_each chunk a f).

(** ** Rules *)

(** The outcomes of a program that has no receiver. *)
Definition answers {A} (p : M A) (Q : A -> Prop) (R : E -> Prop) : Prop :=
  forall w, match p tt w with
            | (Ok a, _, _) => Q a
            | (Err e, _, _) => R e
            end.

Lemma answers_weaken {A} (p : M A) (Q Q' : A -> Prop) (R R' : E -> Prop) :
  answers p Q R -> (forall a, Q a -> Q' a) -> (forall e, R e -> R' e) -> answers p Q' R'.
Proof. intros Hp HQ HR w. specialize (Hp w). destruct (p tt w) as [[[a|e] []] w']; auto. Qed.

Context (R : E -> Prop).

Lemma answers_ret {A} (a : A) (Q : A -> Prop) : Q a -> answers (ret a) Q R.
Proof. intros HQ w. exact HQ. Qed.
Lemma answers_throw {A} (e : E) (Q : A -> Prop) : R e -> answers (throw e) Q R.
Proof. intros He w. exact He. Qed.
Lemma answers_bind {A B} (p : M A) (k : A -> M B) Q : answers p (fun a => answers (k a) Q R) R -> answers (bind p k) Q R.
Proof.
  intros Hp w. specialize (Hp w). unfold bind. destruct (p tt w) as [[[a|e] []] w']; [apply Hp|exact Hp].
Qed.
Lemma answers_mono {A} (p : M A) (Q Q' : A -> Prop) :
  answers p Q R -> (forall a, Q a -> Q' a) -> answers p Q' R.
Proof. intros Hp HQ w. specialize (Hp w). destruct (p tt w) as [[[a|e] []] w']; auto. Qed.
Lemma answers_fail_if (b : bool) e (Q : unit -> Prop) :
  (b = false -> Q tt) -> (b = true -> R e) -> answers (fail_if b e) Q R.
Proof. intros H1 H2 w. destruct b; [exact (H2 eq_refl)|exact (H1 eq_refl)]. Qed.
Lemma answers_option {A} (o : option A) e (Q : A -> Prop) :
  match o with Some a => Q a | None => R e end -> answers (lift_option o e) Q R.
Proof. intros Ho w. unfold lift_option, lift_result, ok_or. by destruct o. Qed.
Lemma answers_result {A} (r : result E A) (Q : A -> Prop) :
  match r with Ok a => Q a | Err e => R e end -> answers (lift_result r) Q R.
Proof. intros Ho w. exact Ho. Qed.

Lemma answers_consume f d (Q : unit -> Prop) : Q tt -> (forall a, R (f a)) -> answers (consume_as f d) Q R.
Proof. intros HQ HR w. unfold consume_as. by destruct (guard_consume d w) as [[[]|a] w']. Qed.
Lemma answers_scope_as {A} f n k (body : M A) Q :
  answers body Q R -> (forall a, R (f a)) -> answers (scope_as f n k body) Q R.
Proof.
  intros Hb HR w. unfold scope_as. destruct (guard_begin_scope _ _ w) as [[[]|a] w']; [|apply HR].
  specialize (Hb w'). by destruct (body tt w') as [[[?|?] ?] ?].
Qed.
Lemma answers_grow_as t n e (Q : Z -> Prop) : (forall c, Q c) -> R e -> answers (grow_as t n e) Q R.
Proof. intros HQ He w. unfold grow_as. destruct (vec_grow t n w) as [[c|] w']; auto. Qed.

Lemma answers_relabel {E' A} (f : E' -> E) (p : Prog W E' unit A) (Q : A -> Prop) :
  (forall w, match p tt w with (Ok a, _, _) => Q a | (Err e, _, _) => R (f e) end) -> answers (relabel f p) Q R.
Proof.
  intros Hp w. specialize (Hp w). unfold relabel, bind, attempt, attempt_on.
  by destruct (p tt w) as [[[a|e] []] w'].
Qed.

(** Loops, by an invariant over the elements already visited. *)
Lemma answers_fold {X A} (xs : list X) (a : A) (f : A -> X -> M A) (I : list X -> A -> Prop) :
  I [] a ->
  (forall done x rest a, xs = done ++ x :: rest -> I done a -> answers (f a x) (I (done ++ [x])) R) ->
  answers (fold_each xs a f) (I xs) R.
Proof.
  intros Hinit Hstep.
  enough (forall rest done a, xs = done ++ rest -> I done a -> answers (fold_each rest a f) (I xs) R) as Hgo
    by by apply (Hgo xs []).
  clear Hinit a. induction rest as [|x rest IH]; intros done a Hxs Ha; cbn [fold_each].
  - rewrite app_nil_r in Hxs. subst. by apply answers_ret.
  - apply answers_bind. eapply answers_mono; [by eapply Hstep|]. intros a' Ha'.
    apply (IH (done ++ [x])); [|done]. by rewrite <- app_assoc.
Qed.

Lemma answers_chunked_fold {X A} (pay : nat -> M unit) (xs : list X) (a : A) (f : A -> X -> M A) (I : list X -> A -> Prop) :
  (forall n, answers (pay n) (fun _ => True) R) -> I [] a ->
  (forall done x rest a, xs = done ++ x :: rest -> I done a -> answers (f a x) (I (done ++ [x])) R) ->
  answers (chunked_fold pay xs a f) (I xs) R.
Proof.
  intros Hpay Hinit Hstep. unfold chunked_fold. set (cs := chunks WORK_CHUNK xs).
  assert (concat cs = xs) as Hcs by (apply chunks_concat; unfold WORK_CHUNK; lia).
  rewrite <- Hcs. change (answers (fold_each cs a (fun a chunk =>
    pay (length chunk) ;! fold_each chunk a f)) (fun a => (fun cs' a => I (concat cs') a) cs a) R).
  apply answers_fold; [done|]. intros done chunk rest a' Hd Ha'. apply answers_bind; eapply answers_mono; [apply Hpay|intros _ _].
  change (answers (fold_each chunk a' f) (fun a => I (concat (done ++ [chunk])) a) R).
  rewrite concat_app. cbn [concat]. rewrite app_nil_r.
  apply (answers_fold chunk a' f (fun l a => I (concat done ++ l) a)); [by rewrite app_nil_r|].
  intros d x r b -> Hb. rewrite app_assoc. eapply Hstep; [|done].
  rewrite <- Hcs, Hd, concat_app. cbn [concat]. rewrite <- app_assoc, <- app_assoc. cbn [app]. reflexivity.
Qed.

(** Loops that return early: [J] holds of what they return. *)
Lemma answers_find {X A B} (xs : list X) (a : A) (f : A -> X -> M (A + B)) (I : list X -> A -> Prop) (J : B -> Prop) :
  I [] a ->
  (forall done x rest a, xs = done ++ x :: rest -> I done a ->
     answers (f a x) (fun r => match r with inl a => I (done ++ [x]) a | inr b => J b end) R) ->
  answers (find_each xs a f) (fun r => match r with inl a => I xs a | inr b => J b end) R.
Proof.
  intros Hinit Hstep.
  enough (forall rest done a, xs = done ++ rest -> I done a ->
    answers (find_each rest a f) (fun r => match r with inl a => I xs a | inr b => J b end) R) as Hgo
    by by apply (Hgo xs []).
  clear Hinit a. induction rest as [|x rest IH]; intros done a Hxs Ha; cbn [find_each].
  - rewrite app_nil_r in Hxs. subst. by apply answers_ret.
  - apply answers_bind. eapply answers_mono; [by eapply Hstep|]. intros [a'|b] Hr; [|by apply answers_ret].
    apply (IH (done ++ [x])); [|done]. by rewrite <- app_assoc.
Qed.

Lemma answers_chunked_find {X A B} (pay : nat -> M unit) (xs : list X) (a : A) (f : A -> X -> M (A + B)) (I : list X -> A -> Prop)
    (J : B -> Prop) :
  (forall n, answers (pay n) (fun _ => True) R) -> I [] a ->
  (forall done x rest a, xs = done ++ x :: rest -> I done a ->
     answers (f a x) (fun r => match r with inl a => I (done ++ [x]) a | inr b => J b end) R) ->
  answers (chunked_find pay xs a f) (fun r => match r with inl a => I xs a | inr b => J b end) R.
Proof.
  intros Hpay Hinit Hstep. unfold chunked_find. set (cs := chunks WORK_CHUNK xs).
  assert (concat cs = xs) as Hcs by (apply chunks_concat; unfold WORK_CHUNK; lia).
  pose proof (answers_find cs a (fun a chunk => pay (length chunk) ;! find_each chunk a f)
    (fun done a => I (concat done) a) J Hinit) as Hrule. cbv beta in Hrule. rewrite Hcs in Hrule. apply Hrule.
  intros done chunk rest a' Hd Ha'. apply answers_bind; eapply answers_mono; [apply Hpay|intros _ _]. rewrite concat_app. cbn [concat]. rewrite app_nil_r.
  apply (answers_find chunk a' f (fun l a => I (concat done ++ l) a)); [by rewrite app_nil_r|].
  intros d x r b -> Hb. rewrite app_assoc. eapply Hstep; [|done].
  rewrite <- Hcs, Hd, concat_app. cbn [concat]. rewrite <- app_assoc, <- app_assoc. cbn [app]. reflexivity.
Qed.

End effects.
