(* ===== verification/Index.v ===== *)
(** * What the parts of the index share

    The index of [qtrace-store/src/index/] keeps normalized rows and, per
    dimension, sorted tables of row numbers.  This file has its rows and errors,
    the guarded allocation of [qtrace-store/src/allocation.rs] as the index uses
    it, the guarded binary search and the radix sort of row numbers of
    [index/mod.rs]. *)

From stdpp Require Import prelude list sorting strings pretty.
From Stdlib Require Import ZArith Lia Strings.Byte Sorted.
From S2P Require Import Prelude Prog Control Model FlightContext FlightSort Answers.
Local Open Scope string_scope.
Local Open Scope list_scope.
Local Open Scope Z_scope.

(** ** Errors *)

(** [Debug] of a dimension. *)
Definition dimension_name (d : BudgetDimension) : string :=
  match d with
  | InputBytes => "InputBytes" | DecompressedBytes => "DecompressedBytes" | Events => "Events"
  | Nodes => "Nodes" | Rows => "Rows" | ResidentBytes => "ResidentBytes"
  end.

(** [Display] of an abort. *)
Definition abort_display (a : OperationAbort) : string :=
  match a with
  | Cancelled => "operation cancelled"
  | BudgetExceeded d limit consumed =>
      dimension_name d +:+ " budget exceeded: consumed " +:+ pretty consumed
      +:+ ", limit " +:+ pretty limit
  end.

(** [Display] of a provider error. *)
Definition provider_display (e : ProviderError) : string :=
  pe_code e +:+ " at " +:+ pe_stage e +:+ ": "
  +:+ match pe_detail e with AbortDetail a => abort_display a | Message m => m end.

Inductive PublicationState := NoVisibleFinal | VisibleDurabilityUncertain.
Inductive CacheErrorDetail :=
| CacheMessage (detail : string)
| CacheAbort (a : OperationAbort).
Record CacheError := mkCacheError {
  ce_code : string;
  ce_detail : CacheErrorDetail;
  ce_publication_state : PublicationState
}.
Definition ce_abort (e : CacheError) : option OperationAbort :=
  match ce_detail e with CacheAbort a => Some a | CacheMessage _ => None end.
(** [Display] of a cache error. *)
Definition ce_display (e : CacheError) : string :=
  ce_code e +:+ ": "
  +:+ match ce_detail e with CacheMessage detail => detail | CacheAbort a => abort_display a end.

Inductive IndexError :=
| IndexMessage (code detail : string)
| IndexProvider (e : ProviderError)
| IndexCache (e : CacheError)
| IndexAbort (a : OperationAbort).

Definition index_code (e : IndexError) : string :=
  match e with
  | IndexMessage code _ => code
  | IndexProvider e => if bool_decide (pe_code e = "control.cancelled") then "job.cancelled" else pe_code e
  | IndexCache e => ce_code e
  | IndexAbort Cancelled => "job.cancelled"
  | IndexAbort _ => "control.budget_exceeded"
  end.

Definition index_abort (e : IndexError) : option OperationAbort :=
  match e with
  | IndexAbort a => Some a
  | IndexCache e => ce_abort e
  | IndexProvider e => operation_abort e
  | IndexMessage _ _ => None
  end.

Definition index_display (e : IndexError) : string :=
  index_code e +:+ ": "
  +:+ match e with
      | IndexMessage _ detail => detail
      | IndexProvider e => provider_display e
      | IndexCache e => ce_display e
      | IndexAbort a => abort_display a
      end.

Definition index_invalid := IndexMessage "index.invalid".
Definition index_corrupt := IndexMessage "cache.normalized_corrupt".
Definition index_resource := IndexMessage "control.resource_exhausted".
Definition index_duplicate_key := IndexMessage "index.duplicate_source_key".

(** Not an error of the code: an index out of bounds, a panic. *)
Definition row_panic : IndexError := IndexMessage "model.panic" "".

Inductive AllocationFailure :=
| Aborted (a : OperationAbort)
| Overflow (detail : string)
| Failed (detail : string).
(** [impl From<AllocationFailure> for IndexError] *)
Definition index_of_failure (f : AllocationFailure) : IndexError :=
  match f with
  | Aborted a => IndexAbort a
  | Overflow detail | Failed detail => index_resource detail
  end.

(** ** Rows *)

Inductive RegisterAccess := AccessRead | AccessWrite | AccessCheckpoint | AccessDelta.
#[global] Instance RegisterAccess_eq_dec : EqDecision RegisterAccess.
Proof. solve_decision. Defined.

Record RegisterObservationRow := mkObservationRow {
  or_owner_row : nat;
  or_slot : Z;
  or_captured_width : Z;
  or_access : RegisterAccess;
  or_value : Z;
  or_provenance : Provenance
}.

Record InstructionRow := mkInstructionRow {
  ir_owner_row : nat;
  ir_module : option Z;
  ir_relative_pc : Z;
  ir_definition : option Z
}.

Record DefinitionRow := mkDefinitionRow {
  dr_source_event_row : nat;
  dr_provenance : Provenance;
  dr_source_id : Z;
  dr_opcode : Z;
  dr_read_mask : Z;
  dr_write_mask : Z;
  dr_pc_displacement : Z;
  dr_flags : Z;
  dr_pc_kind : PcRelativeKind;
  dr_condition : Z;
  dr_slow_memory_path : bool;
  dr_mnemonic : Z;
  dr_operands : Z;
  dr_disassembly : Z;
  dr_exact_blob : Z
}.

Record MemoryRow := mkMemoryRow {
  mr_owner_row : nat;
  mr_module : option Z;
  mr_relative_pc : Z;
  mr_address : Z;
  mr_end_exclusive : Z;
  mr_size : Z;
  mr_direction : MemoryDirection;
  mr_metadata_available : bool;
  mr_flags : Z;
  mr_value : Z;
  mr_before_blob : Z;
  mr_after_blob : Z
}.

Record SemanticRow := mkSemanticRow {
  sr_owner_row : nat;
  sr_category : option Z;
  sr_name : Z;
  sr_detail_blob : Z
}.

Record CompletenessRow := mkCompletenessRow {
  xr_domain : RangeDomain;
  xr_bounds : RangeBounds;
  xr_provenance : Provenance;
  xr_cause : CompletenessCause
}.

(** ** Guarded programs of the index *)

Section index.
Context {W : Type} `{WorkGuard W} `{Allocator W}.
Abbreviation M := (Prog W IndexError unit).

(** [guard.consume(WorkDelta::default())?] *)
Definition index_checkpoint : M unit := consume_as IndexAbort WorkDelta_default.
Definition consume_row_work (rows : nat) : M unit :=
  consume_as IndexAbort (mkWorkDelta 0 0 0 0 (Z.min u64_max (Z.of_nat rows)) 0).
(** [if index % 4096 == 0 { guard.consume(WorkDelta::default())?; }] *)
Definition checkpoint_every (index : nat) : M unit :=
  if (Z.of_nat index mod 4096 =? 0) then index_checkpoint else ret tt.
(** [values[i]] *)
Definition row_at {X} (values : list X) (i : nat) : M X := lift_option (values !! i) row_panic.
(** [values[i] = v] *)
Definition store_at {X} (values : list X) (i : nat) (v : X) : M (list X) :=
  lift_option (FlightSort.store values i v) row_panic.

Definition geometric_capacity (current required minimum : Z) (label : string) : result AllocationFailure Z :=
  match checked_mul usize_max current 2 with
  | Some doubled => Ok (Z.max required (Z.max minimum doubled))
  | None => Err (Overflow label)
  end.

(** [try_reserve_vec]: the capacity afterwards. *)
Definition try_reserve_vec {A} (t : RustType) (values : Vec A) (additional : Z) (label : string) :
    Prog W AllocationFailure unit Z :=
  let! required := lift_option (checked_add usize_max (zlen (v_items values)) additional) (Overflow label) in
  if required <=? v_capacity values then ret (v_capacity values)
  else
    let! new_capacity := lift_result (geometric_capacity (v_capacity values) required 4 label) in
    let! bytes := lift_option (array_bytes t new_capacity) (Overflow "allocation byte count") in
    scope_as Aborted bytes 0 (grow_as t new_capacity (Failed label)).

(** [crate::allocation::try_reserve_vec(..)?] *)
Definition index_reserve {A} (t : RustType) (values : Vec A) (additional : Z) (label : string) : M Z :=
  relabel index_of_failure (try_reserve_vec t values additional label).
(** The same on a fresh [Vec::new()] that is then filled up to what was asked. *)
Definition index_reserve_new (t : RustType) (count : nat) (label : string) : M unit :=
  index_reserve t (vec_new (A := unit)) (Z.of_nat count) label ;! ret tt.

(** *** Binary search *)

(** One turn per fuel unit; [right - left] shrinks. *)
Fixpoint partition_loop {T} (fuel : nat) (values : list T) (predicate : T -> bool) (left right : nat) (work : Z) :
    M (nat * Z) :=
  match fuel with
  | O => ret (left, work)
  | S fuel =>
      if (left <? right)%nat then
        consume_row_work 1 ;!
        let! work := lift_option (checked_add u64_max work 1) (index_resource "partition work overflow") in
        let middle := (left + (right - left) / 2)%nat in
        let! v := row_at values middle in
        if predicate v then partition_loop fuel values predicate (middle + 1) right work
        else partition_loop fuel values predicate left middle work
      else ret (left, work)
  end.
Definition guarded_partition_point_with_work {T} (values : list T) (predicate : T -> bool) : M (nat * Z) :=
  partition_loop (S (length values)) values predicate 0 (length values) 0.
Definition guarded_partition_point {T} (values : list T) (predicate : T -> bool) : M nat :=
  let! found := guarded_partition_point_with_work values predicate in ret (fst found).

(** *** Sorting row numbers *)

Record RadixWork := mkRadixWork { rw_rows : nat; rw_passes : nat; rw_dedup : nat }.
Definition radix_work_for (rows : nat) : RadixWork :=
  let some := if (2 <=? rows)%nat then 1%nat else 0%nat in
  mkRadixWork rows (some * (64 / 8)) ((rows - 1) * some).
Definition radix_total (work : RadixWork) : result IndexError Z :=
  match try_from u64_max (Z.of_nat (rw_rows work)), try_from u64_max (Z.of_nat (rw_passes work)),
        try_from u64_max (Z.of_nat (rw_dedup work)) with
  | None, _, _ => Err (index_resource "radix row work overflow")
  | _, None, _ => Err (index_resource "radix pass work overflow")
  | _, _, None => Err (index_resource "radix dedup work overflow")
  | Some rows, Some passes, Some dedup =>
      ok_or (per_row ← checked_mul u64_max rows 2;
             per_pass ← checked_add u64_max per_row 256;
             work ← checked_mul u64_max per_pass passes;
             checked_add u64_max work dedup) (index_resource "radix work overflow")
  end.

(** [row.to_le_bytes()[pass] as usize] *)
Definition row_digit (pass row : nat) : nat := Z.to_nat (Z.of_nat row / 256 ^ Z.of_nat pass mod 256).

Definition count_digits (pass : nat) (rows : list nat) : M (list nat) :=
  chunked_fold consume_row_work rows (replicate 256 0%nat) (fun counts row =>
    let! count := row_at counts (row_digit pass row) in
    store_at counts (row_digit pass row) (count + 1)%nat).

(** [for count in &mut counts { let current = *count; *count = position; position += current }] *)
Fixpoint exclusive_sums (position : nat) (counts : list nat) : list nat :=
  match counts with
  | [] => []
  | count :: counts => position :: exclusive_sums (position + count) counts
  end.

Definition scatter_digits (pass : nat) (rows scratch positions : list nat) : M (list nat * list nat) :=
  chunked_fold consume_row_work rows (scratch, positions) (fun '(scratch, positions) row =>
    let! slot := row_at positions (row_digit pass row) in
    let! scratch := store_at scratch slot row in
    let! positions := store_at positions (row_digit pass row) (slot + 1)%nat in
    ret (scratch, positions)).

(** One pass; the swapped pair ([rows], [scratch]). *)
Definition digit_pass (buffers : list nat * list nat) (pass : nat) : M (list nat * list nat) :=
  let '(rows, scratch) := buffers in
  let! counts := count_digits pass rows in
  consume_row_work (length counts) ;!
  let! filled := scatter_digits pass rows scratch (exclusive_sums 0 counts) in
  ret (fst filled, rows).

(** The body of the dedup loop: [rows[..output]] is the kept part. *)
Definition dedup_turn (buffer : list nat * nat) (index : nat) : M (list nat * nat) :=
  let '(rows, output) := buffer in
  let! row := row_at rows index in
  let! kept := row_at rows (output - 1) in
  if negb (row =? kept)%nat then
    let! rows := store_at rows output row in
    ret (rows, (output + 1)%nat)
  else ret (rows, output).

Definition radix_sort_unique_rows (rows : list nat) : M (list nat) :=
  let work := radix_work_for (length rows) in
  if (rw_passes work =? 0)%nat then ret rows
  else
    index_reserve_new T_usize (length rows) "bounded row radix scratch allocation" ;!
    let! buffers := fold_each (seq 0 (rw_passes work)) (rows, replicate (length rows) 0%nat) digit_pass in
    let! kept := chunked_fold consume_row_work (seq 1 (length (fst buffers) - 1)) (fst buffers, 1%nat) dedup_turn in
    ret (take (snd kept) (fst kept)).

(** ** Rules *)

(** A refusal of the guard, of the heap or of a limit. *)
Definition index_refused (e : IndexError) : Prop :=
  match e with
  | IndexAbort _ => True
  | IndexMessage code _ => code = "control.resource_exhausted"
  | _ => False
  end.

Section rules.
Context (R : IndexError -> Prop) (HR : forall e, index_refused e -> R e).

Lemma answers_index_checkpoint (Q : unit -> Prop) : Q tt -> answers index_checkpoint Q R.
Proof. intros HQ. apply answers_consume; [done|]. intros a. by apply HR. Qed.
Lemma answers_checkpoint_every n (Q : unit -> Prop) : Q tt -> answers (checkpoint_every n) Q R.
Proof. intros HQ. unfold checkpoint_every. destruct (_ =? _); [by apply answers_index_checkpoint|by apply answers_ret]. Qed.
Lemma answers_row_work n (Q : unit -> Prop) : Q tt -> answers (consume_row_work n) Q R.
Proof. intros HQ. apply answers_consume; [done|]. intros a. by apply HR. Qed.
Lemma answers_row_at {X} (values : list X) i x (Q : X -> Prop) :
  values !! i = Some x -> Q x -> answers (row_at values i) Q R.
Proof. intros Hx HQ. apply answers_option. by rewrite Hx. Qed.
Lemma answers_store_at {X} (values : list X) i x (Q : list X -> Prop) :
  (i < length values)%nat -> Q (<[i := x]> values) -> answers (store_at values i x) Q R.
Proof. intros Hi HQ. apply answers_option. unfold FlightSort.store. by rewrite decide_True by done. Qed.

Lemma answers_index_reserve {A} t (values : Vec A) additional label (Q : Z -> Prop) :
  (forall c, Q c) -> answers (index_reserve t values additional label) Q R.
Proof.
  intros HQ. apply answers_relabel.
  enough (answers (try_reserve_vec t values additional label) Q (fun f => R (index_of_failure f))) as Ha by exact Ha.
  assert (forall f, R (index_of_failure f)) as Hf by (intros [a|d|d]; by apply HR).
  apply answers_bind, answers_option. case_match; [|apply Hf]. destruct (_ <=? _); [by apply answers_ret|].
  apply answers_bind, answers_result. case_match; [|apply Hf].
  apply answers_bind, answers_option. case_match; [|apply Hf].
  apply answers_scope_as; [by apply answers_grow_as|]. intros a'. apply (Hf (Aborted a')).
Qed.
Lemma answers_reserve_new t n label (Q : unit -> Prop) : Q tt -> answers (index_reserve_new t n label) Q R.
Proof. intros HQ. apply answers_bind, answers_index_reserve. intros c. by apply answers_ret. Qed.

(** The binary search finds the end of the leading part that satisfies the predicate. *)
Lemma answers_partition {T} (values : list T) predicate c (Q : nat * Z -> Prop) :
  (c <= length values)%nat ->
  (forall i v, (i < c)%nat -> values !! i = Some v -> predicate v = true) ->
  (forall i v, (c <= i)%nat -> values !! i = Some v -> predicate v = false) ->
  (forall work, 0 <= work -> Q (c, work)) ->
  answers (guarded_partition_point_with_work values predicate) Q R.
Proof.
  intros Hc Hbefore Hafter HQ. unfold guarded_partition_point_with_work.
  enough (forall fuel left right work, (left <= c <= right)%nat -> (right <= length values)%nat ->
    (right - left < fuel)%nat -> 0 <= work ->
    answers (partition_loop fuel values predicate left right work) Q R) as Hgo by (apply Hgo; lia).
  induction fuel as [|fuel IH]; intros left right work Hr Hlen Hf Hw; [lia|]. cbn [partition_loop].
  destruct (Nat.ltb_spec left right) as [Hlt|Hge].
  2: { apply answers_ret. replace left with c by lia. by apply HQ. }
  apply answers_bind, answers_row_work. apply answers_bind, answers_option.
  destruct (checked_add u64_max work 1) as [work'|] eqn:Hadd; [|by apply HR].
  apply checked_add_Some in Hadd as [-> _]. set (middle := (left + (right - left) / 2)%nat).
  assert (left <= middle < right)%nat as Hm.
  { unfold middle. pose proof (Nat.div_lt (right - left) 2). lia. }
  destruct (lookup_lt_is_Some_2 values middle) as [v Hv]; [lia|].
  apply answers_bind. apply (answers_row_at _ _ v); [done|]. destruct (predicate v) eqn:Hp.
  - apply IH; try lia. destruct (decide (c <= middle)%nat); [|lia].
    rewrite (Hafter middle v) in Hp by (done || lia). done.
  - apply IH; try lia. destruct (decide (c <= middle)%nat); [lia|].
    rewrite (Hbefore middle v) in Hp by (done || lia). done.
Qed.

End rules.
End index.
