(* ===== verification/Orders.v ===== *)
(** * Comparison functions

    [std::cmp::Ordering] is [comparison].  This file has the comparisons the
    store derives or writes by hand - of options, slices and pairs, chained with
    [then_with] - and what makes them orders: [total_compare] for a preorder that
    sorting can use, [exact_compare] when only equal values compare equal.  Both
    are classes, so that a composed comparison is found to be one. *)

From stdpp Require Import prelude list sorting.
From Stdlib Require Import ZArith Lia Strings.Byte Sorted.
From S2P Require Import Prelude.
Local Open Scope list_scope.
Local Open Scope Z_scope.

(** [then_with] *)
Definition then_with (c d : comparison) : comparison := match c with Eq => d | _ => c end.
(** [Ord] of [Option]: [None] first. *)
Definition compare_option {T} (compare : T -> T -> comparison) (x y : option T) : comparison :=
  match x, y with
  | None, None => Eq
  | None, Some _ => Lt
  | Some _, None => Gt
  | Some x, Some y => compare x y
  end.
(** [Ord] of slices: lexicographic, a prefix first. *)
Fixpoint compare_slice {T} (compare : T -> T -> comparison) (xs ys : list T) : comparison :=
  match xs, ys with
  | [], [] => Eq
  | [], _ => Lt
  | _, [] => Gt
  | x :: xs, y :: ys => then_with (compare x y) (compare_slice compare xs ys)
  end.
(** [Ord] of a pair. *)
Definition compare_pair {A B} (f : A -> A -> comparison) (g : B -> B -> comparison) (x y : A * B) : comparison :=
  then_with (f x.1 y.1) (g x.2 y.2).
Definition compare_byte (x y : byte) : comparison := (Z_of_byte x ?= Z_of_byte y).

(** ** What an order is *)

Class total_compare {T} (compare : T -> T -> comparison) : Prop := mkTotalCompare {
  tc_opp : forall x y, compare y x = CompOpp (compare x y);
  tc_trans : forall x y z, compare x y <> Gt -> compare y z <> Gt -> compare x z <> Gt
}.
Class exact_compare {T} (compare : T -> T -> comparison) : Prop :=
  exact_eq : forall x y, compare x y = Eq <-> x = y.

Definition cmp_le {T} (compare : T -> T -> comparison) (x y : T) : Prop := compare x y <> Gt.
#[export] Instance cmp_le_dec {T} (compare : T -> T -> comparison) x y : Decision (cmp_le compare x y).
Proof. unfold cmp_le. apply _. Defined.
Definition cmp_lt {T} (compare : T -> T -> comparison) (x y : T) : Prop := compare x y = Lt.

Section total.
Context {T : Type} (compare : T -> T -> comparison) `{!total_compare compare}.

#[export] Instance cmp_le_total : Total (cmp_le compare).
Proof. intros x y. unfold cmp_le. rewrite (tc_opp (compare := compare) x y). destruct (compare x y); [by left|by left|by right]. Qed.
#[export] Instance cmp_le_trans : Transitive (cmp_le compare).
Proof. intros x y z. apply (tc_trans (compare := compare)). Qed.

Lemma compare_refl x : compare x x = Eq.
Proof. pose proof (tc_opp (compare := compare) x x) as Hx. by destruct (compare x x). Qed.
Lemma cmp_lt_gt x y : compare x y = Gt <-> cmp_lt compare y x.
Proof. unfold cmp_lt. rewrite (tc_opp (compare := compare) y x). by destruct (compare y x). Qed.
Lemma cmp_lt_le_trans x y z : cmp_lt compare x y -> cmp_le compare y z -> cmp_lt compare x z.
Proof.
  unfold cmp_lt, cmp_le. intros Hxy Hyz. destruct (compare x z) eqn:Hxz; [|done|].
  - assert (compare y x <> Gt) as Hyx by (apply (tc_trans (compare := compare) y z x); [done|by rewrite (tc_opp (compare := compare) x z), Hxz]).
    rewrite (tc_opp (compare := compare) x y), Hxy in Hyx. done.
  - exfalso. apply (tc_trans (compare := compare) x y z); [by rewrite Hxy|done|done].
Qed.
Lemma cmp_le_lt_trans x y z : cmp_le compare x y -> cmp_lt compare y z -> cmp_lt compare x z.
Proof.
  unfold cmp_lt, cmp_le. intros Hxy Hyz. destruct (compare x z) eqn:Hxz; [|done|].
  - assert (compare z y <> Gt) as Hzy by (apply (tc_trans (compare := compare) z x y); [by rewrite (tc_opp (compare := compare) x z), Hxz|done]).
    rewrite (tc_opp (compare := compare) y z), Hyz in Hzy. done.
  - exfalso. apply (tc_trans (compare := compare) x y z); [done|by rewrite Hyz|done].
Qed.
Lemma cmp_lt_trans x y z : cmp_lt compare x y -> cmp_lt compare y z -> cmp_lt compare x z.
Proof. intros Hx Hy. apply (cmp_lt_le_trans x y z); [done|]. unfold cmp_le. by rewrite Hy. Qed.
Lemma cmp_lt_irrefl x : ~ cmp_lt compare x x.
Proof. unfold cmp_lt. by rewrite compare_refl. Qed.
End total.

(** A chain of comparisons. *)
#[export] Instance total_then {T} (c d : T -> T -> comparison) :
  total_compare c -> total_compare d -> total_compare (fun x y => then_with (c x y) (d x y)).
Proof.
  intros Hc Hd. split.
  - intros x y. rewrite (tc_opp (compare := c) x y), (tc_opp (compare := d) x y). by destruct (c x y).
  - intros x y z Hxy Hyz. destruct (c x y) eqn:Cxy; [|clear Hxy|done].
    + destruct (c y z) eqn:Cyz; [|clear Hyz|done]; cbn in Hxy.
      * assert (c x z = Eq) as ->.
        { destruct (c x z) eqn:Cxz; [done|exfalso..].
          - assert (cmp_lt c x y) as Hlt by (apply (cmp_lt_le_trans c x z y); [done|unfold cmp_le; by rewrite (tc_opp (compare := c) y z), Cyz]).
            unfold cmp_lt in Hlt. congruence.
          - apply (tc_trans (compare := c) x y z); [by rewrite Cxy|by rewrite Cyz|done]. }
        by apply (tc_trans (compare := d) x y z).
      * assert (cmp_lt c x z) as Hlt by (apply (cmp_le_lt_trans c x y z); [unfold cmp_le; by rewrite Cxy|done]).
        unfold cmp_lt in Hlt. by rewrite Hlt.
    + assert (cmp_lt c x z) as Hlt.
      { apply (cmp_lt_le_trans c x y z); [done|]. unfold cmp_le. intros Hgt. by rewrite Hgt in Hyz. }
      unfold cmp_lt in Hlt. by rewrite Hlt.
Qed.

(** A comparison by a key. *)
Lemma total_on {A T} (f : A -> T) (c : T -> T -> comparison) : total_compare c -> total_compare (fun x y => c (f x) (f y)).
Proof. intros Hc. split; [intros x y; apply (tc_opp (compare := c))|intros x y z; apply (tc_trans (compare := c))]. Qed.
(* The key is found by pattern unification. *)
#[export] Hint Extern 2 (total_compare (fun x y => ?c (?f x) (?f y))) => eapply (total_on f c) : typeclass_instances.

#[export] Instance Z_compare_total : total_compare Z.compare.
Proof. split; [intros x y; apply Z.compare_antisym|]. intros x y z. rewrite !Z.compare_gt_iff. lia. Qed.
#[export] Instance nat_compare_total : total_compare Nat.compare.
Proof. split; [intros x y; apply Nat.compare_antisym|]. intros x y z. rewrite !Nat.compare_gt_iff. lia. Qed.
#[export] Instance Z_compare_exact : exact_compare Z.compare.
Proof. intros x y. apply Z.compare_eq_iff. Qed.
#[export] Instance nat_compare_exact : exact_compare Nat.compare.
Proof. intros x y. apply Nat.compare_eq_iff. Qed.
#[export] Instance compare_byte_total : total_compare compare_byte.
Proof. apply (total_on Z_of_byte Z.compare _). Qed.
#[export] Instance compare_byte_exact : exact_compare compare_byte.
Proof.
  intros x y. unfold compare_byte. rewrite Z.compare_eq_iff. unfold Z_of_byte. split; [|by intros ->].
  intros Heq%N2Z.inj. apply (f_equal Byte.of_N) in Heq. rewrite !Byte.of_to_N in Heq. by injection Heq.
Qed.

#[export] Instance compare_option_total {T} (c : T -> T -> comparison) : total_compare c -> total_compare (compare_option c).
Proof.
  intros Hc. split; [intros [x|] [y|]; try done; apply (tc_opp (compare := c))|].
  intros [x|] [y|] [z|]; try done. apply (tc_trans (compare := c)).
Qed.
#[export] Instance compare_option_exact {T} (c : T -> T -> comparison) : exact_compare c -> exact_compare (compare_option c).
Proof. intros Hc [x|] [y|]; cbn; try done. rewrite (exact_eq (compare := c)). naive_solver. Qed.

#[export] Instance compare_pair_total {A B} (f : A -> A -> comparison) (g : B -> B -> comparison) :
  total_compare f -> total_compare g -> total_compare (compare_pair f g).
Proof.
  intros Hf Hg. apply (total_then (fun x y => f x.1 y.1) (fun x y => g x.2 y.2)); [by apply (total_on fst f)|by apply (total_on snd g)].
Qed.
#[export] Instance compare_pair_exact {A B} (f : A -> A -> comparison) (g : B -> B -> comparison) :
  exact_compare f -> exact_compare g -> exact_compare (compare_pair f g).
Proof.
  intros Hf Hg [a b] [a' b']. unfold compare_pair. cbn. specialize (Hf a a'). specialize (Hg b b').
  destruct (f a a'); cbn; naive_solver.
Qed.

#[export] Instance compare_slice_exact {T} (c : T -> T -> comparison) : exact_compare c -> exact_compare (compare_slice c).
Proof.
  intros Hc xs. induction xs as [|x xs IH]; intros [|y ys]; cbn; try done. specialize (Hc x y). specialize (IH ys).
  destruct (c x y); cbn; naive_solver.
Qed.
#[export] Instance compare_slice_total {T} (c : T -> T -> comparison) :
  total_compare c -> exact_compare c -> total_compare (compare_slice c).
Proof.
  intros Hc He. split.
  - intros xs. induction xs as [|x xs IH]; intros [|y ys]; cbn; try done.
    rewrite (tc_opp (compare := c) x y). destruct (c x y); cbn; [apply IH|done..].
  - intros xs. induction xs as [|x xs IH]; intros [|y ys] [|z zs]; cbn; try done. intros Hxy Hyz.
    destruct (c x y) eqn:Cxy; [|clear Hxy|done].
    + apply He in Cxy as ->. destruct (c y z); [|done|done]. by apply (IH ys zs).
    + assert (cmp_lt c x z) as Hlt; [|unfold cmp_lt in Hlt; by rewrite Hlt].
      apply (cmp_lt_le_trans c x y z); [done|]. unfold cmp_le. intros Hgt. by rewrite Hgt in Hyz.
Qed.

(** ** Sorted lists *)

(** A sorted list with no two neighbours equal is strictly sorted. *)
Lemma sorted_strict {T} (c : T -> T -> comparison) `{!total_compare c} (l : list T) :
  StronglySorted (cmp_le c) l ->
  (forall i x y, l !! i = Some x -> l !! S i = Some y -> c x y <> Eq) -> StronglySorted (cmp_lt c) l.
Proof.
  intros Hs. induction Hs as [|x l Hs IH Hx]; intros Hne; [constructor|].
  assert (StronglySorted (cmp_lt c) l) as Hl by (apply IH; intros i a b Ha Hb; by apply (Hne (S i))).
  constructor; [done|]. destruct l as [|y l]; [constructor|].
  assert (cmp_lt c x y) as Hxy.
  { apply Forall_cons in Hx as [Hxy _]. specialize (Hne 0%nat x y eq_refl eq_refl). unfold cmp_lt, cmp_le in *. by destruct (c x y). }
  constructor; [done|]. apply StronglySorted_inv in Hl as [_ Hy]. rewrite Forall_forall in *. intros z Hz.
  apply (cmp_lt_trans c x y z); [done|by apply Hy].
Qed.

Lemma sorted_lookup {A} (P : A -> A -> Prop) l i j x y :
  StronglySorted P l -> (i < j)%nat -> l !! i = Some x -> l !! j = Some y -> P x y.
Proof.
  intros Hs. revert i j. induction Hs as [|z l _ IH Hz]; intros i j Hij Hi Hj; [done|].
  destruct j as [|j]; [lia|]. cbn in Hj. destruct i as [|i]; [|by apply (IH i j); [lia|..]].
  injection Hi as <-. rewrite Forall_forall in Hz. by eapply Hz, list_elem_of_lookup_2.
Qed.

(** [windows(2)] *)
Definition windows2 {A} (l : list A) : list (A * A) := zip l (tail l).

Lemma windows2_lookup {A} (l : list A) i x y :
  windows2 l !! i = Some (x, y) <-> l !! i = Some x /\ l !! S i = Some y.
Proof.
  unfold windows2. rewrite lookup_zip_with_Some. rewrite lookup_tail. split.
  - intros (x' & y' & [= -> ->] & Hx & Hy). done.
  - intros [Hx Hy]. by exists x, y.
Qed.

Lemma windows2_sorted {T} (c : T -> T -> comparison) `{!total_compare c} (l : list T) :
  (forall x y, (x, y) ∈ windows2 l -> c x y = Lt) -> StronglySorted (cmp_lt c) l.
Proof.
  intros Hw. apply Sorted_StronglySorted; [intros x y z; apply (cmp_lt_trans c)|].
  induction l as [|x l IH]; [constructor|]. constructor.
  - apply IH. intros a b [i Hi]%list_elem_of_lookup_1. apply windows2_lookup in Hi as [Ha Hb].
    apply Hw. apply (list_elem_of_lookup_2 _ (S i)). by apply windows2_lookup.
  - destruct l as [|y l]; constructor. apply Hw. apply (list_elem_of_lookup_2 _ 0). by apply windows2_lookup.
Qed.

Lemma strict_sorted_NoDup {T} (c : T -> T -> comparison) `{!total_compare c} (l : list T) :
  StronglySorted (cmp_lt c) l -> NoDup l.
Proof.
  induction 1 as [|x l _ IH Hx]; [constructor|]. constructor; [|done]. intros Hin. rewrite Forall_forall in Hx.
  by apply (cmp_lt_irrefl c x), Hx.
Qed.
