(* ===== verification/IndexSort.v ===== *)
(** * Sorting in the index

    [radix_sort_unique_rows] of [index/mod.rs] and the merge sort of
    [index/sorting.rs], which checks for cancellation as it goes.  Both are
    compared with what a sort is: the same elements, in order. *)

From stdpp Require Import prelude list sorting strings.
From Stdlib Require Import ZArith Lia Strings.Byte Sorted.
From S2P Require Import Prelude Prog Control FlightContext FlightSort Answers Index Orders.
Local Open Scope string_scope.
Local Open Scope list_scope.
Local Open Scope Z_scope.

(** ** Row numbers by radix *)

(** The rows of a list, each once and in order. *)
Definition rows_of (rows out : list nat) : Prop :=
  StronglySorted lt out /\ forall x, x ∈ out <-> x ∈ rows.
Definition in_usize (row : nat) : Prop := Z.of_nat row <= usize_max.

Lemma row_digit_range p i : (row_digit p i < 256)%nat.
Proof. unfold row_digit. pose proof (Z.mod_pos_bound (Z.of_nat i / 256 ^ Z.of_nat p) 256). lia. Qed.

Lemma low_key_row p i : low_key row_digit p i = Z.of_nat i mod 256 ^ Z.of_nat p.
Proof.
  induction p as [|p IH]; [cbn; by rewrite Z.mod_1_r|]. cbn [low_key]. rewrite IH. unfold row_digit.
  pose proof (Z.mod_pos_bound (Z.of_nat i / 256 ^ Z.of_nat p) 256).
  rewrite Z2Nat.id by lia. rewrite Nat2Z.inj_succ, Z.pow_succ_r by lia.
  rewrite (Z.mul_comm 256), Z.rem_mul_r by (try apply Z.pow_nonzero; lia). lia.
Qed.

Lemma low_key_whole i : in_usize i -> low_key row_digit 8 i = Z.of_nat i.
Proof.
  intros Hi. rewrite low_key_row. apply Z.mod_small. unfold in_usize, usize_max, u64_max in Hi.
  split; [lia|]. change (256 ^ Z.of_nat 8) with 18446744073709551616. lia.
Qed.

(** A pass keeps the order of the passes before. *)
Lemma distribute_le p l :
  StronglySorted (fun x y => low_key row_digit p x <= low_key row_digit p y) l ->
  StronglySorted (fun x y => low_key row_digit (S p) x <= low_key row_digit (S p) y) (distribute row_digit p l).
Proof.
  intros Hl. apply Sorted_concat; [|apply seq_sorted|].
  - intros b _. pose proof (Sorted_filter _ (fun i => (row_digit p i =? b)%nat) _ Hl) as Hf.
    assert (Forall (fun i => row_digit p i = b) (bucket row_digit p b l)) as Hb
      by (apply Forall_forall; intros i Hi; by apply bucket_elem in Hi as [_ ?]).
    change (List.filter _ l) with (bucket row_digit p b l) in Hf.
    induction Hf as [|i m _ IH Hi]; [constructor|]. apply Forall_cons in Hb as [Hb Hbs].
    constructor; [by apply IH|]. rewrite Forall_forall in *. intros j Hj.
    specialize (Hi j Hj). specialize (Hbs j Hj). cbn [low_key]. rewrite Hb, Hbs. lia.
  - intros b c x y Hbc [_ Hx]%bucket_elem [_ Hy]%bucket_elem. cbn [low_key].
    pose proof (low_key_range row_digit row_digit_range p x). pose proof (low_key_range row_digit row_digit_range p y).
    rewrite Hx, Hy. nia.
Qed.

Lemma exclusive_sums_lookup counts : forall position b c,
  counts !! b = Some c -> exclusive_sums position counts !! b = Some (position + list_sum (take b counts))%nat.
Proof.
  induction counts as [|count counts IH]; intros position [|b] c Hb; try done; cbn in *.
  - by rewrite Nat.add_0_r.
  - rewrite (IH _ b c Hb). f_equal. unfold list_sum. lia.
Qed.
Lemma length_exclusive_sums counts : forall position, length (exclusive_sums position counts) = length counts.
Proof. induction counts as [|c counts IH]; intros position; [done|]. cbn. by rewrite IH. Qed.

Lemma exclusive_sums_positions counts : length counts = 256%nat -> exclusive_sums 0 counts = prefix_positions counts.
Proof.
  intros Hlen. assert (length (prefix_positions counts) = 256%nat) as Hpos.
  { unfold prefix_positions. generalize (seq 1 255). intros l.
    enough (forall ps : list nat, length ps = 256%nat ->
      length (foldl (fun ps i => <[i := (ps !!! (i - 1) + counts !!! (i - 1))%nat]> ps) ps l) = 256%nat) as Hgo by by apply Hgo.
    induction l as [|i l IH]; intros ps Hps; [done|]. cbn [foldl]. apply IH. by rewrite length_insert. }
  apply list_eq. intros b. destruct (decide (b < 256)%nat) as [Hb|Hb].
  - destruct (lookup_lt_is_Some_2 counts b) as [c Hc]; [lia|].
    by rewrite (exclusive_sums_lookup _ _ _ _ Hc), prefix_positions_lookup.
  - rewrite !lookup_ge_None_2; [done|lia|rewrite length_exclusive_sums; lia].
Qed.

Section radix.
Context {W : Type} `{WorkGuard W} `{Allocator W}.
Abbreviation M := (Prog W IndexError unit).
Abbreviation buckets := (FlightSort.buckets row_digit).

Lemma answers_pay (n : nat) : answers (W := W) (consume_row_work n) (fun _ => True) index_refused.
Proof. by apply answers_row_work. Qed.

Lemma answers_count p rows :
  answers (W := W) (count_digits p rows) (fun counts => counts = map length (buckets p rows)) index_refused.
Proof.
  apply (answers_chunked_fold index_refused _ _ _ _ (fun done counts => counts = map length (buckets p done))); [apply answers_pay|done|].
  intros done row rest counts _ ->. apply answers_bind.
  pose proof (row_digit_range p row) as Hb.
  apply (answers_row_at _ _ _ _ _ (counts_lookup row_digit p done _ Hb)).
  apply answers_store_at; [by rewrite length_counts|]. apply counts_snoc.
Qed.

Lemma answers_scatter p rows scratch : length scratch = length rows ->
  answers (W := W) (scatter_digits p rows scratch (prefix_positions (map length (buckets p rows))))
    (fun filled => fst filled = distribute row_digit p rows) index_refused.
Proof.
  intros Hlen. eapply answers_mono.
  - apply (answers_chunked_fold index_refused _ rows _ _ (fun done st => scattered row_digit p rows done (fst st) (snd st)));
      [apply answers_pay|by apply (scattered_start row_digit row_digit_range)|].
    intros done row rest [sc ps] Hsplit Hst. cbn [fst snd] in *.
    destruct (scattered_step row_digit row_digit_range _ _ _ _ _ _ _ Hsplit Hst) as (slot & Hslot & Hroom & Hnext).
    apply answers_bind. apply (answers_row_at _ _ _ _ _ Hslot).
    apply answers_bind, answers_store_at; [done|].
    apply answers_bind, answers_store_at; [destruct Hst as [-> _]; apply row_digit_range|]. by apply answers_ret.
  - intros [sc ps] Hend. by apply (scattered_end row_digit) in Hend.
Qed.

Lemma answers_digit_pass p rows scratch : length scratch = length rows ->
  answers (W := W) (digit_pass (rows, scratch) p) (fun st => st = (distribute row_digit p rows, rows)) index_refused.
Proof.
  intros Hlen. apply answers_bind. eapply answers_mono; [apply answers_count|]. intros ? ->.
  apply answers_bind, answers_row_work; [done|]. rewrite exclusive_sums_positions by apply length_counts.
  apply answers_bind. eapply answers_mono; [by apply answers_scatter|]. intros [sc ps] Hsc. cbn in Hsc. subst sc.
  by apply answers_ret.
Qed.

(** All passes: a sort of the rows. *)
Lemma answers_passes rows passes :
  answers (W := W) (fold_each (seq 0 passes) (rows, replicate (length rows) 0%nat) digit_pass)
    (fun st => fst st ≡ₚ rows /\ StronglySorted (fun x y => low_key row_digit passes x <= low_key row_digit passes y) (fst st))
    index_refused.
Proof.
  eapply answers_mono.
  - apply (answers_fold index_refused (seq 0 passes) _ _ (fun done st => exists p, done = seq 0 p /\ fst st ≡ₚ rows
      /\ length (snd st) = length rows
      /\ StronglySorted (fun x y => low_key row_digit p x <= low_key row_digit p y) (fst st))).
    + exists 0%nat. cbn. split_and!; [done..|apply length_replicate|].
      clear. induction rows as [|r rows IH]; constructor; [done|]. apply Forall_forall. lia.
    + intros done p rest [rs sc] Hseq (q & -> & Hperm & Hlen & Hsorted). cbn [fst snd] in *.
      destruct (seq_position _ _ _ _ _ Hseq) as [-> _]. rewrite length_seq, Nat.add_0_l.
      eapply answers_mono; [apply answers_digit_pass; by rewrite Hperm|]. intros ? ->. exists (S q). cbn [fst snd].
      split_and!; [by rewrite seq_S| |by rewrite Hperm|by apply distribute_le].
      by rewrite (distribute_perm row_digit row_digit_range).
  - intros st (p & Hp & Hperm & _ & Hsorted). apply (f_equal length) in Hp. rewrite !length_seq in Hp. by subst p.
Qed.

(** The state of the in-place dedup once [k] rows were looked at. *)
Definition deduped (rows : list nat) (k : nat) (buffer : list nat * nat) : Prop :=
  length (fst buffer) = length rows /\ (1 <= snd buffer <= k)%nat
  /\ (forall i, (k <= i)%nat -> fst buffer !! i = rows !! i)
  /\ fst buffer !! (snd buffer - 1)%nat = rows !! (k - 1)%nat
  /\ rows_of (take k rows) (take (snd buffer) (fst buffer)).

Lemma deduped_turn rows k buffer : (1 <= k < length rows)%nat ->
  StronglySorted (fun x y => Z.of_nat x <= Z.of_nat y) rows -> deduped rows k buffer ->
  answers (W := W) (dedup_turn buffer k) (deduped rows (S k)) index_refused.
Proof.
  intros Hk Hsorted (Hlen & Hout & Hrest & Hlast & Hrows). destruct buffer as [buf output]. cbn [fst snd] in *.
  destruct (lookup_lt_is_Some_2 rows k) as [row Hrow]; [lia|].
  destruct (lookup_lt_is_Some_2 rows (k - 1)) as [kept Hkept]; [lia|]. rewrite Hkept in Hlast.
  apply answers_bind. apply (answers_row_at _ _ _ row); [by rewrite Hrest|].
  apply answers_bind. apply (answers_row_at _ _ _ kept); [done|].
  assert (take (S k) rows = take k rows ++ [row]) as Htake by (by apply take_S_r).
  destruct (Nat.eqb_spec row kept) as [->|Hne]; cbn [negb].
  - apply answers_ret. split_and!; cbn [fst snd]; [done|lia|lia| |by rewrite Nat.sub_succ, Nat.sub_0_r, Hlast|].
    + intros i Hi. apply Hrest. lia.
    + destruct Hrows as [Hs Hin]. split; [done|]. intros x. rewrite Htake, elem_of_app, list_elem_of_singleton, Hin.
      split; [by left|]. intros [?| ->]; [done|]. apply Hin. apply (list_elem_of_lookup_2 _ (output - 1)).
      rewrite lookup_take_lt by lia. done.
  - apply answers_bind, answers_store_at; [lia|]. apply answers_ret.
    split_and!; cbn [fst snd]; [by rewrite length_insert|lia|lia|..].
    + intros i Hi. rewrite list_lookup_insert_ne by lia. apply Hrest. lia.
    + rewrite Nat.add_sub, list_lookup_insert_eq by lia. rewrite Nat.sub_succ, Nat.sub_0_r. done.
    + rewrite Nat.add_1_r, (take_S_r (<[output := row]> buf) output row) by (apply list_lookup_insert_eq; lia).
      rewrite take_insert_ge by lia. destruct Hrows as [Hs Hin]. split.
      * apply StronglySorted_app_2; [|done|repeat constructor]. intros x y Hx Hy%list_elem_of_singleton. subst y.
        apply Hin in Hx. apply list_elem_of_lookup_1 in Hx as [i Hi].
        assert (i < k)%nat as Hik by (apply lookup_lt_Some in Hi; rewrite length_take in Hi; lia).
        rewrite lookup_take_lt in Hi by done.
        pose proof (sorted_lookup _ _ (k - 1) k _ _ Hsorted ltac:(lia) Hkept Hrow) as Hkr. cbv beta in Hkr.
        destruct (decide (i = k - 1)%nat) as [->|]; [simplify_eq; lia|].
        pose proof (sorted_lookup _ _ i (k - 1) _ _ Hsorted ltac:(lia) Hi Hkept) as Hxk. cbv beta in Hxk. lia.
      * intros x. rewrite Htake, !elem_of_app, !list_elem_of_singleton, Hin. done.
Qed.

Lemma answers_radix rows : Forall in_usize rows ->
  answers (W := W) (radix_sort_unique_rows rows) (rows_of rows) index_refused.
Proof.
  intros Hsize. unfold radix_sort_unique_rows, radix_work_for. cbn [rw_passes].
  destruct (Nat.leb_spec 2 (length rows)) as [Hlen|Hlen]; cbn [Nat.mul Nat.eqb].
  2: { apply answers_ret. split; [|done]. destruct rows as [|r [|r' rows]]; cbn in Hlen; try lia; repeat constructor. }
  apply answers_bind, answers_reserve_new; [done|]. apply answers_bind. change (64 / 8 + 0)%nat with 8%nat.
  eapply answers_mono; [apply answers_passes|]. intros [sorted scratch] [Hperm Hsorted]. cbn [fst snd] in *.
  assert (StronglySorted (fun x y => Z.of_nat x <= Z.of_nat y) sorted) as Hs.
  { rewrite <- Hperm in Hsize. clear -Hsorted Hsize. induction Hsorted as [|x l _ IH Hx]; [constructor|].
    apply Forall_cons in Hsize as [Hxs Hls]. constructor; [by apply IH|].
    rewrite Forall_forall in *. intros y Hy. specialize (Hx y Hy). specialize (Hls y Hy).
    by rewrite !low_key_whole in Hx. }
  rewrite <- (Permutation_length Hperm) in Hlen. apply answers_bind. eapply answers_mono.
  - apply (answers_chunked_fold index_refused _ (seq 1 (length sorted - 1)) _ _
      (fun done buffer => deduped sorted (S (length done)) buffer)); [apply answers_pay| |].
    + destruct sorted as [|r l]; [cbn in Hlen; lia|]. split_and!; cbn [length fst snd]; try done; try lia.
      split; [repeat constructor|done].
    + intros done index rest buffer Hseq Hd. destruct (seq_position _ _ _ _ _ Hseq) as [-> Hi].
      rewrite length_app. cbn [length]. rewrite Nat.add_1_r. apply deduped_turn; [|done|done]. lia.
  - intros [buf output] (_ & _ & _ & _ & Hrows). apply answers_ret. cbn [fst snd] in *.
    rewrite length_seq in Hrows. rewrite take_ge in Hrows by lia. destruct Hrows as [Hst Hin].
    split; [done|]. intros x. by rewrite Hin, Hperm.
Qed.

End radix.

(** ** The merge sort *)

(** [sort_unstable_by] of the standard library: it may order equal elements either way. *)
Class UnstableSort := {
  sort_unstable_by : forall {T}, (T -> T -> comparison) -> list T -> list T;
  sort_unstable_perm {T} (compare : T -> T -> comparison) l : sort_unstable_by compare l ≡ₚ l;
  sort_unstable_sorted {T} (compare : T -> T -> comparison) l :
    total_compare compare -> StronglySorted (cmp_le compare) (sort_unstable_by compare l)
}.

Section merge_sort.
Context {W : Type} `{WorkGuard W} `{Allocator W} `{UnstableSort} {T : Type}.
Context (compare : T -> T -> comparison).
Abbreviation M := (Prog W IndexError unit).

(** [scratch.push(row)] and the checkpoint every 4096 outputs; [out] is the
    scratch and the number of outputs since the last checkpoint. *)
Definition merge_push (out : list T * nat) (row : T) : M (list T * nat) :=
  let scratch := fst out ++ [row] in
  if (snd out + 1 =? 4096)%nat then index_checkpoint ;! ret (scratch, 0%nat)
  else ret (scratch, (snd out + 1)%nat).

(** The three loops of a merge; one output per fuel unit in the first. *)
Fixpoint merge_loop (fuel : nat) (left right : list T) (out : list T * nat) : M (list T * nat) :=
  match fuel, left, right with
  | S fuel, l :: left', r :: right' =>
      match compare l r with
      | Gt => let! out := merge_push out r in merge_loop fuel left right' out
      | _ => let! out := merge_push out l in merge_loop fuel left' right out
      end
  | _, _, _ =>
      let! out := fold_each left out merge_push in
      fold_each right out merge_push
  end.

(** One round: each pair of neighbouring runs of [width] rows is merged. *)
Definition merge_round (width : nat) (rows : list T) : M (list T) :=
  fold_each (chunks (2 * width) rows) [] (fun scratch pair =>
    index_checkpoint ;!
    let left := take width pair in
    let right := drop width pair in
    let! out := merge_loop (length pair) left right (scratch, 0%nat) in
    ret (fst out)).

(** [while width < rows.len()]; the width doubles. *)
Fixpoint merge_rounds (fuel width : nat) (rows : list T) : M (list T) :=
  match fuel with
  | O => ret rows
  | S fuel =>
      if (width <? length rows)%nat then
        let! rows := merge_round width rows in
        merge_rounds fuel (2 * width) rows
      else ret rows
  end.

Definition SORT_CHUNK : nat := 4096.
Definition cancellable_sort_by (t : RustType) (rows : list T) : M (list T) :=
  let! rows := fold_each (chunks SORT_CHUNK rows) [] (fun sorted chunk =>
    index_checkpoint ;! ret (sorted ++ sort_unstable_by compare chunk)) in
  if (length rows <=? SORT_CHUNK)%nat then ret rows
  else
    index_reserve_new t (length rows) "merge-sort scratch allocation" ;!
    merge_rounds (length rows) SORT_CHUNK rows.

Context `{!total_compare compare}.

Lemma answers_merge_push out row :
  answers (W := W) (merge_push out row) (fun out' => fst out' = fst out ++ [row]) index_refused.
Proof.
  unfold merge_push. destruct (_ =? _)%nat; [|by apply answers_ret].
  apply answers_bind, answers_index_checkpoint; [done|]. by apply answers_ret.
Qed.

Lemma answers_merge_drain rows out :
  answers (W := W) (fold_each rows out merge_push) (fun out' => fst out' = fst out ++ rows) index_refused.
Proof.
  apply (answers_fold index_refused rows out merge_push (fun done out' => fst out' = fst out ++ done)); [by rewrite app_nil_r|].
  intros done x rest out' _ Ho. eapply answers_mono; [apply answers_merge_push|]. intros o ->. rewrite Ho. by rewrite <- app_assoc.
Qed.

Lemma answers_merge_loop fuel : forall left right out, (length left + length right <= fuel)%nat ->
  answers (W := W) (merge_loop fuel left right out)
    (fun out' => fst out' = fst out ++ list_merge (cmp_le compare) left right) index_refused.
Proof.
  assert (forall left right out, (left = [] \/ right = []) -> answers (W := W)
    (let! out := fold_each left out merge_push in fold_each right out merge_push)
    (fun out' => fst out' = fst out ++ list_merge (cmp_le compare) left right) index_refused) as Hdrain.
  { intros left right out Hnil. apply answers_bind. eapply answers_mono; [apply answers_merge_drain|].
    intros o1 Ho1. eapply answers_mono; [apply answers_merge_drain|]. intros o2 ->. rewrite Ho1, <- app_assoc. f_equal.
    destruct Hnil as [->| ->]; [by rewrite list_merge_nil_l|by rewrite list_merge_nil_r, app_nil_r]. }
  induction fuel as [|fuel IH]; intros left right out Hf.
  { destruct left; cbn in Hf; [|lia]. apply Hdrain. by left. }
  destruct left as [|l left]; [by apply Hdrain; left|]. destruct right as [|r right]; [by apply Hdrain; right|].
  cbn [merge_loop length] in *. rewrite list_merge_cons.
  destruct (compare l r) eqn:Hc.
  1, 2: rewrite decide_True by (unfold cmp_le; congruence); apply answers_bind; eapply answers_mono; [apply answers_merge_push|];
    intros o Ho; eapply answers_mono; [apply IH; cbn; lia|]; intros o' ->; rewrite Ho; by rewrite <- app_assoc.
  rewrite decide_False by (unfold cmp_le; congruence). apply answers_bind; eapply answers_mono; [apply answers_merge_push|];
    intros o Ho; eapply answers_mono; [apply IH; cbn; lia|]; intros o' ->; rewrite Ho; by rewrite <- app_assoc.
Qed.

(** A loop over the chunks that rebuilds each of them. *)
Lemma chunks_cons {X} k (xs : list X) : (0 < k)%nat -> xs <> [] -> chunks k xs = take k xs :: chunks k (drop k xs).
Proof.
  intros Hk Hx. unfold chunks. destruct xs as [|x xs]; [done|]. cbn [length chunks_go]. f_equal.
  assert (forall fuel (ys : list X), (length ys <= fuel)%nat -> chunks_go fuel k ys = chunks_go (length ys) k ys) as Hfuel.
  { induction fuel as [fuel IH] using lt_wf_ind. intros ys Hl. destruct ys as [|y ys]; [by destruct fuel|].
    destruct fuel as [|fuel]; [cbn in Hl; lia|]. cbn [length chunks_go]. cbn in Hl. f_equal.
    assert (length (drop k (y :: ys)) <= length ys)%nat by (rewrite length_drop; cbn; lia).
    rewrite (IH fuel) by lia. rewrite (IH (length ys)) by lia. done. }
  rewrite Hfuel; [done|]. rewrite length_drop. cbn. lia.
Qed.

Lemma chunks_app {X} k (l1 l2 : list X) : (0 < k)%nat -> length l1 = k -> chunks k (l1 ++ l2) = l1 :: chunks k l2.
Proof.
  intros Hk Hl. rewrite chunks_cons by (try lia; by destruct l1; [cbn in Hl; lia|]).
  by rewrite take_app_length', drop_app_length'.
Qed.

Lemma chunks_short {X} k (xs : list X) : (0 < length xs <= k)%nat -> chunks k xs = [xs].
Proof.
  intros Hl. rewrite chunks_cons by (try lia; by destruct xs; [cbn in Hl; lia|]).
  by rewrite take_ge, drop_ge by lia.
Qed.

Lemma answers_rebuild k (P : list T -> Prop) (f : list T -> list T -> M (list T)) : (0 < k)%nat ->
  forall rows scratch,
    (forall c s, c ∈ chunks k rows ->
       answers (W := W) (f s c) (fun out => exists m, out = s ++ m /\ m ≡ₚ c /\ P m) index_refused) ->
    answers (W := W) (fold_each (chunks k rows) scratch f)
      (fun out => exists m, out = scratch ++ m /\ m ≡ₚ rows /\ Forall P (chunks k m)) index_refused.
Proof.
  intros Hk rows. remember (length rows) as n eqn:Hn. revert rows Hn.
  induction n as [n IH] using lt_wf_ind. intros rows -> scratch Hf.
  destruct (decide (rows = [])) as [->|Hne].
  { apply answers_ret. exists []. by rewrite app_nil_r. }
  rewrite chunks_cons in Hf |- * by done. cbn [fold_each]. apply answers_bind.
  eapply answers_mono; [apply Hf; left|]. intros s1 (m1 & -> & Hm1 & HP1).
  assert (length (drop k rows) < length rows)%nat by (rewrite length_drop; destruct rows; [done|cbn; lia]).
  eapply answers_mono; [eapply (IH _ ltac:(done) _ eq_refl); intros c s Hc; apply Hf; by right|].
  intros out (m2 & -> & Hm2 & HP2). exists (m1 ++ m2). split; [by rewrite <- app_assoc|]. split.
  { by rewrite Hm1, Hm2, take_drop. }
  pose proof (Permutation_length Hm1) as Hl1. rewrite length_take in Hl1.
  destruct (decide (k <= length rows)%nat) as [Hle|Hgt].
  - rewrite chunks_app by (try lia). by constructor.
  - rewrite drop_ge in Hm2 by lia. apply Permutation_nil_r in Hm2. subst m2. rewrite app_nil_r.
    rewrite chunks_short; [by constructor|]. destruct rows; [done|]. cbn in *. lia.
Qed.

(** The halves of a pair of sorted runs are sorted. *)
Lemma chunks_halves (P : list T -> Prop) w : (0 < w)%nat -> P [] -> forall rows : list T,
  Forall P (chunks w rows) -> Forall (fun c => P (take w c) /\ P (drop w c)) (chunks (2 * w) rows).
Proof.
  intros Hw Hnil rows. remember (length rows) as n eqn:Hn. revert rows Hn.
  induction n as [n IH] using lt_wf_ind. intros rows -> Hp.
  destruct (decide (rows = [])) as [->|Hne]; [constructor|].
  rewrite chunks_cons in Hp by done. apply Forall_cons in Hp as [Hp1 Hp].
  rewrite (chunks_cons (2 * w)) by (done || lia).
  assert (length (drop (2 * w) rows) < length rows)%nat by (rewrite length_drop; destruct rows; [done|cbn; lia]).
  assert (P (take w (drop w rows)) /\ Forall P (chunks w (drop w (drop w rows)))) as [Hp2 Hp3].
  { destruct (decide (drop w rows = [])) as [He|He]; [by rewrite He, take_nil, drop_nil|].
    rewrite chunks_cons in Hp by done. by apply Forall_cons in Hp. }
  constructor.
  - rewrite take_take, Nat.min_l by lia. split; [done|].
    replace (drop w (take (2 * w) rows)) with (take w (drop w rows)); [done|].
    replace (2 * w)%nat with (w + w)%nat by lia. by rewrite take_drop_commute.
  - eapply IH; [done|done|]. rewrite drop_drop in Hp3. by replace (2 * w)%nat with (w + w)%nat by lia.
Qed.

Lemma answers_merge_round w rows : (0 < w)%nat ->
  Forall (StronglySorted (cmp_le compare)) (chunks w rows) ->
  answers (W := W) (merge_round w rows)
    (fun out => out ≡ₚ rows /\ Forall (StronglySorted (cmp_le compare)) (chunks (2 * w) out)) index_refused.
Proof.
  intros Hw Hruns. apply chunks_halves in Hruns; [|done|constructor]. rewrite Forall_forall in Hruns.
  eapply answers_mono.
  - apply (answers_rebuild (2 * w) (StronglySorted (cmp_le compare))); [lia|]. intros c s Hc.
    destruct (Hruns c Hc) as [Hl Hr]. apply answers_bind, answers_index_checkpoint; [done|]. apply answers_bind.
    eapply answers_mono; [apply answers_merge_loop; by rewrite length_take, length_drop; lia|].
    intros out Hout. apply answers_ret. exists (list_merge (cmp_le compare) (take w c) (drop w c)).
    split; [done|]. split; [by rewrite merge_Permutation, take_drop|].
    apply Sorted_StronglySorted; [exact (cmp_le_trans compare)|]. apply (Sorted_list_merge (cmp_le compare)); by apply StronglySorted_Sorted.
  - intros out (m & -> & Hm & Hall). done.
Qed.

Lemma answers_merge_rounds fuel : forall w rows, (0 < w)%nat -> (length rows <= fuel + w)%nat ->
  Forall (StronglySorted (cmp_le compare)) (chunks w rows) ->
  answers (W := W) (merge_rounds fuel w rows)
    (fun out => out ≡ₚ rows /\ StronglySorted (cmp_le compare) out) index_refused.
Proof.
  assert (forall w rows, (length rows <= w)%nat -> Forall (StronglySorted (cmp_le compare)) (chunks w rows) ->
    StronglySorted (cmp_le compare) rows) as Hdone.
  { intros w rows Hl Hall. destruct (decide (rows = [])) as [->|Hne]; [constructor|].
    rewrite chunks_short in Hall; [by apply Forall_cons in Hall as [? _]|]. destruct rows; [done|cbn in *; lia]. }
  induction fuel as [|fuel IH]; intros w rows Hw Hf Hruns; cbn [merge_rounds].
  { apply answers_ret. split; [done|]. by apply (Hdone w). }
  destruct (Nat.ltb_spec w (length rows)) as [Hlt|Hge]; [|apply answers_ret; split; [done|by apply (Hdone w)]].
  apply answers_bind. eapply answers_mono; [by apply answers_merge_round|]. intros out [Hp Hall].
  eapply answers_mono; [apply IH; [lia|rewrite Hp; lia|done]|]. intros out' [Hp' Hs]. split; [by rewrite Hp', Hp|done].
Qed.

Lemma answers_cancellable_sort t rows :
  answers (W := W) (cancellable_sort_by t rows)
    (fun out => out ≡ₚ rows /\ StronglySorted (cmp_le compare) out) index_refused.
Proof.
  unfold cancellable_sort_by. assert (0 < SORT_CHUNK)%nat as Hk by (unfold SORT_CHUNK; lia). apply answers_bind.
  eapply answers_mono.
  - apply (answers_rebuild SORT_CHUNK (StronglySorted (cmp_le compare)) _ Hk). intros c s _.
    apply answers_bind, answers_index_checkpoint; [done|]. apply answers_ret. eexists. split; [done|].
    split; [apply sort_unstable_perm|by apply sort_unstable_sorted].
  - intros sorted (m & -> & Hm & Hall). cbn [app]. destruct (Nat.leb_spec (length m) SORT_CHUNK) as [Hle|Hgt].
    + apply answers_ret. split; [done|]. destruct (decide (m = [])) as [->|Hne]; [constructor|].
      rewrite chunks_short in Hall; [by apply Forall_cons in Hall as [? _]|]. destruct m; [done|cbn in *; lia].
    + apply answers_bind, answers_reserve_new; [done|].
      eapply answers_mono; [apply answers_merge_rounds; [done|lia|done]|]. intros out [Hp Hs]. split; [by rewrite Hp, Hm|done].
Qed.

End merge_sort.

(** One such sort, to run the index with. *)
Definition merge_unstable_sort : UnstableSort.
Proof.
  refine {| sort_unstable_by T compare l := merge_sort (cmp_le compare) l |}.
  - intros T compare l. apply merge_sort_Permutation.
  - intros T compare l Hc. apply (StronglySorted_merge_sort (cmp_le compare)); apply _.
Defined.
