(* ===== verification/Intervals.v ===== *)
(** * Memory accesses by address

    Models [qtrace-store/src/index/intervals.rs]: the accesses sorted by start,
    with the running maximum of their ends, kept a second time at the ends of
    blocks so that a query skips the blocks that end before it.  The queries are
    compared with a scan of all entries. *)

From stdpp Require Import prelude list sorting strings.
From Stdlib Require Import ZArith Lia Strings.Byte Sorted.
From S2P Require Import Prelude Prog Control FlightWire FlightContext FlightSort Answers Index Orders IndexSort.
Local Open Scope string_scope.
Local Open Scope list_scope.
Local Open Scope Z_scope.

Record LocatedOverlap := mkLocatedOverlap { lo_first : nat; lo_upper : nat; lo_work : Z }.
Record IntervalEntry := mkIntervalEntry { ie_start : Z; ie_end_exclusive : Z; ie_row : nat }.
Record IntervalIndex := mkIntervalIndex {
  ix_entries : list IntervalEntry;
  ix_prefix_max_end : list Z;
  ix_block_prefix_max_end : list Z;
  ix_block_rows : nat
}.
Record NormalizedPostingEstimate := mkEstimate { pe_rows : nat; pe_decode_work : Z }.

(** [(start, end_exclusive, row)] of both, compared. *)
Definition compare_entries (left right : IntervalEntry) : comparison :=
  then_with (ie_start left ?= ie_start right)
    (then_with (ie_end_exclusive left ?= ie_end_exclusive right) (ie_row left ?= ie_row right)%nat).

Definition div_ceil (n k : nat) : nat := ((n + (k - 1)) / k)%nat.

(** [Vec::dedup] *)
Fixpoint dedup (rows : list nat) : list nat :=
  match rows with
  | a :: (b :: _) as rest => if (a =? b)%nat then dedup rest else a :: dedup rest
  | _ => rows
  end.

Section intervals.
Context {W : Type} `{WorkGuard W} `{Allocator W} `{UnstableSort}.
Abbreviation M := (Prog W IndexError unit).

(** ** Building *)

Definition prefix_turn (st : list Z * Z) (item : nat * IntervalEntry) : M (list Z * Z) :=
  let '(prefix, maximum) := st in
  let '(ordinal, entry) := item in
  checkpoint_every ordinal ;!
  fail_if (ie_start entry >=? ie_end_exclusive entry) (index_invalid "empty interval entered the overlap index") ;!
  let maximum := Z.max maximum (ie_end_exclusive entry) in
  ret (prefix ++ [maximum], maximum).

Definition block_turn (count block_rows : nat) (prefix : list Z) (blocks : list Z) (block : nat) : M (list Z) :=
  checkpoint_every block ;!
  let stop := Nat.min ((block + 1) * block_rows) count in
  let! maximum := row_at prefix (stop - 1) in
  ret (blocks ++ [maximum]).

Definition interval_build (entries : list IntervalEntry) (block_rows : nat) : M IntervalIndex :=
  fail_if ((block_rows =? 0)%nat || negb (is_power_of_two (Z.of_nat block_rows)))
    (index_invalid "interval block rows must be a non-zero power of two") ;!
  let! entries := cancellable_sort_by compare_entries T_IntervalEntry entries in
  index_reserve_new T_u64 (length entries) "interval prefix allocation" ;!
  let! prefix := fold_each (imap pair entries) ([], 0) prefix_turn in
  let blocks := div_ceil (length entries) block_rows in
  index_reserve_new T_u64 blocks "interval block allocation" ;!
  let! block_prefix := fold_each (seq 0 blocks) [] (block_turn (length entries) block_rows (fst prefix)) in
  ret (mkIntervalIndex entries (fst prefix) block_prefix block_rows).

(** ** Queries *)

Context (ix : IntervalIndex).

(** The [while first < upper] loop; one turn per fuel unit. *)
Fixpoint prefix_loop (fuel : nat) (start : Z) (first upper : nat) (prefix_work : Z) : M (nat * Z) :=
  match fuel with
  | O => ret (first, prefix_work)
  | S fuel =>
      if (first <? upper)%nat then
        consume_row_work 1 ;!
        let! prefix_work := lift_option (checked_add u64_max prefix_work 1)
          (index_resource "memory prefix work overflow") in
        let! maximum := row_at (ix_prefix_max_end ix) first in
        if maximum >? start then ret (first, prefix_work)
        else prefix_loop fuel start (first + 1) upper prefix_work
      else ret (first, prefix_work)
  end.

Definition locate_bounded (start stop : Z) : M LocatedOverlap :=
  let! upper := guarded_partition_point_with_work (ix_entries ix) (fun entry => ie_start entry <? stop) in
  if (fst upper =? 0)%nat then ret (mkLocatedOverlap 0 0 (snd upper))
  else
    let! block := guarded_partition_point_with_work (ix_block_prefix_max_end ix) (fun maximum => maximum <=? start) in
    let first := Nat.min (fst block * ix_block_rows ix) (fst upper) in
    let! prefix := prefix_loop (S (fst upper)) start first (fst upper) 0 in
    let! work := lift_option (work ← checked_add u64_max (snd upper) (snd block); checked_add u64_max work (snd prefix))
      (index_resource "memory locator work overflow") in
    ret (mkLocatedOverlap (fst prefix) (fst upper) work).

Definition located_entries (located : LocatedOverlap) : list IntervalEntry :=
  take (lo_upper located - lo_first located) (drop (lo_first located) (ix_entries ix)).

Definition overlap_turn (start : Z) (max_rows count : nat) (entry : IntervalEntry) : M nat :=
  if ie_end_exclusive entry >? start then
    let! _ := lift_option (checked_add usize_max (Z.of_nat count) 1) (index_resource "memory result count overflow") in
    fail_if (max_rows <? count + 1)%nat (index_resource "bounded memory result exceeds row limit") ;!
    ret (count + 1)%nat
  else ret count.

Definition overlap_estimate_bounded (start stop : Z) (max_rows : nat) : M NormalizedPostingEstimate :=
  if start >? stop then throw (index_invalid "memory query is not a valid half-open range")
  else if start =? stop then ret (mkEstimate 0 0)
  else
    let! located := locate_bounded start stop in
    if (lo_upper located =? 0)%nat then ret (mkEstimate 0 (lo_work located))
    else
      let! count := chunked_fold consume_row_work (located_entries located) 0%nat (overlap_turn start max_rows) in
      let! span := lift_option (try_from u64_max (Z.of_nat (lo_upper located - lo_first located)))
        (index_resource "memory scan work overflow") in
      let! decode_work := lift_option
        (located_twice ← checked_mul u64_max (lo_work located) 2;
         span_twice ← checked_mul u64_max span 2;
         work ← checked_add u64_max located_twice span_twice;
         radix ← match radix_total (radix_work_for count) with Ok total => Some total | Err _ => None end;
         checked_add u64_max work radix)
        (index_resource "memory decode work overflow") in
      ret (mkEstimate count decode_work).

Definition overlap_count_bounded (start stop : Z) (max_rows : nat) : M nat :=
  let! estimate := overlap_estimate_bounded start stop max_rows in
  ret (pe_rows estimate).

Definition collect_turn (start : Z) (st : list nat * bool) (entry : IntervalEntry) : M (list nat * bool) :=
  let '(rows, ordered) := st in
  if ie_end_exclusive entry >? start then
    let ordered := ordered && match last rows with Some previous => (previous <? ie_row entry)%nat | None => true end in
    ret (rows ++ [ie_row entry], ordered)
  else ret st.

Definition overlaps_bounded (start stop : Z) (max_rows : nat) : M (list nat) :=
  if start >? stop then throw (index_invalid "memory query is not a valid half-open range")
  else if start =? stop then ret []
  else
    let! located := locate_bounded start stop in
    if (lo_upper located =? 0)%nat then ret []
    else
      let! count := overlap_count_bounded start stop max_rows in
      index_reserve_new T_usize count "bounded memory result allocation" ;!
      let! found := chunked_fold consume_row_work (located_entries located) ([], true) (collect_turn start) in
      if negb (snd found) then radix_sort_unique_rows (fst found) else ret (fst found).

(** [overlaps], with the standard library's searches and sort. *)
Definition overlaps (start stop : Z) : result IndexError (list nat) :=
  if start >? stop then Err (index_invalid "memory query is not a valid half-open range")
  else if start =? stop then Ok []
  else
    let upper := count_while (fun entry => ie_start entry <? stop) (ix_entries ix) in
    if (upper =? 0)%nat then Ok []
    else
      let first_block := count_while (fun maximum => maximum <=? start) (ix_block_prefix_max_end ix) in
      let first := Nat.min (first_block * ix_block_rows ix) upper in
      let first := (first + count_while (fun maximum => maximum <=? start)%Z
                              (take (upper - first) (drop first (ix_prefix_max_end ix))))%nat in
      let rows := map ie_row (List.filter (fun entry => ie_end_exclusive entry >? start)
                                (take (upper - first) (drop first (ix_entries ix)))) in
      Ok (dedup (sort_unstable_by Nat.compare rows)).

End intervals.

(** ** The reference: a scan of all entries *)

Definition overlapping (start stop : Z) (e : IntervalEntry) : bool :=
  Z.max (ie_start e) start <? Z.min (ie_end_exclusive e) stop.
Definition hits (start stop : Z) (entries : list IntervalEntry) : list IntervalEntry :=
  List.filter (overlapping start stop) entries.
Definition proper_entry (e : IntervalEntry) : Prop := ie_start e < ie_end_exclusive e.

(** The running maximum of the ends. *)
Fixpoint maxima (m : Z) (entries : list IntervalEntry) : list Z :=
  match entries with
  | [] => []
  | e :: entries => Z.max m (ie_end_exclusive e) :: maxima (Z.max m (ie_end_exclusive e)) entries
  end.
Definition block_end (n block_rows b : nat) : nat := Nat.min ((b + 1) * block_rows) n.

(** A well-formed index of some entries. *)
Record indexed (entries : list IntervalEntry) (ix : IntervalIndex) : Prop := mkIndexed {
  id_perm : ix_entries ix ≡ₚ entries;
  id_sorted : StronglySorted (fun a b => ie_start a <= ie_start b) (ix_entries ix);
  id_proper : Forall proper_entry (ix_entries ix);
  id_prefix : ix_prefix_max_end ix = maxima 0 (ix_entries ix);
  id_block_rows : (0 < ix_block_rows ix)%nat;
  id_blocks : ix_block_prefix_max_end ix
    = map (fun b => ix_prefix_max_end ix !!! (block_end (length (ix_entries ix)) (ix_block_rows ix) b - 1)%nat)
        (seq 0 (div_ceil (length (ix_entries ix)) (ix_block_rows ix)))
}.

Lemma length_maxima entries : forall m, length (maxima m entries) = length entries.
Proof. induction entries as [|e entries IH]; intros m; [done|]. cbn. by rewrite IH. Qed.

Lemma maxima_covers entries : forall m j v, maxima m entries !! j = Some v ->
  m <= v /\ (forall i e, (i <= j)%nat -> entries !! i = Some e -> ie_end_exclusive e <= v)
  /\ (forall i u, (i <= j)%nat -> maxima m entries !! i = Some u -> u <= v).
Proof.
  induction entries as [|e entries IH]; intros m j v Hj; [done|]. cbn [maxima] in *. destruct j as [|j].
  - cbn in Hj. injection Hj as <-. split_and!; [lia|..]; (intros [|i] x Hi Hx; [cbn in Hx; injection Hx as <-; lia|lia]).
  - cbn in Hj. destruct (IH _ _ _ Hj) as (Hm & He & Hu). split_and!; [lia|..].
    + intros [|i] x Hi Hx; [cbn in Hx; injection Hx as <-; lia|]. apply (He i); [lia|done].
    + intros [|i] x Hi Hx; [cbn in Hx; injection Hx as <-; lia|]. apply (Hu i); [lia|done].
Qed.

Lemma maxima_app a b : forall m, maxima m (a ++ b) = maxima m a ++ maxima (foldl (fun m e => Z.max m (ie_end_exclusive e)) m a) b.
Proof. induction a as [|e a IH]; intros m; [done|]. cbn. by rewrite IH. Qed.

Lemma count_while_le {X} (f : X -> bool) l : (count_while f l <= length l)%nat.
Proof. induction l as [|x l IH]; cbn; [lia|]. destruct (f x); cbn; lia. Qed.
Lemma count_while_before {X} (f : X -> bool) l i v : (i < count_while f l)%nat -> l !! i = Some v -> f v = true.
Proof.
  revert i. induction l as [|x l IH]; intros i Hi Hv; [done|]. cbn in Hi. destruct (f x) eqn:Hx; [|lia].
  destruct i as [|i]; [by injection Hv as <-|]. apply (IH i); [lia|done].
Qed.
Lemma count_while_after {X} (f : X -> bool) l i v :
  StronglySorted (fun x y => f y = true -> f x = true) l ->
  (count_while f l <= i)%nat -> l !! i = Some v -> f v = false.
Proof.
  intros Hs. revert i. induction Hs as [|x l _ IH Hx]; intros i Hi Hv; [done|]. cbn in Hi.
  destruct (f x) eqn:Hfx.
  - destruct i as [|i]; [lia|]. apply (IH i); [lia|done].
  - destruct i as [|i]; [by injection Hv as <-|]. rewrite Forall_forall in Hx.
    specialize (Hx v (list_elem_of_lookup_2 l i v Hv)). destruct (f v); [|done]. by specialize (Hx eq_refl).
Qed.

Lemma sorted_mono {A} (P Q : A -> A -> Prop) l : (forall x y, P x y -> Q x y) -> StronglySorted P l -> StronglySorted Q l.
Proof. apply Sorted_weaken. Qed.

Lemma block_end_range n k b : (0 < k)%nat -> (b < div_ceil n k)%nat -> (b * k < block_end n k b <= n)%nat.
Proof.
  unfold block_end, div_ceil. intros Hk Hb. assert (b * k < n)%nat; [|nia].
  pose proof (Nat.Div0.mul_div_le (n + (k - 1)) k). nia.
Qed.

Section queries.
Context {W : Type} `{WorkGuard W} `{Allocator W} `{UnstableSort}.
Context (entries : list IntervalEntry) (ix : IntervalIndex) (Hix : indexed entries ix).
Context (start stop : Z) (Hrange : start < stop).

Let upper := count_while (fun e => ie_start e <? stop) (ix_entries ix).
(** A place to start the scan: nothing before it reaches the query. *)
Definition starts_at (first : nat) : Prop :=
  (first <= upper)%nat
  /\ forall i e, (i < first)%nat -> ix_entries ix !! i = Some e -> ie_end_exclusive e <= start.

Lemma starts_sorted : StronglySorted (fun x y => (ie_start y <? stop) = true -> (ie_start x <? stop) = true) (ix_entries ix).
Proof. eapply sorted_mono; [|apply (id_sorted _ _ Hix)]. intros x y Hxy Hy. cbn in Hxy. lia. Qed.

Lemma prefix_lookup i : (i < length (ix_entries ix))%nat -> exists v, ix_prefix_max_end ix !! i = Some v.
Proof. intros Hi. apply lookup_lt_is_Some_2. by rewrite (id_prefix _ _ Hix), length_maxima. Qed.

Lemma prefix_bound j v : ix_prefix_max_end ix !! j = Some v -> v <= start ->
  forall i e, (i <= j)%nat -> ix_entries ix !! i = Some e -> ie_end_exclusive e <= start.
Proof.
  rewrite (id_prefix _ _ Hix). intros Hj Hv i e Hi He. destruct (maxima_covers _ _ _ _ Hj) as (_ & Hc & _).
  specialize (Hc i e Hi He). lia.
Qed.

Lemma block_ends b : (b < div_ceil (length (ix_entries ix)) (ix_block_rows ix))%nat ->
  (b * ix_block_rows ix < block_end (length (ix_entries ix)) (ix_block_rows ix) b <= length (ix_entries ix))%nat.
Proof. apply block_end_range, (id_block_rows _ _ Hix). Qed.

Lemma block_lookup b v : ix_block_prefix_max_end ix !! b = Some v ->
  (b < div_ceil (length (ix_entries ix)) (ix_block_rows ix))%nat
  /\ ix_prefix_max_end ix !! (block_end (length (ix_entries ix)) (ix_block_rows ix) b - 1)%nat = Some v.
Proof.
  rewrite (id_blocks _ _ Hix). intros Hv. change (map ?f ?l) with (f <$> l) in Hv.
  apply list_lookup_fmap_Some in Hv as (b' & -> & Hb). apply lookup_seq in Hb as [-> Hb]. cbn [Nat.add]. split; [done|].
  pose proof (block_ends b Hb) as He. destruct (prefix_lookup (block_end (length (ix_entries ix)) (ix_block_rows ix) b - 1)) as [w Hw]; [lia|].
  by rewrite (list_lookup_total_correct _ _ _ Hw).
Qed.

Lemma blocks_sorted : StronglySorted (fun x y => (y <=? start) = true -> (x <=? start) = true) (ix_block_prefix_max_end ix).
Proof.
  enough (forall i j x y, (i < j)%nat -> ix_block_prefix_max_end ix !! i = Some x ->
    ix_block_prefix_max_end ix !! j = Some y -> x <= y) as Hmono.
  { revert Hmono. generalize (ix_block_prefix_max_end ix). clear. intros l. induction l as [|x l IH]; intros Hmono; constructor.
    - apply IH. intros i j a b Hij Ha Hb. apply (Hmono (S i) (S j)); [lia|done|done].
    - apply Forall_forall. intros y [j Hj]%list_elem_of_lookup_1. specialize (Hmono 0%nat (S j) x y ltac:(lia) eq_refl Hj). lia. }
  intros i j x y Hij [Hib Hi]%block_lookup [Hjb Hj]%block_lookup.
  assert (block_end (length (ix_entries ix)) (ix_block_rows ix) i <= block_end (length (ix_entries ix)) (ix_block_rows ix) j)%nat
    by (unfold block_end; nia).
  rewrite (id_prefix _ _ Hix) in Hi, Hj. destruct (maxima_covers _ _ _ _ Hj) as (_ & _ & Hu).
  eapply Hu; [|exact Hi]. lia.
Qed.

(** Skipping the blocks that end before the query is safe. *)
Lemma blocks_skipped b : b = count_while (fun m => m <=? start) (ix_block_prefix_max_end ix) ->
  starts_at (Nat.min (b * ix_block_rows ix) upper).
Proof.
  intros Hb. split; [lia|]. intros i e Hi He. destruct b as [|b]; [lia|].
  destruct (lookup_lt_is_Some_2 (ix_block_prefix_max_end ix) b) as [v Hv].
  { pose proof (count_while_le (fun m => m <=? start) (ix_block_prefix_max_end ix)). lia. }
  pose proof (count_while_before (fun m => m <=? start) (ix_block_prefix_max_end ix) b v ltac:(lia) Hv) as Hle. cbn in Hle.
  apply block_lookup in Hv as [Hbn Hv]. apply (prefix_bound _ v Hv ltac:(lia) i); [|done].
  pose proof (block_ends b Hbn). apply lookup_lt_Some in He. unfold block_end in *. nia.
Qed.

Lemma upper_le : (upper <= length (ix_entries ix))%nat.
Proof. apply count_while_le. Qed.

(** The entries scanned and kept are those that overlap. *)
Lemma scan_hits first : starts_at first ->
  List.filter (fun e => ie_end_exclusive e >? start) (take (upper - first) (drop first (ix_entries ix)))
  = hits start stop (ix_entries ix).
Proof.
  intros [Hfu Hfirst]. pose proof upper_le as Hul.
  assert (forall l : list IntervalEntry, (forall e, e ∈ l -> overlapping start stop e = false) -> hits start stop l = []) as Hnone.
  { clear. induction l as [|e l IH]; intros Hl; [done|]. cbn. rewrite Hl by left. apply IH. intros e' He'. apply Hl. by right. }
  assert (ix_entries ix = take first (ix_entries ix)
    ++ take (upper - first) (drop first (ix_entries ix)) ++ drop upper (ix_entries ix)) as Hsplit.
  { rewrite <- (take_drop first (ix_entries ix)) at 1. f_equal.
    rewrite <- (take_drop (upper - first) (drop first (ix_entries ix))) at 1. f_equal. rewrite drop_drop. f_equal. lia. }
  rewrite Hsplit at 2. unfold hits. rewrite !List.filter_app.
  change (List.filter (overlapping start stop) (take first (ix_entries ix))) with (hits start stop (take first (ix_entries ix))).
  change (List.filter (overlapping start stop) (drop upper (ix_entries ix))) with (hits start stop (drop upper (ix_entries ix))).
  rewrite !Hnone.
  - rewrite app_nil_r. cbn [app]. apply List.filter_ext_in. intros e He%list_elem_of_In.
    assert (proper_entry e) as Hp.
    { pose proof (id_proper _ _ Hix) as Hall. rewrite Forall_forall in Hall. apply Hall.
      rewrite Hsplit. apply elem_of_app. right. apply elem_of_app. by left. }
    apply list_elem_of_lookup_1 in He as [i Hi]. apply lookup_take_Some in Hi as [Hi Hlt]. rewrite lookup_drop in Hi.
    pose proof (count_while_before (fun e => ie_start e <? stop) (ix_entries ix) (first + i) e ltac:(lia) Hi) as Hs. cbn in Hs.
    unfold overlapping, proper_entry in *. apply eq_true_iff_eq. rewrite Z.gtb_lt, Z.ltb_lt. lia.
  - intros e [i Hi]%list_elem_of_lookup_1. rewrite lookup_drop in Hi.
    pose proof (count_while_after _ _ _ e starts_sorted (Nat.le_add_r _ _) Hi) as Hs. cbn in Hs.
    unfold overlapping. lia.
  - intros e [i Hi]%list_elem_of_lookup_1. apply lookup_take_Some in Hi as [Hi Hlt].
    specialize (Hfirst i e Hlt Hi). unfold overlapping. lia.
Qed.

Lemma hits_rows : map ie_row (hits start stop (ix_entries ix)) ≡ₚ map ie_row (hits start stop entries).
Proof. apply Permutation_map, filter_perm, (id_perm _ _ Hix). Qed.

(** *** The guarded search *)

Lemma answers_prefix_loop fuel : forall first work, starts_at first -> (upper - first < fuel)%nat -> 0 <= work ->
  answers (W := W) (prefix_loop ix fuel start first upper work) (fun r => starts_at (fst r) /\ 0 <= snd r) index_refused.
Proof.
  induction fuel as [|fuel IH]; intros first work Hs Hf Hw; [lia|]. cbn [prefix_loop].
  destruct (Nat.ltb_spec first upper) as [Hlt|Hge]; [|by apply answers_ret].
  apply answers_bind, answers_row_work; [done|]. apply answers_bind, answers_option.
  destruct (checked_add u64_max work 1) as [work'|] eqn:Hadd; [|done]. apply checked_add_Some in Hadd as [-> _].
  pose proof upper_le. destruct (prefix_lookup first) as [v Hv]; [lia|].
  apply answers_bind. apply (answers_row_at _ _ _ v); [done|].
  destruct (Z.gtb_spec v start) as [Hgt|Hle]; [apply answers_ret; split; [done|cbn; lia]|].
  apply IH; [|lia|lia]. split; [lia|]. intros i e Hi He. apply (prefix_bound _ v Hv ltac:(lia) i); [lia|done].
Qed.

Lemma answers_locate :
  answers (W := W) (locate_bounded ix start stop)
    (fun l => lo_upper l = upper /\ starts_at (lo_first l) /\ 0 <= lo_work l) index_refused.
Proof.
  unfold locate_bounded. apply answers_bind. pose proof upper_le as Hul.
  apply (answers_partition _ ltac:(done) _ _ upper); [done|..].
  { intros i v Hi Hv. by apply (count_while_before (fun e => ie_start e <? stop) _ i v Hi). }
  { intros i v Hi Hv. by apply (count_while_after _ _ i v starts_sorted). }
  intros work Hw. cbn [fst snd]. destruct (Nat.eqb_spec upper 0) as [Hz|Hnz].
  { apply answers_ret. cbn. split_and!; [done| |done]. split; [cbn; lia|]. intros i e Hi. cbn in Hi. lia. }
  set (b := count_while (fun m => m <=? start) (ix_block_prefix_max_end ix)).
  apply answers_bind. apply (answers_partition _ ltac:(done) _ _ b); [apply count_while_le|..].
  { intros i v Hi Hv. by apply (count_while_before (fun m => m <=? start) _ i v Hi). }
  { intros i v Hi Hv. by apply (count_while_after _ _ i v blocks_sorted). }
  intros work' Hw'. cbn [fst snd]. apply answers_bind.
  eapply answers_mono; [apply answers_prefix_loop; [by apply blocks_skipped|lia|lia]|].
  intros [first prefix] [Hfirst Hprefix]. cbn [fst snd] in *. apply answers_bind, answers_option.
  destruct (checked_add u64_max work work') as [t|] eqn:Ht; [|done]. cbn [mbind option_bind].
  destruct (checked_add u64_max t prefix) as [t'|] eqn:Ht'; [|done].
  apply checked_add_Some in Ht as [-> _], Ht' as [-> _]. apply answers_ret. cbn. split_and!; [done..|lia].
Qed.

Lemma answers_count_turns max_rows l :
  answers (W := W) (chunked_fold consume_row_work l 0%nat (overlap_turn start max_rows))
    (fun n => n = length (List.filter (fun e => ie_end_exclusive e >? start) l) /\ (n <= max_rows)%nat) index_refused.
Proof.
  apply (answers_chunked_fold index_refused _ l _ _ (fun done n =>
    n = length (List.filter (fun e => ie_end_exclusive e >? start) done) /\ (n <= max_rows)%nat));
    [apply answers_pay|by split; [|lia]|].
  intros done e rest n _ [-> Hmax]. rewrite List.filter_app, length_app. cbn [List.filter]. unfold overlap_turn.
  destruct (_ >? _); [|apply answers_ret; cbn; split; lia].
  apply answers_bind, answers_option. case_match; [|done].
  apply answers_bind, answers_fail_if; [|done]. intros Hle%Nat.ltb_ge. apply answers_ret. cbn [length]. lia.
Qed.

Lemma answers_collect l :
  answers (W := W) (chunked_fold consume_row_work l ([], true) (collect_turn start))
    (fun st => fst st = map ie_row (List.filter (fun e => ie_end_exclusive e >? start) l)
       /\ (snd st = true -> StronglySorted lt (fst st))) index_refused.
Proof.
  apply (answers_chunked_fold index_refused _ l _ _ (fun done st =>
    fst st = map ie_row (List.filter (fun e => ie_end_exclusive e >? start) done)
    /\ (snd st = true -> StronglySorted lt (fst st)))); [apply answers_pay|by split; [|constructor]|].
  intros done e rest [rows ordered] _ [Hrows Hord]. rewrite List.filter_app, map_app. cbn [List.filter fst snd] in *.
  unfold collect_turn. destruct (_ >? _); apply answers_ret; cbn [map fst snd]; [|by rewrite app_nil_r].
  split; [by rewrite Hrows|]. rewrite andb_true_iff. intros [Ho Hlast]. specialize (Hord Ho).
  apply StronglySorted_app_2; [|done|repeat constructor]. intros x y Hx Hy%list_elem_of_singleton. subst y.
  destruct (last rows) as [p|] eqn:Hp; [|apply last_None in Hp; rewrite Hp in Hx; by apply not_elem_of_nil in Hx].
  apply Nat.ltb_lt in Hlast. apply last_Some in Hp as [l' Hl']. rewrite Hl' in Hx, Hord. apply elem_of_app in Hx as [Hx|Hx%list_elem_of_singleton]; [|by subst x].
  eapply Nat.lt_trans; [|exact Hlast]. eapply StronglySorted_app_1_elem_of; [exact Hord|done|by left].
Qed.

End queries.

#[export] Instance compare_entries_total : total_compare compare_entries.
Proof. unfold compare_entries. apply _. Qed.

Lemma dedup_rows l : StronglySorted (cmp_le Nat.compare) l -> rows_of l (dedup l).
Proof.
  induction 1 as [|a l Hl IH Ha]; [split; [constructor|done]|]. destruct l as [|b l]; [split; [repeat constructor|done]|].
  destruct IH as [Hs Hin]. cbn [dedup]. destruct (Nat.eqb_spec a b) as [->|Hne].
  - split; [done|]. intros x. rewrite Hin, !elem_of_cons. naive_solver.
  - split.
    + constructor; [done|]. apply Forall_forall. intros x Hx%Hin.
      apply Forall_cons in Ha as [Hab Ha]. unfold cmp_le in Hab. rewrite Nat.compare_gt_iff in Hab.
      apply elem_of_cons in Hx as [->|Hx]; [lia|]. apply StronglySorted_inv in Hl as [_ Hb]. rewrite Forall_forall in Hb.
      specialize (Hb x Hx). unfold cmp_le in Hb. rewrite Nat.compare_gt_iff in Hb. lia.
    + intros x. rewrite elem_of_cons, Hin. set_solver.
Qed.

(** ** Building and asking *)

Definition buildable (entries : list IntervalEntry) (block_rows : nat) : Prop :=
  is_power_of_two (Z.of_nat block_rows) = true /\ Forall proper_entry entries.

Section theorem.
Context {W : Type} `{WorkGuard W} `{Allocator W} `{UnstableSort}.

Lemma answers_prefix (entries : list IntervalEntry) :
  answers (W := W) (fold_each (imap pair entries) ([], 0) prefix_turn)
    (fun st => fst st = maxima 0 entries /\ Forall proper_entry entries)
    (fun e => index_refused e \/ ~ Forall proper_entry entries).
Proof.
  pose proof (imap_pair_snd entries) as Hsnd. eapply answers_mono.
  - apply (answers_fold _ (imap pair entries) _ _ (fun done st => fst st = maxima 0 (map snd done)
      /\ snd st = foldl (fun m e => Z.max m (ie_end_exclusive e)) 0 (map snd done) /\ Forall proper_entry (map snd done)));
      [by split_and!|].
    intros done [i e] rest [prefix maximum] Hsplit (Hp & Hm & Hall). cbn [fst snd] in *. unfold prefix_turn.
    apply answers_bind, answers_checkpoint_every; [by left|]. apply answers_bind, answers_fail_if.
    + intros Hlt. apply answers_ret. cbn [fst snd]. rewrite map_app, maxima_app, foldl_app, <- Hm, Hp. cbn.
      split_and!; [done..|]. apply Forall_snoc; [done|]. unfold proper_entry. lia.
    + intros Hge. right. intros Hproper. rewrite <- Hsnd, Hsplit, map_app in Hproper. apply Forall_app in Hproper as [_ Hproper].
      apply Forall_cons in Hproper as [He _]. unfold proper_entry in He. cbn in He. lia.
  - intros st (Hp & _ & Hall). by rewrite Hsnd in Hp, Hall.
Qed.

Lemma answers_blocks n k prefix : (0 < k)%nat -> length prefix = n ->
  answers (W := W) (fold_each (seq 0 (div_ceil n k)) [] (block_turn n k prefix))
    (fun blocks => blocks = map (fun b => prefix !!! (block_end n k b - 1)%nat) (seq 0 (div_ceil n k))) index_refused.
Proof.
  intros Hk Hlen. apply (answers_fold _ (seq 0 (div_ceil n k)) _ _
    (fun done blocks => blocks = map (fun b => prefix !!! (block_end n k b - 1)%nat) done)); [done|].
  intros done b rest blocks Hseq ->. unfold block_turn. apply answers_bind, answers_checkpoint_every; [done|].
  assert (b < div_ceil n k)%nat as Hb.
  { assert (b ∈ seq 0 (div_ceil n k)) as Hin by (rewrite Hseq; set_solver). apply elem_of_seq in Hin. lia. }
  pose proof (block_end_range n k b Hk Hb) as Hr. fold (block_end n k b).
  destruct (lookup_lt_is_Some_2 prefix (block_end n k b - 1)) as [v Hv]; [lia|].
  apply answers_bind. apply (answers_row_at _ _ _ v); [done|]. apply answers_ret. rewrite map_app. cbn [map].
  by rewrite (list_lookup_total_correct _ _ _ Hv).
Qed.

Lemma answers_interval_build entries block_rows :
  answers (W := W) (interval_build entries block_rows)
    (fun ix => buildable entries block_rows /\ indexed entries ix)
    (fun e => index_refused e \/ ~ buildable entries block_rows).
Proof.
  unfold interval_build. apply answers_bind, answers_fail_if.
  2: { intros Hbad. right. intros [Hpow _]. rewrite Hpow, orb_false_r, Nat.eqb_eq in Hbad. by subst block_rows. }
  intros [Hz%Nat.eqb_neq Hpow%negb_false_iff]%orb_false_iff. apply answers_bind.
  eapply answers_weaken; [apply (answers_cancellable_sort compare_entries)| |by left].
  intros sorted [Hperm Hsorted]. apply answers_bind, answers_reserve_new; [by left|]. apply answers_bind.
  eapply answers_weaken; [apply answers_prefix| |].
  2: { intros e [?|Hbad]; [by left|]. right. intros [_ Hall]. by rewrite Hperm in Hbad. }
  intros [prefix maximum] [Hprefix Hproper]. cbn [fst] in *. apply answers_bind, answers_reserve_new; [by left|].
  apply answers_bind. eapply answers_weaken; [apply (answers_blocks (length sorted) block_rows prefix); [lia|]| |by left].
  { by rewrite Hprefix, length_maxima. }
  intros blocks ->. apply answers_ret. split; [split; [done|by rewrite <- Hperm]|].
  constructor; cbn; try done; [|lia]. eapply sorted_mono; [|exact Hsorted]. intros x y Hxy. unfold cmp_le, compare_entries in Hxy.
  destruct (Z.compare_spec (ie_start x) (ie_start y)); [lia|lia|done].
Qed.

(** What a query of an index of [entries] may answer. *)
Definition answer_ok (entries : list IntervalEntry) (start stop : Z) (rows : list nat) : Prop :=
  start <= stop /\ rows_of (map ie_row (hits start stop entries)) rows.

Lemma hits_empty entries start stop : stop <= start -> hits start stop entries = [].
Proof.
  intros Hle. induction entries as [|e entries IH]; [done|]. cbn.
  replace (overlapping start stop e) with false by (unfold overlapping; lia). done.
Qed.

Lemma rows_of_perm l l' out : l ≡ₚ l' -> rows_of l out -> rows_of l' out.
Proof. intros Hp [Hs Hin]. split; [done|]. intros x. by rewrite Hin, Hp. Qed.

Section asked.
Context (entries : list IntervalEntry) (ix : IntervalIndex) (Hix : indexed entries ix).
Context (Hsize : Forall (fun e => in_usize (ie_row e)) entries).
Context (start stop : Z) (max_rows : nat).

Lemma asked_hits : length (hits start stop (ix_entries ix)) = length (hits start stop entries).
Proof. rewrite <- !(length_map ie_row). apply Permutation_length, hits_rows, Hix. Qed.

Lemma asked_rows rows : start <= stop -> rows_of (map ie_row (hits start stop (ix_entries ix))) rows ->
  answer_ok entries start stop rows.
Proof. intros Hr Hrows. split; [done|]. by eapply rows_of_perm; [apply hits_rows, Hix|]. Qed.

Lemma no_upper : start < stop -> count_while (fun e => ie_start e <? stop) (ix_entries ix) = 0%nat ->
  hits start stop (ix_entries ix) = [].
Proof.
  intros Hr Hz. rewrite <- (scan_hits entries ix Hix start stop Hr 0); [by rewrite Hz|]. split; [lia|]. intros i e Hi. lia.
Qed.

Lemma overlaps_exact :
  match overlaps ix start stop with Ok rows => answer_ok entries start stop rows | Err _ => stop < start end.
Proof.
  unfold overlaps. destruct (Z.gtb_spec start stop) as [|Hle]; [done|]. destruct (Z.eqb_spec start stop) as [->|Hne].
  { split; [lia|]. rewrite hits_empty by lia. split; [constructor|done]. }
  assert (start < stop) as Hr by lia. destruct (Nat.eqb_spec (count_while (fun e => ie_start e <? stop) (ix_entries ix)) 0) as [Hz|Hnz].
  { apply asked_rows; [lia|]. rewrite no_upper by done. split; [constructor|done]. }
  set (first := (_ + _)%nat). assert (starts_at ix start stop first) as Hfirst.
  { unfold first. pose proof (blocks_skipped entries ix Hix start stop _ eq_refl) as [Hfu Hbefore].
    set (f0 := Nat.min _ _) in *. set (up := count_while (fun e => ie_start e <? stop) (ix_entries ix)) in *.
    pose proof (count_while_le (fun m => m <=? start) (take (up - f0) (drop f0 (ix_prefix_max_end ix)))) as Hl.
    rewrite length_take in Hl. split; [fold up; lia|]. intros i e Hi He.
    destruct (decide (i < f0)%nat) as [|Hge]; [by apply (Hbefore i e)|].
    destruct (prefix_lookup entries ix Hix i) as [v Hv]; [by eapply lookup_lt_Some|].
    refine (prefix_bound entries ix Hix start stop i v Hv _ i e (le_n _) He).
    enough ((v <=? start) = true) by lia.
    eapply (count_while_before (fun m => m <=? start) (take (up - f0) (drop f0 (ix_prefix_max_end ix))) (i - f0)); [lia|].
    rewrite lookup_take_lt by lia. rewrite lookup_drop. by replace (f0 + (i - f0))%nat with i by lia. }
  rewrite (scan_hits entries ix Hix start stop Hr first Hfirst). apply asked_rows; [lia|].
  eapply rows_of_perm; [apply (sort_unstable_perm Nat.compare)|]. apply dedup_rows, sort_unstable_sorted, nat_compare_total.
Qed.

Definition range_error (e : IndexError) : Prop := index_refused e \/ stop < start.

Lemma answers_estimate :
  answers (W := W) (overlap_estimate_bounded ix start stop max_rows)
    (fun est => start <= stop /\ pe_rows est = length (hits start stop entries)
       /\ (length (hits start stop entries) <= max_rows)%nat)
    range_error.
Proof.
  unfold overlap_estimate_bounded. destruct (Z.gtb_spec start stop) as [|Hle]; [by apply answers_throw; right|].
  destruct (Z.eqb_spec start stop) as [->|Hne].
  { apply answers_ret. rewrite hits_empty by lia. cbn. split_and!; lia. }
  assert (start < stop) as Hr by lia. apply answers_bind. eapply answers_weaken; [by apply (answers_locate entries ix Hix)| |by left].
  intros l (Hup & Hfirst & Hwork). rewrite Hup. rewrite <- asked_hits.
  destruct (Nat.eqb_spec (count_while (fun e => ie_start e <? stop) (ix_entries ix)) 0) as [Hz|Hnz].
  { apply answers_ret. rewrite no_upper by done. cbn. split_and!; lia. }
  unfold located_entries. rewrite Hup. apply answers_bind. eapply answers_weaken; [apply (answers_count_turns ix start stop)| |by left].
  intros n [-> Hmax]. rewrite (scan_hits entries ix Hix start stop Hr _ Hfirst) in Hmax |- *.
  apply answers_bind, answers_option. case_match; [|by left]. apply answers_bind, answers_option.
  match goal with |- match ?o with _ => _ end => destruct o as [work|] eqn:Ho end; [|by left].
  by apply answers_ret.
Qed.

Lemma answers_overlaps_bounded :
  answers (W := W) (overlaps_bounded ix start stop max_rows)
    (fun rows => answer_ok entries start stop rows /\ (length (hits start stop entries) <= max_rows)%nat) range_error.
Proof.
  unfold overlaps_bounded. destruct (Z.gtb_spec start stop) as [|Hle]; [by apply answers_throw; right|].
  destruct (Z.eqb_spec start stop) as [->|Hne].
  { apply answers_ret. unfold answer_ok. rewrite hits_empty by lia. split; [split; [lia|split; [constructor|done]]|cbn; lia]. }
  assert (start < stop) as Hr by lia. apply answers_bind. eapply answers_weaken; [by apply (answers_locate entries ix Hix)| |by left].
  intros l (Hup & Hfirst & Hwork). rewrite Hup.
  destruct (Nat.eqb_spec (count_while (fun e => ie_start e <? stop) (ix_entries ix)) 0) as [Hz|Hnz].
  { apply answers_ret. rewrite <- asked_hits. split; [apply asked_rows; [lia|]|]; rewrite no_upper by done; [split; [constructor|done]|cbn; lia]. }
  apply answers_bind. apply answers_bind. eapply answers_mono; [apply answers_estimate|].
  intros est (_ & _ & Hmax). apply answers_ret. apply answers_bind, answers_reserve_new; [by left|].
  unfold located_entries. rewrite Hup. apply answers_bind. eapply answers_weaken; [apply answers_collect| |by left].
  intros [rows ordered] [Hrows Hord]. cbn [fst snd] in *.
  rewrite (scan_hits entries ix Hix start stop Hr _ Hfirst) in Hrows.
  assert (forall out, rows_of rows out -> answer_ok entries start stop out) as Hok.
  { intros out Ho. apply asked_rows; [lia|]. by rewrite <- Hrows. }
  destruct ordered; cbn [negb].
  - apply answers_ret. split; [|done]. apply Hok. split; [by apply Hord|done].
  - eapply answers_weaken; [apply answers_radix| |by left]; [|intros out Ho; split; [by apply Hok|done]].
    rewrite Hrows. apply Forall_map, Forall_forall. intros e He. rewrite Forall_forall in Hsize. apply Hsize.
    unfold hits in He. rewrite list_elem_of_In, List.filter_In, <- list_elem_of_In in He. destruct He as [He _].
    by rewrite (id_perm _ _ Hix) in He.
Qed.

End asked.

(** C27: Building the index of memory accesses succeeds exactly on proper intervals
    and a power-of-two block size, up to refusals of the guard or the heap; then,
    whatever blocks and entries a query skips, [overlaps] and [overlaps_bounded]
    answer with the rows of exactly the accesses that share a byte with the range,
    each once and in order, and the estimate is the number of those accesses; the
    bounded queries refuse above their limit and a reversed range is an error. *)
Theorem interval_queries_exact (entries : list IntervalEntry) (block_rows : nat) (w : W) :
  Forall (fun e => in_usize (ie_row e)) entries ->
  match interval_build entries block_rows tt w with
  | (Ok ix, _, _) =>
      buildable entries block_rows
      /\ forall start stop max_rows w',
           match overlaps ix start stop with
           | Ok rows => answer_ok entries start stop rows
           | Err _ => stop < start
           end
           /\ match overlaps_bounded ix start stop max_rows tt w' with
              | (Ok rows, _, _) =>
                  answer_ok entries start stop rows /\ (length (hits start stop entries) <= max_rows)%nat
              | (Err e, _, _) => index_refused e \/ stop < start
              end
           /\ match overlap_estimate_bounded ix start stop max_rows tt w' with
              | (Ok est, _, _) =>
                  start <= stop /\ pe_rows est = length (hits start stop entries)
                  /\ (length (hits start stop entries) <= max_rows)%nat
              | (Err e, _, _) => index_refused e \/ stop < start
              end
  | (Err e, _, _) => index_refused e \/ ~ buildable entries block_rows
  end.
Proof.
  intros Hsize. pose proof (answers_interval_build entries block_rows w) as Hb.
  destruct (interval_build entries block_rows tt w) as [[[ix|e] []] w1]; [|done]. destruct Hb as [Hok Hix].
  split; [done|]. intros start stop max_rows w'. split_and!.
  - by apply overlaps_exact.
  - apply (answers_overlaps_bounded entries ix Hix Hsize start stop max_rows w').
  - apply (answers_estimate entries ix Hix start stop max_rows w').
Qed.

End theorem.

(** Four accesses in blocks of two. *)
Definition sample_entries : list IntervalEntry :=
  [mkIntervalEntry 0 4 3; mkIntervalEntry 2 10 1; mkIntervalEntry 20 30 2; mkIntervalEntry 1 3 0].

Lemma interval_queries_exact_witness :
  exists ix, interval_build (W := unit) (H1 := merge_unstable_sort) sample_entries 2 tt tt = (Ok ix, tt, tt)
    /\ buildable sample_entries 2
    /\ overlaps_bounded (W := unit) ix 3 21 10 tt tt = (Ok [1; 2; 3]%nat, tt, tt)
    /\ answer_ok sample_entries 3 21 [1; 2; 3]%nat.
Proof.
  assert (exists ix, interval_build (W := unit) (H1 := merge_unstable_sort) sample_entries 2 tt tt = (Ok ix, tt, tt)
    /\ overlaps_bounded (W := unit) ix 3 21 10 tt tt = (Ok [1; 2; 3]%nat, tt, tt)) as (ix & Hb & Hq)
    by (eexists; split; [vm_compute; reflexivity|vm_compute; reflexivity]).
  pose proof (@interval_queries_exact unit _ _ merge_unstable_sort sample_entries 2 tt) as Ht. rewrite Hb in Ht.
  destruct Ht as [Hok Hall]; [repeat constructor; unfold in_usize, usize_max, u64_max; cbn; lia|].
  exists ix. split_and!; [done|done|done|]. destruct (Hall 3 21 10%nat tt) as (_ & Hbounded & _). rewrite Hq in Hbounded. apply Hbounded.
Defined.
