(* ===== verification/Postings.v ===== *)
(** * Posting lists

    Models [qtrace-store/src/index/postings.rs] and the union of posting lists of
    [index/mod.rs]: the rows of a value as run-length encoded differences, and
    the set operations on decoded rows. *)

From stdpp Require Import prelude list sorting strings.
From Stdlib Require Import ZArith Lia Strings.Byte Sorted.
From S2P Require Import Prelude Prog Control FlightContext FlightSort Answers Index Orders IndexSort Intervals.
Local Open Scope string_scope.
Local Open Scope list_scope.
Local Open Scope Z_scope.

Record DeltaRun := mkDeltaRun { dr_delta : Z; dr_count : Z }.
Record PostingList := mkPostingList { pl_runs : Vec DeltaRun; pl_row_count : nat }.
Definition PostingList_default : PostingList := mkPostingList vec_new 0.

(** The loop of [from_runs]; [previous] is the delta of the run before. *)
Fixpoint runs_count (previous : option Z) (row_count : Z) (runs : list DeltaRun) : result IndexError Z :=
  match runs with
  | [] => Ok row_count
  | run :: runs =>
      if (dr_delta run =? 0) || (dr_count run =? 0) then Err (index_corrupt "posting run contains zero")
      else if bool_decide (previous = Some (dr_delta run)) then Err (index_corrupt "posting runs are not canonical")
      else match try_from usize_max (dr_count run) with
           | None => Err (index_corrupt "posting run count does not fit usize")
           | Some count =>
               match checked_add usize_max row_count count with
               | None => Err (index_corrupt "posting row count overflow")
               | Some row_count => runs_count (Some (dr_delta run)) row_count runs
               end
           end
  end.
Definition from_runs (runs : Vec DeltaRun) : result IndexError PostingList :=
  match runs_count None 0 (v_items runs) with
  | Ok row_count => Ok (mkPostingList runs (Z.to_nat row_count))
  | Err e => Err e
  end.

(** What [visit_deltas] visits. *)
Definition expand (runs : list DeltaRun) : list Z :=
  concat (map (fun run => replicate (Z.to_nat (dr_count run)) (dr_delta run)) runs).

Section postings.
Context {W : Type} `{WorkGuard W} `{Allocator W}.
Abbreviation M := (Prog W IndexError unit).

Definition visit_deltas {A} (posting : PostingList) (a : A) (visit : A -> Z -> M A) : M A :=
  fold_each (expand (v_items (pl_runs posting))) a visit.

(** [push_row]; the list and the row pushed last. *)
Definition push_row (st : PostingList * option Z) (row : nat) : M (PostingList * option Z) :=
  let '(posting, previous) := st in
  let! row := lift_option (try_from u64_max (Z.of_nat row)) (index_invalid "posting row does not fit u64") in
  let! delta :=
    match previous with
    | None => lift_option (checked_add u64_max row 1) (index_invalid "first posting delta overflow")
    | Some last => if row >? last then ret (row - last)
                   else throw (index_invalid "posting rows must be strictly increasing")
    end in
  let! count := lift_option (checked_add usize_max (Z.of_nat (pl_row_count posting)) 1)
    (index_resource "posting row count overflow") in
  let runs := v_items (pl_runs posting) in
  let! runs :=
    match last runs with
    | Some run =>
        if dr_delta run =? delta then
          let! count := lift_option (checked_add u64_max (dr_count run) 1) (index_resource "posting run overflow") in
          ret (mkVec (removelast runs ++ [mkDeltaRun delta count]) (v_capacity (pl_runs posting)))
        else
          let! capacity := index_reserve T_DeltaRun (pl_runs posting) 1 "posting-run allocation" in
          ret (mkVec (runs ++ [mkDeltaRun delta 1]) capacity)
    | None =>
        let! capacity := index_reserve T_DeltaRun (pl_runs posting) 1 "posting-run allocation" in
        ret (mkVec (runs ++ [mkDeltaRun delta 1]) capacity)
    end in
  ret (mkPostingList runs (Z.to_nat count), Some row).

Definition from_rows (rows : list nat) : M PostingList :=
  let! st := fold_each (imap pair rows) (PostingList_default, None) (fun st '(index, row) =>
    checkpoint_every index ;! push_row st row) in
  ret (fst st).

(** The closure of [rows]. *)
Definition rows_turn (rows : list nat) (delta : Z) : M (list nat) :=
  let! row :=
    match last rows with
    | None => lift_option (checked_sub delta 1) (index_corrupt "first posting delta underflow")
    | Some previous => lift_option (checked_add u64_max (Z.of_nat previous) delta) (index_corrupt "posting delta overflow")
    end in
  let! row := lift_option (try_from usize_max row) (index_corrupt "posting row does not fit usize") in
  ret (rows ++ [Z.to_nat row]).
Definition posting_rows (posting : PostingList) : M (list nat) :=
  (if (pl_row_count posting =? 0)%nat then ret 0
   else grow_as T_usize (Z.of_nat (pl_row_count posting)) (index_resource "posting decode allocation failed")) ;!
  visit_deltas posting [] rows_turn.

(** The closure of [bounded_posting_union]: [rows], [previous] and [visited]. *)
Definition union_turn (row_count : nat) (st : list nat * option Z * nat) (delta : Z) : M (list nat * option Z * nat) :=
  let '(rows, previous, visited) := st in
  (if Z.of_nat visited mod 4096 =? 0 then consume_row_work (Nat.min (row_count - visited) 4096) else ret tt) ;!
  fail_if (delta =? 0) (index_corrupt "posting delta is zero") ;!
  let! row :=
    match previous with
    | None => lift_option (checked_sub delta 1) (index_corrupt "first posting delta underflow")
    | Some previous => lift_option (checked_add u64_max previous delta) (index_corrupt "posting delta overflow")
    end in
  let! row := lift_option (try_from usize_max row) (index_corrupt "posting row does not fit usize") in
  ret (rows ++ [Z.to_nat row], Some row, (visited + 1)%nat).

Definition limit_turn (max_rows : nat) (total : Z) (posting : PostingList) : M Z :=
  consume_row_work 1 ;!
  lift_option (total ← checked_add usize_max total (Z.of_nat (pl_row_count posting));
               if total <=? Z.of_nat max_rows then Some total else None)
    (index_resource "bounded posting result exceeds row limit").

Definition bounded_posting_union (lists : list PostingList) (max_rows : nat) : M (list nat) :=
  let! total := fold_each lists 0 (limit_turn max_rows) in
  index_checkpoint ;!
  index_reserve_new T_usize (Z.to_nat total) "bounded posting decode allocation" ;!
  let! rows := fold_each lists [] (fun rows posting =>
    let! st := visit_deltas posting (rows, None, 0%nat) (union_turn (pl_row_count posting)) in
    ret (fst (fst st))) in
  if (1 <? length lists)%nat then radix_sort_unique_rows rows else ret rows.

End postings.

Definition union_rows `{UnstableSort} (lists : list (list nat)) : list nat :=
  dedup (sort_unstable_by Nat.compare (concat lists)).

(** The loop over both indices; one turn per fuel unit. *)
Fixpoint intersect_loop (fuel : nat) (left right output : list nat) : list nat :=
  match fuel, left, right with
  | S fuel, l :: left', r :: right' =>
      match (l ?= r)%nat with
      | Lt => intersect_loop fuel left' right output
      | Gt => intersect_loop fuel left right' output
      | Eq => intersect_loop fuel left' right' (output ++ [l])
      end
  | _, _, _ => output
  end.
Definition intersect_rows (left right : list nat) : list nat :=
  intersect_loop (length left + length right) left right [].

(** ** The reference *)

(** The differences of rows, from the row before the first, and back. *)
Fixpoint differences (previous : Z) (rows : list nat) : list Z :=
  match rows with
  | [] => []
  | row :: rows => (Z.of_nat row - previous) :: differences (Z.of_nat row) rows
  end.
Definition last_row (previous : Z) (rows : list nat) : Z := match last rows with Some r => Z.of_nat r | None => previous end.

Lemma differences_snoc rows row : forall previous,
  differences previous (rows ++ [row]) = differences previous rows ++ [Z.of_nat row - last_row previous rows].
Proof.
  unfold last_row. induction rows as [|r rows IH]; intros previous; [done|]. cbn [app differences]. rewrite IH.
  destruct rows as [|r' rows]; [done|]. change (last (r :: r' :: rows)) with (last (r' :: rows)).
  destruct (last (r' :: rows)) eqn:Hl; [done|]. by apply last_None in Hl.
Qed.

(** Runs as [push_row] leaves them: no zeros, and neighbours differ. *)
Fixpoint canonical_runs (previous : option Z) (runs : list DeltaRun) : Prop :=
  match runs with
  | [] => True
  | run :: runs => 0 < dr_delta run <= u64_max /\ 0 < dr_count run <= usize_max
                   /\ previous <> Some (dr_delta run) /\ canonical_runs (Some (dr_delta run)) runs
  end.
Definition encodable (rows : list nat) : Prop :=
  StronglySorted lt rows /\ Forall in_usize rows /\ head rows <> Some (Z.to_nat u64_max).
Record encodes (rows : list nat) (posting : PostingList) : Prop := mkEncodes {
  en_expand : expand (v_items (pl_runs posting)) = differences (-1) rows;
  en_count : pl_row_count posting = length rows;
  en_canonical : canonical_runs None (v_items (pl_runs posting));
  en_rows : encodable rows;
  en_length : Z.of_nat (length rows) <= usize_max
}.

Lemma expand_app a b : expand (a ++ b) = expand a ++ expand b.
Proof. unfold expand. by rewrite map_app, concat_app. Qed.
Lemma expand_one delta count : expand [mkDeltaRun delta count] = replicate (Z.to_nat count) delta.
Proof. unfold expand. cbn. apply app_nil_r. Qed.

Lemma canonical_app runs run : forall previous,
  canonical_runs previous (runs ++ [run])
  <-> canonical_runs previous runs /\ 0 < dr_delta run <= u64_max /\ 0 < dr_count run <= usize_max
      /\ match last runs with Some r => Some (dr_delta r) | None => previous end <> Some (dr_delta run).
Proof.
  induction runs as [|r runs IH]; intros previous; [cbn [app canonical_runs last]; tauto|]. cbn [app canonical_runs]. rewrite IH.
  destruct runs as [|r' runs]; [cbn [last canonical_runs]; tauto|]. change (last (r :: r' :: runs)) with (last (r' :: runs)).
  destruct (last (r' :: runs)) eqn:Hl; [tauto|]. by apply last_None in Hl.
Qed.

Lemma differences_lookup rows : forall previous k d, differences previous rows !! k = Some d ->
  exists r, rows !! k = Some r /\ d = Z.of_nat r - last_row previous (take k rows).
Proof.
  induction rows as [|r rows IH] using rev_ind; intros previous k d Hk; [done|]. rewrite differences_snoc in Hk.
  assert (length (differences previous rows) = length rows) as Hlen.
  { clear. revert previous. induction rows as [|x rows IH]; intros p; [done|]. cbn. by rewrite IH. }
  destruct (decide (k < length rows)%nat) as [Hlt|Hge].
  - rewrite lookup_app_l in Hk by lia. destruct (IH _ _ _ Hk) as (x & Hx & ->). exists x.
    rewrite lookup_app_l, take_app_le by lia. done.
  - rewrite lookup_app_r in Hk by lia. rewrite Hlen in Hk. apply lookup_lt_Some in Hk as Hb. cbn in Hb.
    replace (k - length rows)%nat with 0%nat in Hk by lia. injection Hk as <-. exists r.
    rewrite lookup_app_r by lia. replace (k - length rows)%nat with 0%nat by lia.
    by rewrite take_app_length' by lia.
Qed.

Lemma length_expand rows posting : encodes rows posting -> length (expand (v_items (pl_runs posting))) = length rows.
Proof.
  intros He. rewrite (en_expand _ _ He). generalize (-1). clear. induction rows as [|x rows IH]; intros p; [done|]. cbn. by rewrite IH.
Qed.

Section proofs.
Context {W : Type} `{WorkGuard W} `{Allocator W}.
Abbreviation M := (Prog W IndexError unit).

(** ** Encoding *)

Lemma encodes_nil : encodes [] PostingList_default.
Proof. split; cbn; try done. split; [constructor|]. by split; [constructor|]. Qed.

Definition fits (rows : list nat) (row : nat) : Prop :=
  match last rows with Some r => (r < row)%nat | None => Z.of_nat row < u64_max end.

Lemma encodable_snoc rows row : encodable rows -> in_usize row -> fits rows row -> encodable (rows ++ [row]).
Proof.
  intros (Hs & Hall & Hhead) Hr Hlast. unfold fits in Hlast. split_and!.
  - apply StronglySorted_app_2; [|done|repeat constructor]. intros x y Hx Hy%list_elem_of_singleton. subst y.
    destruct (last rows) as [p|] eqn:Hp; [|apply last_None in Hp; subst rows; by apply not_elem_of_nil in Hx].
    apply last_Some in Hp as [l ->]. apply elem_of_app in Hx as [Hx|Hx%list_elem_of_singleton]; [|by subst x].
    eapply Nat.lt_trans; [|exact Hlast]. eapply StronglySorted_app_1_elem_of; [exact Hs|done|by left].
  - by apply Forall_snoc.
  - destruct rows as [|x rows]; [|done]. cbn in Hlast |- *. intros [= ->]. lia.
Qed.

Lemma encodable_fits rows row rest : encodable (rows ++ row :: rest) -> in_usize row /\ fits rows row.
Proof.
  intros (Hs & Hall & Hhead). apply Forall_app in Hall as [_ [Hr _]%Forall_cons]. split; [done|]. unfold fits.
  destruct (last rows) as [p|] eqn:Hp.
  - apply last_Some_elem_of in Hp. eapply StronglySorted_app_1_elem_of; [exact Hs|done|by left].
  - apply last_None in Hp. subst rows. cbn in Hhead. unfold in_usize, usize_max in Hr.
    destruct (decide (Z.of_nat row = u64_max)) as [He|]; [|lia]. destruct Hhead. f_equal. lia.
Qed.

(** The list after one more row, whichever way its run is kept. *)
Lemma encodes_snoc rows row posting runs capacity :
  encodes rows posting -> in_usize row -> fits rows row -> Z.of_nat (pl_row_count posting) + 1 <= usize_max ->
  expand runs = expand (v_items (pl_runs posting)) ++ [Z.of_nat row - last_row (-1) rows] ->
  canonical_runs None runs ->
  encodes (rows ++ [row]) (mkPostingList (mkVec runs capacity) (Z.to_nat (Z.of_nat (pl_row_count posting) + 1))).
Proof.
  intros He Hr Hfit Hn Hexp Hcan. rewrite (en_count _ _ He) in *. constructor; cbn [pl_runs pl_row_count v_items].
  - by rewrite Hexp, (en_expand _ _ He), differences_snoc.
  - rewrite length_app. cbn. lia.
  - done.
  - by apply encodable_snoc; [apply (en_rows _ _ He)|..].
  - rewrite length_app. cbn [length]. lia.
Qed.

Lemma answers_push_row rows row posting :
  encodes rows posting -> in_usize row ->
  answers (W := W) (push_row (posting, Z.of_nat <$> last rows) row)
    (fun st => encodes (rows ++ [row]) (fst st) /\ snd st = Z.of_nat <$> last (rows ++ [row]))
    (fun e => index_refused e \/ ~ fits rows row).
Proof.
  intros He Hsize. unfold push_row. apply answers_bind, answers_option. unfold try_from, in_usize, usize_max in *.
  destruct (Z.leb_spec (Z.of_nat row) u64_max); [|lia]. apply answers_bind.
  assert (forall delta, delta = Z.of_nat row - last_row (-1) rows -> fits rows row ->
    answers (W := W)
      (let! count := lift_option (checked_add usize_max (Z.of_nat (pl_row_count posting)) 1) (index_resource "posting row count overflow") in
       let runs := v_items (pl_runs posting) in
       let! runs :=
         match last runs with
         | Some run =>
             if dr_delta run =? delta then
               let! count := lift_option (checked_add u64_max (dr_count run) 1) (index_resource "posting run overflow") in
               ret (mkVec (removelast runs ++ [mkDeltaRun delta count]) (v_capacity (pl_runs posting)))
             else
               let! capacity := index_reserve T_DeltaRun (pl_runs posting) 1 "posting-run allocation" in
               ret (mkVec (runs ++ [mkDeltaRun delta 1]) capacity)
         | None =>
             let! capacity := index_reserve T_DeltaRun (pl_runs posting) 1 "posting-run allocation" in
             ret (mkVec (runs ++ [mkDeltaRun delta 1]) capacity)
         end in
       ret (mkPostingList runs (Z.to_nat count), Some (Z.of_nat row)))
      (fun st => encodes (rows ++ [row]) (fst st) /\ snd st = Z.of_nat <$> last (rows ++ [row]))
      (fun e => index_refused e \/ ~ fits rows row)) as Hrest.
  { intros delta Hdelta Hfit. apply answers_bind, answers_option.
    destruct (checked_add usize_max (Z.of_nat (pl_row_count posting)) 1) as [count|] eqn:Hcount; [|by left].
    apply checked_add_Some in Hcount as [-> Hcount]. rewrite last_snoc. cbn [fmap option_fmap option_map].
    assert (0 < delta <= u64_max) as Hd.
    { unfold fits in Hfit. subst delta. unfold last_row. destruct (last rows); lia. }
    assert (last (v_items (pl_runs posting)) = None \/ (exists run, last (v_items (pl_runs posting)) = Some run /\ dr_delta run <> delta) ->
      forall capacity, answers (W := W) (ret (mkPostingList (mkVec (v_items (pl_runs posting) ++ [mkDeltaRun delta 1]) capacity)
        (Z.to_nat (Z.of_nat (pl_row_count posting) + 1)), Some (Z.of_nat row)))
        (fun st => encodes (rows ++ [row]) (fst st) /\ snd st = Some (Z.of_nat row)) (fun e => index_refused e \/ ~ fits rows row)) as Hnew.
    { intros Hlast capacity. apply answers_ret. split; [|done]. apply encodes_snoc; [done|done|done|done| |].
      - rewrite expand_app, expand_one, Hdelta. done.
      - apply canonical_app. split; [apply (en_canonical _ _ He)|]. cbn. split; [done|]. split; [lia|].
        destruct Hlast as [->|(run & -> & Hne)]; [done|]. congruence. }
    apply answers_bind. destruct (last (v_items (pl_runs posting))) as [run|] eqn:Hlast.
    2: { apply answers_bind, answers_index_reserve; [by left|]. intros c. apply answers_ret, Hnew. by left. }
    destruct (Z.eqb_spec (dr_delta run) delta) as [Heq|Hne].
    2: { apply answers_bind, answers_index_reserve; [by left|]. intros c. apply answers_ret, Hnew. right. by exists run. }
    apply answers_bind, answers_option. destruct (checked_add u64_max (dr_count run) 1) as [n|] eqn:Hn; [|by left].
    apply checked_add_Some in Hn as [-> Hn]. apply answers_ret, answers_ret. split; [|done].
    apply last_Some in Hlast as [l Hl]. pose proof (en_canonical _ _ He) as Hcan. rewrite Hl in Hcan.
    apply canonical_app in Hcan as (Hcl & Hrd & Hrc & Hprev).
    apply encodes_snoc; [done|done|done|done|..]; rewrite Hl, removelast_last.
    - rewrite !expand_app, <- app_assoc. f_equal. destruct run as [d c]. cbn [dr_delta dr_count] in *. subst d. rewrite !expand_one.
      rewrite Z2Nat.inj_add, Nat.add_1_r by lia. rewrite replicate_S_end. by rewrite Hdelta.
    - apply canonical_app. cbn. subst delta. split_and!; try done; try lia. by rewrite <- Heq in *. }
  destruct (last rows) as [r|] eqn:Hl; cbn [fmap option_fmap option_map].
  - destruct (Z.gtb_spec (Z.of_nat row) (Z.of_nat r)) as [Hgt|Hle].
    + apply answers_ret, Hrest; [unfold last_row; by rewrite Hl|]. unfold fits. rewrite Hl. lia.
    + apply answers_throw. right. unfold fits. rewrite Hl. lia.
  - apply answers_option. destruct (checked_add u64_max (Z.of_nat row) 1) as [d|] eqn:Hd.
    + apply checked_add_Some in Hd as [-> Hd]. apply Hrest; [unfold last_row; rewrite Hl; lia|]. unfold fits. rewrite Hl. lia.
    + right. unfold fits. rewrite Hl. apply checked_add_None in Hd. lia.
Qed.

Lemma answers_from_rows rows : Forall in_usize rows ->
  answers (W := W) (from_rows rows) (fun posting => encodes rows posting)
    (fun e => index_refused e \/ ~ encodable rows).
Proof.
  intros Hsize. pose proof (imap_pair_snd rows) as Hsnd. apply answers_bind. eapply answers_mono.
  - apply (answers_fold _ (imap pair rows) _ _ (fun done st => encodes (map snd done) (fst st)
      /\ snd st = Z.of_nat <$> last (map snd done))).
    + split; [|done]. constructor; try done. by repeat constructor.
    + intros done [i row] rest [posting previous] Hsplit [He Hp]. cbn [fst snd] in He, Hp. subst previous.
      pose proof Hsnd as Hrows. rewrite Hsplit, map_app in Hrows. cbn [map snd] in Hrows.
      apply answers_bind, answers_checkpoint_every; [by left|]. rewrite map_app. cbn [map snd].
      eapply answers_weaken; [apply answers_push_row; [done|]|done|].
      * rewrite <- Hrows in Hsize. by apply Forall_app in Hsize as [_ [? _]%Forall_cons].
      * intros e [?|Hn]; [by left|]. right. intros Hok. destruct Hn. rewrite <- Hrows in Hok. by apply encodable_fits in Hok as [_ ?].
  - intros [posting previous] [He _]. apply answers_ret. by rewrite Hsnd in He.
Qed.

(** ** Decoding *)

(** The delta at a position of the list and the row it stands for. *)
Lemma decode_step rows posting done delta rest :
  encodes rows posting -> expand (v_items (pl_runs posting)) = done ++ delta :: rest ->
  exists row, rows !! length done = Some row /\ 0 < delta /\ in_usize row
    /\ take (S (length done)) rows = take (length done) rows ++ [row]
    /\ match last (take (length done) rows) with
       | Some previous => checked_add u64_max (Z.of_nat previous) delta = Some (Z.of_nat row)
       | None => checked_sub delta 1 = Some (Z.of_nat row)
       end.
Proof.
  intros He Hsplit. rewrite (en_expand _ _ He) in Hsplit. pose proof (en_rows _ _ He) as (Hs & Hall & Hhead).
  destruct (differences_lookup rows (-1) (length done) delta) as (row & Hrow & Hdelta).
  { rewrite Hsplit, lookup_app_r, Nat.sub_diag by lia. done. }
  exists row. assert (in_usize row) as Hr.
  { rewrite Forall_forall in Hall. by eapply Hall, list_elem_of_lookup_2. }
  assert (take (S (length done)) rows = take (length done) rows ++ [row]) as Htake by (by apply take_S_r).
  unfold in_usize, usize_max in *. unfold last_row in Hdelta.
  destruct (last (take (length done) rows)) as [p|] eqn:Hl.
  - assert (p < row)%nat.
    { pose proof Hl as Hp%last_Some_elem_of. apply list_elem_of_lookup_1 in Hp as [i Hi].
      apply lookup_take_Some in Hi as [Hi Hlt]. by apply (sorted_lookup lt rows i (length done)). }
    split_and!; [done|lia|done|done|]. subst delta. unfold checked_add.
    replace (Z.of_nat p + (Z.of_nat row - Z.of_nat p)) with (Z.of_nat row) by lia.
    destruct (Z.leb_spec (Z.of_nat row) u64_max); [done|lia].
  - split_and!; [done|lia|done|done|]. subst delta. unfold checked_sub.
    destruct (Z.leb_spec 1 (Z.of_nat row - -1)); [|lia]. f_equal. lia.
Qed.

Lemma try_usize row : in_usize row -> try_from usize_max (Z.of_nat row) = Some (Z.of_nat row).
Proof. unfold in_usize, try_from. intros Hr. by destruct (Z.leb_spec (Z.of_nat row) usize_max); [|lia]. Qed.

Lemma answers_posting_rows rows posting : encodes rows posting ->
  answers (W := W) (posting_rows posting) (fun out => out = rows) index_refused.
Proof.
  intros He. unfold posting_rows. apply answers_bind.
  apply (answers_mono _ _ (fun _ => True)); [by destruct (_ =? _)%nat; [apply answers_ret|apply answers_grow_as]|].
  intros _ _. eapply answers_mono.
  - apply (answers_fold _ (expand (v_items (pl_runs posting))) _ _ (fun done out => out = take (length done) rows)); [done|].
    intros done delta rest out Hsplit ->. destruct (decode_step _ _ _ _ _ He Hsplit) as (row & _ & _ & Hr & Htake & Hnext).
    unfold rows_turn. apply answers_bind. rewrite length_app. cbn [length]. rewrite Nat.add_1_r, Htake.
    destruct (last (take (length done) rows)); apply answers_option; rewrite Hnext;
      apply answers_bind, answers_option; rewrite try_usize by done; apply answers_ret; by rewrite Nat2Z.id.
  - intros out ->. rewrite (length_expand _ _ He). by rewrite take_ge.
Qed.

Lemma answers_union_visit rows posting base : encodes rows posting ->
  answers (W := W) (visit_deltas posting (base, None, 0%nat) (union_turn (pl_row_count posting)))
    (fun st => fst (fst st) = base ++ rows) index_refused.
Proof.
  intros He. eapply answers_mono.
  - apply (answers_fold _ (expand (v_items (pl_runs posting))) _ _ (fun done st =>
      st = (base ++ take (length done) rows, Z.of_nat <$> last (take (length done) rows), length done))).
    { cbn. by rewrite app_nil_r. }
    intros done delta rest st Hsplit ->. destruct (decode_step _ _ _ _ _ He Hsplit) as (row & _ & Hd & Hr & Htake & Hnext).
    unfold union_turn. apply answers_bind.
    apply (answers_mono _ _ (fun _ => True)); [by destruct (_ =? _); [apply answers_row_work|apply answers_ret]|]. intros _ _.
    apply answers_bind, answers_fail_if; [intros _|lia]. apply answers_bind.
    rewrite length_app. cbn [length]. rewrite Nat.add_1_r, Htake, last_snoc.
    destruct (last (take (length done) rows)); cbn [fmap option_fmap option_map]; apply answers_option; rewrite Hnext;
      apply answers_bind, answers_option; rewrite try_usize by done; apply answers_ret; rewrite Nat2Z.id, app_assoc; by f_equal.
  - intros st ->. cbn [fst]. rewrite (length_expand _ _ He). by rewrite take_ge.
Qed.

Lemma answers_union rowss lists max_rows : Forall2 encodes rowss lists ->
  answers (W := W) (bounded_posting_union lists max_rows)
    (fun out => rows_of (concat rowss) out /\ (length (concat rowss) <= max_rows)%nat) index_refused.
Proof.
  intros Hall. unfold bounded_posting_union. apply answers_bind. eapply answers_mono.
  { apply (answers_fold _ lists _ _ (fun done total => total = Z.of_nat (list_sum (map pl_row_count done)) /\ total <= Z.of_nat max_rows)).
    - cbn. lia.
    - intros done posting rest total _ [-> Hmax]. unfold limit_turn. apply answers_bind, answers_row_work; [done|].
      apply answers_option. destruct (checked_add _ _ _) as [t|] eqn:Ht; [|done]. apply checked_add_Some in Ht as [-> _].
      cbn [mbind option_bind]. destruct (Z.leb_spec (Z.of_nat (list_sum (map pl_row_count done)) + Z.of_nat (pl_row_count posting)) (Z.of_nat max_rows)); [|done].
      rewrite map_app, list_sum_app. cbn. lia. }
  intros total [-> Hmax]. apply answers_bind, answers_index_checkpoint; [done|]. apply answers_bind, answers_reserve_new; [done|].
  apply answers_bind. eapply answers_mono.
  { apply (answers_fold _ lists _ _ (fun done rows => rows = concat (take (length done) rowss))); [done|].
    intros done posting rest rows Hsplit ->.
    destruct (Forall2_lookup_r _ _ _ (length done) posting Hall) as (rs & Hrs & He).
    { rewrite Hsplit, lookup_app_r, Nat.sub_diag by lia. done. }
    apply answers_bind. eapply answers_mono; [by apply answers_union_visit|]. intros st Hst. apply answers_ret. rewrite Hst.
    rewrite length_app. cbn [length]. rewrite Nat.add_1_r, (take_S_r _ _ _ Hrs), concat_app. cbn. by rewrite app_nil_r. }
  intros rows ->. pose proof (Forall2_length _ _ _ Hall) as Hlen. rewrite take_ge by lia.
  assert ((length (concat rowss) <= max_rows)%nat) as Hbound.
  { rewrite length_concat. enough (list_sum (map length rowss) = list_sum (map pl_row_count lists)) by lia.
    clear -Hall. induction Hall as [|rs l rowss lists He _ IH]; [done|]. cbn. rewrite (en_count _ _ He). unfold list_sum in IH. lia. }
  destruct (Nat.ltb_spec 1 (length lists)) as [Hmany|Hone].
  - eapply answers_mono; [apply answers_radix|done]. apply Forall_concat. clear -Hall.
    induction Hall as [|rs l rowss lists He _ IH]; constructor; [|done]. apply (en_rows _ _ He).
  - apply answers_ret. split; [|done]. split; [|done]. destruct Hall as [|rs l rowss lists He Hall]; [constructor|].
    cbn in Hone, Hlen. destruct lists; [|cbn in Hone; lia]. inversion Hall; subst. cbn. rewrite app_nil_r. apply (en_rows _ _ He).
Qed.

End proofs.

Lemma runs_count_canonical runs : forall previous n, canonical_runs previous runs ->
  n + Z.of_nat (length (expand runs)) <= usize_max ->
  runs_count previous n runs = Ok (n + Z.of_nat (length (expand runs))).
Proof.
  induction runs as [|run runs IH]; intros previous n Hcan Hn; [cbn; f_equal; lia|].
  destruct Hcan as (Hd & Hc & Hprev & Hcan). cbn [runs_count].
  change (expand (run :: runs)) with (replicate (Z.to_nat (dr_count run)) (dr_delta run) ++ expand runs) in *.
  rewrite length_app, length_replicate in *.
  destruct (Z.eqb_spec (dr_delta run) 0); [lia|]. destruct (Z.eqb_spec (dr_count run) 0); [lia|]. cbn [orb].
  rewrite bool_decide_eq_false_2 by done. unfold try_from. destruct (Z.leb_spec (dr_count run) usize_max); [|lia].
  rewrite checked_add_ok by lia. rewrite IH; [f_equal; lia|done|lia].
Qed.

Lemma from_runs_encodes rows posting : encodes rows posting -> from_runs (pl_runs posting) = Ok posting.
Proof.
  intros He. unfold from_runs. pose proof (length_expand _ _ He) as Hl. pose proof (en_length _ _ He).
  rewrite runs_count_canonical; [|apply (en_canonical _ _ He)|lia]. rewrite Hl. pose proof (en_count _ _ He) as Hc.
  destruct posting as [runs n]. cbn [pl_runs pl_row_count] in *. subst n. f_equal. f_equal. lia.
Qed.

(** C30: Encoding rows as posting runs succeeds exactly on strictly increasing row
    numbers, up to refusals; the runs are canonical, so [from_runs] accepts them
    and recovers the same list, and decoding gives back the rows - alone, or as
    [bounded_posting_union] of the one list. *)
Theorem postings_roundtrip {W : Type} `{WorkGuard W} `{Allocator W} (rows : list nat) (w : W) :
  Forall in_usize rows ->
  match from_rows rows tt w with
  | (Ok posting, _, _) =>
      encodable rows
      /\ from_runs (pl_runs posting) = Ok posting
      /\ (forall w', match posting_rows posting tt w' with
                     | (Ok out, _, _) => out = rows
                     | (Err e, _, _) => index_refused e
                     end)
      /\ forall max_rows w', match bounded_posting_union [posting] max_rows tt w' with
                     | (Ok out, _, _) => rows_of rows out /\ (length rows <= max_rows)%nat
                     | (Err e, _, _) => index_refused e
                     end
  | (Err e, _, _) => index_refused e \/ ~ encodable rows
  end.
Proof.
  intros Hsize. pose proof (answers_from_rows rows Hsize w) as Hb.
  destruct (from_rows rows tt w) as [[[posting|e] []] w1]; [|done]. split_and!.
  - apply (en_rows _ _ Hb).
  - by apply (from_runs_encodes rows).
  - apply (answers_posting_rows rows posting Hb).
  - intros max_rows. pose proof (answers_union (W := W) [rows] [posting] max_rows) as Hu. cbn [concat] in Hu.
    rewrite app_nil_r in Hu. apply Hu. by constructor; [|constructor].
Qed.

Lemma postings_roundtrip_witness :
  exists posting, from_rows (W := unit) [2; 3; 4; 9; 14]%nat tt tt = (Ok posting, tt, tt)
    /\ v_items (pl_runs posting) = [mkDeltaRun 3 1; mkDeltaRun 1 2; mkDeltaRun 5 2]
    /\ from_runs (pl_runs posting) = Ok posting
    /\ posting_rows (W := unit) posting tt tt = (Ok [2; 3; 4; 9; 14]%nat, tt, tt).
Proof.
  assert (exists posting, from_rows (W := unit) [2; 3; 4; 9; 14]%nat tt tt = (Ok posting, tt, tt)
    /\ v_items (pl_runs posting) = [mkDeltaRun 3 1; mkDeltaRun 1 2; mkDeltaRun 5 2]
    /\ posting_rows (W := unit) posting tt tt = (Ok [2; 3; 4; 9; 14]%nat, tt, tt)) as (posting & Hb & Hr & Hd)
    by (eexists; split_and!; [vm_compute; reflexivity|vm_compute; reflexivity|vm_compute; reflexivity]).
  pose proof (postings_roundtrip (W := unit) [2; 3; 4; 9; 14]%nat tt) as Ht. rewrite Hb in Ht.
  destruct Ht as (_ & Hf & _); [repeat constructor; unfold in_usize, usize_max, u64_max; cbn; lia|].
  by exists posting.
Defined.

(** ** Set operations *)

Lemma union_rows_exact `{UnstableSort} lists : rows_of (concat lists) (union_rows lists).
Proof.
  unfold union_rows. eapply rows_of_perm; [apply (sort_unstable_perm Nat.compare)|].
  apply dedup_rows, sort_unstable_sorted, nat_compare_total.
Qed.

Lemma intersect_loop_exact fuel : forall left right output, (length left + length right <= fuel)%nat ->
  StronglySorted lt left -> StronglySorted lt right -> StronglySorted lt output ->
  (forall x y, x ∈ output -> y ∈ left -> y ∈ right -> (x < y)%nat) ->
  StronglySorted lt (intersect_loop fuel left right output)
  /\ forall x, x ∈ intersect_loop fuel left right output <-> x ∈ output \/ (x ∈ left /\ x ∈ right).
Proof.
  induction fuel as [|fuel IH]; intros left right output Hf Hl Hr Ho Hcross.
  { destruct left; [|cbn in Hf; lia]. split; [done|]. set_solver. }
  destruct left as [|l left]; [split; [done|set_solver]|]. destruct right as [|r right]; [split; [done|set_solver]|].
  cbn [intersect_loop length] in *. apply StronglySorted_inv in Hl as Hl', Hr as Hr'.
  destruct Hl' as [Hl' Hll], Hr' as [Hr' Hrr]. rewrite Forall_forall in Hll, Hrr.
  destruct (Nat.compare_spec l r) as [->|Hlt|Hgt].
  - destruct (IH left right (output ++ [r])) as [Hs Hin]; [lia|done|done|..].
    + apply StronglySorted_app_2; [|done|repeat constructor]. intros x y Hx Hy%list_elem_of_singleton. subst y. apply Hcross; [done|left|left].
    + intros x y [Hx|Hx%list_elem_of_singleton]%elem_of_app Hyl Hyr; [apply Hcross; [done|by right|by right]|subst x; by apply Hll].
    + split; [done|]. intros x. rewrite Hin. assert (forall z, z ∈ left -> z <> r) by (intros z Hz ->; specialize (Hll r Hz); lia). set_solver.
  - destruct (IH left (r :: right) output) as [Hs Hin]; [cbn; lia|done|done|done|..].
    + intros x y Hx Hyl Hyr. apply Hcross; [done|by right|done].
    + split; [done|]. intros x. rewrite Hin.
      assert (l ∉ r :: right) by (intros [->|Hz]%elem_of_cons; [lia|specialize (Hrr l Hz); lia]). set_solver.
  - destruct (IH (l :: left) right output) as [Hs Hin]; [cbn; lia|done|done|done|..].
    + intros x y Hx Hyl Hyr. apply Hcross; [done|done|by right].
    + split; [done|]. intros x. rewrite Hin.
      assert (r ∉ l :: left) by (intros [->|Hz]%elem_of_cons; [lia|specialize (Hll r Hz); lia]). set_solver.
Qed.

Lemma intersect_rows_exact left right : StronglySorted lt left -> StronglySorted lt right ->
  StronglySorted lt (intersect_rows left right) /\ forall x, x ∈ intersect_rows left right <-> x ∈ left /\ x ∈ right.
Proof.
  intros Hl Hr. destruct (intersect_loop_exact (length left + length right) left right []) as [Hs Hin];
    [lia|done|done|constructor|set_solver|]. split; [done|]. intros x. unfold intersect_rows. rewrite Hin. set_solver.
Qed.
