(* ===== verification/SourceKeys.v ===== *)
(** * Source keys

    Models [qtrace-store/src/index/source_keys.rs] and [compare_event_keys] of
    [index/mod.rs]: the rows in the order of their source keys, kept as a
    permutation only when the keys are not already in order, and the binary
    search from a key to its row. *)

From stdpp Require Import prelude list sorting strings.
From Stdlib Require Import ZArith Lia Strings.Byte Sorted.
From S2P Require Import Prelude Prog Control Model FlightContext FlightSort Answers Index Orders IndexSort.
Local Open Scope string_scope.
Local Open Scope list_scope.
Local Open Scope Z_scope.

Definition compare_event_keys (left right : EventKey) : comparison :=
  then_with (compare_slice compare_byte (ek_artifact left) (ek_artifact right))
  (then_with (ek_timeline left ?= ek_timeline right)
  (then_with (ek_record_ordinal left ?= ek_record_ordinal right)
  (then_with (ek_source_offset left ?= ek_source_offset right)
  (then_with (compare_option Z.compare (ek_sequence left) (ek_sequence right))
     (compare_option Z.compare (ek_tid left) (ek_tid right)))))).

Inductive SourceKeyIndex :=
| Identity (count : nat)
| Permutation (rows : list nat).

Definition keys_len (ix : SourceKeyIndex) : nat :=
  match ix with Identity count => count | Permutation rows => length rows end.
Definition keys_row (ix : SourceKeyIndex) (position : nat) : option nat :=
  match ix with
  | Identity count => if (position <? count)%nat then Some position else None
  | Permutation rows => rows !! position
  end.
Definition keys_rows (ix : SourceKeyIndex) : list (option nat) := map (keys_row ix) (seq 0 (keys_len ix)).

(** The loop of [find]; [right - left] shrinks, one turn per fuel unit. *)
Fixpoint find_loop (fuel : nat) (ix : SourceKeyIndex) (key : EventKey) (key_at : nat -> result IndexError EventKey)
    (left right : nat) : option nat :=
  match fuel with
  | O => None
  | S fuel =>
      if (left <? right)%nat then
        let middle := (left + (right - left) / 2)%nat in
        match keys_row ix middle with
        | None => None
        | Some row =>
            match key_at row with
            | Err _ => None
            | Ok candidate =>
                match compare_event_keys candidate key with
                | Lt => find_loop fuel ix key key_at (middle + 1) right
                | Gt => find_loop fuel ix key key_at left middle
                | Eq => Some row
                end
            end
        end
      else None
  end.
Definition keys_find (ix : SourceKeyIndex) (key : EventKey) (key_at : nat -> result IndexError EventKey) : option nat :=
  find_loop (S (keys_len ix)) ix key key_at 0 (keys_len ix).

(** [keys[row]] inside the comparison of rows; the rows it compares are in range. *)
Definition no_key : EventKey := mkEventKey [] 0 0 0 None None.
Definition key_or (keys : list EventKey) (row : nat) : EventKey := default no_key (keys !! row).
Definition compare_rows (keys : list EventKey) (left right : nat) : comparison :=
  compare_event_keys (key_or keys left) (key_or keys right).

Section source_keys.
Context {W : Type} `{WorkGuard W} `{Allocator W} `{UnstableSort}.
Abbreviation M := (Prog W IndexError unit).

Definition append_identity (rows : list nat) (count : nat) : M (list nat) :=
  fold_each (chunks 4096 (seq 0 count)) rows (fun rows chunk => index_checkpoint ;! ret (rows ++ chunk)).

Definition monotonic_turn (monotonic : bool) (item : nat * (EventKey * EventKey)) : M bool :=
  let '(index, (former, latter)) := item in
  checkpoint_every index ;!
  match compare_event_keys former latter with
  | Lt => ret monotonic
  | Eq => throw (index_duplicate_key "duplicate source EventKey")
  | Gt => ret false
  end.
Definition distinct_turn (keys : list EventKey) (_ : unit) (item : nat * (nat * nat)) : M unit :=
  let '(index, (former, latter)) := item in
  checkpoint_every index ;!
  let! former := row_at keys former in
  let! latter := row_at keys latter in
  fail_if (bool_decide (compare_event_keys former latter = Eq)) (index_duplicate_key "duplicate source EventKey").

Definition keys_build (keys : list EventKey) : M SourceKeyIndex :=
  let! monotonic := fold_each (imap pair (windows2 keys)) true monotonic_turn in
  index_checkpoint ;!
  if (monotonic : bool) then ret (Identity (length keys))
  else
    index_reserve_new T_usize (length keys) "source-key index allocation" ;!
    let! rows := append_identity [] (length keys) in
    let! rows := cancellable_sort_by (compare_rows keys) T_usize rows in
    fold_each (imap pair (windows2 rows)) tt (distinct_turn keys) ;!
    ret (Permutation rows).

Definition read_turn (count : nat) (row_of : nat -> M nat) (permutation : option (list nat)) (position : nat) :
    M (option (list nat)) :=
  checkpoint_every position ;!
  let! row := row_of position in
  fail_if (count <=? row)%nat (index_corrupt "source row outside keys") ;!
  let! permutation :=
    match permutation with
    | None =>
        if negb (row =? position)%nat then
          index_reserve_new T_usize count "source rows" ;!
          let! rows := append_identity [] position in
          ret (Some rows)
        else ret None
    | Some rows => ret (Some rows)
    end in
  ret (option_map (fun rows => rows ++ [row]) permutation).
Definition keys_read (count : nat) (row_of : nat -> M nat) : M SourceKeyIndex :=
  let! permutation := fold_each (seq 0 count) None (read_turn count row_of) in
  index_checkpoint ;!
  ret (match permutation with None => Identity count | Some rows => Permutation rows end).

End source_keys.

(** ** The order of keys *)

#[export] Instance compare_event_keys_total : total_compare compare_event_keys.
Proof.
  unfold compare_event_keys.
  repeat apply total_then; apply total_on; apply _.
Qed.
#[export] Instance compare_event_keys_exact : exact_compare compare_event_keys.
Proof.
  intros [a t r o s i] [a' t' r' o' s' i']. unfold compare_event_keys. cbn.
  pose proof (exact_eq (compare := compare_slice compare_byte) a a') as Ha.
  pose proof (exact_eq (compare := compare_option Z.compare) s s') as Hs.
  pose proof (exact_eq (compare := compare_option Z.compare) i i') as Hi.
  destruct (compare_slice compare_byte a a'); cbn; [|naive_solver..].
  destruct (Z.compare_spec t t'); cbn; [|naive_solver lia..].
  destruct (Z.compare_spec r r'); cbn; [|naive_solver lia..].
  destruct (Z.compare_spec o o'); cbn; [|naive_solver lia..].
  destruct (compare_option Z.compare s s'); cbn; [|naive_solver..].
  destruct (compare_option Z.compare i i'); naive_solver.
Qed.

(** ** An index of keys *)

(** The rows of the index in its order. *)
Definition order_of (ix : SourceKeyIndex) : list nat :=
  match ix with Identity count => seq 0 count | Permutation rows => rows end.

(** Every row once, in strictly increasing order of the keys; a permutation is
    kept only where it is not the identity. *)
Record indexes_keys (keys : list EventKey) (ix : SourceKeyIndex) : Prop := mkIndexesKeys {
  ik_rows : order_of ix ≡ₚ seq 0 (length keys);
  ik_sorted : StronglySorted (cmp_lt (compare_rows keys)) (order_of ix);
  ik_canonical : forall rows, ix = Permutation rows -> rows <> seq 0 (length keys)
}.

#[export] Instance compare_rows_total keys : total_compare (compare_rows keys).
Proof. apply (total_on (key_or keys) compare_event_keys _). Qed.

Lemma keys_row_order ix position : keys_row ix position = order_of ix !! position.
Proof.
  destruct ix as [count|rows]; [|done]. cbn [keys_row order_of]. destruct (Nat.ltb_spec position count).
  - symmetry. by apply lookup_seq_lt.
  - symmetry. apply lookup_ge_None_2. by rewrite length_seq.
Qed.
Lemma keys_len_order ix : keys_len ix = length (order_of ix).
Proof. destruct ix as [count|rows]; [symmetry; apply length_seq|done]. Qed.

Section found.
Context (keys : list EventKey) (ix : SourceKeyIndex) (Hix : indexes_keys keys ix) (e : IndexError).
Abbreviation key_at := (fun row => ok_or (keys !! row) e).

Lemma order_lookup row key : keys !! row = Some key -> exists p, order_of ix !! p = Some row.
Proof.
  intros Hkey. apply list_elem_of_lookup_1. rewrite (ik_rows _ _ Hix). apply elem_of_seq.
  apply lookup_lt_Some in Hkey. lia.
Qed.
Lemma order_key p row : order_of ix !! p = Some row -> exists key, keys !! row = Some key.
Proof.
  intros Hp. apply lookup_lt_is_Some_2. apply list_elem_of_lookup_2 in Hp. rewrite (ik_rows _ _ Hix) in Hp.
  apply elem_of_seq in Hp. lia.
Qed.
Lemma order_compare p q row row' key key' : (p < q)%nat -> order_of ix !! p = Some row -> order_of ix !! q = Some row' ->
  keys !! row = Some key -> keys !! row' = Some key' -> compare_event_keys key key' = Lt.
Proof.
  intros Hpq Hp Hq Hk Hk'. pose proof (sorted_lookup _ _ _ _ _ _ (ik_sorted _ _ Hix) Hpq Hp Hq) as Hlt.
  unfold cmp_lt, compare_rows, key_or in Hlt. by rewrite Hk, Hk' in Hlt.
Qed.

Lemma find_loop_sound key row fuel : forall first last,
  find_loop fuel ix key key_at first last = Some row -> keys !! row = Some key.
Proof.
  induction fuel as [|fuel IH]; intros first last; [done|]. cbn [find_loop]. destruct (first <? last)%nat; [|done].
  destruct (keys_row ix _) as [row'|]; [|done]. destruct (keys !! row') as [key'|] eqn:Hk; [|done]. cbn [ok_or].
  destruct (compare_event_keys key' key) eqn:Hc; [|apply IH|apply IH].
  apply exact_eq in Hc as ->. by intros [= ->].
Qed.

Lemma find_loop_complete key row p : order_of ix !! p = Some row -> keys !! row = Some key ->
  forall fuel first last, (first <= p < last)%nat -> (last <= length (order_of ix))%nat -> (last - first < fuel)%nat ->
  find_loop fuel ix key key_at first last = Some row.
Proof.
  intros Hp Hkey. induction fuel as [|fuel IH]; intros first last Hpl Hlen Hf; [lia|]. cbn [find_loop].
  destruct (Nat.ltb_spec first last); [|lia]. set (middle := (first + (last - first) / 2)%nat).
  assert (first <= middle < last)%nat as Hm by (unfold middle; pose proof (Nat.div_lt (last - first) 2); lia).
  rewrite keys_row_order. destruct (lookup_lt_is_Some_2 (order_of ix) middle) as [row' Hrow']; [lia|]. rewrite Hrow'.
  destruct (order_key _ _ Hrow') as [key' Hkey']. rewrite Hkey'. cbn [ok_or].
  destruct (Nat.lt_trichotomy middle p) as [Hlt|[->|Hgt]].
  - rewrite (order_compare middle p row' row key' key) by done. apply IH; lia.
  - simplify_eq. rewrite (compare_refl compare_event_keys). done.
  - rewrite (tc_opp (compare := compare_event_keys) key key'), (order_compare p middle row row' key key') by done. cbn.
    apply IH; lia.
Qed.

Lemma keys_find_exact key row : keys_find ix key key_at = Some row <-> keys !! row = Some key.
Proof.
  split; [apply find_loop_sound|]. intros Hkey. destruct (order_lookup _ _ Hkey) as [p Hp].
  unfold keys_find. rewrite keys_len_order. pose proof (lookup_lt_Some _ _ _ Hp).
  apply (find_loop_complete key row p); try done; lia.
Qed.

Lemma keys_NoDup : NoDup keys.
Proof.
  apply NoDup_alt. intros i j key Hi Hj. destruct (order_lookup _ _ Hi) as [p Hp], (order_lookup _ _ Hj) as [q Hq].
  destruct (Nat.lt_trichotomy p q) as [Hlt|[->|Hlt]]; [exfalso|congruence|exfalso].
  - pose proof (order_compare _ _ _ _ _ _ Hlt Hp Hq Hi Hj) as Hc. by rewrite (compare_refl compare_event_keys) in Hc.
  - pose proof (order_compare _ _ _ _ _ _ Hlt Hq Hp Hj Hi) as Hc. by rewrite (compare_refl compare_event_keys) in Hc.
Qed.
End found.

(** ** Building and reading *)

Lemma imap_pair_elem {A} (l : list A) done i x rest : imap pair l = done ++ (i, x) :: rest -> x ∈ l.
Proof. intros ->%imap_pair_split. apply elem_of_app. right. left. Qed.

Section proofs.
Context {W : Type} `{WorkGuard W} `{Allocator W} `{UnstableSort}.

Lemma answers_append_identity (R : IndexError -> Prop) rows count : (forall e, index_refused e -> R e) ->
  answers (W := W) (append_identity rows count) (fun out => out = rows ++ seq 0 count) R.
Proof.
  intros HR. eapply answers_mono.
  - apply (answers_fold R _ _ _ (fun done out => out = rows ++ concat done)); [by rewrite app_nil_r|].
    intros done chunk rest out _ ->. apply answers_bind, answers_index_checkpoint; [done|]. apply answers_ret.
    rewrite concat_app. cbn. by rewrite app_nil_r, app_assoc.
  - intros out ->. rewrite chunks_concat by lia. done.
Qed.

(** What [build] may report. *)
Definition build_refused (keys : list EventKey) (e : IndexError) : Prop :=
  index_refused e \/ (e = index_duplicate_key "duplicate source EventKey" /\ ~ NoDup keys).

Lemma answers_monotonic keys :
  answers (W := W) (fold_each (imap pair (windows2 keys)) true monotonic_turn)
    (fun monotonic => if monotonic then StronglySorted (cmp_lt compare_event_keys) keys
                      else ~ StronglySorted (cmp_lt compare_event_keys) keys) (build_refused keys).
Proof.
  eapply answers_mono.
  - apply (answers_fold (build_refused keys) (imap pair (windows2 keys)) true monotonic_turn (fun done monotonic =>
      if monotonic then Forall (fun item => cmp_lt compare_event_keys item.2.1 item.2.2) done
      else ~ StronglySorted (cmp_lt compare_event_keys) keys)); [constructor|].
    intros done [i [x y]] rest monotonic Hd Hm. pose proof (imap_pair_elem _ _ _ _ _ Hd) as Hin.
    apply list_elem_of_lookup_1 in Hin as [k Hk]. apply windows2_lookup in Hk as [Hx Hy].
    apply answers_bind, answers_checkpoint_every; [by left|]. destruct (compare_event_keys x y) eqn:Hc.
    + apply answers_throw. right. split; [done|]. apply exact_eq in Hc as ->. intros Hnd.
      pose proof (NoDup_lookup _ _ _ _ Hnd Hx Hy). lia.
    + apply answers_ret. destruct monotonic; [|done]. by apply Forall_snoc.
    + apply answers_ret. intros Hs. pose proof (sorted_lookup _ _ k (S k) _ _ Hs ltac:(lia) Hx Hy) as Hlt.
      unfold cmp_lt in Hlt. congruence.
  - intros [] Hall; [|done]. apply (windows2_sorted compare_event_keys). intros x y Hin.
    apply list_elem_of_lookup_1 in Hin as [k Hk]. rewrite Forall_lookup in Hall.
    apply (Hall k (k, (x, y))). rewrite list_lookup_imap, Hk. done.
Qed.

Lemma answers_distinct keys rows : rows ≡ₚ seq 0 (length keys) -> StronglySorted (cmp_le (compare_rows keys)) rows ->
  answers (W := W) (fold_each (imap pair (windows2 rows)) tt (distinct_turn keys))
    (fun _ => StronglySorted (cmp_lt (compare_rows keys)) rows) (build_refused keys).
Proof.
  intros Hperm Hs. eapply answers_mono.
  - apply (answers_fold (build_refused keys) (imap pair (windows2 rows)) tt (distinct_turn keys) (fun done _ =>
      Forall (fun item => compare_rows keys item.2.1 item.2.2 <> Eq) done)); [constructor|].
    intros done [i [a b]] rest [] Hd Hm. pose proof (imap_pair_elem _ _ _ _ _ Hd) as Hin.
    apply list_elem_of_lookup_1 in Hin as [k Hk]. apply windows2_lookup in Hk as [Ha Hb].
    assert (forall k r, rows !! k = Some r -> exists key, keys !! r = Some key) as Hkeys.
    { intros j r Hr%list_elem_of_lookup_2. rewrite Hperm in Hr. apply elem_of_seq in Hr. apply lookup_lt_is_Some_2. lia. }
    destruct (Hkeys _ _ Ha) as [ka Hka], (Hkeys _ _ Hb) as [kb Hkb].
    apply answers_bind, answers_checkpoint_every; [by left|].
    apply answers_bind, (answers_row_at _ _ _ ka); [done|]. apply answers_bind, (answers_row_at _ _ _ kb); [done|].
    apply answers_fail_if.
    + intros Hne%bool_decide_eq_false_1. apply Forall_snoc; [done|]. unfold compare_rows, key_or. cbn. by rewrite Hka, Hkb.
    + intros Heq%bool_decide_eq_true_1. right. split; [done|]. apply exact_eq in Heq as ->. intros Hnd.
      assert (NoDup rows) as Hrows by (rewrite Hperm; apply NoDup_seq).
      assert (a = b) as -> by (by apply (NoDup_lookup keys a b kb)). pose proof (NoDup_lookup _ _ _ _ Hrows Ha Hb). lia.
  - intros [] Hall. apply (sorted_strict (compare_rows keys)); [done|]. intros i x y Hx Hy. rewrite Forall_lookup in Hall.
    apply (Hall i (i, (x, y))). rewrite list_lookup_imap. by rewrite (proj2 (windows2_lookup rows i x y)).
Qed.

Lemma sorted_rows_keys keys :
  StronglySorted (cmp_lt (compare_rows keys)) (seq 0 (length keys)) <-> StronglySorted (cmp_lt compare_event_keys) keys.
Proof.
  split; intros Hs; apply windows2_sorted; try apply _; intros x y [k Hk]%list_elem_of_lookup_1; apply windows2_lookup in Hk as [Hx Hy].
  - pose proof (lookup_lt_Some _ _ _ Hy).
    pose proof (sorted_lookup _ _ k (S k) k (S k) Hs ltac:(lia) ltac:(by apply lookup_seq; lia) ltac:(by apply lookup_seq; lia)) as Hlt.
    unfold cmp_lt, compare_rows, key_or in Hlt. by rewrite Hx, Hy in Hlt.
  - apply lookup_seq in Hx as [-> Hx], Hy as [-> Hy].
    destruct (lookup_lt_is_Some_2 keys k) as [a Ha]; [lia|]. destruct (lookup_lt_is_Some_2 keys (S k)) as [b Hb]; [lia|].
    unfold compare_rows, key_or. cbn. rewrite Ha, Hb. cbn. apply (sorted_lookup _ _ k (S k) _ _ Hs); [lia|done|done].
Qed.

Lemma answers_keys_build keys : answers (W := W) (keys_build keys) (indexes_keys keys) (build_refused keys).
Proof.
  assert (forall e, index_refused e -> build_refused keys e) as HR by (by left).
  apply answers_bind. eapply answers_mono; [apply answers_monotonic|]. intros monotonic Hm.
  apply answers_bind, answers_index_checkpoint; [done|]. destruct monotonic.
  { apply answers_ret. split; [done|by apply sorted_rows_keys|done]. }
  apply answers_bind, answers_reserve_new; [done|]. apply answers_bind.
  eapply answers_mono; [by apply answers_append_identity|]. intros ? ->. cbn [app]. apply answers_bind.
  eapply answers_weaken; [apply (answers_cancellable_sort (compare_rows keys))| |done]. intros rows [Hperm Hs].
  apply answers_bind. eapply answers_mono; [by apply answers_distinct|]. intros [] Hstrict. apply answers_ret.
  split; [done|done|]. intros ? [= <-] ->. by apply Hm, sorted_rows_keys.
Qed.

(** Reading the rows of an index back, in any representation of them. *)
Lemma answers_keys_read (R : IndexError -> Prop) rows (row_of : nat -> Prog W IndexError unit nat) :
  (forall e, index_refused e -> R e) ->
  (forall p row, rows !! p = Some row -> (row < length rows)%nat /\ answers (row_of p) (fun r => r = row) R) ->
  answers (keys_read (length rows) row_of)
    (fun ix => ix = if decide (rows = seq 0 (length rows)) then Identity (length rows) else Permutation rows) R.
Proof.
  intros HR Hrow. apply answers_bind. eapply answers_mono.
  - apply (answers_fold R (seq 0 (length rows)) None (read_turn (length rows) row_of) (fun done permutation =>
      permutation = let k := length done in if decide (take k rows = seq 0 k) then None else Some (take k rows))).
    { cbn. destruct (decide _) as [_|Hne]; [done|]. by destruct Hne. }
    intros done p rest permutation Hseq ->.
    destruct (seq_position _ _ _ _ _ Hseq) as [-> Hp]. rewrite Nat.add_0_l.
    destruct (lookup_lt_is_Some_2 rows (length done) Hp) as [row Hr]. destruct (Hrow _ _ Hr) as [Hlt Hof].
    apply answers_bind, answers_checkpoint_every; [done|]. apply answers_bind. eapply answers_mono; [exact Hof|]. intros ? ->.
    apply answers_bind, answers_fail_if; [intros _|rewrite Nat.leb_le; lia].
    cbn zeta. rewrite length_app. cbn [length]. rewrite Nat.add_1_r, (take_S_r _ _ _ Hr), seq_S, Nat.add_0_l.
    destruct (decide (take (length done) rows = seq 0 (length done))) as [Hid|Hid].
    + destruct (Nat.eqb_spec row (length done)) as [->|Hne]; cbn [negb].
      * apply answers_bind, answers_ret, answers_ret. rewrite Hid. by rewrite decide_True.
      * apply answers_bind, answers_bind, answers_reserve_new; [done|]. apply answers_bind.
        eapply answers_mono; [by apply answers_append_identity|]. intros ? ->. apply answers_ret, answers_ret. cbn.
        rewrite Hid, decide_False; [done|]. intros [_ [=]]%app_inj_2; done.
    + apply answers_bind, answers_ret, answers_ret. cbn. rewrite decide_False; [done|].
      intros [? _]%app_inj_2; done.
  - intros permutation ->. apply answers_bind, answers_index_checkpoint; [done|]. apply answers_ret.
    rewrite length_seq. cbn zeta. rewrite take_ge by lia. by destruct (decide _).
Qed.

End proofs.

(** C31: Building the source-key index fails, refusals aside, exactly on a repeated
    key; the index it builds finds for every key the row that holds it and no
    other, and writing its rows out and reading them back gives the same index. *)
Theorem source_keys_exact {W : Type} `{WorkGuard W} `{Allocator W} `{UnstableSort} (keys : list EventKey) (w : W) :
  match keys_build keys tt w with
  | (Ok ix, _, _) =>
      NoDup keys
      /\ (forall key row, keys_find ix key (fun row => ok_or (keys !! row) row_panic) = Some row <-> keys !! row = Some key)
      /\ forall w', match keys_read (keys_len ix) (fun p => lift_option (keys_row ix p) row_panic) tt w' with
                    | (Ok ix', _, _) => ix' = ix
                    | (Err e, _, _) => index_refused e
                    end
  | (Err e, _, _) => index_refused e \/ (e = index_duplicate_key "duplicate source EventKey" /\ ~ NoDup keys)
  end.
Proof.
  pose proof (answers_keys_build keys w) as Hb. destruct (keys_build keys tt w) as [[[ix|e] []] w1]; [|done].
  split; [by eapply keys_NoDup|]. split; [by intros; apply keys_find_exact|].
  pose proof (Permutation_length (ik_rows _ _ Hb)) as Hlen. rewrite length_seq in Hlen. rewrite keys_len_order.
  assert (ix = if decide (order_of ix = seq 0 (length (order_of ix))) then Identity (length (order_of ix))
               else Permutation (order_of ix)) as Hix.
  { rewrite Hlen. destruct ix as [count|rows]; cbn [order_of] in *.
    - rewrite length_seq in Hlen. subst count. by rewrite decide_True.
    - rewrite decide_False; [done|]. by apply (ik_canonical _ _ Hb). }
  intros w'. pose proof (answers_keys_read index_refused (order_of ix)
    (fun p => lift_option (keys_row ix p) row_panic) ltac:(done)) as Hr.
  unfold answers in Hr. rewrite <- Hix in Hr. apply Hr. intros p row Hp. split.
  - apply list_elem_of_lookup_2 in Hp. rewrite (ik_rows _ _ Hb) in Hp. apply elem_of_seq in Hp. lia.
  - apply answers_option. by rewrite keys_row_order, Hp.
Qed.
