(* ===== verification/KeyedMaps.v ===== *)
(** * Sorted maps of posting lists

    Models [SortedMap] of [qtrace-store/src/index/mod.rs] and the functions of
    [index/builder.rs] that build one: [keyed_posting_partition] from a key per
    row, [keyed_postings] and [keyed_values] from pairs, and
    [validate_posting_partition], which checks one that was read from a cache.
    Every map of the index has integer keys. *)

From stdpp Require Import prelude list sorting strings gmap.
From Stdlib Require Import ZArith Lia Strings.Byte Sorted.
From S2P Require Import Prelude Prog Control Model FlightContext Answers Index Orders IndexSort Intervals Postings SourceKeys.
Local Open Scope string_scope.
Local Open Scope list_scope.
Local Open Scope Z_scope.

Record SortedMap (V : Type) := mkSortedMap { sm_entries : list (Z * V) }.
Arguments mkSortedMap {V} _.
Arguments sm_entries {V} _.

Definition from_sorted {V} (entries : list (Z * V)) : result IndexError (SortedMap V) :=
  if existsb (fun '(former, latter) => (former.1 >=? latter.1)%Z) (windows2 entries)
  then Err (index_corrupt "sorted map keys are not strictly increasing")
  else Ok (mkSortedMap entries).

(** [get]: a binary search of the standard library over distinct sorted keys. *)
Definition map_get {V} (m : SortedMap V) (key : Z) : option V :=
  snd <$> List.find (fun entry => (entry.1 =? key)%Z) (sm_entries m).

(** The order in which a [HashMap] yields its entries is any. *)
Class HashIteration := {
  hash_iter : forall {A}, gmap Z A -> list (Z * A);
  hash_iter_perm {A} (m : gmap Z A) : hash_iter m ≡ₚ map_to_list m
}.

Section maps.
Context {W : Type} `{WorkGuard W} `{Allocator W} `{UnstableSort} `{HashIteration}.
Abbreviation M := (Prog W IndexError unit).

(** The loop of [guarded_get]; [right - left] shrinks, one turn per fuel unit. *)
Fixpoint get_loop {V} (fuel : nat) (entries : list (Z * V)) (key : Z) (first last : nat) (work : Z) : M (option V * Z) :=
  match fuel with
  | O => ret (None, work)
  | S fuel =>
      if (first <? last)%nat then
        consume_row_work 1 ;!
        let! work := lift_option (checked_add u64_max work 1) (index_resource "sorted-map lookup work overflow") in
        let middle := (first + (last - first) / 2)%nat in
        let! entry := row_at entries middle in
        match entry.1 ?= key with
        | Lt => get_loop fuel entries key (middle + 1) last work
        | Gt => get_loop fuel entries key first middle work
        | Eq => ret (Some entry.2, work)
        end
      else ret (None, work)
  end.
Definition guarded_get {V} (m : SortedMap V) (key : Z) : M (option V * Z) :=
  get_loop (S (length (sm_entries m))) (sm_entries m) key 0 (length (sm_entries m)) 0.

(** ** From a key per row *)

Definition hash_table_bound (t : RustType) (len additional : Z) : result AllocationFailure (Z * Z) :=
  match checked_add usize_max len additional with
  | None => Err (Overflow "hash table entry count")
  | Some required =>
      if required =? 0 then Ok (0, 0)
      else
        let buckets :=
          if required <? 4 then Some 4 else if required <? 8 then Some 8
          else scaled ← checked_mul usize_max required 8;
               scaled ← checked_add usize_max scaled 6;
               checked_next_power_of_two (scaled / 7) in
        match buckets with
        | None => Err (Overflow "hash table bucket count")
        | Some buckets =>
            match checked_mul usize_max buckets (size_of t) with
            | None => Err (Overflow "hash table bucket bytes")
            | Some bucket_bytes =>
                let alignment_slack := saturating_sub (align_of t) 1 in
                match (bytes ← checked_add usize_max bucket_bytes alignment_slack;
                       bytes ← checked_add usize_max bytes buckets;
                       bytes ← checked_add usize_max bytes 16;
                       try_from u64_max bytes) with
                | None => Err (Overflow "hash table byte count")
                | Some bytes =>
                    match try_from u64_max alignment_slack with
                    | None => Err (Overflow "hash table alignment slack")
                    | Some slack => Ok (bytes, slack)
                    end
                end
            end
        end
  end.

(** [try_reserve_hash_map] on the table [id] that holds [len] entries. *)
Definition reserve_hash_map (id : MapId) (t : RustType) (len additional : Z) (label : string) :
    Prog W AllocationFailure unit unit := fun s w =>
  if (additional =? 0) || (additional <=? saturating_sub (map_capacity id w) len) then (Ok tt, s, w)
  else
    (let! bound := lift_result (hash_table_bound t len additional) in
     scope_as Aborted (fst bound) (snd bound) (fun s w =>
       match map_grow id (len + additional) w with
       | (true, w') => (Ok tt, s, w')
       | (false, w') => (Err (Failed label), s, w')
       end)) s w.
Definition index_reserve_map (id : MapId) (t : RustType) (len additional : Z) (label : string) : M unit :=
  relabel index_of_failure (reserve_hash_map id t len additional label).

Abbreviation Group := (PostingList * option Z)%type.

Definition partition_turn (id : MapId) (key_for_row : nat -> M (option Z)) (groups : gmap Z Group) (row : nat) :
    M (gmap Z Group) :=
  checkpoint_every row ;!
  let! key := key_for_row row in
  match key with
  | None => ret groups
  | Some key =>
      (if bool_decide (is_Some (groups !! key)) then ret tt
       else index_reserve_map id T_posting_group (Z.of_nat (size groups)) 1 "posting groups") ;!
      let! group := push_row (default (PostingList_default, None) (groups !! key)) row in
      ret (<[key := group]> groups)
  end.

Definition keyed_posting_partition (id : MapId) (row_count : nat) (key_for_row : nat -> M (option Z)) :
    M (SortedMap PostingList) :=
  let! groups := fold_each (seq 0 row_count) ∅ (partition_turn id key_for_row) in
  index_reserve_new T_posting_entry (size groups) "posting map" ;!
  let entries := map (fun '(key, group) => (key, group.1)) (hash_iter groups) in
  let! entries := cancellable_sort_by (fun x y => x.1 ?= y.1) T_posting_entry entries in
  lift_result (from_sorted entries).

(** ** From pairs *)

(** The number of groups, for the reservation. *)
Definition count_posting_groups {V} (label : string) (pairs : list (Z * V)) : M Z :=
  fold_each (seq 0 (length pairs)) 0 (fun groups index =>
    checkpoint_every index ;!
    let! starts :=
      if (index =? 0)%nat then ret true
      else
        let! former := row_at pairs (index - 1) in
        let! latter := row_at pairs index in
        ret (negb (former.1 =? latter.1)) in
    if (starts : bool) then lift_option (checked_add usize_max groups 1) (index_resource label) else ret groups).

(** The [while first < pairs.len()] loop over what is left of the pairs; every
    turn takes at least one, so a fuel of their number is enough. *)
Fixpoint group_loop {V B} (fuel : nat) (group : list V -> M B) (pairs : list (Z * V)) (entries : list (Z * B)) :
    M (list (Z * B)) :=
  match fuel, pairs with
  | S fuel, (key, _) :: _ =>
      consume_as IndexAbort (mkWorkDelta 0 0 0 1 0 0) ;!
      let last := count_while (fun pair => (pair.1 =? key)%Z) pairs in
      let! value := group (map snd (take last pairs)) in
      group_loop fuel group (drop last pairs) (entries ++ [(key, value)])
  | _, _ => ret entries
  end.

Definition posting_group (rows : list nat) : M PostingList :=
  index_reserve_new T_usize (length rows) "posting rows" ;!
  from_rows (dedup rows).
Definition keyed_postings (pairs : list (Z * nat)) : M (SortedMap PostingList) :=
  let! pairs := cancellable_sort_by (compare_pair Z.compare Nat.compare) T_pair pairs in
  let! groups := count_posting_groups "posting group count overflow" pairs in
  index_reserve_new T_posting_entry (Z.to_nat groups) "posting map allocation" ;!
  let! entries := group_loop (length pairs) posting_group pairs [] in
  lift_result (from_sorted entries).

Definition value_group (values : list (Z * nat)) : M (list (Z * nat)) :=
  index_reserve_new T_pair (length values) "keyed value allocation" ;! ret values.
Definition keyed_values (pairs : list (Z * (Z * nat))) : M (SortedMap (list (Z * nat))) :=
  let! pairs := cancellable_sort_by (compare_pair Z.compare (compare_pair Z.compare Nat.compare)) T_keyed_pair pairs in
  let! groups := count_posting_groups "keyed value group count overflow" pairs in
  index_reserve_new T_values_entry (Z.to_nat groups) "keyed value map allocation" ;!
  let! entries := group_loop (length pairs) value_group pairs [] in
  lift_result (from_sorted entries).

(** ** Checking a map against the rows *)

Definition count_expected (row_count : nat) (expected : nat -> M (option Z)) : M nat :=
  fold_each (seq 0 row_count) 0%nat (fun count row =>
    let! key := expected row in
    ret (if bool_decide (is_Some key) then (count + 1)%nat else count)).

(** The closure over the deltas: [previous], [ordinal] and [actual_count]. *)
Definition validate_turn (row_count : nat) (expected : nat -> M (option Z)) (key : Z)
    (st : option Z * nat * Z) (delta : Z) : M (option Z * nat * Z) :=
  let '(previous, ordinal, actual_count) := st in
  checkpoint_every ordinal ;!
  fail_if (delta =? 0) (index_corrupt "posting delta is zero") ;!
  let! encoded := lift_option
    (match previous with
     | None => checked_sub delta 1
     | Some value => checked_add u64_max value delta
     end) (index_corrupt "posting row overflow") in
  let! row := lift_option (try_from usize_max encoded) (index_corrupt "posting row does not fit usize") in
  fail_if (row >=? Z.of_nat row_count) (index_corrupt "posting index differs from normalized facts") ;!
  let! found := expected (Z.to_nat row) in
  fail_if (negb (bool_decide (found = Some key))) (index_corrupt "posting index differs from normalized facts") ;!
  let! actual_count := lift_option (checked_add usize_max actual_count 1) (index_resource "posting count overflow") in
  ret (Some encoded, (ordinal + 1)%nat, actual_count).

Definition validate_posting_partition (postings : SortedMap PostingList) (row_count : nat)
    (expected : nat -> M (option Z)) : M unit :=
  let! expected_count := count_expected row_count expected in
  let! actual_count := fold_each (sm_entries postings) 0 (fun actual_count entry =>
    let! st := visit_deltas entry.2 (None, 0%nat, actual_count) (validate_turn row_count expected entry.1) in
    ret (snd st)) in
  fail_if (negb (actual_count =? Z.of_nat expected_count)) (index_corrupt "posting index cardinality differs").

End maps.

(** ** Lookups *)

Definition sorted_keys {V} (entries : list (Z * V)) : Prop := StronglySorted Z.lt (map fst entries).

Lemma sorted_keys_lookup {V} (entries : list (Z * V)) i j x y : sorted_keys entries -> (i < j)%nat ->
  entries !! i = Some x -> entries !! j = Some y -> x.1 < y.1.
Proof.
  intros Hs Hij Hi Hj. eapply (sorted_lookup _ _ i j); [exact Hs|done|..]; rewrite list_lookup_fmap; [by rewrite Hi|by rewrite Hj].
Qed.

Lemma from_sorted_ok {V} (entries : list (Z * V)) : sorted_keys entries -> from_sorted entries = Ok (mkSortedMap entries).
Proof.
  intros Hs. unfold from_sorted. destruct (existsb _ _) eqn:He; [|done].
  apply existsb_exists in He as ([x y] & Hin & Hge). apply list_elem_of_In, list_elem_of_lookup_1 in Hin as [i Hi].
  apply windows2_lookup in Hi as [Hx Hy]. pose proof (sorted_keys_lookup _ i (S i) x y Hs ltac:(lia) Hx Hy). lia.
Qed.

Lemma map_get_elem {V} (m : SortedMap V) key v : sorted_keys (sm_entries m) ->
  map_get m key = Some v <-> (key, v) ∈ sm_entries m.
Proof.
  intros Hs. unfold map_get. induction (sm_entries m) as [|[k x] entries IH]; [split; [done|set_solver]|].
  apply StronglySorted_inv in Hs as [Hs Hk]. rewrite Forall_forall in Hk. cbn [List.find fst].
  destruct (Z.eqb_spec k key) as [->|Hne].
  - cbn. rewrite elem_of_cons. split; [intros [= ->]; by left|]. intros [[= ->]|Hin]; [done|].
    assert (key ∈ map fst entries) as Hkey by (apply list_elem_of_In, in_map_iff; exists (key, v); split; [done|by apply list_elem_of_In]).
    specialize (Hk key Hkey). cbn in Hk. lia.
  - rewrite IH by done. rewrite elem_of_cons. naive_solver.
Qed.

(** The search without its effects. *)
Fixpoint get_steps {V} (fuel : nat) (entries : list (Z * V)) (key : Z) (first last : nat) : nat :=
  match fuel with
  | O => 0
  | S fuel =>
      if (first <? last)%nat then
        let middle := (first + (last - first) / 2)%nat in
        match entries !! middle with
        | None => 1
        | Some entry =>
            match (entry.1 ?= key)%Z with
            | Lt => S (get_steps fuel entries key (middle + 1) last)
            | Gt => S (get_steps fuel entries key first middle)
            | Eq => 1
            end
        end
      else 0
  end%nat.
Definition lookup_steps {V} (m : SortedMap V) (key : Z) : nat :=
  get_steps (S (length (sm_entries m))) (sm_entries m) key 0 (length (sm_entries m)).

Section lookups.
Context {W : Type} `{WorkGuard W} `{Allocator W}.

Lemma answers_get_loop {V} (m : SortedMap V) key fuel : sorted_keys (sm_entries m) -> forall first last work,
  0 <= work -> (last <= length (sm_entries m))%nat -> (last - first < fuel)%nat ->
  (forall p entry, sm_entries m !! p = Some entry -> entry.1 = key -> (first <= p < last)%nat) ->
  answers (W := W) (get_loop fuel (sm_entries m) key first last work)
    (fun r => r.1 = map_get m key /\ r.2 = work + Z.of_nat (get_steps fuel (sm_entries m) key first last)) index_refused.
Proof.
  intros Hs. induction fuel as [|fuel IH]; intros first last work Hw Hlen Hf Hin; [lia|]. cbn [get_loop get_steps].
  destruct (Nat.ltb_spec first last) as [Hlt|Hge].
  2: { apply answers_ret. split; [|cbn; lia]. cbn. symmetry. destruct (map_get m key) as [v|] eqn:Hg; [|done].
       apply (map_get_elem _ _ _ Hs), list_elem_of_lookup_1 in Hg as [p Hp]. specialize (Hin p _ Hp eq_refl). lia. }
  apply answers_bind, answers_row_work; [done|]. apply answers_bind, answers_option.
  destruct (checked_add u64_max work 1) as [work'|] eqn:Hadd; [|done]. apply checked_add_Some in Hadd as [-> _].
  set (middle := (first + (last - first) / 2)%nat).
  assert (first <= middle < last)%nat as Hm by (unfold middle; pose proof (Nat.div_lt (last - first) 2); lia).
  destruct (lookup_lt_is_Some_2 (sm_entries m) middle) as [[k v] Hv]; [lia|]. rewrite Hv.
  apply answers_bind, (answers_row_at _ _ _ (k, v)); [done|]. cbn [fst snd].
  destruct (Z.compare_spec k key) as [->|Hkl|Hkg].
  - apply answers_ret. split; [|cbn; lia]. symmetry. apply (map_get_elem _ _ _ Hs). by eapply list_elem_of_lookup_2.
  - eapply answers_mono; [apply IH; [lia|lia|lia|]|intros r [-> ->]; split; [done|lia]].
    intros p entry Hp Hpk. specialize (Hin p entry Hp Hpk). destruct (decide (p <= middle)%nat); [|lia].
    destruct (decide (p = middle)) as [->|]; [simplify_eq; cbn in *; lia|].
    pose proof (sorted_keys_lookup _ p middle _ _ Hs ltac:(lia) Hp Hv). cbn in *. lia.
  - eapply answers_mono; [apply IH; [lia|lia|lia|]|intros r [-> ->]; split; [done|lia]].
    intros p entry Hp Hpk. specialize (Hin p entry Hp Hpk). destruct (decide (middle <= p)%nat); [|lia].
    destruct (decide (p = middle)) as [->|]; [simplify_eq; cbn in *; lia|].
    pose proof (sorted_keys_lookup _ middle p _ _ Hs ltac:(lia) Hv Hp). cbn in *. lia.
Qed.

Lemma answers_guarded_get {V} (m : SortedMap V) key : sorted_keys (sm_entries m) ->
  answers (W := W) (guarded_get m key) (fun r => r.1 = map_get m key /\ r.2 = Z.of_nat (lookup_steps m key)) index_refused.
Proof.
  intros Hs. eapply answers_mono; [apply (answers_get_loop m key _ Hs); [lia|lia|lia|]|intros r [-> ->]; split; [done|unfold lookup_steps; lia]].
  intros p entry Hp _. apply lookup_lt_Some in Hp. lia.
Qed.

Lemma answers_reserve_map (R : IndexError -> Prop) id t len n label (Q : unit -> Prop) : (forall e, index_refused e -> R e) ->
  Q tt -> answers (W := W) (index_reserve_map id t len n label) Q R.
Proof.
  intros HR HQ. apply answers_relabel. assert (forall f, R (index_of_failure f)) as Hf by (intros [a|d|d]; by apply HR).
  intros w. unfold reserve_hash_map. destruct (_ || _); [done|].
  enough (answers (W := W) (let! bound := lift_result (hash_table_bound t len n) in
     scope_as Aborted (fst bound) (snd bound) (fun s w =>
       match map_grow id (len + n) w with
       | (true, w') => (Ok tt, s, w')
       | (false, w') => (Err (Failed label), s, w')
       end)) Q (fun f => R (index_of_failure f))) as Ha by exact (Ha w).
  apply answers_bind, answers_result. destruct (hash_table_bound t len n); [|apply Hf].
  apply answers_scope_as; [|intros a'; apply (Hf (Aborted a'))].
  intros w'. destruct (map_grow _ _ w') as [[] w'']; [done|]. by apply Hf.
Qed.
End lookups.

(** ** Grouping *)

(** A row number below the last: none of the posting arithmetic overflows on it. *)
Definition small_row (row : nat) : Prop := Z.of_nat row < usize_max.
Definition values_of {V} (key : Z) (pairs : list (Z * V)) : list V :=
  map snd (List.filter (fun pair => (pair.1 =? key)%Z) pairs).

Lemma values_of_elem {V} key (pairs : list (Z * V)) v : v ∈ values_of key pairs <-> (key, v) ∈ pairs.
Proof.
  unfold values_of. rewrite list_elem_of_In, in_map_iff. split.
  - intros ([k x] & <- & Hin). apply filter_In in Hin as [Hin Hk]. apply Z.eqb_eq in Hk. cbn in *. subst. by apply list_elem_of_In.
  - intros Hin. exists (key, v). split; [done|]. apply filter_In. split; [by apply list_elem_of_In|]. apply Z.eqb_refl.
Qed.

Lemma values_of_perm {V} key (pairs pairs' : list (Z * V)) : pairs ≡ₚ pairs' -> values_of key pairs ≡ₚ values_of key pairs'.
Proof. intros Hp. unfold values_of. by apply Permutation_map, filter_perm. Qed.
Lemma keys_elem {V} key (pairs : list (Z * V)) : key ∈ map fst pairs <-> exists v, (key, v) ∈ pairs.
Proof.
  rewrite list_elem_of_In, in_map_iff. split.
  - intros ([k v] & <- & Hin). exists v. by apply list_elem_of_In.
  - intros [v Hin]. exists (key, v). split; [done|by apply list_elem_of_In].
Qed.
Lemma values_of_app {V} key (l l' : list (Z * V)) : values_of key (l ++ l') = values_of key l ++ values_of key l'.
Proof. unfold values_of. by rewrite List.filter_app, map_app. Qed.
Lemma values_of_all {V} key (l : list (Z * V)) : Forall (fun p => p.1 = key) l -> values_of key l = map snd l.
Proof. unfold values_of. induction 1 as [|x l Hx _ IH]; [done|]. cbn. apply Z.eqb_eq in Hx. rewrite Hx. cbn. by rewrite IH. Qed.
Lemma values_of_none {V} key (l : list (Z * V)) : Forall (fun p => p.1 <> key) l -> values_of key l = [].
Proof. unfold values_of. induction 1 as [|x l Hx _ IH]; [done|]. cbn. by apply Z.eqb_neq in Hx as ->. Qed.

(** A map of groups: the keys of the pairs, each with what the group became. *)
Record grouped {V B} (P : list V -> B -> Prop) (pairs : list (Z * V)) (entries : list (Z * B)) : Prop := mkGrouped {
  gr_sorted : sorted_keys entries;
  gr_keys : forall key, key ∈ map fst entries <-> key ∈ map fst pairs;
  gr_values : forall key value, (key, value) ∈ entries -> P (values_of key pairs) value
}.

(** Sorted pairs begin with one group, and the others come after it. *)
Lemma first_group {V} key v (rest : list (Z * V)) :
  StronglySorted (fun x y => x.1 <= y.1) ((key, v) :: rest) ->
  let pairs := (key, v) :: rest in
  let n := count_while (fun pair => (pair.1 =? key)%Z) pairs in
  (0 < n)%nat /\ Forall (fun p => p.1 = key) (take n pairs) /\ Forall (fun p => key < p.1) (drop n pairs).
Proof.
  intros Hs pairs n. split_and!.
  - unfold n, pairs. cbn. rewrite Z.eqb_refl. lia.
  - apply Forall_lookup. intros i p Hi. apply lookup_take_Some in Hi as [Hi Hn].
    apply Z.eqb_eq. by apply (count_while_before _ _ i p Hn) in Hi.
  - apply Forall_lookup. intros i p Hi. rewrite lookup_drop in Hi.
    destruct (lookup_lt_is_Some_2 pairs n) as [q Hq]; [apply lookup_lt_Some in Hi; lia|].
    assert (key < q.1) as Hkq.
    { assert ((q.1 =? key) = false) as Hne.
      { unfold n in Hq. clear -Hq. revert Hq. generalize pairs. intros l. induction l as [|x l IH]; [done|]. cbn.
        destruct (x.1 =? key) eqn:Hx; cbn; [done|]. by intros [= ->]. }
      apply Z.eqb_neq in Hne. destruct n as [|n'] eqn:Hn; [injection Hq as <-; cbn in Hne; done|].
      pose proof (sorted_lookup _ _ 0 (S n') _ _ Hs ltac:(lia) eq_refl Hq) as Hle. cbn in Hle. lia. }
    destruct i as [|i]; [rewrite Nat.add_0_r in Hi; by simplify_eq|].
    pose proof (sorted_lookup _ _ n (n + S i) _ _ Hs ltac:(lia) Hq Hi) as Hle. cbv beta in Hle. lia.
Qed.

Section groups.
Context {W : Type} `{WorkGuard W} `{Allocator W} `{UnstableSort} `{HashIteration}.
Context (R : IndexError -> Prop) (HR : forall e, index_refused e -> R e).

Lemma answers_count_groups {V} label (pairs : list (Z * V)) (Q : Z -> Prop) :
  (forall n, Q n) -> answers (W := W) (count_posting_groups label pairs) Q R.
Proof.
  intros HQ. eapply answers_mono; [|intros n _; apply HQ].
  apply (answers_fold R _ _ _ (fun _ _ => True)); [done|]. intros done i rest groups Hseq _.
  destruct (seq_position _ _ _ _ _ Hseq) as [-> Hi]. rewrite Nat.add_0_l.
  apply answers_bind, answers_checkpoint_every; [done|]. apply answers_bind.
  apply (answers_mono _ _ (fun _ => True)).
  - destruct (length done =? 0)%nat; [by apply answers_ret|].
    destruct (lookup_lt_is_Some_2 pairs (length done - 1)) as [a Ha]; [lia|].
    destruct (lookup_lt_is_Some_2 pairs (length done)) as [b Hb]; [lia|].
    apply answers_bind, (answers_row_at _ _ _ a); [done|]. apply answers_bind, (answers_row_at _ _ _ b); [done|]. by apply answers_ret.
  - intros [] _; [|by apply answers_ret]. apply answers_option. case_match; [done|by apply HR].
Qed.

Lemma answers_group_loop {V B} (P : list V -> B -> Prop) (group : list V -> Prog W IndexError unit B) fuel :
  forall (pairs : list (Z * V)) entries, (length pairs <= fuel)%nat -> StronglySorted (fun x y => x.1 <= y.1) pairs ->
  (forall key, answers (group (values_of key pairs)) (P (values_of key pairs)) R) ->
  answers (group_loop fuel group pairs entries) (fun out => exists more, out = entries ++ more /\ grouped P pairs more) R.
Proof.
  induction fuel as [|fuel IH]; intros [|[key v] rest] entries Hf Hs Hgroup; cbn [length] in Hf; try lia.
  1,2: apply answers_ret; exists []; rewrite app_nil_r; split; [done|split; [constructor|done|set_solver]].
  cbn [group_loop]. pose proof (first_group _ _ _ Hs) as Hfirst. cbv zeta in Hfirst.
  set (pairs := (key, v) :: rest) in *. set (n := count_while _ pairs) in *. destruct Hfirst as (Hn & Hpre & Hsuf).
  assert (pairs = take n pairs ++ drop n pairs) as Hsplit by by rewrite take_drop.
  assert (values_of key pairs = map snd (take n pairs)) as Hval.
  { rewrite Hsplit at 1. rewrite values_of_app, (values_of_all key (take n pairs)), (values_of_none key (drop n pairs)); [by rewrite app_nil_r| |done].
    eapply Forall_impl; [exact Hsuf|]. cbn. intros; lia. }
  assert (forall k, k <> key -> values_of k pairs = values_of k (drop n pairs)) as Hother.
  { intros k Hk. rewrite Hsplit at 1. rewrite values_of_app, (values_of_none k (take n pairs)); [done|].
    eapply Forall_impl; [exact Hpre|]. cbn. congruence. }
  apply answers_bind, answers_consume; [|intros a; by apply HR]. apply answers_bind. rewrite <- Hval.
  eapply answers_mono; [apply Hgroup|]. intros value HP.
  assert (forall p, p ∈ drop n pairs -> key < p.1) as Hafter by (by apply Forall_forall).
  eapply answers_mono.
  - apply IH; [assert (length pairs = S (length rest)) by done; rewrite length_drop; lia|by rewrite Hsplit in Hs; apply StronglySorted_app_1_r in Hs|].
    intros k. destruct (decide (k = key)) as [->|Hk]; [|rewrite <- Hother by done; apply Hgroup].
    rewrite values_of_none; [|eapply Forall_impl; [exact Hsuf|cbn; intros; lia]].
    pose proof (Hgroup (key - 1)) as Hempty. rewrite values_of_none in Hempty; [done|].
    apply Forall_forall. intros p Hp. rewrite Hsplit, elem_of_app in Hp. destruct Hp as [Hp|Hp].
    + rewrite Forall_forall in Hpre. rewrite (Hpre p Hp). lia.
    + specialize (Hafter p Hp). lia.
  - intros out (more & -> & [Hms Hmk Hmv]). exists ((key, value) :: more). split; [by rewrite <- app_assoc|]. split.
    + constructor; [done|]. apply Forall_forall. intros k Hk%Hmk. apply keys_elem in Hk as [x Hx]. by apply Hafter in Hx.
    + intros k. cbn [map fst]. rewrite elem_of_cons, Hmk, !keys_elem. split.
      * intros [->|[x Hx]]; [exists v; left|exists x; rewrite Hsplit; apply elem_of_app; by right].
      * intros [x Hx]. rewrite Hsplit, elem_of_app in Hx. destruct Hx as [Hx|Hx]; [left|right; by exists x].
        rewrite Forall_forall in Hpre. by apply Hpre in Hx.
    + intros k b [[= -> ->]|Hin]%elem_of_cons; [done|]. rewrite Hother; [by apply Hmv|].
      assert (k ∈ map fst more) as Hk by (apply keys_elem; by exists b). apply Hmk, keys_elem in Hk as [x Hx].
      specialize (Hafter _ Hx). cbn in Hafter. lia.
Qed.

End groups.

(** ** Maps of posting lists *)

(** The posting list of a key holds the rows that have the key. *)
Record posts (holds : Z -> nat -> Prop) (m : SortedMap PostingList) : Prop := mkPosts {
  po_sorted : sorted_keys (sm_entries m);
  po_rows : forall key posting, (key, posting) ∈ sm_entries m ->
              exists rows, encodes rows posting /\ forall row, row ∈ rows <-> holds key row;
  po_keys : forall key row, holds key row -> key ∈ map fst (sm_entries m)
}.

(** The same for some keys only; what the map holds under others is not known. *)
Record posts_for (keys : Z -> Prop) (holds : Z -> nat -> Prop) (m : SortedMap PostingList) : Prop := mkPostsFor {
  pf_sorted : sorted_keys (sm_entries m);
  pf_rows : forall key posting, keys key -> (key, posting) ∈ sm_entries m ->
              exists rows, encodes rows posting /\ forall row, row ∈ rows <-> holds key row;
  pf_keys : forall key row, keys key -> holds key row -> key ∈ map fst (sm_entries m)
}.
Lemma posts_for_all keys holds m : posts holds m -> posts_for keys holds m.
Proof. intros [Hs Hr Hk]. split; [done|by eauto|by eauto]. Qed.
Lemma posts_for_mono (P Q : Z -> Prop) holds m : (forall key, Q key -> P key) -> posts_for P holds m -> posts_for Q holds m.
Proof. intros Hpq [Hs Hr Hk]. split; [done|by eauto|by eauto]. Qed.

(** The map of values: for each key the values paired with it, in order. *)
Record keeps_values (pairs : list (Z * (Z * nat))) (m : SortedMap (list (Z * nat))) : Prop := mkKeepsValues {
  kv_sorted : sorted_keys (sm_entries m);
  kv_values : forall key values, (key, values) ∈ sm_entries m -> values ≡ₚ values_of key pairs
                /\ StronglySorted (cmp_le (compare_pair Z.compare Nat.compare)) values;
  kv_keys : forall key, key ∈ map fst (sm_entries m) <-> key ∈ map fst pairs
}.

Lemma values_sorted {V} (c : V -> V -> comparison) key (pairs : list (Z * V)) :
  StronglySorted (cmp_le (compare_pair Z.compare c)) pairs -> StronglySorted (cmp_le c) (values_of key pairs).
Proof.
  intros Hs. apply (filter_sorted _ (fun pair => (pair.1 =? key)%Z)) in Hs. unfold values_of.
  assert (Forall (fun p => p.1 = key) (List.filter (fun pair => (pair.1 =? key)%Z) pairs)) as Hall.
  { apply Forall_forall. intros p Hp%list_elem_of_In. apply filter_In in Hp as [_ Hp]. by apply Z.eqb_eq. }
  induction Hs as [|x l _ IH Hx]; [constructor|]. apply Forall_cons in Hall as [Hk Hall]. cbn. constructor; [by apply IH|].
  apply Forall_forall. intros v Hv. apply list_elem_of_In, in_map_iff in Hv as (y & <- & Hy). apply list_elem_of_In in Hy.
  pose proof (proj1 (Forall_forall _ _) Hx y Hy) as Hxy. pose proof (proj1 (Forall_forall _ _) Hall y Hy) as Hyk. cbv beta in Hyk.
  unfold cmp_le, compare_pair in Hxy. rewrite Hk, Hyk, Z.compare_refl in Hxy. exact Hxy.
Qed.
Lemma pair_keys_sorted {V} (c : V -> V -> comparison) (pairs : list (Z * V)) :
  StronglySorted (cmp_le (compare_pair Z.compare c)) pairs -> StronglySorted (fun x y => x.1 <= y.1) pairs.
Proof.
  induction 1 as [|x l _ IH Hx]; constructor; [done|]. eapply Forall_impl; [exact Hx|]. intros y Hxy.
  unfold cmp_le, compare_pair in Hxy. destruct (Z.compare_spec x.1 y.1); cbn in Hxy; [lia|lia|done].
Qed.

Lemma encodable_rows rows : StronglySorted lt rows -> Forall small_row rows -> encodable rows.
Proof.
  intros Hs Hsmall. split; [done|]. split.
  - eapply Forall_impl; [exact Hsmall|]. unfold small_row, in_usize. intros; lia.
  - destruct rows as [|r rows]; [done|]. apply Forall_cons in Hsmall as [Hr _]. cbn. unfold small_row, usize_max in Hr. intros [=]. lia.
Qed.

Lemma sorted_distinct_keys {V} (l : list (Z * V)) :
  StronglySorted (cmp_le (fun x y => x.1 ?= y.1)) l -> NoDup (map fst l) -> sorted_keys l.
Proof.
  unfold sorted_keys. induction 1 as [|x l _ IH Hx]; [constructor|]. cbn. intros [Hn Hnd]%NoDup_cons. constructor; [by apply IH|].
  apply Forall_forall. intros k Hk. assert (k <> x.1) by (intros ->; done). apply keys_elem in Hk as [v Hv].
  pose proof (proj1 (Forall_forall _ _) Hx _ Hv) as Hxv. unfold cmp_le in Hxv. rewrite Z.compare_gt_iff in Hxv. cbn in Hxv. lia.
Qed.

Section builders.
Context {W : Type} `{WorkGuard W} `{Allocator W} `{UnstableSort} `{HashIteration}.
Context (R : IndexError -> Prop) (HR : forall e, index_refused e -> R e).

Lemma answers_from_rows_of rows : StronglySorted lt rows -> Forall small_row rows ->
  answers (W := W) (from_rows rows) (fun posting => encodes rows posting) R.
Proof.
  intros Hs Hsmall. pose proof (encodable_rows _ Hs Hsmall) as He.
  eapply answers_weaken; [apply answers_from_rows, He|done|]. intros e [Hr|Hn]; [by apply HR|by destruct Hn].
Qed.

Lemma answers_posting_group rows : StronglySorted (cmp_le Nat.compare) rows -> Forall small_row rows ->
  answers (W := W) (posting_group rows) (fun posting => exists out, encodes out posting /\ rows_of rows out) R.
Proof.
  intros Hs Hsmall. pose proof (dedup_rows _ Hs) as [Hd Hin]. apply answers_bind, answers_reserve_new; [done|].
  eapply answers_mono; [apply answers_from_rows_of; [done|]|intros posting He; by exists (dedup rows)].
  rewrite Forall_forall in *. intros r Hr. by apply Hsmall, Hin.
Qed.

Lemma answers_keyed_postings pairs : Forall small_row (map snd pairs) ->
  answers (W := W) (keyed_postings pairs) (posts (fun key row => (key, row) ∈ pairs)) R.
Proof.
  intros Hsmall. apply answers_bind.
  eapply answers_weaken; [apply (answers_cancellable_sort (compare_pair Z.compare Nat.compare))| |done]. intros sorted [Hperm Hs].
  apply answers_bind, answers_count_groups; [done|]. intros n. apply answers_bind, answers_reserve_new; [done|]. apply answers_bind.
  eapply answers_mono.
  - apply (answers_group_loop R HR (fun rows posting => exists out, encodes out posting /\ rows_of rows out));
      [done|by eapply pair_keys_sorted|]. intros key. apply answers_posting_group; [by apply values_sorted|].
    apply Forall_forall. intros row Hrow%values_of_elem. rewrite Forall_forall in Hsmall. apply Hsmall.
    rewrite Hperm in Hrow. apply list_elem_of_In, in_map_iff. exists (key, row). split; [done|by apply list_elem_of_In].
  - intros out (entries & -> & [Hsort Hkeys Hvals]). cbn [app]. apply answers_result. rewrite from_sorted_ok by done.
    split; cbn [sm_entries]; [done|..].
    + intros key posting Hin. destruct (Hvals _ _ Hin) as (rows & He & _ & Hrows). exists rows. split; [done|].
      intros row. by rewrite Hrows, values_of_elem, Hperm.
    + intros key row Hin. apply Hkeys, keys_elem. exists row. by rewrite Hperm.
Qed.

Lemma answers_keyed_values pairs : answers (W := W) (keyed_values pairs) (keeps_values pairs) R.
Proof.
  apply answers_bind.
  eapply answers_weaken; [apply (answers_cancellable_sort (compare_pair Z.compare (compare_pair Z.compare Nat.compare)))| |done].
  intros sorted [Hperm Hs].
  apply answers_bind, answers_count_groups; [done|]. intros n. apply answers_bind, answers_reserve_new; [done|]. apply answers_bind.
  eapply answers_mono.
  - apply (answers_group_loop R HR (fun values out => out = values)); [done|by eapply pair_keys_sorted|].
    intros key. apply answers_bind, answers_reserve_new; [done|]. by apply answers_ret.
  - intros out (entries & -> & [Hsort Hkeys Hvals]). cbn [app]. apply answers_result. rewrite from_sorted_ok by done.
    split; cbn [sm_entries]; [done|..].
    + intros key values Hin. rewrite (Hvals _ _ Hin). split; [by apply values_of_perm|by apply values_sorted].
    + intros key. rewrite Hkeys, !keys_elem. by setoid_rewrite Hperm.
Qed.

(** *** A key per row *)

Context (key_of : nat -> option Z) (key_for_row : nat -> Prog W IndexError unit (option Z)) (row_count : nat).
Context (Hkey : forall row, (row < row_count)%nat -> answers (key_for_row row) (fun key => key = key_of row) R).
Context (Hcount : Z.of_nat row_count <= usize_max).

(** The rows below [k] with the key. *)
Definition held (key : Z) (k : nat) : list nat := List.filter (fun row => bool_decide (key_of row = Some key)) (seq 0 k).

Lemma held_elem key k row : row ∈ held key k <-> (row < k)%nat /\ key_of row = Some key.
Proof.
  unfold held. rewrite list_elem_of_In, filter_In, <- list_elem_of_In, elem_of_seq, bool_decide_eq_true. split; intros [? ?]; split; try done; lia.
Qed.
Lemma held_S key k : held key (S k) = held key k ++ (if bool_decide (key_of k = Some key) then [k] else []).
Proof. unfold held. rewrite seq_S, List.filter_app. cbn. by destruct (bool_decide _). Qed.

Definition partitioned (k : nat) (groups : gmap Z (PostingList * option Z)) : Prop :=
  forall key, encodes (held key k) (default (PostingList_default, None) (groups !! key)).1
    /\ (default (PostingList_default, None) (groups !! key)).2 = Z.of_nat <$> last (held key k)
    /\ (is_Some (groups !! key) <-> held key k <> []).

Lemma answers_partition_turn id k groups : (k < row_count)%nat -> partitioned k groups ->
  answers (W := W) (partition_turn id key_for_row groups k) (partitioned (S k)) R.
Proof.
  intros Hk Hinv. apply answers_bind, answers_checkpoint_every; [done|].
  apply answers_bind. eapply answers_mono; [by apply Hkey|]. intros ? ->. destruct (key_of k) as [key|] eqn:Hko.
  2: { apply answers_ret. intros key. rewrite held_S, Hko, bool_decide_false, app_nil_r by done. apply Hinv. }
  apply answers_bind. apply (answers_mono _ _ (fun _ => True)).
  { destruct (bool_decide _); [by apply answers_ret|by apply answers_reserve_map]. }
  intros _ _. apply answers_bind. destruct (Hinv key) as (He & Hprev & _).
  destruct (default _ _) as [posting previous]. cbn [fst snd] in *. subst previous.
  eapply answers_weaken; [apply answers_push_row; [exact He|unfold in_usize; lia]|..].
  - intros [posting' previous'] [He' Hp']. cbn [fst snd] in *. apply answers_ret. intros key'.
    destruct (decide (key' = key)) as [->|Hne].
    + rewrite lookup_insert_eq, held_S, Hko, bool_decide_true by done. cbn. split_and!; [done|done|].
      split; [intros _ Hnil; by apply app_eq_nil in Hnil as [_ ?]|done].
    + rewrite lookup_insert_ne by done. rewrite held_S, Hko, bool_decide_false, app_nil_r by congruence. apply Hinv.
  - intros e [Hr|Hfit]; [by apply HR|]. exfalso. apply Hfit. unfold fits. destruct (last (held key k)) as [r|] eqn:Hl.
    + apply last_Some_elem_of, held_elem in Hl as [? _]. done.
    + unfold usize_max in Hcount. lia.
Qed.

Lemma answers_keyed_posting_partition id :
  answers (W := W) (keyed_posting_partition id row_count key_for_row)
    (posts (fun key row => (row < row_count)%nat /\ key_of row = Some key)) R.
Proof.
  apply answers_bind. eapply answers_mono.
  - apply (answers_fold R (seq 0 row_count) ∅ (partition_turn id key_for_row) (fun done groups => partitioned (length done) groups)).
    + intros key. rewrite lookup_empty. cbn. split_and!; [apply encodes_nil|done|split; [by intros []|done]].
    + intros done k rest groups Hseq Hinv. destruct (seq_position _ _ _ _ _ Hseq) as [-> Hk]. rewrite Nat.add_0_l.
      rewrite length_app, Nat.add_1_r. by apply answers_partition_turn.
  - intros groups Hinv. rewrite length_seq in Hinv. apply answers_bind, answers_reserve_new; [done|]. apply answers_bind.
    eapply answers_weaken; [apply (answers_cancellable_sort (fun x y : Z * PostingList => x.1 ?= y.1))| |done].
    intros entries [Hperm Hs].
    assert (map (fun '(key, group) => (key, group.1)) (hash_iter groups)
            ≡ₚ map (fun '(key, group) => (key, (group : PostingList * option Z).1)) (map_to_list groups)) as Hp
      by apply Permutation_map, hash_iter_perm.
    rewrite Hp in Hperm. clear Hp.
    assert (sorted_keys entries) as Hsk.
    { apply sorted_distinct_keys; [done|]. rewrite Hperm, map_map.
      erewrite map_ext; [exact (NoDup_fst_map_to_list groups)|]. by intros [key group]. }
    apply answers_result. rewrite from_sorted_ok by done. split; cbn [sm_entries]; [done|..].
    + intros key posting Hin. rewrite Hperm in Hin. apply list_elem_of_In, in_map_iff in Hin as ([k group] & [= -> <-] & Hin).
      apply list_elem_of_In, elem_of_map_to_list in Hin. destruct (Hinv key) as (He & _ & _). rewrite Hin in He. cbn in He.
      exists (held key row_count). split; [done|]. intros row. apply held_elem.
    + intros key row Hrow. apply held_elem in Hrow. destruct (Hinv key) as (_ & _ & Hsome).
      destruct (proj2 Hsome) as [group Hgroup]; [intros Hnil; rewrite Hnil in Hrow; by apply not_elem_of_nil in Hrow|].
      apply keys_elem. exists group.1. rewrite Hperm. apply list_elem_of_In, in_map_iff. exists (key, group). split; [done|].
      by apply list_elem_of_In, elem_of_map_to_list.
Qed.

End builders.

(** One order of iteration, to run the index with. *)
Definition listed_iteration : HashIteration.
Proof. refine {| hash_iter A m := map_to_list m |}. done. Defined.
