(* ===== verification/PartitionCheck.v ===== *)
(** * Checking the postings of a cache

    A cache file holds posting lists that nothing has computed yet:
    [validate_posting_partition] of [qtrace-store/src/index/builder.rs] only
    checks that the rows of each list have its key and counts them.  This file
    shows that the check is enough: lists it accepts are the ones the rows call for. *)

From stdpp Require Import prelude list sorting strings gmap.
From Stdlib Require Import ZArith Lia Strings.Byte Sorted.
From S2P Require Import Prelude Prog Control FlightContext Answers Index Orders IndexSort Intervals Postings KeyedMaps.
Local Open Scope string_scope.
Local Open Scope list_scope.
Local Open Scope Z_scope.

(** Runs of machine words. *)
Definition word_runs (runs : list DeltaRun) : Prop :=
  Forall (fun run => 0 <= dr_delta run <= u64_max /\ 0 <= dr_count run <= u64_max) runs.
(** A posting list as the decoder of a cache makes it. *)
Definition decoded (posting : PostingList) : Prop :=
  word_runs (v_items (pl_runs posting)) /\ from_runs (pl_runs posting) = Ok posting.

Lemma runs_count_ok runs : forall previous n count, word_runs runs -> 0 <= n <= usize_max -> runs_count previous n runs = Ok count ->
  canonical_runs previous runs /\ count = n + Z.of_nat (length (expand runs)) /\ count <= usize_max.
Proof.
  induction runs as [|run runs IH]; intros previous n count Hw Hn Hok.
  { cbn in Hok. injection Hok as <-. cbn. split_and!; [done|lia|lia]. }
  apply Forall_cons in Hw as [Hrun Hw]. cbn [runs_count] in Hok.
  destruct (Z.eqb_spec (dr_delta run) 0); [done|]. destruct (Z.eqb_spec (dr_count run) 0); [done|]. cbn [orb] in Hok.
  destruct (bool_decide _) eqn:Hprev; [done|]. apply bool_decide_eq_false in Hprev.
  unfold try_from in Hok. destruct (Z.leb_spec (dr_count run) usize_max); [|done].
  destruct (checked_add usize_max n (dr_count run)) as [n'|] eqn:Hadd; [|done]. apply checked_add_Some in Hadd as [-> Hadd].
  destruct (IH (Some (dr_delta run)) (n + dr_count run) count Hw ltac:(lia) Hok) as (Hcan & -> & Hle). split_and!; [|..|done].
  - cbn [canonical_runs]. split_and!; [lia|lia|lia|lia|done|done].
  - change (expand (run :: runs)) with (replicate (Z.to_nat (dr_count run)) (dr_delta run) ++ expand runs).
    rewrite length_app, length_replicate. lia.
Qed.

Lemma decoded_runs posting : decoded posting ->
  canonical_runs None (v_items (pl_runs posting))
  /\ pl_row_count posting = length (expand (v_items (pl_runs posting)))
  /\ Z.of_nat (length (expand (v_items (pl_runs posting)))) <= usize_max.
Proof.
  intros [Hw Hok]. unfold from_runs in Hok. destruct (runs_count None 0 _) as [count|e] eqn:Hc; [|done].
  apply runs_count_ok in Hc as (Hcan & -> & Hle); [|done|unfold usize_max, u64_max; lia]. split_and!; [done| |lia].
  injection Hok as Hok. rewrite <- Hok at 1. cbn. lia.
Qed.

Lemma differences_inj rows : forall rows' previous, differences previous rows = differences previous rows' -> rows = rows'.
Proof.
  induction rows as [|r rows IH]; intros [|r' rows'] previous Heq; try done. cbn in Heq. injection Heq as Hr Heq.
  assert (r = r') as -> by lia. f_equal. by eapply IH.
Qed.
Lemma encodes_inj rows rows' posting : encodes rows posting -> encodes rows' posting -> rows = rows'.
Proof. intros He He'. eapply differences_inj. by rewrite <- (en_expand _ _ He), <- (en_expand _ _ He'). Qed.

Lemma canonical_deltas runs : forall previous delta, canonical_runs previous runs -> delta ∈ expand runs -> 0 < delta <= u64_max.
Proof.
  induction runs as [|run runs IH]; intros previous delta Hcan Hin; [by apply not_elem_of_nil in Hin|].
  destruct Hcan as (Hd & _ & _ & Hcan).
  change (expand (run :: runs)) with (replicate (Z.to_nat (dr_count run)) (dr_delta run) ++ expand runs) in Hin.
  apply elem_of_app in Hin as [Hin|Hin]; [|by eapply IH]. apply elem_of_replicate in Hin as [-> _]. done.
Qed.

Section check.
Context {W : Type} `{WorkGuard W} `{Allocator W}.
Context (key_of : nat -> option Z) (expected : nat -> Prog W IndexError unit (option Z)) (row_count : nat).
Context (Hexpected : forall row, (row < row_count)%nat -> answers (expected row) (fun key => key = key_of row) (fun _ => True)).

(** What one list shows of its rows, once [done] of its differences were visited. *)
Record checked (key : Z) (base : Z) (done : list Z) (st : option Z * nat * Z) (rows : list nat) : Prop := mkChecked {
  ch_rows : differences (-1) rows = done;
  ch_sorted : StronglySorted lt rows;
  ch_key : forall row, row ∈ rows -> (row < row_count)%nat /\ key_of row = Some key;
  ch_previous : st.1.1 = Z.of_nat <$> last rows;
  ch_count : st.2 = base + Z.of_nat (length rows);
  ch_size : Forall in_usize rows
}.

Lemma answers_validate_turn key base done st rows delta : 0 < delta ->
  checked key base done st rows ->
  answers (W := W) (validate_turn row_count expected key st delta)
    (fun st' => exists rows', checked key base (done ++ [delta]) st' rows') (fun _ => True).
Proof.
  intros Hdelta [Hrows Hs Hkey Hprev Hcount Hsize]. destruct st as [[previous ordinal] actual]. cbn [fst snd] in *. unfold validate_turn.
  apply answers_bind, answers_checkpoint_every; [done|]. apply answers_bind, answers_fail_if; [intros _|done].
  apply answers_bind, answers_option.
  assert (forall encoded, encoded = last_row (-1) rows + delta -> answers (W := W)
    (let! row := lift_option (try_from usize_max encoded) (index_corrupt "posting row does not fit usize") in
     fail_if (row >=? Z.of_nat row_count) (index_corrupt "posting index differs from normalized facts") ;!
     let! found := expected (Z.to_nat row) in
     fail_if (negb (bool_decide (found = Some key))) (index_corrupt "posting index differs from normalized facts") ;!
     let! actual_count := lift_option (checked_add usize_max actual 1) (index_resource "posting count overflow") in
     ret (Some encoded, (ordinal + 1)%nat, actual_count))
    (fun st' => exists rows', checked key base (done ++ [delta]) st' rows') (fun _ => True)) as Hrest.
  { intros encoded Henc. apply answers_bind, answers_option. unfold try_from. destruct (Z.leb_spec encoded usize_max) as [Hfit|]; [|done].
    apply answers_bind, answers_fail_if; [intros Hlt|done]. rewrite Z.geb_leb, Z.leb_gt in Hlt.
    assert (0 <= encoded) as Hpos by (subst encoded; unfold last_row; destruct (last rows); lia).
    apply answers_bind. eapply answers_mono; [apply Hexpected; lia|]. intros found ->.
    apply answers_bind, answers_fail_if; [intros Hfound%negb_false_iff%bool_decide_eq_true|done].
    apply answers_bind, answers_option. destruct (checked_add usize_max actual 1) as [n|] eqn:Hadd; [|done].
    apply checked_add_Some in Hadd as [-> _]. apply answers_ret. exists (rows ++ [Z.to_nat encoded]).
    split; cbn [fst snd].
    - rewrite differences_snoc, Hrows. do 2 f_equal. lia.
    - apply StronglySorted_app_2; [|done|repeat constructor]. intros x y Hx Hy%list_elem_of_singleton. subst y.
      unfold last_row in Henc. destruct (last rows) as [l|] eqn:Hl; [|apply last_None in Hl; subst rows; by apply not_elem_of_nil in Hx].
      apply last_Some in Hl as [init ->]. apply elem_of_app in Hx as [Hx|Hx%list_elem_of_singleton]; [|subst x; lia].
      assert (x < l)%nat by (eapply StronglySorted_app_1_elem_of; [exact Hs|done|by left]). lia.
    - intros row [Hin|Hin%list_elem_of_singleton]%elem_of_app; [by apply Hkey|]. subst row. split; [lia|done].
    - rewrite last_snoc. cbn. f_equal. lia.
    - rewrite length_app. cbn. lia.
    - apply Forall_snoc; [done|]. unfold in_usize. lia. }
  subst previous. unfold last_row in Hrest. destruct (last rows) as [l|] eqn:Hl; cbn.
  - destruct (checked_add u64_max (Z.of_nat l) delta) as [encoded|] eqn:Hadd; [|done]. apply checked_add_Some in Hadd as [-> _].
    by apply Hrest.
  - unfold checked_sub. destruct (Z.leb_spec 1 delta); [|lia]. apply Hrest. lia.
Qed.

Lemma answers_validate_list key base posting : decoded posting ->
  answers (W := W) (visit_deltas posting (None, 0%nat, base) (validate_turn row_count expected key))
    (fun st => exists rows, encodes rows posting /\ (forall row, row ∈ rows -> (row < row_count)%nat /\ key_of row = Some key)
       /\ st.2 = base + Z.of_nat (length rows)) (fun _ => True).
Proof.
  intros Hd. destruct (decoded_runs _ Hd) as (Hcan & Hcount & Hlen). eapply answers_mono.
  - apply (answers_fold _ (expand (v_items (pl_runs posting))) _ _ (fun done st => exists rows, checked key base done st rows)).
    + exists []. split; try done; [constructor|set_solver|cbn; lia].
    + intros done delta rest st Hsplit [rows Hch]. eapply answers_validate_turn; [|exact Hch].
      eapply (canonical_deltas _ None delta); [exact Hcan|]. rewrite Hsplit. apply elem_of_app. right. left.
  - intros st (rows & [Hrows Hs Hkey _ Hn Hsize]). exists rows. split; [|done].
    assert (length (expand (v_items (pl_runs posting))) = length rows) as Hl.
    { rewrite <- Hrows. clear. generalize (-1). induction rows as [|r rows IH]; intros p; [done|]. cbn. by rewrite IH. }
    split; [done|by rewrite Hcount|done|split_and!; [done|done|]|lia].
    destruct rows as [|r rows]; [done|]. cbn. intros [= ->]. cbn in Hrows.
    assert (0 < Z.of_nat (Z.to_nat u64_max) - -1 <= u64_max); [|unfold u64_max in *; lia].
    eapply canonical_deltas; [exact Hcan|]. rewrite <- Hrows. left.
Qed.

(** All lists so far: the rows they hold, together. *)
Definition covered (done : list (Z * PostingList)) (actual : Z) (rows : list nat) : Prop :=
  NoDup rows /\ actual = Z.of_nat (length rows)
  /\ (forall row, row ∈ rows -> exists key posting rs, (key, posting) ∈ done /\ encodes rs posting /\ row ∈ rs
        /\ (row < row_count)%nat /\ key_of row = Some key)
  /\ (forall key posting, (key, posting) ∈ done -> exists rs, encodes rs posting
        /\ forall row, row ∈ rs -> (row < row_count)%nat /\ key_of row = Some key).

Lemma answers_validate_all entries : sorted_keys entries -> Forall decoded (map snd entries) ->
  answers (W := W) (fold_each entries 0 (fun actual_count entry =>
      let! st := visit_deltas entry.2 (None, 0%nat, actual_count) (validate_turn row_count expected entry.1) in ret (snd st)))
    (fun actual => exists rows, covered entries actual rows) (fun _ => True).
Proof.
  intros Hs Hdec. apply (answers_fold _ entries _ _ (fun done actual => exists rows, covered done actual rows)).
  { exists []. split_and!; [constructor|done|set_solver|set_solver]. }
  intros done [key posting] rest actual Hsplit (rows & Hnd & -> & Hcov & Hlists). cbn [fst snd].
  assert (decoded posting) as Hd.
  { apply (proj1 (Forall_forall _ _) Hdec). rewrite Hsplit, map_app. apply elem_of_app. right. left. }
  assert (forall posting', (key, posting') ∉ done) as Hnew.
  { intros posting' Hin. apply list_elem_of_lookup_1 in Hin as [i Hi]. pose proof (lookup_lt_Some _ _ _ Hi).
    pose proof (sorted_keys_lookup entries i (length done) (key, posting') (key, posting) Hs ltac:(done)) as Hlt. rewrite Hsplit in Hlt.
    rewrite lookup_app_l in Hlt by done. rewrite lookup_app_r, Nat.sub_diag in Hlt by lia. specialize (Hlt Hi eq_refl). cbn in Hlt. lia. }
  apply answers_bind. eapply answers_mono; [by apply answers_validate_list|].
  intros st (rs & He & Hkey & Hcount). apply answers_ret. exists (rows ++ rs). split_and!.
  - apply NoDup_app. split_and!; [done| |apply (strict_sorted_NoDup Nat.compare)].
    + intros row Hrow Hrs. destruct (Hcov _ Hrow) as (k & p & _ & Hin & _ & _ & _ & Hk). destruct (Hkey _ Hrs) as [_ Hk'].
      rewrite Hk in Hk'. injection Hk' as ->. by apply (Hnew p).
    + destruct (en_rows _ _ He) as [Hsr _]. eapply StronglySorted_ind; [constructor| |exact Hsr].
      intros a l _ IH Ha. constructor; [done|]. eapply Forall_impl; [exact Ha|]. intros b Hab. by apply Nat.compare_lt_iff.
  - rewrite Hcount, length_app. lia.
  - intros row [Hrow|Hrow]%elem_of_app.
    + destruct (Hcov _ Hrow) as (k & p & l & Hin & ? & ? & ? & ?). exists k, p, l. split_and!; try done. apply elem_of_app. by left.
    + destruct (Hkey _ Hrow). exists key, posting, rs. split_and!; try done. apply elem_of_app. right. left.
  - intros k p [Hin|Hin%list_elem_of_singleton]%elem_of_app; [by apply Hlists|]. injection Hin as -> ->. by exists rs.
Qed.

Lemma answers_count_expected :
  answers (W := W) (count_expected row_count expected)
    (fun n => n = length (List.filter (fun row => bool_decide (is_Some (key_of row))) (seq 0 row_count))) (fun _ => True).
Proof.
  apply (answers_fold _ (seq 0 row_count) _ _ (fun done n => n = length (List.filter (fun row => bool_decide (is_Some (key_of row))) done))); [done|].
  intros done row rest n Hseq ->. destruct (seq_position _ _ _ _ _ Hseq) as [-> Hlt]. rewrite Nat.add_0_l.
  apply answers_bind. eapply answers_mono; [by apply Hexpected|]. intros ? ->. apply answers_ret.
  rewrite List.filter_app, length_app. cbn. by destruct (bool_decide _).
Qed.

Lemma covered_posts entries actual rows : sorted_keys entries -> covered entries actual rows ->
  actual = Z.of_nat (length (List.filter (fun row => bool_decide (is_Some (key_of row))) (seq 0 row_count))) ->
  posts (fun key row => (row < row_count)%nat /\ key_of row = Some key) (mkSortedMap entries).
Proof.
  intros Hs (Hnd & -> & Hcov & Hlists) Hcount.
  set (all := List.filter (fun row => bool_decide (is_Some (key_of row))) (seq 0 row_count)) in *.
  assert (forall row, row ∈ all <-> (row < row_count)%nat /\ is_Some (key_of row)) as Hall.
  { intros row. unfold all. rewrite list_elem_of_In, filter_In, <- list_elem_of_In, elem_of_seq, bool_decide_eq_true. intuition lia. }
  assert (rows ≡ₚ all) as Hperm.
  { apply submseteq_length_Permutation; [|lia]. apply NoDup_submseteq; [done|]. intros row Hrow.
    destruct (Hcov _ Hrow) as (k & _ & _ & _ & _ & _ & Hlt & Hk). apply Hall. split; [done|by exists k]. }
  assert (forall key row, (row < row_count)%nat /\ key_of row = Some key ->
    exists posting rs, (key, posting) ∈ entries /\ encodes rs posting /\ row ∈ rs) as Hfind.
  { intros key row [Hlt Hk]. assert (row ∈ rows) as Hrow by (rewrite Hperm; apply Hall; split; [done|by exists key]).
    destruct (Hcov _ Hrow) as (k & p & rs & Hin & He & Hrs & _ & Hk'). rewrite Hk in Hk'. injection Hk' as <-. by exists p, rs. }
  split; cbn [sm_entries]; [done|..].
  - intros key posting Hin. destruct (Hlists _ _ Hin) as (rs & He & Hrs). exists rs. split; [done|]. intros row. split; [apply Hrs|].
    intros Hrow. destruct (Hfind _ _ Hrow) as (posting' & rs' & Hin' & He' & Hrow').
    assert (posting' = posting) as ->.
    { apply (map_get_elem (mkSortedMap entries) key) in Hin, Hin'; [|done|done]. congruence. }
    by rewrite (encodes_inj rs rs' posting).
  - intros key row Hrow. destruct (Hfind _ _ Hrow) as (posting & _ & Hin & _). apply keys_elem. by exists posting.
Qed.

Lemma answers_validate_partition m : sorted_keys (sm_entries m) -> Forall decoded (map snd (sm_entries m)) ->
  answers (W := W) (validate_posting_partition m row_count expected)
    (fun _ => posts (fun key row => (row < row_count)%nat /\ key_of row = Some key) m) (fun _ => True).
Proof.
  intros Hs Hdec. apply answers_bind. eapply answers_mono; [by apply answers_count_expected|]. intros n ->. apply answers_bind.
  eapply answers_mono; [by apply answers_validate_all|]. intros actual [rows Hcov].
  apply answers_fail_if; [|done]. intros Heq%negb_false_iff%Z.eqb_eq. destruct m as [entries]. by eapply covered_posts.
Qed.

End check.

(** Posting lists read from a cache that pass [validate_posting_partition]
    are exactly the lists that the rows call for: the list of a key decodes to
    the rows whose key it is, all of them and in order - whatever the file held. *)
Theorem validated_partition_exact {W : Type} `{WorkGuard W} `{Allocator W}
    (m : SortedMap PostingList) (keys : list (option Z)) (w w' : W) :
  sorted_keys (sm_entries m) -> Forall decoded (map snd (sm_entries m)) ->
  validate_posting_partition m (length keys) (row_at keys) tt w = (Ok tt, tt, w') ->
  forall key row,
    (exists posting rows, map_get m key = Some posting /\ encodes rows posting /\ row ∈ rows) <-> keys !! row = Some (Some key).
Proof.
  intros Hs Hdec Hrun. set (key_of := fun row => mjoin (keys !! row)).
  assert (forall row, (row < length keys)%nat -> answers (W := W) (row_at keys row) (fun key => key = key_of row) (fun _ => True)) as Hkey.
  { intros row Hlt. destruct (lookup_lt_is_Some_2 keys row Hlt) as [key Hk]. apply (answers_row_at _ _ _ key); [done|].
    unfold key_of. by rewrite Hk. }
  pose proof (answers_validate_partition key_of (row_at keys) (length keys) Hkey m Hs Hdec) as Ha.
  specialize (Ha w). rewrite Hrun in Ha. destruct Ha as [_ Hrows Hkeys]. intros key row.
  assert (keys !! row = Some (Some key) <-> (row < length keys)%nat /\ key_of row = Some key) as ->.
  { unfold key_of. split; [intros Hk; rewrite Hk; split; [by apply lookup_lt_Some in Hk|done]|].
    intros [_ Hk]. by destruct (keys !! row) as [[k|]|]; cbn in Hk; simplify_eq. }
  split.
  - intros (posting & rows & Hg & He & Hrow). apply (map_get_elem m key posting Hs) in Hg.
    destruct (Hrows _ _ Hg) as (rs & He' & Hrs). apply Hrs. by rewrite (encodes_inj rs rows posting).
  - intros Hrow. pose proof (Hkeys _ _ Hrow) as Hin. apply keys_elem in Hin as [posting Hin].
    destruct (Hrows _ _ Hin) as (rs & He & Hrs). exists posting, rs. split; [by apply map_get_elem|]. split; [done|by apply Hrs].
Qed.

Lemma validated_partition_exact_witness :
  let keys := [Some 5; None; Some 7; Some 5] in
  let m := mkSortedMap
    [(5, mkPostingList (mkVec [mkDeltaRun 1 1; mkDeltaRun 3 1] 4) 2); (7, mkPostingList (mkVec [mkDeltaRun 3 1] 4) 1)] in
  validate_posting_partition (W := unit) m (length keys) (row_at keys) tt tt = (Ok tt, tt, tt)
  /\ exists posting rows, map_get m 5 = Some posting /\ encodes rows posting /\ 3%nat ∈ rows.
Proof.
  intros keys m. assert (validate_posting_partition (W := unit) m (length keys) (row_at keys) tt tt = (Ok tt, tt, tt)) as Hrun
    by (vm_compute; reflexivity). split; [exact Hrun|].
  apply (validated_partition_exact m keys tt tt); [|..|reflexivity].
  - repeat constructor.
  - repeat constructor; unfold u64_max; cbn; lia.
  - exact Hrun.
Defined.
