(* ===== verification/Arena.v ===== *)
(** * Interned bytes

    Models [ByteArena] of [qtrace-store/src/index/mod.rs]: values appended to one
    byte vector and found again through a table from the digest of a value to
    the entries that have it.  The digest is a crate's; nothing is assumed of it,
    since the code compares the bytes of every candidate.  A second mode checks a
    stored arena by interning the same values again. *)

From stdpp Require Import prelude list strings gmap.
From Stdlib Require Import ZArith Lia Strings.Byte Sorted.
From S2P Require Import Prelude Prog Control FlightContext Answers Index Orders IndexSort Intervals Postings SourceKeys KeyedMaps.
Local Open Scope string_scope.
Local Open Scope list_scope.
Local Open Scope Z_scope.

Record ByteSpan := mkByteSpan { bs_offset : Z; bs_length : Z }.
Inductive ArenaBacking (T : Type) :=
| Owned (values : Vec T)
| Borrowed (values : list T).
Arguments Owned {T} _.
Arguments Borrowed {T} _.
Definition as_slice {T} (b : ArenaBacking T) : list T :=
  match b with Owned values => v_items values | Borrowed values => values end.
Definition owned_mut {T} (b : ArenaBacking T) : result IndexError (Vec T) :=
  match b with
  | Owned values => Ok values
  | Borrowed _ => Err (index_invalid "borrowed validation arena cannot append new bytes")
  end.

Inductive HashCandidates :=
| One (id : Z)
| Collisions (ids : Vec Z).
Definition candidate_ids (c : HashCandidates) : list Z :=
  match c with One id => [id] | Collisions ids => v_items ids end.

Section arena.
Context {D : Type} `{Countable D} (digest : bytes -> D).

Record ByteArena := mkByteArena {
  ba_bytes : ArenaBacking byte;
  ba_spans : ArenaBacking ByteSpan;
  ba_max_bytes : Z;
  ba_by_hash : gmap D HashCandidates;
  ba_validation_next_id : option Z
}.

Definition arena_new (max_bytes : Z) : ByteArena := mkByteArena (Owned vec_new) (Owned vec_new) max_bytes ∅ None.
(** [ByteArena::validation] *)
Definition arena_validation (source : ByteArena) : ByteArena :=
  mkByteArena (Borrowed (as_slice (ba_bytes source))) (Borrowed (as_slice (ba_spans source))) (ba_max_bytes source) ∅ (Some 0).
Definition from_owned_parts (bytes : Vec byte) (spans : Vec ByteSpan) (max_bytes : Z) : ByteArena :=
  mkByteArena (Owned bytes) (Owned spans) max_bytes ∅ None.

(** [values.get(start..end)] *)
Definition get_range (values : bytes) (start stop : Z) : option bytes :=
  if (start <=? stop) && (stop <=? zlen values) then Some (take (Z.to_nat (stop - start)) (drop (Z.to_nat start) values)) else None.

Definition arena_get (a : ByteArena) (id : Z) : result IndexError bytes :=
  match as_slice (ba_spans a) !! Z.to_nat id with
  | None => Err (index_corrupt "arena span id is out of range")
  | Some span =>
      match try_from usize_max (bs_offset span) with
      | None => Err (index_corrupt "arena offset does not fit usize")
      | Some start =>
          match (stop ← checked_add u64_max (bs_offset span) (bs_length span); try_from usize_max stop) with
          | None => Err (index_corrupt "arena span range overflow")
          | Some stop => ok_or (get_range (as_slice (ba_bytes a)) start stop) (index_corrupt "arena span is outside its bytes")
          end
      end
  end.

(** The loop over the candidates of a digest. *)
Fixpoint first_match (a : ByteArena) (value : bytes) (ids : list Z) : result IndexError (option Z) :=
  match ids with
  | [] => Ok None
  | id :: ids =>
      match arena_get a id with
      | Err e => Err e
      | Ok bytes => if bool_decide (bytes = value) then Ok (Some id) else first_match a value ids
      end
  end.

Context {W : Type} `{WorkGuard W} `{Allocator W}.
Context (table : MapId).
Abbreviation M := (Prog W IndexError ByteArena).

Definition set_by_hash (by_hash : gmap D HashCandidates) (a : ByteArena) : ByteArena :=
  mkByteArena (ba_bytes a) (ba_spans a) (ba_max_bytes a) by_hash (ba_validation_next_id a).
Definition set_next_id (next_id : option Z) (a : ByteArena) : ByteArena :=
  mkByteArena (ba_bytes a) (ba_spans a) (ba_max_bytes a) (ba_by_hash a) next_id.
Definition set_bytes (bytes : Vec byte) (a : ByteArena) : ByteArena :=
  mkByteArena (Owned bytes) (ba_spans a) (ba_max_bytes a) (ba_by_hash a) (ba_validation_next_id a).
Definition set_spans (spans : Vec ByteSpan) (a : ByteArena) : ByteArena :=
  mkByteArena (ba_bytes a) (Owned spans) (ba_max_bytes a) (ba_by_hash a) (ba_validation_next_id a).

Definition insert_hash_candidate (hash : D) (id : Z) : M unit :=
  let! self := get in
  match ba_by_hash self !! hash with
  | Some (One first) =>
      let! capacity := with_local tt (index_reserve T_u32 (vec_new (A := Z)) 2 "bounded arena collision allocation") in
      modify (set_by_hash (<[hash := Collisions (mkVec [first; id] capacity)]> (ba_by_hash self)))
  | Some (Collisions candidates) =>
      let! capacity := with_local tt (index_reserve T_u32 candidates 1 "bounded arena collision allocation") in
      modify (set_by_hash (<[hash := Collisions (mkVec (v_items candidates ++ [id]) capacity)]> (ba_by_hash self)))
  | None => modify (set_by_hash (<[hash := One id]> (ba_by_hash self)))
  end.

Definition reserve_hash (present : bool) : M unit :=
  let! self := get in
  if present then ret tt
  else with_local tt (index_reserve_map table T_hash_entry (Z.of_nat (size (ba_by_hash self))) 1 "bounded arena hash allocation").

(** [guard.consume(WorkDelta { nodes: 1, .. })?] *)
Definition consume_node : M unit := with_local tt (consume_as IndexAbort (mkWorkDelta 0 0 0 1 0 0)).

(** The part of [intern] that checks a stored value. *)
Definition intern_stored (value : bytes) (present : bool) (next_id : Z) : M Z :=
  let! self := get in
  let! stored := lift_result (arena_get self next_id) in
  fail_if (negb (bool_decide (stored = value)))
    (index_corrupt "arena dictionary order disagrees with canonical payload facts") ;!
  let! next := lift_option (checked_add u32_max next_id 1) (index_corrupt "arena validation ID overflow") in
  modify (set_next_id (Some next)) ;!
  consume_node ;!
  reserve_hash present ;!
  insert_hash_candidate (digest value) next_id ;!
  ret next_id.

(** The part of [intern] that appends a new value. *)
Definition intern_new (value : bytes) (present : bool) : M Z :=
  let! self := get in
  let! new_length := lift_option
    (length ← try_from u64_max (zlen (as_slice (ba_bytes self))); checked_add u64_max length (zlen value))
    (index_resource "bounded arena length overflow") in
  fail_if (new_length >? ba_max_bytes self) (IndexMessage "control.budget_exceeded" "bounded arena byte limit exceeded") ;!
  consume_node ;!
  let! bytes := lift_result (owned_mut (ba_bytes self)) in
  let! capacity := with_local tt (index_reserve T_u8 bytes (zlen value) "bounded arena allocation") in
  modify (set_bytes (mkVec (v_items bytes) capacity)) ;!
  let! spans := lift_result (owned_mut (ba_spans self)) in
  let! spans_capacity := with_local tt (index_reserve T_ByteSpan spans 1 "bounded arena span allocation") in
  modify (set_spans (mkVec (v_items spans) spans_capacity)) ;!
  let! id := lift_option (try_from u32_max (zlen (v_items spans))) (index_resource "bounded arena has too many spans") in
  let! offset := lift_option (try_from u64_max (zlen (v_items bytes))) (index_resource "bounded arena offset does not fit u64") in
  modify (set_bytes (mkVec (v_items bytes ++ value) capacity)) ;!
  modify (set_spans (mkVec (v_items spans ++ [mkByteSpan offset (zlen value)]) spans_capacity)) ;!
  reserve_hash present ;!
  insert_hash_candidate (digest value) id ;!
  ret id.

Definition intern (value : bytes) : M Z :=
  let! self := get in
  let candidates := ba_by_hash self !! digest value in
  let present := bool_decide (is_Some candidates) in
  let! found := lift_result (first_match self value (default [] (candidate_ids <$> candidates))) in
  match found with
  | Some id => ret id
  | None =>
      match ba_validation_next_id self with
      | Some next_id => intern_stored value present next_id
      | None => intern_new value present
      end
  end.

(** The loop over the spans of [validate]: they follow each other. *)
Definition span_turn (expected : Z) (span : ByteSpan) : Prog W IndexError unit Z :=
  fail_if (negb (bs_offset span =? expected)) (index_corrupt "arena spans are not append-only contiguous") ;!
  lift_option (checked_add u64_max expected (bs_length span)) (index_corrupt "arena span end overflow").
Definition arena_validate (a : ByteArena) : Prog W IndexError unit unit :=
  fail_if (zlen (as_slice (ba_bytes a)) >? ba_max_bytes a) (index_corrupt "arena exceeds its declared byte bound") ;!
  let! expected := chunked_fold (fun _ => index_checkpoint) (as_slice (ba_spans a)) 0 span_turn in
  fail_if (negb (expected =? zlen (as_slice (ba_bytes a)))) (index_corrupt "arena spans do not cover exact bytes").

Definition validate_dictionary_complete (a : ByteArena) : result IndexError unit :=
  match try_from u32_max (zlen (as_slice (ba_spans a))) with
  | None => Err (index_corrupt "arena span count exceeds u32")
  | Some spans =>
      if bool_decide (ba_validation_next_id a = Some spans) then Ok tt
      else Err (index_corrupt "arena has unreferenced or missing dictionary entries")
  end.

End arena.

(** ** The dictionary an arena holds *)

Fixpoint spans_of (offset : Z) (values : list bytes) : list ByteSpan :=
  match values with
  | [] => []
  | value :: values => mkByteSpan offset (zlen value) :: spans_of (offset + zlen value) values
  end.
(** The values in the order in which they first occur. *)
Definition remember (seen : list bytes) (value : bytes) : list bytes :=
  if decide (value ∈ seen) then seen else seen ++ [value].
Definition first_occurrences (values : list bytes) : list bytes := foldl remember [] values.

Lemma spans_of_app values : forall offset value,
  spans_of offset (values ++ [value]) = spans_of offset values ++ [mkByteSpan (offset + zlen (concat values)) (zlen value)].
Proof.
  induction values as [|v values IH]; intros offset value; cbn.
  - do 3 f_equal. unfold zlen. cbn. lia.
  - rewrite IH. do 3 f_equal. unfold zlen. rewrite length_app. f_equal. lia.
Qed.
Lemma length_spans_of values : forall offset, length (spans_of offset values) = length values.
Proof. induction values as [|v values IH]; intros offset; [done|]. cbn. by rewrite IH. Qed.
Lemma spans_of_lookup values : forall offset i value, values !! i = Some value ->
  spans_of offset values !! i = Some (mkByteSpan (offset + zlen (concat (take i values))) (zlen value)).
Proof.
  induction values as [|v values IH]; intros offset [|i] value Hi; try done; cbn in *.
  - injection Hi as ->. do 2 f_equal. unfold zlen. cbn. lia.
  - rewrite (IH _ _ _ Hi). do 2 f_equal. unfold zlen. rewrite length_app. lia.
Qed.

Section dictionary.
Context {D : Type} `{Countable D} (digest : bytes -> D).
Abbreviation ByteArena := (ByteArena (D := D)).

(** The arena's bytes are the values, one after the other. *)
Record stores (a : ByteArena) (values : list bytes) : Prop := mkStores {
  st_spans : as_slice (ba_spans a) = spans_of 0 values;
  st_bytes : as_slice (ba_bytes a) = concat values;
  st_fits : zlen (concat values) <= u64_max
}.
Definition ids_at (by_hash : gmap D HashCandidates) (hash : D) : list Z := default [] (candidate_ids <$> by_hash !! hash).
(** The table finds the values seen so far. *)
Record finds (by_hash : gmap D HashCandidates) (seen : list bytes) : Prop := mkFinds {
  fi_ids : forall hash id, id ∈ ids_at by_hash hash <-> exists i value, id = Z.of_nat i /\ seen !! i = Some value /\ digest value = hash;
  fi_distinct : NoDup seen
}.
(** The values seen: all of an arena that grows, the first ones of one that is checked. *)
Definition seen_of (a : ByteArena) (values seen : list bytes) : Prop :=
  match ba_validation_next_id a with
  | None => seen = values /\ (exists bytes spans, ba_bytes a = Owned bytes /\ ba_spans a = Owned spans)
  | Some next_id => 0 <= next_id <= u32_max /\ seen = take (Z.to_nat next_id) values /\ (Z.to_nat next_id <= length values)%nat
  end.
Record arena_ok (a : ByteArena) (values seen : list bytes) : Prop := mkArenaOk {
  ao_stores : stores a values;
  ao_finds : finds (ba_by_hash a) seen;
  ao_seen : seen_of a values seen
}.

Lemma arena_get_exact a values i value : stores a values -> values !! i = Some value -> arena_get a (Z.of_nat i) = Ok value.
Proof.
  intros [Hspans Hbytes Hfits] Hi. unfold arena_get. rewrite Nat2Z.id, Hspans, (spans_of_lookup _ _ _ _ Hi). cbn [bs_offset bs_length].
  set (offset := 0 + zlen (concat (take i values))).
  assert (concat values = concat (take i values) ++ value ++ concat (drop (S i) values)) as Hcat.
  { rewrite <- (take_drop_middle _ _ _ Hi) at 1. rewrite concat_app. done. }
  assert (offset + zlen value <= zlen (concat values)) as Hle.
  { rewrite Hcat. unfold offset, zlen. rewrite !length_app. lia. }
  assert (0 <= offset /\ 0 <= zlen value) as [Ho Hv] by (unfold offset, zlen; lia).
  unfold try_from. unfold usize_max. destruct (Z.leb_spec offset u64_max); [|lia].
  rewrite checked_add_ok by lia. cbn [mbind option_bind]. destruct (Z.leb_spec (offset + zlen value) u64_max); [|lia].
  unfold get_range. rewrite Hbytes. destruct (Z.leb_spec offset (offset + zlen value)); [|lia].
  destruct (Z.leb_spec (offset + zlen value) (zlen (concat values))); [|lia]. cbn [andb ok_or]. f_equal.
  rewrite Hcat. unfold offset, zlen. rewrite Z.add_0_l, Nat2Z.id, drop_app_length.
  replace (Z.to_nat _) with (length value) by lia. apply take_app_length.
Qed.

Lemma first_match_spec a values value ids : stores a values ->
  Forall (fun id => exists i, id = Z.of_nat i /\ (i < length values)%nat) ids ->
  match first_match a value ids with
  | Ok (Some id) => id ∈ ids /\ values !! Z.to_nat id = Some value
  | Ok None => forall id, id ∈ ids -> values !! Z.to_nat id <> Some value
  | Err _ => False
  end.
Proof.
  intros Hst. induction 1 as [|id ids (i & -> & Hi) Hall IH]; cbn [first_match]; [intros id Hid; by apply not_elem_of_nil in Hid|].
  destruct (lookup_lt_is_Some_2 values i Hi) as [v Hv]. rewrite (arena_get_exact _ _ _ _ Hst Hv).
  destruct (decide (v = value)) as [->|Hne]; [rewrite bool_decide_true by done; split; [left|by rewrite Nat2Z.id]|].
  rewrite bool_decide_false by done. destruct (first_match a value ids) as [[id|]|e]; [|..|done].
  - destruct IH as [Hin Hid]. split; [by right|done].
  - intros id [->|Hid]%elem_of_cons; [rewrite Nat2Z.id, Hv; congruence|by apply IH].
Qed.

Lemma seen_lookup a values seen i value : seen_of a values seen -> seen !! i = Some value -> values !! i = Some value.
Proof.
  unfold seen_of. destruct (ba_validation_next_id a) as [k|].
  - intros (_ & -> & _) Hi. by apply lookup_take_Some in Hi as [? _].
  - by intros [-> _].
Qed.

(** The search of [intern]. *)
Lemma first_match_seen a values seen value : arena_ok a values seen ->
  match first_match a value (ids_at (ba_by_hash a) (digest value)) with
  | Ok (Some id) => 0 <= id /\ seen !! Z.to_nat id = Some value
  | Ok None => value ∉ seen
  | Err _ => False
  end.
Proof.
  intros [Hst [Hids Hnd] Hseen].
  assert (Forall (fun id => exists i, id = Z.of_nat i /\ (i < length values)%nat) (ids_at (ba_by_hash a) (digest value))) as Hall.
  { apply Forall_forall. intros id (i & v & -> & Hi & _)%Hids. exists i. split; [done|]. by eapply lookup_lt_Some, seen_lookup. }
  pose proof (first_match_spec a values value _ Hst Hall) as Hm. destruct (first_match _ _ _) as [[id|]|e]; [..|done].
  - destruct Hm as [Hin Hval]. apply Hids in Hin as (i & v & -> & Hi & _). split; [lia|]. rewrite Nat2Z.id in *.
    pose proof (seen_lookup _ _ _ _ _ Hseen Hi). congruence.
  - intros [i Hi]%list_elem_of_lookup_1. apply (Hm (Z.of_nat i)); [apply Hids; by exists i, value|].
    rewrite Nat2Z.id. by eapply seen_lookup.
Qed.

(** ** Interning *)

Context {W : Type} `{WorkGuard W} `{Allocator W} (table : MapId).
Abbreviation intern := (intern (W := W) digest table).

Lemma wp_answers {S A} (p : Prog W IndexError unit A) (Q : A -> S -> Prop) (R : IndexError -> S -> Prop) s :
  answers p (fun a => Q a s) (fun e => R e s) -> wp (with_local tt p) Q R s.
Proof. intros Ha. apply wp_local. intros w. specialize (Ha w). by destruct (p tt w) as [[[a|e] ?] ?]. Qed.

Lemma ids_at_insert by_hash hash hash' c :
  ids_at (<[hash := c]> by_hash) hash' = if decide (hash' = hash) then candidate_ids c else ids_at by_hash hash'.
Proof.
  unfold ids_at. destruct (decide (hash' = hash)) as [->|Hne]; [by rewrite lookup_insert_eq|by rewrite lookup_insert_ne].
Qed.

Lemma wp_insert_candidate (R : IndexError -> ByteArena -> Prop) hash id a : (forall e a', index_refused e -> R e a') ->
  wp (W := W) (insert_hash_candidate hash id) (fun _ a' => exists by_hash, a' = set_by_hash by_hash a
    /\ forall hash', ids_at by_hash hash' = ids_at (ba_by_hash a) hash' ++ (if decide (hash' = hash) then [id] else [])) R a.
Proof.
  intros HR. apply wp_bind, wp_get.
  assert (forall c, candidate_ids c = ids_at (ba_by_hash a) hash ++ [id] -> wp (W := W)
    (modify (set_by_hash (<[hash := c]> (ba_by_hash a)))) (fun _ a' => exists by_hash, a' = set_by_hash by_hash a
    /\ forall hash', ids_at by_hash hash' = ids_at (ba_by_hash a) hash' ++ (if decide (hash' = hash) then [id] else [])) R a) as Hset.
  { intros c Hc. apply wp_modify. eexists. split; [done|]. intros hash'. rewrite ids_at_insert.
    destruct (decide (hash' = hash)) as [->|]; [done|by rewrite app_nil_r]. }
  unfold ids_at in Hset at 1. destruct (ba_by_hash a !! hash) as [[first|ids]|]; [..|by apply Hset].
  all: apply wp_bind, wp_answers, (answers_index_reserve (fun e => R e a)); [auto|]; intros capacity; by apply Hset.
Qed.

Lemma wp_reserve_hash (Q : unit -> ByteArena -> Prop) (R : IndexError -> ByteArena -> Prop) present a :
  (forall e a', index_refused e -> R e a') -> Q tt a -> wp (W := W) (reserve_hash table present) Q R a.
Proof.
  intros HR HQ. apply wp_bind, wp_get. destruct present; [by apply wp_ret|].
  apply wp_answers, (answers_reserve_map (fun e => R e a)); [auto|done].
Qed.
Lemma wp_consume_node (Q : unit -> ByteArena -> Prop) (R : IndexError -> ByteArena -> Prop) a :
  (forall e a', index_refused e -> R e a') -> Q tt a -> wp (W := W) consume_node Q R a.
Proof. intros HR HQ. apply wp_answers, (answers_consume (fun e => R e a)); [done|]. intros x. by apply HR. Qed.

(** One more value in the table. *)
Lemma finds_snoc by_hash by_hash' seen value : finds by_hash seen -> value ∉ seen ->
  (forall hash', ids_at by_hash' hash' = ids_at by_hash hash' ++ (if decide (hash' = digest value) then [Z.of_nat (length seen)] else [])) ->
  finds by_hash' (seen ++ [value]).
Proof.
  intros [Hids Hnd] Hnew Hat. split.
  - intros hash id. rewrite Hat, elem_of_app, Hids. split.
    + intros [(i & v & -> & Hi & Hd)|Hin]; [exists i, v; split_and!; [done|by apply lookup_app_l_Some|done]|].
      destruct (decide (hash = digest value)) as [->|]; [|by apply not_elem_of_nil in Hin].
      apply list_elem_of_singleton in Hin as ->. exists (length seen), value. by rewrite lookup_app_r, Nat.sub_diag by lia.
    + intros (i & v & -> & Hi & Hd). apply lookup_app_Some in Hi as [Hi|[Hle Hi]]; [left; by exists i, v|right].
      apply list_lookup_singleton_Some in Hi as [Hi <-]. rewrite decide_True by done. apply list_elem_of_singleton. lia.
  - apply NoDup_app. split_and!; [done| |apply NoDup_singleton]. intros x Hx ->%list_elem_of_singleton. done.
Qed.

Definition arena_refused (e : IndexError) : Prop :=
  index_refused e \/ e = IndexMessage "control.budget_exceeded" "bounded arena byte limit exceeded".
(** What [intern] may report. *)
Definition intern_failed (a : ByteArena) (values seen : list bytes) (value : bytes) (e : IndexError) : Prop :=
  match ba_validation_next_id a with
  | None => arena_refused e
  | Some next_id => index_refused e \/ ((value ∉ seen) /\ values !! Z.to_nat next_id <> Some value)
                    \/ ((value ∉ seen) /\ next_id = u32_max)
  end.
(** What [intern] leaves: the value seen, and nothing else. *)
Definition interned (a : ByteArena) (values seen : list bytes) (value : bytes) (id : Z) (a' : ByteArena) : Prop :=
  0 <= id /\ remember seen value !! Z.to_nat id = Some value
  /\ (ba_validation_next_id a = None <-> ba_validation_next_id a' = None)
  /\ exists values', arena_ok a' values' (remember seen value)
       /\ (ba_validation_next_id a <> None -> values' = values).

Lemma remember_new seen value : value ∉ seen -> remember seen value = seen ++ [value].
Proof. intros Hn. unfold remember. by rewrite decide_False. Qed.

Lemma wp_intern_stored a values seen value present next_id :
  arena_ok a values seen -> value ∉ seen -> ba_validation_next_id a = Some next_id ->
  wp (W := W) (intern_stored digest table value present next_id) (interned a values seen value)
    (fun e _ => intern_failed a values seen value e) a.
Proof.
  intros [Hst Hfinds Hseen] Hnew Hnext. unfold intern_failed. rewrite Hnext.
  unfold seen_of in Hseen. rewrite Hnext in Hseen. destruct Hseen as (Hn & Hseen & Hle).
  assert (length seen = Z.to_nat next_id) as Hlen by (rewrite Hseen, length_take; lia).
  apply wp_bind, wp_get. apply wp_bind, wp_result.
  destruct (values !! Z.to_nat next_id) as [v|] eqn:Hv.
  2: { destruct (arena_get a next_id) as [v|e] eqn:Hg; [|right; left; by split].
       unfold arena_get in Hg. rewrite (st_spans _ _ Hst) in Hg. apply lookup_ge_None in Hv.
       rewrite (lookup_ge_None_2 (spans_of 0 values)) in Hg; [done|by rewrite length_spans_of]. }
  rewrite <- (Z2Nat.id next_id), (arena_get_exact _ _ _ _ Hst Hv), Z2Nat.id by lia.
  apply wp_bind, wp_fail_if; [|intros Hne%negb_true_iff%bool_decide_eq_false; right; left; split; [done|congruence]].
  intros ->%negb_false_iff%bool_decide_eq_true.
  apply wp_bind, wp_option. destruct (checked_add u32_max next_id 1) as [next|] eqn:Hadd.
  2: { right. right. split; [done|]. apply checked_add_None in Hadd. lia. }
  apply checked_add_Some in Hadd as [-> Hadd].
  assert (forall e (a' : ByteArena), index_refused e -> index_refused e
    \/ ((value ∉ seen) /\ Some value <> Some value) \/ ((value ∉ seen) /\ next_id = u32_max)) as HR by (by left).
  apply wp_bind, wp_modify. apply wp_bind, wp_consume_node; [done|]. apply wp_bind, wp_reserve_hash; [done|].
  apply wp_bind. eapply wp_mono; [apply wp_insert_candidate|intros [] a' (by_hash & -> & Hat); apply wp_ret|intros e a' He; exact He]; [done|].
  unfold interned. rewrite remember_new by done. split_and!; [lia| |cbn; by rewrite Hnext|].
  { rewrite lookup_app_r, <- Hlen, Nat.sub_diag by lia. done. }
  exists values. split; [|done]. split.
  - destruct Hst. by split.
  - cbn. apply (finds_snoc (ba_by_hash a)); [done|done|]. intros hash'. rewrite Hat. cbn. by rewrite Hlen, Z2Nat.id by lia.
  - unfold seen_of. cbn. split; [lia|]. replace (Z.to_nat (next_id + 1)) with (S (Z.to_nat next_id)) by lia.
    split; [by rewrite (take_S_r _ _ _ Hv), Hseen|apply lookup_lt_Some in Hv; lia].
Qed.

Lemma wp_intern_new a values seen value present :
  arena_ok a values seen -> value ∉ seen -> ba_validation_next_id a = None ->
  wp (W := W) (intern_new digest table value present) (interned a values seen value)
    (fun e _ => intern_failed a values seen value e) a.
Proof.
  intros [Hst Hfinds Hseen] Hnew Hnext. unfold intern_failed. rewrite Hnext.
  unfold seen_of in Hseen. rewrite Hnext in Hseen. destruct Hseen as (-> & bytes & spans & Hbytes & Hspans).
  destruct Hst as [Hsp Hby Hfit]. rewrite Hbytes in Hby. rewrite Hspans in Hsp. cbn [as_slice] in *.
  assert (forall e (a' : ByteArena), index_refused e -> arena_refused e) as HR by (by left).
  apply wp_bind, wp_get. apply wp_bind, wp_option. rewrite Hbytes. cbn [as_slice].
  unfold try_from. destruct (_ <=? _); cbn [mbind option_bind]; [|by left].
  destruct (checked_add u64_max (zlen (v_items bytes)) (zlen value)) as [n|] eqn:Hadd; [|by left]. apply checked_add_Some in Hadd as [-> Hadd].
  apply wp_bind, wp_fail_if; [intros _|by right]. apply wp_bind, wp_consume_node; [done|].
  apply wp_bind, wp_result. cbn [owned_mut]. apply wp_bind, wp_answers, (answers_index_reserve arena_refused); [auto|]. intros capacity.
  apply wp_bind, wp_modify. apply wp_bind, wp_result. rewrite Hspans. cbn [owned_mut].
  apply wp_bind, wp_answers, (answers_index_reserve arena_refused); [auto|]. intros spans_capacity.
  apply wp_bind, wp_modify. apply wp_bind, wp_option. destruct (Z.leb_spec (zlen (v_items spans)) u32_max) as [Hid|]; [|by left].
  apply wp_bind, wp_option. destruct (_ <=? _); [|by left]. apply wp_bind, wp_modify. apply wp_bind, wp_modify.
  apply wp_bind, wp_reserve_hash; [done|].
  apply wp_bind. eapply wp_mono; [apply wp_insert_candidate|intros [] a' (by_hash & -> & Hat); apply wp_ret|intros e a' He; exact He]; [done|].
  assert (zlen (v_items spans) = Z.of_nat (length values)) as Hlen by (unfold zlen; by rewrite Hsp, length_spans_of).
  unfold interned. rewrite remember_new by done. split_and!; [unfold zlen; lia| |cbn; by rewrite Hnext|].
  { rewrite Hlen, Nat2Z.id, lookup_app_r, Nat.sub_diag by lia. done. }
  exists (values ++ [value]). split; [|done]. split.
  - split; cbn [set_by_hash set_spans set_bytes ba_spans ba_bytes as_slice v_items].
    + rewrite spans_of_app, Hsp, Hby. done.
    + rewrite concat_app, Hby. cbn. by rewrite app_nil_r.
    + rewrite concat_app. cbn. rewrite app_nil_r. rewrite Hby in Hadd. unfold zlen in *. rewrite length_app. lia.
  - cbn. apply (finds_snoc (ba_by_hash a)); [done|done|]. intros hash'. rewrite Hat. cbn. by rewrite Hlen.
  - unfold seen_of. cbn. rewrite Hnext. split; [done|]. by eexists _, _.
Qed.

Lemma wp_intern a values seen value : arena_ok a values seen ->
  wp (intern value) (interned a values seen value) (fun e _ => intern_failed a values seen value e) a.
Proof.
  intros Hok. apply wp_bind, wp_get. apply wp_bind, wp_result.
  change (default [] (candidate_ids <$> ba_by_hash a !! digest value)) with (ids_at (ba_by_hash a) (digest value)).
  pose proof (first_match_seen a values seen value Hok) as Hm. destruct (first_match a value _) as [[id|]|e]; [..|done].
  - destruct Hm as [Hid Hv]. apply wp_ret. unfold interned, remember.
    rewrite decide_True by (by eapply list_elem_of_lookup_2). split_and!; [done|done|done|]. by exists values.
  - destruct (ba_validation_next_id a) as [next_id|] eqn:Hnext; [by apply wp_intern_stored|by apply wp_intern_new].
Qed.

(** *** Many values *)

Lemma first_occurrences_snoc values value : first_occurrences (values ++ [value]) = remember (first_occurrences values) value.
Proof. unfold first_occurrences. by rewrite foldl_app. Qed.
Lemma remember_prefix seen value : seen `prefix_of` remember seen value.
Proof. unfold remember. destruct (decide _); [done|by eexists]. Qed.
Lemma occurrences_prefix values rest : first_occurrences values `prefix_of` first_occurrences (values ++ rest).
Proof.
  revert values. induction rest as [|v rest IH]; intros values; [by rewrite app_nil_r|].
  etrans; [|specialize (IH (values ++ [v])); by rewrite <- app_assoc in IH].
  rewrite first_occurrences_snoc. apply remember_prefix.
Qed.

(** What a run of interning reports: refusals, and in a check that the stored
    values are not those of the run. *)
Definition interns_failed (a : ByteArena) (values all : list bytes) (e : IndexError) : Prop :=
  match ba_validation_next_id a with
  | None => arena_refused e
  | Some _ => index_refused e \/ values <> all \/ u32_max < Z.of_nat (length all)
  end.

Lemma intern_failed_run a values value done rest e : arena_ok a values (first_occurrences done) ->
  intern_failed a values (first_occurrences done) value e -> interns_failed a values (first_occurrences (done ++ value :: rest)) e.
Proof.
  intros [_ _ Hseen]. unfold intern_failed, interns_failed, seen_of in *. destruct (ba_validation_next_id a) as [k|]; [|done].
  destruct Hseen as (Hk & Hseen & Hle).
  assert (length (first_occurrences done) = Z.to_nat k) as Hlen by (rewrite Hseen, length_take; lia).
  pose proof (occurrences_prefix (done ++ [value]) rest) as [more Hmore]. rewrite <- app_assoc, first_occurrences_snoc in Hmore. cbn [app] in Hmore.
  intros [Hr|[[Hnew Hne]|[Hnew ->]]]; [by left|right; left|right; right]; rewrite remember_new in Hmore by done.
  - intros ->. apply Hne. rewrite Hmore, <- app_assoc, lookup_app_r, Hlen, Nat.sub_diag by lia. done.
  - rewrite Hmore, !length_app. cbn [length]. lia.
Qed.

Lemma wp_interns vs : forall done a values, arena_ok a values (first_occurrences done) ->
  wp (for_each vs intern) (fun ids a' =>
      Forall2 (fun value id => 0 <= id /\ first_occurrences (done ++ vs) !! Z.to_nat id = Some value) vs ids
      /\ (ba_validation_next_id a = None <-> ba_validation_next_id a' = None)
      /\ exists values', arena_ok a' values' (first_occurrences (done ++ vs)) /\ (ba_validation_next_id a <> None -> values' = values))
    (fun e _ => interns_failed a values (first_occurrences (done ++ vs)) e) a.
Proof.
  induction vs as [|v vs IH]; intros done a values Hok; cbn [for_each].
  { apply wp_ret. rewrite app_nil_r. split_and!; [constructor|done|]. by exists values. }
  apply wp_bind. eapply wp_mono; [by apply wp_intern|..|intros e a' He; by eapply intern_failed_run].
  intros id a' (Hid & Hv & Hmode & values' & Hok' & Hsame). rewrite <- first_occurrences_snoc in Hok'.
  specialize (IH (done ++ [v]) a' values' Hok'). rewrite <- app_assoc in IH. cbn [app] in IH.
  apply wp_bind. eapply wp_mono; [exact IH|..].
  - intros ids a'' (Hids & Hmode' & values'' & Hok'' & Hsame'). apply wp_ret. split_and!; [|by etrans|].
    + constructor; [split; [done|]|done]. rewrite <- first_occurrences_snoc in Hv. eapply prefix_lookup_Some; [exact Hv|].
      pose proof (occurrences_prefix (done ++ [v]) vs) as Hp. by rewrite <- app_assoc in Hp.
    + exists values''. split; [done|]. intros Hn. rewrite Hsame' by (by rewrite <- Hmode). by apply Hsame.
  - intros e a'' He. unfold interns_failed in *. destruct (ba_validation_next_id a) as [k|].
    + destruct (ba_validation_next_id a') as [k'|]; [|by destruct Hmode as [_ Hm]; specialize (Hm eq_refl)].
      by rewrite Hsame in He.
    + destruct Hmode as [Hm _]. by rewrite Hm in He.
Qed.

Lemma arena_new_ok max_bytes : arena_ok (arena_new max_bytes) [] (first_occurrences []).
Proof.
  split; [split; [done|done|unfold zlen, u64_max; cbn; lia]|split|split; [done|by eexists _, _]].
  - intros hash id. cbn. split; [by intros ?%not_elem_of_nil|]. by intros (i & v & _ & Hi & _).
  - constructor.
Qed.
Lemma arena_validation_ok source values : stores source values -> arena_ok (arena_validation source) values (first_occurrences []).
Proof.
  intros [Hs Hb Hf]. split; [by split|split|].
  - intros hash id. cbn. split; [by intros ?%not_elem_of_nil|]. by intros (i & v & _ & Hi & _).
  - constructor.
  - unfold seen_of. cbn. split; [unfold u32_max; lia|]. split; [by rewrite take_0|lia].
Qed.

Lemma complete_all a values seen : arena_ok a values seen -> ba_validation_next_id a <> None ->
  validate_dictionary_complete a = Ok tt <-> seen = values /\ Z.of_nat (length values) <= u32_max.
Proof.
  intros [Hst _ Hseen] Hmode. unfold validate_dictionary_complete. rewrite (st_spans _ _ Hst). unfold zlen. rewrite length_spans_of.
  unfold seen_of in Hseen. destruct (ba_validation_next_id a) as [k|]; [|done]. destruct Hseen as (Hk & -> & Hle). unfold try_from.
  destruct (Z.leb_spec (Z.of_nat (length values)) u32_max) as [Hfit|]; [|split; [done|lia]]. case_bool_decide as Heq.
  - injection Heq as ->. split; [|done]. intros _. by rewrite take_ge by lia.
  - split; [done|]. intros [Ht _]. apply (f_equal length) in Ht. rewrite length_take in Ht. destruct Heq. f_equal. lia.
Qed.

Lemma ids_unique (seen vs : list bytes) ids ids' : NoDup seen ->
  Forall2 (fun value id => 0 <= id /\ seen !! Z.to_nat id = Some value) vs ids ->
  Forall2 (fun value id => 0 <= id /\ seen !! Z.to_nat id = Some value) vs ids' -> ids' = ids.
Proof.
  intros Hnd Hids. revert ids'. induction Hids as [|v id vs ids [Hid Hv] _ IH]; intros ids' Hids'; inversion Hids' as [|? id' ? ? [Hid' Hv']]; subst; [done|].
  f_equal; [|by apply IH]. pose proof (NoDup_lookup _ _ _ _ Hnd Hv Hv'). lia.
Qed.

End dictionary.

(** C29: Interning a sequence of values, whatever the digest does, gives each
    value an id under which the arena returns exactly its bytes; the arena holds
    every value once, in the order of first occurrence.  Interning the same
    sequence against that arena as a check gives the same ids and ends complete,
    up to refusals. *)
Theorem arena_dictionary_exact {W D : Type} `{WorkGuard W} `{Allocator W} `{Countable D} (digest : bytes -> D) (table : MapId)
    (max_bytes : Z) (vs : list bytes) (w : W) :
  Z.of_nat (length (first_occurrences vs)) <= u32_max ->
  match for_each vs (intern digest table) (arena_new max_bytes) w with
  | (Ok ids, a, _) =>
      Forall2 (fun value id => arena_get a id = Ok value) vs ids
      /\ stores a (first_occurrences vs)
      /\ forall w', match for_each vs (intern digest table) (arena_validation a) w' with
                    | (Ok ids', a', _) => ids' = ids /\ validate_dictionary_complete a' = Ok tt
                    | (Err e, _, _) => index_refused e
                    end
  | (Err e, _, _) => arena_refused e
  end.
Proof.
  intros Hfit. pose proof (wp_interns (W := W) digest table vs [] _ _ (arena_new_ok digest max_bytes) w) as Hb.
  destruct (for_each vs _ _ w) as [[[ids|e] a] w1]; [|done]. destruct Hb as (Hids & [Hmode _] & values & Hok & _). cbn [app] in *.
  assert (stores a (first_occurrences vs)) as Hst.
  { destruct Hok as [Hst _ Hseen]. unfold seen_of in Hseen. rewrite Hmode in Hseen by done. by destruct Hseen as [<- _]. }
  split_and!; [|done|].
  - eapply Forall2_impl; [exact Hids|]. intros v id [Hid Hv]. rewrite <- (Z2Nat.id id) by done. by eapply arena_get_exact.
  - intros w'. pose proof (wp_interns (W := W) digest table vs [] _ _ (arena_validation_ok digest a _ Hst) w') as Hc.
    destruct (for_each vs _ _ w') as [[[ids'|e] a'] w2]; cbn [app] in Hc.
    + destruct Hc as (Hids' & Hmode' & values' & Hok' & Hsame). rewrite Hsame in Hok' by done. split.
      * by eapply ids_unique; [apply (fi_distinct _ _ _ (ao_finds _ _ _ _ Hok'))|..].
      * eapply complete_all; [exact Hok'| |done]. intros Hn. by apply Hmode' in Hn.
    + destruct Hc as [?|[?|?]]; [done|done|lia].
Qed.

Lemma arena_dictionary_exact_witness :
  let vs := [[x61; x62]; []; [x61; x62]; [x63]] in
  exists a w', for_each vs (intern (D := nat) (W := unit) (fun value => length value / 2)%nat ArenaHashes) (arena_new 16) tt = (Ok [0; 1; 0; 2], a, w')
    /\ stores a [[x61; x62]; []; [x63]].
Proof.
  intros vs. assert (exists a w', for_each vs (intern (D := nat) (W := unit) (fun value => length value / 2)%nat ArenaHashes) (arena_new 16) tt
    = (Ok [0; 1; 0; 2], a, w')) as (a & w' & Hrun) by (eexists _, _; vm_compute; reflexivity).
  exists a, w'. split; [exact Hrun|].
  pose proof (arena_dictionary_exact (W := unit) (fun value => length value / 2)%nat ArenaHashes 16 vs tt) as Ht. rewrite Hrun in Ht.
  destruct Ht as (_ & Hst & _); [vm_compute; discriminate|]. exact Hst.
Defined.

(** ** Checking a stored arena *)

Fixpoint contiguous (offset : Z) (spans : list ByteSpan) (stop : Z) : Prop :=
  match spans with
  | [] => offset = stop
  | span :: spans => bs_offset span = offset /\ contiguous (offset + bs_length span) spans stop
  end.

Lemma contiguous_snoc spans span : forall offset stop, contiguous offset spans stop -> bs_offset span = stop ->
  contiguous offset (spans ++ [span]) (stop + bs_length span).
Proof. induction spans as [|s spans IH]; intros offset stop Hc Hs; cbn in *; [by subst|]. destruct Hc. split; [done|by apply IH]. Qed.
Lemma contiguous_le spans : forall offset stop, Forall (fun span => 0 <= bs_length span) spans -> contiguous offset spans stop -> offset <= stop.
Proof.
  induction spans as [|s spans IH]; intros offset stop Hall Hc; cbn in *; [lia|]. apply Forall_cons in Hall as [Hs Hall]. destruct Hc as [_ Hc].
  specialize (IH _ _ Hall Hc). lia.
Qed.

(** Consecutive spans that cover the bytes are the spans of some values. *)
Lemma contiguous_values (all : bytes) spans : forall offset, 0 <= offset -> Forall (fun span => 0 <= bs_length span) spans ->
  contiguous offset spans (zlen all) -> exists values, spans = spans_of offset values /\ drop (Z.to_nat offset) all = concat values.
Proof.
  induction spans as [|span spans IH]; intros offset Ho Hall Hc; cbn in Hc.
  { exists []. split; [done|]. apply drop_ge. unfold zlen in Hc. lia. }
  apply Forall_cons in Hall as [Hlen Hall]. destruct Hc as [Hoff Hc]. pose proof (contiguous_le _ _ _ Hall Hc) as Hle.
  destruct (IH (offset + bs_length span) ltac:(lia) Hall Hc) as (values & Hspans & Hdrop).
  set (value := take (Z.to_nat (bs_length span)) (drop (Z.to_nat offset) all)).
  assert (zlen value = bs_length span) as Hvalue.
  { unfold value, zlen in *. rewrite length_take, length_drop. lia. }
  exists (value :: values). cbn. rewrite Hvalue. split; [rewrite <- Hspans, <- Hoff; by destruct span|].
  rewrite <- Hdrop. replace (Z.to_nat (offset + bs_length span)) with (Z.to_nat offset + Z.to_nat (bs_length span))%nat by lia.
  rewrite <- drop_drop. symmetry. apply take_drop.
Qed.

Section stored.
Context {W D : Type} `{WorkGuard W} `{Allocator W} `{Countable D} (digest : bytes -> D) (table : MapId).

(** The machine's limits on a slice and on the lengths of spans. *)
Record arena_words (a : ByteArena (D := D)) : Prop := mkArenaWords {
  aw_bytes : zlen (as_slice (ba_bytes a)) <= u64_max;
  aw_spans : Forall (fun span => 0 <= bs_length span) (as_slice (ba_spans a))
}.

Lemma answers_arena_validate (a : ByteArena (D := D)) : arena_words a ->
  answers (W := W) (arena_validate a) (fun _ => exists values, stores a values) (fun _ => True).
Proof.
  intros [Hbytes Hspans]. apply answers_bind, answers_fail_if; [intros _|done]. apply answers_bind. eapply answers_mono.
  - apply (answers_chunked_fold (fun _ => True) (fun _ => index_checkpoint) (as_slice (ba_spans a)) 0 span_turn
      (fun done expected => contiguous 0 done expected)); [intros n; by apply answers_index_checkpoint|done|].
    intros done span rest expected _ Hc. apply answers_bind, answers_fail_if; [intros Hoff%negb_false_iff%Z.eqb_eq|done].
    apply answers_option. destruct (checked_add _ _ _) as [next|] eqn:Hadd; [|done]. apply checked_add_Some in Hadd as [-> _].
    by apply contiguous_snoc.
  - intros expected Hc. apply answers_fail_if; [intros ->%negb_false_iff%Z.eqb_eq|done].
    destruct (contiguous_values _ _ 0 ltac:(lia) Hspans Hc) as (values & Hsp & Hby). cbn in Hby. exists values.
    split; [done|done|by rewrite <- Hby].
Qed.

End stored.

(** C28: A stored arena that [validate] accepts, and against which a sequence of
    values interns completely, holds exactly the values of that sequence, each
    once and in the order of first occurrence - whatever its bytes and spans were. *)
Theorem checked_arena_exact {W D : Type} `{WorkGuard W} `{Allocator W} `{Countable D} (digest : bytes -> D) (table : MapId)
    (source a : ByteArena (D := D)) (vs : list bytes) (ids : list Z) (w1 w2 w3 w4 : W) :
  arena_words source ->
  arena_validate source tt w1 = (Ok tt, tt, w2) ->
  for_each vs (intern digest table) (arena_validation source) w3 = (Ok ids, a, w4) ->
  validate_dictionary_complete a = Ok tt ->
  stores source (first_occurrences vs) /\ Forall2 (fun value id => arena_get source id = Ok value) vs ids.
Proof.
  intros Hwords Hvalid Hrun Hcomplete. pose proof (answers_arena_validate (W := W) source Hwords w1) as Hv. rewrite Hvalid in Hv.
  destruct Hv as [values Hst].
  pose proof (wp_interns (W := W) digest table vs [] _ _ (arena_validation_ok digest source values Hst) w3) as Hi. rewrite Hrun in Hi.
  destruct Hi as (Hids & Hmode & values' & Hok & Hsame). rewrite Hsame in Hok by done. cbn [app] in *.
  destruct (proj1 (complete_all digest a values _ Hok ltac:(intros Hn; by apply Hmode in Hn)) Hcomplete) as [<- _].
  split; [done|]. eapply Forall2_impl; [exact Hids|]. intros v id [Hid Hl]. rewrite <- (Z2Nat.id id) by done. by eapply arena_get_exact.
Qed.

Lemma checked_arena_exact_witness :
  let vs := [[x61; x62]; []; [x61; x62]; [x63]] in
  let source := from_owned_parts (D := nat) (mkVec [x61; x62; x63] 8) (mkVec [mkByteSpan 0 2; mkByteSpan 2 0; mkByteSpan 2 1] 4) 16 in
  stores source [[x61; x62]; []; [x63]].
Proof.
  intros vs source.
  assert (exists a, for_each vs (intern (W := unit) (fun value => length value / 2)%nat ArenaHashes) (arena_validation source) tt = (Ok [0; 1; 0; 2], a, tt)
    /\ validate_dictionary_complete a = Ok tt) as (a & Hrun & Hcomplete)
    by (eexists; split; [vm_compute; reflexivity|vm_compute; reflexivity]).
  apply (checked_arena_exact (W := unit) (fun value => length value / 2)%nat ArenaHashes source a vs [0; 1; 0; 2] tt tt tt tt).
  - split; [vm_compute; discriminate|]. repeat constructor; cbn; lia.
  - vm_compute. reflexivity.
  - exact Hrun.
  - exact Hcomplete.
Defined.
