(* ===== verification/Catalog.v ===== *)
(** * The catalog of indexes

    Models the normalized catalog of [qtrace-store/src/index/mod.rs] and
    [build_indexes] of [index/builder.rs]: from the keys, kinds and typed rows of
    a trace, a posting list per value of every dimension, the sorted pairs of the
    range dimensions, the index of memory accesses and the index of source keys. *)

From stdpp Require Import prelude list sorting strings gmap.
From Stdlib Require Import ZArith Lia Strings.Byte Sorted.
From S2P Require Import Prelude Prog Control Model FlightContext FlightSort Answers Index Orders IndexSort Intervals Postings SourceKeys KeyedMaps Arena.
Local Open Scope string_scope.
Local Open Scope list_scope.
Local Open Scope Z_scope.

Record EventColumn := mkEventColumn {
  ec_scope : EventScope;
  ec_provenance : Provenance;
  ec_payload_blob : Z
}.
Record ModuleRow := mkModuleRow {
  mw_source_event_row : nat;
  mw_provenance : Provenance;
  mw_source_id : Z;
  mw_base : Z;
  mw_name : Z
}.

Record IndexCatalog := mkIndexCatalog {
  ic_timeline : SortedMap PostingList;
  ic_tid : SortedMap PostingList;
  ic_kind : SortedMap PostingList;
  ic_module : SortedMap PostingList;
  ic_definition : SortedMap PostingList;
  ic_register : SortedMap PostingList;
  ic_semantic_category : SortedMap PostingList;
  ic_semantic_name : SortedMap PostingList;
  ic_call : PostingList;
  ic_return_rows : PostingList;
  ic_checkpoint : PostingList;
  ic_sequence : list (Z * nat);
  ic_module_pc : SortedMap (list (Z * nat));
  ic_memory : IntervalIndex;
  ic_source_keys : SourceKeyIndex
}.

(** [layout::encode_event_kind] *)
Definition encode_event_kind (kind : EventKind) : Z :=
  match kind with
  | KBegin => 0 | KModuleDefinition => 1 | KInstructionDefinition => 2 | KInstruction => 3 | KMemory => 4
  | KSemanticCall => 5 | KSemanticRule => 6 | KSemanticError => 7 | KThreadLifecycle => 8 | KSyscall => 9
  | KSignal => 10 | KSignalHandlerBoundary => 11 | KTermination => 12 | KRegisterCheckpoint => 13
  | KRegisterDelta => 14 | KStringDefinition => 15 | KCoverageGap => 16 | KDiscontinuity => 17 | KOpaqueOptional => 18
  end.

(** The rows the indexes are built from. *)
Record NormalizedRows := mkNormalizedRows {
  nr_keys : list EventKey;
  nr_kinds : list EventKind;
  nr_events : list EventColumn;
  nr_definitions : list DefinitionRow;
  nr_instructions : list InstructionRow;
  nr_memories : list MemoryRow;
  nr_semantics : list SemanticRow;
  nr_observations : list RegisterObservationRow
}.

(** [flags & (1 << bit) != 0] of the definition an instruction names. *)
Definition definition_flag (definitions : list DefinitionRow) (bit : Z) (row : InstructionRow) : bool :=
  match ir_definition row ≫= (fun id => definitions !! Z.to_nat id) with
  | Some definition => Z.testbit (dr_flags definition) bit
  | None => false
  end.
Definition interval_of (row : MemoryRow) : option IntervalEntry :=
  if mr_address row <? mr_end_exclusive row
  then Some (mkIntervalEntry (mr_address row) (mr_end_exclusive row) (mr_owner_row row)) else None.

Section catalog.
Context {W : Type} `{WorkGuard W} `{Allocator W} `{UnstableSort} `{HashIteration}.
Abbreviation M := (Prog W IndexError unit).

(** A loop that pushes what [f] makes of a row, with its checkpoint. *)
Definition push_some {X Y} (xs : list X) (f : nat -> X -> option Y) : M (list Y) :=
  fold_each (imap pair xs) [] (fun out '(ordinal, x) =>
    checkpoint_every ordinal ;!
    ret (match f ordinal x with Some y => out ++ [y] | None => out end)).
(** [reserved_pairs] or [reserved_rows], then the loop. *)
Definition collect {X Y} (t : RustType) (count : nat) (label : string) (xs : list X) (f : nat -> X -> option Y) : M (list Y) :=
  index_reserve_new t count label ;! push_some xs f.

(** The loop over the instructions that fills the calls and the returns. *)
Definition calls_and_returns (definitions : list DefinitionRow) (instructions : list InstructionRow) : M (list nat * list nat) :=
  fold_each (imap pair instructions) ([], []) (fun '(calls, returns) '(ordinal, row) =>
    checkpoint_every ordinal ;!
    ret (if definition_flag definitions 2 row then calls ++ [ir_owner_row row] else calls,
         if definition_flag definitions 3 row then returns ++ [ir_owner_row row] else returns)).

Definition build_indexes (rows : NormalizedRows) (interval_block_rows : nat) : M IndexCatalog :=
  let keys := nr_keys rows in
  let instructions := nr_instructions rows in
  let observations := nr_observations rows in
  let semantics := nr_semantics rows in
  let event_count := length (nr_events rows) in
  let! timeline := keyed_posting_partition TimelineGroups event_count
    (fun row => let! key := row_at keys row in ret (Some (ek_timeline key))) in
  let! tid := keyed_posting_partition TidGroups event_count
    (fun row => let! key := row_at keys row in ret (ek_tid key)) in
  let! kind := keyed_posting_partition KindGroups (length (nr_kinds rows))
    (fun row => let! kind := row_at (nr_kinds rows) row in ret (Some (encode_event_kind kind))) in
  let! sequence := collect T_pair event_count "sequence index" keys
    (fun row key => option_map (fun value => (value, row)) (ek_sequence key)) in
  let! sequence := cancellable_sort_by (compare_pair Z.compare Nat.compare) T_pair sequence in
  let! module_pairs := collect T_pair (length instructions) "module index" instructions
    (fun _ row => option_map (fun id => (id, ir_owner_row row)) (ir_module row)) in
  let! module := keyed_postings module_pairs in
  let! definition_pairs := collect T_pair (length instructions) "definition index" instructions
    (fun _ row => option_map (fun id => (id, ir_owner_row row)) (ir_definition row)) in
  let! definition := keyed_postings definition_pairs in
  index_reserve_new T_usize (length instructions) "call index" ;!
  index_reserve_new T_usize (length instructions) "return index" ;!
  let! calls := calls_and_returns (nr_definitions rows) instructions in
  let! call := from_rows (fst calls) in
  let! return_rows := from_rows (snd calls) in
  let! pc_pairs := collect T_keyed_pair (length instructions) "module PC index" instructions
    (fun _ row => option_map (fun id => (id, (ir_relative_pc row, ir_owner_row row))) (ir_module row)) in
  let! module_pc := keyed_values pc_pairs in
  let! register_pairs := collect T_pair (length observations) "register index" observations
    (fun _ row => Some (or_slot row, or_owner_row row)) in
  let! register := keyed_postings register_pairs in
  let! checkpoint := collect T_usize (length observations) "checkpoint index" observations
    (fun _ row => if bool_decide (or_access row = AccessCheckpoint) then Some (or_owner_row row) else None) in
  let! checkpoint := cancellable_sort_by Nat.compare T_usize checkpoint in
  let! checkpoint := from_rows (dedup checkpoint) in
  let! semantic_category_pairs := collect T_pair (length semantics) "semantic category index" semantics
    (fun _ row => option_map (fun category => (category, sr_owner_row row)) (sr_category row)) in
  let! semantic_category := keyed_postings semantic_category_pairs in
  let! semantic_name_pairs := collect T_pair (length semantics) "semantic name index" semantics
    (fun _ row => Some (sr_name row, sr_owner_row row)) in
  let! semantic_name := keyed_postings semantic_name_pairs in
  let! intervals := collect T_IntervalEntry (length (nr_memories rows)) "memory interval allocation" (nr_memories rows)
    (fun _ row => interval_of row) in
  let! memory := interval_build intervals interval_block_rows in
  let! source_keys := keys_build keys in
  ret (mkIndexCatalog timeline tid kind module definition register semantic_category semantic_name
         call return_rows checkpoint sequence module_pc memory source_keys).

End catalog.

(** ** What the indexes mean *)

(** The rows of the instructions that satisfy [f]. *)
Definition owners (f : InstructionRow -> bool) (instructions : list InstructionRow) : list nat :=
  map ir_owner_row (List.filter f instructions).
Definition intervals_of (rows : NormalizedRows) : list IntervalEntry := omap interval_of (nr_memories rows).

Definition collected {X Y} (xs : list X) (f : nat -> X -> option Y) : list Y := omap (fun '(i, x) => f i x) (imap pair xs).

Lemma collected_elem {X Y} (xs : list X) (f : nat -> X -> option Y) y :
  y ∈ collected xs f <-> exists i x, xs !! i = Some x /\ f i x = Some y.
Proof.
  unfold collected. rewrite list_elem_of_omap. split.
  - intros ([i x] & Hin & Hf). apply list_elem_of_lookup_1 in Hin as [j Hj]. rewrite list_lookup_imap_Some in Hj.
    destruct Hj as (x' & Hx & [= -> ->]). by exists j, x'.
  - intros (i & x & Hx & Hf). exists (i, x). split; [|done]. apply (list_elem_of_lookup_2 _ i). by rewrite list_lookup_imap, Hx.
Qed.
Lemma collected_elem_plain {X Y} (xs : list X) (f : X -> option Y) y :
  y ∈ collected xs (fun _ => f) <-> exists x, x ∈ xs /\ f x = Some y.
Proof.
  rewrite collected_elem. split.
  - intros (i & x & Hx & Hf). exists x. split; [by eapply list_elem_of_lookup_2|done].
  - intros (x & Hx & Hf). apply list_elem_of_lookup_1 in Hx as [i Hi]. by exists i, x.
Qed.
Lemma collected_plain {X Y} (xs : list X) (f : X -> option Y) : collected xs (fun _ => f) = omap f xs.
Proof.
  unfold collected. rewrite <- (imap_pair_snd xs) at 2. generalize (imap pair xs). intros l.
  induction l as [|[i x] l IH]; [done|]. cbn. destruct (f x); by rewrite IH.
Qed.

(** The sequence numbers of the events, and the addresses of the instructions by
    module, each with its row. *)
Definition sequence_pairs (rows : NormalizedRows) : list (Z * nat) :=
  collected (nr_keys rows) (fun row key => option_map (fun value => (value, row)) (ek_sequence key)).
Definition pc_pairs (rows : NormalizedRows) : list (Z * (Z * nat)) :=
  collected (nr_instructions rows) (fun _ i => option_map (fun id => (id, (ir_relative_pc i, ir_owner_row i))) (ir_module i)).

Lemma sequence_pairs_elem rows value row :
  (value, row) ∈ sequence_pairs rows <-> exists key, nr_keys rows !! row = Some key /\ ek_sequence key = Some value.
Proof.
  unfold sequence_pairs. rewrite collected_elem. split.
  - intros (i & key & Hk & Hf). exists key. destruct (ek_sequence key); [|done]. cbn in Hf. by injection Hf as <- <-.
  - intros (key & Hk & Hq). exists row, key. by rewrite Hq.
Qed.
Lemma pc_pairs_elem rows id pc row :
  (id, (pc, row)) ∈ pc_pairs rows <->
  exists i, i ∈ nr_instructions rows /\ ir_module i = Some id /\ ir_relative_pc i = pc /\ ir_owner_row i = row.
Proof.
  unfold pc_pairs. rewrite collected_elem_plain. split.
  - intros (i & Hi & Hf). exists i. destruct (ir_module i); [|done]. cbn in Hf. by injection Hf as <- <- <-.
  - intros (i & Hi & Hm & <- & <-). exists i. by rewrite Hm.
Qed.

Record catalog_of (rows : NormalizedRows) (ic : IndexCatalog) : Prop := mkCatalogOf {
  co_timeline : posts (fun timeline row => exists key, nr_keys rows !! row = Some key /\ ek_timeline key = timeline) (ic_timeline ic);
  co_tid : posts (fun tid row => exists key, nr_keys rows !! row = Some key /\ ek_tid key = Some tid) (ic_tid ic);
  co_kind : posts (fun code row => exists kind, nr_kinds rows !! row = Some kind /\ encode_event_kind kind = code) (ic_kind ic);
  co_module : posts (fun id row => exists i, i ∈ nr_instructions rows /\ ir_module i = Some id /\ ir_owner_row i = row) (ic_module ic);
  co_definition : posts (fun id row => exists i, i ∈ nr_instructions rows /\ ir_definition i = Some id /\ ir_owner_row i = row) (ic_definition ic);
  co_register : posts_for (fun slot => 0 <= slot < REGISTER_SLOT_COUNT)
    (fun slot row => exists o, o ∈ nr_observations rows /\ or_slot o = slot /\ or_owner_row o = row) (ic_register ic);
  co_category : posts (fun id row => exists s, s ∈ nr_semantics rows /\ sr_category s = Some id /\ sr_owner_row s = row) (ic_semantic_category ic);
  co_name : posts (fun id row => exists s, s ∈ nr_semantics rows /\ sr_name s = id /\ sr_owner_row s = row) (ic_semantic_name ic);
  co_call : encodes (owners (definition_flag (nr_definitions rows) 2) (nr_instructions rows)) (ic_call ic);
  co_return : encodes (owners (definition_flag (nr_definitions rows) 3) (nr_instructions rows)) (ic_return_rows ic);
  co_checkpoint : exists out, encodes out (ic_checkpoint ic)
    /\ forall row, row ∈ out <-> exists o, o ∈ nr_observations rows /\ or_access o = AccessCheckpoint /\ or_owner_row o = row;
  co_sequence : StronglySorted (cmp_le (compare_pair Z.compare Nat.compare)) (ic_sequence ic)
    /\ ic_sequence ic ≡ₚ sequence_pairs rows;
  co_module_pc : keeps_values (pc_pairs rows) (ic_module_pc ic);
  co_memory : indexed (intervals_of rows) (ic_memory ic);
  co_source_keys : indexes_keys (nr_keys rows) (ic_source_keys ic)
}.

(** Tables that fit together, with row numbers of the machine. *)
Record rows_ok (rows : NormalizedRows) : Prop := mkRowsOk {
  ro_keys : length (nr_keys rows) = length (nr_events rows);
  ro_count : Z.of_nat (length (nr_events rows)) <= usize_max;
  ro_kinds : Z.of_nat (length (nr_kinds rows)) <= usize_max;
  ro_instructions : Forall (fun i => small_row (ir_owner_row i)) (nr_instructions rows);
  ro_observations : Forall (fun o => small_row (or_owner_row o)) (nr_observations rows);
  ro_semantics : Forall (fun s => small_row (sr_owner_row s)) (nr_semantics rows);
  ro_memories : Forall (fun m => small_row (mr_owner_row m)) (nr_memories rows)
}.
(** What the builder checks of its input: distinct keys, a block size, and calls
    and returns in order. *)
Definition buildable_rows (rows : NormalizedRows) (block_rows : nat) : Prop :=
  NoDup (nr_keys rows) /\ buildable (intervals_of rows) block_rows
  /\ StronglySorted lt (owners (definition_flag (nr_definitions rows) 2) (nr_instructions rows))
  /\ StronglySorted lt (owners (definition_flag (nr_definitions rows) 3) (nr_instructions rows)).

Lemma posts_iff (P Q : Z -> nat -> Prop) m : (forall key row, P key row <-> Q key row) -> posts P m -> posts Q m.
Proof.
  intros Hpq [Hs Hr Hk]. split; [done| |].
  - intros key posting Hin. destruct (Hr _ _ Hin) as (rows & He & Hrows). exists rows. split; [done|]. intros row. by rewrite Hrows.
  - intros key row Hq. apply (Hk key row). by apply Hpq.
Qed.

Section build.
Context {W : Type} `{WorkGuard W} `{Allocator W} `{UnstableSort} `{HashIteration}.
Context (rows : NormalizedRows) (block_rows : nat) (Hok : rows_ok rows).

Definition build_fault (e : IndexError) : Prop := index_refused e \/ ~ buildable_rows rows block_rows.
Lemma fault_refused e : index_refused e -> build_fault e.
Proof. by left. Qed.

Lemma answers_collect_rows {X Y} t n label (xs : list X) (f : nat -> X -> option Y) :
  answers (W := W) (collect t n label xs f) (fun out => out = collected xs f) build_fault.
Proof.
  apply answers_bind, answers_reserve_new; [exact fault_refused|]. eapply answers_mono.
  - apply (answers_fold _ (imap pair xs) _ _ (fun done out => out = omap (fun '(i, x) => f i x) done)); [done|].
    intros done [i x] rest out _ ->. apply answers_bind, answers_checkpoint_every; [exact fault_refused|]. apply answers_ret.
    rewrite omap_app. cbn. destruct (f i x); [done|by rewrite app_nil_r].
  - by intros out ->.
Qed.

Lemma answers_calls definitions instructions :
  answers (W := W) (calls_and_returns definitions instructions) (fun out =>
    out = (owners (definition_flag definitions 2) instructions, owners (definition_flag definitions 3) instructions)) build_fault.
Proof.
  eapply answers_mono.
  - apply (answers_fold _ (imap pair instructions) _ _ (fun done out =>
      out = (owners (definition_flag definitions 2) (map snd done), owners (definition_flag definitions 3) (map snd done)))); [done|].
    intros done [i row] rest out _ ->. apply answers_bind, answers_checkpoint_every; [exact fault_refused|]. apply answers_ret.
    unfold owners. rewrite !map_app, !List.filter_app, !map_app. cbn [map snd List.filter].
    destruct (definition_flag definitions 2 row), (definition_flag definitions 3 row); cbn; by rewrite ?app_nil_r.
  - intros out ->. by rewrite imap_pair_snd.
Qed.

(** The postings of rows that have an optional id each. *)
Lemma answers_keyed_collected {X} (xs : list X) (id_of : X -> option Z) (row_of : X -> nat) :
  Forall (fun x => small_row (row_of x)) xs ->
  answers (W := W) (keyed_postings (collected xs (fun _ x => option_map (fun id => (id, row_of x)) (id_of x))))
    (posts (fun id row => exists x, x ∈ xs /\ id_of x = Some id /\ row_of x = row)) build_fault.
Proof.
  intros Hsmall. eapply answers_mono; [apply answers_keyed_postings; [exact fault_refused|]|].
  - apply Forall_forall. intros row Hin. apply list_elem_of_In, in_map_iff in Hin as ([id r] & <- & Hin). apply list_elem_of_In in Hin.
    apply collected_elem_plain in Hin as (x & Hx & Hf). apply (proj1 (Forall_forall _ _) Hsmall) in Hx.
    destruct (id_of x); [|done]. cbn in Hf. by injection Hf as <- <-.
  - intros m. apply posts_iff. intros id row. rewrite collected_elem_plain. split.
    + intros (x & Hx & Hf). exists x. destruct (id_of x); [|done]. cbn in Hf. by injection Hf as -> ->.
    + intros (x & Hx & Hid & <-). exists x. by rewrite Hid.
Qed.

Lemma answers_partition_by {X} (xs : list X) n id (f : X -> option Z) : n = length xs -> Z.of_nat n <= usize_max ->
  answers (W := W) (keyed_posting_partition id n (fun row => let! x := row_at xs row in ret (f x)))
    (posts (fun key row => exists x, xs !! row = Some x /\ f x = Some key)) build_fault.
Proof.
  intros -> Hn. eapply answers_mono.
  - apply (answers_keyed_posting_partition build_fault fault_refused (fun row => xs !! row ≫= f)); [|done].
    intros row Hrow. destruct (lookup_lt_is_Some_2 xs row Hrow) as [x Hx].
    apply answers_bind, (answers_row_at _ _ _ x); [done|]. apply answers_ret. by rewrite Hx.
  - intros m. apply posts_iff. intros key row. split.
    + intros [Hrow Hk]. destruct (xs !! row) as [x|]; [|done]. by exists x.
    + intros (x & Hx & Hf). rewrite Hx. split; [by apply lookup_lt_Some in Hx|done].
Qed.

(** Rows that have to be in order. *)
Lemma answers_from_owners owned : Forall small_row owned -> (buildable_rows rows block_rows -> StronglySorted lt owned) ->
  answers (W := W) (from_rows owned) (fun posting => encodes owned posting) build_fault.
Proof.
  intros Hsmall Hs. eapply answers_weaken; [apply answers_from_rows|done|].
  - eapply Forall_impl; [exact Hsmall|]. unfold small_row, in_usize. intros; lia.
  - intros e [Hr|Hn]; [by left|right]. intros Hb. apply Hn, encodable_rows; [by apply Hs|done].
Qed.

Lemma owners_small f : Forall small_row (owners f (nr_instructions rows)).
Proof.
  apply Forall_forall. intros row Hin. apply list_elem_of_In, in_map_iff in Hin as (i & <- & Hi). apply filter_In in Hi as [Hi _].
  apply (proj1 (Forall_forall _ _) (ro_instructions _ Hok)). by apply list_elem_of_In.
Qed.

Definition checkpoint_row (row : nat) : Prop :=
  exists o, o ∈ nr_observations rows /\ or_access o = AccessCheckpoint /\ or_owner_row o = row.

Lemma answers_checkpoint_rows count label :
  answers (W := W)
    (let! checkpoint := collect T_usize count label (nr_observations rows)
       (fun _ row => if bool_decide (or_access row = AccessCheckpoint) then Some (or_owner_row row) else None) in
     cancellable_sort_by Nat.compare T_usize checkpoint)
    (fun sorted => StronglySorted (cmp_le Nat.compare) sorted /\ forall row, row ∈ sorted <-> checkpoint_row row) build_fault.
Proof.
  apply answers_bind. eapply answers_mono; [apply answers_collect_rows|]. intros ? ->.
  eapply answers_weaken; [apply (answers_cancellable_sort Nat.compare)| |exact fault_refused]. intros sorted [Hperm Hs].
  split; [done|]. intros row. rewrite Hperm, collected_elem_plain. split.
  - intros (o & Ho & Hf). exists o. case_bool_decide; [|done]. by injection Hf as ->.
  - intros (o & Ho & Ha & <-). exists o. by rewrite bool_decide_true.
Qed.
Lemma answers_checkpoint_index sorted : StronglySorted (cmp_le Nat.compare) sorted -> (forall row, row ∈ sorted <-> checkpoint_row row) ->
  answers (W := W) (from_rows (dedup sorted)) (fun posting => exists out, encodes out posting /\ forall row, row ∈ out <-> checkpoint_row row) build_fault.
Proof.
  intros Hs Hrows. pose proof (dedup_rows _ Hs) as [Hd Hin].
  eapply answers_mono; [apply answers_from_rows_of; [exact fault_refused|done|]|].
  - apply Forall_forall. intros row Hrow%Hin%Hrows. destruct Hrow as (o & Ho & _ & <-). by apply (proj1 (Forall_forall _ _) (ro_observations _ Hok)).
  - intros posting He. exists (dedup sorted). split; [done|]. intros row. by rewrite Hin, Hrows.
Qed.

Lemma answers_sequence_index :
  answers (W := W)
    (let! sequence := collect T_pair (length (nr_events rows)) "sequence index" (nr_keys rows)
       (fun row key => option_map (fun value => (value, row)) (ek_sequence key)) in
     cancellable_sort_by (compare_pair Z.compare Nat.compare) T_pair sequence)
    (fun sequence => StronglySorted (cmp_le (compare_pair Z.compare Nat.compare)) sequence /\ sequence ≡ₚ sequence_pairs rows) build_fault.
Proof.
  apply answers_bind. eapply answers_mono; [apply answers_collect_rows|]. intros ? ->.
  eapply answers_weaken; [apply (answers_cancellable_sort (compare_pair Z.compare Nat.compare))| |exact fault_refused].
  by intros sorted [Hperm Hs].
Qed.

Lemma answers_module_pc_index :
  answers (W := W)
    (let! pc_pairs := collect T_keyed_pair (length (nr_instructions rows)) "module PC index" (nr_instructions rows)
       (fun _ row => option_map (fun id => (id, (ir_relative_pc row, ir_owner_row row))) (ir_module row)) in
     keyed_values pc_pairs)
    (keeps_values (pc_pairs rows)) build_fault.
Proof.
  apply answers_bind. eapply answers_mono; [apply answers_collect_rows|]. intros ? ->.
  apply answers_keyed_values. exact fault_refused.
Qed.

(** One step of the builder, with what it is followed by. *)
Lemma answers_then {A B} (p : Prog W IndexError unit A) (k : A -> Prog W IndexError unit B) (P : A -> Prop) Q :
  answers p P build_fault -> (forall a, P a -> answers (k a) Q build_fault) -> answers (bind p k) Q build_fault.
Proof. intros Hp Hk. apply answers_bind. by eapply answers_mono. Qed.
Lemma answers_then_assoc {A B C} (p : Prog W IndexError unit A) (q : A -> Prog W IndexError unit B) (k : B -> Prog W IndexError unit C) (P : B -> Prop) Q :
  answers (bind p q) P build_fault -> (forall b, P b -> answers (k b) Q build_fault) ->
  answers (let! a := p in let! b := q a in k b) Q build_fault.
Proof.
  intros Hp Hk w. specialize (Hp w). unfold bind in *. destruct (p tt w) as [[[a|e] []] w1]; [|done].
  destruct (q a tt w1) as [[[b|e] []] w2]; [|done]. by apply Hk.
Qed.

Lemma answers_build_indexes :
  answers (W := W) (build_indexes rows block_rows) (fun ic => catalog_of rows ic) build_fault.
Proof.
  pose proof (ro_keys _ Hok) as Hkeys. pose proof (ro_count _ Hok) as Hcount. unfold build_indexes.
  eapply answers_then; [apply (answers_partition_by (nr_keys rows) _ _ (fun key => Some (ek_timeline key))); [done|done]|]. intros timeline Htimeline.
  eapply answers_then; [apply (answers_partition_by (nr_keys rows) _ _ ek_tid); [done|done]|]. intros tid Htid.
  eapply answers_then; [apply (answers_partition_by (nr_kinds rows) _ _ (fun kind => Some (encode_event_kind kind)) eq_refl), (ro_kinds _ Hok)|].
  intros kind Hkind. eapply answers_then_assoc; [apply answers_sequence_index|]. intros sequence Hsequence.
  eapply answers_then; [apply answers_collect_rows|]. intros ? ->.
  eapply answers_then; [apply answers_keyed_collected, Hok|]. intros module Hmodule.
  eapply answers_then; [apply answers_collect_rows|]. intros ? ->.
  eapply answers_then; [apply answers_keyed_collected, Hok|]. intros definition Hdefinition.
  apply answers_bind, answers_reserve_new; [exact fault_refused|]. apply answers_bind, answers_reserve_new; [exact fault_refused|].
  eapply answers_then; [apply answers_calls|]. intros ? ->. cbn [fst snd].
  eapply answers_then; [apply answers_from_owners; [apply owners_small|by intros (_ & _ & ? & _)]|]. intros call Hcall.
  eapply answers_then; [apply answers_from_owners; [apply owners_small|by intros (_ & _ & _ & ?)]|]. intros return_rows Hreturn.
  eapply answers_then_assoc; [apply answers_module_pc_index|]. intros module_pc Hpc.
  eapply answers_then; [apply answers_collect_rows|]. intros ? ->.
  eapply answers_then; [apply (answers_keyed_collected (nr_observations rows) (fun o => Some (or_slot o)) or_owner_row), Hok|]. intros register Hregister.
  eapply answers_then_assoc; [apply answers_checkpoint_rows|]. intros sorted [Hsorted Hcheck].
  eapply answers_then; [by apply answers_checkpoint_index|]. intros checkpoint Hcheckpoint.
  eapply answers_then; [apply answers_collect_rows|]. intros ? ->.
  eapply answers_then; [apply answers_keyed_collected, Hok|]. intros category Hcategory.
  eapply answers_then; [apply answers_collect_rows|]. intros ? ->.
  eapply answers_then; [apply (answers_keyed_collected (nr_semantics rows) (fun s => Some (sr_name s)) sr_owner_row), Hok|]. intros name Hname.
  eapply answers_then; [apply answers_collect_rows|]. intros ? ->. rewrite collected_plain.
  eapply answers_then; [eapply answers_weaken; [apply answers_interval_build|done|]|].
  { intros e [Hr|Hn]; [by left|right]. intros (_ & Hb & _). by apply Hn. }
  intros memory [_ Hmemory]. eapply answers_then; [eapply answers_weaken; [apply answers_keys_build|done|]|].
  { intros e [Hr|[_ Hn]]; [by left|right]. intros (Hnd & _). by apply Hn. }
  intros source_keys Hsource. apply answers_ret.
  split; cbn; try done.
  - eapply posts_iff; [|exact Htimeline]. naive_solver.
  - eapply posts_iff; [|exact Hkind]. naive_solver.
  - apply posts_for_all. eapply posts_iff; [|exact Hregister]. naive_solver.
  - eapply posts_iff; [|exact Hname]. naive_solver.
Qed.

End build.
