(* ===== verification/Queries.v ===== *)
(** * Queries of the catalog

    Models the bounded queries of [qtrace-store/src/index/mod.rs] - the estimate
    and the rows of every kind of [NormalizedPostingQuery] - and the lookups of
    [TraceStoreView] that read a posting list or a range of sorted pairs.  They
    are compared with a scan of the rows the catalog was built from. *)

From stdpp Require Import prelude list sorting strings gmap.
From Stdlib Require Import ZArith Lia Strings.Byte Sorted.
From S2P Require Import Prelude Prog Control Model FlightContext FlightSort Answers Index Orders IndexSort Intervals Postings SourceKeys KeyedMaps Arena Catalog.
Local Open Scope string_scope.
Local Open Scope list_scope.
Local Open Scope Z_scope.

Inductive NormalizedPostingQuery :=
| Tids (tids : list Z)
| Kinds (kinds : list EventKind)
| ModuleIds (modules : list Z)
| Sequence (start end_exclusive : Z)
| ModulePc (module start end_exclusive : Z)
| DefinitionIds (definitions : list Z)
| Registers (slots : list RegisterSlot)
| SemanticCategories (values : list bytes)
| SemanticNames (values : list bytes)
| Memory (start end_exclusive : Z).

(** ** Work *)

Definition map_decode_work (query_terms lookup_work : Z) (matched_lists encoded_rows : nat) : result IndexError Z :=
  match checked_add u64_max query_terms lookup_work with
  | None => Err (index_resource "bounded posting lookup pass overflow")
  | Some lookup_pass =>
      match try_from u64_max (Z.of_nat encoded_rows), try_from u64_max (Z.of_nat matched_lists) with
      | None, _ => Err (index_resource "bounded posting row work overflow")
      | _, None => Err (index_resource "bounded posting list work overflow")
      | Some rows, Some lists =>
          match (if (1 <? matched_lists)%nat then radix_total (radix_work_for encoded_rows) else Ok 0) with
          | Err e => Err e
          | Ok radix =>
              ok_or (work ← checked_mul u64_max lookup_pass 2;
                     work ← checked_add u64_max work lists;
                     work ← checked_add u64_max work rows;
                     checked_add u64_max work radix) (index_resource "bounded posting decode work overflow")
          end
      end
  end.

(** [usize::BITS - n.leading_zeros()] *)
Definition bit_length (n : nat) : Z := if (n =? 0)%nat then 0 else Z.log2 (Z.of_nat n) + 1.
Definition map_decode_work_upper (query_terms map_entries encoded_rows : nat) : result IndexError Z :=
  match try_from u64_max (Z.of_nat query_terms) with
  | None => Err (index_resource "bounded posting term work overflow")
  | Some terms =>
      match checked_mul u64_max terms (bit_length map_entries) with
      | None => Err (index_resource "bounded posting lookup work overflow")
      | Some lookup_work =>
          match try_from u64_max (Z.of_nat map_entries) with
          | None => Err (index_resource "bounded posting map size overflow")
          | Some entries => map_decode_work terms lookup_work (Z.to_nat (Z.min terms entries)) encoded_rows
          end
      end
  end.

Section queries.
Context {W D : Type} `{WorkGuard W} `{Allocator W} `{UnstableSort} `{Countable D}.
Abbreviation M := (Prog W IndexError unit).
Abbreviation ByteArena := (ByteArena (D := D)).

(** ** Posting lists by key *)

(** [encoded_rows], [matched_lists], [query_terms] and [lookup_work]. *)
Record EstimateState := mkEstimateState { es_rows : Z; es_lists : Z; es_terms : Z; es_lookup : Z }.
Definition estimate_start : EstimateState := mkEstimateState 0 0 0 0.

(** The part of the loop after the lookup. *)
Definition estimate_found (max_rows : nat) (st : EstimateState) (list : option PostingList) : M EstimateState :=
  match list with
  | None => ret st
  | Some posting =>
      let! lists := lift_option (checked_add usize_max (es_lists st) 1) (index_resource "bounded posting list count overflow") in
      let! rows := lift_option (checked_add usize_max (es_rows st) (Z.of_nat (pl_row_count posting)))
        (index_resource "bounded posting row count overflow") in
      fail_if (rows >? Z.of_nat max_rows) (index_resource "bounded posting result exceeds row limit") ;!
      ret (mkEstimateState rows lists (es_terms st) (es_lookup st))
  end.
Definition estimate_turn (m : SortedMap PostingList) (max_rows : nat) (st : EstimateState) (key : Z) : M EstimateState :=
  consume_row_work 1 ;!
  let! terms := lift_option (checked_add u64_max (es_terms st) 1) (index_resource "bounded posting term work overflow") in
  let! found := guarded_get m key in
  let! lookup := lift_option (checked_add u64_max (es_lookup st) (snd found)) (index_resource "bounded posting lookup work overflow") in
  estimate_found max_rows (mkEstimateState (es_rows st) (es_lists st) terms lookup) (fst found).
Definition bounded_map_estimate (m : SortedMap PostingList) (keys : list Z) (max_rows : nat) : M NormalizedPostingEstimate :=
  let! st := fold_each keys estimate_start (estimate_turn m max_rows) in
  let! decode_work := lift_result (map_decode_work (es_terms st) (es_lookup st) (Z.to_nat (es_lists st)) (Z.to_nat (es_rows st))) in
  ret (mkEstimate (Z.to_nat (es_rows st)) decode_work).
Definition bounded_map_count (m : SortedMap PostingList) (keys : list Z) (max_rows : nat) : M nat :=
  let! estimate := bounded_map_estimate m keys max_rows in ret (pe_rows estimate).

Definition lookup_turn (m : SortedMap PostingList) (lists : Vec PostingList) (key : Z) : M (Vec PostingList) :=
  consume_row_work 1 ;!
  let! found := guarded_get m key in
  match fst found with
  | None => ret lists
  | Some posting =>
      let! capacity := index_reserve T_PostingRef lists 1 "bounded posting list references" in
      ret (mkVec (v_items lists ++ [posting]) capacity)
  end.
Definition bounded_map_rows (m : SortedMap PostingList) (keys : list Z) (max_rows : nat) : M (list nat) :=
  bounded_map_count m keys max_rows ;!
  let! lists := fold_each keys vec_new (lookup_turn m) in
  bounded_posting_union (v_items lists) max_rows.

(** ** Ranges of sorted pairs *)

Definition bounded_pair_rows (rows : list (Z * nat)) (start stop : Z) (max_rows : nat) : M (list nat) :=
  if start >=? stop then ret []
  else
    let! first := guarded_partition_point rows (fun pair => pair.1 <? start) in
    let! last := guarded_partition_point rows (fun pair => pair.1 <? stop) in
    fail_if (max_rows <? last - first)%nat (index_resource "bounded posting result exceeds row limit") ;!
    index_checkpoint ;!
    index_reserve_new T_usize (last - first) "bounded pair posting allocation" ;!
    let! result := fold_each (chunks 4096 (take (last - first) (drop first rows))) [] (fun result chunk =>
      consume_row_work (length chunk) ;! ret (result ++ map snd chunk)) in
    radix_sort_unique_rows result.
Definition bounded_pair_estimate (rows : list (Z * nat)) (start stop : Z) (max_rows : nat) : M NormalizedPostingEstimate :=
  if start >=? stop then ret (mkEstimate 0 0)
  else
    let! first := guarded_partition_point_with_work rows (fun pair => pair.1 <? start) in
    let! last := guarded_partition_point_with_work rows (fun pair => pair.1 <? stop) in
    let count := (fst last - fst first)%nat in
    fail_if (max_rows <? count)%nat (index_resource "bounded posting result exceeds row limit") ;!
    let! decode_work := lift_option
      (work ← checked_add u64_max (snd first) (snd last);
       rows ← try_from u64_max (Z.of_nat count);
       work ← checked_add u64_max work rows;
       radix ← match radix_total (radix_work_for count) with Ok total => Some total | Err _ => None end;
       checked_add u64_max work radix)
      (index_resource "bounded pair decode work overflow") in
    ret (mkEstimate count decode_work).

(** ** Values of the dictionary *)

(** The [while remaining != 0] loop; a turn takes up to 4096 bytes. *)
Fixpoint consume_span (fuel : nat) (remaining : Z) : M unit :=
  match fuel with
  | O => ret tt
  | S fuel =>
      if remaining =? 0 then ret tt
      else
        let bytes := Z.min remaining 4096 in
        consume_as IndexAbort (mkWorkDelta bytes 0 0 0 0 0) ;!
        consume_span fuel (remaining - bytes)
  end.
Definition consume_dictionary_entry_work (span : ByteSpan) : M Z :=
  consume_row_work 1 ;!
  consume_span (S (Z.to_nat (bs_length span))) (bs_length span) ;!
  lift_option (checked_add u64_max (bs_length span) 1) (index_resource "semantic dictionary entry work overflow").

(** The inner loop over the spans for one value; [break] ends it. *)
Fixpoint visit_spans {A} (strings : ByteArena) (value : bytes) (visit : A -> Z -> M A) (id : nat) (spans : list ByteSpan)
    (st : A * Z) : M (A * Z) :=
  match spans with
  | [] => ret st
  | span :: spans =>
      let! entry := consume_dictionary_entry_work span in
      let! work := lift_option (checked_add u64_max (snd st) entry) (index_resource "semantic dictionary work overflow") in
      let! bytes := lift_result (arena_get strings (Z.of_nat id)) in
      if bool_decide (bytes = value) then
        let! a := visit (fst st) (Z.of_nat id) in
        ret (a, work)
      else visit_spans strings value visit (S id) spans (fst st, work)
  end.
Definition visit_semantic_dictionary_matches {A} (strings : ByteArena) (values : list bytes) (a : A) (visit : A -> Z -> M A) : M (A * Z) :=
  fold_each values (a, 0) (fun st value => visit_spans strings value visit 0 (as_slice (ba_spans strings)) st).

Definition semantic_turn (m : SortedMap PostingList) (max_rows : nat) (st : EstimateState) (id : Z) : M EstimateState :=
  let! terms := lift_option (checked_add u64_max (es_terms st) 1) (index_resource "semantic matched-term work overflow") in
  let! found := guarded_get m id in
  let! lookup := lift_option (checked_add u64_max (es_lookup st) (snd found)) (index_resource "semantic map lookup work overflow") in
  estimate_found max_rows (mkEstimateState (es_rows st) (es_lists st) terms lookup) (fst found).
Definition bounded_semantic_estimate (strings : ByteArena) (m : SortedMap PostingList) (values : list bytes) (max_rows : nat) :
    M NormalizedPostingEstimate :=
  let! visited := visit_semantic_dictionary_matches strings values estimate_start (semantic_turn m max_rows) in
  let st := fst visited in
  let! map_work := lift_result (map_decode_work (es_terms st) (es_lookup st) (Z.to_nat (es_lists st)) (Z.to_nat (es_rows st))) in
  let! decode_work := lift_option (checked_add u64_max (snd visited) map_work) (index_resource "semantic decode work overflow") in
  ret (mkEstimate (Z.to_nat (es_rows st)) decode_work).
Definition bounded_semantic_rows (strings : ByteArena) (m : SortedMap PostingList) (values : list bytes) (max_rows : nat) : M (list nat) :=
  index_reserve_new T_u32 (length values) "bounded semantic IDs" ;!
  let! visited := visit_semantic_dictionary_matches strings values [] (fun ids id => ret (ids ++ [id])) in
  bounded_map_rows m (fst visited) max_rows.

(** ** Every query *)

Context (ic : IndexCatalog) (strings : ByteArena).

Definition module_pcs (module : Z) : list (Z * nat) := default [] (map_get (ic_module_pc ic) module).

Definition bounded_row_estimate (query : NormalizedPostingQuery) (max_rows : nat) : M NormalizedPostingEstimate :=
  match query with
  | Tids tids => bounded_map_estimate (ic_tid ic) tids max_rows
  | Kinds kinds => bounded_map_estimate (ic_kind ic) (map encode_event_kind kinds) max_rows
  | ModuleIds modules => bounded_map_estimate (ic_module ic) modules max_rows
  | Sequence start stop => bounded_pair_estimate (ic_sequence ic) start stop max_rows
  | ModulePc module start stop => bounded_pair_estimate (module_pcs module) start stop max_rows
  | DefinitionIds definitions => bounded_map_estimate (ic_definition ic) definitions max_rows
  | Registers slots => bounded_map_estimate (ic_register ic) (map slot_index slots) max_rows
  | SemanticCategories values => bounded_semantic_estimate strings (ic_semantic_category ic) values max_rows
  | SemanticNames values => bounded_semantic_estimate strings (ic_semantic_name ic) values max_rows
  | Memory start stop => overlap_estimate_bounded (ic_memory ic) start stop max_rows
  end.
Definition bounded_row_count (query : NormalizedPostingQuery) (max_rows : nat) : M nat :=
  let! estimate := bounded_row_estimate query max_rows in ret (pe_rows estimate).
Definition bounded_rows (query : NormalizedPostingQuery) (max_rows : nat) : M (list nat) :=
  match query with
  | Tids tids => bounded_map_rows (ic_tid ic) tids max_rows
  | Kinds kinds => bounded_map_rows (ic_kind ic) (map encode_event_kind kinds) max_rows
  | ModuleIds modules => bounded_map_rows (ic_module ic) modules max_rows
  | Sequence start stop => bounded_pair_rows (ic_sequence ic) start stop max_rows
  | ModulePc module start stop => bounded_pair_rows (module_pcs module) start stop max_rows
  | DefinitionIds definitions => bounded_map_rows (ic_definition ic) definitions max_rows
  | Registers slots => bounded_map_rows (ic_register ic) (map slot_index slots) max_rows
  | SemanticCategories values => bounded_semantic_rows strings (ic_semantic_category ic) values max_rows
  | SemanticNames values => bounded_semantic_rows strings (ic_semantic_name ic) values max_rows
  | Memory start stop => overlaps_bounded (ic_memory ic) start stop max_rows
  end.
Definition bounded_definition_decode_work (query_terms max_rows : nat) : result IndexError Z :=
  map_decode_work_upper query_terms (length (sm_entries (ic_definition ic))) max_rows.

(** ** The lookups of [TraceStoreView] *)

Definition rows_for_posting_keys (m : SortedMap PostingList) (keys : list Z) : M (list nat) :=
  let! lists := for_each (omap (map_get m) keys) posting_rows in
  ret (union_rows lists).
(** [sequence[first..last]] between two [partition_point]s of sorted pairs. *)
Definition rows_between (rows : list (Z * nat)) (start stop : Z) : list nat :=
  if start >=? stop then []
  else
    let first := count_while (fun pair => (pair.1 <? start)%Z) rows in
    let last := count_while (fun pair => (pair.1 <? stop)%Z) rows in
    map snd (take (last - first) (drop first rows)).
Definition rows_for_sequence (start stop : Z) : list nat := rows_between (ic_sequence ic) start stop.
Definition rows_for_module_pc (module start stop : Z) : list nat := rows_between (module_pcs module) start stop.
(** [find_map] over the spans: the first entry that reads as the value. *)
Fixpoint find_value (value : bytes) (id : nat) (spans : list ByteSpan) : option Z :=
  match spans with
  | [] => None
  | _ :: spans =>
      if match arena_get strings (Z.of_nat id) with Ok bytes => bool_decide (bytes = value) | Err _ => false end
      then Some (Z.of_nat id) else find_value value (S id) spans
  end.
Definition rows_for_semantic_bytes (m : SortedMap PostingList) (values : list bytes) : M (list nat) :=
  (if (length values =? 0)%nat then ret 0
   else grow_as T_u32 (zlen values) (index_resource "semantic lookup allocation failed")) ;!
  rows_for_posting_keys m (omap (fun value => find_value value 0 (as_slice (ba_spans strings))) values).
(** The [rows_for_*] methods and [memory_overlaps], by the query they answer;
    [rows_observing_register] asks for one slot. *)
Definition view_rows (query : NormalizedPostingQuery) : M (list nat) :=
  match query with
  | Tids tids => rows_for_posting_keys (ic_tid ic) tids
  | Kinds kinds => rows_for_posting_keys (ic_kind ic) (map encode_event_kind kinds)
  | ModuleIds modules => rows_for_posting_keys (ic_module ic) modules
  | Sequence start stop => ret (rows_for_sequence start stop)
  | ModulePc module start stop => ret (rows_for_module_pc module start stop)
  | DefinitionIds definitions => rows_for_posting_keys (ic_definition ic) definitions
  | Registers slots => rows_for_posting_keys (ic_register ic) (map slot_index slots)
  | SemanticCategories values => rows_for_semantic_bytes (ic_semantic_category ic) values
  | SemanticNames values => rows_for_semantic_bytes (ic_semantic_name ic) values
  | Memory start stop => lift_result (overlaps (ic_memory ic) start stop)
  end.
Definition rows_for_timeline (timeline : Z) : M (list nat) := rows_for_posting_keys (ic_timeline ic) [timeline].
Definition row_for_source (key : EventKey) (key_at : nat -> result IndexError EventKey) : option nat :=
  keys_find (ic_source_keys ic) key key_at.

End queries.

(** ** The reference: a scan *)

(** Whether an event row answers the query. *)
Definition matches (rows : NormalizedRows) (dictionary : list bytes) (query : NormalizedPostingQuery) (row : nat) : Prop :=
  match query with
  | Tids tids => exists key tid, nr_keys rows !! row = Some key /\ ek_tid key = Some tid /\ tid ∈ tids
  | Kinds kinds => exists kind, nr_kinds rows !! row = Some kind /\ kind ∈ kinds
  | ModuleIds modules => exists i id, i ∈ nr_instructions rows /\ ir_owner_row i = row /\ ir_module i = Some id /\ id ∈ modules
  | Sequence start stop => exists key value, nr_keys rows !! row = Some key /\ ek_sequence key = Some value /\ start <= value < stop
  | ModulePc module start stop =>
      exists i, i ∈ nr_instructions rows /\ ir_owner_row i = row /\ ir_module i = Some module /\ start <= ir_relative_pc i < stop
  | DefinitionIds definitions => exists i id, i ∈ nr_instructions rows /\ ir_owner_row i = row /\ ir_definition i = Some id /\ id ∈ definitions
  | Registers slots => exists o slot, o ∈ nr_observations rows /\ or_owner_row o = row /\ or_slot o = slot_index slot /\ slot ∈ slots
  | SemanticCategories values =>
      exists s id value, s ∈ nr_semantics rows /\ sr_owner_row s = row /\ sr_category s = Some (Z.of_nat id)
        /\ dictionary !! id = Some value /\ value ∈ values
  | SemanticNames values =>
      exists s id value, s ∈ nr_semantics rows /\ sr_owner_row s = row /\ sr_name s = Z.of_nat id
        /\ dictionary !! id = Some value /\ value ∈ values
  | Memory start stop =>
      exists m, m ∈ nr_memories rows /\ mr_owner_row m = row
        /\ Z.max (mr_address m) start < Z.min (mr_end_exclusive m) stop
  end.

(** The first entry of the dictionary that holds the value. *)
Definition first_at (dictionary : list bytes) (id : nat) (value : bytes) : Prop :=
  dictionary !! id = Some value /\ forall earlier, (earlier < id)%nat -> dictionary !! earlier <> Some value.

Definition by_value (query : NormalizedPostingQuery) : bool :=
  match query with SemanticCategories _ | SemanticNames _ => true | _ => false end.
Definition by_range (query : NormalizedPostingQuery) : bool :=
  match query with Sequence _ _ | ModulePc _ _ _ => true | _ => false end.

(** The answer over a dictionary that may hold a value more than once: only its
    first entry counts. *)
Definition first_matches (rows : NormalizedRows) (dictionary : list bytes) (query : NormalizedPostingQuery) (row : nat) : Prop :=
  match query with
  | SemanticCategories values =>
      exists s id value, s ∈ nr_semantics rows /\ sr_owner_row s = row /\ sr_category s = Some (Z.of_nat id)
        /\ first_at dictionary id value /\ value ∈ values
  | SemanticNames values =>
      exists s id value, s ∈ nr_semantics rows /\ sr_owner_row s = row /\ sr_name s = Z.of_nat id
        /\ first_at dictionary id value /\ value ∈ values
  | _ => matches rows dictionary query row
  end.

Lemma first_at_distinct dictionary id value : NoDup dictionary -> first_at dictionary id value <-> dictionary !! id = Some value.
Proof.
  intros Hnd. split; [by intros [? _]|]. intros Hid. split; [done|]. intros earlier Hlt He.
  pose proof (NoDup_lookup _ _ _ _ Hnd He Hid). lia.
Qed.
Lemma first_matches_all rows dictionary query row : by_value query = false \/ NoDup dictionary ->
  first_matches rows dictionary query row <-> matches rows dictionary query row.
Proof.
  intros [Hq|Hnd]; [by destruct query|]. destruct query; try done; cbn; by setoid_rewrite first_at_distinct.
Qed.

(** The values of a range with their rows. *)
Definition in_range (start stop : Z) (pair : Z * nat) : bool := (start <=? pair.1) && (pair.1 <? stop).
Definition range_pairs (rows : NormalizedRows) (query : NormalizedPostingQuery) : list (Z * nat) :=
  match query with
  | Sequence start stop => List.filter (in_range start stop) (sequence_pairs rows)
  | ModulePc module start stop => List.filter (in_range start stop) (values_of module (pc_pairs rows))
  | _ => []
  end.

(** What a lookup of the view returns: the matching rows, for the two ranges one
    for each value and in the order of the values and rows, for the other
    queries each row once and in order. *)
Definition view_answer (rows : NormalizedRows) (dictionary : list bytes) (query : NormalizedPostingQuery) (out : list nat) : Prop :=
  (forall row, row ∈ out <-> matches rows dictionary query row)
  /\ if by_range query
     then exists pairs, out = map snd pairs /\ pairs ≡ₚ range_pairs rows query
            /\ StronglySorted (fun x y => x.1 < y.1 \/ (x.1 = y.1 /\ (x.2 <= y.2)%nat)) pairs
     else StronglySorted lt out.

Definition scan_of (holds : nat -> Prop) (out : list nat) : Prop := StronglySorted lt out /\ forall row, row ∈ out <-> holds row.

Lemma encode_event_kind_inj kind kind' : encode_event_kind kind = encode_event_kind kind' -> kind = kind'.
Proof. by destruct kind, kind'. Qed.

(** The lists found for some keys. *)
Definition found (m : SortedMap PostingList) (keys : list Z) : list PostingList := omap (map_get m) keys.
Definition found_rows (m : SortedMap PostingList) (keys : list Z) : nat := list_sum (map pl_row_count (found m keys)).
Definition found_steps (m : SortedMap PostingList) (keys : list Z) : nat := list_sum (map (lookup_steps m) keys).

Lemma found_snoc m keys key : found m (keys ++ [key]) = found m keys ++ (match map_get m key with Some p => [p] | None => [] end).
Proof. unfold found. rewrite omap_app. cbn. by destruct (map_get m key). Qed.
Lemma found_rows_snoc m keys key :
  found_rows m (keys ++ [key]) = (found_rows m keys + match map_get m key with Some p => pl_row_count p | None => 0 end)%nat.
Proof. unfold found_rows. rewrite found_snoc, map_app, list_sum_app. by destruct (map_get m key); cbn; rewrite ?Nat.add_0_r. Qed.
Lemma found_steps_snoc m keys key : found_steps m (keys ++ [key]) = (found_steps m keys + lookup_steps m key)%nat.
Proof. unfold found_steps. rewrite map_app, list_sum_app. cbn. by rewrite Nat.add_0_r. Qed.

Lemma posts_found holds m keys : posts_for (fun key => key ∈ keys) holds m -> exists rowss, Forall2 encodes rowss (found m keys)
  /\ forall row, row ∈ concat rowss <-> exists key, key ∈ keys /\ holds key row.
Proof.
  intros [Hs Hrows Hkeys]. induction keys as [|key keys IH]; cbn.
  { exists []. split; [constructor|]. cbn. set_solver. }
  destruct IH as (rowss & Hf & Hin); [intros k posting Hk; apply Hrows; by right|intros k row Hk; apply Hkeys; by right|].
  destruct (map_get m key) as [posting|] eqn:Hg; cbn.
  - apply (map_get_elem m key posting Hs) in Hg. destruct (Hrows key posting ltac:(left) Hg) as (rs & He & Hrs). exists (rs :: rowss).
    split; [by constructor|]. intros row. cbn. rewrite elem_of_app, Hin, Hrs. set_solver.
  - exists rowss. split; [done|]. intros row. rewrite Hin. split; [set_solver|].
    intros (k & [->|Hk]%elem_of_cons & Hh); [|by exists k]. apply (Hkeys key row ltac:(left)), keys_elem in Hh as [p Hp].
    apply (map_get_elem m key p Hs) in Hp. congruence.
Qed.

(** The entry of a value in the rest of a dictionary, and what looking for it costs. *)
Fixpoint find_from (id : nat) (dictionary : list bytes) (value : bytes) : option Z :=
  match dictionary with
  | [] => None
  | entry :: dictionary => if bool_decide (entry = value) then Some (Z.of_nat id) else find_from (S id) dictionary value
  end.
Fixpoint entry_work (dictionary : list bytes) (value : bytes) : Z :=
  match dictionary with
  | [] => 0
  | entry :: dictionary => zlen entry + 1 + (if bool_decide (entry = value) then 0 else entry_work dictionary value)
  end.
Definition dictionary_ids (dictionary : list bytes) (values : list bytes) : list Z := omap (find_from 0 dictionary) values.
Definition dictionary_work (dictionary : list bytes) (values : list bytes) : Z :=
  foldr (fun value work => entry_work dictionary value + work) 0 values.

Lemma find_from_spec dictionary value : forall id, match find_from id dictionary value with
  | Some found => exists i, found = Z.of_nat (id + i) /\ first_at dictionary i value
  | None => value ∉ dictionary
  end.
Proof.
  induction dictionary as [|entry dictionary IH]; intros id; [by apply not_elem_of_nil|]. cbn. case_bool_decide as Heq.
  - exists 0%nat. subst. split; [f_equal; lia|]. split; [done|]. intros; lia.
  - specialize (IH (S id)). destruct (find_from _ _ _) as [found|].
    + destruct IH as (i & -> & Hi & Hfirst). exists (S i). split; [f_equal; lia|]. split; [done|].
      intros [|earlier] He; [by intros [= ?]|]. cbn. apply Hfirst. lia.
    + rewrite not_elem_of_cons. by split.
Qed.
Lemma first_at_unique dictionary i j value : first_at dictionary i value -> first_at dictionary j value -> i = j.
Proof.
  intros [Hi Hfi] [Hj Hfj]. destruct (Nat.lt_trichotomy i j) as [Hlt|[|Hlt]]; [by destruct (Hfj i Hlt)|done|by destruct (Hfi j Hlt)].
Qed.
Lemma dictionary_ids_elem dictionary values id :
  Z.of_nat id ∈ dictionary_ids dictionary values <-> exists value, first_at dictionary id value /\ value ∈ values.
Proof.
  unfold dictionary_ids. rewrite list_elem_of_omap. split.
  - intros (value & Hv & Hf). pose proof (find_from_spec dictionary value 0) as Hs. rewrite Hf in Hs.
    destruct Hs as (i & Hi & Hd). assert (i = id) as -> by lia. by exists value.
  - intros (value & Hd & Hv). exists value. split; [done|]. pose proof (find_from_spec dictionary value 0) as Hs.
    destruct (find_from 0 dictionary value) as [found|].
    + destruct Hs as (i & -> & Hi). by rewrite (first_at_unique _ _ _ _ Hi Hd).
    + exfalso. apply Hs. destruct Hd as [Hd _]. by eapply list_elem_of_lookup_2.
Qed.
Lemma dictionary_ids_range dictionary values id : id ∈ dictionary_ids dictionary values -> exists i, id = Z.of_nat i.
Proof.
  unfold dictionary_ids. rewrite list_elem_of_omap. intros (value & _ & Hf). pose proof (find_from_spec dictionary value 0) as Hs.
  rewrite Hf in Hs. destruct Hs as (i & -> & _). by eexists.
Qed.

Section exact.
Context {W D : Type} `{WorkGuard W} `{Allocator W} `{UnstableSort} `{Countable D}.

(** *** By key *)

Definition estimated (m : SortedMap PostingList) (max_rows : nat) (keys : list Z) (st : EstimateState) : Prop :=
  st = mkEstimateState (Z.of_nat (found_rows m keys)) (Z.of_nat (length (found m keys))) (Z.of_nat (length keys)) (Z.of_nat (found_steps m keys))
  /\ (found_rows m keys <= max_rows)%nat.

Lemma answers_estimate_found m max_rows keys key st terms lookup : sorted_keys (sm_entries m) -> estimated m max_rows keys st ->
  terms = Z.of_nat (length keys) + 1 -> lookup = Z.of_nat (found_steps m keys) + Z.of_nat (lookup_steps m key) ->
  answers (W := W) (estimate_found max_rows (mkEstimateState (es_rows st) (es_lists st) terms lookup) (map_get m key))
    (estimated m max_rows (keys ++ [key])) index_refused.
Proof.
  intros Hs [-> Hmax] -> ->. cbn [es_rows es_lists]. unfold estimate_found, estimated.
  rewrite length_app, found_steps_snoc, found_rows_snoc, found_snoc, length_app. cbn [length].
  destruct (map_get m key) as [posting|]; cbn [es_rows es_lists es_terms es_lookup].
  - apply answers_bind, answers_option. destruct (checked_add _ _ 1) as [lists|] eqn:Hl; [|done]. apply checked_add_Some in Hl as [-> _].
    apply answers_bind, answers_option. destruct (checked_add _ _ _) as [rows|] eqn:Hr; [|done]. apply checked_add_Some in Hr as [-> _].
    apply answers_bind, answers_fail_if; [intros Hle|done]. rewrite Z.gtb_ltb, Z.ltb_ge in Hle. apply answers_ret. cbn.
    split; [f_equal; lia|lia].
  - apply answers_ret. cbn. split; [f_equal; lia|lia].
Qed.

Lemma answers_estimate_turns m keys max_rows : sorted_keys (sm_entries m) ->
  answers (W := W) (fold_each keys estimate_start (estimate_turn m max_rows)) (estimated m max_rows keys) index_refused.
Proof.
  intros Hs. apply (answers_fold index_refused keys _ _ (fun done st => estimated m max_rows done st)); [by split; [|cbn; lia]|].
  intros done key rest st _ Hst. pose proof Hst as [Heq _].
  apply answers_bind, answers_row_work; [done|]. apply answers_bind, answers_option.
  destruct (checked_add _ _ 1) as [terms|] eqn:Ht; [|done]. apply checked_add_Some in Ht as [-> _].
  apply answers_bind. eapply answers_mono; [by apply answers_guarded_get|]. intros r [-> ->].
  apply answers_bind, answers_option. destruct (checked_add _ _ _) as [lookup|] eqn:Hl; [|done]. apply checked_add_Some in Hl as [-> _].
  apply (answers_estimate_found m max_rows done key st); [done|done|by rewrite Heq|by rewrite Heq].
Qed.

Lemma radix_total_refused work : match radix_total work with Ok _ => True | Err e => index_refused e end.
Proof.
  unfold radix_total. destruct (try_from _ (Z.of_nat (rw_rows work))); [|done]. destruct (try_from _ (Z.of_nat (rw_passes work))); [|done].
  destruct (try_from _ (Z.of_nat (rw_dedup work))); [|done]. unfold ok_or. by destruct (_ ≫= _).
Qed.
Lemma map_decode_work_refused terms lookup lists rows :
  match map_decode_work terms lookup lists rows with Ok _ => True | Err e => index_refused e end.
Proof.
  unfold map_decode_work. destruct (checked_add _ _ _); [|done]. destruct (try_from _ _); [|done]. destruct (try_from _ _); [|done].
  pose proof (radix_total_refused (radix_work_for rows)). destruct (1 <? lists)%nat; [destruct (radix_total _); [|done]|]; unfold ok_or; by destruct (_ ≫= _).
Qed.

Lemma answers_map_estimate m keys max_rows : sorted_keys (sm_entries m) ->
  answers (W := W) (bounded_map_estimate m keys max_rows) (fun est => pe_rows est = found_rows m keys /\ (found_rows m keys <= max_rows)%nat
    /\ map_decode_work (Z.of_nat (length keys)) (Z.of_nat (found_steps m keys)) (length (found m keys)) (found_rows m keys) = Ok (pe_decode_work est))
    index_refused.
Proof.
  intros Hs. apply answers_bind. eapply answers_mono; [by apply answers_estimate_turns|]. intros st [-> Hmax]. cbn [es_rows es_lists es_terms es_lookup].
  rewrite !Nat2Z.id. apply answers_bind, answers_result.
  pose proof (map_decode_work_refused (Z.of_nat (length keys)) (Z.of_nat (found_steps m keys)) (length (found m keys)) (found_rows m keys)) as Hr.
  destruct (map_decode_work _ _ _ _) as [work|e]; [|done]. by apply answers_ret.
Qed.

Lemma answers_lookups m keys : sorted_keys (sm_entries m) ->
  answers (W := W) (fold_each keys vec_new (lookup_turn m)) (fun lists => v_items lists = found m keys) index_refused.
Proof.
  intros Hs. apply (answers_fold index_refused keys _ _ (fun done lists => v_items lists = found m done)); [done|].
  intros done key rest lists _ Hl. apply answers_bind, answers_row_work; [done|].
  apply answers_bind. eapply answers_mono; [by apply answers_guarded_get|]. intros r [-> _]. rewrite found_snoc, <- Hl.
  destruct (map_get m key) as [posting|]; [|apply answers_ret; by rewrite app_nil_r].
  apply answers_bind, answers_index_reserve; [done|]. intros c. by apply answers_ret.
Qed.

Lemma answers_map_rows holds m keys max_rows : posts_for (fun key => key ∈ keys) holds m ->
  answers (W := W) (bounded_map_rows m keys max_rows) (scan_of (fun row => exists key, key ∈ keys /\ holds key row)) index_refused.
Proof.
  intros Hp. pose proof (pf_sorted _ _ _ Hp) as Hs. destruct (posts_found _ _ keys Hp) as (rowss & Hf & Hin).
  apply answers_bind, answers_bind. eapply answers_mono; [by apply answers_map_estimate|]. intros est _. apply answers_ret.
  apply answers_bind. eapply answers_mono; [by apply answers_lookups|]. intros lists ->.
  eapply answers_mono; [by apply answers_union|]. intros out [[Hst Hel] _]. split; [done|]. intros row. by rewrite Hel, Hin.
Qed.

(** *** By range *)

Lemma sorted_values (rows : list (Z * nat)) bound : StronglySorted (cmp_le (compare_pair Z.compare Nat.compare)) rows ->
  StronglySorted (fun x y => (y.1 <? bound) = true -> (x.1 <? bound) = true) rows.
Proof.
  intros Hs%pair_keys_sorted. induction Hs as [|x l _ IH Hx]; constructor; [done|].
  eapply Forall_impl; [exact Hx|]. cbn. intros y Hxy Hy. lia.
Qed.

Lemma answers_cut (rows : list (Z * nat)) bound (Q : nat * Z -> Prop) : StronglySorted (cmp_le (compare_pair Z.compare Nat.compare)) rows ->
  (forall work, 0 <= work -> Q (count_while (fun pair => (pair.1 <? bound)%Z) rows, work)) ->
  answers (W := W) (guarded_partition_point_with_work rows (fun pair => pair.1 <? bound)) Q index_refused.
Proof.
  intros Hs HQ. apply (answers_partition _ ltac:(done) _ _ (count_while (fun pair => (pair.1 <? bound)%Z) rows)); [apply count_while_le|..|exact HQ].
  - intros i v Hi Hv. by apply (count_while_before (fun pair => (pair.1 <? bound)%Z) rows i v Hi).
  - intros i v Hi Hv. apply (count_while_after (fun pair => (pair.1 <? bound)%Z) rows i v); [by apply sorted_values|done|done].
Qed.

(** The slice between the cuts holds the pairs of the range. *)
Lemma slice_elem (rows : list (Z * nat)) start stop p : StronglySorted (cmp_le (compare_pair Z.compare Nat.compare)) rows ->
  let first := count_while (fun pair => (pair.1 <? start)%Z) rows in
  let last := count_while (fun pair => (pair.1 <? stop)%Z) rows in
  p ∈ take (last - first) (drop first rows) <-> p ∈ rows /\ start <= p.1 < stop.
Proof.
  intros Hs first last. split.
  - intros [i Hi]%list_elem_of_lookup_1. apply lookup_take_Some in Hi as [Hi Hlt]. rewrite lookup_drop in Hi.
    split; [by eapply list_elem_of_lookup_2|].
    pose proof (count_while_after (fun pair => (pair.1 <? start)%Z) rows (first + i) p (sorted_values _ _ Hs) ltac:(lia) Hi) as Hlo.
    pose proof (count_while_before (fun pair => (pair.1 <? stop)%Z) rows (first + i) p ltac:(unfold last in *; lia) Hi) as Hhi.
    cbv beta in *. lia.
  - intros [[i Hi]%list_elem_of_lookup_1 Hp]. apply (list_elem_of_lookup_2 _ (i - first)).
    assert (first <= i)%nat as Hlo.
    { destruct (decide (first <= i)%nat); [done|].
      pose proof (count_while_before (fun pair => (pair.1 <? start)%Z) rows i p ltac:(unfold first in *; lia) Hi) as Hb. cbv beta in Hb. lia. }
    assert (i < last)%nat as Hhi.
    { destruct (decide (i < last)%nat); [done|].
      pose proof (count_while_after (fun pair => (pair.1 <? stop)%Z) rows i p (sorted_values _ _ Hs) ltac:(unfold last in *; lia) Hi) as Hb. cbv beta in Hb. lia. }
    rewrite lookup_take_lt by lia. rewrite lookup_drop. by replace (first + (i - first))%nat with i by lia.
Qed.

Lemma answers_pair_rows (rows : list (Z * nat)) start stop max_rows : StronglySorted (cmp_le (compare_pair Z.compare Nat.compare)) rows ->
  Forall (fun p => in_usize p.2) rows ->
  answers (W := W) (bounded_pair_rows rows start stop max_rows)
    (scan_of (fun row => exists value, (value, row) ∈ rows /\ start <= value < stop)) index_refused.
Proof.
  intros Hs Hsmall. unfold bounded_pair_rows. rewrite Z.geb_leb. destruct (Z.leb_spec stop start) as [Hle|Hlt].
  { apply answers_ret. split; [constructor|]. intros row. split; [by intros ?%not_elem_of_nil|]. intros (v & _ & Hv). lia. }
  apply answers_bind, answers_bind, answers_cut; [done|]. intros w1 _. apply answers_ret.
  apply answers_bind, answers_bind, answers_cut; [done|]. intros w2 _. apply answers_ret. cbn [fst].
  set (slice := take _ (drop _ rows)). assert (forall p, p ∈ slice <-> p ∈ rows /\ start <= p.1 < stop) as Hslice by (intros p; by apply slice_elem).
  apply answers_bind, answers_fail_if; [intros _|done]. apply answers_bind, answers_index_checkpoint; [done|].
  apply answers_bind, answers_reserve_new; [done|]. apply answers_bind. eapply answers_mono.
  - apply (answers_fold index_refused (chunks 4096 slice) _ _ (fun done out => out = map snd (concat done))); [done|].
    intros done chunk rest out _ ->. apply answers_bind, answers_row_work; [done|]. apply answers_ret. rewrite concat_app. cbn. by rewrite app_nil_r, map_app.
  - intros out ->. rewrite chunks_concat by lia. eapply answers_mono; [apply answers_radix|].
    + apply Forall_forall. intros row Hin. apply list_elem_of_In, in_map_iff in Hin as (p & <- & Hp). apply list_elem_of_In, Hslice in Hp as [Hp _].
      by apply (proj1 (Forall_forall _ _) Hsmall).
    + intros out [Hso Hin]. split; [done|]. intros row. rewrite Hin, list_elem_of_In, in_map_iff. split.
      * intros ([v r] & <- & Hp). apply list_elem_of_In, Hslice in Hp as [Hp Hv]. by exists v.
      * intros (v & Hp & Hv). exists (v, row). split; [done|]. apply list_elem_of_In, Hslice. done.
Qed.

(** *** By value *)

Context (strings : ByteArena (D := D)) (dictionary : list bytes) (Hstrings : stores strings dictionary).

(** The fuel of [consume_dictionary_entry_work] is enough: more changes nothing. *)
Lemma consume_span_fuel fuel : forall more remaining, 0 <= remaining < Z.of_nat fuel ->
  consume_span (W := W) (fuel + more) remaining = consume_span fuel remaining.
Proof.
  induction fuel as [|fuel IH]; intros more remaining Hr; [lia|]. cbn [Nat.add consume_span].
  destruct (Z.eqb_spec remaining 0); [done|]. by rewrite IH by lia.
Qed.
Lemma answers_consume_span fuel : forall remaining, 0 <= remaining ->
  answers (W := W) (consume_span fuel remaining) (fun _ => True) index_refused.
Proof.
  induction fuel as [|fuel IH]; intros remaining Hr; cbn [consume_span]; [by apply answers_ret|].
  destruct (remaining =? 0); [by apply answers_ret|]. apply answers_bind, answers_consume; [apply IH; lia|done].
Qed.

Lemma answers_visit_spans {A} (I : list Z -> A -> Prop) value (visit : A -> Z -> Prog W IndexError unit A) :
  (forall ids a id, I ids a -> answers (visit a id) (I (ids ++ [id])) index_refused) ->
  forall rest id offset ids st, drop id dictionary = rest -> I ids (fst st) ->
  answers (visit_spans strings value visit id (spans_of offset rest) st)
    (fun st' => I (ids ++ option_list (find_from id rest value)) (fst st') /\ snd st' = snd st + entry_work rest value) index_refused.
Proof.
  intros Hvisit. induction rest as [|entry rest IH]; intros id offset ids st Hrest HI; cbn [visit_spans spans_of find_from entry_work].
  { apply answers_ret. cbn. rewrite app_nil_r. split; [done|lia]. }
  assert (dictionary !! id = Some entry) as Hid by (rewrite <- (Nat.add_0_r id), <- lookup_drop, Hrest; done).
  apply answers_bind. apply (answers_mono _ _ (fun work => work = zlen entry + 1)).
  { apply answers_bind, answers_row_work; [done|]. apply answers_bind. eapply answers_mono; [apply answers_consume_span; cbn; unfold zlen; lia|].
    intros [] _. apply answers_option. destruct (checked_add _ _ _) eqn:Hadd; [|done]. by apply checked_add_Some in Hadd as [-> _]. }
  intros ? ->. apply answers_bind, answers_option. destruct (checked_add _ _ _) as [work|] eqn:Hadd; [|done]. apply checked_add_Some in Hadd as [-> _].
  apply answers_bind, answers_result. rewrite (arena_get_exact _ _ _ _ Hstrings Hid). case_bool_decide as Heq.
  - apply answers_bind. eapply answers_mono; [by apply Hvisit|]. intros a Ha. apply answers_ret. cbn. split; [done|lia].
  - eapply answers_mono; [apply (IH (S id) _ ids); [|done]|].
    + by rewrite <- Nat.add_1_r, <- drop_drop, Hrest.
    + intros st' [Ha Hw]. split; [done|]. rewrite Hw. cbn. lia.
Qed.

Lemma answers_visit_matches {A} (I : list Z -> A -> Prop) values a (visit : A -> Z -> Prog W IndexError unit A) :
  (forall ids a id, I ids a -> answers (visit a id) (I (ids ++ [id])) index_refused) -> I [] a ->
  answers (visit_semantic_dictionary_matches strings values a visit)
    (fun st => I (dictionary_ids dictionary values) (fst st) /\ snd st = dictionary_work dictionary values) index_refused.
Proof.
  intros Hvisit HI. eapply answers_mono.
  - apply (answers_fold index_refused values (a, 0) _ (fun done st => I (dictionary_ids dictionary done) (fst st)
      /\ forall more, snd st + more = foldr (fun value work => entry_work dictionary value + work) more done)); [by split|].
    intros done value rest st _ [Hst Hw]. rewrite (st_spans _ _ Hstrings).
    eapply answers_mono; [by apply (answers_visit_spans I value visit Hvisit dictionary 0 0 (dictionary_ids dictionary done))|].
    intros st' [Ha Hw']. split.
    + unfold dictionary_ids in *. rewrite omap_app. cbn. by destruct (find_from 0 dictionary value).
    + intros more. rewrite foldr_app. cbn. rewrite <- Hw. lia.
  - intros st [Hst Hw]. split; [done|]. unfold dictionary_work. rewrite <- Hw. lia.
Qed.

Lemma answers_semantic_estimate m values max_rows : sorted_keys (sm_entries m) ->
  answers (W := W) (bounded_semantic_estimate strings m values max_rows) (fun est =>
    let ids := dictionary_ids dictionary values in
    pe_rows est = found_rows m ids /\ (found_rows m ids <= max_rows)%nat
    /\ exists map_work, map_decode_work (Z.of_nat (length ids)) (Z.of_nat (found_steps m ids)) (length (found m ids)) (found_rows m ids) = Ok map_work
         /\ pe_decode_work est = dictionary_work dictionary values + map_work) index_refused.
Proof.
  intros Hs. set (ids := dictionary_ids dictionary values). apply answers_bind. eapply answers_mono.
  - apply (answers_visit_matches (estimated m max_rows)); [|by split; [|cbn; lia]].
    intros done st id Hst. pose proof Hst as [Heq _]. apply answers_bind, answers_option.
    destruct (checked_add _ _ 1) as [terms|] eqn:Ht; [|done]. apply checked_add_Some in Ht as [-> _].
    apply answers_bind. eapply answers_mono; [by apply answers_guarded_get|]. intros r [-> ->].
    apply answers_bind, answers_option. destruct (checked_add _ _ _) as [lookup|] eqn:Hl; [|done]. apply checked_add_Some in Hl as [-> _].
    apply (answers_estimate_found m max_rows done id st); [done|done|by rewrite Heq|by rewrite Heq].
  - intros [st work] [[-> Hmax] Hw]. cbn [fst snd] in *. cbn [es_rows es_lists es_terms es_lookup]. rewrite !Nat2Z.id.
    apply answers_bind, answers_result.
    pose proof (map_decode_work_refused (Z.of_nat (length ids)) (Z.of_nat (found_steps m ids)) (length (found m ids)) (found_rows m ids)) as Hr.
    fold ids. destruct (map_decode_work _ _ _ _) as [map_work|e]; [|done]. apply answers_bind, answers_option.
    destruct (checked_add _ _ _) as [total|] eqn:Ht; [|done]. apply checked_add_Some in Ht as [-> _]. apply answers_ret. cbn.
    split_and!; [done|done|]. exists map_work. by rewrite Hw.
Qed.

Lemma answers_semantic_rows holds m values max_rows : posts holds m ->
  answers (W := W) (bounded_semantic_rows strings m values max_rows)
    (scan_of (fun row => exists id, id ∈ dictionary_ids dictionary values /\ holds id row)) index_refused.
Proof.
  intros Hp. apply answers_bind, answers_reserve_new; [done|]. apply answers_bind. eapply answers_mono.
  - apply (answers_visit_matches (fun ids out => out = ids)); [|done]. intros ids a id ->. by apply answers_ret.
  - intros st [-> _]. by apply answers_map_rows, posts_for_all.
Qed.

End exact.

Lemma scan_iff (P Q : nat -> Prop) out : (forall row, P row <-> Q row) -> scan_of P out -> scan_of Q out.
Proof. intros Hpq [Hs Hin]. split; [done|]. intros row. by rewrite Hin. Qed.

Section answered.
Context {W D : Type} `{WorkGuard W} `{Allocator W} `{UnstableSort} `{Countable D}.
Context (rows : NormalizedRows) (ic : IndexCatalog) (strings : ByteArena (D := D)) (dictionary : list bytes).
Context (Hrows : rows_ok rows) (Hic : catalog_of rows ic) (Hstrings : stores strings dictionary).

Definition query_fault (query : NormalizedPostingQuery) (e : IndexError) : Prop :=
  index_refused e \/ match query with Memory start stop => stop < start | _ => False end.

Lemma sequence_small : Forall (fun p => in_usize p.2) (ic_sequence ic).
Proof.
  apply Forall_forall. intros [value row] Hin. rewrite (proj2 (co_sequence _ _ Hic)) in Hin. apply sequence_pairs_elem in Hin as (key & Hk & _).
  apply lookup_lt_Some in Hk. pose proof (ro_keys _ Hrows). pose proof (ro_count _ Hrows). unfold in_usize. cbn. lia.
Qed.

Lemma module_pcs_spec module : StronglySorted (cmp_le (compare_pair Z.compare Nat.compare)) (module_pcs ic module)
  /\ Forall (fun p => in_usize p.2) (module_pcs ic module)
  /\ module_pcs ic module ≡ₚ values_of module (pc_pairs rows).
Proof.
  destruct (co_module_pc _ _ Hic) as [Hs Hv Hk]. unfold module_pcs.
  assert (Forall (fun p => in_usize p.2) (values_of module (pc_pairs rows))) as Hsmall.
  { apply Forall_forall. intros [pc row] Hin. apply values_of_elem, pc_pairs_elem in Hin as (i & Hi & _ & _ & <-).
    pose proof (proj1 (Forall_forall _ _) (ro_instructions _ Hrows) i Hi) as Hr. unfold small_row, in_usize in *. cbn. lia. }
  destruct (map_get (ic_module_pc ic) module) as [values|] eqn:Hg; cbn.
  - apply (map_get_elem _ _ _ Hs) in Hg. destruct (Hv _ _ Hg) as [Hperm Hsv]. split_and!; [done|by rewrite Hperm|done].
  - replace (values_of module (pc_pairs rows)) with (@nil (Z * nat)); [by repeat constructor|]. symmetry. apply values_of_none, Forall_forall.
    intros p Hp Hm. assert (module ∈ map fst (pc_pairs rows)) as [values Hin]%Hk%keys_elem by (apply keys_elem; exists p.2; by destruct p; cbn in *; subst).
    apply (map_get_elem _ _ _ Hs) in Hin. congruence.
Qed.

(** What the posting lists and pairs of a dimension say, as the query reads it. *)
Lemma kinds_match kinds row :
  (exists code, code ∈ map encode_event_kind kinds /\ exists kind, nr_kinds rows !! row = Some kind /\ encode_event_kind kind = code)
  <-> matches rows dictionary (Kinds kinds) row.
Proof.
  split.
  - intros (code & Hin & kind & Hk & <-). apply list_elem_of_In, in_map_iff in Hin as (kind' & Heq & Hin). apply encode_event_kind_inj in Heq as ->.
    exists kind. split; [done|by apply list_elem_of_In].
  - intros (kind & Hk & Hin). exists (encode_event_kind kind). split; [|by exists kind]. apply list_elem_of_In, in_map_iff.
    exists kind. split; [done|by apply list_elem_of_In].
Qed.
Lemma slots_range slots key : key ∈ map slot_index slots -> 0 <= key < REGISTER_SLOT_COUNT.
Proof. intros (slot & <- & _)%list_elem_of_In%in_map_iff. apply slot_index_range. Qed.
Lemma slots_match slots row :
  (exists key, key ∈ map slot_index slots /\ exists o, o ∈ nr_observations rows /\ or_slot o = key /\ or_owner_row o = row)
  <-> matches rows dictionary (Registers slots) row.
Proof.
  split.
  - intros (key & Hin & o & Ho & Hslot & <-). apply list_elem_of_In, in_map_iff in Hin as (slot & <- & Hin). exists o, slot.
    split_and!; try done. by apply list_elem_of_In.
  - intros (o & slot & Ho & <- & Hslot & Hin). exists (slot_index slot). split; [|by exists o]. apply list_elem_of_In, in_map_iff.
    exists slot. split; [done|by apply list_elem_of_In].
Qed.
Lemma values_match values (holds : Z -> nat -> Prop) row :
  (exists id, id ∈ dictionary_ids dictionary values /\ holds id row)
  <-> exists id value, holds (Z.of_nat id) row /\ first_at dictionary id value /\ value ∈ values.
Proof.
  split.
  - intros (id & Hid & Hh). destruct (dictionary_ids_range _ _ _ Hid) as [i ->].
    apply dictionary_ids_elem in Hid as (value & Hd & Hv). by exists i, value.
  - intros (id & value & Hh & Hd & Hv). exists (Z.of_nat id). split; [|done]. apply dictionary_ids_elem. by exists value.
Qed.
Lemma memory_match start stop row :
  row ∈ map ie_row (hits start stop (intervals_of rows)) <-> matches rows dictionary (Memory start stop) row.
Proof.
  rewrite list_elem_of_In, in_map_iff. unfold hits, overlapping, intervals_of.
  setoid_rewrite List.filter_In. setoid_rewrite <- list_elem_of_In. setoid_rewrite list_elem_of_omap. split.
  - intros (e & <- & (m & Hm & He) & Hlt). unfold interval_of in He. destruct (_ <? _); [|done]. injection He as <-. cbn in *.
    exists m. split_and!; [done|done|lia].
  - intros (m & Hm & <- & Hlt). exists (mkIntervalEntry (mr_address m) (mr_end_exclusive m) (mr_owner_row m)).
    split_and!; [done| |cbn; lia]. exists m. split; [done|]. unfold interval_of. destruct (Z.ltb_spec (mr_address m) (mr_end_exclusive m)); [done|lia].
Qed.
Lemma intervals_small : Forall (fun e => in_usize (ie_row e)) (intervals_of rows).
Proof.
  apply Forall_forall. intros e He. unfold intervals_of in He. apply list_elem_of_omap in He as (m & Hm & He).
  unfold interval_of in He. destruct (_ <? _); [|done]. injection He as <-.
  pose proof (proj1 (Forall_forall _ _) (ro_memories _ Hrows) m Hm) as Hsmall. unfold small_row, in_usize in *. cbn. lia.
Qed.

(** The rows of a range of pairs. *)
Lemma sequence_match start stop row :
  (exists value, (value, row) ∈ ic_sequence ic /\ start <= value < stop) <-> matches rows dictionary (Sequence start stop) row.
Proof. setoid_rewrite (proj2 (co_sequence _ _ Hic)). setoid_rewrite sequence_pairs_elem. cbn. naive_solver. Qed.
Lemma module_pc_match module start stop row :
  (exists value, (value, row) ∈ module_pcs ic module /\ start <= value < stop) <-> matches rows dictionary (ModulePc module start stop) row.
Proof.
  destruct (module_pcs_spec module) as (_ & _ & Hperm). setoid_rewrite Hperm. setoid_rewrite values_of_elem.
  setoid_rewrite pc_pairs_elem. cbn. naive_solver.
Qed.

(** An answer given by another description of the rows. *)
Lemma answers_matches (p : Prog W IndexError unit (list nat)) P query :
  answers p (scan_of P) index_refused -> (forall row, P row <-> first_matches rows dictionary query row) ->
  answers p (scan_of (first_matches rows dictionary query)) (query_fault query).
Proof. intros Hp Hiff. eapply answers_weaken; [exact Hp|intros out; by apply scan_iff|by left]. Qed.

Lemma answers_bounded_rows query max_rows :
  answers (W := W) (bounded_rows ic strings query max_rows) (scan_of (first_matches rows dictionary query)) (query_fault query).
Proof.
  destruct query as [tids|kinds|modules|start stop|module start stop|definitions|slots|values|values|start stop]; cbn [bounded_rows].
  - eapply answers_matches; [apply answers_map_rows, posts_for_all, Hic|]. cbn. naive_solver.
  - eapply answers_matches; [apply answers_map_rows, posts_for_all, Hic|apply kinds_match].
  - eapply answers_matches; [apply answers_map_rows, posts_for_all, Hic|]. cbn. naive_solver.
  - eapply answers_matches; [apply answers_pair_rows; [apply Hic|apply sequence_small]|apply sequence_match].
  - destruct (module_pcs_spec module) as (Hs & Hsmall & _). eapply answers_matches; [by apply answers_pair_rows|apply module_pc_match].
  - eapply answers_matches; [apply answers_map_rows, posts_for_all, Hic|]. cbn. naive_solver.
  - eapply answers_matches; [apply answers_map_rows; eapply posts_for_mono; [apply slots_range|apply Hic]|apply slots_match].
  - eapply answers_matches; [eapply answers_semantic_rows; [done|apply Hic]|]. intros row. rewrite values_match. cbn. naive_solver.
  - eapply answers_matches; [eapply answers_semantic_rows; [done|apply Hic]|]. intros row. rewrite values_match. cbn. naive_solver.
  - eapply answers_mono; [apply (answers_overlaps_bounded _ _ (co_memory _ _ Hic) intervals_small)|].
    intros out [[Hle [Hs Hin]] _]. split; [done|]. intros row. by rewrite Hin, memory_match.
Qed.

(** *** The lookups of the view *)

Lemma find_value_from value : forall rest id offset, drop id dictionary = rest ->
  find_value strings value id (spans_of offset rest) = find_from id rest value.
Proof.
  induction rest as [|entry rest IH]; intros id offset Hrest; [done|]. cbn.
  assert (dictionary !! id = Some entry) as Hid by (rewrite <- (Nat.add_0_r id), <- lookup_drop, Hrest; done).
  rewrite (arena_get_exact _ _ _ _ Hstrings Hid). destruct (bool_decide _); [done|]. apply IH. by rewrite <- Nat.add_1_r, <- drop_drop, Hrest.
Qed.

Lemma answers_posting_lists rowss lists : Forall2 encodes rowss lists ->
  answers (W := W) (for_each lists posting_rows) (fun out => out = rowss) index_refused.
Proof.
  induction 1 as [|rs posting rowss lists He _ IH]; cbn [for_each]; [by apply answers_ret|].
  apply answers_bind. eapply answers_mono; [by apply answers_posting_rows|]. intros ? ->.
  apply answers_bind. eapply answers_mono; [exact IH|]. intros ? ->. by apply answers_ret.
Qed.

Lemma answers_posting_keys holds m keys : posts_for (fun key => key ∈ keys) holds m ->
  answers (W := W) (rows_for_posting_keys m keys) (scan_of (fun row => exists key, key ∈ keys /\ holds key row)) index_refused.
Proof.
  intros Hp. destruct (posts_found _ _ keys Hp) as (rowss & Hf & Hin). apply answers_bind.
  eapply answers_mono; [by apply answers_posting_lists|]. intros ? ->. apply answers_ret.
  destruct (union_rows_exact rowss) as [Hs Hel]. split; [done|]. intros row. by rewrite Hel, Hin.
Qed.

Lemma filter_everything {A} (f : A -> bool) l : (forall x, x ∈ l -> f x = true) -> List.filter f l = l.
Proof.
  intros Hf. induction l as [|x l IH]; [done|]. cbn. rewrite Hf by left. f_equal. apply IH. intros y Hy. apply Hf. by right.
Qed.
Lemma filter_nothing {A} (f : A -> bool) l : (forall x, x ∈ l -> f x = false) -> List.filter f l = [].
Proof.
  intros Hf. induction l as [|x l IH]; [done|]. cbn. rewrite Hf by left. apply IH. intros y Hy. apply Hf. by right.
Qed.

(** Between the cuts of sorted pairs lie the pairs of the range, in order. *)
Lemma rows_between_exact (pairs : list (Z * nat)) start stop : StronglySorted (cmp_le (compare_pair Z.compare Nat.compare)) pairs ->
  rows_between pairs start stop = map snd (List.filter (in_range start stop) pairs).
Proof.
  intros Hs. unfold rows_between. rewrite Z.geb_leb. destruct (Z.leb_spec stop start) as [Hle|Hlt].
  { rewrite filter_nothing; [done|]. intros p _. unfold in_range. lia. }
  set (first := count_while (fun pair => (pair.1 <? start)%Z) pairs). set (last := count_while (fun pair => (pair.1 <? stop)%Z) pairs).
  f_equal. rewrite <- (take_drop first pairs) at 2. rewrite <- (take_drop (last - first) (drop first pairs)) at 2.
  rewrite !List.filter_app, (filter_nothing _ (take first pairs)), (filter_nothing _ (drop (last - first) _)), app_nil_r; cbn [app].
  - symmetry. apply filter_everything. intros p [_ Hp]%(slice_elem pairs start stop p Hs). unfold in_range. lia.
  - intros p [i Hi]%list_elem_of_lookup_1. rewrite !lookup_drop in Hi.
    pose proof (count_while_after (fun pair => (pair.1 <? stop)%Z) pairs (first + (last - first + i)) p (sorted_values _ _ Hs) ltac:(unfold last in *; lia) Hi) as Hb.
    cbv beta in Hb. unfold in_range. lia.
  - intros p [i Hi]%list_elem_of_lookup_1. apply lookup_take_Some in Hi as [Hi Hn].
    pose proof (count_while_before (fun pair => (pair.1 <? start)%Z) pairs i p Hn Hi) as Hb. cbv beta in Hb. unfold in_range. lia.
Qed.

(** A range of sorted pairs that are the pairs of the rows is the view's answer. *)
Lemma range_answer query (pairs reference : list (Z * nat)) start stop : by_range query = true ->
  StronglySorted (cmp_le (compare_pair Z.compare Nat.compare)) pairs -> pairs ≡ₚ reference ->
  range_pairs rows query = List.filter (in_range start stop) reference ->
  (forall row, (exists value, (value, row) ∈ pairs /\ start <= value < stop) <-> matches rows dictionary query row) ->
  view_answer rows dictionary query (rows_between pairs start stop).
Proof.
  intros Hq Hs Hperm Href Hin. rewrite rows_between_exact by done. split.
  - intros row. rewrite <- Hin, list_elem_of_In, in_map_iff. setoid_rewrite List.filter_In. setoid_rewrite <- list_elem_of_In. unfold in_range. split.
    + intros ([value r] & <- & Hp & Hr). exists value. split; [done|]. cbn in Hr. lia.
    + intros (value & Hp & Hr). exists (value, row). split; [done|]. split; [done|]. cbn. lia.
  - rewrite Hq. exists (List.filter (in_range start stop) pairs). split; [done|]. split; [rewrite Href; by apply filter_perm|].
    apply filter_sorted. eapply Sorted_weaken; [|exact Hs]. intros x y. unfold cmp_le, compare_pair.
    destruct (Z.compare_spec x.1 y.1); cbn; [|by left|done]. intros Hc. right. split; [done|]. destruct (Nat.compare_spec x.2 y.2); [lia|lia|done].
Qed.

Lemma found_ids values : omap (fun value => find_value strings value 0 (as_slice (ba_spans strings))) values = dictionary_ids dictionary values.
Proof.
  unfold dictionary_ids. rewrite (st_spans _ _ Hstrings). induction values as [|v values IH]; [done|]. cbn.
  rewrite find_value_from by done. destruct (find_from 0 dictionary v); by rewrite IH.
Qed.
Lemma answers_semantic_bytes holds m values : posts holds m ->
  answers (W := W) (rows_for_semantic_bytes strings m values)
    (scan_of (fun row => exists id, id ∈ dictionary_ids dictionary values /\ holds id row)) index_refused.
Proof.
  intros Hp. apply answers_bind. apply (answers_mono _ _ (fun _ => True)); [by destruct (_ =? _)%nat; [apply answers_ret|apply answers_grow_as]|].
  intros _ _. rewrite found_ids. by apply answers_posting_keys, posts_for_all.
Qed.

Lemma answers_view_rows query : NoDup dictionary ->
  answers (W := W) (view_rows ic strings query) (view_answer rows dictionary query) (query_fault query).
Proof.
  intros Hnd.
  assert (forall (p : Prog W IndexError unit (list nat)) P, by_range query = false -> answers p (scan_of P) index_refused ->
    (forall row, P row <-> first_matches rows dictionary query row) ->
    answers p (view_answer rows dictionary query) (query_fault query)) as Hgo.
  { intros p P Hq Hp Hiff. eapply answers_mono; [by eapply answers_matches|]. intros out [Hs Hin]. unfold view_answer. rewrite Hq.
    split; [|done]. intros row. rewrite Hin. apply first_matches_all. by right. }
  destruct query as [tids|kinds|modules|start stop|module start stop|definitions|slots|values|values|start stop]; cbn [view_rows].
  - eapply Hgo; [done|apply answers_posting_keys, posts_for_all, Hic|]. cbn. naive_solver.
  - eapply Hgo; [done|apply answers_posting_keys, posts_for_all, Hic|apply kinds_match].
  - eapply Hgo; [done|apply answers_posting_keys, posts_for_all, Hic|]. cbn. naive_solver.
  - apply answers_ret. apply (range_answer _ _ (sequence_pairs rows)); [done|apply Hic|apply Hic|done|apply sequence_match].
  - apply answers_ret. destruct (module_pcs_spec module) as (Hs & _ & Hperm).
    by apply (range_answer _ _ (values_of module (pc_pairs rows))); [..|apply module_pc_match].
  - eapply Hgo; [done|apply answers_posting_keys, posts_for_all, Hic|]. cbn. naive_solver.
  - eapply Hgo; [done|apply answers_posting_keys; eapply posts_for_mono; [apply slots_range|apply Hic]|apply slots_match].
  - eapply Hgo; [done|apply answers_semantic_bytes, Hic|]. intros row. rewrite values_match. cbn. naive_solver.
  - eapply Hgo; [done|apply answers_semantic_bytes, Hic|]. intros row. rewrite values_match. cbn. naive_solver.
  - apply answers_result. pose proof (overlaps_exact _ _ (co_memory _ _ Hic) start stop) as Ho.
    destruct (overlaps (ic_memory ic) start stop) as [out|e]; [|by right]. destruct Ho as [_ [Hs Hin]].
    split; [|done]. intros row. by rewrite Hin, memory_match.
Qed.

End answered.

(** C7: The catalog that [build_indexes] builds answers every kind of bounded
    query with exactly the rows that a scan of the normalized rows would find,
    each once and in order; it fails only when the guard, the heap or the row
    limit refuses, or on a reversed memory range. *)
Theorem catalog_queries_exact {W D : Type} `{WorkGuard W} `{Allocator W} `{UnstableSort} `{HashIteration} `{Countable D}
    (rows : NormalizedRows) (block_rows : nat) (strings : ByteArena (D := D)) (dictionary : list bytes) (w : W) :
  rows_ok rows -> stores strings dictionary -> NoDup dictionary ->
  match build_indexes rows block_rows tt w with
  | (Ok ic, _, _) => forall query max_rows w',
      match bounded_rows ic strings query max_rows tt w' with
      | (Ok out, _, _) => StronglySorted lt out /\ forall row, row ∈ out <-> matches rows dictionary query row
      | (Err e, _, _) => query_fault query e
      end
  | (Err e, _, _) => index_refused e \/ ~ buildable_rows rows block_rows
  end.
Proof.
  intros Hok Hst Hnd. pose proof (answers_build_indexes rows block_rows Hok w) as Hb.
  destruct (build_indexes rows block_rows tt w) as [[[ic|e] []] w1]; [|done]. intros query max_rows.
  intros w'. pose proof (answers_bounded_rows rows ic strings dictionary Hok Hb Hst query max_rows w') as Hq.
  destruct (bounded_rows ic strings query max_rows tt w') as [[[out|e] []] w2]; [|done]. destruct Hq as [Hs Hin]. split; [done|].
  intros row. rewrite Hin. apply first_matches_all. by right.
Qed.

(** Three events of two threads, two of them instructions of one module. *)
Definition sample_rows : NormalizedRows :=
  mkNormalizedRows
    [mkEventKey [] 0 0 0 (Some 10) (Some 7); mkEventKey [] 0 1 8 (Some 11) (Some 9); mkEventKey [] 0 2 16 (Some 12) (Some 7)]
    [KInstruction; KMemory; KInstruction]
    [mkEventColumn ArtifactScope Captured 0; mkEventColumn ArtifactScope Captured 1; mkEventColumn ArtifactScope Captured 2]
    []
    [mkInstructionRow 0 (Some 3) 64 None; mkInstructionRow 2 (Some 3) 68 None]
    [mkMemoryRow 1 None 0 100 108 8 Read true 0 0 0 0]
    [mkSemanticRow 2 (Some 1) 0 0]
    [].
Definition sample_strings : ByteArena (D := nat) :=
  from_owned_parts (mkVec [x61; x62] 4) (mkVec [mkByteSpan 0 1; mkByteSpan 1 1] 4) 16.
Lemma sample_rows_ok : rows_ok sample_rows.
Proof.
  split; [reflexivity|vm_compute; discriminate|vm_compute; discriminate|..]; unfold sample_rows; cbn [nr_instructions nr_observations nr_semantics nr_memories];
    repeat (apply Forall_cons; split; [vm_compute; reflexivity|]); apply Forall_nil; exact I.
Qed.
Lemma sample_strings_ok : stores sample_strings [[x61]; [x62]].
Proof. split; [reflexivity|reflexivity|vm_compute; discriminate]. Qed.
Lemma sample_strings_distinct : NoDup [[x61]; [x62]].
Proof. apply NoDup_cons. split; [by intros [=]%list_elem_of_singleton|apply NoDup_singleton]. Qed.

Lemma catalog_queries_exact_witness :
  exists ic, build_indexes (W := unit) (H1 := merge_unstable_sort) (H2 := listed_iteration) sample_rows 2 tt tt = (Ok ic, tt, tt)
    /\ bounded_rows (W := unit) ic sample_strings (Tids [7; 8]) 10 tt tt = (Ok [0; 2]%nat, tt, tt)
    /\ bounded_rows (W := unit) ic sample_strings (ModulePc 3 65 70) 10 tt tt = (Ok [2]%nat, tt, tt)
    /\ bounded_rows (W := unit) ic sample_strings (SemanticCategories [[x62]]) 10 tt tt = (Ok [2]%nat, tt, tt)
    /\ bounded_rows (W := unit) ic sample_strings (Memory 90 101) 10 tt tt = (Ok [1]%nat, tt, tt)
    /\ matches sample_rows [[x61]; [x62]] (Memory 90 101) 1.
Proof.
  assert (exists ic, build_indexes (W := unit) (H1 := merge_unstable_sort) (H2 := listed_iteration) sample_rows 2 tt tt = (Ok ic, tt, tt)
    /\ bounded_rows (W := unit) ic sample_strings (Tids [7; 8]) 10 tt tt = (Ok [0; 2]%nat, tt, tt)
    /\ bounded_rows (W := unit) ic sample_strings (ModulePc 3 65 70) 10 tt tt = (Ok [2]%nat, tt, tt)
    /\ bounded_rows (W := unit) ic sample_strings (SemanticCategories [[x62]]) 10 tt tt = (Ok [2]%nat, tt, tt)
    /\ bounded_rows (W := unit) ic sample_strings (Memory 90 101) 10 tt tt = (Ok [1]%nat, tt, tt)) as (ic & Hb & H1 & H2 & H3 & H4)
    by (eexists; split_and!; [vm_compute; reflexivity|vm_compute; reflexivity|vm_compute; reflexivity|vm_compute; reflexivity|vm_compute; reflexivity]).
  exists ic. split; [exact Hb|]. split; [exact H1|]. split; [exact H2|]. split; [exact H3|]. split; [exact H4|].
  pose proof (@catalog_queries_exact unit nat _ _ merge_unstable_sort listed_iteration _ _ sample_rows 2 sample_strings [[x61]; [x62]] tt) as Ht.
  rewrite Hb in Ht. specialize (Ht sample_rows_ok sample_strings_ok sample_strings_distinct (Memory 90 101) 10%nat tt).
  rewrite H4 in Ht. destruct Ht as [_ Ht]. apply (proj1 (Ht 1%nat)). left.
Defined.

(** C26: The lookups of [TraceStoreView] agree with a scan of the rows the catalog
    was built from.  A query by keys, by registers, by values or by memory range
    returns the matching rows, each once and in order; a range of sequence
    numbers or of addresses returns one row for each value in the range, in the
    order of the values and for one value in the order of the rows; a timeline, the
    calls, the returns and the checkpoints have their rows in order, and the row
    of a source key is the one that holds it. *)
Theorem view_lookups_exact {W D : Type} `{WorkGuard W} `{Allocator W} `{UnstableSort} `{HashIteration} `{Countable D}
    (rows : NormalizedRows) (block_rows : nat) (strings : ByteArena (D := D)) (dictionary : list bytes) (ic : IndexCatalog) (w w1 : W) :
  rows_ok rows -> stores strings dictionary -> NoDup dictionary ->
  build_indexes rows block_rows tt w = (Ok ic, tt, w1) ->
  (forall query, answers (W := W) (view_rows ic strings query) (view_answer rows dictionary query) (query_fault query))
  /\ (forall timeline, answers (W := W) (rows_for_timeline ic timeline)
       (scan_of (fun row => exists key, nr_keys rows !! row = Some key /\ ek_timeline key = timeline)) index_refused)
  /\ answers (W := W) (posting_rows (ic_call ic))
       (fun out => out = owners (definition_flag (nr_definitions rows) 2) (nr_instructions rows)) index_refused
  /\ answers (W := W) (posting_rows (ic_return_rows ic))
       (fun out => out = owners (definition_flag (nr_definitions rows) 3) (nr_instructions rows)) index_refused
  /\ answers (W := W) (posting_rows (ic_checkpoint ic)) (scan_of (checkpoint_row rows)) index_refused
  /\ forall key row, row_for_source ic key (fun row => ok_or (nr_keys rows !! row) row_panic) = Some row <-> nr_keys rows !! row = Some key.
Proof.
  intros Hok Hst Hnd Hrun. pose proof (answers_build_indexes rows block_rows Hok w) as Hb. rewrite Hrun in Hb. split_and!.
  - intros query. by apply answers_view_rows.
  - intros timeline. eapply answers_mono; [apply answers_posting_keys, posts_for_all, Hb|]. intros out. apply scan_iff. intros row. set_solver.
  - apply answers_posting_rows, Hb.
  - apply answers_posting_rows, Hb.
  - destruct (co_checkpoint _ _ Hb) as (out & He & Hin). eapply answers_mono; [by apply answers_posting_rows|]. intros ? ->.
    split; [|done]. apply (en_rows _ _ He).
  - intros key row. apply keys_find_exact, Hb.
Qed.

Lemma view_lookups_exact_witness :
  exists ic, build_indexes (W := unit) (H1 := merge_unstable_sort) (H2 := listed_iteration) sample_rows 2 tt tt = (Ok ic, tt, tt)
    /\ view_answer sample_rows [[x61]; [x62]] (Sequence 11 13) (rows_for_sequence ic 11 13)
    /\ rows_for_sequence ic 11 13 = [1; 2]%nat
    /\ view_rows (W := unit) (H1 := merge_unstable_sort) ic sample_strings (Tids [9; 7]) tt tt = (Ok [0; 1; 2]%nat, tt, tt)
    /\ view_answer sample_rows [[x61]; [x62]] (Tids [9; 7]) [0; 1; 2]%nat.
Proof.
  assert (exists ic, build_indexes (W := unit) (H1 := merge_unstable_sort) (H2 := listed_iteration) sample_rows 2 tt tt = (Ok ic, tt, tt)
    /\ rows_for_sequence ic 11 13 = [1; 2]%nat /\ view_rows (W := unit) (H1 := merge_unstable_sort) ic sample_strings (Tids [9; 7]) tt tt = (Ok [0; 1; 2]%nat, tt, tt))
    as (ic & Hb & Hs & Ht)
    by (eexists; split; [vm_compute; reflexivity|split; vm_compute; reflexivity]).
  exists ic. split; [exact Hb|].
  pose proof (@view_lookups_exact unit nat _ _ merge_unstable_sort listed_iteration _ _ sample_rows 2 sample_strings [[x61]; [x62]] ic tt tt
    sample_rows_ok sample_strings_ok sample_strings_distinct Hb) as [Hv _].
  split; [exact (Hv (Sequence 11 13) tt)|]. split; [exact Hs|]. split; [exact Ht|].
  pose proof (Hv (Tids [9; 7]) tt) as Ha. rewrite Ht in Ha. exact Ha.
Defined.
