(* ===== verification/CatalogCheck.v ===== *)
(** * Checking a stored catalog

    Models the check of a catalog read from a cache: [validate_shape] and
    [validate] of [qtrace-store/src/index/mod.rs], [literal_detail] of [payload.rs]
    and [validate_index_families] of [builder.rs], which rebuilds most indexes from
    the rows and compares, and only walks the large ones.  A catalog that passes
    answers every query as a scan of its rows would. *)

From stdpp Require Import prelude list sorting strings gmap.
From Stdlib Require Import ZArith Lia Strings.Byte Sorted.
From S2P Require Import Prelude Prog Control Model FlightWire FlightContext FlightSort Answers Index Orders IndexSort Intervals Postings SourceKeys KeyedMaps PartitionCheck Arena Catalog Queries.
Local Open Scope string_scope.
Local Open Scope list_scope.
Local Open Scope Z_scope.

(** ** Equality as the derived [Eq] has it: a [Vec] is its items *)

#[export] Instance DeltaRun_eq_dec : EqDecision DeltaRun.
Proof. solve_decision. Defined.
#[export] Instance IntervalEntry_eq_dec : EqDecision IntervalEntry.
Proof. solve_decision. Defined.
#[export] Instance IntervalIndex_eq_dec : EqDecision IntervalIndex.
Proof. solve_decision. Defined.
#[export] Instance SourceKeyIndex_eq_dec : EqDecision SourceKeyIndex.
Proof. solve_decision. Defined.

Definition same_posting (p q : PostingList) : bool :=
  bool_decide (v_items (pl_runs p) = v_items (pl_runs q)) && (pl_row_count p =? pl_row_count q)%nat.
Fixpoint same_entries (l r : list (Z * PostingList)) : bool :=
  match l, r with
  | [], [] => true
  | (k, p) :: l, (k', q) :: r => (k =? k') && same_posting p q && same_entries l r
  | _, _ => false
  end.
Definition same_map (m m' : SortedMap PostingList) : bool := same_entries (sm_entries m) (sm_entries m').

(** ** The indexes *)

Section families.
Context {W : Type} `{WorkGuard W} `{Allocator W} `{UnstableSort}.
Abbreviation M := (Prog W IndexError unit).

Definition require_equal (same : bool) (label : string) : M unit :=
  fail_if (negb same) (index_corrupt (label +:+ " index differs from normalized facts")).
(** [reserved_pairs], then [extend] with what [f] makes of the rows. *)
Definition extended {X Y} (t : RustType) (count : nat) (label : string) (xs : list X) (f : nat -> X -> option Y) : M (list Y) :=
  index_reserve_new t count label ;! ret (collected xs f).

(** The turn of the loop over the register slots. *)
Definition register_turn (observations : list RegisterObservationRow) (register : SortedMap PostingList) (slot : Z) : M unit :=
  index_checkpoint ;!
  let! count := fold_each (imap pair observations) 0 (fun count '(ordinal, o) =>
    checkpoint_every ordinal ;!
    lift_option (checked_add usize_max count (if or_slot o =? slot then 1 else 0)) (index_resource "register validation count overflow")) in
  index_reserve_new T_usize (Z.to_nat count) "register validation" ;!
  let! rows := push_some observations (fun _ o => if or_slot o =? slot then Some (or_owner_row o) else None) in
  let! rows := cancellable_sort_by Nat.compare T_usize rows in
  let rows := dedup rows in
  let! expected := from_rows rows in
  let actual := map_get register slot in
  let is_empty := (length rows =? 0)%nat in
  fail_if ((negb is_empty && negb (match actual with Some posting => same_posting posting expected | None => false end))
           || (is_empty && match actual with Some _ => true | None => false end))
    (index_corrupt "register index differs from typed rows").

Definition validate_index_families (rows : NormalizedRows) (indexes : IndexCatalog) (interval_block_rows : nat) : M unit :=
  let keys := nr_keys rows in
  let instructions := nr_instructions rows in
  let observations := nr_observations rows in
  let semantics := nr_semantics rows in
  let event_count := length (nr_events rows) in
  validate_posting_partition (ic_timeline indexes) event_count
    (fun row => let! key := row_at keys row in ret (Some (ek_timeline key))) ;!
  validate_posting_partition (ic_tid indexes) event_count (fun row => let! key := row_at keys row in ret (ek_tid key)) ;!
  validate_posting_partition (ic_kind indexes) (length (nr_kinds rows))
    (fun row => let! kind := row_at (nr_kinds rows) row in ret (Some (encode_event_kind kind))) ;!
  let! pairs := extended T_pair (length instructions) "module validation" instructions
    (fun _ row => option_map (fun id => (id, ir_owner_row row)) (ir_module row)) in
  let! module := keyed_postings pairs in
  require_equal (same_map module (ic_module indexes)) "module" ;!
  let! pairs := extended T_pair (length instructions) "definition validation" instructions
    (fun _ row => option_map (fun id => (id, ir_owner_row row)) (ir_definition row)) in
  let! definition := keyed_postings pairs in
  require_equal (same_map definition (ic_definition indexes)) "definition" ;!
  fold_each (seqZ 0 REGISTER_SLOT_COUNT) tt (fun _ slot => register_turn observations (ic_register indexes) slot) ;!
  let! pairs := extended T_pair (length semantics) "semantic category validation" semantics
    (fun _ row => option_map (fun category => (category, sr_owner_row row)) (sr_category row)) in
  let! semantic_category := keyed_postings pairs in
  require_equal (same_map semantic_category (ic_semantic_category indexes)) "semantic category" ;!
  let! pairs := extended T_pair (length semantics) "semantic name validation" semantics
    (fun _ row => option_map (fun name => (name, sr_owner_row row)) (Some (sr_name row))) in
  let! semantic_name := keyed_postings pairs in
  require_equal (same_map semantic_name (ic_semantic_name indexes)) "semantic name" ;!
  index_reserve_new T_usize (length instructions) "call validation" ;!
  index_reserve_new T_usize (length instructions) "return validation" ;!
  let! call := from_rows (owners (definition_flag (nr_definitions rows) 2) instructions) in
  require_equal (same_posting call (ic_call indexes)) "call" ;!
  let! returns := from_rows (owners (definition_flag (nr_definitions rows) 3) instructions) in
  require_equal (same_posting returns (ic_return_rows indexes)) "return" ;!
  index_checkpoint ;!
  let! checkpoint := collect T_usize (length (List.filter (fun o => bool_decide (or_access o = AccessCheckpoint)) observations))
    "checkpoint validation" observations
    (fun _ row => if bool_decide (or_access row = AccessCheckpoint) then Some (or_owner_row row) else None) in
  let! checkpoint := cancellable_sort_by Nat.compare T_usize checkpoint in
  let! checkpoint := from_rows (dedup checkpoint) in
  require_equal (same_posting checkpoint (ic_checkpoint indexes)) "checkpoint" ;!
  let! sequence := extended T_pair (length keys) "sequence validation" keys
    (fun row key => option_map (fun value => (value, row)) (ek_sequence key)) in
  let! sequence := cancellable_sort_by (compare_pair Z.compare Nat.compare) T_pair sequence in
  require_equal (bool_decide (sequence = ic_sequence indexes)) "sequence" ;!
  let! pairs := extended T_keyed_pair (length instructions) "module PC validation" instructions
    (fun _ row => option_map (fun id => (id, (ir_relative_pc row, ir_owner_row row))) (ir_module row)) in
  let! module_pc := keyed_values pairs in
  require_equal (bool_decide (sm_entries module_pc = sm_entries (ic_module_pc indexes))) "module PC" ;!
  let! intervals := extended T_IntervalEntry (length (nr_memories rows)) "memory validation allocation" (nr_memories rows)
    (fun _ row => interval_of row) in
  let! memory := interval_build intervals interval_block_rows in
  require_equal (bool_decide (memory = ic_memory indexes)) "memory interval" ;!
  let! source_keys := keys_build keys in
  require_equal (bool_decide (source_keys = ic_source_keys indexes)) "source key".

End families.

(** ** What the check shows of the indexes *)

Lemma encodes_same rows p q : same_posting p q = true -> encodes rows p -> encodes rows q.
Proof.
  unfold same_posting. rewrite andb_true_iff, bool_decide_eq_true, Nat.eqb_eq. intros [Hruns Hcount] [He Hc Hcan Hrows Hlen].
  split; [by rewrite <- Hruns|by rewrite <- Hcount|by rewrite <- Hruns|done|done].
Qed.
Lemma same_entries_spec l : forall r, same_entries l r = true -> map fst l = map fst r
  /\ forall key q, (key, q) ∈ r -> exists p, (key, p) ∈ l /\ same_posting p q = true.
Proof.
  induction l as [|[k p] l IH]; intros [|[k' q] r] Hs; try done; cbn in Hs.
  { split; [done|]. by intros key q ?%not_elem_of_nil. }
  rewrite !andb_true_iff, Z.eqb_eq in Hs. destruct Hs as [[-> Hp] Hs]. destruct (IH r Hs) as [Hkeys Hin]. split; [cbn; by f_equal|].
  intros key q' [[= -> ->]|Hq]%elem_of_cons; [exists p; split; [left|done]|]. destruct (Hin _ _ Hq) as (p' & Hp' & Hsame). exists p'. split; [by right|done].
Qed.
Lemma posts_same holds m m' : same_map m m' = true -> posts holds m -> posts holds m'.
Proof.
  intros Hsame [Hs Hr Hk]. apply same_entries_spec in Hsame as [Hkeys Hin]. split; [unfold sorted_keys in *; by rewrite <- Hkeys| |].
  - intros key q Hq. destruct (Hin _ _ Hq) as (p & Hp & Hsame). destruct (Hr _ _ Hp) as (rows & He & Hrows). exists rows. split; [by eapply encodes_same|done].
  - intros key row Hh. rewrite <- Hkeys. by eapply Hk.
Qed.

(** The maps as the decoder of a cache leaves them. *)
Record stored_indexes (ic : IndexCatalog) : Prop := mkStoredIndexes {
  si_timeline : sorted_keys (sm_entries (ic_timeline ic)) /\ Forall decoded (map snd (sm_entries (ic_timeline ic)));
  si_tid : sorted_keys (sm_entries (ic_tid ic)) /\ Forall decoded (map snd (sm_entries (ic_tid ic)));
  si_kind : sorted_keys (sm_entries (ic_kind ic)) /\ Forall decoded (map snd (sm_entries (ic_kind ic)));
  si_register : sorted_keys (sm_entries (ic_register ic))
}.

Section checked_families.
Context {W : Type} `{WorkGuard W} `{Allocator W} `{UnstableSort}.
Context (rows : NormalizedRows) (block_rows : nat) (Hok : rows_ok rows).
Abbreviation M := (Prog W IndexError unit).
Abbreviation anything := (fun _ : IndexError => True).

(** A step of the check, whatever its errors are. *)
Lemma answers_pass {A B} (p : M A) (k : A -> M B) (P : A -> Prop) Q R :
  answers p P R -> (forall a, P a -> answers (k a) Q anything) -> answers (bind p k) Q anything.
Proof. intros Hp Hk. apply answers_bind. by eapply answers_weaken; [exact Hp|exact Hk|]. Qed.
Lemma answers_then_any {A B C} (p : M A) (q : A -> M B) (k : B -> M C) (P : B -> Prop) Q R :
  answers (bind p q) P R -> (forall b, P b -> answers (k b) Q anything) -> answers (let! a := p in let! b := q a in k b) Q anything.
Proof.
  intros Hp Hk w. specialize (Hp w). unfold bind in *. destruct (p tt w) as [[[a|e] []] w1]; [|done].
  destruct (q a tt w1) as [[[b|e] []] w2]; [|done]. by apply Hk.
Qed.
Lemma answers_equal {B} same label (k : M B) Q : (same = true -> answers k Q anything) -> answers (require_equal same label ;! k) Q anything.
Proof. intros Hk. apply answers_bind, answers_fail_if; [|done]. intros Hs%negb_false_iff. by apply Hk. Qed.
Lemma answers_extended {X Y} t n label (xs : list X) (f : nat -> X -> option Y) :
  answers (W := W) (extended t n label xs f) (fun out => out = collected xs f) anything.
Proof. apply answers_bind, answers_reserve_new; [done|]. by apply answers_ret. Qed.

Lemma answers_partition_check {X} (xs : list X) n (f : X -> option Z) m : n = length xs ->
  sorted_keys (sm_entries m) /\ Forall decoded (map snd (sm_entries m)) ->
  answers (W := W) (validate_posting_partition m n (fun row => let! x := row_at xs row in ret (f x)))
    (fun _ => posts (fun key row => exists x, xs !! row = Some x /\ f x = Some key) m) anything.
Proof.
  intros -> [Hs Hdec]. eapply answers_mono.
  - apply (answers_validate_partition (fun row => xs !! row ≫= f)); [|done|done]. intros row Hrow.
    destruct (lookup_lt_is_Some_2 xs row Hrow) as [x Hx]. apply answers_bind, (answers_row_at _ _ _ x); [done|]. apply answers_ret. by rewrite Hx.
  - intros []. apply posts_iff. intros key row. split.
    + intros [Hrow Hk]. destruct (xs !! row) as [x|]; [|done]. by exists x.
    + intros (x & Hx & Hf). rewrite Hx. split; [by apply lookup_lt_Some in Hx|done].
Qed.

(** *** Registers *)

Definition observed (slot : Z) (row : nat) : Prop := exists o, o ∈ nr_observations rows /\ or_slot o = slot /\ or_owner_row o = row.
Definition slot_posted (m : SortedMap PostingList) (slot : Z) : Prop :=
  (forall posting, (slot, posting) ∈ sm_entries m -> exists out, encodes out posting /\ forall row, row ∈ out <-> observed slot row)
  /\ forall row, observed slot row -> slot ∈ map fst (sm_entries m).

Lemma answers_slot_rows slot :
  answers (W := W) (let! rows := push_some (nr_observations rows) (fun _ o => if or_slot o =? slot then Some (or_owner_row o) else None) in
    cancellable_sort_by Nat.compare T_usize rows)
    (fun sorted => StronglySorted (cmp_le Nat.compare) sorted /\ forall row, row ∈ sorted <-> observed slot row) anything.
Proof.
  apply answers_bind. eapply answers_mono.
  - apply (answers_fold _ (imap pair (nr_observations rows)) _ _ (fun done out =>
      out = omap (fun '(_, o) => if or_slot o =? slot then Some (or_owner_row o) else None) done)); [done|].
    intros done [i o] rest out _ ->. apply answers_bind, answers_checkpoint_every; [done|]. apply answers_ret.
    rewrite omap_app. cbn. destruct (or_slot o =? slot); [done|by rewrite app_nil_r].
  - intros out ->. eapply answers_weaken; [apply (answers_cancellable_sort Nat.compare)| |done]. intros sorted [Hperm Hs].
    split; [done|]. intros row. rewrite Hperm.
    change (row ∈ collected (nr_observations rows) (fun _ o => if or_slot o =? slot then Some (or_owner_row o) else None) <-> observed slot row).
    rewrite collected_elem_plain. split.
    + intros (o & Ho & Hf). exists o. destruct (Z.eqb_spec (or_slot o) slot); [|done]. by injection Hf as ->.
    + intros (o & Ho & Hslot & <-). exists o. by rewrite Hslot, Z.eqb_refl.
Qed.
Lemma answers_register_turn m slot : sorted_keys (sm_entries m) ->
  answers (W := W) (register_turn (nr_observations rows) m slot) (fun _ => slot_posted m slot) anything.
Proof.
  intros Hs. apply answers_bind, answers_index_checkpoint; [done|]. eapply answers_pass.
  { apply (answers_fold anything (imap pair (nr_observations rows)) _ _ (fun _ _ => True)); [done|].
    intros done [i o] rest count _ _. apply answers_bind, answers_checkpoint_every; [done|]. apply answers_option. by destruct (checked_add _ _ _). }
  intros count _. apply answers_bind, answers_reserve_new; [done|]. eapply answers_then_any; [apply answers_slot_rows|].
  intros sorted [Hsorted Hrows]. destruct (dedup_rows _ Hsorted) as [Hd Hin].
  eapply answers_pass; [apply (answers_from_rows_of anything); [done|done|]|].
  { apply Forall_forall. intros row (o & Ho & _ & <-)%Hin%Hrows. by apply (proj1 (Forall_forall _ _) (ro_observations _ Hok)). }
  intros expected He. apply answers_fail_if; [|done].
  intros [Hfull Hempty]%orb_false_iff. rewrite andb_false_iff, !negb_false_iff in Hfull. rewrite andb_false_iff in Hempty.
  assert (forall row, row ∈ dedup sorted <-> observed slot row) as Hobs by (intros row; by rewrite Hin, Hrows).
  destruct (map_get m slot) as [posting|] eqn:Hg.
  - destruct Hempty as [Hne|]; [|done]. destruct Hfull as [Hf|Hsame]; [by rewrite Hf in Hne|]. split.
    + intros p Hp. apply (map_get_elem m slot p Hs) in Hp. assert (p = posting) as -> by congruence. exists (dedup sorted). split; [|done].
      eapply encodes_same; [|exact He]. unfold same_posting in *. rewrite andb_true_iff, bool_decide_eq_true, Nat.eqb_eq in *. by destruct Hsame as [-> ->].
    + intros row _. apply keys_elem. exists posting. by apply map_get_elem.
  - destruct Hfull as [Hf|]; [|done]. apply Nat.eqb_eq, nil_length_inv in Hf. split.
    + intros p Hp. apply (map_get_elem m slot p Hs) in Hp. congruence.
    + intros row Hrow. apply Hobs in Hrow. rewrite Hf in Hrow. by apply not_elem_of_nil in Hrow.
Qed.
Lemma answers_registers m : sorted_keys (sm_entries m) ->
  answers (W := W) (fold_each (seqZ 0 REGISTER_SLOT_COUNT) tt (fun _ slot => register_turn (nr_observations rows) m slot))
    (fun _ => posts_for (fun slot => 0 <= slot < REGISTER_SLOT_COUNT) observed m) anything.
Proof.
  intros Hs. eapply answers_mono.
  - apply (answers_fold anything (seqZ 0 REGISTER_SLOT_COUNT) _ _ (fun done _ => Forall (slot_posted m) done)); [constructor|].
    intros done slot rest [] _ Hd. eapply answers_mono; [by apply answers_register_turn|]. intros [] Hslot. by apply Forall_snoc.
  - intros [] Hall. assert (forall slot, 0 <= slot < REGISTER_SLOT_COUNT -> slot_posted m slot) as Hslot.
    { intros slot Hr. apply (proj1 (Forall_forall _ _) Hall), elem_of_seqZ. lia. }
    split; [done| |]; intros slot; intros ? Hr; [by apply Hslot|by apply (Hslot slot Hr)].
Qed.

(** *** All indexes *)

Lemma answers_checked_postings {X} (xs : list X) (id_of : X -> option Z) (row_of : X -> nat) n label name m (k : M unit) Q :
  Forall (fun x => small_row (row_of x)) xs ->
  (posts (fun id row => exists x, x ∈ xs /\ id_of x = Some id /\ row_of x = row) m -> answers k Q anything) ->
  answers (W := W) (let! pairs := extended T_pair n label xs (fun _ x => option_map (fun id => (id, row_of x)) (id_of x)) in
    let! built := keyed_postings pairs in require_equal (same_map built m) name ;! k) Q anything.
Proof.
  intros Hsmall Hk. eapply answers_pass; [apply answers_extended|]. intros ? ->.
  eapply answers_pass; [by apply (answers_keyed_collected rows block_rows)|]. intros built Hb. apply answers_equal. intros Hs. by apply Hk, (posts_same _ built).
Qed.
Lemma answers_checked_owners f name posting (k : M unit) Q :
  (encodes (owners f (nr_instructions rows)) posting -> answers k Q anything) ->
  answers (W := W) (let! built := from_rows (owners f (nr_instructions rows)) in require_equal (same_posting built posting) name ;! k) Q anything.
Proof.
  intros Hk. eapply answers_pass; [apply answers_from_rows|].
  { eapply Forall_impl; [by apply (owners_small rows)|]. unfold small_row, in_usize. intros; lia. }
  intros built Hb. apply answers_equal. intros Hs. by apply Hk, (encodes_same _ built).
Qed.

Lemma answers_families ic : stored_indexes ic ->
  answers (W := W) (validate_index_families rows ic block_rows) (fun _ => catalog_of rows ic) anything.
Proof.
  intros [Htl Htid Hkind Hreg]. unfold validate_index_families.
  eapply answers_pass; [apply (answers_partition_check (nr_keys rows) _ (fun key => Some (ek_timeline key))); [by rewrite (ro_keys _ Hok)|done]|]. intros [] Ptl.
  eapply answers_pass; [apply (answers_partition_check (nr_keys rows) _ ek_tid); [by rewrite (ro_keys _ Hok)|done]|]. intros [] Ptid.
  eapply answers_pass; [by apply (answers_partition_check (nr_kinds rows) _ (fun kind => Some (encode_event_kind kind)) _ eq_refl)|]. intros [] Pkind.
  apply answers_checked_postings; [apply Hok|]. intros Pmodule. apply answers_checked_postings; [apply Hok|]. intros Pdefinition.
  eapply answers_pass; [by apply answers_registers|]. intros [] Pregister.
  apply answers_checked_postings; [apply Hok|]. intros Pcategory.
  apply (answers_checked_postings (nr_semantics rows) (fun s => Some (sr_name s))); [apply Hok|]. intros Pname.
  apply answers_bind, answers_reserve_new; [done|]. apply answers_bind, answers_reserve_new; [done|].
  apply answers_checked_owners. intros Pcall. apply answers_checked_owners. intros Preturn.
  apply answers_bind, answers_index_checkpoint; [done|].
  eapply answers_then_any; [apply (answers_checkpoint_rows rows block_rows)|]. intros sorted [Hsorted Hcheck].
  eapply answers_pass; [by apply (answers_checkpoint_index rows block_rows Hok sorted)|]. intros checkpoint (out & Hout & Hrows).
  apply answers_equal. intros Hsame. pose proof (encodes_same _ _ _ Hsame Hout) as Pcheckpoint.
  eapply answers_pass; [apply answers_extended|]. intros ? ->.
  eapply answers_pass; [apply (answers_cancellable_sort (compare_pair Z.compare Nat.compare))|]. intros sequence [Hperm Hseq].
  apply answers_equal. intros ->%bool_decide_eq_true.
  eapply answers_pass; [apply answers_extended|]. intros ? ->.
  eapply answers_pass; [apply (answers_keyed_values anything); done|]. intros module_pc Hpc.
  apply answers_equal. intros Heq%bool_decide_eq_true.
  eapply answers_pass; [apply answers_extended|]. intros ? ->. rewrite collected_plain.
  eapply answers_pass; [apply answers_interval_build|]. intros memory [_ Hmemory]. apply answers_equal. intros ->%bool_decide_eq_true.
  eapply answers_pass; [apply answers_keys_build|]. intros source_keys Hsource.
  apply answers_fail_if; [|done]. intros ->%negb_false_iff%bool_decide_eq_true.
  split; try done.
  - eapply posts_iff; [|exact Ptl]. naive_solver.
  - eapply posts_iff; [|exact Pkind]. naive_solver.
  - eapply posts_iff; [|exact Pname]. naive_solver.
  - by exists out.
  - destruct module_pc, (ic_module_pc ic); cbn in Heq; subst. exact Hpc.
Qed.

End checked_families.

(** ** The catalog *)

Definition DETAIL_ROW_BIT : Z := Z.shiftl 1 31.

(** [bytes.windows(marker.len()).position(|part| part == marker)] *)
Fixpoint find_part (marker bytes : bytes) (position : nat) : option nat :=
  if bool_decide (take (length marker) bytes = marker) then Some position
  else match bytes with [] => None | _ :: bytes => find_part marker bytes (S position) end.
(** The prefix an event of the kind starts with, and the marker before the text. *)
Definition semantic_prefix (kind : string) : bytes := [x7b; x22] ++ String.list_byte_of_string kind ++ [x22; x3a].
Definition detail_marker : bytes := [x2c; x22] ++ String.list_byte_of_string "detail" ++ [x22; x3a; x22].
Definition starts_with (bytes prefix : bytes) : bool := bool_decide (take (length prefix) bytes = prefix).
Definition literal_detail (bytes : bytes) : option Prelude.bytes :=
  if negb (existsb (starts_with bytes) (map semantic_prefix ["semantic_call"; "semantic_rule"; "semantic_error"])) then None
  else
    start ← find_part detail_marker bytes 0;
    let rest := drop (start + length detail_marker) bytes in
    let stop := count_while (fun b => negb (bool_decide (b = x22) || bool_decide (b = x5c))) rest in
    last ← rest !! stop;
    if bool_decide (last = x22) then Some (take stop rest) else None.

Section stored.
Context {W D : Type} `{WorkGuard W} `{Allocator W} `{UnstableSort} `{Countable D}.
Abbreviation M := (Prog W IndexError unit).
Abbreviation ByteArena := (ByteArena (D := D)).

Record NormalizedCatalog := mkNormalizedCatalog {
  nc_schema : Z;
  nc_capabilities : ProviderCapabilities;
  nc_events : list EventColumn;
  nc_payloads : ByteArena;
  nc_strings : ByteArena;
  nc_blobs : ByteArena;
  nc_modules : list ModuleRow;
  nc_definitions : list DefinitionRow;
  nc_instructions : list InstructionRow;
  nc_memories : list MemoryRow;
  nc_semantics : list SemanticRow;
  nc_observations : list RegisterObservationRow;
  nc_completeness : list CompletenessRow;
  nc_indexes : IndexCatalog
}.
(** The catalog's tables with the keys and kinds of the events. *)
Definition catalog_rows (keys : list EventKey) (kinds : list EventKind) (c : NormalizedCatalog) : NormalizedRows :=
  mkNormalizedRows keys kinds (nc_events c) (nc_definitions c) (nc_instructions c) (nc_memories c) (nc_semantics c) (nc_observations c).

Context (c : NormalizedCatalog).

Definition detail_bytes (row : Z) : result IndexError bytes :=
  match nc_events c !! Z.to_nat row with
  | None => Err (index_corrupt "semantic detail event is out of range")
  | Some event =>
      match arena_get (nc_payloads c) (ec_payload_blob event) with
      | Err e => Err e
      | Ok payload => ok_or (literal_detail payload) (index_corrupt "semantic detail is not literal payload text")
      end
  end.
Definition blob_bytes (id : Z) : result IndexError bytes :=
  if negb (Z.land id DETAIL_ROW_BIT =? 0) then detail_bytes (and_not32 id DETAIL_ROW_BIT) else arena_get (nc_blobs c) id.

Definition guarded_row_chunks {T} (rows : list T) (work : list T -> M unit) : M unit :=
  fold_each (chunks 4096 rows) tt (fun _ chunk => index_checkpoint ;! work chunk).
Definition is_err {A} (r : result IndexError A) : bool := match r with Ok _ => false | Err _ => true end.
(** [get(id).map_err(|error| corrupt(format!("{label}: {error}")))?] *)
Definition require_reference {A} (label : string) (r : result IndexError A) : M unit :=
  match r with Ok _ => ret tt | Err e => throw (index_corrupt (label +:+ ": " +:+ index_display e)) end.
Definition out_of_range {T} (rows : list T) (id : option Z) : bool :=
  match id with Some id => zlen rows <=? id | None => false end.
Definition no_such_row (event_count row : nat) : bool := (event_count <=? row)%nat.

Definition bad_instruction (event_count : nat) (row : InstructionRow) : bool :=
  no_such_row event_count (ir_owner_row row) || out_of_range (nc_modules c) (ir_module row)
  || out_of_range (nc_definitions c) (ir_definition row).
Definition bad_memory (event_count : nat) (row : MemoryRow) : bool :=
  no_such_row event_count (mr_owner_row row) || out_of_range (nc_modules c) (mr_module row)
  || negb (bool_decide (checked_add u64_max (mr_address row) (mr_size row) = Some (mr_end_exclusive row)))
  || is_err (arena_get (nc_blobs c) (mr_before_blob row)) || is_err (arena_get (nc_blobs c) (mr_after_blob row)).
Definition bad_semantic (event_count : nat) (row : SemanticRow) : bool :=
  no_such_row event_count (sr_owner_row row)
  || match sr_category row with Some id => is_err (arena_get (nc_strings c) id) | None => false end
  || is_err (arena_get (nc_strings c) (sr_name row)) || is_err (blob_bytes (sr_detail_blob row)).
Definition bad_observation (event_count : nat) (row : RegisterObservationRow) : bool :=
  no_such_row event_count (or_owner_row row) || (REGISTER_SLOT_COUNT <=? or_slot row) || (or_captured_width row =? 0).
Definition require_rows {T} (rows : list T) (bad : T -> bool) : M unit :=
  guarded_row_chunks rows (fun chunk => fail_if (existsb bad chunk) (index_corrupt "normalized typed-table reference is invalid")).

Definition validate_shape (event_count : nat) : M unit :=
  fail_if (negb (nc_schema c =? 2) || negb (length (nc_events c) =? event_count)%nat)
    (index_corrupt "normalized event-column row counts differ") ;!
  arena_validate (nc_strings c) ;!
  arena_validate (nc_payloads c) ;!
  arena_validate (nc_blobs c) ;!
  guarded_row_chunks (nc_events c) (fun chunk => fold_each chunk tt (fun _ event =>
    require_reference "event payload reference is invalid" (arena_get (nc_payloads c) (ec_payload_blob event)))) ;!
  guarded_row_chunks (nc_modules c) (fun chunk => fold_each chunk tt (fun _ module =>
    require_reference "module name reference is invalid" (arena_get (nc_strings c) (mw_name module)))) ;!
  guarded_row_chunks (nc_definitions c) (fun chunk => fold_each chunk tt (fun _ definition =>
    require_reference "definition mnemonic reference is invalid" (arena_get (nc_strings c) (dr_mnemonic definition)) ;!
    require_reference "definition operands reference is invalid" (arena_get (nc_strings c) (dr_operands definition)) ;!
    require_reference "definition disassembly reference is invalid" (arena_get (nc_strings c) (dr_disassembly definition)) ;!
    require_reference "definition blob reference is invalid" (arena_get (nc_blobs c) (dr_exact_blob definition)))) ;!
  require_rows (nc_instructions c) (bad_instruction event_count) ;!
  require_rows (nc_memories c) (bad_memory event_count) ;!
  require_rows (nc_semantics c) (bad_semantic event_count) ;!
  require_rows (nc_observations c) (bad_observation event_count) ;!
  fail_if (negb (keys_len (ic_source_keys (nc_indexes c)) =? event_count)%nat)
    (index_corrupt "source row and EventKey mapping is not bijective").

(** The errors of the guard pass; any other is reported as corruption. *)
Definition reconstruction_error (e : IndexError) : IndexError :=
  if String.prefix "control." (index_code e) || bool_decide (index_code e = "job.cancelled") then e
  else index_corrupt "eager index reconstruction failed".

Definition validate (keys : list EventKey) (kinds : list EventKind) : M unit :=
  validate_shape (length keys) ;!
  fail_if (negb (length kinds =? length keys)%nat) (index_corrupt "normalized event-column row counts differ") ;!
  let! interval_block_rows := lift_option (try_from u32_max (Z.of_nat (ix_block_rows (ic_memory (nc_indexes c)))))
    (index_corrupt "interval block size does not fit u32") in
  relabel reconstruction_error (validate_index_families (catalog_rows keys kinds c) (nc_indexes c) (Z.to_nat interval_block_rows)).

End stored.

(** ** What the check shows of the catalog *)

Section checked_catalog.
Context {W D : Type} `{WorkGuard W} `{Allocator W} `{UnstableSort} `{Countable D}.
Context (c : NormalizedCatalog (D := D)).
Abbreviation anything := (fun _ : IndexError => True).

Lemma answers_row_chunks {T} (rows : list T) (work : list T -> Prog W IndexError unit unit) (P : list T -> Prop) :
  (forall chunk, answers (work chunk) (fun _ => P chunk) anything) ->
  answers (guarded_row_chunks rows work) (fun _ => exists cs, concat cs = rows /\ Forall P cs) anything.
Proof.
  intros Hwork. eapply answers_mono.
  - apply (answers_fold anything (chunks 4096 rows) _ _ (fun done _ => Forall P done)); [constructor|].
    intros done chunk rest [] _ Hd. apply answers_bind, answers_index_checkpoint; [done|].
    eapply answers_mono; [apply Hwork|]. intros [] Hc. by apply Forall_snoc.
  - intros [] Hall. exists (chunks 4096 rows). split; [apply chunks_concat; lia|done].
Qed.
Lemma answers_require_rows {T} (rows : list T) bad :
  answers (W := W) (require_rows rows bad) (fun _ => forall row, row ∈ rows -> bad row = false) anything.
Proof.
  eapply answers_mono; [apply (answers_row_chunks _ _ (Forall (fun row => bad row = false)))|].
  - intros chunk. apply answers_fail_if; [|done]. intros Hno. apply Forall_forall. intros row Hin.
    destruct (bad row) eqn:Hb; [|done]. assert (existsb bad chunk = true); [|congruence]. apply existsb_exists. exists row. by rewrite <- list_elem_of_In.
  - intros [] (cs & <- & Hall) row Hin. apply Forall_concat in Hall. by apply (proj1 (Forall_forall _ _) Hall).
Qed.

(** Steps of which only the success matters. *)
Lemma answers_any {A} (p : Prog W IndexError unit A) : answers p (fun _ => True) anything.
Proof. intros w. by destruct (p tt w) as [[[]?]?]. Qed.

(** What the indexes rely on. *)
Record shaped (event_count : nat) : Prop := mkShaped {
  sh_events : length (nc_events c) = event_count;
  sh_strings : exists dictionary, stores (nc_strings c) dictionary;
  sh_instructions : forall row, row ∈ nc_instructions c -> (ir_owner_row row < event_count)%nat;
  sh_memories : forall row, row ∈ nc_memories c -> (mr_owner_row row < event_count)%nat;
  sh_semantics : forall row, row ∈ nc_semantics c -> (sr_owner_row row < event_count)%nat;
  sh_observations : forall row, row ∈ nc_observations c -> (or_owner_row row < event_count)%nat
}.

Lemma owner_ok n row b : no_such_row n row || b = false -> (row < n)%nat.
Proof. intros [Hr _]%orb_false_iff. by apply Nat.leb_gt in Hr. Qed.

Lemma answers_validate_shape n : arena_words (nc_strings c) -> answers (W := W) (validate_shape c n) (fun _ => shaped n) anything.
Proof.
  intros Hwords. unfold validate_shape. apply answers_bind, answers_fail_if; [|done]. intros [_ Hlen%negb_false_iff%Nat.eqb_eq]%orb_false_iff.
  eapply answers_pass; [by apply answers_arena_validate|]. intros [] Hstrings.
  do 5 (eapply answers_pass; [apply answers_any|intros [] _]).
  eapply answers_pass; [apply answers_require_rows|]. intros [] Hi. eapply answers_pass; [apply answers_require_rows|]. intros [] Hm.
  eapply answers_pass; [apply answers_require_rows|]. intros [] Hsem. eapply answers_pass; [apply answers_require_rows|]. intros [] Ho.
  apply answers_fail_if; [intros _|done]. split; [done|done|..].
  - intros row Hin%Hi. unfold bad_instruction in Hin. rewrite <- !orb_assoc in Hin. by eapply owner_ok.
  - intros row Hin%Hm. unfold bad_memory in Hin. rewrite <- !orb_assoc in Hin. by eapply owner_ok.
  - intros row Hin%Hsem. unfold bad_semantic in Hin. rewrite <- !orb_assoc in Hin. by eapply owner_ok.
  - intros row Hin%Ho. unfold bad_observation in Hin. rewrite <- !orb_assoc in Hin. by eapply owner_ok.
Qed.

Lemma answers_validate keys kinds : arena_words (nc_strings c) -> stored_indexes (nc_indexes c) -> zlen keys <= usize_max ->
  answers (W := W) (validate c keys kinds)
    (fun _ => rows_ok (catalog_rows keys kinds c) /\ catalog_of (catalog_rows keys kinds c) (nc_indexes c)
       /\ exists dictionary, stores (nc_strings c) dictionary) anything.
Proof.
  intros Hwords Hstored Hsize. eapply answers_pass; [by apply answers_validate_shape|]. intros [] [Hev Hstr Hi Hm Hsem Ho].
  apply answers_bind, answers_fail_if; [|done]. intros Hkinds%negb_false_iff%Nat.eqb_eq.
  apply answers_bind, answers_option. destruct (try_from _ _) as [block|]; [|done].
  assert (forall row, (row < length keys)%nat -> small_row row) as Hsmall by (unfold small_row, zlen in *; intros; lia).
  assert (rows_ok (catalog_rows keys kinds c)) as Hok.
  { split; cbn; [done|unfold zlen in *; lia|unfold zlen in *; lia|..]; apply Forall_forall; intros row Hin; apply Hsmall; by auto. }
  apply answers_relabel. intros w'. pose proof (answers_families _ (Z.to_nat block) Hok _ Hstored w') as Hf.
  by destruct (validate_index_families _ _ _ tt w') as [[[[]|e] []] w1].
Qed.

End checked_catalog.

(** C8: A catalog read from a cache that passes [validate] answers every bounded
    query with exactly the rows that a scan of its tables finds, each once and in
    order, or fails for a refusal or a reversed range.  Of the file it is only
    known that its numbers are machine words and that its maps were decoded.  The
    eight queries by key and by range have no other condition.  [validate] does
    not compare the strings with each other, so for the two queries by value the
    scan reads a string by its first entry in the dictionary; when no string is
    stored twice - the interning pass of the cache checks that - these are all
    the rows with the value. *)
Theorem validated_catalog_exact {W D : Type} `{WorkGuard W} `{Allocator W} `{UnstableSort} `{Countable D}
    (c : NormalizedCatalog (D := D)) (keys : list EventKey) (kinds : list EventKind) (w w' : W) :
  arena_words (nc_strings c) -> stored_indexes (nc_indexes c) -> zlen keys <= usize_max ->
  validate c keys kinds tt w = (Ok tt, tt, w') ->
  exists dictionary, stores (nc_strings c) dictionary
    /\ forall query max_rows w2,
         match bounded_rows (nc_indexes c) (nc_strings c) query max_rows tt w2 with
         | (Ok out, _, _) => StronglySorted lt out
             /\ (forall row, row ∈ out <-> first_matches (catalog_rows keys kinds c) dictionary query row)
             /\ (by_value query = false \/ NoDup dictionary ->
                 forall row, row ∈ out <-> matches (catalog_rows keys kinds c) dictionary query row)
         | (Err e, _, _) => query_fault query e
         end.
Proof.
  intros Hwords Hstored Hsize Hrun. pose proof (answers_validate c keys kinds Hwords Hstored Hsize w) as Hv. rewrite Hrun in Hv.
  destruct Hv as (Hok & Hic & dictionary & Hst). exists dictionary. split; [done|]. intros query max_rows w2.
  pose proof (answers_bounded_rows (catalog_rows keys kinds c) (nc_indexes c) (nc_strings c) dictionary Hok Hic Hst query max_rows w2) as Hq.
  destruct (bounded_rows _ _ query max_rows tt w2) as [[[out|e] []] w3]; [|done]. destruct Hq as [Hs Hin]. split; [done|]. split; [done|].
  intros Hall row. rewrite Hin. by apply first_matches_all.
Qed.

(** The sample rows as a stored catalog, with the postings of a register slot that
    no register has. *)
Definition sample_arena (values : bytes) : ByteArena (D := nat) :=
  from_owned_parts (mkVec values 8) (mkVec (imap (fun i _ => mkByteSpan (Z.of_nat i) 1) values) 8) 64.
Definition with_register (entries : list (Z * PostingList)) (ic : IndexCatalog) : IndexCatalog :=
  mkIndexCatalog (ic_timeline ic) (ic_tid ic) (ic_kind ic) (ic_module ic) (ic_definition ic) (mkSortedMap entries)
    (ic_semantic_category ic) (ic_semantic_name ic) (ic_call ic) (ic_return_rows ic) (ic_checkpoint ic) (ic_sequence ic)
    (ic_module_pc ic) (ic_memory ic) (ic_source_keys ic).
Definition sample_catalog (ic : IndexCatalog) : NormalizedCatalog (D := nat) :=
  mkNormalizedCatalog 2 qtrb_register_observations (nr_events sample_rows) (sample_arena [x30; x31; x32]) sample_strings (sample_arena [x00])
    (replicate 4 (mkModuleRow 0 Captured 0 0 0)) (nr_definitions sample_rows) (nr_instructions sample_rows) (nr_memories sample_rows)
    (nr_semantics sample_rows) (nr_observations sample_rows) [] ic.
Definition stray_register : list (Z * PostingList) := [(40, mkPostingList (mkVec [mkDeltaRun 1 1] 4) 1)].

(** The check compares the register lists of the existing slots only: a stored list
    under another key is accepted, although the index of the rows has none. *)
Lemma stray_register_accepted :
  exists ic, build_indexes (W := unit) (H1 := merge_unstable_sort) (H2 := listed_iteration) sample_rows 2 tt tt = (Ok ic, tt, tt)
    /\ validate (W := unit) (H1 := merge_unstable_sort) (sample_catalog (with_register stray_register ic)) (nr_keys sample_rows) (nr_kinds sample_rows)
         tt tt = (Ok tt, tt, tt)
    /\ sm_entries (ic_register ic) = [].
Proof. eexists. split; [vm_compute; reflexivity|]. split; [vm_compute; reflexivity|reflexivity]. Qed.

Lemma validated_catalog_exact_witness :
  exists ic, build_indexes (W := unit) (H1 := merge_unstable_sort) (H2 := listed_iteration) sample_rows 2 tt tt = (Ok ic, tt, tt)
    /\ validate (W := unit) (H1 := merge_unstable_sort) (sample_catalog ic) (nr_keys sample_rows) (nr_kinds sample_rows) tt tt = (Ok tt, tt, tt)
    /\ bounded_rows (W := unit) ic sample_strings (Tids [7; 8]) 10 tt tt = (Ok [0; 2]%nat, tt, tt)
    /\ forall row, row ∈ [0; 2]%nat
         <-> matches (catalog_rows (nr_keys sample_rows) (nr_kinds sample_rows) (sample_catalog ic)) [] (Tids [7; 8]) row.
Proof.
  assert (exists ic, build_indexes (W := unit) (H1 := merge_unstable_sort) (H2 := listed_iteration) sample_rows 2 tt tt = (Ok ic, tt, tt)
    /\ validate (W := unit) (H1 := merge_unstable_sort) (sample_catalog ic) (nr_keys sample_rows) (nr_kinds sample_rows) tt tt = (Ok tt, tt, tt)
    /\ bounded_rows (W := unit) ic sample_strings (Tids [7; 8]) 10 tt tt = (Ok [0; 2]%nat, tt, tt)
    /\ stored_indexes ic) as (ic & Hb & Hv & Hr & Hs).
  { eexists. split; [vm_compute; reflexivity|]. split; [vm_compute; reflexivity|]. split; [vm_compute; reflexivity|].
    split; [| | |repeat constructor]; (split; [repeat constructor; unfold Z.lt; reflexivity|];
      repeat (apply Forall_cons; split; [split; [repeat (apply Forall_cons; split; [cbn; unfold u64_max; lia|]); apply Forall_nil; exact I|reflexivity]|]);
      apply Forall_nil; exact I). }
  exists ic. split; [exact Hb|]. split; [exact Hv|]. split; [exact Hr|].
  destruct (@validated_catalog_exact unit nat _ _ merge_unstable_sort _ _ (sample_catalog ic) (nr_keys sample_rows) (nr_kinds sample_rows) tt tt
    ltac:(split; [vm_compute; discriminate|repeat (apply Forall_cons; split; [cbn; lia|]); apply Forall_nil; exact I])
    Hs ltac:(vm_compute; discriminate) Hv) as (dictionary & _ & Hq).
  specialize (Hq (Tids [7; 8]) 10%nat tt). change (nc_indexes (sample_catalog ic)) with ic in Hq.
  change (nc_strings (sample_catalog ic)) with sample_strings in Hq. rewrite Hr in Hq.
  exact (proj2 (proj2 Hq) (or_introl eq_refl)).
Defined.
