(* ===== verification/DecodeWork.v ===== *)
(** * The work of a query, and its estimate

    [bounded_row_estimate] promises an upper bound of the work that the query
    will charge, and the timeline authorizes its guard for exactly that much.
    This file models that guard, [CandidateGuard] of
    [qtrace-analysis/src/timeline.rs], and shows that the bound holds: a query
    within its estimate is never stopped for its work.  The interface [WorkMeter]
    is what the proofs use of the guard. *)

From stdpp Require Import prelude list sorting strings gmap.
From Stdlib Require Import ZArith Lia Strings.Byte Sorted.
From S2P Require Import Prelude Prog Control Model FlightContext FlightSort Answers Index Orders IndexSort Intervals Postings SourceKeys KeyedMaps Arena Catalog Queries.
Local Open Scope string_scope.
Local Open Scope list_scope.
Local Open Scope Z_scope.

(** ** The guard of a query *)

Record CandidateLedger := mkCandidateLedger {
  cl_work : Z;
  cl_resident : Z;
  cl_cancelled : nat -> bool;
  cl_calls : nat;
  cl_work_limit : Z;
  cl_resident_limit : Z
}.
(** [with_limits]; [cancelled] is what the flag shows at each later call. *)
Definition ledger_with_limits (cancelled : nat -> bool) (work_limit resident_limit : Z) : CandidateLedger :=
  mkCandidateLedger 0 0 cancelled 0 work_limit resident_limit.

Definition ledger_work_delta (d : WorkDelta) : Z :=
  saturating_add u64_max (saturating_add u64_max (saturating_add u64_max (saturating_add u64_max (wd_rows d) (wd_events d)) (wd_nodes d))
    (wd_input_bytes d)) (wd_decompressed_bytes d).
(** [fetch_update(|used| used.checked_add(n).filter(|used| used <= limit))] *)
Definition ledger_add (used n limit : Z) : option Z :=
  total ← checked_add u64_max used n; if total <=? limit then Some total else None.

Definition candidate_consume (d : WorkDelta) (g : CandidateLedger) : result OperationAbort unit * CandidateLedger :=
  let called work resident := mkCandidateLedger work resident (cl_cancelled g) (S (cl_calls g)) (cl_work_limit g) (cl_resident_limit g) in
  if cl_cancelled g (cl_calls g) then (Err Cancelled, called (cl_work g) (cl_resident g))
  else
    let n := ledger_work_delta d in
    match ledger_add (cl_work g) n (cl_work_limit g) with
    | None => (Err (budget_exceeded Nodes (cl_work_limit g) (saturating_add u64_max (cl_work g) n)), called (cl_work g) (cl_resident g))
    | Some work =>
        if wd_resident_bytes d =? 0 then (Ok tt, called work (cl_resident g))
        else
          match ledger_add (cl_resident g) (wd_resident_bytes d) (cl_resident_limit g) with
          | None => (Err (budget_exceeded ResidentBytes (cl_resident_limit g) (saturating_add u64_max (cl_resident g) (wd_resident_bytes d))),
                     called work (cl_resident g))
          | Some resident => (Ok tt, called work resident)
          end
    end.

(** [authorize]: the limit becomes the work so far and the allowance. *)
Definition ledger_authorize (allowance : Z) (g : CandidateLedger) : option CandidateLedger :=
  limit ← checked_add u64_max (cl_work g) allowance;
  Some (mkCandidateLedger (cl_work g) (cl_resident g) (cl_cancelled g) (cl_calls g) limit (cl_resident_limit g)).

(** [extend_work_limit]: planning may grow the limit. *)
Definition ledger_extend (additional : Z) (g : CandidateLedger) : option CandidateLedger :=
  limit ← checked_add u64_max (cl_work_limit g) additional;
  Some (mkCandidateLedger (cl_work g) (cl_resident g) (cl_cancelled g) (cl_calls g) limit (cl_resident_limit g)).

#[export] Instance candidate_guard {H : Type} : WorkGuard (CandidateLedger * H) := {|
  guard_consume d w := let '(r, g) := candidate_consume d (fst w) in (r, (g, snd w));
  guard_begin_phase _ w := w;
  guard_parallelism _ := 1;
  guard_begin_scope d _ w := let '(r, g) := candidate_consume d (fst w) in (r, (g, snd w));
  guard_end_scope w := w
|}.
#[export] Instance candidate_heap {H : Type} `{Allocator H} : Allocator (CandidateLedger * H) := {|
  size_of := size_of (W := H);
  align_of := align_of (W := H);
  vec_grow t n w := let '(r, h) := vec_grow t n (snd w) in (r, (fst w, h));
  map_capacity id w := map_capacity id (snd w);
  map_grow id n w := let '(r, h) := map_grow id n (snd w) in (r, (fst w, h))
|}.

(** ** What the proofs use of a guard *)

Definition delta_work (d : WorkDelta) : Z := wd_rows d + wd_events d + wd_nodes d + wd_input_bytes d + wd_decompressed_bytes d.
Definition work_words (d : WorkDelta) : Prop :=
  0 <= wd_rows d /\ 0 <= wd_events d /\ 0 <= wd_nodes d /\ 0 <= wd_input_bytes d /\ 0 <= wd_decompressed_bytes d.
(** The abort is not about the work. *)
Definition not_work (a : OperationAbort) : Prop := match a with BudgetExceeded Nodes _ _ => False | _ => True end.

(** A world with a meter: the work spent, the work allowed, and a condition it
    keeps.  Work within what is allowed is charged exactly; nothing else moves
    the meter. *)
Class WorkMeter (W : Type) `{WorkGuard W} `{Allocator W} := {
  spent : W -> Z;
  allowed : W -> Z;
  metered : W -> Prop;
  meter_consume d w : metered w -> work_words d -> spent w + delta_work d <= allowed w ->
    match guard_consume d w with
    | (Ok _, w') => spent w' = spent w + delta_work d /\ allowed w' = allowed w /\ metered w'
    | (Err a, _) => not_work a
    end;
  meter_scope n slack w : metered w -> spent w <= allowed w ->
    match guard_begin_scope (delta_resident n) slack w with
    | (Ok _, w') => spent w' = spent w /\ allowed w' = allowed w /\ metered w'
    | (Err a, _) => not_work a
    end;
  meter_end w : metered w -> let w' := guard_end_scope w in spent w' = spent w /\ allowed w' = allowed w /\ metered w';
  meter_grow t n w : metered w -> let w' := snd (vec_grow t n w) in spent w' = spent w /\ allowed w' = allowed w /\ metered w'
}.

Definition ledger_ok (g : CandidateLedger) : Prop := 0 <= cl_work g /\ cl_work_limit g <= u64_max.

Lemma candidate_consume_within d g : ledger_ok g -> work_words d -> cl_work g + delta_work d <= cl_work_limit g ->
  match candidate_consume d g with
  | (Ok _, g') => cl_work g' = cl_work g + delta_work d /\ cl_work_limit g' = cl_work_limit g /\ ledger_ok g'
  | (Err a, _) => not_work a
  end.
Proof.
  intros [Hwork Hlimit] Hd Hfit. unfold candidate_consume. destruct (cl_cancelled g _); [done|].
  assert (ledger_work_delta d = delta_work d) as -> by (unfold work_words, delta_work, ledger_work_delta, saturating_add in *; lia).
  unfold ledger_add at 1. rewrite checked_add_ok by lia. cbn [mbind option_bind].
  assert (0 <= delta_work d) by (unfold work_words, delta_work in *; lia).
  destruct (Z.leb_spec (cl_work g + delta_work d) (cl_work_limit g)); [|lia]. unfold ledger_ok.
  destruct (wd_resident_bytes d =? 0); [cbn; lia|]. destruct (ledger_add (cl_resident g) _ _); [cbn; lia|done].
Qed.

#[export] Instance candidate_meter {H : Type} `{Allocator H} : WorkMeter (CandidateLedger * H).
Proof.
  refine {| spent w := cl_work (fst w); allowed w := cl_work_limit (fst w); metered w := ledger_ok (fst w) |}.
  - intros d [g h] Hok Hd Hfit. cbn in *. pose proof (candidate_consume_within d g Hok Hd Hfit) as Hc.
    by destruct (candidate_consume d g) as [[?|?] ?].
  - intros n slack [g h] Hok Hfit. cbn in *.
    pose proof (candidate_consume_within (delta_resident n) g Hok ltac:(by repeat split) ltac:(unfold delta_work; cbn; lia)) as Hc.
    destruct (candidate_consume (delta_resident n) g) as [[?|?] ?]; [|done]. unfold delta_work in Hc. cbn in Hc. by rewrite Z.add_0_r in Hc.
  - done.
  - intros t n [g h] Hok. cbn. by destruct (vec_grow t n h).
Defined.

(** ** Bounds on the work of a program *)

Section within.
Context {W : Type} `{WorkMeter W}.
Abbreviation M := (Prog W IndexError unit).

Definition in_budget (e : IndexError) : Prop := match e with IndexAbort a => not_work a | _ => True end.
(** With [cost] still allowed, the program is not stopped for its work, and spends no more. *)
Definition within {A} (p : M A) (cost : Z) (Q : A -> Prop) : Prop := forall w, metered w -> spent w + cost <= allowed w ->
  match p tt w with
  | (Ok a, _, w') => Q a /\ spent w' <= spent w + cost /\ allowed w' = allowed w /\ metered w'
  | (Err e, _, _) => in_budget e
  end.

Lemma within_ret {A} (a : A) cost (Q : A -> Prop) : 0 <= cost -> Q a -> within (ret a) cost Q.
Proof. intros Hc HQ w Hm Hfit. cbn. split_and!; [done|lia|done|done]. Qed.
Lemma within_throw {A} e cost (Q : A -> Prop) : in_budget e -> within (throw e) cost Q.
Proof. intros He w Hm Hfit. exact He. Qed.
Lemma within_bind {A B} (p : M A) (k : A -> M B) cost1 cost2 (P : A -> Prop) Q : 0 <= cost2 ->
  within p cost1 P -> (forall a, P a -> within (k a) cost2 Q) -> within (bind p k) (cost1 + cost2) Q.
Proof.
  intros Hc Hp Hk w Hm Hfit. specialize (Hp w Hm ltac:(lia)). unfold bind. destruct (p tt w) as [[[a|e] []] w1]; [|done].
  destruct Hp as (HP & Hs & Ha & Hm1). specialize (Hk a HP w1 Hm1 ltac:(lia)). destruct (k a tt w1) as [[[b|e] []] w2]; [|done].
  destruct Hk as (HQ & Hs2 & Ha2 & Hm2). split_and!; [done|lia|lia|done].
Qed.
Lemma within_mono {A} (p : M A) cost cost' (P Q : A -> Prop) : within p cost P -> cost <= cost' -> (forall a, P a -> Q a) -> within p cost' Q.
Proof.
  intros Hp Hc HPQ w Hm Hfit. specialize (Hp w Hm ltac:(lia)). destruct (p tt w) as [[[a|e] []] w1]; [|done].
  destruct Hp as (HP & Hs & Ha & Hm1). split_and!; [by apply HPQ|lia|done|done].
Qed.
(** What is known of the answer, beside the work. *)
Lemma within_answers {A} (p : M A) cost (P : A -> Prop) R : within p cost (fun _ => True) -> answers p P R -> within p cost P.
Proof. intros Hp Ha w Hm Hfit. specialize (Hp w Hm Hfit). specialize (Ha w). destruct (p tt w) as [[[a|e] []] w1]; [|done]. by destruct Hp as (_ & ?). Qed.

Lemma within_option {A} (o : option A) e (Q : A -> Prop) : in_budget e -> (forall a, o = Some a -> Q a) -> within (lift_option o e) 0 Q.
Proof. intros He HQ w Hm Hfit. unfold lift_option, lift_result, ok_or. destruct o as [a|]; [|done]. split_and!; [by apply HQ|lia|done|done]. Qed.
Lemma within_result {A} (r : result IndexError A) (Q : A -> Prop) : match r with Ok a => Q a | Err e => in_budget e end -> within (lift_result r) 0 Q.
Proof. intros HQ w Hm Hfit. unfold lift_result. destruct r as [a|e]; [|done]. split_and!; [done|lia|done|done]. Qed.
Lemma within_fail_if b e (Q : unit -> Prop) : in_budget e -> (b = false -> Q tt) -> within (fail_if b e) 0 Q.
Proof. intros He HQ. unfold fail_if. destruct b; [by apply within_throw|apply within_ret; [lia|by apply HQ]]. Qed.

Lemma within_consume d (Q : unit -> Prop) : work_words d -> Q tt -> within (consume_as IndexAbort d) (delta_work d) Q.
Proof.
  intros Hd HQ w Hm Hfit. unfold consume_as. pose proof (meter_consume d w Hm Hd Hfit) as Hc.
  destruct (guard_consume d w) as [[[]|a] w']; [|done]. destruct Hc as (Hs & Ha & Hm'). split_and!; [done|lia|done|done].
Qed.
Lemma within_row_work n (Q : unit -> Prop) : Q tt -> within (consume_row_work n) (Z.of_nat n) Q.
Proof.
  intros HQ. eapply within_mono; [apply (within_consume _ Q); [|done]|unfold delta_work; cbn; lia|done].
  unfold work_words. cbn. pose proof (Nat2Z.is_nonneg n). unfold u64_max. lia.
Qed.
Lemma within_row_one (Q : unit -> Prop) : Q tt -> within (consume_row_work 1) 1 Q.
Proof. intros HQ. by apply (within_row_work 1). Qed.
Lemma within_checkpoint (Q : unit -> Prop) : Q tt -> within index_checkpoint 0 Q.
Proof. intros HQ. eapply within_mono; [apply (within_consume _ Q); [by repeat split|done]|done|done]. Qed.

Lemma within_reserve {A} t (values : Vec A) n label (Q : Z -> Prop) : (forall c, Q c) -> within (index_reserve t values n label) 0 Q.
Proof.
  intros HQ w Hm Hfit. unfold index_reserve, relabel, attempt, attempt_on, try_reserve_vec, bind.
  unfold lift_option, lift_result. destruct (ok_or (checked_add usize_max _ _) _) as [required|e] eqn:Hr;
    [|unfold ok_or in Hr; destruct (checked_add _ _ _); [done|injection Hr as <-; done]].
  destruct (_ <=? _); [cbn; split_and!; [done|lia|done|done]|].
  destruct (geometric_capacity _ _ _ _) as [capacity|e] eqn:Hg;
    [|unfold geometric_capacity in Hg; destruct (checked_mul _ _ _); [done|injection Hg as <-; done]].
  destruct (array_bytes t capacity) as [bytes|]; cbn [ok_or]; [|done]. unfold scope_as.
  pose proof (meter_scope bytes 0 w Hm ltac:(lia)) as Hs. destruct (guard_begin_scope _ _ w) as [[[]|a] w1]; [|done].
  destruct Hs as (Hs1 & Ha1 & Hm1). unfold grow_as. pose proof (meter_grow t capacity w1 Hm1) as Hg'.
  destruct (vec_grow t capacity w1) as [[c|] w2]; cbn in Hg' |- *; [|done].
  destruct Hg' as (Hs2 & Ha2 & Hm2). destruct (meter_end w2 Hm2) as (Hs3 & Ha3 & Hm3). split_and!; [done|lia|congruence|done].
Qed.
Lemma within_reserve_new t n label (Q : unit -> Prop) : Q tt -> within (index_reserve_new t n label) 0 Q.
Proof.
  intros HQ. unfold index_reserve_new. replace 0 with (0 + 0) by lia. eapply within_bind; [lia|by apply (within_reserve _ _ _ _ (fun _ => True))|].
  intros c _. by apply within_ret.
Qed.

(** A loop, by the work allowed for the first elements. *)
Lemma within_fold {X A} (xs : list X) (a : A) (f : A -> X -> M A) (cost : nat -> Z) (I : list X -> A -> Prop) :
  I [] a -> cost 0%nat = 0 -> (forall k, cost k <= cost (S k)) ->
  (forall done x rest a, xs = done ++ x :: rest -> I done a -> within (f a x) (cost (S (length done)) - cost (length done)) (I (done ++ [x]))) ->
  within (fold_each xs a f) (cost (length xs)) (I xs).
Proof.
  intros Hinit Hzero Hmono Hstep.
  enough (forall rest done a, xs = done ++ rest -> I done a ->
    within (fold_each rest a f) (cost (length xs) - cost (length done)) (I xs)) as Hgo
    by (specialize (Hgo xs [] a eq_refl Hinit); cbn in Hgo; by rewrite Hzero, Z.sub_0_r in Hgo).
  assert (forall k n, cost k <= cost (k + n)%nat) as Hle.
  { intros k n. induction n as [|n IH]; [by rewrite Nat.add_0_r|]. rewrite Nat.add_succ_r. etrans; [exact IH|apply Hmono]. }
  clear Hinit a. induction rest as [|x rest IH]; intros done a Hxs Ha; cbn [fold_each].
  - rewrite app_nil_r in Hxs. subst. apply within_ret; [lia|done].
  - assert (length xs = (S (length done) + length rest)%nat) as Hlen by (rewrite Hxs, length_app; cbn; lia).
    replace (cost (length xs) - cost (length done)) with
      ((cost (S (length done)) - cost (length done)) + (cost (length xs) - cost (S (length done)))) by lia.
    eapply within_bind; [rewrite Hlen; specialize (Hle (S (length done)) (length rest)); lia|by eapply Hstep|].
    intros a' Ha'. specialize (IH (done ++ [x]) a'). rewrite length_app, Nat.add_1_r in IH. apply IH; [|done]. by rewrite <- app_assoc.
Qed.
(** Each element costs as much. *)
Lemma within_fold_each {X A} (xs : list X) (a : A) (f : A -> X -> M A) (c : Z) (I : list X -> A -> Prop) : 0 <= c ->
  I [] a -> (forall done x rest a, xs = done ++ x :: rest -> I done a -> within (f a x) c (I (done ++ [x]))) ->
  within (fold_each xs a f) (c * Z.of_nat (length xs)) (I xs).
Proof.
  intros Hc Hinit Hstep. apply (within_fold xs a f (fun k => c * Z.of_nat k) I Hinit); [lia|nia|].
  intros done x rest a' Hxs Ha'. eapply within_mono; [by eapply Hstep|nia|done].
Qed.

End within.

(** ** The work of the parts *)

(** Where a search ends, and its turns. *)
Fixpoint partition_run {T} (fuel : nat) (values : list T) (predicate : T -> bool) (first last : nat) : nat * nat :=
  match fuel with
  | O => (first, 0)
  | S fuel =>
      if (first <? last)%nat then
        let middle := (first + (last - first) / 2)%nat in
        let '(point, steps) :=
          match values !! middle with
          | None => (0, 0)
          | Some v => if predicate v then partition_run fuel values predicate (middle + 1) last
                      else partition_run fuel values predicate first middle
          end in
        (point, S steps)
      else (first, 0)
  end%nat.
Definition cut {T} (values : list T) (predicate : T -> bool) : nat * nat :=
  partition_run (S (length values)) values predicate 0 (length values).
Fixpoint prefix_run (fuel : nat) (maxima : list Z) (start : Z) (first upper : nat) : nat * nat :=
  match fuel with
  | O => (first, 0)
  | S fuel =>
      if (first <? upper)%nat then
        let '(point, steps) :=
          match maxima !! first with
          | None => (0, 0)
          | Some maximum => if maximum >? start then (first, 0) else prefix_run fuel maxima start (first + 1) upper
          end in
        (point, S steps)
      else (first, 0)
  end%nat.
Definition radix_cost (rows : nat) : Z := if (2 <=? rows)%nat then 8 * (2 * Z.of_nat rows + 256) + (Z.of_nat rows - 1) else 0.

Lemma radix_cost_nonneg n : 0 <= radix_cost n.
Proof. unfold radix_cost. destruct (Nat.leb_spec 2 n); lia. Qed.
Lemma radix_total_cost n total : radix_total (radix_work_for n) = Ok total -> total = radix_cost n.
Proof.
  unfold radix_total, radix_work_for, radix_cost, try_from. cbn [rw_rows rw_passes rw_dedup].
  destruct (_ <=? _); [|done]. destruct (_ <=? _); [|done]. destruct (_ <=? _); [|done]. unfold ok_or.
  destruct (checked_mul _ _ 2) as [per_row|] eqn:H1; [|done]. cbn [mbind option_bind].
  destruct (checked_add _ _ 256) as [per_pass|] eqn:H2; [|done]. cbn [mbind option_bind].
  destruct (checked_mul _ per_pass _) as [work|] eqn:H3; [|done]. cbn [mbind option_bind].
  destruct (checked_add _ work _) as [all|] eqn:H4; [|done]. intros [= <-].
  apply checked_mul_Some in H1 as [-> _], H3 as [-> _]. apply checked_add_Some in H2 as [-> _], H4 as [-> _].
  destruct (Nat.leb_spec 2 n); [change (64 / 8)%nat with 8%nat|]; lia.
Qed.

Section parts.
Context {W : Type} `{WorkMeter W}.
Abbreviation M := (Prog W IndexError unit).

Lemma within_row_at {X} (values : list X) i (Q : X -> Prop) : (forall x, values !! i = Some x -> Q x) -> within (W := W) (row_at values i) 0 Q.
Proof. intros HQ. apply within_option; [exact I|done]. Qed.
Lemma within_store_at {X} (values : list X) i x (Q : list X -> Prop) :
  (forall out, length out = length values -> Q out) -> within (W := W) (store_at values i x) 0 Q.
Proof.
  intros HQ. apply within_option; [exact I|]. intros out Hs. unfold FlightSort.store in Hs. destruct (decide _); [|done]. injection Hs as <-.
  apply HQ, length_insert.
Qed.
(** A step that is free, then the rest. *)
Lemma within_free {A B} (p : M A) (k : A -> M B) cost (P : A -> Prop) Q : 0 <= cost ->
  within p 0 P -> (forall a, P a -> within (k a) cost Q) -> within (bind p k) cost Q.
Proof. intros Hc Hp Hk. replace cost with (0 + cost) by lia. by eapply within_bind. Qed.

(** A loop over chunks, each as expensive as it is long. *)
Lemma within_chunks {X A} (cs : list (list X)) (a : A) (f : A -> list X -> M A) (I : list (list X) -> A -> Prop) : I [] a ->
  (forall done chunk rest a, cs = done ++ chunk :: rest -> I done a -> within (f a chunk) (Z.of_nat (length chunk)) (I (done ++ [chunk]))) ->
  within (fold_each cs a f) (Z.of_nat (length (concat cs))) (I cs).
Proof.
  intros Ha Hstep. pose proof (within_fold cs a f (fun k => Z.of_nat (length (concat (take k cs)))) I Ha eq_refl) as Hrule.
  cbv beta in Hrule. rewrite take_ge in Hrule by lia. apply Hrule.
  - intros k. destruct (cs !! k) as [c|] eqn:Hk; [|rewrite !take_ge; [done|apply lookup_ge_None in Hk; lia..]].
    rewrite (take_S_r _ _ _ Hk), concat_app, length_app. lia.
  - intros done chunk rest a' Hd Ha'.
    assert (cs !! length done = Some chunk) as Hk by (rewrite Hd, lookup_app_r, Nat.sub_diag by lia; done).
    rewrite (take_S_r _ _ _ Hk), concat_app, length_app. cbn [concat]. rewrite app_nil_r.
    eapply within_mono; [by eapply Hstep|lia|done].
Qed.
Lemma within_chunked_fold {X A} (xs : list X) (a : A) (f : A -> X -> M A) (I : A -> Prop) : I a ->
  (forall x a, x ∈ xs -> I a -> within (f a x) 0 I) -> within (chunked_fold consume_row_work xs a f) (Z.of_nat (length xs)) I.
Proof.
  intros Ha Hstep. unfold chunked_fold. set (cs := chunks WORK_CHUNK xs).
  assert (concat cs = xs) as Hcs by (apply chunks_concat; unfold WORK_CHUNK; lia).
  replace (length xs) with (length (concat cs)) by (by rewrite Hcs).
  apply (within_chunks cs a _ (fun _ a => I a) Ha). intros done chunk rest a' Hd Ha'.
  assert (forall x, x ∈ chunk -> x ∈ xs) as Hsub.
  { intros x Hx. rewrite <- Hcs, Hd, concat_app. apply elem_of_app. right. cbn. apply elem_of_app. by left. }
  rewrite <- (Z.add_0_r (Z.of_nat _)). eapply within_bind; [lia|by apply (within_row_work _ (fun _ => True))|]. intros _ _.
  eapply within_mono; [apply (within_fold_each chunk a' f 0 (fun _ a => I a)); [lia|done|]|lia|done].
  intros d x r b Hx Hb. apply Hstep; [|done]. apply Hsub. rewrite Hx. apply elem_of_app. right. left.
Qed.

(** A program whose result is known, and paid for by [cost]. *)
Definition yields {A} (p : M A) (cost : Z) (a : A) : Prop := answers p (fun r => r = a) (fun _ => True) /\ within p cost (fun r => r = a).
Lemma yields_intro {A} (p : M A) cost (a : A) : answers p (fun r => r = a) (fun _ => True) -> within p cost (fun _ => True) -> yields p cost a.
Proof. intros Ha Hw. split; [done|]. by eapply within_answers. Qed.

(** One turn of a search: a row charged and counted, a value read. *)
Lemma turn_yields {X} (values : list X) i work label (k : X -> Z -> M (nat * Z)) point steps :
  (forall v work, values !! i = Some v -> yields (k v work) (Z.of_nat steps) (point, work + Z.of_nat steps)) ->
  yields (consume_row_work 1 ;! let! work := lift_option (checked_add u64_max work 1) (index_resource label) in let! v := row_at values i in k v work)
    (Z.of_nat (S steps)) (point, work + Z.of_nat (S steps)).
Proof.
  intros Hrest. apply yields_intro.
  - apply answers_bind, answers_consume; [|done]. apply answers_bind, answers_option.
    destruct (checked_add _ _ 1) as [work'|] eqn:Hw; [|done]. apply checked_add_Some in Hw as [-> _].
    apply answers_bind, answers_option. destruct (values !! i) as [v|] eqn:Hv; [|done].
    destruct (Hrest v (work + 1) eq_refl) as [Ha _]. eapply answers_mono; [exact Ha|]. intros r ->. f_equal. lia.
  - replace (Z.of_nat (S steps)) with (1 + Z.of_nat steps) by lia.
    eapply within_bind; [lia|by apply (within_row_one (fun _ => True))|]. intros _ _.
    eapply within_free; [lia|by apply (within_option _ _ (fun _ => True))|]. intros work' _.
    eapply within_free; [lia|apply (within_row_at _ _ (fun v => values !! i = Some v)); done|]. intros v Hv.
    destruct (Hrest v work' Hv) as [_ Hw]. by eapply within_mono.
Qed.
Lemma ret_yields work (first : nat) : yields (ret (first, work)) (Z.of_nat 0) (first, work + Z.of_nat 0).
Proof. cbn. rewrite Z.add_0_r. apply yields_intro; [by apply answers_ret|by apply within_ret]. Qed.

Lemma partition_yields {T} (values : list T) predicate fuel : forall first last work, let r := partition_run fuel values predicate first last in
  yields (partition_loop fuel values predicate first last work) (Z.of_nat r.2) (r.1, work + Z.of_nat r.2).
Proof.
  induction fuel as [|fuel IH]; intros first last work; cbn [partition_loop partition_run]; [apply ret_yields|].
  destruct (first <? last)%nat; [|apply ret_yields]. set (middle := (first + (last - first) / 2)%nat).
  set (rest := match values !! middle with None => (0, 0)%nat | Some v =>
    if predicate v then partition_run fuel values predicate (middle + 1) last else partition_run fuel values predicate first middle end).
  assert (forall v work, values !! middle = Some v ->
    yields (if predicate v then partition_loop fuel values predicate (middle + 1) last work else partition_loop fuel values predicate first middle work)
      (Z.of_nat rest.2) (rest.1, work + Z.of_nat rest.2)) as Hrest.
  { intros v work' Hv. unfold rest. rewrite Hv. destruct (predicate v); apply IH. }
  clearbody rest. destruct rest as [point steps]. by apply turn_yields.
Qed.
Lemma cut_yields {T} (values : list T) predicate : let r := cut values predicate in
  yields (guarded_partition_point_with_work values predicate) (Z.of_nat r.2) (r.1, Z.of_nat r.2).
Proof. pose proof (partition_yields values predicate (S (length values)) 0 (length values) 0) as Hp. cbv zeta in Hp. by rewrite Z.add_0_l in Hp. Qed.

Lemma within_get {V} (m : SortedMap V) key : sorted_keys (sm_entries m) ->
  within (W := W) (guarded_get m key) (Z.of_nat (lookup_steps m key)) (fun r => r.1 = map_get m key /\ r.2 = Z.of_nat (lookup_steps m key)).
Proof.
  intros Hs. eapply within_answers; [|by apply answers_guarded_get]. unfold guarded_get, lookup_steps.
  enough (forall fuel first last work, within (W := W) (get_loop fuel (sm_entries m) key first last work)
    (Z.of_nat (get_steps fuel (sm_entries m) key first last)) (fun _ => True)) as Hgo by apply Hgo.
  induction fuel as [|fuel IH]; intros first last work; cbn [get_loop get_steps]; [apply within_ret; done|].
  destruct (first <? last)%nat; [|apply within_ret; done]. set (middle := (first + (last - first) / 2)%nat).
  set (rest := match sm_entries m !! middle with None => 0%nat | Some entry =>
    match (entry.1 ?= key)%Z with
    | Lt => get_steps fuel (sm_entries m) key (middle + 1) last
    | Gt => get_steps fuel (sm_entries m) key first middle
    | Eq => 0%nat
    end end).
  match goal with |- within _ (Z.of_nat ?steps) _ => assert (steps = S rest) as -> end.
  { unfold rest. destruct (sm_entries m !! middle) as [[k v]|]; [|done]. by destruct (_ ?= _). }
  replace (Z.of_nat (S rest)) with (1 + Z.of_nat rest) by lia.
  eapply within_bind; [lia|by apply (within_row_one (fun _ => True))|]. intros _ _.
  eapply within_free; [lia|by apply (within_option _ _ (fun _ => True))|]. intros work' _.
  eapply within_free; [lia|apply (within_row_at _ _ (fun v => sm_entries m !! middle = Some v)); done|]. intros v Hv.
  unfold rest. rewrite Hv. destruct (_ ?= _); [apply within_ret; [lia|done]|apply IH|apply IH].
Qed.

(** *** Sorting *)

Lemma within_count p rows : within (W := W) (count_digits p rows) (Z.of_nat (length rows)) (fun counts => length counts = 256%nat).
Proof.
  apply within_chunked_fold; [apply length_replicate|]. intros row counts _ Hc.
  eapply within_free; [lia|by apply (within_row_at _ _ (fun _ => True))|]. intros n _. apply within_store_at. intros out ->. done.
Qed.
Lemma within_scatter p rows scratch positions : within (W := W) (scatter_digits p rows scratch positions) (Z.of_nat (length rows))
  (fun filled => length filled.1 = length scratch).
Proof.
  apply within_chunked_fold; [done|]. intros row [sc ps] _ Hsc. cbn [fst] in Hsc.
  eapply within_free; [lia|by apply (within_row_at _ _ (fun _ => True))|]. intros slot _.
  eapply within_free; [lia|apply (within_store_at _ _ _ (fun out => length out = length scratch)); intros out ->; done|]. intros sc' Hsc'.
  eapply within_free; [lia|by apply (within_store_at _ _ _ (fun _ => True))|]. intros ps' _. by apply within_ret.
Qed.
Lemma within_digit_pass p rows scratch : length scratch = length rows ->
  within (W := W) (digit_pass (rows, scratch) p) (2 * Z.of_nat (length rows) + 256)
    (fun buffers => length buffers.1 = length rows /\ length buffers.2 = length rows).
Proof.
  intros Hlen. replace (2 * Z.of_nat (length rows) + 256) with (Z.of_nat (length rows) + (256 + (Z.of_nat (length rows) + 0))) by lia.
  eapply within_bind; [lia|apply within_count|]. intros counts Hc.
  eapply within_bind; [lia|rewrite Hc; by apply (within_row_work 256 (fun _ => True))|]. intros _ _.
  eapply within_bind; [lia|apply within_scatter|]. intros filled Hf. apply within_ret; [lia|]. cbn. by rewrite Hf.
Qed.

Lemma within_radix rows : within (W := W) (radix_sort_unique_rows rows) (radix_cost (length rows)) (fun _ => True).
Proof.
  unfold radix_sort_unique_rows, radix_work_for, radix_cost. cbn [rw_passes]. destruct (Nat.leb_spec 2 (length rows)) as [Hn|Hn]; cbn [Nat.mul Nat.eqb].
  2: { by apply within_ret. }
  change (64 / 8 + 0)%nat with 8%nat. eapply within_free; [lia|by apply (within_reserve_new _ _ _ (fun _ => True))|]. intros _ _.
  replace (8 * (2 * Z.of_nat (length rows) + 256) + (Z.of_nat (length rows) - 1))
    with ((2 * Z.of_nat (length rows) + 256) * Z.of_nat (length (seq 0 8)) + (Z.of_nat (length rows - 1) + 0)) by (rewrite length_seq; lia).
  eapply within_bind; [lia| |].
  - apply (within_fold_each (seq 0 8) _ _ _ (fun _ buffers => length buffers.1 = length rows /\ length buffers.2 = length rows)); [lia|cbn [fst snd]; by rewrite length_replicate|].
    intros done p rest [rs sc] _ [H1' H2']. cbn [fst snd] in *. rewrite <- H1'. eapply within_mono; [apply within_digit_pass; lia|lia|]. intros b [-> ->]. lia.
  - intros buffers [Hl _]. eapply within_bind; [lia| |].
    + rewrite <- Hl. replace (length buffers.1 - 1)%nat with (length (seq 1 (length buffers.1 - 1))) at 2 by apply length_seq.
      apply (within_chunked_fold _ _ _ (fun _ => True)); [done|]. intros index [rs output] _ _. unfold dedup_turn.
      eapply within_free; [lia|by apply (within_row_at _ _ (fun _ => True))|]. intros row _.
      eapply within_free; [lia|by apply (within_row_at _ _ (fun _ => True))|]. intros kept _.
      destruct (negb _); [|by apply within_ret]. eapply within_free; [lia|by apply (within_store_at _ _ _ (fun _ => True))|]. intros out _. by apply within_ret.
    + intros kept _. by apply within_ret.
Qed.

(** *** Posting lists *)

(** The work charged for the first rows of a list: the blocks that they touch. *)
Definition block_cost (n visited : nat) : Z := Z.min (Z.of_nat n) (4096 * ((Z.of_nat visited + 4095) / 4096)).
Lemma block_cost_step n visited : (visited < n)%nat ->
  block_cost n (S visited) - block_cost n visited = if Z.of_nat visited mod 4096 =? 0 then Z.of_nat (Nat.min (n - visited) 4096) else 0.
Proof. intros Hv. unfold block_cost. destruct (Z.eqb_spec (Z.of_nat visited mod 4096) 0); Z.to_euclidean_division_equations; lia. Qed.
Lemma block_cost_mono n visited : block_cost n visited <= block_cost n (S visited).
Proof. unfold block_cost. Z.to_euclidean_division_equations; lia. Qed.

Lemma within_union_visit rows posting base : encodes rows posting ->
  within (W := W) (visit_deltas posting (base, None, 0%nat) (union_turn (pl_row_count posting))) (Z.of_nat (length rows))
    (fun st => fst (fst st) = base ++ rows).
Proof.
  intros He. eapply within_answers; [|by apply answers_union_visit]. rewrite (en_count _ _ He).
  pose proof (within_fold (expand (v_items (pl_runs posting))) (base, None, 0%nat) (union_turn (length rows)) (block_cost (length rows))
    (fun done st => snd st = length done) eq_refl) as Hrule.
  rewrite (length_expand _ _ He) in Hrule. eapply within_mono; [apply Hrule|unfold block_cost; lia|done].
  - unfold block_cost. change ((Z.of_nat 0 + 4095) / 4096) with 0. lia.
  - apply block_cost_mono.
  - intros done delta rest [[out previous] visited] Hsplit Hv. cbn [snd] in Hv. subst visited.
    assert (length done < length rows)%nat as Hlt by (rewrite <- (length_expand _ _ He), Hsplit, length_app; cbn; lia).
    rewrite block_cost_step by done. unfold union_turn.
    match goal with |- within _ ?c _ => replace c with (c + 0) by lia end.
    eapply within_bind; [lia|instantiate (1 := fun _ => True); destruct (_ =? 0); [by apply within_row_work|by apply within_ret]|]. intros _ _.
    eapply within_free; [lia|by apply (within_fail_if _ _ (fun _ => True))|]. intros _ _.
    eapply within_free; [lia|instantiate (1 := fun _ => True); destruct previous; by apply within_option|]. intros row _.
    eapply within_free; [lia|by apply (within_option _ _ (fun _ => True))|]. intros row' _. apply within_ret; [lia|]. cbn. rewrite length_app. cbn. lia.
Qed.

Definition union_cost (lists rows : nat) : Z :=
  Z.of_nat lists + Z.of_nat rows + (if (1 <? lists)%nat then radix_cost rows else 0).
Lemma within_union rowss lists max_rows : Forall2 encodes rowss lists ->
  within (W := W) (bounded_posting_union lists max_rows) (union_cost (length lists) (list_sum (map pl_row_count lists))) (fun _ => True).
Proof.
  intros Hall. assert (length (concat rowss) = list_sum (map pl_row_count lists)) as Hsum.
  { rewrite length_concat. clear -Hall. induction Hall as [|rs l rowss lists He _ IH]; [done|]. cbn. rewrite (en_count _ _ He). unfold list_sum in IH. lia. }
  unfold bounded_posting_union, union_cost. rewrite <- Hsum, <- Z.add_assoc.
  eapply within_bind; [pose proof (radix_cost_nonneg (length (concat rowss))); destruct (1 <? _)%nat; lia| |].
  { eapply within_mono; [apply (within_fold_each lists _ _ 1 (fun _ _ => True)); [lia|done|]|lia|done]. intros done posting rest total _ _.
    unfold limit_turn. replace 1 with (1 + 0) at 1 by lia. eapply within_bind; [lia|by apply (within_row_one (fun _ => True))|]. intros _ _. by apply within_option. }
  intros total _. pose proof (radix_cost_nonneg (length (concat rowss))).
  eapply within_free; [destruct (1 <? _)%nat; lia|by apply (within_checkpoint (fun _ => True))|]. intros _ _.
  eapply within_free; [destruct (1 <? _)%nat; lia|by apply (within_reserve_new _ _ _ (fun _ => True))|]. intros _ _.
  pose proof (Forall2_length _ _ _ Hall) as Hlen.
  eapply within_bind; [destruct (1 <? _)%nat; lia| |].
  - pose proof (within_fold lists [] (fun rows posting => let! st := visit_deltas posting (rows, None, 0%nat) (union_turn (pl_row_count posting)) in ret (fst (fst st)))
      (fun k => Z.of_nat (length (concat (take k rowss)))) (fun done rows => rows = concat (take (length done) rowss)) eq_refl eq_refl) as Hrule.
    cbv beta in Hrule. rewrite <- Hlen, take_ge in Hrule by lia. apply Hrule.
    + intros k. destruct (rowss !! k) as [rs|] eqn:Hk; [|rewrite !take_ge; [done|apply lookup_ge_None in Hk; lia..]].
      rewrite (take_S_r _ _ _ Hk), concat_app, length_app. lia.
    + intros done posting rest rows Hsplit ->. destruct (Forall2_lookup_r _ _ _ (length done) posting Hall) as (rs & Hrs & He).
      { rewrite Hsplit, lookup_app_r, Nat.sub_diag by lia. done. }
      rewrite length_app. cbn [length]. rewrite Nat.add_1_r, (take_S_r _ _ _ Hrs), concat_app, length_app. cbn [concat]. rewrite app_nil_r.
      replace (Z.of_nat _ - Z.of_nat _) with (Z.of_nat (length rs) + 0) by lia.
      eapply within_bind; [lia|by apply within_union_visit|]. intros st ->. by apply within_ret.
  - intros rows ->. destruct (1 <? _)%nat; [apply within_radix|by apply within_ret].
Qed.

(** *** Lookups *)

(** A pass over the keys that looks each up. *)
Lemma within_keys {A} (m : SortedMap PostingList) keys (a : A) (f : A -> Z -> M A) :
  (forall a key, within (f a key) (1 + (Z.of_nat (lookup_steps m key) + 0)) (fun _ => True)) ->
  within (fold_each keys a f) (Z.of_nat (length keys + found_steps m keys)) (fun _ => True).
Proof.
  intros Hf.
  pose proof (within_fold keys a f (fun k => Z.of_nat (length (take k keys) + found_steps m (take k keys))) (fun _ _ => True) I eq_refl) as Hrule.
  cbv beta in Hrule. rewrite take_ge in Hrule by lia. apply Hrule.
  - intros k. destruct (keys !! k) as [key|] eqn:Hk; [|rewrite !take_ge; [done|apply lookup_ge_None in Hk; lia..]].
    rewrite (take_S_r _ _ _ Hk), length_app, found_steps_snoc. lia.
  - intros done key rest st Hsplit _.
    assert (keys !! length done = Some key) as Hk by (rewrite Hsplit, lookup_app_r, Nat.sub_diag by lia; done).
    rewrite (take_S_r _ _ _ Hk), length_app, found_steps_snoc. cbn [length].
    replace (Z.of_nat _ - Z.of_nat _) with (1 + (Z.of_nat (lookup_steps m key) + 0)) by (rewrite Hsplit, take_app_length; lia). apply Hf.
Qed.
Lemma within_estimate_found max_rows st list : within (W := W) (estimate_found max_rows st list) 0 (fun _ => True).
Proof.
  unfold estimate_found. destruct list; [|by apply within_ret]. do 2 (eapply within_free; [lia|by apply (within_option _ _ (fun _ => True))|]; intros ? _).
  eapply within_free; [lia|by apply (within_fail_if _ _ (fun _ => True))|]. intros _ _. by apply within_ret.
Qed.
Lemma within_estimate_turns m keys max_rows : sorted_keys (sm_entries m) ->
  within (W := W) (fold_each keys estimate_start (estimate_turn m max_rows)) (Z.of_nat (length keys + found_steps m keys)) (fun _ => True).
Proof.
  intros Hs. apply within_keys. intros st key. eapply within_bind; [lia|by apply (within_row_one (fun _ => True))|]. intros _ _.
  eapply within_free; [lia|by apply (within_option _ _ (fun _ => True))|]. intros terms _.
  eapply within_bind; [lia|by apply within_get|]. intros r _.
  eapply within_free; [lia|by apply (within_option _ _ (fun _ => True))|]. intros lookup _. apply within_estimate_found.
Qed.
Lemma within_lookups m keys : sorted_keys (sm_entries m) ->
  within (W := W) (fold_each keys vec_new (lookup_turn m)) (Z.of_nat (length keys + found_steps m keys)) (fun lists => v_items lists = found m keys).
Proof.
  intros Hs. eapply within_answers; [|by apply answers_lookups]. apply within_keys. intros lists key.
  eapply within_bind; [lia|by apply (within_row_one (fun _ => True))|]. intros _ _. eapply within_bind; [lia|by apply within_get|]. intros r _.
  destruct (fst r); [|by apply within_ret]. eapply within_free; [lia|by apply (within_reserve _ _ _ _ (fun _ => True))|]. intros c _. by apply within_ret.
Qed.

(** *** Queries by key *)

Definition map_cost (m : SortedMap PostingList) (keys : list Z) : Z :=
  2 * Z.of_nat (length keys + found_steps m keys) + union_cost (length (found m keys)) (found_rows m keys).
Lemma union_cost_nonneg lists rows : 0 <= union_cost lists rows.
Proof. unfold union_cost. pose proof (radix_cost_nonneg rows). destruct (1 <? lists)%nat; lia. Qed.
Lemma map_decode_work_cost m keys work :
  map_decode_work (Z.of_nat (length keys)) (Z.of_nat (found_steps m keys)) (length (found m keys)) (found_rows m keys) = Ok work -> work = map_cost m keys.
Proof.
  unfold map_decode_work, map_cost, union_cost. destruct (checked_add _ _ _) as [pass|] eqn:H2; [|done]. apply checked_add_Some in H2 as [-> _].
  destruct (try_from _ _) as [rows|] eqn:H3; [|done]. destruct (try_from _ (Z.of_nat (length _))) as [lists|] eqn:H4; [|done].
  unfold try_from in H3, H4. destruct (_ <=? _) in H3; [|done]. destruct (_ <=? _) in H4; [|done]. injection H3 as <-. injection H4 as <-.
  destruct (if (1 <? _)%nat then _ else _) as [radix|] eqn:Hr; [|done].
  assert (radix = if (1 <? length (found m keys))%nat then radix_cost (found_rows m keys) else 0) as ->.
  { destruct (1 <? _)%nat; [by apply radix_total_cost|by injection Hr]. }
  unfold ok_or. destruct (checked_mul _ _ 2) as [a|] eqn:Ha; [|done]. cbn [mbind option_bind]. destruct (checked_add _ a _) as [b|] eqn:Hb; [|done].
  cbn [mbind option_bind]. destruct (checked_add _ b _) as [c|] eqn:Hc; [|done]. cbn [mbind option_bind].
  destruct (checked_add _ c _) as [d|] eqn:Hd; [|done]. intros [= <-].
  apply checked_mul_Some in Ha as [-> _]. apply checked_add_Some in Hb as [-> _], Hc as [-> _], Hd as [-> _]. lia.
Qed.

Lemma radix_total_budget work : match radix_total work with Ok _ => True | Err e => in_budget e end.
Proof.
  unfold radix_total. destruct (try_from _ (Z.of_nat (rw_rows work))); [|done]. destruct (try_from _ (Z.of_nat (rw_passes work))); [|done].
  destruct (try_from _ (Z.of_nat (rw_dedup work))); [|done]. unfold ok_or. by destruct (_ ≫= _).
Qed.
Lemma map_decode_work_budget terms lookup lists rows : match map_decode_work terms lookup lists rows with Ok _ => True | Err e => in_budget e end.
Proof.
  unfold map_decode_work. destruct (checked_add _ _ _); [|done]. destruct (try_from _ _); [|done]. destruct (try_from _ _); [|done].
  pose proof (radix_total_budget (radix_work_for rows)).
  destruct (1 <? lists)%nat; [destruct (radix_total _); [|done]|]; unfold ok_or; by destruct (_ ≫= _).
Qed.

Lemma answers_map_cost m keys max_rows : sorted_keys (sm_entries m) ->
  answers (W := W) (bounded_map_estimate m keys max_rows) (fun est => pe_decode_work est = map_cost m keys) (fun _ => True).
Proof.
  intros Hs. eapply answers_weaken; [by apply answers_map_estimate|cbv beta|done].
  intros est (_ & _ & Hw). by apply map_decode_work_cost.
Qed.
Lemma within_map_rows holds m keys max_rows : posts_for (fun key => key ∈ keys) holds m -> within (W := W) (bounded_map_rows m keys max_rows) (map_cost m keys) (fun _ => True).
Proof.
  intros Hp. pose proof (pf_sorted _ _ _ Hp) as Hs. destruct (posts_found _ _ keys Hp) as (rowss & Hf & _).
  set (pass := Z.of_nat (length keys + found_steps m keys)). pose proof (union_cost_nonneg (length (found m keys)) (found_rows m keys)).
  replace (map_cost m keys) with (pass + (pass + union_cost (length (found m keys)) (found_rows m keys))) by (unfold map_cost; lia).
  eapply within_bind; [lia| |].
  - unfold bounded_map_count. replace pass with (pass + 0) by lia. eapply within_bind; [lia| |intros est _; by apply (within_ret _ _ (fun _ => True))].
    unfold bounded_map_estimate. replace pass with (pass + 0) by lia. eapply within_bind; [lia|by apply within_estimate_turns|]. intros st _.
    eapply within_free; [lia|apply (within_result _ (fun _ => True))|intros w' _; by apply (within_ret _ _ (fun _ => True))].
    apply map_decode_work_budget.
  - intros _ _. eapply within_bind; [lia|by apply within_lookups|]. intros lists ->. by eapply within_union.
Qed.

(** *** Ranges *)

Definition pair_cost (rows : list (Z * nat)) (start stop : Z) : Z :=
  if start >=? stop then 0
  else let first := cut rows (fun pair => pair.1 <? start) in
       let last := cut rows (fun pair => pair.1 <? stop) in
       let count := (last.1 - first.1)%nat in
       Z.of_nat first.2 + (Z.of_nat last.2 + (Z.of_nat count + radix_cost count)).

Lemma answers_pair_cost rows start stop max_rows :
  answers (W := W) (bounded_pair_estimate rows start stop max_rows) (fun est => pe_decode_work est = pair_cost rows start stop) (fun _ => True).
Proof.
  unfold bounded_pair_estimate, pair_cost. destruct (start >=? stop); [by apply answers_ret|].
  apply answers_bind. eapply answers_mono; [apply cut_yields|]. intros ? ->. apply answers_bind. eapply answers_mono; [apply cut_yields|]. intros ? ->.
  set (first := cut rows (fun pair => pair.1 <? start)). set (last := cut rows (fun pair => pair.1 <? stop)). clearbody first last. cbn [fst snd]. set (count := (last.1 - first.1)%nat).
  apply answers_bind, answers_fail_if; [intros _|done]. apply answers_bind, answers_option.
  destruct (checked_add _ _ (Z.of_nat last.2)) as [a|] eqn:Ha; [|done]. cbn [mbind option_bind].
  destruct (try_from _ _) as [rs|] eqn:Hrs; [|done]. unfold try_from in Hrs. destruct (_ <=? _) in Hrs; [|done]. injection Hrs as <-. cbn [mbind option_bind].
  destruct (checked_add _ a _) as [b|] eqn:Hb; [|done]. cbn [mbind option_bind].
  destruct (radix_total _) as [radix|] eqn:Hr; [|done]. apply radix_total_cost in Hr as ->. cbn [mbind option_bind].
  destruct (checked_add _ b _) as [d|] eqn:Hd; [|done]. apply checked_add_Some in Ha as [-> _], Hb as [-> _], Hd as [-> _]. apply answers_ret. cbn. lia.
Qed.
Lemma within_pair_rows rows start stop max_rows :
  within (W := W) (bounded_pair_rows rows start stop max_rows) (pair_cost rows start stop) (fun _ => True).
Proof.
  unfold bounded_pair_rows, pair_cost. destruct (start >=? stop); [by apply within_ret|].
  pose proof (cut_yields rows (fun pair => pair.1 <? start)) as [_ Hfirst]. pose proof (cut_yields rows (fun pair => pair.1 <? stop)) as [_ Hlast].
  set (first := cut rows (fun pair => pair.1 <? start)) in *. set (last := cut rows (fun pair => pair.1 <? stop)) in *. clearbody first last. cbv zeta in *.
  set (count := (last.1 - first.1)%nat). pose proof (radix_cost_nonneg count). unfold guarded_partition_point.
  eapply within_bind; [lia|rewrite <- (Z.add_0_r (Z.of_nat first.2)); eapply within_bind; [lia|exact Hfirst|]; intros ? ->;
    apply (within_ret _ _ (fun n => n = first.1)); [lia|done]|]. intros ? ->.
  eapply within_bind; [lia|rewrite <- (Z.add_0_r (Z.of_nat last.2)); eapply within_bind; [lia|exact Hlast|]; intros ? ->;
    apply (within_ret _ _ (fun n => n = last.1)); [lia|done]|]. intros ? ->. fold count.
  eapply within_free; [lia|by apply (within_fail_if _ _ (fun _ => True))|]. intros _ _.
  eapply within_free; [lia|by apply (within_checkpoint (fun _ => True))|]. intros _ _.
  eapply within_free; [lia|by apply (within_reserve_new _ _ _ (fun _ => True))|]. intros _ _.
  set (slice := take count (drop first.1 rows)).
  assert (length slice <= count)%nat as Hslice by (unfold slice; rewrite length_take; lia).
  assert (concat (chunks 4096 slice) = slice) as Hconcat by (apply chunks_concat; lia). set (cs := chunks 4096 slice) in *.
  eapply within_bind; [lia| |].
  - eapply within_mono; [apply (within_chunks cs [] _ (fun done out => length out = length (concat done))); [done|]|rewrite Hconcat; lia|
      intros out Hout; rewrite Hconcat in Hout; exact Hout].
    intros done chunk rest out Hd Hout. rewrite <- (Z.add_0_r (Z.of_nat _)).
    eapply within_bind; [lia|by apply (within_row_work _ (fun _ => True))|]. intros _ _. apply within_ret; [lia|].
    rewrite concat_app, !length_app, Hout, length_map. cbn. by rewrite app_nil_r.
  - intros out Hout. eapply within_mono; [apply within_radix| |done]. rewrite Hout. unfold radix_cost.
    destruct (Nat.leb_spec 2 (length slice)), (Nat.leb_spec 2 count); lia.
Qed.

(** *** Memory *)

Lemma prefix_yields ix start fuel : forall first upper work, let r := prefix_run fuel (ix_prefix_max_end ix) start first upper in
  yields (prefix_loop ix fuel start first upper work) (Z.of_nat r.2) (r.1, work + Z.of_nat r.2).
Proof.
  induction fuel as [|fuel IH]; intros first upper work; cbn [prefix_loop prefix_run]; [apply ret_yields|].
  destruct (first <? upper)%nat; [|apply ret_yields].
  set (rest := match ix_prefix_max_end ix !! first with None => (0, 0)%nat | Some maximum =>
    if maximum >? start then (first, 0)%nat else prefix_run fuel (ix_prefix_max_end ix) start (first + 1) upper end).
  assert (forall v work, ix_prefix_max_end ix !! first = Some v ->
    yields (if v >? start then ret (first, work) else prefix_loop ix fuel start (first + 1) upper work)
      (Z.of_nat rest.2) (rest.1, work + Z.of_nat rest.2)) as Hrest.
  { intros v work' Hv. unfold rest. rewrite Hv. destruct (v >? start); [apply ret_yields|apply IH]. }
  clearbody rest. destruct rest as [point steps]. by apply turn_yields.
Qed.

Definition locate (ix : IntervalIndex) (start stop : Z) : LocatedOverlap :=
  let upper := cut (ix_entries ix) (fun entry => ie_start entry <? stop) in
  if (upper.1 =? 0)%nat then mkLocatedOverlap 0 0 (Z.of_nat upper.2)
  else let block := cut (ix_block_prefix_max_end ix) (fun maximum => maximum <=? start) in
       let prefix := prefix_run (S upper.1) (ix_prefix_max_end ix) start (Nat.min (block.1 * ix_block_rows ix) upper.1) upper.1 in
       mkLocatedOverlap prefix.1 upper.1 (Z.of_nat upper.2 + (Z.of_nat block.2 + Z.of_nat prefix.2)).
Lemma locate_work_nonneg ix start stop : 0 <= lo_work (locate ix start stop).
Proof. unfold locate. destruct (_ =? 0)%nat; cbn [lo_work]; lia. Qed.
Lemma locate_yields ix start stop : yields (locate_bounded ix start stop) (lo_work (locate ix start stop)) (locate ix start stop).
Proof.
  unfold locate_bounded, locate. pose proof (cut_yields (ix_entries ix) (fun entry => ie_start entry <? stop)) as [Ha1 Hw1].
  set (upper := cut (ix_entries ix) _) in *. clearbody upper. cbv zeta in *.
  pose proof (cut_yields (ix_block_prefix_max_end ix) (fun maximum => maximum <=? start)) as [Ha2 Hw2].
  set (block := cut (ix_block_prefix_max_end ix) _) in *. clearbody block. cbv zeta in *.
  pose proof (prefix_yields ix start (S upper.1) (Nat.min (block.1 * ix_block_rows ix) upper.1) upper.1 0) as [Ha3 Hw3].
  set (prefix := prefix_run _ _ _ _ _) in *. clearbody prefix. rewrite Z.add_0_l in Ha3, Hw3. apply yields_intro.
  - apply answers_bind. eapply answers_mono; [exact Ha1|]. intros ? ->. cbn [fst snd]. destruct (_ =? 0)%nat; [by apply answers_ret|].
    apply answers_bind. eapply answers_mono; [exact Ha2|]. intros ? ->. cbn [fst snd].
    apply answers_bind. eapply answers_mono; [exact Ha3|]. intros ? ->. cbn [fst snd]. apply answers_bind, answers_option.
    destruct (checked_add _ _ (Z.of_nat block.2)) as [a|] eqn:Ha; [|done]. cbn [mbind option_bind].
    destruct (checked_add _ a _) as [b|] eqn:Hb; [|done]. apply checked_add_Some in Ha as [-> _], Hb as [-> _]. apply answers_ret. f_equal. lia.
  - destruct (_ =? 0)%nat eqn:Hz; cbn [lo_work].
    + rewrite <- (Z.add_0_r (Z.of_nat upper.2)). eapply within_bind; [lia|exact Hw1|]. intros ? ->. cbn [fst snd]. rewrite Hz. by apply within_ret.
    + eapply within_bind; [lia|exact Hw1|]. intros ? ->. cbn [fst snd]. rewrite Hz.
      eapply within_bind; [lia|exact Hw2|]. intros ? ->. cbn [fst snd]. rewrite <- (Z.add_0_r (Z.of_nat prefix.2)).
      eapply within_bind; [lia|exact Hw3|]. intros ? ->. eapply within_free; [lia|by apply (within_option _ _ (fun _ => True))|].
      intros w' _. by apply within_ret.
Qed.

Definition memory_cost (ix : IntervalIndex) (start stop : Z) : Z :=
  if start >=? stop then 0
  else let l := locate ix start stop in
       let span := Z.of_nat (lo_upper l - lo_first l) in
       if (lo_upper l =? 0)%nat then lo_work l
       else lo_work l + ((lo_work l + span)
              + (span + radix_cost (length (List.filter (fun e => ie_end_exclusive e >? start) (located_entries ix l))))).

Lemma located_span ix l : (length (located_entries ix l) <= lo_upper l - lo_first l)%nat.
Proof. unfold located_entries. rewrite length_take. lia. Qed.

Lemma answers_memory_cost ix start stop max_rows :
  answers (W := W) (overlap_estimate_bounded ix start stop max_rows) (fun est => pe_decode_work est = memory_cost ix start stop) (fun _ => True).
Proof.
  unfold overlap_estimate_bounded, memory_cost. destruct (Z.gtb_spec start stop) as [|Hle]; [by apply answers_throw|].
  rewrite Z.geb_leb. destruct (Z.eqb_spec start stop), (Z.leb_spec stop start); [|lia|lia|]; [by apply answers_ret|].
  apply answers_bind. eapply answers_mono; [apply locate_yields|]. intros ? ->. set (l := locate ix start stop).
  destruct (_ =? 0)%nat; [by apply answers_ret|]. apply answers_bind.
  eapply answers_weaken; [apply (answers_count_turns ix start stop)|cbv beta|done]. intros count [-> _].
  apply answers_bind, answers_option. destruct (try_from _ _) as [span|] eqn:Hspan; [|done].
  unfold try_from in Hspan. destruct (_ <=? _) in Hspan; [|done]. injection Hspan as <-. apply answers_bind, answers_option.
  destruct (checked_mul _ (lo_work l) 2) as [a|] eqn:Ha; [|done]. cbn [mbind option_bind].
  destruct (checked_mul _ (Z.of_nat _) 2) as [b|] eqn:Hb; [|done]. cbn [mbind option_bind].
  destruct (checked_add _ a b) as [c|] eqn:Hc; [|done]. cbn [mbind option_bind].
  destruct (radix_total _) as [radix|] eqn:Hr; [|done]. apply radix_total_cost in Hr as ->. cbn [mbind option_bind].
  destruct (checked_add _ c _) as [d|] eqn:Hd; [|done]. apply checked_mul_Some in Ha as [-> _], Hb as [-> _].
  apply checked_add_Some in Hc as [-> _], Hd as [-> _]. apply answers_ret. cbn. lia.
Qed.

(** The second pass of [overlaps_bounded], which counts before it collects. *)
Lemma within_memory_count ix start stop max_rows : start < stop -> lo_upper (locate ix start stop) <> 0%nat ->
  within (W := W) (overlap_count_bounded ix start stop max_rows)
    (lo_work (locate ix start stop) + Z.of_nat (lo_upper (locate ix start stop) - lo_first (locate ix start stop))) (fun _ => True).
Proof.
  intros Hr Hup. unfold overlap_count_bounded, overlap_estimate_bounded.
  destruct (Z.gtb_spec start stop); [lia|]. destruct (Z.eqb_spec start stop); [lia|].
  pose proof (locate_yields ix start stop) as [_ Hl]. pose proof (locate_work_nonneg ix start stop). set (l := locate ix start stop) in *. clearbody l.
  set (span := Z.of_nat _). rewrite <- (Z.add_0_r (_ + span)).
  eapply within_bind; [lia| |intros est _; by apply (within_ret _ _ (fun _ => True))].
  eapply within_bind; [lia|exact Hl|]. intros ? ->. destruct (Nat.eqb_spec (lo_upper l) 0); [done|].
  rewrite <- (Z.add_0_r span). eapply within_bind; [lia| |].
  - eapply within_mono; [apply (within_chunked_fold _ _ _ (fun _ => True)); [done|]|pose proof (located_span ix l); lia|done].
    intros e count _ _. unfold overlap_turn. destruct (_ >? _); [|by apply within_ret].
    eapply within_free; [lia|by apply (within_option _ _ (fun _ => True))|]. intros ? _.
    eapply within_free; [lia|by apply (within_fail_if _ _ (fun _ => True))|]. intros _ _. by apply within_ret.
  - intros count _. eapply within_free; [lia|by apply (within_option _ _ (fun _ => True))|]. intros ? _.
    eapply within_free; [lia|by apply (within_option _ _ (fun _ => True))|]. intros ? _. by apply (within_ret _ _ (fun _ => True)).
Qed.

Lemma within_memory_rows ix start stop max_rows :
  within (W := W) (overlaps_bounded ix start stop max_rows) (memory_cost ix start stop) (fun _ => True).
Proof.
  unfold overlaps_bounded, memory_cost. destruct (Z.gtb_spec start stop) as [|Hle]; [by apply within_throw|].
  rewrite Z.geb_leb. destruct (Z.eqb_spec start stop), (Z.leb_spec stop start); [|lia|lia|]; [by apply within_ret|].
  pose proof (locate_yields ix start stop) as [_ Hl]. pose proof (within_memory_count ix start stop max_rows ltac:(lia)) as Hcount.
  pose proof (locate_work_nonneg ix start stop). set (l := locate ix start stop) in *. clearbody l. set (span := Z.of_nat _).
  destruct (Nat.eqb_spec (lo_upper l) 0) as [Hz|Hz].
  { rewrite <- (Z.add_0_r (lo_work l)). eapply within_bind; [lia|exact Hl|]. intros ? ->. rewrite Hz. by apply within_ret. }
  set (hit := List.filter _ _). pose proof (radix_cost_nonneg (length hit)).
  eapply within_bind; [lia|exact Hl|]. intros ? ->. destruct (Nat.eqb_spec (lo_upper l) 0); [done|].
  eapply within_bind; [lia|by apply Hcount|]. intros n' _. eapply within_free; [lia|by apply (within_reserve_new _ _ _ (fun _ => True))|]. intros _ _.
  eapply within_bind; [done| |].
  - eapply within_answers; [|apply (answers_collect start)].
    eapply within_mono; [apply (within_chunked_fold _ _ _ (fun _ => True)); [done|]|pose proof (located_span ix l); lia|done].
    intros e [rows ordered] _ _. unfold collect_turn. destruct (_ >? _); by apply within_ret.
  - intros [rows ordered] [Hrows _]. cbn [fst snd] in *. destruct (negb ordered); [|by apply within_ret].
    eapply within_mono; [apply within_radix|by rewrite Hrows, length_map|done].
Qed.

End parts.

(** *** Values of the dictionary *)

Section dictionary.
Context {W D : Type} `{WorkMeter W} `{Countable D}.
Context (strings : ByteArena (D := D)) (dictionary : list bytes) (Hstrings : stores strings dictionary).
Abbreviation M := (Prog W IndexError unit).

Lemma entry_work_nonneg d value : 0 <= entry_work d value.
Proof. induction d as [|e d IH]; cbn; [lia|]. unfold zlen. destruct (bool_decide _); lia. Qed.
Lemma dictionary_work_nonneg values : 0 <= dictionary_work dictionary values.
Proof. induction values as [|v vs IH]; cbn; [lia|]. pose proof (entry_work_nonneg dictionary v). unfold dictionary_work in IH. lia. Qed.

Lemma within_consume_span fuel : forall remaining, 0 <= remaining -> within (W := W) (consume_span fuel remaining) remaining (fun _ => True).
Proof.
  induction fuel as [|fuel IH]; intros remaining Hr; cbn [consume_span]; [by apply within_ret|].
  destruct (Z.eqb_spec remaining 0); [by apply within_ret|]. set (bytes := Z.min remaining 4096).
  apply (within_mono _ (bytes + (remaining - bytes)) _ (fun _ => True)); [|lia|done].
  eapply within_bind; [lia| |intros _ _; apply IH; lia].
  eapply within_mono; [apply (within_consume _ (fun _ => True)); [|done]|unfold delta_work; cbn; lia|done].
  unfold work_words. cbn. lia.
Qed.
Lemma within_visit_spans {A} value (visit : A -> Z -> M A) : (forall a id, within (visit a id) 0 (fun _ => True)) ->
  forall rest id offset st, drop id dictionary = rest ->
  within (visit_spans strings value visit id (spans_of offset rest) st) (entry_work rest value) (fun _ => True).
Proof.
  intros Hvisit. induction rest as [|entry rest IH]; intros id offset st Hrest; cbn [visit_spans spans_of entry_work]; [by apply within_ret|].
  assert (dictionary !! id = Some entry) as Hid by (rewrite <- (Nat.add_0_r id), <- lookup_drop, Hrest; done).
  assert (forall d, 0 <= entry_work d value) as Hpos by (intros d; apply entry_work_nonneg).
  assert (0 <= zlen entry) by (unfold zlen; lia).
  eapply within_bind; [destruct (bool_decide _); [lia|apply Hpos]| |].
  - unfold consume_dictionary_entry_work. replace (zlen entry + 1) with (1 + (zlen entry + 0)) by lia.
    eapply within_bind; [lia|by apply (within_row_one (fun _ => True))|]. intros _ _.
    eapply within_bind; [lia|by apply within_consume_span|]. intros _ _. by apply (within_option _ _ (fun _ => True)).
  - intros work _. eapply within_free; [destruct (bool_decide _); [lia|apply Hpos]|by apply (within_option _ _ (fun _ => True))|]. intros work' _.
    rewrite (arena_get_exact _ _ _ _ Hstrings Hid).
    eapply within_free; [destruct (bool_decide _); [lia|apply Hpos]|by apply (within_result _ (fun bytes => bytes = entry))|]. intros ? ->.
    case_bool_decide.
    + eapply within_free; [lia|apply Hvisit|]. intros a _. by apply within_ret.
    + apply IH. by rewrite <- Nat.add_1_r, <- drop_drop, Hrest.
Qed.
Lemma within_semantic_rows holds m values max_rows : posts holds m ->
  within (W := W) (bounded_semantic_rows strings m values max_rows)
    (dictionary_work dictionary values + map_cost m (dictionary_ids dictionary values)) (fun _ => True).
Proof.
  intros Hp. pose proof (union_cost_nonneg (length (found m (dictionary_ids dictionary values))) (found_rows m (dictionary_ids dictionary values))).
  assert (0 <= map_cost m (dictionary_ids dictionary values)) by (unfold map_cost; lia).
  pose proof dictionary_work_nonneg as Hwork. eapply within_free; [specialize (Hwork values); lia|by apply (within_reserve_new _ _ _ (fun _ => True))|]. intros _ _.
  eapply within_bind; [done| |].
  - eapply within_answers; [|apply (answers_visit_matches strings dictionary Hstrings (fun ids out => out = ids)); [|done]; intros ids a id ->; by apply answers_ret].
    unfold visit_semantic_dictionary_matches. generalize (@nil Z, 0) as st. clear -Hwork Hstrings.
    induction values as [|value values IH]; intros st; cbn [fold_each]; [by apply within_ret|].
    cbn [dictionary_work foldr]. fold (dictionary_work dictionary values). eapply within_bind; [apply Hwork| |intros st' _; apply IH].
    rewrite (st_spans _ _ Hstrings). apply within_visit_spans; [|done]. intros a id. by apply within_ret.
  - intros visited [-> _]. by eapply within_map_rows, posts_for_all.
Qed.

End dictionary.

(** ** Every query *)

Definition query_cost (ic : IndexCatalog) (dictionary : list bytes) (query : NormalizedPostingQuery) : Z :=
  match query with
  | Tids tids => map_cost (ic_tid ic) tids
  | Kinds kinds => map_cost (ic_kind ic) (map encode_event_kind kinds)
  | ModuleIds modules => map_cost (ic_module ic) modules
  | Sequence start stop => pair_cost (ic_sequence ic) start stop
  | ModulePc module start stop => pair_cost (module_pcs ic module) start stop
  | DefinitionIds definitions => map_cost (ic_definition ic) definitions
  | Registers slots => map_cost (ic_register ic) (map slot_index slots)
  | SemanticCategories values =>
      dictionary_work dictionary values + map_cost (ic_semantic_category ic) (dictionary_ids dictionary values)
  | SemanticNames values => dictionary_work dictionary values + map_cost (ic_semantic_name ic) (dictionary_ids dictionary values)
  | Memory start stop => memory_cost (ic_memory ic) start stop
  end.

Section every.
Context {W D : Type} `{WorkMeter W} `{Countable D}.
Context (rows : NormalizedRows) (ic : IndexCatalog) (strings : ByteArena (D := D)) (dictionary : list bytes).
Context (Hic : catalog_of rows ic) (Hstrings : stores strings dictionary).

Lemma answers_semantic_cost m values max_rows : sorted_keys (sm_entries m) ->
  answers (W := W) (bounded_semantic_estimate strings m values max_rows)
    (fun est => pe_decode_work est = dictionary_work dictionary values + map_cost m (dictionary_ids dictionary values)) (fun _ => True).
Proof.
  intros Hs. eapply answers_weaken; [by apply (answers_semantic_estimate strings dictionary Hstrings)|cbv beta zeta|done].
  intros est (_ & _ & work & Hw & ->). by rewrite (map_decode_work_cost _ _ _ Hw).
Qed.

Lemma answers_query_cost query max_rows :
  answers (W := W) (bounded_row_estimate ic strings query max_rows) (fun est => pe_decode_work est = query_cost ic dictionary query) (fun _ => True).
Proof.
  destruct query; cbn [bounded_row_estimate query_cost]; first
    [apply answers_map_cost; first [eapply po_sorted, Hic|eapply pf_sorted, Hic]|apply answers_pair_cost|apply answers_semantic_cost; eapply po_sorted, Hic|apply answers_memory_cost].
Qed.
Lemma within_query query max_rows : within (W := W) (bounded_rows ic strings query max_rows) (query_cost ic dictionary query) (fun _ => True).
Proof.
  destruct query; cbn [bounded_rows query_cost]; first
    [eapply within_map_rows, posts_for_all, Hic|eapply within_map_rows, posts_for_mono; [apply slots_range|apply Hic]|apply within_pair_rows|eapply within_semantic_rows; [done|apply Hic]|apply within_memory_rows].
Qed.

End every.

(** C9: The estimate of a query bounds its work: once the guard of a projection is
    authorized for as much as [bounded_row_estimate] answered under it, whatever
    was planned before and whatever the row limits are, [bounded_rows] charges no more than the
    estimate and is never stopped for its work. *)
Theorem decode_within_estimate {W H D : Type} `{WorkGuard W} `{Allocator W} `{Allocator H} `{UnstableSort} `{HashIteration} `{Countable D}
    (rows : NormalizedRows) (block_rows : nat) (strings : ByteArena (D := D)) (dictionary : list bytes) (ic : IndexCatalog)
    (query : NormalizedPostingQuery) (max_rows limit : nat) (est : NormalizedPostingEstimate) (g0 g authorized : CandidateLedger) (h0 h : H)
    (allowance : Z) (w w1 : W) :
  rows_ok rows -> stores strings dictionary ->
  build_indexes rows block_rows tt w = (Ok ic, tt, w1) ->
  bounded_row_estimate ic strings query max_rows tt (g0, h0) = (Ok est, tt, (g, h)) -> pe_decode_work est <= allowance ->
  0 <= cl_work g -> ledger_authorize allowance g = Some authorized ->
  match bounded_rows ic strings query limit tt (authorized, h) with
  | (Ok _, _, (g', _)) => cl_work g' <= cl_work g + pe_decode_work est
  | (Err e, _, _) => in_budget e
  end.
Proof.
  intros Hok Hst Hbuild Hest Hallow Hg Hauth. pose proof (answers_build_indexes rows block_rows Hok w) as Hic. rewrite Hbuild in Hic.
  pose proof (answers_query_cost rows ic strings dictionary Hic Hst query max_rows (g0, h0)) as Hcost. rewrite Hest in Hcost.
  unfold ledger_authorize in Hauth. destruct (checked_add _ _ _) as [total|] eqn:Ht; [|done]. apply checked_add_Some in Ht as [-> Hmax].
  injection Hauth as <-. pose proof (within_query (W := CandidateLedger * H) rows ic strings dictionary Hic Hst query limit) as Hwithin.
  specialize (Hwithin (mkCandidateLedger (cl_work g) (cl_resident g) (cl_cancelled g) (cl_calls g) (cl_work g + allowance) (cl_resident_limit g), h)
    ltac:(split; cbn; lia) ltac:(cbn; rewrite <- Hcost; lia)).
  destruct (bounded_rows _ _ _ _ _ _) as [[[out|e] []] [g' h']]; [|done]. destruct Hwithin as (_ & Hs & _). rewrite <- Hcost in Hs. exact Hs.
Qed.

Lemma decode_within_estimate_witness :
  exists ic g authorized,
    build_indexes (W := unit) (H1 := merge_unstable_sort) (H2 := listed_iteration) sample_rows 2 tt tt = (Ok ic, tt, tt)
    /\ bounded_row_estimate ic sample_strings (Tids [7; 8]) 10 tt (ledger_with_limits (fun _ => false) 1000 1000, tt) = (Ok (mkEstimate 2 15), tt, (g, tt))
    /\ ledger_authorize 15 g = Some authorized
    /\ match bounded_rows ic sample_strings (Tids [7; 8]) 10 tt (authorized, tt) with
       | (Ok _, _, (g', _)) => cl_work g' <= cl_work g + 15
       | (Err e, _, _) => in_budget e
       end.
Proof.
  assert (exists ic g authorized,
    build_indexes (W := unit) (H1 := merge_unstable_sort) (H2 := listed_iteration) sample_rows 2 tt tt = (Ok ic, tt, tt)
    /\ bounded_row_estimate ic sample_strings (Tids [7; 8]) 10 tt (ledger_with_limits (fun _ => false) 1000 1000, tt) = (Ok (mkEstimate 2 15), tt, (g, tt))
    /\ ledger_authorize 15 g = Some authorized /\ 0 <= cl_work g) as (ic & g & authorized & Hb & He & Ha & Hg)
    by (do 3 eexists; split_and!; [vm_compute; reflexivity|vm_compute; reflexivity|vm_compute; reflexivity|vm_compute; discriminate]).
  exists ic, g, authorized. split; [exact Hb|]. split; [exact He|]. split; [exact Ha|].
  exact (@decode_within_estimate unit unit nat _ _ _ merge_unstable_sort listed_iteration _ _ sample_rows 2 sample_strings [[x61]; [x62]] ic
    (Tids [7; 8]) 10 10 (mkEstimate 2 15) _ g authorized tt tt 15 tt tt sample_rows_ok sample_strings_ok Hb He (Z.le_refl 15) Hg Ha).
Defined.
