(* ===== verification/Analysis.v ===== *)
(** * What the analyses share

    The analysis crate reads an immutable store of normalized rows
    ([NormalizedBulkView] of [qtrace-store/src/index/mod.rs]) under a work guard.
    This file has the store as the record of the operations the analyses call, [AnalysisError] of [qtrace-analysis/src/timeline.rs] and the
    charges, scopes and vectors that every analysis goes through, with their
    rules. *)

From stdpp Require Import prelude list strings pretty.
From Stdlib Require Import ZArith Lia Strings.Byte.
From S2P Require Import Prelude Prog Control Model FlightContext Answers Index.
Local Open Scope string_scope.
Local Open Scope list_scope.
Local Open Scope Z_scope.

(** ** Errors *)

Record AnalysisError := mkAnalysisError { ae_code : string; ae_detail : string }.

Definition invalid_filter := mkAnalysisError "analysis.invalid_filter".
Definition filter_too_complex := mkAnalysisError "analysis.filter_too_complex".
Definition state_invalid := mkAnalysisError "analysis.invalid_state_request".
Definition state_hard_limit := mkAnalysisError "analysis.budget_exceeded".
Definition store_shape := mkAnalysisError "analysis.store".
Definition analysis_cancelled := mkAnalysisError "job.cancelled".

Definition state_budget (a : OperationAbort) : AnalysisError :=
  match a with
  | Cancelled => analysis_cancelled "state query cancelled"
  | BudgetExceeded _ _ _ => mkAnalysisError "analysis.budget_exceeded" (abort_display a)
  end.

Definition store_error (e : IndexError) : AnalysisError :=
  mkAnalysisError "analysis.store" (index_code e +:+ ": " +:+ index_display e).

Definition state_store (e : IndexError) : AnalysisError :=
  match index_abort e with
  | Some abort => state_budget abort
  | None => store_error e
  end.

Definition control_error (a : OperationAbort) : AnalysisError :=
  match a with
  | Cancelled => analysis_cancelled "query context construction cancelled"
  | BudgetExceeded Nodes _ _ => mkAnalysisError "analysis.cpu_budget_exceeded" (abort_display a)
  | BudgetExceeded _ _ _ => mkAnalysisError "analysis.resource_exhausted" (abort_display a)
  end.

(** The operations of a store the analyses call without a guard. *)
Record StoreView := mkStoreView {
  sv_event_count : nat;
  sv_event_key : nat -> result IndexError (option EventKey);
  sv_event_kind : nat -> result IndexError (option EventKind);
  sv_provenance : nat -> result IndexError (option Provenance);
  sv_capabilities : ProviderCapabilities;
  sv_instruction : nat -> option InstructionRow;
  sv_memory : nat -> option MemoryRow;
  sv_semantic : nat -> option SemanticRow;
  sv_payload_bytes : nat -> result IndexError bytes;
  sv_string_bytes : Z -> result IndexError bytes;
  sv_blob_bytes : Z -> result IndexError bytes;
  sv_memory_before_bytes : nat -> result IndexError (option bytes);
  sv_memory_after_bytes : nat -> result IndexError (option bytes);
  sv_definition : Z -> option DefinitionRow;
  sv_register_observations : nat -> list RegisterObservationRow;
  sv_register_observation_rows : list RegisterObservationRow;
  sv_completeness : list CompletenessRow;
  sv_row_for_source_key : EventKey -> option nat
}.

(** [serde_json::from_slice] at the types the analyses read. *)
Class SerdeJson := {
  definition_from_slice : bytes -> option InstructionDefinition;
  capture_from_slice : bytes -> option CaptureBytes;
  payload_from_slice : bytes -> option EventPayload
}.

(** The part of [QueryContext] the state analyses use. *)
Record QueryContext := mkQueryContext {
  qc_discontinuities : list (option (DiscontinuityCause * CompletenessRow));
  qc_discontinuity_rows : list nat
}.

Definition discontinuity_evidence (context : QueryContext) (row : nat) : option CompletenessRow :=
  snd <$> mjoin (qc_discontinuities context !! row).

(** ** Programs of the analyses *)

Section programs.
Context {W : Type} `{WorkGuard W} `{Allocator W}.
Abbreviation M := (Prog W AnalysisError unit).

(** [guard.consume(delta).map_err(AnalysisError::state_budget)?] *)
Definition charge_work (d : WorkDelta) : M unit := consume_as state_budget d.

(** [rows: n, nodes: n] *)
Definition delta_rows (n : nat) : WorkDelta := mkWorkDelta 0 0 0 (Z.of_nat n) (Z.of_nat n) 0.
(** [input_bytes: n, nodes: n] *)
Definition delta_scan (n : nat) : WorkDelta := mkWorkDelta (Z.of_nat n) 0 0 (Z.of_nat n) 0 0.

(** [let scope = AllocationScope::begin(..)?; body; drop(scope)] *)
Definition state_scope {A} (resident slack : Z) (body : M A) : M A := scope_as state_budget resident slack body.

(** [values.try_reserve_exact(..).map_err(..)?]: the capacity granted. *)
Definition state_grow (t : RustType) (n : Z) (e : AnalysisError) : M Z := grow_as t n e.

(** [.map_err(AnalysisError::state_store)?] *)
Definition from_store {A} (r : result IndexError A) : M A := lift_result (map_err state_store r).

(** A loop that charges once per 4096 elements. *)
Definition charged_fold {X A} (cost : nat -> WorkDelta) (xs : list X) (a : A) (f : A -> X -> M A) : M A :=
  chunked_fold (fun n => charge_work (cost n)) xs a f.
Definition charged_find {X A B} (cost : nat -> WorkDelta) (xs : list X) (a : A) (f : A -> X -> M (A + B)) :
    M (A + B) :=
  chunked_find (fun n => charge_work (cost n)) xs a f.

(** [for chunk in bytes.chunks(4096) { guard.consume(..)? }] *)
Definition charge_bytes (bs : bytes) : M unit := charged_fold delta_scan bs tt (fun _ _ => ret tt).

(** [guarded_vec_push] of registers.rs and [guarded_push] of call_tree.rs; [what]
    starts the overflow messages. *)
Definition state_push {A} (t : RustType) (values : Vec A) (value : A) (what detail : string) : M (Vec A) :=
  let! capacity :=
    if zlen (v_items values) =? v_capacity values then
      let! required := lift_option (checked_add usize_max (zlen (v_items values)) 1)
        (state_hard_limit (what +:+ " length overflows")) in
      let! doubled := lift_option (checked_mul usize_max (v_capacity values) 2)
        (state_hard_limit (what +:+ " capacity overflows")) in
      let capacity := Z.max (Z.max doubled required) 4 in
      let! bytes := lift_option (array_bytes t capacity)
        (state_hard_limit (what +:+ " allocation overflows")) in
      state_scope bytes 0 (state_grow t capacity (state_hard_limit detail))
    else ret (v_capacity values) in
  ret (mkVec (v_items values ++ [value]) capacity).

(** ** Rules *)

(** The errors of a guard or a heap. *)
Definition refused (e : AnalysisError) : Prop :=
  ae_code e ∈ ["job.cancelled"; "analysis.budget_exceeded"].

Lemma state_budget_refused a : refused (state_budget a).
Proof. unfold refused. destruct a; cbn; set_solver. Qed.
Lemma hard_limit_refused detail : refused (state_hard_limit detail).
Proof. unfold refused. cbn. set_solver. Qed.

Context (R : AnalysisError -> Prop) (HR : forall e, refused e -> R e).

Lemma answers_charge d (Q : unit -> Prop) : Q tt -> answers (charge_work d) Q R.
Proof. intros HQ. apply answers_consume; [done|]. intros a. apply HR, state_budget_refused. Qed.
Lemma answers_charged {A} d (p : M A) Q : answers p Q R -> answers (charge_work d ;! p) Q R.
Proof. intros Hp. by apply answers_bind, answers_charge. Qed.
Lemma answers_scope {A} n k (body : M A) Q : answers body Q R -> answers (state_scope n k body) Q R.
Proof. intros Hb. apply answers_scope_as; [done|]. intros a. apply HR, state_budget_refused. Qed.
Lemma answers_grow t n e (Q : Z -> Prop) : (forall c, Q c) -> R e -> answers (state_grow t n e) Q R.
Proof. apply answers_grow_as. Qed.

Lemma answers_push {A} t (values : Vec A) value what detail (Q : Vec A -> Prop) :
  (forall c, Q (mkVec (v_items values ++ [value]) c)) -> answers (state_push t values value what detail) Q R.
Proof.
  intros HQ. apply answers_bind. destruct (_ =? _); [|by apply answers_ret, answers_ret].
  do 3 (apply answers_bind, answers_option; case_match; [|apply HR, hard_limit_refused]).
  apply answers_scope, answers_grow; [|apply HR, hard_limit_refused]. intros c. by apply answers_ret.
Qed.

Lemma answers_charged_fold {X A} cost (xs : list X) (a : A) (f : A -> X -> M A) (I : list X -> A -> Prop) :
  I [] a ->
  (forall done x rest a, xs = done ++ x :: rest -> I done a -> answers (f a x) (I (done ++ [x])) R) ->
  answers (charged_fold cost xs a f) (I xs) R.
Proof. apply answers_chunked_fold. intros n. by apply answers_charge. Qed.

Lemma answers_charged_find {X A B} cost (xs : list X) (a : A) (f : A -> X -> M (A + B)) (I : list X -> A -> Prop)
    (J : B -> Prop) :
  I [] a ->
  (forall done x rest a, xs = done ++ x :: rest -> I done a ->
     answers (f a x) (fun r => match r with inl a => I (done ++ [x]) a | inr b => J b end) R) ->
  answers (charged_find cost xs a f) (fun r => match r with inl a => I xs a | inr b => J b end) R.
Proof. apply answers_chunked_find. intros n. by apply answers_charge. Qed.

Lemma answers_charge_bytes bs (Q : unit -> Prop) : Q tt -> answers (charge_bytes bs) Q R.
Proof.
  intros HQ. unfold charge_bytes. apply (answers_mono _ _ (fun _ => True)); [|by intros []].
  apply (answers_charged_fold _ _ _ _ (fun _ _ => True)); [done|]. intros. by apply answers_ret.
Qed.

End programs.
