(* ===== verification/Discontinuity.v ===== *)
(** * Discontinuity payloads

    Models [qtrace-analysis/src/timeline/discontinuity.rs]: the strict parser of
    the JSON text a discontinuity event is stored as.  [CanonicalJsonCursor] is
    given by the bytes it has not read yet; a method moves past a prefix of
    them. *)

From stdpp Require Import prelude list strings pretty.
From Stdlib Require Import ZArith Lia Strings.Byte.
From S2P Require Import Prelude Prog Control Model Index Analysis.
Local Open Scope string_scope.
Local Open Scope list_scope.
Local Open Scope Z_scope.

Inductive RawDiscontinuityTagError := WrongVariant | Malformed | Escape.

Record ParsedDiscontinuity := mkParsedDiscontinuity {
  pd_cause : DiscontinuityCause;
  pd_evidence : CompletenessRange
}.

Definition discontinuity_parse_error (e : RawDiscontinuityTagError) : AnalysisError :=
  match e with
  | WrongVariant => store_shape "discontinuity row payload has the wrong event kind"
  | Malformed => store_shape "invalid discontinuity payload tag"
  | Escape => store_shape "discontinuity payload must use canonical unescaped JSON"
  end.

Abbreviation J := (Prog unit RawDiscontinuityTagError bytes).

(** ** The cursor *)

Definition is_whitespace (b : byte) : bool := bool_decide (b ∈ [x20; x0a; x0d; x09]).

Fixpoint drop_whitespace (bs : bytes) : bytes :=
  match bs with
  | b :: rest => if is_whitespace b then drop_whitespace rest else bs
  | [] => []
  end.

Definition skip_whitespace : J unit := modify drop_whitespace.

Definition expect (expected : byte) : J unit :=
  skip_whitespace ;!
  let! bs := get in
  match bs with
  | b :: rest => if bool_decide (b = expected) then put rest else throw Malformed
  | [] => throw Malformed
  end.

(** The [while let Some(byte)] loop of [token]; [start] is what it passed. *)
Fixpoint token_loop (start bs : bytes) : result RawDiscontinuityTagError (bytes * bytes) :=
  match bs with
  | [] => Err Malformed
  | b :: rest =>
      if bool_decide (b = x22) then Ok (start, rest)
      else if bool_decide (b = x5c) then Err Escape
      else if in_range b 32 127 then token_loop (start ++ [b]) rest
      else Err Malformed
  end.

Definition token : J string :=
  skip_whitespace ;!
  let! bs := get in
  match bs with
  | b :: rest =>
      if bool_decide (b = x22) then
        let! r := lift_result (token_loop [] rest) in
        put (snd r) ;! ret (String.string_of_list_byte (fst r))
      else throw Malformed
  | [] => throw Malformed
  end.

(** [member(&mut first)]: the key, and [first] afterwards. *)
Definition member (first : bool) : J (option string * bool) :=
  skip_whitespace ;!
  let! bs := get in
  match bs with
  | x7d :: rest => put rest ;! ret (None, first)
  | _ =>
      (if negb first then expect x2c else ret tt) ;!
      let! key := token in
      expect x3a ;!
      ret (Some key, false)
  end.

Definition is_ascii_digit (b : byte) : bool := in_range b 48 57.
Definition digit (b : byte) : Z := Z_of_byte b - 48.

(** The [while let] loop of [number]; [read] digits were read before. *)
Fixpoint number_loop (read : nat) (value : Z) (bs : bytes) : result RawDiscontinuityTagError (Z * bytes) :=
  match bs with
  | b :: rest =>
      if is_ascii_digit b then
        if (read =? 20)%nat then Err Malformed
        else match (v ← checked_mul u64_max value 10; checked_add u64_max v (digit b)) with
             | Some value => number_loop (S read) value rest
             | None => Err Malformed
             end
      else Ok (value, bs)
  | [] => Ok (value, [])
  end.

Definition number : J Z :=
  skip_whitespace ;!
  let! bs := get in
  match bs with
  | b :: rest =>
      fail_if (negb (is_ascii_digit b)) Malformed ;!
      fail_if (bool_decide (b = x30) && match rest with c :: _ => is_ascii_digit c | [] => false end)
        Malformed ;!
      let! r := lift_result (number_loop 1 (digit b) rest) in
      put (snd r) ;! ret (fst r)
  | [] => throw Malformed
  end.

Definition finish_text : J unit :=
  skip_whitespace ;!
  let! bs := get in
  match bs with
  | [] => ret tt
  | _ => throw Malformed
  end.

(** [set_field]: the bits set so far. *)
Definition set_field (fields bit : Z) : J Z :=
  fail_if (negb (Z.land fields bit =? 0)) Malformed ;!
  ret (Z.lor fields bit).

(** ** The objects

    Every [while let Some(key) = cursor.member(&mut first)?] has a fuel of the
    unread bytes plus one: a member takes at least one of them. *)

Definition fuel_of (bs : bytes) : nat := S (length bs).

Fixpoint members {A} (fuel : nat) (first : bool) (a : A) (f : A -> string -> J A) : J A :=
  match fuel with
  | O => throw Malformed
  | S fuel =>
      let! m := member first in
      match m with
      | (None, _) => ret a
      | (Some key, first) => let! a := f a key in members fuel first a f
      end
  end.

Definition object {A} (a : A) (f : A -> string -> J A) : J A :=
  expect x7b ;!
  let! bs := get in
  members (fuel_of bs) true a f.

(** [fields] and the options the loop assigns. *)
Record PairFields := mkPairFields { pf_fields : Z; pf_left : option Z; pf_right : option Z }.

Definition pair_field (left_key right_key : string) (p : PairFields) (key : string) : J PairFields :=
  if bool_decide (key = left_key) then
    let! fields := set_field (pf_fields p) 1 in
    let! n := number in ret (mkPairFields fields (Some n) (pf_right p))
  else if bool_decide (key = right_key) then
    let! fields := set_field (pf_fields p) 2 in
    let! n := number in ret (mkPairFields fields (pf_left p) (Some n))
  else throw Malformed.

Definition parse_number_pair (left_key right_key : string) : J (Z * Z) :=
  let! p := object (mkPairFields 0 None None) (pair_field left_key right_key) in
  fail_if (negb (pf_fields p =? 3)) Malformed ;!
  let! lo := lift_option (pf_left p) Malformed in
  let! hi := lift_option (pf_right p) Malformed in
  ret (lo, hi).

Definition parse_range_bounds : J RangeBounds :=
  expect x7b ;!
  let! m := member true in
  let! key := lift_option (fst m) Malformed in
  let! endpoints :=
    if bool_decide (key = "inclusive_sequence") then parse_number_pair "first" "last"
    else if bool_decide (key = "half_open") then parse_number_pair "start" "end_exclusive"
    else throw Malformed in
  let! more := member (snd m) in
  fail_if (bool_decide (is_Some (fst more))) Malformed ;!
  lift_option (bounds_from_wire_parts key endpoints) Malformed.

Record RangeFields := mkRangeFields {
  rx_fields : Z;
  rx_domain : option RangeDomain;
  rx_bounds : option RangeBounds;
  rx_provenance : option Provenance;
  rx_cause : option CompletenessCause
}.

Definition parse_token {T} `{WireToken T} : J T :=
  let! name := token in lift_option (from_wire_name name) Malformed.

Definition range_field (r : RangeFields) (key : string) : J RangeFields :=
  if bool_decide (key = "domain") then
    let! fields := set_field (rx_fields r) 1 in
    let! v := parse_token in
    ret (mkRangeFields fields (Some v) (rx_bounds r) (rx_provenance r) (rx_cause r))
  else if bool_decide (key = "bounds") then
    let! fields := set_field (rx_fields r) 2 in
    let! v := parse_range_bounds in
    ret (mkRangeFields fields (rx_domain r) (Some v) (rx_provenance r) (rx_cause r))
  else if bool_decide (key = "provenance") then
    let! fields := set_field (rx_fields r) 4 in
    let! v := parse_token in
    ret (mkRangeFields fields (rx_domain r) (rx_bounds r) (Some v) (rx_cause r))
  else if bool_decide (key = "cause") then
    let! fields := set_field (rx_fields r) 8 in
    let! v := parse_token in
    ret (mkRangeFields fields (rx_domain r) (rx_bounds r) (rx_provenance r) (Some v))
  else throw Malformed.

(** [match (domain, bounds)] *)
Definition typed_range (domain : RangeDomain) (bounds : RangeBounds) (p : Provenance)
    (c : CompletenessCause) : option CompletenessRange :=
  match domain, bounds with
  | CapturedSequence, InclusiveSequence first last => captured_sequence_with_cause first last p c
  | SourceBytes, HalfOpen start end_exclusive => source_bytes_with_cause start end_exclusive p c
  | MemoryAddresses, HalfOpen start end_exclusive => memory_addresses_with_cause start end_exclusive p c
  | _, _ => None
  end.

Definition parse_completeness_range : J CompletenessRange :=
  let! r := object (mkRangeFields 0 None None None None) range_field in
  fail_if (negb (rx_fields r =? 15)) Malformed ;!
  let! domain := lift_option (rx_domain r) Malformed in
  let! bounds := lift_option (rx_bounds r) Malformed in
  let! provenance := lift_option (rx_provenance r) Malformed in
  let! cause := lift_option (rx_cause r) Malformed in
  lift_option (typed_range domain bounds provenance cause) Malformed.

Record ObjectFields := mkObjectFields {
  ox_fields : Z;
  ox_cause : option DiscontinuityCause;
  ox_evidence : option CompletenessRange
}.

Definition object_field (o : ObjectFields) (key : string) : J ObjectFields :=
  if bool_decide (key = "cause") then
    let! fields := set_field (ox_fields o) 1 in
    let! v := parse_token in ret (mkObjectFields fields (Some v) (ox_evidence o))
  else if bool_decide (key = "evidence") then
    let! fields := set_field (ox_fields o) 2 in
    let! v := parse_completeness_range in ret (mkObjectFields fields (ox_cause o) (Some v))
  else throw Malformed.

Definition parse_discontinuity_object : J ParsedDiscontinuity :=
  let! o := object (mkObjectFields 0 None None) object_field in
  fail_if (negb (ox_fields o =? 3)) Malformed ;!
  let! cause := lift_option (ox_cause o) Malformed in
  let! evidence := lift_option (ox_evidence o) Malformed in
  ret (mkParsedDiscontinuity cause evidence).

Definition parse_discontinuity_payload : J ParsedDiscontinuity :=
  expect x7b ;!
  let! m := member true in
  let! key := lift_option (fst m) Malformed in
  fail_if (negb (bool_decide (key = "discontinuity"))) WrongVariant ;!
  let! discontinuity := parse_discontinuity_object in
  let! more := member (snd m) in
  fail_if (bool_decide (is_Some (fst more))) Malformed ;!
  finish_text ;!
  ret discontinuity.

Definition decode_discontinuity_payload (payload : bytes) : result AnalysisError ParsedDiscontinuity :=
  map_err discontinuity_parse_error (fst (fst (parse_discontinuity_payload payload tt))).

(** ** The fuel is enough *)

(** A parser that never gives bytes back. *)
Definition shrinks {A} (p : J A) : Prop := forall bs, (length (snd (fst (p bs tt))) <= length bs)%nat.

Lemma shrinks_ret {A} (a : A) : shrinks (ret a).
Proof. intros bs. done. Qed.
Lemma shrinks_throw {A} e : shrinks (throw (A := A) e).
Proof. intros bs. done. Qed.
Lemma shrinks_get : shrinks get.
Proof. intros bs. done. Qed.
Lemma shrinks_result {A} (r : result _ A) : shrinks (lift_result r).
Proof. intros bs. done. Qed.
Lemma shrinks_option {A} (o : option A) e : shrinks (lift_option o e).
Proof. intros bs. done. Qed.
Lemma shrinks_fail_if b e : shrinks (fail_if b e).
Proof. intros bs. by destruct b. Qed.
Lemma shrinks_bind {A B} (p : J A) (k : A -> J B) : shrinks p -> (forall a, shrinks (k a)) -> shrinks (bind p k).
Proof.
  intros Hp Hk bs. specialize (Hp bs). unfold bind. destruct (p bs tt) as [[[a|e] bs'] []]; [|done].
  cbn in Hp. specialize (Hk a bs'). lia.
Qed.
#[local] Hint Resolve shrinks_ret shrinks_throw shrinks_get shrinks_result shrinks_option shrinks_fail_if : core.

Lemma drop_whitespace_length bs : (length (drop_whitespace bs) <= length bs)%nat.
Proof. induction bs as [|b bs IH]; [done|]. cbn. destruct (is_whitespace b); cbn; lia. Qed.

Lemma shrinks_skip : shrinks skip_whitespace.
Proof. intros bs. apply drop_whitespace_length. Qed.

(** After the white space a parser looks at the next byte. *)
Lemma shrinks_skipped {A} (k : bytes -> J A) :
  (forall bs, (length (snd (fst (k bs bs tt))) <= length bs)%nat) ->
  shrinks (skip_whitespace ;! let! bs := get in k bs).
Proof.
  intros Hk bs. unfold skip_whitespace, bind, modify, get. pose proof (drop_whitespace_length bs).
  specialize (Hk (drop_whitespace bs)). destruct (k _ _ tt) as [[? ?] ?]. cbn in *. lia.
Qed.

Lemma shrinks_expect b : shrinks (expect b).
Proof.
  apply shrinks_skipped. intros [|c rest]; [done|]. destruct (bool_decide _); cbn; lia.
Qed.

Lemma token_loop_length start bs name rest :
  token_loop start bs = Ok (name, rest) -> (length rest < length bs)%nat.
Proof.
  revert start. induction bs as [|b bs IH]; intros start; [done|]. cbn [token_loop length].
  destruct (bool_decide (b = x22)); [intros [= _ <-]; lia|]. destruct (bool_decide (b = x5c)); [done|].
  destruct (in_range b 32 127); [|done]. intros H%IH. lia.
Qed.

Lemma token_takes bs name rest : token bs tt = (Ok name, rest, tt) -> (length rest < length bs)%nat.
Proof.
  unfold token, skip_whitespace, bind, modify, get. pose proof (drop_whitespace_length bs).
  destruct (drop_whitespace bs) as [|b bs']; [done|]. destruct (bool_decide _); [|done].
  unfold lift_result. destruct (token_loop [] bs') as [[name' rest']|] eqn:Ht; [|done].
  apply token_loop_length in Ht. cbn in *. intros [= _ <-]. lia.
Qed.

Lemma shrinks_token : shrinks token.
Proof.
  apply shrinks_skipped. intros [|b bs]; [done|]. destruct (bool_decide _); [|done].
  unfold bind, lift_result, put, ret. destruct (token_loop [] bs) as [[name rest]|] eqn:Ht; cbn.
  - apply token_loop_length in Ht. lia.
  - lia.
Qed.

Lemma number_loop_length read v bs n rest :
  number_loop read v bs = Ok (n, rest) -> (length rest <= length bs)%nat.
Proof.
  revert read v. induction bs as [|b bs IH]; intros read v; cbn [number_loop length]; [by intros [= _ <-]|].
  destruct (is_ascii_digit b); [|intros [= _ <-]; done]. destruct (read =? 20)%nat; [done|].
  destruct (_ ≫= _); [|done]. intros H%IH. lia.
Qed.

Lemma shrinks_number : shrinks number.
Proof.
  apply shrinks_skipped. intros [|b bs]; [done|]. unfold bind, fail_if, throw, ret.
  destruct (negb _); [cbn; lia|]. destruct (_ && _); [cbn; lia|]. unfold lift_result, put.
  destruct (number_loop _ _ bs) as [[n rest]|] eqn:Hn; cbn; [apply number_loop_length in Hn|]; lia.
Qed.

Lemma shrinks_member first : shrinks (member first).
Proof.
  apply shrinks_skipped. intros bs.
  assert (shrinks ((if negb first then expect x2c else ret tt) ;!
            let! key := token in expect x3a ;! ret (Some key, false))) as Hk.
  { apply shrinks_bind; [destruct first; [done|apply shrinks_expect]|intros _].
    apply shrinks_bind; [apply shrinks_token|intros key].
    apply shrinks_bind; [apply shrinks_expect|done]. }
  destruct bs as [|b bs]; [apply Hk|]. destruct b; first [apply Hk|cbn; lia].
Qed.

Lemma member_takes first bs key first' rest :
  member first bs tt = (Ok (Some key, first'), rest, tt) -> (length rest < length bs)%nat.
Proof.
  unfold member, skip_whitespace, bind at 1 2, modify, get. pose proof (drop_whitespace_length bs) as Hd.
  set (bs1 := drop_whitespace bs) in *. clearbody bs1.
  assert (forall r, ((if negb first then expect x2c else ret tt) ;!
            let! key := token in expect x3a ;! ret (Some key, false)) bs1 tt = (r, rest, tt) ->
          r = Ok (Some key, first') -> (length rest < length bs1)%nat) as Hgo.
  { intros r. unfold bind at 1. pose proof (shrinks_expect x2c bs1) as He.
    destruct ((if negb first then expect x2c else ret tt) bs1 tt) as [[[[]|e] bs2] []] eqn:H1; [|by intros [= <- <-]].
    assert (length bs2 <= length bs1)%nat as Hle.
    { destruct first; cbn [negb] in H1; [by injection H1 as <-|]. by rewrite H1 in He. }
    unfold bind at 1. destruct (token bs2 tt) as [[[name|e] bs3] []] eqn:H2; [|by intros [= <- <-]].
    apply token_takes in H2. unfold bind, ret. pose proof (shrinks_expect x3a bs3) as H3.
    destruct (expect x3a bs3 tt) as [[[[]|e] bs4] []]; [|by intros [= <- <-]].
    cbn in H3. intros [= <- <-] _. lia. }
  intros Hrun. enough (length rest < length bs1)%nat by lia.
  destruct bs1 as [|b bs1]; [by eapply Hgo|]. destruct b; by eapply Hgo.
Qed.

(** Any fuel above the number of unread bytes gives the same result. *)
Lemma members_fuel {A} (f : A -> string -> J A) (Hf : forall a key, shrinks (f a key)) n m first a bs :
  (length bs < n)%nat -> (length bs < m)%nat -> members n first a f bs tt = members m first a f bs tt.
Proof.
  revert m first a bs. induction n as [|n IH]; intros m first a bs Hn Hm; [lia|].
  destruct m as [|m]; [lia|]. cbn [members]. unfold bind at 1 3.
  destruct (member first bs tt) as [[[[[key|] first']|e] bs1] []] eqn:H1; [|done..].
  apply member_takes in H1. unfold bind. specialize (Hf a key bs1).
  destruct (f a key bs1 tt) as [[[a'|e] bs2] []]; [|done]. cbn in Hf. apply IH; lia.
Qed.

Lemma shrinks_members {A} (f : A -> string -> J A) (Hf : forall a key, shrinks (f a key)) fuel first a :
  shrinks (members fuel first a f).
Proof.
  revert first a. induction fuel as [|fuel IH]; intros first a; cbn [members]; [done|].
  apply shrinks_bind; [apply shrinks_member|]. intros [[key|] first']; [|done].
  apply shrinks_bind; [apply Hf|intros a'; apply IH].
Qed.

(** ** The text the store writes

    [serde_json] renders the fields of a struct in order, an enum by its name in
    snake case, and an integer in decimal. *)

Definition quote_name (name : string) : bytes := x22 :: String.list_byte_of_string name ++ [x22].

Fixpoint decimal_go (fuel : nat) (n : Z) : bytes :=
  match fuel with
  | O => []
  | S fuel => (if n <? 10 then [] else decimal_go fuel (n / 10)) ++ [byte_of_Z (48 + n mod 10)]
  end.
(** Twenty digits hold every [u64]. *)
Definition decimal (n : Z) : bytes := decimal_go 20 n.

Definition field (name : string) (value : bytes) : bytes := quote_name name ++ x3a :: value.
Definition braces (body : bytes) : bytes := x7b :: body ++ [x7d].

Definition render_bounds (b : RangeBounds) : bytes :=
  match b with
  | InclusiveSequence first last =>
      braces (field "inclusive_sequence"
        (braces (field "first" (decimal first) ++ x2c :: field "last" (decimal last))))
  | HalfOpen start end_exclusive =>
      braces (field "half_open"
        (braces (field "start" (decimal start) ++ x2c :: field "end_exclusive" (decimal end_exclusive))))
  end.

Definition render_range (r : CompletenessRange) : bytes :=
  braces (field "domain" (quote_name (wire_name (cr_domain r)))
    ++ x2c :: field "bounds" (render_bounds (cr_bounds r))
    ++ x2c :: field "provenance" (quote_name (wire_name (cr_provenance r)))
    ++ x2c :: field "cause" (quote_name (wire_name (cr_cause r)))).

Definition render (d : ParsedDiscontinuity) : bytes :=
  braces (field "discontinuity"
    (braces (field "cause" (quote_name (wire_name (pd_cause d)))
       ++ x2c :: field "evidence" (render_range (pd_evidence d))))).

(** [reads p text a]: [p] takes exactly [text] off any input and returns [a]. *)
Definition reads {A} (p : J A) (text : bytes) (a : A) : Prop :=
  forall rest, p (text ++ rest) tt = (Ok a, rest, tt).

(** [reads_before p text a]: the same, when no digit follows. *)
Definition reads_before {A} (p : J A) (text : bytes) (a : A) : Prop :=
  forall b rest, is_ascii_digit b = false -> p (text ++ b :: rest) tt = (Ok a, b :: rest, tt).

Lemma reads_bind {A B} (p : J A) (k : A -> J B) t1 t2 a b :
  reads p t1 a -> reads (k a) t2 b -> reads (bind p k) (t1 ++ t2) b.
Proof. intros Hp Hk rest. unfold bind. by rewrite <- app_assoc, Hp. Qed.
Lemma reads_ret {A} (a : A) : reads (ret a) [] a.
Proof. intros rest. done. Qed.
Lemma reads_pure {A B} (p : J A) (k : A -> J B) t a b :
  (forall bs, p bs tt = (Ok a, bs, tt)) -> reads (k a) t b -> reads (bind p k) t b.
Proof. intros Hp Hk rest. unfold bind. by rewrite Hp. Qed.

Lemma reads_expect b : is_whitespace b = false -> reads (expect b) [b] tt.
Proof.
  intros Hb rest. unfold expect, skip_whitespace, bind, modify, get. cbn [app drop_whitespace]. rewrite Hb.
  by rewrite bool_decide_eq_true_2.
Qed.

(** The names of the vocabulary: printable, without quotes or escapes. *)
Definition plain (b : byte) : bool :=
  in_range b 32 127 && negb (bool_decide (b = x22)) && negb (bool_decide (b = x5c)).
Definition plain_name (name : string) : bool := forallb plain (String.list_byte_of_string name).

Lemma token_loop_plain start name rest :
  forallb plain name = true -> token_loop start (name ++ x22 :: rest) = Ok (start ++ name, rest).
Proof.
  revert start. induction name as [|b name IH]; intros start; cbn [forallb app token_loop].
  { rewrite app_nil_r. by rewrite bool_decide_eq_true_2. }
  intros [Hb Hn]%andb_true_iff. unfold plain in Hb. apply andb_true_iff in Hb as [[Hr Hq]%andb_true_iff He].
  apply negb_true_iff in Hq as ->. apply negb_true_iff in He as ->. rewrite Hr, IH by done.
  by rewrite <- app_assoc.
Qed.

Lemma reads_token name : plain_name name = true -> reads token (quote_name name) name.
Proof.
  intros Hn rest. unfold token, quote_name, skip_whitespace, bind, modify, get. cbn [app drop_whitespace].
  change (is_whitespace x22) with false. cbv iota beta. rewrite (bool_decide_eq_true_2 (x22 = x22)) by done. rewrite <- app_assoc. cbn [app].
  unfold lift_result. rewrite token_loop_plain by done. unfold put, ret. cbn [fst snd app]. by rewrite String.string_of_list_byte_of_string.
Qed.

Lemma reads_wire {T} `{WireToken T} `{!WireTokenLaws T} (v : T) :
  plain_name (wire_name v) = true -> reads parse_token (quote_name (wire_name v)) v.
Proof.
  intros Hn rest. unfold parse_token, bind. rewrite reads_token by done. unfold lift_option, lift_result.
  by rewrite (proj2 (from_wire_name_iff _ v) eq_refl).
Qed.

(** *** Numbers *)

Definition digits_value (v : Z) (ds : bytes) : Z := foldl (fun v b => v * 10 + digit b) v ds.

Lemma digit_byte n : 0 <= n < 10 -> is_ascii_digit (byte_of_Z (48 + n)) = true /\ digit (byte_of_Z (48 + n)) = n.
Proof.
  intros Hn. unfold is_ascii_digit, in_range, digit. rewrite Z_of_byte_of_Z, Z.mod_small by lia. split; lia.
Qed.

Lemma digit_range b : is_ascii_digit b = true -> 0 <= digit b <= 9.
Proof. unfold is_ascii_digit, in_range, digit. intros [? ?]%andb_true_iff. lia. Qed.

Lemma digits_value_le v ds : forallb is_ascii_digit ds = true -> 0 <= v -> v <= digits_value v ds.
Proof.
  revert v. induction ds as [|b ds IH]; intros v Hd Hv; cbn in *; [lia|].
  apply andb_true_iff in Hd as [Hb Hd]. pose proof (digit_range b Hb).
  specialize (IH (v * 10 + digit b) Hd ltac:(lia)). unfold digits_value in IH. lia.
Qed.

Lemma number_loop_digits read v ds b rest :
  forallb is_ascii_digit ds = true -> is_ascii_digit b = false -> 0 <= v ->
  digits_value v ds <= u64_max -> (read + length ds <= 20)%nat ->
  number_loop read v (ds ++ b :: rest) = Ok (digits_value v ds, b :: rest).
Proof.
  revert read v. induction ds as [|d ds IH]; intros read v Hd Hb Hv Hmax Hlen; cbn [app number_loop].
  - by rewrite Hb.
  - cbn [forallb] in Hd. apply andb_true_iff in Hd as [Hdd Hd]. rewrite Hdd. cbn [length] in Hlen.
    rewrite (proj2 (Nat.eqb_neq read 20)) by lia. pose proof (digit_range d Hdd).
    pose proof (digits_value_le (v * 10 + digit d) ds Hd ltac:(lia)) as Hle.
    change (digits_value v (d :: ds)) with (digits_value (v * 10 + digit d) ds) in *.
    unfold checked_mul, checked_add. rewrite (proj2 (Z.leb_le (v * 10) u64_max)) by lia. cbn [mbind option_bind].
    rewrite (proj2 (Z.leb_le _ u64_max)) by lia. apply IH; try done; lia.
Qed.

(** What the digits of a number are. *)
Lemma decimal_go_value fuel n :
  0 <= n < 10 ^ Z.of_nat fuel ->
  forallb is_ascii_digit (decimal_go fuel n) = true
  /\ digits_value 0 (decimal_go fuel n) = n
  /\ (length (decimal_go fuel n) <= fuel)%nat
  /\ (1 <= fuel -> exists b rest, decimal_go fuel n = b :: rest /\ (rest <> [] -> b <> x30))%nat.
Proof.
  revert n. induction fuel as [|fuel IH]; intros n Hn.
  { cbn. split_and!; try done; [|lia]. change (10 ^ Z.of_nat 0) with 1 in Hn. lia. }
  rewrite Nat2Z.inj_succ, Z.pow_succ_r in Hn by lia. cbn [decimal_go].
  destruct (digit_byte (n mod 10)) as [Hdig Hval]; [apply Z.mod_pos_bound; lia|].
  destruct (Z.ltb_spec n 10) as [Hlt|Hge].
  - cbn. rewrite Hdig. split_and!; [done| |lia|intros _; by eexists _, []].
    rewrite Hval. rewrite Z.mod_small by lia. lia.
  - assert (0 <= n / 10 < 10 ^ Z.of_nat fuel) as Hq.
    { split; [apply Z.div_pos; lia|apply Z.div_lt_upper_bound; lia]. }
    assert (1 <= n / 10) by (apply Z.div_le_lower_bound; lia).
    destruct (IH (n / 10) Hq) as (Hd & Hv & Hl & He). split_and!.
    + rewrite forallb_app, Hd. cbn. by rewrite Hdig.
    + unfold digits_value in *. rewrite foldl_app, Hv. cbn. rewrite Hval.
      pose proof (Z.div_mod n 10 ltac:(lia)). lia.
    + rewrite length_app. cbn. lia.
    + intros _. destruct fuel as [|fuel]; [change (10 ^ Z.of_nat 0) with 1 in Hq; lia|].
      destruct He as (b & rest & Hds & Hb); [lia|]. rewrite Hds in *. exists b, (rest ++ [byte_of_Z (48 + n mod 10)]).
      split; [done|]. intros _ ->. destruct rest as [|c rest]; [|by destruct Hb].
      change (digits_value 0 [x30]) with 0 in Hv. lia.
Qed.

Lemma reads_number n : in_u64 n -> reads_before number (decimal n) n.
Proof.
  intros Hn b rest Hb. destruct (decimal_go_value 20 n) as (Hd & Hv & Hl & He); [change (10 ^ Z.of_nat 20) with 100000000000000000000; machine; lia|].
  destruct He as (c & ds & Hds & Hz); [lia|]. unfold decimal in *. rewrite Hds in *.
  cbn [forallb] in Hd. apply andb_true_iff in Hd as [Hc Hd].
  assert (is_whitespace c = false) as Hw by (revert Hc; by destruct c).
  unfold number, skip_whitespace, bind, modify, get. cbn [app drop_whitespace]. rewrite Hw. cbv iota beta.
  rewrite Hc. cbn [negb fail_if]. unfold ret, throw.
  assert ((bool_decide (c = x30) && match ds ++ b :: rest with c0 :: _ => is_ascii_digit c0 | [] => false end) = false) as ->.
  { destruct ds as [|d ds]; cbn; [by rewrite Hb, andb_false_r|].
    apply andb_false_iff. left. apply bool_decide_eq_false_2. by apply Hz. }
  cbn [fail_if]. unfold ret, lift_result. cbn [length] in Hl.
  pose proof (digit_range c Hc). change (digits_value 0 (c :: ds)) with (digits_value (digit c) ds) in Hv.
  rewrite number_loop_digits; [|done..|lia|rewrite Hv; machine; lia|lia]. by rewrite Hv.
Qed.

(** *** Members *)

Lemma reads_weaken {A} (p : J A) t a : reads p t a -> reads_before p t a.
Proof. intros Hp b rest _. apply Hp. Qed.

Lemma reads_member_end first : reads (member first) [x7d] (None, first).
Proof. by intros rest. Qed.

Lemma reads_key name : plain_name name = true ->
  reads (let! key := token in expect x3a ;! ret (Some key, false)) (quote_name name ++ [x3a]) (Some name, false).
Proof.
  intros Hn. eapply reads_bind; [by apply reads_token|]. rewrite <- (app_nil_r [x3a]).
  eapply reads_bind; [by apply reads_expect|apply reads_ret].
Qed.

Lemma reads_member (first : bool) name : plain_name name = true ->
  reads (member first) ((if first then [] else [x2c]) ++ quote_name name ++ [x3a]) (Some name, false).
Proof.
  intros Hn rest. destruct first.
  - pose proof (reads_key name Hn rest) as Hk. unfold member, skip_whitespace, bind at 1 2, modify, get.
    unfold quote_name at 1 2. cbn [app drop_whitespace negb]. change (is_whitespace x22) with false. cbv iota. exact Hk.
  - pose proof (reads_key name Hn rest) as Hk. pose proof (reads_expect x2c eq_refl) as He.
    unfold member, skip_whitespace, bind at 1 2, modify, get. cbn [app drop_whitespace negb] in *.
    change (is_whitespace x2c) with false. cbv iota. unfold bind at 1. specialize (He ((quote_name name ++ [x3a]) ++ rest)).
    cbn [app] in He. rewrite He. exact Hk.
Qed.

Lemma reads_members_end {A} fuel first (a : A) f : reads (members (S fuel) first a f) [x7d] a.
Proof. intros rest. done. Qed.

Lemma reads_members {A} fuel (first : bool) (a a' b : A) f name t c text :
  plain_name name = true -> is_ascii_digit c = false ->
  reads_before (f a name) t a' -> reads (members fuel false a' f) (c :: text) b ->
  reads (members (S fuel) first a f) ((if first then [] else [x2c]) ++ field name t ++ c :: text) b.
Proof.
  intros Hn Hc Hf Hm rest. cbn [members]. unfold bind at 1, field.
  replace (((if first then [] else [x2c]) ++ (quote_name name ++ x3a :: t) ++ c :: text) ++ rest)
    with (((if first then [] else [x2c]) ++ quote_name name ++ [x3a]) ++ t ++ c :: text ++ rest)
    by (destruct first; cbn; repeat (rewrite <- app_assoc; cbn); reflexivity).
  rewrite reads_member by done. unfold bind. rewrite Hf by done. exact (Hm rest).
Qed.

Lemma members_more {A} (f : A -> string -> J A) n m first a bs b rest :
  (n <= m)%nat -> members n first a f bs tt = (Ok b, rest, tt) -> members m first a f bs tt = (Ok b, rest, tt).
Proof.
  revert m first a bs. induction n as [|n IH]; intros m first a bs Hm; [done|].
  destruct m as [|m]; [lia|]. cbn [members]. unfold bind at 1 3.
  destruct (member first bs tt) as [[[[[key|] first']|e] bs1] []]; [|done..].
  unfold bind. destruct (f a key bs1 tt) as [[[a'|e] bs2] []]; [|done]. apply IH. lia.
Qed.

(** [{ body }] where [body] reads with a fuel of at most its length. *)
Lemma reads_object {A} fuel (a b : A) f body :
  (fuel <= length body)%nat -> reads (members fuel true a f) (body ++ [x7d]) b ->
  reads (object a f) (braces body) b.
Proof.
  intros Hlen Hm rest. unfold object, braces. change ((x7b :: body ++ [x7d]) ++ rest)
    with ([x7b] ++ (body ++ [x7d]) ++ rest). unfold bind at 1. rewrite reads_expect by done.
  unfold bind, get. eapply members_more; [|apply Hm]. unfold fuel_of. rewrite !length_app. lia.
Qed.

Lemma reads_pair left_key right_key x y :
  plain_name left_key = true -> plain_name right_key = true -> left_key <> right_key ->
  in_u64 x -> in_u64 y ->
  reads (parse_number_pair left_key right_key)
    (braces (field left_key (decimal x) ++ x2c :: field right_key (decimal y))) (x, y).
Proof.
  intros Hl Hr Hne Hx Hy. unfold parse_number_pair.
  rewrite <- (app_nil_r (braces _)).
  apply (reads_bind _ _ _ _ (mkPairFields 3 (Some x) (Some y))); [|by intros rest].
  assert (forall n, in_u64 n ->
    reads_before (pair_field left_key right_key (mkPairFields 0 None None) left_key) (decimal n)
      (mkPairFields 1 (Some n) None)) as Hleft.
  { intros n Hn c rest Hc. unfold pair_field. rewrite bool_decide_eq_true_2 by done.
    unfold bind at 1. cbn [pf_fields].
    change (set_field 0 1 (decimal n ++ c :: rest) tt) with
      (@Ok RawDiscontinuityTagError Z 1, decimal n ++ c :: rest, tt).
    unfold bind. by rewrite reads_number. }
  assert (forall n, in_u64 n ->
    reads_before (pair_field left_key right_key (mkPairFields 1 (Some x) None) right_key) (decimal n)
      (mkPairFields 3 (Some x) (Some n))) as Hright.
  { intros n Hn c rest Hc. unfold pair_field. rewrite bool_decide_eq_false_2 by done.
    rewrite bool_decide_eq_true_2 by done. unfold bind at 1. cbn [pf_fields].
    change (set_field 1 2 (decimal n ++ c :: rest) tt) with
      (@Ok RawDiscontinuityTagError Z 3, decimal n ++ c :: rest, tt).
    unfold bind. by rewrite reads_number. }
  apply (reads_object 3).
  { unfold field, quote_name. rewrite !length_app. cbn. rewrite !length_app. cbn. lia. }
  rewrite <- app_assoc. eapply (reads_members _ true); [done|done|by apply Hleft|].
  change (x2c :: field right_key (decimal y) ++ [x7d]) with ([x2c] ++ field right_key (decimal y) ++ [x7d]).
  eapply (reads_members _ false); [done|done|by apply Hright|]. apply reads_members_end.
Qed.

Lemma reads_set {A} m b (k : Z -> J A) t a :
  Z.land m b = 0 -> reads (k (Z.lor m b)) t a -> reads (let! fields := set_field m b in k fields) t a.
Proof.
  intros Hm Hk rest. unfold bind at 1. unfold set_field, bind, fail_if. rewrite Hm. exact (Hk rest).
Qed.

Lemma reads_then {A B} (p : J A) (g : A -> B) t a : reads p t a -> reads (let! v := p in ret (g v)) t (g a).
Proof. intros Hp. rewrite <- (app_nil_r t). eapply reads_bind; [exact Hp|apply reads_ret]. Qed.

Lemma plain_token (v : Provenance) (c : CompletenessCause) (d : RangeDomain) (k : DiscontinuityCause) :
  plain_name (wire_name v) = true /\ plain_name (wire_name c) = true /\ plain_name (wire_name d) = true
  /\ plain_name (wire_name k) = true.
Proof. split_and!; by destruct v, c, d, k. Qed.

(** [{"name": value}] with nothing else. *)
Lemma reads_single {A B} name (p : string -> J A) t a (k : string -> A -> J B) b :
  plain_name name = true -> reads_before (p name) t a -> (forall bs, k name a bs tt = (Ok b, bs, tt)) ->
  reads (expect x7b ;!
         let! m := member true in
         let! key := lift_option (fst m) Malformed in
         let! v := p key in
         let! more := member (snd m) in
         fail_if (bool_decide (is_Some (fst more))) Malformed ;! k key v)
    (braces (field name t)) b.
Proof.
  intros Hn Hp Hk. unfold braces, field. change (x7b :: (quote_name name ++ x3a :: t) ++ [x7d])
    with ([x7b] ++ (quote_name name ++ x3a :: t) ++ [x7d]). eapply reads_bind; [by apply reads_expect|].
  replace ((quote_name name ++ x3a :: t) ++ [x7d]) with ((quote_name name ++ [x3a]) ++ t ++ [x7d])
    by (repeat (rewrite <- app_assoc; cbn); reflexivity).
  eapply reads_bind; [exact (reads_member true name Hn)|]. cbn [fst snd].
  eapply (reads_pure _ _ _ name); [done|]. intros rest. unfold bind at 1. rewrite <- app_assoc. cbn [app].
  rewrite Hp by done. unfold bind at 1. pose proof (reads_member_end false rest) as He. cbn [app] in He.
  rewrite He. cbn [fst]. unfold bind, fail_if. rewrite bool_decide_eq_false_2 by (by intros [? ?]).
  apply Hk.
Qed.

Lemma reads_bounds b : bounds_u64 b -> reads parse_range_bounds (render_bounds b) b.
Proof.
  intros Hb. destruct b as [x y|x y]; destruct Hb as [Hx Hy]; unfold parse_range_bounds, render_bounds.
  - apply (reads_single "inclusive_sequence" (fun key => if bool_decide (key = "inclusive_sequence")
      then parse_number_pair "first" "last"
      else if bool_decide (key = "half_open") then parse_number_pair "start" "end_exclusive"
      else throw Malformed) _ (x, y)
      (fun key endpoints => lift_option (bounds_from_wire_parts key endpoints) Malformed)); [done| |done].
    by apply reads_weaken, reads_pair.
  - apply (reads_single "half_open" (fun key => if bool_decide (key = "inclusive_sequence")
      then parse_number_pair "first" "last"
      else if bool_decide (key = "half_open") then parse_number_pair "start" "end_exclusive"
      else throw Malformed) _ (x, y)
      (fun key endpoints => lift_option (bounds_from_wire_parts key endpoints) Malformed)); [done| |done].
    by apply reads_weaken, reads_pair.
Qed.

Lemma typed_range_wf r :
  range_wf r <-> bounds_u64 (cr_bounds r)
    /\ typed_range (cr_domain r) (cr_bounds r) (cr_provenance r) (cr_cause r) = Some r.
Proof.
  destruct r as [d b p c]. unfold range_wf, typed_range, captured_sequence_with_cause, source_bytes_with_cause,
    memory_addresses_with_cause, half_open. cbn.
  destruct d, b as [x y|x y]; cbn; split; try (by intros []); try done;
    destruct (Z.gtb_spec x y); intros; destruct_and?; split_and?; try done; try lia.
Qed.

Lemma typed_range_sound d b p c r : bounds_u64 b -> typed_range d b p c = Some r -> range_wf r.
Proof.
  unfold typed_range, captured_sequence_with_cause, source_bytes_with_cause, memory_addresses_with_cause,
    half_open, range_wf. destruct d, b as [x y|x y]; cbn; try done; destruct (Z.gtb_spec x y); try done;
    intros [? ?] [= <-]; cbn; split_and!; done || lia.
Qed.

Lemma reads_range r : range_wf r -> reads parse_completeness_range (render_range r) r.
Proof.
  intros [Hb Ht]%typed_range_wf. destruct (plain_token (cr_provenance r) (cr_cause r) (cr_domain r) Loss)
    as (Hp & Hc & Hd & _).
  unfold parse_completeness_range. rewrite <- (app_nil_r (render_range r)).
  apply (reads_bind _ _ _ _ (mkRangeFields 15 (Some (cr_domain r)) (Some (cr_bounds r))
    (Some (cr_provenance r)) (Some (cr_cause r)))).
  2: { intros rest. cbn. unfold bind, lift_option, lift_result. cbn. by rewrite Ht. }
  apply (reads_object 5).
  { unfold field, quote_name. rewrite !length_app. cbn. rewrite !length_app. cbn. lia. }
  rewrite <- app_assoc. cbn [app]. rewrite <- app_assoc. cbn [app]. rewrite <- app_assoc. cbn [app].
  eapply (reads_members 4 true); [done|done| |].
  { apply reads_weaken. apply reads_set; [done|]. by apply (reads_then parse_token), reads_wire. }
  eapply (reads_members 3 false _ _ _ _ "bounds" _ _ _); [done|done| |].
  { apply reads_weaken. apply reads_set; [done|]. by apply (reads_then parse_range_bounds), reads_bounds. }
  eapply (reads_members 2 false _ _ _ _ "provenance" _ _ _); [done|done| |].
  { apply reads_weaken. apply reads_set; [done|]. by apply (reads_then parse_token), reads_wire. }
  eapply (reads_members 1 false _ _ _ _ "cause" _ _ _); [done|done| |].
  { apply reads_weaken. apply reads_set; [done|]. by apply (reads_then parse_token), reads_wire. }
  apply reads_members_end.
Qed.

Lemma reads_discontinuity_object d : range_wf (pd_evidence d) ->
  reads parse_discontinuity_object
    (braces (field "cause" (quote_name (wire_name (pd_cause d)))
       ++ x2c :: field "evidence" (render_range (pd_evidence d)))) d.
Proof.
  intros Hwf. destruct (plain_token Captured Retained SourceBytes (pd_cause d)) as (_ & _ & _ & Hk).
  unfold parse_discontinuity_object. rewrite <- (app_nil_r (braces _)).
  apply (reads_bind _ _ _ _ (mkObjectFields 3 (Some (pd_cause d)) (Some (pd_evidence d))));
    [|intros rest; by destruct d].
  apply (reads_object 3).
  { unfold field, quote_name. rewrite !length_app. cbn. rewrite !length_app. cbn. lia. }
  rewrite <- app_assoc. cbn [app]. eapply (reads_members 2 true); [done|done| |].
  { apply reads_weaken. apply reads_set; [done|]. by apply (reads_then parse_token), reads_wire. }
  eapply (reads_members 1 false _ _ _ _ "evidence" _ _ _); [done|done| |].
  { apply reads_weaken. apply reads_set; [done|]. by apply (reads_then parse_completeness_range), reads_range. }
  apply reads_members_end.
Qed.

Lemma decode_render d : range_wf (pd_evidence d) -> decode_discontinuity_payload (render d) = Ok d.
Proof.
  intros Hwf. unfold decode_discontinuity_payload.
  enough (parse_discontinuity_payload (render d) tt = (Ok d, [], tt)) as -> by done.
  unfold parse_discontinuity_payload, render, braces, field.
  pose proof (reads_discontinuity_object d Hwf) as Ho. set (body := braces _) in Ho.
  change (x7b :: (quote_name "discontinuity" ++ x3a :: _) ++ [x7d]) with ([x7b] ++ (quote_name "discontinuity" ++ x3a :: body) ++ [x7d]).
  unfold bind at 1. rewrite reads_expect by done. unfold bind at 1.
  replace ((quote_name "discontinuity" ++ x3a :: body) ++ [x7d])
    with ((quote_name "discontinuity" ++ [x3a]) ++ body ++ [x7d]) by (repeat (rewrite <- app_assoc; cbn); reflexivity).
  rewrite (reads_member true "discontinuity" eq_refl). cbn [fst snd].
  unfold bind at 1, lift_option, lift_result, ok_or. unfold bind at 1.
  rewrite (bool_decide_eq_true_2 ("discontinuity" = "discontinuity")) by done. cbn [negb fail_if]. unfold ret at 1.
  unfold bind at 1. rewrite Ho. done.
Qed.

(** ** What any accepted text denotes *)

Abbreviation accepts p Q bs := (wp p (fun a _ => Q a) (fun _ _ => True) bs).

Lemma accepts_bind {A B} (p : J A) (k : A -> J B) (P : A -> Prop) (Q : B -> Prop) bs :
  accepts p P bs -> (forall a bs', P a -> accepts (k a) Q bs') -> accepts (bind p k) Q bs.
Proof. intros Hp Hk. apply wp_bind. eapply wp_mono; [exact Hp| |done]. intros a bs' Ha. by apply Hk. Qed.
Lemma accepts_any {A} (p : J A) bs : accepts p (fun _ => True) bs.
Proof. intros w. by destruct (p bs w) as [[[?|?] ?] ?]. Qed.

Lemma accepts_members {A} (I : A -> Prop) f :
  (forall a key bs, I a -> accepts (f a key) I bs) ->
  forall fuel first a bs, I a -> accepts (members fuel first a f) I bs.
Proof.
  intros Hf fuel. induction fuel as [|fuel IH]; intros first a bs Ha; cbn [members]; [by apply wp_throw|].
  eapply accepts_bind; [apply accepts_any|]. intros [[key|] first'] bs' _; [|by apply wp_ret].
  eapply accepts_bind; [by apply Hf|]. intros a' bs'' Ha'. by apply IH.
Qed.

Lemma accepts_object {A} (I : A -> Prop) f (a : A) bs :
  I a -> (forall a key bs, I a -> accepts (f a key) I bs) -> accepts (object a f) I bs.
Proof.
  intros Ha Hf. do 2 (eapply accepts_bind; [apply accepts_any|]; intros ? ? _). by apply accepts_members.
Qed.

Lemma accepts_number bs : accepts number in_u64 bs.
Proof.
  assert (forall bs read v n rest, in_u64 v -> number_loop read v bs = Ok (n, rest) -> in_u64 n) as Hloop.
  { intros l. induction l as [|b l IH]; intros read v n rest Hv; cbn [number_loop]; [by intros [= <- _]|].
    destruct (is_ascii_digit b) eqn:Hb; [|by intros [= <- _]]. destruct (_ =? _)%nat; [done|].
    destruct (checked_mul u64_max v 10) as [m|] eqn:Hm; [|done]. cbn [mbind option_bind].
    destruct (checked_add u64_max m (digit b)) as [v'|] eqn:Ha; [|done]. apply IH.
    apply digit_range in Hb. revert Hm Ha Hv. machine. repeat case_match; try done; intros [= <-] [= <-]; lia. }
  do 2 (eapply accepts_bind; [apply accepts_any|]; intros ? ? _). case_match; [by apply wp_throw|].
  apply wp_bind, wp_fail_if; [|done]. intros Hd%negb_false_iff. apply digit_range in Hd.
  eapply accepts_bind; [apply accepts_any|]; intros ? ? _. apply wp_bind, wp_result.
  destruct (number_loop _ _ _) as [[n rest]|] eqn:Hn; [|done]. apply Hloop in Hn; [|machine; lia].
  eapply accepts_bind; [apply accepts_any|]; intros ? ? _. by apply wp_ret.
Qed.

Lemma accepts_pair left_key right_key bs :
  accepts (parse_number_pair left_key right_key) (fun p => in_u64 (fst p) /\ in_u64 (snd p)) bs.
Proof.
  eapply accepts_bind.
  { apply (accepts_object (fun p => (forall n, pf_left p = Some n -> in_u64 n)
      /\ (forall n, pf_right p = Some n -> in_u64 n))); [done|].
    intros p key bs' [Hl Hr]. unfold pair_field.
    destruct (bool_decide _); [|destruct (bool_decide _); [|by apply wp_throw]];
      (eapply accepts_bind; [apply accepts_any|]; intros ? ? _; eapply accepts_bind; [apply accepts_number|];
       intros n ? Hn; apply wp_ret; cbn; split; [intros m|intros m]; first [by intros [= <-]|eauto]). }
  intros p bs' [Hl Hr]. eapply accepts_bind; [apply accepts_any|]; intros ? ? _.
  apply wp_bind, wp_option. case_match; [|done]. apply wp_bind, wp_option. case_match; [|done].
  apply wp_ret. cbn. eauto.
Qed.

Lemma accepts_bounds bs : accepts parse_range_bounds bounds_u64 bs.
Proof.
  do 2 (eapply accepts_bind; [apply accepts_any|]; intros ? ? _).
  apply wp_bind, wp_option. case_match; [|done].
  eapply (accepts_bind _ _ (fun p => in_u64 (fst p) /\ in_u64 (snd p))).
  { repeat (destruct (bool_decide _)); first [apply accepts_pair|by apply wp_throw]. }
  intros [x y] ? Hxy. do 2 (eapply accepts_bind; [apply accepts_any|]; intros ? ? _).
  apply wp_option. unfold bounds_from_wire_parts. repeat (destruct (bool_decide _)); done.
Qed.

Lemma accepts_range bs : accepts parse_completeness_range range_wf bs.
Proof.
  eapply accepts_bind.
  { apply (accepts_object (fun r => forall b, rx_bounds r = Some b -> bounds_u64 b)); [done|].
    intros r key bs' Hb. unfold range_field. repeat (destruct (bool_decide _));
      first [by apply wp_throw|eapply accepts_bind; [apply accepts_any|]; intros ? ? _].
    all: first [eapply accepts_bind; [apply accepts_bounds|]; intros v ? Hv; apply wp_ret; by intros b [= <-]
               |eapply accepts_bind; [apply accepts_any|]; intros v ? _; by apply wp_ret]. }
  intros r bs' Hb. eapply accepts_bind; [apply accepts_any|]; intros ? ? _.
  do 4 (apply wp_bind, wp_option; case_match; [|done]). apply wp_option. case_match eqn:Ht; [|done].
  eapply typed_range_sound; [|exact Ht]. by apply Hb.
Qed.

Lemma accepts_payload bs : accepts parse_discontinuity_payload (fun d => range_wf (pd_evidence d)) bs.
Proof.
  do 2 (eapply accepts_bind; [apply accepts_any|]; intros ? ? _).
  apply wp_bind, wp_option. case_match; [|done]. eapply accepts_bind; [apply accepts_any|]; intros ? ? _.
  apply (accepts_bind _ _ (fun d => range_wf (pd_evidence d))).
  2: { intros d ? Hd. do 3 (eapply accepts_bind; [apply accepts_any|]; intros ? ? _). by apply wp_ret. }
  eapply accepts_bind.
  { apply (accepts_object (fun o => forall r, ox_evidence o = Some r -> range_wf r)); [done|].
    intros o key ? Ho. unfold object_field. repeat (destruct (bool_decide _));
      first [by apply wp_throw|eapply accepts_bind; [apply accepts_any|]; intros ? ? _].
    all: first [eapply accepts_bind; [apply accepts_range|]; intros v ? Hv; apply wp_ret; by intros b [= <-]
               |eapply accepts_bind; [apply accepts_any|]; intros v ? _; by apply wp_ret]. }
  intros o ? Ho. eapply accepts_bind; [apply accepts_any|]; intros ? ? _.
  do 2 (apply wp_bind, wp_option; case_match; [|done]). apply wp_ret. cbn. eauto.
Qed.

Lemma decode_sound payload d : decode_discontinuity_payload payload = Ok d -> range_wf (pd_evidence d).
Proof.
  unfold decode_discontinuity_payload. pose proof (accepts_payload payload tt) as Ha.
  destruct (parse_discontinuity_payload payload tt) as [[[d'|e] bs] w]; [|done]. cbn. by intros [= ->].
Qed.

(** C32: discontinuity payloads round-trip.  The text [serde_json] writes for a
    discontinuity is decoded to that discontinuity exactly when its evidence is
    a well-formed range, and whatever text the parser accepts (any white space
    and order of members), the evidence it returns is well formed, so that the
    canonical text denotes the same value. *)
Theorem discontinuity_roundtrip (d : ParsedDiscontinuity) (payload : bytes) :
  (decode_discontinuity_payload (render d) = Ok d <-> range_wf (pd_evidence d))
  /\ (decode_discontinuity_payload payload = Ok d -> decode_discontinuity_payload (render d) = Ok d).
Proof.
  split; [split; [apply decode_sound|apply decode_render]|]. intros Hd%decode_sound. by apply decode_render.
Qed.
