(* ===== verification/Registers.v ===== *)
(** * Register state at an event

    Models [qtrace-analysis/src/registers.rs].  [build] walks the rows of the
    store once, keeps the register events of every thread with checkpoints of
    the state every 4096 events and an index of the events that invalidate it;
    [state_at] answers a query from the nearest checkpoint.  An invalidation
    without a thread counts for every thread of its timeline and is applied
    lazily. *)

From stdpp Require Import prelude list strings gmap.
From Stdlib Require Import ZArith Lia Strings.Byte.
From S2P Require Import Prelude Prog Control Model FlightContext Answers Index Analysis Discontinuity.
Local Open Scope string_scope.
Local Open Scope list_scope.
Local Open Scope Z_scope.

Definition CHECKPOINT_EVENTS : Z := 4096.

Definition ScopeKey : Type := TimelineId * option Z.

Record RegisterCell := mkCell {
  cl_value : option Z;
  cl_known_mask : Z;
  cl_captured_width : Z;
  cl_provenance : Provenance;
  cl_evidence : option EventKey
}.

(** [RegisterSnapshotState]: an array of 34 cells. *)
Definition RegisterSnapshotState : Type := list RegisterCell.

Record RegisterStateAtEvent := mkStateAtEvent {
  sa_key : EventKey;
  sa_before : RegisterSnapshotState;
  sa_after : RegisterSnapshotState
}.

Record ReplayEvent := mkReplayEvent {
  re_row : nat;
  re_observations_start : nat;
  re_observations_end : nat;
  re_invalidates : bool
}.

Record ReplayCheckpoint := mkReplayCheckpoint {
  rk_event_index : nat;
  rk_row : nat;
  rk_state : RegisterSnapshotState
}.

Record ScopeReplay := mkScopeReplay {
  sp_events : Vec ReplayEvent;
  sp_invalidations : Vec nat;
  sp_checkpoints : Vec ReplayCheckpoint;
  sp_build_state : RegisterSnapshotState;
  sp_since_checkpoint : Z;
  sp_last_global_row : option nat
}.

(** ** Cells *)

Definition unknown_cell : RegisterCell := mkCell None 0 0 ProvUnknown None.
Definition unknown_snapshot : RegisterSnapshotState := replicate (Z.to_nat REGISTER_SLOT_COUNT) unknown_cell.

Definition ScopeReplay_new : ScopeReplay := mkScopeReplay vec_new vec_new vec_new unknown_snapshot 0 None.

Definition mark_derived_cell (c : RegisterCell) : RegisterCell :=
  if negb (cl_known_mask c =? 0) && bool_decide (cl_provenance c = Captured)
  then mkCell (cl_value c) (cl_known_mask c) (cl_captured_width c) Derived (cl_evidence c)
  else c.
Definition mark_derived (state : RegisterSnapshotState) : RegisterSnapshotState := map mark_derived_cell state.

Definition invalidate (key : EventKey) (state : RegisterSnapshotState) : RegisterSnapshotState :=
  map (fun _ => mkCell None 0 0 Damaged (Some key)) state.

Definition low_mask (width : Z) : Z := if width * 8 =? 64 then u64_max else Z.shiftl 1 (width * 8) - 1.

Definition apply_observation (state : RegisterSnapshotState) (o : RegisterObservationRow) (key : EventKey)
    (zero_extend_w : bool) : result AnalysisError RegisterSnapshotState :=
  match slot_from_index (or_slot o) with
  | None => Err (state_invalid "register observation slot is invalid")
  | Some slot =>
      if (or_captured_width o =? 0) || (or_captured_width o >? 8)
      then Err (state_invalid "register observation width is outside 1..=8")
      else Ok (<[Z.to_nat (slot_index slot) :=
                 mkCell (Some (Z.land (or_value o) (low_mask (or_captured_width o))))
                   (if zero_extend_w then u64_max else low_mask (or_captured_width o))
                   (or_captured_width o) (or_provenance o) (Some key)]> state)
  end.

Definition is_non_write (o : RegisterObservationRow) : bool :=
  negb (bool_decide (or_access o = AccessWrite)) && negb (bool_decide (or_provenance o = Damaged)).
Definition is_write (o : RegisterObservationRow) : bool :=
  bool_decide (or_access o = AccessWrite) && negb (bool_decide (or_provenance o = Damaged)).

(** [is_reliable_full_checkpoint] *)
Fixpoint checkpoint_mask (mask : Z) (observations : list RegisterObservationRow) : option Z :=
  match observations with
  | [] => Some mask
  | o :: observations =>
      if negb (bool_decide (or_access o = AccessCheckpoint)) || bool_decide (or_provenance o = Damaged)
         || (or_slot o >=? REGISTER_SLOT_COUNT)
      then None
      else checkpoint_mask (Z.lor mask (Z.shiftl 1 (or_slot o))) observations
  end.
Definition is_reliable_full_checkpoint (observations : list RegisterObservationRow) : bool :=
  (zlen observations =? REGISTER_SLOT_COUNT)
  && match checkpoint_mask 0 observations with
     | Some mask => mask =? Z.shiftl 1 REGISTER_SLOT_COUNT - 1
     | None => false
     end.

(** ** Names of 32-bit registers *)

(** [str::parse::<u8>]: an optional plus sign, then digits. *)
Fixpoint parse_u8_digits (v : Z) (bs : bytes) : option Z :=
  match bs with
  | [] => Some v
  | b :: bs =>
      if is_ascii_digit b
      then v ← checked_mul u8_max v 10; v ← checked_add u8_max v (digit b); parse_u8_digits v bs
      else None
  end.
Definition parse_u8 (bs : bytes) : option Z :=
  let digits := match bs with x2b :: rest => rest | _ => bs end in
  match digits with
  | [] => None
  | _ => parse_u8_digits 0 digits
  end.

Definition ascii_lower (b : byte) : byte := if in_range b 65 90 then byte_of_Z (Z_of_byte b + 32) else b.
Definition eq_ignore_ascii_case (a b : bytes) : bool := bool_decide (map ascii_lower a = map ascii_lower b).

(** The closure of [definition.writes.iter().any(..)]. *)
Definition w_write (o : RegisterObservationRow) (write : RegisterDefinition) : bool :=
  if negb (rd_slot write =? or_slot o) || negb (rd_captured_width write =? 4) then false
  else if or_slot o =? slot_index Sp
  then eq_ignore_ascii_case (rd_name write) (String.list_byte_of_string "wsp")
  else match rd_name write with
       | b :: suffix => bool_decide (b ∈ [x77; x57]) && bool_decide (parse_u8 suffix = Some (or_slot o))
       | [] => false
       end.

Section registers.
Context {W : Type} `{WorkGuard W} `{Allocator W} `{SerdeJson} (store : StoreView).
Abbreviation M := (Prog W AnalysisError unit).

Definition is_canonical_w_write (owner_row : nat) (o : RegisterObservationRow) : M bool :=
  if negb (or_captured_width o =? 4) then ret false
  else match sv_instruction store owner_row with
  | None => ret false
  | Some instruction =>
      match ir_definition instruction with
      | None => ret false
      | Some definition_id =>
          let! definition := lift_option (sv_definition store definition_id)
            (state_invalid "instruction definition is missing") in
          let! bs := from_store (sv_blob_bytes store (dr_exact_blob definition)) in
          charge_bytes bs ;!
          let scratch := saturating_mul usize_max (zlen bs) 4 in
          let! definition := state_scope scratch scratch
            (lift_option (definition_from_slice bs)
               (state_invalid "instruction definition payload is malformed")) in
          ret (existsb (w_write o) (id_writes definition))
      end
  end.

Definition discontinuity_affects_registers (row : nat) : M bool :=
  let! bs := from_store (sv_payload_bytes store row) in
  match bs with
  | [] => ret true
  | _ =>
      charge_bytes bs ;!
      let! discontinuity := lift_result (decode_discontinuity_payload bs) in
      ret (negb (bool_decide (cr_domain (pd_evidence discontinuity) = MemoryAddresses)))
  end.

Definition apply_non_writes (state : RegisterSnapshotState) (observations : list RegisterObservationRow)
    (key : EventKey) : M RegisterSnapshotState :=
  fold_each (List.filter is_non_write observations) state (fun state o =>
    lift_result (apply_observation state o key false)).

Definition apply_writes (state : RegisterSnapshotState) (owner_row : nat) (key : EventKey)
    (observations : list RegisterObservationRow) : M RegisterSnapshotState :=
  fold_each (List.filter is_write observations) state (fun state o =>
    let! zero_extend := is_canonical_w_write owner_row o in
    lift_result (apply_observation state o key zero_extend)).

Definition apply_before (state : RegisterSnapshotState) (key : EventKey) (invalidates : bool)
    (observations : list RegisterObservationRow) : M RegisterSnapshotState :=
  apply_non_writes (mark_derived (if invalidates then invalidate key state else state)) observations key.

Definition apply_transition (state : RegisterSnapshotState) (event : ReplayEvent) (key : EventKey)
    (observations : list RegisterObservationRow) : M RegisterSnapshotState :=
  let! state := apply_non_writes
    (mark_derived (if re_invalidates event then invalidate key state else state)) observations key in
  apply_writes state (re_row event) key observations.

(** [&observations[event.observations_start..event.observations_end]] *)
Definition event_observations (event : ReplayEvent) : list RegisterObservationRow :=
  take (re_observations_end event - re_observations_start event)
    (drop (re_observations_start event) (sv_register_observation_rows store)).

Definition apply_stored_event (state : RegisterSnapshotState) (event : ReplayEvent) : M RegisterSnapshotState :=
  charge_work (delta_rows 1) ;!
  let! key := from_store (sv_event_key store (re_row event)) in
  let! key := lift_option key (state_invalid "invalidation event has no key") in
  apply_transition state event key (event_observations event).

(** ** Building *)

Definition append_build_event (scope : ScopeReplay) (event : ReplayEvent) (key : EventKey)
    (observations : list RegisterObservationRow) : M ScopeReplay :=
  let! events := state_push T_ReplayEvent (sp_events scope) event "state index" "register event index" in
  let! invalidations :=
    if re_invalidates event
    then state_push T_usize (sp_invalidations scope) (length (v_items events) - 1)%nat
           "state index" "register invalidation index"
    else ret (sp_invalidations scope) in
  let! state := apply_transition (sp_build_state scope) event key observations in
  let since := saturating_add usize_max (sp_since_checkpoint scope) 1 in
  if is_reliable_full_checkpoint observations || (since =? CHECKPOINT_EVENTS) then
    let! checkpoints := state_push T_ReplayCheckpoint (sp_checkpoints scope)
      (mkReplayCheckpoint (length (v_items events) - 1) (re_row event) state)
      "state index" "register checkpoint index" in
    ret (mkScopeReplay events invalidations checkpoints state 0 (sp_last_global_row scope))
  else
    ret (mkScopeReplay events invalidations (sp_checkpoints scope) state since (sp_last_global_row scope)).

(** [reserve_hash_map] *)
Definition reserve_scopes (len additional : Z) : M unit := fun s w =>
  if additional <=? saturating_sub (map_capacity RegisterScopes w) len then (Ok tt, s, w)
  else
    (let! required := lift_option (checked_add usize_max len additional)
       (state_hard_limit "register scope count overflows") in
     let! buckets := lift_option (hash_buckets required) (state_hard_limit "register scope buckets overflow") in
     let slack := saturating_sub (align_of T_scope_entry) 1 in
     let! bytes := lift_option
       (b0 ← checked_mul usize_max buckets (size_of T_scope_entry);
        b1 ← checked_add usize_max b0 slack;
        b2 ← checked_add usize_max b1 buckets;
        b3 ← checked_add usize_max b2 16;
        try_from u64_max b3)
       (state_hard_limit "register scope allocation overflows") in
     state_scope bytes slack (fun s w =>
       match map_grow RegisterScopes (len + additional) w with
       | (true, w') => (Ok tt, s, w')
       | (false, w') => (Err (state_hard_limit "register scope allocation failed"), s, w')
       end)) s w.

Definition register_kind (kind : EventKind) : bool :=
  match kind with
  | KInstruction | KRegisterCheckpoint | KRegisterDelta | KDiscontinuity => true
  | _ => false
  end.

(** [scopes] and [observation]. *)
Record BuildState := mkBuildState {
  bs_scopes : gmap ScopeKey ScopeReplay;
  bs_observation : nat
}.

Definition damaged_delta (o : RegisterObservationRow) : bool :=
  bool_decide (or_access o = AccessDelta) && bool_decide (or_provenance o = Damaged).

Definition row_invalidates (context : option QueryContext) (row : nat) (kind : EventKind)
    (observations : list RegisterObservationRow) : M bool :=
  let! discontinuous :=
    if bool_decide (kind = KDiscontinuity) then
      match context with
      | Some context =>
          let! evidence := lift_option (discontinuity_evidence context row)
            (state_invalid "discontinuity evidence is absent") in
          ret (negb (bool_decide (xr_domain evidence = MemoryAddresses)))
      | None => discontinuity_affects_registers row
      end
    else ret false in
  ret (discontinuous || existsb damaged_delta observations).

(** The last invalidation of the timeline-wide scope. *)
Definition global_event (scopes : gmap ScopeKey ScopeReplay) (key : EventKey) : option ReplayEvent :=
  _ ← ek_tid key;
  global ← scopes !! ((ek_timeline key, None) : ScopeKey);
  index ← last (v_items (sp_invalidations global));
  v_items (sp_events global) !! index.

Definition set_global (state : RegisterSnapshotState) (row : nat) (scope : ScopeReplay) : ScopeReplay :=
  mkScopeReplay (sp_events scope) (sp_invalidations scope) (sp_checkpoints scope) state
    (sp_since_checkpoint scope) (Some row).

Definition build_event (st : gmap ScopeKey ScopeReplay) (event : ReplayEvent) (key : EventKey)
    (observations : list RegisterObservationRow) : M (gmap ScopeKey ScopeReplay) :=
  let global := global_event st key in
  let scope_key : ScopeKey := (ek_timeline key, ek_tid key) in
  let! scope :=
    match st !! scope_key with
    | Some scope => ret scope
    | None => reserve_scopes (Z.of_nat (size st)) 1 ;! ret ScopeReplay_new
    end in
  let! scope :=
    match global with
    | Some global =>
        if bool_decide (sp_last_global_row scope = Some (re_row global)) then ret scope
        else
          let! state := apply_stored_event (sp_build_state scope) global in
          ret (set_global state (re_row global) scope)
    | None => ret scope
    end in
  let! scope := append_build_event scope event key observations in
  ret (<[scope_key := scope]> st).

Definition build_row (context : option QueryContext) (st : BuildState) (row : nat) : M BuildState :=
  let observations := sv_register_observation_rows store in
  let start := (bs_observation st
    + count_while (fun o => (or_owner_row o <? row)%nat) (drop (bs_observation st) observations))%nat in
  let stop := (start + count_while (fun o => (or_owner_row o =? row)%nat) (drop start observations))%nat in
  let skipped := mkBuildState (bs_scopes st) stop in
  let! key := from_store (sv_event_key store row) in
  match key with
  | None => ret skipped
  | Some key =>
      let! kind := from_store (sv_event_kind store row) in
      match kind with
      | None => ret skipped
      | Some kind =>
          if negb (register_kind kind) then ret skipped
          else
            let row_observations := take (stop - start) (drop start observations) in
            let! invalidates := row_invalidates context row kind row_observations in
            let! scopes := build_event (bs_scopes st) (mkReplayEvent row start stop invalidates) key
              row_observations in
            ret (mkBuildState scopes stop)
      end
  end.

(** [chunk.windows(2).any(|pair| pair[0].owner_row > pair[1].owner_row)] *)
Fixpoint descends (rows : list nat) : bool :=
  match rows with
  | a :: (b :: _) as rest => (b <? a)%nat || descends rest
  | _ => false
  end.

(** One turn of the check of the order; [previous] is the last row of the chunk before. *)
Definition check_order_turn (previous : option nat) (chunk : list RegisterObservationRow) : M (option nat) :=
  charge_work (delta_rows (length chunk)) ;!
  let rows := map or_owner_row chunk in
  fail_if (descends rows || match previous, head rows with Some p, Some r => (r <? p)%nat | _, _ => false end)
    (state_invalid "register observations are not ordered by owner row") ;!
  ret (last rows).

Definition build (context : option QueryContext) : M (gmap ScopeKey ScopeReplay) :=
  fold_each (chunks WORK_CHUNK (sv_register_observation_rows store)) None check_order_turn ;!
  let! st := charged_fold delta_rows (seq 0 (sv_event_count store)) (mkBuildState ∅ 0) (build_row context) in
  ret (bs_scopes st).

(** ** Answering *)

(** One turn per fuel unit; [high - low] shrinks. *)
Fixpoint upper_bound_loop (fuel : nat) (before : nat -> bool) (low high : nat) : M nat :=
  match fuel with
  | O => ret low
  | S fuel =>
      if (low <? high)%nat then
        charge_work (delta_nodes 1) ;!
        let middle := (low + (high - low) / 2)%nat in
        if before middle then upper_bound_loop fuel before (middle + 1) high
        else upper_bound_loop fuel before low middle
      else ret low
  end.
Definition guarded_upper_bound (len : nat) (before : nat -> bool) : M nat :=
  upper_bound_loop (S len) before 0 len.

Definition row_at_most (target : nat) (event : option ReplayEvent) : bool :=
  match event with Some event => (re_row event <=? target)%nat | None => false end.

Definition last_invalidation (scope : ScopeReplay) (target : nat) : M (option (nat * ReplayEvent)) :=
  let events := v_items (sp_events scope) in
  let invalidations := v_items (sp_invalidations scope) in
  let! stop := guarded_upper_bound (length invalidations) (fun index =>
    row_at_most target (invalidations !! index ≫= fun i => events !! i)) in
  ret (index ← match stop with O => None | S index => Some index end;
       event_index ← invalidations !! index;
       event ← events !! event_index;
       Some (event_index, event)).

(** One turn over the events to replay. *)
Definition replay_turn (target : nat) (query : EventKey) (state : RegisterSnapshotState) (event : ReplayEvent) :
    M (RegisterSnapshotState + RegisterStateAtEvent) :=
  let! row_key := from_store (sv_event_key store (re_row event)) in
  let! row_key := lift_option row_key (state_invalid "event row has no key") in
  let observations := event_observations event in
  if (re_row event =? target)%nat then
    let! before := apply_before state row_key (re_invalidates event) observations in
    let! after := apply_writes before (re_row event) row_key observations in
    ret (inr (mkStateAtEvent query before after))
  else
    let! state := apply_transition state event row_key observations in
    ret (inl state).

Definition state_at (scopes : gmap ScopeKey ScopeReplay) (key : EventKey) : M RegisterStateAtEvent :=
  let! target := lift_option (sv_row_for_source_key store key)
    (state_invalid "event key is not in this trace") in
  let! global :=
    match ek_tid key, scopes !! ((ek_timeline key, None) : ScopeKey) with
    | Some _, Some scope => let! found := last_invalidation scope target in ret (snd <$> found)
    | _, _ => ret None
    end in
  match scopes !! ((ek_timeline key, ek_tid key) : ScopeKey) with
  | None =>
      let! state := match global with
        | Some global => apply_stored_event unknown_snapshot global
        | None => ret unknown_snapshot
        end in
      ret (mkStateAtEvent key state state)
  | Some scope =>
      let events := v_items (sp_events scope) in
      let checkpoints := v_items (sp_checkpoints scope) in
      let! event_end := guarded_upper_bound (length events) (fun index =>
        row_at_most target (events !! index)) in
      let! checkpoint_end := guarded_upper_bound (length checkpoints) (fun index =>
        match checkpoints !! index with Some c => (rk_row c <? target)%nat | None => false end) in
      let '(state, replay_start, state_row) :=
        match (index ← match checkpoint_end with O => None | S index => Some index end;
               checkpoints !! index) with
        | Some checkpoint => (rk_state checkpoint, rk_event_index checkpoint + 1, Some (rk_row checkpoint))%nat
        | None => (unknown_snapshot, O, None)
        end in
      let! invalidation := last_invalidation scope target in
      let '(state, replay_start, state_row) :=
        match invalidation with
        | Some (index, event) =>
            if (replay_start <=? index)%nat then (unknown_snapshot, index, Some (re_row event))
            else (state, replay_start, state_row)
        | None => (state, replay_start, state_row)
        end in
      let! restart :=
        match global with
        | Some global =>
            if match state_row with Some row => (row <? re_row global)%nat | None => true end then
              let! state := apply_stored_event unknown_snapshot global in
              let! replay_start := guarded_upper_bound (length events) (fun index =>
                row_at_most (re_row global) (events !! index)) in
              ret (state, replay_start)
            else ret (state, replay_start)
        | None => ret (state, replay_start)
        end in
      let '(state, replay_start) := restart in
      let! found := charged_find delta_rows (drop replay_start (take event_end events)) state
        (replay_turn target key) in
      match found with
      | inr answer => ret answer
      | inl state => ret (mkStateAtEvent key state state)
      end
  end.

End registers.
