(* ===== verification/RegisterReplay.v ===== *)
(** * The register state by plain replay

    The reference [Registers] is compared with: start from unknown registers and
    apply, row by row, every register event of the thread and every
    timeline-wide invalidation.  No checkpoint, no index, no lazy application.
    [build] keeps its tables in step with it and [state_at] returns its states. *)

From stdpp Require Import prelude list sorting strings gmap.
From Stdlib Require Import ZArith Lia Strings.Byte Sorted.
From S2P Require Import Prelude Prog Control Model FlightContext Answers Index Analysis Discontinuity Registers.
Local Open Scope string_scope.
Local Open Scope list_scope.

Section replay.
Context {W : Type} `{WorkGuard W} `{Allocator W} `{SerdeJson}.
Context (store : StoreView) (context : option QueryContext).
Abbreviation M := (Prog W AnalysisError unit).
Implicit Types (k : ScopeKey) (n m : nat) (st : RegisterSnapshotState).

(** ** The reference *)

(** What [is_canonical_w_write] answers; [None] where it fails. *)
Definition canonical_w (row : nat) (o : RegisterObservationRow) : option bool :=
  if negb (or_captured_width o =? 4)%Z then Some false
  else match sv_instruction store row ≫= ir_definition with
       | None => Some false
       | Some id =>
           definition ← sv_definition store id;
           match sv_blob_bytes store (dr_exact_blob definition) with
           | Ok bs => definition ← definition_from_slice bs; Some (existsb (w_write o) (id_writes definition))
           | Err _ => None
           end
       end.

Definition put_observation (key : EventKey) (zero_extend : bool) st (o : RegisterObservationRow) :
    RegisterSnapshotState :=
  match apply_observation st o key zero_extend with Ok st => st | Err _ => st end.

Record TraceEvent := mkTraceEvent {
  te_row : nat;
  te_key : EventKey;
  te_observations : list RegisterObservationRow;
  te_invalidates : bool
}.

Definition after_reads (e : TraceEvent) st : RegisterSnapshotState :=
  foldl (put_observation (te_key e) false)
    (mark_derived (if te_invalidates e then invalidate (te_key e) st else st))
    (List.filter is_non_write (te_observations e)).
Definition after_writes (e : TraceEvent) st : RegisterSnapshotState :=
  foldl (fun st o => put_observation (te_key e) (default false (canonical_w (te_row e) o)) st o) st
    (List.filter is_write (te_observations e)).
Definition step_event st (e : TraceEvent) : RegisterSnapshotState := after_writes e (after_reads e st).

(** What [row_invalidates] answers; [None] where it fails. *)
Definition invalidating (row : nat) (kind : EventKind) (observations : list RegisterObservationRow) : option bool :=
  discontinuous ←
    (if bool_decide (kind = KDiscontinuity) then
       match context with
       | Some context =>
           evidence ← discontinuity_evidence context row;
           Some (negb (bool_decide (xr_domain evidence = MemoryAddresses)))
       | None =>
           match sv_payload_bytes store row with
           | Ok [] => Some true
           | Ok bs => match decode_discontinuity_payload bs with
                      | Ok d => Some (negb (bool_decide (cr_domain (pd_evidence d) = MemoryAddresses)))
                      | Err _ => None
                      end
           | Err _ => None
           end
       end
     else Some false);
  Some (discontinuous || existsb damaged_delta observations).

Definition observations_of (row : nat) : list RegisterObservationRow :=
  List.filter (fun o => (or_owner_row o =? row)%nat) (sv_register_observation_rows store).

(** The register event of a row, if it is one. *)
Definition trace_event (row : nat) : option TraceEvent :=
  match sv_event_key store row, sv_event_kind store row with
  | Ok (Some key), Ok (Some kind) =>
      if register_kind kind
      then Some (mkTraceEvent row key (observations_of row)
                   (default false (invalidating row kind (observations_of row))))
      else None
  | _, _ => None
  end.

Definition scope_of (e : TraceEvent) : ScopeKey := (ek_timeline (te_key e), ek_tid (te_key e)).
Definition own k (e : TraceEvent) : bool := bool_decide (scope_of e = k).
(** An invalidation of the whole timeline, seen from a thread. *)
Definition global k (e : TraceEvent) : bool :=
  bool_decide (is_Some (snd k)) && bool_decide (scope_of e = (fst k, None)) && te_invalidates e.
Definition relevant k (e : TraceEvent) : bool := own k e || global k e.

Definition events_in (from len : nat) : list TraceEvent := omap trace_event (seq from len).
Definition replay k n : RegisterSnapshotState :=
  foldl step_event unknown_snapshot (List.filter (relevant k) (events_in 0 n)).

(** The answer for a key stored at [target]. *)
Definition state_spec (key : EventKey) (target : nat) : RegisterStateAtEvent :=
  let st := replay (ek_timeline key, ek_tid key) target in
  match trace_event target with
  | Some e => mkStateAtEvent key (after_reads e st) (step_event st e)
  | None => mkStateAtEvent key st st
  end.

(** ** When a store can be replayed *)

Definition row_observation_ok (row : nat) (o : RegisterObservationRow) : Prop :=
  or_provenance o <> Damaged ->
  is_Some (slot_from_index (or_slot o)) /\ (or_captured_width o <> 0 /\ or_captured_width o <= 8)%Z
  /\ (or_access o = AccessWrite -> is_Some (canonical_w row o)).

Definition row_ok (row : nat) : Prop :=
  match sv_event_key store row with
  | Err _ => False
  | Ok None => True
  | Ok (Some key) =>
      match sv_event_kind store row with
      | Err _ => False
      | Ok None => True
      | Ok (Some kind) =>
          register_kind kind = true ->
          is_Some (invalidating row kind (observations_of row))
          /\ Forall (row_observation_ok row) (observations_of row)
      end
  end.

Record replayable : Prop := mkReplayable {
  ry_ordered : Sorted le (map or_owner_row (sv_register_observation_rows store));
  ry_rows : forall row, row < sv_event_count store -> row_ok row
}.

(** ** Lists of events *)

Lemma events_in_app from a b : events_in from (a + b) = events_in from a ++ events_in (from + a) b.
Proof. unfold events_in. by rewrite seq_app, omap_app. Qed.

Lemma events_in_snoc n : events_in 0 (S n) = events_in 0 n ++ option_list (trace_event n).
Proof.
  replace (S n) with (n + 1) by lia. rewrite events_in_app. cbn [Nat.add].
  unfold events_in at 2. cbn. by destruct (trace_event n).
Qed.

Lemma trace_event_row row e : trace_event row = Some e -> te_row e = row.
Proof. unfold trace_event. repeat case_match; try done. by intros [= <-]. Qed.

Lemma events_in_range from len e : e ∈ events_in from len -> from <= te_row e < from + len /\ trace_event (te_row e) = Some e.
Proof.
  unfold events_in. rewrite list_elem_of_omap. intros (row & Hrow%elem_of_seq & He).
  pose proof (trace_event_row _ _ He) as ->. done.
Qed.

Lemma events_in_elem from len row e :
  from <= row < from + len -> trace_event row = Some e -> e ∈ events_in from len.
Proof. intros Hrow He. apply list_elem_of_omap. exists row. split; [by apply elem_of_seq|done]. Qed.

Lemma rows_increase from len : StronglySorted lt (map te_row (events_in from len)).
Proof.
  revert from. induction len as [|len IH]; intros from; [constructor|].
  change (S len) with (1 + len). rewrite events_in_app. unfold events_in at 1. cbn [seq omap list_omap].
  destruct (trace_event from) as [e|] eqn:He; cbn; rewrite Nat.add_1_r; [|apply IH].
  constructor; [apply IH|]. apply Forall_map, Forall_forall. intros e' He'.
  apply events_in_range in He' as [? _]. apply trace_event_row in He as ->. lia.
Qed.

(** Events of a range that satisfy [f]. *)
Definition among (f : TraceEvent -> bool) from len : list TraceEvent := List.filter f (events_in from len).

Lemma among_app f from a b : among f from (a + b) = among f from a ++ among f (from + a) b.
Proof. unfold among. rewrite events_in_app. apply List.filter_app. Qed.

Lemma among_split f n m : m <= n -> among f 0 n = among f 0 m ++ among f m (n - m).
Proof. intros Hm. rewrite <- among_app. do 2 f_equal. lia. Qed.

Lemma among_elem f from len e :
  e ∈ among f from len <-> f e = true /\ from <= te_row e < from + len /\ trace_event (te_row e) = Some e.
Proof.
  unfold among. rewrite list_elem_of_In, List.filter_In, <- list_elem_of_In. split.
  - intros [He%events_in_range Hf]. tauto.
  - intros (Hf & Hr & He). split; [by eapply events_in_elem|done].
Qed.

Lemma among_snoc f n : among f 0 (S n) = among f 0 n ++ match trace_event n with
  | Some e => if f e then [e] else [] | None => [] end.
Proof.
  unfold among. rewrite events_in_snoc, List.filter_app. f_equal. destruct (trace_event n); [|done]. cbn.
  by destruct (f t).
Qed.

Lemma among_sorted f from len : StronglySorted lt (map te_row (among f from len)).
Proof.
  unfold among. pose proof (rows_increase from len) as Hs. induction (events_in from len) as [|e l IH]; [constructor|].
  cbn in *. inversion_clear Hs as [|? ? Hl Hall]. destruct (f e); cbn; [|by apply IH].
  constructor; [by apply IH|]. rewrite Forall_map in *. apply Forall_forall. intros e' He'.
  rewrite Forall_forall in Hall. apply Hall. rewrite list_elem_of_In, List.filter_In, <- list_elem_of_In in He'. tauto.
Qed.

Lemma among_nil f from len : (forall e, e ∈ among f from len -> False) -> among f from len = [].
Proof. intros Hn. destruct (among f from len) as [|e l] eqn:E; [done|]. destruct (Hn e). left. Qed.

Lemma among_ext f g from len :
  (forall e, from <= te_row e < from + len -> trace_event (te_row e) = Some e -> f e = g e) ->
  among f from len = among g from len.
Proof.
  intros Hfg. unfold among. apply List.filter_ext_in. intros e He. rewrite <- list_elem_of_In in He.
  apply events_in_range in He as [? ?]. by apply Hfg.
Qed.

(** ** Invalidations forget the past *)

Lemma invalidate_reset key st st' : length st = length st' -> invalidate key st = invalidate key st'.
Proof.
  unfold invalidate. revert st'. induction st as [|c st IH]; intros [|c' st'] Hl; try done. cbn in *.
  f_equal. apply IH. lia.
Qed.

Lemma length_put key z st o : length (put_observation key z st o) = length st.
Proof.
  unfold put_observation, apply_observation. destruct (slot_from_index _); [|done].
  destruct (_ || _); [done|]. apply length_insert.
Qed.

Lemma length_reads e st : length (after_reads e st) = length st.
Proof.
  unfold after_reads.
  assert (length (mark_derived (if te_invalidates e then invalidate (te_key e) st else st)) = length st) as Hm.
  { unfold mark_derived, invalidate. destruct (te_invalidates e); by rewrite !length_map. }
  revert Hm. generalize (mark_derived (if te_invalidates e then invalidate (te_key e) st else st)).
  induction (List.filter is_non_write (te_observations e)) as [|o l IH]; intros s Hs; [done|].
  cbn. apply IH. by rewrite length_put.
Qed.

Lemma length_step e st : length (step_event st e) = length st.
Proof.
  unfold step_event, after_writes. rewrite <- (length_reads e st). generalize (after_reads e st).
  induction (List.filter is_write (te_observations e)) as [|o l IH]; intros s; [done|].
  cbn. by rewrite IH, length_put.
Qed.

Lemma length_replay_from st l : length (foldl step_event st l) = length st.
Proof. revert st. induction l as [|e l IH]; intros st; [done|]. cbn. by rewrite IH, length_step. Qed.

Lemma reads_reset e st st' :
  te_invalidates e = true -> length st = length st' -> after_reads e st = after_reads e st'.
Proof. intros Hi Hl. unfold after_reads. rewrite Hi. by rewrite (invalidate_reset _ _ _ Hl). Qed.

Lemma step_reset e st st' :
  te_invalidates e = true -> length st = length st' -> step_event st e = step_event st' e.
Proof. intros Hi Hl. unfold step_event. by rewrite (reads_reset _ _ _ Hi Hl). Qed.

Definition full_file st : Prop := length st = Z.to_nat REGISTER_SLOT_COUNT.
Lemma whole_unknown : full_file unknown_snapshot.
Proof. apply length_replicate. Qed.
Lemma whole_replay k n : full_file (replay k n).
Proof. unfold full_file, replay. by rewrite length_replay_from, whole_unknown. Qed.
Lemma whole_length st st' : full_file st -> full_file st' -> length st = length st'.
Proof. unfold full_file. congruence. Qed.

Lemma replay_split k n m : m <= n ->
  replay k n = foldl step_event (replay k m) (among (relevant k) m (n - m)).
Proof.
  intros Hm. unfold replay. change (List.filter (relevant k) (events_in 0 ?n)) with (among (relevant k) 0 n).
  rewrite (among_split _ n m Hm). apply foldl_app.
Qed.

(** ** Own events and global ones *)

Lemma global_not_own k e : global k e = true -> own k e = false.
Proof.
  unfold global, own. destruct k as [tl tid]. cbn. rewrite !andb_true_iff. intros [[Ht Hs] _].
  apply bool_decide_eq_true in Ht, Hs. rewrite Hs. apply bool_decide_eq_false. intros [= <-]. by destruct Ht.
Qed.

Lemma global_invalidates k e : global k e = true -> te_invalidates e = true.
Proof. unfold global. rewrite !andb_true_iff. tauto. Qed.

Lemma no_globals tl e : global (tl, None) e = false.
Proof. unfold global. cbn [snd]. by rewrite bool_decide_eq_false_2 by (by intros [? ?]). Qed.

(** The rows up to and including the last own event. *)
Definition reach k n : nat := match last (among (own k) 0 n) with Some e => S (te_row e) | None => 0 end.

Lemma reach_le k n : reach k n <= n.
Proof.
  unfold reach. destruct (last _) as [e|] eqn:He; [|lia]. apply last_Some_elem_of, among_elem in He. lia.
Qed.

Lemma own_after_reach k n e : e ∈ among (own k) 0 n -> te_row e < reach k n.
Proof.
  unfold reach. intros He. pose proof (among_sorted (own k) 0 n) as Hs.
  destruct (last (among (own k) 0 n)) as [e'|] eqn:Hl; [|apply last_None in Hl; rewrite Hl in He; by apply not_elem_of_nil in He].
  apply last_Some in Hl as [l Hl]. rewrite Hl in *. apply elem_of_app in He as [He|He%list_elem_of_singleton]; [|subst; lia].
  rewrite map_app in Hs. apply StronglySorted_app_1_elem_of with (x1 := te_row e) (x2 := te_row e') in Hs.
  - lia.
  - by apply list_elem_of_fmap_2.
  - cbn. left.
Qed.

(** After the last own event only global invalidations are relevant. *)
Lemma relevant_after_reach k n m :
  reach k n <= m <= n -> among (relevant k) m (n - m) = among (global k) m (n - m).
Proof.
  intros Hm. apply among_ext. intros e Hr He. unfold relevant. destruct (own k e) eqn:Ho; [|done].
  exfalso. assert (e ∈ among (own k) 0 n) as Hin by (apply among_elem; split_and!; [done|lia|lia|done]).
  apply own_after_reach in Hin. lia.
Qed.

(** The state before row [n] from the state after the last own event: the last
    global invalidation decides. *)
Lemma catch_up k n m st : reach k n <= m <= n -> full_file st ->
  match last (among (global k) 0 n) with
  | Some g => if decide (m <= te_row g) then replay k n = step_event st g else replay k n = replay k m
  | None => replay k n = replay k m
  end.
Proof.
  intros Hm Hst. rewrite (replay_split k n m) by lia. rewrite relevant_after_reach by lia.
  rewrite (among_split (global k) n m) by lia.
  destruct (among (global k) m (n - m)) as [|g0 l] eqn:Hl.
  - rewrite app_nil_r. destruct (last (among (global k) 0 m)) as [g|] eqn:Hg; [|done].
    apply last_Some_elem_of, among_elem in Hg. destruct (decide _); [lia|done].
  - destruct (last (g0 :: l)) as [g|] eqn:Hg; [|by apply last_None in Hg].
    rewrite last_app, Hg. pose proof (last_Some_elem_of _ _ Hg) as Hin. rewrite <- Hl in Hin.
    apply among_elem in Hin as (Hgl & Hr & _). destruct (decide _) as [_|]; [|lia].
    apply last_Some in Hg as [l' ->]. rewrite foldl_app. cbn. apply step_reset; [by eapply global_invalidates|].
    rewrite length_replay_from. apply whole_length; [apply whole_replay|done].
Qed.

(** ** The guarded transitions compute the reference *)

Lemma refused_or (P : Prop) e : refused e -> refused e \/ P.
Proof. by left. Qed.

Lemma answers_canonical row o :
  answers (is_canonical_w_write (W := W) store row o) (fun b => canonical_w row o = Some b)
    (fun e => refused e \/ canonical_w row o = None).
Proof.
  unfold is_canonical_w_write, canonical_w. destruct (negb _); [by apply answers_ret|].
  destruct (sv_instruction store row) as [i|]; [|by apply answers_ret]. cbn [mbind option_bind].
  destruct (ir_definition i) as [id|]; [|by apply answers_ret].
  apply answers_bind, answers_option. destruct (sv_definition store id) as [definition|]; [|by right].
  apply answers_bind, answers_result. cbn [mbind option_bind].
  destruct (sv_blob_bytes store (dr_exact_blob definition)) as [bs|e]; cbn [map_err]; [|by right].
  apply answers_bind, answers_charge_bytes; [apply refused_or|].
  apply answers_bind, answers_scope; [apply refused_or|]. apply answers_option.
  destruct (definition_from_slice bs); [by apply answers_ret|by right].
Qed.

Lemma put_ok key z st o :
  is_Some (slot_from_index (or_slot o)) -> (or_captured_width o <> 0 /\ or_captured_width o <= 8)%Z ->
  apply_observation st o key z = Ok (put_observation key z st o).
Proof.
  intros [slot Hs] [Hw0 Hw8]. unfold put_observation, apply_observation. rewrite Hs.
  assert ((or_captured_width o =? 0)%Z || (or_captured_width o >? 8)%Z = false) as ->; [|done].
  apply orb_false_iff. split; [by apply Z.eqb_neq|]. rewrite Z.gtb_ltb. by apply Z.ltb_ge.
Qed.

Lemma apply_ok key z st st' o :
  apply_observation st o key z = Ok st' ->
  st' = put_observation key z st o /\ is_Some (slot_from_index (or_slot o))
  /\ (or_captured_width o <> 0 /\ or_captured_width o <= 8)%Z.
Proof.
  unfold put_observation. intros Ha. rewrite Ha. split; [done|]. revert Ha. unfold apply_observation.
  destruct (slot_from_index _); [|done]. destruct (_ || _) eqn:Hw; [done|]. intros _. split; [done|].
  apply orb_false_iff in Hw as [Hw0 Hw8]. rewrite Z.gtb_ltb in Hw8. lia.
Qed.

Lemma not_write_ok row o : is_non_write o = true -> is_Some (slot_from_index (or_slot o)) ->
  (or_captured_width o <> 0 /\ or_captured_width o <= 8)%Z -> row_observation_ok row o.
Proof.
  unfold is_non_write. rewrite andb_true_iff, !negb_true_iff. intros [Ha _] Hs Hw _.
  split_and!; [done|apply Hw|apply Hw|]. intros Hc. by rewrite Hc in Ha.
Qed.

Lemma undamaged o : is_non_write o = true \/ is_write o = true -> or_provenance o <> Damaged.
Proof.
  unfold is_non_write, is_write. rewrite !andb_true_iff, !negb_true_iff.
  intros [[_ Hd]|[_ Hd]]; by apply bool_decide_eq_false in Hd.
Qed.

Lemma answers_non_writes row key observations st :
  answers (apply_non_writes (W := W) st observations key)
    (fun st' => st' = foldl (put_observation key false) st (List.filter is_non_write observations)
       /\ Forall (row_observation_ok row) (List.filter is_non_write observations))
    (fun e => refused e \/ ~ Forall (row_observation_ok row) observations).
Proof.
  apply (answers_fold _ _ _ _ (fun done st' => st' = foldl (put_observation key false) st done
    /\ Forall (row_observation_ok row) done)); [done|].
  intros done o rest st1 Hfilter [-> Hdone].
  assert (is_non_write o = true /\ o ∈ observations) as [Ho Hin].
  { assert (In o (List.filter is_non_write observations)) as Hi by (rewrite Hfilter; apply in_or_app; right; by left).
    apply List.filter_In in Hi as [? ?]. by rewrite list_elem_of_In. }
  apply answers_result. destruct (apply_observation _ o key false) as [st2|e] eqn:Ha.
  - apply apply_ok in Ha as (-> & Hs & Hw). rewrite foldl_app. split; [done|].
    apply Forall_snoc; [done|]. by apply not_write_ok.
  - right. intros Hall. rewrite Forall_forall in Hall. specialize (Hall o Hin).
    destruct Hall as (Hs & Hw & _); [apply undamaged; by left|]. by rewrite put_ok in Ha.
Qed.

Lemma answers_writes row key observations st :
  answers (apply_writes (W := W) store st row key observations)
    (fun st' => st' = foldl (fun st o => put_observation key (default false (canonical_w row o)) st o) st
                        (List.filter is_write observations)
       /\ Forall (row_observation_ok row) (List.filter is_write observations))
    (fun e => refused e \/ ~ Forall (row_observation_ok row) observations).
Proof.
  apply (answers_fold _ _ _ _ (fun done st' => st' = foldl (fun st o =>
    put_observation key (default false (canonical_w row o)) st o) st done
    /\ Forall (row_observation_ok row) done)); [done|].
  intros done o rest st1 Hfilter [-> Hdone].
  assert (is_write o = true /\ o ∈ observations) as [Ho Hin].
  { assert (In o (List.filter is_write observations)) as Hi by (rewrite Hfilter; apply in_or_app; right; by left).
    apply List.filter_In in Hi as [? ?]. by rewrite list_elem_of_In. }
  assert (Forall (row_observation_ok row) observations -> is_Some (slot_from_index (or_slot o))
    /\ (or_captured_width o <> 0 /\ or_captured_width o <= 8)%Z /\ is_Some (canonical_w row o)) as Hok.
  { intros Hall. rewrite Forall_forall in Hall. destruct (Hall o Hin) as (Hs & Hw & Hc); [apply undamaged; by right|].
    split_and!; [done|apply Hw|apply Hw|]. apply Hc. unfold is_write in Ho.
    apply andb_true_iff in Ho as [Ho _]. by apply bool_decide_eq_true in Ho. }
  apply answers_bind. eapply answers_weaken; [apply answers_canonical| |].
  2: { intros e [?|Hn]; [by left|right]. intros Hall. destruct (Hok Hall) as (_ & _ & [b Hb]). congruence. }
  intros z Hz. apply answers_result. destruct (apply_observation _ o key z) as [st2|e] eqn:Ha.
  - apply apply_ok in Ha as (-> & Hs & Hw). rewrite foldl_app. cbn. rewrite Hz. split; [done|].
    apply Forall_snoc; [done|]. intros _. split_and!; [done|apply Hw|apply Hw|rewrite Hz; by eexists].
  - right. intros Hall. destruct (Hok Hall) as (Hs & Hw & _). by rewrite put_ok in Ha.
Qed.

Lemma all_ok row observations :
  Forall (row_observation_ok row) (List.filter is_non_write observations) ->
  Forall (row_observation_ok row) (List.filter is_write observations) ->
  Forall (row_observation_ok row) observations.
Proof.
  rewrite !Forall_forall. intros Hn Hw o Ho Hd.
  destruct (decide (or_access o = AccessWrite)) as [Ha|Ha].
  - apply Hw; [|done]. rewrite list_elem_of_In, List.filter_In, <- list_elem_of_In. split; [done|].
    unfold is_write. by rewrite bool_decide_eq_true_2, bool_decide_eq_false_2 by done.
  - apply Hn; [|done]. rewrite list_elem_of_In, List.filter_In, <- list_elem_of_In. split; [done|].
    unfold is_non_write. by rewrite !bool_decide_eq_false_2 by done.
Qed.

(** A stored event and the reference event it stands for. *)
Definition stands (r : ReplayEvent) (e : TraceEvent) : Prop :=
  re_row r = te_row e /\ event_observations store r = te_observations e
  /\ re_invalidates r = te_invalidates e /\ trace_event (te_row e) = Some e.

Definition usable (e : TraceEvent) : Prop := Forall (row_observation_ok (te_row e)) (te_observations e).

Lemma answers_transition st r e :
  re_row r = te_row e -> re_invalidates r = te_invalidates e ->
  answers (apply_transition (W := W) store st r (te_key e) (te_observations e))
    (fun st' => st' = step_event st e /\ usable e) (fun x => refused x \/ ~ usable e).
Proof.
  intros Hrow Hinv. unfold apply_transition. apply answers_bind. rewrite Hrow, Hinv.
  eapply answers_mono; [apply (answers_non_writes (te_row e))|]. intros st1 [-> Hreads].
  eapply answers_mono; [apply answers_writes|]. intros st2 [-> Hwrites]. split; [done|]. by apply all_ok.
Qed.

Lemma trace_event_key e : trace_event (te_row e) = Some e -> sv_event_key store (te_row e) = Ok (Some (te_key e)).
Proof. unfold trace_event. repeat case_match; try done. by intros [= <-]. Qed.

Lemma answers_stored st r e : stands r e ->
  answers (apply_stored_event (W := W) store st r) (fun st' => st' = step_event st e) (fun x => refused x \/ ~ usable e).
Proof.
  intros (Hrow & Hobs & Hinv & He). apply answers_charged; [apply refused_or|].
  apply answers_bind, answers_result. rewrite Hrow, trace_event_key by done. cbn [map_err].
  apply answers_bind, answers_option. rewrite Hobs. eapply answers_mono; [by apply answers_transition|]. by intros ? [? _].
Qed.

(** ** Slices of the observations *)

Lemma count_while_stop {X} (f : X -> bool) l : count_while f (drop (count_while f l) l) = 0.
Proof. induction l as [|x l IH]; [done|]. cbn. destruct (f x) eqn:Hx; cbn; [done|]. by rewrite Hx. Qed.

(** The observations of the rows before [n] come first. *)
Definition cut n : nat := count_while (fun o => (or_owner_row o <? n)%nat) (sv_register_observation_rows store).

Lemma owner_cut (l : list RegisterObservationRow) n :
  StronglySorted le (map or_owner_row l) ->
  let c := count_while (fun o => (or_owner_row o <? n)%nat) l in
  let d := count_while (fun o => (or_owner_row o =? n)%nat) (drop c l) in
  c + d = count_while (fun o => (or_owner_row o <? S n)%nat) l
  /\ take d (drop c l) = List.filter (fun o => (or_owner_row o =? n)%nat) l.
Proof.
  induction l as [|o l IH]; intros Hs; [done|]. cbn [map] in Hs. inversion_clear Hs as [|? ? Hl Hall].
  specialize (IH Hl). cbn [count_while List.filter].
  destruct (Nat.ltb_spec (or_owner_row o) n) as [Hlt|Hge].
  - rewrite (proj2 (Nat.ltb_lt _ (S n))) by lia. rewrite (proj2 (Nat.eqb_neq _ n)) by lia. cbn. cbn in IH.
    destruct IH as [IH1 IH2]. split; [lia|done].
  - cbn [drop count_while]. destruct (Nat.eqb_spec (or_owner_row o) n) as [Heq|Hne].
    + rewrite (proj2 (Nat.ltb_lt _ (S n))) by lia.
      assert (count_while (fun o => (or_owner_row o <? n)%nat) l = 0) as Hz.
      { destruct l as [|o' l]; [done|]. cbn [count_while map] in *. apply Forall_cons in Hall as [? _].
        rewrite (proj2 (Nat.ltb_ge _ n)) by lia. done. }
      cbv zeta in IH. rewrite Hz in IH. rewrite drop_0 in IH. destruct IH as [IH1 IH2]. cbn [take Nat.add].
      split; [lia|]. by rewrite IH2.
    + rewrite (proj2 (Nat.ltb_ge _ (S n))) by lia. cbn. split; [done|]. symmetry.
      assert (forall l : list RegisterObservationRow, Forall (fun r => n < r) (map or_owner_row l) ->
        List.filter (fun o => (or_owner_row o =? n)%nat) l = []) as Hnone.
      { clear. induction l as [|o l IH]; [done|]. cbn. intros [Ho Hl]%Forall_cons.
        rewrite (proj2 (Nat.eqb_neq _ n)) by lia. by apply IH. }
      apply Hnone. eapply Forall_impl; [exact Hall|]. intros r Hr. cbn in Hr. lia.
Qed.

Section ordered.
Hypothesis Hordered : Sorted le (map or_owner_row (sv_register_observation_rows store)).

Lemma cut_row n :
  let stop := cut n + count_while (fun o => (or_owner_row o =? n)%nat)
                        (drop (cut n) (sv_register_observation_rows store)) in
  stop = cut (S n) /\ take (stop - cut n) (drop (cut n) (sv_register_observation_rows store)) = observations_of n.
Proof.
  cbv zeta. destruct (owner_cut (sv_register_observation_rows store) n) as [Hc Ht].
  { apply Sorted_StronglySorted; [|done]. intros ? ? ?. lia. }
  split; [exact Hc|]. unfold observations_of. rewrite <- Ht. fold (cut n). f_equal. lia.
Qed.
End ordered.

(** ** Indices of the invalidations *)

Definition flagged (l : list TraceEvent) : list nat :=
  List.filter (fun i => match l !! i with Some e => te_invalidates e | None => false end) (seq 0 (length l)).

Lemma flagged_snoc l e : flagged (l ++ [e]) = flagged l ++ if te_invalidates e then [length l] else [].
Proof.
  unfold flagged. rewrite length_app, seq_app, List.filter_app. cbn [length seq Nat.add]. f_equal.
  - apply List.filter_ext_in. intros i Hi%in_seq. by rewrite lookup_app_l by lia.
  - cbn. rewrite lookup_app_r, Nat.sub_diag by lia. cbn. by destruct (te_invalidates e).
Qed.

Lemma flagged_app a b : exists rest, flagged (a ++ b) = flagged a ++ rest /\ Forall (fun i => length a <= i) rest.
Proof.
  induction b as [|e b [rest [IH Hr]]] using rev_ind; [exists []; by rewrite !app_nil_r|].
  rewrite app_assoc, flagged_snoc, IH. exists (rest ++ if te_invalidates e then [length (a ++ b)] else []).
  rewrite app_assoc. split; [done|]. apply Forall_app. split; [done|]. destruct (te_invalidates e); [|constructor].
  apply Forall_singleton. rewrite length_app. lia.
Qed.

Lemma flagged_range l i : i ∈ flagged l -> i < length l.
Proof. unfold flagged. rewrite list_elem_of_In, List.filter_In. intros [Hi%in_seq _]. lia. Qed.

(** The last flagged event is the last invalidating one, and its index. *)
Lemma last_flagged l :
  match last (flagged l) with
  | Some i => exists e, l !! i = Some e /\ te_invalidates e = true /\ last (List.filter te_invalidates l) = Some e
                /\ Forall (fun e' => te_invalidates e' = false) (drop (S i) l)
  | None => List.filter te_invalidates l = []
  end.
Proof.
  induction l as [|e l IH] using rev_ind; [done|]. rewrite flagged_snoc, List.filter_app. cbn [List.filter].
  destruct (te_invalidates e) eqn:He.
  - rewrite last_snoc. exists e. rewrite lookup_app_r, Nat.sub_diag by lia. split_and!; [done..|by rewrite last_snoc|].
    rewrite drop_ge by (rewrite length_app; cbn; lia). constructor.
  - rewrite !app_nil_r. destruct (last (flagged l)) as [i|] eqn:Hl; [|done].
    destruct IH as (e' & Hi & Hinv & Hlast & Hrest). exists e'. apply lookup_lt_Some in Hi as Hlt.
    rewrite lookup_app_l by lia. split_and!; try done. rewrite drop_app_le by lia. by apply Forall_snoc.
Qed.

(** ** Binary search *)

Lemma answers_upper_bound len before c :
  c <= len -> (forall i, i < c -> before i = true) -> (forall i, c <= i < len -> before i = false) ->
  answers (W := W) (guarded_upper_bound len before) (fun r => r = c) refused.
Proof.
  intros Hc Hb Ha. unfold guarded_upper_bound.
  enough (forall fuel low high, low <= c <= high -> high <= len -> high - low < fuel ->
    answers (W := W) (upper_bound_loop fuel before low high) (fun r => r = c) refused) as Hgo by (apply Hgo; lia).
  induction fuel as [|fuel IH]; intros low high Hr Hh Hf; [lia|]. cbn [upper_bound_loop].
  destruct (Nat.ltb_spec low high) as [Hlt|Hge]; [|apply answers_ret; lia].
  apply answers_charged; [done|]. set (middle := low + (high - low) / 2).
  assert (low <= middle < high) as Hm.
  { unfold middle. pose proof (Nat.div_lt (high - low) 2). lia. }
  destruct (before middle) eqn:Hbm.
  - apply IH; [|lia|lia]. split; [|lia]. destruct (Nat.le_gt_cases c middle) as [Hcm|]; [|lia].
    rewrite Ha in Hbm by lia. done.
  - apply IH; [|lia|lia]. split; [lia|]. destruct (Nat.le_gt_cases c middle) as [|Hcm]; [done|].
    rewrite Hb in Hbm by lia. done.
Qed.

End replay.
