(* ===== verification/RegisterState.v ===== *)
(** * Register states are those of the plain replay

    [build] keeps, per scope, the events, the invalidations, the checkpoints and
    the running state of [RegisterReplay]; [state_at] resumes from a checkpoint
    or an invalidation and ends in the state of the reference. *)

From stdpp Require Import prelude list sorting strings gmap.
From Stdlib Require Import ZArith Lia Strings.Byte Sorted.
From S2P Require Import Prelude Prog Control Model FlightContext Answers Index Analysis Discontinuity Registers RegisterReplay.
Local Open Scope string_scope.
Local Open Scope list_scope.

(** ** The order of the observations *)

Definition crosses (a b : option nat) : bool :=
  match a, b with Some p, Some r => (r <? p)%nat | _, _ => false end.

Lemma descends_app a b : descends (a ++ b) = descends a || crosses (last a) (head b) || descends b.
Proof.
  induction a as [|x a IH]; [by cbn|]. destruct a as [|y a].
  - by destruct b as [|z b].
  - change (descends ((x :: y :: a) ++ b)) with ((y <? x)%nat || descends ((y :: a) ++ b)). rewrite IH.
    change (descends (x :: y :: a)) with ((y <? x)%nat || descends (y :: a)).
    change (last (x :: y :: a)) with (last (y :: a)). by rewrite !orb_assoc.
Qed.

Lemma descends_sorted l : descends l = false <-> Sorted le l.
Proof.
  induction l as [|x l IH]; [split; [constructor|done]|]. destruct l as [|y l].
  - split; [intros _; by repeat constructor|done].
  - change (descends (x :: y :: l)) with ((y <? x)%nat || descends (y :: l)). rewrite orb_false_iff, IH. split.
    + intros [Hx Hl]. constructor; [done|]. constructor. apply Nat.ltb_ge in Hx. done.
    + intros Hs. inversion_clear Hs as [|? ? Hl Hh]. inversion_clear Hh. split; [by apply Nat.ltb_ge|done].
Qed.

Lemma chunks_nonempty {X} k (xs c : list X) : (0 < k)%nat -> c ∈ chunks k xs -> c <> [].
Proof.
  intros Hk. unfold chunks. generalize (length xs). intros fuel. revert xs.
  induction fuel as [|fuel IH]; intros [|x xs]; cbn [chunks_go]; try by intros []%not_elem_of_nil.
  intros [->|Hc]%elem_of_cons; [|by eapply IH]. destruct k; [lia|]. done.
Qed.

Lemma increasing_NoDup (l : list nat) : StronglySorted lt l -> NoDup l.
Proof.
  induction 1 as [|x l _ IH Hall]; constructor; [|done]. intros Hin. rewrite Forall_forall in Hall.
  specialize (Hall x Hin). lia.
Qed.

(** A sorted list splits at a bound. *)
Lemma sorted_prefix {X} (f : X -> nat) (l : list X) t : StronglySorted lt (map f l) ->
  exists n, n <= length l /\ (forall i, i < n -> exists x, l !! i = Some x /\ f x < t)
    /\ (forall i x, n <= i -> l !! i = Some x -> t <= f x).
Proof.
  induction l as [|x l IH]; intros Hs; [exists 0; split_and!; [done|lia|done]|]. cbn [map] in Hs.
  inversion_clear Hs as [|? ? Hl Hall]. destruct (decide (f x < t)) as [Hx|Hx].
  - destruct (IH Hl) as (n & Hn & Hb & Ha). exists (S n). split_and!; [cbn; lia| |].
    + intros [|i] Hi; [by exists x|]. apply Hb. lia.
    + intros [|i] y Hi Hy; [lia|]. apply (Ha i y); [lia|done].
  - exists 0. split_and!; [lia|lia|]. intros [|i] y _ Hy; [injection Hy as <-; lia|].
    rewrite Forall_map, Forall_forall in Hall. specialize (Hall y (list_elem_of_lookup_2 l i y Hy)). lia.
Qed.

Section state.
Context {W : Type} `{WorkGuard W} `{Allocator W} `{SerdeJson}.
Context (store : StoreView) (context : option QueryContext).
Abbreviation M := (Prog W AnalysisError unit).
Abbreviation among := (RegisterReplay.among store context).
Abbreviation trace_event := (RegisterReplay.trace_event store context).
Abbreviation replay := (RegisterReplay.replay store context).
Abbreviation reach := (RegisterReplay.reach store context).
Abbreviation stands := (RegisterReplay.stands store context).
Abbreviation usable := (RegisterReplay.usable store).
Abbreviation step_event := (RegisterReplay.step_event store).
Abbreviation row_ok := (RegisterReplay.row_ok store context).
Implicit Types (k : ScopeKey) (n m : nat) (sc : ScopeReplay).

Lemma answers_order :
  answers (W := W) (fold_each (chunks WORK_CHUNK (sv_register_observation_rows store)) None check_order_turn)
    (fun _ => Sorted le (map or_owner_row (sv_register_observation_rows store)))
    (fun e => refused e \/ ~ Sorted le (map or_owner_row (sv_register_observation_rows store))).
Proof.
  set (obs := sv_register_observation_rows store). set (cs := chunks WORK_CHUNK obs).
  assert (0 < WORK_CHUNK)%nat as Hk by (unfold WORK_CHUNK; lia).
  assert (concat cs = obs) as Hcs by (by apply chunks_concat). rewrite <- Hcs.
  eapply answers_mono.
  { apply (answers_fold _ _ _ _ (fun done previous => descends (map or_owner_row (concat done)) = false
      /\ previous = last (map or_owner_row (concat done)))); [done|].
    intros done chunk rest previous Hsplit [Hd ->]. apply answers_charged; [apply refused_or|].
    assert (chunk <> []) as Hne.
    { apply (chunks_nonempty WORK_CHUNK obs); [done|]. fold cs. rewrite Hsplit. apply elem_of_app. right. left. }
    rewrite !concat_app. cbn [concat]. rewrite app_nil_r, !map_app.
    pose proof (descends_app (map or_owner_row (concat done)) (map or_owner_row chunk)) as Happ. rewrite Hd in Happ.
    cbn [orb] in Happ.
    apply answers_bind, answers_fail_if.
    - intros Hb. apply answers_ret. change (descends (map or_owner_row chunk)
        || crosses (last (map or_owner_row (concat done))) (head (map or_owner_row chunk)) = false) in Hb.
      apply orb_false_iff in Hb as [H1' H2']. rewrite Happ, H1', H2'. split; [done|].
      rewrite last_app. destruct (last (map or_owner_row chunk)) eqn:Hl; [done|].
      apply last_None in Hl. by destruct chunk.
    - intros Hb. right. rewrite <- descends_sorted, Hsplit, concat_app, map_app, descends_app. cbn [concat].
      rewrite map_app, descends_app, Hd. cbn [orb]. change (descends (map or_owner_row chunk)
        || crosses (last (map or_owner_row (concat done))) (head (map or_owner_row chunk)) = true) in Hb.
      assert (head (map or_owner_row chunk ++ map or_owner_row (concat rest)) = head (map or_owner_row chunk)) as ->
        by (by destruct chunk).
      apply orb_true_iff in Hb as [->| ->]; cbn; by rewrite ?orb_true_r. }
  intros previous [Hd _]. by apply descends_sorted.
Qed.

(** ** What a scope holds *)

Definition checkpoint_kept k n (c : ReplayCheckpoint) : Prop :=
  exists e, among (own k) 0 n !! rk_event_index c = Some e /\ te_row e = rk_row c
    /\ rk_state c = replay k (S (rk_row c)).

Record scope_kept k n sc : Prop := mkScopeKept {
  sk_events : Forall2 stands (v_items (sp_events sc)) (among (own k) 0 n);
  sk_invalidations : v_items (sp_invalidations sc) = flagged (among (own k) 0 n);
  sk_checkpoints : Forall (checkpoint_kept k n) (v_items (sp_checkpoints sc));
  sk_sorted : StronglySorted lt (map rk_row (v_items (sp_checkpoints sc)));
  sk_state : sp_build_state sc = replay k (reach k n);
  sk_global : sp_last_global_row sc = te_row <$> last (among (global k) 0 (reach k n))
}.

Definition built n (scopes : gmap ScopeKey ScopeReplay) : Prop :=
  forall k, match scopes !! k with
            | Some sc => scope_kept k n sc
            | None => among (own k) 0 n = []
            end.

Lemma reach_none k n : among (own k) 0 n = [] -> reach k n = 0.
Proof. unfold RegisterReplay.reach. intros Hnil. change (RegisterReplay.among store context (own k) 0 n) with (among (own k) 0 n). by rewrite Hnil. Qed.

Lemma kept_new k n : among (own k) 0 n = [] -> scope_kept k n ScopeReplay_new.
Proof.
  intros Hnil. pose proof (reach_none k n Hnil) as Hr.
  constructor; cbn [ScopeReplay_new sp_events sp_invalidations sp_checkpoints sp_build_state sp_last_global_row vec_new v_items];
    rewrite ?Hnil, ?Hr; try done; constructor.
Qed.

(** A row of another scope changes nothing. *)
Lemma own_other k n : (forall e, trace_event n = Some e -> scope_of e <> k) ->
  among (own k) 0 (S n) = among (own k) 0 n.
Proof.
  intros Hother. rewrite among_snoc. destruct (trace_event n) as [e|] eqn:He; [|apply app_nil_r].
  unfold own at 2. rewrite bool_decide_eq_false_2 by (by apply Hother). apply app_nil_r.
Qed.

Lemma kept_other k n sc : (forall e, trace_event n = Some e -> scope_of e <> k) ->
  scope_kept k n sc -> scope_kept k (S n) sc.
Proof.
  intros Hother%own_other [He Hi Hc Hs Hst Hg].
  assert (reach k (S n) = reach k n) as Hr by (unfold RegisterReplay.reach; by rewrite Hother).
  constructor; rewrite ?Hother, ?Hr; try done.
  eapply Forall_impl; [exact Hc|]. intros c (e & ? & ? & ?). exists e. by rewrite Hother.
Qed.

Lemma built_other n scopes : trace_event n = None -> built n scopes -> built (S n) scopes.
Proof.
  intros Hn Hb k. specialize (Hb k). assert (forall e, trace_event n = Some e -> scope_of e <> k) as Ho by congruence.
  destruct (scopes !! k); [by apply kept_other|]. by rewrite own_other.
Qed.

Lemma globals_are_own tl t from len :
  among (global (tl, Some t)) from len = List.filter te_invalidates (among (own (tl, None)) from len).
Proof.
  unfold RegisterReplay.among. induction (events_in store context from len) as [|e l IH]; [done|]. cbn [List.filter].
  assert (global (tl, Some t) e = own (tl, None) e && te_invalidates e) as ->
    by (unfold global, own; cbn [snd fst]; by rewrite bool_decide_eq_true_2 by done).
  destruct (own (tl, None) e); cbn [andb List.filter]; [|done]. destruct (te_invalidates e); by rewrite IH.
Qed.

(** The stored invalidation an index points to. *)
Lemma stands_lookup k n sc i e : scope_kept k n sc -> among (own k) 0 n !! i = Some e ->
  exists r, v_items (sp_events sc) !! i = Some r /\ stands r e.
Proof. intros Hk Hi. by apply (Forall2_lookup_r _ _ _ _ _ (sk_events _ _ _ Hk)). Qed.

(** [global_event] finds the last global invalidation. *)
Lemma global_found n scopes key : built n scopes ->
  match last (among (global (ek_timeline key, ek_tid key)) 0 n) with
  | Some g => exists r, global_event scopes key = Some r /\ stands r g
  | None => global_event scopes key = None
  end.
Proof.
  intros Hb. unfold global_event. destruct (ek_tid key) as [t|].
  2: { assert (among (global (ek_timeline key, None)) 0 n = []) as ->; [|done].
       apply among_nil. intros e [He _]%among_elem. by rewrite no_globals in He. }
  cbn [mbind option_bind]. rewrite globals_are_own. specialize (Hb (ek_timeline key, None)).
  destruct (scopes !! ((ek_timeline key, None) : ScopeKey)) as [sc|]; cbn [mbind option_bind]; [|by rewrite Hb].
  rewrite (sk_invalidations _ _ _ Hb). pose proof (last_flagged (among (own (ek_timeline key, None)) 0 n)) as Hl.
  destruct (last (flagged _)) as [i|]; cbn [mbind option_bind]; [|by rewrite Hl].
  destruct Hl as (e & Hi & _ & -> & _). destruct (stands_lookup _ _ _ _ _ Hb Hi) as (r & Hr & Hs). by exists r.
Qed.

(** ** Building *)

Lemma own_self e : own (scope_of e) e = true.
Proof. unfold own. by apply bool_decide_eq_true. Qed.

Lemma own_snoc n e : trace_event n = Some e ->
  among (own (scope_of e)) 0 (S n) = among (own (scope_of e)) 0 n ++ [e].
Proof. intros He. rewrite among_snoc. change (RegisterReplay.trace_event store context n) with (trace_event n). by rewrite He, own_self. Qed.

Lemma reach_snoc n e : trace_event n = Some e -> reach (scope_of e) (S n) = S n.
Proof.
  intros He. unfold RegisterReplay.reach. rewrite own_snoc by done. rewrite last_snoc.
  by rewrite (trace_event_row _ _ _ _ He).
Qed.

(** The global invalidations before an own event are those up to it. *)
Lemma globals_snoc n e : trace_event n = Some e ->
  among (global (scope_of e)) 0 (S n) = among (global (scope_of e)) 0 n.
Proof.
  intros He. rewrite among_snoc. change (RegisterReplay.trace_event store context n) with (trace_event n). rewrite He.
  destruct (global (scope_of e) e) eqn:Hg; [|apply app_nil_r]. apply global_not_own in Hg. by rewrite own_self in Hg.
Qed.

Lemma replay_own n e : trace_event n = Some e ->
  replay (scope_of e) (S n) = step_event (replay (scope_of e) n) e.
Proof.
  intros He. unfold RegisterReplay.replay. rewrite events_in_snoc, List.filter_app.
  change (RegisterReplay.trace_event store context n) with (trace_event n). rewrite He. cbn [option_list option_rect List.filter].
  assert (relevant (scope_of e) e = true) as -> by (unfold relevant; by rewrite own_self). by rewrite foldl_app.
Qed.

Lemma answers_append sc r n e :
  trace_event n = Some e -> stands r e -> re_row r = n ->
  Forall2 stands (v_items (sp_events sc)) (among (own (scope_of e)) 0 n) ->
  v_items (sp_invalidations sc) = flagged (among (own (scope_of e)) 0 n) ->
  Forall (checkpoint_kept (scope_of e) n) (v_items (sp_checkpoints sc)) ->
  StronglySorted lt (map rk_row (v_items (sp_checkpoints sc))) ->
  sp_build_state sc = replay (scope_of e) n ->
  sp_last_global_row sc = te_row <$> last (among (global (scope_of e)) 0 n) ->
  answers (W := W) (append_build_event store sc r (te_key e) (te_observations e))
    (fun sc' => scope_kept (scope_of e) (S n) sc' /\ usable e) (fun x => refused x \/ ~ usable e).
Proof.
  intros He Hr Hrow Hev Hinv Hc Hs Hst Hg. destruct Hr as (Hr1 & Hr2 & Hr3 & Hr4).
  assert (forall c, checkpoint_kept (scope_of e) n c -> checkpoint_kept (scope_of e) (S n) c) as Hmore.
  { intros c (e' & Hi & Hx & Hy). exists e'. rewrite own_snoc by done. split; [|done].
    rewrite lookup_app_l; [done|by eapply lookup_lt_Some]. }
  assert (length (v_items (sp_events sc)) = length (among (own (scope_of e)) 0 n)) as Hlen by (by eapply Forall2_length).
  unfold append_build_event. apply answers_bind, answers_push; [apply refused_or|]. intros cap1.
  apply answers_bind. eapply (answers_mono _ _ (fun v => v_items v = flagged (among (own (scope_of e)) 0 (S n)))).
  { rewrite own_snoc, flagged_snoc by done. rewrite Hr3. destruct (te_invalidates e).
    - apply answers_push; [apply refused_or|]. intros cap2. cbn [v_items]. rewrite Hinv, length_app. cbn [length].
      rewrite Hlen. f_equal. f_equal. lia.
    - apply answers_ret. by rewrite app_nil_r. }
  intros invs Hinvs. apply answers_bind. eapply answers_mono; [apply answers_transition; [congruence|done]|].
  intros st [-> Hu]. rewrite Hst, <- replay_own by done.
  assert (forall cps since, Forall (checkpoint_kept (scope_of e) (S n)) (v_items cps) ->
    StronglySorted lt (map rk_row (v_items cps)) ->
    scope_kept (scope_of e) (S n) (mkScopeReplay (mkVec (v_items (sp_events sc) ++ [r]) cap1) invs cps
      (replay (scope_of e) (S n)) since (sp_last_global_row sc))) as Hkept.
  { intros cps since Hcps Hsort. constructor; cbn [sp_events sp_invalidations sp_checkpoints sp_build_state
      sp_last_global_row v_items]; try done.
    - rewrite own_snoc by done. apply Forall2_app; [done|]. by repeat constructor.
    - by rewrite reach_snoc.
    - rewrite reach_snoc by done. by rewrite globals_snoc. }
  destruct (_ || _).
  - apply answers_bind, answers_push; [apply refused_or|]. intros cap3. apply answers_ret. split; [|done].
    apply Hkept; cbn [v_items].
    + apply Forall_snoc; [by eapply Forall_impl|]. exists e. cbn [rk_event_index rk_row rk_state].
      rewrite own_snoc by done. rewrite length_app. cbn [length]. rewrite Hlen.
      rewrite Nat.add_sub, lookup_app_r, Nat.sub_diag by lia. split_and!; [done|congruence|]. by rewrite Hrow.
    + rewrite map_app. apply StronglySorted_app. split_and!; [|done|by repeat constructor].
      intros x y Hx Hy. cbn in Hy. apply list_elem_of_singleton in Hy as ->.
      apply list_elem_of_fmap in Hx as (c & -> & Hcin). rewrite Forall_forall in Hc.
      destruct (Hc c Hcin) as (e' & Hi & <- & _). apply list_elem_of_lookup_2, among_elem in Hi. lia.
  - apply answers_ret. split; [|done]. apply Hkept; [by eapply Forall_impl|done].
Qed.

Lemma answers_reserve_scopes len additional (Q : unit -> Prop) (R : AnalysisError -> Prop) :
  (forall e, refused e -> R e) -> Q tt -> answers (W := W) (reserve_scopes len additional) Q R.
Proof.
  intros HR HQ w. unfold reserve_scopes. destruct (_ <=? _)%Z; [done|].
  match goal with |- context [bind ?p ?f tt w] => enough (answers (bind p f) Q R) as Hy by apply Hy end.
  do 3 (apply answers_bind, answers_option; case_match; [|apply HR, hard_limit_refused]).
  apply answers_scope; [done|]. intros w'. destruct (map_grow _ _ w') as [[] ?]; [done|apply HR, hard_limit_refused].
Qed.

Lemma answers_build_event scopes r n e :
  trace_event n = Some e -> stands r e -> re_row r = n -> built n scopes ->
  (forall e', e' ∈ events_in store context 0 n -> usable e') ->
  answers (W := W) (build_event store scopes r (te_key e) (te_observations e))
    (fun scopes' => built (S n) scopes' /\ usable e) (fun x => refused x \/ ~ usable e).
Proof.
  intros He Hr Hrow Hb Husable. unfold build_event. set (k := scope_of e).
  change (ek_timeline (te_key e), ek_tid (te_key e)) with k.
  pose proof (global_found n scopes (te_key e) Hb) as Hglobal.
  change (ek_timeline (te_key e), ek_tid (te_key e)) with k in Hglobal.
  apply answers_bind. eapply (answers_mono _ _ (scope_kept k n)).
  { specialize (Hb k). destruct (scopes !! k); [by apply answers_ret|].
    apply answers_bind, answers_reserve_scopes; [apply refused_or|]. by apply answers_ret, kept_new. }
  intros sc Hk. apply answers_bind.
  eapply (answers_mono _ _ (fun sc' => sp_build_state sc' = replay k n
    /\ sp_last_global_row sc' = te_row <$> last (among (global k) 0 n)
    /\ sp_events sc' = sp_events sc /\ sp_invalidations sc' = sp_invalidations sc
    /\ sp_checkpoints sc' = sp_checkpoints sc)).
  { pose proof (catch_up store context k n (reach k n) (sp_build_state sc)) as Hcatch.
    specialize (Hcatch ltac:(split; [done|apply reach_le])).
    specialize (Hcatch ltac:(rewrite (sk_state _ _ _ Hk); apply whole_replay)).
    pose proof (sk_global _ _ _ Hk) as Hlast.
    assert (reach k n <= n) as Hle by apply reach_le.
    pose proof (among_split store context (global k) n (reach k n) Hle) as Hsplit.
    destruct (last (among (global k) 0 n)) as [g|] eqn:Hg.
    - destruct Hglobal as (rg & -> & Hstands). destruct Hstands as (Hrow' & Hrest).
      pose proof (last_Some_elem_of _ _ Hg) as Hgin. apply among_elem in Hgin as (Hgg & Hgr & Hgt).
      rewrite Hrow'. destruct (decide (reach k n <= te_row g)) as [Hnew|Hold].
      + rewrite bool_decide_eq_false_2.
        2: { rewrite Hlast. intros Heq. apply fmap_Some in Heq as (g' & Hg' & Hrows).
             apply last_Some_elem_of, among_elem in Hg'. lia. }
        apply answers_bind. eapply answers_weaken; [apply (answers_stored store context _ _ g); by split| |].
        * intros st ->. apply answers_ret. cbn. by rewrite Hcatch.
        * intros x [?|Hn]; [by left|]. destruct Hn. apply Husable. eapply events_in_elem; [|done]. lia.
      + rewrite bool_decide_eq_true_2.
        * apply answers_ret. rewrite (sk_state _ _ _ Hk), Hcatch. split_and!; try done.
          rewrite Hlast. rewrite Hsplit in Hg. apply last_app_Some in Hg as [Hg|[_ Hg]].
          -- apply last_Some_elem_of, among_elem in Hg. lia.
          -- by rewrite Hg.
        * rewrite Hlast. rewrite Hsplit in Hg. apply last_app_Some in Hg as [Hg|[_ Hg]].
          -- apply last_Some_elem_of, among_elem in Hg. lia.
          -- by rewrite Hg.
    - rewrite Hglobal. apply answers_ret. rewrite (sk_state _ _ _ Hk), Hcatch. split_and!; try done.
      rewrite Hlast. rewrite Hsplit in Hg. by apply last_app_None in Hg as [-> _]. }
  intros sc' (Hst & Hlg & Hev & Hin & Hcp). apply answers_bind.
  eapply answers_mono; [apply (answers_append sc' r n e); try done|].
  - rewrite Hev. apply Hk.
  - rewrite Hin. apply Hk.
  - rewrite Hcp. apply Hk.
  - rewrite Hcp. apply Hk.
  - intros sc'' [Hkept Hu]. apply answers_ret. split; [|done]. intros k'. destruct (decide (k' = k)) as [->|Hne].
    + by rewrite lookup_insert_eq.
    + rewrite lookup_insert_ne by done. specialize (Hb k').
      assert (forall e', trace_event n = Some e' -> scope_of e' <> k') as Ho by (intros e'; rewrite He; intros [= <-]; done).
      destruct (scopes !! k'); [by apply kept_other|]. by rewrite own_other.
Qed.

Lemma answers_invalidates row kind observations :
  answers (W := W) (row_invalidates store context row kind observations)
    (fun b => invalidating store context row kind observations = Some b)
    (fun e => refused e \/ invalidating store context row kind observations = None).
Proof.
  unfold row_invalidates, invalidating. apply answers_bind. destruct (bool_decide (kind = KDiscontinuity)).
  2: { apply answers_ret. by apply answers_ret. }
  destruct context as [c|].
  - apply answers_bind, answers_option. destruct (discontinuity_evidence c row); [|by right].
    by apply answers_ret, answers_ret.
  - unfold discontinuity_affects_registers. apply answers_bind, answers_result.
    destruct (sv_payload_bytes store row) as [bs|]; cbn [map_err]; [|by right].
    destruct bs as [|b bs]; [by apply answers_ret, answers_ret|].
    apply answers_bind, answers_charge_bytes; [apply refused_or|]. apply answers_bind, answers_result.
    destruct (decode_discontinuity_payload (b :: bs)); [|by right]. by apply answers_ret, answers_ret.
Qed.

Definition build_kept n (st : BuildState) : Prop :=
  bs_observation st = cut store n /\ built n (bs_scopes st) /\ forall row, row < n -> row_ok row.

Lemma row_ok_usable row e : row_ok row -> trace_event row = Some e -> usable e.
Proof.
  unfold RegisterReplay.row_ok, RegisterReplay.trace_event, RegisterReplay.usable. repeat case_match; try done.
  intros Hok [= <-]. cbn. by apply Hok.
Qed.

Lemma answers_build_row n st :
  Sorted le (map or_owner_row (sv_register_observation_rows store)) -> build_kept n st ->
  answers (W := W) (build_row store context st n) (build_kept (S n)) (fun e => refused e \/ ~ row_ok n).
Proof.
  intros Hordered (Hptr & Hb & Hrows). unfold build_row.
  assert (row_ok n -> forall row, row < S n -> row_ok row) as Hmore.
  { intros Hn row Hr. destruct (decide (row = n)) as [->|]; [done|]. apply Hrows. lia. }
  rewrite Hptr. assert (count_while (fun o => (or_owner_row o <? n)%nat)
    (drop (cut store n) (sv_register_observation_rows store)) = 0) as -> by apply count_while_stop.
  rewrite Nat.add_0_r. destruct (cut_row store Hordered n) as [Hstop Hslice]. rewrite Hstop in *.
  assert (row_ok n -> trace_event n = None -> build_kept (S n) (mkBuildState (bs_scopes st) (cut store (S n)))) as Hskip.
  { intros Hn Ht. split_and!; [done|by apply built_other|by apply Hmore]. }
  apply answers_bind, answers_result.
  destruct (sv_event_key store n) as [[key|]|] eqn:Hkey; cbn [map_err].
  3: { right. unfold RegisterReplay.row_ok. rewrite Hkey. tauto. }
  2: { apply answers_ret. apply Hskip; [unfold RegisterReplay.row_ok|unfold RegisterReplay.trace_event]; by rewrite Hkey. }
  apply answers_bind, answers_result.
  destruct (sv_event_kind store n) as [[kind|]|] eqn:Hkind; cbn [map_err].
  3: { right. unfold RegisterReplay.row_ok. rewrite Hkey, Hkind. tauto. }
  2: { apply answers_ret. apply Hskip; [unfold RegisterReplay.row_ok|unfold RegisterReplay.trace_event]; by rewrite Hkey, Hkind. }
  destruct (register_kind kind) eqn:Hreg; cbn [negb].
  2: { apply answers_ret. apply Hskip; [unfold RegisterReplay.row_ok|unfold RegisterReplay.trace_event]; by rewrite Hkey, Hkind, Hreg. }
  rewrite Hslice.
  assert (row_ok n <-> is_Some (invalidating store context n kind (observations_of store n))
    /\ Forall (row_observation_ok store n) (observations_of store n)) as Hiff.
  { unfold RegisterReplay.row_ok. rewrite Hkey, Hkind, Hreg. naive_solver. }
  apply answers_bind. eapply answers_weaken; [apply answers_invalidates| |].
  2: { intros e [?|Hn]; [by left|]. right. rewrite Hiff, Hn. by intros [[? ?] _]. }
  intros inv Hinv. set (e := mkTraceEvent n key (observations_of store n) inv).
  assert (trace_event n = Some e) as He.
  { unfold RegisterReplay.trace_event. by rewrite Hkey, Hkind, Hreg, Hinv. }
  apply answers_bind. eapply answers_weaken.
  - apply (answers_build_event (bs_scopes st) (mkReplayEvent n (cut store n) (cut store (S n)) inv) n e); try done.
    intros e' He'. apply events_in_range in He' as [Hr Ht]. apply (row_ok_usable (te_row e')); [apply Hrows; lia|done].
  - intros scopes [Hb' Hu]. apply answers_ret. split_and!; [done|done|]. apply Hmore, Hiff. split; [by rewrite Hinv|]. exact Hu.
  - intros x [?|Hn]; [by left|]. right. rewrite Hiff. intros [_ Hu]. by apply Hn.
Qed.

Lemma answers_build :
  answers (W := W) (build store context)
    (fun scopes => replayable store context /\ built (sv_event_count store) scopes)
    (fun e => refused e \/ ~ replayable store context).
Proof.
  unfold build. apply answers_bind. eapply answers_weaken; [apply answers_order| |].
  2: { intros e [?|Hn]; [by left|]. right. intros [Hs _]. done. }
  intros ? Hordered. cbv beta in Hordered. apply answers_bind.
  eapply (answers_weaken _ (build_kept (sv_event_count store)) _ (fun e => refused e \/ ~ replayable store context)).
  - eapply answers_mono; [apply (answers_charged_fold _ ltac:(apply refused_or) _ _ _ _
      (fun done st => build_kept (length done) st))|].
    + split_and!; [|intros k; cbn [bs_scopes]; by rewrite lookup_empty|intros row Hr; cbn in Hr; lia].
      cbn. symmetry. unfold cut. by induction (sv_register_observation_rows store).
    + intros done row rest st Hsplit Hk. rewrite length_app. cbn [length]. rewrite Nat.add_1_r.
      assert (row = length done /\ row < sv_event_count store) as [-> Hlt].
      { assert (seq 0 (sv_event_count store) !! length done = Some row) as Hl
          by (rewrite Hsplit, lookup_app_r, Nat.sub_diag by lia; done).
        apply lookup_seq in Hl as [-> ?]. lia. }
      eapply answers_weaken; [by apply answers_build_row|done|]. intros e [?|Hn]; [by left|]. right.
      intros [_ Hrows]. by apply Hn, Hrows.
    + intros st. by rewrite length_seq.
  - intros st (_ & Hb & Hrows). apply answers_ret. split; [by constructor|done].
  - done.
Qed.

(** ** Positions of own events *)

Lemma among_cons f row e len : trace_event row = Some e -> f e = true ->
  among f row (S len) = e :: among f (S row) len.
Proof.
  intros He Hf. unfold RegisterReplay.among. change (S len) with (1 + len). rewrite events_in_app, List.filter_app.
  unfold events_in at 1. cbn [seq omap list_omap].
  change (RegisterReplay.trace_event store context row) with (trace_event row). rewrite He. cbn. rewrite Hf.
  by rewrite Nat.add_1_r.
Qed.

Lemma among_index f n i e : among f 0 n !! i = Some e -> i = length (among f 0 (te_row e)) /\ te_row e < n.
Proof.
  intros Hi. pose proof (list_elem_of_lookup_2 _ _ _ Hi) as Hin. apply among_elem in Hin as (Hf & Hr & He).
  split; [|lia]. pose proof (among_sorted store context f 0 n) as Hs.
  assert (among f 0 n !! length (among f 0 (te_row e)) = Some e) as Hj.
  { rewrite (among_split store context f n (te_row e)) by lia. rewrite lookup_app_r, Nat.sub_diag by lia.
    replace (n - te_row e) with (S (n - te_row e - 1)) by lia. by rewrite (among_cons f (te_row e) e). }
  assert (NoDup (map te_row (among f 0 n))) as Hnd.
  { by apply increasing_NoDup. }
  apply (NoDup_lookup (map te_row (among f 0 n)) _ _ (te_row e)); [done|..]; rewrite list_lookup_fmap;
    [by rewrite Hi|by rewrite Hj].
Qed.

Lemma among_middle f n t r0 : r0 <= t -> t <= n ->
  among f 0 n = among f 0 r0 ++ among f r0 (t - r0) ++ among f t (n - t).
Proof.
  intros Hr Ht. rewrite (among_split store context f n t) by lia.
  rewrite (among_split store context f t r0) by lia. by rewrite app_assoc.
Qed.

Lemma answers_own_count k n sc t : scope_kept k n sc -> t < n ->
  answers (W := W) (guarded_upper_bound (length (v_items (sp_events sc)))
    (fun i => row_at_most t (v_items (sp_events sc) !! i)))
    (fun r => r = length (among (own k) 0 (S t))) refused.
Proof.
  intros Hk Ht. pose proof (sk_events _ _ _ Hk) as Hev. pose proof (Forall2_length _ _ _ Hev) as Hlen.
  pose proof (among_split store context (own k) n (S t) Ht) as Hsplit.
  apply answers_upper_bound.
  - rewrite Hlen, Hsplit, length_app. lia.
  - intros i Hi. destruct (lookup_lt_is_Some_2 _ _ Hi) as [e He].
    assert (among (own k) 0 n !! i = Some e) as Hn by (by rewrite Hsplit, lookup_app_l).
    destruct (stands_lookup _ _ _ _ _ Hk Hn) as (r & -> & (Hrow & _)). cbn. apply Nat.leb_le. rewrite Hrow.
    apply list_elem_of_lookup_2, among_elem in He. lia.
  - intros i [Hi Hl]. destruct (lookup_lt_is_Some_2 _ _ Hl) as [r Hr]. rewrite Hr. cbn. apply Nat.leb_gt.
    destruct (Forall2_lookup_l _ _ _ _ _ Hev Hr) as (e & He & (Hrow & _)). rewrite Hrow.
    rewrite Hsplit, lookup_app_r in He by done. apply list_elem_of_lookup_2, among_elem in He. lia.
Qed.

Lemma answers_last_invalidation k n sc t : scope_kept k n sc -> t < n ->
  answers (W := W) (last_invalidation sc t)
    (fun found => match last (flagged (among (own k) 0 (S t))) with
       | Some i => exists r e, found = Some (i, r) /\ among (own k) 0 (S t) !! i = Some e /\ stands r e
       | None => found = None
       end) refused.
Proof.
  intros Hk Ht. pose proof (among_split store context (own k) n (S t) Ht) as Hsplit.
  set (a := among (own k) 0 (S t)) in *. destruct (flagged_app a (among (own k) (S t) (n - S t))) as (rest & Hfl & Hrest).
  rewrite <- Hsplit in Hfl. unfold last_invalidation. rewrite (sk_invalidations _ _ _ Hk). rewrite Hfl.
  apply answers_bind. eapply answers_mono; [apply (answers_upper_bound _ _ (length (flagged a)))|].
  - rewrite length_app. lia.
  - intros i Hi. destruct (lookup_lt_is_Some_2 _ _ Hi) as [j Hj]. rewrite lookup_app_l, Hj by done. cbn [mbind option_bind].
    pose proof (flagged_range _ _ (list_elem_of_lookup_2 _ _ _ Hj)) as Hlt.
    destruct (lookup_lt_is_Some_2 _ _ Hlt) as [e He].
    assert (among (own k) 0 n !! j = Some e) as Hn by (by rewrite Hsplit, lookup_app_l).
    destruct (stands_lookup _ _ _ _ _ Hk Hn) as (r & -> & (Hrow & _)). cbn. apply Nat.leb_le. rewrite Hrow.
    apply list_elem_of_lookup_2, among_elem in He. lia.
  - intros i [Hi _]. rewrite lookup_app_r by done. destruct (rest !! _) as [j|] eqn:Hj; cbn [mbind option_bind]; [|done].
    rewrite Forall_forall in Hrest. pose proof (Hrest j (list_elem_of_lookup_2 _ _ _ Hj)) as Hge.
    destruct (v_items (sp_events sc) !! j) as [r|] eqn:Hr; [|done]. cbn. apply Nat.leb_gt.
    destruct (Forall2_lookup_l _ _ _ _ _ (sk_events _ _ _ Hk) Hr) as (e & He & (Hrow & _)). rewrite Hrow.
    rewrite Hsplit, lookup_app_r in He by done. apply list_elem_of_lookup_2, among_elem in He. lia.
  - intros stop ->. apply answers_ret. rewrite last_lookup.
    destruct (length (flagged a)) as [|c] eqn:Hc; cbn [mbind option_bind Nat.pred].
    { apply nil_length_inv in Hc. by rewrite Hc. }
    destruct (lookup_lt_is_Some_2 (flagged a) c) as [j Hj]; [lia|]. rewrite Hj, lookup_app_l, Hj by lia. cbn [mbind option_bind].
    pose proof (flagged_range _ _ (list_elem_of_lookup_2 _ _ _ Hj)) as Hlt.
    destruct (lookup_lt_is_Some_2 _ _ Hlt) as [e He].
    assert (among (own k) 0 n !! j = Some e) as Hn by (by rewrite Hsplit, lookup_app_l).
    destruct (stands_lookup _ _ _ _ _ Hk Hn) as (r & -> & Hst). exists r, e. done.
Qed.

(** ** Answering *)

Section query.
Context (scopes : gmap ScopeKey ScopeReplay) (key : EventKey) (target : nat).
Hypothesis Hreplayable : replayable store context.
Hypothesis Hbuilt : built (sv_event_count store) scopes.
Hypothesis Htarget : target < sv_event_count store.
Hypothesis Hkey : sv_event_key store target = Ok (Some key).
Let k : ScopeKey := (ek_timeline key, ek_tid key).

Lemma all_usable e : trace_event (te_row e) = Some e -> te_row e < sv_event_count store -> usable e.
Proof. intros He Hr. apply (row_ok_usable (te_row e)); [by apply (ry_rows _ _ Hreplayable)|done]. Qed.

Lemma target_own e : trace_event target = Some e -> scope_of e = k.
Proof.
  unfold RegisterReplay.trace_event. rewrite Hkey. repeat case_match; try done. by intros [= <-].
Qed.

Lemma target_not_global e : trace_event target = Some e -> global k e = false.
Proof.
  intros He. destruct (global k e) eqn:Hg; [|done]. apply global_not_own in Hg.
  rewrite <- (target_own e He), own_self in Hg. done.
Qed.

Lemma globals_through : among (global k) 0 (S target) = among (global k) 0 target.
Proof.
  rewrite among_snoc. change (RegisterReplay.trace_event store context target) with (trace_event target).
  destruct (trace_event target) as [e|] eqn:He; [|apply app_nil_r]. rewrite target_not_global by done. apply app_nil_r.
Qed.

(** The last global invalidation before the target, as [state_at] finds it. *)
Definition global_is (found : option ReplayEvent) : Prop :=
  match last (among (global k) 0 target) with
  | Some g => exists r, found = Some r /\ stands r g
  | None => found = None
  end.

Lemma answers_global :
  answers (W := W) (match ek_tid key, scopes !! ((ek_timeline key, None) : ScopeKey) with
    | Some _, Some scope => let! found := last_invalidation scope target in ret (snd <$> found)
    | _, _ => ret None
    end) global_is refused.
Proof.
  unfold global_is. rewrite <- globals_through. subst k. destruct (ek_tid key) as [t|].
  2: { apply answers_ret. assert (among (global (ek_timeline key, None)) 0 (S target) = []) as ->; [|done].
       apply among_nil. intros e [He _]%among_elem. by rewrite no_globals in He. }
  rewrite globals_are_own. pose proof (Hbuilt (ek_timeline key, None)) as Hb.
  destruct (scopes !! ((ek_timeline key, None) : ScopeKey)) as [sc|].
  2: { apply answers_ret. pose proof (among_split store context (own (ek_timeline key, None)) _ (S target) Htarget) as Hs.
       rewrite Hb in Hs. symmetry in Hs. apply app_eq_nil in Hs as [-> _]. done. }
  apply answers_bind. eapply answers_mono; [eapply answers_last_invalidation; [exact Hb|done]|]. intros found Hf. apply answers_ret.
  pose proof (last_flagged (among (own (ek_timeline key, None)) 0 (S target))) as Hl.
  destruct (last (flagged _)) as [i|].
  - destruct Hf as (r & e & -> & Hi & Hst), Hl as (e' & Hi' & _ & -> & _). exists r. rewrite Hi in Hi'. by injection Hi' as <-.
  - rewrite Hf. by rewrite Hl.
Qed.

(** A point replay can resume from: the state before row [r0], or any state
    when row [r0] is an invalidation of the thread itself. *)
Definition resume (st : RegisterSnapshotState) (start r0 : nat) : Prop :=
  r0 <= target /\ start = length (among (own k) 0 r0) /\ full_file st
  /\ (st = replay k r0 \/ exists e, trace_event r0 = Some e /\ own k e = true /\ te_invalidates e = true).

(** [state_row] compares with a global invalidation as [r0] does. *)
Definition state_row_before (state_row : option nat) (r0 : nat) : Prop :=
  forall g, global k g = true -> trace_event (te_row g) = Some g ->
    match state_row with Some row => (row <? te_row g)%nat | None => true end = (r0 <=? te_row g)%nat.

(** The replay from a resume point with no global invalidation left. *)
Lemma resume_replay st start r0 : resume st start r0 -> among (global k) r0 (target - r0) = [] ->
  let st' := foldl step_event st (among (own k) r0 (target - r0)) in
  match trace_event target with
  | Some e => after_reads e st' = after_reads e (replay k target) /\ step_event st' e = step_event (replay k target) e
  | None => st' = replay k target
  end.
Proof.
  intros (Hr0 & _ & Hwhole & Hst) Hnone st'.
  assert (among (relevant k) r0 (target - r0) = among (own k) r0 (target - r0)) as Hrel.
  { apply among_ext. intros e Hr He. unfold relevant. destruct (global k e) eqn:Hg; [|by rewrite orb_false_r].
    exfalso. assert (e ∈ among (global k) r0 (target - r0)) as Hin by (by apply among_elem).
    rewrite Hnone in Hin. by apply not_elem_of_nil in Hin. }
  pose proof (replay_split store context k target r0 Hr0) as Hreplay. rewrite Hrel in Hreplay.
  destruct Hst as [->|(e0 & He0 & Hown & Hinv)].
  { subst st'. rewrite <- Hreplay. by destruct (trace_event target). }
  assert (length st = length (replay k r0)) as Hlen by (apply whole_length; [done|apply whole_replay]).
  destruct (decide (r0 = target)) as [->|Hne].
  - subst st'. rewrite Nat.sub_diag in *. change (among (own k) target 0) with (@nil TraceEvent) in *. cbn [foldl] in *.
    rewrite He0. split; [by apply reads_reset|by apply step_reset].
  - assert (st' = replay k target) as ->; [|by destruct (trace_event target)].
    rewrite Hreplay. subst st'. replace (target - r0) with (S (target - r0 - 1)) by lia.
    rewrite (among_cons (own k) r0 e0) by done. cbn [foldl]. by rewrite (step_reset store e0 st (replay k r0)).
Qed.

Lemma resume_global r g start :
  stands r g -> last (among (global k) 0 target) = Some g ->
  start = length (among (own k) 0 (S (te_row g))) ->
  resume (step_event unknown_snapshot g) start (S (te_row g))
  /\ among (global k) (S (te_row g)) (target - S (te_row g)) = [].
Proof.
  intros Hst Hg ->. pose proof (last_Some_elem_of _ _ Hg) as Hin. apply among_elem in Hin as (Hgg & Hr & He).
  split.
  - split_and!; [lia|done|unfold full_file; rewrite length_step; apply whole_unknown|left].
    unfold RegisterReplay.replay. rewrite events_in_snoc, List.filter_app.
    change (RegisterReplay.trace_event store context (te_row g)) with (trace_event (te_row g)). rewrite He.
    cbn [option_list option_rect List.filter].
    assert (relevant k g = true) as -> by (unfold relevant; rewrite Hgg; apply orb_true_r). rewrite foldl_app. cbn.
    apply step_reset; [by eapply global_invalidates|]. by rewrite length_replay_from.
  - apply among_nil. intros e He'. apply last_Some in Hg as [l Hl].
    pose proof (among_sorted store context (global k) 0 target) as Hs.
    pose proof He' as (Hge & Hre & Hte)%among_elem.
    assert (e ∈ among (global k) 0 target) as Hin by (apply among_elem; split_and!; [done|lia|lia|done]).
    rewrite Hl in Hin, Hs. apply elem_of_app in Hin as [Hin|Hin%list_elem_of_singleton]; [|subst; lia].
    rewrite map_app in Hs. apply StronglySorted_app_1_elem_of with (x1 := te_row e) (x2 := te_row g) in Hs;
      [lia|by apply list_elem_of_fmap_2|left].
Qed.

Lemma no_later_global g r0 : last (among (global k) 0 target) = Some g -> te_row g < r0 ->
  among (global k) r0 (target - r0) = [].
Proof.
  intros Hg Hlt. apply among_nil. intros e He. pose proof He as (Hge & Hre & Hte)%among_elem.
  assert (e ∈ among (global k) 0 target) as Hin by (apply among_elem; split_and!; [done|lia|lia|done]).
  apply last_Some in Hg as [l Hl]. pose proof (among_sorted store context (global k) 0 target) as Hs. rewrite Hl in Hin, Hs.
  apply elem_of_app in Hin as [Hin|Hin%list_elem_of_singleton]; [|subst; lia].
  rewrite map_app in Hs. apply StronglySorted_app_1_elem_of with (x1 := te_row e) (x2 := te_row g) in Hs;
    [lia|by apply list_elem_of_fmap_2|left].
Qed.

(** The loop over the events to replay. *)
Lemma answers_replay sc st start r0 :
  scope_kept k (sv_event_count store) sc -> resume st start r0 ->
  among (global k) r0 (target - r0) = [] ->
  answers (W := W)
    (let! found := charged_find delta_rows
       (drop start (take (length (among (own k) 0 (S target))) (v_items (sp_events sc)))) st
       (replay_turn store target key) in
     match found with inr answer => ret answer | inl st => ret (mkStateAtEvent key st st) end)
    (fun answer => answer = state_spec store context key target) refused.
Proof.
  intros Hk Hresume Hnone. pose proof (resume_replay _ _ _ Hresume Hnone) as Hfinal. cbv zeta in Hfinal.
  destruct Hresume as (Hr0 & -> & _ & _).
  set (pre := among (own k) r0 (target - r0)) in *.
  set (tail := match trace_event target with Some e => [e] | None => [] end).
  assert (Forall2 stands (drop (length (among (own k) 0 r0))
    (take (length (among (own k) 0 (S target))) (v_items (sp_events sc)))) (pre ++ tail)) as Hst.
  { pose proof (sk_events _ _ _ Hk) as Hev.
    rewrite (among_middle (own k) _ (S target) r0) in Hev by lia.
    assert (among (own k) r0 (S target - r0) = pre ++ tail) as Hpt.
    { subst pre tail. replace (S target - r0) with ((target - r0) + 1) by lia. rewrite among_app. f_equal.
      replace (r0 + (target - r0)) with target by lia.
      destruct (trace_event target) as [e|] eqn:He.
      - rewrite (among_cons (own k) target e); [done|done|]. rewrite <- (target_own e He). apply own_self.
      - unfold RegisterReplay.among, events_in. cbn.
        change (RegisterReplay.trace_event store context target) with (trace_event target). by rewrite He. }
    rewrite Hpt, (app_assoc (among (own k) 0 r0)) in Hev. rewrite (among_split store context (own k) (S target) r0) by lia.
    rewrite Hpt. apply (Forall2_take _ _ _ (length (among (own k) 0 r0 ++ pre ++ tail))) in Hev.
    rewrite take_app_length in Hev.
    apply (Forall2_drop _ _ _ (length (among (own k) 0 r0))) in Hev. by rewrite drop_app_length in Hev. }
  set (rs := drop _ _) in *. clearbody rs. apply answers_bind.
  eapply answers_mono.
  { apply (answers_charged_find refused ltac:(done) _ _ _ _ (fun done s => length done <= length pre
      /\ s = foldl step_event st (take (length done) pre))
      (fun answer => answer = state_spec store context key target)); [by split; [cbn; lia|]|].
    intros done r rest s Hsplit [Hlen ->]. unfold replay_turn.
    assert (rs !! length done = Some r) as Hl by (rewrite Hsplit, lookup_app_r, Nat.sub_diag by lia; done).
    destruct (Forall2_lookup_l _ _ _ _ _ Hst Hl) as (e & He & (Hrow & Hobs & Hinv & Hte)).
    apply answers_bind, answers_result. rewrite Hrow. rewrite (trace_event_key store context e Hte). cbn [map_err].
    apply answers_bind, answers_option. rewrite Hobs.
    destruct (decide (length done < length pre)) as [Hlt|Hge].
    - rewrite lookup_app_l in He by done. pose proof (list_elem_of_lookup_2 _ _ _ He) as Hin.
      apply among_elem in Hin as (_ & Hr & _). rewrite (proj2 (Nat.eqb_neq _ _)) by lia.
      apply answers_bind. eapply answers_weaken; [by apply answers_transition| |].
      + intros s' [-> _]. apply answers_ret. rewrite length_app. cbn [length]. split; [lia|].
        rewrite Nat.add_1_r. rewrite (take_S_r _ _ e) by done. by rewrite foldl_app.
      + intros x [?|Hn]; [done|]. destruct Hn. apply all_usable; [done|lia].
    - assert (length done = length pre) as Hlp by lia. rewrite Hlp in He.
      rewrite lookup_app_r, Nat.sub_diag in He by lia. subst tail.
      destruct (trace_event target) as [e'|] eqn:He'; [|done]. injection He as ->.
      pose proof (trace_event_row _ _ _ _ He') as Htr. rewrite Htr, Nat.eqb_refl, Hlp, firstn_all.
      destruct Hfinal as [Hf1 Hf2]. unfold apply_before. rewrite Hinv.
      assert (usable e) as Hu by (apply all_usable; [done|lia]).
      apply answers_bind. eapply answers_weaken; [apply (answers_non_writes store (te_row e))| |].
      2: { intros x [?|Hn]; [done|]. by destruct Hn. }
      intros s1 [-> _]. apply answers_bind. eapply answers_weaken; [apply answers_writes| |].
      2: { intros x [?|Hn]; [done|]. rewrite <- Htr in Hn. by destruct Hn. }
      intros s2 [-> _]. apply answers_ret. unfold state_spec.
      change (RegisterReplay.trace_event store context target) with (trace_event target). rewrite He'. f_equal.
      + exact Hf1.
      + unfold RegisterReplay.step_event at 1, after_writes at 1 in Hf2. by rewrite Htr in Hf2. }
  intros [s|answer] Hr; cbn in Hr; [|by apply answers_ret]. destruct Hr as [Hlen ->].
  pose proof (Forall2_length _ _ _ Hst) as Hlr. rewrite length_app in Hlr.
  apply answers_ret. unfold state_spec. change (RegisterReplay.trace_event store context target) with (trace_event target).
  subst tail. destruct (trace_event target); [cbn in Hlr; lia|]. cbn in Hlr.
  rewrite take_ge by lia. change (ek_timeline key, ek_tid key) with k. by rewrite Hfinal.
Qed.

(** *** Where [state_at] resumes *)

Definition Cursor : Type := RegisterSnapshotState * nat * option nat.
Definition resumes (c : Cursor) : Prop :=
  let '(st, start, state_row) := c in exists r0, resume st start r0 /\ state_row_before state_row r0.

Definition from_checkpoint (sc : ScopeReplay) (stop : nat) : Cursor :=
  match (index ← match stop with O => None | S index => Some index end; v_items (sp_checkpoints sc) !! index) with
  | Some c => (rk_state c, rk_event_index c + 1, Some (rk_row c))%nat
  | None => (unknown_snapshot, O, None)
  end.

Definition from_invalidation (found : option (nat * ReplayEvent)) (c : Cursor) : Cursor :=
  let '(st, start, state_row) := c in
  match found with
  | Some (index, event) =>
      if (start <=? index)%nat then (unknown_snapshot, index, Some (re_row event)) else (st, start, state_row)
  | None => (st, start, state_row)
  end.

Lemma resumes_start : resumes (unknown_snapshot, 0, None).
Proof.
  exists 0. split; [|by intros g _ _]. split_and!; [lia|done|apply whole_unknown|by left].
Qed.

Lemma resumes_checkpoint c : checkpoint_kept k (sv_event_count store) c -> rk_row c < target ->
  resumes (rk_state c, rk_event_index c + 1, Some (rk_row c))%nat.
Proof.
  intros (e & Hi & Hrow & Hst) Hlt. exists (S (rk_row c)). split; [|by intros g _ _].
  pose proof (among_index _ _ _ _ Hi) as [Hidx _].
  pose proof (list_elem_of_lookup_2 _ _ _ Hi) as Hin. apply among_elem in Hin as (Hown & _ & He).
  split_and!; [lia| |rewrite Hst; apply whole_replay|by left].
  rewrite <- Hrow, among_snoc.
  change (RegisterReplay.trace_event store context (te_row e)) with (trace_event (te_row e)).
  by rewrite He, Hown, length_app, Hidx.
Qed.

Lemma answers_checkpoint sc : scope_kept k (sv_event_count store) sc ->
  answers (W := W) (guarded_upper_bound (length (v_items (sp_checkpoints sc))) (fun index =>
      match v_items (sp_checkpoints sc) !! index with Some c => (rk_row c <? target)%nat | None => false end))
    (fun stop => resumes (from_checkpoint sc stop)) refused.
Proof.
  intros Hk. pose proof (sk_checkpoints _ _ _ Hk) as Hc. pose proof (sk_sorted _ _ _ Hk) as Hs.
  set (l := v_items (sp_checkpoints sc)) in *.
  destruct (sorted_prefix rk_row l target Hs) as (n & Hn & Hbefore & Hafter).
  eapply answers_mono; [apply (answers_upper_bound _ _ n Hn)|].
  - intros i Hi. destruct (Hbefore i Hi) as (c & -> & Hlt). by apply Nat.ltb_lt.
  - intros i Hi. destruct (l !! i) as [c|] eqn:Hl; [|done]. apply Nat.ltb_ge. apply (Hafter i); [lia|done].
  - intros ? ->. unfold from_checkpoint. destruct n as [|n]; [apply resumes_start|]. cbn [mbind option_bind].
    destruct (Hbefore n) as (c & Hl & Hlt); [lia|]. fold l. rewrite Hl.
    apply resumes_checkpoint; [|done]. rewrite Forall_forall in Hc. apply Hc. by eapply list_elem_of_lookup_2.
Qed.

Lemma resumes_invalidation c found :
  match last (flagged (among (own k) 0 (S target))) with
  | Some i => exists r e, found = Some (i, r) /\ among (own k) 0 (S target) !! i = Some e /\ stands r e
  | None => found = None
  end -> resumes c -> resumes (from_invalidation found c).
Proof.
  destruct c as [[st start] state_row]. pose proof (last_flagged (among (own k) 0 (S target))) as Hlast.
  destruct (last (flagged _)) as [i|]; [|by intros ->]. destruct Hlast as (e & Hi & Hinv & _).
  intros (r & e' & -> & Hi' & (Hrow & _ & _ & He)) Hc. rewrite Hi in Hi'. injection Hi' as <-.
  cbn [from_invalidation]. destruct (start <=? i)%nat; [|done].
  pose proof (among_index _ _ _ _ Hi) as [Hidx Hlt].
  pose proof (list_elem_of_lookup_2 _ _ _ Hi) as Hin. apply among_elem in Hin as (Hown & _ & _).
  exists (te_row e). split.
  - split_and!; [lia|done|apply whole_unknown|right]. by exists e.
  - intros g Hg Hge. rewrite Hrow. apply eq_true_iff_eq. rewrite Nat.ltb_lt, Nat.leb_le.
    enough (te_row e <> te_row g) by lia. intros Heq. apply global_not_own in Hg. rewrite Heq in He. congruence.
Qed.

Lemma answers_restart sc st start state_row found :
  scope_kept k (sv_event_count store) sc -> resumes (st, start, state_row) -> global_is found ->
  answers (W := W)
    (match found with
     | Some g =>
         if match state_row with Some row => (row <? re_row g)%nat | None => true end then
           let! state := apply_stored_event store unknown_snapshot g in
           let! replay_start := guarded_upper_bound (length (v_items (sp_events sc))) (fun index =>
             row_at_most (re_row g) (v_items (sp_events sc) !! index)) in
           ret (state, replay_start)
         else ret (st, start)
     | None => ret (st, start)
     end)
    (fun '(st, start) => exists r0, resume st start r0 /\ among (global k) r0 (target - r0) = []) refused.
Proof.
  intros Hk (r0 & Hresume & Hrow) Hg. unfold global_is in Hg.
  destruct (last (among (global k) 0 target)) as [g|] eqn:Hlast.
  2: { subst found. apply answers_ret. exists r0. split; [done|]. apply last_None in Hlast.
       destruct Hresume as (Hr0 & _). rewrite (among_split store context (global k) target r0 Hr0) in Hlast.
       by apply app_nil in Hlast as [_ ?]. }
  destruct Hg as (r & -> & Hst). pose proof (last_Some_elem_of _ _ Hlast) as Hin.
  apply among_elem in Hin as (Hgg & Hlt & He). pose proof Hst as (Hre & _ & _ & _).
  rewrite Hre, (Hrow g Hgg He). destruct (Nat.leb_spec r0 (te_row g)) as [Hle|Hgt].
  - apply answers_bind. eapply answers_weaken; [by apply (answers_stored store context _ _ g)| |].
    2: { intros x [?|Hn]; [done|]. destruct Hn. apply all_usable; [done|lia]. }
    intros ? ->. apply answers_bind. eapply answers_mono; [apply (answers_own_count k (sv_event_count store)); [done|lia]|].
    intros ? ->. apply answers_ret. exists (S (te_row g)). by apply (resume_global r).
  - apply answers_ret. exists r0. split; [done|]. by eapply no_later_global.
Qed.

(** A thread with no register events. *)
Lemma untouched_spec found : among (own k) 0 (sv_event_count store) = [] -> global_is found ->
  answers (W := W)
    (let! state := match found with
       | Some g => apply_stored_event store unknown_snapshot g
       | None => ret unknown_snapshot
       end in ret (mkStateAtEvent key state state))
    (fun answer => answer = state_spec store context key target) refused.
Proof.
  intros Hnil Hg. rewrite (among_split store context (own k) _ target) in Hnil by lia.
  apply app_nil in Hnil as [Hnil Htail].
  assert (trace_event target = None) as Hnone.
  { destruct (trace_event target) as [e|] eqn:He; [|done]. exfalso.
    replace (sv_event_count store - target) with (S (sv_event_count store - target - 1)) in Htail by lia.
    rewrite (among_cons (own k) target e) in Htail; [done|done|]. rewrite <- (target_own e He). apply own_self. }
  pose proof (catch_up store context k target 0 unknown_snapshot) as Hc.
  rewrite reach_none in Hc by done. specialize (Hc ltac:(lia) whole_unknown).
  unfold global_is in Hg. apply answers_bind.
  assert (forall st, st = replay k target -> answers (W := W) (ret (mkStateAtEvent key st st))
    (fun answer => answer = state_spec store context key target) refused) as Hfinish.
  { intros ? ->. apply answers_ret. unfold state_spec.
    change (RegisterReplay.trace_event store context target) with (trace_event target). by rewrite Hnone. }
  change (RegisterReplay.among store context (global k) 0 target) with (among (global k) 0 target) in Hc.
  destruct (last (among (global k) 0 target)) as [g|] eqn:Hlast.
  - destruct Hg as (r & -> & Hst). pose proof (last_Some_elem_of _ _ Hlast) as Hin.
    apply among_elem in Hin as (_ & Hlt & He). destruct (decide (0 <= te_row g)) as [_|]; [|lia].
    eapply answers_weaken; [by apply (answers_stored store context _ _ g)| |].
    + intros ? ->. by apply Hfinish.
    + intros x [?|Hn]; [done|]. destruct Hn. apply all_usable; [done|lia].
  - subst found. apply answers_ret, Hfinish. by rewrite Hc.
Qed.

Lemma answers_state_at : sv_row_for_source_key store key = Some target ->
  answers (W := W) (state_at store scopes key) (fun answer => answer = state_spec store context key target) refused.
Proof.
  intros Hfor. unfold state_at. rewrite Hfor. apply answers_bind, answers_option. apply answers_bind.
  eapply answers_mono; [apply answers_global|]. intros found Hg. change (ek_timeline key, ek_tid key) with k.
  pose proof (Hbuilt k) as Hk. destruct (scopes !! k) as [sc|]; [|by apply untouched_spec].
  apply answers_bind. eapply answers_mono; [by apply (answers_own_count k (sv_event_count store))|]. intros ? ->.
  apply answers_bind. eapply answers_mono; [by apply answers_checkpoint|]. intros stop Hc. cbv beta in Hc.
  change (match (index ← match stop with O => None | S index => Some index end;
                 v_items (sp_checkpoints sc) !! index) with
          | Some c => (rk_state c, rk_event_index c + 1, Some (rk_row c))%nat
          | None => (unknown_snapshot, O, None)
          end) with (from_checkpoint sc stop).
  destruct (from_checkpoint sc stop) as [[st start] state_row].
  apply answers_bind. eapply answers_mono; [by apply (answers_last_invalidation k (sv_event_count store))|].
  intros invalidation Hinv. pose proof (resumes_invalidation _ _ Hinv Hc) as Hr.
  cbn [from_invalidation] in Hr. destruct (match invalidation with Some _ => _ | None => _ end) as [[st' start'] row'].
  apply answers_bind. eapply answers_mono; [by apply answers_restart|].
  intros [st2 start2] (r0 & Hresume & Hnone). by apply (answers_replay _ _ _ r0).
Qed.

End query.

(** C6: The register index answers with the plain replay.  Over every store,
    guard and heap, [build] succeeds only on stores whose observations are in row
    order and decode, and fails only for such a defect or because the guard or
    the heap refused; after it, [state_at] of any key of the store returns the
    registers before and after its row that the replay of all rows from the start
    gives - whatever checkpoint, invalidation or timeline-wide invalidation it
    resumed from - or a refusal, and a key that is not in the store is an error. *)
Theorem register_states_exact (w : W) :
  match build store context tt w with
  | (Ok scopes, _, _) =>
      replayable store context
      /\ forall key w',
           match state_at store scopes key tt w' with
           | (Ok answer, _, _) =>
               exists target, sv_row_for_source_key store key = Some target
                 /\ (target < sv_event_count store -> sv_event_key store target = Ok (Some key) ->
                      answer = state_spec store context key target)
           | (Err e, _, _) =>
               match sv_row_for_source_key store key with
               | None => e = state_invalid "event key is not in this trace"
               | Some target =>
                   target < sv_event_count store -> sv_event_key store target = Ok (Some key) -> refused e
               end
           end
  | (Err e, _, _) => refused e \/ ~ replayable store context
  end.
Proof.
  pose proof (answers_build w) as Hbuild. destruct (build store context tt w) as [[[scopes|e] []] w1]; [|done].
  destruct Hbuild as [Hrep Hbuilt]. split; [done|]. intros key w'.
  destruct (sv_row_for_source_key store key) as [target|] eqn:Hfor.
  - pose proof (fun Ht Hkey => answers_state_at scopes key target Hrep Hbuilt Ht Hkey Hfor w') as Hq.
    destruct (state_at store scopes key tt w') as [[[answer|e] []] w2]; [|done]. exists target. by split.
  - unfold state_at. by rewrite Hfor.
Qed.

End state.
